(* ===== verification/_CoqProject ===== *)
-Q . S2P
Prelude.v
BitArray.v
Merkle.v
Crypto.v
ValidatorSet.v
Votes.v
PartSet.v
Proposal.v
Commit.v
VoteSet.v
HeightVoteSet.v
Validation.v
CommitFlow.v
Mediation.v
MediationRun.v
PrivVal.v
ConsensusState.v
BlockFlow.v
ConsensusSafety.v
Agreement.v
Header.v
Light.v
LightStore.v
LightClient.v
LightSafety.v
LightRun.v
Params.v
Wire.v
Evidence.v
Block.v
State.v
Chain.v
StateStore.v
Executor.v
EvidencePool.v
BlockStore.v
CList.v
TxCache.v
Mempool.v
Messages.v
PeerState.v
Reactor.v
Wal.v
