(* ===== verification/Prelude.v ===== *)
(** * A verification library for the CometBFT node of this repository

    The program is the Go node under [src/cometbft/]: a Tendermint consensus engine
    with a controller mediation service that routes selected consensus messages
    through an external process.  The library translates the parts that
    decide what the node accepts, counts, signs and commits, and proves them
    correct.

    ** Conventions

    Go code that can panic returns [outcome] ([Done] or [Panic]); an [error] result is
    an [option] or a [result]; nil pointers are [option].  Machine integers are [Z] with
    the wrap-around of their type written out ([wrap64], [wrap32], [wrapu64]);
    indexing a slice out of range is a panic ([idx], [upd]).  Byte slices are lists
    of [Z], maps are [gmap].  A mutable receiver is passed in and returned.  Methods that
    run under a mutex are one step; where the order of steps of several
    goroutines matters they are a step relation ([MediationRun]).  Code that is not in
    the repository, or that is generated, is a class: public keys
    ([Crypto.PubKeyOps]), the protobuf encodings of signed messages ([Votes.SignCodec],
    [Proposal.MsgCodec]), batch verifiers ([Validation.BatchOps]), SHA-256
    ([Merkle.HashOps]), native message codecs ([Mediation.NativeCodec]), blocks
    ([ConsensusState.BlockOps]); the laws the
    code relies on are classes of their own ([BatchLaws], [MsgCodecLaws], [HashLaws])
    and every one of them has an instance in the examples.

    ** Files

    - [Prelude]: outcomes, integers, slices, sums, byte order, tactics, the hint
      database [go].
    - [BitArray]: [internal/bits/bit_array.go].
    - [Merkle]: [crypto/merkle/hash.go], [tree.go], [proof.go].
    - [Crypto]: the interface of [crypto/crypto.go].
    - [ValidatorSet]: [types/validator.go], [types/validator_set.go].
    - [Votes]: block ids, votes, sign bytes ([types/vote.go], [types/canonical.go],
      [types/part_set.go] headers).
    - [PartSet]: [types/part_set.go], on [Merkle] and [BitArray].
    - [Proposal]: [types/proposal.go].
    - [Commit]: commits and the weighted median of [types/block.go], [types/time/time.go].
    - [VoteSet]: the vote tally [types/vote_set.go].
    - [HeightVoteSet]: the tallies of a height,
      [internal/consensus/types/height_vote_set.go].
    - [Validation]: commit verification, [types/validation.go].
    - [CommitFlow]: the way from a tally to a verified commit.
    - [Mediation]: the sequential part of [node/controller_mediation.go] and the peer
      boundary in [p2p/peer.go], [p2p/switch.go], [p2p/controller_mediation.go].
    - [MediationRun]: its goroutines as an interleaving of atomic steps; a call of code outside
      the service (POST, dispatch, registration, server shutdown) may take any time.
    - [PrivVal]: the file signer [privval/file.go] and [SignAndCheckVote].
    - [ConsensusState]: the consensus state machine, [internal/consensus/state.go], with the
      timeouts of [config/config.go]: one definition per handler and per step it
      enters, in a monad of state and panics.
    - [BlockFlow]: the block from the proposer's parts to the receiver's state.
    - [ConsensusSafety]: a program logic for those handlers, the invariant of a node, its
      preservation by every handler, and runs of a node.
    - [Agreement]: networks of nodes, quorum intersection, agreement.
    - [Header]: headers, signed headers and light blocks ([types/block.go], [types/light.go]),
      their checks and hashes, and the hashes of validator sets.
    - [Light]: the light client's verifier, [light/verifier.go].
    - [LightStore]: its trusted store, [light/store/db].
    - [LightClient]: the client and the divergence detector, [light/client.go] and
      [light/detector.go], in a monad of client state, errors and panics.
    - [LightSafety]: traces of a verification, termination and success of skipping
      verification.  [LightRun]: runs of the client, rolling back, dropping witnesses.
    - [Params]: the consensus parameters, [types/params.go].
    - [Wire]: conversions from and to protobuf messages, with the checks they make.
    - [Evidence]: duplicate votes and light client attacks, [types/evidence.go] and
      [internal/evidence/verify.go].
    - [Block]: blocks, their hashes, checks, wire form, sizes and limits.
    - [State]: the state between blocks, genesis, making and validating blocks, the next state:
      [state/state.go], [state/validation.go] and the pure part of [state/execution.go].
    - [Chain]: the invariant of the state and its preservation, chains of executed blocks, the
      chain as the light client sees it.
    - [StateStore]: the state store, [state/store.go], and its refinement of the history.
    - [Executor]: proposing and applying blocks with every persistent write
      ([state/execution.go]), the handshake and the replay of blocks
      ([internal/consensus/replay.go]).
    - [EvidencePool]: the evidence pool, [internal/evidence/pool.go], and its entry point of
      verification.
    - [BlockStore]: the block store, [store/store.go], with the keys of its first layout.
    - [CList]: the concurrent list, [internal/clist/clist.go], as a store of linked elements.
    - [TxCache]: the transaction cache, [mempool/cache.go].
    - [Mempool]: the mempool, [mempool/clist_mempool.go], over both, with a system of the mempool,
      its open requests and an update in progress.
    - [Messages]: the messages of consensus, their checks and their protobuf forms, with the entries of
      the write-ahead log ([internal/consensus/msgs.go]).
    - [PeerState]: what a node knows of a peer, with the bit arrays its fields share.
    - [Reactor]: receiving messages and the rounds of the gossip routines, over the tallies, part
      sets and the block store ([internal/consensus/reactor.go]).
    - [Wal]: the write-ahead log ([internal/consensus/wal.go]) over its group of files
      ([internal/autofile/group.go]), and its replay and repair at a start of the node.

    ** What is proved

    - Counting.  [AddVote_correct], [TwoThirdsMajority_correct],
      [progress_tests_correct]: the tally counts exactly the verified votes of distinct
      validators, on every branch, and its majority is stable.
      [conflicting_majorities]: two conflicting majorities expose more than a third of
      the power as double signers.  [HeightVoteSet_AddVote_correct], [POLInfo_correct]
      lift this to all rounds of a height.
    - Committing.  [MakeExtendedCommit_verifies] composes the tally with
      [VerifyCommit]; [VerifyCommit_iff], [VerifyCommitLight_sound],
      [VerifyCommitLightTrusting_sound] say what an accepted commit shows, for the batch
      and the single routine.
    - Signing.  [no_double_sign]: in every history with crashes between any two steps the
      signer releases at most one message per height, round and step;
      [resign_after_crash], [SignAndCheckVote_verifies].
    - Blocks.  [received_parts_are_the_block], [genuine_parts_accepted]: a block sent in
      parts arrives as it was sent, or a SHA-256 collision can be computed;
      [proof_verifies_item], [proofs_verify], [iterative_hash_correct] for the Merkle tree
      below.
    - Validators.  [updateWithChangeSet_correct], [IncrementProposerPriority_total],
      [IncrementProposerPriority_exact], with overflow and clipping.
    - Mediation.  [goroutines_proceed], [submissions_in_order], [reservations_exact],
      [first_fatal_wins], [shutdown_completes] under every schedule;
      [mediated_delivery], [selected_only_mediated], [adapter_payload_bijective],
      [nextID_unique_and_valid], [register_correct].
    - Time and data.  [MedianTime_between_honest], [Key_injective], the bit array
      theorems.
    - Consensus.  [agreement]: correct nodes never commit blocks with different hashes at
      one height, for every sequence of messages, timeouts and claims each of them
      handles, with less than a third of the power faulty.  [votes_follow_the_lock] and
      [commits_have_a_quorum] are the rules of one node it rests on.  The nodes share
      nothing but signatures: [authentic] says that a vote counted under a correct
      validator's key has the sign bytes of a vote its node sent.  A run starts when
      the node starts, so votes sent before a restart are not in it; what the signer
      keeps over restarts is [no_double_sign].  [proposed_block_arrives]: a block sent in
      parts becomes the receiver's proposal block.
    - Light client.  [Verify_sound], [skipping_needs_correct_signer] and [hash_chain_binds] say what an
      accepted header proves; [hashes_bind] is what header and validator hashes determine, up to a
      computed collision.  [verifySkipping_terminates] and [verifySkipping_complete]: the search
      for a trace ends, and succeeds with an honest source.  [stored_blocks_are_reached]: what
      the store holds after any forward requests to providers that answer blocks of the heights asked
      for: blocks reached by verifications under the client's own configuration.
      [backwards_stores_unverified], [divergence_accepted_without_match] and
      [cleanupAfter_keeps_latest] show where the client does not do what it documents.
    - Execution.  [execution_keeps_state]: the state invariant, whatever the application
      answers, to [InitChain] too.  [validateBlock_iff] and [proposed_block_is_valid]: which blocks are valid, and that proposers make
      such blocks.  [valid_block_is_applied] composes validation, the store and the
      executor; [handshake_recovers] is crash recovery at every write of a block to the state store,
      the block store and the application, past the first block of the chain;
      [stored_history_is_found] the refinement of the store, [state_survives_restart] and
      [block_roundtrip] its encodings, [proposal_fits] the size limit.
      [chain_is_light_verifiable] connects execution with the light client.
      [first_block_crash_is_fatal], [pruning_loses_evidence_validators] and
      [oversized_proposal] show where it goes wrong.
    - Evidence.  [VerifyDuplicateVote_iff] and [conflicts_become_evidence]: what accepted duplicate
      votes prove and that every conflict the tally reports becomes such evidence;
      [correct_signer_not_accused] with the file signer; [lunatic_accused_signed] for light client attacks;
      [poisoned_block_panics], [accused_keys_unbound], [amnesia_refused_from_the_wire] are errors.
    - Evidence pool.  [evidence_committed_once] over every run of a pool that is restarted only between
      blocks; [crash_before_update] is what a crash between the commit of a block and [Update] does,
      since the handshake replays the block with an empty pool; [pending_evidence_correct]:
      what a proposer gets; [reported_conflict_is_proposed] goes from a conflict in the tally
      to a proposal, of evidence that every node verifies which knows the height; [expired_evidence_is_proposed] is an error.
    - Block store.  [store_holds_blocks]: the store refines a map from heights to saved blocks over
      every run, crashes included; [pruning_keeps_evidence]: every block from the height on stays,
      and what evidence needs of older ones; [v1_keys_differ]: no two entries share a key;
      [made_block_saves]: what a proposer makes can be saved.  [pruning_leaves_behind],
      [deleted_block_is_cached] and [pruning_flush_loses_base] show what is not kept up.
    - Mempool.  [clist_refines_list]: the linked list is a list, also for readers that hold
      removed elements; [cache_retains]: how long the cache remembers; [mempool_consistent]: the
      invariant of the mempool over every run of events, with overlapping calls of [CheckTx] and a
      connection that answers in order, one callback at a time; [update_keeps_valid]: what an update leaves;
      [reaped_fit] and [reaped_can_be_proposed]: what a proposer gets.  [reaps_one_too_many],
      [reaped_gas_overflows], [late_answer_panics], [stale_signal] and [removed_entry_leads_on]
      contradict comments of the code.
    - Gossip.  [peer_knowledge_sound]: over every interleaving of messages and routines the node takes
      a peer to have only what it said or was sent, and nothing panics; [votes_reach_peer]: a set of
      votes is sent completely and once, proved against the interface of sets of votes
      ([PeerState.VoteSetReader]) that tallies and commits implement; [wal_entry_roundtrip].
      [short_bits_crash_node], [short_claim_never_ends], [stale_header_withholds_parts] and
      [empty_vote_panics] are errors.
    - Log.  [replay_after_crash]: from any interleaving of writes, flushes, syncs, rotations and
      removals of the oldest files and a
      crash at any byte that was not synced, a start keeps a prefix of what was written that
      contains what was synced (on an empty head it adds a mark of height zero) and hands on
      what follows the last mark of the height before, for a second time if it came upon a torn entry.
      [stray_bytes_lose_synced] and [rotation_hides_first_height] are errors.
    - What the code does against its documentation: [MedianTime_faulty_minority],
      [VerifyCommit_addresses_unbound], [AddVote_replaces_unadded],
      [SetRound_opens_round_minus_one], [Or_drops_argument_tail],
      [Not_full_not_IsEmpty], [FromProto_short_elems_panics],
      [safeMul_misses_min_int64].

    ** Fuel

    Recursion that is not structural carries a bound that is shown to be enough, and no
    theorem depends on running out of it: a varint has at most ten bytes, a printed
    [uint64] at most twenty digits, the Merkle recursions and the iterative hash take one
    unit per item ([hash_fuel_enough], [trails_fuel_enough], [iterate_root]), the part
    reader twice the number of parts and two ([Read_fuel_spec]), the round
    loops of a height the number of rounds they visit.
    Reading a block back from its parts ([ConsensusState.ReadFull]) takes one unit per
    byte, and one is enough for a complete set ([ReadFull_all]).  Handlers of the state machine need no fuel: they call one another without
    recursion.  In [LightClient] running out of fuel is a panic, which no path of the code
    catches.  [skip_fuel] is quadratic in the height distance and proved
    enough ([verifySkipping_done]); [sequential_fuel] and [backwards_fuel] allow a round per height and per
    witness; [cleanup_loop] gets a unit per stored height ([cleanup_loop_spec]).
    The loops of pruning and of the replay get exactly the number of heights they visit.
    The loops over the list and the mempool get one unit per element; [Mempool.find_matching]
    one per element ever allocated; [BlockStore.prune_loop] one per height between the base and
    the height to keep.
    [PeerState.send_votes] gets one turn per vote sent and one more, and that many are proved enough.
    The loops that read the log get one unit per byte and one more ([scan_ok], [read_entries_ok],
    [repair_ok]).

    ** Not modelled

    Input and output (files, sockets, HTTP, databases), generated protobuf code, JSON and
    base64 of the standard library, [String] and logging methods, metrics, elliptic curves
    and hash functions, block sync, state sync, RPC,
    the light client's network side, and process configuration.  In the
    consensus state machine, the block executor,
    the clock, the event bus and the stored data are answers of an environment that may say
    anything ([ConsensusState.Answers]), the signer is the file signer.  Blocks are
    an interface there ([BlockOps]).  Of the light client, providers over HTTP.  Of execution, events,
    metrics and failures of the database; the executor sees the mempool, the evidence pool and the block store as answers and a map, although
    each of them has a file of its own; the application is a parameter ([AppOps]).  Of the stores, the second key
    layout, an encoding of a third party.  Block sync, state sync, the reactors of the mempool and of evidence, the remote signer, RPC and
    the peer-to-peer transport are goroutines over sockets and are not modelled.  Of the log, errors of the file system, and
    what the consensus state does with the entries that are handed to it. *)

From stdpp Require Export base numbers list list_numbers option strings gmap sorting.
From Stdlib Require Export ZArith Lia Bool Ascii.

#[global] Set Default Goal Selector "!".

Declare Scope go_scope.
Delimit Scope go_scope with go.

(** ** Outcomes of Go code: a value, or a run-time panic *)

Inductive outcome (A : Type) : Type :=
| Done (a : A)
| Panic (why : string).
Arguments Done {A} a.
Arguments Panic {A} why.

#[export] Instance outcome_ret : MRet outcome := λ A a, Done a.
#[export] Instance outcome_bind : MBind outcome := λ A B f m,
  match m with Done a => f a | Panic w => Panic w end.
#[export] Instance outcome_fmap : FMap outcome := λ A B f m,
  match m with Done a => Done (f a) | Panic w => Panic w end.

(** ** Results of fallible Go code: a value, or an error value *)

Inductive result (E A : Type) : Type :=
| Ok (a : A)
| Err (e : E).
Arguments Ok {E A} a.
Arguments Err {E A} e.

#[export] Instance result_ret E : MRet (result E) := λ A a, Ok a.
#[export] Instance result_bind E : MBind (result E) := λ A B f m,
  match m with Ok a => f a | Err e => Err e end.

#[global] Arguments Nat.div : simpl never.
#[global] Arguments Nat.modulo : simpl never.

Definition is_done {A} (m : outcome A) : bool :=
  match m with Done _ => true | Panic _ => false end.

Lemma outcome_bind_Done {A B} (m : outcome A) (f : A → outcome B) b :
  (m ≫= f) = Done b ↔ ∃ a, m = Done a ∧ f a = Done b.
Proof. destruct m; simpl; naive_solver. Qed.

Lemma outcome_fmap_Done {A B} (m : outcome A) (f : A → B) b :
  (f <$> m) = Done b ↔ ∃ a, m = Done a ∧ b = f a.
Proof. destruct m; simpl; naive_solver. Qed.

(** Inverts a chain of binds that ended in [Done]. *)
Ltac outcome_inv :=
  repeat match goal with
  | H : (_ ≫= _) = Done _ |- _ =>
      let x := fresh "x" in let H1 := fresh "Hb" in let H2 := fresh "Hb" in
      apply outcome_bind_Done in H as (x & H1 & H2)
  | H : mret _ = Done _ |- _ => unfold mret, outcome_ret in H
  | H : Done _ = Done _ |- _ => injection H as H
  | H : Panic _ = Done _ |- _ => discriminate H
  end; subst.

(** Destructs the [if] and [match] scrutinees of a hypothesis. *)
Ltac case_hyp H :=
  repeat match type of H with
  | context [if ?b then _ else _] => destruct b eqn:?
  | context [match ?x with _ => _ end] => destruct x eqn:?
  end; try discriminate H.

(** Decides a closed proposition by evaluating its [Decision] instance. *)
Ltac by_decide := apply (bool_decide_unpack _); vm_compute; exact I.

(** Boolean comparisons on [Z] as propositions. *)
Ltac zbool :=
  repeat match goal with
  | H : andb _ _ = true |- _ => apply andb_true_iff in H as [? ?]
  | H : orb _ _ = false |- _ => apply orb_false_iff in H as [? ?]
  | H : negb _ = true |- _ => apply negb_true_iff in H
  | H : negb _ = false |- _ => apply negb_false_iff in H
  | H : (_ =? _)%Z = true |- _ => apply Z.eqb_eq in H
  | H : (_ =? _)%Z = false |- _ => apply Z.eqb_neq in H
  | H : (_ <=? _)%Z = true |- _ => apply Z.leb_le in H
  | H : (_ <=? _)%Z = false |- _ => apply Z.leb_gt in H
  | H : (_ <? _)%Z = true |- _ => apply Z.ltb_lt in H
  | H : (_ <? _)%Z = false |- _ => apply Z.ltb_ge in H
  | H : (_ >? _)%Z = true |- _ => rewrite Z.gtb_ltb in H
  | H : (_ >? _)%Z = false |- _ => rewrite Z.gtb_ltb in H
  | H : (_ >=? _)%Z = true |- _ => rewrite Z.geb_leb in H
  | H : (_ >=? _)%Z = false |- _ => rewrite Z.geb_leb in H
  end.

(** ** Machine integers

    Go's [int64] (and [int] on the 64-bit targets the node is built for) and
    [int32] are two's complement and wrap; [uint64], [uint32] and [byte] wrap
    modulo a power of two.  A value is a [Z] together with the range predicate
    of its type. *)

Definition max_int64 : Z := 9223372036854775807.
Definition min_int64 : Z := -9223372036854775808.
Definition two64 : Z := 18446744073709551616.
Definition max_uint64 : Z := 18446744073709551615.
Definition max_int32 : Z := 2147483647.
Definition min_int32 : Z := -2147483648.

Definition wrap64 (z : Z) : Z := (z + 9223372036854775808) `mod` two64 - 9223372036854775808.
Definition wrapu64 (z : Z) : Z := z `mod` two64.
Definition wrap32 (z : Z) : Z := (z + 2147483648) `mod` 4294967296 - 2147483648.

Definition in_int64 (z : Z) : Prop := (min_int64 ≤ z ≤ max_int64)%Z.
Definition in_uint64 (z : Z) : Prop := (0 ≤ z ≤ max_uint64)%Z.
Definition in_int32 (z : Z) : Prop := (min_int32 ≤ z ≤ max_int32)%Z.

#[export] Instance in_int64_dec z : Decision (in_int64 z).
Proof. unfold in_int64. apply _. Defined.
#[export] Instance in_uint64_dec z : Decision (in_uint64 z).
Proof. unfold in_uint64. apply _. Defined.

Ltac unfold_ints :=
  unfold in_int64, in_uint64, in_int32, max_int64, min_int64, max_uint64, two64,
    max_int32, min_int32 in *.

Lemma wrap64_id z : in_int64 z → wrap64 z = z.
Proof. unfold wrap64; unfold_ints; intros. rewrite Z.mod_small; lia. Qed.

Lemma wrap64_range z : in_int64 (wrap64 z).
Proof.
  unfold wrap64; unfold_ints.
  pose proof (Z.mod_pos_bound (z + 9223372036854775808) 18446744073709551616). lia.
Qed.

Lemma wrap64_add_l a b : wrap64 (wrap64 a + b) = wrap64 (a + b).
Proof.
  unfold wrap64, two64. set (c := 9223372036854775808%Z).
  replace ((a + c) mod 18446744073709551616 - c + b + c)%Z with ((a + c) mod 18446744073709551616 + b)%Z by lia.
  rewrite Zplus_mod_idemp_l. do 2 f_equal. lia.
Qed.

Lemma wrapu64_id z : in_uint64 z → wrapu64 z = z.
Proof. unfold wrapu64; unfold_ints; intros. rewrite Z.mod_small; lia. Qed.

Lemma wrapu64_range z : in_uint64 (wrapu64 z).
Proof.
  unfold wrapu64; unfold_ints.
  pose proof (Z.mod_pos_bound z 18446744073709551616). lia.
Qed.

Create HintDb go discriminated.
#[export] Hint Resolve wrap64_range wrapu64_range : go.

(** ** Slices

    Indexing a Go slice out of range is a panic; [len] is an [int]. *)

Definition zlen {A} (l : list A) : Z := Z.of_nat (length l).

Definition idx {A} (l : list A) (i : Z) : outcome A :=
  if (0 <=? i)%Z then
    match l !! Z.to_nat i with
    | Some x => Done x
    | None => Panic "index out of range"
    end
  else Panic "index out of range".

Definition upd {A} (l : list A) (i : Z) (x : A) : outcome (list A) :=
  if ((0 <=? i) && (i <? zlen l))%Z then Done (<[Z.to_nat i := x]> l)
  else Panic "index out of range".

Lemma idx_Done {A} (l : list A) i x :
  idx l i = Done x ↔ (0 ≤ i)%Z ∧ l !! Z.to_nat i = Some x.
Proof.
  unfold idx. destruct (Z.leb_spec 0 i); [|split; [done|lia]].
  destruct (l !! Z.to_nat i); naive_solver.
Qed.

Lemma idx_in_range {A} (l : list A) i :
  (0 ≤ i < zlen l)%Z → ∃ x, idx l i = Done x ∧ l !! Z.to_nat i = Some x.
Proof.
  unfold zlen; intros Hi.
  destruct (lookup_lt_is_Some_2 l (Z.to_nat i)) as [x Hx]; [lia|].
  exists x. rewrite idx_Done. split_and!; [lia|done|done].
Qed.

Lemma upd_Done {A} (l : list A) i x l' :
  upd l i x = Done l' ↔ (0 ≤ i < zlen l)%Z ∧ l' = <[Z.to_nat i := x]> l.
Proof.
  unfold upd. destruct (Z.leb_spec 0 i), (Z.ltb_spec i (zlen l)); simpl;
    naive_solver lia.
Qed.

Lemma upd_in_range {A} (l : list A) i x :
  (0 ≤ i < zlen l)%Z → upd l i x = Done (<[Z.to_nat i := x]> l).
Proof. intros. by apply upd_Done. Qed.

Lemma idx_nat {A} (l : list A) (i : nat) x : l !! i = Some x → idx l (Z.of_nat i) = Done x.
Proof. intros H. apply idx_Done. split; [lia|by rewrite Nat2Z.id]. Qed.

Lemma upd_nat {A} (l : list A) (i : nat) x :
  (i < length l)%nat → upd l (Z.of_nat i) x = Done (<[i := x]> l).
Proof. intros H. rewrite upd_in_range by (unfold zlen; lia). by rewrite Nat2Z.id. Qed.

Lemma zlen_nonneg {A} (l : list A) : (0 ≤ zlen l)%Z.
Proof. unfold zlen. lia. Qed.

Lemma zlen_insert {A} (l : list A) i x : zlen (<[i:=x]> l) = zlen l.
Proof. unfold zlen. by rewrite length_insert. Qed.

#[export] Hint Resolve zlen_nonneg : go.

Lemma filter_ext_in {A} (P Q : A → Prop) `{∀ x, Decision (P x), ∀ x, Decision (Q x)} (l : list A) :
  (∀ x, x ∈ l → P x ↔ Q x) → filter P l = filter Q l.
Proof.
  induction l as [|a l IH]; intros HPQ; [done|]. rewrite !filter_cons.
  assert (P a ↔ Q a) by (apply HPQ; set_solver).
  rewrite IH by (intros; apply HPQ; set_solver).
  destruct (decide (P a)), (decide (Q a)); naive_solver.
Qed.

Lemma filter_keeps {A} (P : A → Prop) `{∀ x, Decision (P x)} (l : list A) :
  (∀ x, x ∈ l → P x) → filter P l = l.
Proof.
  induction l as [|x l IH]; intros Hl; [done|]. rewrite filter_cons_True by (apply Hl; left).
  f_equal. apply IH. intros y Hy. apply Hl. by right.
Qed.

Lemma filter_none {A} (P : A → Prop) `{∀ x, Decision (P x)} (l : list A) :
  (∀ x, x ∈ l → ¬ P x) → filter P l = [].
Proof.
  induction l as [|a l IH]; intros HP; [done|]. rewrite filter_cons, decide_False.
  - apply IH. set_solver.
  - apply HP. set_solver.
Qed.

(** ** Sums over lists *)

Fixpoint zsum {A} (f : A → Z) (l : list A) : Z :=
  match l with
  | [] => 0
  | x :: l => f x + zsum f l
  end%Z.

Section zsum.
Context {A : Type}.
Implicit Types (f g : A → Z) (l : list A).
Local Open Scope Z_scope.

Lemma zsum_app f l k : zsum f (l ++ k) = zsum f l + zsum f k.
Proof. induction l; simpl; lia. Qed.

Lemma zsum_ext f g l : (∀ x, x ∈ l → f x = g x) → zsum f l = zsum g l.
Proof.
  induction l as [|a l IH]; simpl; intros H; [done|].
  rewrite (H a), IH; [done| |]; set_solver.
Qed.

Lemma zsum_le f g l : (∀ x, x ∈ l → f x ≤ g x) → zsum f l ≤ zsum g l.
Proof.
  induction l as [|a l IH]; simpl; intros H; [lia|].
  apply Z.add_le_mono; [apply H|apply IH; intros; apply H]; set_solver.
Qed.

Lemma zsum_nonneg f l : (∀ x, x ∈ l → 0 ≤ f x) → 0 ≤ zsum f l.
Proof.
  induction l as [|a l IH]; simpl; intros H; [lia|].
  apply Z.add_nonneg_nonneg; [apply H|apply IH; intros; apply H]; set_solver.
Qed.

Lemma zsum_perm f l k : l ≡ₚ k → zsum f l = zsum f k.
Proof. induction 1; simpl; lia. Qed.

Lemma zsum_elem_le f l x : (∀ y, y ∈ l → 0 ≤ f y) → x ∈ l → f x ≤ zsum f l.
Proof.
  induction l as [|a l IH]; simpl; intros H Hx; [set_solver|].
  assert (0 ≤ zsum f l) by (apply zsum_nonneg; set_solver).
  assert (0 ≤ f a) by (apply H; set_solver).
  apply elem_of_cons in Hx as [->|Hx]; [lia|].
  assert (f x ≤ zsum f l) by (apply IH; set_solver). lia.
Qed.

Lemma zsum_add f g l : zsum (λ x, f x + g x) l = zsum f l + zsum g l.
Proof. induction l; simpl; lia. Qed.

Lemma zsum_fmap {B} (h : B → A) f (l : list B) :
  zsum f (h <$> l) = zsum (f ∘ h) l.
Proof. induction l; simpl; [done|]. by f_equal. Qed.

Lemma zsum_insert f l i x y :
  l !! i = Some x → zsum f (<[i:=y]> l) = zsum f l - f x + f y.
Proof.
  revert i; induction l as [|a l IH]; intros [|i] H; simplify_eq/=; [lia|].
  rewrite (IH i H). lia.
Qed.

Lemma zsum_filter_split f (P : A → Prop) `{∀ x, Decision (P x)} l :
  zsum f l = zsum f (filter P l) + zsum f (filter (λ x, ¬ P x) l).
Proof.
  induction l as [|a l IH]; [done|]. rewrite !filter_cons. simpl.
  destruct (decide (P a)), (decide (¬ P a)); simpl; try lia; done.
Qed.

(** The part of a sum selected by a disjunction of exclusive conditions. *)
Lemma zsum_filter_or f (P Q : A → Prop) `{∀ x, Decision (P x), ∀ x, Decision (Q x)} l :
  (∀ x, x ∈ l → P x → ¬ Q x) →
  zsum f (filter (λ x, P x ∨ Q x) l) = zsum f (filter P l) + zsum f (filter Q l).
Proof.
  induction l as [|a l IH]; intros Hex; [done|]. rewrite !filter_cons.
  assert (P a → ¬ Q a) by (apply Hex; set_solver).
  specialize (IH ltac:(intros; apply Hex; set_solver)).
  destruct (decide (P a)), (decide (Q a)), (decide (P a ∨ Q a)); simpl; try lia; naive_solver.
Qed.

Lemma zsum_filter_le f (P : A → Prop) `{∀ x, Decision (P x)} l :
  (∀ x, x ∈ l → 0 ≤ f x) → zsum f (filter P l) ≤ zsum f l.
Proof.
  intros Hf. rewrite (zsum_filter_split f P l).
  assert (0 ≤ zsum f (filter (λ x, ¬ P x) l)); [|lia].
  apply zsum_nonneg. intros x [_ Hx]%list_elem_of_filter. auto.
Qed.
End zsum.

#[export] Instance zsum_proper {A} (f : A → Z) :
  Proper ((≡ₚ) ==> (=)) (zsum f).
Proof. intros l k H. by apply zsum_perm. Qed.

(** ** Byte strings

    A byte slice is a list of [Z]; [bytes.Compare] is the lexicographic order. *)

Fixpoint bytes_compare (a b : list Z) : Z :=
  match a, b with
  | [], [] => 0
  | [], _ :: _ => -1
  | _ :: _, [] => 1
  | x :: a, y :: b => if x <? y then -1 else if y <? x then 1 else bytes_compare a b
  end%Z.

(** [bytes.Equal]. *)
Definition bytes_equal (a b : list Z) : bool := bool_decide (a = b).

Section bytes.
Local Open Scope Z_scope.
Implicit Types a b c : list Z.

Lemma bytes_compare_cases a b :
  bytes_compare a b = -1 ∨ bytes_compare a b = 0 ∨ bytes_compare a b = 1.
Proof.
  revert b. induction a as [|x a IH]; intros [|y b]; simpl; auto.
  destruct (x <? y), (y <? x); auto.
Qed.

Lemma bytes_compare_eq a b : bytes_compare a b = 0 ↔ a = b.
Proof.
  revert b. induction a as [|x a IH]; intros [|y b]; simpl; try done.
  destruct (Z.ltb_spec x y), (Z.ltb_spec y x); try naive_solver lia.
  rewrite IH. assert (x = y) by lia. naive_solver.
Qed.

Lemma bytes_compare_antisym a b : bytes_compare b a = - bytes_compare a b.
Proof.
  revert b. induction a as [|x a IH]; intros [|y b]; simpl; try done.
  destruct (Z.ltb_spec x y), (Z.ltb_spec y x); try lia; apply IH.
Qed.

Lemma bytes_compare_trans a b c :
  bytes_compare a b = -1 → bytes_compare b c = -1 → bytes_compare a c = -1.
Proof.
  revert b c. induction a as [|x a IH]; intros [|y b] [|z c]; simpl; try done.
  destruct (Z.ltb_spec x y), (Z.ltb_spec y x), (Z.ltb_spec y z), (Z.ltb_spec z y),
    (Z.ltb_spec x z), (Z.ltb_spec z x); try done; try lia; eauto.
Qed.
End bytes.
