(* ===== verification/BitArray.v ===== *)
(** * BitArray: [internal/bits/bit_array.go]

    The bit array that vote sets, part sets and peer round states share.  A
    [*BitArray] is an [option BitArray] ([None] is the nil pointer); its mutex
    only serialises calls and has no field here.  Operations that index the
    element slice return an [outcome], so that a malformed array shows its
    panic.  The abstraction [bits_of] maps a well-formed array to the list of
    its bits, and the theorems state every operation against that list. *)

From S2P Require Import Prelude.

Local Open Scope Z_scope.

Module BitArray.

(** ** Data and operations *)

Record BitArray := mkBitArray { Bits : Z; Elems : list Z }.

#[export] Instance BitArray_eq_dec : EqDecision BitArray.
Proof. solve_decision. Defined.

(** [uint64(1) << s] for an unsigned shift count [s]. *)
Definition shl1 (s : Z) : Z := if s <? 64 then Z.shiftl 1 s else 0.

(** [uint64(1) << uint(i%64)]: Go's [%] truncates and [uint] reinterprets. *)
Definition bit_mask (i : Z) : Z := shl1 (wrapu64 (Z.rem i 64)).

(** [^x] on [uint64]. *)
Definition not64 (x : Z) : Z := max_uint64 - x.

(** Number of elements for [bits] bits: [(bits+63)/64]. *)
Definition num_elems (bits : Z) : nat := Z.to_nat (Z.quot (bits + 63) 64).

Definition NewBitArray (bits : Z) : option BitArray :=
  if bits <=? 0 then None
  else Some {| Bits := bits; Elems := replicate (num_elems bits) 0 |}.

(** The loop body of [NewBitArrayFromFn], from bit [i] on, [n] iterations. *)
Fixpoint fill_from_fn (fn : Z → bool) (n : nat) (i : Z) (elems : list Z)
    : outcome (list Z) :=
  match n with
  | O => Done elems
  | S n =>
      elems' ← (if fn i then
                  e ← idx elems (Z.quot i 64);
                  upd elems (Z.quot i 64) (Z.lor e (bit_mask i))
                else Done elems);
      fill_from_fn fn n (i + 1) elems'
  end.

Definition NewBitArrayFromFn (bits : Z) (fn : Z → bool) : outcome (option BitArray) :=
  if bits <=? 0 then Done None
  else
    elems ← fill_from_fn fn (Z.to_nat bits) 0 (replicate (num_elems bits) 0);
    Done (Some {| Bits := bits; Elems := elems |}).

Definition Size (bA : option BitArray) : Z :=
  match bA with None => 0 | Some b => Bits b end.

Definition getIndex (bA : BitArray) (i : Z) : outcome bool :=
  if Bits bA <=? i then Done false
  else
    e ← idx (Elems bA) (Z.quot i 64);
    Done (0 <? Z.land e (bit_mask i)).

Definition GetIndex (bA : option BitArray) (i : Z) : outcome bool :=
  match bA with None => Done false | Some b => getIndex b i end.

Definition setIndex (bA : BitArray) (i : Z) (v : bool) : outcome (BitArray * bool) :=
  if Bits bA <=? i then Done (bA, false)
  else
    e ← idx (Elems bA) (Z.quot i 64);
    elems ← upd (Elems bA) (Z.quot i 64)
              (if v then Z.lor e (bit_mask i) else Z.land e (not64 (bit_mask i)));
    Done ({| Bits := Bits bA; Elems := elems |}, true).

Definition SetIndex (bA : option BitArray) (i : Z) (v : bool)
    : outcome (option BitArray * bool) :=
  match bA with
  | None => Done (None, false)
  | Some b => '(b', r) ← setIndex b i v; Done (Some b', r)
  end.

(** Go's [copy(dst, src)]. *)
Definition go_copy {A} (dst src : list A) : list A :=
  take (length dst) src ++ drop (length src) dst.

Definition copy (bA : BitArray) : BitArray :=
  {| Bits := Bits bA;
     Elems := go_copy (replicate (length (Elems bA)) 0) (Elems bA) |}.

Definition Copy (bA : option BitArray) : option BitArray := copy <$> bA.

Definition copyBits (bA : BitArray) (bits : Z) : BitArray :=
  {| Bits := bits; Elems := go_copy (replicate (num_elems bits) 0) (Elems bA) |}.

(** [for i := ..; n iterations; i++ { c[i] = op(c[i], o[i]) }]. *)
Fixpoint elem_loop (op : Z → Z → Z) (n : nat) (i : Z) (c o : list Z) : outcome (list Z) :=
  match n with
  | O => Done c
  | S n =>
      x ← idx c i;
      y ← idx o i;
      c' ← upd c i (op x y);
      elem_loop op n (i + 1) c' o
  end.

Definition Or (bA o : option BitArray) : outcome (option BitArray) :=
  match bA, o with
  | None, None => Done None
  | None, Some o => Done (Copy (Some o))
  | Some bA, None => Done (Copy (Some bA))
  | Some bA, Some o =>
      let c := copyBits bA (Z.max (Bits bA) (Bits o)) in
      let smaller := Nat.min (length (Elems bA)) (length (Elems o)) in
      elems ← elem_loop Z.lor smaller 0 (Elems c) (Elems o);
      Done (Some {| Bits := Bits c; Elems := elems |})
  end.

Definition and (bA o : BitArray) : outcome BitArray :=
  let c := copyBits bA (Z.min (Bits bA) (Bits o)) in
  elems ← elem_loop Z.land (length (Elems c)) 0 (Elems c) (Elems o);
  Done {| Bits := Bits c; Elems := elems |}.

Definition And (bA o : option BitArray) : outcome (option BitArray) :=
  match bA, o with
  | Some bA, Some o => c ← and bA o; Done (Some c)
  | _, _ => Done None
  end.

Definition not (bA : BitArray) : BitArray :=
  let c := copy bA in {| Bits := Bits c; Elems := not64 <$> Elems c |}.

Definition Not (bA : option BitArray) : option BitArray := not <$> bA.

Definition Sub (bA o : option BitArray) : outcome (option BitArray) :=
  match bA, o with
  | Some bA, Some o =>
      let c := copyBits bA (Bits bA) in
      let smaller := Nat.min (length (Elems bA)) (length (Elems o)) in
      elems ← elem_loop Z.ldiff smaller 0 (Elems c) (Elems o);
      Done (Some {| Bits := Bits c; Elems := elems |})
  | _, _ => Done None
  end.

Definition IsEmpty (bA : option BitArray) : bool :=
  match bA with
  | None => true
  | Some b => forallb (λ e, negb (0 <? e)) (Elems b)
  end.

Definition IsFull (bA : option BitArray) : outcome bool :=
  match bA with
  | None => Done true
  | Some b =>
      match last (Elems b) with
      | None => Panic "slice bounds out of range"
      | Some lastElem =>
          if forallb (λ e, not64 e =? 0) (take (length (Elems b) - 1) (Elems b)) then
            let lastElemBits := Z.rem (Bits b + 63) 64 + 1 in
            Done (Z.land (wrapu64 (lastElem + 1)) (wrapu64 (shl1 lastElemBits - 1)) =? 0)
          else Done false
      end
  end.

(** [bits.OnesCount64]. *)
Definition onesCount64 (x : Z) : Z :=
  zlen (filter (λ j, Z.testbit x j = true) (seqZ 0 64)).

(** The loop of [getNumTrueIndices] over the bits of the last element. *)
Fixpoint count_final (elems : list Z) (last_i : Z) (n : nat) (i count : Z) : outcome Z :=
  match n with
  | O => Done count
  | S n =>
      e ← idx elems last_i;
      count_final elems last_i n (i + 1)
        (if 0 <? Z.land e (shl1 i) then count + 1 else count)
  end.

Definition getNumTrueIndices (bA : BitArray) : outcome Z :=
  let numElems := zlen (Elems bA) in
  let count := zsum onesCount64 (take (length (Elems bA) - 1) (Elems bA)) in
  let numFinalBits := Bits bA - (numElems - 1) * 64 in
  count_final (Elems bA) (numElems - 1) (Z.to_nat numFinalBits) 0 count.

(** The inner loop of [getNthTrueIndex] over the bit positions [js] of one
    element: the bit position of the nth set bit, or the updated count. *)
Fixpoint scan_elem (e : Z) (js : list Z) (count n : Z) : Z + Z :=
  match js with
  | [] => inr count
  | j :: js =>
      if negb (Z.land e (shl1 j) =? 0) then
        if count =? n then inl j else scan_elem e js (count + 1) n
      else scan_elem e js count n
  end.

Fixpoint nth_true_loop (elems : list Z) (i count n : Z) : Z :=
  match elems with
  | [] => -1
  | e :: elems =>
      let setBits := onesCount64 e in
      if n <=? count + setBits then
        match scan_elem e (seqZ 0 64) count n with
        | inl j => i * 64 + j
        | inr count => nth_true_loop elems (i + 1) count n
        end
      else nth_true_loop elems (i + 1) (count + setBits) n
  end.

Definition getNthTrueIndex (bA : BitArray) (n : Z) : Z :=
  nth_true_loop (Elems bA) 0 0 n.

(** [PickRandom]; [intn k] is the value [r.Intn(k)] draws. *)
Definition PickRandom (bA : option BitArray) (intn : Z → Z) : outcome (Z * bool) :=
  match bA with
  | None => Done (0, false)
  | Some b =>
      numTrueIndices ← getNumTrueIndices b;
      if numTrueIndices =? 0 then Done (0, false)
      else
        let index := getNthTrueIndex b (intn numTrueIndices) in
        if index =? -1 then Done (0, false) else Done (index, true)
  end.

(** [binary.LittleEndian.PutUint64] into a fresh array of eight bytes. *)
Definition le_bytes (e : Z) : list Z :=
  (λ k, Z.land (Z.shiftr e (8 * k)) 255) <$> seqZ 0 8.

(** [copy(bytes[off:], src)], whose slice expression panics past the end. *)
Definition copy_at (dst : list Z) (off : nat) (src : list Z) : outcome (list Z) :=
  if Nat.leb off (length dst)
  then Done (take off dst ++ go_copy (drop off dst) src)
  else Panic "slice bounds out of range".

Fixpoint bytes_loop (elems : list Z) (i : nat) (bytes : list Z) : outcome (list Z) :=
  match elems with
  | [] => Done bytes
  | e :: elems =>
      bytes' ← copy_at bytes (i * 8) (le_bytes e);
      bytes_loop elems (S i) bytes'
  end.

Definition Bytes (bA : BitArray) : outcome (list Z) :=
  let numBytes := Z.quot (Bits bA + 7) 8 in
  bytes_loop (Elems bA) 0 (replicate (Z.to_nat numBytes) 0).

(** [bA.Update(o)]: the new value of [*bA]. *)
Definition Update (bA o : option BitArray) : option BitArray :=
  match bA, o with
  | Some b, Some o => Some {| Bits := Bits b; Elems := go_copy (Elems b) (Elems o) |}
  | _, _ => bA
  end.

(** JSON: characters are [ascii]; 34 is the double quote. *)
Definition dquote : ascii := Ascii.ascii_of_nat 34.
Definition bit_char (b : bool) : ascii := if b then "x"%char else "_"%char.

Fixpoint marshal_loop (bA : BitArray) (n : nat) (i : Z) (acc : list ascii)
    : outcome (list ascii) :=
  match n with
  | O => Done acc
  | S n =>
      b ← getIndex bA i;
      marshal_loop bA n (i + 1) (acc ++ [bit_char b])
  end.

Definition json_null : list ascii := ["n"; "u"; "l"; "l"]%char.

Definition MarshalJSON (bA : option BitArray) : outcome (list ascii) :=
  match bA with
  | None => Done json_null
  | Some b =>
      bits ← marshal_loop b (Z.to_nat (Bits b)) 0 [dquote];
      Done (bits ++ [dquote])
  end.

(** [bitArrayJSONRegexp], [\A"([_x]*)"\z]: the captured group. *)
Definition json_regexp (b : list ascii) : option (list ascii) :=
  match b with
  | c :: rest =>
      match last rest with
      | Some d =>
          let body := take (length rest - 1) rest in
          if bool_decide (c = dquote) && bool_decide (d = dquote)
             && forallb (λ a, bool_decide (a = "_"%char) || bool_decide (a = "x"%char)) body
          then Some body else None
      | None => None
      end
  | [] => None
  end.

Fixpoint unmarshal_loop (bits : list ascii) (i : Z) (bA : option BitArray)
    : outcome (option BitArray) :=
  match bits with
  | [] => Done bA
  | c :: bits =>
      bA' ← (if bool_decide (c = "x"%char)
             then '(b, _) ← SetIndex bA i true; Done b else Done bA);
      unmarshal_loop bits (i + 1) bA'
  end.

(** [UnmarshalJSON]: the new value of the receiver, or the format error. *)
Definition UnmarshalJSON (b : list ascii) : outcome (result string BitArray) :=
  if bool_decide (b = json_null) then Done (Ok {| Bits := 0; Elems := [] |})
  else
    match json_regexp b with
    | None => Done (Err "bitArray in JSON should be a string"%string)
    | Some bits =>
        bA2 ← unmarshal_loop bits 0 (NewBitArray (zlen bits));
        match bA2 with
        | None => Done (Ok {| Bits := 0; Elems := [] |})
        | Some b2 =>
            Done (Ok {| Bits := Bits b2;
                        Elems := go_copy (replicate (length (Elems b2)) 0) (Elems b2) |})
        end
    end.

(** Protobuf form: the generated message has the same two fields. *)
Definition ToProto (bA : option BitArray) : option BitArray :=
  match bA with
  | None => None
  | Some b =>
      match Elems b with
      | [] => None
      | _ => Some {| Bits := Bits b; Elems := Elems b |}
      end
  end.

Definition FromProto (bA : BitArray) (protoBitArray : option BitArray) : BitArray :=
  match protoBitArray with
  | None => bA
  | Some p =>
      {| Bits := Bits p;
         Elems := match Elems p with [] => Elems bA | es => es end |}
  end.

(** ** Abstraction: a bit array as the list of its bits *)

(** Bit [k] of an element slice, zero past its end. *)
Definition bit (elems : list Z) (k : nat) : bool :=
  Z.testbit (default 0 (elems !! (k `div` 64)%nat)) (Z.of_nat (k `mod` 64)).

Definition bits_of (b : BitArray) : list bool :=
  bit (Elems b) <$> seq 0 (Z.to_nat (Bits b)).

(** The shape [NewBitArray] establishes. *)
Definition wf (b : BitArray) : Prop :=
  0 < Bits b ∧ length (Elems b) = num_elems (Bits b) ∧ Forall in_uint64 (Elems b).

(** No bit is set at or above [Bits]. *)
Definition clean (b : BitArray) : Prop :=
  ∀ k, (Z.to_nat (Bits b) ≤ k)%nat → bit (Elems b) k = false.

(** The bit a caller sees: [GetIndex], false out of range. *)
Definition get (b : BitArray) (k : nat) : bool := default false (bits_of b !! k).

#[export] Instance wf_dec b : Decision (wf b).
Proof. unfold wf. apply _. Defined.

(** ** Arithmetic of masks and elements *)

Lemma num_elems_bounds bits :
  0 < bits → (64 * (Z.of_nat (num_elems bits) - 1) < bits ≤ 64 * Z.of_nat (num_elems bits)).
Proof.
  intros H. unfold num_elems. rewrite Z.quot_div_nonneg by lia.
  rewrite Z2Nat.id by (apply Z.div_pos; lia).
  pose proof (Z.div_mod (bits + 63) 64). pose proof (Z.mod_pos_bound (bits + 63) 64). lia.
Qed.

Lemma shl1_pow j : 0 ≤ j < 64 → shl1 j = 2 ^ j.
Proof.
  intros. unfold shl1. destruct (Z.ltb_spec j 64); [|lia].
  rewrite Z.shiftl_mul_pow2 by lia. lia.
Qed.

Lemma rem64_nat k : Z.rem (Z.of_nat k) 64 = Z.of_nat (k `mod` 64).
Proof. rewrite Z.rem_mod_nonneg by lia. by rewrite Nat2Z.inj_mod. Qed.

Lemma quot64_nat k : Z.quot (Z.of_nat k) 64 = Z.of_nat (k `div` 64).
Proof. rewrite Z.quot_div_nonneg by lia. by rewrite Nat2Z.inj_div. Qed.

Lemma mod64_lt k : (k `mod` 64 < 64)%nat.
Proof. apply Nat.mod_upper_bound. lia. Qed.

Lemma bit_mask_nat k : bit_mask (Z.of_nat k) = 2 ^ Z.of_nat (k `mod` 64).
Proof.
  unfold bit_mask. rewrite rem64_nat. pose proof (mod64_lt k).
  rewrite wrapu64_id; [apply shl1_pow; lia|unfold_ints; lia].
Qed.

Lemma land_pow2 e j : 0 ≤ j → Z.land e (2 ^ j) = if Z.testbit e j then 2 ^ j else 0.
Proof.
  intros Hj. apply Z.bits_inj'. intros m Hm.
  rewrite Z.land_spec, Z.pow2_bits_eqb by lia.
  destruct (Z.eqb_spec j m) as [->|Hne].
  - rewrite andb_true_r. destruct (Z.testbit e m); [|by rewrite Z.bits_0].
    by rewrite Z.pow2_bits_true.
  - rewrite andb_false_r. destruct (Z.testbit e j); [|by rewrite Z.bits_0].
    by rewrite Z.pow2_bits_false by lia.
Qed.

Lemma land_mask_pos e j : 0 ≤ j → (0 <? Z.land e (2 ^ j)) = Z.testbit e j.
Proof.
  intros Hj. rewrite land_pow2 by lia. destruct (Z.testbit e j); [|done].
  apply Z.ltb_lt. by apply Z.pow_pos_nonneg.
Qed.

Lemma land_mask_nonzero e j : 0 ≤ j → negb (Z.land e (2 ^ j) =? 0) = Z.testbit e j.
Proof.
  intros Hj. rewrite land_pow2 by lia. destruct (Z.testbit e j); [|done].
  pose proof (Z.pow_pos_nonneg 2 j). apply negb_true_iff, Z.eqb_neq. lia.
Qed.

Lemma testbit_high x j : in_uint64 x → 64 ≤ j → Z.testbit x j = false.
Proof.
  unfold_ints. intros Hx Hj. destruct (decide (x = 0)) as [->|Hne]; [apply Z.bits_0|].
  apply Z.bits_above_log2; [lia|]. apply Z.log2_lt_pow2; [lia|].
  apply Z.lt_le_trans with (2 ^ 64); [lia|]. by apply Z.pow_le_mono_r.
Qed.

Lemma in_uint64_bits x : 0 ≤ x → (∀ j, 64 ≤ j → Z.testbit x j = false) → in_uint64 x.
Proof.
  intros Hx Hbits. unfold_ints. destruct (decide (x = 0)); [lia|].
  destruct (decide (x < 2 ^ 64)); [lia|]. exfalso.
  assert (64 ≤ Z.log2 x).
  { replace 64 with (Z.log2 (2 ^ 64)) by reflexivity. apply Z.log2_le_mono. lia. }
  specialize (Hbits (Z.log2 x) ltac:(lia)). rewrite Z.bit_log2 in Hbits by lia. done.
Qed.

Lemma not64_testbit x j :
  in_uint64 x → 0 ≤ j < 64 → Z.testbit (not64 x) j = negb (Z.testbit x j).
Proof.
  intros Hx Hj. unfold not64.
  replace (max_uint64 - x) with (Z.lnot x + 1 * 2 ^ 64)
    by (unfold_ints; unfold Z.lnot; lia).
  rewrite <-(Z.mod_pow2_bits_low (_ + _) 64 j) by lia.
  rewrite Z.mod_add by lia. rewrite Z.mod_pow2_bits_low by lia.
  by rewrite Z.lnot_spec by lia.
Qed.

Lemma not64_range x : in_uint64 x → in_uint64 (not64 x).
Proof. unfold not64; unfold_ints; lia. Qed.

Lemma lor_range x y : in_uint64 x → in_uint64 y → in_uint64 (Z.lor x y).
Proof.
  intros Hx Hy. apply in_uint64_bits.
  - apply Z.lor_nonneg. unfold_ints; lia.
  - intros j Hj. by rewrite Z.lor_spec, !testbit_high.
Qed.

Lemma land_range x y : in_uint64 x → in_uint64 y → in_uint64 (Z.land x y).
Proof.
  intros Hx Hy. apply in_uint64_bits.
  - apply Z.land_nonneg. unfold_ints; lia.
  - intros j Hj. by rewrite Z.land_spec, !testbit_high.
Qed.

Lemma ldiff_range x y : in_uint64 x → in_uint64 y → in_uint64 (Z.ldiff x y).
Proof.
  intros Hx Hy. apply in_uint64_bits.
  - apply Z.ldiff_nonneg. unfold_ints; lia.
  - intros j Hj. by rewrite Z.ldiff_spec, (testbit_high x).
Qed.

Lemma mask_range k : in_uint64 (2 ^ Z.of_nat (k `mod` 64)).
Proof.
  pose proof (mod64_lt k). apply in_uint64_bits; [apply Z.pow_nonneg; lia|].
  intros j Hj. apply Z.pow2_bits_false. lia.
Qed.

#[export] Hint Resolve lor_range land_range ldiff_range not64_range mask_range : go.

(** ** Reading and writing single bits *)

Lemma div64_lt b k :
  wf b → (k < Z.to_nat (Bits b))%nat → (k `div` 64 < length (Elems b))%nat.
Proof.
  intros (Hpos & Hlen & _) Hk. pose proof (num_elems_bounds (Bits b) Hpos).
  rewrite Hlen. apply Nat.Div0.div_lt_upper_bound; lia.
Qed.

Lemma bit_insert elems q x k :
  (q < length elems)%nat →
  bit (<[q:=x]> elems) k =
    if decide (k `div` 64 = q)%nat then Z.testbit x (Z.of_nat (k `mod` 64)) else bit elems k.
Proof.
  intros Hq. unfold bit. destruct (decide _) as [->|Hne].
  - by rewrite list_lookup_insert_eq.
  - by rewrite list_lookup_insert_ne.
Qed.

Lemma get_bit b k : get b k = bool_decide (k < Z.to_nat (Bits b))%nat && bit (Elems b) k.
Proof.
  unfold get, bits_of. rewrite list_lookup_fmap. case_bool_decide.
  - by rewrite lookup_seq_lt.
  - by rewrite lookup_seq_ge by lia.
Qed.

Lemma get_clean b k : clean b → get b k = bit (Elems b) k.
Proof.
  intros Hc. rewrite get_bit. case_bool_decide; [done|]. rewrite Hc; [done|lia].
Qed.

Lemma getIndex_get b k : wf b → getIndex b (Z.of_nat k) = Done (get b k).
Proof.
  intros Hwf. unfold getIndex. rewrite get_bit.
  destruct (Z.leb_spec (Bits b) (Z.of_nat k)); case_bool_decide; try lia; [done|].
  rewrite quot64_nat. pose proof (div64_lt b k Hwf ltac:(lia)).
  destruct (idx_in_range (Elems b) (Z.of_nat (k `div` 64))) as (e & -> & He).
  { unfold zlen. lia. }
  rewrite Nat2Z.id in He. simpl. rewrite bit_mask_nat, land_mask_pos by lia.
  unfold bit. by rewrite He.
Qed.

Lemma setIndex_raw b k v :
  wf b → (k < Z.to_nat (Bits b))%nat →
  ∃ b', setIndex b (Z.of_nat k) v = Done (b', true) ∧ wf b' ∧ Bits b' = Bits b ∧
    ∀ m, bit (Elems b') m = if decide (m = k) then v else bit (Elems b) m.
Proof.
  intros Hwf Hk. pose proof (div64_lt b k Hwf Hk) as Hq. destruct Hwf as (Hpos & Hlen & Hu).
  unfold setIndex. destruct (Z.leb_spec (Bits b) (Z.of_nat k)); [lia|].
  rewrite quot64_nat, bit_mask_nat.
  destruct (idx_in_range (Elems b) (Z.of_nat (k `div` 64))) as (e & -> & He);
    [unfold zlen; lia|]. rewrite Nat2Z.id in He. simpl.
  set (e' := if v then _ else _).
  assert (He_u : in_uint64 e) by (eapply Forall_lookup in Hu; eauto).
  rewrite upd_nat by done. simpl.
  eexists. split; [reflexivity|]. split_and!; simpl; [|done|].
  - split_and!; simpl; [done|by rewrite length_insert|].
    apply Forall_insert; [done|]. subst e'. destruct v; eauto with go.
  - intros m. rewrite bit_insert by done. pose proof (mod64_lt m) as Hm.
    pose proof (Nat.div_mod_eq m 64). pose proof (Nat.div_mod_eq k 64).
    destruct (decide (m `div` 64 = k `div` 64)%nat) as [Hd|Hd].
    + assert (Hold : bit (Elems b) m = Z.testbit e (Z.of_nat (m `mod` 64))).
      { unfold bit. by rewrite Hd, He. }
      subst e'. destruct v.
      * rewrite Z.lor_spec, Z.pow2_bits_eqb by lia.
        destruct (Z.eqb_spec (Z.of_nat (k `mod` 64)) (Z.of_nat (m `mod` 64))), (decide (m = k));
          first [lia|by rewrite orb_false_r, Hold].
      * rewrite Z.land_spec, not64_testbit by (eauto with go || lia).
        rewrite Z.pow2_bits_eqb by lia.
        destruct (Z.eqb_spec (Z.of_nat (k `mod` 64)) (Z.of_nat (m `mod` 64))), (decide (m = k));
          first [lia|by rewrite andb_true_r, Hold].
    + rewrite decide_False; [done|]. intros ->. done.
Qed.

Lemma NewBitArray_spec n :
  0 < n → ∃ b, NewBitArray n = Some b ∧ wf b ∧ clean b ∧ Bits b = n ∧ ∀ k, get b k = false.
Proof.
  intros Hn. unfold NewBitArray. destruct (Z.leb_spec n 0); [lia|].
  eexists. split; [done|].
  assert (Hz : ∀ m k, bit (replicate m 0) k = false).
  { intros m k. unfold bit. destruct (replicate m 0 !! _) as [x|] eqn:E; simpl.
    - apply lookup_replicate in E as [-> _]. apply Z.bits_0.
    - apply Z.bits_0. }
  split_and!; simpl; try done.
  - split_and!; simpl; [done|by rewrite length_replicate|].
    apply Forall_replicate. unfold_ints; lia.
  - intros k _. apply Hz.
  - intros k. rewrite get_bit. simpl. rewrite Hz. by rewrite andb_false_r.
Qed.

(** ** Bitwise operations *)

Lemma elem_loop_spec op n i c o :
  (i + n ≤ length c)%nat → (i + n ≤ length o)%nat →
  ∃ c', elem_loop op n (Z.of_nat i) c o = Done c' ∧ length c' = length c ∧
    ∀ k, c' !! k = if decide (i ≤ k < i + n)%nat
                   then x ← c !! k; y ← o !! k; Some (op x y) else c !! k.
Proof.
  revert i c. induction n as [|n IH]; intros i c Hc Ho; simpl.
  - exists c. split_and!; [done|done|]. intros k. by rewrite decide_False by lia.
  - destruct (idx_in_range c (Z.of_nat i)) as (x & -> & Hx); [unfold zlen; lia|].
    destruct (idx_in_range o (Z.of_nat i)) as (y & -> & Hy); [unfold zlen; lia|].
    rewrite Nat2Z.id in Hx, Hy. simpl.
    rewrite upd_nat by lia. simpl. replace (Z.of_nat i + 1) with (Z.of_nat (S i)) by lia.
    destruct (IH (S i) (<[i:=op x y]> c)) as (c' & -> & Hlen & Hlk);
      [rewrite length_insert; lia|lia|].
    exists c'. split_and!; [done|by rewrite Hlen, length_insert|].
    intros k. rewrite Hlk. destruct (decide (k = i)) as [->|Hne].
    + rewrite decide_False by lia. rewrite decide_True by lia.
      rewrite list_lookup_insert_eq by lia. by rewrite Hx; simpl; rewrite Hy.
    + rewrite list_lookup_insert_ne by done.
      destruct (decide (S i ≤ k < S i + n)%nat), (decide (i ≤ k < i + S n)%nat); done || lia.
Qed.

Lemma lookup_copied m (es : list Z) k :
  go_copy (replicate m 0) es !! k = if decide (k < m)%nat then Some (default 0 (es !! k)) else None.
Proof.
  unfold go_copy. rewrite length_replicate. destruct (decide (k < m)%nat) as [Hk|Hk].
  - destruct (es !! k) as [x|] eqn:E.
    + pose proof (lookup_lt_Some _ _ _ E). rewrite lookup_app_l by (rewrite length_take; lia).
      by rewrite lookup_take_lt by lia.
    + apply lookup_ge_None in E. rewrite lookup_app_r by (rewrite length_take; lia).
      rewrite lookup_drop, length_take. rewrite lookup_replicate_2; [done|lia].
  - apply lookup_ge_None. rewrite length_app, length_take, length_drop, length_replicate. lia.
Qed.

Lemma length_copied m (es : list Z) : length (go_copy (replicate m 0) es) = m.
Proof. unfold go_copy. rewrite length_app, length_take, length_drop, length_replicate. lia. Qed.

Lemma copied_id (es : list Z) : go_copy (replicate (length es) 0) es = es.
Proof.
  unfold go_copy. rewrite length_replicate, firstn_all.
  rewrite drop_ge by (rewrite length_replicate; lia). apply app_nil_r.
Qed.

(** A copy is equal to the original; [Copy] shares nothing with it. *)
Lemma copy_eq b : copy b = b.
Proof. destruct b. unfold copy. simpl. by rewrite copied_id. Qed.

Lemma default_in_uint64 es k : Forall in_uint64 es → in_uint64 (default 0 (es !! k)).
Proof.
  intros H. destruct (es !! k) eqn:E; simpl; [|unfold_ints; lia].
  by eapply Forall_lookup in H.
Qed.

#[export] Hint Resolve default_in_uint64 : go.

Section copy_op.
Context (op : Z → Z → Z) (bop : bool → bool → bool).
Hypothesis op_bits : ∀ x y j, 0 ≤ j → Z.testbit (op x y) j = bop (Z.testbit x j) (Z.testbit y j).
Hypothesis op_range : ∀ x y, in_uint64 x → in_uint64 y → in_uint64 (op x y).

Lemma copy_op_spec a bits n o :
  0 < bits → Forall in_uint64 (Elems a) → Forall in_uint64 (Elems o) →
  (n ≤ num_elems bits)%nat → (n ≤ length (Elems o))%nat →
  ∃ es, elem_loop op n 0 (Elems (copyBits a bits)) (Elems o) = Done es ∧
    wf {| Bits := bits; Elems := es |} ∧
    ∀ k, bit es k = if decide (k `div` 64 < num_elems bits)%nat then
                      if decide (k `div` 64 < n)%nat
                      then bop (bit (Elems a) k) (bit (Elems o) k)
                      else bit (Elems a) k
                    else false.
Proof.
  intros Hb Ha Ho Hn Hno. simpl.
  destruct (elem_loop_spec op n 0 (go_copy (replicate (num_elems bits) 0) (Elems a)) (Elems o))
    as (es & Hes & Hlen & Hlk); [rewrite length_copied; lia|lia|].
  rewrite length_copied in Hlen. exists es.
  assert (Hel : ∀ q, es !! q =
    if decide (q < num_elems bits)%nat then
      Some (if decide (q < n)%nat then op (default 0 (Elems a !! q)) (default 0 (Elems o !! q))
            else default 0 (Elems a !! q))
    else None).
  { intros q. rewrite Hlk, lookup_copied. destruct (decide (0 ≤ q < 0 + n)%nat).
    - rewrite !decide_True by lia. simpl.
      destruct (lookup_lt_is_Some_2 (Elems o) q) as [y Hy]; [lia|]. by rewrite Hy.
    - destruct (decide (q < num_elems bits)%nat); [|done]. by rewrite decide_False by lia. }
  split_and!; [done| |].
  - split_and!; simpl; [done|done|]. apply Forall_lookup. intros q x Hx. rewrite Hel in Hx.
    destruct (decide _); [|done]. injection Hx as <-.
    destruct (decide _); eauto with go.
  - intros k. unfold bit at 1. rewrite Hel. pose proof (mod64_lt k).
    destruct (decide (k `div` 64 < num_elems bits)%nat); simpl; [|apply Z.bits_0].
    destruct (decide (k `div` 64 < n)%nat); [|done]. by rewrite op_bits by lia.
Qed.
End copy_op.

Lemma bit_above elems k : (length elems ≤ k `div` 64)%nat → bit elems k = false.
Proof. intros H. unfold bit. rewrite lookup_ge_None_2 by done. apply Z.bits_0. Qed.

Lemma num_elems_mono x y : 0 < x → x ≤ y → (num_elems x ≤ num_elems y)%nat.
Proof.
  intros Hx Hy. pose proof (num_elems_bounds x Hx).
  pose proof (num_elems_bounds y ltac:(lia)). lia.
Qed.

Lemma div64_ge_num bits k :
  0 < bits → (num_elems bits ≤ k `div` 64)%nat → (Z.to_nat bits ≤ k)%nat.
Proof.
  intros Hb Hk. pose proof (num_elems_bounds bits Hb).
  pose proof (Nat.div_mod_eq k 64). lia.
Qed.

(** What [Or] computes on well-formed operands: the receiver's bits, joined
    with the argument's bits of the elements the receiver has. *)
Lemma Or_exact a o :
  wf a → wf o →
  ∃ c, Or (Some a) (Some o) = Done (Some c) ∧ wf c ∧ Bits c = Z.max (Bits a) (Bits o) ∧
    ∀ k, bit (Elems c) k =
      bit (Elems a) k || (bool_decide (k `div` 64 < length (Elems a))%nat && bit (Elems o) k).
Proof.
  intros (Ha & Hla & Hua) (Ho & Hlo & Huo). unfold Or.
  pose proof (num_elems_mono (Bits a) (Z.max (Bits a) (Bits o)) Ha ltac:(lia)).
  destruct (copy_op_spec Z.lor orb (λ x y j _, Z.lor_spec x y j) lor_range a (Z.max (Bits a) (Bits o))
    (Nat.min (length (Elems a)) (length (Elems o))) o) as (es & -> & Hwf & Hb);
    [lia|done|done|lia|lia|].
  eexists. split; [reflexivity|]. split_and!; [done|done|].
  intros k. simpl. rewrite Hb. destruct (decide (k `div` 64 < num_elems _)%nat).
  - destruct (decide _); case_bool_decide; try done; try lia.
    + rewrite (bit_above (Elems o)) by lia. by rewrite orb_false_r.
    + by rewrite orb_false_r.
  - rewrite bit_above by lia. by rewrite bool_decide_false by lia.
Qed.

Lemma And_spec a o :
  wf a → wf o → clean a → clean o →
  ∃ c, And (Some a) (Some o) = Done (Some c) ∧ wf c ∧ clean c ∧
    Bits c = Z.min (Bits a) (Bits o) ∧ ∀ k, get c k = get a k && get o k.
Proof.
  intros (Ha & Hla & Hua) (Ho & Hlo & Huo) Hca Hco. unfold And, and.
  pose proof (num_elems_mono (Z.min (Bits a) (Bits o)) (Bits o) ltac:(lia) ltac:(lia)).
  destruct (copy_op_spec Z.land andb (λ x y j _, Z.land_spec x y j) land_range a
    (Z.min (Bits a) (Bits o)) (num_elems (Z.min (Bits a) (Bits o))) o)
    as (es & He & Hwf & Hb); [lia|done|done|lia|lia|].
  unfold copyBits in *. simpl in *. rewrite length_copied, He. simpl.
  eexists. split; [reflexivity|].
  assert (Hk : ∀ k, bit es k = if decide (k < Z.to_nat (Z.min (Bits a) (Bits o)))%nat
                       then bit (Elems a) k && bit (Elems o) k else false).
  { intros k. rewrite Hb. destruct (decide (k < _)%nat).
    - rewrite !decide_True; [done|..];
        apply (div64_lt {| Bits := Z.min (Bits a) (Bits o); Elems := es |} k) in Hwf as Hd;
        simpl in *; try lia; destruct Hwf as (_ & Hl & _); simpl in Hl; lia.
    - destruct (decide _); [|done].
      destruct (decide (k < Z.to_nat (Bits a))%nat).
      + rewrite (Hco k) by lia. by rewrite andb_false_r.
      + by rewrite (Hca k) by lia. }
  split_and!; [done| |done|].
  - intros k Hge. simpl in *. rewrite Hk. by rewrite decide_False by lia.
  - intros k. rewrite !get_bit. simpl. rewrite Hk.
    destruct (decide _); repeat case_bool_decide; simpl; try done; try lia;
      by rewrite ?andb_false_r.
Qed.

Lemma Sub_exact a o :
  wf a → wf o →
  ∃ c, Sub (Some a) (Some o) = Done (Some c) ∧ wf c ∧ Bits c = Bits a ∧
    ∀ k, bit (Elems c) k = bit (Elems a) k && negb (bit (Elems o) k).
Proof.
  intros (Ha & Hla & Hua) (Ho & Hlo & Huo). unfold Sub.
  destruct (copy_op_spec Z.ldiff (λ x y, x && negb y) (λ x y j _, Z.ldiff_spec x y j)
    ldiff_range a (Bits a) (Nat.min (length (Elems a)) (length (Elems o))) o)
    as (es & -> & Hwf & Hb); [lia|done|done|lia|lia|].
  eexists. split; [reflexivity|]. split_and!; [done|done|]. intros k. rewrite Hb. rewrite <-Hla. destruct (decide _).
  - destruct (decide _); [done|]. rewrite (bit_above (Elems o)) by lia.
    by rewrite andb_true_r.
  - by rewrite (bit_above (Elems a)) by lia.
Qed.

Lemma Sub_spec a o :
  wf a → wf o → clean a → clean o →
  ∃ c, Sub (Some a) (Some o) = Done (Some c) ∧ wf c ∧ clean c ∧
    Bits c = Bits a ∧ ∀ k, get c k = get a k && negb (get o k).
Proof.
  intros Ha Ho Hca Hco. destruct (Sub_exact a o Ha Ho) as (c & -> & Hw & HB & Hk). exists c. split; [done|].
  assert (Hcc : clean c). { intros k Hge. rewrite HB in Hge. by rewrite Hk, (Hca k). }
  split_and!; [done|done|done|]. intros k.
  rewrite (get_clean _ _ Hcc), (get_clean _ _ Hca), (get_clean _ _ Hco). apply Hk.
Qed.

Lemma Or_spec a o :
  wf a → wf o → clean a → clean o → (length (Elems o) ≤ length (Elems a))%nat →
  ∃ c, Or (Some a) (Some o) = Done (Some c) ∧ wf c ∧ clean c ∧
    Bits c = Z.max (Bits a) (Bits o) ∧ ∀ k, get c k = get a k || get o k.
Proof.
  intros Ha Ho Hca Hco Hlen. destruct (Or_exact a o Ha Ho) as (c & -> & Hwf & Hbits & Hb).
  exists c. split; [done|].
  assert (Hk : ∀ k, bit (Elems c) k = bit (Elems a) k || bit (Elems o) k).
  { intros k. rewrite Hb. case_bool_decide; [done|].
    by rewrite (bit_above (Elems o)) by lia. }
  assert (Hcc : clean c).
  { intros k Hge. rewrite Hk, Hca, Hco by lia. done. }
  split_and!; [done|done|done|]. intros k.
  rewrite (get_clean _ _ Hcc), (get_clean _ _ Hca), (get_clean _ _ Hco). apply Hk.
Qed.

Lemma not_spec a :
  wf a → wf (not a) ∧ Bits (not a) = Bits a ∧
    ∀ k, (k < Z.to_nat (Bits a))%nat → get (not a) k = negb (get a k).
Proof.
  intros Hwf. pose proof (λ k, div64_lt a k Hwf) as Hdiv.
  destruct Hwf as (Ha & Hl & Hu). unfold not. rewrite copy_eq. simpl.
  split_and!; [|done|].
  - split_and!; simpl; [done|by rewrite length_fmap|].
    apply Forall_fmap. eapply Forall_impl; [exact Hu|]. intros x Hx. by apply not64_range.
  - intros k Hk. rewrite !get_bit. simpl. rewrite !bool_decide_true by done. simpl.
    unfold bit. rewrite list_lookup_fmap. specialize (Hdiv k Hk).
    destruct (lookup_lt_is_Some_2 (Elems a) _ Hdiv) as [x Hx]. rewrite Hx. simpl.
    pose proof (mod64_lt k). apply not64_testbit; [|lia]. by eapply Forall_lookup in Hu.
Qed.

Lemma SetIndex_bits b (i : nat) :
  wf b →
  ∃ b' ok, SetIndex (Some b) (Z.of_nat i) true = Done (Some b', ok) ∧ wf b' ∧ Bits b' = Bits b ∧
    ∀ k, bit (Elems b') k = (if decide (k = i ∧ Z.of_nat i < Bits b) then true else bit (Elems b) k).
Proof.
  intros Hwf. unfold SetIndex. destruct (decide (Z.of_nat i < Bits b)) as [Hi|Hi].
  - destruct (setIndex_raw b i true Hwf ltac:(lia)) as (b' & -> & Hwf' & HB & Hbit). simpl. exists b', true.
    split_and!; [done..|]. intros k. rewrite Hbit. repeat case_decide; naive_solver.
  - exists b, false. unfold setIndex. destruct (Z.leb_spec (Bits b) (Z.of_nat i)); [|lia]. split_and!; [done..|].
    intros k. rewrite decide_False; [done|lia].
Qed.

(** [Update] copies whole elements: a bit comes from the argument, or from the receiver past it. *)
Lemma Update_bits b o :
  wf b → Forall in_uint64 (Elems o) →
  ∃ b', Update (Some b) (Some o) = Some b' ∧ wf b' ∧ Bits b' = Bits b ∧
    ∀ k, bit (Elems b') k = true → bit (Elems o) k = true ∨ bit (Elems b) k = true.
Proof.
  intros (Hb & Hl & Hu) Ho. eexists. split; [done|]. unfold go_copy. split_and!; simpl.
  - split_and!; simpl; [done| |].
    + rewrite length_app, length_take, length_drop, <- Hl. lia.
    + apply Forall_app. split; [by apply Forall_take|by apply Forall_drop].
  - done.
  - intros k. unfold bit. destruct (decide (k `div` 64 < length (Elems o))%nat) as [Hk|Hk].
    + destruct (decide (k `div` 64 < length (Elems b))%nat).
      * rewrite lookup_app_l, lookup_take_lt by (rewrite ?length_take; lia). auto.
      * rewrite (lookup_ge_None_2 (_ ++ _)) by (rewrite length_app, length_take, length_drop; lia). simpl. by rewrite Z.bits_0.
    + rewrite lookup_app_r by (rewrite length_take; lia). rewrite lookup_drop.
      replace (length (Elems o) + _)%nat with (k `div` 64 + (length (Elems o) - length (take (length (Elems b)) (Elems o))))%nat by (rewrite length_take in *; lia).
      rewrite length_take. destruct (decide (length (Elems o) ≤ length (Elems b))%nat).
      * rewrite Nat.min_r by lia. rewrite Nat.sub_diag, Nat.add_0_r. auto.
      * rewrite (lookup_ge_None_2 (Elems b)) by lia. simpl. by rewrite Z.bits_0.
Qed.

(** what a caller writes with [SetIndex] is what [GetIndex] reads, at the
    written index and at every other index, in range or not, and writing keeps
    the array well formed; a write past the size is refused. *)
Theorem GetIndex_SetIndex b i k v :
  wf b →
  ∃ b' ok, SetIndex (Some b) (Z.of_nat i) v = Done (Some b', ok) ∧ wf b' ∧
    Bits b' = Bits b ∧ ok = bool_decide (Z.of_nat i < Bits b) ∧
    GetIndex (Some b') (Z.of_nat k) =
      (if decide (k = i ∧ Z.of_nat i < Bits b) then Done v else GetIndex (Some b) (Z.of_nat k)).
Proof.
  intros Hwf. unfold SetIndex, GetIndex. case_bool_decide as Hi.
  - destruct (setIndex_raw b i v Hwf ltac:(lia)) as (b' & -> & Hwf' & HB & Hbit). simpl.
    exists b', true. split_and!; [done..|].
    rewrite !getIndex_get, !get_bit, HB, Hbit by done.
    destruct (decide (k = i)) as [->|]; destruct (decide (_ ∧ _)); try done; [|naive_solver|naive_solver].
    by rewrite bool_decide_true by lia.
  - exists b, false. unfold setIndex at 1. destruct (Z.leb_spec (Bits b) (Z.of_nat i)); [|lia].
    split_and!; [done..|]. rewrite decide_False; [done|lia].
Qed.

Lemma GetIndex_SetIndex_witness :
  wf {| Bits := 70; Elems := [5; 2] |} ∧
  ∃ b' ok, SetIndex (Some {| Bits := 70; Elems := [5; 2] |}) (Z.of_nat 65) false
             = Done (Some b', ok) ∧ wf b' ∧ Bits b' = 70 ∧
    ok = bool_decide (Z.of_nat 65 < 70) ∧
    GetIndex (Some b') (Z.of_nat 65) = Done false.
Proof.
  split; [by_decide|].
  exact (GetIndex_SetIndex {| Bits := 70; Elems := [5; 2] |} 65 65 false ltac:(by_decide)).
Defined.

(** ** [IsFull] and [IsEmpty] *)

Lemma low_ones_iff x r :
  0 ≤ r → (x + 1) `mod` 2 ^ r = 0 ↔ ∀ j, 0 ≤ j < r → Z.testbit x j = true.
Proof.
  intros Hr. assert (Hp : 0 < 2 ^ r) by (by apply Z.pow_pos_nonneg).
  assert (Hones : (x + 1) `mod` 2 ^ r = 0 ↔ x `mod` 2 ^ r = Z.ones r).
  { rewrite Z.ones_equiv. pose proof (Z.mod_pos_bound x (2 ^ r) Hp).
    rewrite <-Z.add_mod_idemp_l by lia. destruct (decide (x `mod` 2 ^ r = 2 ^ r - 1)) as [E|E].
    - rewrite E. replace (2 ^ r - 1 + 1) with (2 ^ r) by lia. rewrite Z.mod_same by lia. lia.
    - rewrite Z.mod_small by lia. lia. }
  rewrite Hones, <-Z.land_ones by lia. split.
  - intros E j Hj. apply (f_equal (λ y, Z.testbit y j)) in E.
    rewrite Z.land_spec, Z.ones_spec_low, andb_true_r in E by lia. done.
  - intros H. apply Z.bits_inj'. intros j Hj. rewrite Z.land_spec.
    destruct (decide (j < r)).
    + rewrite Z.ones_spec_low, H by lia. done.
    + rewrite Z.ones_spec_high by lia. by rewrite andb_false_r.
Qed.

Lemma full_mask r : 1 ≤ r ≤ 64 → wrapu64 (shl1 r - 1) = Z.ones r.
Proof.
  intros Hr. destruct (decide (r = 64)) as [->|]; [reflexivity|].
  rewrite shl1_pow by lia. rewrite Z.ones_equiv. apply wrapu64_id. unfold_ints.
  pose proof (Z.pow_pos_nonneg 2 r ltac:(lia) ltac:(lia)).
  pose proof (Z.pow_le_mono_r 2 r 63 ltac:(lia) ltac:(lia)). lia.
Qed.

Lemma last_elem_full last r :
  1 ≤ r ≤ 64 →
  (Z.land (wrapu64 (last + 1)) (wrapu64 (shl1 r - 1)) =? 0) = true ↔
  ∀ j, 0 ≤ j < r → Z.testbit last j = true.
Proof.
  intros Hr. rewrite full_mask, Z.land_ones, Z.eqb_eq, <-low_ones_iff by lia.
  unfold wrapu64. replace two64 with (2 ^ r * 2 ^ (64 - r))
    by (rewrite <-Z.pow_add_r by lia; replace (r + (64 - r)) with 64 by lia; reflexivity).
  rewrite Z.mod_mod_divide; [done|]. apply Z.divide_factor_l.
Qed.

Lemma not64_zero x : in_uint64 x → (not64 x =? 0) = true ↔ ∀ j, 0 ≤ j < 64 → Z.testbit x j = true.
Proof.
  intros Hx. rewrite <-low_ones_iff by lia. unfold not64. rewrite Z.eqb_eq. unfold_ints.
  split; intros H.
  - replace x with 18446744073709551615 by lia. reflexivity.
  - assert (18446744073709551616 <= x + 1 ∨ x + 1 < 2 ^ 64) as [|] by lia; [lia|].
    rewrite Z.mod_small in H by lia. lia.
Qed.

(** The last element of a well-formed array holds bits [64*(n-1)] to [Bits-1]. *)
Lemma last_elem_bits b :
  wf b → let n := (length (Elems b) - 1)%nat in
  ∃ x, last (Elems b) = Some x ∧ Elems b !! n = Some x ∧
    1 ≤ Z.rem (Bits b + 63) 64 + 1 ≤ 64 ∧
    Bits b = 64 * Z.of_nat n + (Z.rem (Bits b + 63) 64 + 1).
Proof.
  intros (Hpos & Hlen & _). simpl. pose proof (num_elems_bounds (Bits b) Hpos).
  rewrite last_lookup, Hlen. replace (pred (num_elems (Bits b))) with (num_elems (Bits b) - 1)%nat by lia.
  destruct (lookup_lt_is_Some_2 (Elems b) (num_elems (Bits b) - 1)%nat) as [x Hx]; [lia|].
  exists x. split_and!; [done|done|..];
    rewrite Z.rem_mod_nonneg by lia; pose proof (Z.mod_pos_bound (Bits b + 63) 64);
    pose proof (Z.div_mod (Bits b + 63) 64); lia.
Qed.

Lemma bit_elem elems q j x :
  elems !! q = Some x → 0 ≤ j < 64 → bit elems (64 * q + Z.to_nat j) = Z.testbit x j.
Proof.
  intros Hx Hj. unfold bit.
  replace ((64 * q + Z.to_nat j) `div` 64)%nat with q
    by (apply (Nat.div_unique _ _ _ (Z.to_nat j)); lia).
  replace ((64 * q + Z.to_nat j) `mod` 64)%nat with (Z.to_nat j)
    by (apply (Nat.mod_unique _ _ q); lia).
  rewrite Hx. simpl. by rewrite Z2Nat.id by lia.
Qed.

Lemma IsFull_spec b :
  wf b → ∃ r, IsFull (Some b) = Done r ∧
    (r = true ↔ ∀ k, (k < Z.to_nat (Bits b))%nat → get b k = true).
Proof.
  intros Hwf. destruct (last_elem_bits b Hwf) as (x & Hlast & Hx & Hr & HB).
  pose proof Hwf as (Hpos & Hlen & Hu). unfold IsFull. rewrite Hlast.
  set (n := (length (Elems b) - 1)%nat) in *. set (r := Z.rem (Bits b + 63) 64 + 1) in *.
  assert (Hfull : ∀ k, (k < Z.to_nat (Bits b))%nat → get b k = bit (Elems b) k).
  { intros k Hk. rewrite get_bit. by rewrite bool_decide_true. }
  destruct (forallb _ _) eqn:Hall.
  - eexists. split; [reflexivity|]. rewrite last_elem_full by done. split.
    + intros Hl k Hk. rewrite Hfull by done. unfold bit.
      pose proof (mod64_lt k). pose proof (Nat.div_mod_eq k 64).
      destruct (decide (k `div` 64 = n)%nat) as [E|E].
      * rewrite E, Hx. simpl. apply Hl. lia.
      * pose proof (div64_lt b k Hwf Hk) as Hd.
        destruct (lookup_lt_is_Some_2 (Elems b) _ Hd) as [y Hy]. rewrite Hy. simpl.
        rewrite forallb_forall in Hall.
        apply (not64_zero y); [by eapply Forall_lookup in Hu| |lia].
        apply Hall, list_elem_of_In, list_elem_of_lookup. exists (k `div` 64)%nat.
        rewrite lookup_take_lt by (subst n; lia). done.
    + intros H j Hj. specialize (H (64 * n + Z.to_nat j)%nat ltac:(lia)).
      rewrite Hfull in H by lia. by rewrite (bit_elem _ _ _ x) in H by (done || lia).
  - exists false. split; [done|]. split; [done|]. intros H. exfalso.
    apply not_true_iff_false in Hall. apply Hall, forallb_forall. intros y Hy.
    apply list_elem_of_In, list_elem_of_lookup in Hy as [q Hq].
    pose proof (lookup_lt_Some _ _ _ Hq) as Hqn. rewrite length_take in Hqn.
    rewrite lookup_take_lt in Hq by lia.
    apply not64_zero; [by eapply Forall_lookup in Hu|]. intros j Hj.
    specialize (H (64 * q + Z.to_nat j)%nat ltac:(subst n; lia)).
    rewrite Hfull in H by (subst n; lia). by rewrite (bit_elem _ _ _ y) in H by (done || lia).
Qed.

Lemma uint64_zero_bits x :
  in_uint64 x → (∀ j, 0 ≤ j < 64 → Z.testbit x j = false) → x = 0.
Proof.
  intros Hx H. apply Z.bits_inj'. intros j Hj. rewrite Z.bits_0.
  destruct (decide (j < 64)); [apply H; lia|apply testbit_high; [done|lia]].
Qed.

Lemma IsEmpty_spec b :
  wf b → clean b → IsEmpty (Some b) = true ↔ ∀ k, get b k = false.
Proof.
  intros (Hpos & Hlen & Hu) Hc. unfold IsEmpty. rewrite forallb_forall. split.
  - intros H k. rewrite get_clean by done. unfold bit.
    destruct (Elems b !! _) as [x|] eqn:E; simpl; [|apply Z.bits_0].
    assert (x ∈ Elems b) as Hin%list_elem_of_In by (apply list_elem_of_lookup; eauto).
    apply H in Hin. zbool. eapply Forall_lookup in Hu; [|done]. unfold_ints.
    replace x with 0 by lia. apply Z.bits_0.
  - intros H x [q Hq]%list_elem_of_In%list_elem_of_lookup.
    assert (x = 0) as ->; [|done].
    apply uint64_zero_bits; [by eapply Forall_lookup in Hu|]. intros j Hj.
    rewrite <-(bit_elem (Elems b) q j x) by done. by rewrite <-get_clean.
Qed.

Lemma clean_finite b :
  clean b ↔ Forall (λ k, bit (Elems b) k = false)
    (seq (Z.to_nat (Bits b)) (64 * length (Elems b) - Z.to_nat (Bits b))).
Proof.
  rewrite Forall_forall. split.
  - intros H k [Hk _]%elem_of_seq. by apply H.
  - intros H k Hk. destruct (decide (64 * length (Elems b) ≤ k)%nat).
    + apply bit_above. apply Nat.div_le_lower_bound; lia.
    + apply H, elem_of_seq. lia.
Qed.

#[export] Instance clean_dec b : Decision (clean b).
Proof.
  refine (cast_if (decide (Forall (λ k, bit (Elems b) k = false)
    (seq (Z.to_nat (Bits b)) (64 * length (Elems b) - Z.to_nat (Bits b)))))); by rewrite clean_finite.
Defined.

(** the bitwise operations that the gossip code uses compute the pointwise
    Boolean operation: [And] on the shorter length, [Sub] on the receiver's
    length, [Or] on the longer length provided the receiver has at least as many
    elements as the argument; none of them panics, and [IsEmpty] and [IsFull] of
    the results decide whether no bit or every bit is set. *)
Theorem bitwise_ops_correct a o :
  wf a → wf o → clean a → clean o →
  (∃ c, And (Some a) (Some o) = Done (Some c) ∧ wf c ∧ clean c ∧
     Bits c = Z.min (Bits a) (Bits o) ∧ ∀ k, get c k = get a k && get o k) ∧
  (∃ c r, Sub (Some a) (Some o) = Done (Some c) ∧ wf c ∧ clean c ∧ Bits c = Bits a ∧
     (∀ k, get c k = get a k && negb (get o k)) ∧
     (IsEmpty (Some c) = true ↔ ∀ k, get a k = true → get o k = true) ∧
     IsFull (Some a) = Done r ∧
     (r = true ↔ ∀ k, (k < Z.to_nat (Bits a))%nat → get a k = true)) ∧
  ((length (Elems o) ≤ length (Elems a))%nat →
   ∃ c, Or (Some a) (Some o) = Done (Some c) ∧ wf c ∧ clean c ∧
     Bits c = Z.max (Bits a) (Bits o) ∧ ∀ k, get c k = get a k || get o k).
Proof.
  intros Ha Ho Hca Hco. split_and!.
  - by apply And_spec.
  - destruct (Sub_spec a o Ha Ho Hca Hco) as (c & Hs & Hwc & Hcc & HB & Hg).
    destruct (IsFull_spec a Ha) as (r & Hr & Hiff).
    exists c, r. split_and!; try done. rewrite (IsEmpty_spec c Hwc Hcc).
    setoid_rewrite Hg. split; intros H k; specialize (H k);
      destruct (get a k), (get o k); naive_solver.
  - intros. by apply Or_spec.
Qed.

Lemma bitwise_ops_correct_witness :
  let a := {| Bits := 70; Elems := [5; 2] |} in
  let o := {| Bits := 3; Elems := [4] |} in
  (∃ c, And (Some a) (Some o) = Done (Some c) ∧ wf c ∧ clean c ∧
     Bits c = 3 ∧ ∀ k, get c k = get a k && get o k) ∧
  Or (Some a) (Some o) = Done (Some {| Bits := 70; Elems := [5; 2] |}).
Proof.
  split; [|reflexivity].
  exact (proj1 (bitwise_ops_correct {| Bits := 70; Elems := [5; 2] |}
    {| Bits := 3; Elems := [4] |} ltac:(by_decide) ltac:(by_decide)
    ltac:(by_decide) ltac:(by_decide))).
Defined.

(** ** Counting and picking set bits *)

(** The positions of the set bits of one element among [js]. *)
Definition ones_of (e : Z) (js : list Z) : list Z := filter (λ j, Z.testbit e j = true) js.

(** All set positions of an element slice whose first element has index [i]. *)
Fixpoint true_indices (elems : list Z) (i : Z) : list Z :=
  match elems with
  | [] => []
  | e :: elems => ((λ j, i * 64 + j) <$> ones_of e (seqZ 0 64)) ++ true_indices elems (i + 1)
  end.

Lemma count_final_spec elems q e n i count :
  elems !! q = Some e → 0 ≤ i → i + Z.of_nat n ≤ 64 →
  count_final elems (Z.of_nat q) n i count =
    Done (count + zlen (ones_of e (seqZ i (Z.of_nat n)))).
Proof.
  intros He. revert i count. induction n as [|n IH]; intros i count Hi Hn; simpl.
  - unfold zlen. simpl. f_equal. lia.
  - rewrite (idx_nat _ _ e He). simpl. rewrite IH by lia.
    rewrite shl1_pow, land_mask_pos by lia.
    rewrite (seqZ_cons i (Z.of_nat (S n))) by lia.
    replace (Z.pred (Z.of_nat (S n))) with (Z.of_nat n) by lia.
    replace (Z.succ i) with (i + 1) by lia. unfold ones_of. rewrite filter_cons.
    destruct (Z.testbit e i); simpl; f_equal; unfold zlen; simpl; lia.
Qed.

Lemma scan_elem_spec e js count n :
  (∀ j, j ∈ js → 0 ≤ j < 64) → count ≤ n →
  scan_elem e js count n =
    match ones_of e js !! Z.to_nat (n - count) with
    | Some j => inl j
    | None => inr (count + zlen (ones_of e js))
    end.
Proof.
  revert count. induction js as [|j js IH]; intros count Hjs Hn; simpl.
  - unfold zlen. simpl. by rewrite Z.add_0_r.
  - assert (0 ≤ j < 64) by (apply Hjs; set_solver).
    rewrite shl1_pow, land_mask_nonzero by lia. unfold ones_of. rewrite filter_cons.
    destruct (Z.testbit e j) eqn:Hb; simpl.
    + destruct (Z.eqb_spec count n) as [->|Hne].
      * by rewrite Z.sub_diag.
      * rewrite IH by (set_solver || lia). unfold ones_of.
        replace (Z.to_nat (n - count)) with (S (Z.to_nat (n - (count + 1)))) by lia. simpl.
        destruct (_ !! _); [done|]. f_equal. unfold zlen. simpl. lia.
    + rewrite IH by (set_solver || lia). done.
Qed.

Lemma nth_true_loop_spec elems i count n :
  count ≤ n →
  nth_true_loop elems i count n = default (-1) (true_indices elems i !! Z.to_nat (n - count)).
Proof.
  revert i count. induction elems as [|e elems IH]; intros i count Hn; [done|].
  cbn [nth_true_loop true_indices]. change (onesCount64 e) with (zlen (ones_of e (seqZ 0 64))).
  set (os := ones_of e (seqZ 0 64)).
  assert (Hscan : scan_elem e (seqZ 0 64) count n =
    match os !! Z.to_nat (n - count) with Some j => inl j | None => inr (count + zlen os) end).
  { apply scan_elem_spec; [|done]. intros j Hj%elem_of_seqZ. lia. }
  clearbody os.
  destruct (Z.leb_spec n (count + zlen os)) as [Hle|Hgt].
  - rewrite Hscan. destruct (os !! Z.to_nat (n - count)) as [j|] eqn:Ej.
    + rewrite lookup_app_l, list_lookup_fmap, Ej; [done|].
      rewrite length_fmap. by eapply lookup_lt_Some.
    + apply lookup_ge_None in Ej. rewrite IH by (unfold zlen in *; lia).
      rewrite lookup_app_r by (rewrite length_fmap; lia). rewrite length_fmap.
      unfold zlen. do 2 f_equal. lia.
  - rewrite IH by lia. rewrite lookup_app_r by (rewrite length_fmap; unfold zlen in *; lia).
    rewrite length_fmap. unfold zlen. do 2 f_equal. lia.
Qed.

(** The set indices of an array, in increasing order. *)
Definition set_indices (b : BitArray) : list Z :=
  Z.of_nat <$> filter (λ k, get b k = true) (seq 0 (Z.to_nat (Bits b))).

Lemma elem_indices es q e m :
  es !! q = Some e → (m ≤ 64)%nat →
  Z.of_nat <$> filter (λ k, bit es k = true) (seq (64 * q) m) =
    (λ j, Z.of_nat q * 64 + j) <$> ones_of e (seqZ 0 (Z.of_nat m)).
Proof.
  intros He. induction m as [|m IH]; intros Hm; [done|].
  rewrite seq_S, seqZ_S, filter_app, fmap_app, IH by lia.
  unfold ones_of. rewrite filter_app, fmap_app. f_equal.
  rewrite <-(Nat2Z.id m) at 1. rewrite !filter_cons, (bit_elem es q (Z.of_nat m) e) by (done || lia).
  rewrite Z.add_0_l, Nat2Z.id.
  destruct (Z.testbit e (Z.of_nat m)); simpl; [|done]. f_equal. lia.
Qed.

Lemma true_indices_filter pre elems :
  true_indices elems (zlen pre) =
    Z.of_nat <$> filter (λ k, bit (pre ++ elems) k = true)
                        (seq (64 * length pre) (64 * length elems)).
Proof.
  revert pre. induction elems as [|e elems IH]; intros pre; [done|].
  cbn [true_indices]. replace (zlen pre + 1) with (zlen (pre ++ [e]))
    by (unfold zlen; rewrite length_app; simpl; lia).
  rewrite IH, length_app, <-app_assoc. simpl ([_] ++ _). cbn [length].
  replace (64 * S (length elems))%nat with (64 + 64 * length elems)%nat by lia.
  rewrite seq_app, filter_app, fmap_app. f_equal; [|do 3 f_equal; lia].
  symmetry. apply (elem_indices (pre ++ e :: elems) (length pre) e 64); [|lia].
  by rewrite list_lookup_middle.
Qed.

Lemma zsum_ones elems i : zsum onesCount64 elems = zlen (true_indices elems i).
Proof.
  revert i. induction elems as [|e elems IH]; intros i; [done|].
  cbn [zsum true_indices]. rewrite (IH (i + 1)). unfold zlen. rewrite length_app, length_fmap.
  change (onesCount64 e) with (zlen (ones_of e (seqZ 0 64))). unfold zlen. lia.
Qed.

Lemma true_indices_app l1 l2 i :
  true_indices (l1 ++ l2) i = true_indices l1 i ++ true_indices l2 (i + zlen l1).
Proof.
  revert i. induction l1 as [|e l1 IH]; intros i; [simpl; f_equal; unfold zlen; simpl; lia|].
  cbn [app true_indices]. rewrite IH, app_assoc. do 2 f_equal. unfold zlen. simpl. lia.
Qed.

(** The set indices, split at the last element. *)
Lemma set_indices_split b :
  wf b → let n := (length (Elems b) - 1)%nat in
  ∃ x, Elems b = take n (Elems b) ++ [x] ∧ Elems b !! n = Some x ∧
    0 < Bits b - Z.of_nat n * 64 ≤ 64 ∧
    set_indices b = true_indices (take n (Elems b)) 0 ++
      ((λ j, Z.of_nat n * 64 + j) <$> ones_of x (seqZ 0 (Bits b - Z.of_nat n * 64))).
Proof.
  intros Hwf n. destruct (last_elem_bits b Hwf) as (x & _ & Hx & Hr & HB).
  fold n in Hx, HB. set (r := Z.rem (Bits b + 63) 64 + 1) in *.
  assert (Hlen : length (Elems b) = S n) by (apply lookup_lt_Some in Hx; lia).
  assert (Hsplit : Elems b = take n (Elems b) ++ [x]).
  { rewrite <-(take_drop n (Elems b)) at 1. f_equal.
    rewrite (drop_S _ x) by done. by rewrite drop_ge by lia. }
  exists x. split_and!; [done|done|lia|lia|]. unfold set_indices.
  replace (Bits b - Z.of_nat n * 64) with r by lia.
  replace (Z.to_nat (Bits b)) with (64 * n + Z.to_nat r)%nat by lia.
  rewrite (filter_ext_in _ (λ k, bit (Elems b) k = true)).
  2:{ intros k Hk%elem_of_seq. rewrite get_bit. by rewrite bool_decide_true by lia. }
  rewrite seq_app, filter_app, fmap_app. f_equal.
  - change 0 with (zlen (@nil Z)). rewrite (true_indices_filter [] (take n (Elems b))).
    simpl (64 * length [])%nat.
    rewrite length_take_le by lia. f_equal. apply filter_ext_in.
    intros k Hk%elem_of_seq. unfold bit. rewrite app_nil_l, lookup_take_lt; [done|].
    apply Nat.Div0.div_lt_upper_bound; lia.
  - rewrite Nat.add_0_l. rewrite (elem_indices (Elems b) n x) by (done || lia).
    by rewrite Z2Nat.id by lia.
Qed.

Lemma getNumTrueIndices_spec b : wf b → getNumTrueIndices b = Done (zlen (set_indices b)).
Proof.
  intros Hwf. destruct (set_indices_split b Hwf) as (x & Hs & Hx & Hr & ->).
  unfold getNumTrueIndices. set (n := (length (Elems b) - 1)%nat) in *.
  pose proof (lookup_lt_Some _ _ _ Hx).
  replace (zlen (Elems b) - 1) with (Z.of_nat n) by (unfold zlen; lia).
  rewrite (count_final_spec _ n x) by (done || lia).
  rewrite (zsum_ones _ 0). f_equal. unfold zlen. rewrite length_app, length_fmap.
  rewrite Z2Nat.id by lia. lia.
Qed.

Lemma getNthTrueIndex_spec b n z :
  wf b → set_indices b !! n = Some z → getNthTrueIndex b (Z.of_nat n) = z.
Proof.
  intros Hwf Hz. destruct (set_indices_split b Hwf) as (x & Hs & Hx & Hr & Hi).
  unfold getNthTrueIndex. rewrite nth_true_loop_spec by lia.
  rewrite Z.sub_0_r, Nat2Z.id, Hs, true_indices_app. rewrite Hi in Hz.
  set (m := (length (Elems b) - 1)%nat) in *. set (r := Bits b - Z.of_nat m * 64) in *.
  pose proof (lookup_lt_Some _ _ _ Hx).
  replace (0 + zlen (take m (Elems b))) with (Z.of_nat m)
    by (unfold zlen; rewrite length_take_le by lia; lia).
  cbn [true_indices]. replace (seqZ 0 64) with (seqZ 0 r ++ seqZ (0 + r) (64 - r))
    by (rewrite <-seqZ_app by lia; f_equal; lia).
  unfold ones_of in *. rewrite filter_app, fmap_app, app_nil_r, app_assoc.
  by erewrite lookup_app_l_Some.
Qed.

(** for every outcome of the random draw, [PickRandom] terminates without a
    panic; it answers [(0, false)] exactly when no bit is set and otherwise the
    index of a set bit below the size, and each set index is the answer for some
    draw: the draw [n] selects the [n]-th set index. *)
Theorem PickRandom_correct b intn :
  wf b → (∀ m, 0 < m → 0 ≤ intn m < m) →
  ∃ z ok, PickRandom (Some b) intn = Done (z, ok) ∧
    (ok = true ↔ ∃ k, get b k = true) ∧
    (ok = false → z = 0) ∧
    (ok = true → set_indices b !! Z.to_nat (intn (zlen (set_indices b))) = Some z ∧
                 ∃ k, z = Z.of_nat k ∧ Z.of_nat k < Bits b ∧ get b k = true).
Proof.
  intros Hwf Hr. unfold PickRandom. rewrite getNumTrueIndices_spec by done. simpl.
  assert (Hmem : ∀ z, z ∈ set_indices b ↔ ∃ k, z = Z.of_nat k ∧ Z.of_nat k < Bits b ∧ get b k = true).
  { intros z. unfold set_indices. rewrite list_elem_of_fmap. setoid_rewrite list_elem_of_filter.
    setoid_rewrite elem_of_seq. destruct Hwf as (? & _).
    split; [intros (k & ? & ? & ?)|intros (k & ? & ? & ?)]; exists k; split_and!; done || lia. }
  destruct (Z.eqb_spec (zlen (set_indices b)) 0) as [E|E].
  - exists 0, false. split_and!; try done. split; [done|]. intros (k & Hk).
    assert (Z.of_nat k ∈ set_indices b) as Hin.
    { apply Hmem. exists k. split_and!; [done| |done]. rewrite get_bit in Hk.
      case_bool_decide; [lia|done]. }
    destruct (set_indices b); [set_solver|]. unfold zlen in E. simpl in E. lia.
  - pose proof (zlen_nonneg (set_indices b)). specialize (Hr (zlen (set_indices b)) ltac:(lia)).
    set (n := intn _) in *. destruct (lookup_lt_is_Some_2 (set_indices b) (Z.to_nat n)) as [z Hz].
    { unfold zlen in *. lia. }
    assert (Hzin : z ∈ set_indices b) by (apply list_elem_of_lookup; eauto).
    rewrite <-(Z2Nat.id n) by lia. rewrite (getNthTrueIndex_spec b _ z) by done.
    pose proof Hzin as (k & Hzk & Hk & Hg)%Hmem.
    destruct (Z.eqb_spec z (-1)); [lia|]. exists z, true.
    split_and!; [done|split; eauto|done|]. intros _. rewrite Nat2Z.id. split; [done|eauto].
Qed.

Lemma PickRandom_correct_witness :
  let b := {| Bits := 70; Elems := [9; 2] |} in
  PickRandom (Some b) (λ m, m - 1) = Done (65, true) ∧
  ∃ z ok, PickRandom (Some b) (λ m, m - 1) = Done (z, ok) ∧
    (ok = true ↔ ∃ k, get b k = true) ∧
    (ok = false → z = 0) ∧
    (ok = true → set_indices b !! Z.to_nat (zlen (set_indices b) - 1) = Some z ∧
                 ∃ k, z = Z.of_nat k ∧ Z.of_nat k < 70 ∧ get b k = true).
Proof.
  split; [reflexivity|].
  exact (PickRandom_correct {| Bits := 70; Elems := [9; 2] |} (λ m, m - 1)
    ltac:(by_decide) ltac:(intros; lia)).
Defined.

(** ** JSON and protobuf forms *)

Lemma bitarray_ext a b :
  wf a → wf b → clean a → clean b → Bits a = Bits b → (∀ k, get a k = get b k) → a = b.
Proof.
  intros (_ & Hla & Hua) (_ & Hlb & Hub) Hca Hcb HB Hget.
  destruct a as [n ea], b as [m eb]. simpl in *. subst m. f_equal.
  apply (list_eq_same_length _ _ (length ea)); [congruence|done|].
  intros q x y Hq Hx Hy. apply Z.bits_inj'. intros j Hj.
  destruct (decide (j < 64)).
  - rewrite <-(bit_elem ea q j x), <-(bit_elem eb q j y) by (done || lia).
    specialize (Hget (64 * q + Z.to_nat j)%nat).
    by rewrite !get_clean in Hget by done.
  - rewrite !testbit_high; [done|..]; [by eapply Forall_lookup in Hub|lia|by eapply Forall_lookup in Hua|lia].
Qed.

Lemma marshal_loop_spec b n i acc :
  wf b → marshal_loop b n (Z.of_nat i) acc = Done (acc ++ (bit_char ∘ get b <$> seq i n)).
Proof.
  intros Hwf. revert i acc. induction n as [|n IH]; intros i acc; simpl.
  - by rewrite app_nil_r.
  - rewrite getIndex_get by done. simpl. replace (Z.of_nat i + 1) with (Z.of_nat (S i)) by lia.
    rewrite IH. by rewrite <-app_assoc.
Qed.

Lemma MarshalJSON_spec b :
  wf b → MarshalJSON (Some b) =
    Done (dquote :: (bit_char ∘ get b <$> seq 0 (Z.to_nat (Bits b))) ++ [dquote]).
Proof. intros Hwf. unfold MarshalJSON. by rewrite (marshal_loop_spec b _ 0 _ Hwf). Qed.

Lemma json_regexp_body body :
  (∀ c, c ∈ body → c = "_"%char ∨ c = "x"%char) →
  json_regexp (dquote :: body ++ [dquote]) = Some body.
Proof.
  intros Hb. unfold json_regexp. rewrite last_snoc, length_app. cbn [length].
  replace (length body + 1 - 1)%nat with (length body) by lia.
  rewrite take_app_length. rewrite !(bool_decide_true (dquote = dquote)) by done. cbn [andb].
  replace (forallb _ body) with true; [done|]. symmetry. apply forallb_forall.
  intros c Hc%list_elem_of_In. apply orb_true_iff. rewrite !bool_decide_eq_true. by apply Hb.
Qed.

Lemma setIndex_true b k :
  wf b → clean b → (k < Z.to_nat (Bits b))%nat →
  ∃ b', SetIndex (Some b) (Z.of_nat k) true = Done (Some b', true) ∧ wf b' ∧ clean b' ∧
    Bits b' = Bits b ∧ ∀ m, get b' m = (get b m || bool_decide (m = k)).
Proof.
  intros Hwf Hc Hk. destruct (setIndex_raw b k true Hwf Hk) as (b' & Hs & Hwf' & HB & Hb).
  assert (Hc' : clean b').
  { intros m Hm. rewrite Hb, decide_False by lia. apply Hc. lia. }
  exists b'. unfold SetIndex. rewrite Hs. split_and!; [done..|].
  intros m. rewrite !get_clean by done. rewrite Hb.
  destruct (decide (m = k)); [by rewrite bool_decide_true, orb_true_r|].
  by rewrite bool_decide_false, orb_false_r.
Qed.
(** The loop of [NewBitArrayFromFn] sets the bits [fn] selects. *)
Lemma fill_from_fn_spec fn n i bits elems :
  wf (mkBitArray bits elems) → clean (mkBitArray bits elems) → Z.of_nat (i + n) ≤ bits →
  ∃ elems', fill_from_fn fn n (Z.of_nat i) elems = Done elems' ∧
    wf (mkBitArray bits elems') ∧ clean (mkBitArray bits elems') ∧
    ∀ k, bit elems' k = bit elems k || (bool_decide (i ≤ k < i + n)%nat && fn (Z.of_nat k)).
Proof.
  revert i elems. induction n as [|n IH]; intros i elems Hwf Hc Hb.
  { exists elems. split_and!; [done..|]. intros k. rewrite bool_decide_false by lia. by rewrite orb_false_r. }
  cbn [fill_from_fn]. replace (Z.of_nat i + 1) with (Z.of_nat (S i)) by lia.
  assert (∃ elems1, (if fn (Z.of_nat i) then e ← idx elems (Z.quot (Z.of_nat i) 64);
                        upd elems (Z.quot (Z.of_nat i) 64) (Z.lor e (bit_mask (Z.of_nat i))) else Done elems) = Done elems1 ∧
      wf (mkBitArray bits elems1) ∧ clean (mkBitArray bits elems1) ∧
      ∀ k, bit elems1 k = bit elems k || (bool_decide (k = i) && fn (Z.of_nat k))) as (elems1 & -> & Hwf1 & Hc1 & Hb1).
  { destruct (fn (Z.of_nat i)) eqn:Efn.
    - destruct (setIndex_raw (mkBitArray bits elems) i true Hwf) as (b' & Hs & Hwf' & HB & Hbit); [simpl; lia|].
      unfold setIndex in Hs. simpl in Hs. destruct (Z.leb_spec bits (Z.of_nat i)); [lia|].
      destruct (idx elems _) as [e|]; [|done]. simpl in Hs. destruct (upd elems _ _) as [es|] eqn:Eu; [|done].
      simpl in Hs. injection Hs as <-. exists es. simpl in *. rewrite Eu. split_and!; [done|done| |].
      + intros k Hk. simpl in *. rewrite Hbit. rewrite decide_False by lia. by apply (Hc k).
      + intros k. rewrite Hbit. destruct (decide (k = i)) as [->|].
        * rewrite bool_decide_true, Efn by done. by rewrite orb_true_r.
        * rewrite bool_decide_false by done. by rewrite orb_false_r.
    - exists elems. split_and!; [done..|]. intros k. destruct (decide (k = i)) as [->|];
        [rewrite Efn, andb_false_r|rewrite bool_decide_false by done]; by rewrite orb_false_r. }
  cbn. destruct (IH (S i) elems1 Hwf1 Hc1 ltac:(lia)) as (elems2 & -> & Hwf2 & Hc2 & Hb2).
  exists elems2. split_and!; [done..|]. intros k. rewrite Hb2, Hb1. rewrite <-orb_assoc. f_equal.
  destruct (decide (k = i)) as [->|].
  - rewrite (bool_decide_true (i = i)), (bool_decide_false (S i ≤ i < S i + n)%nat) by lia.
    rewrite bool_decide_true by lia. simpl. by rewrite orb_false_r.
  - rewrite (bool_decide_false (k = i)) by done. simpl. f_equal. apply bool_decide_ext. lia.
Qed.

Lemma NewBitArrayFromFn_spec n fn :
  0 < n → ∃ b, NewBitArrayFromFn n fn = Done (Some b) ∧ wf b ∧ clean b ∧ Bits b = n ∧
    ∀ k, get b k = bool_decide (k < Z.to_nat n)%nat && fn (Z.of_nat k).
Proof.
  intros Hn. destruct (NewBitArray_spec n Hn) as (b0 & E0 & Hwf & Hc & HB & Hz).
  unfold NewBitArray in E0. unfold NewBitArrayFromFn. destruct (Z.leb_spec n 0); [lia|]. injection E0 as <-.
  destruct (fill_from_fn_spec fn (Z.to_nat n) 0 n (replicate (num_elems n) 0) Hwf Hc ltac:(lia)) as (es & E & Hwf' & Hc' & Hb).
  change (Z.of_nat 0) with 0 in E. rewrite E. cbn. eexists. split_and!; [done|done|done|done|]. intros k.
  rewrite get_clean by done. cbn [Elems]. rewrite Hb. specialize (Hz k). rewrite get_clean in Hz by done. cbn [Elems] in Hz.
  rewrite Hz. cbn [orb]. f_equal. apply bool_decide_ext. lia.
Qed.


Lemma unmarshal_loop_spec bits i b :
  wf b → clean b → (i + length bits ≤ Z.to_nat (Bits b))%nat →
  ∃ b', unmarshal_loop bits (Z.of_nat i) (Some b) = Done (Some b') ∧ wf b' ∧ clean b' ∧
    Bits b' = Bits b ∧
    ∀ k, get b' k = (get b k || bool_decide (i ≤ k ∧ bits !! (k - i) = Some "x"%char)%nat).
Proof.
  revert i b. induction bits as [|c bits IH]; intros i b Hwf Hc Hlen; cbn [unmarshal_loop].
  - exists b. split_and!; [done..|]. intros k. rewrite bool_decide_false by naive_solver.
    by rewrite orb_false_r.
  - simpl in Hlen. replace (Z.of_nat i + 1) with (Z.of_nat (S i)) by lia.
    assert (Hstep : ∃ b1, (if bool_decide (c = "x"%char)
        then '(b0, _) ← SetIndex (Some b) (Z.of_nat i) true; Done b0 else Done (Some b)) = Done (Some b1)
        ∧ wf b1 ∧ clean b1 ∧ Bits b1 = Bits b ∧
        ∀ k, get b1 k = (get b k || bool_decide (k = i ∧ c = "x"%char))).
    { case_bool_decide as Hx.
      - destruct (setIndex_true b i) as (b1 & Hs & ? & ? & ? & Hg); [done|done|lia|].
        exists b1. rewrite Hs. split_and!; [done..|]. intros k. rewrite Hg.
        f_equal. apply bool_decide_ext. naive_solver.
      - exists b. split_and!; [done..|]. intros k.
        rewrite bool_decide_false by naive_solver. by rewrite orb_false_r. }
    destruct Hstep as (b1 & Hs & Hwf1 & Hc1 & HB1 & Hg1).
    rewrite Hs. cbn [mbind outcome_bind]. destruct (IH (S i) b1) as (b' & -> & ? & ? & HB & Hg); [done|done|lia|].
    exists b'. split_and!; [done|done|done|congruence|]. intros k. rewrite Hg, Hg1, <-orb_assoc.
    f_equal. destruct (decide (k = i)) as [->|Hne].
    + rewrite Nat.sub_diag. rewrite (bool_decide_false (S i ≤ i ∧ _)%nat) by lia.
      rewrite orb_false_r. apply bool_decide_ext. naive_solver.
    + rewrite (bool_decide_false (k = i ∧ _)) by naive_solver. simpl.
      apply bool_decide_ext. split; intros [? Hlk]; (split; [lia|]).
      * replace (k - i)%nat with (S (k - S i)) by lia. done.
      * by replace (k - i)%nat with (S (k - S i)) in Hlk by lia.
Qed.

(** the JSON form of a well-formed array without stray high bits parses back
    to the same array. *)
Theorem JSON_roundtrip b :
  wf b → clean b →
  ∃ js, MarshalJSON (Some b) = Done js ∧ UnmarshalJSON js = Done (Ok b).
Proof.
  intros Hwf Hc. eexists. split; [by apply MarshalJSON_spec|]. unfold UnmarshalJSON.
  set (body := bit_char ∘ get b <$> _). rewrite bool_decide_false by done.
  rewrite json_regexp_body.
  2:{ intros c (k & -> & _)%list_elem_of_fmap. unfold bit_char. simpl. destruct (get b k); auto. }
  assert (Hlen : zlen body = Bits b).
  { unfold zlen, body. rewrite length_fmap, length_seq. destruct Hwf as (? & _). lia. }
  destruct (NewBitArray_spec (zlen body)) as (b0 & -> & Hwf0 & Hc0 & HB0 & Hz).
  { rewrite Hlen. by destruct Hwf. }
  destruct (unmarshal_loop_spec body 0 b0) as (b' & Hu & Hwf' & Hc' & HB' & Hg);
    [done|done|rewrite HB0; unfold zlen; lia|].
  change (Z.of_nat 0) with 0 in Hu. rewrite Hu. simpl. rewrite copied_id.
  replace {| Bits := Bits b'; Elems := Elems b' |} with b' by (by destruct b').
  do 2 f_equal. apply bitarray_ext; [done..|congruence|]. intros k.
  rewrite Hg, Hz. cbn [orb]. rewrite Nat.sub_0_r. unfold body. rewrite list_lookup_fmap.
  destruct (decide (k < Z.to_nat (Bits b))%nat) as [Hk|Hk].
  - rewrite lookup_seq_lt by done. cbn [fmap option_fmap option_map]. unfold compose, bit_char.
    replace (0 + k)%nat with k by lia. destruct (get b k).
    + by rewrite bool_decide_true by (split; [lia|done]).
    + by rewrite bool_decide_false by (intros [_ [=]]).
  - rewrite lookup_seq_ge by lia. rewrite bool_decide_false by (intros [_ [=]]).
    rewrite get_bit. by rewrite bool_decide_false.
Qed.

Lemma JSON_roundtrip_witness :
  let b := {| Bits := 5; Elems := [19] |} in
  ∃ js, MarshalJSON (Some b) = Done js ∧ UnmarshalJSON js = Done (Ok b).
Proof. exact (JSON_roundtrip {| Bits := 5; Elems := [19] |} ltac:(by_decide) ltac:(by_decide)). Defined.

(** ** Three places where the code departs from its own documentation *)

(** [Or] is documented to right-pad the shorter operand with zeroes, but it
    only reads as many elements of its argument as the receiver has: every bit of
    the result past the receiver's elements is clear, whatever the argument holds
    there. *)
Theorem Or_drops_argument_tail a o :
  wf a → wf o → Bits a ≤ Bits o →
  ∃ c, Or (Some a) (Some o) = Done (Some c) ∧ Bits c = Bits o ∧
    ∀ k, (64 * length (Elems a) ≤ k)%nat → get c k = false.
Proof.
  intros Ha Ho HB. destruct (Or_exact a o Ha Ho) as (c & -> & Hwf & Hc & Hb).
  exists c. split_and!; [done|lia|]. intros k Hk.
  assert (length (Elems a) ≤ k `div` 64)%nat by (apply Nat.div_le_lower_bound; lia).
  rewrite get_bit, Hb, (bit_above (Elems a)), (bool_decide_false (k `div` 64 < _)%nat) by lia.
  by rewrite andb_false_r.
Qed.

Lemma Or_drops_argument_tail_witness :
  let a := {| Bits := 1; Elems := [1] |} in
  let o := {| Bits := 65; Elems := [0; 1] |} in
  get o 64 = true ∧
  ∃ c, Or (Some a) (Some o) = Done (Some c) ∧ Bits c = 65 ∧
    ∀ k, (64 * 1 ≤ k)%nat → get c k = false.
Proof.
  split; [reflexivity|].
  exact (Or_drops_argument_tail {| Bits := 1; Elems := [1] |} {| Bits := 65; Elems := [0; 1] |}
    ltac:(by_decide) ltac:(by_decide) ltac:(by_decide)).
Defined.

(** the negation of a full array has no set bit that [GetIndex] can see, yet
    [IsEmpty], documented to hold iff all bits are 0, answers false whenever the
    size is not a multiple of 64, because [Not] sets the unused high bits. *)
Theorem Not_full_not_IsEmpty b :
  wf b → clean b → (∀ k, (k < Z.to_nat (Bits b))%nat → get b k = true) →
  Bits b `mod` 64 ≠ 0 →
  (∀ k, GetIndex (Not (Some b)) (Z.of_nat k) = Done false) ∧ IsEmpty (Not (Some b)) = false.
Proof.
  intros Hwf Hc Hfull Hm. destruct (not_spec b Hwf) as (Hwn & HBn & Hn). split.
  - intros k. simpl. rewrite getIndex_get by done. f_equal.
    destruct (decide (k < Z.to_nat (Bits b))%nat) as [Hk|Hk].
    + by rewrite Hn, Hfull.
    + rewrite get_bit, HBn. by rewrite bool_decide_false.
  - destruct (last_elem_bits b Hwf) as (x & _ & Hx & Hr & HB).
    set (n := (length (Elems b) - 1)%nat) in *. set (r := Z.rem (Bits b + 63) 64 + 1) in *.
    assert (r ≠ 64) by (intros ->; apply Hm; rewrite HB, Z.add_comm, Z.mul_comm, Z.mod_add; [done|lia]).
    destruct Hwf as (_ & _ & Hu). assert (Hxu : in_uint64 x) by (by eapply Forall_lookup in Hu).
    assert (Hbit : Z.testbit (not64 x) r = true).
    { rewrite not64_testbit by (done || lia). rewrite <-(bit_elem (Elems b) n r x) by (done || lia).
      by rewrite Hc by lia. }
    apply not_true_iff_false. intros He. simpl in He. rewrite forallb_forall in He.
    assert (not64 x ∈ Elems (not b)) as Hin%list_elem_of_In.
    { unfold not. rewrite copy_eq. apply list_elem_of_fmap. exists x. split; [done|].
      apply list_elem_of_lookup. eauto. }
    apply He in Hin. zbool. pose proof (not64_range x Hxu) as [? _].
    replace (not64 x) with 0 in Hbit by lia. by rewrite Z.bits_0 in Hbit.
Qed.

Lemma Not_full_not_IsEmpty_witness :
  let b := {| Bits := 3; Elems := [7] |} in
  (∀ k, GetIndex (Not (Some b)) (Z.of_nat k) = Done false) ∧ IsEmpty (Not (Some b)) = false.
Proof.
  refine (Not_full_not_IsEmpty {| Bits := 3; Elems := [7] |} ltac:(by_decide) ltac:(by_decide) _
    ltac:(by_decide)).
  intros k Hk. simpl in Hk. do 3 (destruct k as [|k]; [reflexivity|]). lia.
Defined.

(** decoding a protobuf bit array checks nothing: a message that announces
    [n] bits and carries no elements decodes to an array on which reading or
    writing any index below [n] is an index-out-of-range panic. *)
Theorem FromProto_short_elems_panics n i v :
  0 ≤ i < n →
  let b := FromProto {| Bits := 0; Elems := [] |} (Some {| Bits := n; Elems := [] |}) in
  Size (Some b) = n ∧
  GetIndex (Some b) i = Panic "index out of range" ∧
  SetIndex (Some b) i v = Panic "index out of range".
Proof.
  intros Hi. simpl. unfold getIndex, setIndex. simpl.
  destruct (Z.leb_spec n i); [lia|]. unfold idx.
  assert (0 ≤ i ÷ 64) by (apply Z.quot_pos; lia).
  destruct (Z.leb_spec 0 (i ÷ 64)); [|lia]. rewrite lookup_nil. done.
Qed.

Lemma FromProto_short_elems_panics_witness :
  let b := FromProto {| Bits := 0; Elems := [] |} (Some {| Bits := 4; Elems := [] |}) in
  Size (Some b) = 4 ∧ GetIndex (Some b) 2 = Panic "index out of range" ∧
  SetIndex (Some b) 2 true = Panic "index out of range".
Proof. exact (FromProto_short_elems_panics 4 2 true ltac:(lia)). Defined.

End BitArray.
