(* ===== verification/Merkle.v ===== *)
(** * Merkle: [crypto/merkle/hash.go], [tree.go] and [proof.go]

    The RFC 6962 Merkle tree over byte strings, recursive and iterative, and
    inclusion proofs.  The hash function (SHA-256 behind [tmhash]) is a parameter
    of which only the size of its digests is assumed; soundness is stated
    by computing a collision from any two different preimages of a proof. *)

From S2P Require Import Prelude.

Local Open Scope Z_scope.

Module Merkle.

(** [tmhash.Sum]. *)
Class HashOps := { Sum : list Z → list Z }.
Class HashLaws `{HashOps} : Prop := { Sum_length x : length (Sum x) = 32%nat }.

Definition tmhash_size : Z := 32.
Definition MaxAunts : Z := 100.

(** [bits.Len] of a positive number. *)
Definition bits_Len (x : Z) : Z := if x <=? 0 then 0 else Z.log2 x + 1.

Definition getSplitPoint (length : Z) : outcome Z :=
  if length <? 1 then Panic "Trying to split a tree with size < 1"
  else
    let k := Z.shiftl 1 (bits_Len length - 1) in
    Done (if k =? length then Z.shiftr k 1 else k).

(** The split point as a list position, for a list of at least two. *)
Definition split_nat (n : nat) : nat :=
  match getSplitPoint (Z.of_nat n) with Done k => Z.to_nat k | Panic _ => O end.

Section tree.
Context `{HashOps}.

Definition emptyHash : list Z := Sum [].
Definition leafHash (leaf : list Z) : list Z := Sum (0 :: leaf).
Definition innerHash (left right : list Z) : list Z := Sum (1 :: left ++ right).

(** ** The recursive hash; one unit of fuel per item is enough *)

Fixpoint hash_fuel (fuel : nat) (items : list (list Z)) : list Z :=
  match items with
  | [] => emptyHash
  | [item] => leafHash item
  | _ =>
      match fuel with
      | O => []
      | S fuel =>
          let k := split_nat (length items) in
          innerHash (hash_fuel fuel (take k items)) (hash_fuel fuel (drop k items))
      end
  end.

Definition HashFromByteSlices (items : list (list Z)) : list Z := hash_fuel (length items) items.

(** ** The iterative hash *)

(** One pass of the inner loop: neighbours are joined, an odd last item is kept. *)
Fixpoint pair_pass (items : list (list Z)) : list (list Z) :=
  match items with
  | l :: r :: rest => innerHash l r :: pair_pass rest
  | rest => rest
  end.

(** The outer loop: at most [fuel] passes. *)
Fixpoint iterate_passes (fuel : nat) (items : list (list Z)) : list Z :=
  match items with
  | [] => emptyHash
  | [item] => item
  | _ => match fuel with O => [] | S fuel => iterate_passes fuel (pair_pass items) end
  end.

Definition HashFromByteSlicesIterative (input : list (list Z)) : list Z :=
  iterate_passes (length input) (map leafHash input).

(** ** Proofs *)

Record Proof_ := mkProof { Total : Z; Index : Z; LeafHash : list Z; Aunts : list (list Z) }.

(** A [ProofNode] with the hashes of its siblings; a trail is the path of nodes from
    a leaf along the [Parent] pointers, leaf first. *)
Record ProofNode := mkNode { nHash : list Z; nLeft : option (list Z); nRight : option (list Z) }.

Definition FlattenAunts (trail : list ProofNode) : list (list Z) :=
  omap (λ n, match nLeft n, nRight n with Some l, _ => Some l | None, r => r end) trail.

(** Setting the fields of the root of a subtree, the last node of its trails. *)
Definition set_last (f : ProofNode → ProofNode) (trail : list ProofNode) : list ProofNode :=
  match rev trail with [] => [] | n :: before => rev (f n :: before) end.

Fixpoint trails_fuel (fuel : nat) (items : list (list Z)) : list (list ProofNode) * list Z :=
  match items with
  | [] => ([], emptyHash)
  | [item] => ([[mkNode (leafHash item) None None]], leafHash item)
  | _ =>
      match fuel with
      | O => ([], [])
      | S fuel =>
          let k := split_nat (length items) in
          let '(lefts, leftRoot) := trails_fuel fuel (take k items) in
          let '(rights, rightRoot) := trails_fuel fuel (drop k items) in
          let rootHash := innerHash leftRoot rightRoot in
          let root := mkNode rootHash None None in
          let join f trail := set_last f trail ++ [root] in
          (map (join (λ n, mkNode (nHash n) (nLeft n) (Some rightRoot))) lefts ++
           map (join (λ n, mkNode (nHash n) (Some leftRoot) (nRight n))) rights, rootHash)
      end
  end.

Definition trailsFromByteSlices (items : list (list Z)) : list (list ProofNode) * list Z :=
  trails_fuel (length items) items.

Definition trail_hash (trail : list ProofNode) : list Z :=
  match trail with [] => [] | n :: _ => nHash n end.

Definition ProofsFromByteSlices (items : list (list Z)) : list Z * list Proof_ :=
  let '(trails, rootHash) := trailsFromByteSlices items in
  (rootHash,
   imap (λ i trail, mkProof (Z.of_nat (length items)) (Z.of_nat i) (trail_hash trail) (FlattenAunts trail)) trails).

(** [computeHashFromAunts], with the aunts in reverse order since the code takes them
    from the end. *)
Fixpoint aunts_up (index total : Z) (leafHash : list Z) (rev_aunts : list (list Z))
    : outcome (result string (list Z)) :=
  if (total <=? index) || (index <? 0) || (total <=? 0) then Done (Err "invalid index and/or total"%string)
  else if total =? 1 then
    match rev_aunts with
    | [] => Done (Ok leafHash)
    | _ => Done (Err "unexpected inner hashes"%string)
    end
  else
    match rev_aunts with
    | [] => Done (Err "expected at least one inner hash"%string)
    | aunt :: rest =>
        numLeft ← getSplitPoint total;
        if index <? numLeft then
          r ← aunts_up index numLeft leafHash rest;
          Done (match (r : result string (list Z)) with Ok lh => Ok (innerHash lh aunt) | Err e => Err e end)
        else
          r ← aunts_up (index - numLeft) (total - numLeft) leafHash rest;
          Done (match (r : result string (list Z)) with Ok rh => Ok (innerHash aunt rh) | Err e => Err e end)
    end.

Definition computeHashFromAunts (index total : Z) (leafHash : list Z) (innerHashes : list (list Z))
    : outcome (result string (list Z)) := aunts_up index total leafHash (rev innerHashes).

Definition computeRootHash (sp : Proof_) : outcome (result string (list Z)) :=
  computeHashFromAunts (Index sp) (Total sp) (LeafHash sp) (Aunts sp).

(** Whether [Verify] succeeds; the root is [None] when nil. *)
Definition Verify (sp : Proof_) (rootHash : option (list Z)) (leaf : list Z) : outcome (option string) :=
  match rootHash with
  | None => Done (Some "nil root"%string)
  | Some rootHash =>
      if Total sp <? 0 then Done (Some "negative proof total"%string)
      else if Index sp <? 0 then Done (Some "negative proof index"%string)
      else if negb (bytes_equal (LeafHash sp) (leafHash leaf)) then Done (Some "leaf"%string)
      else
        r ← computeRootHash sp;
        match (r : result string (list Z)) with
        | Err e => Done (Some e)
        | Ok computedHash =>
            if bytes_equal computedHash rootHash then Done None else Done (Some "root"%string)
        end
  end.

Definition ValidateBasic (sp : Proof_) : option string :=
  if Total sp <? 0 then Some "negative proof total"%string
  else if Index sp <? 0 then Some "negative proof index"%string
  else if negb (zlen (LeafHash sp) =? tmhash_size) then Some "leaf length"%string
  else if MaxAunts <? zlen (Aunts sp) then Some "maximum aunts length exceeded"%string
  else if forallb (λ a, zlen a =? tmhash_size) (Aunts sp) then None
  else Some "aunt hash length"%string.

End tree.

(** ** The split point *)

Lemma getSplitPoint_spec n :
  2 ≤ n → ∃ j, 0 ≤ j ∧ getSplitPoint n = Done (2 ^ j) ∧ 2 ^ j < n ≤ 2 * 2 ^ j.
Proof.
  intros Hn. unfold getSplitPoint, bits_Len. destruct (Z.ltb_spec n 1); [lia|].
  destruct (Z.leb_spec n 0); [lia|]. replace (Z.log2 n + 1 - 1) with (Z.log2 n) by lia.
  pose proof (Z.log2_spec n ltac:(lia)) as Hl. pose proof (Z.log2_nonneg n).
  rewrite Z.shiftl_1_l. rewrite Z.pow_succ_r in Hl by done.
  destruct (Z.eqb_spec (2 ^ Z.log2 n) n) as [E|].
  - assert (1 ≤ Z.log2 n) by (apply Z.log2_le_pow2; lia).
    exists (Z.log2 n - 1). rewrite Z.shiftr_div_pow2 by lia.
    assert (2 ^ Z.log2 n = 2 * 2 ^ (Z.log2 n - 1)) as Ep.
    { rewrite <-Z.pow_succ_r by lia. f_equal. lia. }
    assert (0 < 2 ^ (Z.log2 n - 1)) by (apply Z.pow_pos_nonneg; lia).
    split_and!; [lia| |lia|lia]. f_equal. rewrite Ep. change (2 ^ 1) with 2. rewrite Z.mul_comm. by rewrite Z.div_mul.
  - exists (Z.log2 n). split_and!; [lia|done|lia|lia].
Qed.

Lemma pow2_between j k n : 0 ≤ j → 0 ≤ k → 2 ^ j < n ≤ 2 * 2 ^ j → 2 ^ k < n ≤ 2 * 2 ^ k → 2 ^ j = 2 ^ k.
Proof.
  intros Hj Hk [H1 H2] [H3 H4]. f_equal. destruct (Z.lt_trichotomy j k) as [Hlt|[->|Hlt]]; [|done|]; exfalso.
  - assert (2 ^ (j + 1) ≤ 2 ^ k) by (apply Z.pow_le_mono_r; lia). rewrite Z.pow_add_r in * by lia. lia.
  - assert (2 ^ (k + 1) ≤ 2 ^ j) by (apply Z.pow_le_mono_r; lia). rewrite Z.pow_add_r in * by lia. lia.
Qed.

Lemma split_spec n :
  (2 ≤ n)%nat → (0 < split_nat n < n)%nat ∧ getSplitPoint (Z.of_nat n) = Done (Z.of_nat (split_nat n)) ∧
  ∃ j, 0 ≤ j ∧ Z.of_nat (split_nat n) = 2 ^ j ∧ 2 ^ j < Z.of_nat n ≤ 2 * 2 ^ j.
Proof.
  intros Hn. destruct (getSplitPoint_spec (Z.of_nat n) ltac:(lia)) as (j & Hj & E & Hb).
  assert (0 < 2 ^ j) by (apply Z.pow_pos_nonneg; lia).
  unfold split_nat. rewrite E. rewrite Z2Nat.id by lia. split_and!; [lia|lia|done|]. by exists j.
Qed.

(** Half a tree of at least three has the half split. *)
Lemma split_half n m :
  (3 ≤ n)%nat → (2 * m = n ∨ 2 * m = n + 1)%nat → (split_nat n = 2 * split_nat m ∧ 2 ≤ m)%nat.
Proof.
  intros Hn Hm. assert (2 ≤ m)%nat by lia. split; [|done].
  destruct (split_spec n ltac:(lia)) as (_ & _ & j & Hj & Ej & Hbj).
  destruct (split_spec m ltac:(lia)) as (_ & _ & k & Hk & Ek & Hbk).
  assert (1 ≤ j). { destruct (decide (j = 0)) as [->|]; [|lia]. change (2 ^ 0) with 1 in *. lia. }
  assert (E2 : 2 ^ j = 2 * 2 ^ (j - 1)) by (rewrite <-Z.pow_succ_r by lia; f_equal; lia).
  assert (2 ^ (j - 1) = 2 ^ k) by (apply (pow2_between _ _ (Z.of_nat m)); lia).
  lia.
Qed.

(** Induction over the tree the split points make. *)
Lemma tree_ind {A} (P : list A → Prop) :
  P [] → (∀ x, P [x]) →
  (∀ l, (2 ≤ length l)%nat → P (take (split_nat (length l)) l) → P (drop (split_nat (length l)) l) → P l) →
  ∀ l, P l.
Proof.
  intros H0 H1 H2 l. remember (length l) as n eqn:Hn. revert l Hn.
  induction (lt_wf n) as [n _ IH]. intros l ->. destruct l as [|x [|y l]]; [done|done|].
  destruct (split_spec (length (x :: y :: l)) ltac:(simpl; lia)) as (Hk & _).
  apply H2; [simpl; lia|..]; eapply IH; try reflexivity; rewrite ?length_take, ?length_drop; lia.
Qed.

Section tree_lemmas.
Context `{HashOps}.

Lemma hash_fuel_enough f g items :
  (length items ≤ f)%nat → (length items ≤ g)%nat → hash_fuel f items = hash_fuel g items.
Proof.
  revert g items. induction f as [|f IH]; intros g items Hf Hg.
  { destruct items; [by destruct g|simpl in *; lia]. }
  destruct items as [|x [|y l]]; [by destruct g|by destruct g|]. destruct g as [|g]; [simpl in *; lia|].
  destruct (split_spec (length (x :: y :: l)) ltac:(simpl; lia)) as (Hk & _).
  cbn [hash_fuel]. set (l' := x :: y :: l) in *. f_equal; apply IH; rewrite ?length_take, ?length_drop; simpl in *; lia.
Qed.

Lemma HashFromByteSlices_eq items :
  (2 ≤ length items)%nat →
  let k := split_nat (length items) in
  HashFromByteSlices items = innerHash (HashFromByteSlices (take k items)) (HashFromByteSlices (drop k items)).
Proof.
  intros Hl k. destruct (split_spec (length items) Hl) as (Hk & _).
  unfold HashFromByteSlices at 1. destruct items as [|x [|y l]]; [simpl in *; lia..|].
  set (l' := x :: y :: l) in *. change (length l') with (S (length (y :: l))) at 1. unfold l' at 1. cbn [hash_fuel].
  fold l'. fold k. unfold HashFromByteSlices. f_equal; apply hash_fuel_enough; rewrite ?length_take, ?length_drop; subst k; simpl in *; lia.
Qed.
(** ** The iterative hash is the recursive one *)

(** The tree over hashes instead of items. *)
Fixpoint root_fuel (fuel : nat) (hashes : list (list Z)) : list Z :=
  match hashes with
  | [] => emptyHash
  | [h] => h
  | _ =>
      match fuel with
      | O => []
      | S fuel =>
          let k := split_nat (length hashes) in
          innerHash (root_fuel fuel (take k hashes)) (root_fuel fuel (drop k hashes))
      end
  end.
Definition root_of (hashes : list (list Z)) : list Z := root_fuel (length hashes) hashes.

Lemma root_fuel_enough f g l : (length l ≤ f)%nat → (length l ≤ g)%nat → root_fuel f l = root_fuel g l.
Proof.
  revert g l. induction f as [|f IH]; intros g l Hf Hg.
  { destruct l; [by destruct g|simpl in *; lia]. }
  destruct l as [|x [|y l]]; [by destruct g|by destruct g|]. destruct g as [|g]; [simpl in *; lia|].
  destruct (split_spec (length (x :: y :: l)) ltac:(simpl; lia)) as (Hk & _).
  cbn [root_fuel]. set (l' := x :: y :: l) in *. f_equal; apply IH; rewrite ?length_take, ?length_drop; simpl in *; lia.
Qed.

Lemma root_of_eq l :
  (2 ≤ length l)%nat →
  let k := split_nat (length l) in root_of l = innerHash (root_of (take k l)) (root_of (drop k l)).
Proof.
  intros Hl k. destruct (split_spec (length l) Hl) as (Hk & _).
  unfold root_of at 1. destruct l as [|x [|y l]]; [simpl in *; lia..|].
  set (l' := x :: y :: l) in *. change (length l') with (S (length (y :: l))) at 1. unfold l' at 1. cbn [root_fuel].
  fold l'. fold k. unfold root_of. f_equal; apply root_fuel_enough; rewrite ?length_take, ?length_drop; subst k; simpl in *; lia.
Qed.

Lemma root_of_leaves items : HashFromByteSlices items = root_of (map leafHash items).
Proof.
  induction items as [|x|l Hl IH1 IH2] using tree_ind; [done|done|].
  rewrite HashFromByteSlices_eq, IH1, IH2 by done.
  rewrite (root_of_eq (map leafHash l)) by (by rewrite length_map). rewrite length_map. by rewrite firstn_map, skipn_map.
Qed.

Lemma pair_pass_app l1 l2 n : length l1 = (2 * n)%nat → pair_pass (l1 ++ l2) = pair_pass l1 ++ pair_pass l2.
Proof.
  revert l1. induction n as [|n IH]; intros l1 Hl.
  - destruct l1; [done|simpl in *; lia].
  - destruct l1 as [|x [|y l1]]; [simpl in *; lia..|]. cbn. f_equal. apply IH. simpl in *. lia.
Qed.

Lemma pair_pass_length l : (2 * length (pair_pass l) = length l ∨ 2 * length (pair_pass l) = length l + 1)%nat.
Proof.
  remember (length l) as n eqn:Hn. revert l Hn. induction (lt_wf n) as [n _ IH]. intros l ->.
  destruct l as [|x [|y l]]; [simpl; lia..|]. specialize (IH (length l) ltac:(simpl; lia) l eq_refl).
  cbn [pair_pass length]. lia.
Qed.

Lemma root_of_pass l : (2 ≤ length l)%nat → root_of (pair_pass l) = root_of l.
Proof.
  induction l as [|x|l Hl IH1 IH2] using tree_ind; [done|done|]. intros _.
  destruct (decide (length l = 2%nat)) as [E|].
  { destruct l as [|x [|y [|z l]]]; simpl in E; try lia. done. }
  destruct (split_half (length l) (length (pair_pass l)) ltac:(lia) (pair_pass_length l)) as [Es Hm].
  destruct (split_spec (length l) Hl) as (Hk & _). set (k := split_nat (length l)) in *.
  assert (Htake : length (take k l) = (2 * split_nat (length (pair_pass l)))%nat) by (rewrite length_take; lia).
  assert (Hp : pair_pass l = pair_pass (take k l) ++ pair_pass (drop k l)).
  { rewrite <-(pair_pass_app _ _ _ Htake). by rewrite take_drop. }
  assert (Hlen : length (pair_pass (take k l)) = split_nat (length (pair_pass l))).
  { pose proof (pair_pass_length (take k l)). lia. }
  rewrite root_of_eq by done. rewrite (root_of_eq l) by done. fold k.
  rewrite <-Hlen. rewrite Hp at 1 2. rewrite take_app_length, drop_app_length. f_equal.
  - apply IH1. rewrite Htake. pose proof (split_spec (length (pair_pass l)) ltac:(lia)). lia.
  - destruct (decide (2 ≤ length (drop k l))%nat) as [|Hlt]; [by apply IH2|].
    rewrite length_drop in Hlt. assert (length (drop k l) = 1%nat) as E1 by (rewrite length_drop; lia).
    destruct (drop k l) as [|x [|y r]]; simpl in E1; try lia. done.
Qed.

Lemma iterate_root f l : (length l ≤ f)%nat → iterate_passes f l = root_of l.
Proof.
  revert l. induction f as [|f IH]; intros l Hl.
  { by destruct l; [|simpl in *; lia]. }
  destruct l as [|x [|y l]]; [done|done|]. set (l' := x :: y :: l) in *.
  change (iterate_passes (S f) l') with (iterate_passes f (pair_pass l')). rewrite IH.
  - apply root_of_pass. subst l'. simpl. lia.
  - pose proof (pair_pass_length l'). subst l'. simpl in *. lia.
Qed.

(** the iterative Merkle hash terminates and computes the recursive RFC 6962 hash
    on every list of items. *)
Theorem iterative_hash_correct items : HashFromByteSlicesIterative items = HashFromByteSlices items.
Proof.
  unfold HashFromByteSlicesIterative. rewrite iterate_root by (by rewrite length_map).
  symmetry. apply root_of_leaves.
Qed.

(** ** Proofs are complete *)

(** A trail of a tree with root hash [root]: its last node has no sibling yet. *)
Definition trail_ok (root : list Z) (leaf : list Z) (index total : Z) (trail : list ProofNode) : Prop :=
  trail_hash trail = leafHash leaf ∧ (∃ t h, trail = t ++ [mkNode h None None]) ∧
  aunts_up index total (leafHash leaf) (rev (FlattenAunts trail)) = Done (Ok root).

Lemma set_last_snoc f t n : set_last f (t ++ [n]) = t ++ [f n].
Proof. unfold set_last. rewrite rev_unit. simpl. by rewrite rev_involutive. Qed.

Lemma FlattenAunts_join f t h root a :
  FlattenAunts [f (mkNode h None None)] = [a] →
  FlattenAunts (set_last f (t ++ [mkNode h None None]) ++ [mkNode root None None]) =
  FlattenAunts (t ++ [mkNode h None None]) ++ [a].
Proof.
  intros Hf. rewrite set_last_snoc. unfold FlattenAunts in *. rewrite !omap_app. rewrite Hf. cbn. by rewrite !app_nil_r.
Qed.

Lemma trail_hash_join f t h root :
  nHash (f (mkNode h None None)) = h →
  trail_hash (set_last f (t ++ [mkNode h None None]) ++ [mkNode root None None]) =
  trail_hash (t ++ [mkNode h None None]).
Proof. intros Hf. rewrite set_last_snoc. destruct t; cbn; [by rewrite Hf|done]. Qed.

(** The hash of a parent from that of its left or right child. *)
Lemma aunts_up_left index total k leaf a rest h :
  2 ≤ total → getSplitPoint total = Done k → 0 ≤ index < k → k < total →
  aunts_up index k leaf rest = Done (Ok h) →
  aunts_up index total leaf (a :: rest) = Done (Ok (innerHash h a)).
Proof.
  intros Ht Hk Hi Hlt E. cbn [aunts_up].
  destruct (Z.leb_spec total index); [lia|]. destruct (Z.ltb_spec index 0); [lia|].
  destruct (Z.leb_spec total 0); [lia|]. destruct (Z.eqb_spec total 1); [lia|]. cbn [orb]. rewrite Hk. cbn.
  destruct (Z.ltb_spec index k); [|lia]. by rewrite E.
Qed.

Lemma aunts_up_right index total k leaf a rest h :
  2 ≤ total → getSplitPoint total = Done k → k ≤ index < total → 0 < k →
  aunts_up (index - k) (total - k) leaf rest = Done (Ok h) →
  aunts_up index total leaf (a :: rest) = Done (Ok (innerHash a h)).
Proof.
  intros Ht Hk Hi Hlt E. cbn [aunts_up].
  destruct (Z.leb_spec total index); [lia|]. destruct (Z.ltb_spec index 0); [lia|].
  destruct (Z.leb_spec total 0); [lia|]. destruct (Z.eqb_spec total 1); [lia|]. cbn [orb]. rewrite Hk. cbn.
  destruct (Z.ltb_spec index k); [lia|]. by rewrite E.
Qed.

Lemma trails_fuel_enough f g items :
  (length items ≤ f)%nat → (length items ≤ g)%nat → trails_fuel f items = trails_fuel g items.
Proof.
  revert g items. induction f as [|f IH]; intros g items Hf Hg.
  { destruct items; [by destruct g|simpl in *; lia]. }
  destruct items as [|x [|y l]]; [by destruct g|by destruct g|]. destruct g as [|g]; [simpl in *; lia|].
  destruct (split_spec (length (x :: y :: l)) ltac:(simpl; lia)) as (Hk & _).
  cbn [trails_fuel]. set (l' := x :: y :: l) in *.
  rewrite (IH g (take (split_nat (length l')) l')), (IH g (drop (split_nat (length l')) l')); [done|..];
    rewrite ?length_take, ?length_drop; simpl in *; lia.
Qed.

Lemma trailsFromByteSlices_eq items :
  (2 ≤ length items)%nat →
  let k := split_nat (length items) in
  let '(lefts, lroot) := trailsFromByteSlices (take k items) in
  let '(rights, rroot) := trailsFromByteSlices (drop k items) in
  let join f trail := set_last f trail ++ [mkNode (innerHash lroot rroot) None None] in
  trailsFromByteSlices items =
    (map (join (λ n, mkNode (nHash n) (nLeft n) (Some rroot))) lefts ++
     map (join (λ n, mkNode (nHash n) (Some lroot) (nRight n))) rights, innerHash lroot rroot).
Proof.
  intros Hl k. destruct (split_spec (length items) Hl) as (Hk & _).
  destruct items as [|x [|y l]]; [simpl in *; lia..|]. set (l' := x :: y :: l) in *.
  unfold trailsFromByteSlices. change (length l') with (S (length (y :: l))) at 1. unfold l' at 5.
  rewrite (trails_fuel_enough (length (take k l')) (length (y :: l)) (take k l')),
          (trails_fuel_enough (length (drop k l')) (length (y :: l)) (drop k l'));
    [|rewrite ?length_take, ?length_drop; subst k; simpl in *; lia..].
  destruct (trails_fuel (length (y :: l)) (take k l')) as [lefts lroot] eqn:E1.
  destruct (trails_fuel (length (y :: l)) (drop k l')) as [rights rroot] eqn:E2.
  cbn [trails_fuel]. fold l'. fold k. by rewrite E1, E2.
Qed.

(** Every trail climbs to the root. *)
Lemma trails_ok items :
  let '(trails, root) := trailsFromByteSlices items in
  root = HashFromByteSlices items ∧ length trails = length items ∧
  ∀ i leaf trail, items !! i = Some leaf → trails !! i = Some trail →
    trail_ok root leaf (Z.of_nat i) (Z.of_nat (length items)) trail.
Proof.
  induction items as [|x|l Hl IH1 IH2] using tree_ind; [done|..].
  - cbn. split_and!; [done..|]. intros [|i] leaf trail Hi Ht; simplify_eq/=. split; [done|]. split; [by exists []; eexists|done].
  - pose proof (trailsFromByteSlices_eq l Hl) as E. destruct (split_spec (length l) Hl) as (Hk & Hsp & _).
    cbn zeta in E. set (k := split_nat (length l)) in *.
    destruct (trailsFromByteSlices (take k l)) as [lefts lroot], (trailsFromByteSlices (drop k l)) as [rights rroot].
    rewrite E. destruct IH1 as (-> & Hll & Hlt), IH2 as (-> & Hrl & Hrt). rewrite length_take in Hll, Hlt. rewrite length_drop in Hrl, Hrt.
    rewrite Nat.min_l in Hll, Hlt by lia.
    split; [symmetry; by apply HashFromByteSlices_eq|]. split; [rewrite length_app, !length_map; lia|].
    intros i leaf trail Hi Ht. apply lookup_app_Some in Ht as [Ht|[Hge Ht]].
    + apply list_lookup_fmap_Some in Ht as (t0 & -> & Ht). pose proof (lookup_lt_Some _ _ _ Ht).
      destruct (Hlt i leaf t0) as (Hh & (t & h & ->) & Hup); [by rewrite lookup_take_lt by lia|done|].
      split; [by rewrite trail_hash_join|]. split; [by eexists _, _|].
      rewrite (FlattenAunts_join _ _ _ _ (HashFromByteSlices (drop k l))) by done. rewrite rev_unit.
      apply (aunts_up_left _ _ (Z.of_nat k)); [lia|done|lia|lia|]. exact Hup.
    + rewrite length_map in Hge, Ht. apply list_lookup_fmap_Some in Ht as (t0 & -> & Ht). pose proof (lookup_lt_Some _ _ _ Ht).
      destruct (Hrt (i - length lefts)%nat leaf t0) as (Hh & (t & h & ->) & Hup);
        [rewrite lookup_drop; by replace (k + (i - length lefts))%nat with i by lia|done|].
      split; [by rewrite trail_hash_join|]. split; [by eexists _, _|].
      rewrite (FlattenAunts_join _ _ _ _ (HashFromByteSlices (take k l))) by done. rewrite rev_unit.
      apply (aunts_up_right _ _ (Z.of_nat k)); [lia|done|lia|lia|].
      replace (Z.of_nat i - Z.of_nat k) with (Z.of_nat (i - length lefts)) by lia.
      replace (Z.of_nat (length l) - Z.of_nat k) with (Z.of_nat (length l - k)) by lia. exact Hup.
Qed.
Lemma aunts_up_total index total leaf rev_aunts : ∃ r, aunts_up index total leaf rev_aunts = Done r.
Proof.
  revert index total. induction rev_aunts as [|a rest IH]; intros index total; cbn [aunts_up];
    destruct (_ || _) eqn:Eb; [by eexists| |by eexists|]; destruct (Z.eqb_spec total 1); [by eexists..| |by eexists|].
  - by eexists.
  - zbool. destruct (getSplitPoint_spec total ltac:(lia)) as (j & _ & -> & _). cbn [mbind outcome_bind].
    destruct (index <? 2 ^ j);
      match goal with |- context [aunts_up ?i ?t leaf rest] => destruct (IH i t) as [r ->] end; by eexists.
Qed.

Lemma Verify_total sp root leaf : ∃ e, Verify sp root leaf = Done e.
Proof.
  unfold Verify. destruct root as [root|]; [|by eexists]. repeat (case_match; [by eexists|]).
  unfold computeRootHash, computeHashFromAunts.
  match goal with |- context [aunts_up ?i ?t ?h ?l] => destruct (aunts_up_total i t h l) as [r ->] end. cbn [mbind outcome_bind].
  destruct r; [|by eexists]. case_match; by eexists.
Qed.


Lemma proofs_complete items root proofs i leaf p :
  ProofsFromByteSlices items = (root, proofs) → items !! i = Some leaf → proofs !! i = Some p →
  Total p = Z.of_nat (length items) ∧ Index p = Z.of_nat i ∧ Verify p (Some root) leaf = Done None.
Proof.
  unfold ProofsFromByteSlices. pose proof (trails_ok items) as Hok.
  destruct (trailsFromByteSlices items) as [trails r]. destruct Hok as (-> & Hlen & Hok).
  intros E Hi Hp. injection E as <- <-. rewrite list_lookup_imap in Hp.
  destruct (trails !! i) as [t|] eqn:Et; [|done]. injection Hp as <-. cbn [Total Index]. split_and!; [done..|].
  destruct (Hok i leaf t Hi Et) as (Hh & _ & Hup). unfold Verify. cbn [Total Index LeafHash].
  destruct (Z.ltb_spec (Z.of_nat (length items)) 0); [lia|]. destruct (Z.ltb_spec (Z.of_nat i) 0); [lia|].
  rewrite Hh. unfold bytes_equal at 1. rewrite bool_decide_true by done. cbn [negb].
  unfold computeRootHash, computeHashFromAunts. cbn [Total Index LeafHash Aunts]. rewrite Hup. cbn.
  unfold bytes_equal. by rewrite bool_decide_true.
Qed.

Lemma ProofsFromByteSlices_root items :
  (ProofsFromByteSlices items).1 = HashFromByteSlices items ∧ length (ProofsFromByteSlices items).2 = length items.
Proof.
  unfold ProofsFromByteSlices. pose proof (trails_ok items) as Hok.
  destruct (trailsFromByteSlices items) as [trails r]. destruct Hok as (-> & Hlen & _). cbn.
  by rewrite length_imap.
Qed.

(** [ProofsFromByteSlices] returns the root [HashFromByteSlices] computes and one
    proof per item, and the proof of an item verifies that item against the
    root. *)
Theorem proofs_verify items :
  let '(root, proofs) := ProofsFromByteSlices items in
  root = HashFromByteSlices items ∧ length proofs = length items ∧
  ∀ i leaf p, items !! i = Some leaf → proofs !! i = Some p →
    Total p = Z.of_nat (length items) ∧ Index p = Z.of_nat i ∧ Verify p (Some root) leaf = Done None.
Proof.
  pose proof (ProofsFromByteSlices_root items) as [Hr Hl].
  destruct (ProofsFromByteSlices items) as [root proofs] eqn:E. split_and!; [done..|].
  intros i leaf p Hi Hp. by eapply proofs_complete.
Qed.

(** ** Proofs are sound, up to a collision that can be computed *)

(** Walks down the tree of [items] along the index: where the children's hashes
    differ from those of the proof, the two nodes are the collision. *)
Fixpoint collide_fuel (fuel : nat) (items : list (list Z)) (index : nat) (leaf : list Z)
    (rev_aunts : list (list Z)) : list Z * list Z :=
  match fuel, items, rev_aunts with
  | S fuel, _ :: _ :: _, aunt :: rest =>
      let k := split_nat (length items) in
      let hl := HashFromByteSlices (take k items) in
      let hr := HashFromByteSlices (drop k items) in
      if (index <? k)%nat then
        match aunts_up (Z.of_nat index) (Z.of_nat k) (leafHash leaf) rest with
        | Done (Ok h) => if decide (h = hl ∧ aunt = hr) then collide_fuel fuel (take k items) index leaf rest
                         else (1 :: hl ++ hr, 1 :: h ++ aunt)
        | _ => ([], [])
        end
      else
        match aunts_up (Z.of_nat (index - k)) (Z.of_nat (length items - k)) (leafHash leaf) rest with
        | Done (Ok h) => if decide (h = hr ∧ aunt = hl) then collide_fuel fuel (drop k items) (index - k) leaf rest
                         else (1 :: hl ++ hr, 1 :: aunt ++ h)
        | _ => ([], [])
        end
  | _, item :: _, _ => (0 :: item, 0 :: leaf)
  | _, _, _ => ([], [])
  end.

Definition find_collision (items : list (list Z)) (sp : Proof_) (leaf : list Z) : list Z * list Z :=
  collide_fuel (length items) items (Z.to_nat (Index sp)) leaf (rev (Aunts sp)).


End tree_lemmas.

Section soundness.
Context `{HashLaws}.

(** What a successful climb consists of. *)
Lemma aunts_up_inv index total leaf rev_aunts h :
  aunts_up index total leaf rev_aunts = Done (Ok h) →
  0 ≤ index < total ∧
  (total = 1 ∧ rev_aunts = [] ∧ h = leaf ∨
   2 ≤ total ∧ ∃ a rest k h', rev_aunts = a :: rest ∧ getSplitPoint total = Done k ∧
     if index <? k then aunts_up index k leaf rest = Done (Ok h') ∧ h = innerHash h' a
     else aunts_up (index - k) (total - k) leaf rest = Done (Ok h') ∧ h = innerHash a h').
Proof.
  intros E. destruct rev_aunts as [|a rest]; cbn [aunts_up] in E;
    destruct (Z.leb_spec total index); [done| |done|]; destruct (Z.ltb_spec index 0); try done;
    destruct (Z.leb_spec total 0); try done; cbn [orb] in E; destruct (Z.eqb_spec total 1); simplify_eq; try done.
  - split; [lia|]. by left.
  - split; [lia|]. right. split; [lia|]. apply outcome_bind_Done in E as (k & Hk & E).
    exists a, rest, k. rewrite Hk. destruct (index <? k); apply outcome_bind_Done in E as (r & Hr & E);
      destruct r as [h'|]; simplify_eq; exists h'; done.
Qed.

Lemma aunts_up_length index total leaf rev_aunts h :
  length leaf = 32%nat → aunts_up index total leaf rev_aunts = Done (Ok h) → length h = 32%nat.
Proof.
  intros Hl E. apply aunts_up_inv in E as (_ & [(_ & _ & ->)|(_ & a & rest & k & h' & _ & _ & E)]); [done|].
  destruct (index <? k); destruct E as [_ ->]; apply Sum_length.
Qed.

Lemma HashFromByteSlices_length items : length (HashFromByteSlices items) = 32%nat.
Proof.
  destruct (decide (2 ≤ length items)%nat).
  - rewrite HashFromByteSlices_eq by done. apply Sum_length.
  - destruct items as [|x [|y l]]; [apply Sum_length..|simpl in *; lia].
Qed.
(** ** A root binds the whole list *)

(** What is hashed last for the root of a list. *)
Definition last_input (items : list (list Z)) : list Z :=
  match items with
  | [] => []
  | [x] => 0 :: x
  | _ => let k := split_nat (length items) in
         1 :: HashFromByteSlices (take k items) ++ HashFromByteSlices (drop k items)
  end.

Lemma last_input_root items : HashFromByteSlices items = Sum (last_input items).
Proof.
  destruct items as [|x [|y l]]; [done..|]. rewrite HashFromByteSlices_eq by (simpl; lia). done.
Qed.

(** Two different strings with one digest, from two different lists with one root: down to
    the first pair of nodes whose inputs differ. *)
Fixpoint list_collision (fuel : nat) (xs ys : list (list Z)) : list Z * list Z :=
  match fuel with
  | O => ([], [])
  | S fuel =>
      if decide (last_input xs ≠ last_input ys) then (last_input xs, last_input ys)
      else
        let k := split_nat (length xs) in
        let k' := split_nat (length ys) in
        if decide (take k xs ≠ take k' ys) then list_collision fuel (take k xs) (take k' ys)
        else list_collision fuel (drop k xs) (drop k' ys)
  end.

Definition root_collision (xs ys : list (list Z)) : list Z * list Z := list_collision (S (length xs)) xs ys.

Definition collision (p : list Z * list Z) : Prop := p.1 ≠ p.2 ∧ Sum p.1 = Sum p.2.

(** The inputs of two inner nodes agree only when both children do. *)
Lemma last_input_inner xs ys :
  (2 ≤ length xs)%nat → last_input xs = last_input ys →
  (2 ≤ length ys)%nat ∧ let k := split_nat (length xs) in let k' := split_nat (length ys) in
  HashFromByteSlices (take k xs) = HashFromByteSlices (take k' ys) ∧
  HashFromByteSlices (drop k xs) = HashFromByteSlices (drop k' ys).
Proof.
  destruct xs as [|x [|x' xs]]; [simpl; lia..|]. intros _ E. destruct ys as [|y [|y' ys]]; [done..|].
  split; [simpl; lia|]. unfold last_input in E. injection E as E. apply app_inj_1 in E; [done|]. by rewrite !HashFromByteSlices_length.
Qed.

Lemma roots_bind_fuel fuel xs ys :
  (length xs < fuel)%nat → HashFromByteSlices xs = HashFromByteSlices ys → xs ≠ ys → collision (list_collision fuel xs ys).
Proof.
  revert xs ys. induction fuel as [|fuel IH]; intros xs ys Hf E Hne.
  { lia. }
  cbn [list_collision]. case_decide as Hd; [split; [done|]; cbn; by rewrite <-!last_input_root|].
  destruct (decide (2 ≤ length xs)%nat) as [Hl|Hs].
  - destruct (last_input_inner xs ys Hl Hd) as (Hl' & E1 & E2). destruct (split_spec (length xs) Hl) as (Hk & _).
    case_decide as Ht.
    + apply IH; [rewrite length_take; lia|done|done].
    + apply IH; [rewrite length_drop; lia|done|]. intros Hdr. apply Hne.
      rewrite <-(take_drop (split_nat (length xs)) xs), <-(take_drop (split_nat (length ys)) ys). congruence.
  - exfalso. apply Hne. destruct xs as [|x [|x' xs]], ys as [|y [|y' ys]]; try done; try (simpl in Hs; lia).
    unfold last_input in Hd. congruence.
Qed.

Lemma roots_bind xs ys : HashFromByteSlices xs = HashFromByteSlices ys → xs = ys ∨ collision (root_collision xs ys).
Proof. intros E. destruct (decide (xs = ys)); [by left|right]. apply roots_bind_fuel; [lia|done..]. Qed.



(** Two different inner nodes with the same hash are a collision. *)
Lemma inner_collision l r l' r' :
  length l = length l' → ¬ (l' = l ∧ r' = r) → innerHash l r = innerHash l' r' →
  1 :: l ++ r ≠ 1 :: l' ++ r' ∧ Sum (1 :: l ++ r) = Sum (1 :: l' ++ r').
Proof.
  intros Hlen Hne E. split; [|done]. intros [= E']. apply app_inj_1 in E' as [-> ->]; [|done]. by apply Hne.
Qed.

Lemma collide_ok fuel items i leaf item rev_aunts :
  (length items ≤ fuel)%nat → items !! i = Some item → item ≠ leaf → Forall (λ a, length a = 32%nat) rev_aunts →
  aunts_up (Z.of_nat i) (Z.of_nat (length items)) (leafHash leaf) rev_aunts = Done (Ok (HashFromByteSlices items)) →
  let '(x, y) := collide_fuel fuel items i leaf rev_aunts in x ≠ y ∧ Sum x = Sum y.
Proof.
  revert items i rev_aunts. induction fuel as [|fuel IH]; intros items i rev_aunts Hf Hi Hne Ha E.
  { destruct items; [done|simpl in *; lia]. }
  apply aunts_up_inv in E as (Hrange & [(Htot & -> & Eh)|(Htot & a & rest & k & h' & -> & Hk & E)]).
  - destruct items as [|x [|y l]]; [done| |simpl in Htot; lia]. destruct i; [|done]. injection Hi as ->.
    cbn. split; [congruence|]. exact Eh.
  - destruct items as [|x [|y l]]; [simpl in Htot; lia..|]. set (l' := x :: y :: l) in *.
    assert (Hl : (2 ≤ length l')%nat) by lia. destruct (split_spec (length l') Hl) as (Hsk & Hs & _).
    assert (k = Z.of_nat (split_nat (length l'))) as -> by congruence. set (k := split_nat (length l')) in *.
    apply Forall_cons in Ha as [Hal Ha].
    rewrite (HashFromByteSlices_eq l' Hl) in E. fold k in E. unfold l' at 1. cbn [collide_fuel]. fold l'. fold k.
    revert E. destruct (Z.ltb_spec (Z.of_nat i) (Z.of_nat k)), (Nat.ltb_spec i k); try lia; intros [Hup E].
    + rewrite Hup. pose proof (aunts_up_length _ _ _ _ _ (Sum_length _) Hup).
      case_decide as Hd.
      * destruct Hd as [-> ->]. assert (Hlt : length (take k l') = k) by (rewrite length_take; lia).
        apply IH; [rewrite length_take; simpl in *; lia|by rewrite lookup_take_lt by lia|done|done|].
        by rewrite Hlt.
      * apply inner_collision; [by rewrite HashFromByteSlices_length|naive_solver|done].
    + replace (Z.of_nat i - Z.of_nat k) with (Z.of_nat (i - k)) in Hup by lia.
      replace (Z.of_nat (length l') - Z.of_nat k) with (Z.of_nat (length l' - k)) in Hup by lia.
      rewrite Hup. pose proof (aunts_up_length _ _ _ _ _ (Sum_length _) Hup).
      case_decide as Hd.
      * destruct Hd as [-> ->]. assert (Hlt : length (drop k l') = (length l' - k)%nat) by (rewrite length_drop; lia).
        apply IH; [rewrite length_drop; simpl in *; lia| |done|done|by rewrite Hlt].
        rewrite lookup_drop. by replace (k + (i - k))%nat with i by lia.
      * apply inner_collision; [by rewrite HashFromByteSlices_length|naive_solver|done].
Qed.
(** The aunts of a trail are digests, no more of them than the tree is deep. *)
Lemma trails_aunts items : let '(trails, _) := trailsFromByteSlices items in
  Forall (λ trail, Forall (λ a, length a = 32%nat) (FlattenAunts trail) ∧ length (trail_hash trail) = 32%nat ∧
    ∀ j, Z.of_nat (length items) ≤ 2 ^ Z.of_nat j → (length (FlattenAunts trail) ≤ j)%nat) trails.
Proof.
  induction items as [|x|l Hl IH1 IH2] using tree_ind; [by constructor|..].
  - cbn. repeat constructor; [apply Sum_length|simpl; lia].
  - pose proof (trailsFromByteSlices_eq l Hl) as E. cbn zeta in E.
    destruct (split_spec (length l) Hl) as (Hk & _ & j0 & Hj0 & Ej0 & Hb). set (k := split_nat (length l)) in *.
    pose proof (trails_ok (take k l)) as Hok1. pose proof (trails_ok (drop k l)) as Hok2.
    destruct (trailsFromByteSlices (take k l)) as [lefts lroot], (trailsFromByteSlices (drop k l)) as [rights rroot].
    rewrite E. destruct Hok1 as (-> & Hl1 & Hok1), Hok2 as (-> & Hl2 & Hok2). rewrite length_take in IH1. rewrite length_drop in IH2.
    assert (Hdown : ∀ j, Z.of_nat (length l) ≤ 2 ^ Z.of_nat j →
      ∃ j', j = S j' ∧ Z.of_nat (k `min` length l) ≤ 2 ^ Z.of_nat j' ∧ Z.of_nat (length l - k) ≤ 2 ^ Z.of_nat j').
    { intros j Hj. assert (j0 < Z.of_nat j) by (apply (Z.pow_lt_mono_r_iff 2); lia).
      destruct j as [|j']; [lia|]. exists j'. assert (2 ^ j0 ≤ 2 ^ Z.of_nat j') by (apply Z.pow_le_mono_r; lia).
      split_and!; [done|lia|lia]. }
    assert (Hshape : ∀ (its : list (list Z)) (ts : list (list ProofNode)) (root : list Z) t, length ts = length its →
      (∀ i leaf trail, its !! i = Some leaf → ts !! i = Some trail →
        trail_ok root leaf (Z.of_nat i) (Z.of_nat (length its)) trail) → t ∈ ts → ∃ t' h, t = t' ++ [mkNode h None None]).
    { intros its ts root t Hlen Hok (i & Ht)%list_elem_of_lookup.
      destruct (lookup_lt_is_Some_2 its i) as [leaf Hleaf]; [apply lookup_lt_Some in Ht; lia|].
      by destruct (Hok i leaf t Hleaf Ht) as (_ & ? & _). }
    apply Forall_app. split; apply Forall_map, Forall_forall; intros t Ht.
    + destruct (Hshape _ _ _ _ Hl1 Hok1 Ht) as (t' & h & ->). rewrite Forall_forall in IH1.
      destruct (IH1 _ Ht) as (Ha & Hh & Hn). cbn beta.
      rewrite (FlattenAunts_join _ _ _ _ (HashFromByteSlices (drop k l))), trail_hash_join by done.
      split_and!; [apply Forall_app; split; [done|repeat constructor; apply HashFromByteSlices_length]|done|].
      intros j (j' & -> & Hj1 & _)%Hdown. rewrite length_app. specialize (Hn j' Hj1). simpl. lia.
    + destruct (Hshape _ _ _ _ Hl2 Hok2 Ht) as (t' & h & ->). rewrite Forall_forall in IH2.
      destruct (IH2 _ Ht) as (Ha & Hh & Hn). cbn beta.
      rewrite (FlattenAunts_join _ _ _ _ (HashFromByteSlices (take k l))), trail_hash_join by done.
      split_and!; [apply Forall_app; split; [done|repeat constructor; apply HashFromByteSlices_length]|done|].
      intros j (j' & -> & _ & Hj2)%Hdown. rewrite length_app. specialize (Hn j' Hj2). simpl. lia.
Qed.

(** The proofs of a list of less than 2^100 items pass basic validation. *)
Lemma proofs_valid items p :
  zlen items ≤ 2 ^ 100 → p ∈ (ProofsFromByteSlices items).2 → ValidateBasic p = None.
Proof.
  unfold ProofsFromByteSlices. intros Hlen. pose proof (trails_aunts items) as Ha.
  destruct (trailsFromByteSlices items) as [trails root]. cbn [snd].
  intros (i & Hi)%list_elem_of_lookup. rewrite list_lookup_imap in Hi.
  destruct (trails !! i) as [t|] eqn:Et; [|done]. injection Hi as <-.
  rewrite Forall_lookup in Ha. destruct (Ha i t Et) as (H32 & Hh & Hn).
  unfold ValidateBasic, tmhash_size, MaxAunts, zlen. cbn [Total Index LeafHash Aunts].
  destruct (Z.ltb_spec (Z.of_nat (length items)) 0); [lia|]. destruct (Z.ltb_spec (Z.of_nat i) 0); [lia|].
  rewrite Hh. cbn [Z.of_nat]. specialize (Hn 100%nat Hlen).
  destruct (Z.eqb_spec (Z.of_nat 32) 32); [|lia]. cbn [negb].
  destruct (Z.ltb_spec 100 (Z.of_nat (length (FlattenAunts t)))); [lia|].
  replace (forallb _ _) with true; [done|]. symmetry. apply forallb_forall. intros a Hin%list_elem_of_In.
  rewrite Forall_forall in H32. rewrite (H32 a Hin). done.
Qed.


Lemma proof_sound items sp leaf :
  ValidateBasic sp = None → Total sp = zlen items →
  Verify sp (Some (HashFromByteSlices items)) leaf = Done None →
  ∃ item, items !! Z.to_nat (Index sp) = Some item ∧ 0 ≤ Index sp ∧
    (item = leaf ∨ let '(x, y) := find_collision items sp leaf in x ≠ y ∧ Sum x = Sum y).
Proof.
  intros Hvb Htot Hv. unfold Verify in Hv.
  destruct (Z.ltb_spec (Total sp) 0); [done|]. destruct (Z.ltb_spec (Index sp) 0); [done|].
  destruct (bytes_equal (LeafHash sp) (leafHash leaf)) eqn:El; cbn [negb] in Hv; [|done].
  apply bool_decide_eq_true in El. apply outcome_bind_Done in Hv as (r & Hr & Hv). destruct r as [h|]; [|done].
  destruct (bytes_equal h (HashFromByteSlices items)) eqn:Eh; [|done]. apply bool_decide_eq_true in Eh as ->.
  unfold computeRootHash, computeHashFromAunts in Hr. rewrite El, Htot in Hr.
  pose proof (aunts_up_inv _ _ _ _ _ Hr) as [Hrange _]. unfold zlen in *.
  destruct (lookup_lt_is_Some_2 items (Z.to_nat (Index sp))) as [item Hi]; [lia|].
  exists item. split_and!; [done|lia|]. destruct (decide (item = leaf)) as [|Hne]; [by left|right].
  apply (collide_ok _ _ _ _ item); [done|done|done| |by rewrite Z2Nat.id by lia].
  unfold ValidateBasic in Hvb. repeat (case_match; try done).
  apply Forall_rev. rewrite Forall_forall. intros a Ha.
  match goal with Hx : forallb _ _ = true |- _ => rewrite forallb_forall in Hx; specialize (Hx a) end.
  match goal with Hx : In a _ → _ |- _ => rewrite <-list_elem_of_In, Z.eqb_eq in Hx; specialize (Hx Ha);
    unfold zlen, tmhash_size in Hx; lia end.
Qed.

(** C39: a proof that passes basic validation, claims as many items as a list has ([Verify] leaves
    this check to its caller), and verifies a leaf against the root of the list, proves that the leaf is the
    item at the proof's index; otherwise two different strings with the same
    digest can be computed from the proof and the items. *)
Theorem proof_verifies_item items sp leaf :
  ValidateBasic sp = None → Total sp = zlen items →
  Verify sp (Some (HashFromByteSlices items)) leaf = Done None →
  ∃ item, items !! Z.to_nat (Index sp) = Some item ∧ 0 ≤ Index sp ∧
    (item = leaf ∨ let '(x, y) := find_collision items sp leaf in x ≠ y ∧ Sum x = Sum y).
Proof. apply proof_sound. Qed.

End soundness.

(** ** Examples *)

(** A checksum in place of SHA-256: the first thirty bytes, the length and the sum. *)
Definition toy_hash : HashOps := {| Sum x := take 30 (x ++ replicate 30 0) ++ [zlen x; zsum id x] |}.
Lemma toy_hash_laws : @HashLaws toy_hash.
Proof.
  split. intros x. change (length (take 30 (x ++ replicate 30 0) ++ [zlen x; zsum id x]) = 32%nat).
  rewrite length_app, length_take, length_app, length_replicate. change (length [zlen x; zsum id x]) with 2%nat. lia.
Qed.

#[local] Existing Instances toy_hash toy_hash_laws.

Definition ex_items : list (list Z) := [[1; 2]; [3]; []; [4; 4; 4]; [5]].
Definition ex_proof (i : nat) : Proof_ :=
  default (mkProof 0 0 [] []) ((ProofsFromByteSlices ex_items).2 !! i).

Lemma proof_verifies_item_witness :
  ∃ item, ex_items !! 3%nat = Some item ∧ 0 ≤ 3 ∧
    (item = [4; 4; 4] ∨ let '(x, y) := find_collision ex_items (ex_proof 3) [4; 4; 4] in x ≠ y ∧ Sum x = Sum y).
Proof. refine (proof_verifies_item ex_items (ex_proof 3) [4; 4; 4] _ _ _); vm_compute; reflexivity. Defined.

End Merkle.
