(* ===== verification/Crypto.v ===== *)
(** * Crypto: the interface the node needs from its cryptography

    [crypto.PubKey] is an interface of the source ([crypto/crypto.go]) whose
    implementations wrap third-party packages; the components that verify votes
    and commits are proved against this interface.  Messages, signatures and
    addresses are byte strings. *)

From S2P Require Import Prelude.

Local Open Scope Z_scope.

(** The methods of [crypto.PubKey] the modelled code calls. *)
Class PubKeyOps := {
  PubKey : Type;
  PubKey_eq_dec :: EqDecision PubKey;
  pk_Address : PubKey → list Z;
  pk_Type : PubKey → string;
  VerifySignature : PubKey → list Z → list Z → bool;
  (** A type of keys has a name. *)
  pk_Type_named : ∀ pk, pk_Type pk ≠ ""%string
}.

(** A concrete implementation, used to evaluate the definitions on examples: a
    key is a number, its address a twenty-byte string that starts with it, and a
    signature of a message is the message prefixed with the key. *)
Definition toy_address (k : Z) : list Z := k :: replicate 19 0.

Definition toy_keys : PubKeyOps := {|
  PubKey := Z;
  PubKey_eq_dec := _;
  pk_Address := toy_address;
  pk_Type _ := "ed25519"%string;
  VerifySignature k msg sig := bool_decide (sig = k :: msg);
  pk_Type_named _ := ltac:(done)
|}.
