(* ===== verification/ValidatorSet.v ===== *)
(** * ValidatorSet: [types/validator.go] and [types/validator_set.go]

    Validators, the validator set, its update from a change set and the
    proposer-priority rotation.  [int64] arithmetic is the source's: the helper
    functions [safeAdd] to [safeMul] are translated with their wrap-around, and
    every other sum or difference is wrapped explicitly.

    The [Proposer] pointer of the source aliases an element of [Validators]; here
    the field holds the validator as it was when it was assigned, and no statement
    reads its priority. *)

From S2P Require Import Prelude Crypto.

Local Open Scope Z_scope.

Module ValidatorSet.

(** ** Overflow-aware arithmetic *)

Definition safeAdd (a b : Z) : Z * bool :=
  if (0 <? b) && (wrap64 (max_int64 - b) <? a) then (-1, true)
  else if (b <? 0) && (a <? wrap64 (min_int64 - b)) then (-1, true)
  else (wrap64 (a + b), false).

Definition safeSub (a b : Z) : Z * bool :=
  if (0 <? b) && (a <? wrap64 (min_int64 + b)) then (-1, true)
  else if (b <? 0) && (wrap64 (max_int64 + b) <? a) then (-1, true)
  else (wrap64 (a - b), false).

Definition safeAddClip (a b : Z) : Z :=
  let '(c, overflow) := safeAdd a b in
  if overflow then if b <? 0 then min_int64 else max_int64 else c.

Definition safeSubClip (a b : Z) : Z :=
  let '(c, overflow) := safeSub a b in
  if overflow then if 0 <? b then min_int64 else max_int64 else c.

Definition safeMul (a b : Z) : Z * bool :=
  if (a =? 0) || (b =? 0) then (0, false)
  else
    let absOfB := if b <? 0 then wrap64 (- b) else b in
    let absOfA := if a <? 0 then wrap64 (- a) else a in
    if Z.quot max_int64 absOfB <? absOfA then (0, true)
    else (wrap64 (a * b), false).

(** [int64] division; dividing by zero panics. *)
Definition div64 (a b : Z) : outcome Z :=
  if b =? 0 then Panic "integer divide by zero" else Done (wrap64 (Z.quot a b)).

Definition MaxTotalVotingPower : Z := Z.quot max_int64 8.
Definition PriorityWindowSizeFactor : Z := 2.

Section validators.
Context `{PubKeyOps}.

(** ** Validators *)

Record Validator := mkValidator {
  Address : list Z;
  ValPubKey : option PubKey;
  VotingPower : Z;
  ProposerPriority : Z
}.

#[export] Instance Validator_eq_dec : EqDecision Validator.
Proof. solve_decision. Defined.

Definition NewValidator (pubKey : PubKey) (votingPower : Z) : Validator :=
  {| Address := pk_Address pubKey; ValPubKey := Some pubKey;
     VotingPower := votingPower; ProposerPriority := 0 |}.

Definition with_priority (p : Z) (v : Validator) : Validator :=
  {| Address := Address v; ValPubKey := ValPubKey v;
     VotingPower := VotingPower v; ProposerPriority := p |}.

(** [v.CompareProposerPriority(other)]; the receiver may be nil. *)
Definition CompareProposerPriority {T} (val : T → Validator) (v : option T) (other : T) : outcome T :=
  match v with
  | None => Done other
  | Some v =>
      if ProposerPriority (val other) <? ProposerPriority (val v) then Done v
      else if ProposerPriority (val v) <? ProposerPriority (val other) then Done other
      else
        let result := bytes_compare (Address (val v)) (Address (val other)) in
        if result <? 0 then Done v
        else if 0 <? result then Done other
        else Panic "Cannot compare identical validators"
  end.

(** ** Validator sets *)

Record ValidatorSet := mkValidatorSet {
  Validators : list Validator;
  Proposer : option Validator;
  totalVotingPower : Z;
  allKeysHaveSameType : bool
}.

Definition set_validators (vals : ValidatorSet) (l : list Validator) : ValidatorSet :=
  {| Validators := l; Proposer := Proposer vals;
     totalVotingPower := totalVotingPower vals;
     allKeysHaveSameType := allKeysHaveSameType vals |}.

Definition set_total (vals : ValidatorSet) (t : Z) : ValidatorSet :=
  {| Validators := Validators vals; Proposer := Proposer vals;
     totalVotingPower := t; allKeysHaveSameType := allKeysHaveSameType vals |}.

Definition IsNilOrEmpty (vals : option ValidatorSet) : bool :=
  match vals with None => true | Some v => bool_decide (Validators v = []) end.

Definition Size (vals : ValidatorSet) : Z := zlen (Validators vals).

Definition HasAddress (vals : ValidatorSet) (address : list Z) : bool :=
  existsb (λ v, bytes_equal (Address v) address) (Validators vals).

(** The scan of [GetByAddressMut] from index [i]. *)
Fixpoint find_address (l : list Validator) (address : list Z) (i : Z) : Z * option Validator :=
  match l with
  | [] => (-1, None)
  | v :: l => if bytes_equal (Address v) address then (wrap32 i, Some v)
              else find_address l address (i + 1)
  end.

Definition GetByAddressMut (vals : ValidatorSet) (address : list Z) : Z * option Validator :=
  find_address (Validators vals) address 0.

Definition GetByAddress (vals : ValidatorSet) (address : list Z) : Z * option Validator :=
  let '(i, val) := GetByAddressMut vals address in
  if i =? -1 then (-1, None) else (i, val).

Definition GetByIndex (vals : ValidatorSet) (index : Z) : option (list Z * Validator) :=
  if (index <? 0) || (zlen (Validators vals) <=? index) then None
  else
    val ← Validators vals !! Z.to_nat index;
    Some (Address val, val).

(** The loop of [updateTotalVotingPower]. *)
Fixpoint sum_power (l : list Validator) (sum : Z) : outcome Z :=
  match l with
  | [] => Done sum
  | v :: l =>
      let sum := safeAddClip sum (VotingPower v) in
      if MaxTotalVotingPower <? sum
      then Panic "Total voting power should be guarded to not exceed MaxTotalVotingPower"
      else sum_power l sum
  end.

Definition updateTotalVotingPower (vals : ValidatorSet) : outcome ValidatorSet :=
  sum ← sum_power (Validators vals) 0;
  Done (set_total vals sum).

(** [TotalVotingPower] fills the cache when it is zero. *)
Definition TotalVotingPower (vals : ValidatorSet) : outcome (ValidatorSet * Z) :=
  vals' ← (if totalVotingPower vals =? 0 then updateTotalVotingPower vals else Done vals);
  Done (vals', totalVotingPower vals').

(** ** Proposer priorities *)

Definition computeMaxMinPriorityDiff (l : list Validator) : outcome Z :=
  if bool_decide (l = []) then Panic "empty validator set"
  else
    let max := foldl (λ m v, if m <? ProposerPriority v then ProposerPriority v else m) min_int64 l in
    let min := foldl (λ m v, if ProposerPriority v <? m then ProposerPriority v else m) max_int64 l in
    let diff := wrap64 (max - min) in
    if diff <? 0 then Done (wrap64 (-1 * diff)) else Done diff.

Fixpoint rescale_all (ratio : Z) (l : list Validator) : outcome (list Validator) :=
  match l with
  | [] => Done []
  | v :: l =>
      p ← div64 (ProposerPriority v) ratio;
      l' ← rescale_all ratio l;
      Done (with_priority p v :: l')
  end.

Definition RescalePriorities (vals : ValidatorSet) (diffMax : Z) : outcome ValidatorSet :=
  if bool_decide (Validators vals = []) then Panic "empty validator set"
  else if diffMax <=? 0 then Done vals
  else
    diff ← computeMaxMinPriorityDiff (Validators vals);
    ratio ← div64 (wrap64 (wrap64 (diff + diffMax) - 1)) diffMax;
    if diffMax <? diff then
      l ← rescale_all ratio (Validators vals);
      Done (set_validators vals l)
    else Done vals.

(** [big.Int.Div] is Euclidean division; the divisor is positive here. *)
Definition computeAvgProposerPriority (l : list Validator) : outcome Z :=
  let n := zlen l in
  let sum := zsum ProposerPriority l in
  if n =? 0 then Panic "division by zero"
  else
    let avg := sum `div` n in
    if bool_decide (in_int64 avg) then Done avg
    else Panic "Cannot represent avg ProposerPriority as an int64".

Definition shiftByAvgProposerPriority (vals : ValidatorSet) : outcome ValidatorSet :=
  if bool_decide (Validators vals = []) then Panic "empty validator set"
  else
    avg ← computeAvgProposerPriority (Validators vals);
    Done (set_validators vals
      ((λ v, with_priority (safeSubClip (ProposerPriority v) avg) v) <$> Validators vals)).

(** [getValWithMostPriority]: the element with its index, which stands for the
    pointer the caller mutates. *)
Fixpoint most_priority (l : list (nat * Validator)) (res : option (nat * Validator))
    : outcome (option (nat * Validator)) :=
  match l with
  | [] => Done res
  | iv :: l =>
      r ← CompareProposerPriority snd res iv;
      most_priority l (Some r)
  end.

Definition getValWithMostPriority (l : list Validator) : outcome (option (nat * Validator)) :=
  most_priority (imap pair l) None.

(** One rotation: the new set and the chosen proposer. *)
Definition incrementProposerPriority (vals : ValidatorSet) : outcome (ValidatorSet * option Validator) :=
  let l := (λ v, with_priority (safeAddClip (ProposerPriority v) (VotingPower v)) v)
             <$> Validators vals in
  mostest ← getValWithMostPriority l;
  match mostest with
  | None => Panic "nil pointer dereference"
  | Some (i, m) =>
      '(vals, total) ← TotalVotingPower (set_validators vals l);
      let m' := with_priority (safeSubClip (ProposerPriority m) total) m in
      Done (set_validators vals (<[i := m']> (Validators vals)), Some m')
  end.

Fixpoint increment_times (n : nat) (vals : ValidatorSet) (proposer : option Validator)
    : outcome (ValidatorSet * option Validator) :=
  match n with
  | O => Done (vals, proposer)
  | S n =>
      '(vals, proposer) ← incrementProposerPriority vals;
      increment_times n vals proposer
  end.

Definition IncrementProposerPriority (vals : ValidatorSet) (times : Z) : outcome ValidatorSet :=
  if bool_decide (Validators vals = []) then Panic "empty validator set"
  else if times <=? 0 then Panic "Cannot call IncrementProposerPriority with non-positive times"
  else
    '(vals, total) ← TotalVotingPower vals;
    vals ← RescalePriorities vals (wrap64 (PriorityWindowSizeFactor * total));
    vals ← shiftByAvgProposerPriority vals;
    '(vals, proposer) ← increment_times (Z.to_nat times) vals None;
    Done {| Validators := Validators vals; Proposer := proposer;
            totalVotingPower := totalVotingPower vals;
            allKeysHaveSameType := allKeysHaveSameType vals |}.

Definition CopyIncrementProposerPriority (vals : ValidatorSet) (times : Z) : outcome ValidatorSet :=
  IncrementProposerPriority vals times.

(** [findProposer]: skips entries with the current candidate's address. *)
Fixpoint find_proposer (l : list Validator) (proposer : option Validator) : outcome (option Validator) :=
  match l with
  | [] => Done proposer
  | v :: l =>
      match proposer with
      | Some p =>
          if bytes_equal (Address v) (Address p) then find_proposer l proposer
          else r ← CompareProposerPriority id proposer v; find_proposer l (Some r)
      | None => r ← CompareProposerPriority id proposer v; find_proposer l (Some r)
      end
  end.

Definition GetProposer (vals : ValidatorSet) : outcome (ValidatorSet * option Validator) :=
  if bool_decide (Validators vals = []) then Done (vals, None)
  else
    match Proposer vals with
    | Some p => Done (vals, Some p)
    | None =>
        p ← find_proposer (Validators vals) None;
        Done ({| Validators := Validators vals; Proposer := p;
                 totalVotingPower := totalVotingPower vals;
                 allKeysHaveSameType := allKeysHaveSameType vals |}, p)
    end.

(** ** Updates with a change set *)

(** The errors [updateWithChangeSet] returns. *)
Inductive change_error :=
| ErrDuplicateEntry
| ErrNegativePower
| ErrPowerTooHigh
| ErrDeletesNotAllowed
| ErrEmptyResult
| ErrRemoveUnknown
| ErrTotalVotingPowerOverflow.

(** [ValidatorsByAddress] and [ValidatorsByVotingPower]: [Less] and the sort.
    Go's [sort] leaves the order of equal elements open; where addresses are
    distinct the result is the only sorted permutation. *)
Definition less_address (v w : Validator) : bool :=
  bytes_compare (Address v) (Address w) =? -1.

Definition less_power (v w : Validator) : bool :=
  if VotingPower v =? VotingPower w then less_address v w
  else VotingPower w <? VotingPower v.

Definition by_address (v w : Validator) : Prop := less_address w v = false.
Definition by_power (v w : Validator) : Prop := less_power w v = false.

#[export] Instance by_address_dec : RelDecision by_address.
Proof. intros v w. unfold by_address. apply _. Defined.
#[export] Instance by_power_dec : RelDecision by_power.
Proof. intros v w. unfold by_power. apply _. Defined.

Definition sort_address (l : list Validator) : list Validator := merge_sort by_address l.
Definition sort_power (l : list Validator) : list Validator := merge_sort by_power l.

(** The scan of [processChanges] over the sorted copy. *)
Fixpoint process_scan (changes : list Validator) (prevAddr : list Z)
    : result change_error (list Validator * list Validator) :=
  match changes with
  | [] => Ok ([], [])
  | u :: changes =>
      if bytes_equal (Address u) prevAddr then Err ErrDuplicateEntry
      else if VotingPower u <? 0 then Err ErrNegativePower
      else if MaxTotalVotingPower <? VotingPower u then Err ErrPowerTooHigh
      else
        '(updates, removals) ← process_scan changes (Address u);
        if VotingPower u =? 0 then Ok (updates, u :: removals)
        else Ok (u :: updates, removals)
  end.

Definition processChanges (origChanges : list Validator)
    : result change_error (list Validator * list Validator) :=
  process_scan (sort_address origChanges) [].

(** The closure [delta] of [verifyUpdates]. *)
Definition delta (vals : ValidatorSet) (update : Validator) : Z :=
  match (GetByAddressMut vals (Address update)).2 with
  | Some val => wrap64 (VotingPower update - VotingPower val)
  | None => VotingPower update
  end.

Definition delta_le (vals : ValidatorSet) (v w : Validator) : Prop := delta vals v ≤ delta vals w.
#[export] Instance delta_le_dec vals : RelDecision (delta_le vals).
Proof. intros v w. unfold delta_le. apply _. Defined.

Fixpoint verify_scan (vals : ValidatorSet) (updates : list Validator) (tvp : Z)
    : result change_error Z :=
  match updates with
  | [] => Ok tvp
  | u :: updates =>
      let tvp := wrap64 (tvp + delta vals u) in
      if MaxTotalVotingPower <? tvp then Err ErrTotalVotingPowerOverflow
      else verify_scan vals updates tvp
  end.

(** [verifyUpdates]; the set is returned because [TotalVotingPower] caches. *)
Definition verifyUpdates (updates : list Validator) (vals : ValidatorSet) (removedPower : Z)
    : outcome (ValidatorSet * result change_error Z) :=
  let updatesCopy := merge_sort (delta_le vals) updates in
  '(vals', total) ← TotalVotingPower vals;
  let tvpAfterRemovals := wrap64 (total - removedPower) in
  Done (vals', tvp ← verify_scan vals' updatesCopy tvpAfterRemovals;
               Ok (wrap64 (tvp + removedPower))).

Definition numNewValidators (updates : list Validator) (vals : ValidatorSet) : Z :=
  zlen (filter (λ u, HasAddress vals (Address u) = false) updates).

(** [computeNewPriorities] mutates the updates; [>> 3] is an arithmetic shift. *)
Definition computeNewPriorities (updates : list Validator) (vals : ValidatorSet)
    (updatedTotalVotingPower : Z) : list Validator :=
  (λ u, match (GetByAddressMut vals (Address u)).2 with
        | None => with_priority
            (wrap64 (- wrap64 (updatedTotalVotingPower + Z.shiftr updatedTotalVotingPower 3))) u
        | Some val => with_priority (ProposerPriority val) u
        end) <$> updates.

(** The merge of [applyUpdates] on address-sorted lists. *)
Fixpoint merge_updates (existing : list Validator) : list Validator → list Validator :=
  fix go (updates : list Validator) : list Validator :=
    match existing, updates with
    | [], _ => updates
    | _, [] => existing
    | e :: es, u :: us =>
        if bytes_compare (Address e) (Address u) <? 0 then e :: merge_updates es updates
        else if bytes_equal (Address e) (Address u) then u :: merge_updates es us
        else u :: go us
    end.

Definition applyUpdates (vals : ValidatorSet) (updates : list Validator) : ValidatorSet :=
  set_validators vals (merge_updates (sort_address (Validators vals)) updates).

Fixpoint sum_removed (deletes : list Validator) (vals : ValidatorSet) (removed : Z)
    : result change_error Z :=
  match deletes with
  | [] => Ok removed
  | d :: deletes =>
      match (GetByAddressMut vals (Address d)).2 with
      | None => Err ErrRemoveUnknown
      | Some val => sum_removed deletes vals (wrap64 (removed + VotingPower val))
      end
  end.

Definition verifyRemovals (deletes : list Validator) (vals : ValidatorSet)
    : outcome (result change_error Z) :=
  match sum_removed deletes vals 0 with
  | Err e => Done (Err e)
  | Ok removed =>
      if zlen (Validators vals) <? zlen deletes then Panic "more deletes than validators"
      else Done (Ok removed)
  end.

Fixpoint remove_loop (existing deletes : list Validator) : outcome (list Validator) :=
  match deletes with
  | [] => Done existing
  | d :: ds =>
      match existing with
      | [] => Panic "index out of range"
      | e :: es =>
          if bytes_equal (Address e) (Address d) then remove_loop es ds
          else r ← remove_loop es deletes; Done (e :: r)
      end
  end.

Definition applyRemovals (vals : ValidatorSet) (deletes : list Validator) : outcome ValidatorSet :=
  if zlen (Validators vals) <? zlen deletes then Panic "makeslice: len out of range"
  else
    l ← remove_loop (Validators vals) deletes;
    Done (set_validators vals l).

(** [checkAllKeysHaveSameType]: the scan with the type of the first key seen. *)
Fixpoint same_type_scan (l : list Validator) (firstKeyType : string) : outcome bool :=
  match l with
  | [] => Done true
  | v :: l =>
      match ValPubKey v with
      | None =>
          if bool_decide (firstKeyType = ""%string) then same_type_scan l firstKeyType
          else Panic "nil pointer dereference"
      | Some pk =>
          let firstKeyType :=
            if bool_decide (firstKeyType = ""%string) then pk_Type pk else firstKeyType in
          if bool_decide (pk_Type pk = firstKeyType) then same_type_scan l firstKeyType
          else Done false
      end
  end.

Definition checkAllKeysHaveSameType (vals : ValidatorSet) : outcome ValidatorSet :=
  b ← same_type_scan (Validators vals) ""%string;
  Done {| Validators := Validators vals; Proposer := Proposer vals;
          totalVotingPower := totalVotingPower vals; allKeysHaveSameType := b |}.

(** [updateWithChangeSet]: the receiver afterwards, and the error if any. *)
Definition updateWithChangeSet (vals : ValidatorSet) (changes : list Validator) (allowDeletes : bool)
    : outcome (ValidatorSet * option change_error) :=
  if bool_decide (changes = []) then Done (vals, None)
  else
    match processChanges changes with
    | Err e => Done (vals, Some e)
    | Ok (updates, deletes) =>
        if negb allowDeletes && negb (bool_decide (deletes = []))
        then Done (vals, Some ErrDeletesNotAllowed)
        else if (numNewValidators updates vals =? 0) && (zlen (Validators vals) =? zlen deletes)
        then Done (vals, Some ErrEmptyResult)
        else
          removed ← verifyRemovals deletes vals;
          match removed with
          | Err e => Done (vals, Some e)
          | Ok removedVotingPower =>
              '(vals, tvp) ← verifyUpdates updates vals removedVotingPower;
              match tvp with
              | Err e => Done (vals, Some e)
              | Ok tvpAfterUpdatesBeforeRemovals =>
                  let updates := computeNewPriorities updates vals tvpAfterUpdatesBeforeRemovals in
                  let vals := applyUpdates vals updates in
                  vals ← applyRemovals vals deletes;
                  vals ← checkAllKeysHaveSameType vals;
                  vals ← updateTotalVotingPower vals;
                  '(vals, total) ← TotalVotingPower vals;
                  vals ← RescalePriorities vals (wrap64 (PriorityWindowSizeFactor * total));
                  vals ← shiftByAvgProposerPriority vals;
                  Done (set_validators vals (sort_power (Validators vals)), None)
              end
          end
    end.

Definition UpdateWithChangeSet (vals : ValidatorSet) (changes : list Validator)
    : outcome (ValidatorSet * option change_error) :=
  updateWithChangeSet vals changes true.

Definition NewValidatorSet (valz : list Validator) : outcome ValidatorSet :=
  '(vals, err) ← updateWithChangeSet
     {| Validators := []; Proposer := None; totalVotingPower := 0; allKeysHaveSameType := true |}
     valz false;
  match err with
  | Some _ => Panic "Cannot create validator set"
  | None => if 0 <? zlen valz then IncrementProposerPriority vals 1 else Done vals
  end.

(** ** Invariants and the abstract view of a validator list *)

(** What every reachable set satisfies: distinct addresses, positive powers, keys
    present, priorities that fit [int64], and a bounded total. *)
Definition wf_list (l : list Validator) : Prop :=
  NoDup (Address <$> l) ∧
  Forall (λ v, 0 < VotingPower v ∧ is_Some (ValPubKey v) ∧ in_int64 (ProposerPriority v)) l ∧
  zsum VotingPower l ≤ MaxTotalVotingPower.

(** The keys of a list have one type. *)
Definition one_type (l : list Validator) : Prop := Forall (λ v, Forall (λ w, pk_Type <$> ValPubKey v = pk_Type <$> ValPubKey w) l) l.

(** The documented order: power descending, then address ascending; the cached total is the
    sum of the powers, and the cached flag is set only when all keys have one type. *)
Definition wf (vals : ValidatorSet) : Prop :=
  wf_list (Validators vals) ∧ Sorted by_power (Validators vals) ∧
  (totalVotingPower vals = 0 ∨ totalVotingPower vals = zsum VotingPower (Validators vals)) ∧
  (allKeysHaveSameType vals = true → one_type (Validators vals)).

#[export] Instance wf_dec vals : Decision (wf vals).
Proof. unfold wf, wf_list, one_type. apply _. Defined.

#[export] Instance wf_list_dec l : Decision (wf_list l).
Proof. unfold wf_list. apply _. Defined.

(** The abstract contents: address to voting power. *)
Definition powers (l : list Validator) : gmap (list Z) Z :=
  list_to_map ((λ v, (Address v, VotingPower v)) <$> l).

(** ** Orders *)

Definition lt_addr (v w : Validator) : Prop := less_address v w = true.

Lemma lt_addr_spec v w : lt_addr v w ↔ bytes_compare (Address v) (Address w) = -1.
Proof. unfold lt_addr, less_address. by rewrite Z.eqb_eq. Qed.

Lemma by_address_spec v w :
  by_address v w ↔ lt_addr v w ∨ Address v = Address w.
Proof.
  unfold by_address, less_address. rewrite lt_addr_spec, Z.eqb_neq, bytes_compare_antisym.
  destruct (bytes_compare_cases (Address v) (Address w)) as [E|[E|E]]; rewrite E;
    rewrite <-bytes_compare_eq, E; split; intros; try done; try lia; auto.
Qed.

#[export] Instance lt_addr_trans : Transitive lt_addr.
Proof. intros x y z. rewrite !lt_addr_spec. apply bytes_compare_trans. Qed.

Lemma lt_addr_ne v w : lt_addr v w → Address v ≠ Address w.
Proof. rewrite lt_addr_spec. intros E Heq. apply bytes_compare_eq in Heq. lia. Qed.

Lemma compare_neg v w : bytes_compare (Address v) (Address w) < 0 → lt_addr v w.
Proof.
  rewrite lt_addr_spec. destruct (bytes_compare_cases (Address v) (Address w)) as [|[|]]; lia.
Qed.

Lemma compare_pos v w :
  0 ≤ bytes_compare (Address v) (Address w) → Address v ≠ Address w → lt_addr w v.
Proof.
  rewrite lt_addr_spec, (bytes_compare_antisym (Address v) (Address w)), <-bytes_compare_eq.
  destruct (bytes_compare_cases (Address v) (Address w)) as [|[|]]; lia.
Qed.

#[export] Instance by_address_total : Total by_address.
Proof.
  intros v w. rewrite !by_address_spec, !lt_addr_spec.
  rewrite (bytes_compare_antisym (Address v) (Address w)).
  destruct (bytes_compare_cases (Address v) (Address w)) as [E|[E|E]]; rewrite ?E; auto.
  apply bytes_compare_eq in E. auto.
Qed.

#[export] Instance by_power_total : Total by_power.
Proof.
  intros v w. unfold by_power, less_power. rewrite (Z.eqb_sym (VotingPower w)).
  destruct (Z.eqb_spec (VotingPower v) (VotingPower w)).
  - apply (by_address_total v w).
  - destruct (Z.ltb_spec (VotingPower v) (VotingPower w)), (Z.ltb_spec (VotingPower w) (VotingPower v));
      auto; lia.
Qed.

Lemma strict_NoDup l : StronglySorted lt_addr l → NoDup (Address <$> l).
Proof.
  induction 1 as [|v l Hs IH Hf]; simpl; constructor; [|done].
  rewrite list_elem_of_fmap. intros (w & E & Hw). rewrite Forall_forall in Hf.
  by apply (lt_addr_ne v w), E; apply Hf.
Qed.

(** Address-sorted lists without repeated addresses are strictly sorted. *)
Lemma sorted_strict l :
  Sorted by_address l → NoDup (Address <$> l) → StronglySorted lt_addr l.
Proof.
  intros Hs Hn. apply Sorted_StronglySorted; [apply _|].
  induction Hs as [|v l Hs IH Hhd]; [constructor|]. simpl in Hn. apply NoDup_cons in Hn as [Hv Hn].
  constructor; [by apply IH|]. destruct Hhd as [|w l Hvw]; constructor.
  apply by_address_spec in Hvw as [|E]; [done|]. exfalso. apply Hv. rewrite E. simpl. by left.
Qed.

Lemma sort_address_perm l : sort_address l ≡ₚ l.
Proof. apply merge_sort_Permutation. Qed.

Lemma sort_address_strict l : NoDup (Address <$> l) → StronglySorted lt_addr (sort_address l).
Proof.
  intros Hn. apply sorted_strict; [apply Sorted_merge_sort, _|]. by rewrite sort_address_perm.
Qed.

(** ** Looking up by address *)

Lemma find_address_Some l a i v :
  (find_address l a i).2 = Some v → v ∈ l ∧ Address v = a.
Proof.
  revert i. induction l as [|w l IH]; intros i; simpl; [done|].
  unfold bytes_equal. case_bool_decide; simpl; [naive_solver set_solver|].
  intros [? ?]%IH. set_solver.
Qed.

Lemma find_address_None l a i :
  (find_address l a i).2 = None ↔ a ∉ Address <$> l.
Proof.
  revert i. induction l as [|w l IH]; intros i; simpl; [set_solver|].
  unfold bytes_equal. case_bool_decide as E; simpl.
  - split; [done|]. rewrite E. set_solver.
  - rewrite IH. set_solver.
Qed.

Lemma find_address_elem l a i v :
  NoDup (Address <$> l) → v ∈ l → Address v = a → (find_address l a i).2 = Some v.
Proof.
  intros Hn Hv <-. destruct (find_address l (Address v) i).2 as [w|] eqn:E.
  - apply find_address_Some in E as [Hw E]. f_equal.
    apply list_elem_of_lookup in Hv as [m Hm]. apply list_elem_of_lookup in Hw as [n Hn'].
    assert (m = n) as ->; [|congruence]. eapply (NoDup_lookup _ _ _ (Address v) Hn);
      rewrite list_lookup_fmap; [by rewrite Hm|by rewrite Hn'; simpl; rewrite E].
  - apply find_address_None in E. exfalso. apply E. apply list_elem_of_fmap. eauto.
Qed.

Lemma HasAddress_spec vals a : HasAddress vals a = true ↔ a ∈ Address <$> Validators vals.
Proof.
  unfold HasAddress, bytes_equal. rewrite existsb_exists, list_elem_of_fmap.
  split; intros (v & Hv); exists v; rewrite ?list_elem_of_In, ?bool_decide_eq_true in *; naive_solver.
Qed.

(** ** Splitting and checking the changes *)

Lemma process_scan_spec changes prev ups dels :
  Sorted by_address changes → process_scan changes prev = Ok (ups, dels) →
  changes ≡ₚ ups ++ dels ∧ StronglySorted lt_addr changes ∧
  ups `sublist_of` changes ∧ dels `sublist_of` changes ∧
  Forall (λ u, 0 < VotingPower u ≤ MaxTotalVotingPower) ups ∧
  Forall (λ d, VotingPower d = 0) dels.
Proof.
  intros Hs. revert prev ups dels.
  induction Hs as [|u l Hs IH Hhd]; intros prev ups dels; simpl.
  { intros [= <- <-]. split_and!; try constructor; done. }
  destruct (bytes_equal _ _); [done|].
  destruct (Z.ltb_spec (VotingPower u) 0); [done|].
  destruct (Z.ltb_spec MaxTotalVotingPower (VotingPower u)); [done|].
  destruct (process_scan l (Address u)) as [[ups' dels']|] eqn:Hscan; simpl; [|done].
  destruct (IH _ _ _ Hscan) as (Hp & Hss & Hu & Hd & Hfu & Hfd).
  assert (StronglySorted lt_addr (u :: l)) as Hsort.
  { apply Sorted_StronglySorted; [apply _|]. constructor; [by apply StronglySorted_Sorted|].
    destruct Hhd as [|w l Huw]; constructor. apply by_address_spec in Huw as [|E]; [done|].
    simpl in Hscan. unfold bytes_equal in Hscan. by rewrite E, bool_decide_true in Hscan. }
  destruct (Z.eqb_spec (VotingPower u) 0); intros [= <- <-].
  - split_and!; [|done|by constructor|by constructor|done|by constructor].
    rewrite Hp. apply Permutation_middle.
  - split_and!; [by rewrite Hp|done|by constructor|by constructor|constructor; [lia|done]|done].
Qed.

Lemma strict_sublist l k : l `sublist_of` k → StronglySorted lt_addr k → StronglySorted lt_addr l.
Proof.
  induction 1 as [|v l k Hlk IH|v l k Hlk IH]; intros Hs; inversion Hs as [|? ? Hs' Hf]; subst;
    [constructor| |by apply IH].
  constructor; [by apply IH|]. apply Forall_forall. intros w Hw.
  rewrite Forall_forall in Hf. apply Hf. by eapply elem_of_sublist.
Qed.

(** ** The merge and the removal loops *)

Lemma merge_updates_nil_r l : merge_updates l [] = l.
Proof. by destruct l. Qed.

Lemma merge_updates_cons e es u us :
  merge_updates (e :: es) (u :: us) =
    if bytes_compare (Address e) (Address u) <? 0 then e :: merge_updates es (u :: us)
    else if bytes_equal (Address e) (Address u) then u :: merge_updates es us
    else u :: merge_updates (e :: es) us.
Proof. done. Qed.

Lemma merge_updates_elem es us v :
  StronglySorted lt_addr es → StronglySorted lt_addr us →
  v ∈ merge_updates es us ↔ v ∈ us ∨ (v ∈ es ∧ Address v ∉ Address <$> us).
Proof.
  intros Hes. revert us v. induction Hes as [|e es Hes IHe He]; intros us v Hus.
  { destruct us; simpl; set_solver. }
  induction Hus as [|u us Hus IHu Hu]; [simpl; set_solver|].
  rewrite Forall_forall in He, Hu.
  rewrite merge_updates_cons. destruct (Z.ltb_spec (bytes_compare (Address e) (Address u)) 0) as [Hc|Hc].
  - assert (Heu : lt_addr e u).
    { by apply compare_neg. }
    assert (Hne : Address e ∉ Address <$> u :: us).
    { intros (w & E & [->|Hw]%elem_of_cons)%list_elem_of_fmap.
      - by apply (lt_addr_ne e u).
      - apply (lt_addr_ne e w); [|done]. transitivity u; [done|by apply Hu]. }
    rewrite elem_of_cons, (IHe (u :: us) v) by (constructor; [done|by apply Forall_forall]).
    rewrite (elem_of_cons es v). naive_solver.
  - unfold bytes_equal. case_bool_decide as E.
    + rewrite elem_of_cons, (IHe us v) by done. rewrite fmap_cons, !elem_of_cons.
      assert (∀ w, w ∈ es → Address w ≠ Address u).
      { intros w Hw E'. apply (lt_addr_ne e w); [by apply He|congruence]. }
      naive_solver.
    + assert (Hue : lt_addr u e).
      { by apply compare_pos. }
      rewrite elem_of_cons, IHu, fmap_cons, !elem_of_cons.
      assert (Address e ≠ Address u) by (intros E'; by apply (lt_addr_ne u e)).
      assert (∀ w, w ∈ es → Address w ≠ Address u).
      { intros w Hw E'. apply (lt_addr_ne u w); [|done]. transitivity e; [done|by apply He]. }
      naive_solver.
Qed.

Lemma merge_updates_strict es us :
  StronglySorted lt_addr es → StronglySorted lt_addr us →
  StronglySorted lt_addr (merge_updates es us).
Proof.
  intros Hes. revert us. induction Hes as [|e es Hes IHe He]; intros us Hus.
  { by destruct us. }
  induction Hus as [|u us Hus IHu Hu]; [by constructor|].
  assert (Hus' : StronglySorted lt_addr (u :: us)) by (by constructor).
  assert (Hes' : StronglySorted lt_addr (e :: es)) by (by constructor).
  rewrite merge_updates_cons. destruct (Z.ltb_spec (bytes_compare (Address e) (Address u)) 0) as [Hc|Hc].
  - assert (Heu : lt_addr e u).
    { by apply compare_neg. }
    constructor; [by apply IHe|]. apply Forall_forall. intros w Hw.
    apply merge_updates_elem in Hw as [[->|Hw]%elem_of_cons|[Hw _]]; try done.
    + transitivity u; [done|]. rewrite Forall_forall in Hu. by apply Hu.
    + rewrite Forall_forall in He. by apply He.
  - unfold bytes_equal. case_bool_decide as E.
    + constructor; [by apply IHe|]. apply Forall_forall. intros w Hw. rewrite Forall_forall in He, Hu.
      apply merge_updates_elem in Hw as [Hw|[Hw _]]; try done; [by apply Hu|].
      apply lt_addr_spec. rewrite <-E. apply lt_addr_spec. by apply He.
    + assert (Hue : lt_addr u e).
      { by apply compare_pos. }
      constructor; [done|]. apply Forall_forall. intros w Hw. rewrite Forall_forall in He, Hu.
      apply merge_updates_elem in Hw as [Hw|[[->|Hw]%elem_of_cons _]]; try done; [by apply Hu|].
      transitivity e; [done|by apply He].
Qed.

Lemma remove_loop_spec es ds :
  StronglySorted lt_addr es → StronglySorted lt_addr ds →
  (∀ d, d ∈ ds → Address d ∈ Address <$> es) →
  ∃ r, remove_loop es ds = Done r ∧ r `sublist_of` es ∧
    ∀ v, v ∈ r ↔ v ∈ es ∧ Address v ∉ Address <$> ds.
Proof.
  intros Hes. revert ds. induction Hes as [|e es Hes IH He]; intros ds Hds Hin.
  { destruct Hds as [|d ds]; [|specialize (Hin d); set_solver].
    exists []. split_and!; [done|done|set_solver]. }
  destruct Hds as [|d ds Hds Hd]; [exists (e :: es); split_and!; [done|done|set_solver]|].
  rewrite Forall_forall in He, Hd. cbn [remove_loop]. unfold bytes_equal. case_bool_decide as E.
  - destruct (IH ds Hds) as (r & -> & Hsub & Hr).
    { intros x Hx. specialize (Hin x ltac:(set_solver)). rewrite fmap_cons in Hin.
      apply elem_of_cons in Hin as [E'|]; [|done]. exfalso.
      apply (lt_addr_ne d x); [by apply Hd|congruence]. }
    exists r. split_and!; [done|by constructor|]. intros v. rewrite Hr, fmap_cons, !elem_of_cons.
    assert (∀ w, w ∈ es → Address w ≠ Address d).
    { intros w Hw E'. apply (lt_addr_ne e w); [by apply He|congruence]. }
    naive_solver.
  - destruct (IH (d :: ds)) as (r & -> & Hsub & Hr); [by constructor; [|apply Forall_forall]|..].
    { intros x Hx. pose proof (Hin x Hx) as Hx'. rewrite fmap_cons in Hx'.
      apply elem_of_cons in Hx' as [E'|]; [|done].
      specialize (Hin d ltac:(set_solver)). rewrite fmap_cons in Hin.
      apply elem_of_cons in Hin as [?|(w & Ew & Hw)%list_elem_of_fmap]; [congruence|].
      apply elem_of_cons in Hx as [->|Hx]; [congruence|]. exfalso.
      assert (lt_addr d x) as Hdx by (by apply Hd). assert (lt_addr e w) as Hew by (by apply He).
      rewrite lt_addr_spec in *. rewrite E' in Hdx. rewrite <-Ew in Hew.
      rewrite bytes_compare_antisym in Hew. lia. }
    exists (e :: r). split_and!; [done|by constructor|]. intros v. rewrite !elem_of_cons, Hr.
    assert (Address e ∉ Address <$> d :: ds); [|naive_solver].
    rewrite fmap_cons, elem_of_cons. intros [?|(x & Ex & Hx)%list_elem_of_fmap]; [done|].
    specialize (Hin d ltac:(set_solver)). rewrite fmap_cons in Hin.
    apply elem_of_cons in Hin as [?|(w & Ew & Hw)%list_elem_of_fmap]; [congruence|].
    assert (lt_addr d x) as Hdx by (by apply Hd). assert (lt_addr e w) as Hew by (by apply He).
    rewrite lt_addr_spec in *. rewrite <-Ex in Hdx. rewrite <-Ew in Hew.
    rewrite bytes_compare_antisym in Hew. lia.
Qed.

(** ** Saturating arithmetic *)

Lemma safeAddClip_clamp a b :
  in_int64 a → in_int64 b → safeAddClip a b = Z.max min_int64 (Z.min max_int64 (a + b)).
Proof.
  unfold_ints. intros Ha Hb. unfold safeAddClip, safeAdd.
  destruct (Z.ltb_spec 0 b); simpl.
  - rewrite (wrap64_id (max_int64 - b)) by (unfold_ints; lia).
    unfold_ints. destruct (Z.ltb_spec (9223372036854775807 - b) a); simpl;
      destruct (Z.ltb_spec b 0); simpl; try lia.
    rewrite wrap64_id by (unfold_ints; lia). lia.
  - destruct (Z.ltb_spec b 0); simpl.
    + rewrite (wrap64_id (min_int64 - b)) by (unfold_ints; lia).
      unfold_ints. destruct (Z.ltb_spec a (-9223372036854775808 - b)); simpl; [lia|].
      rewrite wrap64_id by (unfold_ints; lia). lia.
    + rewrite wrap64_id by (unfold_ints; lia). lia.
Qed.

Lemma safeSubClip_clamp a b :
  in_int64 a → in_int64 b → safeSubClip a b = Z.max min_int64 (Z.min max_int64 (a - b)).
Proof.
  unfold_ints. intros Ha Hb. unfold safeSubClip, safeSub.
  destruct (Z.ltb_spec 0 b); simpl.
  - rewrite (wrap64_id (min_int64 + b)) by (unfold_ints; lia).
    unfold_ints. destruct (Z.ltb_spec a (-9223372036854775808 + b)); simpl.
    + lia.
    + destruct (Z.ltb_spec b 0); [lia|]. simpl. rewrite wrap64_id by (unfold_ints; lia). lia.
  - destruct (Z.ltb_spec b 0); simpl.
    + rewrite (wrap64_id (max_int64 + b)) by (unfold_ints; lia).
      unfold_ints. destruct (Z.ltb_spec (9223372036854775807 + b) a); simpl; [lia|].
      rewrite wrap64_id by (unfold_ints; lia). lia.
    + rewrite wrap64_id by (unfold_ints; lia). lia.
Qed.

Lemma safeAddClip_exact a b :
  in_int64 a → in_int64 b → in_int64 (a + b) → safeAddClip a b = a + b.
Proof. intros. rewrite safeAddClip_clamp by done. unfold_ints; lia. Qed.

Lemma safeSubClip_exact a b :
  in_int64 a → in_int64 b → in_int64 (a - b) → safeSubClip a b = a - b.
Proof. intros. rewrite safeSubClip_clamp by done. unfold_ints; lia. Qed.

Lemma safeAddClip_range a b : in_int64 a → in_int64 b → in_int64 (safeAddClip a b).
Proof. intros. rewrite safeAddClip_clamp by done. unfold_ints; lia. Qed.

Lemma safeSubClip_range a b : in_int64 a → in_int64 b → in_int64 (safeSubClip a b).
Proof. intros. rewrite safeSubClip_clamp by done. unfold_ints; lia. Qed.

(** ** Voting power accounting *)

(** The power the set holds at the address of [d], zero when absent. *)
Definition old_power (l : list Validator) (d : Validator) : Z :=
  match (find_address l (Address d) 0).2 with Some v => VotingPower v | None => 0 end.

Lemma zsum_at_address l a :
  NoDup (Address <$> l) →
  zsum VotingPower (filter (λ v, Address v = a) l) =
    match (find_address l a 0).2 with Some v => VotingPower v | None => 0 end.
Proof.
  intros Hn. destruct (find_address l a 0).2 as [v|] eqn:E.
  - pose proof (find_address_Some _ _ _ _ E) as [Hv Ha].
    assert (filter (λ w, Address w = a) l ≡ₚ [v]) as ->; [|simpl; lia].
    apply NoDup_Permutation; [apply NoDup_filter; by eapply NoDup_fmap_1|apply NoDup_singleton|].
    intros w. rewrite list_elem_of_filter, list_elem_of_singleton. split; [|by intros ->].
    intros [Hw Hin]. eapply (find_address_elem _ _ 0) in Hin; [|done..]. congruence.
  - apply find_address_None in E.
    rewrite filter_none; [done|]. intros w Hw ?. apply E, list_elem_of_fmap. eauto.
Qed.

Lemma zsum_old_power l ds :
  NoDup (Address <$> l) → NoDup (Address <$> ds) →
  zsum (old_power l) ds = zsum VotingPower (filter (λ v, Address v ∈ Address <$> ds) l).
Proof.
  intros Hl. induction ds as [|d ds IH]; intros Hds.
  - by rewrite filter_none by set_solver.
  - rewrite fmap_cons, NoDup_cons in Hds. destruct Hds as [Hd Hds]. simpl. rewrite IH by done.
    unfold old_power. rewrite <-zsum_at_address by done.
    rewrite <-zsum_filter_or by (by intros v _ ->). f_equal.
    apply filter_ext_in. intros v _. by rewrite elem_of_cons.
Qed.

(** What survives a change set: the updates, and the old entries it does not name. *)
Lemma update_sum l r ups dels :
  NoDup (Address <$> l) → NoDup (Address <$> ups ++ dels) →
  r ≡ₚ ups ++ filter (λ v, Address v ∉ Address <$> ups ++ dels) l →
  zsum VotingPower r =
    zsum VotingPower l - zsum (old_power l) dels + zsum (λ u, VotingPower u - old_power l u) ups.
Proof.
  intros Hl Hc ->. rewrite zsum_app.
  assert (Hold : zsum (old_power l) ups + zsum (old_power l) dels =
                 zsum VotingPower (filter (λ v, Address v ∈ Address <$> ups ++ dels) l)).
  { rewrite <-zsum_app. by apply zsum_old_power. }
  rewrite (zsum_filter_split VotingPower (λ v, Address v ∈ Address <$> ups ++ dels) l).
  assert (Hd : zsum (λ u, VotingPower u - old_power l u) ups =
               zsum VotingPower ups - zsum (old_power l) ups).
  { clear. induction ups; simpl; lia. }
  lia.
Qed.

Lemma max_total_value : MaxTotalVotingPower = 1152921504606846975.
Proof. reflexivity. Qed.

(** The scan of [verifyUpdates] is exact: no sum in it wraps. *)
Lemma verify_scan_spec vals us tvp t :
  tvp ≤ MaxTotalVotingPower →
  - MaxTotalVotingPower ≤ tvp + zsum (λ u, Z.min 0 (delta vals u)) us →
  (∀ u, u ∈ us → delta vals u ≤ MaxTotalVotingPower) →
  verify_scan vals us tvp = Ok t →
  t = tvp + zsum (delta vals) us ∧ t ≤ MaxTotalVotingPower.
Proof.
  rewrite max_total_value. revert tvp.
  induction us as [|u us IH]; intros tvp Hhi Hlo Hd; cbn [verify_scan zsum].
  { intros [= ->]. split; [simpl; lia|done]. }
  cbn [zsum] in Hlo.
  assert (zsum (λ u, Z.min 0 (delta vals u)) us ≤ 0).
  { clear. induction us; simpl; lia. }
  assert (delta vals u ≤ 1152921504606846975) by (apply Hd; set_solver).
  rewrite wrap64_id by (unfold_ints; lia).
  rewrite max_total_value. destruct (Z.ltb_spec 1152921504606846975 (tvp + delta vals u)); [done|].
  intros Hv. apply IH in Hv; [lia|lia|lia|]. intros; apply Hd; set_solver.
Qed.

Lemma sum_power_spec l sum :
  0 ≤ sum → Forall (λ v, 0 < VotingPower v) l →
  sum + zsum VotingPower l ≤ MaxTotalVotingPower →
  sum_power l sum = Done (sum + zsum VotingPower l).
Proof.
  rewrite max_total_value. revert sum. induction l as [|v l IH]; intros sum Hs Hl Hm; simpl.
  { f_equal. lia. }
  apply Forall_cons in Hl as [Hv Hl]. simpl in Hm.
  assert (0 ≤ zsum VotingPower l).
  { apply zsum_nonneg. intros w Hw. rewrite Forall_forall in Hl. specialize (Hl w Hw). lia. }
  rewrite safeAddClip_exact by (unfold_ints; lia). rewrite max_total_value.
  destruct (Z.ltb_spec 1152921504606846975 (sum + VotingPower v)); [lia|].
  rewrite IH by (done || lia). f_equal. lia.
Qed.

(** ** Operations that only touch priorities *)

Implicit Types (l : list Validator) (vals : ValidatorSet).

(** Everything of a validator but its priority. *)
Definition shape (v : Validator) : list Z * option PubKey * Z :=
  (Address v, ValPubKey v, VotingPower v).

Lemma shape_address l l' : shape <$> l = shape <$> l' → Address <$> l = Address <$> l'.
Proof.
  intros E. apply (f_equal (fmap (λ s, s.1.1))) in E. by rewrite <-!list_fmap_compose in E.
Qed.

Lemma shape_zsum l l' : shape <$> l = shape <$> l' → zsum VotingPower l = zsum VotingPower l'.
Proof.
  intros E. apply (f_equal (zsum snd)) in E. by rewrite !zsum_fmap in E.
Qed.

Lemma shape_length l l' : shape <$> l = shape <$> l' → length l = length l'.
Proof. intros E. apply (f_equal length) in E. by rewrite !length_fmap in E. Qed.

Definition int64_priorities (l : list Validator) : Prop :=
  Forall (λ v, in_int64 (ProposerPriority v)) l.

Lemma wf_list_shape l l' :
  shape <$> l = shape <$> l' → int64_priorities l' → wf_list l → wf_list l'.
Proof.
  intros E Hp (Hn & Hf & Hs). split_and!.
  - by rewrite <-(shape_address _ _ E).
  - apply Forall_lookup. intros i v' Hv'. eapply Forall_lookup in Hp; [|done].
    apply (f_equal (.!! i)) in E. rewrite !list_lookup_fmap, Hv' in E. simpl in E.
    destruct (l !! i) as [v|] eqn:Hv; [|done]. eapply Forall_lookup in Hf; [|done].
    injection E as E1 E2 E3. rewrite <-E2, <-E3. naive_solver.
  - by rewrite <-(shape_zsum _ _ E).
Qed.

Lemma shape_sorted l l' : shape <$> l = shape <$> l' → Sorted by_power l → Sorted by_power l'.
Proof.
  intros E Hs. revert l' E. induction Hs as [|v l Hs IH Hhd]; intros [|v' l'] E; try done.
  injection E as E1 E2 E3 E. constructor; [by apply IH|].
  destruct Hhd as [|w l Hvw]; [by destruct l'|]. destruct l' as [|w' l']; [constructor|].
  injection E as F1 F2 F3 F. constructor. unfold by_power, less_power, less_address in *.
  by rewrite <-F1, <-F3, <-E1, <-E3.
Qed.

Lemma wf_list_priorities l : wf_list l → int64_priorities l.
Proof. intros (_ & Hf & _). eapply Forall_impl; [exact Hf|]. naive_solver. Qed.

Lemma shape_with_priority f l :
  shape <$> ((λ v, with_priority (f v) v) <$> l) = shape <$> l.
Proof. rewrite <-list_fmap_compose. by apply list_fmap_ext. Qed.

Lemma max_min_diff_range l d : computeMaxMinPriorityDiff l = Done d → in_int64 d.
Proof.
  unfold computeMaxMinPriorityDiff. case_bool_decide; [done|].
  destruct (_ <? 0); intros [= <-]; apply wrap64_range.
Qed.

Lemma ratio_nonzero d m :
  in_int64 d → 0 < m ≤ 2 * MaxTotalVotingPower → m < d →
  Z.quot (wrap64 (wrap64 (d + m) - 1)) m ≠ 0.
Proof.
  rewrite max_total_value. intros Hd Hm Hlt E.
  assert (Hsmall : ∀ x, (Z.abs x < m → False) → Z.quot x m ≠ 0).
  { intros x Hx Hq. apply Hx. apply Z.quot_small_iff in Hq; lia. }
  revert E. apply Hsmall. unfold wrap64; unfold_ints. intros Habs.
  assert (d + m ≤ 9223372036854775807 ∨ 9223372036854775807 < d + m) as [|] by lia.
  - rewrite (Z.mod_small (d + m + _)) in Habs by lia. rewrite Z.mod_small in Habs by lia. lia.
  - assert (E : (d + m + 9223372036854775808) mod 18446744073709551616 =
                d + m - 9223372036854775808).
    { symmetry. apply (Z.mod_unique_pos _ _ 1); lia. }
    rewrite E in Habs. destruct (decide (d + m = 9223372036854775808)) as [E'|E'].
    + rewrite E' in Habs. vm_compute (_ mod _) in Habs. lia.
    + rewrite Z.mod_small in Habs by lia. lia.
Qed.

Lemma quot_bounds z m :
  0 < m → Z.min z 0 ≤ Z.quot z m ≤ Z.max z 0.
Proof.
  intros Hm. destruct (decide (0 ≤ z)).
  - rewrite Z.quot_div_nonneg by lia. pose proof (Z.div_pos z m).
    pose proof (Z.div_le_upper_bound z m z). nia.
  - replace z with (- (- z)) by lia. rewrite Z.quot_opp_l, Z.quot_div_nonneg by lia.
    pose proof (Z.div_pos (- z) m). pose proof (Z.div_le_upper_bound (- z) m (- z)). nia.
Qed.

Lemma quot_range z m : in_int64 z → 0 < m → in_int64 (Z.quot z m).
Proof. intros Hz Hm. pose proof (quot_bounds z m Hm). unfold_ints. lia. Qed.

Lemma rescale_all_spec ratio l :
  ratio ≠ 0 →
  rescale_all ratio l = Done ((λ v, with_priority (wrap64 (Z.quot (ProposerPriority v) ratio)) v) <$> l).
Proof.
  intros Hr. induction l as [|v l IH]; [done|]. cbn [rescale_all]. unfold div64.
  destruct (Z.eqb_spec ratio 0); [done|]. simpl. by rewrite IH.
Qed.

Lemma RescalePriorities_spec vals m :
  Validators vals ≠ [] → int64_priorities (Validators vals) → 0 < m ≤ 2 * MaxTotalVotingPower →
  ∃ l, RescalePriorities vals m = Done (set_validators vals l) ∧
    shape <$> l = shape <$> Validators vals ∧ int64_priorities l.
Proof.
  intros Hne Hp Hm. unfold RescalePriorities. rewrite bool_decide_false by done.
  destruct (Z.leb_spec m 0); [lia|].
  destruct (computeMaxMinPriorityDiff (Validators vals)) as [d|] eqn:Hd.
  2:{ unfold computeMaxMinPriorityDiff in Hd. rewrite bool_decide_false in Hd by done. case_hyp Hd. }
  pose proof (max_min_diff_range _ _ Hd) as Hdr. cbn [mbind outcome_bind].
  unfold div64. destruct (Z.eqb_spec m 0); [lia|]. cbn [mbind outcome_bind].
  assert (Hsame : set_validators vals (Validators vals) = vals) by (by destruct vals).
  destruct (Z.ltb_spec m d) as [Hlt|]; [|exists (Validators vals); by rewrite Hsame].
  pose proof (ratio_nonzero d m Hdr Hm Hlt).
  rewrite wrap64_id.
  - rewrite rescale_all_spec by done. eexists. split; [done|]. split; [apply shape_with_priority|].
    apply Forall_fmap, Forall_forall. intros v _. apply wrap64_range.
  - apply quot_range; [apply wrap64_range|lia].
Qed.

Lemma zsum_bounds l lo hi :
  Forall (λ v, lo ≤ ProposerPriority v ≤ hi) l →
  lo * zlen l ≤ zsum ProposerPriority l ≤ hi * zlen l.
Proof.
  unfold zlen. induction 1 as [|v l Hv _ IH]; cbn [zsum length]; lia.
Qed.

Lemma avg_bounds l lo hi :
  l ≠ [] → Forall (λ v, lo ≤ ProposerPriority v ≤ hi) l →
  lo ≤ zsum ProposerPriority l `div` zlen l ≤ hi.
Proof.
  intros Hne Hl. pose proof (zsum_bounds l lo hi Hl).
  assert (0 < zlen l) by (destruct l; [done|unfold zlen; simpl; lia]).
  split; [apply Z.div_le_lower_bound; lia|]. apply Z.div_le_upper_bound; lia.
Qed.

(** The average always fits, so the panic of [computeAvgProposerPriority] is dead. *)
Lemma computeAvg_spec l :
  l ≠ [] → int64_priorities l →
  computeAvgProposerPriority l = Done (zsum ProposerPriority l `div` zlen l) ∧
  in_int64 (zsum ProposerPriority l `div` zlen l).
Proof.
  intros Hne Hp. pose proof (avg_bounds l min_int64 max_int64 Hne Hp) as Ha.
  unfold computeAvgProposerPriority.
  assert (0 < zlen l) by (destruct l; [done|unfold zlen; simpl; lia]).
  destruct (Z.eqb_spec (zlen l) 0); [lia|]. by rewrite bool_decide_true.
Qed.

Lemma shift_spec vals :
  Validators vals ≠ [] → int64_priorities (Validators vals) →
  ∃ l, shiftByAvgProposerPriority vals = Done (set_validators vals l) ∧
    shape <$> l = shape <$> Validators vals ∧ int64_priorities l.
Proof.
  intros Hne Hp. unfold shiftByAvgProposerPriority. rewrite bool_decide_false by done.
  destruct (computeAvg_spec _ Hne Hp) as [-> Ha]. simpl. eexists. split; [done|].
  split; [apply shape_with_priority|]. apply Forall_fmap.
  eapply Forall_impl; [exact Hp|]. intros v Hv. by apply safeSubClip_range.
Qed.

Lemma wf_list_positive l : wf_list l → Forall (λ v, 0 < VotingPower v) l.
Proof. intros (_ & Hf & _). eapply Forall_impl; [exact Hf|]. naive_solver. Qed.

Lemma wf_list_total_pos l : wf_list l → l ≠ [] → 0 < zsum VotingPower l.
Proof.
  intros Hwf%wf_list_positive Hne. destruct Hwf as [|v l Hv Hl]; [done|]. simpl.
  assert (0 ≤ zsum VotingPower l); [|lia]. apply zsum_nonneg. intros w Hw.
  rewrite Forall_forall in Hl. specialize (Hl w Hw). lia.
Qed.

Lemma wf_power_nonneg l : wf_list l → ∀ v, v ∈ l → 0 ≤ VotingPower v.
Proof. intros Hwf%wf_list_positive v Hv. rewrite Forall_forall in Hwf. specialize (Hwf v Hv). lia. Qed.

Lemma updateTotal_spec vals :
  wf_list (Validators vals) →
  updateTotalVotingPower vals = Done (set_total vals (zsum VotingPower (Validators vals))).
Proof.
  intros Hwf. unfold updateTotalVotingPower. rewrite sum_power_spec; [done|lia| |].
  - by apply wf_list_positive.
  - by destruct Hwf as (_ & _ & ?).
Qed.

Lemma TotalVotingPower_spec vals :
  wf_list (Validators vals) →
  (totalVotingPower vals = 0 ∨ totalVotingPower vals = zsum VotingPower (Validators vals)) →
  TotalVotingPower vals =
    Done (set_total vals (zsum VotingPower (Validators vals)), zsum VotingPower (Validators vals)).
Proof.
  intros Hwf Hc. unfold TotalVotingPower.
  destruct (Z.eqb_spec (totalVotingPower vals) 0).
  - by rewrite updateTotal_spec.
  - destruct Hc as [|Hc]; [done|]. simpl. rewrite Hc. do 2 f_equal.
    destruct vals. simpl in *. by rewrite Hc.
Qed.

(** ** The update as a whole *)

Lemma computeNewPriorities_shape ups vals t :
  shape <$> computeNewPriorities ups vals t = shape <$> ups.
Proof.
  unfold computeNewPriorities. rewrite <-list_fmap_compose. apply list_fmap_ext.
  intros i u _. simpl. by destruct (GetByAddressMut _ _).2.
Qed.

Lemma computeNewPriorities_int64 ups vals t :
  int64_priorities (Validators vals) → int64_priorities (computeNewPriorities ups vals t).
Proof.
  intros Hp. apply Forall_fmap, Forall_forall. intros u _. simpl.
  destruct (GetByAddressMut _ _).2 as [v|] eqn:E; simpl; [|apply wrap64_range].
  apply find_address_Some in E as [Hv _]. unfold int64_priorities in Hp.
  rewrite Forall_forall in Hp. by apply Hp.
Qed.

Lemma strict_shape l l' :
  shape <$> l = shape <$> l' → StronglySorted lt_addr l → StronglySorted lt_addr l'.
Proof.
  intros E%shape_address Hs. revert l' E.
  induction Hs as [|v l Hs IH Hf]; intros [|v' l'] E; try done; [constructor|].
  injection E as E1 E. change (Address <$> l = Address <$> l') in E. constructor; [by apply IH|].
  apply Forall_forall. intros w' Hw'. apply lt_addr_spec.
  assert (Address w' ∈ Address <$> l) as (w & Ew & Hw)%list_elem_of_fmap.
  { rewrite E. apply list_elem_of_fmap. eauto. }
  rewrite Forall_forall in Hf. rewrite <-E1, Ew. by apply lt_addr_spec, Hf.
Qed.

(** Merging the updates and removing the deletes leaves exactly the updates and
    the old entries that the change set does not name. *)
Lemma apply_changes l ups dels :
  NoDup (Address <$> l) → NoDup (Address <$> ups ++ dels) →
  StronglySorted lt_addr ups → StronglySorted lt_addr dels →
  (∀ d, d ∈ dels → Address d ∈ Address <$> l) →
  ∃ r, remove_loop (merge_updates (sort_address l) ups) dels = Done r ∧
    NoDup (Address <$> r) ∧
    r ≡ₚ ups ++ filter (λ v, Address v ∉ Address <$> ups ++ dels) l ∧
    (zlen dels ≤ zlen (merge_updates (sort_address l) ups)).
Proof.
  intros Hn Hc Hu Hd Hin.
  pose proof (sort_address_strict l Hn) as Hs.
  pose proof (merge_updates_strict _ _ Hs Hu) as Hm.
  assert (Hdisj : ∀ u d, u ∈ ups → d ∈ dels → Address u ≠ Address d).
  { rewrite fmap_app in Hc. apply NoDup_app in Hc as (_ & Hx & _).
    intros u d Hu' Hd' E. apply (Hx (Address u)); apply list_elem_of_fmap; eauto. }
  assert (Hall : ∀ d, d ∈ dels → Address d ∈ Address <$> merge_updates (sort_address l) ups).
  { intros d Hd'. apply Hin in Hd' as Hx. apply list_elem_of_fmap in Hx as (v & E & Hv).
    apply list_elem_of_fmap. exists v. split; [done|]. apply merge_updates_elem; [done..|].
    right. split; [by rewrite sort_address_perm|].
    intros (u & E' & Hu')%list_elem_of_fmap. apply (Hdisj u d); [done..|congruence]. }
  destruct (remove_loop_spec _ _ Hm Hd Hall) as (r & Hr & Hsub & Hmem).
  exists r. split; [done|].
  assert (Hsr : StronglySorted lt_addr r) by (by eapply strict_sublist).
  pose proof (strict_NoDup _ Hsr) as Hnr. split_and!; [done| |].
  - apply NoDup_Permutation; [by eapply NoDup_fmap_1| |].
    + apply NoDup_app. split_and!; [by eapply NoDup_fmap_1, strict_NoDup| |].
      * intros u Hu' [Hx _]%list_elem_of_filter. apply Hx, list_elem_of_fmap.
        exists u. split; [done|]. set_solver.
      * apply NoDup_filter. by eapply NoDup_fmap_1.
    + intros v. rewrite Hmem, merge_updates_elem, sort_address_perm by done.
      rewrite elem_of_app, list_elem_of_filter, fmap_app, elem_of_app.
      assert (v ∈ ups → Address v ∉ Address <$> dels); [|naive_solver].
      intros Hv (d & E & Hd')%list_elem_of_fmap. by apply (Hdisj v d).
  - unfold zlen. apply inj_le. rewrite <-!(length_fmap Address).
    apply submseteq_length, NoDup_submseteq; [by apply strict_NoDup|].
    intros a (d & -> & Hd')%list_elem_of_fmap. by apply Hall.
Qed.

Lemma old_power_bounds l d : wf_list l → 0 ≤ old_power l d ≤ MaxTotalVotingPower.
Proof.
  intros Hwf. unfold old_power. destruct (find_address _ _ _).2 as [v|] eqn:E.
  - apply find_address_Some in E as [Hv _]. pose proof (wf_power_nonneg _ Hwf) as Hnn.
    pose proof (zsum_elem_le VotingPower l v Hnn Hv). destruct Hwf as (_ & _ & ?).
    specialize (Hnn v Hv). lia.
  - rewrite max_total_value. lia.
Qed.

Lemma delta_old vals u :
  wf_list (Validators vals) → 0 < VotingPower u ≤ MaxTotalVotingPower →
  delta vals u = VotingPower u - old_power (Validators vals) u.
Proof.
  intros Hwf Hu. pose proof (old_power_bounds (Validators vals) u Hwf) as Ho.
  rewrite max_total_value in *.
  unfold delta, old_power, GetByAddressMut in *. destruct (find_address _ _ _).2; [|lia].
  apply wrap64_id. unfold_ints. lia.
Qed.

Lemma sum_removed_spec dels vals acc t :
  wf_list (Validators vals) → 0 ≤ acc →
  acc + zsum (old_power (Validators vals)) dels ≤ MaxTotalVotingPower →
  sum_removed dels vals acc = Ok t →
  (∀ d, d ∈ dels → Address d ∈ Address <$> Validators vals) ∧
  t = acc + zsum (old_power (Validators vals)) dels.
Proof.
  intros Hwf. revert acc. induction dels as [|d dels IH]; intros acc Hacc Hb; cbn [sum_removed zsum].
  { intros [= ->]. split; [set_solver|simpl; lia]. }
  cbn [zsum] in Hb. pose proof (old_power_bounds (Validators vals) d Hwf) as Ho.
  assert (0 ≤ zsum (old_power (Validators vals)) dels).
  { apply zsum_nonneg. intros x _. by apply old_power_bounds. }
  unfold GetByAddressMut. rewrite max_total_value in *.
  destruct (find_address (Validators vals) (Address d) 0).2 as [v|] eqn:E; [|done].
  assert (old_power (Validators vals) d = VotingPower v) as Eo by (unfold old_power; by rewrite E).
  rewrite Eo in *.
  rewrite wrap64_id by (unfold_ints; lia). intros Hs. apply IH in Hs as [Hin ->]; [|lia|lia].
  split; [|lia]. intros x [->|Hx]%elem_of_cons; [|by apply Hin].
  apply find_address_Some in E as [Hv E]. rewrite <-E. apply list_elem_of_fmap. eauto.
Qed.

Lemma zsum_old_le l ds :
  wf_list l → NoDup (Address <$> ds) → zsum (old_power l) ds ≤ zsum VotingPower l.
Proof.
  intros Hwf Hds. rewrite zsum_old_power by (done || by destruct Hwf).
  apply zsum_filter_le. by apply wf_power_nonneg.
Qed.

(** [verifyUpdates] accepts exactly a total within bounds, which it returns with
    the removed power added back. *)
Lemma verifyUpdates_spec updates vals removed vals' t :
  wf_list (Validators vals) →
  (totalVotingPower vals = 0 ∨ totalVotingPower vals = zsum VotingPower (Validators vals)) →
  Forall (λ u, 0 < VotingPower u ≤ MaxTotalVotingPower) updates →
  0 ≤ removed →
  zsum (old_power (Validators vals)) updates + removed ≤ zsum VotingPower (Validators vals) →
  verifyUpdates updates vals removed = Done (vals', Ok t) →
  vals' = set_total vals (zsum VotingPower (Validators vals)) ∧
  zsum VotingPower (Validators vals) - removed +
    zsum (λ u, VotingPower u - old_power (Validators vals) u) updates ≤ MaxTotalVotingPower.
Proof.
  intros Hwf Hc Hu Hr Hsum. unfold verifyUpdates. rewrite TotalVotingPower_spec by done.
  cbn [mbind outcome_bind]. set (vals1 := set_total _ _). set (T := zsum VotingPower _) in *.
  assert (Hold : 0 ≤ zsum (old_power (Validators vals)) updates).
  { apply zsum_nonneg. intros x _. by apply old_power_bounds. }
  assert (HT : T ≤ MaxTotalVotingPower) by (by destruct Hwf as (_ & _ & ?)).
  rewrite (wrap64_id (T - removed)) by (rewrite max_total_value in HT; unfold_ints; lia).
  destruct (verify_scan _ _ _) as [t'|] eqn:Hv; [|done]. intros [= <- _]. split; [done|].
  assert (Hdelta : ∀ u, u ∈ updates → delta vals1 u = VotingPower u - old_power (Validators vals) u).
  { intros u Hu'. rewrite Forall_forall in Hu. rewrite delta_old by (done || by apply Hu). done. }
  pose proof (merge_sort_Permutation (delta_le vals) updates) as Hperm.
  apply verify_scan_spec in Hv as [-> Hle].
  - rewrite Hperm in Hle. by rewrite (zsum_ext (delta vals1) _ _ Hdelta) in Hle.
  - lia.
  - rewrite Hperm. assert (- zsum (old_power (Validators vals)) updates ≤
      zsum (λ u, Z.min 0 (delta vals1 u)) updates); [|rewrite max_total_value; lia].
    assert (Hneg : ∀ us, - zsum (old_power (Validators vals)) us = zsum (λ u, - old_power (Validators vals) u) us)
      by (intros us; induction us; simpl; lia).
    rewrite Hneg. apply zsum_le. intros u Hu'. rewrite Hdelta by done.
    rewrite Forall_forall in Hu. specialize (Hu u Hu').
    pose proof (old_power_bounds (Validators vals) u Hwf). lia.
  - intros u Hu'. rewrite Hperm in Hu'. rewrite Hdelta by done.
    rewrite Forall_forall in Hu. specialize (Hu u Hu').
    pose proof (old_power_bounds (Validators vals) u Hwf). lia.
Qed.

Lemma same_type_scan_total l t :
  Forall (λ v, is_Some (ValPubKey v)) l → ∃ b, same_type_scan l t = Done b.
Proof.
  intros Hl. revert t. induction Hl as [|v l [pk Hpk] _ IH]; intros t; simpl; [eauto|].
  rewrite Hpk. case_bool_decide; case_bool_decide; eauto.
Qed.

(** What the scan finds out. *)
Lemma scan_one_type l t : Forall (λ v, is_Some (ValPubKey v)) l → same_type_scan l t = Done true →
  ∃ t', (t = "" ∨ t = t')%string ∧ Forall (λ v, pk_Type <$> ValPubKey v = Some t') l.
Proof.
  intros Hl. revert t. induction Hl as [|v l [pk Hpk] _ IH]; intros t; simpl; [intros _; exists t; auto|]. rewrite Hpk.
  case_bool_decide as Ht; case_bool_decide as E; try done; intros Hs; destruct (IH _ Hs) as (t' & Ht' & Hf).
  - destruct Ht' as [Hn|<-]; [by destruct (pk_Type_named pk)|]. exists (pk_Type pk). split; [by left|]. constructor; [by rewrite Hpk|done].
  - destruct Ht' as [Hn|<-]; [done|]. exists t. split; [by right|]. constructor; [rewrite Hpk; simpl; congruence|done].
Qed.

Lemma scan_true l : Forall (λ v, is_Some (ValPubKey v)) l → same_type_scan l "" = Done true → one_type l.
Proof.
  intros Hl Hs. destruct (scan_one_type l "" Hl Hs) as (t & _ & Hf). rewrite Forall_forall in Hf. apply Forall_forall. intros v Hv.
  apply Forall_forall. intros w Hw. by rewrite !Hf.
Qed.

Lemma one_type_shape l l' : shape <$> l' ≡ₚ shape <$> l → one_type l → one_type l'.
Proof.
  intros Hs Hl. assert (∀ v, v ∈ l' → ∃ w, w ∈ l ∧ ValPubKey v = ValPubKey w) as Hw.
  { intros v Hv. apply (list_elem_of_fmap_2 shape) in Hv. rewrite Hs in Hv. apply list_elem_of_fmap in Hv as (w & E & Hw). exists w. split; [done|]. by injection E. }
  unfold one_type in *. rewrite !Forall_forall in *. intros v Hv. apply Forall_forall. intros v' Hv'.
  destruct (Hw v Hv) as (w & Hwl & ->). destruct (Hw v' Hv') as (w' & Hwl' & ->). specialize (Hl w Hwl). rewrite Forall_forall in Hl. by apply Hl.
Qed.

(** The abstract effect of a change set on the address-to-power map: a zero power
    deletes, any other power inserts or replaces. *)
Definition apply_powers (changes : list Validator) (l : list Validator) : gmap (list Z) Z :=
  filter (λ '(_, p), p ≠ 0) (powers changes ∪ powers l).

Lemma powers_lookup l a p :
  NoDup (Address <$> l) →
  powers l !! a = Some p ↔ ∃ v, v ∈ l ∧ Address v = a ∧ VotingPower v = p.
Proof.
  intros Hn. unfold powers. rewrite <-elem_of_list_to_map.
  - rewrite list_elem_of_fmap. naive_solver.
  - by rewrite <-list_fmap_compose.
Qed.

Lemma powers_lookup_None l a :
  NoDup (Address <$> l) → powers l !! a = None ↔ a ∉ Address <$> l.
Proof.
  intros Hn. rewrite eq_None_not_Some. unfold is_Some. setoid_rewrite powers_lookup; [|done].
  rewrite list_elem_of_fmap. naive_solver.
Qed.

Lemma powers_apply l r ups dels :
  wf_list l → NoDup (Address <$> ups ++ dels) →
  Forall (λ u, 0 < VotingPower u ≤ MaxTotalVotingPower) ups → Forall (λ d, VotingPower d = 0) dels →
  NoDup (Address <$> r) → r ≡ₚ ups ++ filter (λ v, Address v ∉ Address <$> ups ++ dels) l →
  powers r = apply_powers (ups ++ dels) l.
Proof.
  intros Hwf Hc Hu Hd Hn Hr. pose proof Hwf as (Hl & _ & _).
  rewrite Forall_forall in Hu, Hd. apply map_eq. intros a. apply option_eq. intros p.
  unfold apply_powers. rewrite map_lookup_filter_Some, lookup_union_Some_raw, !powers_lookup,
    powers_lookup_None by done. setoid_rewrite Hr. setoid_rewrite elem_of_app.
  setoid_rewrite list_elem_of_filter. split.
  - intros (v & [Hv|[Hv Hvl]] & <- & <-).
    + split; [|specialize (Hu v Hv); lia]. left. exists v. naive_solver.
    + split; [|pose proof (wf_list_positive _ Hwf) as Hpos; rewrite Forall_forall in Hpos;
                specialize (Hpos v Hvl); lia].
      right. split; [done|]. exists v. naive_solver.
  - intros [[(v & [Hv|Hv] & <- & <-)|[Ha (v & Hv & <- & <-)]] Hnz].
    + exists v. naive_solver.
    + by specialize (Hd v Hv).
    + exists v. naive_solver.
Qed.

Lemma powers_perm l k : NoDup (Address <$> l) → l ≡ₚ k → powers l = powers k.
Proof.
  intros Hn Hp. unfold powers. apply list_to_map_proper; [by rewrite <-list_fmap_compose|].
  by rewrite Hp.
Qed.

Lemma powers_shape l l' : shape <$> l = shape <$> l' → powers l = powers l'.
Proof.
  intros E. unfold powers. f_equal. apply (f_equal (fmap (λ s, (s.1.1, s.2)))) in E.
  by rewrite <-!list_fmap_compose in E.
Qed.

Lemma shape_Forall (P : list Z * option PubKey * Z → Prop) l l' :
  shape <$> l = shape <$> l' → Forall (λ v, P (shape v)) l' → Forall (λ v, P (shape v)) l.
Proof. intros E. rewrite <-!(Forall_fmap shape P). by rewrite E. Qed.

Lemma wf_list_update l r ups dels :
  wf_list l → NoDup (Address <$> ups ++ dels) →
  Forall (λ u, (0 < VotingPower u ≤ MaxTotalVotingPower) ∧ is_Some (ValPubKey u)) ups →
  int64_priorities ups →
  NoDup (Address <$> r) → r ≡ₚ ups ++ filter (λ v, Address v ∉ Address <$> ups ++ dels) l →
  zsum VotingPower r ≤ MaxTotalVotingPower → wf_list r.
Proof.
  intros (_ & Hl & _) Hc Hu Hi Hn Hr Hsum. split_and!; [done| |done].
  unfold int64_priorities in Hi. rewrite Forall_forall in Hl, Hu, Hi.
  apply Forall_forall. intros v.
  rewrite Hr, elem_of_app, list_elem_of_filter. intros [Hv|[_ Hv]]; [|by apply Hl].
  specialize (Hu v Hv) as [? ?]. split_and!; [lia|done|by apply Hi].
Qed.

(** The last three steps of the update keep the set and only move priorities. *)
Lemma finish_update vals :
  wf_list (Validators vals) → Validators vals ≠ [] →
  ∃ vals', (vals ← checkAllKeysHaveSameType vals;
            vals ← updateTotalVotingPower vals;
            '(vals, total) ← TotalVotingPower vals;
            vals ← RescalePriorities vals (wrap64 (PriorityWindowSizeFactor * total));
            vals ← shiftByAvgProposerPriority vals;
            Done (set_validators vals (sort_power (Validators vals)), @None change_error))
           = Done (vals', None) ∧
    wf vals' ∧ powers (Validators vals') = powers (Validators vals) ∧
    totalVotingPower vals' = zsum VotingPower (Validators vals') ∧
    shape <$> Validators vals' ≡ₚ shape <$> Validators vals ∧
    same_type_scan (Validators vals) "" = Done (allKeysHaveSameType vals').
Proof.
  intros Hwf Hne. unfold checkAllKeysHaveSameType.
  destruct (same_type_scan_total (Validators vals) "") as [b Eb].
  { destruct Hwf as (_ & Hf & _). eapply Forall_impl; [exact Hf|]. naive_solver. }
  rewrite Eb. cbn [mbind outcome_bind]. set (v1 := {| Validators := Validators vals |}).
  rewrite (updateTotal_spec v1) by done. cbn [mbind outcome_bind].
  rewrite TotalVotingPower_spec by (done || by right). cbn [mbind outcome_bind].
  pose proof (wf_list_total_pos _ Hwf Hne) as Hpos.
  assert (HT : zsum VotingPower (Validators vals) ≤ MaxTotalVotingPower) by (by destruct Hwf as (_&_&?)).
  cbn [set_total Validators v1]. set (T := zsum VotingPower (Validators vals)) in *.
  unfold PriorityWindowSizeFactor. rewrite (wrap64_id (2 * T))
    by (rewrite max_total_value in HT; unfold_ints; lia).
  set (v2 := set_total _ T). destruct (RescalePriorities_spec v2 (2 * T)) as (l1 & -> & Hs1 & Hi1);
    [done|by apply wf_list_priorities|lia|]. cbn [mbind outcome_bind].
  destruct (shift_spec (set_validators v2 l1)) as (l2 & -> & Hs2 & Hi2); [|done|].
  { simpl. intros ->. destruct (Validators vals) eqn:E; done. }
  cbn [mbind outcome_bind]. eexists. split; [done|].
  assert (Hshape : shape <$> Validators vals = shape <$> l2) by (simpl in *; congruence).
  pose proof (wf_list_shape _ _ Hshape Hi2 Hwf) as Hwf2. cbn [set_validators Validators] in *.
  assert (Hp : sort_power l2 ≡ₚ l2) by apply merge_sort_Permutation.
  assert (Hwf3 : wf_list (sort_power l2)).
  { destruct Hwf2 as (Hn & Hf & Hz). split_and!; [by rewrite Hp|by rewrite Hp|by rewrite Hp]. }
  split_and!.
  - split_and!; simpl; [done|apply Sorted_merge_sort, _|right; rewrite Hp; by rewrite <-(shape_zsum _ _ Hshape)|].
    intros ->. apply (one_type_shape (Validators vals)); [by rewrite Hp, Hshape|]. apply scan_true; [|done].
    destruct Hwf as (_ & Hf & _). eapply Forall_impl; [exact Hf|]. naive_solver.
  - simpl. apply map_eq. intros a. apply option_eq. intros p.
    destruct Hwf as (? & _), Hwf3 as (? & _), Hwf2 as (? & _).
    rewrite !powers_lookup by done. setoid_rewrite Hp.
    assert (Hiff : ∀ s, s ∈ shape <$> l2 ↔ s ∈ shape <$> Validators vals) by (by rewrite Hshape).
    setoid_rewrite list_elem_of_fmap in Hiff.
    split; intros (v & Hv & <- & <-); destruct (Hiff (shape v)) as [Hto Hfrom];
      [destruct Hto as (w & E & Hw)|destruct Hfrom as (w & E & Hw)]; eauto;
      injection E as E1 E2 E3; eauto.
  - simpl. rewrite Hp. by rewrite <-(shape_zsum _ _ Hshape).
  - simpl. by rewrite Hp, Hshape.
  - done.
Qed.

(** A change set that passes the emptiness test leaves somebody in the set. *)
Lemma result_nonempty vals ups dels r :
  NoDup (Address <$> Validators vals) → NoDup (Address <$> ups ++ dels) →
  (∀ d, d ∈ dels → Address d ∈ Address <$> Validators vals) →
  (numNewValidators ups vals =? 0) && (zlen (Validators vals) =? zlen dels) = false →
  r ≡ₚ ups ++ filter (λ v, Address v ∉ Address <$> ups ++ dels) (Validators vals) → r ≠ [].
Proof.
  intros Hn Hc Hd Hcheck Hr ->. symmetry in Hr. apply Permutation_nil_r in Hr.
  apply app_nil in Hr as [-> Hf]. simpl in *. unfold numNewValidators, zlen in Hcheck.
  simpl in Hcheck. apply Z.eqb_neq in Hcheck. apply Hcheck. f_equal.
  rewrite <-(length_fmap Address (Validators vals)), <-(length_fmap Address dels).
  apply Permutation_length, NoDup_Permutation; [done|done|]. intros a. split.
  - intros (v & -> & Hv)%list_elem_of_fmap.
    destruct (decide (Address v ∈ Address <$> dels)) as [Hin|Hout]; [done|].
    assert (v ∈ filter (λ v, Address v ∉ Address <$> dels) (Validators vals)) as Hx
      by (by apply list_elem_of_filter). rewrite Hf in Hx. set_solver.
  - intros (d & -> & Hx)%list_elem_of_fmap. by apply Hd.
Qed.

Lemma numNew_shape ups ups' vals :
  shape <$> ups = shape <$> ups' → numNewValidators ups vals = numNewValidators ups' vals.
Proof.
  intros E. unfold numNewValidators, zlen. f_equal.
  assert (Hlen : ∀ us : list Validator,
    length (filter (λ u, HasAddress vals (Address u) = false) us) =
    length (filter (λ s : list Z * option PubKey * Z, HasAddress vals s.1.1 = false) (shape <$> us))).
  { induction us as [|u us IH]; [done|]. rewrite fmap_cons, !filter_cons. simpl.
    destruct (decide _); simpl; by rewrite IH. }
  by rewrite !Hlen, E.
Qed.

Lemma verifyUpdates_Done updates vals removed :
  wf_list (Validators vals) →
  (totalVotingPower vals = 0 ∨ totalVotingPower vals = zsum VotingPower (Validators vals)) →
  ∃ res, verifyUpdates updates vals removed =
    Done (set_total vals (zsum VotingPower (Validators vals)), res).
Proof. intros. unfold verifyUpdates. rewrite TotalVotingPower_spec by done. simpl. eauto. Qed.

Lemma wf_set_total vals : wf vals → wf (set_total vals (zsum VotingPower (Validators vals))).
Proof. intros (? & ? & _ & ?). split_and!; [done..|by right|done]. Qed.

(** The sum of the power changes depends on addresses and powers only. *)
Lemma zsum_delta_shape l ups ups' :
  shape <$> ups' = shape <$> ups →
  zsum (λ u, VotingPower u - old_power l u) ups' = zsum (λ u, VotingPower u - old_power l u) ups.
Proof.
  intros E. assert (Hz : ∀ us : list Validator, zsum (λ u, VotingPower u - old_power l u) us =
    zsum (λ s, s.2 - match (find_address l s.1.1 0).2 with
                     | Some v => VotingPower v | None => 0 end) (shape <$> us)).
  { intros us. by rewrite zsum_fmap. }
  by rewrite !Hz, E.
Qed.

(** The mutating half of the update, once every check has passed. *)
Lemma apply_phase vals ups dels tvp :
  wf_list (Validators vals) → NoDup (Address <$> ups ++ dels) →
  StronglySorted lt_addr ups → StronglySorted lt_addr dels →
  Forall (λ u, (0 < VotingPower u ≤ MaxTotalVotingPower) ∧ is_Some (ValPubKey u)) ups →
  Forall (λ d, VotingPower d = 0) dels →
  (∀ d, d ∈ dels → Address d ∈ Address <$> Validators vals) →
  (numNewValidators ups vals =? 0) && (zlen (Validators vals) =? zlen dels) = false →
  zsum VotingPower (Validators vals) - zsum (old_power (Validators vals)) dels +
    zsum (λ u, VotingPower u - old_power (Validators vals) u) ups ≤ MaxTotalVotingPower →
  let ups' := computeNewPriorities ups vals tvp in
  ∃ r, applyRemovals (applyUpdates vals ups') dels = Done (set_validators vals r) ∧
    wf_list r ∧ r ≠ [] ∧ powers r = apply_powers (ups ++ dels) (Validators vals) ∧
    (∀ v, v ∈ r → shape v ∈ shape <$> ups ++ Validators vals).
Proof.
  intros Hl Hnc Hsu Hsd Hu Hd Hin Hcheck Hle ups'.
  assert (Hshape : shape <$> ups' = shape <$> ups) by apply computeNewPriorities_shape.
  assert (Hshape' : shape <$> ups' ++ dels = shape <$> ups ++ dels) by (by rewrite !fmap_app, Hshape).
  assert (Hnc' : NoDup (Address <$> ups' ++ dels)) by (by rewrite (shape_address _ _ Hshape')).
  assert (Hu' : Forall (λ u, (0 < VotingPower u ≤ MaxTotalVotingPower) ∧ is_Some (ValPubKey u)) ups')
    by exact (shape_Forall (λ s, (0 < s.2 ≤ MaxTotalVotingPower) ∧ is_Some s.1.2) _ _ Hshape Hu).
  pose proof Hl as (Hn & _ & _).
  destruct (apply_changes (Validators vals) ups' dels) as (r & Hr & Hnr & Hperm & Hlen);
    [done|done|by eapply strict_shape; [symmetry|]|done|done|].
  exists r. unfold applyRemovals, applyUpdates. cbn [set_validators Validators].
  destruct (Z.ltb_spec (zlen (merge_updates (sort_address (Validators vals)) ups')) (zlen dels));
    [lia|]. rewrite Hr. split_and!; [done|..].
  - eapply wf_list_update; eauto.
    + apply computeNewPriorities_int64. by apply wf_list_priorities.
    + rewrite (update_sum (Validators vals) r ups' dels) by done. by rewrite (zsum_delta_shape _ _ _ Hshape).
  - eapply (result_nonempty vals ups' dels); eauto. by rewrite (numNew_shape _ _ _ Hshape).
  - rewrite (powers_apply (Validators vals) r ups' dels); [|done|done| |done|done|done].
    + unfold apply_powers. by rewrite (powers_shape _ _ Hshape').
    + eapply Forall_impl; [exact Hu'|]. naive_solver.
  - intros v Hv. rewrite Hperm in Hv. rewrite fmap_app, <-Hshape. apply elem_of_app.
    apply elem_of_app in Hv as [Hv|[_ Hv]%list_elem_of_filter]; [left|right]; by apply list_elem_of_fmap_2.
Qed.

(** The update, with what it keeps. *)
Lemma updateWithChangeSet_post vals changes allowDeletes :
  wf vals → Forall (λ c, is_Some (ValPubKey c)) changes →
  ∃ vals' err, updateWithChangeSet vals changes allowDeletes = Done (vals', err) ∧ wf vals' ∧
    match err with
    | Some _ => Validators vals' = Validators vals
    | None => changes ≠ [] →
        powers (Validators vals') = apply_powers changes (Validators vals) ∧
        totalVotingPower vals' = zsum VotingPower (Validators vals') ∧ Validators vals' ≠ [] ∧
        (∀ v, v ∈ Validators vals' → shape v ∈ shape <$> changes ++ Validators vals) ∧
        ∃ l, shape <$> l ≡ₚ shape <$> Validators vals' ∧ same_type_scan l "" = Done (allKeysHaveSameType vals')
    end.
Proof.
  intros Hwf Hk. pose proof Hwf as (Hl & Hsort & Hcache & _). unfold updateWithChangeSet.
  case_bool_decide as Hempty; [by exists vals, None|].
  destruct (processChanges changes) as [[ups dels]|e] eqn:Hpc; [|by exists vals, (Some e)].
  destruct (_ && _); [by exists vals, (Some ErrDeletesNotAllowed)|].
  destruct (_ && _) eqn:Hcheck in |- *; [by exists vals, (Some ErrEmptyResult)|].
  apply process_scan_spec in Hpc as (Hp & Hstrict & Hsu & Hsd & Hu & Hd);
    [|apply Sorted_merge_sort, _].
  pose proof (strict_NoDup _ Hstrict) as Hnc. pose proof (sort_address_perm changes) as Hpc.
  assert (Hk' : Forall (λ c, is_Some (ValPubKey c)) (sort_address changes)) by (by rewrite Hpc).
  assert (Hnd : NoDup (Address <$> dels)) by (by eapply strict_NoDup, strict_sublist).
  assert (Hnu : NoDup (Address <$> ups)) by (by eapply strict_NoDup, strict_sublist).
  assert (HT : zsum VotingPower (Validators vals) ≤ MaxTotalVotingPower) by (by destruct Hl as (_&_&?)).
  unfold verifyRemovals. destruct (sum_removed dels vals 0) as [removed|e] eqn:Hrem;
    [|by exists vals, (Some e)].
  pose proof (zsum_old_le _ _ Hl Hnd).
  apply sum_removed_spec in Hrem as [Hin ->]; [|done|lia|lia]. rewrite Z.add_0_l.
  destruct (Z.ltb_spec (zlen (Validators vals)) (zlen dels)) as [Hlt|_].
  { exfalso. assert (length dels ≤ length (Validators vals))%nat; [|unfold zlen in Hlt; lia].
    rewrite <-(length_fmap Address dels), <-(length_fmap Address (Validators vals)).
    apply submseteq_length, NoDup_submseteq; [done|].
    intros a (d & -> & ?)%list_elem_of_fmap. by apply Hin. }
  cbn [mbind outcome_bind].
  set (removed := zsum (old_power (Validators vals)) dels) in *.
  assert (Hboth : zsum (old_power (Validators vals)) ups + removed ≤ zsum VotingPower (Validators vals)).
  { unfold removed. rewrite <-zsum_app, <-Hp. by apply zsum_old_le. }
  destruct (verifyUpdates_Done ups vals removed Hl Hcache) as [[tvp|e] Hv]; rewrite Hv;
    cbn [mbind outcome_bind]; [|eexists _, (Some e); split_and!; [done|by apply wf_set_total|done]].
  assert (0 ≤ removed) by (apply zsum_nonneg; intros x _; by apply old_power_bounds).
  apply verifyUpdates_spec in Hv as [_ Hle]; [|done..].
  set (vals1 := set_total vals _).
  assert (Hk2 : Forall (λ u, (0 < VotingPower u ≤ MaxTotalVotingPower) ∧ is_Some (ValPubKey u)) ups).
  { apply Forall_and. split; [done|]. rewrite Hp in Hk'. by apply Forall_app in Hk' as [? _]. }
  destruct (apply_phase vals1 ups dels tvp) as (r & -> & Hwr & Hner & Hpow & Hfrom);
    [done|by rewrite <-Hp|by eapply strict_sublist|by eapply strict_sublist|done..|].
  cbn [mbind outcome_bind].
  destruct (finish_update (set_validators vals1 r)) as (vals' & Hfin & Hwf' & Hpow' & Htot & Hshape & Htype); [done|done|].
  exists vals', None. split_and!; [exact Hfin|done|]. intros _. cbn [set_validators Validators] in *. split_and!.
  - rewrite Hpow', Hpow. unfold apply_powers.
    rewrite (powers_perm changes (ups ++ dels)); [done|by rewrite <-Hpc|by rewrite <-Hp].
  - done.
  - intros E. rewrite E in Hshape. apply Hner. symmetry in Hshape. by apply Permutation_nil_r, fmap_nil_inv in Hshape.
  - intros v Hv. assert (Hs : shape v ∈ shape <$> r) by (rewrite <-Hshape; by apply list_elem_of_fmap_2).
    apply list_elem_of_fmap in Hs as (w & -> & Hw). specialize (Hfrom w Hw). rewrite fmap_app, elem_of_app in Hfrom |- *.
    destruct Hfrom as [Hf|Hf]; [left|by right]. rewrite <-Hpc, Hp, fmap_app, elem_of_app. by left.
  - exists r. by rewrite Hshape.
Qed.

(** C38: applying a change set to a well-formed validator set never panics and
    yields a well-formed set again (distinct addresses, positive powers, total at
    most [MaxTotalVotingPower], sorted by power then address, cached total
    correct); on an error the validators are untouched; on success the
    address-to-power map is exactly the old one with the zero-power changes
    deleted and the others inserted or replaced. *)
Theorem updateWithChangeSet_correct vals changes allowDeletes :
  wf vals → Forall (λ c, is_Some (ValPubKey c)) changes →
  ∃ vals' err, updateWithChangeSet vals changes allowDeletes = Done (vals', err) ∧ wf vals' ∧
    match err with
    | Some _ => Validators vals' = Validators vals
    | None => changes ≠ [] →
        powers (Validators vals') = apply_powers changes (Validators vals) ∧
        totalVotingPower vals' = zsum VotingPower (Validators vals')
    end.
Proof.
  intros Hwf Hk. destruct (updateWithChangeSet_post vals changes allowDeletes Hwf Hk) as (vals' & err & E & Hwf' & He).
  exists vals', err. split_and!; [done|done|]. destruct err; [done|]. intros Hne. by destruct (He Hne) as (? & ? & _).
Qed.

(** ** Choosing the proposer *)

(** [m] is preferred to [w]: higher priority, or the same and a lower address. *)
Definition preferred (m w : Validator) : Prop :=
  ProposerPriority w < ProposerPriority m ∨
  (ProposerPriority w = ProposerPriority m ∧ lt_addr m w).

Lemma preferred_trans a b c : preferred a b → preferred b c → preferred a c.
Proof.
  unfold preferred. intros [|[? ?]] [|[? ?]]; [left; lia..|].
  right. split; [lia|]. by transitivity b.
Qed.

Lemma compare_preferred {T} (val : T → Validator) v w :
  Address (val v) ≠ Address (val w) →
  ∃ r, CompareProposerPriority val (Some v) w = Done r ∧
    ((r = v ∧ preferred (val v) (val w)) ∨ (r = w ∧ preferred (val w) (val v))).
Proof.
  intros Hne. unfold CompareProposerPriority, preferred.
  destruct (Z.ltb_spec (ProposerPriority (val w)) (ProposerPriority (val v))); [by eauto 10|].
  destruct (Z.ltb_spec (ProposerPriority (val v)) (ProposerPriority (val w))); [by eauto 10|].
  destruct (Z.ltb_spec (bytes_compare (Address (val v)) (Address (val w))) 0) as [Hc|Hc].
  - exists v. split; [done|]. left. split; [done|]. right. split; [lia|by apply compare_neg].
  - pose proof (compare_pos (val v) (val w) Hc Hne) as Hlt.
    rewrite <-bytes_compare_eq in Hne.
    destruct (Z.ltb_spec 0 (bytes_compare (Address (val v)) (Address (val w)))); [|lia].
    exists w. split; [done|]. right. split; [done|]. right. split; [lia|done].
Qed.

Lemma most_priority_spec (l : list (nat * Validator)) res :
  NoDup (Address ∘ snd <$> res :: l) →
  ∃ r, most_priority l (Some res) = Done (Some r) ∧ r ∈ res :: l ∧
    ∀ w, w ∈ res :: l → w ≠ r → preferred r.2 w.2.
Proof.
  revert res. induction l as [|iv l IH]; intros res Hn.
  { exists res. split_and!; [done|set_solver|set_solver]. }
  cbn [most_priority].
  assert (Hne : Address res.2 ≠ Address iv.2).
  { rewrite !fmap_cons, NoDup_cons in Hn. destruct Hn as [Hn _]. set_solver. }
  destruct (compare_preferred snd res iv Hne) as (c & -> & Hc). cbn [mbind outcome_bind].
  assert (Hnc : NoDup (Address ∘ snd <$> c :: l)).
  { rewrite !fmap_cons, !NoDup_cons in *. destruct Hc as [[-> _]|[-> _]]; set_solver. }
  destruct (IH c Hnc) as (r & -> & Hr & Hpref). exists r. split_and!; [done| |].
  - destruct Hc as [[-> _]|[-> _]]; set_solver.
  - assert (Hrc : r = c ∨ preferred r.2 c.2).
    { destruct (decide (c = r)); [by left|]. right. apply Hpref; [set_solver|done]. }
    assert (Hstep : ∀ w : nat * Validator, preferred c.2 w.2 → preferred r.2 w.2).
    { intros w Hw. destruct Hrc as [->|]; [done|]. by eapply preferred_trans. }
    intros w [->|[->|Hw]%elem_of_cons]%elem_of_cons Hwr.
    + destruct Hc as [[-> _]|[-> Hp]]; [|by apply Hstep].
      apply Hpref; [set_solver|done].
    + destruct Hc as [[-> Hp]|[-> _]]; [by apply Hstep|].
      apply Hpref; [set_solver|done].
    + apply Hpref; [set_solver|done].
Qed.

Lemma getValWithMostPriority_spec l :
  NoDup (Address <$> l) → l ≠ [] →
  ∃ i m, getValWithMostPriority l = Done (Some (i, m)) ∧ l !! i = Some m ∧
    ∀ j w, l !! j = Some w → j ≠ i → preferred m w.
Proof.
  intros Hn Hne. unfold getValWithMostPriority.
  assert (Himap : ∀ (f : nat → nat), Address ∘ snd <$> imap (λ i v, (f i, v)) l = Address <$> l).
  { intros f. rewrite list_fmap_compose. f_equal. clear. revert f.
    induction l as [|v l IH]; intros f; [done|]. simpl. f_equal. apply (IH (f ∘ S)). }
  destruct (imap pair l) as [|res rest] eqn:E.
  { apply (f_equal length) in E. rewrite length_imap in E. by destruct l. }
  cbn [most_priority CompareProposerPriority mbind outcome_bind].
  destruct (most_priority_spec rest res) as ([i m] & -> & Hr & Hpref).
  { rewrite <-E. replace (Address ∘ snd <$> imap pair l) with (Address <$> l); [done|].
    symmetry. exact (Himap (λ i, i)). }
  rewrite <-E in *.
  assert (Hmem : ∀ j w, (j, w) ∈ imap pair l ↔ l !! j = Some w).
  { intros j w. rewrite list_elem_of_lookup. setoid_rewrite list_lookup_imap.
    split; [|intros Hj; exists j; by rewrite Hj].
    intros (k & Hk). destruct (l !! k) eqn:?; naive_solver. }
  exists i, m. split_and!; [done|by apply Hmem|]. intros j w Hj Hji.
  apply (Hpref (j, w)); [by apply Hmem|congruence].
Qed.

(** ** One rotation *)

Definition added (l : list Validator) : list Validator :=
  (λ v, with_priority (safeAddClip (ProposerPriority v) (VotingPower v)) v) <$> l.

Lemma shape_added l : shape <$> added l = shape <$> l.
Proof. apply shape_with_priority. Qed.

Lemma wf_power_int64 l : wf_list l → Forall (λ v, in_int64 (VotingPower v)) l.
Proof.
  intros Hwf. apply Forall_forall. intros v Hv. pose proof (wf_power_nonneg _ Hwf) as Hnn.
  pose proof (zsum_elem_le VotingPower l v Hnn Hv). specialize (Hnn v Hv).
  destruct Hwf as (_ & _ & Hs). rewrite max_total_value in Hs. unfold_ints. lia.
Qed.

Lemma int64_added l : wf_list l → int64_priorities (added l).
Proof.
  intros Hwf. pose proof (wf_list_priorities _ Hwf) as Hp. pose proof (wf_power_int64 _ Hwf) as Hv.
  apply Forall_fmap. unfold int64_priorities in Hp. rewrite Forall_forall in *.
  intros v Hin. by apply safeAddClip_range; [apply Hp|apply Hv].
Qed.

Lemma total_in_int64 l : wf_list l → in_int64 (zsum VotingPower l).
Proof.
  intros Hwf. pose proof (zsum_nonneg VotingPower l (wf_power_nonneg _ Hwf)).
  destruct Hwf as (_ & _ & Hs). rewrite max_total_value in Hs. unfold_ints. lia.
Qed.

Lemma increment_once vals :
  wf_list (Validators vals) → Validators vals ≠ [] →
  (totalVotingPower vals = 0 ∨ totalVotingPower vals = zsum VotingPower (Validators vals)) →
  let l := added (Validators vals) in
  let T := zsum VotingPower (Validators vals) in
  ∃ i m, l !! i = Some m ∧ (∀ j w, l !! j = Some w → j ≠ i → preferred m w) ∧
    let m' := with_priority (safeSubClip (ProposerPriority m) T) m in
    let l' := <[i := m']> l in
    incrementProposerPriority vals = Done (set_total (set_validators vals l') T, Some m') ∧
    shape <$> l' = shape <$> Validators vals ∧ wf_list l'.
Proof.
  intros Hwf Hne Hc l T. pose proof (shape_added (Validators vals)) as Hsh. fold l in Hsh.
  pose proof (int64_added _ Hwf) as Hi. fold l in Hi.
  pose proof (wf_list_shape _ _ (eq_sym Hsh) Hi Hwf) as Hwl.
  assert (Hnel : l ≠ []) by (intros E; rewrite E in Hsh; by destruct (Validators vals)).
  destruct (getValWithMostPriority_spec l) as (i & m & Hm & Hlk & Hpref); [by destruct Hwl|done|].
  exists i, m. split; [done|]. split; [done|]. intros m' l'.
  assert (Hsh' : shape <$> l' = shape <$> Validators vals).
  { rewrite <-Hsh. unfold l'. rewrite list_fmap_insert. apply list_insert_id.
    rewrite list_lookup_fmap, Hlk. done. }
  assert (Hi' : int64_priorities l').
  { apply Forall_insert; [done|]. apply safeSubClip_range; [|by apply total_in_int64].
    by eapply Forall_lookup in Hi. }
  split_and!; [|done|by eapply wf_list_shape].
  unfold incrementProposerPriority. fold (added (Validators vals)). fold l. rewrite Hm.
  cbn [mbind outcome_bind].
  assert (HT : zsum VotingPower l = T) by (by apply shape_zsum).
  rewrite TotalVotingPower_spec; cbn [set_validators Validators totalVotingPower]; [|done|].
  - rewrite HT. done.
  - rewrite HT. destruct Hc; auto.
Qed.

Lemma increment_times_total n vals p :
  wf_list (Validators vals) → Validators vals ≠ [] →
  (totalVotingPower vals = 0 ∨ totalVotingPower vals = zsum VotingPower (Validators vals)) →
  ∃ vals' p', increment_times n vals p = Done (vals', p') ∧
    wf_list (Validators vals') ∧ shape <$> Validators vals' = shape <$> Validators vals ∧
    (totalVotingPower vals' = 0 ∨ totalVotingPower vals' = zsum VotingPower (Validators vals')) ∧
    allKeysHaveSameType vals' = allKeysHaveSameType vals ∧
    ((n = O ∧ vals' = vals ∧ p' = p) ∨
     totalVotingPower vals' = zsum VotingPower (Validators vals') ∧ ∃ m, p' = Some m ∧ m ∈ Validators vals').
Proof.
  revert vals p. induction n as [|n IH]; intros vals p Hwf Hne Hc; cbn [increment_times].
  { exists vals, p. split_and!; auto. }
  destruct (increment_once vals Hwf Hne Hc) as (i & m & Hlk & _ & -> & Hsh & Hwf').
  cbn [mbind outcome_bind]. set (m' := with_priority _ m) in *. set (l' := <[i := m']> _) in *.
  assert (Hne' : l' ≠ []) by (intros E; rewrite E in Hsh; by destruct (Validators vals)).
  destruct (IH (set_total (set_validators vals l') (zsum VotingPower (Validators vals))) (Some m'))
    as (vals' & p' & -> & Hw & Hs & Hc' & Hb & Hp); [done|done|right; simpl; symmetry; by apply shape_zsum|].
  exists vals', p'. split_and!; [done|done|by rewrite Hs|done|done|]. right.
  destruct Hp as [(_ & -> & ->)|]; [|done]. split; [simpl; symmetry; by apply shape_zsum|]. exists m'. split; [done|]. simpl.
  apply list_elem_of_lookup. exists i. apply list_lookup_insert_eq. by eapply lookup_lt_Some.
Qed.

(** Rescaling and centring, which every call starts with. *)
Lemma normalise_total vals :
  wf vals → Validators vals ≠ [] →
  let T := zsum VotingPower (Validators vals) in
  ∃ l1 l2, TotalVotingPower vals = Done (set_total vals T, T) ∧
    RescalePriorities (set_total vals T) (wrap64 (PriorityWindowSizeFactor * T)) =
      Done (set_validators (set_total vals T) l1) ∧
    shiftByAvgProposerPriority (set_validators (set_total vals T) l1) =
      Done (set_validators (set_total vals T) l2) ∧
    shape <$> l1 = shape <$> Validators vals ∧ wf_list l1 ∧ l1 ≠ [] ∧
    shape <$> l2 = shape <$> Validators vals ∧ wf_list l2 ∧ l2 ≠ [].
Proof.
  intros (Hwf & _ & Hc & _) Hne T. pose proof (wf_list_total_pos _ Hwf Hne) as Hpos. fold T in Hpos.
  assert (HT : T ≤ MaxTotalVotingPower) by (by destruct Hwf as (_ & _ & ?)).
  unfold PriorityWindowSizeFactor.
  rewrite (wrap64_id (2 * T)) by (rewrite max_total_value in HT; unfold_ints; lia).
  destruct (RescalePriorities_spec (set_total vals T) (2 * T)) as (l1 & H1 & Hs1 & Hi1);
    [done|by apply wf_list_priorities|lia|]. cbn [set_total Validators] in Hs1.
  assert (Hne1 : l1 ≠ []) by (intros ->; by destruct (Validators vals)).
  destruct (shift_spec (set_validators (set_total vals T) l1)) as (l2 & H2 & Hs2 & Hi2); [done|done|].
  cbn [set_validators Validators] in Hs2.
  assert (Hne2 : l2 ≠ []) by (intros ->; by destruct l1).
  exists l1, l2. split_and!; [by apply TotalVotingPower_spec|done|done|done| |done|congruence| |done].
  - by eapply wf_list_shape; [symmetry| |].
  - eapply (wf_list_shape (Validators vals)); [congruence|done|done].
Qed.

(** The call, with what it keeps. *)
Lemma IncrementProposerPriority_post vals times :
  wf vals → Validators vals ≠ [] → 0 < times →
  ∃ vals' p, IncrementProposerPriority vals times = Done vals' ∧ wf vals' ∧
    shape <$> Validators vals' = shape <$> Validators vals ∧
    Proposer vals' = Some p ∧ p ∈ Validators vals' ∧
    totalVotingPower vals' = zsum VotingPower (Validators vals') ∧ allKeysHaveSameType vals' = allKeysHaveSameType vals.
Proof.
  intros Hwf Hne Ht. unfold IncrementProposerPriority. rewrite bool_decide_false by done.
  destruct (Z.leb_spec times 0); [lia|].
  destruct (normalise_total vals Hwf Hne) as (l1 & l2 & -> & H1 & H2 & _ & _ & _ & Hs & Hw & Hn).
  cbn [mbind outcome_bind]. rewrite H1. cbn [mbind outcome_bind]. rewrite H2. cbn [mbind outcome_bind].
  destruct (increment_times_total (Z.to_nat times)
    (set_validators (set_total vals (zsum VotingPower (Validators vals))) l2) None)
    as (vals' & p' & -> & Hw' & Hs' & Hc' & Hb & Hp); [done|done|right; simpl; symmetry; by apply shape_zsum|].
  cbn [set_validators Validators] in Hs'. cbn [mbind outcome_bind].
  destruct Hp as [(? & _)|(Ht' & m & -> & Hm)]; [lia|].
  eexists _, m. split; [done|]. simpl. split_and!; [|congruence|done..].
  destruct Hwf as (_ & Hsort & _ & Hflag). split_and!; simpl; [done| |done|].
  - eapply shape_sorted; [|exact Hsort]. congruence.
  - rewrite Hb. intros Hf. apply (one_type_shape (Validators vals)); [|by apply Hflag]. by rewrite Hs', Hs.
Qed.

(** on a well-formed, non-empty set and any positive number of rounds,
    [IncrementProposerPriority] terminates without a panic (the average always
    fits, no division by zero, no two identical validators), changes nothing but
    priorities, keeps the set well formed, and designates a member of the set as
    proposer. *)
Theorem IncrementProposerPriority_total vals times :
  wf vals → Validators vals ≠ [] → 0 < times →
  ∃ vals' p, IncrementProposerPriority vals times = Done vals' ∧ wf vals' ∧
    shape <$> Validators vals' = shape <$> Validators vals ∧
    Proposer vals' = Some p ∧ p ∈ Validators vals'.
Proof.
  intros Hwf Hne Ht. destruct (IncrementProposerPriority_post vals times Hwf Hne Ht) as (vals' & p & ? & ? & ? & ? & ? & _).
  by exists vals', p.
Qed.

(** ** The priority window *)

Lemma foldl_max_spec l m0 hi :
  m0 ≤ hi → Forall (λ v, ProposerPriority v ≤ hi) l →
  let M := foldl (λ m v, if m <? ProposerPriority v then ProposerPriority v else m) m0 l in
  m0 ≤ M ≤ hi ∧ Forall (λ v, ProposerPriority v ≤ M) l.
Proof.
  intros Hm Hl. revert m0 Hm. induction Hl as [|v l Hv Hl IH]; intros m0 Hm; simpl; [done|].
  destruct (Z.ltb_spec m0 (ProposerPriority v)) as [Hlt|Hge].
  - destruct (IH (ProposerPriority v) Hv) as [Hb Hf]. split; [lia|]. constructor; [lia|done].
  - destruct (IH m0 Hm) as [Hb Hf]. split; [lia|]. constructor; [lia|done].
Qed.

Lemma foldl_min_spec l m0 lo :
  lo ≤ m0 → Forall (λ v, lo ≤ ProposerPriority v) l →
  let M := foldl (λ m v, if ProposerPriority v <? m then ProposerPriority v else m) m0 l in
  lo ≤ M ≤ m0 ∧ Forall (λ v, M ≤ ProposerPriority v) l.
Proof.
  intros Hm Hl. revert m0 Hm. induction Hl as [|v l Hv Hl IH]; intros m0 Hm; simpl; [done|].
  destruct (Z.ltb_spec (ProposerPriority v) m0) as [Hlt|Hge].
  - destruct (IH (ProposerPriority v) Hv) as [Hb Hf]. split; [lia|]. constructor; [lia|done].
  - destruct (IH m0 Hm) as [Hb Hf]. split; [lia|]. constructor; [lia|done].
Qed.

(** Without wrap-around the computed difference bounds every pair of priorities. *)
Lemma max_min_diff_spec l lo hi :
  l ≠ [] → in_int64 lo → in_int64 hi → in_int64 (hi - lo) →
  Forall (λ v, lo ≤ ProposerPriority v ≤ hi) l →
  ∃ d, computeMaxMinPriorityDiff l = Done d ∧ 0 ≤ d ≤ hi - lo ∧
    ∀ v w, v ∈ l → w ∈ l → ProposerPriority v - ProposerPriority w ≤ d.
Proof.
  intros Hne Hlo Hhi Hd Hl. unfold computeMaxMinPriorityDiff. rewrite bool_decide_false by done.
  destruct (foldl_max_spec l min_int64 hi) as [HM HMf];
    [unfold_ints; lia|eapply Forall_impl; [exact Hl|]; naive_solver|].
  destruct (foldl_min_spec l max_int64 lo) as [Hm Hmf];
    [unfold_ints; lia|eapply Forall_impl; [exact Hl|]; naive_solver|].
  set (M := foldl _ min_int64 l) in *. set (m := foldl _ max_int64 l) in *.
  rewrite Forall_forall in HMf, Hmf.
  destruct l as [|v0 l]; [done|]. pose proof (HMf v0 ltac:(set_solver)).
  pose proof (Hmf v0 ltac:(set_solver)).
  rewrite wrap64_id by (unfold_ints; lia). destruct (Z.ltb_spec (M - m) 0); [lia|].
  exists (M - m). split_and!; [done|lia|lia|]. intros v w Hv Hw.
  specialize (HMf v Hv). specialize (Hmf w Hw). lia.
Qed.

Lemma quot_spread x y d m :
  0 < m → m < d → x - y ≤ d →
  Z.quot x (Z.quot (d + m - 1) m) - Z.quot y (Z.quot (d + m - 1) m) ≤ m.
Proof.
  intros Hm Hd Hxy. rewrite (Z.quot_div_nonneg (d + m - 1)) by lia.
  pose proof (Z.div_mod (d + m - 1) m ltac:(lia)) as Hdm.
  pose proof (Z.mod_pos_bound (d + m - 1) m Hm) as Hmb.
  set (r := (d + m - 1) `div` m) in *.
  assert (Hr : d ≤ r * m ∧ 0 < r) by nia. clearbody r.
  assert (Hmono : Z.quot x r ≤ Z.quot (y + r * m) r) by (apply Z.quot_le_mono; lia).
  assert (Hshift : Z.quot (y + r * m) r ≤ Z.quot y r + m); [|lia].
  destruct (decide (0 ≤ y)).
  - rewrite !Z.quot_div_nonneg by nia. rewrite Z.mul_comm, Z.div_add by lia. lia.
  - pose proof (Z.quot_rem' y r). pose proof (Z.rem_nonpos y r ltac:(lia) ltac:(lia)). pose proof (Z.rem_bound_abs y r ltac:(lia)).
    destruct (decide (0 ≤ y + r * m)).
    + rewrite (Z.quot_div_nonneg (y + r * m)) by lia.
      apply Z.div_le_upper_bound; [lia|]. nia.
    + replace (y + r * m) with (- (- y - r * m)) by lia. rewrite Z.quot_opp_l by lia.
      rewrite Z.quot_div_nonneg by lia.
      assert (- Z.quot y r - m ≤ (- y - r * m) `div` r); [|lia].
      apply Z.div_le_lower_bound; [lia|]. nia.
Qed.

Lemma RescalePriorities_window vals lo hi m vals' :
  Validators vals ≠ [] → in_int64 lo → in_int64 hi →
  Forall (λ v, lo ≤ ProposerPriority v ≤ hi) (Validators vals) →
  0 < m → hi - lo + m ≤ max_int64 →
  RescalePriorities vals m = Done vals' →
  (∀ v w, v ∈ Validators vals' → w ∈ Validators vals' → ProposerPriority v - ProposerPriority w ≤ m) ∧
  Forall (λ v, Z.min lo 0 ≤ ProposerPriority v ≤ Z.max hi 0) (Validators vals').
Proof.
  intros Hne Hlo Hhi Hf Hm Hsum. unfold RescalePriorities. rewrite bool_decide_false by done.
  destruct (Z.leb_spec m 0); [lia|].
  destruct (Validators vals) as [|v0 l0] eqn:El; [done|]. rewrite <-El in *.
  assert (Hlohi : lo ≤ hi).
  { rewrite El in Hf. apply Forall_cons in Hf as [Hv0 _]. lia. }
  destruct (max_min_diff_spec (Validators vals) lo hi) as (d & -> & Hd & Hall);
    [done|done|done|unfold_ints; lia|done|].
  cbn [mbind outcome_bind]. unfold div64. destruct (Z.eqb_spec m 0); [lia|]. cbn [mbind outcome_bind].
  rewrite (wrap64_id (d + m)) by (unfold_ints; lia). rewrite (wrap64_id (d + m - 1)) by (unfold_ints; lia).
  pose proof (quot_bounds (d + m - 1) m Hm) as Hq.
  rewrite (wrap64_id (Z.quot _ m)) by (unfold_ints; lia).
  rewrite Forall_forall in Hf.
  destruct (Z.ltb_spec m d) as [Hlt|Hge].
  - assert (Hr : 0 < Z.quot (d + m - 1) m).
    { rewrite Z.quot_div_nonneg by lia. apply Z.div_str_pos. lia. }
    rewrite rescale_all_spec by lia. intros [= <-]. cbn [set_validators Validators].
    assert (Hval : ∀ v, v ∈ Validators vals →
      Z.min lo 0 ≤ Z.quot (ProposerPriority v) (Z.quot (d + m - 1) m) ≤ Z.max hi 0).
    { intros v Hv. pose proof (quot_bounds (ProposerPriority v) _ Hr). specialize (Hf v Hv). lia. }
    assert (Hw : ∀ v, v ∈ Validators vals →
      wrap64 (Z.quot (ProposerPriority v) (Z.quot (d + m - 1) m)) =
      Z.quot (ProposerPriority v) (Z.quot (d + m - 1) m)).
    { intros v Hv. apply wrap64_id. specialize (Hval v Hv). unfold_ints. lia. }
    split.
    + intros v w (v' & -> & Hv)%list_elem_of_fmap (w' & -> & Hw')%list_elem_of_fmap. simpl.
      rewrite !Hw by done. apply quot_spread; [done|done|by apply Hall].
    + apply Forall_fmap, Forall_forall. intros v Hv. simpl. rewrite Hw by done. by apply Hval.
  - intros [= <-]. split; [intros v w Hv Hw; specialize (Hall v w Hv Hw); lia|].
    apply Forall_forall. intros v Hv. specialize (Hf v Hv). lia.
Qed.

(** ** Exact rotation: no clipping *)

Definition within (lo hi : Z) (l : list Validator) : Prop :=
  Forall (λ v, lo ≤ ProposerPriority v ≤ hi) l.

Lemma within_weaken lo hi lo' hi' l : lo' ≤ lo → hi ≤ hi' → within lo hi l → within lo' hi' l.
Proof. intros ?? Hw. eapply Forall_impl; [exact Hw|]. simpl. lia. Qed.

Lemma zlen_pos l : l ≠ [] → 0 < zlen l.
Proof. intros. destruct l; [done|unfold zlen; simpl; lia]. Qed.

Lemma zsum_shift (f : Validator → Z) a l :
  zsum (λ v, f v - a) l = zsum f l - a * zlen l.
Proof. unfold zlen. induction l as [|v l IH]; cbn [zsum length]; lia. Qed.

(** Centring a window of width [m] puts every priority in [-m, m] and leaves a
    remainder smaller than the number of validators. *)
Lemma shift_exact vals m vals' :
  Validators vals ≠ [] → int64_priorities (Validators vals) → in_int64 m → in_int64 (- m) →
  (∀ v w, v ∈ Validators vals → w ∈ Validators vals → ProposerPriority v - ProposerPriority w ≤ m) →
  shiftByAvgProposerPriority vals = Done vals' →
  within (- m) m (Validators vals') ∧
  0 ≤ zsum ProposerPriority (Validators vals') < zlen (Validators vals').
Proof.
  intros Hne Hp Hm1 Hm2 Hspread. unfold shiftByAvgProposerPriority. rewrite bool_decide_false by done.
  destruct (computeAvg_spec _ Hne Hp) as [-> Ha]. cbn [mbind outcome_bind]. intros [= <-].
  cbn [set_validators Validators]. set (l := Validators vals) in *. set (a := _ `div` _) in *.
  assert (Hval : ∀ v, v ∈ l → - m ≤ ProposerPriority v - a ≤ m).
  { intros v Hv. pose proof (avg_bounds l (ProposerPriority v - m) (ProposerPriority v + m) Hne) as Hb.
    fold a in Hb. assert (Hb' : Forall (λ w, ProposerPriority v - m ≤ ProposerPriority w
                            ≤ ProposerPriority v + m) l).
    { apply Forall_forall. intros w Hw. pose proof (Hspread v w Hv Hw).
      pose proof (Hspread w v Hw Hv). lia. }
    specialize (Hb Hb'). lia. }
  unfold int64_priorities in Hp. rewrite Forall_forall in Hp.
  assert (Hex : ∀ v, v ∈ l → safeSubClip (ProposerPriority v) a = ProposerPriority v - a).
  { intros v Hv. apply safeSubClip_exact; [by apply Hp|done|]. specialize (Hval v Hv). unfold_ints. lia. }
  split.
  - apply Forall_fmap, Forall_forall. intros v Hv. simpl. rewrite Hex by done. by apply Hval.
  - rewrite zsum_fmap. unfold zlen. rewrite length_fmap. fold (zlen l).
    rewrite (zsum_ext _ (λ v, ProposerPriority v - a)) by (intros v Hv; simpl; by apply Hex).
    rewrite zsum_shift. unfold a. pose proof (zlen_pos l Hne).
    pose proof (Z.div_mod (zsum ProposerPriority l) (zlen l)).
    pose proof (Z.mod_pos_bound (zsum ProposerPriority l) (zlen l)). lia.
Qed.

Lemma max_above_average l m :
  l ≠ [] → (∀ w, w ∈ l → ProposerPriority w ≤ ProposerPriority m) →
  zsum ProposerPriority l ≤ zlen l * ProposerPriority m.
Proof.
  intros _ Hm. unfold zlen. induction l as [|v l IH]; cbn [zsum length]; [lia|].
  pose proof (Hm v ltac:(set_solver)). specialize (IH ltac:(set_solver)). lia.
Qed.

Lemma increment_once_exact vals lo hi :
  wf_list (Validators vals) → Validators vals ≠ [] →
  (totalVotingPower vals = 0 ∨ totalVotingPower vals = zsum VotingPower (Validators vals)) →
  let T := zsum VotingPower (Validators vals) in
  within lo hi (Validators vals) → 0 ≤ zsum ProposerPriority (Validators vals) →
  min_int64 ≤ lo → lo ≤ - T → hi + T ≤ max_int64 →
  ∃ vals' p, incrementProposerPriority vals = Done (vals', p) ∧
    shape <$> Validators vals' = shape <$> Validators vals ∧ wf_list (Validators vals') ∧
    totalVotingPower vals' = T ∧
    within lo (hi + T) (Validators vals') ∧
    zsum ProposerPriority (Validators vals') = zsum ProposerPriority (Validators vals).
Proof.
  intros Hwf Hne Hc T Hin Hsum Hmin HloT Hhi. set (l0 := Validators vals) in *.
  destruct (increment_once vals Hwf Hne Hc) as (i & m & Hlk & Hpref & Hinc & Hsh & Hwf').
  fold l0 in Hlk, Hpref, Hinc, Hsh, Hwf'. fold T in Hinc, Hsh, Hwf'.
  set (m' := with_priority _ m) in *.
  assert (Hpos : 0 < T) by (by apply wf_list_total_pos).
  assert (HT : T ≤ 1152921504606846975) by (by destruct Hwf as (_ & _ & ?)).
  assert (Hadd : ∀ v, v ∈ l0 → safeAddClip (ProposerPriority v) (VotingPower v) =
                   ProposerPriority v + VotingPower v ∧ 0 ≤ VotingPower v ≤ T ∧ lo ≤ ProposerPriority v ≤ hi).
  { intros v Hv. pose proof (zsum_elem_le VotingPower l0 v (wf_power_nonneg _ Hwf) Hv).
    pose proof (wf_power_nonneg _ Hwf v Hv). unfold within in Hin. rewrite Forall_forall in Hin.
    specialize (Hin v Hv). split; [|unfold T; lia]. apply safeAddClip_exact; unfold T in *; unfold_ints; lia. }
  assert (Hsa : zsum ProposerPriority (added l0) = zsum ProposerPriority l0 + T).
  { unfold added. rewrite zsum_fmap. unfold T. rewrite <-zsum_add. apply zsum_ext.
    intros v Hv. simpl. by apply Hadd. }
  assert (Hel : ∀ w, w ∈ added l0 → lo ≤ ProposerPriority w ≤ hi + T).
  { intros w (v & -> & Hv)%list_elem_of_fmap. simpl. destruct (Hadd v Hv) as (-> & ? & ?). lia. }
  assert (Hmpos : 0 < ProposerPriority m).
  { assert (Hnz : added l0 ≠ []) by (intros E; by rewrite E in Hlk).
    pose proof (max_above_average (added l0) m Hnz) as Hav.
    assert (∀ w, w ∈ added l0 → ProposerPriority w ≤ ProposerPriority m) as Hmax.
    { intros w [j Hj]%list_elem_of_lookup. destruct (decide (j = i)) as [->|Hji]; [naive_solver lia|].
      destruct (Hpref j w Hj Hji) as [|[]]; lia. }
    specialize (Hav Hmax). pose proof (zlen_pos _ Hnz). nia. }
  assert (Hmin' : m ∈ added l0) by (apply list_elem_of_lookup; eauto).
  pose proof (Hel m Hmin') as Hmb.
  assert (Hm' : ProposerPriority m' = ProposerPriority m - T).
  { apply safeSubClip_exact; unfold_ints; lia. }
  eexists _, (Some m'). split; [exact Hinc|]. simpl. split_and!; [done|done|done| |].
  - apply Forall_insert; [apply Forall_forall; intros w Hw; by apply Hel|]. rewrite Hm'. lia.
  - rewrite (zsum_insert _ _ _ m) by done. rewrite Hm', Hsa. lia.
Qed.

Lemma increment_times_exact n vals p lo hi :
  wf_list (Validators vals) → Validators vals ≠ [] →
  (totalVotingPower vals = 0 ∨ totalVotingPower vals = zsum VotingPower (Validators vals)) →
  let T := zsum VotingPower (Validators vals) in
  within lo hi (Validators vals) → 0 ≤ zsum ProposerPriority (Validators vals) →
  min_int64 ≤ lo → lo ≤ - T → hi + Z.of_nat n * T ≤ max_int64 →
  ∃ vals' p', increment_times n vals p = Done (vals', p') ∧
    within lo (hi + Z.of_nat n * T) (Validators vals') ∧
    zlen (Validators vals') = zlen (Validators vals) ∧
    zsum ProposerPriority (Validators vals') = zsum ProposerPriority (Validators vals).
Proof.
  revert vals p hi. induction n as [|n IH]; intros vals p hi Hwf Hne Hc T Hin Hs Hmin Hlo Hhi;
    cbn [increment_times].
  { exists vals, p. split_and!; [done|by eapply within_weaken; [..|exact Hin]; lia|done|done]. }
  assert (0 < T) by (by apply wf_list_total_pos).
  destruct (increment_once_exact vals lo hi) as (v1 & p1 & -> & Hsh & Hw1 & Ht1 & Hin1 & Hs1);
    [done|done|done|done|done|done|done|fold T; nia|]. cbn [mbind outcome_bind]. fold T in Ht1, Hin1.
  pose proof (shape_zsum _ _ Hsh) as HT1. fold T in HT1.
  destruct (IH v1 p1 (hi + T)) as (v2 & p2 & -> & Hin2 & Hl2 & Hs2); rewrite ?HT1;
    [done| |right; congruence|done|lia|done|done|lia|].
  { intros E. rewrite E in Hsh. by destruct (Validators vals). }
  rewrite HT1 in Hin2. exists v2, p2. split_and!; [done| | |congruence].
  - eapply within_weaken; [..|exact Hin2]; lia.
  - rewrite Hl2. unfold zlen. by rewrite (shape_length _ _ Hsh).
Qed.

(** the claim left to the reader at [MaxTotalVotingPower]: as long as the
    priorities a call starts from lie in [-2M, 4M] for the maximal total power M,
    a call of at most six rounds neither overflows the rescaling nor clips any
    priority; afterwards every priority lies in [-2T, (2+times)T] for the total
    power T, and the priorities still add up to less than one unit per validator,
    so that each round moved exactly T from the proposer to the others.  A call
    for one or two rounds leaves priorities that satisfy the premise again. *)
Theorem IncrementProposerPriority_exact vals times :
  wf vals → Validators vals ≠ [] → 0 < times ≤ 6 →
  within (-2 * MaxTotalVotingPower) (4 * MaxTotalVotingPower) (Validators vals) →
  let T := zsum VotingPower (Validators vals) in
  ∃ vals', IncrementProposerPriority vals times = Done vals' ∧
    within (-2 * T) ((2 + times) * T) (Validators vals') ∧
    0 ≤ zsum ProposerPriority (Validators vals') < zlen (Validators vals') ∧
    (times ≤ 2 → within (-2 * MaxTotalVotingPower) (4 * MaxTotalVotingPower) (Validators vals')).
Proof.
  intros Hwf Hne Ht Hin T. unfold IncrementProposerPriority. rewrite bool_decide_false by done.
  destruct (Z.leb_spec times 0); [lia|].
  destruct (normalise_total vals Hwf Hne) as
    (l1 & l2 & -> & H1 & H2 & Hsh1 & Hw1 & Hn1 & Hsh2 & Hw2 & Hn2).
  cbn [mbind outcome_bind]. fold T in H1, H2 |- *. rewrite H1. cbn [mbind outcome_bind]. rewrite H2.
  cbn [mbind outcome_bind]. pose proof Hwf as (Hwl & _ & _).
  assert (Hpos : 0 < T) by (by apply wf_list_total_pos).
  assert (HT : T ≤ 1152921504606846975) by (by destruct Hwl as (_ & _ & ?)).
  rewrite max_total_value in *.
  assert (Hwrap : wrap64 (PriorityWindowSizeFactor * T) = 2 * T)
    by (apply wrap64_id; unfold PriorityWindowSizeFactor; unfold_ints; lia).
  rewrite Hwrap in H1.
  apply (RescalePriorities_window _ (-2 * 1152921504606846975) (4 * 1152921504606846975)) in H1
    as [Hspread _]; [|done|unfold_ints; lia|unfold_ints; lia|done|lia|unfold_ints; lia].
  apply (shift_exact _ (2 * T)) in H2 as [Hin2 Hs2];
    [|done|by apply wf_list_priorities|unfold_ints; lia|unfold_ints; lia|done].
  cbn [set_validators Validators] in Hin2, Hs2. pose proof (shape_zsum _ _ Hsh2) as HT2. fold T in HT2.
  destruct (increment_times_exact (Z.to_nat times) (set_validators (set_total vals T) l2) None
    (-2 * T) (2 * T)) as (v & p & -> & Hin3 & Hl3 & Hs3); cbn [set_validators Validators];
    rewrite ?HT2; [done|done|right; done|by eapply within_weaken; [..|exact Hin2]; lia|lia|unfold_ints; lia|lia|rewrite Z2Nat.id by lia; unfold_ints; nia|].
  cbn [set_validators Validators] in Hin3, Hl3, Hs3. rewrite HT2, Z2Nat.id in Hin3 by lia.
  eexists. split; [done|]. cbn [Validators]. split_and!; [..|intros; eapply within_weaken;
    [..|exact Hin3]; nia]; [eapply within_weaken; [..|exact Hin3]; lia|lia|lia].
Qed.

End validators.

(** ** Multiplication with an overflow flag *)

Lemma safeMul_spec a b :
  in_int64 a → in_int64 b → a ≠ min_int64 → b ≠ min_int64 →
  safeMul a b = if bool_decide (Z.abs a * Z.abs b ≤ max_int64) then (a * b, false) else (0, true).
Proof.
  intros Ha Hb Hna Hnb. unfold safeMul.
  destruct (Z.eqb_spec a 0) as [->|Hza]; [done|]. destruct (Z.eqb_spec b 0) as [->|Hzb]; simpl.
  { rewrite bool_decide_true; [f_equal; lia|]. unfold_ints. lia. }
  assert (Hab : (if a <? 0 then wrap64 (- a) else a) = Z.abs a).
  { destruct (Z.ltb_spec a 0); [rewrite wrap64_id|]; unfold_ints; lia. }
  assert (Hbb : (if b <? 0 then wrap64 (- b) else b) = Z.abs b).
  { destruct (Z.ltb_spec b 0); [rewrite wrap64_id|]; unfold_ints; lia. }
  rewrite Hab, Hbb, Z.quot_div_nonneg by (unfold_ints; lia).
  pose proof (Z.div_mod max_int64 (Z.abs b)). pose proof (Z.mod_pos_bound max_int64 (Z.abs b)).
  destruct (Z.ltb_spec (max_int64 `div` Z.abs b) (Z.abs a)); case_bool_decide; try done; try nia.
  rewrite wrap64_id; [done|]. unfold_ints. nia.
Qed.

(** for factors other than the least [int64], [safeMul] reports an overflow
    exactly when the magnitude of the product exceeds the greatest [int64], and
    otherwise returns the exact product. *)
Theorem safeMul_correct a b :
  in_int64 a → in_int64 b → a ≠ min_int64 → b ≠ min_int64 →
  safeMul a b = if bool_decide (Z.abs a * Z.abs b ≤ max_int64) then (a * b, false) else (0, true).
Proof. apply safeMul_spec. Qed.

Lemma safeMul_correct_witness :
  safeMul (-3) 5 = (-15, false) ∧
  safeMul max_int64 2 =
    (if bool_decide (Z.abs max_int64 * Z.abs 2 ≤ max_int64) then (max_int64 * 2, false) else (0, true)).
Proof.
  split; [reflexivity|].
  exact (safeMul_correct max_int64 2 ltac:(by_decide) ltac:(by_decide) ltac:(by_decide) ltac:(by_decide)).
Defined.

(** the least [int64] has no positive counterpart, so the magnitude test of
    [safeMul] is blind to it: multiplying it by any factor between 2 and the
    greatest [int64] is reported as free of overflow, although the product does
    not fit. *)
Theorem safeMul_misses_min_int64 b :
  2 ≤ b ≤ max_int64 →
  (safeMul min_int64 b).2 = false ∧ ¬ in_int64 (min_int64 * b).
Proof.
  intros Hb. unfold safeMul. destruct (Z.eqb_spec b 0); [lia|].
  destruct (Z.ltb_spec b 0); [lia|]. change (min_int64 =? 0) with false. cbn [orb].
  change (min_int64 <? 0) with true. change (wrap64 (- min_int64)) with min_int64.
  rewrite Z.quot_div_nonneg by (unfold_ints; lia).
  assert (0 ≤ max_int64 `div` b) by (apply Z.div_pos; unfold_ints; lia).
  destruct (Z.ltb_spec (max_int64 `div` b) min_int64); [unfold_ints; lia|].
  split; [done|]. unfold_ints. lia.
Qed.

Lemma safeMul_misses_min_int64_witness :
  safeMul min_int64 2 = (0, false) ∧
  ((safeMul min_int64 2).2 = false ∧ ¬ in_int64 (min_int64 * 2)).
Proof. split; [reflexivity|]. exact (safeMul_misses_min_int64 2 ltac:(by_decide)). Defined.

(** ** Concrete sets *)

Section examples.
Local Existing Instance toy_keys.

Definition ex_val (k p prio : Z) : Validator :=
  {| Address := toy_address k; ValPubKey := Some k; VotingPower := p; ProposerPriority := prio |}.

(** Three validators with powers 10, 5 and 1. *)
Definition ex_set : ValidatorSet :=
  {| Validators := [ex_val 1 10 0; ex_val 2 5 0; ex_val 3 1 0]; Proposer := None;
     totalVotingPower := 16; allKeysHaveSameType := true |}.

(** Remove 3, change 2 to power 20, add 4 with power 7. *)
Definition ex_changes : list Validator := [ex_val 4 7 0; ex_val 3 0 0; ex_val 2 20 0].

Lemma updateWithChangeSet_correct_witness :
  (∃ vals', UpdateWithChangeSet ex_set ex_changes = Done (vals', None) ∧
     Address <$> Validators vals' = toy_address <$> [2; 1; 4]) ∧
  ∃ vals' err, updateWithChangeSet ex_set ex_changes true = Done (vals', err) ∧ wf vals' ∧
    match err with
    | Some _ => Validators vals' = Validators ex_set
    | None => ex_changes ≠ [] →
        powers (Validators vals') = apply_powers ex_changes (Validators ex_set) ∧
        totalVotingPower vals' = zsum VotingPower (Validators vals')
    end.
Proof.
  split; [eexists; split; vm_compute; reflexivity|].
  exact (updateWithChangeSet_correct ex_set ex_changes true ltac:(by_decide) ltac:(by_decide)).
Defined.

Lemma IncrementProposerPriority_total_witness :
  ∃ vals' p, IncrementProposerPriority ex_set 3 = Done vals' ∧ wf vals' ∧
    shape <$> Validators vals' = shape <$> Validators ex_set ∧
    Proposer vals' = Some p ∧ p ∈ Validators vals'.
Proof.
  exact (IncrementProposerPriority_total ex_set 3 ltac:(by_decide) ltac:(discriminate) ltac:(lia)).
Defined.

Lemma IncrementProposerPriority_exact_witness :
  (∃ vals', IncrementProposerPriority ex_set 2 = Done vals' ∧
     ProposerPriority <$> Validators vals' = [4; -6; 2]) ∧
  ∃ vals', IncrementProposerPriority ex_set 2 = Done vals' ∧
    within (-2 * 16) ((2 + 2) * 16) (Validators vals') ∧
    0 ≤ zsum ProposerPriority (Validators vals') < zlen (Validators vals') ∧
    (2 ≤ 2 → within (-2 * MaxTotalVotingPower) (4 * MaxTotalVotingPower) (Validators vals')).
Proof.
  split; [eexists; split; vm_compute; reflexivity|].
  exact (IncrementProposerPriority_exact ex_set 2 ltac:(by_decide) ltac:(discriminate)
    ltac:(lia) ltac:(by_decide)).
Defined.
End examples.

End ValidatorSet.
