(* ===== verification/Votes.v ===== *)
(** * Votes: [types/part_set.go] (headers), [types/block.go] (block ids),
    [types/vote.go], [types/signed_msg_type.go] and [types/canonical.go]

    Block identifiers, votes, their basic validation and the verification of
    their signatures.  A [time.Time] is a [Z], the nanoseconds since
    Go's zero time.  The protobuf
    encoding of the canonical messages is generated code and enters through the
    class [SignCodec]; the encoding of a part-set header, which [BlockID.Key]
    relies on to tell blocks apart, is translated. *)

From S2P Require Import Prelude Crypto.

Local Open Scope Z_scope.

Module Votes.

(** ** Constants *)

Definition UnknownType : Z := 0.
Definition PrevoteType : Z := 1.
Definition PrecommitType : Z := 2.
Definition ProposalType : Z := 32.

Definition tmhash_Size : Z := 32.
Definition AddressSize : Z := 20.
Definition MaxSignatureSize : Z := 96.

Definition IsVoteTypeValid (t : Z) : bool := (t =? PrevoteType) || (t =? PrecommitType).

(** ** Part-set headers and block ids *)

Record PartSetHeader := mkPSH { psh_Total : Z; psh_Hash : list Z }.

Record BlockID := mkBlockID { Hash : list Z; PSH : PartSetHeader }.

#[export] Instance PartSetHeader_eq_dec : EqDecision PartSetHeader.
Proof. solve_decision. Defined.
#[export] Instance BlockID_eq_dec : EqDecision BlockID.
Proof. solve_decision. Defined.

Definition psh_IsZero (p : PartSetHeader) : bool :=
  (psh_Total p =? 0) && (zlen (psh_Hash p) =? 0).

Definition psh_Equals (p other : PartSetHeader) : bool :=
  (psh_Total p =? psh_Total other) && bytes_equal (psh_Hash p) (psh_Hash other).

(** [ValidateHash] succeeds on empty hashes and hashes of the right size. *)
Definition ValidateHash (h : list Z) : bool :=
  negb ((0 <? zlen h) && negb (zlen h =? tmhash_Size)).

Definition psh_ValidateBasic (p : PartSetHeader) : bool := ValidateHash (psh_Hash p).

Definition Equals (b other : BlockID) : bool :=
  bytes_equal (Hash b) (Hash other) && psh_Equals (PSH b) (PSH other).

(** Base-128 varint of an unsigned 64-bit value; ten bytes are enough. *)
Fixpoint encodeVarint (fuel : nat) (v : Z) : list Z :=
  match fuel with
  | O => []
  | S fuel =>
      if 128 <=? v then Z.lor (Z.land v 127) 128 :: encodeVarint fuel (Z.shiftr v 7)
      else [v]
  end.

(** [cmtproto.PartSetHeader.Marshal]: field 1 varint, field 2 bytes. *)
Definition psh_Marshal (p : PartSetHeader) : list Z :=
  (if psh_Total p =? 0 then [] else 8 :: encodeVarint 10 (psh_Total p)) ++
  (if 0 <? zlen (psh_Hash p)
   then 18 :: encodeVarint 10 (zlen (psh_Hash p)) ++ psh_Hash p else []).

Definition Key (b : BlockID) : list Z := Hash b ++ psh_Marshal (PSH b).

Definition block_ValidateBasic (b : BlockID) : bool :=
  ValidateHash (Hash b) && psh_ValidateBasic (PSH b).

Definition IsNil (b : BlockID) : bool := (zlen (Hash b) =? 0) && psh_IsZero (PSH b).

Definition IsComplete (b : BlockID) : bool :=
  (zlen (Hash b) =? tmhash_Size) && (0 <? psh_Total (PSH b)) &&
  (zlen (psh_Hash (PSH b)) =? tmhash_Size).

Definition nil_BlockID : BlockID := {| Hash := []; PSH := {| psh_Total := 0; psh_Hash := [] |} |}.

(** ** Votes *)

Record Vote := mkVote {
  Type_ : Z;
  Height : Z;
  Round : Z;
  vBlockID : BlockID;
  Timestamp : Z;
  ValidatorAddress : list Z;
  ValidatorIndex : Z;
  Signature : list Z;
  Extension : list Z;
  ExtensionSignature : list Z
}.

#[export] Instance Vote_eq_dec : EqDecision Vote.
Proof. solve_decision. Defined.

Inductive vote_error :=
| ErrVoteUnexpectedStep
| ErrVoteInvalidValidatorIndex
| ErrVoteInvalidValidatorAddress
| ErrVoteInvalidSignature
| ErrVoteNoSignature
| ErrVoteNonDeterministicSignature
| ErrVoteNil
| ErrVoteExtensionAbsent
| ErrUnexpectedExtension
| ErrVoteConflictingVotes (voteA voteB : Vote)
| ErrBasic (why : string).

#[export] Instance vote_error_eq_dec : EqDecision vote_error.
Proof. solve_decision. Defined.

(** ** Canonical forms, the messages that are signed *)

Record CanonicalVote := mkCanonicalVote {
  cv_Type : Z; cv_Height : Z; cv_Round : Z; cv_BlockID : option BlockID;
  cv_Timestamp : Z; cv_ChainID : string
}.

Record CanonicalVoteExtension := mkCanonicalExt {
  ce_Extension : list Z; ce_Height : Z; ce_Round : Z; ce_ChainID : string
}.

(** [protoio.MarshalDelimited] on the two canonical messages. *)
Class SignCodec := {
  encode_vote : CanonicalVote → list Z;
  encode_ext : CanonicalVoteExtension → list Z
}.

(** [CanonicalizeBlockID] panics on a block id that fails basic validation. *)
Definition CanonicalizeBlockID (bid : BlockID) : outcome (option BlockID) :=
  if block_ValidateBasic bid then Done (if IsNil bid then None else Some bid)
  else Panic "invalid BlockID".

Definition CanonicalizeVote (chainID : string) (vote : Vote) : outcome CanonicalVote :=
  cbid ← CanonicalizeBlockID (vBlockID vote);
  Done {| cv_Type := Type_ vote; cv_Height := Height vote; cv_Round := Round vote;
          cv_BlockID := cbid; cv_Timestamp := Timestamp vote; cv_ChainID := chainID |}.

Definition CanonicalizeVoteExtension (chainID : string) (vote : Vote) : CanonicalVoteExtension :=
  {| ce_Extension := Extension vote; ce_Height := Height vote; ce_Round := Round vote;
     ce_ChainID := chainID |}.

Section verify.
Context `{PubKeyOps, SignCodec}.

Definition VoteSignBytes (chainID : string) (vote : Vote) : outcome (list Z) :=
  pb ← CanonicalizeVote chainID vote; Done (encode_vote pb).

Definition VoteExtensionSignBytes (chainID : string) (vote : Vote) : list Z :=
  encode_ext (CanonicalizeVoteExtension chainID vote).

(** The checks below return the error, if any; calling a method of a nil key
    panics. *)
Definition verifyAndReturnProto (vote : Vote) (chainID : string) (pubKey : option PubKey)
    : outcome (option vote_error) :=
  match pubKey with
  | None => Panic "nil pointer dereference"
  | Some pk =>
      if negb (bytes_equal (pk_Address pk) (ValidatorAddress vote))
      then Done (Some ErrVoteInvalidValidatorAddress)
      else
        bz ← VoteSignBytes chainID vote;
        if VerifySignature pk bz (Signature vote) then Done None
        else Done (Some ErrVoteInvalidSignature)
  end.

Definition Verify (vote : Vote) (chainID : string) (pubKey : option PubKey)
    : outcome (option vote_error) := verifyAndReturnProto vote chainID pubKey.

Definition VerifyExtension (vote : Vote) (chainID : string) (pubKey : option PubKey)
    : outcome (option vote_error) :=
  if negb (Type_ vote =? PrecommitType) || IsNil (vBlockID vote) then Done None
  else if zlen (ExtensionSignature vote) =? 0 then Done (Some ErrVoteNoSignature)
  else
    match pubKey with
    | None => Panic "nil pointer dereference"
    | Some pk =>
        if VerifySignature pk (VoteExtensionSignBytes chainID vote) (ExtensionSignature vote)
        then Done None else Done (Some ErrVoteInvalidSignature)
    end.

Definition VerifyVoteAndExtension (vote : Vote) (chainID : string) (pubKey : option PubKey)
    : outcome (option vote_error) :=
  err ← verifyAndReturnProto vote chainID pubKey;
  match err with
  | Some e => Done (Some e)
  | None =>
      if (Type_ vote =? PrecommitType) && negb (IsNil (vBlockID vote)) then
        if zlen (ExtensionSignature vote) =? 0 then Done (Some ErrVoteNoSignature)
        else
          match pubKey with
          | None => Panic "nil pointer dereference"
          | Some pk =>
              if VerifySignature pk (VoteExtensionSignBytes chainID vote) (ExtensionSignature vote)
              then Done None else Done (Some ErrVoteInvalidSignature)
          end
      else Done None
  end.

End verify.

Definition vote_ValidateBasic (vote : Vote) : option vote_error :=
  let isNil := IsNil (vBlockID vote) in
  if negb (IsVoteTypeValid (Type_ vote)) then Some (ErrBasic "invalid Type")
  else if Height vote <=? 0 then Some (ErrBasic "negative or zero Height")
  else if Round vote <? 0 then Some (ErrBasic "negative Round")
  else if negb (block_ValidateBasic (vBlockID vote)) then Some (ErrBasic "wrong BlockID")
  else if negb isNil && negb (IsComplete (vBlockID vote))
  then Some (ErrBasic "blockID must be either empty or complete")
  else if negb (zlen (ValidatorAddress vote) =? AddressSize)
  then Some (ErrBasic "wrong ValidatorAddress size")
  else if ValidatorIndex vote <? 0 then Some (ErrBasic "negative ValidatorIndex")
  else if zlen (Signature vote) =? 0 then Some (ErrBasic "signature is missing")
  else if MaxSignatureSize <? zlen (Signature vote) then Some (ErrBasic "signature is too big")
  else if (negb (Type_ vote =? PrecommitType) || isNil) && (0 <? zlen (Extension vote))
  then Some (ErrBasic "unexpected vote extension")
  else if (negb (Type_ vote =? PrecommitType) || isNil) && (0 <? zlen (ExtensionSignature vote))
  then Some (ErrBasic "unexpected vote extension signature")
  else if (Type_ vote =? PrecommitType) && negb isNil then
    if MaxSignatureSize <? zlen (ExtensionSignature vote)
    then Some (ErrBasic "vote extension signature is too big")
    else if (zlen (ExtensionSignature vote) =? 0) && negb (zlen (Extension vote) =? 0)
    then Some ErrVoteNoSignature
    else None
  else None.

Definition EnsureExtension (vote : Vote) : option vote_error :=
  if negb (Type_ vote =? PrecommitType) then None
  else if IsNil (vBlockID vote) then None
  else if 0 <? zlen (ExtensionSignature vote) then None
  else Some ErrVoteExtensionAbsent.

(** ** Equality and keys *)

Lemma bytes_equal_spec a b : bytes_equal a b = true ↔ a = b.
Proof. unfold bytes_equal. apply bool_decide_eq_true. Qed.

Lemma Equals_spec a b : Equals a b = true ↔ a = b.
Proof.
  unfold Equals, psh_Equals. rewrite !andb_true_iff, !bytes_equal_spec, Z.eqb_eq.
  destruct a as [h [t p]], b as [h' [t' p']]; simpl. naive_solver.
Qed.

(** ** Keys tell the block ids of votes apart *)

Lemma encodeVarint_inj fuel x y :
  0 ≤ x < 128 ^ Z.of_nat fuel → 0 ≤ y < 128 ^ Z.of_nat fuel →
  encodeVarint fuel x = encodeVarint fuel y → x = y.
Proof.
  revert x y. induction fuel as [|fuel IH]; intros x y Hx Hy E.
  { simpl in *. lia. }
  rewrite Nat2Z.inj_succ, Z.pow_succ_r in Hx, Hy by lia.
  assert (Hlow : ∀ z, 0 ≤ z → Z.lor (Z.land z 127) 128 = z `mod` 128 + 128).
  { intros z Hz. change 127 with (Z.ones 7). rewrite Z.land_ones by lia.
    change (2 ^ 7) with 128. rewrite Z.add_nocarry_lxor, Z.lxor_lor; try done.
    all: apply Z.bits_inj'; intros n Hn; rewrite Z.land_spec, Z.bits_0;
      change 128 with (2 ^ 7); rewrite Z.pow2_bits_eqb by lia;
      destruct (Z.eqb_spec 7 n) as [<-|]; [|by rewrite andb_false_r];
      by rewrite Z.mod_pow2_bits_high by lia. }
  simpl in E.
  destruct (Z.leb_spec 128 x), (Z.leb_spec 128 y).
  - injection E as E1 E2. rewrite !Hlow in E1 by lia. rewrite !Z.shiftr_div_pow2 in E2 by lia.
    change (2 ^ 7) with 128 in E2.
    pose proof (Z.div_mod x 128 ltac:(lia)). pose proof (Z.div_mod y 128 ltac:(lia)).
    apply IH in E2; [lia|..]; split; try (apply Z.div_pos; lia); apply Z.div_lt_upper_bound; lia.
  - injection E as E1 _. rewrite Hlow in E1 by lia. pose proof (Z.mod_pos_bound x 128). lia.
  - injection E as E1 _. rewrite Hlow in E1 by lia. pose proof (Z.mod_pos_bound y 128). lia.
  - by injection E.
Qed.

(** The block ids [Vote.ValidateBasic] lets through. *)
Definition votable (b : BlockID) : Prop :=
  IsNil b = true ∨ IsComplete b = true ∧ psh_Total (PSH b) < 2 ^ 32.

Lemma nil_key b : IsNil b = true → b = nil_BlockID.
Proof.
  destruct b as [h [t p]]. unfold IsNil, psh_IsZero, nil_BlockID, zlen. simpl. intros Hb. zbool.
  destruct h; [|simpl in *; lia]. destruct p; [|simpl in *; lia]. by subst.
Qed.

Lemma Key_inj a b : votable a → votable b → Key a = Key b → a = b.
Proof.
  assert (Hne : ∀ c, IsComplete c = true → Key c ≠ []).
  { intros [h [t p]]. unfold IsComplete, Key. simpl. intros Hc. zbool. destruct h; [|done].
    unfold zlen, tmhash_Size in *. simpl in *. lia. }
  intros [Ha|[Ha Hta]] [Hb|[Hb Htb]] E.
  - by rewrite (nil_key a Ha), (nil_key b Hb).
  - rewrite (nil_key a Ha) in E. by destruct (Hne b Hb).
  - rewrite (nil_key b Hb) in E. by destruct (Hne a Ha).
  - destruct a as [h [t p]], b as [h' [t' p']]. unfold IsComplete, Key, psh_Marshal, tmhash_Size in *.
    cbn [Hash PSH psh_Total psh_Hash] in *. zbool.
    destruct (Z.eqb_spec t 0); [lia|]. destruct (Z.eqb_spec t' 0); [lia|].
    repeat match goal with H : zlen _ = 32 |- _ => rewrite H in E end.
    change (0 <? 32) with true in E. change (encodeVarint 10 32) with [32] in E. cbn [app] in E.
    unfold zlen in *. apply app_inj_1 in E as [-> E]; [|lia].
    assert (E1 : encodeVarint 10 t = encodeVarint 10 t' ∧ p = p').
    { revert E. generalize (encodeVarint 10 t) (encodeVarint 10 t'). intros u u' E.
      injection E as E. apply app_inj_2 in E as [-> E2]; [|simpl; lia]. by injection E2. }
    destruct E1 as [E1 ->].
    change (2 ^ 32) with 4294967296 in *.
    assert (128 ^ Z.of_nat 10 = 1180591620717411303424) by reflexivity.
    apply encodeVarint_inj in E1; [by subst|lia..].
Qed.

(** the key under which the tally files a vote determines its block id, for
    all block ids that pass [Vote.ValidateBasic]: votes for different blocks are
    never counted together. *)
Theorem Key_injective a b : votable a → votable b → Key a = Key b → a = b.
Proof. apply Key_inj. Qed.

(** A concrete codec, for evaluating the definitions on examples. *)
Definition toy_codec : SignCodec := {|
  encode_vote c := [cv_Type c; cv_Height c; cv_Round c; cv_Timestamp c] ++
                   match cv_BlockID c with Some b => 1 :: Key b | None => [0] end;
  encode_ext c := [ce_Height c; ce_Round c] ++ ce_Extension c
|}.

Definition ex_block (n : Z) : BlockID :=
  {| Hash := replicate 32 n; PSH := {| psh_Total := 1; psh_Hash := replicate 32 n |} |}.

Lemma Key_injective_witness :
  votable (ex_block 1) ∧ votable (ex_block 1) ∧ ex_block 1 = ex_block 1.
Proof.
  assert (Hv : votable (ex_block 1)) by (right; split; reflexivity).
  split_and!; [done|done|]. by apply (Key_injective (ex_block 1) (ex_block 1)).
Defined.

End Votes.
