(* ===== verification/PartSet.v ===== *)
(** * PartSet: [types/part_set.go]

    Blocks travel as parts of 64 kB with Merkle proofs.  A receiver starts from
    the header in the proposal, adds parts in any order from any peer, and reads the
    block back when all are there.  The set is translated with its [uint32]
    arithmetic, its bit array and its reader; each method runs under the set's mutex, so
    a method is one step. *)

From S2P Require Import Prelude BitArray Votes Merkle.
Import BitArray.BitArray Votes.Votes.

Local Open Scope Z_scope.

Module PartSet.

Definition BlockPartSizeBytes : Z := 65536.
Definition wrapu32 (z : Z) : Z := z mod 4294967296.

Inductive part_error :=
| ErrPartSetUnexpectedIndex
| ErrPartSetInvalidProof
| ErrPartTooBig
| ErrPartInvalidSize
| ErrInvalidPart (reason : string).

Record Part := mkPart { pIndex : Z; pBytes : list Z; pProof : Merkle.Proof_ }.

Definition part_ValidateBasic (part : Part) : option part_error :=
  if BlockPartSizeBytes <? zlen (pBytes part) then Some ErrPartTooBig
  else if (pIndex part <? wrap64 (Merkle.Total (pProof part) - 1)) && negb (zlen (pBytes part) =? BlockPartSizeBytes)
  then Some ErrPartInvalidSize
  else if negb (pIndex part =? Merkle.Index (pProof part))
  then Some (ErrInvalidPart "part index != proof index"%string)
  else
    match Merkle.ValidateBasic (pProof part) with
    | Some e => Some (ErrInvalidPart e)
    | None => None
    end.

Record PartSet := mkPartSet {
  total : Z;
  hash : list Z;
  parts : list (option Part);
  partsBitArray : option BitArray;
  count : Z;
  byteSize : Z }.

(** A Go slice expression [l[lo:hi]] of a slice without spare capacity. *)
Definition go_slice {A} (l : list A) (lo hi : Z) : outcome (list A) :=
  if (0 <=? lo) && (lo <=? hi) && (hi <=? zlen l)
  then Done (take (Z.to_nat (hi - lo)) (drop (Z.to_nat lo) l))
  else Panic "slice bounds out of range".

Section ops.
Context `{Merkle.HashOps}.

(** The loop that cuts the data: [n] parts from index [i] on, proofs not set yet. *)
Fixpoint cut_parts (data : list Z) (partSize : Z) (n : nat) (i : Z) : outcome (list Part) :=
  match n with
  | O => Done []
  | S n =>
      bs ← go_slice data (wrapu32 (i * partSize)) (Z.min (zlen data) (wrapu32 (wrapu32 (i + 1) * partSize)));
      rest ← cut_parts data partSize n (wrapu32 (i + 1));
      Done (mkPart i bs (Merkle.mkProof 0 0 [] []) :: rest)
  end.

(** The loop [parts[i].Proof = *proofs[i]]. *)
Fixpoint set_proofs (ps : list Part) (proofs : list Merkle.Proof_) (i : Z) : outcome (list Part) :=
  match ps with
  | [] => Done []
  | p :: ps =>
      proof ← idx proofs i;
      rest ← set_proofs ps proofs (i + 1);
      Done (mkPart (pIndex p) (pBytes p) proof :: rest)
  end.

Definition NewPartSetFromData (data : list Z) (partSize : Z) : outcome PartSet :=
  if partSize =? 0 then Panic "integer divide by zero"
  else
    let total := wrapu32 (wrapu32 (wrapu32 (zlen data) + partSize) - 1) / partSize in
    cut ← cut_parts data partSize (Z.to_nat total) 0;
    let '(root, proofs) := Merkle.ProofsFromByteSlices (map pBytes cut) in
    ps ← set_proofs cut proofs 0;
    bA ← NewBitArrayFromFn total (λ _, true);
    Done (mkPartSet total root (map Some ps) bA total (zlen data)).

Definition NewPartSetFromHeader (header : PartSetHeader) : PartSet :=
  mkPartSet (psh_Total header) (psh_Hash header) (replicate (Z.to_nat (psh_Total header)) None)
    (NewBitArray (psh_Total header)) 0 0.

Definition Header (ps : option PartSet) : PartSetHeader :=
  match ps with None => mkPSH 0 [] | Some ps => mkPSH (total ps) (hash ps) end.

Definition HasHeader (ps : option PartSet) (header : PartSetHeader) : bool :=
  match ps with None => false | Some _ => psh_Equals (Header ps) header end.

Definition BitArray_of (ps : PartSet) : option BitArray := Copy (partsBitArray ps).

Definition Hash (ps : option PartSet) : list Z :=
  match ps with None => Merkle.HashFromByteSlices [] | Some ps => hash ps end.

Definition HashesTo (ps : option PartSet) (h : list Z) : bool :=
  match ps with None => false | Some ps => bytes_equal (hash ps) h end.

Definition Count (ps : option PartSet) : Z := match ps with None => 0 | Some ps => count ps end.
Definition ByteSize (ps : option PartSet) : Z := match ps with None => 0 | Some ps => byteSize ps end.
Definition Total (ps : option PartSet) : Z := match ps with None => 0 | Some ps => total ps end.

(** A slice that may be nil: an empty hash is refused by [Verify] whether nil or not. *)
Definition nilable (h : list Z) : option (list Z) := match h with [] => None | _ => Some h end.

(** The new set, whether the part was added, and the error. *)
Definition AddPart (ps : option PartSet) (part : Part)
    : outcome (option PartSet * bool * option part_error) :=
  match ps with
  | None => Done (None, false, None)
  | Some s =>
      if total s <=? pIndex part then Done (ps, false, Some ErrPartSetUnexpectedIndex)
      else
        old ← idx (parts s) (pIndex part);
        match old with
        | Some _ => Done (ps, false, None)
        | None =>
            if negb (Merkle.Total (pProof part) =? total s) then Done (ps, false, Some ErrPartSetInvalidProof)
            else
              err ← Merkle.Verify (pProof part) (nilable (Hash ps)) (pBytes part);
              match (err : option string) with
              | Some _ => Done (ps, false, Some ErrPartSetInvalidProof)
              | None =>
                  parts' ← upd (parts s) (pIndex part) (Some part);
                  '(bA, _) ← SetIndex (partsBitArray s) (pIndex part) true;
                  Done (Some (mkPartSet (total s) (hash s) parts' bA (wrapu32 (count s + 1))
                                (wrap64 (byteSize s + zlen (pBytes part)))), true, None)
              end
        end
  end.

Definition GetPart (ps : PartSet) (index : Z) : outcome (option Part) := idx (parts ps) index.
Definition IsComplete (ps : PartSet) : bool := count ps =? total ps.

End ops.

(** ** The reader *)

(** [reader] is what is left of the current part. *)
Record PartSetReader := mkReader { ri : Z; rparts : list (option Part); reader : list Z }.

(** Dereferencing [parts[i].Bytes]. *)
Definition part_bytes (ps : list (option Part)) (i : Z) : outcome (list Z) :=
  p ← idx ps i;
  match p with
  | Some p => Done (pBytes p)
  | None => Panic "nil pointer dereference"
  end.

Definition NewPartSetReader (ps : list (option Part)) : outcome PartSetReader :=
  bs ← part_bytes ps 0; Done (mkReader 0 ps bs).

Definition GetReader (ps : PartSet) : outcome PartSetReader :=
  if negb (IsComplete ps) then Panic "Cannot GetReader() on incomplete PartSet"
  else NewPartSetReader (parts ps).

(** [bytes.Reader.Read] into a buffer of [n] bytes: what was read, and whether the
    error is [io.EOF]. *)
Definition bytes_Read (r : list Z) (n : Z) : list Z * list Z * bool :=
  match r with
  | [] => ([], [], true)
  | _ => (drop (Z.to_nat n) r, take (Z.to_nat n) r, false)
  end.

(** [Read] into a buffer of [n] bytes: the reader, the bytes, and whether [io.EOF].  Each
    call consumes the rest of a part or moves to the next, so twice the number
    of parts left and two more bound the depth. *)
Fixpoint Read_fuel (fuel : nat) (psr : PartSetReader) (n : Z) : outcome (PartSetReader * list Z * bool) :=
  match fuel with
  | O => Panic "out of fuel"
  | S fuel =>
      let readerLen := zlen (reader psr) in
      if n <=? readerLen then
        let '(r, bs, eof) := bytes_Read (reader psr) n in Done (mkReader (ri psr) (rparts psr) r, bs, eof)
      else if 0 <? readerLen then
        '(psr1, b1, eof1) ← Read_fuel fuel psr readerLen;
        if (eof1 : bool) then Done (psr1, b1, eof1)
        else
          '(psr2, b2, eof2) ← Read_fuel fuel psr1 (n - readerLen);
          Done (psr2, b1 ++ b2, eof2)
      else
        let i := wrap64 (ri psr + 1) in
        if zlen (rparts psr) <=? i then Done (mkReader i (rparts psr) (reader psr), [], true)
        else
          bs ← part_bytes (rparts psr) i;
          Read_fuel fuel (mkReader i (rparts psr) bs) n
  end.

Definition Read (psr : PartSetReader) (n : Z) : outcome (PartSetReader * list Z * bool) :=
  Read_fuel (2 * length (rparts psr) + 2) psr n.

(** ** Reading the parts back *)

(** [io.ReadAll]'s loop with buffers of the given sizes: what was read, and whether the
    end was reached. *)
Fixpoint read_all (psr : PartSetReader) (sizes : list Z) : outcome (list Z * bool) :=
  match sizes with
  | [] => Done ([], false)
  | n :: sizes =>
      '(psr', bs, eof) ← Read psr n;
      if (eof : bool) then Done (bs, true)
      else '(bs', eof') ← read_all psr' sizes; Done (bs ++ bs', eof')
  end.

(** What is left to read of a full list of parts. *)
Definition left (ps : list Part) (psr : PartSetReader) : list Z :=
  reader psr ++ concat (map pBytes (drop (S (Z.to_nat (ri psr))) ps)).

Definition reader_ok (ps : list Part) (psr : PartSetReader) : Prop :=
  rparts psr = map Some ps ∧ 0 ≤ ri psr < zlen ps ∧ zlen ps < 4294967296.

Lemma part_bytes_full ps (i : nat) p :
  ps !! i = Some p → part_bytes (map Some ps) (Z.of_nat i) = Done (pBytes p).
Proof. intros Hp. unfold part_bytes. rewrite (idx_nat _ _ (Some p)); [done|]. rewrite list_lookup_fmap. by rewrite Hp. Qed.

Definition read_measure (ps : list Part) (psr : PartSetReader) : nat :=
  (2 * (length ps - Z.to_nat (ri psr)) + if decide (reader psr = []) then 0 else 1)%nat.

Lemma Read_fuel_spec ps fuel psr n :
  reader_ok ps psr → 0 < n → (read_measure ps psr ≤ fuel)%nat →
  ∃ psr', Read_fuel fuel psr n = Done (psr', take (Z.to_nat n) (left ps psr), bool_decide (zlen (left ps psr) < n)) ∧
    (n ≤ zlen (left ps psr) → reader_ok ps psr' ∧ left ps psr' = drop (Z.to_nat n) (left ps psr)).
Proof.
  revert psr n. induction fuel as [|fuel IH]; intros [i rp r] n (Hrp & Hi & Hlen) Hn Hf; simpl in Hrp, Hi; subst rp.
  { exfalso. unfold read_measure, zlen in *. simpl in *. lia. }
  cbn [Read_fuel reader rparts ri]. unfold left. cbn [reader rparts ri].
  destruct (Z.leb_spec n (zlen r)) as [Hle|Hgt].
  - destruct r as [|x r]; [unfold zlen in *; simpl in *; lia|]. set (r' := x :: r) in *. unfold r' at 1. cbn [bytes_Read]. fold r'. clearbody r'.
    eexists. rewrite bool_decide_false by (unfold zlen in *; rewrite length_app; lia).
    rewrite take_app_le by (unfold zlen in *; lia). split; [done|]. intros _.
    split; [by (split; [|split])|]. unfold left. cbn [reader ri]. rewrite drop_app_le by (unfold zlen in *; lia). done.
  - destruct (Z.ltb_spec 0 (zlen r)) as [Hpos|Hzero].
    + assert (Hr : r ≠ []) by (intros ->; unfold zlen in *; simpl in *; lia).
      assert (Hf' : (1 ≤ fuel)%nat).
      { unfold read_measure, zlen in *. simpl in *. destruct (decide (r = [])); [done|]. lia. }
      assert (E1 : Read_fuel fuel (mkReader i (map Some ps) r) (zlen r) = Done (mkReader i (map Some ps) [], r, false)).
      { destruct fuel as [|fuel]; [lia|]. cbn [Read_fuel reader rparts ri]. rewrite Z.leb_refl.
        destruct r as [|x r]; [done|]. cbn [bytes_Read]. unfold zlen. rewrite Nat2Z.id.
        rewrite firstn_all, drop_all. done. }
      rewrite E1. cbn [mbind outcome_bind].
      destruct (IH (mkReader i (map Some ps) []) (n - zlen r)) as (psr2 & -> & H2); [by (split; [|split])|lia| |].
      { unfold read_measure in *. simpl in *. destruct (decide (r = [])); [done|]. lia. }
      unfold left at 1 2. cbn [reader ri mbind outcome_bind app]. exists psr2. unfold zlen in *. split.
      * f_equal. f_equal; [f_equal|].
        -- rewrite (take_app_ge r) by lia. do 2 f_equal. lia.
        -- unfold left. simpl. apply bool_decide_ext. rewrite length_app. lia.
      * intros Hn'. rewrite length_app in Hn'. unfold left in H2 at 1 3. simpl in H2.
        destruct H2 as [H2a H2b]; [lia|]. split; [done|]. unfold left in H2b at 1. unfold left. rewrite H2b.
        rewrite (drop_app_ge r) by lia. f_equal. lia.
    + assert (r = []) as -> by (destruct r; [done|unfold zlen in *; simpl in *; lia]). cbn [app].
      rewrite wrap64_id by (unfold_ints; unfold zlen in *; lia).
      assert (Hmap : zlen (map Some ps) = zlen ps) by (unfold zlen; by rewrite length_map). rewrite Hmap.
      destruct (Z.leb_spec (zlen ps) (i + 1)).
      * rewrite drop_ge by (unfold zlen in *; lia). simpl. eexists. rewrite take_nil, bool_decide_true by done. split; [done|].
        unfold zlen. simpl. lia.
      * destruct (lookup_lt_is_Some_2 ps (S (Z.to_nat i))) as [p Hp]; [unfold zlen in *; lia|].
        replace (i + 1) with (Z.of_nat (S (Z.to_nat i))) by lia. rewrite (part_bytes_full ps _ p Hp).
        cbn [mbind outcome_bind]. set (i' := S (Z.to_nat i)) in *.
        destruct (IH (mkReader (Z.of_nat i') (map Some ps) (pBytes p)) n) as (psr' & -> & H').
        { unfold reader_ok; split_and!; simpl; [done|lia|unfold zlen in *; lia|done]. } { done. }
        { unfold read_measure in *. simpl in *. rewrite Nat2Z.id. unfold zlen in *. destruct (decide (pBytes p = [])); lia. }
        unfold left in *. cbn [reader ri] in *. rewrite !Nat2Z.id in *.
        rewrite (drop_S ps p i') by done. cbn [map concat]. exists psr'. split; [done|exact H'].
Qed.

Lemma Read_spec ps psr n :
  reader_ok ps psr → 0 < n →
  ∃ psr', Read psr n = Done (psr', take (Z.to_nat n) (left ps psr), bool_decide (zlen (left ps psr) < n)) ∧
    (n ≤ zlen (left ps psr) → reader_ok ps psr' ∧ left ps psr' = drop (Z.to_nat n) (left ps psr)).
Proof.
  intros Hok Hn. apply Read_fuel_spec; [done|done|]. destruct Hok as (-> & _). rewrite length_map.
  unfold read_measure. case_decide; lia.
Qed.

Lemma read_all_spec ps psr sizes :
  reader_ok ps psr → Forall (λ n, 0 < n) sizes → zlen (left ps psr) < zsum id sizes →
  read_all psr sizes = Done (left ps psr, true).
Proof.
  revert psr. induction sizes as [|n sizes IH]; intros psr Hok Hpos Hsum.
  { unfold zlen in *. simpl in *. lia. }
  apply Forall_cons in Hpos as [Hn Hpos]. cbn [read_all]. destruct (Read_spec ps psr n Hok Hn) as (psr' & -> & H').
  cbn [mbind outcome_bind]. unfold zlen in *. cbn [zsum] in Hsum. unfold id in Hsum at 1. case_bool_decide.
  - by rewrite take_ge by lia.
  - destruct H' as [Hok' Hl]; [lia|]. rewrite (IH psr' Hok' Hpos); [|rewrite Hl, length_drop; lia].
    cbn. rewrite Hl. by rewrite take_drop.
Qed.

(** ** The invariant and [AddPart] *)

Definition present (o : option Part) : Z := match o with Some _ => 1 | None => 0 end.
Definition psize (o : option Part) : Z := match o with Some p => zlen (pBytes p) | None => 0 end.

(** The count, the bit array and the size are those of the parts that are there, each
    under its own index. *)
Definition inv (ps : PartSet) : Prop :=
  zlen (parts ps) = total ps ∧ total ps < 4294967296 ∧
  count ps = zsum present (parts ps) ∧ byteSize ps = wrap64 (zsum psize (parts ps)) ∧
  (∀ i p, parts ps !! i = Some (Some p) → pIndex p = Z.of_nat i) ∧
  match partsBitArray ps with
  | None => total ps = 0
  | Some b => wf b ∧ clean b ∧ Bits b = total ps ∧
              ∀ k, get b k = bool_decide (is_Some (mjoin (parts ps !! k)))
  end.

Lemma present_bounds l : 0 ≤ zsum present l ≤ zlen l.
Proof. unfold zlen. induction l as [|[p|] l IH]; simpl; lia. Qed.

Lemma all_present l : zsum present l = zlen l → ∃ ps, l = map Some ps.
Proof.
  unfold zlen. induction l as [|[p|] l IH]; simpl; intros E.
  - by exists [].
  - destruct IH as [ps ->]; [lia|]. by exists (p :: ps).
  - pose proof (present_bounds l). unfold zlen in *. lia.
Qed.

Lemma NewPartSetFromHeader_inv h :
  0 ≤ psh_Total h < 4294967296 → inv (NewPartSetFromHeader h).
Proof.
  intros Ht. unfold inv, NewPartSetFromHeader. simpl.
  assert (Hz : ∀ f : option Part → Z, f None = 0 → zsum f (replicate (Z.to_nat (psh_Total h)) None) = 0).
  { intros f Hf. induction (Z.to_nat (psh_Total h)); simpl; lia. }
  rewrite !Hz by done. unfold zlen. rewrite length_replicate. split_and!; [lia|lia|done|done| |].
  - intros i p Hi. by apply lookup_replicate in Hi as [? _].
  - destruct (decide (0 < psh_Total h)) as [Hpos|].
    + destruct (NewBitArray_spec (psh_Total h) Hpos) as (b & -> & Hwf & Hc & HB & Hg). split_and!; [done..|].
      intros k. rewrite Hg, bool_decide_false; [done|]. destruct (_ !! k) as [o|] eqn:E; simpl; [|by intros [? ?]].
      apply lookup_replicate in E as [-> _]. by intros [? ?].
    + unfold NewBitArray. destruct (Z.leb_spec (psh_Total h) 0); lia.
Qed.

Section add.
Context `{Merkle.HashOps}.

(** Whether a part is accepted when its slot is empty. *)
Definition proof_ok (ps : PartSet) (p : Part) : Prop :=
  Merkle.Total (pProof p) = total ps ∧ Merkle.Verify (pProof p) (nilable (hash ps)) (pBytes p) = Done None.

Lemma AddPart_spec ps p :
  inv ps → 0 ≤ pIndex p →
  ∃ ps' added err, AddPart (Some ps) p = Done (Some ps', added, err) ∧ inv ps' ∧
    total ps' = total ps ∧ hash ps' = hash ps ∧
    (total ps ≤ pIndex p ∧ ps' = ps ∧ added = false ∧ err = Some ErrPartSetUnexpectedIndex ∨
     (∃ q, parts ps !! Z.to_nat (pIndex p) = Some (Some q)) ∧ ps' = ps ∧ added = false ∧ err = None ∨
     parts ps !! Z.to_nat (pIndex p) = Some None ∧ ¬ proof_ok ps p ∧ ps' = ps ∧ added = false ∧ err = Some ErrPartSetInvalidProof ∨
     parts ps !! Z.to_nat (pIndex p) = Some None ∧ proof_ok ps p ∧ added = true ∧ err = None ∧
       parts ps' = <[Z.to_nat (pIndex p) := Some p]> (parts ps)).
Proof.
  intros Hinv Hi. pose proof Hinv as (Hlen & H32 & Hcount & Hsize & Hidx & Hbits). unfold AddPart, proof_ok.
  destruct (Z.leb_spec (total ps) (pIndex p)); [eexists _, _, _; split_and!; auto|].
  destruct (idx_in_range (parts ps) (pIndex p)) as (old & -> & Hold); [lia|]. cbn [mbind outcome_bind].
  destruct old as [q|]; [eexists _, _, _; split_and!; eauto 10|].
  destruct (Z.eqb_spec (Merkle.Total (pProof p)) (total ps)) as [Et|Et]; cbn [negb]; [|eexists _, _, _; split_and!; eauto; naive_solver].
  destruct (Merkle.Verify_total (pProof p) (nilable (hash ps)) (pBytes p)) as [e He]. cbn [Hash]. rewrite He. cbn [mbind outcome_bind].
  destruct e as [e|]; [eexists _, _, _; split_and!; eauto; naive_solver|].
  rewrite upd_in_range by lia. cbn [mbind outcome_bind]. set (k := Z.to_nat (pIndex p)) in *.
  assert (Hk : (k < length (parts ps))%nat) by (by apply lookup_lt_Some in Hold).
  assert (∃ bA r, SetIndex (partsBitArray ps) (pIndex p) true = Done (bA, r) ∧
    match bA with
    | None => total ps = 0
    | Some b => wf b ∧ clean b ∧ Bits b = total ps ∧ ∀ m, get b m = bool_decide (is_Some (mjoin (<[k := Some p]> (parts ps) !! m)))
    end) as (bA & r & -> & HbA).
  { destruct (partsBitArray ps) as [b|]; [|exfalso; lia]. destruct Hbits as (Hwf & Hc & HB & Hg).
    replace (pIndex p) with (Z.of_nat k) by lia.
    destruct (setIndex_true b k Hwf Hc) as (b' & -> & Hwf' & Hc' & HB' & Hg'); [unfold zlen in *; lia|].
    eexists _, _. split; [done|]. split_and!; [done|done|lia|]. intros m. rewrite Hg', Hg.
    destruct (decide (m = k)) as [->|].
    - rewrite list_lookup_insert_eq by done. simpl. by rewrite (bool_decide_true (k = k)), orb_true_r by done.
    - rewrite list_lookup_insert_ne by done. rewrite (bool_decide_false (m = k)) by done. by rewrite orb_false_r. }
  cbn [mbind outcome_bind]. pose proof (present_bounds (<[k:=Some p]> (parts ps))) as Hpb.
  rewrite (zsum_insert _ _ _ None) in Hpb by done. rewrite zlen_insert in Hpb. simpl in Hpb.
  eexists _, _, _. split; [done|]. split; [|split_and!; [done|done|do 3 right; by split_and!]].
  unfold inv. simpl. rewrite zlen_insert, !(zsum_insert _ _ _ None) by done. simpl. split_and!; [lia|lia| | |  |done].
  - unfold wrapu32. rewrite Z.mod_small by lia. lia.
  - rewrite Hsize, wrap64_add_l. f_equal. lia.
  - intros i q. destruct (decide (i = k)) as [->|].
    + rewrite list_lookup_insert_eq by done. intros [= <-]. lia.
    + rewrite list_lookup_insert_ne by done. apply Hidx.
Qed.

(** A sequence of calls of [AddPart]. *)
Fixpoint add_all (ps : option PartSet) (l : list Part) : outcome (option PartSet) :=
  match l with
  | [] => Done ps
  | p :: l => '(ps', _, _) ← AddPart ps p; add_all ps' l
  end.

Lemma add_all_inv (P : PartSet → Prop) ps l :
  inv ps → Forall (λ p, 0 ≤ pIndex p) l → P ps →
  (∀ s p, p ∈ l → P s → total s = total ps → hash s = hash ps → parts s !! Z.to_nat (pIndex p) = Some None → proof_ok s p →
    ∀ s', inv s' → parts s' = <[Z.to_nat (pIndex p) := Some p]> (parts s) → P s') →
  ∃ ps', add_all (Some ps) l = Done (Some ps') ∧ inv ps' ∧ total ps' = total ps ∧ hash ps' = hash ps ∧ P ps'.
Proof.
  revert ps. induction l as [|p l IH]; intros ps Hinv Hl HP Hstep; [by exists ps|].
  apply Forall_cons in Hl as [Hp Hl]. cbn [add_all].
  destruct (AddPart_spec ps p Hinv Hp) as (ps1 & added & err & -> & Hinv1 & Ht & Hh & Hcase). cbn [mbind outcome_bind].
  destruct (IH ps1) as (ps2 & -> & Hinv2 & Ht2 & Hh2 & HP2); [done|done| | |exists ps2; split_and!; [done|done|lia|congruence|done]].
  - destruct Hcase as [(_ & -> & _)|[(_ & -> & _)|[(_ & _ & -> & _)|(Hn & Hok & _ & _ & Hps)]]]; [done..|].
    eapply (Hstep ps p); eauto. set_solver.
  - intros s q Hq HPs Hts Hhs. apply (Hstep s q); [set_solver|done|lia|congruence].
Qed.

End add.

(** ** The set made from the data *)

(** The [i]th piece of [sz] bytes. *)
Definition chunk (data : list Z) (sz i : nat) : list Z := take sz (drop (i * sz) data).
Definition nchunks (data : list Z) (partSize : Z) : nat := Z.to_nat ((zlen data + partSize - 1) / partSize).
Definition chunks (data : list Z) (partSize : Z) : list (list Z) :=
  map (chunk data (Z.to_nat partSize)) (seq 0 (nchunks data partSize)).

Lemma concat_chunks_take data sz n : concat (map (chunk data sz) (seq 0 n)) = take (n * sz) data.
Proof.
  induction n as [|n IH]; [done|]. rewrite seq_S, map_app, concat_app, IH. simpl. rewrite app_nil_r.
  unfold chunk. rewrite Nat.add_comm. by rewrite take_take_drop.
Qed.

Lemma nchunks_bounds data partSize :
  0 < partSize →
  zlen data ≤ Z.of_nat (nchunks data partSize) * partSize < zlen data + partSize.
Proof.
  intros Hp. unfold nchunks. pose proof (zlen_nonneg data).
  rewrite Z2Nat.id by (apply Z.div_pos; lia).
  pose proof (Z.mul_div_le (zlen data + partSize - 1) partSize Hp).
  pose proof (Z.mul_succ_div_gt (zlen data + partSize - 1) partSize Hp). lia.
Qed.

Lemma concat_chunks data partSize : 0 < partSize → concat (chunks data partSize) = data.
Proof.
  intros Hp. unfold chunks. rewrite concat_chunks_take. apply take_ge.
  pose proof (nchunks_bounds data partSize Hp). unfold zlen in *. nia.
Qed.

Lemma cut_parts_spec data partSize n i :
  0 < partSize → zlen data + partSize ≤ 4294967296 → (i + n = nchunks data partSize)%nat →
  cut_parts data partSize n (Z.of_nat i) =
    Done (map (λ j, mkPart (Z.of_nat j) (chunk data (Z.to_nat partSize) j) (Merkle.mkProof 0 0 [] [])) (seq i n)).
Proof.
  intros Hp Hd. revert i. induction n as [|n IH]; intros i Hn; [done|]. cbn [cut_parts seq map].
  pose proof (nchunks_bounds data partSize Hp) as Hb.
  assert (Hi : Z.of_nat (S i) * partSize < zlen data + partSize) by nia.
  unfold wrapu32. rewrite !(Z.mod_small (Z.of_nat i + 1)) by nia.
  rewrite !Z.mod_small by nia. replace (Z.of_nat i + 1) with (Z.of_nat (S i)) by lia.
  unfold go_slice. destruct (Z.leb_spec 0 (Z.of_nat i * partSize)); [|lia].
  destruct (Z.leb_spec (Z.of_nat i * partSize) (Z.min (zlen data) (Z.of_nat (S i) * partSize))); [|lia].
  destruct (Z.leb_spec (Z.min (zlen data) (Z.of_nat (S i) * partSize)) (zlen data)); [|lia].
  cbn [andb mbind outcome_bind]. rewrite IH by lia. cbn. do 3 f_equal. unfold chunk.
  replace (Z.to_nat (Z.of_nat i * partSize)) with (i * Z.to_nat partSize)%nat by lia.
  assert (Hdl : length (drop (i * Z.to_nat partSize) data) = (length data - i * Z.to_nat partSize)%nat) by apply length_drop.
  destruct (Z.min_spec (zlen data) (Z.of_nat (S i) * partSize)) as [[Hm ->]|[Hm ->]]; unfold zlen in *.
  - rewrite !take_ge by lia. done.
  - f_equal. lia.
Qed.

Lemma set_proofs_spec ps proofs k :
  length proofs = (k + length ps)%nat →
  ∃ ps', set_proofs ps proofs (Z.of_nat k) = Done ps' ∧ map pBytes ps' = map pBytes ps ∧
    length ps' = length ps ∧
    ∀ i p, ps' !! i = Some p → ∃ q, ps !! i = Some q ∧ pIndex p = pIndex q ∧ pBytes p = pBytes q ∧
      proofs !! (k + i)%nat = Some (pProof p).
Proof.
  revert k. induction ps as [|p ps IH]; intros k Hl; [by exists []|]. cbn [set_proofs length] in *.
  destruct (lookup_lt_is_Some_2 proofs k) as [pr Hpr]; [lia|]. rewrite (idx_nat _ _ pr Hpr). cbn [mbind outcome_bind].
  destruct (IH (S k)) as (ps' & E & Hb & Hlen & Hp'); [lia|].
  replace (Z.of_nat k + 1) with (Z.of_nat (S k)) by lia.
  rewrite E. cbn. eexists. split; [done|]. split_and!; [by simpl; f_equal|simpl; lia|].
  intros [|i] q Hq; simpl in Hq.
  - injection Hq as <-. exists p. rewrite Nat.add_0_r. by split_and!.
  - destruct (Hp' i q Hq) as (q' & ? & ? & ? & Hpi). exists q'. split_and!; [done..|].
    by replace (k + S i)%nat with (S k + i)%nat by lia.
Qed.

Section data.
Context `{Merkle.HashLaws}.

Lemma NewPartSetFromData_spec data partSize :
  0 < partSize → zlen data + partSize ≤ 4294967296 →
  ∃ full ps, NewPartSetFromData data partSize = Done full ∧ inv full ∧
    total full = Z.of_nat (nchunks data partSize) ∧ count full = total full ∧ byteSize full = zlen data ∧
    hash full = Merkle.HashFromByteSlices (chunks data partSize) ∧
    parts full = map Some ps ∧ map pBytes ps = chunks data partSize ∧
    ∀ p, p ∈ ps → Merkle.Index (pProof p) = pIndex p ∧ Merkle.ValidateBasic (pProof p) = None ∧ proof_ok full p.
Proof.
  intros Hp Hd. unfold NewPartSetFromData. destruct (Z.eqb_spec partSize 0) as [|_]; [lia|].
  pose proof (nchunks_bounds data partSize Hp) as Hb. pose proof (zlen_nonneg data).
  assert (wrapu32 (wrapu32 (wrapu32 (zlen data) + partSize) - 1) / partSize = Z.of_nat (nchunks data partSize)) as ->.
  { unfold wrapu32. rewrite Zplus_mod_idemp_l, Zminus_mod_idemp_l, Z.mod_small by lia.
    unfold nchunks. rewrite Z2Nat.id; [done|]. apply Z.div_pos; lia. }
  set (n := nchunks data partSize) in *. rewrite Nat2Z.id.
  pose proof (cut_parts_spec data partSize n 0 Hp Hd eq_refl) as Hc. change (Z.of_nat 0) with 0 in Hc. rewrite Hc. clear Hc. cbn [mbind outcome_bind].
  set (cut := map _ (seq 0 n)). assert (Hcut : map pBytes cut = chunks data partSize).
  { unfold cut. rewrite map_map. done. }
  assert (Hcl : length cut = n) by (unfold cut; by rewrite length_map, length_seq).
  rewrite Hcut. pose proof (Merkle.ProofsFromByteSlices_root (chunks data partSize)) as [Hroot Hplen].
  pose proof (Merkle.proofs_valid (chunks data partSize)) as Hvalid.
  pose proof (Merkle.proofs_complete (chunks data partSize)) as Hverify.
  destruct (Merkle.ProofsFromByteSlices (chunks data partSize)) as [root proofs]. simpl in Hroot, Hplen, Hvalid. subst root.
  assert (Hchl : length (chunks data partSize) = n) by (unfold chunks; by rewrite length_map, length_seq).
  destruct (set_proofs_spec cut proofs 0) as (ps & Hset & Hbytes & Hpl & Hps); [simpl; lia|].
  change (Z.of_nat 0) with 0 in Hset. rewrite Hset. cbn [mbind outcome_bind].
  assert (Hn32 : Z.of_nat n < 4294967296) by nia.
  assert (Hpre : ∀ l, zsum present (map Some l) = zlen l).
  { intros l. unfold zlen. induction l; simpl; lia. }
  assert (Hsz : zsum psize (map Some ps) = zlen data).
  { rewrite <-(concat_chunks data partSize Hp). rewrite <-Hcut, <-Hbytes. clear. unfold zlen.
    induction ps as [|p ps IH]; simpl; [done|]. rewrite length_app. unfold zlen. lia. }
  assert (Hidx : ∀ i p, ps !! i = Some p → pIndex p = Z.of_nat i ∧ proofs !! i = Some (pProof p) ∧ chunks data partSize !! i = Some (pBytes p)).
  { intros i p Hi. destruct (Hps i p Hi) as (q & Hq & -> & Hqb & Hpr). split_and!; [|done|].
    - unfold cut in Hq. rewrite list_lookup_fmap in Hq. apply fmap_Some in Hq as (j & Hj & ->). simpl.
      apply lookup_seq in Hj as [-> _]. done.
    - rewrite <-Hcut, <-Hbytes, list_lookup_fmap, Hi. done. }
  assert (∃ bA, NewBitArrayFromFn (Z.of_nat n) (λ _, true) = Done bA ∧
    match bA with None => Z.of_nat n = 0 | Some b => wf b ∧ clean b ∧ Bits b = Z.of_nat n ∧
      ∀ k, get b k = bool_decide (is_Some (mjoin (map Some ps !! k))) end) as (bA & -> & HbA).
  { destruct (decide (0 < Z.of_nat n)) as [Hpos|].
    - destruct (NewBitArrayFromFn_spec (Z.of_nat n) (λ _, true) Hpos) as (b & -> & ? & ? & ? & Hg). eexists. split; [done|].
      split_and!; [done..|]. intros k. rewrite Hg, andb_true_r. apply bool_decide_ext. rewrite list_lookup_fmap, Nat2Z.id.
      destruct (ps !! k) eqn:Ek; simpl.
      + apply lookup_lt_Some in Ek. split; [eauto|lia].
      + apply lookup_ge_None in Ek. split; [lia|by intros [? ?]].
    - exists None. unfold NewBitArrayFromFn. destruct (Z.leb_spec (Z.of_nat n) 0); [|lia]. split; [done|lia]. }
  cbn [mbind outcome_bind]. eexists _, ps. split; [done|]. unfold inv. simpl. rewrite Hpre, Hsz.
  split_and!; try done.
  - unfold zlen. rewrite length_map. lia.
  - unfold zlen. lia.
  - rewrite wrap64_id; [done|]. unfold_ints. lia.
  - intros i p. rewrite list_lookup_fmap. destruct (ps !! i) as [q|] eqn:Ei; [|done]. intros [= ->]. by apply Hidx.
  - by rewrite Hbytes, Hcut.
  - intros p (i & Hi)%list_elem_of_lookup. destruct (Hidx i p Hi) as (Hpi & Hpr & Hch).
    destruct (Hverify _ _ i _ _ eq_refl Hch Hpr) as (Ht & Hpi' & Hv). split_and!; [lia| |].
    + apply Hvalid; [|by eapply list_elem_of_lookup_2]. unfold zlen. rewrite Hchl. lia.
    + split; [simpl; lia|]. cbn [hash]. pose proof (Merkle.HashFromByteSlices_length (chunks data partSize)) as Hhl.
      unfold nilable. destruct (Merkle.HashFromByteSlices (chunks data partSize)) eqn:Eh; [simpl in Hhl; lia|]. done.
Qed.

End data.

(** ** From the proposer to the receiver *)

Section transfer.
Context `{Merkle.HashLaws}.

(** The receiver's set, before any part. *)
Definition awaiting (full : PartSet) : PartSet := NewPartSetFromHeader (Header (Some full)).

Lemma nchunks_pos data partSize : 0 < partSize → 0 < zlen data → 0 < Z.of_nat (nchunks data partSize).
Proof. intros Hp Hd. pose proof (nchunks_bounds data partSize Hp). nia. Qed.

Lemma chunks_length data partSize : length (chunks data partSize) = nchunks data partSize.
Proof. unfold chunks. by rewrite length_map, length_seq. Qed.

(** A complete set of the right pieces has the size of the data and a reader that has
    all of it left. *)
Lemma complete_reader data partSize ps :
  0 < partSize → 0 < zlen data → zlen data + partSize ≤ 4294967296 →
  inv ps → total ps = Z.of_nat (nchunks data partSize) →
  (∀ i p, parts ps !! i = Some (Some p) → chunks data partSize !! i = Some (pBytes p)) →
  IsComplete ps = true →
  byteSize ps = zlen data ∧ ∃ qs psr, GetReader ps = Done psr ∧ reader_ok qs psr ∧ left qs psr = data.
Proof.
  intros Hp Hd Hdp (Hlen & H32 & Hcount & Hsize & Hidx & _) Ht Hch Hc.
  pose proof (nchunks_pos data partSize Hp Hd) as Hpos.
  pose proof Hc as Hcc. unfold IsComplete in Hcc. apply Z.eqb_eq in Hcc.
  destruct (all_present (parts ps)) as [qs Hqs]; [lia|].
  assert (Hbytes : map pBytes qs = chunks data partSize).
  { apply list_eq_same_length with (n := nchunks data partSize); [by rewrite chunks_length|rewrite length_map; rewrite Hqs in Hlen; unfold zlen in Hlen; rewrite length_map in Hlen; lia|].
    intros i x y _ Hx Hy. rewrite list_lookup_fmap in Hx. apply fmap_Some in Hx as (q & Hq & ->).
    rewrite (Hch i q) in Hy; [by injection Hy|]. rewrite Hqs, list_lookup_fmap, Hq. done. }
  assert (Hql : length qs = nchunks data partSize) by (by rewrite <-chunks_length, <-Hbytes, length_map).
  split.
  - rewrite Hsize, Hqs. assert (zsum psize (map Some qs) = zlen data) as ->.
    { rewrite <-(concat_chunks data partSize Hp), <-Hbytes. clear. unfold zlen.
      induction qs as [|p qs IH]; simpl; [done|]. rewrite length_app. unfold zlen. lia. }
    apply wrap64_id. pose proof (zlen_nonneg data). unfold_ints. lia.
  - unfold GetReader. rewrite Hc. cbn [negb]. unfold NewPartSetReader. rewrite Hqs.
    destruct (lookup_lt_is_Some_2 qs 0) as [q Hq]; [lia|].
    pose proof (part_bytes_full qs 0 q Hq) as E. change (Z.of_nat 0) with 0 in E. rewrite E. cbn [mbind outcome_bind].
    eexists qs, _. split; [done|]. split; [split; [done|]; unfold zlen; cbn [ri]; lia|].
    unfold left. cbn [reader ri]. change (S (Z.to_nat 0)) with 1%nat.
    destruct qs as [|q' qs]; [done|]. injection Hq as ->. cbn [drop]. rewrite <-(concat_chunks data partSize Hp), <-Hbytes. done.
Qed.

(** It reads back as the data, with buffers of any sizes. *)
Lemma complete_reads data partSize ps sizes :
  0 < partSize → 0 < zlen data → zlen data + partSize ≤ 4294967296 →
  inv ps → total ps = Z.of_nat (nchunks data partSize) →
  (∀ i p, parts ps !! i = Some (Some p) → chunks data partSize !! i = Some (pBytes p)) →
  IsComplete ps = true →
  byteSize ps = zlen data ∧
  (Forall (λ n, 0 < n) sizes → zlen data < zsum id sizes →
   (psr ← GetReader ps; read_all psr sizes) = Done (data, true)).
Proof.
  intros Hp Hd Hdp Hinv Ht Hch Hc.
  destruct (complete_reader data partSize ps Hp Hd Hdp Hinv Ht Hch Hc) as (Hsize & qs & psr & E & Hok & Hleft).
  split; [done|]. intros Hs Hsum. rewrite E. cbn [mbind outcome_bind].
  rewrite (read_all_spec qs); [by rewrite Hleft|done|done|by rewrite Hleft].
Qed.

Lemma proof_ok_item data partSize full s p :
  total s = Z.of_nat (nchunks data partSize) → hash s = Merkle.HashFromByteSlices (chunks data partSize) →
  part_ValidateBasic p = None → proof_ok s p → full = chunks data partSize →
  chunks data partSize !! Z.to_nat (pIndex p) = Some (pBytes p) ∨
  let '(x, y) := Merkle.find_collision full (pProof p) (pBytes p) in x ≠ y ∧ Merkle.Sum x = Merkle.Sum y.
Proof.
  intros Ht Hh Hvb [Htp Hv] ->. rewrite Hh in Hv.
  assert (pIndex p = Merkle.Index (pProof p) ∧ Merkle.ValidateBasic (pProof p) = None) as [Ei Hvp].
  { unfold part_ValidateBasic in Hvb. destruct (_ <? zlen _); [done|]. destruct (_ && _); [done|].
    destruct (Z.eqb_spec (pIndex p) (Merkle.Index (pProof p))); [|done]. simpl in Hvb.
    by destruct (Merkle.ValidateBasic _). }
  unfold nilable in Hv. destruct (Merkle.HashFromByteSlices (chunks data partSize)) eqn:Eh; [done|]. rewrite <-Eh in Hv.
  destruct (Merkle.proof_sound (chunks data partSize) (pProof p) (pBytes p) Hvp) as (item & Hi & _ & [->|Hcol]);
    [unfold zlen; rewrite chunks_length; lia|done|left; by rewrite Ei|by right].
Qed.

(** a receiver that only has the header of a block's part set and adds any sequence
    of parts that pass basic validation, from any peers and in any order, never
    panics and stores under every index only the proposer's piece, unless two different
    strings with the same SHA-256 digest can be computed from one of the parts.
    When the set is complete its size is that of the block and reading it to
    the end, with buffers of any sizes, gives back exactly the proposer's bytes. *)
Theorem received_parts_are_the_block data partSize full l :
  0 < partSize → 0 < zlen data → zlen data + partSize ≤ 4294967296 →
  NewPartSetFromData data partSize = Done full →
  Forall (λ p, part_ValidateBasic p = None ∧ 0 ≤ pIndex p) l →
  ∃ ps, add_all (Some (awaiting full)) l = Done (Some ps) ∧ inv ps ∧
    ((∃ p, p ∈ l ∧ let '(x, y) := Merkle.find_collision (chunks data partSize) (pProof p) (pBytes p) in
                   x ≠ y ∧ Merkle.Sum x = Merkle.Sum y) ∨
     (∀ i p, parts ps !! i = Some (Some p) → chunks data partSize !! i = Some (pBytes p)) ∧
     (IsComplete ps = true → byteSize ps = zlen data ∧
      ∀ sizes, Forall (λ n, 0 < n) sizes → zlen data < zsum id sizes →
        (psr ← GetReader ps; read_all psr sizes) = Done (data, true))).
Proof.
  intros Hp Hd Hdp Hfull Hl. destruct (NewPartSetFromData_spec data partSize Hp Hdp) as (full' & qs & Hfull' & Hinv & Ht & _ & _ & Hh & _).
  assert (full' = full) as -> by congruence.
  set (col := λ p, let '(x, y) := Merkle.find_collision (chunks data partSize) (pProof p) (pBytes p) in x ≠ y ∧ Merkle.Sum x = Merkle.Sum y).
  destruct (add_all_inv (λ s, (∃ p, p ∈ l ∧ col p) ∨ ∀ i p, parts s !! i = Some (Some p) → chunks data partSize !! i = Some (pBytes p))
              (awaiting full) l) as (ps & Hadd & Hinv' & Ht' & Hh' & HP).
  - apply NewPartSetFromHeader_inv. simpl. destruct Hinv as (Hlen & ? & _). rewrite Ht. lia.
  - eapply Forall_impl; [exact Hl|]. naive_solver.
  - right. intros i p Hi. simpl in Hi. by apply lookup_replicate in Hi as [? _].
  - intros s p Hpl [HP|HP] Hts Hhs Hn Hok s' _ Hs'; [by left|].
    rewrite Forall_forall in Hl. destruct (Hl p Hpl) as [Hvb Hpos].
    destruct (proof_ok_item data partSize _ s p ltac:(rewrite Hts; simpl; done) ltac:(rewrite Hhs; simpl; done) Hvb Hok eq_refl) as [Hi|Hc];
      [|left; by exists p].
    right. intros i q Hq. rewrite Hs' in Hq. destruct (decide (i = Z.to_nat (pIndex p))) as [->|].
    + rewrite list_lookup_insert_eq in Hq by (by apply lookup_lt_Some in Hn). by injection Hq as ->.
    + rewrite list_lookup_insert_ne in Hq by done. by apply HP.
  - exists ps. split_and!; [done..|]. destruct HP as [HP|HP]; [by left|right]. split; [done|].
    intros Hc. assert (Htot : total ps = Z.of_nat (nchunks data partSize)) by (rewrite Ht'; exact Ht).
    split; [by eapply (complete_reads data partSize ps [])|]. intros sizes. by eapply (complete_reads data partSize ps sizes).
Qed.

(** Adding parts of the proposer's set fills in exactly those. *)
Lemma add_genuine full qs l ps :
  inv full → parts full = map Some qs → (∀ p, p ∈ qs → proof_ok full p) → Forall (λ p, p ∈ qs) l →
  inv ps → total ps = total full → hash ps = hash full →
  (∀ i p, parts ps !! i = Some (Some p) → parts full !! i = Some (Some p)) →
  ∃ ps', add_all (Some ps) l = Done (Some ps') ∧ inv ps' ∧ total ps' = total full ∧
    ∀ i p, parts ps' !! i = Some (Some p) ↔ parts full !! i = Some (Some p) ∧ (parts ps !! i = Some (Some p) ∨ p ∈ l).
Proof.
  intros Hinvf Hqs Hok. revert ps. induction l as [|p l IH]; intros ps Hl Hinv Ht Hh Hsub.
  { exists ps. split_and!; [done..|]. intros i p. split; [auto|]. intros [? [?|?]]; [done|set_solver]. }
  apply Forall_cons in Hl as [Hp Hl].
  assert (Hpf : ∃ k, pIndex p = Z.of_nat k ∧ parts full !! k = Some (Some p)).
  { apply list_elem_of_lookup in Hp as [k Hk]. exists k. assert (Hk' : parts full !! k = Some (Some p)) by (rewrite Hqs, list_lookup_fmap, Hk; done).
    split; [|done]. destruct Hinvf as (_ & _ & _ & _ & Hidx & _). by apply Hidx. }
  destruct Hpf as (k & Ek & Hk).
  assert (Hlenk : (k < length (parts ps))%nat).
  { apply lookup_lt_Some in Hk. destruct Hinvf as (Hlf & _), Hinv as (Hlp & _). unfold zlen in *. lia. }
  cbn [add_all]. destruct (AddPart_spec ps p Hinv ltac:(lia)) as (ps1 & added & err & -> & Hinv1 & Ht1 & Hh1 & Hcase).
  cbn [mbind outcome_bind]. rewrite Ek, Nat2Z.id in Hcase.
  assert (Hps1 : ∀ i q, parts ps1 !! i = Some (Some q) ↔ parts full !! i = Some (Some q) ∧ (parts ps !! i = Some (Some q) ∨ q = p ∧ i = k)).
  { destruct Hcase as [(Hge & _)|[((q & Hq) & -> & _)|[(_ & Hn & _)|(Hn & _ & _ & _ & ->)]]].
    - destruct Hinv as (Hlp & _). unfold zlen in *. lia.
    - pose proof (Hsub k q Hq) as Hqf. assert (q = p) as -> by congruence. intros i q'. split; [naive_solver|].
      intros [Hf [?|[-> ->]]]; done.
    - exfalso. apply Hn. destruct (Hok p Hp) as [H1 H2]. unfold proof_ok. by rewrite Ht, Hh.
    - intros i q. destruct (decide (i = k)) as [->|].
      + rewrite list_lookup_insert_eq by done. split; [intros [= <-]; auto|]. intros [Hf _]. congruence.
      + rewrite list_lookup_insert_ne by done. naive_solver. }
  destruct (IH ps1 Hl Hinv1) as (ps2 & -> & Hinv2 & Ht2 & Hps2); [congruence|congruence|naive_solver|].
  exists ps2. split_and!; [done..|]. intros i q. rewrite Hps2, Hps1, elem_of_cons.
  split; [naive_solver|]. intros [Hf [Hq|[->|Hq]]]; [naive_solver| |naive_solver].
  split; [done|]. left. split; [done|]. right. split; [done|].
  destruct Hinvf as (_ & _ & _ & _ & Hidx & _). specialize (Hidx i p Hf). lia.
Qed.

(** the parts the proposer makes of a block with the standard part size pass basic
    validation, and a receiver that adds parts of the proposer's set in any order, with
    repetitions, accepts each of them and holds exactly those; once every part was
    sent its set is complete and equal to the proposer's. *)
Theorem genuine_parts_accepted data full l :
  0 < zlen data → zlen data + BlockPartSizeBytes ≤ 4294967296 →
  NewPartSetFromData data BlockPartSizeBytes = Done full →
  Forall (λ p, Some p ∈ parts full) l →
  Forall (λ p, part_ValidateBasic p = None) l ∧
  ∃ ps, add_all (Some (awaiting full)) l = Done (Some ps) ∧ inv ps ∧
    (∀ i p, parts ps !! i = Some (Some p) ↔ parts full !! i = Some (Some p) ∧ p ∈ l) ∧
    ((∀ p, Some p ∈ parts full → p ∈ l) → IsComplete ps = true ∧ parts ps = parts full).
Proof.
  intros Hd Hdp Hfull Hl. assert (Hp : 0 < BlockPartSizeBytes) by done.
  destruct (NewPartSetFromData_spec data BlockPartSizeBytes Hp Hdp) as (full' & qs & Hfull' & Hinv & Ht & _ & _ & Hh & Hqs & Hbytes & Hgood).
  assert (full' = full) as -> by congruence. clear Hfull'.
  assert (Hmem : ∀ p, Some p ∈ parts full → p ∈ qs). { intros p. rewrite Hqs. intros (q & [= ->] & Hq)%list_elem_of_fmap. done. }
  split.
  - eapply Forall_impl; [exact Hl|]. intros p Hpf. cbn beta in Hpf. pose proof (Hmem p Hpf) as Hpq.
    destruct (Hgood p Hpq) as (Hpi & Hpv & Hpt & _).
    apply list_elem_of_lookup in Hpq as [i Hi].
    assert (Hc : chunks data BlockPartSizeBytes !! i = Some (pBytes p)) by (rewrite <-Hbytes, list_lookup_fmap, Hi; done).
    assert (Hpidx : pIndex p = Z.of_nat i).
    { destruct Hinv as (_ & _ & _ & _ & Hidx & _). apply Hidx. rewrite Hqs, list_lookup_fmap, Hi. done. }
    unfold chunks in Hc. rewrite list_lookup_fmap in Hc. apply fmap_Some in Hc as (j & Hj & Hbp).
    apply lookup_seq in Hj as [-> Hin]. simpl in Hbp. pose proof (nchunks_bounds data BlockPartSizeBytes Hp) as Hb.
    assert (Hlen : zlen (pBytes p) ≤ BlockPartSizeBytes ∧
      (Z.of_nat i < Z.of_nat (nchunks data BlockPartSizeBytes) - 1 → zlen (pBytes p) = BlockPartSizeBytes)).
    { rewrite Hbp. unfold chunk, zlen in *. rewrite length_take, length_drop. unfold BlockPartSizeBytes in *. lia. }
    unfold part_ValidateBasic. destruct (Z.ltb_spec BlockPartSizeBytes (zlen (pBytes p))); [lia|].
    rewrite Hpt, Ht, wrap64_id by (destruct Hinv as (_ & ? & _); unfold_ints; lia).
    destruct (Z.ltb_spec (pIndex p) (Z.of_nat (nchunks data BlockPartSizeBytes) - 1)); cbn [andb].
    + rewrite (proj2 Hlen) by lia. rewrite Z.eqb_refl. cbn [negb]. by rewrite Hpi, Z.eqb_refl, Hpv.
    + by rewrite Hpi, Z.eqb_refl, Hpv.
  - destruct (add_genuine full qs l (awaiting full)) as (ps & Hadd & Hinvp & Htp & Hps); [done|done| | | |done|done| |].
    + intros p Hpq. by apply Hgood.
    + eapply Forall_impl; [exact Hl|]. intros p. apply Hmem.
    + apply NewPartSetFromHeader_inv. simpl. destruct Hinv as (Hlen & ? & _). rewrite Ht. lia.
    + intros i p Hi. simpl in Hi. by apply lookup_replicate in Hi as [? _].
    + assert (Hps' : ∀ i p, parts ps !! i = Some (Some p) ↔ parts full !! i = Some (Some p) ∧ p ∈ l).
      { intros i p. rewrite Hps. split; [|naive_solver]. intros [Hf [Hx|?]]; [|done]. simpl in Hx. by apply lookup_replicate in Hx as [? _]. }
      exists ps. split_and!; [done|done|done|]. intros Hall.
      assert (Hplen : length (parts ps) = length (parts full)).
      { destruct Hinvp as (Hlp & _), Hinv as (Hlf & _). unfold zlen in *. lia. }
      assert (Heq : parts ps = parts full).
      { apply list_eq_same_length with (n := length (parts full)); [done|done|]. intros i x y Hi Hx Hy.
        rewrite Hqs, list_lookup_fmap in Hy. apply fmap_Some in Hy as (q & Hq & ->).
        assert (Hfq : parts full !! i = Some (Some q)) by (rewrite Hqs, list_lookup_fmap, Hq; done).
        assert (parts ps !! i = Some (Some q)); [|congruence]. apply Hps'. split; [done|]. apply Hall. by eapply list_elem_of_lookup_2. }
      split; [|done]. destruct Hinvp as (Hlp & _ & Hcp & _). unfold IsComplete. apply Z.eqb_eq. rewrite Hcp, <-Hlp, Heq, Hqs.
      clear. unfold zlen. rewrite length_map. induction qs; simpl; lia.
Qed.

End transfer.

(** ** Examples *)

#[local] Existing Instances Merkle.toy_hash Merkle.toy_hash_laws.

Definition ex_data : list Z := [7; 8; 9].
Definition ex_full : PartSet :=
  match NewPartSetFromData ex_data BlockPartSizeBytes with Done ps => ps | Panic _ => NewPartSetFromHeader (mkPSH 0 []) end.
Definition ex_part : Part :=
  match parts ex_full with Some p :: _ => p | _ => mkPart 0 [] (Merkle.mkProof 0 0 [] []) end.
(** A part with other bytes under the same index. *)
Definition ex_forged : Part := mkPart 0 [7; 8] (pProof ex_part).

Lemma received_parts_are_the_block_witness :
  ∃ ps, add_all (Some (awaiting ex_full)) [ex_forged; ex_part] = Done (Some ps) ∧ inv ps ∧
    ((∃ p, p ∈ [ex_forged; ex_part] ∧
        let '(x, y) := Merkle.find_collision (chunks ex_data BlockPartSizeBytes) (pProof p) (pBytes p) in
        x ≠ y ∧ Merkle.Sum x = Merkle.Sum y) ∨
     (∀ i p, parts ps !! i = Some (Some p) → chunks ex_data BlockPartSizeBytes !! i = Some (pBytes p)) ∧
     (IsComplete ps = true → byteSize ps = zlen ex_data ∧
      ∀ sizes, Forall (λ n, 0 < n) sizes → zlen ex_data < zsum id sizes →
        (psr ← GetReader ps; read_all psr sizes) = Done (ex_data, true))).
Proof.
  refine (received_parts_are_the_block ex_data BlockPartSizeBytes ex_full [ex_forged; ex_part] _ _ _ _ _).
  - reflexivity.
  - reflexivity.
  - by_decide.
  - vm_compute. reflexivity.
  - repeat constructor; vm_compute; first [reflexivity|discriminate].
Defined.

Example ex_transfer :
  (ps ← add_all (Some (awaiting ex_full)) [ex_forged; ex_part];
   match ps with Some ps => psr ← GetReader ps; read_all psr [2; 2; 2] | None => Panic "" end) = Done (ex_data, true).
Proof. vm_compute. reflexivity. Qed.

Lemma genuine_parts_accepted_witness :
  Forall (λ p, part_ValidateBasic p = None) [ex_part; ex_part] ∧
  ∃ ps, add_all (Some (awaiting ex_full)) [ex_part; ex_part] = Done (Some ps) ∧ inv ps ∧
    (∀ i p, parts ps !! i = Some (Some p) ↔ parts ex_full !! i = Some (Some p) ∧ p ∈ [ex_part; ex_part]) ∧
    ((∀ p, Some p ∈ parts ex_full → p ∈ [ex_part; ex_part]) → IsComplete ps = true ∧ parts ps = parts ex_full).
Proof.
  refine (genuine_parts_accepted ex_data ex_full [ex_part; ex_part] _ _ _ _).
  - reflexivity.
  - by_decide.
  - vm_compute. reflexivity.
  - assert (Some ex_part ∈ parts ex_full) by (replace (parts ex_full) with [Some ex_part] by (vm_compute; reflexivity); constructor).
    repeat constructor; assumption.
Defined.

End PartSet.
