(* ===== verification/Proposal.v ===== *)
(** * Proposal: [types/proposal.go], the canonical proposal of
    [types/canonical.go] and [SynchronyParams] of [types/params.go]

    Block proposals, their basic validation and the timeliness test of
    proposer-based timestamps.  A [time.Time] is its instant, so
    [cmttime.Canonical], which strips the monotonic clock and the time zone, is the
    identity.  The encoding of the canonical proposal and the decoding
    of both canonical messages are generated code and enter through the class
    [MsgCodec]. *)

From S2P Require Import Prelude Crypto Votes.

Local Open Scope Z_scope.

Module Proposal.
Import Votes.

Record Proposal := mkProposal {
  pType : Z; pHeight : Z; pRound : Z; POLRound : Z; pBlockID : BlockID;
  pTimestamp : Z; pSignature : list Z
}.

#[export] Instance Proposal_eq_dec : EqDecision Proposal.
Proof. solve_decision. Defined.

Definition NewProposal (height round polRound : Z) (blockID : BlockID) (ts : Z) : Proposal :=
  {| pType := ProposalType; pHeight := height; pRound := round; POLRound := polRound;
     pBlockID := blockID; pTimestamp := ts; pSignature := [] |}.

Definition proposal_ValidateBasic (p : Proposal) : option string :=
  if negb (pType p =? ProposalType) then Some "invalid Type"%string
  else if pHeight p <=? 0 then Some "non positive Height"%string
  else if pRound p <? 0 then Some "negative Round"%string
  else if POLRound p <? -1 then Some "negative POLRound (exception: -1)"%string
  else if pRound p <=? POLRound p then Some "POLRound >= Round"%string
  else if negb (block_ValidateBasic (pBlockID p)) then Some "wrong BlockID"%string
  else if negb (IsComplete (pBlockID p)) then Some "expected a complete, non-empty BlockID"%string
  else if zlen (pSignature p) =? 0 then Some "signature is missing"%string
  else if MaxSignatureSize <? zlen (pSignature p) then Some "signature is too big"%string
  else None.

(** ** Timeliness *)

Record SynchronyParams := mkSynchrony { Precision : Z; MessageDelay : Z }.

Definition IsTimely (p : Proposal) (recvTime : Z) (sp : SynchronyParams) : bool :=
  let lhs := pTimestamp p - Precision sp in
  let rhs := pTimestamp p + MessageDelay sp + Precision sp in
  negb ((recvTime <? lhs) || (rhs <? recvTime)).

(** ** Canonical form *)

Record CanonicalProposal := mkCanonicalProposal {
  cp_Type : Z; cp_Height : Z; cp_Round : Z; cp_POLRound : Z; cp_BlockID : option BlockID;
  cp_Timestamp : Z; cp_ChainID : string
}.

#[export] Instance CanonicalVote_eq_dec : EqDecision CanonicalVote.
Proof. solve_decision. Defined.
#[export] Instance CanonicalProposal_eq_dec : EqDecision CanonicalProposal.
Proof. solve_decision. Defined.

Definition CanonicalizeProposal (chainID : string) (p : Proposal) : outcome CanonicalProposal :=
  cbid ← CanonicalizeBlockID (pBlockID p);
  Done {| cp_Type := ProposalType; cp_Height := pHeight p; cp_Round := pRound p;
          cp_POLRound := POLRound p; cp_BlockID := cbid; cp_Timestamp := pTimestamp p;
          cp_ChainID := chainID |}.

(** The rest of [protoio] on the canonical messages: [MarshalDelimited] of a proposal
    and [UnmarshalDelimited] of both. *)
Class MsgCodec := {
  msg_sign :: SignCodec;
  encode_proposal : CanonicalProposal → list Z;
  decode_vote : list Z → option CanonicalVote;
  decode_proposal : list Z → option CanonicalProposal
}.

(** What callers rely on: decoding inverts encoding, and a delimited message is never
    empty because it starts with its length. *)
Class MsgCodecLaws `{MsgCodec} : Prop := {
  decode_encode_vote c : decode_vote (encode_vote c) = Some c;
  decode_encode_proposal c : decode_proposal (encode_proposal c) = Some c;
  encode_vote_nonempty c : encode_vote c ≠ [];
  encode_proposal_nonempty c : encode_proposal c ≠ []
}.

Section sign_bytes.
Context `{MsgCodec}.

Definition ProposalSignBytes (chainID : string) (p : Proposal) : outcome (list Z) :=
  pb ← CanonicalizeProposal chainID p; Done (encode_proposal pb).

End sign_bytes.

(** ** A concrete codec, for examples: a message is the number that encodes it *)

#[export] Instance PartSetHeader_countable : Countable PartSetHeader.
Proof.
  apply (inj_countable' (λ p, (psh_Total p, psh_Hash p)) (λ '(t, h), mkPSH t h)). by intros [].
Defined.
#[export] Instance BlockID_countable : Countable BlockID.
Proof. apply (inj_countable' (λ b, (Hash b, PSH b)) (λ '(h, p), mkBlockID h p)). by intros []. Defined.
#[export] Instance CanonicalVote_countable : Countable CanonicalVote.
Proof.
  apply (inj_countable' (λ c, (cv_Type c, cv_Height c, cv_Round c, cv_BlockID c, cv_Timestamp c, cv_ChainID c))
           (λ '(t, h, r, b, s, i), mkCanonicalVote t h r b s i)). by intros [].
Defined.
#[export] Instance CanonicalProposal_countable : Countable CanonicalProposal.
Proof.
  apply (inj_countable' (λ c, (cp_Type c, cp_Height c, cp_Round c, cp_POLRound c, cp_BlockID c, cp_Timestamp c, cp_ChainID c))
           (λ '(t, h, r, l, b, s, i), mkCanonicalProposal t h r l b s i)). by intros [].
Defined.

Definition number_codec {A} `{Countable A} (a : A) : list Z := [Zpos (encode a)].
Definition unnumber_codec {A} `{Countable A} (l : list Z) : option A :=
  match l with [Zpos p] => decode p | _ => None end.

Definition toy_msg_codec : MsgCodec := {|
  msg_sign := {| encode_vote := number_codec; encode_ext c := [ce_Height c; ce_Round c] ++ ce_Extension c |};
  encode_proposal := number_codec;
  decode_vote := unnumber_codec;
  decode_proposal := unnumber_codec
|}.

Lemma toy_msg_codec_laws : @MsgCodecLaws toy_msg_codec.
Proof. split; intros c; try done; apply decode_encode. Qed.

End Proposal.
