(* ===== verification/Commit.v ===== *)
(** * Commit: commits and extended commits of [types/block.go], the conversion of
    votes to commit signatures of [types/vote.go], and the weighted median of
    [types/time/time.go]

    A commit stores per validator index a signature with a flag that says what
    was signed: nothing, the block of the commit, or nil. *)

From S2P Require Import Prelude BitArray Crypto ValidatorSet Votes.

Local Open Scope Z_scope.

Module Commit.
Import Votes ValidatorSet.

(** ** Commit signatures *)

Definition BlockIDFlagAbsent : Z := 1.
Definition BlockIDFlagCommit : Z := 2.
Definition BlockIDFlagNil : Z := 3.

Definition MaxVoteExtensionSize : Z := 1024 * 1024.

Record CommitSig := mkCommitSig {
  cs_Flag : Z; cs_Address : list Z; cs_Timestamp : Z; cs_Signature : list Z
}.

Record ExtendedCommitSig := mkExtCommitSig {
  ecs_CommitSig : CommitSig; ecs_Extension : list Z; ecs_ExtensionSignature : list Z
}.

#[export] Instance CommitSig_eq_dec : EqDecision CommitSig.
Proof. solve_decision. Defined.
#[export] Instance ExtendedCommitSig_eq_dec : EqDecision ExtendedCommitSig.
Proof. solve_decision. Defined.

Definition time_IsZero (t : Z) : bool := t =? 0.

Definition NewCommitSigAbsent : CommitSig :=
  {| cs_Flag := BlockIDFlagAbsent; cs_Address := []; cs_Timestamp := 0; cs_Signature := [] |}.

Definition NewExtendedCommitSigAbsent : ExtendedCommitSig :=
  {| ecs_CommitSig := NewCommitSigAbsent; ecs_Extension := []; ecs_ExtensionSignature := [] |}.

Definition cs_BlockID (cs : CommitSig) (commitBlockID : BlockID) : outcome BlockID :=
  if cs_Flag cs =? BlockIDFlagAbsent then Done nil_BlockID
  else if cs_Flag cs =? BlockIDFlagCommit then Done commitBlockID
  else if cs_Flag cs =? BlockIDFlagNil then Done nil_BlockID
  else Panic "Unknown BlockIDFlag".

Definition known_flag (f : Z) : bool :=
  (f =? BlockIDFlagAbsent) || (f =? BlockIDFlagCommit) || (f =? BlockIDFlagNil).

Definition cs_ValidateBasic (cs : CommitSig) : option string :=
  if negb (known_flag (cs_Flag cs)) then Some "unknown BlockIDFlag"%string
  else if cs_Flag cs =? BlockIDFlagAbsent then
    if negb (zlen (cs_Address cs) =? 0) then Some "validator address is present"%string
    else if negb (time_IsZero (cs_Timestamp cs)) then Some "time is present"%string
    else if negb (zlen (cs_Signature cs) =? 0) then Some "signature is present"%string
    else None
  else if negb (zlen (cs_Address cs) =? AddressSize) then Some "wrong ValidatorAddress size"%string
  else if zlen (cs_Signature cs) =? 0 then Some "signature is missing"%string
  else if MaxSignatureSize <? zlen (cs_Signature cs) then Some "signature is too big"%string
  else None.

Definition ecs_ValidateBasic (ecs : ExtendedCommitSig) : option string :=
  match cs_ValidateBasic (ecs_CommitSig ecs) with
  | Some e => Some e
  | None =>
      if cs_Flag (ecs_CommitSig ecs) =? BlockIDFlagCommit then
        if MaxVoteExtensionSize <? zlen (ecs_Extension ecs) then Some "vote extension is too big"%string
        else if MaxSignatureSize <? zlen (ecs_ExtensionSignature ecs)
        then Some "vote extension signature is too big"%string
        else None
      else if (zlen (ecs_ExtensionSignature ecs) =? 0) && negb (zlen (ecs_Extension ecs) =? 0)
      then Some "vote extension signature absent on vote with extension"%string
      else None
  end.

Definition ecs_EnsureExtension (ecs : ExtendedCommitSig) (extEnabled : bool) : option string :=
  let forBlock := cs_Flag (ecs_CommitSig ecs) =? BlockIDFlagCommit in
  if extEnabled then
    if forBlock && (zlen (ecs_ExtensionSignature ecs) =? 0)
    then Some "vote extension signature is missing"%string
    else if negb forBlock && negb (zlen (ecs_Extension ecs) =? 0)
    then Some "non-commit vote extension present"%string
    else if negb forBlock && negb (zlen (ecs_ExtensionSignature ecs) =? 0)
    then Some "non-commit vote extension signature present"%string
    else None
  else
    if negb (zlen (ecs_Extension ecs) =? 0)
    then Some "vote extension present but extensions disabled"%string
    else if negb (zlen (ecs_ExtensionSignature ecs) =? 0)
    then Some "vote extension signature present but extensions disabled"%string
    else None.

(** [vote.CommitSig] and [vote.ExtendedCommitSig]; the vote may be nil. *)
Definition vote_CommitSig (vote : option Vote) : outcome CommitSig :=
  match vote with
  | None => Done NewCommitSigAbsent
  | Some v =>
      flag ← (if IsComplete (vBlockID v) then Done BlockIDFlagCommit
              else if IsNil (vBlockID v) then Done BlockIDFlagNil
              else Panic "Invalid vote - expected BlockID to be either empty or complete");
      Done {| cs_Flag := flag; cs_Address := ValidatorAddress v;
              cs_Timestamp := Timestamp v; cs_Signature := Signature v |}
  end.

Definition vote_ExtendedCommitSig (vote : option Vote) : outcome ExtendedCommitSig :=
  match vote with
  | None => Done NewExtendedCommitSigAbsent
  | Some v =>
      cs ← vote_CommitSig (Some v);
      Done {| ecs_CommitSig := cs; ecs_Extension := Extension v;
              ecs_ExtensionSignature := ExtensionSignature v |}
  end.

(** ** Commits.  The memoized hash is not kept: it is a cache of a function of the
    signatures. *)

Record Commit := mkCommit {
  cHeight : Z; cRound : Z; cBlockID : BlockID; Signatures : list CommitSig
}.

Record ExtendedCommit := mkExtendedCommit {
  ecHeight : Z; ecRound : Z; ecBlockID : BlockID; ExtendedSignatures : list ExtendedCommitSig
}.

#[export] Instance Commit_eq_dec : EqDecision Commit.
Proof. solve_decision. Defined.

Definition Clone (commit : Commit) : Commit :=
  {| cHeight := cHeight commit; cRound := cRound commit; cBlockID := cBlockID commit;
     Signatures := BitArray.go_copy (replicate (length (Signatures commit)) NewCommitSigAbsent)
                     (Signatures commit) |}.

Definition GetVote (commit : Commit) (valIdx : Z) : outcome Vote :=
  commitSig ← idx (Signatures commit) valIdx;
  bid ← cs_BlockID commitSig (cBlockID commit);
  Done {| Type_ := PrecommitType; Height := cHeight commit; Round := cRound commit;
          vBlockID := bid; Timestamp := cs_Timestamp commitSig;
          ValidatorAddress := cs_Address commitSig; ValidatorIndex := valIdx;
          Signature := cs_Signature commitSig; Extension := []; ExtensionSignature := [] |}.

Definition GetExtendedVote (ec : ExtendedCommit) (valIndex : Z) : outcome Vote :=
  ecs ← idx (ExtendedSignatures ec) valIndex;
  let cs := ecs_CommitSig ecs in
  bid ← cs_BlockID cs (ecBlockID ec);
  Done {| Type_ := PrecommitType; Height := ecHeight ec; Round := ecRound ec;
          vBlockID := bid; Timestamp := cs_Timestamp cs;
          ValidatorAddress := cs_Address cs; ValidatorIndex := valIndex;
          Signature := cs_Signature cs; Extension := ecs_Extension ecs;
          ExtensionSignature := ecs_ExtensionSignature ecs |}.

Definition commit_VoteSignBytes `{PubKeyOps, SignCodec} (commit : Commit) (chainID : string)
    (valIdx : Z) : outcome (list Z) :=
  v ← GetVote commit valIdx; VoteSignBytes chainID v.

Definition commit_Size (commit : option Commit) : Z :=
  match commit with None => 0 | Some c => zlen (Signatures c) end.

Fixpoint first_error {A} (f : A → option string) (l : list A) : option string :=
  match l with
  | [] => None
  | x :: l => match f x with Some e => Some e | None => first_error f l end
  end.

Definition commit_ValidateBasic (commit : Commit) : option string :=
  if cHeight commit <? 0 then Some "negative Height"%string
  else if cRound commit <? 0 then Some "negative Round"%string
  else if 1 <=? cHeight commit then
    if IsNil (cBlockID commit) then Some "commit cannot be for nil block"%string
    else if zlen (Signatures commit) =? 0 then Some "no signatures in commit"%string
    else first_error cs_ValidateBasic (Signatures commit)
  else None.

Definition ec_ValidateBasic (ec : ExtendedCommit) : option string :=
  if ecHeight ec <? 0 then Some "negative Height"%string
  else if ecRound ec <? 0 then Some "negative Round"%string
  else if 1 <=? ecHeight ec then
    if IsNil (ecBlockID ec) then Some "extended commit cannot be for nil block"%string
    else if zlen (ExtendedSignatures ec) =? 0 then Some "no signatures in commit"%string
    else first_error ecs_ValidateBasic (ExtendedSignatures ec)
  else None.

Definition EnsureExtensions (ec : ExtendedCommit) (extEnabled : bool) : option string :=
  first_error (λ ecs, ecs_EnsureExtension ecs extEnabled) (ExtendedSignatures ec).

Definition ToCommit (ec : ExtendedCommit) : Commit :=
  {| cHeight := ecHeight ec; cRound := ecRound ec; cBlockID := ecBlockID ec;
     Signatures := ecs_CommitSig <$> ExtendedSignatures ec |}.

Definition WrappedExtendedCommit (commit : Commit) : ExtendedCommit :=
  {| ecHeight := cHeight commit; ecRound := cRound commit; ecBlockID := cBlockID commit;
     ExtendedSignatures :=
       (λ s, {| ecs_CommitSig := s; ecs_Extension := []; ecs_ExtensionSignature := [] |})
         <$> Signatures commit |}.

Definition ec_BitArray (ec : ExtendedCommit) : outcome (option BitArray.BitArray) :=
  BitArray.NewBitArrayFromFn (zlen (ExtendedSignatures ec))
    (λ i, match ExtendedSignatures ec !! Z.to_nat i with
          | Some ecs => negb (cs_Flag (ecs_CommitSig ecs) =? BlockIDFlagAbsent)
          | None => false
          end).

Definition ec_IsCommit (ec : ExtendedCommit) : bool := negb (zlen (ExtendedSignatures ec) =? 0).

(** ** Feature heights *)

Definition featureEnabled (enableHeight currentHeight : Z) : outcome bool :=
  if currentHeight <? 1 then Panic "cannot check if feature is enabled for height < 1"
  else if enableHeight <=? 0 then Done false
  else Done (enableHeight <=? currentHeight).

(** ** The weighted median of the commit's timestamps *)

Record WeightedTime := mkWeightedTime { wtime : Z; weight : Z }.

(** [UnixNano] of a time given in nanoseconds since the zero time. *)
Definition unixNano (t : Z) : Z := wrap64 (t - 62135596800000000000).

(** The comparison of the [sort.Slice] call: nil entries go last. *)
Definition wt_less (a b : option WeightedTime) : bool :=
  match a, b with
  | None, _ => false
  | Some _, None => true
  | Some a, Some b => unixNano (wtime a) <? unixNano (wtime b)
  end.

Definition wt_le (a b : option WeightedTime) : Prop := wt_less b a = false.

#[export] Instance wt_le_dec a b : Decision (wt_le a b).
Proof. unfold wt_le. apply _. Defined.

Fixpoint median_scan (l : list (option WeightedTime)) (median : Z) : Z :=
  match l with
  | [] => 0
  | None :: l => median_scan l median
  | Some w :: l => if median <=? weight w then wtime w
                   else median_scan l (wrap64 (median - weight w))
  end.

Definition WeightedMedian (weightedTimes : list (option WeightedTime)) (totalVotingPower : Z) : Z :=
  median_scan (merge_sort wt_le weightedTimes) (Z.quot totalVotingPower 2).

Section median.
Context `{PubKeyOps}.

(** The loop of [MedianTime]: the total and the weighted times so far. *)
Fixpoint median_collect (validators : ValidatorSet) (sigs : list CommitSig) (total : Z)
    : list (option WeightedTime) * Z :=
  match sigs with
  | [] => ([], total)
  | commitSig :: sigs =>
      let '(wt, total') :=
        if cs_Flag commitSig =? BlockIDFlagAbsent then (None, total)
        else match (GetByAddressMut validators (cs_Address commitSig)).2 with
             | Some val => (Some {| wtime := cs_Timestamp commitSig; weight := VotingPower val |},
                            wrap64 (total + VotingPower val))
             | None => (None, total)
             end in
      let '(l, t) := median_collect validators sigs total' in (wt :: l, t)
  end.

Definition MedianTime (commit : Commit) (validators : ValidatorSet) : Z :=
  let '(weightedTimes, totalVotingPower) := median_collect validators (Signatures commit) 0 in
  WeightedMedian weightedTimes totalVotingPower.

End median.

(** ** The median: a characterisation that does not mention the sort *)

Definition wgt (P : Z → bool) (o : option WeightedTime) : Z :=
  match o with Some w => if P (wtime w) then weight w else 0 | None => 0 end.

Definition all_times (_ : Z) : bool := true.

(** The times [UnixNano] represents exactly. *)
Definition nano_range (t : Z) : Prop := in_int64 (t - 62135596800000000000).

#[export] Instance nano_range_dec t : Decision (nano_range t).
Proof. unfold nano_range. apply _. Defined.

Definition good_entry (o : option WeightedTime) : Prop :=
  match o with Some w => 0 < weight w ∧ nano_range (wtime w) | None => True end.

#[export] Instance good_entry_dec o : Decision (good_entry o).
Proof. destruct o; simpl; apply _. Defined.

#[export] Instance wt_le_total : Total wt_le.
Proof.
  intros [a|] [b|]; unfold wt_le; simpl; auto.
  destruct (Z.ltb_spec (unixNano (wtime b)) (unixNano (wtime a))); auto.
  right. apply Z.ltb_ge. lia.
Qed.

#[export] Instance wt_le_trans : Transitive wt_le.
Proof.
  intros [a|] [b|] [c|]; unfold wt_le; simpl; auto; try done.
  rewrite !Z.ltb_ge. lia.
Qed.

Lemma wt_le_time a b :
  nano_range (wtime a) → nano_range (wtime b) → wt_le (Some a) (Some b) → wtime a ≤ wtime b.
Proof.
  unfold nano_range, wt_le. cbn [wt_less]. unfold unixNano. intros Ha Hb.
  rewrite !wrap64_id, Z.ltb_ge by done. lia.
Qed.

Lemma wgt_nonneg P o : good_entry o → 0 ≤ wgt P o.
Proof. destruct o as [w|]; simpl; [|lia]. intros []. destruct (P _); lia. Qed.

Lemma wgt_sum_nonneg P l : Forall good_entry l → 0 ≤ zsum (wgt P) l.
Proof.
  intros Hl. apply zsum_nonneg. intros o Ho. apply wgt_nonneg.
  by eapply Forall_forall in Hl.
Qed.

Lemma wgt_sum_mono P Q l :
  Forall good_entry l → (∀ w, Some w ∈ l → P (wtime w) = true → Q (wtime w) = true) →
  zsum (wgt P) l ≤ zsum (wgt Q) l.
Proof.
  intros Hl HPQ. apply zsum_le. intros [w|] Hw; simpl; [|lia].
  eapply Forall_forall in Hl; [|done]. destruct Hl as [? _].
  specialize (HPQ w Hw). destruct (P (wtime w)), (Q (wtime w)); simpl in *; lia || naive_solver.
Qed.

Lemma some_entry P l : 0 < zsum (wgt P) l → ∃ w, Some w ∈ l.
Proof.
  induction l as [|[w|] l IH]; simpl; intros Hs; [lia|exists w; set_solver|].
  destruct IH as [w Hw]; [done|]. exists w. set_solver.
Qed.

(** Where the scan stops. *)
Lemma median_scan_split l m :
  Forall good_entry l → in_int64 m → 0 ≤ m ≤ zsum (wgt all_times) l → (∃ w, Some w ∈ l) →
  ∃ pre w post, l = pre ++ Some w :: post ∧ median_scan l m = wtime w ∧
    (zsum (wgt all_times) pre = 0 ∨ zsum (wgt all_times) pre < m) ∧
    m ≤ zsum (wgt all_times) pre + weight w.
Proof.
  revert m. induction l as [|o l IH]; intros m Hl Hm Hb [w Hw]; [set_solver|].
  apply Forall_cons in Hl as [Ho Hl]. destruct o as [w0|]; simpl in Hb.
  - simpl. destruct (Z.leb_spec m (weight w0)).
    + exists [], w0, l. simpl. split_and!; auto; lia.
    + simpl in Ho. rewrite wrap64_id by (unfold_ints; lia).
      destruct (IH (m - weight w0)) as (pre & w1 & post & -> & -> & Hpre & Hle);
        [done|unfold_ints; lia|lia| |].
      { apply (some_entry all_times). lia. }
      exists (Some w0 :: pre), w1, post. simpl. split_and!; auto; lia.
  - destruct (IH m) as (pre & w1 & post & -> & Hs & Hpre & Hle); [done..|exists w; set_solver|].
    exists (None :: pre), w1, post. simpl. split_and!; auto; lia.
Qed.

(** The result is the time of an entry; at least half of the weight (rounded
    down) is not later than it, and at most half is earlier. *)
Lemma WeightedMedian_spec l total :
  Forall good_entry l → total = zsum (wgt all_times) l → 0 < total ≤ max_int64 →
  let t := WeightedMedian l total in
  (∃ w, Some w ∈ l ∧ t = wtime w) ∧
  total `div` 2 ≤ zsum (wgt (λ s, s <=? t)) l ∧
  2 * zsum (wgt (λ s, s <? t)) l ≤ total.
Proof.
  intros Hl -> Htot t. unfold t, WeightedMedian in *. clear t.
  pose proof (merge_sort_Permutation wt_le l) as Hp.
  pose proof (StronglySorted_merge_sort wt_le l) as Hs.
  set (l' := merge_sort wt_le l) in *. rewrite <-Hp in Hl.
  rewrite <-!(λ f, zsum_perm f l' l Hp) in *.
  set (W := zsum (wgt all_times) l') in *. rewrite Z.quot_div_nonneg by lia.
  pose proof (Z.div_mod W 2 ltac:(lia)). pose proof (Z.mod_pos_bound W 2 ltac:(lia)).
  destruct (median_scan_split l' (W `div` 2)) as (pre & w & post & E & -> & Hpre & Hle);
    [done|unfold_ints; lia|lia|apply (some_entry all_times); lia|].
  assert (Hin : Some w ∈ l') by (rewrite E; set_solver).
  assert (Hgw : good_entry (Some w)) by (by eapply Forall_forall in Hl).
  split; [exists w; by rewrite <-Hp|].
  rewrite E in Hs, Hl. apply StronglySorted_app in Hs as (Hcross & _ & Hs).
  apply StronglySorted_inv in Hs as [_ Hpost]. apply Forall_app in Hl as [Hgpre Hgpost].
  apply Forall_cons in Hgpost as [_ Hgpost].
  assert (Hbefore : ∀ v, Some v ∈ pre → wtime v ≤ wtime w).
  { intros v Hv. eapply Forall_forall in Hgpre; [|done]. destruct Hgpre.
    apply wt_le_time; [done|apply Hgw|]. apply Hcross; set_solver. }
  assert (Hafter : ∀ v, Some v ∈ post → wtime w ≤ wtime v).
  { intros v Hv. eapply Forall_forall in Hgpost; [|done]. destruct Hgpost.
    apply wt_le_time; [apply Hgw|done|]. by eapply Forall_forall in Hpost. }
  rewrite E, !zsum_app. simpl. rewrite Z.leb_refl, Z.ltb_irrefl.
  pose proof (wgt_sum_nonneg (λ s, s <=? wtime w) post Hgpost).
  assert (zsum (wgt all_times) pre ≤ zsum (wgt (λ s, s <=? wtime w)) pre).
  { apply wgt_sum_mono; [done|]. intros v Hv _. apply Z.leb_le. auto. }
  assert (zsum (wgt (λ s, s <? wtime w)) pre ≤ zsum (wgt all_times) pre)
    by (by apply wgt_sum_mono).
  assert (zsum (wgt (λ s, s <? wtime w)) post = 0).
  { transitivity (zsum (λ _ : option WeightedTime, 0) post).
    - apply zsum_ext. intros [v|] Hv; simpl; [|done].
      destruct (Z.ltb_spec (wtime v) (wtime w)); [|done]. specialize (Hafter v Hv). lia.
    - clear. induction post; simpl; lia. }
  lia.
Qed.

Section median_time.
Context `{PubKeyOps}.

(** The power a signature adds to the median's total. *)
Definition sig_power (validators : ValidatorSet) (P : CommitSig → bool) (cs : CommitSig) : Z :=
  if cs_Flag cs =? BlockIDFlagAbsent then 0
  else match (GetByAddressMut validators (cs_Address cs)).2 with
       | Some val => if P cs then VotingPower val else 0
       | None => 0
       end.

Lemma median_collect_spec vals sigs total P :
  let r := median_collect vals sigs total in
  0 ≤ total → (∀ cs, cs ∈ sigs → 0 ≤ sig_power vals (λ _, true) cs) →
  total + zsum (sig_power vals (λ _, true)) sigs ≤ max_int64 →
  zsum (wgt P) r.1 = zsum (sig_power vals (λ cs, P (cs_Timestamp cs))) sigs ∧
  r.2 = total + zsum (sig_power vals (λ _, true)) sigs.
Proof.
  revert total. induction sigs as [|cs sigs IH]; intros total r Ht Hnn Hle; subst r; simpl.
  { split; [done|lia]. }
  pose proof (Hnn cs ltac:(set_solver)) as Hcs. simpl in Hle.
  assert (Hs : 0 ≤ zsum (sig_power vals (λ _, true)) sigs).
  { apply zsum_nonneg. set_solver. }
  assert (HE : ∀ Q, sig_power vals Q cs =
    if cs_Flag cs =? BlockIDFlagAbsent then 0
    else match (GetByAddressMut vals (cs_Address cs)).2 with
         | Some val => if Q cs then VotingPower val else 0
         | None => 0
         end) by done.
  rewrite !HE in Hcs, Hle |- *.
  destruct (cs_Flag cs =? BlockIDFlagAbsent);
    [|destruct (GetByAddressMut vals (cs_Address cs)).2 as [val|]].
  - specialize (IH total). destruct (median_collect _ _ _) as [l t]; simpl in *.
    destruct IH as [-> ->]; [lia|set_solver|lia|]. split; [done|rewrite HE; lia].
  - rewrite wrap64_id by (unfold_ints; lia). specialize (IH (total + VotingPower val)).
    destruct (median_collect _ _ _) as [l t]; simpl in *.
    destruct IH as [-> ->]; [lia|set_solver|lia|]. split; [done|rewrite HE; lia].
  - specialize (IH total). destruct (median_collect _ _ _) as [l t]; simpl in *.
    destruct IH as [-> ->]; [lia|set_solver|lia|]. split; [done|rewrite HE; lia].
Qed.

Lemma median_collect_good vals sigs total :
  (∀ v, v ∈ Validators vals → 0 < VotingPower v) →
  (∀ cs, cs ∈ sigs → nano_range (cs_Timestamp cs)) →
  Forall good_entry (median_collect vals sigs total).1.
Proof.
  intros Hv. revert total. induction sigs as [|cs sigs IH]; intros total Hts; simpl; [constructor|].
  assert (IH' : ∀ t, Forall good_entry (median_collect vals sigs t).1) by (intros; apply IH; set_solver).
  destruct (cs_Flag cs =? BlockIDFlagAbsent);
    [|destruct (GetByAddressMut vals (cs_Address cs)) as [i [val|]] eqn:E];
    cbn [fst snd];
    match goal with |- context [median_collect vals sigs ?t] =>
      specialize (IH' t); destruct (median_collect vals sigs t) end;
    simpl in *; constructor; simpl; auto.
  split; [|apply Hts; set_solver]. apply Hv.
  apply (find_address_Some _ (cs_Address cs) 0 val). unfold GetByAddressMut in E. by rewrite E.
Qed.

End median_time.

Section median_claims.
Context `{PubKeyOps}.

Lemma sig_power_nonneg vals P cs :
  (∀ v, v ∈ Validators vals → 0 < VotingPower v) → 0 ≤ sig_power vals P cs.
Proof.
  intros Hpos. unfold sig_power. destruct (_ =? _); [lia|].
  destruct (find_address (Validators vals) (cs_Address cs) 0).2 as [v|] eqn:E;
    unfold GetByAddressMut; rewrite E; [|lia].
  apply find_address_Some in E as [E _]. destruct (P cs); [|lia].
  specialize (Hpos v E). lia.
Qed.

Lemma sig_power_mono vals sigs P Q :
  (∀ v, v ∈ Validators vals → 0 < VotingPower v) →
  (∀ cs, cs ∈ sigs → P cs = true → Q cs = true) →
  zsum (sig_power vals P) sigs ≤ zsum (sig_power vals Q) sigs.
Proof.
  intros Hpos HPQ. apply zsum_le. intros cs Hcs. specialize (HPQ cs Hcs). unfold sig_power.
  destruct (_ =? _); [lia|].
  destruct (find_address (Validators vals) (cs_Address cs) 0).2 as [v|] eqn:E;
    unfold GetByAddressMut; rewrite E; [|lia].
  apply find_address_Some in E as [E _]. specialize (Hpos v E).
  destruct (P cs), (Q cs); naive_solver lia.
Qed.

Lemma sig_power_compl vals sigs P :
  zsum (sig_power vals (λ _, true)) sigs =
    zsum (sig_power vals P) sigs + zsum (sig_power vals (λ cs, negb (P cs))) sigs.
Proof.
  rewrite <-zsum_add. apply zsum_ext. intros cs _. unfold sig_power.
  destruct (_ =? _); [done|]. destruct (GetByAddressMut _ _).2; [|done].
  destruct (P cs); simpl; lia.
Qed.

(** when the faulty signers of a commit hold less than half of its signing
    power, by more than one unit, [MedianTime] lies between two timestamps of
    signers that are not faulty, whatever times the faulty signers chose. *)
Theorem MedianTime_between_honest vals commit (faulty : CommitSig → bool) :
  let power := λ P, zsum (sig_power vals P) (Signatures commit) in
  (∀ v, v ∈ Validators vals → 0 < VotingPower v) →
  (∀ cs, cs ∈ Signatures commit → nano_range (cs_Timestamp cs)) →
  power (λ _, true) ≤ max_int64 →
  2 * power faulty + 1 < power (λ _, true) →
  ∃ lo hi, lo ∈ Signatures commit ∧ hi ∈ Signatures commit ∧
    faulty lo = false ∧ faulty hi = false ∧
    cs_Timestamp lo ≤ MedianTime commit vals ≤ cs_Timestamp hi.
Proof.
  intros power Hpos Hts Hmax Hhalf. unfold MedianTime.
  set (sigs := Signatures commit) in *.
  pose proof (λ P cs, sig_power_nonneg vals P cs Hpos) as Hnn.
  assert (Hsplit : ∀ P Q, (∀ cs, cs ∈ sigs → P cs = true → Q cs = true) → power P ≤ power Q)
    by (intros P Q; by apply sig_power_mono).
  assert (Hcompl : ∀ P, power (λ _, true) = power P + power (λ cs, negb (P cs)))
    by (intros P; apply sig_power_compl).
  pose proof (λ P, median_collect_spec vals sigs 0 P ltac:(lia) (λ cs _, Hnn _ cs) Hmax) as Hspec.
  pose proof (median_collect_good vals sigs 0 Hpos Hts) as Hgood.
  destruct (median_collect vals sigs 0) as [l total]. cbn [fst snd] in *.
  change (zsum (sig_power vals (λ _, true)) sigs) with (power (λ _, true)) in Hspec.
  assert (Hf : 0 ≤ power faulty) by (by apply zsum_nonneg).
  destruct (Hspec all_times) as [Hall Htot].
  destruct (WeightedMedian_spec l total Hgood) as (_ & Hle & Hlt);
    [rewrite Hall; by rewrite Htot|lia|].
  set (t := WeightedMedian l total) in *.
  destruct (Hspec (λ s, s <=? t)) as [HLe _]. destruct (Hspec (λ s, s <? t)) as [HLt _].
  rewrite HLe in Hle. rewrite HLt in Hlt. clear Hspec HLe HLt Hall Hgood.
  change (zsum (sig_power vals (λ cs, cs_Timestamp cs <=? t)) sigs)
    with (power (λ cs, cs_Timestamp cs <=? t)) in Hle.
  change (zsum (sig_power vals (λ cs, cs_Timestamp cs <? t)) sigs)
    with (power (λ cs, cs_Timestamp cs <? t)) in Hlt.
  pose proof (Z.div_mod total 2 ltac:(lia)). pose proof (Z.mod_pos_bound total 2 ltac:(lia)).
  destruct (decide (Exists (λ cs, faulty cs = false ∧ cs_Timestamp cs ≤ t) sigs)) as [Hlo|Hlo].
  2: { exfalso. assert (power (λ cs, cs_Timestamp cs <=? t) ≤ power faulty); [|lia].
       apply Hsplit. intros cs Hcs Ht%Z.leb_le. destruct (faulty cs) eqn:?; [done|].
       exfalso. apply Hlo, Exists_exists. eauto. }
  destruct (decide (Exists (λ cs, faulty cs = false ∧ t ≤ cs_Timestamp cs) sigs)) as [Hhi|Hhi].
  2: { exfalso. assert (power (λ cs, negb (faulty cs)) ≤ power (λ cs, cs_Timestamp cs <? t)).
       - apply Hsplit. intros cs Hcs Ht%negb_true_iff. apply Z.ltb_lt.
         destruct (Z.lt_ge_cases (cs_Timestamp cs) t); [done|].
         exfalso. apply Hhi, Exists_exists. eauto.
       - pose proof (Hcompl faulty). lia. }
  apply Exists_exists in Hlo as (lo & ? & ? & ?). apply Exists_exists in Hhi as (hi & ? & ? & ?).
  exists lo, hi. by split_and!.
Qed.

End median_claims.

Section median_examples.
#[local] Existing Instance toy_keys.

Definition ex_val (k : Z) (power : Z) : Validator := NewValidator (k : PubKey) power.
Definition ex_vals : ValidatorSet :=
  {| Validators := [ex_val 1 1; ex_val 2 1; ex_val 3 1; ex_val 4 1]; Proposer := None;
     totalVotingPower := 0; allKeysHaveSameType := true |}.
Definition ex_sig (k t : Z) : CommitSig :=
  {| cs_Flag := BlockIDFlagCommit; cs_Address := toy_address k; cs_Timestamp := t; cs_Signature := [k] |}.
Definition day (d : Z) : Z := 62135596800000000000 + d * 86400000000000.

Lemma MedianTime_between_honest_witness :
  let commit := {| cHeight := 5; cRound := 0; cBlockID := nil_BlockID;
                   Signatures := [ex_sig 1 (day 0); ex_sig 2 (day 3); ex_sig 3 (day 4); ex_sig 4 (day 5)] |} in
  ∃ lo hi, lo ∈ Signatures commit ∧ hi ∈ Signatures commit ∧
    bool_decide (cs_Address lo = toy_address 1) = false ∧ bool_decide (cs_Address hi = toy_address 1) = false ∧
    cs_Timestamp lo ≤ MedianTime commit ex_vals ≤ cs_Timestamp hi.
Proof.
  apply (MedianTime_between_honest ex_vals _ (λ cs, bool_decide (cs_Address cs = toy_address 1))).
  - apply Forall_forall. by_decide.
  - apply Forall_forall. by_decide.
  - by_decide.
  - by_decide.
Defined.

Lemma WeightedMedian_earliest l w total :
  Some w ∈ l → Z.quot total 2 ≤ weight w →
  (∀ o, o ∈ l → o = Some w ∨ wt_less (Some w) o = true) →
  WeightedMedian l total = wtime w.
Proof.
  intros Hin Hw Hfirst. unfold WeightedMedian.
  pose proof (merge_sort_Permutation wt_le l) as Hp.
  pose proof (StronglySorted_merge_sort wt_le l) as Hs.
  rewrite <-Hp in Hin. destruct (merge_sort wt_le l) as [|o l']; [set_solver|].
  assert (o ∈ l) as Ho by (rewrite <-Hp; set_solver).
  destruct (Hfirst o Ho) as [->|Hlt].
  - simpl. destruct (Z.leb_spec (Z.quot total 2) (weight w)); [done|lia].
  - apply elem_of_cons in Hin as [<-|Hin].
    { simpl in Hlt. rewrite Z.ltb_irrefl in Hlt. done. }
    apply StronglySorted_inv in Hs as [_ Hs]. eapply Forall_forall in Hs; [|done].
    unfold wt_le in Hs. congruence.
Qed.

(** the median time is not always one of an honest signer.  With four
    validators of power one and a commit signed by three of them, a single
    faulty signer, which holds less than a third of the power, decides the
    median by choosing a time earlier than the two honest ones. *)
Theorem MedianTime_faulty_minority t h1 h2 :
  nano_range t → nano_range h1 → nano_range h2 → t < h1 → t < h2 →
  MedianTime {| cHeight := 5; cRound := 0; cBlockID := nil_BlockID;
                Signatures := [ex_sig 1 t; ex_sig 2 h1; ex_sig 3 h2; NewCommitSigAbsent] |} ex_vals = t.
Proof.
  intros Ht H1 H2 Hlt1 Hlt2. unfold MedianTime.
  set (r := median_collect _ _ _).
  assert (r = ([Some {| wtime := t; weight := 1 |}; Some {| wtime := h1; weight := 1 |};
                Some {| wtime := h2; weight := 1 |}; None], 3)) as -> by reflexivity.
  change t with (wtime {| wtime := t; weight := 1 |}) at 2.
  assert (Hu : ∀ h, nano_range h → t < h → unixNano t <? unixNano h = true).
  { intros h Hh Hlt. unfold unixNano. rewrite (wrap64_id (t - _) Ht), (wrap64_id (h - _) Hh).
    apply Z.ltb_lt. lia. }
  apply WeightedMedian_earliest; [set_solver|done|].
  intros o Ho. repeat (apply elem_of_cons in Ho as [->|Ho]; [simpl; auto|]). set_solver.
Qed.

Lemma MedianTime_faulty_minority_witness :
  MedianTime {| cHeight := 5; cRound := 0; cBlockID := nil_BlockID;
                Signatures := [ex_sig 1 (day 0); ex_sig 2 (day 3); ex_sig 3 (day 4); NewCommitSigAbsent] |}
    ex_vals = day 0.
Proof. apply MedianTime_faulty_minority; by_decide. Defined.

End median_examples.

End Commit.
