(* ===== verification/VoteSet.v ===== *)
(** * VoteSet: [types/vote_set.go] and the vote sets built from commits of
    [types/block.go]

    The tally of the votes of one height, round and type.  Vote pointers are
    values (the source forbids mutating a vote after it was added); the
    [blockVotes] the map points to are mutated in place by the code, which the
    model does by writing the new value back under the key. *)

From S2P Require Import Prelude BitArray Crypto ValidatorSet Votes Commit.

Local Open Scope Z_scope.

Module VoteSet.
Import Votes ValidatorSet Commit.

(** ** The votes for one block *)

Record blockVotes := mkBlockVotes {
  peerMaj23 : bool;
  bitArray : option BitArray.BitArray;
  bvotes : list (option Vote);
  bsum : Z
}.

Definition newBlockVotes (peerMaj23 : bool) (numValidators : Z) : blockVotes :=
  {| peerMaj23 := peerMaj23; bitArray := BitArray.NewBitArray numValidators;
     bvotes := replicate (Z.to_nat numValidators) None; bsum := 0 |}.

Definition bv_addVerifiedVote (vs : blockVotes) (vote : Vote) (votingPower : Z) : outcome blockVotes :=
  existing ← idx (bvotes vs) (ValidatorIndex vote);
  match existing with
  | None =>
      ba ← BitArray.SetIndex (bitArray vs) (ValidatorIndex vote) true;
      l ← upd (bvotes vs) (ValidatorIndex vote) (Some vote);
      Done {| peerMaj23 := peerMaj23 vs; bitArray := ba.1; bvotes := l;
              bsum := wrap64 (bsum vs + votingPower) |}
  | Some _ => Done vs
  end.

(** [getByIndex]; the receiver may be nil. *)
Definition getByIndex (vs : option blockVotes) (index : Z) : outcome (option Vote) :=
  match vs with None => Done None | Some vs => idx (bvotes vs) index end.

Definition set_peerMaj23 (b : blockVotes) : blockVotes :=
  {| peerMaj23 := true; bitArray := bitArray b; bvotes := bvotes b; bsum := bsum b |}.

Section votes.
Context `{PubKeyOps, SignCodec}.

(** ** The vote set *)

Record VoteSet := mkVoteSet {
  chainID : string;
  height : Z;
  round : Z;
  signedMsgType : Z;
  valSet : ValidatorSet;
  extensionsEnabled : bool;
  votesBitArray : option BitArray.BitArray;
  votes : list (option Vote);
  sum : Z;
  maj23 : option BlockID;
  votesByBlock : gmap (list Z) blockVotes;
  peerMaj23s : gmap string BlockID
}.

(** Assignments to the fields. *)
Definition set_votes (vs : VoteSet) (ba : option BitArray.BitArray) (l : list (option Vote)) (s : Z) : VoteSet :=
  {| chainID := chainID vs; height := height vs; round := round vs;
     signedMsgType := signedMsgType vs; valSet := valSet vs;
     extensionsEnabled := extensionsEnabled vs; votesBitArray := ba; votes := l; sum := s;
     maj23 := maj23 vs; votesByBlock := votesByBlock vs; peerMaj23s := peerMaj23s vs |}.

Definition set_byBlock (vs : VoteSet) (m : gmap (list Z) blockVotes) : VoteSet :=
  {| chainID := chainID vs; height := height vs; round := round vs;
     signedMsgType := signedMsgType vs; valSet := valSet vs;
     extensionsEnabled := extensionsEnabled vs; votesBitArray := votesBitArray vs;
     votes := votes vs; sum := sum vs; maj23 := maj23 vs; votesByBlock := m;
     peerMaj23s := peerMaj23s vs |}.

Definition set_maj23 (vs : VoteSet) (b : BlockID) (l : list (option Vote)) : VoteSet :=
  {| chainID := chainID vs; height := height vs; round := round vs;
     signedMsgType := signedMsgType vs; valSet := valSet vs;
     extensionsEnabled := extensionsEnabled vs; votesBitArray := votesBitArray vs;
     votes := l; sum := sum vs; maj23 := Some b; votesByBlock := votesByBlock vs;
     peerMaj23s := peerMaj23s vs |}.

Definition set_valSet (vs : VoteSet) (vals : ValidatorSet) : VoteSet :=
  {| chainID := chainID vs; height := height vs; round := round vs;
     signedMsgType := signedMsgType vs; valSet := vals;
     extensionsEnabled := extensionsEnabled vs; votesBitArray := votesBitArray vs;
     votes := votes vs; sum := sum vs; maj23 := maj23 vs; votesByBlock := votesByBlock vs;
     peerMaj23s := peerMaj23s vs |}.

Definition set_peers (vs : VoteSet) (m : gmap string BlockID) : VoteSet :=
  {| chainID := chainID vs; height := height vs; round := round vs;
     signedMsgType := signedMsgType vs; valSet := valSet vs;
     extensionsEnabled := extensionsEnabled vs; votesBitArray := votesBitArray vs;
     votes := votes vs; sum := sum vs; maj23 := maj23 vs; votesByBlock := votesByBlock vs;
     peerMaj23s := m |}.

Definition set_extensions (vs : VoteSet) : VoteSet :=
  {| chainID := chainID vs; height := height vs; round := round vs;
     signedMsgType := signedMsgType vs; valSet := valSet vs;
     extensionsEnabled := true; votesBitArray := votesBitArray vs;
     votes := votes vs; sum := sum vs; maj23 := maj23 vs; votesByBlock := votesByBlock vs;
     peerMaj23s := peerMaj23s vs |}.

Definition new_vote_set (chainID : string) (height round signedMsgType : Z) (valSet : ValidatorSet)
    : VoteSet :=
  {| chainID := chainID; height := height; round := round; signedMsgType := signedMsgType;
     valSet := valSet; extensionsEnabled := false;
     votesBitArray := BitArray.NewBitArray (Size valSet);
     votes := replicate (Z.to_nat (Size valSet)) None; sum := 0; maj23 := None;
     votesByBlock := ∅; peerMaj23s := ∅ |}.

Definition NewVoteSet (chainID : string) (height round signedMsgType : Z) (valSet : ValidatorSet)
    : outcome VoteSet :=
  if height =? 0 then Panic "Cannot make VoteSet for height == 0, doesn't make sense."
  else Done (new_vote_set chainID height round signedMsgType valSet).

Definition NewExtendedVoteSet (chainID : string) (height round signedMsgType : Z)
    (valSet : ValidatorSet) : outcome VoteSet :=
  vs ← NewVoteSet chainID height round signedMsgType valSet;
  Done (set_extensions vs).

(** The readers accept a nil receiver. *)
Definition GetHeight (vs : option VoteSet) : Z := match vs with None => 0 | Some v => height v end.
Definition GetRound (vs : option VoteSet) : Z := match vs with None => -1 | Some v => round v end.
Definition vs_Type (vs : option VoteSet) : Z := match vs with None => 0 | Some v => signedMsgType v end.
Definition vs_Size (vs : option VoteSet) : Z := match vs with None => 0 | Some v => Size (valSet v) end.

(** ** Adding votes *)

Definition getVote (vs : VoteSet) (valIndex : Z) (blockKey : list Z) : outcome (option Vote) :=
  existing ← idx (votes vs) valIndex;
  match existing with
  | Some e =>
      if bool_decide (Key (vBlockID e) = blockKey) then Done (Some e)
      else getByIndex (votesByBlock vs !! blockKey) valIndex
  | None => getByIndex (votesByBlock vs !! blockKey) valIndex
  end.

(** The copy of the votes of the block that reached the quorum into [votes]. *)
Fixpoint copy_votes (i : Z) (src : list (option Vote)) (dst : list (option Vote))
    : outcome (list (option Vote)) :=
  match src with
  | [] => Done dst
  | Some v :: src => dst' ← upd dst i (Some v); copy_votes (i + 1) src dst'
  | None :: src => copy_votes (i + 1) src dst
  end.

(** The first part of [addVerifiedVote]: the canonical list of votes. *)
Definition record_vote (vs : VoteSet) (vote : Vote) (blockKey : list Z) (votingPower : Z)
    : outcome (VoteSet * option Vote) :=
  let valIndex := ValidatorIndex vote in
  existing ← idx (votes vs) valIndex;
  match existing with
  | Some e =>
      if Equals (vBlockID e) (vBlockID vote)
      then Panic "addVerifiedVote does not expect duplicate votes"
      else
        if match maj23 vs with Some b => bool_decide (Key b = blockKey) | None => false end then
          l ← upd (votes vs) valIndex (Some vote);
          ba ← BitArray.SetIndex (votesBitArray vs) valIndex true;
          Done (set_votes vs ba.1 l (sum vs), Some e)
        else Done (vs, Some e)
  | None =>
      l ← upd (votes vs) valIndex (Some vote);
      ba ← BitArray.SetIndex (votesBitArray vs) valIndex true;
      Done (set_votes vs ba.1 l (wrap64 (sum vs + votingPower)), None)
  end.

(** The last part: the votes of the block, and the first quorum. *)
Definition tally_vote (vs : VoteSet) (byBlock : blockVotes) (vote : Vote) (blockKey : list Z)
    (votingPower : Z) : outcome VoteSet :=
  let origSum := bsum byBlock in
  tvp ← TotalVotingPower (valSet vs);
  let vs := set_valSet vs tvp.1 in
  let quorum := wrap64 (Z.quot (wrap64 (tvp.2 * 2)) 3 + 1) in
  byBlock' ← bv_addVerifiedVote byBlock vote votingPower;
  let vs := set_byBlock vs (<[blockKey := byBlock']> (votesByBlock vs)) in
  if (origSum <? quorum) && (quorum <=? bsum byBlock') then
    match maj23 vs with
    | None => l ← copy_votes 0 (bvotes byBlock') (votes vs); Done (set_maj23 vs (vBlockID vote) l)
    | Some _ => Done vs
    end
  else Done vs.

Definition addVerifiedVote (vs : VoteSet) (vote : Vote) (blockKey : list Z) (votingPower : Z)
    : outcome (VoteSet * (bool * option Vote)) :=
  '(vs, conflicting) ← record_vote vs vote blockKey votingPower;
  match votesByBlock vs !! blockKey with
  | Some byBlock =>
      if bool_decide (is_Some conflicting) && negb (peerMaj23 byBlock)
      then Done (vs, (false, conflicting))
      else vs' ← tally_vote vs byBlock vote blockKey votingPower; Done (vs', (true, conflicting))
  | None =>
      if bool_decide (is_Some conflicting) then Done (vs, (false, conflicting))
      else
        vs' ← tally_vote vs (newBlockVotes false (Size (valSet vs))) vote blockKey votingPower;
        Done (vs', (true, conflicting))
  end.

(** The signature check of [addVote]. *)
Definition check_signature (vs : VoteSet) (vote : Vote) (pubKey : option PubKey)
    : outcome (option vote_error) :=
  if extensionsEnabled vs then VerifyVoteAndExtension vote (chainID vs) pubKey
  else
    err ← Verify vote (chainID vs) pubKey;
    match err with
    | Some e => Done (Some e)
    | None =>
        if (0 <? zlen (ExtensionSignature vote)) || (0 <? zlen (Extension vote))
        then Done (Some ErrUnexpectedExtension) else Done None
    end.

Definition addVote (vs : VoteSet) (vote : option Vote)
    : outcome (VoteSet * (bool * option vote_error)) :=
  match vote with
  | None => Done (vs, (false, Some ErrVoteNil))
  | Some vote =>
      let valIndex := ValidatorIndex vote in
      let blockKey := Key (vBlockID vote) in
      if valIndex <? 0 then Done (vs, (false, Some ErrVoteInvalidValidatorIndex))
      else if zlen (ValidatorAddress vote) =? 0
      then Done (vs, (false, Some ErrVoteInvalidValidatorAddress))
      else if negb (Height vote =? height vs) || negb (Round vote =? round vs)
              || negb (Type_ vote =? signedMsgType vs)
      then Done (vs, (false, Some ErrVoteUnexpectedStep))
      else
        match GetByIndex (valSet vs) valIndex with
        | None => Done (vs, (false, Some ErrVoteInvalidValidatorIndex))
        | Some (lookupAddr, val) =>
            if negb (bytes_equal (ValidatorAddress vote) lookupAddr)
            then Done (vs, (false, Some ErrVoteInvalidValidatorAddress))
            else
              existing ← getVote vs valIndex blockKey;
              match existing with
              | Some e =>
                  if bytes_equal (Signature e) (Signature vote) then Done (vs, (false, None))
                  else Done (vs, (false, Some ErrVoteNonDeterministicSignature))
              | None =>
                  err ← check_signature vs vote (ValPubKey val);
                  match err with
                  | Some e => Done (vs, (false, Some e))
                  | None =>
                      r ← addVerifiedVote vs vote blockKey (VotingPower val);
                      let '(vs', (added, conflicting)) := r in
                      match conflicting with
                      | Some c => Done (vs', (added, Some (ErrVoteConflictingVotes c vote)))
                      | None => if (added : bool) then Done (vs', (true, None))
                                else Panic "Expected to add non-conflicting vote"
                      end
                  end
              end
        end
  end.

Definition AddVote (vs : option VoteSet) (vote : option Vote)
    : outcome (VoteSet * (bool * option vote_error)) :=
  match vs with None => Panic "AddVote() on nil VoteSet" | Some vs => addVote vs vote end.

(** The result is true when the call returned an error. *)
Definition SetPeerMaj23 (vs : option VoteSet) (peerID : string) (blockID : BlockID)
    : outcome (VoteSet * bool) :=
  match vs with
  | None => Panic "SetPeerMaj23() on nil VoteSet"
  | Some vs =>
      let blockKey := Key blockID in
      match peerMaj23s vs !! peerID with
      | Some existing => if Equals existing blockID then Done (vs, false) else Done (vs, true)
      | None =>
          let vs := set_peers vs (<[peerID := blockID]> (peerMaj23s vs)) in
          match votesByBlock vs !! blockKey with
          | Some byBlock =>
              if peerMaj23 byBlock then Done (vs, false)
              else Done (set_byBlock vs (<[blockKey := set_peerMaj23 byBlock]> (votesByBlock vs)), false)
          | None =>
              Done (set_byBlock vs (<[blockKey := newBlockVotes true (Size (valSet vs))]>
                                      (votesByBlock vs)), false)
          end
      end
  end.

(** ** Reading the tally *)

Definition vs_BitArray (vs : option VoteSet) : option BitArray.BitArray :=
  vs ← vs; BitArray.Copy (votesBitArray vs).

Definition BitArrayByBlockID (vs : option VoteSet) (blockID : BlockID) : option BitArray.BitArray :=
  vs ← vs;
  match votesByBlock vs !! Key blockID with
  | Some byBlock => BitArray.Copy (bitArray byBlock)
  | None => None
  end.

Definition vs_GetByIndex (vs : option VoteSet) (valIndex : Z) : outcome (option Vote) :=
  match vs with None => Done None | Some vs => idx (votes vs) valIndex end.

Definition List_ (vs : option VoteSet) : list Vote :=
  match vs with None => [] | Some vs => omap id (votes vs) end.

Definition vs_GetByAddress (vs : option VoteSet) (address : list Z) : outcome (option Vote) :=
  match vs with
  | None => Done None
  | Some vs =>
      match GetByAddressMut (valSet vs) address with
      | (valIndex, Some _) => idx (votes vs) valIndex
      | (_, None) => Panic "GetByAddress(address) returned nil"
      end
  end.

Definition HasTwoThirdsMajority (vs : option VoteSet) : bool :=
  match vs with None => false | Some vs => bool_decide (is_Some (maj23 vs)) end.

Definition IsCommit (vs : option VoteSet) : bool :=
  match vs with
  | None => false
  | Some vs => if negb (signedMsgType vs =? PrecommitType) then false
               else bool_decide (is_Some (maj23 vs))
  end.

Definition HasTwoThirdsAny (vs : option VoteSet) : outcome (option VoteSet * bool) :=
  match vs with
  | None => Done (None, false)
  | Some vs =>
      tvp ← TotalVotingPower (valSet vs);
      Done (Some (set_valSet vs tvp.1), Z.quot (wrap64 (tvp.2 * 2)) 3 <? sum vs)
  end.

Definition HasAll (vs : option VoteSet) : outcome (option VoteSet * bool) :=
  match vs with
  | None => Done (None, false)
  | Some vs =>
      tvp ← TotalVotingPower (valSet vs);
      Done (Some (set_valSet vs tvp.1), sum vs =? tvp.2)
  end.

Definition TwoThirdsMajority (vs : option VoteSet) : BlockID * bool :=
  match vs with
  | None => (nil_BlockID, false)
  | Some vs => match maj23 vs with Some b => (b, true) | None => (nil_BlockID, false) end
  end.

(** ** Commits *)

Fixpoint commit_sigs (maj : BlockID) (l : list (option Vote)) : outcome (list ExtendedCommitSig) :=
  match l with
  | [] => Done []
  | v :: l =>
      sig ← vote_ExtendedCommitSig v;
      sig ← (if cs_Flag (ecs_CommitSig sig) =? BlockIDFlagCommit then
               match v with
               | Some v' => if Equals (vBlockID v') maj then Done sig else Done NewExtendedCommitSigAbsent
               | None => Panic "nil pointer dereference"
               end
             else Done sig);
      sigs ← commit_sigs maj l;
      Done (sig :: sigs)
  end.

(** [VoteExtensionsEnableHeight] is the field of [fp] that the code reads. *)
Definition MakeExtendedCommit (vs : VoteSet) (VoteExtensionsEnableHeight : Z) : outcome ExtendedCommit :=
  if negb (signedMsgType vs =? PrecommitType)
  then Panic "Cannot MakeExtendCommit() unless VoteSet.Type is PrecommitType"
  else
    match maj23 vs with
    | None => Panic "Cannot MakeExtendCommit() unless a blockhash has +2/3"
    | Some maj =>
        sigs ← commit_sigs maj (votes vs);
        let ec := {| ecHeight := GetHeight (Some vs); ecRound := GetRound (Some vs);
                     ecBlockID := maj; ExtendedSignatures := sigs |} in
        enabled ← featureEnabled VoteExtensionsEnableHeight (ecHeight ec);
        match EnsureExtensions ec enabled with
        | Some _ => Panic "problem with vote extension data when making extended commit"
        | None => Done ec
        end
    end.

(** [ToVoteSet], [ToExtendedVoteSet]: the loop over the signatures from [idx]. *)
Fixpoint add_sigs (getVote : Z → outcome Vote) (flags : list Z) (i : Z) (vs : VoteSet) : outcome VoteSet :=
  match flags with
  | [] => Done vs
  | flag :: flags =>
      if flag =? BlockIDFlagAbsent then add_sigs getVote flags (i + 1) vs
      else
        vote ← getVote (wrap32 i);
        match vote_ValidateBasic vote with
        | Some _ => Panic "failed to validate vote reconstructed from commit"
        | None =>
            r ← AddVote (Some vs) (Some vote);
            match r with
            | (vs', (true, None)) => add_sigs getVote flags (i + 1) vs'
            | _ => Panic "failed to reconstruct vote set from commit"
            end
        end
  end.

Definition ToVoteSet (commit : Commit) (chainID : string) (vals : ValidatorSet) : outcome VoteSet :=
  vs ← NewVoteSet chainID (cHeight commit) (cRound commit) PrecommitType vals;
  add_sigs (GetVote commit) (cs_Flag <$> Signatures commit) 0 vs.

Definition ToExtendedVoteSet (ec : ExtendedCommit) (chainID : string) (vals : ValidatorSet)
    : outcome VoteSet :=
  vs ← NewExtendedVoteSet chainID (ecHeight ec) (ecRound ec) PrecommitType vals;
  add_sigs (GetExtendedVote ec) (cs_Flag ∘ ecs_CommitSig <$> ExtendedSignatures ec) 0 vs.

End votes.

(** ** Slots: votes by index, their bits and their power *)

Section slots.
Context `{PubKeyOps}.
Implicit Types (l : list (option Vote)) (vals : list Validator).

Definition voted l (k : nat) : bool :=
  match l !! k with Some (Some _) => true | _ => false end.

(** The power of the validators that hold a slot selected by [P]. *)
Definition slot_power (P : Vote → bool) (p : option Vote * Validator) : Z :=
  match p.1 with Some v => if P v then VotingPower p.2 else 0 | None => 0 end.

Definition power_of (P : Vote → bool) l vals : Z := zsum (slot_power P) (zip l vals).

Definition any_vote (_ : Vote) : bool := true.

Definition tally l vals : Z := power_of any_vote l vals.

(** The bit array and the sum agree with the votes. *)
Definition slots_ok vals (ba : option BitArray.BitArray) l (s : Z) : Prop :=
  length l = length vals ∧ s = tally l vals ∧
  ∃ b, ba = Some b ∧ BitArray.wf b ∧ BitArray.clean b ∧ BitArray.Bits b = zlen l ∧
       ∀ k, BitArray.get b k = voted l k.

Lemma tally_ext l l' vals :
  length l = length l' → (∀ k, voted l k = voted l' k) → tally l vals = tally l' vals.
Proof.
  unfold tally, power_of.
  revert l' vals. induction l as [|o l IH]; intros [|o' l'] [|v vals] Hlen Hv; simplify_eq/=; try done.
  rewrite (IH l'); [|done|intros k; apply (Hv (S k))].
  specialize (Hv 0%nat). unfold voted in Hv. simpl in Hv.
  unfold slot_power. simpl. by destruct o, o'.
Qed.

Lemma power_of_insert P l vals i o o' val :
  l !! i = Some o → vals !! i = Some val →
  power_of P (<[i:=o']> l) vals = power_of P l vals - slot_power P (o, val) + slot_power P (o', val).
Proof.
  intros Hl Hv. unfold power_of.
  rewrite <-(list_insert_id vals i val) at 1 by done.
  rewrite <-insert_zip_with. apply zsum_insert. by rewrite lookup_zip_with, Hl, Hv.
Qed.

Lemma tally_new l vals i v val :
  l !! i = Some None → vals !! i = Some val →
  tally (<[i:=Some v]> l) vals = tally l vals + VotingPower val.
Proof. intros Hl Hv. unfold tally. erewrite power_of_insert by done. unfold slot_power. simpl. lia. Qed.

Lemma slot_power_nonneg P p : 0 ≤ VotingPower p.2 → 0 ≤ slot_power P p.
Proof. unfold slot_power. destruct p.1; [|lia]. destruct (P v); lia. Qed.

Lemma zip_power_nonneg l vals p : wf_list vals → p ∈ zip l vals → 0 ≤ VotingPower p.2.
Proof.
  intros Hwf Hp. apply (wf_power_nonneg _ Hwf).
  apply list_elem_of_lookup in Hp as [k Hk].
  apply lookup_zip_with_Some in Hk as (? & ? & -> & ? & ?). by eapply list_elem_of_lookup_2.
Qed.

Lemma zip_power_total l vals : wf_list vals → length l = length vals →
  zsum (λ p : option Vote * Validator, VotingPower p.2) (zip l vals) = zsum VotingPower vals.
Proof.
  intros Hwf Hlen. clear Hwf. revert vals Hlen.
  induction l as [|o l IH]; intros [|v vals] Hlen; simplify_eq/=; [done|]. by rewrite IH.
Qed.

Lemma power_of_bounds P l vals :
  wf_list vals → length l = length vals → 0 ≤ power_of P l vals ≤ zsum VotingPower vals.
Proof.
  intros Hwf Hlen. unfold power_of. split.
  - apply zsum_nonneg. intros p Hp. by eapply slot_power_nonneg, zip_power_nonneg.
  - rewrite <-(zip_power_total l vals) by done. apply zsum_le. intros p Hp.
    pose proof (zip_power_nonneg _ _ _ Hwf Hp). unfold slot_power.
    destruct p.1; [|done]. destruct (P v); lia.
Qed.

Lemma power_of_mono P Q l vals :
  wf_list vals → (∀ k v, l !! k = Some (Some v) → P v = true → Q v = true) →
  power_of P l vals ≤ power_of Q l vals.
Proof.
  intros Hwf HPQ. apply zsum_le. intros p Hp.
  pose proof (zip_power_nonneg _ _ _ Hwf Hp). apply list_elem_of_lookup in Hp as [k Hk].
  apply lookup_zip_with_Some in Hk as (o & val & -> & Ho & _). unfold slot_power. simpl in *.
  destruct o as [v|]; [|done]. specialize (HPQ k v Ho). destruct (P v), (Q v); lia || naive_solver.
Qed.

Lemma slots_ok_length vals ba l s : slots_ok vals ba l s → length l = length vals.
Proof. by intros []. Qed.

Lemma voted_insert l i v k :
  (i < length l)%nat → voted (<[i:=Some v]> l) k = voted l k || bool_decide (k = i).
Proof.
  intros Hi. unfold voted. destruct (decide (k = i)) as [->|].
  - rewrite list_lookup_insert_eq by done. by rewrite bool_decide_true, orb_true_r.
  - rewrite list_lookup_insert_ne by done. by rewrite bool_decide_false, orb_false_r.
Qed.

Lemma slots_ok_ext vals ba l l' s :
  slots_ok vals ba l s → length l = length l' → (∀ k, voted l k = voted l' k) → slots_ok vals ba l' s.
Proof.
  intros (Hlen & -> & b & -> & Hwf & Hc & HB & Hg) Hl Hv. split_and!; [lia|by apply tally_ext|].
  exists b. split_and!; try done; [unfold zlen in *; lia|]. intros k. by rewrite Hg.
Qed.

(** Writing a slot that was free, and one that was taken. *)
Lemma slots_fill vals ba l s i v val :
  wf_list vals → slots_ok vals ba l s → l !! i = Some None → vals !! i = Some val →
  ∃ ba', BitArray.SetIndex ba (Z.of_nat i) true = Done (ba', true) ∧
         slots_ok vals ba' (<[i:=Some v]> l) (wrap64 (s + VotingPower val)).
Proof.
  intros Hwf (Hlen & -> & b & -> & Hb & Hc & HB & Hg) Hl Hval.
  pose proof (lookup_lt_Some _ _ _ Hl) as Hi.
  destruct (BitArray.setIndex_true b i Hb Hc) as (b' & -> & Hb' & Hc' & HB' & Hg');
    [rewrite HB; unfold zlen; lia|].
  exists (Some b'). split; [done|]. split_and!.
  - by rewrite length_insert.
  - rewrite <-(tally_new l vals i v val) by done. apply wrap64_id.
    pose proof (power_of_bounds any_vote (<[i:=Some v]> l) vals Hwf
      ltac:(by rewrite length_insert)) as Hbd.
    pose proof (total_in_int64 _ Hwf). unfold tally. unfold_ints. lia.
  - exists b'. split_and!; [done..|by rewrite zlen_insert; congruence|].
    intros k. by rewrite Hg', Hg, voted_insert.
Qed.

Lemma slots_replace vals ba l s i v e :
  slots_ok vals ba l s → l !! i = Some (Some e) →
  ∃ ba', BitArray.SetIndex ba (Z.of_nat i) true = Done (ba', true) ∧
         slots_ok vals ba' (<[i:=Some v]> l) s.
Proof.
  intros Hok Hl. pose proof (lookup_lt_Some _ _ _ Hl) as Hi.
  assert (Hv : ∀ k, voted (<[i:=Some v]> l) k = voted l k).
  { intros k. rewrite voted_insert by done. case_bool_decide; [|by rewrite orb_false_r].
    subst. unfold voted. by rewrite Hl. }
  destruct Hok as (Hlen & -> & b & -> & Hb & Hc & HB & Hg).
  destruct (BitArray.setIndex_true b i Hb Hc) as (b' & -> & Hb' & Hc' & HB' & Hg');
    [rewrite HB; unfold zlen; lia|].
  exists (Some b'). split; [done|]. split_and!.
  - by rewrite length_insert.
  - symmetry. apply tally_ext; [by rewrite length_insert|done].
  - exists b'. split_and!; [done..|by rewrite zlen_insert; congruence|].
    intros k. rewrite Hg', Hg, Hv. case_bool_decide; [|by rewrite orb_false_r].
    subst. unfold voted. by rewrite Hl.
Qed.

Lemma voted_replicate n k : voted (replicate n None) k = false.
Proof.
  unfold voted. destruct (replicate n (@None Vote) !! k) eqn:E; [|done].
  by apply lookup_replicate in E as [-> _].
Qed.

Lemma slots_new vals :
  vals ≠ [] → slots_ok vals (BitArray.NewBitArray (zlen vals)) (replicate (Z.to_nat (zlen vals)) None) 0.
Proof.
  intros Hne. destruct (BitArray.NewBitArray_spec (zlen vals)) as (b & Hnew & Hb & Hc & HB & Hg).
  { destruct vals; [done|]. unfold zlen. simpl. lia. }
  split_and!.
  - rewrite length_replicate. unfold zlen. lia.
  - unfold zlen. rewrite Nat2Z.id. clear. unfold tally, power_of.
    induction vals as [|v vals IH]; simpl; [done|]. rewrite <-IH. done.
  - exists b. split_and!; try done.
    + rewrite HB. unfold zlen. rewrite length_replicate, Nat2Z.id. done.
    + intros k. by rewrite Hg, voted_replicate.
Qed.

(** The copy of a block's votes over the canonical ones. *)
Definition overlay (src dst : list (option Vote)) : list (option Vote) :=
  zip_with (λ s d, match s with Some v => Some v | None => d end) src dst.

Lemma copy_votes_spec pre src dst :
  length src = length dst →
  copy_votes (zlen pre) src (pre ++ dst) = Done (pre ++ overlay src dst).
Proof.
  revert pre dst. induction src as [|s src IH]; intros pre [|d dst] Hlen; simplify_eq/=; [done|].
  assert (Hz : ∀ x : option Vote, zlen pre + 1 = zlen (pre ++ [x])).
  { intros. unfold zlen. rewrite length_app. simpl. lia. }
  destruct s as [v|].
  - assert (upd (pre ++ d :: dst) (zlen pre) (Some v) = Done (pre ++ Some v :: dst)) as ->.
    { unfold zlen. rewrite upd_nat by (rewrite length_app; simpl; lia).
      rewrite insert_app_r_alt, Nat.sub_diag by lia. done. }
    cbn [mbind outcome_bind]. rewrite (Hz (Some v)), (cons_middle (Some v) pre dst), (app_assoc pre), IH by done.
    by rewrite <-app_assoc.
  - rewrite (Hz d), (cons_middle d pre dst), (app_assoc pre), IH by done. by rewrite <-app_assoc.
Qed.

Lemma overlay_lookup src dst k :
  length src = length dst →
  overlay src dst !! k = match src !! k with Some (Some v) => Some (Some v) | _ => dst !! k end.
Proof.
  intros Hlen. unfold overlay. rewrite lookup_zip_with.
  destruct (src !! k) as [s|] eqn:Es; simpl.
  - destruct (lookup_lt_is_Some_2 dst k) as [d Hd]; [rewrite <-Hlen; by eapply lookup_lt_Some|].
    rewrite Hd. simpl. by destruct s.
  - symmetry. apply lookup_ge_None. rewrite <-Hlen. by apply lookup_ge_None.
Qed.

Lemma overlay_length src dst : length src = length dst → length (overlay src dst) = length dst.
Proof. intros. unfold overlay. rewrite length_zip_with. lia. Qed.

End slots.

(** ** The invariant of a vote set *)

Section invariant.
Context `{PubKeyOps, SignCodec}.
Implicit Types (vs : VoteSet) (bv : blockVotes) (v e w : Vote) (i j k : nat).

Definition vals_of vs : list Validator := Validators (valSet vs).

Definition quorum (vals : list Validator) : Z := Z.quot (zsum VotingPower vals * 2) 3 + 1.

(** The vote is one the set may count for validator [i]: right step, right
    signer, valid signature. *)
Definition accepted vs i v : Prop :=
  ValidatorIndex v = Z.of_nat i ∧ Height v = height vs ∧ Round v = round vs ∧
  Type_ v = signedMsgType vs ∧ ValidatorAddress v ≠ [] ∧
  ∃ val, vals_of vs !! i = Some val ∧ ValidatorAddress v = Address val ∧
         check_signature vs v (ValPubKey val) = Done None.

Definition vkey v : list Z := Key (vBlockID v).

(** A vote of the canonical list is found again under its block. *)
Definition tracked vs i v : Prop :=
  (∃ bv w, votesByBlock vs !! vkey v = Some bv ∧ bvotes bv !! i = Some (Some w)) ∨
  (∃ b, maj23 vs = Some b ∧ Key b = vkey v).

Definition block_ok vs (key : list Z) bv : Prop :=
  slots_ok (vals_of vs) (bitArray bv) (bvotes bv) (bsum bv) ∧
  ∀ i v, bvotes bv !! i = Some (Some v) → vkey v = key ∧ accepted vs i v ∧ voted (votes vs) i = true.

(** The block with the majority: its entry holds a quorum, and the canonical
    list holds a vote for it wherever the entry does. *)
Definition maj_ok vs (b : BlockID) : Prop :=
  ∃ bv, votesByBlock vs !! Key b = Some bv ∧ quorum (vals_of vs) ≤ bsum bv ∧
    (∃ i v, bvotes bv !! i = Some (Some v) ∧ vBlockID v = b) ∧
    ∀ i, voted (bvotes bv) i = true → ∃ v, votes vs !! i = Some (Some v) ∧ vkey v = Key b.

(** [hole]: the index whose canonical vote is not tracked yet. *)
Record core_inv (hole : nat → Prop) vs : Prop := {
  inv_vals : wf_list (vals_of vs);
  inv_nonempty : vals_of vs ≠ [];
  inv_cache : totalVotingPower (valSet vs) = 0 ∨ totalVotingPower (valSet vs) = zsum VotingPower (vals_of vs);
  inv_votes : slots_ok (vals_of vs) (votesBitArray vs) (votes vs) (sum vs);
  inv_accepted : ∀ i v, votes vs !! i = Some (Some v) → accepted vs i v;
  inv_tracked : ∀ i v, votes vs !! i = Some (Some v) → hole i ∨ tracked vs i v;
  inv_blocks : ∀ key bv, votesByBlock vs !! key = Some bv → block_ok vs key bv
}.

(** The majority is recorded exactly when some block holds a quorum. *)
Definition maj_inv vs : Prop :=
  match maj23 vs with
  | None => ∀ key bv, votesByBlock vs !! key = Some bv → bsum bv < quorum (vals_of vs)
  | Some b => maj_ok vs b
  end.

Definition pre_inv (hole : nat → Prop) vs : Prop := core_inv hole vs ∧ maj_inv vs.

Definition inv vs : Prop := pre_inv (λ _, False) vs.

(** The fields no operation changes (the validator list, not its cached total). *)
Definition same_config vs vs' : Prop :=
  chainID vs' = chainID vs ∧ height vs' = height vs ∧ round vs' = round vs ∧
  signedMsgType vs' = signedMsgType vs ∧ extensionsEnabled vs' = extensionsEnabled vs ∧
  vals_of vs' = vals_of vs.

#[export] Instance same_config_equiv : Equivalence same_config.
Proof.
  split; unfold same_config; repeat intro; destruct_and?; split_and?; congruence.
Qed.

Lemma accepted_config vs vs' i v : same_config vs vs' → accepted vs i v → accepted vs' i v.
Proof.
  intros (Hc & Hh & Hr & Ht & He & Hv) (? & ? & ? & ? & ? & val & Hval & Ha & Hs).
  split_and!; try congruence. exists val. split_and!; [by rewrite Hv|done|].
  rewrite <-Hs. unfold check_signature. by rewrite Hc, He.
Qed.

Lemma quorum_pos vals : wf_list vals → 0 < quorum vals.
Proof.
  intros Hwf. unfold quorum. assert (0 ≤ zsum VotingPower vals).
  { apply zsum_nonneg. by apply wf_power_nonneg. }
  rewrite Z.quot_div_nonneg by lia. pose proof (Z.div_pos (zsum VotingPower vals * 2) 3). lia.
Qed.

(** The total and the quorum as [tally_vote] computes them. *)
Lemma code_quorum hole vs :
  pre_inv hole vs →
  let T := zsum VotingPower (vals_of vs) in
  TotalVotingPower (valSet vs) = Done (set_total (valSet vs) T, T) ∧
  Z.quot (wrap64 (T * 2)) 3 = Z.quot (T * 2) 3 ∧
  wrap64 (Z.quot (wrap64 (T * 2)) 3 + 1) = quorum (vals_of vs).
Proof.
  intros Hinv T. destruct Hinv as [[Hwf _ Hc _ _ _ _] _].
  rewrite (TotalVotingPower_spec _ Hwf Hc). split; [done|].
  assert (0 ≤ T ≤ MaxTotalVotingPower) as HT.
  { split; [apply zsum_nonneg; by apply wf_power_nonneg|by destruct Hwf as (_ & _ & ?)]. }
  rewrite max_total_value in HT.
  rewrite (wrap64_id (T * 2)) by (unfold_ints; lia). split; [done|]. unfold quorum. apply wrap64_id.
  fold T. rewrite Z.quot_div_nonneg by lia. pose proof (Z.div_le_upper_bound (T * 2) 3 (T * 2)).
  pose proof (Z.div_pos (T * 2) 3). unfold_ints. lia.
Qed.

(** ** New votes of a block *)

Lemma bv_add_fresh vs key bv i v val :
  wf_list (vals_of vs) → block_ok vs key bv → bvotes bv !! i = Some None →
  vals_of vs !! i = Some val → accepted vs i v → vkey v = key → voted (votes vs) i = true →
  ∃ bv', bv_addVerifiedVote bv v (VotingPower val) = Done bv' ∧ block_ok vs key bv' ∧
    bvotes bv' = <[i:=Some v]> (bvotes bv) ∧ peerMaj23 bv' = peerMaj23 bv ∧
    bsum bv' = bsum bv + VotingPower val.
Proof.
  intros Hwf [Hs Hvs] Hi Hval Hacc Hkey Hvoted.
  destruct (slots_fill _ _ _ _ i v val Hwf Hs Hi Hval) as (ba' & Hset & Hs').
  pose proof (lookup_lt_Some _ _ _ Hi) as Hlt.
  unfold bv_addVerifiedVote. destruct Hacc as (Hidx & Hrest). rewrite Hidx.
  rewrite (idx_nat _ _ _ Hi). cbn [mbind outcome_bind]. rewrite Hset. cbn [mbind outcome_bind].
  rewrite upd_nat by done. cbn [mbind outcome_bind]. eexists. split; [done|].
  split_and!; simpl; try done.
  - split; simpl; [done|]. intros j w Hj. destruct (decide (j = i)) as [->|].
    + rewrite list_lookup_insert_eq in Hj by done. simplify_eq. split_and!; [done| |done].
      by split.
    + rewrite list_lookup_insert_ne in Hj by done. eauto.
  - destruct Hs' as (_ & -> & _), Hs as (_ & -> & _). by apply tally_new.
Qed.

Lemma new_block_ok vs key b :
  vals_of vs ≠ [] → block_ok vs key (newBlockVotes b (Size (valSet vs))).
Proof.
  intros Hne. split; [by apply slots_new|]. simpl. intros i v Hi.
  by apply lookup_replicate in Hi as [? _].
Qed.

End invariant.

(** ** Adding a verified vote *)

Section add.
Context `{PubKeyOps, SignCodec}.
Implicit Types (vs : VoteSet) (bv : blockVotes) (v e w : Vote) (i j k : nat).

Definition for_maj vs v : Prop := ∃ b, maj23 vs = Some b ∧ Key b = vkey v.

#[export] Instance for_maj_dec vs v : Decision (for_maj vs v).
Proof.
  unfold for_maj. destruct (maj23 vs) as [b|].
  - destruct (decide (Key b = vkey v)); [left; eauto|right; naive_solver].
  - right. naive_solver.
Defined.

(** What writing the canonical vote of [i] keeps. *)
Lemma write_canonical vs i v ba s hole :
  inv vs → accepted vs i v → (i < length (votes vs))%nat →
  slots_ok (vals_of vs) ba (<[i:=Some v]> (votes vs)) s →
  (hole i ∨ for_maj vs v) →
  (votes vs !! i = Some None ∨ for_maj vs v) →
  pre_inv hole (set_votes vs ba (<[i:=Some v]> (votes vs)) s).
Proof.
  intros [[Hwf Hne Hc Hv Ha Ht Hb] Hm] Hacc Hi Hs Hhole Hold.
  assert (Hcfg : same_config vs (set_votes vs ba (<[i:=Some v]> (votes vs)) s)) by done.
  split; [split|]; simpl; try done.
  - intros j w. destruct (decide (j = i)) as [->|].
    + rewrite list_lookup_insert_eq by done. intros [= <-]. by eapply accepted_config.
    + rewrite list_lookup_insert_ne by done. intros Hj. eapply accepted_config; eauto.
  - intros j w. destruct (decide (j = i)) as [->|].
    + rewrite list_lookup_insert_eq by done. intros [= <-].
      destruct Hhole as [|(b & ? & ?)]; [by left|]. right. right. eauto.
    + rewrite list_lookup_insert_ne by done. intros Hj. right. by destruct (Ht j w Hj) as [[]|].
  - intros key bv Hbv. destruct (Hb key bv Hbv) as [Hsl Hbs]. split; [done|].
    intros j w Hj. destruct (Hbs j w Hj) as (? & ? & Hvj). split_and!; [done|by eapply accepted_config|].
    simpl. rewrite voted_insert by done. by rewrite Hvj.
  - unfold maj_inv in *. simpl. destruct (maj23 vs) as [b|] eqn:Eb; [|done]. destruct Hm as (bv & Hbv & Hq & Hex & Hall).
    exists bv. split_and!; [done..|]. intros j Hj. simpl. destruct (decide (j = i)) as [->|].
    + exists v. rewrite list_lookup_insert_eq by done. split; [done|].
      destruct Hold as [Hnone|(b' & Hb' & <-)]; [|congruence].
      destruct (Hall i Hj) as (w & Hw & _). congruence.
    + rewrite list_lookup_insert_ne by done. auto.
Qed.

Lemma record_vote_spec vs i v val :
  inv vs → accepted vs i v → vals_of vs !! i = Some val →
  (∀ e, votes vs !! i = Some (Some e) → vkey e ≠ vkey v) →
  ∃ vs' c, record_vote vs v (vkey v) (VotingPower val) = Done (vs', c) ∧
    votes vs !! i = Some c ∧ same_config vs vs' ∧ maj23 vs' = maj23 vs ∧
    votesByBlock vs' = votesByBlock vs ∧ pre_inv (λ j, j = i ∧ c = None) vs' ∧
    votes vs' = (if decide (c = None ∨ for_maj vs v) then <[i:=Some v]> (votes vs) else votes vs) ∧
    sum vs' = (if c then sum vs else sum vs + VotingPower val).
Proof.
  intros Hinv Hacc Hval Hne.
  pose proof (inv_votes _ _ (proj1 Hinv)) as Hs. pose proof (slots_ok_length _ _ _ _ Hs) as Hlen.
  destruct (lookup_lt_is_Some_2 (votes vs) i) as [c Hci].
  { rewrite Hlen. by eapply lookup_lt_Some. }
  pose proof (lookup_lt_Some _ _ _ Hci) as Hi.
  pose proof (proj1 Hacc) as Hidx. unfold record_vote. rewrite Hidx, (idx_nat _ _ _ Hci).
  cbn [mbind outcome_bind]. destruct c as [e|].
  - destruct (Equals (vBlockID e) (vBlockID v)) eqn:HE.
    { apply Equals_spec in HE. specialize (Hne e Hci). unfold vkey in Hne. congruence. }
    destruct (decide (for_maj vs v)) as [Hmaj|Hmaj].
    + assert (match maj23 vs with Some b => bool_decide (Key b = vkey v) | None => false end = true) as ->.
      { destruct Hmaj as (b & -> & ?). by apply bool_decide_true. }
      destruct (slots_replace _ _ _ _ i v e Hs Hci) as (ba' & Hset & Hs').
      rewrite upd_nat by done. cbn [mbind outcome_bind]. rewrite Hset. cbn [mbind outcome_bind].
      eexists _, _. split; [done|]. rewrite decide_True by auto. split_and!; try done.
      apply write_canonical; auto.
    + assert (match maj23 vs with Some b => bool_decide (Key b = vkey v) | None => false end = false) as ->.
      { destruct (maj23 vs) as [b|] eqn:Eb; [|done]. apply bool_decide_false. intros ?.
        apply Hmaj. exists b. by rewrite Eb. }
      eexists _, _. split; [done|]. rewrite decide_False by naive_solver. split_and!; try done.
      destruct Hinv as [[? ? ? ? ? Ht ?] ?]. split; [split|]; try done. intros j w Hj.
      destruct (Ht j w Hj) as [[]|]. by right.
  - destruct (slots_fill _ _ _ _ i v val (inv_vals _ _ (proj1 Hinv)) Hs Hci Hval) as (ba' & Hset & Hs').
    rewrite upd_nat by done. cbn [mbind outcome_bind]. rewrite Hset. cbn [mbind outcome_bind].
    eexists _, _. split; [done|]. rewrite decide_True by auto. split_and!; try done.
    + apply write_canonical; auto.
    + simpl. destruct Hs' as (_ & -> & _). destruct Hs as (_ & -> & _). by apply tally_new.
Qed.

(** Tracking the vote under its block. *)
Lemma track_insert hole vs i v bv bv' :
  (∀ j, hole j → j = i ∧ votes vs !! i = Some (Some v)) →
  (∀ j w, votes vs !! j = Some (Some w) → hole j ∨ tracked vs j w) →
  (votesByBlock vs !! vkey v = Some bv ∨ votesByBlock vs !! vkey v = None) →
  bvotes bv' = <[i:=Some v]> (bvotes bv) → (i < length (bvotes bv))%nat →
  ∀ j w, votes vs !! j = Some (Some w) →
    tracked (set_byBlock vs (<[vkey v:=bv']> (votesByBlock vs))) j w.
Proof.
  intros Hhole Ht Hbv Hbv' Hi j w Hj. destruct (Ht j w Hj) as [Hh|[(bw & u & Hbw & Hu)|Hm]].
  - destruct (Hhole j Hh) as [-> Hv]. assert (w = v) as -> by congruence.
    left. exists bv', v. simpl. rewrite lookup_insert_eq. split; [done|].
    rewrite Hbv'. by rewrite list_lookup_insert_eq.
  - left. simpl. destruct (decide (vkey w = vkey v)) as [Hk|Hk].
    + rewrite Hk in Hbw |- *. destruct Hbv as [Hbv|Hbv]; [|congruence].
      assert (bw = bv) as -> by congruence. rewrite lookup_insert_eq.
      destruct (decide (j = i)) as [->|].
      * exists bv', v. split; [done|]. rewrite Hbv'. by rewrite list_lookup_insert_eq.
      * exists bv', u. split; [done|]. rewrite Hbv'. by rewrite list_lookup_insert_ne.
    + exists bw, u. by rewrite lookup_insert_ne.
  - by right.
Qed.

Lemma block_ok_config vs vs' key bv :
  same_config vs vs' → (∀ j, voted (votes vs) j = true → voted (votes vs') j = true) →
  block_ok vs key bv → block_ok vs' key bv.
Proof.
  intros Hcfg Hv [Hs Hb]. split.
  - destruct Hcfg as (_ & _ & _ & _ & _ & ->). done.
  - intros j w Hj. destruct (Hb j w Hj) as (? & ? & ?). split_and!; auto. by eapply accepted_config.
Qed.

(** The state after the block's votes were updated, before the quorum test. *)
Lemma track_core hole vs vals i v bv bv' :
  let vs1 := set_byBlock (set_valSet vs vals) (<[vkey v:=bv']> (votesByBlock vs)) in
  core_inv hole vs → (∀ j, hole j → j = i ∧ votes vs !! i = Some (Some v)) →
  Validators vals = vals_of vs → totalVotingPower vals = zsum VotingPower (vals_of vs) →
  (votesByBlock vs !! vkey v = Some bv ∨ votesByBlock vs !! vkey v = None) →
  bvotes bv' = <[i:=Some v]> (bvotes bv) → (i < length (bvotes bv))%nat →
  block_ok vs (vkey v) bv' →
  same_config vs vs1 ∧ core_inv (λ _, False) vs1.
Proof.
  intros vs1 [Hwf Hne Hc Hv Ha Ht Hb] Hhole Hvals Htot Hbv Hbv' Hi Hok.
  assert (Hcfg : same_config vs vs1).
  { unfold same_config, vs1, vals_of. simpl. by rewrite Hvals. }
  assert (Hvs : vals_of vs1 = vals_of vs) by apply Hcfg.
  split; [done|]. split; rewrite ?Hvs; try done.
  - right. done.
  - intros j w Hj. eapply accepted_config; eauto.
  - intros j w Hj. right. by eapply (track_insert hole (set_valSet vs vals) i v bv bv').
  - intros key bw. unfold vs1. cbn [set_byBlock votesByBlock].
    destruct (decide (key = vkey v)) as [->|].
    + rewrite lookup_insert_eq. intros [= <-]. by eapply block_ok_config.
    + rewrite lookup_insert_ne by done. intros Hbw. eapply block_ok_config; eauto.
Qed.

Lemma track_maj hole vs vals i v bv bv' :
  let vs1 := set_byBlock (set_valSet vs vals) (<[vkey v:=bv']> (votesByBlock vs)) in
  pre_inv hole vs → Validators vals = vals_of vs →
  (votesByBlock vs !! vkey v = Some bv ∨ votesByBlock vs !! vkey v = None) →
  bvotes bv' = <[i:=Some v]> (bvotes bv) → (i < length (bvotes bv))%nat →
  bsum bv ≤ bsum bv' → bvotes bv !! i = Some None →
  (for_maj vs v → votes vs !! i = Some (Some v)) →
  (maj23 vs = None → bsum bv' < quorum (vals_of vs)) →
  maj_inv vs1.
Proof.
  intros vs1 [_ Hm] Hvals Hbv Hbv' Hi Hsum Hfree Hfor Hq. unfold maj_inv, vs1, maj_ok, vals_of in *.
  simpl. rewrite Hvals. destruct (maj23 vs) as [b|] eqn:Eb.
  - destruct Hm as (bw & Hbw & Hqw & (j & w & Hj & Hw) & Hall).
    destruct (decide (Key b = vkey v)) as [Hk|Hk].
    + destruct Hbv as [Hbv|Hbv]; [|congruence]. rewrite <-Hk in Hbv |- *.
      assert (bw = bv) as -> by congruence. exists bv'. rewrite lookup_insert_eq.
      split_and!; [done|lia| |].
      * exists j, w. split; [|done]. rewrite Hbv', list_lookup_insert_ne; [done|congruence].
      * intros m Hmv. rewrite Hbv', voted_insert in Hmv by done.
        apply orb_true_iff in Hmv as [Hmv|Hmv]; [auto|]. apply bool_decide_eq_true in Hmv as ->.
        exists v. split; [|done]. apply Hfor. exists b. by rewrite Eb.
    + exists bw. rewrite lookup_insert_ne by done. split_and!; eauto.
  - intros key bw. destruct (decide (key = vkey v)) as [->|].
    + rewrite lookup_insert_eq. intros [= <-]. auto.
    + rewrite lookup_insert_ne by done. apply Hm.
Qed.

(** The first quorum: the block's votes become canonical. *)
Lemma first_quorum vs v bv :
  core_inv (λ _, False) vs → maj23 vs = None → votesByBlock vs !! vkey v = Some bv →
  quorum (vals_of vs) ≤ bsum bv → (∃ i, bvotes bv !! i = Some (Some v)) →
  ∃ l, copy_votes 0 (bvotes bv) (votes vs) = Done l ∧ inv (set_maj23 vs (vBlockID v) l) ∧
    ∀ j, voted l j = voted (votes vs) j.
Proof.
  intros [Hwf Hne Hc Hv Ha Ht Hb] Hnone Hbv Hq (i & Hi).
  destruct (Hb _ _ Hbv) as [Hs Hbs].
  assert (Hlen : length (bvotes bv) = length (votes vs)).
  { rewrite (slots_ok_length _ _ _ _ Hs). symmetry. by eapply slots_ok_length. }
  exists (overlay (bvotes bv) (votes vs)).
  assert (Hvo : ∀ j, voted (overlay (bvotes bv) (votes vs)) j = voted (votes vs) j).
  { intros j. unfold voted at 1. rewrite overlay_lookup by done.
    destruct (bvotes bv !! j) as [[w|]|] eqn:E; [|done..]. by destruct (Hbs j w E) as (_ & _ & ->). }
  split; [apply (copy_votes_spec [] _ _ Hlen)|]. split; [|done].
  set (vs' := set_maj23 vs _ _). assert (Hcfg : same_config vs vs') by done.
  split; [split|]; simpl; try done.
  - eapply slots_ok_ext; [done|by rewrite overlay_length|done].
  - intros j w. rewrite overlay_lookup by done. intros Hj.
    destruct (bvotes bv !! j) as [[u|]|] eqn:E; simplify_eq;
      (eapply accepted_config; [done|]); [apply (Hbs j w E)|eauto..].
  - intros j w. rewrite overlay_lookup by done. intros Hj. right.
    destruct (bvotes bv !! j) as [[u|]|] eqn:E; simplify_eq.
    + left. exists bv, w. simpl. by destruct (Hbs j w E) as (-> & _ & _).
    + destruct (Ht j w Hj) as [[]|[?|(? & ? & _)]]; [by left|congruence].
    + destruct (Ht j w Hj) as [[]|[?|(? & ? & _)]]; [by left|congruence].
  - intros key bw Hbw. eapply block_ok_config; [done| |by apply Hb]. intros j. simpl. by rewrite Hvo.
  - exists bv. split_and!; [done..|eauto|]. simpl. intros j Hj. rewrite overlay_lookup by done.
    unfold voted in Hj. destruct (bvotes bv !! j) as [[u|]|] eqn:E; try done.
    exists u. split; [done|]. apply (Hbs j u E).
Qed.

Lemma tally_vote_spec hole vs bv i v val :
  pre_inv hole vs → (∀ j, hole j → j = i ∧ votes vs !! i = Some (Some v)) →
  accepted vs i v → vals_of vs !! i = Some val →
  (votesByBlock vs !! vkey v = Some bv ∨
   votesByBlock vs !! vkey v = None ∧ ∃ b, bv = newBlockVotes b (Size (valSet vs))) →
  bvotes bv !! i = Some None → voted (votes vs) i = true →
  (for_maj vs v → votes vs !! i = Some (Some v)) →
  ∃ vs' bv', tally_vote vs bv v (vkey v) (VotingPower val) = Done vs' ∧ inv vs' ∧
    same_config vs vs' ∧ votesByBlock vs' = <[vkey v := bv']> (votesByBlock vs) ∧
    bvotes bv' = <[i:=Some v]> (bvotes bv) ∧ bsum bv' = bsum bv + VotingPower val ∧
    (∀ j, voted (votes vs') j = voted (votes vs) j) ∧ sum vs' = sum vs ∧
    maj23 vs' = match maj23 vs with
                | Some b => Some b
                | None => if quorum (vals_of vs) <=? bsum bv' then Some (vBlockID v) else None
                end.
Proof.
  intros Hinv Hhole Hacc Hval Hbv Hfree Hvoted Hfor. pose proof Hinv as [Hcore Hmaj].
  destruct (code_quorum _ _ Hinv) as (Htvp & _ & Hq).
  assert (Hok : block_ok vs (vkey v) bv).
  { destruct Hbv as [Hbv|[_ [b ->]]]; [by eapply inv_blocks|by eapply new_block_ok, inv_nonempty]. }
  assert (Hbv2 : votesByBlock vs !! vkey v = Some bv ∨ votesByBlock vs !! vkey v = None)
    by naive_solver.
  pose proof (inv_vals _ _ Hcore) as Hwf.
  destruct (bv_add_fresh vs (vkey v) bv i v val) as (bv' & Hadd & Hok' & Hbvs & _ & Hsum); try done.
  pose proof (lookup_lt_Some _ _ _ Hfree) as Hi.
  assert (0 ≤ VotingPower val).
  { apply (wf_power_nonneg _ Hwf). by eapply list_elem_of_lookup_2. }
  set (T := zsum VotingPower (vals_of vs)) in *. set (vals := set_total (valSet vs) T) in *.
  destruct (track_core hole vs vals i v bv bv') as [Hcfg Hcore']; try done.
  unfold tally_vote. rewrite Htvp. cbn [mbind outcome_bind]. rewrite Hadd.
  cbn [mbind outcome_bind fst snd]. rewrite Hq.
  set (vs1 := set_byBlock (set_valSet vs vals) (<[vkey v:=bv']> (votesByBlock vs))) in *.
  change (set_byBlock _ _) with vs1. change (maj23 vs1) with (maj23 vs).
  pose proof (λ Hc, track_maj hole vs vals i v bv bv' Hinv eq_refl Hbv2 Hbvs Hi ltac:(lia) Hfree Hfor Hc)
    as Hkeep. fold vs1 in Hkeep.
  assert (Horig : maj23 vs = None → bsum bv < quorum (vals_of vs)).
  { intros Hn. unfold maj_inv in Hmaj. rewrite Hn in Hmaj.
    destruct Hbv as [Hbv|[_ [b ->]]]; [eauto|]. simpl. by apply quorum_pos. }
  destruct (maj23 vs) as [b|] eqn:Eb.
  - exists vs1, bv'. split_and!; try done; [by destruct (_ && _)|].
    split; [done|]. by apply Hkeep.
  - specialize (Horig eq_refl). destruct (Z.ltb_spec (bsum bv) (quorum (vals_of vs))); [|lia].
    destruct (Z.leb_spec (quorum (vals_of vs)) (bsum bv')); cbn [andb].
    + destruct (first_quorum vs1 v bv') as (l & Hl0 & Hinv' & Hl); try done.
      { unfold vs1. simpl. by rewrite lookup_insert_eq. }
      { exists i. rewrite Hbvs. by apply list_lookup_insert_eq. }
      change (votes vs) with (votes vs1). rewrite Hl0. cbn [mbind outcome_bind].
      eexists _, bv'. split; [done|]. split_and!; try done.
      destruct (Z.leb_spec (quorum (vals_of vs)) (bsum bv')); [done|lia].
    + exists vs1, bv'. split_and!; try done.
      * split; [done|]. apply Hkeep. lia.
      * destruct (Z.leb_spec (quorum (vals_of vs)) (bsum bv')); [lia|done].
Qed.

End add.

(** ** The operations on a vote set *)

Section operations.
Context `{PubKeyOps, SignCodec}.
Implicit Types (vs : VoteSet) (bv : blockVotes) (v e w : Vote) (i j k : nat).

(** A vote the set holds for [i] under its block. *)
Definition counted vs i v : Prop :=
  ∃ bv, votesByBlock vs !! vkey v = Some bv ∧ bvotes bv !! i = Some (Some v).

Definition keeps_votes vs vs' : Prop :=
  ∀ j, voted (votes vs) j = true → voted (votes vs') j = true.

Lemma addVerifiedVote_spec vs i v val :
  inv vs → accepted vs i v → vals_of vs !! i = Some val →
  (∀ e, votes vs !! i = Some (Some e) → vkey e ≠ vkey v) →
  (∀ bv, votesByBlock vs !! vkey v = Some bv → bvotes bv !! i = Some None) →
  ∃ vs' added c, addVerifiedVote vs v (vkey v) (VotingPower val) = Done (vs', (added, c)) ∧
    votes vs !! i = Some c ∧ inv vs' ∧ same_config vs vs' ∧ keeps_votes vs vs' ∧
    (∀ b, maj23 vs = Some b → maj23 vs' = Some b) ∧
    (added = true → counted vs' i v) ∧ (c = None → added = true) ∧
    sum vs' = (if c then sum vs else sum vs + VotingPower val).
Proof.
  intros Hinv Hacc Hval Hne Hfree.
  destruct (record_vote_spec vs i v val Hinv Hacc Hval Hne)
    as (vs1 & c & Hrec & Hc & Hcfg & Hmaj & Hby & Hinv1 & Hvotes & Hsum).
  pose proof (lookup_lt_Some _ _ _ Hc) as Hi.
  assert (Hkeep : keeps_votes vs vs1).
  { intros j Hj. rewrite Hvotes. destruct (decide _); [|done]. rewrite voted_insert by done. by rewrite Hj. }
  assert (Hvoted : voted (votes vs1) i = true).
  { rewrite Hvotes. destruct (decide _) as [|Hn].
    - rewrite voted_insert by done. by rewrite bool_decide_true, orb_true_r.
    - unfold voted. rewrite Hc. destruct c; [done|]. naive_solver. }
  assert (Hcan : c = None ∨ for_maj vs v → votes vs1 !! i = Some (Some v)).
  { intros ?. rewrite Hvotes, decide_True by done. by apply list_lookup_insert_eq. }
  assert (Hfor : for_maj vs1 v → votes vs1 !! i = Some (Some v)).
  { intros (b & Hb & ?). apply Hcan. right. exists b. by rewrite <-Hmaj. }
  assert (Hgo : ∀ bv, (votesByBlock vs1 !! vkey v = Some bv ∨
      votesByBlock vs1 !! vkey v = None ∧ ∃ b, bv = newBlockVotes b (Size (valSet vs1))) →
    ∃ vs', tally_vote vs1 bv v (vkey v) (VotingPower val) = Done vs' ∧ inv vs' ∧ same_config vs vs' ∧
      keeps_votes vs vs' ∧ (∀ b, maj23 vs = Some b → maj23 vs' = Some b) ∧ counted vs' i v ∧
      sum vs' = sum vs1).
  { intros bv Hbv.
    assert (Hfr : bvotes bv !! i = Some None).
    { rewrite Hby in Hbv. destruct Hbv as [Hbv|[_ [b ->]]]; [by apply Hfree|].
      simpl. apply lookup_replicate. split; [done|].
      apply lookup_lt_Some in Hval. destruct Hcfg as (_ & _ & _ & _ & _ & HV).
      unfold Size. change (Validators (valSet vs1)) with (vals_of vs1). rewrite HV. unfold zlen. lia. }
    destruct (tally_vote_spec _ vs1 bv i v val Hinv1) as (vs' & bv' & -> & Hi' & Hcfg' & Hby' & Hb' & _ & Hk' & Hs' & Hm');
      try done.
    - intros j [-> ->]. auto.
    - by eapply accepted_config.
    - by destruct Hcfg as (_ & _ & _ & _ & _ & ->).
    - exists vs'. split_and!; try done.
      + by etrans.
      + intros j Hj. rewrite Hk'. auto.
      + intros b Hb. by rewrite Hm', Hmaj, Hb.
      + exists bv'. rewrite Hby', lookup_insert_eq. split; [done|]. rewrite Hb'.
        apply list_lookup_insert_eq. by eapply lookup_lt_Some. }
  unfold addVerifiedVote. rewrite Hrec. cbn [mbind outcome_bind].
  destruct (votesByBlock vs1 !! vkey v) as [bv|] eqn:Eb.
  - destruct (bool_decide (is_Some c) && negb (peerMaj23 bv)) eqn:Ecase.
    + exists vs1, false, c. split_and!; try done; [|congruence|].
      * destruct Hinv1 as [[] ?]. split; [split|]; try done.
        intros j w Hj. right. destruct (inv_tracked0 j w Hj) as [[-> ->]|]; [done|done].
      * intros ->. done.
    + destruct (Hgo bv) as (vs' & -> & ? & ? & ? & ? & ? & ?); [by left|].
      cbn [mbind outcome_bind]. exists vs', true, c. split_and!; try done. congruence.
  - case_bool_decide as Hsome.
    + exists vs1, false, c. split_and!; try done; [|congruence|].
      * destruct Hinv1 as [[] ?]. split; [split|]; try done.
        intros j w Hj. right. destruct (inv_tracked0 j w Hj) as [[-> ->]|]; [|done].
        by destruct Hsome.
      * intros ->. by destruct Hsome.
    + destruct (Hgo (newBlockVotes false (Size (valSet vs1)))) as (vs' & -> & ? & ? & ? & ? & ? & ?);
        [eauto|]. cbn [mbind outcome_bind]. exists vs', true, c. split_and!; try done. congruence.
Qed.

Lemma check_signature_total vs v pk :
  block_ValidateBasic (vBlockID v) = true → ∃ err, check_signature vs v (Some pk) = Done err.
Proof.
  intros Hb.
  assert (Hs : ∀ c, is_Some (match VoteSignBytes c v with Done b => Some b | Panic _ => None end)).
  { intros c. unfold VoteSignBytes, CanonicalizeVote, CanonicalizeBlockID. rewrite Hb. simpl. eauto. }
  assert (Hv : ∃ err, verifyAndReturnProto v (chainID vs) (Some pk) = Done err).
  { unfold verifyAndReturnProto. destruct (negb _); [eauto|].
    destruct (Hs (chainID vs)) as [bz Hbz]. destruct (VoteSignBytes _ v); [|done].
    simpl. destruct (VerifySignature _ _ _); eauto. }
  destruct Hv as [err Hv]. unfold check_signature, VerifyVoteAndExtension, Verify. rewrite Hv. simpl.
  destruct (extensionsEnabled vs), err; eauto; repeat case_match; eauto.
Qed.

Lemma getVote_spec vs i key :
  inv vs → (i < length (vals_of vs))%nat →
  ∃ r, getVote vs (Z.of_nat i) key = Done r ∧
    match r with
    | Some e => (votes vs !! i = Some (Some e) ∨ ∃ bv, votesByBlock vs !! key = Some bv ∧ bvotes bv !! i = Some (Some e))
                ∧ vkey e = key
    | None => (∀ e, votes vs !! i = Some (Some e) → vkey e ≠ key) ∧
              (∀ bv, votesByBlock vs !! key = Some bv → bvotes bv !! i = Some None)
    end.
Proof.
  intros [[] _] Hi. pose proof (slots_ok_length _ _ _ _ inv_votes0) as Hlen.
  destruct (lookup_lt_is_Some_2 (votes vs) i) as [c Hc]; [lia|].
  unfold getVote. rewrite (idx_nat _ _ _ Hc). cbn [mbind outcome_bind].
  assert (Hget : ∃ r, getByIndex (votesByBlock vs !! key) (Z.of_nat i) = Done r ∧
    match r with
    | Some e => ∃ bv, votesByBlock vs !! key = Some bv ∧ bvotes bv !! i = Some (Some e) ∧ vkey e = key
    | None => ∀ bv, votesByBlock vs !! key = Some bv → bvotes bv !! i = Some None
    end).
  { destruct (votesByBlock vs !! key) as [bv|] eqn:Eb; simpl; [|by exists None].
    destruct (inv_blocks0 _ _ Eb) as [Hs Hbs].
    destruct (lookup_lt_is_Some_2 (bvotes bv) i) as [o Ho].
    { rewrite (slots_ok_length _ _ _ _ Hs). lia. }
    rewrite (idx_nat _ _ _ Ho). exists o. split; [done|]. destruct o as [e|].
    - exists bv. split_and!; [done..|]. by destruct (Hbs i e Ho) as (? & _ & _).
    - intros bv' ?. by simplify_eq. }
  destruct Hget as (r & Hr & Hspec). destruct c as [e|].
  - case_bool_decide as Hk; [by exists (Some e); split; [done|]; auto|].
    exists r. split; [done|]. destruct r; [naive_solver|]. split; [|done]. intros ? ?. by simplify_eq.
  - exists r. split; [done|]. destruct r; [naive_solver|]. split; [|done]. intros ? ?. by simplify_eq.
Qed.

Lemma check_signature_no_conflict vs v pk a b :
  check_signature vs v pk ≠ Done (Some (ErrVoteConflictingVotes a b)).
Proof.
  unfold check_signature, VerifyVoteAndExtension, Verify, verifyAndReturnProto.
  destruct pk; simpl; [|by destruct (extensionsEnabled vs)].
  destruct (extensionsEnabled vs), (negb (bytes_equal _ _)); simpl; try done;
    destruct (VoteSignBytes _ _); simpl; repeat case_match; simplify_eq/=; congruence.
Qed.

(** A vote the set held for [i] before: canonical, or under its block. *)
Definition known vs i w : Prop :=
  votes vs !! i = Some (Some w) ∨
  ∃ bv, votesByBlock vs !! vkey w = Some bv ∧ bvotes bv !! i = Some (Some w).

Definition right_step vs v : Prop :=
  Height v = height vs ∧ Round v = round vs ∧ Type_ v = signedMsgType vs.

(** The checks of [addVote] in their order: [refusal vs v e] names the first one
    that fails, with the error it returns. *)
Inductive refusal vs v : vote_error → Prop :=
| ref_index : ValidatorIndex v < 0 → refusal vs v ErrVoteInvalidValidatorIndex
| ref_address :
    0 ≤ ValidatorIndex v → ValidatorAddress v = [] → refusal vs v ErrVoteInvalidValidatorAddress
| ref_step :
    0 ≤ ValidatorIndex v → ValidatorAddress v ≠ [] → ¬ right_step vs v →
    refusal vs v ErrVoteUnexpectedStep
| ref_range :
    ValidatorAddress v ≠ [] → right_step vs v → zlen (vals_of vs) ≤ ValidatorIndex v →
    refusal vs v ErrVoteInvalidValidatorIndex
| ref_signer i val :
    ValidatorAddress v ≠ [] → right_step vs v → ValidatorIndex v = Z.of_nat i →
    vals_of vs !! i = Some val → ValidatorAddress v ≠ Address val →
    refusal vs v ErrVoteInvalidValidatorAddress
| ref_resigned i val w :
    ValidatorAddress v ≠ [] → right_step vs v → ValidatorIndex v = Z.of_nat i →
    vals_of vs !! i = Some val → ValidatorAddress v = Address val →
    known vs i w → vkey w = vkey v → Signature w ≠ Signature v →
    refusal vs v ErrVoteNonDeterministicSignature
| ref_signature i val (e : vote_error) :
    ValidatorAddress v ≠ [] → right_step vs v → ValidatorIndex v = Z.of_nat i →
    vals_of vs !! i = Some val → ValidatorAddress v = Address val →
    (∀ w, known vs i w → vkey w ≠ vkey v) →
    check_signature vs v (ValPubKey val) = Done (Some e) →
    refusal vs v e.

(** What [AddVote] may answer, and why. *)
Inductive vote_outcome vs v vs' : bool → option vote_error → Prop :=
| vo_rejected (e : vote_error) :
    vs' = vs → refusal vs v e →
    (∀ i, accepted vs i v → ∃ w, accepted vs i w ∧ vkey w = vkey v ∧ Signature w ≠ Signature v) →
    (∀ a b, e ≠ ErrVoteConflictingVotes a b) →
    vote_outcome vs v vs' false (Some e)
| vo_duplicate i w :
    vs' = vs → ValidatorIndex v = Z.of_nat i → right_step vs v → known vs i w → accepted vs i w →
    vkey w = vkey v → Signature w = Signature v →
    vote_outcome vs v vs' false None
| vo_added i val :
    accepted vs i v → votes vs !! i = Some None → counted vs' i v →
    vals_of vs !! i = Some val → sum vs' = sum vs + VotingPower val →
    vote_outcome vs v vs' true None
| vo_conflict i e added :
    accepted vs i v → votes vs !! i = Some (Some e) → accepted vs i e → vkey e ≠ vkey v →
    (added = true → counted vs' i v) → sum vs' = sum vs →
    vote_outcome vs v vs' added (Some (ErrVoteConflictingVotes e v)).

Lemma zlen_0_nil {A} (l : list A) : zlen l = 0 → l = [].
Proof. destruct l; [done|]. unfold zlen. simpl. lia. Qed.

Lemma known_intro vs i w key :
  (votes vs !! i = Some (Some w) ∨ ∃ bv, votesByBlock vs !! key = Some bv ∧ bvotes bv !! i = Some (Some w)) →
  vkey w = key → known vs i w.
Proof. by intros Hw <-. Qed.

Lemma addVote_spec vs v :
  inv vs → block_ValidateBasic (vBlockID v) = true →
  ∃ vs' added err, addVote vs (Some v) = Done (vs', (added, err)) ∧
    vote_outcome vs v vs' added err ∧ inv vs' ∧ same_config vs vs' ∧ keeps_votes vs vs' ∧
    (∀ b, maj23 vs = Some b → maj23 vs' = Some b).
Proof.
  intros Hinv Hbid.
  assert (Hrej : ∀ e : vote_error, refusal vs v e → (∀ i, accepted vs i v → ∃ w, accepted vs i w ∧ vkey w = vkey v ∧ Signature w ≠ Signature v) →
      (∀ a b, e ≠ ErrVoteConflictingVotes a b) →
    ∃ vs' added err, Done (vs, (false, Some e)) = Done (vs', (added, err)) ∧
      vote_outcome vs v vs' added err ∧ inv vs' ∧ same_config vs vs' ∧ keeps_votes vs vs' ∧
      (∀ b, maj23 vs = Some b → maj23 vs' = Some b)).
  { intros e Href Ha He. exists vs, false, (Some e). do 2 (split; [by constructor|]). do 2 (split; [done|]). split; [by intros ?|done]. }
  unfold addVote. cbv zeta.
  destruct (Z.ltb_spec (ValidatorIndex v) 0).
  { apply Hrej; [by constructor| |done]. intros i (? & _). lia. }
  destruct (Z.eqb_spec (zlen (ValidatorAddress v)) 0) as [Hz|Hz].
  { apply Hrej; [by apply ref_address, zlen_0_nil| |done]. intros i (_ & _ & _ & _ & Hn & _). destruct (ValidatorAddress v); [done|].
    unfold zlen in Hz. simpl in Hz. lia. }
  assert (Haddr : ValidatorAddress v ≠ []) by (by intros E; rewrite E in Hz).
  destruct (_ || _ || _) eqn:Estep.
  { apply Hrej; [| |done].
    { apply ref_step; [lia|done|]. intros (Hh & Hr & Ht). by rewrite Hh, Hr, Ht, !Z.eqb_refl in Estep. } intros i (_ & Hh & Hr & Ht & _). rewrite Hh, Hr, Ht, !Z.eqb_refl in Estep. done. }
  rewrite !orb_false_iff, !negb_false_iff, !Z.eqb_eq in Estep. destruct Estep as [[Eh Er] Et].
  assert (Hstep : right_step vs v) by done.
  unfold GetByIndex. destruct (_ || _) eqn:Erange.
  { apply Hrej; [| |done].
    { apply ref_range; [done..|]. unfold vals_of. zbool. lia. } intros i (Hi & _ & _ & _ & _ & val & Hval & _). apply lookup_lt_Some in Hval.
    unfold vals_of, zlen in *. rewrite Hi in Erange. zbool.
    destruct (Z.ltb_spec (Z.of_nat i) 0); [lia|]. simpl in Erange. zbool. lia. }
  zbool. set (i := Z.to_nat (ValidatorIndex v)).
  assert (Hi : ValidatorIndex v = Z.of_nat i) by lia.
  destruct (lookup_lt_is_Some_2 (vals_of vs) i) as [val Hval]; [unfold vals_of, zlen in *; lia|].
  unfold vals_of in Hval. rewrite Hval. cbn [mbind option_bind].
  destruct (bytes_equal (ValidatorAddress v) (Address val)) eqn:Eaddr; cbn [negb].
  2: { apply Hrej; [| |done].
       { apply (ref_signer vs v i val); [done..|]. intros Ha. apply bytes_equal_spec in Ha. congruence. }
       intros j (Hj & _ & _ & _ & _ & val' & Hval' & Ha & _).
       assert (j = i) as -> by lia. assert (val' = val) as -> by (unfold vals_of in *; congruence).
       apply bytes_equal_spec in Ha. congruence. }
  apply bytes_equal_spec in Eaddr. rewrite Hi.
  destruct (getVote_spec vs i (Key (vBlockID v)) Hinv) as (r & -> & Hr); [by eapply lookup_lt_Some|].
  cbn [mbind outcome_bind]. destruct r as [w|].
  { destruct Hr as [Hw Hk]. assert (Haw : accepted vs i w).
    { destruct Hinv as [[] _]. destruct Hw as [Hw|(bv & Hbv & Hw)]; [eauto|].
      by destruct (inv_blocks0 _ _ Hbv) as [_ Hb]; destruct (Hb i w Hw) as (_ & ? & _). }
    destruct (bytes_equal _ _) eqn:Esig.
    - apply bytes_equal_spec in Esig. exists vs, false, None. split; [done|].
      split; [eapply (vo_duplicate _ _ _ i w); try done; by eapply known_intro|]. do 2 (split; [done|]). split; [by intros ?|done].
    - assert (Hsig : Signature w ≠ Signature v) by (intros E; apply bytes_equal_spec in E; congruence).
      apply Hrej; [| |done].
      { eapply (ref_resigned vs v i val w); try done. by eapply known_intro. }
      intros j (Hj & _). assert (j = i) as -> by lia. by exists w. }
  destruct (ValPubKey val) as [pk|] eqn:Epk.
  2: { exfalso. destruct Hinv as [[[_ [Hf _]] _ _ _ _ _ _] _]. eapply Forall_lookup in Hf; [|exact Hval].
       destruct Hf as (_ & [? ?] & _). congruence. }
  destruct (check_signature_total vs v pk Hbid) as [err Hcheck]. rewrite Hcheck.
  cbn [mbind outcome_bind]. destruct err as [er|].
  { apply Hrej.
    - eapply (ref_signature vs v i val); try done; [|by rewrite Epk]. intros w Hw Hk.
      destruct Hr as [Hr1 Hr2]. destruct Hw as [Hw|(bv & Hbv & Hw)]; [by eapply Hr1|].
      rewrite Hk in Hbv. specialize (Hr2 _ Hbv). congruence.
    - intros j (Hj & _ & _ & _ & _ & val' & Hval' & _ & Hc). assert (j = i) as -> by lia.
      assert (val' = val) as -> by (unfold vals_of in *; congruence). congruence.
    - intros a b ->. revert Hcheck. apply check_signature_no_conflict. }
  assert (Hacc : accepted vs i v).
  { split_and!; try done. exists val. split_and!; [done..|]. by rewrite Epk. }
  destruct Hr as [Hr1 Hr2].
  destruct (addVerifiedVote_spec vs i v val Hinv Hacc Hval Hr1 Hr2)
    as (vs' & added & c & Hadd & Hc & Hinv' & Hcfg & Hkeep & Hmaj & Hcnt & Hnone & Hsum).
  unfold vkey in Hadd. rewrite Hadd. cbn [mbind outcome_bind]. destruct c as [e|].
  - exists vs', added, (Some (ErrVoteConflictingVotes e v)). split_and!; try done.
    eapply (vo_conflict _ _ _ i e); auto. destruct Hinv as [[] _]. eauto.
  - rewrite Hnone in * by done. exists vs', true, None. split_and!; try done.
    eapply (vo_added _ _ _ i val); auto.
Qed.
(** An accepted vote that is not known yet goes through to [addVerifiedVote]. *)
Lemma addVote_accepted vs i v val :
  inv vs → accepted vs i v → vals_of vs !! i = Some val →
  (∀ e, votes vs !! i = Some (Some e) → vkey e ≠ vkey v) →
  (∀ bv, votesByBlock vs !! vkey v = Some bv → bvotes bv !! i = Some None) →
  addVote vs (Some v) =
    (r ← addVerifiedVote vs v (vkey v) (VotingPower val);
     let '(vs', (added, conflicting)) := r in
     match conflicting with
     | Some c => Done (vs', (added, Some (ErrVoteConflictingVotes c v)))
     | None => if (added : bool) then Done (vs', (true, None))
               else Panic "Expected to add non-conflicting vote"
     end).
Proof.
  intros Hinv (Hi & Hh & Hr & Ht & Hne & val' & Hval' & Ha & Hc) Hval Hr1 Hr2.
  assert (val' = val) as -> by congruence. unfold vals_of in Hval.
  pose proof (lookup_lt_Some _ _ _ Hval) as Hlt.
  unfold addVote. cbv zeta. rewrite Hi, Hh, Hr, Ht, !Z.eqb_refl. cbn [negb orb].
  destruct (Z.ltb_spec (Z.of_nat i) 0); [lia|].
  destruct (Z.eqb_spec (zlen (ValidatorAddress v)) 0) as [Hz|_].
  { destruct (ValidatorAddress v); [done|]. unfold zlen in Hz. simpl in Hz. lia. }
  unfold GetByIndex. rewrite Nat2Z.id, Hval.
  destruct (Z.ltb_spec (Z.of_nat i) 0), (Z.leb_spec (zlen (Validators (valSet vs))) (Z.of_nat i));
    try (unfold zlen in *; lia).
  cbn [orb mbind option_bind]. rewrite (proj2 (bytes_equal_spec _ _) Ha). cbn [negb].
  destruct (getVote_spec vs i (Key (vBlockID v)) Hinv Hlt) as (r & -> & Hg).
  cbn [mbind outcome_bind]. destruct r as [e|].
  - exfalso. destruct Hg as [[He|(bv & Hbv & He)] Hk].
    + by destruct (Hr1 e He).
    + specialize (Hr2 bv Hbv). congruence.
  - by rewrite Hc.
Qed.


Lemma SetPeerMaj23_spec vs peer bid :
  inv vs →
  ∃ vs' err, SetPeerMaj23 (Some vs) peer bid = Done (vs', err) ∧ inv vs' ∧ same_config vs vs' ∧
    votes vs' = votes vs ∧ sum vs' = sum vs ∧ maj23 vs' = maj23 vs ∧
    (err = true ↔ ∃ b, peerMaj23s vs !! peer = Some b ∧ b ≠ bid) ∧
    (err = false → is_Some (votesByBlock vs' !! Key bid) ∨ peerMaj23s vs !! peer = Some bid).
Proof.
  intros Hinv. unfold SetPeerMaj23.
  destruct (peerMaj23s vs !! peer) as [b|] eqn:Ep.
  { destruct (Equals b bid) eqn:E.
    - apply Equals_spec in E as ->. exists vs, false. split_and!; try done; [naive_solver|by right].
    - assert (b ≠ bid) by (intros ->; by rewrite (proj2 (Equals_spec bid bid)) in E).
      exists vs, true. split_and!; try done. naive_solver. }
  assert (Hput : ∀ key bv, block_ok vs key bv → bsum bv < quorum (vals_of vs) ∨ votesByBlock vs !! key ≠ None →
      (∀ old, votesByBlock vs !! key = Some old → bvotes bv = bvotes old ∧ bsum bv = bsum old) →
      inv (set_byBlock (set_peers vs (<[peer:=bid]> (peerMaj23s vs))) (<[key:=bv]> (votesByBlock vs)))).
  { intros key bv Hok Hsm Hold. destruct Hinv as [[Hwf Hne Hc Hv Ha Ht Hb] Hm].
    split; [split|]; try done.
    - intros j w Hj. right. destruct (Ht j w Hj) as [[]|[(bw & u & Hbw & Hu)|?]]; [left|by right].
      simpl. destruct (decide (key = vkey w)) as [->|].
      + exists bv, u. rewrite lookup_insert_eq. split; [done|]. by destruct (Hold _ Hbw) as [-> _].
      + exists bw, u. by rewrite lookup_insert_ne.
    - intros key' bw. simpl. destruct (decide (key = key')) as [->|].
      + rewrite lookup_insert_eq. intros [= <-]. done.
      + rewrite lookup_insert_ne by done. apply Hb.
    - unfold maj_inv in *. simpl. destruct (maj23 vs) as [b|].
      + destruct Hm as (bw & Hbw & Hq & Hex & Hall). unfold maj_ok. simpl.
        destruct (decide (key = Key b)) as [->|].
        * exists bv. rewrite lookup_insert_eq. destruct (Hold _ Hbw) as [-> ->]. by split_and!.
        * exists bw. rewrite lookup_insert_ne by done. by split_and!.
      + intros key' bw. destruct (decide (key = key')) as [->|].
        * rewrite lookup_insert_eq. intros [= <-]. destruct Hsm as [|Hsm]; [done|].
          destruct (votesByBlock vs !! key') as [old|] eqn:E; [|done].
          destruct (Hold _ eq_refl) as [_ ->]. eauto.
        * rewrite lookup_insert_ne by done. eauto. }
  assert (Herr : false = true ↔ ∃ b, None = Some b ∧ b ≠ bid) by naive_solver.
  cbn [set_peers votesByBlock valSet]. destruct (votesByBlock vs !! Key bid) as [bv|] eqn:Eb.
  - destruct (peerMaj23 bv) eqn:Epm.
    + eexists _, false. split; [done|]. split_and!; try done; simpl; eauto.
      destruct Hinv as [[] ?]. split; [split|]; done.
    + eexists _, false. split; [done|]. split_and!; try done.
      * apply Hput; [exact (inv_blocks _ _ (proj1 Hinv) _ _ Eb)|right; congruence|].
        intros old. rewrite Eb. by intros [= <-].
      * intros _. left. simpl. rewrite lookup_insert_eq. eauto.
  - eexists _, false. split; [done|]. split_and!; try done.
    + apply Hput; [apply new_block_ok; by apply (inv_nonempty _ _ (proj1 Hinv))| |by rewrite Eb].
      left. simpl. apply quorum_pos. apply (inv_vals _ _ (proj1 Hinv)).
    + intros _. left. simpl. rewrite lookup_insert_eq. eauto.
Qed.

Lemma new_vote_set_inv c h r t vals :
  wf vals → Validators vals ≠ [] → inv (new_vote_set c h r t vals).
Proof.
  intros (Hwf & _ & Hc & _) Hne.
  assert (Hnone : ∀ i v, votes (new_vote_set c h r t vals) !! i = Some (Some v) → False).
  { intros i v Hi. by apply lookup_replicate in Hi as [? _]. }
  split; [split|]; try done; try (intros i v Hi; by destruct (Hnone i v Hi)).
  by apply slots_new.
Qed.

(** Reachable vote sets: built by a constructor, then any sequence of votes and
    of peers' claims.  Votes carry a block id that passed basic validation. *)
Inductive reachable : VoteSet → Prop :=
| reach_new c h r t vals vs :
    wf vals → Validators vals ≠ [] →
    (NewVoteSet c h r t vals = Done vs ∨ NewExtendedVoteSet c h r t vals = Done vs) →
    reachable vs
| reach_vote vs v vs' r :
    reachable vs → block_ValidateBasic (vBlockID v) = true →
    AddVote (Some vs) (Some v) = Done (vs', r) → reachable vs'
| reach_peer vs peer bid vs' r :
    reachable vs → SetPeerMaj23 (Some vs) peer bid = Done (vs', r) → reachable vs'.

Lemma reachable_inv vs : reachable vs → inv vs.
Proof.
  induction 1 as [c h r t vals vs Hwf Hne Hnew|vs v vs' r _ IH Hb Hadd|vs peer bid vs' r _ IH Hset].
  - unfold NewExtendedVoteSet, NewVoteSet in Hnew. destruct (h =? 0); [naive_solver|].
    pose proof (new_vote_set_inv c h r t vals Hwf Hne) as Hinv.
    destruct Hnew as [[= <-]|[= <-]]; [done|].
    destruct Hinv as [[] ?]. split; [split|]; try done.
    intros i v Hi. by apply lookup_replicate in Hi as [? _].
  - destruct (addVote_spec vs v IH Hb) as (vs1 & a & e & Hadd' & _ & Hinv & _).
    unfold AddVote in Hadd. rewrite Hadd' in Hadd. by simplify_eq.
  - destruct (SetPeerMaj23_spec vs peer bid IH) as (vs1 & e & Hset' & Hinv & _). congruence.
Qed.

(** The validator set changes in its cached total only, and a majority that
    appears is one for the block of the vote. *)
Lemma TotalVotingPower_set vals vals' t : TotalVotingPower vals = Done (vals', t) → ∃ n, vals' = set_total vals n.
Proof.
  unfold TotalVotingPower, updateTotalVotingPower. intros E.
  destruct (_ =? 0); [destruct (sum_power _ _); cbn [mbind outcome_bind] in E; simplify_eq/=; eauto|].
  cbn [mbind outcome_bind] in E. simplify_eq. exists (totalVotingPower vals'). by destruct vals'.
Qed.

Lemma record_vote_frame vs v key p vs' c :
  record_vote vs v key p = Done (vs', c) → valSet vs' = valSet vs ∧ maj23 vs' = maj23 vs.
Proof.
  unfold record_vote. intros E.
  destruct (idx _ _) as [[e|]|]; cbn [mbind outcome_bind] in E; [|..|done].
  - destruct (Equals _ _); [done|]. destruct (match maj23 vs with Some _ => _ | None => _ end); [|by simplify_eq].
    destruct (upd _ _ _); cbn [mbind outcome_bind] in E; [|done].
    destruct (BitArray.SetIndex _ _ _); cbn [mbind outcome_bind] in E; by simplify_eq.
  - destruct (upd _ _ _); cbn [mbind outcome_bind] in E; [|done].
    destruct (BitArray.SetIndex _ _ _); cbn [mbind outcome_bind] in E; by simplify_eq.
Qed.

Lemma tally_vote_frame vs bv v key p vs' :
  tally_vote vs bv v key p = Done vs' →
  (∃ n, valSet vs' = set_total (valSet vs) n) ∧
  (maj23 vs' = maj23 vs ∨ maj23 vs = None ∧ maj23 vs' = Some (vBlockID v)).
Proof.
  unfold tally_vote. intros E.
  destruct (TotalVotingPower _) as [[vals t]|] eqn:Et; cbn [mbind outcome_bind fst snd] in E; [|done].
  apply TotalVotingPower_set in Et as [n ->].
  destruct (bv_addVerifiedVote _ _ _) as [bv'|]; cbn [mbind outcome_bind] in E; [|done].
  destruct (_ && _); [|simplify_eq/=; eauto]. simpl in E.
  destruct (maj23 vs) eqn:Em; [simplify_eq/=; eauto|].
  destruct (copy_votes _ _ _); cbn [mbind outcome_bind] in E; [|done]. simplify_eq/=. eauto.
Qed.

Lemma addVerifiedVote_frame vs v key p vs' c :
  addVerifiedVote vs v key p = Done (vs', c) →
  (∃ n, valSet vs' = set_total (valSet vs) n) ∧
  (maj23 vs' = maj23 vs ∨ maj23 vs = None ∧ maj23 vs' = Some (vBlockID v)).
Proof.
  unfold addVerifiedVote. intros E.
  destruct (record_vote _ _ _ _) as [[vs1 c1]|] eqn:Er; cbn [mbind outcome_bind] in E; [|done].
  apply record_vote_frame in Er as [Hv Hm].
  assert (Hsame : ∃ n, valSet vs1 = set_total (valSet vs) n).
  { exists (totalVotingPower (valSet vs)). rewrite Hv. by destruct (valSet vs). }
  destruct (votesByBlock vs1 !! key) as [bv|]; destruct (bool_decide _); simpl in E;
    try (destruct (peerMaj23 bv); simpl in E); simplify_eq; auto;
    (destruct (tally_vote _ _ _ _ _) as [vs2|] eqn:Et; cbn [mbind outcome_bind] in E; [|done]);
    simplify_eq; apply tally_vote_frame in Et; rewrite Hv, Hm in Et; exact Et.
Qed.

Lemma addVote_frame vs v vs' r :
  addVote vs (Some v) = Done (vs', r) →
  (∃ n, valSet vs' = set_total (valSet vs) n) ∧
  (maj23 vs' = maj23 vs ∨ maj23 vs = None ∧ maj23 vs' = Some (vBlockID v)).
Proof.
  intros E.
  assert (Hsame : ∃ n, valSet vs = set_total (valSet vs) n).
  { exists (totalVotingPower (valSet vs)). by destruct (valSet vs). }
  unfold addVote in E. cbv zeta in E.
  destruct (_ <? 0); [simplify_eq; auto|]. destruct (_ =? 0); [simplify_eq; auto|].
  destruct (_ || _ || _); [simplify_eq; auto|].
  destruct (GetByIndex _ _) as [[addr val]|]; [|simplify_eq; auto].
  destruct (negb _); [simplify_eq; auto|].
  destruct (getVote _ _ _) as [[w|]|]; cbn [mbind outcome_bind] in E; [| |done].
  { destruct (bytes_equal _ _); simplify_eq; auto. }
  destruct (check_signature _ _ _) as [[e|]|]; cbn [mbind outcome_bind] in E; [simplify_eq; auto| |done].
  destruct (addVerifiedVote _ _ _ _) as [[vs1 [a c]]|] eqn:Ea; cbn [mbind outcome_bind] in E; [|done].
  apply addVerifiedVote_frame in Ea. destruct c; [by simplify_eq|]. destruct a; by simplify_eq.
Qed.

Lemma SetPeerMaj23_frame vs peer bid vs' r :
  SetPeerMaj23 (Some vs) peer bid = Done (vs', r) → valSet vs' = valSet vs ∧ maj23 vs' = maj23 vs.
Proof. unfold SetPeerMaj23. intros E. repeat case_match; by simplify_eq/=. Qed.

Lemma wf_retotal vals n :
  wf vals → n = 0 ∨ n = zsum VotingPower (Validators vals) → wf (set_total vals n).
Proof. intros (? & ? & _ & ?) ?. by split_and!. Qed.

Lemma reachable_sorted vs : reachable vs → wf (valSet vs).
Proof.
  intros Hr. induction Hr as [c h r t vals vs Hwf Hne Hnew|vs v vs' r Hr IH Hb Hadd|vs peer bid vs' r Hr IH Hset].
  - unfold NewExtendedVoteSet, NewVoteSet in Hnew. destruct (h =? 0); [naive_solver|].
    by destruct Hnew as [[= <-]|[= <-]].
  - pose proof (reachable_inv _ (reach_vote _ _ _ _ Hr Hb Hadd)) as [[_ _ Hc _ _ _ _] _].
    apply addVote_frame in Hadd as [[n Hn] _]. unfold vals_of in Hc. rewrite Hn in *. by apply wf_retotal.
  - by apply SetPeerMaj23_frame in Hset as [-> _].
Qed.

(** One call on a vote set: a vote of basic validity, or a peer's claim. *)
Inductive vs_step vs : VoteSet → Prop :=
| step_vote v vs' r :
    block_ValidateBasic (vBlockID v) = true → AddVote (Some vs) (Some v) = Done (vs', r) → vs_step vs vs'
| step_peer peer bid vs' r : SetPeerMaj23 (Some vs) peer bid = Done (vs', r) → vs_step vs vs'.

Lemma majority_stays vs vs' b : rtc vs_step vs vs' → maj23 vs = Some b → maj23 vs' = Some b.
Proof.
  induction 1 as [|vs vs1 vs2 Hs _ IH]; [done|]. intros Hb. apply IH.
  destruct Hs as [v vs1 r _ Hadd|peer bid vs1 r Hset].
  - apply addVote_frame in Hadd as [_ [->|[Hn _]]]; [done|congruence].
  - apply SetPeerMaj23_frame in Hset as [_ ->]. done.
Qed.


End operations.

(** ** Majorities *)

Section majority.
Context `{PubKeyOps, SignCodec}.
Implicit Types (vs : VoteSet) (bv : blockVotes) (v e w : Vote) (i j k : nat).

Definition total vs : Z := zsum VotingPower (vals_of vs).

Definition for_key (key : list Z) v : bool := bool_decide (vkey v = key).

Lemma quorum_iff vals s :
  wf_list vals → quorum vals ≤ s ↔ 2 * zsum VotingPower vals < 3 * s.
Proof.
  intros Hwf. unfold quorum. assert (0 ≤ zsum VotingPower vals).
  { apply zsum_nonneg. by apply wf_power_nonneg. }
  rewrite Z.quot_div_nonneg by lia. set (T := zsum VotingPower vals) in *.
  pose proof (Z.div_mod (T * 2) 3 ltac:(lia)). pose proof (Z.mod_pos_bound (T * 2) 3 ltac:(lia)). lia.
Qed.

(** The canonical votes for the majority block hold the block's tally. *)
Lemma maj_power vs b :
  inv vs → maj23 vs = Some b →
  2 * total vs < 3 * power_of (for_key (Key b)) (votes vs) (vals_of vs).
Proof.
  intros [[Hwf Hne Hc Hv Ha Ht Hb] Hm] Hmaj. unfold maj_inv in Hm. rewrite Hmaj in Hm.
  destruct Hm as (bv & Hbv & Hq & _ & Hall). apply quorum_iff in Hq; [|done].
  destruct (Hb _ _ Hbv) as [(Hlen & Hsum & _) _]. destruct Hv as (Hlen' & _ & _).
  assert (bsum bv ≤ power_of (for_key (Key b)) (votes vs) (vals_of vs)); [|unfold total; lia].
  rewrite Hsum. clear Hq Hbv Hsum Hb Ht Ha Hc Hne Hmaj.
  assert (Hnn : ∀ val, val ∈ vals_of vs → 0 ≤ VotingPower val) by (by apply wf_power_nonneg).
  unfold tally, power_of. revert Hlen Hlen' Hall Hnn. clear Hwf.
  generalize (votes vs) (bvotes bv) (vals_of vs). intros l l' vals. revert l' vals.
  induction l as [|o l IH]; intros [|o' l'] [|val vals] Hlen Hlen' Hall Hnn; simplify_eq/=; try done.
  assert (Hhd : slot_power any_vote (o', val) ≤ slot_power (for_key (Key b)) (o, val)).
  { unfold slot_power. simpl. destruct o' as [v'|].
    - destruct (Hall 0%nat eq_refl) as (v & [= ->] & Hk). unfold for_key. by rewrite bool_decide_true.
    - specialize (Hnn val ltac:(set_solver)). destruct o; [|done]. destruct (for_key _ _); lia. }
  specialize (IH l' vals Hlen Hlen' (λ i, Hall (S i)) ltac:(set_solver)). lia.
Qed.

(** The validators whose slots satisfy both conditions. *)
Definition both_power (P Q : Vote → bool) (l1 l2 : list (option Vote)) (vals : list Validator) : Z :=
  zsum (λ p, match p.1 with
             | (Some v, Some w) => if P v && Q w then VotingPower p.2 else 0
             | _ => 0
             end) (zip (zip l1 l2) vals).

Lemma both_power_lower P Q l1 l2 vals :
  (∀ val, val ∈ vals → 0 ≤ VotingPower val) → length l1 = length vals → length l2 = length vals →
  power_of P l1 vals + power_of Q l2 vals ≤ zsum VotingPower vals + both_power P Q l1 l2 vals.
Proof.
  unfold both_power, power_of. revert l1 l2.
  induction vals as [|v vals IH]; intros [|o1 l1] [|o2 l2] Hnn H1 H2; simplify_eq/=; [done|].
  specialize (IH l1 l2 ltac:(set_solver) H1 H2). specialize (Hnn v ltac:(set_solver)).
  unfold slot_power in *. simpl in *. destruct o1 as [w1|], o2 as [w2|];
    try destruct (P w1); try destruct (Q w2); simpl; lia.
Qed.

End majority.

(** ** Claims *)

Section claims.
Context `{PubKeyOps, SignCodec}.
Implicit Types (vs : VoteSet) (bv : blockVotes) (v e w : Vote) (i j k : nat).

(** C13: on every reachable vote set [AddVote] returns (it never panics), keeps the
    invariant of the tally, and answers truthfully: a vote is added only if its
    step, signer and signature check out, and then it is counted under its
    block; the first such vote of a validator is always added and its power
    enters the sum once; a reported conflict is between two accepted votes of
    the same validator for different blocks; a vote passes as a duplicate only if
    the set already held that validator's vote for the block with the same
    signature; any other vote is refused with the error of the first check it
    fails ([refusal]), and then the set is unchanged.  Recorded votes and a recorded majority are never lost. *)
Theorem AddVote_correct vs v :
  reachable vs → block_ValidateBasic (vBlockID v) = true →
  ∃ vs' added err, AddVote (Some vs) (Some v) = Done (vs', (added, err)) ∧
    vote_outcome vs v vs' added err ∧ inv vs' ∧ same_config vs vs' ∧ keeps_votes vs vs' ∧
    (∀ b, maj23 vs = Some b → maj23 vs' = Some b).
Proof. intros Hr Hb. apply addVote_spec; [by apply reachable_inv|done]. Qed.

(** C14: [TwoThirdsMajority] reports a block exactly when some block has
    recorded accepted votes from validators that hold more than two thirds of
    the total power; the canonical votes alone prove that majority for the block
    it reports.  The report is the first such block: when a vote makes it
    appear, it is that vote's block, and once made it stays the same after every
    further vote and peer's claim, also when a second block passes two thirds. *)
Theorem TwoThirdsMajority_correct vs :
  reachable vs →
  match TwoThirdsMajority (Some vs) with
  | (b, true) => 2 * total vs < 3 * power_of (for_key (Key b)) (votes vs) (vals_of vs)
  | (b, false) => b = nil_BlockID
  end ∧
  ((TwoThirdsMajority (Some vs)).2 = true ↔
     ∃ key bv, votesByBlock vs !! key = Some bv ∧ 2 * total vs < 3 * tally (bvotes bv) (vals_of vs)) ∧
  (∀ i v, votes vs !! i = Some (Some v) → accepted vs i v) ∧
  HasTwoThirdsMajority (Some vs) = (TwoThirdsMajority (Some vs)).2 ∧
  (∀ v vs' r b, (TwoThirdsMajority (Some vs)).2 = false → AddVote (Some vs) (Some v) = Done (vs', r) →
     TwoThirdsMajority (Some vs') = (b, true) → b = vBlockID v) ∧
  (∀ vs' b, TwoThirdsMajority (Some vs) = (b, true) → rtc vs_step vs vs' →
     TwoThirdsMajority (Some vs') = (b, true)).
Proof.
  intros Hr. pose proof (reachable_inv vs Hr) as Hinv. split_and!.
  - unfold TwoThirdsMajority. destruct (maj23 vs) as [b|] eqn:Eb; [by apply maj_power|done].
  - destruct Hinv as [[] Hm]. unfold maj_inv in Hm.
    assert (Hq : ∀ key bv, votesByBlock vs !! key = Some bv →
        quorum (vals_of vs) ≤ bsum bv ↔ 2 * total vs < 3 * tally (bvotes bv) (vals_of vs)).
    { intros key bv Hbv. destruct (inv_blocks0 _ _ Hbv) as [(_ & <- & _) _]. by apply quorum_iff. }
    unfold TwoThirdsMajority. destruct (maj23 vs) as [b|]; simpl.
    + split; [|done]. intros _. destruct Hm as (bv & Hbv & Hle & _). exists (Key b), bv. split; [done|]. by eapply Hq.
    + split; [done|]. intros (key & bv & Hbv & Hlt). apply (Hq _ _ Hbv) in Hlt. specialize (Hm _ _ Hbv). lia.
  - apply (inv_accepted _ _ (proj1 Hinv)).
  - unfold HasTwoThirdsMajority, TwoThirdsMajority. by destruct (maj23 vs).
  - unfold TwoThirdsMajority. intros v vs' r b Hn Hadd Hb. apply addVote_frame in Hadd as [_ Hm].
    destruct (maj23 vs), (maj23 vs'); naive_solver.
  - unfold TwoThirdsMajority. intros vs' b Hb Hst. destruct (maj23 vs) as [b'|] eqn:Em; simplify_eq.
    by rewrite (majority_stays _ _ _ Hst Em).
Qed.

(** two vote sets of the same validators, for instance those of two correct
    nodes, that report majorities for different blocks expose validators that
    signed both and hold more than a third of the total power. *)
Theorem conflicting_majorities vs1 vs2 b1 b2 :
  reachable vs1 → reachable vs2 → vals_of vs1 = vals_of vs2 →
  TwoThirdsMajority (Some vs1) = (b1, true) → TwoThirdsMajority (Some vs2) = (b2, true) →
  Key b1 ≠ Key b2 →
  total vs1 < 3 * both_power (for_key (Key b1)) (for_key (Key b2)) (votes vs1) (votes vs2) (vals_of vs1) ∧
  ∀ i v w, votes vs1 !! i = Some (Some v) → votes vs2 !! i = Some (Some w) →
    vkey v = Key b1 → vkey w = Key b2 →
    accepted vs1 i v ∧ accepted vs2 i w ∧ vBlockID v ≠ vBlockID w.
Proof.
  intros Hr1%reachable_inv Hr2%reachable_inv Hvals Hm1 Hm2 Hne.
  assert (Hmaj : ∀ vs b, TwoThirdsMajority (Some vs) = (b, true) → maj23 vs = Some b).
  { intros vs b. unfold TwoThirdsMajority. destruct (maj23 vs); naive_solver. }
  apply Hmaj in Hm1, Hm2. split.
  - pose proof (maj_power _ _ Hr1 Hm1) as Hp1. pose proof (maj_power _ _ Hr2 Hm2) as Hp2.
    unfold total in *. rewrite <-Hvals in Hp2.
    pose proof (inv_vals _ _ (proj1 Hr1)) as Hwf.
    pose proof (both_power_lower (for_key (Key b1)) (for_key (Key b2)) (votes vs1) (votes vs2)
      (vals_of vs1) (wf_power_nonneg _ Hwf)) as Hb.
    pose proof (slots_ok_length _ _ _ _ (inv_votes _ _ (proj1 Hr1))).
    pose proof (slots_ok_length _ _ _ _ (inv_votes _ _ (proj1 Hr2))) as Hl2. rewrite <-Hvals in Hl2.
    specialize (Hb ltac:(done) ltac:(done)). lia.
  - intros i v w Hv Hw Hkv Hkw. split_and!.
    + by apply (inv_accepted _ _ (proj1 Hr1)).
    + by apply (inv_accepted _ _ (proj1 Hr2)).
    + intros E. unfold vkey in *. congruence.
Qed.

Lemma tally_all l vals :
  length l = length vals → (∀ val, val ∈ vals → 0 < VotingPower val) →
  tally l vals = zsum VotingPower vals ↔ ∀ i, (i < length vals)%nat → voted l i = true.
Proof.
  unfold tally, power_of. revert l. induction vals as [|val vals IH]; intros [|o l] Hlen Hpos; simplify_eq/=.
  { split; [|done]. intros _ i ?. lia. }
  pose proof (Hpos val ltac:(set_solver)).
  assert (zsum (slot_power any_vote) (zip l vals) ≤ zsum VotingPower vals).
  { clear -Hlen Hpos. revert l Hlen. induction vals as [|w vals IH]; intros [|o l] Hlen; simplify_eq/=; [done|].
    specialize (IH ltac:(set_solver) l Hlen). pose proof (Hpos w ltac:(set_solver)).
    assert (slot_power any_vote (o, w) ≤ VotingPower w) by (unfold slot_power; destruct o; simpl; lia).
    lia. }
  specialize (IH l Hlen ltac:(set_solver)). split.
  - intros Hsum. assert (is_Some o) as [v ->].
    { destruct o; [eauto|]. unfold slot_power at 1 in Hsum. simpl in Hsum. lia. }
    unfold slot_power at 1 in Hsum. simpl in Hsum. intros [|i] Hi; [done|].
    apply (proj1 IH); lia.
  - intros Hall. pose proof (Hall 0%nat ltac:(lia)) as H0'. unfold voted in H0'. simpl in H0'.
    destruct o; [|done]. unfold slot_power at 1. simpl.
    rewrite (proj2 IH); [done|]. intros i Hi. apply (Hall (S i)). lia.
Qed.

(** the two progress tests of the consensus machine are exact: any two thirds
    means more than two thirds of the power has voted for something, and all
    means every validator has voted. *)
Theorem progress_tests_correct vs :
  reachable vs →
  ∃ vs1 any all,
    HasTwoThirdsAny (Some vs) = Done (Some vs1, any) ∧ HasAll (Some vs) = Done (Some vs1, all) ∧
    (any = true ↔ 2 * total vs < 3 * tally (votes vs) (vals_of vs)) ∧
    (all = true ↔ ∀ i, (i < length (vals_of vs))%nat → voted (votes vs) i = true) ∧
    (∀ i, match vs_BitArray (Some vs) with
          | Some b => BitArray.GetIndex (Some b) (Z.of_nat i) = Done (voted (votes vs) i)
          | None => False
          end).
Proof.
  intros Hr%reachable_inv. destruct (code_quorum _ _ Hr) as (Htvp & Hq & _).
  pose proof (inv_vals _ _ (proj1 Hr)) as Hwf.
  unfold HasTwoThirdsAny, HasAll. rewrite Htvp. cbn [mbind outcome_bind fst snd]. rewrite Hq.
  eexists _, _, _. do 2 (split; [done|]).
  destruct (inv_votes _ _ (proj1 Hr)) as (Hlen & -> & b & Hba & Hb & _ & _ & Hg). split_and!.
  - rewrite Z.ltb_lt. pose proof (quorum_iff (vals_of vs) (tally (votes vs) (vals_of vs)) Hwf).
    unfold quorum, total in *. lia.
  - rewrite Z.eqb_eq. apply tally_all; [done|]. apply Forall_forall. by apply wf_list_positive.
  - intros i. unfold vs_BitArray. simpl. rewrite Hba. simpl. rewrite BitArray.copy_eq.
    rewrite <-Hg. by apply BitArray.getIndex_get.
Qed.
(** once a block has the majority, an accepted vote for it from a validator
    that first voted for another block replaces the recorded vote although
    [AddVote] answers that it was not added, and (unless a peer claimed the
    block) the votes filed under the block do not get it: the canonical list and
    the per-block list disagree from then on. *)
Theorem AddVote_replaces_unadded vs i v e b bv :
  reachable vs → block_ValidateBasic (vBlockID v) = true → accepted vs i v →
  votes vs !! i = Some (Some e) → vkey e ≠ vkey v →
  maj23 vs = Some b → Key b = vkey v →
  votesByBlock vs !! vkey v = Some bv → peerMaj23 bv = false → bvotes bv !! i = Some None →
  ∃ vs', AddVote (Some vs) (Some v) = Done (vs', (false, Some (ErrVoteConflictingVotes e v))) ∧
    votes vs' !! i = Some (Some v) ∧ votesByBlock vs' = votesByBlock vs ∧ ¬ counted vs' i v.
Proof.
  intros Hr%reachable_inv _ Hacc He Hne Hmaj Hk Hbv Hp Hfree.
  pose proof Hacc as (_ & _ & _ & _ & _ & val & Hval & _).
  assert (Hr1 : ∀ e', votes vs !! i = Some (Some e') → vkey e' ≠ vkey v) by (intros; by simplify_eq).
  unfold AddVote. rewrite (addVote_accepted vs i v val) by (done || intros; by simplify_eq).
  destruct (record_vote_spec vs i v val Hr Hacc Hval Hr1)
    as (vs1 & c & Hrec & Hc & _ & _ & Hby & _ & Hvotes & _).
  assert (c = Some e) as -> by congruence.
  unfold addVerifiedVote. rewrite Hrec. cbn [mbind outcome_bind]. rewrite Hby, Hbv.
  rewrite bool_decide_true, Hp by eauto. cbn [andb negb mbind outcome_bind].
  exists vs1. split_and!; [done| |done|].
  - rewrite Hvotes, decide_True by (right; exists b; done).
    apply list_lookup_insert_eq. by eapply lookup_lt_Some.
  - intros (bv' & Hbv' & Hv). rewrite Hby in Hbv'. congruence.
Qed.


End claims.

(** ** Concrete vote sets *)

Section examples.
#[local] Existing Instance toy_keys.
#[local] Existing Instance toy_codec.

Definition ex_sign (k : Z) (v : Vote) : Vote :=
  match VoteSignBytes "chain" v with
  | Done bz => {| Type_ := Type_ v; Height := Height v; Round := Round v; vBlockID := vBlockID v;
                  Timestamp := Timestamp v; ValidatorAddress := ValidatorAddress v;
                  ValidatorIndex := ValidatorIndex v; Signature := k :: bz;
                  Extension := []; ExtensionSignature := [] |}
  | Panic _ => v
  end.

(** The precommit of validator [k] (at index [k - 1]) for block [b]. *)
Definition ex_vote (k : Z) (b : BlockID) : Vote :=
  ex_sign k {| Type_ := PrecommitType; Height := 5; Round := 0; vBlockID := b; Timestamp := 1;
               ValidatorAddress := toy_address k; ValidatorIndex := k - 1; Signature := [];
               Extension := []; ExtensionSignature := [] |}.

Fixpoint run_votes (vs : VoteSet) (l : list Vote) : outcome VoteSet :=
  match l with
  | [] => Done vs
  | v :: l => r ← AddVote (Some vs) (Some v); run_votes r.1 l
  end.

Lemma run_reachable l vs vs' :
  reachable vs → Forall (λ v, block_ValidateBasic (vBlockID v) = true) l →
  run_votes vs l = Done vs' → reachable vs'.
Proof.
  revert vs. induction l as [|v l IH]; intros vs Hr Hl Hrun; cbn [run_votes] in Hrun.
  { by injection Hrun as <-. }
  apply Forall_cons in Hl as [Hv Hl]. apply outcome_bind_Done in Hrun as ([vs1 r] & Hadd & Hrun).
  apply (IH vs1); [|done..]. by eapply reach_vote.
Qed.

Definition ex_start : VoteSet := new_vote_set "chain" 5 0 PrecommitType ex_vals.

Lemma ex_start_reachable : reachable ex_start.
Proof.
  apply (reach_new "chain" 5 0 PrecommitType ex_vals); [by_decide|done|by left].
Qed.

Definition ex_after (l : list Vote) : VoteSet :=
  match run_votes ex_start l with Done vs => vs | Panic _ => ex_start end.

Lemma ex_after_reachable l :
  Forall (λ v, block_ValidateBasic (vBlockID v) = true) l → is_done (run_votes ex_start l) = true →
  reachable (ex_after l).
Proof.
  intros Hl Hd. unfold ex_after. destruct (run_votes ex_start l) eqn:E; [|done].
  eapply run_reachable; [apply ex_start_reachable|done|done].
Qed.

Definition ex_A : BlockID := ex_block 1.
Definition ex_B : BlockID := ex_block 2.

(** Three precommits for [A]; three for [B]. *)
Definition ex_votes_A : list Vote := [ex_vote 1 ex_A; ex_vote 2 ex_A; ex_vote 4 ex_B; ex_vote 3 ex_A].
Definition ex_votes_B : list Vote := [ex_vote 2 ex_B; ex_vote 3 ex_B; ex_vote 4 ex_B].

Lemma ex_A_reachable : reachable (ex_after ex_votes_A).
Proof. apply ex_after_reachable; by_decide. Qed.
Lemma ex_B_reachable : reachable (ex_after ex_votes_B).
Proof. apply ex_after_reachable; by_decide. Qed.

Lemma AddVote_correct_witness :
  ∃ vs' added err,
    AddVote (Some (ex_after ex_votes_A)) (Some (ex_vote 4 ex_A)) = Done (vs', (added, err)) ∧
    vote_outcome (ex_after ex_votes_A) (ex_vote 4 ex_A) vs' added err ∧ inv vs' ∧
    same_config (ex_after ex_votes_A) vs' ∧ keeps_votes (ex_after ex_votes_A) vs' ∧
    (∀ b, maj23 (ex_after ex_votes_A) = Some b → maj23 vs' = Some b).
Proof. apply AddVote_correct; [apply ex_A_reachable|by_decide]. Defined.

Lemma TwoThirdsMajority_correct_witness :
  TwoThirdsMajority (Some (ex_after ex_votes_A)) = (ex_A, true) ∧
  match TwoThirdsMajority (Some (ex_after ex_votes_A)) with
  | (b, true) => 2 * total (ex_after ex_votes_A) <
      3 * power_of (for_key (Key b)) (votes (ex_after ex_votes_A)) (vals_of (ex_after ex_votes_A))
  | (b, false) => False
  end.
Proof.
  assert (E : TwoThirdsMajority (Some (ex_after ex_votes_A)) = (ex_A, true)) by (vm_compute; reflexivity).
  split; [done|]. pose proof (TwoThirdsMajority_correct _ ex_A_reachable) as [Hm _].
  rewrite E in Hm |- *. exact Hm.
Defined.

Lemma conflicting_majorities_witness :
  total (ex_after ex_votes_A) <
  3 * both_power (for_key (Key ex_A)) (for_key (Key ex_B)) (votes (ex_after ex_votes_A))
        (votes (ex_after ex_votes_B)) (vals_of (ex_after ex_votes_A)).
Proof.
  apply (conflicting_majorities _ _ ex_A ex_B ex_A_reachable ex_B_reachable); by_decide.
Defined.

Lemma progress_tests_correct_witness :
  ∃ vs1 any all,
    HasTwoThirdsAny (Some (ex_after ex_votes_B)) = Done (Some vs1, any) ∧
    HasAll (Some (ex_after ex_votes_B)) = Done (Some vs1, all).
Proof.
  destruct (progress_tests_correct _ ex_B_reachable) as (vs1 & any & all & H1 & H2 & _). eauto.
Defined.
Definition ex_bv : blockVotes :=
  default (newBlockVotes false 0) (votesByBlock (ex_after ex_votes_A) !! vkey (ex_vote 4 ex_A)).

Lemma AddVote_replaces_unadded_witness :
  ∃ vs', AddVote (Some (ex_after ex_votes_A)) (Some (ex_vote 4 ex_A)) =
           Done (vs', (false, Some (ErrVoteConflictingVotes (ex_vote 4 ex_B) (ex_vote 4 ex_A)))) ∧
    votes vs' !! 3%nat = Some (Some (ex_vote 4 ex_A)) ∧
    votesByBlock vs' = votesByBlock (ex_after ex_votes_A) ∧ ¬ counted vs' 3 (ex_vote 4 ex_A).
Proof.
  apply (AddVote_replaces_unadded _ 3 _ (ex_vote 4 ex_B) ex_A ex_bv);
    [apply ex_A_reachable|by_decide| | | | | | | |]; try by_decide.
  - do 5 (split; [by_decide|]). exists (ex_val 4 1). split_and!; by_decide || reflexivity.
  - vm_compute. reflexivity.
Defined.


End examples.

End VoteSet.
