(* ===== verification/HeightVoteSet.v ===== *)
(** * HeightVoteSet: [internal/consensus/types/height_vote_set.go]

    The tallies of all rounds of one height.  A peer may open at most two rounds
    ahead of the node.  The vote sets share one validator set by pointer; the
    only thing they write to it is its cached total, a function of the
    validators, so each keeps a copy here.  The mutex makes each operation atomic. *)

From S2P Require Import Prelude BitArray Crypto ValidatorSet Votes Commit VoteSet.

Local Open Scope Z_scope.

Module HeightVoteSet.
Import Votes ValidatorSet Commit VoteSet.

(** [SafeSubInt32] of [libs/math/safemath.go]. *)
Definition SafeSubInt32 (a b : Z) : outcome Z :=
  if (0 <? b) && (a <? min_int32 + b) then Panic "int32 overflow"
  else if (b <? 0) && (max_int32 + b <? a) then Panic "int32 overflow"
  else Done (wrap32 (a - b)).

Inductive height_vote_error :=
| ErrGotVoteFromUnwantedRound | ErrInvalidVoteType | ErrVote (e : vote_error).

Section height.
Context `{PubKeyOps, SignCodec}.

Record RoundVoteSet := mkRoundVoteSet { Prevotes_ : VoteSet; Precommits_ : VoteSet }.

Record HeightVoteSet := mkHeightVoteSet {
  hChainID : string;
  hHeight : Z;
  hValSet : ValidatorSet;
  hExtensions : bool;
  hRound : Z;
  roundVoteSets : gmap Z RoundVoteSet;
  peerCatchupRounds : gmap string (list Z)
}.

Definition set_rounds (h : HeightVoteSet) (m : gmap Z RoundVoteSet) : HeightVoteSet :=
  mkHeightVoteSet (hChainID h) (hHeight h) (hValSet h) (hExtensions h) (hRound h) m (peerCatchupRounds h).
Definition set_round (h : HeightVoteSet) (r : Z) : HeightVoteSet :=
  mkHeightVoteSet (hChainID h) (hHeight h) (hValSet h) (hExtensions h) r (roundVoteSets h) (peerCatchupRounds h).
Definition set_catchup (h : HeightVoteSet) (m : gmap string (list Z)) : HeightVoteSet :=
  mkHeightVoteSet (hChainID h) (hHeight h) (hValSet h) (hExtensions h) (hRound h) (roundVoteSets h) m.

(** The two tallies [addRound] makes. *)
Definition new_round (h : HeightVoteSet) (round : Z) : outcome RoundVoteSet :=
  prevotes ← NewVoteSet (hChainID h) (hHeight h) round PrevoteType (hValSet h);
  precommits ← (if hExtensions h
                then NewExtendedVoteSet (hChainID h) (hHeight h) round PrecommitType (hValSet h)
                else NewVoteSet (hChainID h) (hHeight h) round PrecommitType (hValSet h));
  Done (mkRoundVoteSet prevotes precommits).

Definition addRound (h : HeightVoteSet) (round : Z) : outcome HeightVoteSet :=
  match roundVoteSets h !! round with
  | Some _ => Panic "addRound() for an existing round"
  | None => rvs ← new_round h round; Done (set_rounds h (<[round := rvs]> (roundVoteSets h)))
  end.

Definition Reset (h : HeightVoteSet) (height : Z) (valSet : ValidatorSet) : outcome HeightVoteSet :=
  h' ← addRound (mkHeightVoteSet (hChainID h) height valSet (hExtensions h) (hRound h) ∅ ∅) 0;
  Done (set_round h' 0).

(** [NewHeightVoteSet] and, with extensions, [NewExtendedHeightVoteSet]. *)
Definition NewHeightVoteSet (extensions : bool) (chainID : string) (height : Z) (valSet : ValidatorSet)
    : outcome HeightVoteSet :=
  Reset (mkHeightVoteSet chainID 0 valSet extensions 0 ∅ ∅) height valSet.

(** The loop of [SetRound], for the [n] rounds from [r]. *)
Fixpoint add_rounds (n : nat) (r : Z) (h : HeightVoteSet) : outcome HeightVoteSet :=
  match n with
  | O => Done h
  | S n =>
      match roundVoteSets h !! r with
      | Some _ => add_rounds n (r + 1) h
      | None => h' ← addRound h r; add_rounds n (r + 1) h'
      end
  end.

(** At the largest [int32] the loop counter of the source wraps and the loop does not
    end; the call never returns, which is no result here either. *)
Definition SetRound (h : HeightVoteSet) (round : Z) : outcome HeightVoteSet :=
  newRound ← SafeSubInt32 (hRound h) 1;
  if negb (hRound h =? 0) && (round <? newRound) then Panic "SetRound() must increment hvs.round"
  else if max_int32 <=? round then Panic "the loop does not end"
  else
    h' ← add_rounds (Z.to_nat (round - newRound + 1)) newRound h;
    Done (set_round h' round).

Definition getVoteSet (h : HeightVoteSet) (round voteType : Z) : outcome (option VoteSet) :=
  match roundVoteSets h !! round with
  | None => Done None
  | Some rvs =>
      if voteType =? PrevoteType then Done (Some (Prevotes_ rvs))
      else if voteType =? PrecommitType then Done (Some (Precommits_ rvs))
      else Panic "Unexpected vote type"
  end.

Definition Prevotes (h : HeightVoteSet) (round : Z) : outcome (option VoteSet) :=
  getVoteSet h round PrevoteType.
Definition Precommits (h : HeightVoteSet) (round : Z) : outcome (option VoteSet) :=
  getVoteSet h round PrecommitType.

(** Writing through the pointer [getVoteSet] returned. *)
Definition putVoteSet (h : HeightVoteSet) (round voteType : Z) (vs : VoteSet) : HeightVoteSet :=
  match roundVoteSets h !! round with
  | None => h
  | Some rvs =>
      set_rounds h (<[round := if voteType =? PrevoteType then mkRoundVoteSet vs (Precommits_ rvs)
                               else mkRoundVoteSet (Prevotes_ rvs) vs]> (roundVoteSets h))
  end.

(** The call of the tally at the end of [AddVote]. *)
Definition add_to_set (h : HeightVoteSet) (vote : Vote)
    : outcome (HeightVoteSet * (bool * option height_vote_error)) :=
  voteSet ← getVoteSet h (Round vote) (Type_ vote);
  r ← VoteSet.AddVote voteSet (Some vote);
  let '(vs', (added, err)) := (r : VoteSet * (bool * option vote_error)) in
  Done (putVoteSet h (Round vote) (Type_ vote) vs', (added, ErrVote <$> err)).

Definition AddVote (h : HeightVoteSet) (vote : Vote) (peerID : string) (extEnabled : bool)
    : outcome (HeightVoteSet * (bool * option height_vote_error)) :=
  if negb (Bool.eqb (hExtensions h) extEnabled)
  then Panic "extensions enabled general param does not match the one in HeightVoteSet"
  else if negb (IsVoteTypeValid (Type_ vote)) then Done (h, (false, Some ErrInvalidVoteType))
  else
    voteSet ← getVoteSet h (Round vote) (Type_ vote);
    match (voteSet : option VoteSet) with
    | Some _ => add_to_set h vote
    | None =>
        let rndz := default [] (peerCatchupRounds h !! peerID) in
        if 2 <=? zlen rndz then Done (h, (false, Some ErrGotVoteFromUnwantedRound))
        else
          h' ← addRound h (Round vote);
          add_to_set (set_catchup h' (<[peerID := rndz ++ [Round vote]]> (peerCatchupRounds h'))) vote
    end.

(** The loop of [POLInfo] over the [n] rounds from [r] down. *)
Fixpoint pol_scan (n : nat) (r : Z) (h : HeightVoteSet) : outcome (Z * BlockID) :=
  match n with
  | O => Done (-1, nil_BlockID)
  | S n =>
      rvs ← getVoteSet h r PrevoteType;
      match TwoThirdsMajority rvs with
      | (polBlockID, true) => Done (r, polBlockID)
      | (_, false) => pol_scan n (r - 1) h
      end
  end.

Definition POLInfo (h : HeightVoteSet) : outcome (Z * BlockID) :=
  pol_scan (Z.to_nat (hRound h + 1)) (hRound h) h.

(** The result is true when the call returned an error. *)
Definition SetPeerMaj23 (h : HeightVoteSet) (round voteType : Z) (peerID : string) (blockID : BlockID)
    : outcome (HeightVoteSet * bool) :=
  if negb (IsVoteTypeValid voteType) then Done (h, true)
  else
    voteSet ← getVoteSet h round voteType;
    match (voteSet : option VoteSet) with
    | None => Done (h, false)
    | Some vs =>
        r ← VoteSet.SetPeerMaj23 (Some vs) peerID blockID;
        Done (putVoteSet h round voteType r.1, r.2)
    end.

End height.

(** ** The invariant *)

Section height_invariant.
Context `{PubKeyOps, SignCodec}.

(** A tally of this height, as [addRound] makes it and votes extend it. *)
Definition set_ok (h : HeightVoteSet) (r t : Z) (vs : VoteSet) : Prop :=
  reachable vs ∧ chainID vs = hChainID h ∧ height vs = hHeight h ∧ round vs = r ∧ signedMsgType vs = t ∧
  extensionsEnabled vs = (hExtensions h && (t =? PrecommitType)) ∧ vals_of vs = Validators (hValSet h).

Record hinv (h : HeightVoteSet) : Prop := {
  hv_vals : wf (hValSet h) ∧ Validators (hValSet h) ≠ [];
  hv_height : hHeight h ≠ 0;
  hv_sets : ∀ r rvs, roundVoteSets h !! r = Some rvs →
    set_ok h r PrevoteType (Prevotes_ rvs) ∧ set_ok h r PrecommitType (Precommits_ rvs);
  hv_round : 0 ≤ hRound h;
  hv_rounds : ∀ r, 0 ≤ r ≤ hRound h → is_Some (roundVoteSets h !! r);
  hv_peers : ∀ p l, peerCatchupRounds h !! p = Some l →
    zlen l ≤ 2 ∧ ∀ r, r ∈ l → is_Some (roundVoteSets h !! r)
}.

(** The same height: only rounds, tallies and peers' allowances differ. *)
Definition same_height (h h' : HeightVoteSet) : Prop :=
  hChainID h' = hChainID h ∧ hHeight h' = hHeight h ∧ hValSet h' = hValSet h ∧ hExtensions h' = hExtensions h.

Lemma set_ok_same h h' r t vs : same_height h h' → set_ok h r t vs → set_ok h' r t vs.
Proof. unfold set_ok. intros (-> & -> & -> & ->). done. Qed.

Lemma set_ok_config h r t vs vs' : reachable vs' → same_config vs vs' → set_ok h r t vs → set_ok h r t vs'.
Proof. unfold set_ok, same_config. intros Hr (? & ? & ? & ? & ? & ?). intuition congruence. Qed.

Lemma new_round_ok h round :
  hinv h → ∃ rvs, new_round h round = Done rvs ∧
    set_ok h round PrevoteType (Prevotes_ rvs) ∧ set_ok h round PrecommitType (Precommits_ rvs).
Proof.
  intros [[Hwf Hne] Hh _ _ _ _]. unfold new_round, NewExtendedVoteSet, NewVoteSet.
  destruct (Z.eqb_spec (hHeight h) 0); [done|]. cbn [mbind outcome_bind].
  assert (Hre : ∀ r t, reachable (new_vote_set (hChainID h) (hHeight h) r t (hValSet h))).
  { intros r t. eapply (reach_new (hChainID h) (hHeight h) r t (hValSet h)); [done..|left].
    unfold NewVoteSet. by destruct (Z.eqb_spec (hHeight h) 0). }
  assert (Hre' : ∀ r t, reachable (set_extensions (new_vote_set (hChainID h) (hHeight h) r t (hValSet h)))).
  { intros r t. eapply (reach_new (hChainID h) (hHeight h) r t (hValSet h)); [done..|right].
    unfold NewExtendedVoteSet, NewVoteSet. by destruct (Z.eqb_spec (hHeight h) 0). }
  destruct (hExtensions h) eqn:Ex; eexists; (split; [done|]); unfold set_ok; cbn; rewrite Ex; by split_and!.
Qed.

(** Opening a round keeps everything else. *)
Lemma addRound_ok h round :
  hinv h → roundVoteSets h !! round = None →
  ∃ rvs, new_round h round = Done rvs ∧
    addRound h round = Done (set_rounds h (<[round := rvs]> (roundVoteSets h))) ∧
    hinv (set_rounds h (<[round := rvs]> (roundVoteSets h))).
Proof.
  intros Hinv Hnone. destruct (new_round_ok h round Hinv) as (rvs & Hn & Hok). exists rvs.
  unfold addRound. rewrite Hnone, Hn. split_and!; [done..|]. destruct Hinv. split; try done; cbn.
  - intros r rvs' [[<- <-]|[? ?]]%lookup_insert_Some; [done|by apply hv_sets0].
  - intros r Hr. rewrite lookup_insert_is_Some'. eauto.
  - intros p l Hp. destruct (hv_peers0 p l Hp) as [? Hl]. split; [done|].
    intros r Hr. rewrite lookup_insert_is_Some'. eauto.
Qed.

(** Replacing a tally by a later one keeps the invariant. *)
Lemma put_ok h r t vs vs' :
  hinv h → getVoteSet h r t = Done (Some vs) → reachable vs' → same_config vs vs' →
  hinv (putVoteSet h r t vs').
Proof.
  intros Hinv Hg Hre Hsame. unfold getVoteSet, putVoteSet in *.
  destruct (roundVoteSets h !! r) as [rvs|] eqn:Er; [|done]. destruct Hinv. split; try done; cbn.
  - intros r' rvs' [[<- <-]|[? ?]]%lookup_insert_Some; [|by apply hv_sets0].
    destruct (hv_sets0 _ _ Er) as [Hp Hc].
    destruct (t =? PrevoteType); [|destruct (t =? PrecommitType)]; simplify_eq; cbn;
      split; try done; by eapply set_ok_config.
  - intros r' Hr'. rewrite lookup_insert_is_Some'. eauto.
  - intros p l Hp. destruct (hv_peers0 p l Hp) as [? Hl]. split; [done|].
    intros r' Hr'. rewrite lookup_insert_is_Some'. eauto.
Qed.

Lemma getVoteSet_put h r t vs vs' r' t' :
  IsVoteTypeValid t = true → IsVoteTypeValid t' = true → getVoteSet h r t = Done (Some vs) →
  getVoteSet (putVoteSet h r t vs') r' t' =
    if bool_decide (r = r' ∧ t = t') then Done (Some vs') else getVoteSet h r' t'.
Proof.
  unfold IsVoteTypeValid, getVoteSet, putVoteSet. intros Ht Ht' Hg.
  destruct (roundVoteSets h !! r) as [rvs|] eqn:Er; [|done]. cbn.
  destruct (decide (r = r')) as [<-|].
  - rewrite lookup_insert_eq, Er.
    destruct (Z.eqb_spec t PrevoteType), (Z.eqb_spec t' PrevoteType), (Z.eqb_spec t PrecommitType),
      (Z.eqb_spec t' PrecommitType); try done; case_bool_decide; try done; exfalso; naive_solver congruence.
  - rewrite lookup_insert_ne by done. by rewrite bool_decide_false by naive_solver.
Qed.

Lemma getVoteSet_total h r t :
  hinv h → IsVoteTypeValid t = true →
  ∃ o, getVoteSet h r t = Done o ∧ (o = None ↔ roundVoteSets h !! r = None) ∧
       ∀ vs, o = Some vs → set_ok h r t vs.
Proof.
  intros Hinv Ht. unfold IsVoteTypeValid, getVoteSet in *. destruct (roundVoteSets h !! r) as [rvs|] eqn:Er.
  - destruct (hv_sets _ Hinv _ _ Er) as [? ?].
    destruct (Z.eqb_spec t PrevoteType) as [->|]; [|destruct (Z.eqb_spec t PrecommitType) as [->|]; [|done]];
      eexists; split; [done| |done|]; (split; [done|]); intros vs [= <-]; done.
  - eexists. split; [done|]. done.
Qed.
(** ** The operations *)

(** The tally of a vote: the one on record, or the empty one [addRound] would make. *)
Definition tally_for (h : HeightVoteSet) (r t : Z) (vs : VoteSet) : Prop :=
  getVoteSet h r t = Done (Some vs) ∨
  roundVoteSets h !! r = None ∧
  ∃ rvs, new_round h r = Done rvs ∧ vs = if t =? PrevoteType then Prevotes_ rvs else Precommits_ rvs.

Lemma add_to_set_ok h v vs :
  hinv h → IsVoteTypeValid (Type_ v) = true → block_ValidateBasic (vBlockID v) = true →
  getVoteSet h (Round v) (Type_ v) = Done (Some vs) →
  ∃ vs' added err, VoteSet.AddVote (Some vs) (Some v) = Done (vs', (added, err)) ∧
    add_to_set h v = Done (putVoteSet h (Round v) (Type_ v) vs', (added, ErrVote <$> err)) ∧
    hinv (putVoteSet h (Round v) (Type_ v) vs').
Proof.
  intros Hinv Ht Hb Hg. destruct (getVoteSet_total h (Round v) (Type_ v) Hinv Ht) as (o & Ho & _ & Hok).
  rewrite Hg in Ho. injection Ho as <-. specialize (Hok vs eq_refl). pose proof (proj1 Hok) as Hre.
  destruct (addVote_spec vs v (reachable_inv vs Hre) Hb) as (vs' & a & e & Hadd & _ & _ & Hsame & _).
  exists vs', a, e. unfold add_to_set. rewrite Hg. cbn [mbind outcome_bind VoteSet.AddVote]. rewrite Hadd.
  split_and!; [done..|]. eapply put_ok; [done..| |done]. by eapply reach_vote.
Qed.

Lemma hinv_catchup h r p l :
  hinv h → is_Some (roundVoteSets h !! r) → zlen l < 2 → (∀ r', r' ∈ l → is_Some (roundVoteSets h !! r')) →
  hinv (set_catchup h (<[p := l ++ [r]]> (peerCatchupRounds h))).
Proof.
  intros [] Hr Hlen Hl. split; try done; cbn. intros p' l' [[<- <-]|[? ?]]%lookup_insert_Some; [|by eapply hv_peers0].
  split; [unfold zlen in *; rewrite length_app; simpl; lia|].
  intros r' [?| ->%list_elem_of_singleton]%elem_of_app; eauto.
Qed.

(** What [AddVote] answers, and the rounds and allowances it leaves: a round the
    vote opens is charged to the peer, and nothing else is. *)
Definition height_outcome (h : HeightVoteSet) (v : Vote) (peer : string)
    (h' : HeightVoteSet) (added : bool) (err : option height_vote_error) : Prop :=
  if negb (IsVoteTypeValid (Type_ v)) then h' = h ∧ added = false ∧ err = Some ErrInvalidVoteType
  else if bool_decide (roundVoteSets h !! Round v = None) && (2 <=? zlen (default [] (peerCatchupRounds h !! peer)))
  then h' = h ∧ added = false ∧ err = Some ErrGotVoteFromUnwantedRound
  else ∃ vs vs' e, tally_for h (Round v) (Type_ v) vs ∧
         VoteSet.AddVote (Some vs) (Some v) = Done (vs', (added, e)) ∧ err = ErrVote <$> e ∧
         getVoteSet h' (Round v) (Type_ v) = Done (Some vs') ∧
         peerCatchupRounds h' =
           (if bool_decide (roundVoteSets h !! Round v = None)
            then <[peer := default [] (peerCatchupRounds h !! peer) ++ [Round v]]> (peerCatchupRounds h)
            else peerCatchupRounds h) ∧
         (∀ r, r ≠ Round v → roundVoteSets h' !! r = roundVoteSets h !! r) ∧
         ∀ r t w, IsVoteTypeValid t = true → (r, t) ≠ (Round v, Type_ v) →
           getVoteSet h r t = Done (Some w) → getVoteSet h' r t = Done (Some w).

Lemma put_frame h r t vs :
  peerCatchupRounds (putVoteSet h r t vs) = peerCatchupRounds h ∧
  ∀ r', r' ≠ r → roundVoteSets (putVoteSet h r t vs) !! r' = roundVoteSets h !! r'.
Proof.
  unfold putVoteSet. destruct (roundVoteSets h !! r); [|done]. split; [done|]. intros r' Hr. cbn.
  by rewrite lookup_insert_ne.
Qed.

Lemma AddVote_ok h v peer :
  hinv h → block_ValidateBasic (vBlockID v) = true →
  ∃ h' added err, AddVote h v peer (hExtensions h) = Done (h', (added, err)) ∧ hinv h' ∧
    same_height h h' ∧ hRound h' = hRound h ∧ height_outcome h v peer h' added err.
Proof.
  intros Hinv Hb. unfold AddVote, height_outcome. rewrite Bool.eqb_reflx. cbn [negb].
  destruct (IsVoteTypeValid (Type_ v)) eqn:Ht; cbn [negb]; [|by eexists _, _, _].
  destruct (getVoteSet_total h (Round v) (Type_ v) Hinv Ht) as (o & Ho & Hnone & _).
  rewrite Ho. cbn [mbind outcome_bind]. destruct o as [vs|].
  - rewrite bool_decide_false by naive_solver. cbn [andb].
    destruct (add_to_set_ok h v vs Hinv Ht Hb Ho) as (vs' & a & e & Hadd & -> & Hinv').
    eexists _, _, _. split; [done|]. split; [done|].
    assert (same_height h (putVoteSet h (Round v) (Type_ v) vs') ∧ hRound (putVoteSet h (Round v) (Type_ v) vs') = hRound h) as [? ?].
    { unfold putVoteSet. by destruct (roundVoteSets h !! Round v). }
    split_and!; [done..|]. exists vs, vs', e. split_and!; [by left|done|done|..].
    + rewrite (getVoteSet_put h _ _ vs) by done. by rewrite bool_decide_true.
    + apply put_frame.
    + intros r Hr. by apply put_frame.
    + intros r t w Hvt Hne Hw. rewrite (getVoteSet_put h _ _ vs) by done. rewrite bool_decide_false by naive_solver. done.
  - assert (Hn : roundVoteSets h !! Round v = None) by naive_solver.
    rewrite bool_decide_true by done. cbn [andb].
    destruct (Z.leb_spec 2 (zlen (default [] (peerCatchupRounds h !! peer)))); [by eexists _, _, _|].
    destruct (addRound_ok h (Round v) Hinv Hn) as (rvs & Hnew & -> & Hinv1). cbn [mbind outcome_bind].
    match goal with |- context [add_to_set ?h2 v] => set (h1 := h2) end.
    assert (Hinv2 : hinv h1).
    { apply hinv_catchup; [done|cbn; rewrite lookup_insert_eq; by eexists|done|].
      destruct (peerCatchupRounds h !! peer) as [l|] eqn:El; cbn; [|by intros ? ?%not_elem_of_nil].
      intros r Hr. rewrite lookup_insert_is_Some'. right. by eapply (hv_peers _ Hinv). }
    set (vs := if Type_ v =? PrevoteType then Prevotes_ rvs else Precommits_ rvs).
    assert (Hg : getVoteSet h1 (Round v) (Type_ v) = Done (Some vs)).
    { unfold getVoteSet, h1, vs. cbn. rewrite lookup_insert_eq. unfold IsVoteTypeValid in Ht.
      destruct (Type_ v =? PrevoteType); [done|]. by destruct (Type_ v =? PrecommitType). }
    destruct (add_to_set_ok h1 v vs Hinv2 Ht Hb Hg) as (vs' & a & e & Hadd & -> & Hinv').
    eexists _, _, _. split; [done|]. split; [done|].
    assert (same_height h (putVoteSet h1 (Round v) (Type_ v) vs') ∧ hRound (putVoteSet h1 (Round v) (Type_ v) vs') = hRound h) as [? ?].
    { unfold putVoteSet. by destruct (roundVoteSets h1 !! Round v). }
    split_and!; [done..|]. exists vs, vs', e. split_and!; [right; eauto|done|done|..].
    + rewrite (getVoteSet_put h1 _ _ vs) by done. by rewrite bool_decide_true.
    + by rewrite (proj1 (put_frame _ _ _ _)).
    + intros r Hr. rewrite (proj2 (put_frame _ _ _ _)) by done. cbn. by rewrite lookup_insert_ne.
    + intros r t w Hvt Hne Hw. rewrite (getVoteSet_put h1 _ _ vs) by done. rewrite bool_decide_false by naive_solver.
      unfold getVoteSet, h1 in *. cbn. destruct (decide (Round v = r)) as [<-|]; [by rewrite Hn in Hw|].
      by rewrite lookup_insert_ne by done.
Qed.

(** Opening the rounds from [r] on keeps the tallies there are. *)
Lemma add_rounds_ok n r h :
  hinv h → ∃ h', add_rounds n r h = Done h' ∧ hinv h' ∧ same_height h h' ∧ hRound h' = hRound h ∧
    (∀ r', r ≤ r' < r + Z.of_nat n → is_Some (roundVoteSets h' !! r')) ∧
    (∀ r' rvs, roundVoteSets h !! r' = Some rvs → roundVoteSets h' !! r' = Some rvs) ∧
    (∀ r', roundVoteSets h !! r' = None → ¬ (r ≤ r' < r + Z.of_nat n) → roundVoteSets h' !! r' = None) ∧
    peerCatchupRounds h' = peerCatchupRounds h.
Proof.
  revert r h. induction n as [|n IH]; intros r h Hinv; cbn [add_rounds].
  { exists h. split_and!; try done. intros r' ?. lia. }
  destruct (roundVoteSets h !! r) as [rvs|] eqn:Er.
  - destruct (IH (r + 1) h Hinv) as (h' & -> & Hi & Hs & Hr & Hin & Hk & Hno & Hp). exists h'. split_and!; try done.
    + intros r' Hr'. destruct (decide (r' = r)) as [->|]; [eexists; by apply Hk|]. apply Hin. lia.
    + intros r' Hn Hr'. apply Hno; [done|lia].
  - destruct (addRound_ok h r Hinv Er) as (rvs & _ & -> & Hinv'). cbn [mbind outcome_bind].
    destruct (IH (r + 1) _ Hinv') as (h' & -> & Hi & Hs & Hr & Hin & Hk & Hno & Hp). exists h'. split_and!; try done.
    + intros r' Hr'. destruct (decide (r' = r)) as [->|]; [|apply Hin; lia]. exists rvs. apply Hk. cbn.
      by rewrite lookup_insert_eq.
    + intros r' rvs' Hr'. apply Hk. cbn. rewrite lookup_insert_ne; [done|]. intros <-. congruence.
    + intros r' Hn Hr'. apply Hno; [|lia]. cbn. rewrite lookup_insert_ne; [done|lia].
Qed.

Lemma SetRound_ok h round :
  hinv h → in_int32 (hRound h) → 0 ≤ round < max_int32 → hRound h = 0 ∨ hRound h - 1 ≤ round →
  ∃ h', SetRound h round = Done h' ∧ hinv h' ∧ same_height h h' ∧ hRound h' = round ∧
    (∀ r' rvs, roundVoteSets h !! r' = Some rvs → roundVoteSets h' !! r' = Some rvs) ∧
    (∀ r', roundVoteSets h !! r' = None → ¬ (hRound h - 1 ≤ r' ≤ round) → roundVoteSets h' !! r' = None) ∧
    (∀ r', hRound h - 1 ≤ r' ≤ round → is_Some (roundVoteSets h' !! r')) ∧
    peerCatchupRounds h' = peerCatchupRounds h.
Proof.
  intros Hinv H32 Hround Hor. pose proof (hv_round _ Hinv) as Hpos. unfold SetRound.
  assert (SafeSubInt32 (hRound h) 1 = Done (hRound h - 1)) as ->.
  { unfold SafeSubInt32, in_int32, wrap32 in *. unfold_ints.
    destruct (Z.ltb_spec (hRound h) (-2147483648 + 1)); [lia|]. cbn. f_equal. rewrite Z.mod_small; lia. }
  cbn [mbind outcome_bind].
  destruct (Z.eqb_spec (hRound h) 0), (Z.ltb_spec round (hRound h - 1)); cbn [negb andb]; try lia.
  all: destruct (Z.leb_spec max_int32 round); [lia|].
  all: destruct (add_rounds_ok (Z.to_nat (round - (hRound h - 1) + 1)) (hRound h - 1) h Hinv)
         as (h' & -> & Hi & Hs & Hr & Hin & Hk & Hno & Hp);
       cbn [mbind outcome_bind]; exists (set_round h' round); split; [done|].
  all: split_and!; try done; try (intros; apply Hno; [done|lia]); try (intros; apply Hin; lia).
  all: destruct Hi; split; try done; cbn; [lia|]; intros r Hr'.
  all: destruct (decide (hRound h - 1 ≤ r)); [apply Hin; lia|apply hv_rounds0; lia].
Qed.

(** What a call that returned did. *)
Lemma SetRound_done h round h' :
  hinv h → hRound h < max_int32 → 0 ≤ round → SetRound h round = Done h' →
  hinv h' ∧ same_height h h' ∧ hRound h' = round ∧ round < max_int32 ∧
  ∀ r' rvs, roundVoteSets h !! r' = Some rvs → roundVoteSets h' !! r' = Some rvs.
Proof.
  intros Hinv Hlt Hpos E. pose proof (hv_round _ Hinv).
  assert (Hpre : (hRound h = 0 ∨ hRound h - 1 ≤ round) ∧ round < max_int32).
  { unfold SetRound in E. assert (SafeSubInt32 (hRound h) 1 = Done (hRound h - 1)) as Es.
    { unfold SafeSubInt32, wrap32 in *. unfold_ints.
      destruct (Z.ltb_spec (hRound h) (-2147483648 + 1)); [lia|]. cbn. f_equal. rewrite Z.mod_small; lia. }
    rewrite Es in E. cbn [mbind outcome_bind] in E.
    destruct (Z.eqb_spec (hRound h) 0), (Z.ltb_spec round (hRound h - 1)); cbn [negb andb] in E; try discriminate E;
      destruct (Z.leb_spec max_int32 round); try discriminate E; (split; [lia|done]). }
  destruct (SetRound_ok h round Hinv) as (h1 & E1 & ? & ? & ? & ? & _);
    [unfold in_int32; unfold_ints; lia|lia|lia|]. rewrite E1 in E. injection E as <-. split_and!; try done. lia.
Qed.

Lemma SetPeerMaj23_ok h r t peer bid :
  hinv h → ∃ h' err, SetPeerMaj23 h r t peer bid = Done (h', err) ∧ hinv h' ∧ same_height h h' ∧ hRound h' = hRound h.
Proof.
  intros Hinv. unfold SetPeerMaj23. destruct (IsVoteTypeValid t) eqn:Ht; cbn [negb]; [|by eexists _, _].
  destruct (getVoteSet_total h r t Hinv Ht) as (o & Ho & _ & Hok). rewrite Ho. cbn [mbind outcome_bind].
  destruct o as [vs|]; [|by eexists _, _]. destruct (Hok vs eq_refl) as [Hre _].
  destruct (SetPeerMaj23_spec vs peer bid (reachable_inv vs Hre)) as (vs' & e & Hset & _ & Hsame & _).
  rewrite Hset. cbn [mbind outcome_bind fst snd]. eexists _, _. split; [done|].
  split; [|unfold putVoteSet; by destruct (roundVoteSets h !! r)].
  eapply put_ok; [done..| |done]. by eapply reach_peer.
Qed.

Lemma New_ok ext c height vals :
  wf vals → Validators vals ≠ [] → height ≠ 0 →
  ∃ h, NewHeightVoteSet ext c height vals = Done h ∧ hinv h ∧ hRound h = 0 ∧ hHeight h = height ∧
       hValSet h = vals ∧ hExtensions h = ext.
Proof.
  intros Hwf Hne Hh. unfold NewHeightVoteSet, Reset, addRound. cbn [hChainID hExtensions hRound roundVoteSets].
  rewrite lookup_empty. set (h0 := mkHeightVoteSet c height vals ext 0 ∅ ∅).
  assert (∃ rvs, new_round h0 0 = Done rvs ∧ set_ok h0 0 PrevoteType (Prevotes_ rvs) ∧
                 set_ok h0 0 PrecommitType (Precommits_ rvs)) as (rvs & -> & Hp & Hc).
  { unfold new_round, NewExtendedVoteSet, NewVoteSet, h0. cbn [hChainID hHeight hValSet hExtensions].
    destruct (Z.eqb_spec height 0); [done|]. cbn [mbind outcome_bind].
    destruct ext; eexists; (split; [done|]); unfold set_ok; cbn; split_and!; try done.
    all: eapply (reach_new c height 0 _ vals); [done..|];
      unfold NewExtendedVoteSet, NewVoteSet; destruct (Z.eqb_spec height 0); [done|]; eauto. }
  cbn [mbind outcome_bind]. eexists. split; [done|]. split_and!; try done. split; try done; cbn.
  - intros r rvs' [[<- <-]|[? ?]]%lookup_insert_Some; done.
  - intros r Hr. assert (r = 0) as -> by lia. rewrite lookup_insert_eq. by eexists.
Qed.

(** The height vote sets of a node: made for a height and then any sequence of votes,
    peers' claims and round changes. *)
Inductive hreachable : HeightVoteSet → Prop :=
| hr_new ext c height vals h :
    wf vals → Validators vals ≠ [] → height ≠ 0 → NewHeightVoteSet ext c height vals = Done h → hreachable h
| hr_vote h v peer h' res :
    hreachable h → block_ValidateBasic (vBlockID v) = true →
    AddVote h v peer (hExtensions h) = Done (h', res) → hreachable h'
| hr_peer h r t peer bid h' err :
    hreachable h → SetPeerMaj23 h r t peer bid = Done (h', err) → hreachable h'
| hr_round h round h' :
    hreachable h → 0 ≤ round < max_int32 → hRound h ≤ round + 1 →
    SetRound h round = Done h' → hreachable h'.

Lemma hreachable_inv h : hreachable h → hinv h ∧ hRound h < max_int32.
Proof.
  induction 1 as [ext c height vals h Hwf Hne Hh E|h v peer h' res _ [IH Hlt] Hb E|h r t peer bid h' err _ [IH Hlt] E
    |h round h' _ [IH Hlt] Hround Hle E].
  - destruct (New_ok ext c height vals Hwf Hne Hh) as (h1 & E1 & Hi & Hr & _). rewrite E1 in E. simplify_eq.
    split; [done|]. rewrite Hr. done.
  - destruct (AddVote_ok h v peer IH Hb) as (h1 & a & e & E1 & Hi & _ & Hr & _). rewrite E1 in E. simplify_eq.
    by rewrite Hr.
  - destruct (SetPeerMaj23_ok h r t peer bid IH) as (h1 & e & E1 & Hi & _ & Hr). rewrite E1 in E. simplify_eq.
    by rewrite Hr.
  - pose proof (hv_round _ IH). destruct (SetRound_ok h round IH) as (h1 & E1 & Hi & _ & Hr & _);
      [unfold in_int32; unfold_ints; lia|done|lia|]. rewrite E1 in E. simplify_eq. split; [done|]. lia.
Qed.

(** C23: on every reachable height vote set [AddVote] returns, keeps the invariant
    (every round up to the current one has both its tallies, each a well-formed
    tally of this height, round and type; a peer has opened at most two
    further rounds), and answers as documented: a vote of an unknown type is
    refused, a vote for a round not on record is refused once the peer has used its
    two rounds and otherwise opens the round, which is then charged to the peer;
    any other vote gets the answer of its own tally.  Every other tally, round
    and allowance is left alone.  The extensions flag passed is that of the
    set; with the other one the call panics. *)
Theorem HeightVoteSet_AddVote_correct h v peer :
  hreachable h → block_ValidateBasic (vBlockID v) = true →
  ∃ h' added err, AddVote h v peer (hExtensions h) = Done (h', (added, err)) ∧ hinv h' ∧
    same_height h h' ∧ hRound h' = hRound h ∧ height_outcome h v peer h' added err ∧
    is_done (AddVote h v peer (negb (hExtensions h))) = false.
Proof.
  intros [Hinv _]%hreachable_inv Hb. destruct (AddVote_ok h v peer Hinv Hb) as (h' & a & e & E & ? & ? & ? & ?).
  exists h', a, e. split_and!; try done. unfold AddVote. by destruct (hExtensions h).
Qed.

(** A round has a majority of prevotes for [b]. *)
Definition polka (h : HeightVoteSet) (r : Z) (b : BlockID) : Prop :=
  ∃ vs, getVoteSet h r PrevoteType = Done (Some vs) ∧ TwoThirdsMajority (Some vs) = (b, true).

Lemma pol_scan_ok h n r :
  hinv h → r = Z.of_nat n - 1 →
  ∃ pr b, pol_scan n r h = Done (pr, b) ∧ -1 ≤ pr ≤ r ∧
    (if pr =? -1 then b = nil_BlockID else polka h pr b) ∧ ∀ r' b', pr < r' ≤ r → 0 ≤ r' → ¬ polka h r' b'.
Proof.
  intros Hinv. revert r. induction n as [|n IH]; intros r Hr; cbn [pol_scan].
  { exists (-1), nil_BlockID. split_and!; try done; [lia..|]. intros r' b' ? ?. lia. }
  destruct (getVoteSet_total h r PrevoteType Hinv eq_refl) as (o & Ho & _). rewrite Ho. cbn [mbind outcome_bind].
  destruct (TwoThirdsMajority o) as [b []] eqn:Em.
  - exists r, b. split; [done|]. split; [lia|]. split; [|intros; lia].
    destruct (Z.eqb_spec r (-1)); [lia|]. destruct o as [vs|]; [|done]. by exists vs.
  - destruct (IH (r - 1) ltac:(lia)) as (pr & b' & -> & Hpr & Hb & Hno). exists pr, b'. split_and!; [done|lia|lia|done|].
    intros r' b2 Hr' Hpos (vs & Hvs & Hm). destruct (decide (r' = r)) as [->|].
    + rewrite Ho in Hvs. injection Hvs as ->. congruence.
    + apply (Hno r' b2); [lia|done|by exists vs].
Qed.

(** [POLInfo] always returns, and finds the last round up to the current one in
    which more than two thirds of the power prevoted one block (or nil), or -1
    and the zero block id when there is none. *)
Theorem POLInfo_correct h :
  hreachable h →
  ∃ r b, POLInfo h = Done (r, b) ∧ -1 ≤ r ≤ hRound h ∧
    (if r =? -1 then b = nil_BlockID else polka h r b) ∧
    ∀ r' b', r < r' ≤ hRound h → 0 ≤ r' → ¬ polka h r' b'.
Proof.
  intros [Hinv _]%hreachable_inv. pose proof (hv_round _ Hinv). unfold POLInfo. apply pol_scan_ok; [done|lia].
Qed.

(** moving to a round, at least the one before the current round, opens every
    round from there to the new one and keeps all tallies.  Contrary to the
    comment on the map's keys, the first move of a height also opens the
    round -1, because the loop starts one below the current round. *)
Theorem SetRound_opens_round_minus_one h round :
  hreachable h → 0 ≤ round < max_int32 → hRound h ≤ round + 1 →
  ∃ h', SetRound h round = Done h' ∧ hRound h' = round ∧ hinv h' ∧
    (∀ r' rvs, roundVoteSets h !! r' = Some rvs → roundVoteSets h' !! r' = Some rvs) ∧
    (hRound h = 0 → is_Some (roundVoteSets h' !! (-1))).
Proof.
  intros [Hinv Hlt]%hreachable_inv Hround Hle. pose proof (hv_round _ Hinv).
  destruct (SetRound_ok h round Hinv) as (h' & E & Hi & _ & Hr & Hk & _ & Hin & _);
    [unfold in_int32; unfold_ints; lia|done|lia|].
  exists h'. split_and!; try done. intros E0. apply Hin. lia.
Qed.
(** ** What later states of a height keep *)

Definition majority (h : HeightVoteSet) (r t : Z) (b : BlockID) : Prop :=
  ∃ vs, getVoteSet h r t = Done (Some vs) ∧ TwoThirdsMajority (Some vs) = (b, true).

(** A later state of the same height: the invariant holds and no majority is lost. *)
Definition later (h h' : HeightVoteSet) : Prop :=
  hinv h' ∧ same_height h h' ∧ ∀ r t b, IsVoteTypeValid t = true → majority h r t b → majority h' r t b.

Lemma majority_maj23 vs b : TwoThirdsMajority (Some vs) = (b, true) ↔ maj23 vs = Some b.
Proof. unfold TwoThirdsMajority. destruct (maj23 vs); naive_solver. Qed.

Lemma AddVote_later h v peer ext h' res :
  hinv h → block_ValidateBasic (vBlockID v) = true → AddVote h v peer ext = Done (h', res) →
  later h h' ∧ hRound h' = hRound h.
Proof.
  intros Hinv Hb E. assert (ext = hExtensions h) as ->.
  { unfold AddVote in E. destruct (Bool.eqb (hExtensions h) ext) eqn:Ee; [|done]. by apply Bool.eqb_prop in Ee. }
  destruct (AddVote_ok h v peer Hinv Hb) as (h1 & a & e & E1 & Hi & Hs & Hr & Ho). rewrite E1 in E. injection E as <- <-.
  split; [|done]. split; [done|]. split; [done|]. intros r t b Ht (vs & Hg & Hm). unfold height_outcome in Ho.
  destruct (IsVoteTypeValid (Type_ v)) eqn:Hv; cbn [negb] in Ho; [|destruct Ho as (-> & _); by exists vs].
  destruct (bool_decide _ && _); [destruct Ho as (-> & _); by exists vs|].
  destruct Ho as (w & w' & e' & Hfor & Hadd & _ & Hg' & _ & _ & Hother).
  destruct (decide ((r, t) = (Round v, Type_ v))) as [[= -> ->]|Hne]; [|exists vs; split; [by apply Hother|done]].
  exists w'. split; [done|]. destruct Hfor as [Hw|[Hn _]].
  - assert (w = vs) as -> by congruence. rewrite majority_maj23 in *.
    destruct (getVoteSet_total h (Round v) (Type_ v) Hinv Hv) as (o & Ho & _ & Hok). rewrite Hg in Ho. injection Ho as <-.
    destruct (Hok vs eq_refl) as [Hre _].
    destruct (addVote_spec vs v (reachable_inv vs Hre) Hb) as (vs1 & a1 & e1 & Hadd1 & _ & _ & _ & _ & Hkeep).
    cbn [VoteSet.AddVote] in Hadd. rewrite Hadd1 in Hadd. injection Hadd as <- _ _. by apply Hkeep.
  - unfold getVoteSet in Hg. by rewrite Hn in Hg.
Qed.

Lemma SetRound_later h round h' :
  hinv h → hRound h < max_int32 → 0 ≤ round → SetRound h round = Done h' →
  later h h' ∧ hRound h' = round ∧ round < max_int32.
Proof.
  intros Hinv Hlt Hpos E. destruct (SetRound_done h round h' Hinv Hlt Hpos E) as (? & ? & ? & ? & Hk).
  split; [|done]. split; [done|]. split; [done|]. intros r t b _ (vs & Hg & Hm). exists vs. split; [|done]. unfold getVoteSet in *.
  destruct (roundVoteSets h !! r) as [rvs|] eqn:Er; [|done]. by rewrite (Hk _ _ Er).
Qed.

Lemma SetPeerMaj23_later h r t peer bid h' err :
  hinv h → SetPeerMaj23 h r t peer bid = Done (h', err) → later h h' ∧ hRound h' = hRound h.
Proof.
  intros Hinv E. destruct (SetPeerMaj23_ok h r t peer bid Hinv) as (h1 & e & E1 & Hi & Hs & Hr).
  rewrite E1 in E. injection E as <- <-. split; [|done]. split; [done|]. split; [done|]. intros r' t' b Ht' (vs & Hg & Hm).
  unfold SetPeerMaj23 in E1. destruct (IsVoteTypeValid t) eqn:Ht; cbn [negb] in E1; [|injection E1 as -> _; by exists vs].
  destruct (getVoteSet_total h r t Hinv Ht) as (o & Ho & _ & Hok). rewrite Ho in E1. cbn [mbind outcome_bind] in E1.
  destruct o as [w|]; [|injection E1 as -> _; by exists vs]. destruct (Hok w eq_refl) as [Hre _].
  destruct (SetPeerMaj23_spec w peer bid (reachable_inv w Hre)) as (w' & e' & Hset & _ & _ & _ & _ & Hmaj & _).
  rewrite Hset in E1. cbn [mbind outcome_bind fst snd] in E1. injection E1 as <- _.
  destruct (decide (r = r' ∧ t = t')) as [[<- <-]|Hne].
  - exists w'. rewrite (getVoteSet_put h r t w) by done. rewrite bool_decide_true by done. split; [done|].
    rewrite majority_maj23 in *. rewrite Hmaj. congruence.
  - exists vs. rewrite (getVoteSet_put h r t w) by done. rewrite bool_decide_false by done. done.
Qed.

Lemma majority_unique h r t b b' : majority h r t b → majority h r t b' → b = b'.
Proof. intros (vs & Hg & Hm) (vs' & Hg' & Hm'). congruence. Qed.



End height_invariant.

(** ** Examples *)

#[local] Existing Instances toy_keys toy_codec.

(** The prevote of validator [k] in round [r]. *)
Definition ex_prevote (r k : Z) (b : BlockID) : Vote :=
  ex_sign k {| Type_ := PrevoteType; Height := 5; Round := r; vBlockID := b; Timestamp := 1;
               ValidatorAddress := toy_address k; ValidatorIndex := k - 1; Signature := [];
               Extension := []; ExtensionSignature := [] |}.

Fixpoint run_height (h : HeightVoteSet) (l : list Vote) : outcome HeightVoteSet :=
  match l with
  | [] => Done h
  | v :: l => r ← AddVote h v "peer" (hExtensions h); run_height r.1 l
  end.

Lemma run_height_reachable l h h' :
  hreachable h → Forall (λ v, block_ValidateBasic (vBlockID v) = true) l → run_height h l = Done h' → hreachable h'.
Proof.
  revert h. induction l as [|v l IH]; cbn [run_height]; intros h Hr Hl E; [by simplify_eq|].
  apply Forall_cons in Hl as [Hv Hl]. apply outcome_bind_Done in E as ([h1 res] & E1 & E).
  eapply IH; [|done|exact E]. by eapply hr_vote.
Qed.

(** Height 5 in round 2, with a majority of prevotes for [A] in round 1. *)
Definition ex_height : outcome HeightVoteSet :=
  h ← NewHeightVoteSet false "chain" 5 ex_vals;
  h ← SetRound h 2;
  run_height h [ex_prevote 1 1 ex_A; ex_prevote 1 2 ex_A; ex_prevote 1 3 ex_A; ex_prevote 2 1 ex_B].

Lemma ex_height_reachable h : ex_height = Done h → hreachable h.
Proof.
  unfold ex_height. intros E. apply outcome_bind_Done in E as (h0 & E0 & E). apply outcome_bind_Done in E as (h1 & E1 & E).
  assert (hreachable h0) by (eapply (hr_new false "chain" 5 ex_vals); [by_decide|done|done|exact E0]).
  assert (hRound h0 = 0) by (revert E0; vm_compute; by intros [= <-]).
  refine (run_height_reachable _ h1 h _ _ E); [|by_decide].
  eapply (hr_round h0 2); [done|by vm_compute; split|lia|exact E1].
Qed.

Definition ex_hvs : HeightVoteSet :=
  match ex_height with Done h => h | Panic _ => mkHeightVoteSet "" 0 ex_vals false 0 ∅ ∅ end.

Lemma ex_hvs_reachable : hreachable ex_hvs.
Proof.
  assert (Hd : is_done ex_height = true) by (vm_compute; reflexivity).
  unfold ex_hvs. destruct ex_height eqn:E; [exact (ex_height_reachable _ E)|discriminate Hd].
Qed.

Lemma HeightVoteSet_AddVote_correct_witness :
  ∃ h' added err, AddVote ex_hvs (ex_prevote 7 1 ex_A) "peer" (hExtensions ex_hvs) = Done (h', (added, err)) ∧ hinv h' ∧
    same_height ex_hvs h' ∧ hRound h' = hRound ex_hvs ∧ height_outcome ex_hvs (ex_prevote 7 1 ex_A) "peer" h' added err ∧
    is_done (AddVote ex_hvs (ex_prevote 7 1 ex_A) "peer" (negb (hExtensions ex_hvs))) = false.
Proof. refine (HeightVoteSet_AddVote_correct ex_hvs (ex_prevote 7 1 ex_A) "peer" ex_hvs_reachable _). by_decide. Defined.

Lemma POLInfo_correct_witness :
  POLInfo ex_hvs = Done (1, ex_A) ∧
  ∃ r b, POLInfo ex_hvs = Done (r, b) ∧ -1 ≤ r ≤ hRound ex_hvs ∧
    (if r =? -1 then b = nil_BlockID else polka ex_hvs r b) ∧
    ∀ r' b', r < r' ≤ hRound ex_hvs → 0 ≤ r' → ¬ polka ex_hvs r' b'.
Proof. split; [vm_compute; reflexivity|]. exact (POLInfo_correct ex_hvs ex_hvs_reachable). Defined.

Definition ex_hvs0 : HeightVoteSet :=
  match NewHeightVoteSet false "chain" 5 ex_vals with Done h => h | Panic _ => mkHeightVoteSet "" 0 ex_vals false 0 ∅ ∅ end.

Lemma SetRound_opens_round_minus_one_witness :
  ∃ h', SetRound ex_hvs0 3 = Done h' ∧ is_Some (roundVoteSets h' !! (-1)).
Proof.
  assert (Hr : hreachable ex_hvs0).
  { eapply (hr_new false "chain" 5 ex_vals); [by_decide|done|done|]. unfold ex_hvs0. vm_compute. reflexivity. }
  destruct (SetRound_opens_round_minus_one ex_hvs0 3 Hr) as (h' & E & _ & _ & _ & Hm);
    [by vm_compute; split|by vm_compute|].
  exists h'. split; [done|]. apply Hm. vm_compute. reflexivity.
Defined.

End HeightVoteSet.
