(* ===== verification/Validation.v ===== *)
(** * Validation: [types/validation.go], the verification of commits

    The routines return an error value; [None] is Go's [nil], acceptance.  The
    validator set's caches (total power, proposer) are threaded through a call;
    what a caller sees of them afterwards is what recomputing them gives.  The
    batch verifier of [crypto/ed25519] wraps a third-party package and enters
    through the class [BatchOps], with its documented behaviour as [BatchLaws]. *)

From S2P Require Import Prelude BitArray Crypto ValidatorSet Votes Commit VoteSet.

Local Open Scope Z_scope.

Module Validation.
Import Votes ValidatorSet Commit.

Inductive verify_error :=
| ErrNilValidators | ErrNilCommit
| ErrInvalidCommitSignatures (expected actual : Z)
| ErrInvalidCommitHeight (expected actual : Z)
| ErrWrongBlockID
| ErrNotEnoughVotingPowerSigned (got needed : Z)
| ErrInvalidSigs (idx : Z)
| ErrDoubleVote (first second : Z)
| ErrNilPubKey (idx : Z)
| ErrWrongSignature (idx : Z)
| ErrZeroDenominator | ErrOverflow
| ErrBatchUnsupported | ErrBatchAdd | ErrBatchBug.

#[export] Instance verify_error_eq_dec : EqDecision verify_error.
Proof. solve_decision. Defined.

(** The batch verifier: [Add] refuses keys and signatures of the wrong kind;
    [Verify] checks what was added, in order. *)
Class BatchOps `{PubKeyOps} := {
  bv_Add_refuses : option PubKey → list Z → list Z → bool;
  bv_Verify : list (PubKey * list Z * list Z) → bool * list bool
}.

Definition entry_ok `{PubKeyOps} (e : PubKey * list Z * list Z) : bool :=
  VerifySignature e.1.1 e.1.2 e.2.

Definition ed25519_KeyType : string := "ed25519".

(** [Add] refuses every key of another type; what it refuses of an ed25519 key
    (a key or a signature of the wrong length) does not verify. *)
Class BatchLaws `{BatchOps} : Prop := {
  batch_add_law pk msg sig :
    pk_Type pk = ed25519_KeyType →
    bv_Add_refuses (Some pk) msg sig = true → VerifySignature pk msg sig = false;
  batch_add_other pk msg sig :
    pk_Type pk ≠ ed25519_KeyType → bv_Add_refuses (Some pk) msg sig = true;
  batch_add_nil msg sig : bv_Add_refuses None msg sig = true;
  batch_verify_law l : l ≠ [] → bv_Verify l = (forallb entry_ok l, entry_ok <$> l)
}.

Record Fraction := mkFraction { Numerator : Z; Denominator : Z }.

Definition batchVerifyThreshold : Z := 2.

(** A conversion from [uint64] to [int64]. *)
Definition to_int64 (z : Z) : Z := wrap64 z.

Section verify.
Context `{PubKeyOps, SignCodec, !BatchOps}.

Definition SupportsBatchVerifier (pk : option PubKey) : bool :=
  match pk with None => false | Some pk => bool_decide (pk_Type pk = ed25519_KeyType) end.

(** Whether a batch verifier exists for the key. *)
Definition CreateBatchVerifier (pk : option PubKey) : outcome bool :=
  match pk with
  | None => Panic "nil pointer dereference"
  | Some pk => Done (bool_decide (pk_Type pk = ed25519_KeyType))
  end.

(** The proposer's key; [GetProposer] returns nil on an empty set. *)
Definition proposer_key (vals : ValidatorSet) : outcome (ValidatorSet * option PubKey) :=
  r ← GetProposer vals;
  match r.2 with Some p => Done (r.1, ValPubKey p) | None => Panic "nil pointer dereference" end.

Definition shouldBatchVerify (vals : ValidatorSet) (commit : Commit) : outcome (ValidatorSet * bool) :=
  if batchVerifyThreshold <=? zlen (Signatures commit) then
    r ← proposer_key vals;
    Done (r.1, SupportsBatchVerifier r.2 && allKeysHaveSameType r.1)
  else Done (vals, false).

(** The checks at the start of the loop body both routines share: the validator
    to use for the signature at [i], skipping the signature, or an error. *)
Inductive lookup_result :=
| LSkip
| LFound (val : Validator) (seen : gmap Z Z)
| LError (e : verify_error).

Definition lookup_validator (vals : ValidatorSet) (lookUpByIndex : bool) (i : Z) (commitSig : CommitSig)
    (seenVals : gmap Z Z) : outcome lookup_result :=
  if lookUpByIndex then val ← idx (Validators vals) i; Done (LFound val seenVals)
  else
    match GetByAddressMut vals (cs_Address commitSig) with
    | (_, None) => Done LSkip
    | (valIdx, Some val) =>
        match seenVals !! valIdx with
        | Some firstIndex => Done (LError (ErrDoubleVote firstIndex i))
        | None => Done (LFound val (<[valIdx := i]> seenVals))
        end
    end.

Section loops.
Variables (chainID : string) (vals : ValidatorSet) (commit : Commit) (votingPowerNeeded : Z)
  (ignoreSig countSig : CommitSig → bool) (countAllSignatures lookUpByIndex : bool).

Definition enough_power (talliedVotingPower : Z) : option verify_error :=
  if talliedVotingPower <=? votingPowerNeeded
  then Some (ErrNotEnoughVotingPowerSigned talliedVotingPower votingPowerNeeded)
  else None.

(** The loop of [verifyCommitSingle] from index [i]. *)
Fixpoint single_loop (sigs : list CommitSig) (i : Z) (seenVals : gmap Z Z) (tallied : Z)
    : outcome (option verify_error) :=
  match sigs with
  | [] => Done (enough_power tallied)
  | commitSig :: sigs =>
      if ignoreSig commitSig then single_loop sigs (i + 1) seenVals tallied
      else if bool_decide (is_Some (cs_ValidateBasic commitSig)) then Done (Some (ErrInvalidSigs i))
      else
        r ← lookup_validator vals lookUpByIndex i commitSig seenVals;
        match r with
        | LSkip => single_loop sigs (i + 1) seenVals tallied
        | LError e => Done (Some e)
        | LFound val seenVals =>
            match ValPubKey val with
            | None => Done (Some (ErrNilPubKey i))
            | Some pk =>
                voteSignBytes ← commit_VoteSignBytes commit chainID (wrap32 i);
                if negb (VerifySignature pk voteSignBytes (cs_Signature commitSig))
                then Done (Some (ErrWrongSignature i))
                else
                  let tallied := if countSig commitSig then wrap64 (tallied + VotingPower val)
                                 else tallied in
                  if negb countAllSignatures && (votingPowerNeeded <? tallied) then Done None
                  else single_loop sigs (i + 1) seenVals tallied
            end
        end
  end.

Definition verifyCommitSingle : outcome (option verify_error) :=
  single_loop (Signatures commit) 0 ∅ 0.

(** The loop of [verifyCommitBatch]: the batch so far, in order, with the index
    of each signature, or the error it returns with. *)
Fixpoint batch_loop (sigs : list CommitSig) (i : Z) (seenVals : gmap Z Z)
    (batch : list (Z * (PubKey * list Z * list Z))) (tallied : Z)
    : outcome (verify_error + list (Z * (PubKey * list Z * list Z)) * Z) :=
  match sigs with
  | [] => Done (inr (batch, tallied))
  | commitSig :: sigs =>
      if ignoreSig commitSig then batch_loop sigs (i + 1) seenVals batch tallied
      else
        r ← lookup_validator vals lookUpByIndex i commitSig seenVals;
        match r with
        | LSkip => batch_loop sigs (i + 1) seenVals batch tallied
        | LError e => Done (inl e)
        | LFound val seenVals =>
            voteSignBytes ← commit_VoteSignBytes commit chainID (wrap32 i);
            match ValPubKey val, bv_Add_refuses (ValPubKey val) voteSignBytes (cs_Signature commitSig) with
            | Some pk, false =>
                let batch := batch ++ [(i, (pk, voteSignBytes, cs_Signature commitSig))] in
                let tallied := if countSig commitSig then wrap64 (tallied + VotingPower val)
                               else tallied in
                if negb countAllSignatures && (votingPowerNeeded <? tallied)
                then Done (inr (batch, tallied))
                else batch_loop sigs (i + 1) seenVals batch tallied
            | _, _ => Done (inl ErrBatchAdd)
            end
        end
  end.

(** The first signature the batch verifier found invalid. *)
Fixpoint first_invalid (validSigs : list bool) (batchSigIdxs : list Z) : verify_error :=
  match validSigs, batchSigIdxs with
  | false :: _, i :: _ => ErrWrongSignature i
  | true :: validSigs, _ :: batchSigIdxs => first_invalid validSigs batchSigIdxs
  | _, _ => ErrBatchBug
  end.

Definition verifyCommitBatch : outcome (option verify_error) :=
  key ← proposer_key vals;
  ok ← CreateBatchVerifier key.2;
  if negb ok || (zlen (Signatures commit) <? batchVerifyThreshold)
  then Done (Some ErrBatchUnsupported)
  else
    r ← batch_loop (Signatures commit) 0 ∅ [] 0;
    match r with
    | inl e => Done (Some e)
    | inr (batch, tallied) =>
        match enough_power tallied with
        | Some e => Done (Some e)
        | None =>
            let '(ok, validSigs) := bv_Verify (batch.*2) in
            if (ok : bool) then Done None
            else Done (Some (first_invalid validSigs (batch.*1)))
        end
    end.

End loops.

Definition verifyBasicValsAndCommit (vals : option ValidatorSet) (commit : option Commit)
    (height : Z) (blockID : BlockID) : option verify_error :=
  match vals, commit with
  | None, _ => Some ErrNilValidators
  | _, None => Some ErrNilCommit
  | Some vals, Some commit =>
      if negb (Size vals =? zlen (Signatures commit))
      then Some (ErrInvalidCommitSignatures (Size vals) (zlen (Signatures commit)))
      else if negb (height =? cHeight commit)
      then Some (ErrInvalidCommitHeight height (cHeight commit))
      else if negb (Equals blockID (cBlockID commit)) then Some ErrWrongBlockID
      else None
  end.

Definition is_absent (c : CommitSig) : bool := cs_Flag c =? BlockIDFlagAbsent.
Definition is_commit (c : CommitSig) : bool := cs_Flag c =? BlockIDFlagCommit.
Definition not_commit (c : CommitSig) : bool := negb (is_commit c).
Definition count_all (_ : CommitSig) : bool := true.

(** Batch verification when it is supported, single verification otherwise. *)
Definition verify_either (chainID : string) (vals : ValidatorSet) (commit : Commit) (needed : Z)
    (ignore count : CommitSig → bool) (countAll byIndex : bool) : outcome (option verify_error) :=
  sb ← shouldBatchVerify vals commit;
  if (sb.2 : bool)
  then verifyCommitBatch chainID sb.1 commit needed ignore count countAll byIndex
  else verifyCommitSingle chainID sb.1 commit needed ignore count countAll byIndex.

Definition VerifyCommit (chainID : string) (vals : option ValidatorSet) (blockID : BlockID)
    (height : Z) (commit : option Commit) : outcome (option verify_error) :=
  match verifyBasicValsAndCommit vals commit height blockID, vals, commit with
  | Some e, _, _ => Done (Some e)
  | None, Some vals, Some commit =>
      tvp ← TotalVotingPower vals;
      let votingPowerNeeded := Z.quot (wrap64 (tvp.2 * 2)) 3 in
      verify_either chainID tvp.1 commit votingPowerNeeded is_absent is_commit true true
  | None, _, _ => Panic "unreachable"
  end.

Definition verifyCommitLightInternal (chainID : string) (vals : option ValidatorSet)
    (blockID : BlockID) (height : Z) (commit : option Commit) (countAllSignatures : bool)
    : outcome (option verify_error) :=
  match verifyBasicValsAndCommit vals commit height blockID, vals, commit with
  | Some e, _, _ => Done (Some e)
  | None, Some vals, Some commit =>
      tvp ← TotalVotingPower vals;
      let votingPowerNeeded := Z.quot (wrap64 (tvp.2 * 2)) 3 in
      verify_either chainID tvp.1 commit votingPowerNeeded not_commit count_all countAllSignatures true
  | None, _, _ => Panic "unreachable"
  end.

Definition VerifyCommitLight (chainID : string) (vals : option ValidatorSet) (blockID : BlockID)
    (height : Z) (commit : option Commit) : outcome (option verify_error) :=
  verifyCommitLightInternal chainID vals blockID height commit false.

Definition VerifyCommitLightAllSignatures (chainID : string) (vals : option ValidatorSet) (blockID : BlockID)
    (height : Z) (commit : option Commit) : outcome (option verify_error) :=
  verifyCommitLightInternal chainID vals blockID height commit true.

Definition verifyCommitLightTrustingInternal (chainID : string) (vals : option ValidatorSet)
    (commit : option Commit) (trustLevel : Fraction) (countAllSignatures : bool)
    : outcome (option verify_error) :=
  match vals with
  | None => Done (Some ErrNilValidators)
  | Some vals =>
      if Denominator trustLevel =? 0 then Done (Some ErrZeroDenominator)
      else
        match commit with
        | None => Done (Some ErrNilCommit)
        | Some commit =>
            tvp ← TotalVotingPower vals;
            let '(product, overflow) := safeMul tvp.2 (to_int64 (Numerator trustLevel)) in
            if (overflow : bool) then Done (Some ErrOverflow)
            else
              needed ← div64 product (to_int64 (Denominator trustLevel));
              verify_either chainID tvp.1 commit needed not_commit count_all countAllSignatures false
        end
  end.

Definition VerifyCommitLightTrusting (chainID : string) (vals : option ValidatorSet)
    (commit : option Commit) (trustLevel : Fraction) : outcome (option verify_error) :=
  verifyCommitLightTrustingInternal chainID vals commit trustLevel false.

Definition VerifyCommitLightTrustingAllSignatures (chainID : string) (vals : option ValidatorSet)
    (commit : option Commit) (trustLevel : Fraction) : outcome (option verify_error) :=
  verifyCommitLightTrustingInternal chainID vals commit trustLevel true.

End verify.

(** ** The two loops accept the same commits *)

Section loop_proofs.
Context `{PubKeyOps, SignCodec, !BatchOps, !BatchLaws}.
Variables (chainID : string) (vals : ValidatorSet) (commit : Commit) (needed : Z)
  (ignoreSig countSig : CommitSig → bool) (countAll byIndex : bool).
Implicit Types (sigs : list CommitSig) (seen : gmap Z Z) (batch : list (Z * (PubKey * list Z * list Z))).

Notation single := (single_loop chainID vals commit needed ignoreSig countSig countAll byIndex).
Notation batched := (batch_loop chainID vals commit needed ignoreSig countSig countAll byIndex).

(** The signatures the loops look at are well formed. *)
Definition basic_ok sigs : Prop :=
  Forall (λ cs, ignoreSig cs = false → cs_ValidateBasic cs = None) sigs.

Lemma basic_ok_cons cs sigs :
  basic_ok (cs :: sigs) → ignoreSig cs = false →
  bool_decide (is_Some (cs_ValidateBasic cs)) = false.
Proof. intros [Hc _]%Forall_cons Hi. rewrite (Hc Hi). by apply bool_decide_false, is_Some_None. Qed.
Lemma batched_extends sigs i seen batch tallied b t :
  batched sigs i seen batch tallied = Done (inr (b, t)) → ∃ b', b = batch ++ b'.
Proof.
  revert i seen batch tallied. induction sigs as [|cs sigs IH]; intros i seen batch tallied E.
  { simplify_eq/=. exists []. by rewrite app_nil_r. }
  cbn [batch_loop] in E. destruct (ignoreSig cs); [by eapply IH|].
  destruct (lookup_validator _ _ _ _ _) as [[|val seen'|e]|w]; cbn [mbind outcome_bind] in E;
    [by eapply IH| |done..].
  destruct (commit_VoteSignBytes _ _ _) as [bz|w]; cbn [mbind outcome_bind] in E; [|done].
  destruct (ValPubKey val) as [pk|]; [|done]. destruct (bv_Add_refuses _ _ _); [done|].
  destruct (_ && _).
  - injection E as <- _. eauto.
  - destruct (IH _ _ _ _ E) as [b' ->]. rewrite <-app_assoc. eauto.
Qed.

(** The batch routine accepts what the single one accepts, unless the batch
    verifier refuses an entry. *)
Lemma single_batched sigs i seen batch tallied :
  basic_ok sigs →
  single sigs i seen tallied = Done None ∧
    batched sigs i seen batch tallied ≠ Done (inl ErrBatchAdd) ↔
  ∃ b t, batched sigs i seen batch tallied = Done (inr (batch ++ b, t)) ∧
         enough_power needed t = None ∧ forallb entry_ok (b.*2) = true.
Proof.
  revert i seen batch tallied. induction sigs as [|cs sigs IH]; intros i seen batch tallied Hok.
  { simpl. split.
    - intros [[= E] _]. exists [], tallied. by rewrite app_nil_r.
    - intros (b & t & E & Ht & _). injection E as _ <-. by rewrite Ht. }
  cbn [single_loop batch_loop]. destruct (ignoreSig cs) eqn:Ei.
  { apply IH. by apply Forall_cons in Hok as [_ ?]. }
  rewrite (basic_ok_cons _ _ Hok Ei). apply Forall_cons in Hok as [_ Hok].
  destruct (lookup_validator vals byIndex i cs seen) as [[|val seen'|e]|w]; cbn [mbind outcome_bind];
    [by apply IH| |naive_solver..].
  destruct (ValPubKey val) as [pk|] eqn:Epk.
  2: { split; [by intros [? _]|]. intros (b & t & E & _). destruct (commit_VoteSignBytes _ _ _); by simplify_eq/=. }
  destruct (commit_VoteSignBytes commit chainID (wrap32 i)) as [bz|w]; cbn [mbind outcome_bind];
    [|naive_solver].
  destruct (bv_Add_refuses (Some pk) bz (cs_Signature cs)) eqn:Eadd.
  { naive_solver. }
  set (t1 := if countSig cs then _ else _). set (e := (i, (pk, bz, cs_Signature cs))).
  destruct (VerifySignature pk bz (cs_Signature cs)) eqn:Ev; cbn [negb].
  - destruct (negb countAll && (needed <? t1)) eqn:Estop.
    + split; [|by split]. intros _. exists [e], t1. split_and!; [done| |].
      * unfold enough_power. apply andb_true_iff in Estop as [_ Hlt%Z.ltb_lt].
        by destruct (Z.leb_spec t1 needed); [lia|].
      * simpl. unfold entry_ok. simpl. by rewrite Ev.
    + rewrite (IH (i + 1) seen' (batch ++ [e]) t1 Hok). split.
      * intros (b & t & E & ? & Hb). exists (e :: b), t. split_and!.
        { rewrite E. by rewrite <-app_assoc. }
        { done. }
        { simpl. unfold entry_ok at 1. simpl. by rewrite Ev. }
      * intros (b & t & E & Ht & Hb).
        destruct (batched_extends sigs (i + 1) seen' (batch ++ [e]) t1 _ _ E) as [b' Hb'].
        rewrite <-app_assoc in Hb'. apply app_inv_head in Hb'. simpl in Hb'. subst b.
        exists b', t. split_and!; [by rewrite E, <-app_assoc|done|].
        simpl in Hb. by apply andb_true_iff in Hb as [_ ?].
  - split; [by intros [? _]|]. intros (b & t & E & Ht & Hb). exfalso.
    assert (Hin : ∃ b', b = e :: b').
    { destruct (negb countAll && (needed <? t1)).
      - injection E as E _. apply app_inv_head in E. by exists [].
      - destruct (batched_extends sigs (i + 1) seen' (batch ++ [e]) t1 _ _ E) as [b' Hb'].
        rewrite <-app_assoc in Hb'. apply app_inv_head in Hb'. by exists b'. }
    destruct Hin as [b' ->]. simpl in Hb. unfold entry_ok at 1 in Hb. simpl in Hb. by rewrite Ev in Hb.
Qed.

(** All keys are ed25519 keys. *)
Definition ed_keys : Prop :=
  ∀ val pk, val ∈ Validators vals → ValPubKey val = Some pk → pk_Type pk = ed25519_KeyType.

Lemma lookup_validator_in i cs seen val seen' :
  lookup_validator vals byIndex i cs seen = Done (LFound val seen') → val ∈ Validators vals.
Proof.
  unfold lookup_validator, GetByAddressMut. destruct byIndex.
  - unfold idx. destruct (0 <=? i); [|done]. destruct (Validators vals !! Z.to_nat i) eqn:E; [|done].
    intros [= <- _]. by eapply list_elem_of_lookup_2.
  - destruct (find_address _ _ _) as [j [v|]] eqn:E; [|done]. destruct (seen !! j); [done|].
    intros [= <- _].
    apply (find_address_Some _ (cs_Address cs) 0 v). by rewrite E.
Qed.

Lemma ed_keys_added sigs i seen batch tallied :
  ed_keys → single sigs i seen tallied = Done None →
  batched sigs i seen batch tallied ≠ Done (inl ErrBatchAdd).
Proof.
  intros Hed. revert i seen batch tallied. induction sigs as [|cs sigs IH]; intros i seen batch tallied; [done|].
  cbn [single_loop batch_loop]. destruct (ignoreSig cs); [apply IH|].
  destruct (bool_decide _); [done|].
  destruct (lookup_validator vals byIndex i cs seen) as [[|val seen'|e]|w] eqn:El;
    cbn [mbind outcome_bind]; [apply IH| |done..].
  destruct (ValPubKey val) as [pk|] eqn:Epk; [|done].
  destruct (commit_VoteSignBytes _ _ _) as [bz|w]; cbn [mbind outcome_bind]; [|done].
  destruct (VerifySignature pk bz (cs_Signature cs)) eqn:Ev; cbn [negb]; [|done].
  destruct (bv_Add_refuses (Some pk) bz (cs_Signature cs)) eqn:Eadd.
  { apply lookup_validator_in in El. rewrite batch_add_law in Ev; eauto. }
  destruct (negb countAll && _); [done|]. apply IH.
Qed.

Lemma batched_unchanged sigs i seen batch tallied t :
  batched sigs i seen batch tallied = Done (inr (batch, t)) → t = tallied.
Proof.
  revert i seen. induction sigs as [|cs sigs IH]; intros i seen E.
  { by simplify_eq/=. }
  cbn [batch_loop] in E. destruct (ignoreSig cs); [by eapply IH|].
  destruct (lookup_validator _ _ _ _ _) as [[|val seen'|e]|w]; cbn [mbind outcome_bind] in E;
    [by eapply IH| |done..].
  destruct (commit_VoteSignBytes _ _ _) as [bz|w]; cbn [mbind outcome_bind] in E; [|done].
  destruct (ValPubKey val) as [pk|]; [|done]. destruct (bv_Add_refuses _ _ _); [done|].
  assert (Hno : ∀ e b', batch ≠ (batch ++ [e]) ++ b').
  { intros e b' Hb. apply (f_equal length) in Hb. rewrite !length_app in Hb. simpl in Hb. lia. }
  destruct (_ && _).
  - injection E as E _. exfalso. eapply (Hno _ []). by rewrite app_nil_r.
  - destruct (batched_extends _ _ _ _ _ _ _ E) as [b' Hb']. by destruct (Hno _ _ Hb').
Qed.

(** Acceptance by the batch routine is acceptance by the single one, provided
    no entry is refused. *)
Lemma batch_accepts vals' pk :
  0 ≤ needed → basic_ok (Signatures commit) →
  proposer_key vals = Done (vals', Some pk) → pk_Type pk = ed25519_KeyType →
  batchVerifyThreshold ≤ zlen (Signatures commit) →
  verifyCommitBatch chainID vals commit needed ignoreSig countSig countAll byIndex = Done None ↔
  verifyCommitSingle chainID vals commit needed ignoreSig countSig countAll byIndex = Done None ∧
    batched (Signatures commit) 0 ∅ [] 0 ≠ Done (inl ErrBatchAdd).
Proof.
  intros Hn Hok Hkey Htype Hlen. unfold verifyCommitSingle, verifyCommitBatch.
  rewrite Hkey. cbn [mbind outcome_bind CreateBatchVerifier snd]. rewrite bool_decide_true by done.
  destruct (Z.ltb_spec (zlen (Signatures commit)) batchVerifyThreshold); [lia|]. cbn [negb orb].
  rewrite (single_batched (Signatures commit) 0 ∅ [] 0 Hok).
  destruct (batched (Signatures commit) 0 ∅ [] 0) as [[e|[b t]]|w] eqn:E; cbn [mbind outcome_bind];
    [naive_solver| |naive_solver].
  destruct (enough_power needed t) eqn:Et.
  { split; [done|]. intros (b' & t' & Hb & Ht & _). by simplify_eq/=. }
  assert (Hne : b.*2 ≠ []).
  { intros Hb. apply fmap_nil_inv in Hb as ->. apply batched_unchanged in E as ->.
    unfold enough_power in Et. destruct (Z.leb_spec 0 needed); [done|lia]. }
  rewrite (batch_verify_law _ Hne). split.
  - destruct (forallb entry_ok (b.*2)) eqn:Eb; [|done]. intros _. by exists b, t.
  - intros (b' & t' & Hb & _ & Hv). simplify_eq/=. by rewrite Hv.
Qed.

(** ** What acceptance means *)

Definition sig_ok (i : nat) (cs : CommitSig) (val : Validator) : bool :=
  match ValPubKey val, commit_VoteSignBytes commit chainID (wrap32 (Z.of_nat i)) with
  | Some pk, Done bz => VerifySignature pk bz (cs_Signature cs)
  | _, _ => false
  end.

Definition power_at (j : nat) : Z := default 0 (VotingPower <$> Validators vals !! j).

(** [(j, m)]: the validator at [j] is counted for the signature at [m]. *)
Definition signer (seen : gmap Z Z) (k : nat) (p : nat * nat) : Prop :=
  (k ≤ p.2)%nat ∧ ∃ val cs, Validators vals !! p.1 = Some val ∧ Signatures commit !! p.2 = Some cs ∧
    ignoreSig cs = false ∧ countSig cs = true ∧ sig_ok p.2 cs val = true ∧
    (if byIndex then p.1 = p.2 else Address val = cs_Address cs ∧ seen !! Z.of_nat p.1 = None).

Lemma wrap64_le z : min_int64 ≤ z → wrap64 z ≤ z.
Proof.
  unfold wrap64; unfold_ints; intros Hz.
  pose proof (Z.mod_le (z + 9223372036854775808) 18446744073709551616). lia.
Qed.

(** Where [GetByAddressMut] finds its answer. *)
Lemma find_address_index l a i v k :
  find_address l a k = (i, Some v) → ∃ j, i = wrap32 (k + Z.of_nat j) ∧ l !! j = Some v ∧ Address v = a.
Proof.
  revert k. induction l as [|w l IH]; intros k; simpl; [done|].
  destruct (bytes_equal (Address w) a) eqn:E.
  - intros [= <- <-]. apply bytes_equal_spec in E. exists 0%nat. split_and!; [f_equal; lia|done|done].
  - intros Hf. destruct (IH _ Hf) as (j & -> & Hj & Ha). exists (S j).
    split_and!; [f_equal; lia|done|done].
Qed.

Lemma lookup_validator_found i cs seen val seen' :
  zlen (Validators vals) ≤ max_int32 →
  lookup_validator vals byIndex (Z.of_nat i) cs seen = Done (LFound val seen') →
  ∃ j, Validators vals !! j = Some val ∧
    if byIndex then j = i ∧ seen' = seen
    else Address val = cs_Address cs ∧ seen !! Z.of_nat j = None ∧ seen' = <[Z.of_nat j := Z.of_nat i]> seen.
Proof.
  intros Hmax. unfold lookup_validator. destruct byIndex.
  - intros E. apply outcome_bind_Done in E as (v & Hv & E). simplify_eq.
    apply idx_Done in Hv as [_ Hv]. rewrite Nat2Z.id in Hv. eauto.
  - unfold GetByAddressMut. destruct (find_address _ _ _) as [vi [v|]] eqn:E; [|done].
    destruct (find_address_index _ _ _ _ _ E) as (j & -> & Hj & Ha).
    assert (wrap32 (0 + Z.of_nat j) = Z.of_nat j) as ->.
    { apply lookup_lt_Some in Hj. unfold wrap32, zlen, max_int32 in *. rewrite Z.mod_small; lia. }
    destruct (seen !! Z.of_nat j) eqn:Es; intros [= <- <-]. eauto.
Qed.

Lemma signer_weaken seen seen' k k' p :
  (k ≤ k')%nat → (∀ x, seen' !! x = None → seen !! x = None) → signer seen' k' p → signer seen k p.
Proof.
  intros Hk Hs (Hp & val & cs & ? & ? & ? & ? & ? & Hrest). split; [lia|].
  exists val, cs. split_and!; try done. destruct byIndex; [done|]. naive_solver.
Qed.

Lemma single_sound k seen tallied l :
  zlen (Validators vals) ≤ max_int32 → drop k (Signatures commit) = l → min_int64 ≤ tallied →
  single l (Z.of_nat k) seen tallied = Done None →
  (∀ val, val ∈ Validators vals → 0 < VotingPower val) →
  ∃ S : list (nat * nat), NoDup S.*1 ∧ Forall (signer seen k) S ∧ needed < tallied + zsum power_at S.*1.
Proof.
  intros Hmax. revert k seen tallied. induction l as [|cs l IH]; intros k seen tallied Hdrop Ht E Hpos.
  { exists []. split_and!; [constructor..|]. cbn [single_loop] in E. injection E as E.
    unfold enough_power in E. destruct (Z.leb_spec tallied needed); [done|]. simpl. lia. }
  assert (Hcs : Signatures commit !! k = Some cs).
  { rewrite <-(Nat.add_0_r k), <-lookup_drop, Hdrop. done. }
  assert (Hdrop' : drop (S k) (Signatures commit) = l).
  { change (S k) with (1 + k)%nat. rewrite Nat.add_comm, <-drop_drop, Hdrop. done. }
  specialize (IH (S k)). replace (Z.of_nat (S k)) with (Z.of_nat k + 1) in IH by lia.
  assert (Hskip : ∀ seen' t, min_int64 ≤ t → t ≤ tallied →
      (∀ x, seen' !! x = None → seen !! x = None) →
      single l (Z.of_nat k + 1) seen' t = Done None →
      ∃ S : list (nat * nat), NoDup S.*1 ∧ Forall (signer seen k) S ∧ needed < tallied + zsum power_at S.*1).
  { intros seen' t Ht1 Ht2 Hs E'. destruct (IH seen' t) as (S & HS & Hf & Hlt); try done.
    exists S. split_and!; [done| |lia]. eapply Forall_impl; [exact Hf|]. intros p. by apply signer_weaken; [lia|]. }
  cbn [single_loop] in E. destruct (ignoreSig cs) eqn:Ei; [by eapply Hskip|].
  destruct (bool_decide _); [done|].
  destruct (lookup_validator vals byIndex (Z.of_nat k) cs seen) as [[|val seen'|e]|w] eqn:El;
    cbn [mbind outcome_bind] in E; [by eapply Hskip| |done..].
  destruct (lookup_validator_found _ _ _ _ _ Hmax El) as (j & Hj & Hfound).
  destruct (ValPubKey val) as [pk|] eqn:Epk; [|done].
  destruct (commit_VoteSignBytes _ _ _) as [bz|w] eqn:Ebz; cbn [mbind outcome_bind] in E; [|done].
  destruct (VerifySignature pk bz (cs_Signature cs)) eqn:Ev; [|done]. cbn [negb] in E.
  assert (Hseen : ∀ x, seen' !! x = None → seen !! x = None).
  { intros x. destruct byIndex; [by destruct Hfound as [_ ->]|]. destruct Hfound as (_ & _ & ->).
    rewrite lookup_insert_None. naive_solver. }
  assert (Hsig : countSig cs = true → signer seen k (j, k)).
  { intros Hc. split; [done|]. exists val, cs. split_and!; try done.
    - unfold sig_ok. simpl. by rewrite Epk, Ebz.
    - destruct byIndex; [by destruct Hfound|]. by destruct Hfound as (? & ? & _). }
  destruct (countSig cs) eqn:Ec.
  2: { destruct (_ && _) eqn:Estop; [|by eapply Hskip].
       apply andb_true_iff in Estop as [_ Hlt%Z.ltb_lt]. exists []. split_and!; [constructor..|simpl; lia]. }
  assert (Hp : power_at j = VotingPower val) by (unfold power_at; by rewrite Hj).
  assert (Hvp : 0 < VotingPower val) by (apply Hpos; by eapply list_elem_of_lookup_2).
  pose proof (wrap64_le (tallied + VotingPower val) ltac:(lia)).
  destruct (_ && _) eqn:Estop.
  { apply andb_true_iff in Estop as [_ Hlt%Z.ltb_lt]. exists [(j, k)]. split_and!.
    - apply NoDup_singleton.
    - by apply Forall_singleton, Hsig.
    - simpl. lia. }
  destruct (IH seen' (wrap64 (tallied + VotingPower val))) as (S & HS & Hf & Hlt); try done.
  { pose proof (wrap64_range (tallied + VotingPower val)). unfold in_int64 in *. lia. }
  exists ((j, k) :: S). split_and!; [|constructor; [by apply Hsig|]|].
  3: { cbn [fmap list_fmap fst zsum]. rewrite Hp. lia. }
  - simpl. constructor; [|done]. intros ([x y] & Hx & Hin)%list_elem_of_fmap. simpl in Hx. subst x.
    eapply Forall_forall in Hf; [|exact Hin]. destruct Hf as (Hle & v' & cs' & _ & _ & _ & _ & _ & Hr).
    simpl in *. destruct byIndex; [lia|]. destruct Hr as [_ Hr]. destruct Hfound as (_ & _ & ->).
    by rewrite lookup_insert_eq in Hr.
  - eapply Forall_impl; [exact Hf|]. intros p. by apply signer_weaken; [lia|].
Qed.

(** The power of the validators whose signature (same index) satisfies [P]. *)
Definition commit_power (P : CommitSig → bool) (l : list CommitSig) (vl : list Validator) : Z :=
  zsum (λ p, if P p.1 then VotingPower p.2 else 0) (zip l vl).

Definition counts (cs : CommitSig) : bool := negb (ignoreSig cs) && countSig cs.

Lemma commit_power_bounds P l vl :
  (∀ val, val ∈ vl → 0 < VotingPower val) → 0 ≤ commit_power P l vl ≤ zsum VotingPower vl.
Proof.
  unfold commit_power. revert l. induction vl as [|v vl IH]; intros [|cs l] Hpos; simpl.
  1-2: lia.
  - pose proof (Hpos v ltac:(set_solver)).
    assert (0 ≤ zsum VotingPower vl) by (apply zsum_nonneg; intros w ?; specialize (Hpos w ltac:(set_solver)); lia).
    lia.
  - pose proof (Hpos v ltac:(set_solver)). specialize (IH l ltac:(set_solver)). destruct (P cs); lia.
Qed.

Lemma drop_uncons {A} (k : nat) (s : list A) x l :
  drop k s = x :: l → s !! k = Some x ∧ drop (S k) s = l.
Proof.
  intros Hd. split.
  - rewrite <-(Nat.add_0_r k), <-lookup_drop, Hd. done.
  - change (S k) with (1 + k)%nat. rewrite Nat.add_comm, <-drop_drop, Hd. done.
Qed.

Lemma single_complete k seen tallied l vl :
  byIndex = true → drop k (Signatures commit) = l → drop k (Validators vals) = vl →
  length l = length vl → (∀ val, val ∈ vl → 0 < VotingPower val) →
  (∀ m cs val, (k ≤ m)%nat → Signatures commit !! m = Some cs → Validators vals !! m = Some val →
     ignoreSig cs = false → cs_ValidateBasic cs = None ∧ sig_ok m cs val = true) →
  0 ≤ tallied → tallied + zsum VotingPower vl ≤ max_int64 →
  needed < tallied + commit_power counts l vl →
  single l (Z.of_nat k) seen tallied = Done None.
Proof.
  intros Hby. revert k tallied vl.
  induction l as [|cs l IH]; intros k tallied vl Hl Hv Hlen Hpos Hok Ht Hmax Hneed.
  { unfold commit_power in Hneed. simpl in *. unfold enough_power.
    destruct (Z.leb_spec tallied needed); [lia|done]. }
  destruct vl as [|val vl]; [done|]. injection Hlen as Hlen.
  destruct (drop_uncons _ _ _ _ Hl) as [Hcs Hl']. destruct (drop_uncons _ _ _ _ Hv) as [Hval Hv'].
  pose proof (Hpos val ltac:(set_solver)) as Hvp. specialize (IH (S k)).
  replace (Z.of_nat (S k)) with (Z.of_nat k + 1) in IH by lia.
  unfold commit_power in Hneed. cbn [zip zip_with zsum fst snd] in Hneed, Hmax.
  change (zsum _ (zip l vl)) with (commit_power counts l vl) in Hneed.
  assert (Hnext : ∀ t, 0 ≤ t → t + zsum VotingPower vl ≤ max_int64 → needed < t + commit_power counts l vl →
    single l (Z.of_nat k + 1) seen t = Done None).
  { intros t ???. eapply (IH t vl); try done; [set_solver|]. intros m ? ? ?. apply Hok. lia. }
  assert (Hz : 0 ≤ zsum VotingPower vl).
  { apply zsum_nonneg. intros w Hw. specialize (Hpos w ltac:(set_solver)). lia. }
  unfold counts at 1 in Hneed. cbn [single_loop]. destruct (ignoreSig cs) eqn:Ei; cbn [negb andb] in Hneed.
  { apply Hnext; lia. }
  destruct (Hok k cs val) as [Hbasic Hsig]; try done.
  rewrite Hbasic, bool_decide_false by apply is_Some_None.
  assert (lookup_validator vals byIndex (Z.of_nat k) cs seen = Done (LFound val seen)) as ->.
  { unfold lookup_validator. by rewrite Hby, (idx_nat _ _ _ Hval). }
  cbn [mbind outcome_bind].
  unfold sig_ok in Hsig. destruct (ValPubKey val) as [pk|]; [|done].
  destruct (commit_VoteSignBytes _ _ _) as [bz|]; [|done]. cbn [mbind outcome_bind].
  rewrite Hsig. cbn [negb]. destruct (_ && _); [done|].
  destruct (countSig cs); [rewrite wrap64_id by (unfold_ints; lia)|]; apply Hnext; lia.
Qed.

(** With all signatures checked, acceptance by index says all are valid and the
    counted ones carry the power. *)
Lemma single_all_valid k seen tallied l vl :
  byIndex = true → countAll = true → drop k (Signatures commit) = l → drop k (Validators vals) = vl →
  length l = length vl → (∀ val, val ∈ vl → 0 < VotingPower val) → min_int64 ≤ tallied →
  single l (Z.of_nat k) seen tallied = Done None →
  (∀ m cs val, (k ≤ m)%nat → Signatures commit !! m = Some cs → Validators vals !! m = Some val →
     ignoreSig cs = false → sig_ok m cs val = true) ∧
  needed < tallied + commit_power counts l vl.
Proof.
  intros Hby Hall. revert k seen tallied vl.
  induction l as [|cs l IH]; intros k seen tallied vl Hl Hv Hlen Hpos Ht E.
  { destruct vl; [|done]. split.
    - intros m cs val Hm Hcs _. exfalso. apply lookup_lt_Some in Hcs. apply (f_equal length) in Hl.
      rewrite length_drop in Hl. simpl in Hl. lia.
    - cbn [single_loop] in E. injection E as E. unfold enough_power in E.
      destruct (Z.leb_spec tallied needed); [done|]. unfold commit_power. simpl. lia. }
  destruct vl as [|val vl]; [done|]. injection Hlen as Hlen.
  destruct (drop_uncons _ _ _ _ Hl) as [Hcs Hl']. destruct (drop_uncons _ _ _ _ Hv) as [Hval Hv'].
  pose proof (Hpos val ltac:(set_solver)) as Hvp. specialize (IH (S k)).
  replace (Z.of_nat (S k)) with (Z.of_nat k + 1) in IH by lia.
  unfold commit_power. cbn [zip zip_with zsum fst snd].
  change (zsum _ (zip l vl)) with (commit_power counts l vl). unfold counts at 1.
  assert (Hnext : ∀ seen' t, min_int64 ≤ t → single l (Z.of_nat k + 1) seen' t = Done None →
      (ignoreSig cs = false → sig_ok k cs val = true) →
      (∀ m cs val, (k ≤ m)%nat → Signatures commit !! m = Some cs → Validators vals !! m = Some val →
         ignoreSig cs = false → sig_ok m cs val = true) ∧ needed < t + commit_power counts l vl).
  { intros seen' t Ht' E' Hk. destruct (IH seen' t vl) as [Hm Hn]; try done; [set_solver|].
    split; [|done]. intros m cs' val' Hm' Hcs' Hval'. destruct (decide (m = k)) as [->|].
    - by simplify_eq.
    - apply Hm; [lia|done..]. }
  cbn [single_loop] in E. destruct (ignoreSig cs) eqn:Ei; cbn [negb andb].
  { destruct (Hnext seen tallied) as [? ?]; [done..|]. split; [done|lia]. }
  destruct (bool_decide _); [done|].
  assert (Hlk : lookup_validator vals byIndex (Z.of_nat k) cs seen = Done (LFound val seen)).
  { unfold lookup_validator. by rewrite Hby, (idx_nat _ _ _ Hval). }
  rewrite Hlk in E. cbn [mbind outcome_bind] in E.
  destruct (ValPubKey val) as [pk|] eqn:Epk; [|done].
  destruct (commit_VoteSignBytes _ _ _) as [bz|w] eqn:Ebz; cbn [mbind outcome_bind] in E; [|done].
  destruct (VerifySignature pk bz (cs_Signature cs)) eqn:Ev; [|done].
  assert (Hstop : negb countAll = false) by (by rewrite Hall).
  rewrite Hstop in E. cbn [negb andb] in E.
  pose proof (wrap64_le (tallied + VotingPower val) ltac:(lia)).
  pose proof (wrap64_range (tallied + VotingPower val)) as [? _].
  apply Hnext in E as [? ?].
  - split; [done|]. destruct (countSig cs); lia.
  - by destruct (countSig cs).
  - intros _. unfold sig_ok. by rewrite Epk, Ebz.
Qed.


End loop_proofs.

(** ** The entry points *)

Section entry_points.
Context `{PubKeyOps, SignCodec, !BatchOps, !BatchLaws}.

Lemma find_proposer_total l p :
  ∃ q, find_proposer l p = Done q ∧ (is_Some p ∨ l ≠ [] → is_Some q).
Proof.
  revert p. induction l as [|v l IH]; intros p; cbn [find_proposer].
  { exists p. split; [done|]. by intros [?|?]. }
  destruct p as [p|].
  - destruct (bytes_equal (Address v) (Address p)) eqn:E.
    + destruct (IH (Some p)) as (q & -> & Hq). eauto.
    + unfold CompareProposerPriority, id.
      assert (Hne : bytes_compare (Address p) (Address v) ≠ 0).
      { intros Hc. apply bytes_compare_eq in Hc. rewrite Hc in E.
        by rewrite (proj2 (bytes_equal_spec (Address v) (Address v))) in E. }
      repeat case_match; zbool; cbn [mbind outcome_bind]; try lia;
        match goal with |- context [find_proposer l (Some ?w)] =>
          destruct (IH (Some w)) as (q & -> & Hq); eauto end.
  - simpl. destruct (IH (Some v)) as (q & -> & Hq). eauto.
Qed.

Lemma proposer_key_total vals :
  Validators vals ≠ [] →
  ∃ vals' k, proposer_key vals = Done (vals', k) ∧ Validators vals' = Validators vals ∧
             proposer_key vals' = Done (vals', k).
Proof.
  intros Hne. unfold proposer_key, GetProposer. rewrite bool_decide_false by done.
  destruct (Proposer vals) as [p|] eqn:Ep; cbn [mbind outcome_bind fst snd].
  - exists vals, (ValPubKey p). rewrite bool_decide_false, Ep by done. done.
  - destruct (find_proposer_total (Validators vals) None) as (q & -> & [p ->]); [by right|].
    cbn [mbind outcome_bind fst snd]. eexists _, _. split; [done|]. simpl.
    by rewrite bool_decide_false.
Qed.

Lemma single_ext chainID vals vals' commit needed ig ct all byIdx l i seen t :
  Validators vals = Validators vals' →
  single_loop chainID vals commit needed ig ct all byIdx l i seen t =
  single_loop chainID vals' commit needed ig ct all byIdx l i seen t.
Proof.
  intros Hv. assert (Hl : ∀ i cs s, lookup_validator vals byIdx i cs s = lookup_validator vals' byIdx i cs s).
  { intros. unfold lookup_validator, GetByAddressMut. by rewrite Hv. }
  revert i seen t. induction l as [|cs l IH]; intros i seen t; [done|]. cbn [single_loop].
  rewrite IH, Hl. destruct (lookup_validator _ _ _ _ _) as [[| |]|]; cbn [mbind outcome_bind]; try done;
    repeat case_match; by rewrite ?IH.
Qed.

Lemma find_proposer_from l q :
  (∀ w, q = Some w → w ∈ l) → ∀ l', l' ⊆ l → ∀ p, find_proposer l' q = Done (Some p) → p ∈ l.
Proof.
  intros Hq l'. revert q Hq. induction l' as [|v l' IH]; intros q Hq Hl p E; simpl in E.
  { simplify_eq. by apply Hq. }
  assert (Hv : v ∈ l) by set_solver. assert (Hl' : l' ⊆ l) by set_solver.
  destruct q as [w|]; [destruct (bytes_equal _ _); [by eapply IH|]|];
    (destruct (CompareProposerPriority _ _ _) as [r|] eqn:Er; [|done]; cbn [mbind outcome_bind] in E;
     eapply IH; [|exact Hl'|exact E]; intros ? [= <-];
     unfold CompareProposerPriority in Er; repeat case_match; simplify_eq/=; auto).
Qed.

(** The proposer cached in the set, if any, has a key of a type the set has. *)
Definition proposer_known (vals : ValidatorSet) : Prop :=
  match Proposer vals with
  | None => True
  | Some p => Exists (λ v, pk_Type <$> ValPubKey v = pk_Type <$> ValPubKey p) (Validators vals)
  end.

#[export] Instance proposer_known_dec vals : Decision (proposer_known vals).
Proof. unfold proposer_known. destruct (Proposer vals); apply _. Defined.

Lemma proposer_known_in vals p : Proposer vals = Some p → p ∈ Validators vals → proposer_known vals.
Proof. intros E Hp. unfold proposer_known. rewrite E. apply Exists_exists. eauto. Qed.

Lemma proposer_key_type vals vals' k :
  proposer_known vals → proposer_key vals = Done (vals', k) →
  allKeysHaveSameType vals' = allKeysHaveSameType vals ∧
  ∃ v, v ∈ Validators vals ∧ pk_Type <$> ValPubKey v = pk_Type <$> k.
Proof.
  unfold proposer_known, proposer_key, GetProposer. intros Hp E.
  destruct (bool_decide (Validators vals = [])); [by simplify_eq/=|].
  destruct (Proposer vals) as [p|] eqn:Ep.
  { cbn [mbind outcome_bind fst snd] in E. rewrite ?Ep in E. simplify_eq/=. split; [done|].
    by apply Exists_exists in Hp as (v & ? & ?); exists v. }
  destruct (find_proposer (Validators vals) None) as [[q|]|] eqn:Ef; cbn [mbind outcome_bind fst snd] in E; simplify_eq/=.
  split; [done|]. exists q. split; [|done]. by eapply find_proposer_from; [| |exact Ef].
Qed.

(** When the batch routine is chosen, all keys are ed25519 keys. *)
Lemma batch_chosen_ed vals vals' k :
  wf vals → proposer_known vals → proposer_key vals = Done (vals', k) →
  SupportsBatchVerifier k && allKeysHaveSameType vals' = true → ed_keys vals.
Proof.
  intros (_ & _ & _ & Hone) Hp Ek [Hs Ha]%andb_true_iff. destruct (proposer_key_type _ _ _ Hp Ek) as (Hflag & v & Hv & Ht).
  rewrite Hflag in Ha. specialize (Hone Ha). destruct k as [pk|]; [|done]. apply bool_decide_eq_true in Hs.
  intros val pk' Hval Epk. unfold one_type in Hone. rewrite Forall_forall in Hone. specialize (Hone val Hval).
  rewrite Forall_forall in Hone. specialize (Hone v Hv). rewrite Ht, Epk in Hone. simpl in Hone. congruence.
Qed.

(** What [verify_either] accepts, [verifyCommitSingle] accepts; the converse
    needs the guard of [shouldBatchVerify]. *)
Lemma either_sound chainID vals commit needed ig ct all byIdx :
  Validators vals ≠ [] → 0 ≤ needed → basic_ok ig (Signatures commit) →
  verify_either chainID vals commit needed ig ct all byIdx = Done None →
  verifyCommitSingle chainID vals commit needed ig ct all byIdx = Done None.
Proof.
  intros Hne Hn Hok. unfold verify_either, shouldBatchVerify.
  destruct (Z.leb_spec batchVerifyThreshold (zlen (Signatures commit))); [|done].
  destruct (proposer_key_total vals Hne) as (vals' & k & -> & Hv & Hk). cbn [mbind outcome_bind fst snd].
  assert (Hext : verifyCommitSingle chainID vals' commit needed ig ct all byIdx =
                 verifyCommitSingle chainID vals commit needed ig ct all byIdx) by (by apply single_ext).
  destruct (SupportsBatchVerifier k && allKeysHaveSameType vals') eqn:Es; [|by rewrite Hext].
  apply andb_true_iff in Es as [Es _]. destruct k as [pk|]; [|done].
  apply bool_decide_eq_true in Es. rewrite <-Hext. intros E. by eapply batch_accepts in E as [? _].
Qed.

Lemma either_accepts chainID vals commit needed ig ct all byIdx :
  wf vals → proposer_known vals → Validators vals ≠ [] → 0 ≤ needed → basic_ok ig (Signatures commit) →
  verify_either chainID vals commit needed ig ct all byIdx = Done None ↔
  verifyCommitSingle chainID vals commit needed ig ct all byIdx = Done None.
Proof.
  intros Hwf Hp Hne Hn Hok. split; [by apply either_sound|]. unfold verify_either, shouldBatchVerify.
  destruct (Z.leb_spec batchVerifyThreshold (zlen (Signatures commit))); [|done].
  destruct (proposer_key_total vals Hne) as (vals' & k & Hkey & Hv & Hk). rewrite Hkey. cbn [mbind outcome_bind fst snd].
  assert (Hext : verifyCommitSingle chainID vals' commit needed ig ct all byIdx =
                 verifyCommitSingle chainID vals commit needed ig ct all byIdx) by (by apply single_ext).
  destruct (SupportsBatchVerifier k && allKeysHaveSameType vals') eqn:Es; [|by rewrite Hext].
  pose proof (batch_chosen_ed _ _ _ Hwf Hp Hkey Es) as Hed.
  apply andb_true_iff in Es as [Es _]. destruct k as [pk|]; [|done].
  apply bool_decide_eq_true in Es. rewrite <-Hext. intros E. eapply batch_accepts; [done..|]. split; [done|].
  apply ed_keys_added; [|exact E]. unfold ed_keys. by rewrite Hv.
Qed.

(** ** Acceptance of a full commit *)

Lemma needed_two_thirds vals :
  wf vals →
  TotalVotingPower vals =
    Done (set_total vals (zsum VotingPower (Validators vals)), zsum VotingPower (Validators vals)) ∧
  0 ≤ Z.quot (wrap64 (zsum VotingPower (Validators vals) * 2)) 3 ∧
  ∀ s, Z.quot (wrap64 (zsum VotingPower (Validators vals) * 2)) 3 < s ↔
       2 * zsum VotingPower (Validators vals) < 3 * s.
Proof.
  intros (Hwf & _ & Hc & _). split; [by apply TotalVotingPower_spec|].
  set (T := zsum VotingPower (Validators vals)).
  assert (0 ≤ T ≤ MaxTotalVotingPower) as HT.
  { split; [apply zsum_nonneg; by apply wf_power_nonneg|by destruct Hwf as (_ & _ & ?)]. }
  rewrite max_total_value in HT. rewrite wrap64_id by (unfold_ints; lia).
  rewrite Z.quot_div_nonneg by lia. pose proof (Z.div_mod (T * 2) 3 ltac:(lia)).
  pose proof (Z.mod_pos_bound (T * 2) 3 ltac:(lia)). split; [lia|]. intros s. lia.
Qed.

Lemma verifyBasic_None vals commit height blockID :
  verifyBasicValsAndCommit (Some vals) (Some commit) height blockID = None ↔
  length (Signatures commit) = length (Validators vals) ∧ cHeight commit = height ∧ cBlockID commit = blockID.
Proof.
  unfold verifyBasicValsAndCommit, Size, zlen.
  destruct (Z.eqb_spec (Z.of_nat (length (Validators vals))) (Z.of_nat (length (Signatures commit))));
    cbn [negb]; [|naive_solver lia].
  destruct (Z.eqb_spec height (cHeight commit)); cbn [negb]; [|naive_solver lia].
  destruct (Equals blockID (cBlockID commit)) eqn:E; cbn [negb].
  - apply Equals_spec in E. naive_solver lia.
  - split; [done|]. intros (_ & _ & Hb). rewrite (proj2 (Equals_spec _ _) (eq_sym Hb)) in E. done.
Qed.

Lemma basic_ok_all ig sigs : Forall (λ cs, cs_ValidateBasic cs = None) sigs → basic_ok ig sigs.
Proof. intros Hf. eapply Forall_impl; [exact Hf|]. naive_solver. Qed.

Lemma positive_powers vals : wf vals → ∀ val, val ∈ Validators vals → 0 < VotingPower val.
Proof. intros [Hwf _]. apply Forall_forall. by apply wf_list_positive. Qed.

Lemma VerifyCommit_spec chainID vals blockID height commit :
  wf vals → proposer_known vals → Validators vals ≠ [] → Forall (λ cs, cs_ValidateBasic cs = None) (Signatures commit) →
  VerifyCommit chainID (Some vals) blockID height (Some commit) = Done None ↔
  length (Signatures commit) = length (Validators vals) ∧
  cHeight commit = height ∧ cBlockID commit = blockID ∧
  (∀ m cs val, Signatures commit !! m = Some cs → Validators vals !! m = Some val →
     is_absent cs = false → sig_ok chainID commit m cs val = true) ∧
  2 * zsum VotingPower (Validators vals) <
    3 * commit_power is_commit (Signatures commit) (Validators vals).
Proof.
  intros Hwf Hknown Hne Hbasic. destruct (needed_two_thirds vals Hwf) as (Htvp & Hn0 & Hn).
  set (needed := Z.quot _ 3) in *.
  pose proof (positive_powers vals Hwf) as Hpos. unfold VerifyCommit.
  destruct (verifyBasicValsAndCommit _ _ _ _) eqn:Eb.
  { split; [done|]. intros (? & ? & ? & _). assert (None = Some v); [|done].
    rewrite <-Eb. symmetry. by apply verifyBasic_None. }
  apply verifyBasic_None in Eb as (Hlen & Hh & Hb). rewrite Htvp. cbn [mbind outcome_bind fst snd]. fold needed.
  rewrite either_accepts by (try apply basic_ok_all; try apply wf_set_total; done). unfold verifyCommitSingle.
  rewrite (single_ext _ _ vals) by done.
  assert (Hcount : commit_power (counts is_absent is_commit) (Signatures commit) (Validators vals) =
                   commit_power is_commit (Signatures commit) (Validators vals)).
  { apply zsum_ext. intros [cs val] _. unfold counts, is_absent, is_commit. simpl.
    destruct (Z.eqb_spec (cs_Flag cs) BlockIDFlagCommit) as [->|]; [done|by rewrite andb_false_r]. }
  split.
  - intros E. destruct (single_all_valid chainID vals commit needed is_absent is_commit true true 0 ∅ 0
      (Signatures commit) (Validators vals)) as [Hv Hp]; try done.
    rewrite Hcount in Hp. split_and!; try done; [|by apply Hn].
    intros m cs val. apply Hv. lia.
  - intros (_ & _ & _ & Hv & Hp).
    apply (single_complete chainID vals commit needed is_absent is_commit true true 0 ∅ 0
      (Signatures commit) (Validators vals)); try done.
    + intros m cs val _ Hcs Hval Hi. split; [by eapply Forall_lookup_1 in Hbasic|eauto].
    + pose proof (total_in_int64 _ (proj1 Hwf)). unfold_ints. lia.
    + rewrite Hcount. by apply Hn.
Qed.
(** C15: [VerifyCommit] accepts a well-formed commit exactly when it is for the
    given height and block with one signature slot per validator, every
    signature that is not absent verifies under the key of the validator at its
    index, and the validators that signed the block hold more than two thirds
    of the power.  The set is well formed, non-empty and its cached proposer (if
    any) has a key of a type the set has; keys may be of any types: the batch
    routine is only entered when all are ed25519 keys, and accepts then what the
    single one does. *)
Theorem VerifyCommit_iff chainID vals blockID height commit :
  wf vals → proposer_known vals → Validators vals ≠ [] → Forall (λ cs, cs_ValidateBasic cs = None) (Signatures commit) →
  VerifyCommit chainID (Some vals) blockID height (Some commit) = Done None ↔
  length (Signatures commit) = length (Validators vals) ∧
  cHeight commit = height ∧ cBlockID commit = blockID ∧
  (∀ m cs val, Signatures commit !! m = Some cs → Validators vals !! m = Some val →
     is_absent cs = false → sig_ok chainID commit m cs val = true) ∧
  2 * zsum VotingPower (Validators vals) <
    3 * commit_power is_commit (Signatures commit) (Validators vals).
Proof. apply VerifyCommit_spec. Qed.

(** What an accepted light commit proves: distinct validators of the set, each
    with a valid signature for the commit's block. *)
Definition signed_by (chainID : string) (vals : ValidatorSet) (commit : Commit) (byIdx : bool)
    (S : list (nat * nat)) : Prop :=
  NoDup S.*1 ∧
  Forall (λ p, ∃ val cs, Validators vals !! p.1 = Some val ∧ Signatures commit !! p.2 = Some cs ∧
            is_commit cs = true ∧ sig_ok chainID commit p.2 cs val = true ∧
            if byIdx then p.1 = p.2 else Address val = cs_Address cs) S.

Lemma light_sound chainID vals commit needed all byIdx :
  wf vals → Validators vals ≠ [] → zlen (Validators vals) ≤ max_int32 →
  0 ≤ needed → Forall (λ cs, cs_ValidateBasic cs = None) (Signatures commit) →
  verify_either chainID vals commit needed not_commit count_all all byIdx = Done None →
  ∃ S, signed_by chainID vals commit byIdx S ∧ needed < zsum (power_at vals) S.*1.
Proof.
  intros Hwf Hne Hmax Hn Hbasic E. apply either_sound in E; [|done..|by apply basic_ok_all].
  destruct (single_sound chainID vals commit needed not_commit count_all all byIdx 0 ∅ 0 (Signatures commit))
    as (S & HS & Hf & Hlt); try done; [by apply positive_powers|].
  exists S. split; [|lia]. split; [done|]. eapply Forall_impl; [exact Hf|].
  intros p (_ & val & cs & ? & ? & Hig & _ & ? & Hr). exists val, cs. split_and!; try done.
  - unfold not_commit in Hig. by destruct (is_commit cs).
  - by destruct byIdx; [|destruct Hr].
Qed.

Lemma commit_light_sound chainID vals blockID height commit all :
  wf vals → Validators vals ≠ [] → zlen (Validators vals) ≤ max_int32 →
  Forall (λ cs, cs_ValidateBasic cs = None) (Signatures commit) →
  verifyCommitLightInternal chainID (Some vals) blockID height (Some commit) all = Done None →
  cHeight commit = height ∧ cBlockID commit = blockID ∧
  ∃ S, signed_by chainID vals commit true S ∧
       2 * zsum VotingPower (Validators vals) < 3 * zsum (power_at vals) S.*1.
Proof.
  intros Hwf Hne Hmax Hbasic. destruct (needed_two_thirds vals Hwf) as (Htvp & Hn0 & Hn).
  unfold verifyCommitLightInternal. destruct (verifyBasicValsAndCommit _ _ _ _) eqn:Eb; [done|].
  apply verifyBasic_None in Eb as (Hlen & Hh & Hb). rewrite Htvp. cbn [mbind outcome_bind fst snd].
  intros E. split_and!; [done..|]. apply light_sound in E as (S & HS & Hlt); try done.
  - exists S. split; [done|]. by apply Hn.
  - by apply wf_set_total.
Qed.

(** a commit accepted by [VerifyCommitLight] (with or without the early exit)
    is for the given height and block, and distinct validators that hold more
    than two thirds of the power signed that block. *)
Theorem VerifyCommitLight_sound chainID vals blockID height commit all :
  wf vals → Validators vals ≠ [] → zlen (Validators vals) ≤ max_int32 →
  Forall (λ cs, cs_ValidateBasic cs = None) (Signatures commit) →
  verifyCommitLightInternal chainID (Some vals) blockID height (Some commit) all = Done None →
  cHeight commit = height ∧ cBlockID commit = blockID ∧
  ∃ S, signed_by chainID vals commit true S ∧
       2 * zsum VotingPower (Validators vals) < 3 * zsum (power_at vals) S.*1.
Proof. apply commit_light_sound. Qed.

Lemma commit_trusting_sound chainID vals commit trust all :
  wf vals → Validators vals ≠ [] → zlen (Validators vals) ≤ max_int32 →
  0 ≤ Numerator trust ≤ max_int64 → 0 < Denominator trust ≤ max_int64 →
  Forall (λ cs, cs_ValidateBasic cs = None) (Signatures commit) →
  verifyCommitLightTrustingInternal chainID (Some vals) (Some commit) trust all = Done None →
  ∃ S, signed_by chainID vals commit false S ∧
       Numerator trust * zsum VotingPower (Validators vals) <
         Denominator trust * zsum (power_at vals) S.*1.
Proof.
  intros Hwf Hne Hmax Hnum Hden Hbasic. destruct (needed_two_thirds vals Hwf) as (Htvp & _ & _).
  unfold verifyCommitLightTrustingInternal. destruct (Z.eqb_spec (Denominator trust) 0); [done|].
  rewrite Htvp. cbn [mbind outcome_bind fst snd]. set (T := zsum VotingPower (Validators vals)) in *.
  assert (HT : 0 ≤ T ≤ max_int64).
  { split; [apply zsum_nonneg; apply wf_power_nonneg, Hwf|]. apply (total_in_int64 _ (proj1 Hwf)). }
  unfold to_int64. rewrite !wrap64_id by (unfold_ints; lia).
  rewrite safeMul_spec by (unfold_ints; lia). case_bool_decide as Hfit; [|done].
  rewrite Z.abs_eq in Hfit by lia. rewrite Z.abs_eq in Hfit by lia.
  unfold div64. destruct (Z.eqb_spec (Denominator trust) 0); [done|]. cbn [mbind outcome_bind].
  rewrite Z.quot_div_nonneg by nia.
  pose proof (Z.div_mod (T * Numerator trust) (Denominator trust) ltac:(lia)).
  pose proof (Z.mod_pos_bound (T * Numerator trust) (Denominator trust) ltac:(lia)).
  assert (0 ≤ (T * Numerator trust) `div` Denominator trust) by (apply Z.div_pos; nia).
  rewrite wrap64_id by (unfold_ints; nia). intros E.
  apply light_sound in E as (S & HS & Hlt); try done; [|by apply wf_set_total].
  exists S. split; [done|]. change (zsum (power_at (set_total vals T)) S.*1) with (zsum (power_at vals) S.*1) in Hlt.
  nia.
Qed.

(** a commit accepted by [VerifyCommitLightTrusting] at a trust level [n/d]
    carries valid signatures for its block from distinct members of the trusted
    set that hold more than that fraction of the set's power, found by address
    and each counted once, whatever order and duplicates the commit has; and
    the computation of the needed power does not overflow. *)
Theorem VerifyCommitLightTrusting_sound chainID vals commit trust all :
  wf vals → Validators vals ≠ [] → zlen (Validators vals) ≤ max_int32 →
  0 ≤ Numerator trust ≤ max_int64 → 0 < Denominator trust ≤ max_int64 →
  Forall (λ cs, cs_ValidateBasic cs = None) (Signatures commit) →
  verifyCommitLightTrustingInternal chainID (Some vals) (Some commit) trust all = Done None →
  ∃ S, signed_by chainID vals commit false S ∧
       Numerator trust * zsum VotingPower (Validators vals) <
         Denominator trust * zsum (power_at vals) S.*1.
Proof. apply commit_trusting_sound. Qed.

(** ** The addresses of a commit *)

(** The same commit up to the validator addresses of its signatures. *)
Definition same_but_address (c c' : CommitSig) : Prop :=
  cs_Flag c' = cs_Flag c ∧ cs_Timestamp c' = cs_Timestamp c ∧ cs_Signature c' = cs_Signature c.

Definition relabelled (commit commit' : Commit) : Prop :=
  cHeight commit' = cHeight commit ∧ cRound commit' = cRound commit ∧
  cBlockID commit' = cBlockID commit ∧
  Forall2 same_but_address (Signatures commit) (Signatures commit').

#[export] Instance relabelled_dec commit commit' : Decision (relabelled commit commit').
Proof. unfold relabelled, same_but_address. apply _. Defined.

Lemma relabelled_sym c c' : relabelled c c' → relabelled c' c.
Proof.
  intros (Hh & Hr & Hb & Hs). split_and!; [congruence..|]. apply Forall2_flip.
  eapply Forall2_impl; [exact Hs|]. intros x y (? & ? & ?). by split_and!.
Qed.

Lemma relabelled_sign_bytes chainID c c' i :
  relabelled c c' → commit_VoteSignBytes c' chainID i = commit_VoteSignBytes c chainID i.
Proof.
  intros (Hh & Hr & Hb & Hs). unfold commit_VoteSignBytes, GetVote, idx. rewrite Hh, Hr, Hb.
  destruct (0 <=? i); [|done].
  pose proof (proj1 (Forall2_lookup _ _ _) Hs (Z.to_nat i)) as Hi.
  destruct Hi as [x y (Hf & Ht & Hsg)|]; [|done].
  cbn [mbind outcome_bind]. unfold cs_BlockID. rewrite Hf, Ht.
  by repeat case_match.
Qed.

Lemma relabelled_accepts chainID vals blockID height c c' :
  wf vals → proposer_known vals → Validators vals ≠ [] → relabelled c c' →
  Forall (λ cs, cs_ValidateBasic cs = None) (Signatures c) →
  Forall (λ cs, cs_ValidateBasic cs = None) (Signatures c') →
  VerifyCommit chainID (Some vals) blockID height (Some c) = Done None →
  VerifyCommit chainID (Some vals) blockID height (Some c') = Done None.
Proof.
  intros Hwf Hknown Hne Hrel Hok Hok'. pose proof (λ i, relabelled_sign_bytes chainID c c' i Hrel) as Hbz.
  rewrite !VerifyCommit_spec by done. destruct Hrel as (Hh & Hr & Hb & Hs).
  intros (Hlen & Hh' & Hb' & Hsig & Hpow). split_and!; [|congruence..| |].
  - rewrite <-Hlen. symmetry. by eapply Forall2_length.
  - intros m cs val Hcs Hval Habs. destruct (Forall2_lookup_r _ _ _ _ _ Hs Hcs) as (x & Hx & Hf & Ht & Hsg).
    specialize (Hsig m x val Hx Hval). unfold is_absent in *. rewrite <-Hf in Hsig.
    specialize (Hsig Habs). unfold sig_ok in *. by rewrite Hbz, Hsg.
  - assert (commit_power is_commit (Signatures c') (Validators vals) =
            commit_power is_commit (Signatures c) (Validators vals)) as ->; [|done].
    clear -Hs. unfold commit_power. revert vals. intros vals. generalize (Validators vals). clear vals.
    induction Hs as [|x y l l' (Hf & _) _ IH]; intros [|v vl]; try done.
    cbn [zip zip_with zsum fst snd]. unfold is_commit at 1 3. rewrite Hf. f_equal. apply IH.
Qed.

(** nothing binds the validator address of a commit signature to the
    validator that signed: [VerifyCommit] accepts a commit exactly when it
    accepts every well-formed relabelling of it, although [MedianTime] looks the
    signers up by that address. *)
Theorem VerifyCommit_addresses_unbound chainID vals blockID height c c' :
  wf vals → proposer_known vals → Validators vals ≠ [] → relabelled c c' →
  Forall (λ cs, cs_ValidateBasic cs = None) (Signatures c) →
  Forall (λ cs, cs_ValidateBasic cs = None) (Signatures c') →
  VerifyCommit chainID (Some vals) blockID height (Some c) = Done None ↔
  VerifyCommit chainID (Some vals) blockID height (Some c') = Done None.
Proof.
  intros Hwf Hknown Hne Hrel Hok Hok'. split; apply relabelled_accepts; try done. by apply relabelled_sym.
Qed.


End entry_points.

(** ** Concrete commits *)

(** A batch verifier that refuses empty signatures and checks each entry. *)
Definition toy_batch : @BatchOps toy_keys := {|
  bv_Add_refuses pk msg sig := match pk with None => true | Some _ => bool_decide (sig = []) end;
  bv_Verify l := (forallb (@entry_ok toy_keys) l, @entry_ok toy_keys <$> l)
|}.

Lemma toy_batch_laws : @BatchLaws toy_keys toy_batch.
Proof. split; simpl; [|done..]. intros pk msg sig _ Hs. apply bool_decide_eq_true in Hs as ->. done. Qed.

Section examples.
#[local] Existing Instance toy_keys.
#[local] Existing Instance toy_codec.
#[local] Existing Instance toy_batch.
#[local] Existing Instance toy_batch_laws.

(** The signature of validator [k] in a commit for [b], labelled [addr]. *)
Definition ex_commit_sig (k t : Z) (b : BlockID) (addr : list Z) : CommitSig :=
  let v := {| Type_ := PrecommitType; Height := 5; Round := 0; vBlockID := b; Timestamp := t;
              ValidatorAddress := addr; ValidatorIndex := k - 1; Signature := [];
              Extension := []; ExtensionSignature := [] |} in
  match VoteSignBytes "chain" v with
  | Done bz => {| cs_Flag := BlockIDFlagCommit; cs_Address := addr; cs_Timestamp := t;
                  cs_Signature := k :: bz |}
  | Panic _ => NewCommitSigAbsent
  end.

(** Validators 1, 2 and 3 sign on days 3, 4 and 5; [addrs] are the labels. *)
Definition ex_commit (addrs : list (list Z)) : Commit :=
  {| cHeight := 5; cRound := 0; cBlockID := ex_block 1;
     Signatures := zip_with (λ k addr, ex_commit_sig k (day (k + 2)) (ex_block 1) addr) [1; 2; 3] addrs
                   ++ [NewCommitSigAbsent] |}.

Definition honest_labels : list (list Z) := toy_address <$> [1; 2; 3].
(** Only the last signature keeps a label the validator set knows. *)
Definition forged_labels : list (list Z) := toy_address <$> [77; 78; 3].

Lemma VerifyCommit_iff_witness :
  VerifyCommit "chain" (Some ex_vals) (ex_block 1) 5 (Some (ex_commit honest_labels)) = Done None ∧
  2 * zsum VotingPower (Validators ex_vals) <
    3 * commit_power is_commit (Signatures (ex_commit honest_labels)) (Validators ex_vals).
Proof.
  assert (E : VerifyCommit "chain" (Some ex_vals) (ex_block 1) 5 (Some (ex_commit honest_labels)) = Done None)
    by (vm_compute; reflexivity).
  split; [exact E|].
  refine (proj2 (proj2 (proj2 (proj2 (proj1 (VerifyCommit_iff "chain" ex_vals (ex_block 1) 5
    (ex_commit honest_labels) _ _ _ _) E))))); by_decide.
Defined.

Lemma VerifyCommitLight_sound_witness :
  ∃ S, signed_by "chain" ex_vals (ex_commit honest_labels) true S ∧
       2 * zsum VotingPower (Validators ex_vals) < 3 * zsum (power_at ex_vals) S.*1.
Proof.
  refine (proj2 (proj2 (VerifyCommitLight_sound "chain" ex_vals (ex_block 1) 5
    (ex_commit honest_labels) false _ _ _ _ _))); [by_decide..|vm_compute; reflexivity].
Defined.

Lemma VerifyCommitLightTrusting_sound_witness :
  ∃ S, signed_by "chain" ex_vals (ex_commit honest_labels) false S ∧
       1 * zsum VotingPower (Validators ex_vals) < 3 * zsum (power_at ex_vals) S.*1.
Proof.
  refine (VerifyCommitLightTrusting_sound "chain" ex_vals (ex_commit honest_labels)
    {| Numerator := 1; Denominator := 3 |} true _ _ _ _ _ _ _); [by_decide..|vm_compute; reflexivity].
Defined.

(** The forged commit is accepted as well, and its median is the time of the one
    signer it still names instead of the middle one. *)
Lemma VerifyCommit_addresses_unbound_witness :
  VerifyCommit "chain" (Some ex_vals) (ex_block 1) 5 (Some (ex_commit forged_labels)) = Done None ∧
  MedianTime (ex_commit honest_labels) ex_vals = day 3 ∧
  MedianTime (ex_commit forged_labels) ex_vals = day 5.
Proof.
  split_and!; [|vm_compute; reflexivity..].
  refine (proj1 (VerifyCommit_addresses_unbound "chain" ex_vals (ex_block 1) 5
    (ex_commit honest_labels) (ex_commit forged_labels) _ _ _ _ _ _) _); [by_decide..|vm_compute; reflexivity].
Defined.

End examples.

End Validation.
