(* ===== verification/CommitFlow.v ===== *)
(** * CommitFlow: from a tally of precommits to a commit that verifies

    [VoteSet.MakeExtendedCommit] and [ExtendedCommit.ToCommit] produce the commit
    a block carries; [VerifyCommit] is what every other node runs on it.  This
    file connects the two components. *)

From S2P Require Import Prelude BitArray Crypto ValidatorSet Votes Commit VoteSet Validation.

Local Open Scope Z_scope.

Module CommitFlow.
Import Votes ValidatorSet Commit VoteSet Validation.

Section flow.
Context `{PubKeyOps, SignCodec, !BatchOps, !BatchLaws}.

(** The signature [MakeExtendedCommit] stores for a slot. *)
Definition slot_sig (maj : BlockID) (o : option Vote) : ExtendedCommitSig :=
  match o with
  | None => NewExtendedCommitSigAbsent
  | Some v =>
      let sig flag := {| ecs_CommitSig := {| cs_Flag := flag; cs_Address := ValidatorAddress v;
                           cs_Timestamp := Timestamp v; cs_Signature := Signature v |};
                         ecs_Extension := Extension v; ecs_ExtensionSignature := ExtensionSignature v |} in
      if IsComplete (vBlockID v) then
        if Equals (vBlockID v) maj then sig BlockIDFlagCommit else NewExtendedCommitSigAbsent
      else sig BlockIDFlagNil
  end.

(** What the reactors guarantee of the votes they pass on. *)
Definition well_formed_vote (v : Vote) : Prop :=
  vote_ValidateBasic v = None ∧ psh_Total (PSH (vBlockID v)) < 2 ^ 32.

#[export] Instance well_formed_vote_dec v : Decision (well_formed_vote v).
Proof. unfold well_formed_vote. apply _. Defined.

(** The parts of [Vote.ValidateBasic] the commit depends on. *)
Lemma ValidateBasic_parts v :
  vote_ValidateBasic v = None →
  (IsNil (vBlockID v) = true ∨ IsComplete (vBlockID v) = true) ∧
  zlen (ValidatorAddress v) = AddressSize ∧ 0 < zlen (Signature v) ≤ MaxSignatureSize ∧
  (IsNil (vBlockID v) = true → zlen (Extension v) = 0 ∧ zlen (ExtensionSignature v) = 0).
Proof.
  pose proof (zlen_nonneg (Signature v)). pose proof (zlen_nonneg (Extension v)).
  pose proof (zlen_nonneg (ExtensionSignature v)).
  unfold vote_ValidateBasic. intros E.
  destruct (negb (IsVoteTypeValid _)); [done|]. destruct (_ <=? 0); [done|].
  destruct (Round v <? 0); [done|]. destruct (negb (block_ValidateBasic _)); [done|].
  destruct (IsNil (vBlockID v)) eqn:En; cbn [negb andb orb] in E.
  - destruct (Z.eqb_spec (zlen (ValidatorAddress v)) AddressSize); [|done]. cbn [negb] in E.
    destruct (ValidatorIndex v <? 0); [done|]. destruct (Z.eqb_spec (zlen (Signature v)) 0); [done|].
    destruct (Z.ltb_spec MaxSignatureSize (zlen (Signature v))); [done|].
    rewrite orb_true_r in E. cbn [andb] in E.
    destruct (Z.ltb_spec 0 (zlen (Extension v))); [done|].
    destruct (Z.ltb_spec 0 (zlen (ExtensionSignature v))); [done|].
    split_and!; auto; lia.
  - destruct (IsComplete (vBlockID v)) eqn:Ec; [|done]. cbn [negb] in E.
    destruct (Z.eqb_spec (zlen (ValidatorAddress v)) AddressSize); [|done]. cbn [negb] in E.
    destruct (ValidatorIndex v <? 0); [done|]. destruct (Z.eqb_spec (zlen (Signature v)) 0); [done|].
    destruct (Z.ltb_spec MaxSignatureSize (zlen (Signature v))); [done|].
    split_and!; auto; try done; lia.
Qed.

Lemma nil_not_complete b : IsNil b = true → IsComplete b = false.
Proof. intros Hn. by rewrite (nil_key b Hn). Qed.

Lemma commit_sigs_spec maj l :
  (∀ v, Some v ∈ l → vote_ValidateBasic v = None) →
  commit_sigs maj l = Done (slot_sig maj <$> l).
Proof.
  induction l as [|o l IH]; intros Hl; [done|]. cbn [commit_sigs fmap list_fmap].
  rewrite (IH ltac:(set_solver)). destruct o as [v|]; [|done].
  destruct (ValidateBasic_parts v (Hl v ltac:(set_solver))) as (Hb & _).
  unfold vote_ExtendedCommitSig, vote_CommitSig, slot_sig.
  destruct (IsComplete (vBlockID v)) eqn:Ec.
  - cbn. by destruct (Equals (vBlockID v) maj).
  - destruct Hb as [->|]; [done|congruence].
Qed.

Lemma slot_sig_basic maj v :
  vote_ValidateBasic v = None → cs_ValidateBasic (ecs_CommitSig (slot_sig maj (Some v))) = None.
Proof.
  intros (Hb & Ha & Hs & _)%ValidateBasic_parts.
  assert (Hgo : ∀ f, f = BlockIDFlagCommit ∨ f = BlockIDFlagNil →
    cs_ValidateBasic {| cs_Flag := f; cs_Address := ValidatorAddress v;
                        cs_Timestamp := Timestamp v; cs_Signature := Signature v |} = None).
  { intros f Hf. unfold cs_ValidateBasic. cbn [cs_Flag cs_Address cs_Signature]. rewrite Ha.
    destruct Hf as [->| ->]; cbn;
      (destruct (Z.eqb_spec (zlen (Signature v)) 0); [lia|];
       destruct (Z.ltb_spec MaxSignatureSize (zlen (Signature v))); [lia|done]). }
  unfold slot_sig. destruct (IsComplete _); [destruct (Equals _ _)|]; cbn [ecs_CommitSig]; auto.
Qed.
(** What the signature check of [addVote] established. *)
Lemma check_signature_facts vs v key :
  check_signature vs v key = Done None →
  (∃ pk bz, key = Some pk ∧ VoteSignBytes (chainID vs) v = Done bz ∧
            VerifySignature pk bz (Signature v) = true) ∧
  (if extensionsEnabled vs
   then Type_ v = PrecommitType → IsNil (vBlockID v) = false → zlen (ExtensionSignature v) ≠ 0
   else zlen (Extension v) = 0 ∧ zlen (ExtensionSignature v) = 0).
Proof.
  assert (Hv : ∀ err, verifyAndReturnProto v (chainID vs) key = Done err → err = None →
    ∃ pk bz, key = Some pk ∧ VoteSignBytes (chainID vs) v = Done bz ∧ VerifySignature pk bz (Signature v) = true).
  { unfold verifyAndReturnProto. intros err E ->. destruct key as [pk|]; [|done].
    destruct (negb _); [done|]. apply outcome_bind_Done in E as (bz & Hbz & E).
    destruct (VerifySignature pk bz (Signature v)) eqn:?; [|done]. eauto. }
  pose proof (zlen_nonneg (Extension v)). pose proof (zlen_nonneg (ExtensionSignature v)).
  unfold check_signature, VerifyVoteAndExtension, Verify. destruct (extensionsEnabled vs); intros E.
  - apply outcome_bind_Done in E as (err & Herr & E). destruct err; [done|]. split; [eauto|].
    intros Ht Hn. rewrite Ht, Hn in E. cbn in E. by destruct (Z.eqb_spec (zlen (ExtensionSignature v)) 0).
  - apply outcome_bind_Done in E as (err & Herr & E). destruct err; [done|]. split; [eauto|].
    destruct (Z.ltb_spec 0 (zlen (ExtensionSignature v))), (Z.ltb_spec 0 (zlen (Extension v))); try done. lia.
Qed.

Lemma slot_sig_extension vs i v maj :
  accepted vs i v → vote_ValidateBasic v = None → signedMsgType vs = PrecommitType →
  ecs_EnsureExtension (slot_sig maj (Some v)) (extensionsEnabled vs) = None.
Proof.
  intros (_ & _ & _ & Ht & _ & val & _ & _ & Hc) (Hb & _ & _ & Hn)%ValidateBasic_parts Hp.
  apply check_signature_facts in Hc as [_ Hext]. unfold slot_sig, ecs_EnsureExtension.
  destruct (extensionsEnabled vs).
  - destruct (IsComplete (vBlockID v)) eqn:Ec.
    + destruct (Equals _ _); [|done]. cbn.
      destruct (Z.eqb_spec (zlen (ExtensionSignature v)) 0); [|done].
      destruct Hext; [congruence| |done]. destruct (IsNil _) eqn:En; [|done].
      apply nil_not_complete in En. congruence.
    + destruct Hb as [Hb|]; [|congruence]. cbn. destruct (Hn Hb) as [-> ->]. done.
  - destruct Hext as [He1 He2].
    destruct (IsComplete _); [destruct (Equals _ _)|]; cbn; rewrite ?He1, ?He2; done.
Qed.

Lemma first_error_None {A} (f : A → option string) l :
  (∀ x, x ∈ l → f x = None) → first_error f l = None.
Proof. induction l as [|x l IH]; intros Hl; simpl; [done|]. rewrite Hl, IH; set_solver. Qed.

(** The bytes the commit reconstructs for a slot are those the vote signed. *)
Lemma slot_sign_bytes vs maj c m v :
  signedMsgType vs = PrecommitType → votes vs !! m = Some (Some v) → accepted vs m v →
  vote_ValidateBasic v = None → Z.of_nat m ≤ max_int32 →
  c = ToCommit {| ecHeight := height vs; ecRound := round vs; ecBlockID := maj;
                  ExtendedSignatures := slot_sig maj <$> votes vs |} →
  is_absent (ecs_CommitSig (slot_sig maj (Some v))) = false →
  commit_VoteSignBytes c (chainID vs) (wrap32 (Z.of_nat m)) = VoteSignBytes (chainID vs) v ∧
  cs_Signature (ecs_CommitSig (slot_sig maj (Some v))) = Signature v.
Proof.
  intros Hp Hm (_ & Hh & Hr & Ht & _) (Hb & _)%ValidateBasic_parts Hmax -> Habs.
  assert (wrap32 (Z.of_nat m) = Z.of_nat m) as ->.
  { unfold wrap32, max_int32 in *. rewrite Z.mod_small; lia. }
  assert (Hl : Signatures (ToCommit {| ecHeight := height vs; ecRound := round vs; ecBlockID := maj;
      ExtendedSignatures := slot_sig maj <$> votes vs |}) !! m = Some (ecs_CommitSig (slot_sig maj (Some v)))).
  { simpl. by rewrite !list_lookup_fmap, Hm. }
  unfold commit_VoteSignBytes, GetVote. rewrite (idx_nat _ _ _ Hl). cbn [mbind outcome_bind].
  unfold slot_sig in *. destruct (IsComplete (vBlockID v)) eqn:Ec.
  - destruct (Equals (vBlockID v) maj) eqn:Ee; [|done]. apply Equals_spec in Ee as <-.
    cbn. unfold VoteSignBytes, CanonicalizeVote. cbn. by rewrite Hh, Hr, Ht, Hp.
  - destruct Hb as [Hb|]; [|congruence]. apply nil_key in Hb.
    cbn. unfold VoteSignBytes, CanonicalizeVote. cbn. by rewrite Hh, Hr, Ht, Hp, Hb.
Qed.

Lemma slot_power_commit maj (l : list (option Vote)) vals :
  IsComplete maj = true → (∀ val, val ∈ vals → 0 ≤ VotingPower val) →
  (∀ v, Some v ∈ l → vkey v = Key maj → vBlockID v = maj) →
  power_of (for_key (Key maj)) l vals ≤
  commit_power is_commit (ecs_CommitSig <$> (slot_sig maj <$> l)) vals.
Proof.
  intros Hc. unfold power_of, commit_power. revert vals.
  induction l as [|o l IH]; intros [|val vals] Hpos Hk; try done.
  cbn [fmap list_fmap zip zip_with zsum fst snd].
  specialize (IH vals ltac:(set_solver) ltac:(set_solver)). pose proof (Hpos val ltac:(set_solver)).
  assert (slot_power (for_key (Key maj)) (o, val) ≤
          (if is_commit (ecs_CommitSig (slot_sig maj o)) then VotingPower val else 0)); [|lia].
  unfold slot_power. cbn [fst snd]. destruct o as [v|]; [|done].
  unfold for_key. case_bool_decide as Hv; [|by case_match].
  apply Hk in Hv; [|set_solver]. unfold slot_sig. rewrite Hv, Hc, (proj2 (Equals_spec maj maj)) by done.
  done.
Qed.

(** The extended commit made of a vote set with majority [maj]. *)
Definition made_commit (vs : VoteSet) (maj : BlockID) : ExtendedCommit :=
  {| ecHeight := height vs; ecRound := round vs; ecBlockID := maj;
     ExtendedSignatures := slot_sig maj <$> votes vs |}.

Lemma MakeExtendedCommit_returns vs b enableHeight :
  inv vs → signedMsgType vs = PrecommitType → maj23 vs = Some b →
  (∀ v, Some v ∈ votes vs → vote_ValidateBasic v = None) →
  featureEnabled enableHeight (height vs) = Done (extensionsEnabled vs) →
  MakeExtendedCommit vs enableHeight = Done (made_commit vs b).
Proof.
  intros Hinv Hp Hm Hbasic Hfeat. unfold MakeExtendedCommit. rewrite Hp, Hm, commit_sigs_spec by done.
  change (PrecommitType =? PrecommitType) with true. cbn [negb mbind outcome_bind GetHeight GetRound].
  fold (made_commit vs b). change (ecHeight (made_commit vs b)) with (height vs).
  rewrite Hfeat. cbn [mbind outcome_bind].
  unfold EnsureExtensions. rewrite first_error_None; [done|].
  intros x (o & -> & Ho)%list_elem_of_fmap. destruct o as [v|]; [|by destruct (extensionsEnabled vs)].
  apply list_elem_of_lookup in Ho as [m Ho']. eapply slot_sig_extension; eauto.
  - by apply (inv_accepted _ _ (proj1 Hinv)).
  - apply Hbasic. by eapply list_elem_of_lookup_2.
Qed.

Lemma made_commit_signatures vs b m cs val :
  inv vs → signedMsgType vs = PrecommitType → zlen (vals_of vs) ≤ max_int32 →
  (∀ v, Some v ∈ votes vs → vote_ValidateBasic v = None) →
  Signatures (ToCommit (made_commit vs b)) !! m = Some cs → vals_of vs !! m = Some val →
  is_absent cs = false → sig_ok (chainID vs) (ToCommit (made_commit vs b)) m cs val = true.
Proof.
  intros Hinv Hp Hmax Hbasic Hcs Hval Habs. simpl in Hcs. rewrite !list_lookup_fmap in Hcs.
  destruct (votes vs !! m) as [o|] eqn:Eo; [|done]. simpl in Hcs. injection Hcs as <-.
  destruct o as [v|]; [|done]. pose proof (inv_accepted _ _ (proj1 Hinv) m v Eo) as Ha.
  pose proof (lookup_lt_Some _ _ _ Hval) as Hlt.
  destruct (slot_sign_bytes vs b (ToCommit (made_commit vs b)) m v) as [Hbz Hsg]; try done.
  { apply Hbasic. by eapply list_elem_of_lookup_2. }
  { unfold zlen in Hmax. lia. }
  destruct Ha as (_ & _ & _ & _ & _ & val' & Hval' & _ & Hchk). assert (val' = val) as -> by congruence.
  apply check_signature_facts in Hchk as [(pk & bz & Hpk & Hbz' & Hver) _].
  unfold sig_ok. by rewrite Hpk, Hbz, Hbz', Hsg.
Qed.

(** C24: when a tally of well-formed precommits reaches a majority for a block,
    [MakeExtendedCommit] returns (no panic) an extended commit for that block
    whose [ToCommit] passes [VerifyCommit] against the same validator set, by
    either routine: keys may be of any types, as long as the cached proposer (if
    any) has a key of a type the set has. *)
Theorem MakeExtendedCommit_verifies vs b enableHeight :
  reachable vs → proposer_known (valSet vs) → signedMsgType vs = PrecommitType → zlen (vals_of vs) ≤ max_int32 →
  (∀ v, Some v ∈ votes vs → well_formed_vote v) →
  featureEnabled enableHeight (height vs) = Done (extensionsEnabled vs) →
  TwoThirdsMajority (Some vs) = (b, true) →
  IsComplete b = true → psh_Total (PSH b) < 2 ^ 32 →
  ∃ ec, MakeExtendedCommit vs enableHeight = Done ec ∧ ecBlockID ec = b ∧
    ecHeight ec = height vs ∧ ecRound ec = round vs ∧
    VerifyCommit (chainID vs) (Some (valSet vs)) b (height vs) (Some (ToCommit ec)) = Done None.
Proof.
  intros Hr Hknown Hp Hmax Hwv Hfeat Hmaj Hc Htot. pose proof (reachable_inv vs Hr) as Hinv.
  assert (Hm : maj23 vs = Some b).
  { unfold TwoThirdsMajority in Hmaj. destruct (maj23 vs); naive_solver. }
  assert (Hbasic : ∀ v, Some v ∈ votes vs → vote_ValidateBasic v = None) by (intros v Hv; apply (Hwv v Hv)).
  exists (made_commit vs b). split_and!; try done; [by apply MakeExtendedCommit_returns|].
  pose proof (inv_votes _ _ (proj1 Hinv)) as (Hlen & _ & _).
  rewrite VerifyCommit_spec;
    [|by apply reachable_sorted|done|apply (inv_nonempty _ _ (proj1 Hinv))|].
  2: { apply Forall_forall. intros cs (x & -> & (o & -> & Ho)%list_elem_of_fmap)%list_elem_of_fmap.
       destruct o as [v|]; [|done]. apply slot_sig_basic. auto. }
  change (Validators (valSet vs)) with (vals_of vs). split_and!; try done.
  - simpl. by rewrite !length_fmap.
  - intros m cs val. by apply made_commit_signatures.
  - pose proof (maj_power vs b Hinv Hm) as Hpow. unfold total in Hpow.
    pose proof (slot_power_commit b (votes vs) (vals_of vs) Hc
      (wf_power_nonneg _ (inv_vals _ _ (proj1 Hinv)))) as Hle.
    assert (Hk : ∀ v, Some v ∈ votes vs → vkey v = Key b → vBlockID v = b).
    { intros v Hv. destruct (Hwv v Hv) as [Hvb Ht]. apply Key_inj; [|by right].
      apply ValidateBasic_parts in Hvb as ([?|?] & _); [by left|by right]. }
    specialize (Hle Hk). simpl. lia.
Qed.


End flow.

Section examples.
#[local] Existing Instance toy_keys.
#[local] Existing Instance toy_codec.
#[local] Existing Instance toy_batch.
#[local] Existing Instance toy_batch_laws.

Lemma MakeExtendedCommit_verifies_witness :
  ∃ ec, MakeExtendedCommit (ex_after ex_votes_A) 0 = Done ec ∧ ecBlockID ec = ex_A ∧
    ecHeight ec = height (ex_after ex_votes_A) ∧ ecRound ec = round (ex_after ex_votes_A) ∧
    VerifyCommit (chainID (ex_after ex_votes_A)) (Some (valSet (ex_after ex_votes_A))) ex_A
      (height (ex_after ex_votes_A)) (Some (ToCommit ec)) = Done None.
Proof.
  refine (MakeExtendedCommit_verifies (ex_after ex_votes_A) ex_A 0 ex_A_reachable _ _ _ _ _ _ _ _).
  - by_decide.
  - vm_compute. reflexivity.
  - by_decide.
  - intros v Hv. assert (Hall : Forall well_formed_vote (List_ (Some (ex_after ex_votes_A)))) by by_decide.
    rewrite Forall_forall in Hall. apply Hall. apply list_elem_of_omap. by exists (Some v).
  - vm_compute. reflexivity.
  - vm_compute. reflexivity.
  - vm_compute. reflexivity.
  - by_decide.
Defined.

End examples.

End CommitFlow.
