(* ===== verification/Mediation.v ===== *)
(** * Mediation: the data path of the controller mediation
    ([node/controller_mediation.go], [p2p/controller_mediation.go],
    [p2p/peer.go], [config/config.go])

    The node can be run so that every consensus and state-sync message goes
    through an external controller: [Submit] wraps an outbound message and hands
    it to the controller, [serveMessage] takes one back and re-injects it into
    the reactor.  This file models what each step computes; the concurrent
    machinery (queues, workers, shutdown) is [MediationRun].

    Go strings and byte slices are byte lists.  Generated protobuf code, the
    validation of the decoded messages and the JSON and base64 codecs are
    parameters of the definitions that use them. *)

From S2P Require Import Prelude.

Local Open Scope Z_scope.

Module Mediation.

(** ** Messages and routes *)

Definition StateChannel : Z := 32.
Definition DataChannel : Z := 33.
Definition VoteChannel : Z := 34.
Definition VoteSetBitsChannel : Z := 35.
Definition SnapshotChannel : Z := 96.
Definition ChunkChannel : Z := 97.

Definition controllerAdapterVersion : Z := 1.
Definition controllerAdapterHeader : Z := 6.
Definition controllerIDMaxBytes : Z := 128.
Definition IDByteLength : Z := 20.
Definition max_uint32 : Z := 4294967295.

Definition selectedControllerRoutes : list Z :=
  [StateChannel; DataChannel; VoteChannel; VoteSetBitsChannel; SnapshotChannel; ChunkChannel].

(** The dynamic types the type switches distinguish. *)
Inductive msg_kind :=
| KNewRoundStep | KNewValidBlock | KHasVote | KHasProposalBlockPart | KVoteSetMaj23
| KProposal | KProposalPOL | KBlockPart | KVote | KVoteSetBits
| KSnapshotsRequest | KSnapshotsResponse | KChunkRequest | KChunkResponse
| KOther.

#[export] Instance msg_kind_eq_dec : EqDecision msg_kind.
Proof. solve_decision. Defined.

Definition selectedMessageBinding (k : msg_kind) : option (string * Z) :=
  match k with
  | KNewRoundStep => Some ("NewRoundStep", StateChannel)
  | KNewValidBlock => Some ("NewValidBlock", StateChannel)
  | KHasVote => Some ("HasVote", StateChannel)
  | KHasProposalBlockPart => Some ("HasProposalBlockPart", StateChannel)
  | KVoteSetMaj23 => Some ("VoteSetMaj23", StateChannel)
  | KProposal => Some ("Proposal", DataChannel)
  | KProposalPOL => Some ("ProposalPOL", DataChannel)
  | KBlockPart => Some ("BlockPart", DataChannel)
  | KVote => Some ("Vote", VoteChannel)
  | KVoteSetBits => Some ("VoteSetBits", VoteSetBitsChannel)
  | KSnapshotsRequest => Some ("SnapshotsRequest", SnapshotChannel)
  | KSnapshotsResponse => Some ("SnapshotsResponse", SnapshotChannel)
  | KChunkRequest => Some ("ChunkRequest", ChunkChannel)
  | KChunkResponse => Some ("ChunkResponse", ChunkChannel)
  | KOther => None
  end%string.

Definition Selected (k : msg_kind) : bool := bool_decide (is_Some (selectedMessageBinding k)).

Fixpoint selected_scan (routes : list Z) (channelID : Z) : bool :=
  match routes with
  | [] => false
  | selected :: routes => if channelID =? selected then true else selected_scan routes channelID
  end.

Definition SelectedRoute (channelID : Z) : bool := selected_scan selectedControllerRoutes channelID.

Record controllerMessage := mkControllerMessage {
  From : list Z; To : list Z; Data : list Z; Type_ : string; ID : list Z
}.

Definition empty_message : controllerMessage :=
  {| From := []; To := []; Data := []; Type_ := ""; ID := [] |}.

#[export] Instance controllerMessage_eq_dec : EqDecision controllerMessage.
Proof. solve_decision. Defined.

(** ** The adapter payload *)

Record adapterPayload := mkPayload { Version : Z; ChannelID : Z; Wrapped : list Z }.

(** [binary.BigEndian] on four bytes. *)
Definition put_uint32 (v : Z) : list Z :=
  [Z.shiftr v 24 `mod` 256; Z.shiftr v 16 `mod` 256; Z.shiftr v 8 `mod` 256; v `mod` 256].

Definition get_uint32 (b0 b1 b2 b3 : Z) : Z :=
  Z.lor b3 (Z.lor (Z.shiftl b2 8) (Z.lor (Z.shiftl b1 16) (Z.shiftl b0 24))).

Definition encodeAdapterPayload (channelID : Z) (wrapped : list Z) : result string (list Z) :=
  if max_uint32 <? zlen wrapped then Err "native payload length exceeds adapter field"%string
  else Ok ([controllerAdapterVersion; channelID] ++ put_uint32 (zlen wrapped) ++ wrapped).

Definition decodeAdapterPayload (data : list Z) : result string adapterPayload :=
  match data with
  | v :: ch :: b0 :: b1 :: b2 :: b3 :: rest =>
      if negb (v =? controllerAdapterVersion) then Err "unsupported adapter version"%string
      else if negb (get_uint32 b0 b1 b2 b3 =? zlen data - controllerAdapterHeader)
      then Err "adapter payload length mismatch"%string
      else Ok {| Version := v; ChannelID := ch; Wrapped := rest |}
  | _ => Err "adapter payload is truncated"%string
  end.

(** ** Message ids *)

Definition underscore : Z := 95.

(** [%d] of a [uint64]: at most twenty digits. *)
Fixpoint digits (fuel : nat) (n : Z) : list Z :=
  match fuel with
  | O => []
  | S fuel => if n <? 10 then [48 + n] else digits fuel (n / 10) ++ [48 + n `mod` 10]
  end.

Definition format_uint (n : Z) : list Z := digits 20 n.

(** The loop of [strconv.ParseUint(s, 10, 64)]. *)
Fixpoint parse_digits (s : list Z) (n : Z) : option Z :=
  match s with
  | [] => Some n
  | c :: s =>
      if negb ((48 <=? c) && (c <=? 57)) then None
      else if 1844674407370955162 <=? n then None
      else
        let n1 := n * 10 + (c - 48) in
        if max_uint64 <? n1 then None else parse_digits s n1
  end.

Definition ParseUint (s : list Z) : option Z :=
  match s with [] => None | _ => parse_digits s 0 end.

Definition message_id (from to : list Z) (n : Z) : list Z :=
  from ++ [underscore] ++ to ++ [underscore] ++ format_uint n.

(** [nextID] on the counter registry: the new registry and the id. *)
Definition nextID (localID : list Z) (capacity : Z) (counters : gmap (list Z) Z) (destination : list Z)
    : gmap (list Z) Z * result string (list Z) :=
  match counters !! destination with
  | None =>
      if capacity <=? Z.of_nat (size counters) then (counters, Err "counter registry exhausted"%string)
      else (<[destination := 1]> counters, Ok (message_id localID destination 0))
  | Some next =>
      if next =? max_uint64 then (counters, Err "message counter exhausted"%string)
      else (<[destination := wrapu64 (next + 1)]> counters, Ok (message_id localID destination next))
  end.

Definition is_hex (c : Z) : bool :=
  ((48 <=? c) && (c <=? 57)) || ((97 <=? c) && (c <=? 102)) || ((65 <=? c) && (c <=? 70)).

(** [hex.DecodeString] fails on an odd length or a byte that is not a digit. *)
Definition hex_ok (s : list Z) : bool := Z.even (zlen s) && forallb is_hex s.

Definition validateControllerID (value : list Z) : bool :=
  if negb (zlen value =? IDByteLength * 2) then false else hex_ok value.

(** The rest of [s] after [prefix], when it has that prefix. *)
Fixpoint strip_prefix (prefix s : list Z) : option (list Z) :=
  match prefix, s with
  | [], _ => Some s
  | p :: prefix, c :: s => if c =? p then strip_prefix prefix s else None
  | _ :: _, [] => None
  end.

Definition validateControllerMessageID (message : controllerMessage) : option string :=
  if bool_decide (ID message = []) || (controllerIDMaxBytes <? zlen (ID message))
  then Some "message ID is empty or oversized"%string
  else
    match strip_prefix (From message ++ [underscore] ++ To message ++ [underscore]) (ID message) with
    | None => Some "message ID does not match From and To"%string
    | Some counter =>
        if bool_decide (counter = []) then Some "message ID counter is empty"%string
        else match ParseUint counter with
             | None => Some "message ID counter is invalid"%string
             | Some _ => None
             end
    end.

(** ** Decoding a callback body *)

(** A decoded JSON value, as far as unmarshalling into the fields needs it. *)
Inductive json_value := JNull | JString (s : list Z) | JOther.

(** What reading the body gives: the size limit was hit, it is not a single JSON
    object, or the object's members. *)
Inductive body := BodyTooLarge | BodyMalformed | BodyObject (raw : gmap string json_value).

Definition required_fields : list string := ["From"; "To"; "Data"; "Type"; "ID"]%string.

(** Unmarshalling into a string field: null leaves it empty. *)
Definition json_string (v : json_value) : option (list Z) :=
  match v with JNull => Some [] | JString s => Some s | JOther => None end.

Inductive decode_error := ErrBodyTooLarge | ErrBodyMalformed.

Section decode.
Variables (base64_decode : list Z → option (list Z)) (to_label : list Z → string).

Definition json_bytes (v : json_value) : option (list Z) :=
  match v with JNull => Some [] | JString s => base64_decode s | JOther => None end.

Definition decodeControllerMessage (b : body) : result decode_error controllerMessage :=
  match b with
  | BodyTooLarge => Err ErrBodyTooLarge
  | BodyMalformed => Err ErrBodyMalformed
  | BodyObject raw =>
      if negb (Z.of_nat (size raw) =? zlen required_fields) then Err ErrBodyMalformed
      else
        match raw !! "From", raw !! "To", raw !! "Data", raw !! "Type", raw !! "ID" with
        | Some f, Some t, Some d, Some ty, Some i =>
            match json_string f, json_string t, json_bytes d, json_string ty, json_string i with
            | Some f, Some t, Some d, Some ty, Some i =>
                Ok {| From := f; To := t; Data := d; Type_ := to_label ty; ID := i |}
            | _, _, _, _, _ => Err ErrBodyMalformed
            end
        | _, _, _, _, _ => Err ErrBodyMalformed
        end%string
  end.

End decode.

(** ** The native side: messages, routes, peers *)

(** Decoded native messages: their dynamic type, the generated codec, and the
    basic validation of the consensus and state-sync packages. *)
Class NativeCodec := {
  Msg : Type;
  kind : Msg → msg_kind;
  prototype : Type;
  (** [decodeNativeMessage]: unmarshal into a clone of the prototype, unwrap. *)
  decode_native : prototype → list Z → option Msg;
  (** [validateSelectedMessage]: [cs.MsgFromProto] for consensus kinds, which
      panics on some messages, [statesync.ValidateMessage] for the state-sync kinds. *)
  semantic_ok : Msg → outcome bool
}.

Section native.
Context `{NativeCodec}.

Record NativeRoute := mkRoute {
  r_ChannelID : Z; ReceiveCapacity_ : Z; r_prototype : prototype; r_reactor : string
}.

(** A registry is the map of routes; it is immutable once frozen. *)
Definition NativeRouteRegistry : Type := gmap Z NativeRoute.

Definition ReceiveCapacity (r : NativeRouteRegistry) (channelID : Z) : option Z :=
  ReceiveCapacity_ <$> r !! channelID.

Definition Decode (r : NativeRouteRegistry) (channelID : Z) (wrapped : list Z) : option Msg :=
  route ← r !! channelID; decode_native (r_prototype route) wrapped.

(** The switch's bindings of a channel: prototype, reactor, receive capacity after
    defaults (zero when no descriptor has the channel). *)
Record ChannelBinding := mkBinding {
  b_prototype : option prototype; b_reactor : option string; b_capacity : Z
}.

Fixpoint freeze_loop (bindings : Z → ChannelBinding) (selected : list Z) (routes : NativeRouteRegistry)
    : result string NativeRouteRegistry :=
  match selected with
  | [] => Ok routes
  | channelID :: selected =>
      if bool_decide (is_Some (routes !! channelID)) then Err "duplicate selected channel"%string
      else
        match b_prototype (bindings channelID), b_reactor (bindings channelID) with
        | Some proto, Some reactor =>
            if b_capacity (bindings channelID) <=? 0 then Err "no receive capacity"%string
            else freeze_loop bindings selected
                   (<[channelID := {| r_ChannelID := channelID;
                                      ReceiveCapacity_ := b_capacity (bindings channelID);
                                      r_prototype := proto; r_reactor := reactor |}]> routes)
        | _, _ => Err "incomplete native binding"%string
        end
  end.

Definition FreezeNativeRoutes (bindings : Z → ChannelBinding) (selected : list Z)
    : result string NativeRouteRegistry := freeze_loop bindings selected ∅.

(** ** Outbound: the checks of [Submit] before admission *)

(** The outer message without its id, or a local invariant failure. *)
Definition submit_checks (r : NativeRouteRegistry) (channelID : Z) (message : Msg) (wrapped : list Z)
    : result string (string * list Z) :=
  match selectedMessageBinding (kind message) with
  | None => Err "selected outbound type/route mismatch"%string
  | Some (label, expectedRoute) =>
      if negb (expectedRoute =? channelID) then Err "selected outbound type/route mismatch"%string
      else
        match ReceiveCapacity r channelID with
        | None => Err "selected outbound payload violates route capacity"%string
        | Some capacity =>
            if capacity <? zlen wrapped then Err "selected outbound payload violates route capacity"%string
            else payload ← encodeAdapterPayload channelID wrapped; Ok (label, payload)
        end
  end.

(** ** Inbound: the checks of [serveMessage] before admission *)

Inductive http_status :=
| StatusMethodNotAllowed | StatusUnsupportedMediaType | StatusServiceUnavailable
| StatusRequestEntityTooLarge | StatusBadRequest | StatusUnprocessableEntity | StatusConflict.

#[export] Instance http_status_eq_dec : EqDecision http_status.
Proof. solve_decision. Defined.

Record callback_request := mkRequest {
  is_post : bool; is_json : bool; req_body : body
}.

Record reinjectionItem := mkReinjection {
  ri_message : controllerMessage; ri_channelID : Z; ri_wrapped : list Z; ri_bytes : Z
}.

Section serve.
Variables (base64_decode : list Z → option (list Z)) (to_label : list Z → string).

(** [running]: whether the peer set has a running peer with the id.  A panic of
    the basic validation leaves the handler as a panic. *)
Definition serve_checks (localID : list Z) (r : NativeRouteRegistry) (running : list Z → bool)
    (isReady : bool) (request : callback_request) : outcome (result http_status reinjectionItem) :=
  if negb (is_post request) then Done (Err StatusMethodNotAllowed)
  else if negb (is_json request) then Done (Err StatusUnsupportedMediaType)
  else if negb isReady then Done (Err StatusServiceUnavailable)
  else
    match decodeControllerMessage base64_decode to_label (req_body request) with
    | Err ErrBodyTooLarge => Done (Err StatusRequestEntityTooLarge)
    | Err ErrBodyMalformed => Done (Err StatusBadRequest)
    | Ok outer =>
        if negb (bool_decide (To outer = localID)) then Done (Err StatusUnprocessableEntity)
        else if negb (validateControllerID (From outer)) then Done (Err StatusUnprocessableEntity)
        else if bool_decide (is_Some (validateControllerMessageID outer)) || bool_decide (Type_ outer = ""%string)
        then Done (Err StatusBadRequest)
        else if negb (running (From outer)) then Done (Err StatusConflict)
        else
          match decodeAdapterPayload (Data outer) with
          | Err _ => Done (Err StatusBadRequest)
          | Ok payload =>
              match ReceiveCapacity r (ChannelID payload) with
              | None => Done (Err StatusUnprocessableEntity)
              | Some capacity =>
                  if negb (SelectedRoute (ChannelID payload)) then Done (Err StatusUnprocessableEntity)
                  else if capacity <? zlen (Wrapped payload) then Done (Err StatusRequestEntityTooLarge)
                  else
                    match Decode r (ChannelID payload) (Wrapped payload) with
                    | None => Done (Err StatusUnprocessableEntity)
                    | Some decoded =>
                        match selectedMessageBinding (kind decoded) with
                        | None => Done (Err StatusUnprocessableEntity)
                        | Some (label, expectedRoute) =>
                            if negb (expectedRoute =? ChannelID payload)
                               || negb (bool_decide (label = Type_ outer))
                            then Done (Err StatusUnprocessableEntity)
                            else
                              valid ← semantic_ok decoded;
                              if negb valid then Done (Err StatusUnprocessableEntity)
                              else Done (Ok {| ri_message := outer; ri_channelID := ChannelID payload;
                                               ri_wrapped := Wrapped payload;
                                               ri_bytes := zlen (Wrapped payload) |})
                        end
                    end
              end
          end
    end.

End serve.

(** ** The hooks in the peer *)

(** Where [peer.send] hands a message. *)
Inductive send_action :=
| SendDropped                         (* not running, or unknown channel *)
| SendEncodeError (fatal : bool)      (* marshal error; fatal on a selected message *)
| SendSubmit (channelID : Z) (message : Msg) (wrapped : list Z)
| SendNative (channelID : Z) (wrapped : list Z).

(** [marshal]: the wrapped encoding, or an error. *)
Definition peer_send (isRunning hasChannel mediated : bool) (marshal : Msg → option (list Z))
    (chID : Z) (msg : Msg) : send_action :=
  if negb isRunning then SendDropped
  else if negb hasChannel then SendDropped
  else
    let selected := mediated && Selected (kind msg) in
    match marshal msg with
    | None => SendEncodeError selected
    | Some msgBytes =>
        if selected then SendSubmit chID msg msgBytes else SendNative chID msgBytes
    end.

(** What [onReceive] does with bytes from the connection. *)
Inductive receive_action :=
| ReceiveRejected                     (* [DirectInboundRejected] *)
| ReceivePanic (why : string)         (* caught by the connection, stops the peer *)
| ReceiveDispatch (reactor : string) (message : Msg).

Definition peer_onReceive (mediated : bool) (reactors : gmap Z string) (protos : Z → prototype)
    (chID : Z) (msgBytes : list Z) : receive_action :=
  if mediated && SelectedRoute chID then ReceiveRejected
  else
    match reactors !! chID with
    | None => ReceivePanic "Unknown channel"
    | Some reactor =>
        match decode_native (protos chID) msgBytes with
        | None => ReceivePanic "unmarshaling message"
        | Some msg => ReceiveDispatch reactor msg
        end
    end.

End native.

(** ** Configuration *)

Definition controllerMaxNativePayload : Z := 16000000.
Definition controllerAdapterOverhead : Z := 6.
Definition controllerJSONOverhead : Z := 512.

(** Durations are nanoseconds. *)
Definition second : Z := 1000000000.

Record ControllerMediationConfig := mkConfig {
  Enabled : bool;
  ControllerAddress : string; CallbackListenAddress : string; CallbackAdvertiseAddress : string;
  NodeID : Z;
  OutboundQueueCapacity : Z; OutboundQueueBytes : Z;
  CallbackQueueCapacity : Z; CallbackQueueBytes : Z; CallbackMaxBodyBytes : Z;
  CounterRegistryCapacity : Z; RegistrationAttempts : Z;
  RegistrationRetryDelay : Z; RequestTimeout : Z; SendTimeout : Z; ShutdownTimeout : Z
}.

Definition DefaultControllerMediationConfig : ControllerMediationConfig :=
  {| Enabled := false; ControllerAddress := ""; CallbackListenAddress := "";
     CallbackAdvertiseAddress := ""; NodeID := 0;
     OutboundQueueCapacity := 1024; OutboundQueueBytes := 67108864;
     CallbackQueueCapacity := 256; CallbackQueueBytes := 67108864;
     CallbackMaxBodyBytes := 22000000; CounterRegistryCapacity := 65536;
     RegistrationAttempts := 5; RegistrationRetryDelay := 250000000;
     RequestTimeout := 3 * second; SendTimeout := 10 * second; ShutdownTimeout := 10 * second |}.

(** [base64.StdEncoding.EncodedLen]. *)
Definition EncodedLen (n : Z) : Z := Z.quot (n + 2) 3 * 4.

(** Whether validation succeeds; which of several errors is reported depends on the
    iteration order of Go maps. *)
Definition config_ValidateBasic (SplitHostPort_ok : string → bool)
    (cfg : option ControllerMediationConfig) : bool :=
  match cfg with
  | None => true
  | Some cfg =>
      if negb (Enabled cfg) then true
      else
        let address_ok a := negb (bool_decide (a = ""%string)) && SplitHostPort_ok a in
        let minPayloadBytes := controllerAdapterOverhead + controllerMaxNativePayload in
        let minBodyBytes := EncodedLen minPayloadBytes + controllerJSONOverhead in
        forallb address_ok [ControllerAddress cfg; CallbackListenAddress cfg; CallbackAdvertiseAddress cfg]
        && negb (NodeID cfg <? 0)
        && forallb (λ v, negb (v <=? 0)) [OutboundQueueCapacity cfg; CallbackQueueCapacity cfg;
                                          CounterRegistryCapacity cfg; RegistrationAttempts cfg]
        && negb (OutboundQueueBytes cfg <? minPayloadBytes)
        && negb (CallbackQueueBytes cfg <? minPayloadBytes)
        && negb (CallbackMaxBodyBytes cfg <? minBodyBytes)
        && forallb (λ v, negb (v <=? 0)) [RegistrationRetryDelay cfg; RequestTimeout cfg;
                                          SendTimeout cfg; ShutdownTimeout cfg]
        && negb (2 * second <? RegistrationRetryDelay cfg)
        && negb (10 * second <? SendTimeout cfg)
  end.

(** ** Registration *)

(** The retry loop of [register]: [posts] are the results of the attempts, in
    order, [canceled i] whether the wait after attempt [i] was cancelled.  The
    result and the delays waited. *)
Fixpoint register_loop (attempts : nat) (attempt : nat) (posts : list bool) (canceled : nat → bool)
    (delay : Z) (waited : list Z) : result string () * list Z :=
  match attempts with
  | O => (Err "controller registration exhausted"%string, waited)
  | S attempts =>
      match posts with
      | true :: _ => (Ok (), waited)
      | _ =>
          match attempts with
          | O => (Err "controller registration exhausted"%string, waited)
          | S _ =>
              if canceled attempt then (Err "registration canceled"%string, waited)
              else
                let delay' := if delay <? 2 * second
                              then (if 2 * second <? delay * 2 then 2 * second else delay * 2)
                              else delay in
                register_loop attempts (S attempt) (tail posts) canceled delay' (waited ++ [delay])
          end
      end
  end.

Definition register (cfg : ControllerMediationConfig) (posts : list bool) (canceled : nat → bool)
    : result string () * list Z :=
  register_loop (Z.to_nat (RegistrationAttempts cfg)) 1 posts canceled (RegistrationRetryDelay cfg) [].

(** ** The adapter payload round-trips *)

Definition is_byte (b : Z) : Prop := 0 ≤ b < 256.

#[export] Instance is_byte_dec b : Decision (is_byte b).
Proof. unfold is_byte. apply _. Defined.

Lemma get_uint32_sum b0 b1 b2 b3 :
  is_byte b0 → is_byte b1 → is_byte b2 → is_byte b3 →
  get_uint32 b0 b1 b2 b3 = b0 * 16777216 + b1 * 65536 + b2 * 256 + b3.
Proof.
  unfold is_byte. intros. unfold get_uint32.
  assert (Hor : ∀ lo hi n, 0 ≤ n → 0 ≤ lo < 2 ^ n → Z.lor lo (Z.shiftl hi n) = lo + hi * 2 ^ n).
  { intros lo hi n Hn Hlo. rewrite Z.shiftl_mul_pow2 by lia.
    assert (Hl : Z.land lo (hi * 2 ^ n) = 0).
    { apply Z.bits_inj'. intros k Hk. rewrite Z.land_spec, Z.bits_0.
      destruct (Z.lt_ge_cases k n).
      - rewrite Z.mul_pow2_bits_low by lia. apply andb_false_r.
      - rewrite <-(Z.mod_small lo (2 ^ n)) by lia. rewrite Z.mod_pow2_bits_high by lia. done. }
    rewrite <-Z.lxor_lor, <-Z.add_nocarry_lxor by done. done. }
  assert (E1 : Z.lor (Z.shiftl b1 16) (Z.shiftl b0 24) = Z.shiftl (b1 + b0 * 256) 16).
  { change 24 with (8 + 16). rewrite <-Z.shiftl_shiftl by lia. rewrite <-Z.shiftl_lor.
    rewrite (Hor b1 b0 8) by lia. done. }
  assert (E2 : Z.lor (Z.shiftl b2 8) (Z.shiftl (b1 + b0 * 256) 16) = Z.shiftl (b2 + (b1 + b0 * 256) * 256) 8).
  { change 16 with (8 + 8). rewrite <-Z.shiftl_shiftl by lia. rewrite <-Z.shiftl_lor.
    rewrite (Hor b2 _ 8) by lia. done. }
  rewrite E1, E2, (Hor b3 _ 8) by lia. lia.
Qed.

Lemma put_uint32_bytes v : Forall is_byte (put_uint32 v).
Proof. unfold put_uint32, is_byte. repeat constructor; apply Z.mod_pos_bound; lia. Qed.

Lemma put_uint32_get v b0 b1 b2 b3 :
  0 ≤ v ≤ max_uint32 → put_uint32 v = [b0; b1; b2; b3] → get_uint32 b0 b1 b2 b3 = v.
Proof.
  intros Hv E. pose proof (put_uint32_bytes v) as Hb. rewrite E in Hb.
  do 4 (apply Forall_cons in Hb as [? Hb]). rewrite get_uint32_sum by done.
  unfold put_uint32 in E. rewrite !Z.shiftr_div_pow2 in E by lia.
  change (2 ^ 24) with 16777216 in E. change (2 ^ 16) with 65536 in E. change (2 ^ 8) with 256 in E.
  injection E as <- <- <- <-. unfold max_uint32 in *.
  assert (v / 16777216 < 256) by (apply Z.div_lt_upper_bound; lia).
  rewrite (Z.mod_small (v / 16777216)) by (split; [apply Z.div_pos|]; lia).
  replace (v / 16777216) with (v / 65536 / 256) by (rewrite Z.div_div by lia; done).
  replace (v / 65536) with (v / 256 / 256) by (rewrite Z.div_div by lia; done).
  pose proof (Z.div_mod v 256). pose proof (Z.div_mod (v / 256) 256).
  pose proof (Z.div_mod (v / 256 / 256) 256). lia.
Qed.

Lemma get_uint32_put b0 b1 b2 b3 :
  is_byte b0 → is_byte b1 → is_byte b2 → is_byte b3 →
  put_uint32 (get_uint32 b0 b1 b2 b3) = [b0; b1; b2; b3].
Proof.
  intros H0 H1 H2 H3. rewrite get_uint32_sum by done. unfold is_byte in *. unfold put_uint32.
  rewrite !Z.shiftr_div_pow2 by lia.
  change (2 ^ 24) with 16777216. change (2 ^ 16) with 65536. change (2 ^ 8) with 256.
  assert (Hd : ∀ hi lo, 0 ≤ lo < 256 → (hi * 256 + lo) / 256 = hi ∧ (hi * 256 + lo) `mod` 256 = lo).
  { intros hi lo Hlo. rewrite Z.add_comm, Z.div_add, Z.mod_add, Z.div_small, Z.mod_small by lia. lia. }
  set (v := b0 * 16777216 + b1 * 65536 + b2 * 256 + b3).
  assert (Ev : v = ((b0 * 256 + b1) * 256 + b2) * 256 + b3) by lia.
  assert (E1 : v / 256 = (b0 * 256 + b1) * 256 + b2) by (rewrite Ev; apply Hd; lia).
  assert (E2 : v / 65536 = b0 * 256 + b1).
  { change 65536 with (256 * 256). rewrite <-Z.div_div, E1 by lia. apply Hd; lia. }
  assert (E3 : v / 16777216 = b0).
  { change 16777216 with (65536 * 256). rewrite <-Z.div_div, E2 by lia. apply Hd; lia. }
  rewrite E1, E2, E3, Z.mod_small by lia. repeat f_equal; [apply Hd; lia..|]. rewrite Ev. apply Hd. lia.
Qed.

Lemma encode_decode ch w d :
  encodeAdapterPayload ch w = Ok d →
  decodeAdapterPayload d = Ok {| Version := controllerAdapterVersion; ChannelID := ch; Wrapped := w |}.
Proof.
  unfold encodeAdapterPayload. destruct (Z.ltb_spec max_uint32 (zlen w)); [done|]. intros Ed.
  assert (d = [controllerAdapterVersion; ch] ++ put_uint32 (zlen w) ++ w) as -> by congruence.
  destruct (put_uint32 (zlen w)) as [|b0 [|b1 [|b2 [|b3 [|]]]]] eqn:E; try done.
  pose proof (zlen_nonneg w). apply put_uint32_get in E; [|lia].
  cbn [app decodeAdapterPayload]. rewrite E.
  assert (zlen w =? zlen (controllerAdapterVersion :: ch :: b0 :: b1 :: b2 :: b3 :: w) - controllerAdapterHeader
          = true) as ->; [|done].
  apply Z.eqb_eq. unfold zlen, controllerAdapterHeader. simpl. lia.
Qed.

(** the adapter framing is a bijection between (channel, native payload)
    pairs and the byte strings the decoder accepts: what is encoded decodes to
    itself, and whatever decodes was the encoding of its result (no two frames
    carry the same message, no trailing or missing bytes are tolerated). *)
Theorem adapter_payload_bijective d p :
  Forall is_byte d →
  decodeAdapterPayload d = Ok p ↔
  Version p = controllerAdapterVersion ∧ encodeAdapterPayload (ChannelID p) (Wrapped p) = Ok d.
Proof.
  intros Hd. split.
  - destruct d as [|v [|ch [|b0 [|b1 [|b2 [|b3 rest]]]]]]; try done. cbn [decodeAdapterPayload].
    destruct (Z.eqb_spec v controllerAdapterVersion) as [->|]; [|done]. cbn [negb].
    destruct (Z.eqb_spec (get_uint32 b0 b1 b2 b3)
      (zlen (controllerAdapterVersion :: ch :: b0 :: b1 :: b2 :: b3 :: rest) - controllerAdapterHeader)) as [E|];
      [|done]. cbn [negb]. intros [= <-]. split; [done|]. cbn [ChannelID Wrapped].
    assert (Hl : get_uint32 b0 b1 b2 b3 = zlen rest).
    { rewrite E. unfold zlen, controllerAdapterHeader. simpl. lia. }
    do 6 (apply Forall_cons in Hd as [? Hd]). unfold encodeAdapterPayload. rewrite <-Hl.
    rewrite get_uint32_put by done. rewrite get_uint32_sum in Hl |- * by done. unfold is_byte, max_uint32 in *.
    destruct (Z.ltb_spec 4294967295 (b0 * 16777216 + b1 * 65536 + b2 * 256 + b3)); [lia|done].
  - intros [Hv E]. rewrite (encode_decode _ _ _ E). destruct p. simpl in *. by rewrite Hv.
Qed.

Lemma adapter_payload_bijective_witness :
  encodeAdapterPayload 34 [7; 8; 9] = Ok [1; 34; 0; 0; 0; 3; 7; 8; 9] ∧
  (decodeAdapterPayload [1; 34; 0; 0; 0; 3; 7; 8; 9] = Ok {| Version := 1; ChannelID := 34; Wrapped := [7; 8; 9] |} ↔
   controllerAdapterVersion = controllerAdapterVersion ∧
   encodeAdapterPayload 34 [7; 8; 9] = Ok [1; 34; 0; 0; 0; 3; 7; 8; 9]).
Proof.
  split; [reflexivity|].
  exact (adapter_payload_bijective [1; 34; 0; 0; 0; 3; 7; 8; 9]
    {| Version := 1; ChannelID := 34; Wrapped := [7; 8; 9] |} ltac:(by_decide)).
Defined.

(** ** Message ids: printing and parsing *)

Lemma parse_digits_print fuel n s :
  0 ≤ n < 10 ^ Z.of_nat fuel → n ≤ max_uint64 →
  parse_digits (digits fuel n ++ s) 0 = parse_digits s n.
Proof.
  revert n s. induction fuel as [|fuel IH]; intros n s Hn Hmax; [simpl in Hn; assert (n = 0) as -> by lia; done|].
  rewrite Nat2Z.inj_succ, Z.pow_succ_r in Hn by lia. cbn [digits].
  pose proof (Z.div_mod n 10 ltac:(lia)). pose proof (Z.mod_pos_bound n 10 ltac:(lia)). unfold max_uint64 in *.
  destruct (Z.ltb_spec n 10).
  - cbn [app parse_digits].
    destruct (Z.leb_spec 48 (48 + n)), (Z.leb_spec (48 + n) 57); try lia. cbn [andb negb].
    change (1844674407370955162 <=? 0) with false. cbv zeta.
    replace (0 * 10 + (48 + n - 48)) with n by lia. unfold max_uint64.
    by destruct (Z.ltb_spec 18446744073709551615 n); [lia|].
  - rewrite <-app_assoc, IH by lia. cbn [app parse_digits].
    destruct (Z.leb_spec 48 (48 + n `mod` 10)), (Z.leb_spec (48 + n `mod` 10) 57); try lia. cbn [andb negb].
    destruct (Z.leb_spec 1844674407370955162 (n / 10)); [lia|]. cbv zeta.
    replace (n / 10 * 10 + (48 + n `mod` 10 - 48)) with n by lia. unfold max_uint64.
    by destruct (Z.ltb_spec 18446744073709551615 n); [lia|].
Qed.

Lemma digits_nonempty fuel n : digits (S fuel) n ≠ [].
Proof. cbn [digits]. destruct (n <? 10); [done|]. by destruct (digits fuel (n / 10)). Qed.

Lemma digits_length fuel n : (length (digits fuel n) ≤ fuel)%nat.
Proof.
  revert n. induction fuel as [|fuel IH]; intros n; [done|]. cbn [digits].
  destruct (n <? 10); [simpl; lia|]. rewrite length_app. simpl. specialize (IH (n / 10)). lia.
Qed.

Lemma ParseUint_format n : 0 ≤ n ≤ max_uint64 → ParseUint (format_uint n) = Some n.
Proof.
  intros Hn. unfold ParseUint, format_uint. destruct (digits 20 n) as [|c l] eqn:E.
  { by destruct (digits_nonempty 19 n). }
  rewrite <-E, <-(app_nil_r (digits 20 n)), parse_digits_print; [done| |lia].
  change (10 ^ Z.of_nat 20) with 100000000000000000000. unfold max_uint64 in *. lia.
Qed.

Lemma strip_prefix_app p s : strip_prefix p (p ++ s) = Some s.
Proof. induction p as [|c p IH]; simpl; [done|]. by rewrite Z.eqb_refl. Qed.

Lemma message_id_inj from to to' n n' :
  length to = length to' → 0 ≤ n ≤ max_uint64 → 0 ≤ n' ≤ max_uint64 →
  message_id from to n = message_id from to' n' → to = to' ∧ n = n'.
Proof.
  unfold message_id. intros Hl Hn Hn' E. apply app_inv_head in E. injection E as E.
  apply app_inj_1 in E as [-> E]; [|done]. injection E as E. split; [done|].
  apply (f_equal ParseUint) in E. rewrite !ParseUint_format in E by done. by injection E.
Qed.

(** The receiver accepts every id the sender makes. *)
Lemma message_id_valid from to n data label :
  zlen from = IDByteLength * 2 → zlen to = IDByteLength * 2 → 0 ≤ n ≤ max_uint64 →
  validateControllerMessageID
    {| From := from; To := to; Data := data; Type_ := label; ID := message_id from to n |} = None.
Proof.
  intros Hf Ht Hn. unfold validateControllerMessageID. cbn [From To ID].
  assert (Hlen : zlen (message_id from to n) ≤ controllerIDMaxBytes).
  { unfold message_id, zlen in *. rewrite !length_app. pose proof (digits_length 20 n).
    unfold format_uint, controllerIDMaxBytes, IDByteLength in *. cbn [length]. lia. }
  rewrite bool_decide_false by (unfold message_id; by destruct from).
  destruct (Z.ltb_spec controllerIDMaxBytes (zlen (message_id from to n))); [lia|]. cbn [orb].
  unfold message_id at 1. rewrite !app_assoc, <-(app_assoc _ [underscore] (format_uint n)).
  rewrite (app_assoc _ [underscore] (format_uint n)), strip_prefix_app.
  rewrite bool_decide_false by (apply digits_nonempty). by rewrite ParseUint_format.
Qed.

(** The ids a sequence of [nextID] calls hands out. *)
Fixpoint run_ids (localID : list Z) (capacity : Z) (counters : gmap (list Z) Z) (dests : list (list Z))
    : list (list Z * result string (list Z)) :=
  match dests with
  | [] => []
  | d :: dests =>
      let '(counters', r) := nextID localID capacity counters d in
      (d, r) :: run_ids localID capacity counters' dests
  end.

Definition counters_ok (counters : gmap (list Z) Z) : Prop :=
  map_Forall (λ _ n, 0 ≤ n ≤ max_uint64) counters.

Lemma nextID_spec localID capacity counters d :
  counters_ok counters →
  let '(counters', r) := nextID localID capacity counters d in
  counters_ok counters' ∧
  match r with
  | Ok id => ∃ n, 0 ≤ n < max_uint64 ∧ id = message_id localID d n ∧
                  n = default 0 (counters !! d) ∧ counters' = <[d := n + 1]> counters
  | Err _ => counters' = counters
  end.
Proof.
  intros Hc. unfold nextID. destruct (counters !! d) as [n|] eqn:E.
  - pose proof (Hc d n E) as Hn. simpl in Hn. destruct (Z.eqb_spec n max_uint64); [done|].
    rewrite wrapu64_id by (unfold in_uint64; lia). split.
    + apply map_Forall_insert_2; [lia|done].
    + exists n. split_and!; [lia..|done|done|done].
  - destruct (_ <=? _); [done|]. split.
    + apply map_Forall_insert_2; [|done]. unfold max_uint64. lia.
    + exists 0. split_and!; [lia|done|done|done|done].
Qed.

Lemma run_ids_above localID capacity counters dests d id :
  counters_ok counters → (d, Ok id) ∈ run_ids localID capacity counters dests →
  ∃ n, default 0 (counters !! d) ≤ n ≤ max_uint64 ∧ id = message_id localID d n.
Proof.
  revert counters. induction dests as [|e dests IH]; intros counters Hc Hin; cbn [run_ids] in Hin;
    [set_solver|].
  pose proof (nextID_spec localID capacity counters e Hc) as Hs.
  destruct (nextID localID capacity counters e) as [counters' r]. destruct Hs as [Hc' Hr].
  apply elem_of_cons in Hin as [E|Hin].
  - injection E as -> <-. destruct Hr as (n & Hn & -> & -> & _). exists (default 0 (counters !! e)).
    split; [lia|done].
  - destruct (IH counters' Hc' Hin) as (n & Hn & ->). exists n. split; [|done].
    destruct r as [id'|]; [|by subst]. destruct Hr as (m & Hm & _ & Hm' & ->).
    destruct (decide (d = e)) as [->|].
    + rewrite lookup_insert_eq in Hn. simpl in Hn. lia.
    + rewrite lookup_insert_ne in Hn by done. lia.
Qed.

(** the ids one node gives to its messages are pairwise distinct over its whole
    life, across all destinations, and every one of them passes the id check of
    the node it is addressed to. *)
Theorem nextID_unique_and_valid localID capacity dests :
  zlen localID = IDByteLength * 2 → Forall (λ d, zlen d = IDByteLength * 2) dests →
  let ids := omap (λ p, match p.2 with Ok id => Some id | Err _ => None end)
                  (run_ids localID capacity ∅ dests) in
  NoDup ids ∧
  ∀ d id data label, (d, Ok id) ∈ run_ids localID capacity ∅ dests →
    validateControllerMessageID
      {| From := localID; To := d; Data := data; Type_ := label; ID := id |} = None.
Proof.
  intros Hlocal Hdests ids. assert (Hc : counters_ok ∅) by (apply map_Forall_empty).
  assert (Hd : ∀ c d r, (d, r) ∈ run_ids localID capacity c dests → d ∈ dests).
  { clear. induction dests as [|e l IH]; intros c d r; cbn [run_ids]; [set_solver|].
    destruct (nextID localID capacity c e) as [c' r']. rewrite elem_of_cons.
    intros [[= -> ->]|Hin]; [set_solver|]. apply IH in Hin. set_solver. }
  split.
  - unfold ids. clear ids Hd. revert Hc. generalize (∅ : gmap (list Z) Z) as c.
    induction dests as [|d l IH]; intros c Hc; cbn [run_ids]; [constructor|].
    apply Forall_cons in Hdests as [Hd Hdests].
    pose proof (nextID_spec localID capacity c d Hc) as Hs.
    destruct (nextID localID capacity c d) as [c' r] eqn:En. destruct Hs as [Hc' Hr].
    destruct r as [id|]; simpl; [|by apply IH]. constructor; [|by apply IH].
    intros ([d' r'] & Hin & Hr')%list_elem_of_omap. simpl in Hr'.
    destruct r' as [id'|]; [|done]. injection Hr' as ->.
    destruct (run_ids_above _ _ _ _ _ _ Hc' Hin) as (m & Hm & E).
    destruct Hr as (n & Hn & -> & _ & ->).
    assert (Hdl : zlen d' = IDByteLength * 2).
    { rewrite Forall_forall in Hdests. apply Hdests. clear -Hin. revert Hin. generalize (<[d:=n + 1]> c).
      induction l as [|e l IH]; intros c' Hin; cbn [run_ids] in Hin; [set_solver|].
      destruct (nextID localID capacity c' e) as [c'' r']. apply elem_of_cons in Hin as [[= -> _]|Hin]; [set_solver|].
      apply IH in Hin. set_solver. }
    assert (0 ≤ default 0 (<[d:=n + 1]> c !! d')).
    { destruct (decide (d' = d)) as [->|]; [rewrite lookup_insert_eq; simpl; lia|].
      rewrite lookup_insert_ne by done. destruct (c !! d') eqn:Ed; simpl; [|lia]. apply (Hc d' _ Ed). }
    apply message_id_inj in E as [<- <-]; [|unfold zlen in *; lia|lia|lia].
    rewrite lookup_insert_eq in Hm. simpl in Hm. lia.
  - intros d id data label Hin. pose proof (Hd _ _ _ Hin) as Hdd. rewrite Forall_forall in Hdests.
    destruct (run_ids_above _ _ _ _ _ _ Hc Hin) as (n & Hn & ->).
    apply message_id_valid; [done|by apply Hdests|]. rewrite lookup_empty in Hn. simpl in Hn. lia.
Qed.

(** Two identities, forty bytes each. *)
Definition ex_node (c : Z) : list Z := replicate 40 (48 + c).

Lemma nextID_unique_and_valid_witness :
  let ids := omap (λ p, match p.2 with Ok id => Some id | Err _ => None end)
               (run_ids (ex_node 1) 10 ∅ [ex_node 2; ex_node 3; ex_node 2]) in
  length ids = 3%nat ∧ NoDup ids.
Proof.
  split; [vm_compute; reflexivity|].
  exact (proj1 (nextID_unique_and_valid (ex_node 1) 10 [ex_node 2; ex_node 3; ex_node 2]
    ltac:(reflexivity) ltac:(by_decide))).
Defined.

(** ** Delivery *)

Lemma SelectedRoute_spec ch : SelectedRoute ch = true ↔ ch ∈ selectedControllerRoutes.
Proof.
  unfold SelectedRoute. induction selectedControllerRoutes as [|r l IH]; simpl; [set_solver|].
  destruct (Z.eqb_spec ch r); set_solver.
Qed.

Lemma binding_selected k label ch :
  selectedMessageBinding k = Some (label, ch) → SelectedRoute ch = true ∧ label ≠ ""%string.
Proof. destruct k; intros [= <- <-]; done. Qed.

Section end_to_end.
Context `{NativeCodec}.
Variables (b64_encode : list Z → list Z) (b64_decode : list Z → option (list Z))
  (label_bytes : string → list Z) (to_label : list Z → string).
Hypothesis base64_roundtrip : ∀ d, b64_decode (b64_encode d) = Some d.
Hypothesis label_roundtrip : ∀ l, to_label (label_bytes l) = l.

(** The members of the JSON object [json.Marshal] makes of a message. *)
Definition marshalled (m : controllerMessage) : body :=
  BodyObject (<["From"%string := JString (From m)]> (<["To"%string := JString (To m)]>
    (<["Data"%string := JString (b64_encode (Data m))]>
    (<["Type"%string := JString (label_bytes (Type_ m))]> {["ID"%string := JString (ID m)]})))).

Lemma decode_marshalled m :
  decodeControllerMessage b64_decode to_label (marshalled m) = Ok m.
Proof.
  unfold decodeControllerMessage, marshalled.
  rewrite !map_size_insert_None, map_size_singleton by (by simplify_map_eq).
  cbn [zlen required_fields length negb]. change (Z.of_nat 5 =? zlen required_fields) with true.
  cbn [negb]. simplify_map_eq. rewrite label_roundtrip. by destruct m.
Qed.

(** a message that passes [Submit]'s checks on the sender passes every check of
    [serveMessage] on the receiver it is addressed to, and comes out with the
    same channel and the same native bytes; this for any receiver that is
    ready, has the sender as a running peer, accepts payloads at least as large
    on the route, and decodes the bytes to a valid message of the same type. *)
Theorem mediated_delivery r r' from to ch msg wrapped label payload n running msg' :
  validateControllerID from = true → zlen to = IDByteLength * 2 → 0 ≤ n ≤ max_uint64 →
  submit_checks r ch msg wrapped = Ok (label, payload) →
  (∀ c, ReceiveCapacity r ch = Some c → ∃ c', ReceiveCapacity r' ch = Some c' ∧ c ≤ c') →
  running from = true → Decode r' ch wrapped = Some msg' → kind msg' = kind msg → semantic_ok msg' = Done true →
  let outer := {| From := from; To := to; Data := payload; Type_ := label; ID := message_id from to n |} in
  serve_checks b64_decode to_label to r' running true
    {| is_post := true; is_json := true; req_body := marshalled outer |} =
  Done (Ok {| ri_message := outer; ri_channelID := ch; ri_wrapped := wrapped; ri_bytes := zlen wrapped |}).
Proof.
  intros Hfrom Hto Hn Hsub Hcap Hrun Hdec Hkind Hsem outer. unfold submit_checks in Hsub.
  destruct (selectedMessageBinding (kind msg)) as [[l ch']|] eqn:Ek; [|done].
  destruct (Z.eqb_spec ch' ch) as [->|]; [|done]. cbn [negb] in Hsub.
  destruct (ReceiveCapacity r ch) as [c|] eqn:Ec; [|done].
  destruct (Z.ltb_spec c (zlen wrapped)); [done|].
  destruct (encodeAdapterPayload ch wrapped) as [d|] eqn:Ed; [|done].
  cbn [mbind result_bind] in Hsub. injection Hsub as -> ->.
  destruct (binding_selected _ _ _ Ek) as [Hroute Hlabel]. destruct (Hcap c eq_refl) as (c' & Hc' & Hle).
  unfold serve_checks. cbn [is_post is_json req_body negb]. rewrite decode_marshalled.
  cbn [From To Data Type_ ID outer]. rewrite bool_decide_true, Hfrom by done. cbn [negb].
  assert (Hf : zlen from = IDByteLength * 2).
  { unfold validateControllerID in Hfrom. destruct (Z.eqb_spec (zlen from) (IDByteLength * 2)); done. }
  unfold outer. rewrite message_id_valid, bool_decide_false, bool_decide_false by (done || apply is_Some_None).
  cbn [orb From To Data Type_ ID]. rewrite Hrun, (encode_decode _ _ _ Ed). cbn [negb ChannelID Wrapped].
  rewrite Hc', Hroute. cbn [negb]. destruct (Z.ltb_spec c' (zlen wrapped)); [lia|].
  rewrite Hdec, Hkind, Ek, Z.eqb_refl, bool_decide_true, Hsem by done. done.
Qed.

(** with mediation on, no message of a selected type leaves through the native
    transport and nothing received natively on a selected route reaches a
    reactor; and what the controller re-injects is decoded, valid, of the type
    it was announced as, addressed to this node, and from a running peer. *)
Theorem selected_only_mediated :
  (∀ isRunning hasChannel marshal chID msg ch bytes,
     peer_send isRunning hasChannel true marshal chID msg = SendNative ch bytes →
     Selected (kind msg) = false) ∧
  (∀ reactors protos chID bytes reactor msg,
     peer_onReceive true reactors protos chID bytes = ReceiveDispatch reactor msg →
     SelectedRoute chID = false) ∧
  (∀ localID r running ready request item,
     serve_checks b64_decode to_label localID r running ready request = Done (Ok item) →
     ready = true ∧ To (ri_message item) = localID ∧ running (From (ri_message item)) = true ∧
     ∃ msg, Decode r (ri_channelID item) (ri_wrapped item) = Some msg ∧ semantic_ok msg = Done true ∧
       selectedMessageBinding (kind msg) = Some (Type_ (ri_message item), ri_channelID item)).
Proof.
  split_and!.
  - intros isRunning hasChannel marshal chID msg ch bytes. unfold peer_send.
    destruct isRunning, hasChannel; cbn [negb andb]; try done.
    destruct (marshal msg); [|done]. by destruct (Selected (kind msg)).
  - intros reactors protos chID bytes reactor msg. unfold peer_onReceive. cbn [andb].
    by destruct (SelectedRoute chID).
  - intros localID r running ready request item. unfold serve_checks.
    destruct (is_post request), (is_json request), ready; cbn [negb]; try done.
    destruct (decodeControllerMessage _ _ _) as [outer|[]]; [|done..].
    case_bool_decide as Hto; cbn [negb]; [|done]. destruct (validateControllerID _); cbn [negb]; [|done].
    destruct (_ || _); [done|]. destruct (running (From outer)) eqn:Hrun; cbn [negb]; [|done].
    destruct (decodeAdapterPayload _) as [p|]; [|done]. destruct (ReceiveCapacity _ _) as [c|]; [|done].
    destruct (SelectedRoute _); cbn [negb]; [|done]. destruct (c <? _); [done|].
    destruct (Decode _ _ _) as [msg|] eqn:Ed; [|done].
    destruct (selectedMessageBinding (kind msg)) as [[label route]|] eqn:Ek; [|done].
    destruct (Z.eqb_spec route (ChannelID p)) as [->|]; cbn [negb orb]; [|done].
    case_bool_decide as Hl; cbn [negb]; [|done]. destruct (semantic_ok msg) as [[]|] eqn:Es; cbn [negb mbind outcome_bind]; [|done..].
    intros [= <-]. cbn. split_and!; [done..|]. exists msg. by rewrite Ek, Hl.
Qed.

End end_to_end.

(** ** Registration *)

Lemma register_loop_spec attempts k posts canceled delay waited :
  0 < delay ≤ 2 * second → Forall (λ d, 0 < d ≤ 2 * second) waited →
  let '(r, w) := register_loop attempts k posts canceled delay waited in
  Forall (λ d, 0 < d ≤ 2 * second) w ∧ (length w ≤ length waited + pred attempts)%nat ∧
  (r = Ok () → true ∈ take attempts posts) ∧
  ((∀ i, canceled i = false) → true ∈ take attempts posts → r = Ok ()).
Proof.
  revert k posts delay waited. induction attempts as [|attempts IH]; intros k posts delay waited Hd Hw.
  { cbn [register_loop]. split_and!; [done|lia|done|]. intros _ Hin. simpl in Hin. set_solver. }
  cbn [register_loop]. destruct posts as [|b posts].
  - destruct attempts as [|attempts]; [split_and!; [done|lia|done|set_solver]|].
    destruct (canceled k) eqn:Ec.
    { split_and!; [done|lia|done|]. intros Hc. by rewrite Hc in Ec. }
    specialize (IH (S k) []). cbn [tail]. set (delay' := if delay <? _ then _ else _).
    specialize (IH delay' (waited ++ [delay])). destruct (register_loop _ _ _ _ _ _) as [r w].
    destruct IH as (Hf & Hl & H1 & H2).
    { unfold delay'. destruct (Z.ltb_spec delay (2 * second)); [|lia].
      destruct (Z.ltb_spec (2 * second) (delay * 2)); unfold second in *; lia. }
    { apply Forall_app. split; [done|]. by apply Forall_singleton. }
    rewrite length_app in Hl. simpl in *. split_and!; [done|lia|done|done].
  - destruct b; [split_and!; [done|lia|intros _; simpl; set_solver|done]|].
    destruct attempts as [|attempts]; [split_and!; [done|lia|done|simpl; set_solver]|].
    destruct (canceled k) eqn:Ec.
    { split_and!; [done|lia|done|]. intros Hc. by rewrite Hc in Ec. }
    cbn [tail]. set (delay' := if delay <? _ then _ else _).
    specialize (IH (S k) posts delay' (waited ++ [delay])). destruct (register_loop _ _ _ _ _ _) as [r w].
    destruct IH as (Hf & Hl & H1 & H2).
    { unfold delay'. destruct (Z.ltb_spec delay (2 * second)); [|lia].
      destruct (Z.ltb_spec (2 * second) (delay * 2)); unfold second in *; lia. }
    { apply Forall_app. split; [done|]. by apply Forall_singleton. }
    rewrite length_app in Hl. cbn [length] in Hl. split_and!; [done|simpl in *; lia| |].
    + intros Hr. cbn [take]. set_solver.
    + intros Hc Hin. apply H2; [done|]. cbn [take] in Hin. set_solver.
Qed.

(** under a valid configuration registration succeeds exactly when one of the
    configured number of attempts is accepted (unless it is cancelled), waits
    fewer times than there are attempts, and never longer than two seconds. *)
Theorem register_correct hostport cfg posts canceled :
  Enabled cfg = true → config_ValidateBasic hostport (Some cfg) = true →
  let '(r, waited) := register cfg posts canceled in
  Forall (λ d, 0 < d ≤ 2 * second) waited ∧ zlen waited < RegistrationAttempts cfg ∧
  (r = Ok () → true ∈ take (Z.to_nat (RegistrationAttempts cfg)) posts) ∧
  ((∀ i, canceled i = false) → true ∈ take (Z.to_nat (RegistrationAttempts cfg)) posts → r = Ok ()).
Proof.
  intros He Hv. unfold config_ValidateBasic in Hv. rewrite He in Hv. cbn [negb forallb] in Hv. zbool.
  unfold register.
  pose proof (register_loop_spec (Z.to_nat (RegistrationAttempts cfg)) 1 posts canceled
    (RegistrationRetryDelay cfg) []) as Hs.
  destruct (register_loop _ _ _ _ _ _) as [r w]. destruct Hs as (? & Hl & ? & ?); [lia|constructor|].
  split_and!; try done. unfold zlen. simpl in Hl. lia.
Qed.

Section examples.

(** A codec whose messages are byte strings, all of one type. *)
Definition toy_native : NativeCodec := {|
  Msg := list Z; kind _ := KVote; prototype := ();
  decode_native _ bytes := Some bytes; semantic_ok _ := Done true
|}.
#[local] Existing Instance toy_native.

Definition toy_label_bytes (s : string) : list Z :=
  (λ a, Z.of_N (N_of_ascii a)) <$> String.list_ascii_of_string s.
Definition toy_to_label (l : list Z) : string :=
  String.string_of_list_ascii ((λ z, ascii_of_N (Z.to_N z)) <$> l).

Lemma toy_label_roundtrip l : toy_to_label (toy_label_bytes l) = l.
Proof.
  unfold toy_to_label, toy_label_bytes. rewrite <-(String.string_of_list_ascii_of_string l) at 2. f_equal.
  induction (String.list_ascii_of_string l) as [|a s IH]; [done|]. cbn [fmap list_fmap].
  rewrite N2Z.id, ascii_N_embedding. by f_equal.
Qed.

Definition ex_registry : NativeRouteRegistry :=
  {[VoteChannel := {| r_ChannelID := VoteChannel; ReceiveCapacity_ := 100; r_prototype := ();
                      r_reactor := "CONSENSUS" |}]}.

Lemma mediated_delivery_witness :
  let outer := {| From := ex_node 1; To := ex_node 2; Data := [1; 34; 0; 0; 0; 2; 5; 6];
                  Type_ := "Vote"; ID := message_id (ex_node 1) (ex_node 2) 7 |} in
  serve_checks Some toy_to_label (ex_node 2) ex_registry (λ _, true) true
    {| is_post := true; is_json := true; req_body := marshalled id toy_label_bytes outer |} =
  Done (Ok {| ri_message := outer; ri_channelID := VoteChannel; ri_wrapped := [5; 6]; ri_bytes := 2 |}).
Proof.
  refine (mediated_delivery id Some toy_label_bytes toy_to_label (λ d, eq_refl) toy_label_roundtrip
    ex_registry ex_registry (ex_node 1) (ex_node 2) VoteChannel ([5; 6] : Msg) [5; 6] "Vote"
    [1; 34; 0; 0; 0; 2; 5; 6] 7 (λ _, true) ([5; 6] : Msg) _ _ _ _ _ _ _ _ _);
    try reflexivity.
  - by_decide.
  - intros c Hc. exists c. split; [exact Hc|reflexivity].
Defined.

Lemma register_correct_witness :
  let cfg := {| Enabled := true; ControllerAddress := "127.0.0.1:7074"; CallbackListenAddress := "0.0.0.0:8000";
                CallbackAdvertiseAddress := "127.0.0.1:8000"; NodeID := 1;
                OutboundQueueCapacity := 1024; OutboundQueueBytes := 67108864;
                CallbackQueueCapacity := 256; CallbackQueueBytes := 67108864;
                CallbackMaxBodyBytes := 22000000; CounterRegistryCapacity := 65536;
                RegistrationAttempts := 5; RegistrationRetryDelay := 1500000000;
                RequestTimeout := 3 * second; SendTimeout := 10 * second; ShutdownTimeout := 10 * second |} in
  register cfg [false; false; true] (λ _, false) = (Ok (), [1500000000; 2000000000]) ∧
  Forall (λ d, 0 < d ≤ 2 * second) (register cfg [false; false; true] (λ _, false)).2.
Proof.
  intros cfg. split; [reflexivity|].
  exact (proj1 (register_correct (λ _, true) cfg [false; false; true] (λ _, false) eq_refl eq_refl)).
Defined.

End examples.

End Mediation.
