(* ===== verification/MediationRun.v ===== *)
(** * MediationRun: the concurrent machinery of [node/controller_mediation.go]

    Any number of goroutines call [Submit] and serve callbacks while two workers
    drain the bounded queues and a lifecycle goroutine starts and stops the
    service.  Each goroutine is a program counter; a step executes one atomic
    operation of the source (a channel operation, an atomic add or load, or a
    critical section of [stateMu] or [counterMu]) on the shared state.  A step
    function returns the new state, [Block] when the operation cannot proceed
    now, or [Crash] for an operation Go aborts on (sending on or closing a
    closed channel, unlocking a free mutex).  Scheduling and the outcomes of
    timers, network calls and reactors are the choices of the step relation. *)

From S2P Require Import Prelude Mediation.

Local Open Scope Z_scope.

Module MediationRun.
Import Mediation.

Inductive act (A : Type) := Next (a : A) | Block | Crash.
Arguments Next {A} a.
Arguments Block {A}.
Arguments Crash {A}.

(** ** Shared state *)

Record outboundMediationItem := mkOutbound { oi_message : controllerMessage; oi_bytes : Z }.

(** A bounded queue with its reservations: the queue channel, whether it is
    closed, the number of tokens in the slots channel, the byte counter, and
    whether its lock (the [submitGate] token or [callbackMu]) is free. *)
Record lane (I : Type) := mkLane {
  queue : list I; closed : bool; slots : Z; held : Z; lock_free : bool
}.
Arguments queue {I} _. Arguments closed {I} _. Arguments slots {I} _.
Arguments held {I} _. Arguments lock_free {I} _. Arguments mkLane {I} _ _ _ _ _.

Inductive lifecycle_state := LcNew | LcStarting | LcRunning | LcStopping | LcStopped.

#[export] Instance lifecycle_state_eq_dec : EqDecision lifecycle_state.
Proof. solve_decision. Defined.

(** The fields [stateMu] guards, the fatal channel, and the cancelled context. *)
Record control := mkControl {
  ready : bool; everReady : bool; stopping : bool; fatalErr : option string;
  fatalC : list string; ctx_done : bool; lifecycle : lifecycle_state
}.

(** [admitted], [attempted] and [drained] are history: the messages [Submit]
    accepted, those the submission worker took, those shutdown released. *)
Record shared := mkShared {
  out : lane outboundMediationItem; cb : lane reinjectionItem; ctl : control;
  counters : gmap (list Z) Z;
  admitted : list outboundMediationItem; attempted : list outboundMediationItem;
  drained : list outboundMediationItem
}.

Definition isReady (c : control) : bool :=
  ready c && negb (stopping c) && bool_decide (fatalErr c = None).
Definition isStopping (c : control) : bool := stopping c.

(** Assignments. *)
Definition set_out (s : shared) (l : lane outboundMediationItem) : shared :=
  mkShared l (cb s) (ctl s) (counters s) (admitted s) (attempted s) (drained s).
Definition set_cb (s : shared) (l : lane reinjectionItem) : shared :=
  mkShared (out s) l (ctl s) (counters s) (admitted s) (attempted s) (drained s).
Definition set_ctl (s : shared) (c : control) : shared :=
  mkShared (out s) (cb s) c (counters s) (admitted s) (attempted s) (drained s).
Definition set_counters (s : shared) (m : gmap (list Z) Z) : shared :=
  mkShared (out s) (cb s) (ctl s) m (admitted s) (attempted s) (drained s).
Definition note_admitted (s : shared) (it : outboundMediationItem) : shared :=
  mkShared (out s) (cb s) (ctl s) (counters s) (admitted s ++ [it]) (attempted s) (drained s).
Definition note_attempted (s : shared) (it : outboundMediationItem) : shared :=
  mkShared (out s) (cb s) (ctl s) (counters s) (admitted s) (attempted s ++ [it]) (drained s).
Definition note_drained (s : shared) (it : outboundMediationItem) : shared :=
  mkShared (out s) (cb s) (ctl s) (counters s) (admitted s) (attempted s) (drained s ++ [it]).

Section lane_ops.
Context {I : Type}.

(** Sending on the queue channel of capacity [cap]. *)
Definition lane_send (cap : Z) (l : lane I) (it : I) : act (lane I) :=
  if closed l then Crash
  else if cap <=? zlen (queue l) then Block
  else Next (mkLane (queue l ++ [it]) (closed l) (slots l) (held l) (lock_free l)).

(** One iteration of [range] over the queue: an item, or [None] when it is closed
    and empty. *)
Definition lane_recv (l : lane I) : act (lane I * option I) :=
  match queue l with
  | it :: q => Next (mkLane q (closed l) (slots l) (held l) (lock_free l), Some it)
  | [] => if closed l then Next (l, None) else Block
  end.

Definition lane_close (l : lane I) : act (lane I) :=
  if closed l then Crash else Next (mkLane (queue l) true (slots l) (held l) (lock_free l)).

(** Sending to and receiving from the slots channel. *)
Definition slot_acquire (cap : Z) (l : lane I) : act (lane I) :=
  if cap <=? slots l then Block
  else Next (mkLane (queue l) (closed l) (slots l + 1) (held l) (lock_free l)).
Definition slot_release (l : lane I) : act (lane I) :=
  if slots l <=? 0 then Block
  else Next (mkLane (queue l) (closed l) (slots l - 1) (held l) (lock_free l)).

Definition add_bytes (l : lane I) (d : Z) : lane I :=
  mkLane (queue l) (closed l) (slots l) (held l + d) (lock_free l).

Definition lock_take (l : lane I) : act (lane I) :=
  if lock_free l then Next (mkLane (queue l) (closed l) (slots l) (held l) false) else Block.
Definition lock_give (l : lane I) (full : act (lane I)) : act (lane I) :=
  if lock_free l then full else Next (mkLane (queue l) (closed l) (slots l) (held l) true).

End lane_ops.

(** ** The fatal path *)

(** The critical section of [fatal]: whether this is the first fatal error. *)
Definition fatal_enter (c : control) (class : string) : control * bool :=
  match fatalErr c with
  | Some _ => (c, false)
  | None => (mkControl false (everReady c) (stopping c) (Some class) (fatalC c) (ctx_done c) (lifecycle c), true)
  end.

(** [m.fatalC <- fatalErr] on a channel of capacity one.  The owner's [onFatal],
    called after it, is the node's and no step of the service. *)
Definition fatal_send (c : control) : act control :=
  match fatalC c, fatalErr c with
  | [], Some e => Next (mkControl (ready c) (everReady c) (stopping c) (fatalErr c) [e] (ctx_done c) (lifecycle c))
  | [], None => Crash
  | _, _ => Block
  end.

Definition class_invariant : string := "local invariant failure".
Definition class_control : string := "controller/control-channel failure".

Section machine.
Variables (cfg : ControllerMediationConfig) (localID : list Z).

(** ** [Submit], after its static checks *)

Record submission := mkSubmission {
  sb_dest : list Z; sb_label : string; sb_payload : list Z; sb_blocking : bool
}.

Definition retained (r : submission) : Z := zlen (sb_payload r).

Inductive spc :=
| SGate (r : submission)      (* [<-m.submitGate] *)
| SSlot (r : submission)      (* [m.outboundSlots <-] *)
| SReady (r : submission)     (* [m.isReady()] *)
| SBytes (r : submission)     (* the load and comparison *)
| SAdd (r : submission)       (* [AddInt64(+retained)] *)
| SNextID (r : submission)    (* [m.nextID] *)
| SEnqueue (it : outboundMediationItem)
| SUnadd (r : submission)     (* [AddInt64(-retained)] after a failed [nextID] *)
| SRelSlot (fatal : bool)     (* [<-m.outboundSlots] *)
| SFatal | SFatalSend         (* [m.LocalInvariant(err)] *)
| SRelGate (res : bool)       (* the deferred [m.submitGate <-] *)
| SReturned (res : bool).

(** [giveup]: the timer fired or the context is done. *)
Definition sub_step (giveup : bool) (s : shared) (pc : spc) : act (shared * spc) :=
  match pc with
  | SGate r =>
      if sb_blocking r && giveup then Next (s, SReturned false)
      else match lock_take (out s) with
           | Next l => Next (set_out s l, SSlot r)
           | Block => if sb_blocking r then Block else Next (s, SReturned false)
           | Crash => Crash
           end
  | SSlot r =>
      if sb_blocking r && giveup then Next (s, SRelGate false)
      else match slot_acquire (OutboundQueueCapacity cfg) (out s) with
           | Next l => Next (set_out s l, SReady r)
           | Block => if sb_blocking r then Block else Next (s, SRelGate false)
           | Crash => Crash
           end
  | SReady r => if isReady (ctl s) then Next (s, SBytes r) else Next (s, SRelSlot false)
  | SBytes r =>
      if OutboundQueueBytes cfg <? held (out s) + retained r then Next (s, SRelSlot false)
      else Next (s, SAdd r)
  | SAdd r => Next (set_out s (add_bytes (out s) (retained r)), SNextID r)
  | SNextID r =>
      match nextID localID (CounterRegistryCapacity cfg) (counters s) (sb_dest r) with
      | (m, Ok id) =>
          Next (set_counters s m,
                SEnqueue {| oi_message := {| From := localID; To := sb_dest r; Data := sb_payload r;
                                             Type_ := sb_label r; ID := id |};
                            oi_bytes := retained r |})
      | (m, Err _) => Next (set_counters s m, SUnadd r)
      end
  | SEnqueue it =>
      match lane_send (OutboundQueueCapacity cfg) (out s) it with
      | Next l => Next (note_admitted (set_out s l) it, SRelGate true)
      | Block => Block
      | Crash => Crash
      end
  | SUnadd r => Next (set_out s (add_bytes (out s) (- retained r)), SRelSlot true)
  | SRelSlot fatal =>
      match slot_release (out s) with
      | Next l => Next (set_out s l, if fatal then SFatal else SRelGate false)
      | Block => Block
      | Crash => Crash
      end
  | SFatal =>
      let '(c, first) := fatal_enter (ctl s) class_invariant in
      Next (set_ctl s c, if first then SFatalSend else SRelGate false)
  | SFatalSend =>
      match fatal_send (ctl s) with
      | Next c => Next (set_ctl s c, SRelGate false)
      | Block => Block
      | Crash => Crash
      end
  | SRelGate res =>
      match lock_give (out s) Block with
      | Next l => Next (set_out s l, SReturned res)
      | Block => Block
      | Crash => Crash
      end
  | SReturned _ => Block
  end.

(** ** [acceptCallback] and what [serveMessage] does with its answer *)

Inductive hpc :=
| HLock (it : reinjectionItem)
| HReady (it : reinjectionItem)
| HSlot (it : reinjectionItem)
| HBytes (it : reinjectionItem)
| HAdd (it : reinjectionItem)
| HEnqueue (it : reinjectionItem)
| HRelSlot
| HUnlock (res : bool)
| HRejected                    (* [m.isStopping()] after a refusal *)
| HFatal | HFatalSend
| HAnswered (accepted : bool).

Definition hand_step (s : shared) (pc : hpc) : act (shared * hpc) :=
  match pc with
  | HLock it =>
      match lock_take (cb s) with
      | Next l => Next (set_cb s l, HReady it) | Block => Block | Crash => Crash
      end
  | HReady it => if isReady (ctl s) then Next (s, HSlot it) else Next (s, HUnlock false)
  | HSlot it =>
      match slot_acquire (CallbackQueueCapacity cfg) (cb s) with
      | Next l => Next (set_cb s l, HBytes it)
      | Block => Next (s, HUnlock false)
      | Crash => Crash
      end
  | HBytes it =>
      if CallbackQueueBytes cfg <? held (cb s) + ri_bytes it then Next (s, HRelSlot)
      else Next (s, HAdd it)
  | HAdd it => Next (set_cb s (add_bytes (cb s) (ri_bytes it)), HEnqueue it)
  | HEnqueue it =>
      match lane_send (CallbackQueueCapacity cfg) (cb s) it with
      | Next l => Next (set_cb s l, HUnlock true) | Block => Block | Crash => Crash
      end
  | HRelSlot =>
      match slot_release (cb s) with
      | Next l => Next (set_cb s l, HUnlock false) | Block => Block | Crash => Crash
      end
  | HUnlock res =>
      match lock_give (cb s) Crash with
      | Next l => Next (set_cb s l, if res then HAnswered true else HRejected)
      | Block => Block
      | Crash => Crash
      end
  | HRejected => if isStopping (ctl s) then Next (s, HAnswered false) else Next (s, HFatal)
  | HFatal =>
      let '(c, first) := fatal_enter (ctl s) class_control in
      Next (set_ctl s c, if first then HFatalSend else HAnswered false)
  | HFatalSend =>
      match fatal_send (ctl s) with
      | Next c => Next (set_ctl s c, HAnswered false) | Block => Block | Crash => Crash
      end
  | HAnswered _ => Block
  end.

End machine.

(** ** The two workers *)

(** [WCall] is the call whose outcome decides: the POST to the controller, or the
    peer lookup, decoding and dispatch into the reactor.  Both wait for code
    outside the service: [answer] is [None] while the call has not returned, then
    whether it succeeded. *)
Inductive wpc (I : Type) :=
| WAbsent | WRecv | WRelease (it : I) | WCall (it : I) | WAccount (it : I) (ok : bool)
| WFatal | WFatalSend | WDone.
Arguments WAbsent {I}. Arguments WRecv {I}. Arguments WRelease {I} it. Arguments WCall {I} it.
Arguments WAccount {I} it ok. Arguments WFatal {I}. Arguments WFatalSend {I}. Arguments WDone {I}.

Definition submissionWorker_step (answer : option bool) (s : shared) (pc : wpc outboundMediationItem)
    : act (shared * wpc outboundMediationItem) :=
  match pc with
  | WRecv =>
      match lane_recv (out s) with
      | Next (l, Some it) => Next (note_attempted (set_out s l) it, WRelease it)
      | Next (l, None) => Next (s, WDone)
      | Block => Block
      | Crash => Crash
      end
  | WRelease it =>
      match slot_release (out s) with
      | Next l => Next (set_out s l, WCall it) | Block => Block | Crash => Crash
      end
  | WCall it => match answer with Some ok => Next (s, WAccount it ok) | None => Block end
  | WAccount it ok =>
      Next (set_out s (add_bytes (out s) (- oi_bytes it)), if ok then WRecv else WFatal)
  | WFatal =>
      let '(c, first) := fatal_enter (ctl s) class_control in
      Next (set_ctl s c, if first then WFatalSend else WDone)
  | WFatalSend =>
      match fatal_send (ctl s) with
      | Next c => Next (set_ctl s c, WDone) | Block => Block | Crash => Crash
      end
  | WAbsent | WDone => Block
  end.

Definition reinjectionWorker_step (answer : option bool) (s : shared) (pc : wpc reinjectionItem)
    : act (shared * wpc reinjectionItem) :=
  match pc with
  | WRecv =>
      match lane_recv (cb s) with
      | Next (l, Some it) => Next (set_cb s l, WRelease it)
      | Next (l, None) => Next (s, WDone)
      | Block => Block
      | Crash => Crash
      end
  | WRelease it =>
      match slot_release (cb s) with
      | Next l => Next (set_cb s l, WCall it) | Block => Block | Crash => Crash
      end
  | WCall it => match answer with Some ok => Next (s, WAccount it ok) | None => Block end
  | WAccount it ok =>
      Next (set_cb s (add_bytes (cb s) (- ri_bytes it)), if ok then WRecv else WFatal)
  | WFatal =>
      let '(c, first) := fatal_enter (ctl s) class_invariant in
      Next (set_ctl s c, if first then WFatalSend else WDone)
  | WFatalSend =>
      match fatal_send (ctl s) with
      | Next c => Next (set_ctl s c, WDone) | Block => Block | Crash => Crash
      end
  | WAbsent | WDone => Block
  end.


(** ** Start and Stop *)

(** The steps of [stopLocked], in order. *)
Inductive stop_step :=
| PFlags                       (* ready = false, stopping = true *)
| PShutdown                    (* [m.server.Shutdown] *)
| PCancel                      (* [m.cancel()] *)
| PTakeGate | PCloseOut | PGiveGate
| PLockCb | PCloseCb | PUnlockCb
| PWait                        (* the select on the workers and the timer *)
| PWaitFatal | PWaitFatalSend
| PDrainOut | PDrainOutSlot (it : outboundMediationItem) | PDrainOutBytes (it : outboundMediationItem)
| PDrainCb | PDrainCbSlot (it : reinjectionItem) | PDrainCbBytes (it : reinjectionItem)
| PFinish.

(** Who holds [lifecycleMu]: nobody, [Start] while it registers, or a [Stop] (or a
    failed [Start]) inside [stopLocked]. *)
Inductive lpc := LIdle | LRegister | LStop (k : stop_step).

(** [CIdle]: the HTTP server has no active connection left; [CTimeout]: the time
    of the context or of the timer has passed. *)
Inductive life_choice := CStart (bound : bool) | CStop | CRegister (ok : bool) | CIdle | CTimeout | CGo.

Definition set_flags (c : control) (r e st : bool) : control :=
  mkControl r e st (fatalErr c) (fatalC c) (ctx_done c) (lifecycle c).
Definition set_ctx_done (c : control) : control :=
  mkControl (ready c) (everReady c) (stopping c) (fatalErr c) (fatalC c) true (lifecycle c).
Definition set_lifecycle (c : control) (l : lifecycle_state) : control :=
  mkControl (ready c) (everReady c) (stopping c) (fatalErr c) (fatalC c) (ctx_done c) l.

Definition worker_stopped {I} (w : wpc I) : bool :=
  match w with WAbsent | WDone => true | _ => false end.

(** The state of the two workers travels with the lifecycle goroutine's step because
    [Start] launches them and [stopLocked] waits for them. *)
Definition workers : Type := wpc outboundMediationItem * wpc reinjectionItem.

Definition stop_step_fn (c : life_choice) (s : shared) (w : workers) (k : stop_step)
    : act (shared * workers * lpc) :=
  match k with
  | PFlags => Next (set_ctl s (set_flags (ctl s) false (everReady (ctl s)) true), w, LStop PShutdown)
  | PShutdown =>
      match c with
      | CIdle | CTimeout => Next (s, w, LStop PCancel)
      | _ => Block
      end
  | PCancel => Next (set_ctl s (set_ctx_done (ctl s)), w, LStop PTakeGate)
  | PTakeGate =>
      match lock_take (out s) with
      | Next l => Next (set_out s l, w, LStop PCloseOut) | Block => Block | Crash => Crash
      end
  | PCloseOut =>
      match lane_close (out s) with
      | Next l => Next (set_out s l, w, LStop PGiveGate) | Block => Block | Crash => Crash
      end
  | PGiveGate =>
      match lock_give (out s) Block with
      | Next l => Next (set_out s l, w, LStop PLockCb) | Block => Block | Crash => Crash
      end
  | PLockCb =>
      match lock_take (cb s) with
      | Next l => Next (set_cb s l, w, LStop PCloseCb) | Block => Block | Crash => Crash
      end
  | PCloseCb =>
      match lane_close (cb s) with
      | Next l => Next (set_cb s l, w, LStop PUnlockCb) | Block => Block | Crash => Crash
      end
  | PUnlockCb =>
      match lock_give (cb s) Crash with
      | Next l => Next (set_cb s l, w, LStop PWait) | Block => Block | Crash => Crash
      end
  | PWait =>
      match c with
      | CTimeout => Next (s, w, LStop PWaitFatal)
      | _ => if worker_stopped w.1 && worker_stopped w.2 then Next (s, w, LStop PDrainOut) else Block
      end
  | PWaitFatal =>
      let '(c, first) := fatal_enter (ctl s) class_invariant in
      Next (set_ctl s c, w, LStop (if first then PWaitFatalSend else PFinish))
  | PWaitFatalSend =>
      match fatal_send (ctl s) with
      | Next c => Next (set_ctl s c, w, LStop PFinish) | Block => Block | Crash => Crash
      end
  | PDrainOut =>
      match lane_recv (out s) with
      | Next (l, Some it) => Next (note_drained (set_out s l) it, w, LStop (PDrainOutSlot it))
      | Next (_, None) => Next (s, w, LStop PDrainCb)
      | Block => Block
      | Crash => Crash
      end
  | PDrainOutSlot it =>
      match slot_release (out s) with
      | Next l => Next (set_out s l, w, LStop (PDrainOutBytes it)) | Block => Block | Crash => Crash
      end
  | PDrainOutBytes it => Next (set_out s (add_bytes (out s) (- oi_bytes it)), w, LStop PDrainOut)
  | PDrainCb =>
      match lane_recv (cb s) with
      | Next (l, Some it) => Next (set_cb s l, w, LStop (PDrainCbSlot it))
      | Next (_, None) => Next (s, w, LStop PFinish)
      | Block => Block
      | Crash => Crash
      end
  | PDrainCbSlot it =>
      match slot_release (cb s) with
      | Next l => Next (set_cb s l, w, LStop (PDrainCbBytes it)) | Block => Block | Crash => Crash
      end
  | PDrainCbBytes it => Next (set_cb s (add_bytes (cb s) (- ri_bytes it)), w, LStop PDrainCb)
  | PFinish => Next (set_ctl s (set_lifecycle (ctl s) LcStopped), w, LIdle)
  end.

(** [Start] and [Stop] take [lifecycleMu] and test the lifecycle state. *)
Definition life_step (c : life_choice) (s : shared) (w : workers) (pc : lpc)
    : act (shared * workers * lpc) :=
  match pc with
  | LIdle =>
      match c with
      | CStart bound =>
          if bool_decide (lifecycle (ctl s) = LcNew) then
            let s' := set_ctl s (set_lifecycle (ctl s) LcStarting) in
            if (bound : bool) then Next (s', (WRecv, WRecv), LRegister) else Next (s', w, LStop PFlags)
          else Next (s, w, LIdle)
      | CStop =>
          if bool_decide (lifecycle (ctl s) = LcStopped) then Next (s, w, LIdle)
          else Next (set_ctl s (set_lifecycle (ctl s) LcStopping), w, LStop PFlags)
      | _ => Block
      end
  | LRegister =>
      match c with
      | CRegister true =>
          match fatalErr (ctl s) with
          | Some _ => Next (s, w, LStop PFlags)
          | None =>
              let c' := set_lifecycle (set_flags (ctl s) true true (stopping (ctl s))) LcRunning in
              Next (set_ctl s c', w, LIdle)
          end
      | CRegister false => Next (s, w, LStop PFlags)
      | _ => Block
      end
  | LStop k => stop_step_fn c s w k
  end.

(** Other callers of [fatal]: the callback listener, encoding errors in peers, the
    static checks of [Submit]. *)
Inductive fpc := FFatal (class : string) | FFatalSend | FReturned.

Definition fatal_step (s : shared) (pc : fpc) : act (shared * fpc) :=
  match pc with
  | FFatal class =>
      let '(c, first) := fatal_enter (ctl s) class in
      Next (set_ctl s c, if first then FFatalSend else FReturned)
  | FFatalSend =>
      match fatal_send (ctl s) with
      | Next c => Next (set_ctl s c, FReturned) | Block => Block | Crash => Crash
      end
  | FReturned => Block
  end.

(** ** The whole machine *)

Record state := mkState {
  sh : shared; subs : list spc; hands : list hpc; wk : workers; others : list fpc; life : lpc
}.

Definition initial : state :=
  let l {I} := mkLane (I := I) [] false 0 0 true in
  {| sh := mkShared l l (mkControl false false false None [] false LcNew) ∅ [] [] [];
     subs := []; hands := []; wk := (WAbsent, WAbsent); others := []; life := LIdle |}.

Section steps.
Variables (cfg : ControllerMediationConfig) (localID : list Z).

Inductive step (st : state) : state → Prop :=
| step_new_submit r :
    step st (mkState (sh st) (subs st ++ [SGate r]) (hands st) (wk st) (others st) (life st))
| step_new_callback it :
    0 ≤ ri_bytes it →
    step st (mkState (sh st) (subs st) (hands st ++ [HLock it]) (wk st) (others st) (life st))
| step_new_fatal class :
    step st (mkState (sh st) (subs st) (hands st) (wk st) (others st ++ [FFatal class]) (life st))
| step_submit i giveup pc s' pc' :
    subs st !! i = Some pc → sub_step cfg localID giveup (sh st) pc = Next (s', pc') →
    step st (mkState s' (<[i:=pc']> (subs st)) (hands st) (wk st) (others st) (life st))
| step_callback i pc s' pc' :
    hands st !! i = Some pc → hand_step cfg (sh st) pc = Next (s', pc') →
    step st (mkState s' (subs st) (<[i:=pc']> (hands st)) (wk st) (others st) (life st))
| step_submission ok s' w' :
    submissionWorker_step ok (sh st) (wk st).1 = Next (s', w') →
    step st (mkState s' (subs st) (hands st) (w', (wk st).2) (others st) (life st))
| step_reinjection ok s' w' :
    reinjectionWorker_step ok (sh st) (wk st).2 = Next (s', w') →
    step st (mkState s' (subs st) (hands st) ((wk st).1, w') (others st) (life st))
| step_fatal i pc s' pc' :
    others st !! i = Some pc → fatal_step (sh st) pc = Next (s', pc') →
    step st (mkState s' (subs st) (hands st) (wk st) (<[i:=pc']> (others st)) (life st))
| step_life c s' w' pc' :
    life_step c (sh st) (wk st) (life st) = Next (s', w', pc') →
    step st (mkState s' (subs st) (hands st) w' (others st) pc')
| step_read_fatal :
    step st (mkState (set_ctl (sh st) (let c := ctl (sh st) in
               mkControl (ready c) (everReady c) (stopping c) (fatalErr c) [] (ctx_done c) (lifecycle c)))
             (subs st) (hands st) (wk st) (others st) (life st)).

Inductive reachable : state → Prop :=
| reach_initial : reachable initial
| reach_step st st' : reachable st → step st st' → reachable st'.

End steps.

(** ** What each program counter holds *)

Definition b2z (b : bool) : Z := if b then 1 else 0.

Definition sub_gate (pc : spc) : Z := match pc with SGate _ | SReturned _ => 0 | _ => 1 end.
Definition sub_slot (pc : spc) : Z :=
  match pc with
  | SReady _ | SBytes _ | SAdd _ | SNextID _ | SEnqueue _ | SUnadd _ | SRelSlot _ => 1
  | _ => 0
  end.
Definition sub_held (pc : spc) : Z :=
  match pc with SNextID r | SUnadd r => retained r | SEnqueue it => oi_bytes it | _ => 0 end.
(** Bytes that passed the limit test and are about to be added. *)
Definition sub_want (pc : spc) : Z := match pc with SAdd r => retained r | _ => 0 end.
(** Past the readiness test: will send on the queue unless refused. *)
Definition sub_checked (pc : spc) : Z :=
  match pc with SBytes _ | SAdd _ | SNextID _ | SEnqueue _ => 1 | _ => 0 end.
Definition sub_sending (pc : spc) : Z := match pc with SFatalSend => 1 | _ => 0 end.

Definition hand_lock (pc : hpc) : Z :=
  match pc with HLock _ | HRejected | HFatal | HFatalSend | HAnswered _ => 0 | _ => 1 end.
Definition hand_slot (pc : hpc) : Z :=
  match pc with HBytes _ | HAdd _ | HEnqueue _ | HRelSlot => 1 | _ => 0 end.
Definition hand_held (pc : hpc) : Z := match pc with HEnqueue it => ri_bytes it | _ => 0 end.
Definition hand_want (pc : hpc) : Z := match pc with HAdd it => ri_bytes it | _ => 0 end.
Definition hand_checked (pc : hpc) : Z :=
  match pc with HSlot _ | HBytes _ | HAdd _ | HEnqueue _ => 1 | _ => 0 end.
Definition hand_sending (pc : hpc) : Z := match pc with HFatalSend => 1 | _ => 0 end.
Definition hand_item_ok (pc : hpc) : Prop :=
  match pc with
  | HLock it | HReady it | HSlot it | HBytes it | HAdd it | HEnqueue it => 0 ≤ ri_bytes it
  | _ => True
  end.

Section worker_weights.
Context {I : Type} (size : I → Z).
Definition w_slot (w : wpc I) : Z := match w with WRelease _ => 1 | _ => 0 end.
Definition w_held (w : wpc I) : Z :=
  match w with WRelease it | WCall it | WAccount it _ => size it | _ => 0 end.
Definition w_sending (w : wpc I) : Z := match w with WFatalSend => 1 | _ => 0 end.
Definition w_item_ok (w : wpc I) : Prop :=
  match w with WRelease it | WCall it | WAccount it _ => 0 ≤ size it | _ => True end.
End worker_weights.

Definition life_gate (pc : lpc) : Z := match pc with LStop (PCloseOut | PGiveGate) => 1 | _ => 0 end.
Definition life_lock (pc : lpc) : Z := match pc with LStop (PCloseCb | PUnlockCb) => 1 | _ => 0 end.
Definition life_out_slot (pc : lpc) : Z := match pc with LStop (PDrainOutSlot _) => 1 | _ => 0 end.
Definition life_out_held (pc : lpc) : Z :=
  match pc with LStop (PDrainOutSlot it | PDrainOutBytes it) => oi_bytes it | _ => 0 end.
Definition life_cb_slot (pc : lpc) : Z := match pc with LStop (PDrainCbSlot _) => 1 | _ => 0 end.
Definition life_cb_held (pc : lpc) : Z :=
  match pc with LStop (PDrainCbSlot it | PDrainCbBytes it) => ri_bytes it | _ => 0 end.
Definition life_sending (pc : lpc) : Z := match pc with LStop PWaitFatalSend => 1 | _ => 0 end.
Definition life_item_ok (pc : lpc) : Prop :=
  match pc with
  | LStop (PDrainOutSlot it | PDrainOutBytes it) => 0 ≤ oi_bytes it
  | LStop (PDrainCbSlot it | PDrainCbBytes it) => 0 ≤ ri_bytes it
  | _ => True
  end.

(** How far shutdown has come. *)
Definition flags_set (lc : lifecycle_state) (pc : lpc) : bool :=
  match pc with
  | LIdle => bool_decide (lc = LcStopped) | LRegister | LStop PFlags => false | LStop _ => true
  end.
Definition out_closed (lc : lifecycle_state) (pc : lpc) : bool :=
  match pc with
  | LStop (PShutdown | PCancel | PTakeGate | PCloseOut) => false
  | _ => flags_set lc pc
  end.
Definition cb_closed (lc : lifecycle_state) (pc : lpc) : bool :=
  match pc with
  | LStop (PGiveGate | PLockCb | PCloseCb) => false
  | _ => out_closed lc pc
  end.
Definition lifecycle_ok (lc : lifecycle_state) (pc : lpc) : Prop :=
  match pc with
  | LIdle => lc ≠ LcStarting ∧ lc ≠ LcStopping
  | LRegister => lc = LcStarting
  | LStop _ => lc = LcStarting ∨ lc = LcStopping
  end.
(** Draining happens after both workers are gone. *)
Definition draining (pc : lpc) : bool :=
  match pc with
  | LStop (PDrainOut | PDrainOutSlot _ | PDrainOutBytes _ | PDrainCb | PDrainCbSlot _ | PDrainCbBytes _) => true
  | _ => false
  end.

Definition other_sending (pc : fpc) : Z := match pc with FFatalSend => 1 | _ => 0 end.

Definition sending (st : state) : Z :=
  zsum sub_sending (subs st) + zsum hand_sending (hands st) + w_sending (wk st).1 + w_sending (wk st).2 +
  zsum other_sending (others st) + life_sending (life st).

(** ** Sums over the goroutines *)

Lemma zsum_bounded {A} (f g : A → Z) l : (∀ x, 0 ≤ f x ≤ g x) → 0 ≤ zsum f l ≤ zsum g l.
Proof. intros H. split; [apply zsum_nonneg|apply zsum_le]; intros x _; apply H. Qed.

(** If a resource of which there is one is held by the goroutine at [i], what only
    its holder has is all there is. *)
Lemma sole_holder {A} (g f : A → Z) l i x :
  l !! i = Some x → (∀ y, 0 ≤ g y) → zsum g l ≤ 1 → g x = 1 → (∀ y, g y = 0 → f y = 0) →
  zsum f l = f x.
Proof.
  intros Hi Hg Hl Hx Hf. revert i Hi Hl. induction l as [|y l IH]; intros i Hi Hl; [done|].
  cbn [zsum] in *. pose proof (zsum_nonneg g l (λ z _, Hg z)).
  assert (Hzero : ∀ k, zsum g k ≤ 0 → zsum f k = 0).
  { clear -Hg Hf. induction k as [|z k IH]; intros Hk; [done|]. cbn [zsum] in *.
    pose proof (zsum_nonneg g k (λ z _, Hg z)). specialize (Hg z). rewrite IH, Hf by lia. done. }
  destruct i as [|i]; simplify_eq/=.
  - rewrite Hzero by lia. lia.
  - assert (g x ≤ zsum g l) by (apply zsum_elem_le; [auto|by eapply list_elem_of_lookup_2]).
    specialize (Hg y). rewrite (Hf y), (IH i Hi) by lia. lia.
Qed.

Lemma sub_gate_nonneg pc : 0 ≤ sub_gate pc.
Proof. destruct pc; simpl; lia. Qed.
Lemma hand_lock_nonneg pc : 0 ≤ hand_lock pc.
Proof. destruct pc; simpl; lia. Qed.
Lemma retained_nonneg r : 0 ≤ retained r.
Proof. apply zlen_nonneg. Qed.

Lemma sub_sums l :
  0 ≤ zsum sub_gate l ∧ 0 ≤ zsum sub_slot l ∧ 0 ≤ zsum sub_checked l ≤ zsum sub_gate l ∧
  0 ≤ zsum sub_sending l ∧ 0 ≤ zsum sub_want l.
Proof.
  split_and!; try (apply zsum_nonneg; intros pc _; destruct pc; simpl; try lia; apply retained_nonneg).
  apply zsum_le. intros pc _. destruct pc; simpl; lia.
Qed.

Lemma hand_sums l :
  0 ≤ zsum hand_lock l ∧ 0 ≤ zsum hand_slot l ∧ 0 ≤ zsum hand_checked l ≤ zsum hand_lock l ∧
  0 ≤ zsum hand_sending l.
Proof.
  split_and!; try (apply zsum_nonneg; intros pc _; destruct pc; simpl; lia).
  apply zsum_le. intros pc _. destruct pc; simpl; lia.
Qed.

Lemma other_sums l : 0 ≤ zsum other_sending l.
Proof. apply zsum_nonneg. intros pc _. destruct pc; simpl; lia. Qed.

Section invariant.
Variables (cfg : ControllerMediationConfig) (localID : list Z).

Record inv (st : state) : Prop := {
  i_gate : b2z (lock_free (out (sh st))) + zsum sub_gate (subs st) + life_gate (life st) = 1;
  i_lock : b2z (lock_free (cb (sh st))) + zsum hand_lock (hands st) + life_lock (life st) = 1;
  i_slots : slots (out (sh st)) =
    zlen (queue (out (sh st))) + zsum sub_slot (subs st) + w_slot (wk st).1 + life_out_slot (life st);
  i_cbslots : slots (cb (sh st)) =
    zlen (queue (cb (sh st))) + zsum hand_slot (hands st) + w_slot (wk st).2 + life_cb_slot (life st);
  i_cap : slots (out (sh st)) ≤ OutboundQueueCapacity cfg;
  i_cbcap : slots (cb (sh st)) ≤ CallbackQueueCapacity cfg;
  i_held : held (out (sh st)) =
    zsum oi_bytes (queue (out (sh st))) + zsum sub_held (subs st) + w_held oi_bytes (wk st).1 + life_out_held (life st);
  i_cbheld : held (cb (sh st)) =
    zsum ri_bytes (queue (cb (sh st))) + zsum hand_held (hands st) + w_held ri_bytes (wk st).2 + life_cb_held (life st);
  i_bytes : held (out (sh st)) + zsum sub_want (subs st) ≤ OutboundQueueBytes cfg;
  i_cbbytes : held (cb (sh st)) + zsum hand_want (hands st) ≤ CallbackQueueBytes cfg;
  i_items : Forall (λ it, 0 ≤ oi_bytes it) (queue (out (sh st))) ∧ w_item_ok oi_bytes (wk st).1 ∧
            Forall (λ pc, 0 ≤ sub_held pc) (subs st);
  i_cbitems : Forall (λ it, 0 ≤ ri_bytes it) (queue (cb (sh st))) ∧ w_item_ok ri_bytes (wk st).2 ∧
              Forall hand_item_ok (hands st);
  i_lifeitem : life_item_ok (life st);
  i_closed : closed (out (sh st)) = out_closed (lifecycle (ctl (sh st))) (life st);
  i_cbclosed : closed (cb (sh st)) = cb_closed (lifecycle (ctl (sh st))) (life st);
  i_stopping : stopping (ctl (sh st)) = flags_set (lifecycle (ctl (sh st))) (life st);
  i_checked : closed (out (sh st)) = true → zsum sub_checked (subs st) = 0;
  i_cbchecked : closed (cb (sh st)) = true → zsum hand_checked (hands st) = 0;
  i_lifecycle : lifecycle_ok (lifecycle (ctl (sh st))) (life st);
  i_fatal : zlen (fatalC (ctl (sh st))) + sending st ≤ b2z (bool_decide (fatalErr (ctl (sh st)) ≠ None));
  i_history : admitted (sh st) = attempted (sh st) ++ drained (sh st) ++ queue (out (sh st));
  i_drained : drained (sh st) ≠ [] → stopping (ctl (sh st)) = true;
  i_drain : (draining (life st) = true ∨ drained (sh st) ≠ []) →
            worker_stopped (wk st).1 = true ∧ worker_stopped (wk st).2 = true;
  i_new : lifecycle (ctl (sh st)) = LcNew → wk st = (WAbsent, WAbsent)
}.

Lemma closed_after_flags lc pc :
  (out_closed lc pc = true → flags_set lc pc = true) ∧ (cb_closed lc pc = true → flags_set lc pc = true).
Proof. destruct pc as [| |[]]; simpl; auto. Qed.

Lemma isReady_flags c : isReady c = true → stopping c = false ∧ fatalErr c = None.
Proof.
  unfold isReady. intros [[_ ?%negb_true_iff]%andb_true_iff ?%bool_decide_eq_true]%andb_true_iff. done.
Qed.

Lemma w_sending_nonneg {I} (w : wpc I) : 0 ≤ w_sending w.
Proof. destruct w; simpl; lia. Qed.
Lemma life_sending_nonneg pc : 0 ≤ life_sending pc.
Proof. destruct pc as [| |[]]; simpl; lia. Qed.

Lemma fatal_none c : fatalErr c = None → b2z (bool_decide (fatalErr c ≠ None)) = 0.
Proof. intros ->. done. Qed.
Lemma fatal_some c e : fatalErr c = Some e → b2z (bool_decide (fatalErr c ≠ None)) = 1.
Proof. intros ->. done. Qed.
Lemma fatal_some_1 (e : string) : b2z (bool_decide (Some e ≠ None)) = 1.
Proof. done. Qed.
Lemma zlen_nil {A} (l : list A) : l = [] → zlen l = 0.
Proof. by intros ->. Qed.
Lemma zlen_empty {A} : zlen (@nil A) = 0.
Proof. done. Qed.
Lemma zlen_cons {A} (x : A) l : zlen (x :: l) = zlen l + 1.
Proof. unfold zlen. simpl. lia. Qed.
Lemma zlen_app {A} (l k : list A) : zlen (l ++ k) = zlen l + zlen k.
Proof. unfold zlen. rewrite length_app. lia. Qed.

(** Case analysis of a step function that returned [Next], with the tests it passed
    as numeric facts. *)
Ltac step_cases H :=
  unfold lane_send, lane_recv, lane_close, slot_acquire, slot_release, lock_take, lock_give,
    fatal_send, fatal_enter in H;
  simplify_eq/=; repeat (case_match; simplify_eq/=); zbool;
  repeat match goal with
  | E : lock_free ?x = ?b |- _ => pose proof (f_equal b2z E); clear E
  | E : fatalErr _ = None |- _ => pose proof (fatal_none _ E); revert E
  | E : fatalErr _ = Some _ |- _ => pose proof (fatal_some _ _ E); revert E
  | E : fatalC _ = [] |- _ => pose proof (zlen_nil _ E); clear E
  | E : isReady _ = true |- _ => apply isReady_flags in E as [? _]
  end; intros; cbn [b2z] in *.

(** The numeric facts about the goroutines that are not moving. *)
Ltac sums st :=
  pose proof (sub_sums (subs st)); pose proof (hand_sums (hands st)); pose proof (other_sums (others st));
  pose proof (w_sending_nonneg (wk st).1); pose proof (w_sending_nonneg (wk st).2);
  pose proof (life_sending_nonneg (life st)).

(** Closes the fields of the invariant that follow from the old ones. *)
Ltac field :=
  unfold sending in *; cbn [sh subs hands wk others life out cb ctl counters admitted attempted drained
    queue closed slots held lock_free fst snd ready everReady stopping fatalErr fatalC ctx_done lifecycle
    set_out set_cb set_ctl set_counters note_admitted note_attempted note_drained add_bytes
    set_flags set_ctx_done set_lifecycle] in *;
  rewrite ?zsum_app, ?fatal_some_1, ?zlen_app, ?zlen_cons, ?zlen_empty in *; cbn [zsum b2z] in *;
  first [done | lia | tauto | idtac].

(** The queue was found empty or closed: say so in the goal. *)
Ltac empty_queue :=
  repeat match goal with
  | E : queue _ = [] |- _ => rewrite E
  | E : closed _ = true |- _ => rewrite E
  end; cbn [zsum]; rewrite ?zlen_empty.

Lemma sub_checked_nonneg pc : 0 ≤ sub_checked pc.
Proof. destruct pc; simpl; lia. Qed.
Lemma hand_checked_nonneg pc : 0 ≤ hand_checked pc.
Proof. destruct pc; simpl; lia. Qed.

Lemma sub_preserves st i giveup pc s' pc' :
  inv st → subs st !! i = Some pc → sub_step cfg localID giveup (sh st) pc = Next (s', pc') →
  inv (mkState s' (<[i:=pc']> (subs st)) (hands st) (wk st) (others st) (life st)).
Proof.
  intros Hinv Hi E. sums st. destruct Hinv.
  assert (Hz : ∀ f, zsum f (<[i:=pc']> (subs st)) = zsum f (subs st) - f pc + f pc')
    by (intros f; by apply zsum_insert).
  assert (Hone : sub_gate pc = 1 → zsum sub_want (subs st) = sub_want pc).
  { intros Hg. apply (sole_holder sub_gate sub_want (subs st) i pc Hi sub_gate_nonneg); [|done|].
    - unfold b2z in *. pose proof i_gate0. destruct (lock_free _), (life st) as [| |[]]; simpl in *; lia.
    - intros []; simpl; intros; lia || done. }
  destruct (closed_after_flags (lifecycle (ctl (sh st))) (life st)) as [Hfl _].
  destruct pc; cbn [sub_step] in E; step_cases E; split; field.
  all: rewrite ?Hz; cbn [sub_gate sub_slot sub_held sub_want sub_checked sub_sending oi_bytes] in *; try lia; try done.
  all: try (pose proof (zsum_elem_le sub_checked (subs st) _ (λ y _, sub_checked_nonneg y)
                          (list_elem_of_lookup_2 _ _ _ Hi)) as Hle; cbn [sub_checked] in Hle;
            intros Hc; specialize (i_checked0 Hc); lia).
  all: try (destruct i_items0 as (? & ? & Hsubs); split_and!; try done;
            try (apply Forall_app; split; [done|apply Forall_singleton;
                   eapply Forall_lookup_1 in Hsubs; [|exact Hi]; done]);
            try (apply Forall_insert; [done|cbn [sub_held oi_bytes]; try lia; apply retained_nonneg])).
  - intros Hc. rewrite i_closed0 in Hc. specialize (Hfl Hc). congruence.
  - rewrite i_history0. by rewrite <-!app_assoc.
  - pose proof (retained_nonneg r). lia.
Qed.

Lemma hand_preserves st i pc s' pc' :
  inv st → hands st !! i = Some pc → hand_step cfg (sh st) pc = Next (s', pc') →
  inv (mkState s' (subs st) (<[i:=pc']> (hands st)) (wk st) (others st) (life st)).
Proof.
  intros Hinv Hi E. sums st. destruct Hinv.
  assert (Hz : ∀ f, zsum f (<[i:=pc']> (hands st)) = zsum f (hands st) - f pc + f pc')
    by (intros f; by apply zsum_insert).
  destruct i_cbitems0 as (Hq & Hw & Hhands).
  assert (Hok : hand_item_ok pc) by (by eapply Forall_lookup_1 in Hhands).
  assert (Hone : hand_lock pc = 1 → zsum hand_want (hands st) = hand_want pc).
  { intros Hg. apply (sole_holder hand_lock hand_want (hands st) i pc Hi hand_lock_nonneg); [|done|].
    - unfold b2z in *. pose proof i_lock0. destruct (lock_free (cb _)), (life st) as [| |[]]; simpl in *; lia.
    - intros []; simpl; intros; lia || done. }
  destruct (closed_after_flags (lifecycle (ctl (sh st))) (life st)) as [_ Hfl].
  destruct pc; cbn [hand_step] in E; step_cases E; split; field.
  all: rewrite ?Hz; cbn [hand_lock hand_slot hand_held hand_want hand_checked hand_sending hand_item_ok] in *;
    try lia; try done.
  all: try (pose proof (zsum_elem_le hand_checked (hands st) _ (λ y _, hand_checked_nonneg y)
                          (list_elem_of_lookup_2 _ _ _ Hi)) as Hle; cbn [hand_checked] in Hle;
            intros Hc; specialize (i_cbchecked0 Hc); lia).
  all: try (split_and!; try done; try (apply Forall_app; split; [done|by apply Forall_singleton]);
            apply Forall_insert; [done|]; cbn [hand_item_ok]; done).
  intros Hc. rewrite i_cbclosed0 in Hc. specialize (Hfl Hc). congruence.
Qed.

Lemma submission_preserves st ok s' w' :
  inv st → submissionWorker_step ok (sh st) (wk st).1 = Next (s', w') →
  inv (mkState s' (subs st) (hands st) (w', (wk st).2) (others st) (life st)).
Proof.
  intros Hinv E. sums st. destruct Hinv. unfold sending in *. destruct i_items0 as (Hq & Hw & Hsubs).
  destruct (wk st) as [w w2]; cbn [fst snd] in *.
  destruct w; cbn [submissionWorker_step] in E; step_cases E;
    try match goal with Eq : queue _ = _ :: _ |- _ => rewrite Eq in * end;
    split; field.
  all: cbn [w_slot w_held w_sending w_item_ok worker_stopped] in *; empty_queue; try lia; try done; try tauto;
    try (intros Hnew; by specialize (i_new0 Hnew)).
  - apply Forall_cons in Hq as [? ?]. by split_and!.
  - rewrite i_history0. destruct (drained (sh st)); [by rewrite <-app_assoc|].
    destruct i_drain0 as [[=] _]. by right.
Qed.

Lemma reinjection_preserves st ok s' w' :
  inv st → reinjectionWorker_step ok (sh st) (wk st).2 = Next (s', w') →
  inv (mkState s' (subs st) (hands st) ((wk st).1, w') (others st) (life st)).
Proof.
  intros Hinv E. sums st. destruct Hinv. unfold sending in *. destruct i_cbitems0 as (Hq & Hw & Hhands).
  destruct (wk st) as [w1 w]; cbn [fst snd] in *.
  destruct w; cbn [reinjectionWorker_step] in E; step_cases E;
    try match goal with Eq : queue _ = _ :: _ |- _ => rewrite Eq in * end;
    split; field.
  all: cbn [w_slot w_held w_sending w_item_ok worker_stopped] in *; empty_queue; try lia; try done; try tauto;
    try (intros Hnew; by specialize (i_new0 Hnew)).
  apply Forall_cons in Hq as [? ?]. by split_and!.
Qed.

Lemma fatal_preserves st i pc s' pc' :
  inv st → others st !! i = Some pc → fatal_step (sh st) pc = Next (s', pc') →
  inv (mkState s' (subs st) (hands st) (wk st) (<[i:=pc']> (others st)) (life st)).
Proof.
  intros Hinv Hi E. sums st. destruct Hinv.
  assert (Hz : zsum other_sending (<[i:=pc']> (others st)) =
               zsum other_sending (others st) - other_sending pc + other_sending pc')
    by (by apply zsum_insert).
  destruct pc; cbn [fatal_step] in E; step_cases E; split; field.
  all: rewrite ?Hz; cbn [other_sending] in *; try lia; try done.
Qed.

(** Evaluates what the lifecycle goroutine and the workers hold at a known point. *)
Ltac life_field :=
  cbn [life_gate life_lock life_out_slot life_out_held life_cb_slot life_cb_held life_sending life_item_ok
       flags_set out_closed cb_closed lifecycle_ok draining w_slot w_held w_sending w_item_ok worker_stopped] in *;
  try lia; try done; try tauto; try congruence.

(** [Start] and [Stop] take the lifecycle lock. *)
Lemma idle_preserves st c s' w' pc' :
  inv st → life st = LIdle → life_step c (sh st) (wk st) LIdle = Next (s', w', pc') →
  inv (mkState s' (subs st) (hands st) w' (others st) pc').
Proof.
  intros Hinv Hl E. sums st. destruct Hinv. unfold sending in *. rewrite Hl in *.
  destruct i_items0 as (Hq & Hw & Hsubs). destruct i_cbitems0 as (Hcq & Hcw & Hhands).
  assert (drained (sh st) ≠ [] → lifecycle (ctl (sh st)) = LcStopped) as Hdr.
  { intros Hd. specialize (i_drained0 Hd). rewrite i_stopping0 in i_drained0.
    by apply bool_decide_eq_true in i_drained0. }
  cbn [life_step] in E. destruct c; step_cases E;
    repeat match goal with
    | Hb : bool_decide (_ = _) = true |- _ => apply bool_decide_eq_true in Hb
    | Hb : bool_decide (_ = _) = false |- _ => apply bool_decide_eq_false in Hb
    end;
    try (rewrite i_new0 in * by done; cbn [fst snd] in *);
    split; field; life_field.
  all: try (rewrite ?i_closed0, ?i_cbclosed0, ?i_stopping0; case_bool_decide; try case_bool_decide; congruence).
  intros [[=]|Hd]. specialize (Hdr Hd). congruence.
Qed.

Lemma register_preserves st c s' w' pc' :
  inv st → life st = LRegister → life_step c (sh st) (wk st) LRegister = Next (s', w', pc') →
  inv (mkState s' (subs st) (hands st) w' (others st) pc').
Proof.
  intros Hinv Hl E. sums st. destruct Hinv. unfold sending in *. rewrite Hl in *.
  cbn [life_step] in E. destruct c; step_cases E; split; field; life_field.
  all: try (rewrite ?i_closed0, ?i_cbclosed0, ?i_stopping0; case_bool_decide; try case_bool_decide; congruence).
  all: try (split; congruence).
  all: try (cbn [lifecycle_ok]; by left).
Qed.

Lemma stop_preserves st c s' w' pc' k :
  inv st → life st = LStop k → stop_step_fn c (sh st) (wk st) k = Next (s', w', pc') →
  inv (mkState s' (subs st) (hands st) w' (others st) pc').
Proof.
  intros Hinv Hl E. sums st. destruct Hinv. unfold sending in *. rewrite Hl in *.
  destruct i_items0 as (Hq & Hw & Hsubs). destruct i_cbitems0 as (Hcq & Hcw & Hhands).
  destruct k; cbn [stop_step_fn] in E; step_cases E;
    try match goal with Eq : queue _ = _ :: _ |- _ => rewrite Eq in * end;
    split; field; life_field; empty_queue.
  all: try lia; try (split_and!; by try constructor).
  all: try (apply Forall_cons in Hq as [? ?]; by try split_and!).
  all: try (apply Forall_cons in Hcq as [? ?]; by try split_and!).
  all: try (intros _; unfold b2z in *; repeat case_match; lia).
  rewrite i_history0. by rewrite <-!app_assoc.
Qed.

Lemma life_preserves st c s' w' pc' :
  inv st → life_step c (sh st) (wk st) (life st) = Next (s', w', pc') →
  inv (mkState s' (subs st) (hands st) w' (others st) pc').
Proof.
  intros Hinv. destruct (life st) eqn:Hl; [by eapply idle_preserves|by eapply register_preserves|].
  by eapply stop_preserves.
Qed.

(** The configuration [newControllerMediation] is built with. *)
Definition running_config : Prop :=
  Enabled cfg = true ∧ ∃ SplitHostPort_ok, config_ValidateBasic SplitHostPort_ok (Some cfg) = true.

Lemma running_config_bounds : running_config →
  0 < OutboundQueueCapacity cfg ∧ 0 < CallbackQueueCapacity cfg ∧
  0 ≤ OutboundQueueBytes cfg ∧ 0 ≤ CallbackQueueBytes cfg.
Proof.
  intros [He [split Hv]]. unfold config_ValidateBasic in Hv. rewrite He in Hv. cbn [negb forallb] in Hv.
  rewrite !andb_true_iff, !negb_true_iff, !Z.ltb_ge, !Z.leb_gt in Hv.
  unfold controllerAdapterOverhead, controllerMaxNativePayload in Hv. lia.
Qed.

Lemma initial_inv : running_config → inv initial.
Proof. intros ?%running_config_bounds. split; try done; cbn; try lia; by split_and!; try constructor. Qed.

Lemma step_inv st st' : inv st → step cfg localID st st' → inv st'.
Proof.
  intros Hinv Hstep. destruct Hstep.
  - destruct Hinv. unfold sending in *. split; field; cbn [sub_gate sub_slot sub_held sub_want sub_checked sub_sending]; try lia; try done.
    + destruct i_items0 as (? & ? & ?). split_and!; [done..|]. apply Forall_app; split; [done|by apply Forall_singleton].
    + intros Hc. specialize (i_checked0 Hc). lia.
  - destruct Hinv. unfold sending in *. split; field; cbn [hand_lock hand_slot hand_held hand_want hand_checked hand_sending]; try lia; try done.
    + destruct i_cbitems0 as (? & ? & ?). split_and!; [done..|]. apply Forall_app; split; [done|by apply Forall_singleton].
    + intros Hc. specialize (i_cbchecked0 Hc). lia.
  - destruct Hinv. unfold sending in *. split; field; cbn [other_sending]; try lia; try done.
  - by eapply sub_preserves.
  - by eapply hand_preserves.
  - by eapply submission_preserves.
  - by eapply reinjection_preserves.
  - by eapply fatal_preserves.
  - by eapply life_preserves.
  - pose proof (zlen_nonneg (fatalC (ctl (sh st)))).
    destruct Hinv. unfold sending in *. split; field; try lia; try done.
Qed.

Lemma run_inv st : running_config → reachable cfg localID st → inv st.
Proof. intros Hcfg. induction 1; [by apply initial_inv|by eapply step_inv]. Qed.
(** ** No goroutine panics, and only the intended waits block *)

(** What an operation may do: complete, or block where the code means to wait. *)
Definition proceeds {A} (waits : bool) (a : act A) : Prop :=
  match a with Next _ => True | Block => waits = true | Crash => False end.

Definition sub_waits (pc : spc) : bool :=
  match pc with SGate r | SSlot r => sb_blocking r | SReturned _ => true | _ => false end.
Definition hand_waits (pc : hpc) : bool := match pc with HLock _ | HAnswered _ => true | _ => false end.
Definition worker_waits {I} (answer : option bool) (pc : wpc I) : bool :=
  match pc with
  | WAbsent | WRecv | WDone => true
  | WCall _ => bool_decide (answer = None)
  | _ => false
  end.
Definition other_waits (pc : fpc) : bool := match pc with FReturned => true | _ => false end.
Definition life_waits (pc : lpc) : bool :=
  match pc with LIdle | LRegister | LStop (PShutdown | PTakeGate | PLockCb | PWait) => true | _ => false end.

Lemma zsum_at {A} (f : A → Z) l i x : (∀ y, 0 ≤ f y) → l !! i = Some x → f x ≤ zsum f l.
Proof. intros Hf Hi. apply zsum_elem_le; [auto|by eapply list_elem_of_lookup_2]. Qed.

Lemma slot_weights_nonneg st :
  0 ≤ w_slot (wk st).1 ∧ 0 ≤ w_slot (wk st).2 ∧ 0 ≤ life_out_slot (life st) ∧ 0 ≤ life_cb_slot (life st) ∧
  0 ≤ zlen (queue (out (sh st))) ∧ 0 ≤ zlen (queue (cb (sh st))) ∧
  0 ≤ life_gate (life st) ∧ 0 ≤ life_lock (life st).
Proof.
  split_and!; try apply zlen_nonneg; destruct (wk st) as [w1 w2], (life st) as [| |k]; simpl; try lia;
    try destruct w1; try destruct w2; try destruct k; simpl; lia.
Qed.

(** A pending notification: there is a fatal error and the channel is empty. *)
Lemma fatal_send_ready st : inv st → 1 ≤ sending st → ∃ c, fatal_send (ctl (sh st)) = Next c.
Proof.
  intros Hinv Hs. pose proof (i_fatal _ Hinv) as Hf. unfold fatal_send.
  pose proof (zlen_nonneg (fatalC (ctl (sh st)))).
  destruct (fatalErr (ctl (sh st))) as [e|] eqn:E; [|cbn in Hf; lia].
  rewrite fatal_some_1 in Hf. destruct (fatalC (ctl (sh st))) as [|x l]; [by eexists|].
  rewrite zlen_cons in Hf. pose proof (zlen_nonneg l). lia.
Qed.

Ltac test_le :=
  match goal with |- context [?a <=? ?b] => destruct (Z.leb_spec a b); cbn [proceeds]; [lia|exact I] end.

Ltac fatal_ready Hinv :=
  match goal with
  | |- context [fatal_send (ctl (sh ?st))] =>
      let c := fresh in let E := fresh in
      destruct (fatal_send_ready st Hinv) as [c E]; [|rewrite E; exact I]
  end.

Lemma sub_proceeds st i pc giveup :
  inv st → subs st !! i = Some pc → proceeds (sub_waits pc) (sub_step cfg localID giveup (sh st) pc).
Proof.
  intros Hinv Hi. sums st. pose proof (slot_weights_nonneg st) as Hw.
  pose proof (zsum_at sub_gate _ _ _ sub_gate_nonneg Hi) as Hg.
  pose proof (zsum_at sub_checked _ _ _ sub_checked_nonneg Hi) as Hc.
  assert (Hsl : sub_slot pc ≤ zsum sub_slot (subs st)) by (eapply zsum_at; [intros []; simpl; lia|done]).
  assert (Hse : sub_sending pc ≤ zsum sub_sending (subs st)) by (eapply zsum_at; [intros []; simpl; lia|done]).
  pose proof (i_gate _ Hinv). pose proof (i_slots _ Hinv). pose proof (i_cap _ Hinv).
  pose proof (i_checked _ Hinv) as Hch.
  destruct pc; cbn [sub_step sub_waits sub_slot sub_gate sub_checked sub_sending] in *;
    unfold lock_take, lock_give, slot_acquire, slot_release, lane_send, fatal_enter;
    try (repeat case_match; simplify_eq/=; try done; fail).
  all: try (fatal_ready Hinv; unfold sending; lia).
  - destruct (closed (out (sh st))); [specialize (Hch eq_refl); lia|]. test_le.
  - test_le.
  - destruct (lock_free (out (sh st))); cbn [b2z proceeds] in *; [lia|done].
Qed.

Lemma hand_proceeds st i pc :
  inv st → hands st !! i = Some pc → proceeds (hand_waits pc) (hand_step cfg (sh st) pc).
Proof.
  intros Hinv Hi. sums st. pose proof (slot_weights_nonneg st) as Hw.
  pose proof (zsum_at hand_lock _ _ _ hand_lock_nonneg Hi) as Hg.
  pose proof (zsum_at hand_checked _ _ _ hand_checked_nonneg Hi) as Hc.
  assert (Hsl : hand_slot pc ≤ zsum hand_slot (hands st)) by (eapply zsum_at; [intros []; simpl; lia|done]).
  assert (Hse : hand_sending pc ≤ zsum hand_sending (hands st)) by (eapply zsum_at; [intros []; simpl; lia|done]).
  pose proof (i_lock _ Hinv). pose proof (i_cbslots _ Hinv). pose proof (i_cbcap _ Hinv).
  pose proof (i_cbchecked _ Hinv) as Hch.
  destruct pc; cbn [hand_step hand_waits hand_slot hand_lock hand_checked hand_sending] in *;
    unfold lock_take, lock_give, slot_acquire, slot_release, lane_send, fatal_enter;
    try (repeat case_match; simplify_eq/=; try done; fail).
  all: try (fatal_ready Hinv; unfold sending; lia).
  - destruct (closed (cb (sh st))); [specialize (Hch eq_refl); lia|]. test_le.
  - test_le.
  - destruct (lock_free (cb (sh st))); cbn [b2z proceeds] in *; [lia|done].
Qed.

Lemma workers_proceed st ok :
  inv st →
  proceeds (worker_waits ok (wk st).1) (submissionWorker_step ok (sh st) (wk st).1) ∧
  proceeds (worker_waits ok (wk st).2) (reinjectionWorker_step ok (sh st) (wk st).2).
Proof.
  intros Hinv. sums st. pose proof (slot_weights_nonneg st) as Hw.
  pose proof (i_slots _ Hinv). pose proof (i_cbslots _ Hinv).
  split.
  - destruct (wk st).1 eqn:E; cbn [submissionWorker_step worker_waits w_slot] in *;
      unfold lane_recv, slot_release, fatal_enter;
      try (repeat case_match; simplify_eq/=; try done; zbool; lia).
    fatal_ready Hinv. unfold sending. rewrite E. cbn [w_sending]. lia.
  - destruct (wk st).2 eqn:E; cbn [reinjectionWorker_step worker_waits w_slot] in *;
      unfold lane_recv, slot_release, fatal_enter;
      try (repeat case_match; simplify_eq/=; try done; zbool; lia).
    fatal_ready Hinv. unfold sending. rewrite E. cbn [w_sending]. lia.
Qed.

Lemma others_proceed st i pc :
  inv st → others st !! i = Some pc → proceeds (other_waits pc) (fatal_step (sh st) pc).
Proof.
  intros Hinv Hi. sums st.
  assert (other_sending pc ≤ zsum other_sending (others st)) by (eapply zsum_at; [intros []; simpl; lia|done]).
  destruct pc; cbn [fatal_step other_waits other_sending] in *; unfold fatal_enter;
    try (repeat case_match; simplify_eq/=; done).
  fatal_ready Hinv. unfold sending. lia.
Qed.

Lemma life_proceeds st c :
  inv st → proceeds (life_waits (life st)) (life_step c (sh st) (wk st) (life st)).
Proof.
  intros Hinv. sums st. pose proof (slot_weights_nonneg st) as Hw.
  pose proof (i_slots _ Hinv). pose proof (i_cbslots _ Hinv).
  pose proof (i_gate _ Hinv). pose proof (i_lock _ Hinv).
  pose proof (i_closed _ Hinv) as Hcl. pose proof (i_cbclosed _ Hinv) as Hcc.
  destruct (life st) as [| |k] eqn:E; [by cbn; repeat case_match..|].
  destruct k; cbn [life_step stop_step_fn life_waits life_gate life_lock life_out_slot life_cb_slot
                   out_closed cb_closed flags_set] in *;
    unfold lock_take, lock_give, lane_close, lane_recv, slot_release, fatal_enter;
    rewrite ?Hcl, ?Hcc;
    try (repeat case_match; simplify_eq/=; try done; zbool; lia).
  fatal_ready Hinv. unfold sending. rewrite E. cbn [life_sending]. lia.
Qed.

(** C36: under every schedule of concurrent submissions, callbacks, fatal reports,
    start and stop, no operation of the mediation service panics (no send on or
    close of a closed channel, no unlock of a free mutex, also in shutdown), and
    none blocks but the waits the code means: for the submission gate and a
    slot in blocking mode, for the callback mutex, for an item, for
    workers, and for code outside the service (the POST to the controller, the
    dispatch into a reactor, the registration, the shutdown of the HTTP server)
    until it returns.  Reserving, enqueueing, releasing and reporting a fatal
    error always complete at once.  A submission starts after its static checks
    and a callback after the checks of [serve_checks]; what panics there, or in
    the code outside, is not an operation here. *)
Theorem goroutines_proceed st :
  running_config → reachable cfg localID st →
  (∀ i pc giveup, subs st !! i = Some pc →
     proceeds (sub_waits pc) (sub_step cfg localID giveup (sh st) pc)) ∧
  (∀ i pc, hands st !! i = Some pc → proceeds (hand_waits pc) (hand_step cfg (sh st) pc)) ∧
  (∀ answer, proceeds (worker_waits answer (wk st).1) (submissionWorker_step answer (sh st) (wk st).1) ∧
         proceeds (worker_waits answer (wk st).2) (reinjectionWorker_step answer (sh st) (wk st).2)) ∧
  (∀ i pc, others st !! i = Some pc → proceeds (other_waits pc) (fatal_step (sh st) pc)) ∧
  (∀ c, proceeds (life_waits (life st)) (life_step c (sh st) (wk st) (life st))).
Proof.
  intros Hcfg Hr. pose proof (run_inv st Hcfg Hr) as Hinv.
  split_and!; eauto using sub_proceeds, hand_proceeds, workers_proceed, others_proceed, life_proceeds.
Qed.

(** ** Reservations *)

Lemma zsum_nonneg_Forall {A} (f : A → Z) (P : A → Prop) l :
  (∀ x, P x → 0 ≤ f x) → Forall P l → 0 ≤ zsum f l.
Proof. intros Hf. induction 1 as [|x l Hx _ IH]; cbn [zsum]; [lia|]. specialize (Hf x Hx). lia. Qed.

Lemma byte_weights_nonneg st : inv st →
  0 ≤ zsum sub_held (subs st) ∧ 0 ≤ zsum hand_held (hands st) ∧ 0 ≤ zsum hand_want (hands st) ∧
  0 ≤ w_held oi_bytes (wk st).1 ∧ 0 ≤ w_held ri_bytes (wk st).2 ∧
  0 ≤ life_out_held (life st) ∧ 0 ≤ life_cb_held (life st) ∧
  0 ≤ zsum oi_bytes (queue (out (sh st))) ∧ 0 ≤ zsum ri_bytes (queue (cb (sh st))).
Proof.
  intros Hinv. destruct (i_items _ Hinv) as (Hq & Hw & Hs), (i_cbitems _ Hinv) as (Hcq & Hcw & Hh).
  pose proof (i_lifeitem _ Hinv) as Hl.
  split_and!; try (eapply zsum_nonneg_Forall; [|done]; intros []; simpl; lia).
  - destruct (wk st).1; simpl in *; lia.
  - destruct (wk st).2; simpl in *; lia.
  - destruct (life st) as [| |[]]; simpl in *; lia.
  - destruct (life st) as [| |[]]; simpl in *; lia.
Qed.

(** No call in flight: every submission and callback has returned, the workers
    are between items, and nobody is stopping the service. *)
Definition quiet (st : state) : Prop :=
  Forall (λ pc, ∃ res, pc = SReturned res) (subs st) ∧
  Forall (λ pc, ∃ res, pc = HAnswered res) (hands st) ∧
  worker_waits (Some true) (wk st).1 = true ∧ worker_waits (Some true) (wk st).2 = true ∧ life st = LIdle.

Lemma zsum_zero {A} (f : A → Z) (P : A → Prop) l : (∀ x, P x → f x = 0) → Forall P l → zsum f l = 0.
Proof. intros Hf. induction 1 as [|x l Hx _ IH]; cbn [zsum]; [done|]. rewrite IH, Hf by done. done. Qed.

Lemma quiet_weights ss hs :
  Forall (λ pc, ∃ res, pc = SReturned res) ss → Forall (λ pc, ∃ res, pc = HAnswered res) hs →
  zsum sub_slot ss = 0 ∧ zsum sub_held ss = 0 ∧ zsum hand_slot hs = 0 ∧ zsum hand_held hs = 0.
Proof. intros Hs Hh. split_and!; (eapply zsum_zero; [|done]); by intros ? [? ->]. Qed.

(** reservations are exact.  The slots taken and the bytes counted always cover
    the queued items and never exceed the configured capacity and byte limit of
    either queue, however calls interleave and fail; and when no call is
    in flight they are exactly those of the queued items, so no path (refused,
    failed, stopped) leaks a slot or a byte. *)
Theorem reservations_exact st :
  running_config → reachable cfg localID st →
  let o := out (sh st) in let c := cb (sh st) in
  zlen (queue o) ≤ slots o ≤ OutboundQueueCapacity cfg ∧
  zlen (queue c) ≤ slots c ≤ CallbackQueueCapacity cfg ∧
  zsum oi_bytes (queue o) ≤ held o ≤ OutboundQueueBytes cfg ∧
  zsum ri_bytes (queue c) ≤ held c ≤ CallbackQueueBytes cfg ∧
  (quiet st → slots o = zlen (queue o) ∧ held o = zsum oi_bytes (queue o) ∧
              slots c = zlen (queue c) ∧ held c = zsum ri_bytes (queue c)).
Proof.
  intros Hcfg Hr. pose proof (run_inv st Hcfg Hr) as Hinv.
  pose proof (byte_weights_nonneg st Hinv). pose proof (slot_weights_nonneg st). sums st. cbn zeta.
  destruct Hinv. split_and!; try lia.
  intros (Hs & Hh & Hw1 & Hw2 & Hl). rewrite Hl in *. cbn [life_out_slot life_out_held life_cb_slot life_cb_held] in *.
  destruct (quiet_weights _ _ Hs Hh) as (E1 & E2 & E3 & E4). rewrite E1, E2, E3, E4 in *.
  destruct (wk st) as [w1 w2]; cbn [fst snd] in *.
  destruct w1; try discriminate Hw1; destruct w2; try discriminate Hw2; cbn [w_slot w_held] in *; lia.
Qed.

(** ** Fatal errors *)

(** What reaches the fatal channel is the recorded error, and a service with a fatal
    error or one that is stopping is not ready. *)
Definition fatal_ok (c : control) : Prop :=
  Forall (λ e, fatalErr c = Some e) (fatalC c) ∧ (stopping c = true → ready c = false) ∧
  (fatalErr c ≠ None → ready c = false).

Definition same_fatal (c c' : control) : Prop :=
  (∀ e, fatalErr c = Some e → fatalErr c' = Some e) ∧ (stopping c = true → stopping c' = true).

Lemma fatal_enter_ok c class c' first :
  fatal_ok c → fatal_enter c class = (c', first) → fatal_ok c' ∧ same_fatal c c'.
Proof.
  unfold fatal_enter. intros Hok E. destruct (fatalErr c) eqn:Ec; simplify_eq/=; [done|].
  unfold fatal_ok, same_fatal in *. destruct Hok as (Hf & Hs & He). rewrite Ec in *. cbn.
  split_and!; try done. destruct (fatalC c); [constructor|]. by apply Forall_cons in Hf as [[=] _].
Qed.

Lemma fatal_send_ok c c' : fatal_ok c → fatal_send c = Next c' → fatal_ok c' ∧ same_fatal c c'.
Proof.
  unfold fatal_send. intros (Hf & Hs & He) E. destruct (fatalC c), (fatalErr c) eqn:Ec; simplify_eq/=.
  unfold fatal_ok, same_fatal. cbn. rewrite Ec in *. split_and!; try done. by repeat constructor.
Qed.

Lemma fatal_ok_id c : fatal_ok c → fatal_ok c ∧ same_fatal c c.
Proof. by intros. Qed.

Ltac fatal_cases E :=
  repeat match type of E with
  | context [let '(_, _) := ?x in _] => let Ef := fresh "Ef" in destruct x as [? []] eqn:Ef
  | context [match fatal_send ?c with _ => _ end] => let Ef := fresh "Ef" in destruct (fatal_send c) eqn:Ef
  end;
  simplify_eq/=; repeat (case_match; simplify_eq/=);
  eauto using fatal_enter_ok, fatal_send_ok, fatal_ok_id.

Lemma life_fatal_ok c s w pc s' w' pc' :
  fatal_ok (ctl s) → (pc = LRegister → stopping (ctl s) = false) →
  life_step c s w pc = Next (s', w', pc') → fatal_ok (ctl s') ∧ same_fatal (ctl s) (ctl s').
Proof.
  intros Hok Hreg E. destruct pc as [| |k]; [| |destruct k]; cbn [life_step stop_step_fn] in E; fatal_cases E;
    try (unfold fatal_ok, same_fatal in *; cbn; by intuition).
  specialize (Hreg eq_refl). unfold fatal_ok, same_fatal in *; cbn; rewrite ?Hreg in *; by intuition.
Qed.

Lemma step_fatal_ok st st' :
  inv st → fatal_ok (ctl (sh st)) → step cfg localID st st' →
  fatal_ok (ctl (sh st')) ∧ same_fatal (ctl (sh st)) (ctl (sh st')).
Proof.
  intros Hinv Hok Hstep.
  destruct Hstep as [| | |i g pc s' pc' _ E|i pc s' pc' _ E|ok s' w' E|ok s' w' E|i pc s' pc' _ E|c s' w' pc' E|];
    cbn [sh]; try (by apply fatal_ok_id).
  - destruct pc; cbn [sub_step] in E; fatal_cases E.
  - destruct pc; cbn [hand_step] in E; fatal_cases E.
  - destruct (wk st).1; cbn [submissionWorker_step] in E; fatal_cases E.
  - destruct (wk st).2; cbn [reinjectionWorker_step] in E; fatal_cases E.
  - destruct pc; cbn [fatal_step] in E; fatal_cases E.
  - eapply life_fatal_ok; [done| |exact E]. intros Hl. by rewrite (i_stopping _ Hinv), Hl.
  - unfold fatal_ok, same_fatal in *; cbn; by intuition.
Qed.

Lemma reachable_fatal_ok st : running_config → reachable cfg localID st → fatal_ok (ctl (sh st)).
Proof.
  intros Hcfg. induction 1 as [|st st' Hr IH Hs]; [by split_and!; try constructor|].
  by apply (step_fatal_ok st st'); [apply run_inv|..].
Qed.

(** the first fatal error is the one that counts: once recorded it never changes,
    only it is ever delivered on the fatal channel, which never holds more
    than one error; and from the moment an error is recorded or shutdown has
    begun the service is never ready again, whatever happens next. *)
Theorem first_fatal_wins st st' :
  running_config → reachable cfg localID st → step cfg localID st st' →
  (∀ e, fatalErr (ctl (sh st)) = Some e → fatalErr (ctl (sh st')) = Some e) ∧
  (∀ e, e ∈ fatalC (ctl (sh st')) → fatalErr (ctl (sh st')) = Some e) ∧
  zlen (fatalC (ctl (sh st'))) ≤ 1 ∧
  (stopping (ctl (sh st)) = true → stopping (ctl (sh st')) = true) ∧
  (is_Some (fatalErr (ctl (sh st'))) ∨ stopping (ctl (sh st')) = true →
   ready (ctl (sh st')) = false ∧ isReady (ctl (sh st')) = false).
Proof.
  intros Hcfg Hr Hs. pose proof (run_inv st Hcfg Hr) as Hinv. pose proof (step_inv st st' Hinv Hs) as Hinv'.
  destruct (step_fatal_ok st st' Hinv (reachable_fatal_ok st Hcfg Hr) Hs) as [(Hf & Hst & He) [Hsame Hstop]].
  split_and!; [done| | |done|].
  - intros e Hin. rewrite Forall_forall in Hf. by apply Hf.
  - pose proof (i_fatal _ Hinv'). sums st'. unfold sending in *.
    destruct (bool_decide (fatalErr (ctl (sh st')) ≠ None)); cbn [b2z] in *; lia.
  - intros Hor. assert (ready (ctl (sh st')) = false) as Hnr.
    { destruct Hor as [[e Hsome]|]; [|by apply Hst]. apply He. by rewrite Hsome. }
    split; [done|]. unfold isReady. by rewrite Hnr.
Qed.

(** ** Order of submissions *)

(** The item a submission has numbered and is about to enqueue. *)
Definition pending (pc : spc) : option outboundMediationItem :=
  match pc with SEnqueue it => Some it | _ => None end.

Definition ids_to (d : list Z) (l : list outboundMediationItem) : list (list Z) :=
  (λ it, ID (oi_message it)) <$> filter (λ it, To (oi_message it) = d) l.

Definition numbered (d : list Z) (k : nat) : list (list Z) :=
  (λ n, message_id localID d (Z.of_nat n)) <$> seq 0 k.

Lemma omap_cons_list {A B} (f : A → option B) (x : A) (l : list A) :
  omap f (x :: l) = option_list (f x) ++ omap f l.
Proof. cbn. by destruct (f x). Qed.

Lemma omap_insert_same {A B} (f : A → option B) (l : list A) i x y :
  l !! i = Some x → f x = f y → omap f (<[i:=y]> l) = omap f l.
Proof.
  revert i. induction l as [|z l IH]; intros [|i] Hi Hf; try done.
  - injection Hi as ->. change (<[0%nat:=y]> (x :: l)) with (y :: l). by rewrite !omap_cons_list, Hf.
  - change (<[S i:=y]> (z :: l)) with (z :: <[i:=y]> l). by rewrite !omap_cons_list, (IH i Hi Hf).
Qed.

(** Only the goroutine that holds the one resource contributes. *)
Lemma sole_omap {A B} (g : A → Z) (f : A → option B) (l : list A) i x y :
  l !! i = Some x → (∀ z, 0 ≤ g z) → zsum g l ≤ 1 → g x = 1 → (∀ z, g z = 0 → f z = None) →
  omap f (<[i:=y]> l) = option_list (f y).
Proof.
  intros Hi Hg Hl Hx Hf. revert i Hi Hl.
  assert (Hzero : ∀ k : list A, zsum g k ≤ 0 → omap f k = []).
  { induction k as [|z k IH]; intros Hk; [done|]. cbn [zsum] in Hk.
    pose proof (zsum_nonneg g k (λ z _, Hg z)). specialize (Hg z). rewrite omap_cons_list, IH, Hf by lia. done. }
  induction l as [|z l IH]; intros i Hi Hl; [done|].
  cbn [zsum] in Hl. pose proof (zsum_nonneg g l (λ z _, Hg z)).
  destruct i as [|i].
  - injection Hi as ->. change (<[0%nat:=y]> (x :: l)) with (y :: l).
    rewrite omap_cons_list, Hzero by lia. by rewrite app_nil_r.
  - change (<[S i:=y]> (z :: l)) with (z :: <[i:=y]> l). change (l !! i = Some x) in Hi.
    assert (g x ≤ zsum g l) by (apply zsum_elem_le; [auto|by eapply list_elem_of_lookup_2]).
    specialize (Hg z). rewrite omap_cons_list, (Hf z) by lia. apply IH; [done|lia].
Qed.

Record ids_inv (st : state) : Prop := {
  n_counters : counters_ok (counters (sh st));
  n_ids : ∀ d, ids_to d (admitted (sh st) ++ omap pending (subs st)) =
               numbered d (Z.to_nat (default 0 (counters (sh st) !! d)))
}.

Lemma ids_to_app d l k : ids_to d (l ++ k) = ids_to d l ++ ids_to d k.
Proof. unfold ids_to. by rewrite filter_app, fmap_app. Qed.

Lemma ids_to_singleton d it :
  ids_to d [it] = if decide (To (oi_message it) = d) then [ID (oi_message it)] else [].
Proof. unfold ids_to. rewrite filter_cons, filter_nil. by case_decide. Qed.

Lemma numbered_S d k : numbered d (S k) = numbered d k ++ [message_id localID d (Z.of_nat k)].
Proof. unfold numbered. by rewrite seq_S, fmap_app. Qed.

Lemma ids_sub st i giveup pc s' pc' :
  inv st → ids_inv st → subs st !! i = Some pc → sub_step cfg localID giveup (sh st) pc = Next (s', pc') →
  ids_inv (mkState s' (<[i:=pc']> (subs st)) (hands st) (wk st) (others st) (life st)).
Proof.
  intros Hinv [Hc Hids] Hi E.
  assert (Hsole : sub_gate pc = 1 → ∀ y, omap pending (<[i:=y]> (subs st)) = option_list (pending y)).
  { intros Hg y. apply (sole_omap sub_gate pending _ _ pc); [done|apply sub_gate_nonneg| |done|by intros []].
    pose proof (i_gate _ Hinv). pose proof (slot_weights_nonneg st).
    unfold b2z in *. destruct (lock_free (out (sh st))); lia. }
  assert (Hkeep : admitted s' = admitted (sh st) → counters s' = counters (sh st) → pending pc = pending pc' →
     ids_inv (mkState s' (<[i:=pc']> (subs st)) (hands st) (wk st) (others st) (life st))).
  { intros E1 E2 E3. split; cbn [sh subs]; rewrite ?E1, ?E2; [done|].
    by rewrite (omap_insert_same _ _ _ pc). }
  destruct pc; cbn [sub_step] in E; try (step_cases E; by apply Hkeep).
  - pose proof (nextID_spec localID (CounterRegistryCapacity cfg) (counters (sh st)) (sb_dest r) Hc) as Hs.
    destruct (nextID _ _ _ _) as [m [id|]]; simplify_eq/=; destruct Hs as [Hc' Hr]; [|subst; by apply Hkeep].
    destruct Hr as (n & Hn & -> & Hn' & ->). split; cbn [sh subs set_counters counters admitted]; [done|]. intros d.
    specialize (Hids d). rewrite <-(list_insert_id _ _ _ Hi), Hsole in Hids by done.
    cbn in Hids. rewrite app_nil_r in Hids.
    rewrite Hsole by done. cbn [pending option_list option_rect from_option]. rewrite ids_to_app, Hids, ids_to_singleton. cbn [oi_message To ID].
    destruct (decide (sb_dest r = d)) as [<-|Hd].
    + rewrite lookup_insert_eq. cbn [from_option id]. rewrite <-Hn'.
      replace (Z.to_nat (n + 1)) with (S (Z.to_nat n)) by lia. by rewrite numbered_S, Z2Nat.id by lia.
    + rewrite lookup_insert_ne by done. by rewrite app_nil_r.
  - step_cases E. split; cbn [sh subs note_admitted set_out counters admitted]; [done|]. intros d.
    rewrite Hsole by done. cbn [pending option_list]. rewrite app_nil_r, <-Hids.
    specialize (Hsole eq_refl (SEnqueue it)). rewrite list_insert_id in Hsole by done. by rewrite Hsole.
Qed.

(** The other goroutines leave the numbering alone. *)
Lemma step_ids st st' : inv st → ids_inv st → step cfg localID st st' → ids_inv st'.
Proof.
  intros Hinv Hids Hstep.
  assert (Hkeep : ∀ s' hs w o l, admitted s' = admitted (sh st) → counters s' = counters (sh st) →
     ids_inv (mkState s' (subs st) hs w o l)).
  { intros s' hs w o l E1 E2. destruct Hids as [Hc Hn]. split; cbn [sh subs]; by rewrite ?E1, ?E2. }
  destruct Hstep as [r| | |i g pc s' pc' Hi E|i pc s' pc' _ E|ok s' w' E|ok s' w' E|i pc s' pc' _ E|c s' w' pc' E|];
    try (by apply Hkeep).
  - destruct Hids as [Hc Hn]. split; [done|]. cbn [sh subs]. intros d. rewrite omap_app. cbn. by rewrite app_nil_r.
  - by eapply ids_sub.
  - destruct pc; cbn [hand_step] in E; step_cases E; by apply Hkeep.
  - destruct (wk st).1; cbn [submissionWorker_step] in E; step_cases E; by apply Hkeep.
  - destruct (wk st).2; cbn [reinjectionWorker_step] in E; step_cases E; by apply Hkeep.
  - destruct pc; cbn [fatal_step] in E; step_cases E; by apply Hkeep.
  - destruct (life st) as [| |[]]; cbn [life_step stop_step_fn] in E; step_cases E; by apply Hkeep.
Qed.

Lemma reachable_ids st : running_config → reachable cfg localID st → ids_inv st.
Proof.
  intros Hcfg. induction 1 as [|st st' Hr IH Hs]; [|by eapply step_ids; [apply run_inv|..]].
  split; [by apply map_Forall_empty|done].
Qed.

Lemma numbered_prefix d l k c : l ++ k = numbered d c → l = numbered d (length l).
Proof.
  intros E. assert (length l ≤ c)%nat.
  { apply (f_equal length) in E. unfold numbered in E. rewrite length_app, length_fmap, length_seq in E. lia. }
  rewrite <-(take_app_length l k) at 1. rewrite E. unfold numbered.
  by rewrite <-fmap_take, take_seq, Nat.min_l by done.
Qed.

(** C37: the outbound queue is first in, first out and loses nothing: what [Submit]
    accepted is, in order, what the worker has taken, what shutdown has
    released and what is still queued, and shutdown releases only once both workers
    are gone.  For each destination the accepted messages, hence
    those posted to the controller, carry the ids 0, 1, 2, ... in order, without
    gap or repetition, however many goroutines submit at the same time. *)
Theorem submissions_in_order st :
  running_config → reachable cfg localID st →
  admitted (sh st) = attempted (sh st) ++ drained (sh st) ++ queue (out (sh st)) ∧
  (drained (sh st) ≠ [] → worker_stopped (wk st).1 = true ∧ worker_stopped (wk st).2 = true) ∧
  ∀ d, (∃ k, ids_to d (admitted (sh st)) = numbered d k) ∧ (∃ k, ids_to d (attempted (sh st)) = numbered d k).
Proof.
  intros Hcfg Hr. pose proof (run_inv st Hcfg Hr) as Hinv. pose proof (reachable_ids st Hcfg Hr) as Hids.
  pose proof (i_history _ Hinv) as Hh. split_and!; [done|intros Hd; by apply (i_drain _ Hinv); right|].
  intros d. pose proof (n_ids _ Hids d) as Hn. rewrite ids_to_app in Hn.
  split; [eexists; by eapply numbered_prefix|].
  rewrite Hh, ids_to_app, <-app_assoc in Hn. eexists. by eapply numbered_prefix.
Qed.

(** ** Shutdown completes *)

(** Operations left in a call, at most. *)
Definition sub_rank (pc : spc) : nat :=
  match pc with
  | SGate _ => 13 | SSlot _ => 12 | SReady _ => 11 | SBytes _ => 10 | SAdd _ => 9 | SNextID _ => 8
  | SEnqueue _ => 7 | SUnadd _ => 7 | SRelSlot _ => 6 | SFatal => 5 | SFatalSend => 4 | SRelGate _ => 1
  | SReturned _ => 0
  end%nat.
Definition hand_rank (pc : hpc) : nat :=
  match pc with
  | HLock _ => 12 | HReady _ => 11 | HSlot _ => 10 | HBytes _ => 9 | HAdd _ => 8 | HEnqueue _ => 7
  | HRelSlot => 7 | HUnlock _ => 6 | HRejected => 5 | HFatal => 4 | HFatalSend => 3 | HAnswered _ => 0
  end%nat.
Definition stop_rank (s : shared) (k : stop_step) : nat :=
  let o := length (queue (out s)) in let c := length (queue (cb s)) in
  match k with
  | PFlags => 20 | PShutdown => 19 | PCancel => 18 | PTakeGate => 17 | PCloseOut => 16 | PGiveGate => 15
  | PLockCb => 14 | PCloseCb => 13 | PUnlockCb => 12 | PWait => 11 | PWaitFatal => 3 | PWaitFatalSend => 2
  | PDrainOut => 3 * o + 3 * c + 3 | PDrainOutSlot _ => 3 * o + 3 * c + 5 | PDrainOutBytes _ => 3 * o + 3 * c + 4
  | PDrainCb => 3 * c + 2 | PDrainCbSlot _ => 3 * c + 4 | PDrainCbBytes _ => 3 * c + 3
  | PFinish => 1
  end%nat.

(** Every operation of [Submit] and of a callback brings the call nearer its end. *)
Lemma sub_step_rank giveup s pc s' pc' :
  sub_step cfg localID giveup s pc = Next (s', pc') → (sub_rank pc' < sub_rank pc)%nat.
Proof. intros E. destruct pc; cbn [sub_step] in E; step_cases E; cbn; lia. Qed.

Lemma hand_step_rank s pc s' pc' :
  hand_step cfg s pc = Next (s', pc') → (hand_rank pc' < hand_rank pc)%nat.
Proof. intros E. destruct pc; cbn [hand_step] in E; step_cases E; cbn; lia. Qed.

Lemma stop_step_rank s w k s' w' pc' :
  stop_step_fn CTimeout s w k = Next (s', w', pc') →
  (pc' = LIdle ∧ lifecycle (ctl s') = LcStopped) ∨ ∃ k', pc' = LStop k' ∧ (stop_rank s' k' < stop_rank s k)%nat.
Proof.
  intros E. destruct k; cbn [stop_step_fn] in E; step_cases E;
    first [by left; split|right; eexists; split; [done|]; cbn; try lia].
  all: repeat match goal with Eq : queue _ = _ |- _ => rewrite Eq end; cbn; lia.
Qed.

Definition nsum {A} (f : A → nat) (l : list A) : nat := foldr (λ x n, f x + n)%nat 0%nat l.

Lemma nsum_insert {A} (f : A → nat) (l : list A) i x y :
  l !! i = Some x → (f y < f x)%nat → (nsum f (<[i:=y]> l) < nsum f l)%nat.
Proof.
  revert i. induction l as [|z l IH]; intros [|i] Hi Hf; try done.
  - injection Hi as ->. cbn. lia.
  - specialize (IH i Hi Hf). change (<[S i:=y]> (z :: l)) with (z :: <[i:=y]> l). cbn [nsum foldr]. unfold nsum in *. lia.
Qed.

(** A goroutine holds a lock that is not free. *)
Lemma holder {A} (g : A → Z) (l : list A) :
  (∀ x, g x = 0 ∨ g x = 1) → 1 ≤ zsum g l → ∃ i x, l !! i = Some x ∧ g x = 1.
Proof.
  intros Hg. induction l as [|x l IH]; cbn [zsum]; intros Hs; [lia|].
  destruct (Hg x) as [H0|H1]; [|by exists 0%nat, x].
  destruct IH as (i & y & ? & ?); [lia|]. by exists (S i), y.
Qed.

(** A step of a goroutine that is already there. *)
Definition own_step (st st' : state) : Prop :=
  step cfg localID st st' ∧ length (subs st') = length (subs st) ∧
  length (hands st') = length (hands st) ∧ length (others st') = length (others st).

Definition shutdown_rank (st : state) (k : stop_step) : nat :=
  (stop_rank (sh st) k + nsum sub_rank (subs st) + nsum hand_rank (hands st))%nat.

Lemma shutdown_progress st k :
  inv st → life st = LStop k →
  ∃ st', own_step st st' ∧
    ((life st' = LIdle ∧ lifecycle (ctl (sh st')) = LcStopped) ∨
     ∃ k', life st' = LStop k' ∧ (shutdown_rank st' k' < shutdown_rank st k)%nat).
Proof.
  intros Hinv Hl. pose proof (life_proceeds st CTimeout Hinv) as Hp. rewrite Hl in Hp. cbn [life_step] in Hp.
  destruct (stop_step_fn CTimeout (sh st) (wk st) k) as [[[s' w'] pc']| |] eqn:E; cbn [proceeds] in Hp; [|..|done].
  - eexists. split; [split; [eapply step_life; rewrite Hl; exact E|done]|]. cbn [life sh].
    destruct (stop_step_rank _ _ _ _ _ _ E) as [?|(k' & -> & Hk)]; [by left|right].
    exists k'. split; [done|]. unfold shutdown_rank. cbn [sh subs hands]. lia.
  - pose proof (i_gate _ Hinv) as Hg. pose proof (i_lock _ Hinv) as Hh. rewrite Hl in Hg, Hh.
    destruct k; cbn in Hp; try done; cbn [stop_step_fn life_gate life_lock] in *; unfold lock_take in E.
    + destruct (lock_free (out (sh st))); [done|]. cbn [b2z] in Hg.
      destruct (holder sub_gate (subs st)) as (i & pc & Hi & Hpc); [intros []; simpl; auto|lia|].
      pose proof (sub_proceeds st i pc true Hinv Hi) as Hs.
      destruct (sub_step cfg localID true (sh st) pc) as [[s' pc']| |] eqn:Es; cbn [proceeds] in Hs; [|..|done].
      * eexists. split; [split; [by eapply step_submit|cbn [subs]; by rewrite length_insert]|].
        right. exists PTakeGate. split; [done|]. unfold shutdown_rank. cbn [sh subs hands stop_rank].
        pose proof (nsum_insert sub_rank _ _ _ _ Hi (sub_step_rank _ _ _ _ _ Es)). lia.
      * exfalso. destruct pc; try done. cbn [sub_step] in Es. cbn in Hs. rewrite Hs in Es. done.
    + destruct (lock_free (cb (sh st))); [done|]. cbn [b2z] in Hh.
      destruct (holder hand_lock (hands st)) as (i & pc & Hi & Hpc); [intros []; simpl; auto|lia|].
      pose proof (hand_proceeds st i pc Hinv Hi) as Hs.
      destruct (hand_step cfg (sh st) pc) as [[s' pc']| |] eqn:Es; cbn [proceeds] in Hs; [|by destruct pc|done].
      eexists. split; [split; [by eapply step_callback|cbn [hands]; by rewrite length_insert]|].
      right. exists PLockCb. split; [done|]. unfold shutdown_rank. cbn [sh subs hands stop_rank].
      pose proof (nsum_insert hand_rank _ _ _ _ Hi (hand_step_rank _ _ _ _ Es)). lia.
Qed.

(** shutdown cannot be stuck.  From every reachable state in which [Stop] (or a
    failed [Start]) is inside [stopLocked], whatever the submissions, callbacks
    and workers are doing, the goroutines already there can complete it without any
    new call: the gate and the mutex it waits for are held by calls that
    can always go on and release them, and the wait for the workers is bounded
    by its timer.  No operation of a call repeats: a [Submit] takes at most 13 and a
    callback at most 12. *)
Theorem shutdown_completes st k :
  running_config → reachable cfg localID st → life st = LStop k →
  (∃ st', rtc own_step st st' ∧ life st' = LIdle ∧ lifecycle (ctl (sh st')) = LcStopped) ∧
  (∀ giveup pc s' pc', sub_step cfg localID giveup (sh st) pc = Next (s', pc') → (sub_rank pc' < sub_rank pc ≤ 13)%nat) ∧
  (∀ pc s' pc', hand_step cfg (sh st) pc = Next (s', pc') → (hand_rank pc' < hand_rank pc ≤ 12)%nat).
Proof.
  intros Hcfg Hr Hl. split_and!.
  - apply run_inv in Hr as Hinv; [|done]. clear Hr.
    remember (shutdown_rank st k) as n eqn:Hn. revert st k Hn Hl Hinv.
    induction (lt_wf n) as [n _ IH]. intros st k -> Hl Hinv.
    destruct (shutdown_progress st k Hinv Hl) as (st' & Hs & [[? ?]|(k' & Hl' & Hlt)]).
    + exists st'. split; [by apply rtc_once|done].
    + destruct (IH _ Hlt st' k' eq_refl Hl') as (st'' & ? & ?); [by eapply step_inv; [|apply Hs]|].
      exists st''. split; [by eapply rtc_l|done].
  - intros giveup pc s' pc' E. split; [by eapply sub_step_rank|]. destruct pc; cbn; lia.
  - intros pc s' pc' E. split; [by eapply hand_step_rank|]. destruct pc; cbn; lia.
Qed.


End invariant.

(** ** Executing a schedule *)

Section schedule.
Variables (cfg : ControllerMediationConfig) (localID : list Z).

(** One scheduling choice. *)
Inductive action :=
| ACall (r : submission) | ACallback (it : reinjectionItem) | AReport (class : string)
| ASubmit (i : nat) (giveup : bool) | AServe (i : nat) | APost (ok : bool) | AReinject (ok : bool)
| AFatal (i : nat) | ALife (c : life_choice).

Definition perform (st : state) (a : action) : option state :=
  match a with
  | ACall r => Some (mkState (sh st) (subs st ++ [SGate r]) (hands st) (wk st) (others st) (life st))
  | ACallback it =>
      if 0 <=? ri_bytes it
      then Some (mkState (sh st) (subs st) (hands st ++ [HLock it]) (wk st) (others st) (life st)) else None
  | AReport class => Some (mkState (sh st) (subs st) (hands st) (wk st) (others st ++ [FFatal class]) (life st))
  | ASubmit i giveup =>
      match subs st !! i with
      | Some pc => match sub_step cfg localID giveup (sh st) pc with
                   | Next (s', pc') => Some (mkState s' (<[i:=pc']> (subs st)) (hands st) (wk st) (others st) (life st))
                   | _ => None
                   end
      | None => None
      end
  | AServe i =>
      match hands st !! i with
      | Some pc => match hand_step cfg (sh st) pc with
                   | Next (s', pc') => Some (mkState s' (subs st) (<[i:=pc']> (hands st)) (wk st) (others st) (life st))
                   | _ => None
                   end
      | None => None
      end
  | APost ok => match submissionWorker_step (Some ok) (sh st) (wk st).1 with
                | Next (s', w') => Some (mkState s' (subs st) (hands st) (w', (wk st).2) (others st) (life st))
                | _ => None
                end
  | AReinject ok => match reinjectionWorker_step (Some ok) (sh st) (wk st).2 with
                    | Next (s', w') => Some (mkState s' (subs st) (hands st) ((wk st).1, w') (others st) (life st))
                    | _ => None
                    end
  | AFatal i =>
      match others st !! i with
      | Some pc => match fatal_step (sh st) pc with
                   | Next (s', pc') => Some (mkState s' (subs st) (hands st) (wk st) (<[i:=pc']> (others st)) (life st))
                   | _ => None
                   end
      | None => None
      end
  | ALife c => match life_step c (sh st) (wk st) (life st) with
               | Next (s', w', pc') => Some (mkState s' (subs st) (hands st) w' (others st) pc')
               | _ => None
               end
  end.

Fixpoint performs (st : state) (l : list action) : option state :=
  match l with
  | [] => Some st
  | a :: l => match perform st a with Some st' => performs st' l | None => None end
  end.

Lemma perform_step st a st' : perform st a = Some st' → step cfg localID st st'.
Proof.
  destruct a; cbn [perform]; intros E; repeat case_match; simplify_eq; zbool; by econstructor.
Qed.

Lemma performs_reachable st l st' :
  reachable cfg localID st → performs st l = Some st' → reachable cfg localID st'.
Proof.
  revert st. induction l as [|a l IH]; cbn [performs]; intros st Hr E; [by simplify_eq|].
  destruct (perform st a) as [st1|] eqn:Ea; [|done]. apply (IH st1); [|done].
  eapply reach_step; [done|by eapply perform_step].
Qed.

End schedule.

Definition ex_config : ControllerMediationConfig :=
  {| Enabled := true; ControllerAddress := "127.0.0.1:8074"; CallbackListenAddress := "127.0.0.1:8075";
     CallbackAdvertiseAddress := "127.0.0.1:8075"; NodeID := 0;
     OutboundQueueCapacity := 2; OutboundQueueBytes := 67108864;
     CallbackQueueCapacity := 256; CallbackQueueBytes := 67108864;
     CallbackMaxBodyBytes := 22000000; CounterRegistryCapacity := 65536;
     RegistrationAttempts := 5; RegistrationRetryDelay := 250000000;
     RequestTimeout := 3 * second; SendTimeout := 10 * second; ShutdownTimeout := 10 * second |}.

Lemma ex_config_running : running_config ex_config.
Proof. split; [done|]. by exists (λ _, true). Qed.

Definition ex_submission (d : Z) : submission :=
  mkSubmission (ex_node d) "Vote" [1; 34; 0; 0; 0; 0] true.

(** Two submissions to one peer, the first of which is posted, and a third call that
    holds the gate while [Stop] waits for it. *)
Definition ex_schedule : list action :=
  [ALife (CStart true); ALife (CRegister true); ACall (ex_submission 2); ACall (ex_submission 2);
   ACall (ex_submission 3)]
  ++ replicate 8 (ASubmit 0 false) ++ [APost true; APost true] ++ replicate 8 (ASubmit 1 false)
  ++ [ASubmit 2 false; ASubmit 2 false; ALife CStop; ALife CGo; ALife CIdle; ALife CGo].

Definition ex_run : state :=
  match performs ex_config (ex_node 1) initial ex_schedule with Some st => st | None => initial end.

Lemma ex_run_reachable : reachable ex_config (ex_node 1) ex_run.
Proof.
  apply (performs_reachable ex_config (ex_node 1) initial ex_schedule); [constructor|].
  unfold ex_run. by vm_compute.
Qed.

Lemma goroutines_proceed_witness :
  lock_free (out (sh ex_run)) = false ∧ life ex_run = LStop PTakeGate ∧
  proceeds true (life_step CGo (sh ex_run) (wk ex_run) (life ex_run)).
Proof.
  split; [by vm_compute|]. split; [by vm_compute|].
  exact (proj2 (proj2 (proj2 (proj2 (goroutines_proceed ex_config (ex_node 1) ex_run ex_config_running ex_run_reachable)))) CGo).
Defined.

Lemma reservations_exact_witness :
  zlen (queue (out (sh ex_run))) = 1 ∧ slots (out (sh ex_run)) ≤ 2.
Proof.
  split; [by vm_compute|].
  exact (proj2 (proj1 (reservations_exact ex_config (ex_node 1) ex_run ex_config_running ex_run_reachable))).
Defined.

Lemma submissions_in_order_witness :
  ids_to (ex_node 2) (admitted (sh ex_run)) = [message_id (ex_node 1) (ex_node 2) 0; message_id (ex_node 1) (ex_node 2) 1] ∧
  admitted (sh ex_run) = attempted (sh ex_run) ++ drained (sh ex_run) ++ queue (out (sh ex_run)).
Proof.
  split; [by vm_compute|].
  exact (proj1 (submissions_in_order ex_config (ex_node 1) ex_run ex_config_running ex_run_reachable)).
Defined.

Lemma shutdown_completes_witness :
  ∃ st', rtc (own_step ex_config (ex_node 1)) ex_run st' ∧ life st' = LIdle ∧ lifecycle (ctl (sh st')) = LcStopped.
Proof.
  refine (proj1 (shutdown_completes ex_config (ex_node 1) ex_run PTakeGate ex_config_running ex_run_reachable _)).
  by vm_compute.
Defined.

Lemma first_fatal_wins_witness :
  ∃ st', step ex_config (ex_node 1) ex_run st' ∧ isReady (ctl (sh st')) = false.
Proof.
  eexists (mkState (sh ex_run) (subs ex_run ++ [SGate (ex_submission 4)]) (hands ex_run) (wk ex_run) (others ex_run) (life ex_run)).
  split; [constructor|].
  refine (proj2 (proj2 (proj2 (proj2 (proj2 (first_fatal_wins ex_config (ex_node 1) ex_run _ ex_config_running ex_run_reachable
    (step_new_submit _ _ _ (ex_submission 4)))))) _)).
  right. by vm_compute.
Defined.

End MediationRun.
