(* ===== verification/PrivVal.v ===== *)
(** * PrivVal: the file-backed private validator of [privval/file.go] and
    [SignAndCheckVote] of [types/vote.go]

    The signer keeps the height, round and step it last signed for, with the
    bytes and the signature, in memory and in a file it writes before a signature
    leaves it.  A crash loses the memory and keeps the file.  The private key is
    a parameter; reading and writing JSON and files enter as the effect they have on the
    record: the two byte fields are marked [omitempty], so that an empty one reads
    back as nil. *)

From S2P Require Import Prelude Crypto Votes Proposal.

Local Open Scope Z_scope.

Module PrivVal.
Import Votes Proposal.

Definition stepNone : Z := 0.
Definition stepPropose : Z := 1.
Definition stepPrevote : Z := 2.
Definition stepPrecommit : Z := 3.

Definition voteToStep (vote : Vote) : outcome Z :=
  if Type_ vote =? PrevoteType then Done stepPrevote
  else if Type_ vote =? PrecommitType then Done stepPrecommit
  else Panic "Unknown vote type".

(** A nil byte slice is [None]. *)
Record FilePVLastSignState := mkLSS {
  lssHeight : Z; lssRound : Z; lssStep : Z;
  lssSignature : option (list Z); lssSignBytes : option (list Z)
}.

Definition reset : FilePVLastSignState := mkLSS 0 0 0 None None.

Definition CheckHRS (lss : FilePVLastSignState) (height round step : Z)
    : outcome (bool * option string) :=
  if lssHeight lss >? height then Done (false, Some "height regression"%string)
  else if negb (lssHeight lss =? height) then Done (false, None)
  else if lssRound lss >? round then Done (false, Some "round regression"%string)
  else if negb (lssRound lss =? round) then Done (false, None)
  else if lssStep lss >? step then Done (false, Some "step regression"%string)
  else if lssStep lss <? step then Done (false, None)
  else match lssSignBytes lss with
       | None => Done (false, Some "no SignBytes found"%string)
       | Some _ =>
           match lssSignature lss with
           | None => Panic "pv: Signature is nil but SignBytes is not!"
           | Some _ => Done (true, None)
           end
       end.

(** The signer: the state in memory and the state in the file. *)
Record FilePV := mkPV { LastSignState : FilePVLastSignState; file : FilePVLastSignState }.

(** Writing a byte field with [omitempty] and reading it back. *)
Definition omitempty (b : option (list Z)) : option (list Z) :=
  match b with Some [] => None | _ => b end.

Definition load (lss : FilePVLastSignState) : FilePVLastSignState :=
  mkLSS (lssHeight lss) (lssRound lss) (lssStep lss) (omitempty (lssSignature lss)) (omitempty (lssSignBytes lss)).

(** [LastSignState.Save]: the file now reads back as the record. *)
Definition Save (pv : FilePV) : FilePV := mkPV (LastSignState pv) (load (LastSignState pv)).

(** [GenFilePV] followed by [Save], as in [LoadOrGenFilePV]. *)
Definition NewFilePV : FilePV := Save (mkPV (mkLSS 0 0 stepNone None None) (mkLSS 0 0 0 None None)).

(** [LoadFilePV]: the process starts again from the file. *)
Definition loadFilePV (pv : FilePV) : FilePV := mkPV (file pv) (file pv).

(** [Reset], documented as unsafe. *)
Definition Reset (pv : FilePV) : FilePV := Save (mkPV reset (file pv)).

Definition saveSigned (pv : FilePV) (height round step : Z) (signBytes sig : list Z) : FilePV :=
  Save (mkPV (mkLSS height round step (Some sig) (Some signBytes)) (file pv)).

Definition set_vote_sig (v : Vote) (ts : Z) (sig : list Z) : Vote :=
  mkVote (Type_ v) (Height v) (Round v) (vBlockID v) ts (ValidatorAddress v) (ValidatorIndex v)
    sig (Extension v) (ExtensionSignature v).
Definition set_ext_sig (v : Vote) (sig : list Z) : Vote :=
  mkVote (Type_ v) (Height v) (Round v) (vBlockID v) (Timestamp v) (ValidatorAddress v) (ValidatorIndex v)
    (Signature v) (Extension v) sig.
Definition set_proposal_sig (p : Proposal) (ts : Z) (sig : list Z) : Proposal :=
  mkProposal (pType p) (pHeight p) (pRound p) (POLRound p) (pBlockID p) ts sig.

Definition cv_at (c : CanonicalVote) (t : Z) : CanonicalVote :=
  mkCanonicalVote (cv_Type c) (cv_Height c) (cv_Round c) (cv_BlockID c) t (cv_ChainID c).
Definition cp_at (c : CanonicalProposal) (t : Z) : CanonicalProposal :=
  mkCanonicalProposal (cp_Type c) (cp_Height c) (cp_Round c) (cp_POLRound c) (cp_BlockID c) t (cp_ChainID c).

Definition lss_sig (lss : FilePVLastSignState) : list Z := default [] (lssSignature lss).
Definition lss_bytes (lss : FilePVLastSignState) : list Z := default [] (lssSignBytes lss).

Section signer.
Context `{MsgCodec}.
(** The private key: [Sign] may fail. *)
Variable Sign : list Z → option (list Z).

(** The timestamp of the last signed vote, and whether the new one differs from it in
    nothing else; [now] is the clock both are set to. *)
Definition checkVotesOnlyDifferByTimestamp (now : Z) (lastSignBytes newSignBytes : list Z)
    : outcome (Z * bool) :=
  match decode_vote lastSignBytes with
  | None => Panic "LastSignBytes cannot be unmarshalled into vote"
  | Some lastVote =>
      match decode_vote newSignBytes with
      | None => Panic "signBytes cannot be unmarshalled into vote"
      | Some newVote => Done (cv_Timestamp lastVote, bool_decide (cv_at newVote now = cv_at lastVote now))
      end
  end.

Definition checkProposalsOnlyDifferByTimestamp (now : Z) (lastSignBytes newSignBytes : list Z)
    : outcome (Z * bool) :=
  match decode_proposal lastSignBytes with
  | None => Panic "LastSignBytes cannot be unmarshalled into proposal"
  | Some lastProposal =>
      match decode_proposal newSignBytes with
      | None => Panic "signBytes cannot be unmarshalled into proposal"
      | Some newProposal =>
          Done (cp_Timestamp lastProposal, bool_decide (cp_at newProposal now = cp_at lastProposal now))
      end
  end.

(** The extension part of [signVote]: the vote with its extension signature set, or
    an error. *)
Definition sign_extension (chainID : string) (vote : Vote) : result string Vote :=
  if (Type_ vote =? PrecommitType) && negb (IsNil (vBlockID vote)) then
    match Sign (VoteExtensionSignBytes chainID vote) with
    | None => Err "cannot sign"%string
    | Some extSig => Ok (set_ext_sig vote extSig)
    end
  else if 0 <? zlen (Extension vote)
  then Err "unexpected vote extension - extensions are only allowed in non-nil precommits"%string
  else Ok (set_ext_sig vote []).

(** The signer, the vote as the call leaves it, and the error. *)
Definition signVote (now : Z) (pv : FilePV) (chainID : string) (vote : Vote) (signExtension : bool)
    : outcome (FilePV * Vote * option string) :=
  step ← voteToStep vote;
  let lss := LastSignState pv in
  check ← CheckHRS lss (Height vote) (Round vote) step;
  match (check : bool * option string) with
  | (_, Some err) => Done (pv, vote, Some err)
  | (sameHRS, None) =>
      signBytes ← VoteSignBytes chainID vote;
      match (if signExtension then sign_extension chainID vote else Ok vote) with
      | Err err => Done (pv, vote, Some err)
      | Ok vote =>
          if sameHRS then
            if bytes_equal signBytes (lss_bytes lss)
            then Done (pv, set_vote_sig vote (Timestamp vote) (lss_sig lss), None)
            else
              only ← checkVotesOnlyDifferByTimestamp now (lss_bytes lss) signBytes;
              match (only : Z * bool) with
              | (timestamp, true) => Done (pv, set_vote_sig vote timestamp (lss_sig lss), None)
              | (_, false) => Done (pv, vote, Some "conflicting data"%string)
              end
          else
            match Sign signBytes with
            | None => Done (pv, vote, Some "cannot sign"%string)
            | Some sig =>
                Done (saveSigned pv (Height vote) (Round vote) step signBytes sig,
                      set_vote_sig vote (Timestamp vote) sig, None)
            end
      end
  end.

Definition signProposal (now : Z) (pv : FilePV) (chainID : string) (proposal : Proposal)
    : outcome (FilePV * Proposal * option string) :=
  let lss := LastSignState pv in
  check ← CheckHRS lss (pHeight proposal) (pRound proposal) stepPropose;
  match (check : bool * option string) with
  | (_, Some err) => Done (pv, proposal, Some err)
  | (sameHRS, None) =>
      signBytes ← ProposalSignBytes chainID proposal;
      if sameHRS then
        if bytes_equal signBytes (lss_bytes lss)
        then Done (pv, set_proposal_sig proposal (pTimestamp proposal) (lss_sig lss), None)
        else
          only ← checkProposalsOnlyDifferByTimestamp now (lss_bytes lss) signBytes;
          match (only : Z * bool) with
          | (timestamp, true) => Done (pv, set_proposal_sig proposal timestamp (lss_sig lss), None)
          | (_, false) => Done (pv, proposal, Some "conflicting data"%string)
          end
      else
        match Sign signBytes with
        | None => Done (pv, proposal, Some "cannot sign"%string)
        | Some sig =>
            Done (saveSigned pv (pHeight proposal) (pRound proposal) stepPropose signBytes sig,
                  set_proposal_sig proposal (pTimestamp proposal) sig, None)
        end
  end.

(** [SignAndCheckVote] with this signer: the signer, the vote, whether an error is
    recoverable, the error. *)
Definition SignAndCheckVote (now : Z) (pv : FilePV) (chainID : string) (vote : Vote) (extensionsEnabled : bool)
    : outcome (FilePV * Vote * bool * option string) :=
  signed ← signVote now pv chainID vote extensionsEnabled;
  match (signed : FilePV * Vote * option string) with
  | (pv', _, Some err) => Done (pv', vote, true, Some err)
  | (pv', v, None) =>
      let vote1 := set_vote_sig vote (Timestamp vote) (Signature v) in
      let isPrecommit := Type_ vote =? PrecommitType in
      if negb isPrecommit && extensionsEnabled
      then Done (pv', vote1, false, Some "inconsistent values of isPrecommit and extensionsEnabled"%string)
      else
        let isNil := IsNil (vBlockID vote) in
        let extSignature := 0 <? zlen (ExtensionSignature v) in
        if extSignature && (negb isPrecommit || isNil)
        then Done (pv', vote1, false, Some "vote extension signature must not be present in prevotes or nil-precommits"%string)
        else
          let vote2 := set_ext_sig vote1 [] in
          if extensionsEnabled then
            if negb extSignature && isPrecommit && negb isNil
            then Done (pv', vote2, false, Some "vote extension signature must be present if extensions are enabled"%string)
            else
              Done (pv', set_vote_sig (set_ext_sig vote2 (ExtensionSignature v)) (Timestamp v) (Signature v), true, None)
          else Done (pv', set_vote_sig vote2 (Timestamp v) (Signature v), true, None)
  end.

End signer.

(** ** Histories: requests, refusals, crashes and restarts *)

Inductive released := RVote (chainID : string) (v : Vote) | RProposal (chainID : string) (p : Proposal).

Definition step_of_type (t : Z) : Z := if t =? PrevoteType then stepPrevote else stepPrecommit.

Definition hrs : Type := Z * Z * Z.
Definition hrs_of (r : released) : hrs :=
  match r with
  | RVote _ v => (Height v, Round v, step_of_type (Type_ v))
  | RProposal _ p => (pHeight p, pRound p, stepPropose)
  end.
Definition hrs_lt (a b : hrs) : Prop :=
  let '(h, r, s) := a in let '(h', r', s') := b in h < h' ∨ h = h' ∧ (r < r' ∨ r = r' ∧ s < s').
Definition hrs_le (a b : hrs) : Prop := hrs_lt a b ∨ a = b.

Definition lss_hrs (lss : FilePVLastSignState) : hrs := (lssHeight lss, lssRound lss, lssStep lss).

Lemma hrs_lt_trans a b c : hrs_lt a b → hrs_lt b c → hrs_lt a c.
Proof. destruct a as [[h r] s], b as [[h' r'] s'], c as [[h2 r2] s2]. simpl. lia. Qed.
Lemma hrs_lt_irrefl a : ¬ hrs_lt a a.
Proof. destruct a as [[h r] s]. simpl. lia. Qed.
Lemma hrs_le_lt a b c : hrs_le a b → hrs_lt b c → hrs_lt a c.
Proof. intros [?| ->]; eauto using hrs_lt_trans. Qed.

(** What a successful comparison tells: the same point, or a later one. *)
Lemma CheckHRS_ok lss h r s same :
  CheckHRS lss h r s = Done (same, None) →
  if same then lss_hrs lss = (h, r, s) ∧ is_Some (lssSignBytes lss) ∧ is_Some (lssSignature lss)
  else hrs_lt (lss_hrs lss) (h, r, s).
Proof.
  unfold CheckHRS, lss_hrs. destruct lss as [lh lr ls sig bz]. cbn [lssHeight lssRound lssStep lssSignBytes lssSignature].
  intros E. repeat case_match; simplify_eq; zbool; cbn; try lia.
  assert (ls = s) as -> by lia. subst. eauto.
Qed.

Lemma CheckHRS_later lss h r s :
  hrs_lt (lss_hrs lss) (h, r, s) → CheckHRS lss h r s = Done (false, None).
Proof.
  unfold CheckHRS, lss_hrs. destruct lss as [lh lr ls sig bz]. cbn. intros Hlt.
  repeat (case_match; zbool; try done; try lia).
Qed.

Lemma CheckHRS_same lss sig bz :
  lssSignature lss = Some sig → lssSignBytes lss = Some bz →
  CheckHRS lss (lssHeight lss) (lssRound lss) (lssStep lss) = Done (true, None).
Proof.
  unfold CheckHRS. intros -> ->. rewrite !Z.gtb_ltb, !Z.ltb_irrefl, !Z.eqb_refl. done.
Qed.

Lemma voteToStep_spec v s : voteToStep v = Done s → IsVoteTypeValid (Type_ v) = true ∧ s = step_of_type (Type_ v).
Proof.
  unfold voteToStep, step_of_type, IsVoteTypeValid. intros E. repeat case_match; simplify_eq; zbool; subst; done.
Qed.

Section history.
Context `{MsgCodecLaws}.
Variable Sign : list Z → option (list Z).

Definition bytes_of (r : released) : outcome (list Z) :=
  match r with RVote c v => VoteSignBytes c v | RProposal c p => ProposalSignBytes c p end.

(** What has left the signer, oldest first.  A crash may come at any time: at
    rest or before the file is written (the file is the old one; also the
    effect of a panic), or after it is written and before the signature is used. *)
Inductive history : FilePV → list released → Prop :=
| h_new : history NewFilePV []
| h_vote pv h now c v ext pv' v' :
    history pv h → signVote Sign now pv c v ext = Done (pv', v', None) → history pv' (h ++ [RVote c v'])
| h_vote_refused pv h now c v ext pv' v' e :
    history pv h → signVote Sign now pv c v ext = Done (pv', v', Some e) → history pv' h
| h_vote_lost pv h now c v ext pv' v' e :
    history pv h → signVote Sign now pv c v ext = Done (pv', v', e) → history (loadFilePV pv') h
| h_proposal pv h now c p pv' p' :
    history pv h → signProposal Sign now pv c p = Done (pv', p', None) → history pv' (h ++ [RProposal c p'])
| h_proposal_refused pv h now c p pv' p' e :
    history pv h → signProposal Sign now pv c p = Done (pv', p', Some e) → history pv' h
| h_proposal_lost pv h now c p pv' p' e :
    history pv h → signProposal Sign now pv c p = Done (pv', p', e) → history (loadFilePV pv') h
| h_crash pv h : history pv h → history (loadFilePV pv) h.

(** The bytes the state holds are those of a message for the point it records, and
    the signature, when there is one, is the key's. *)
Definition lss_ok (lss : FilePVLastSignState) : Prop :=
  match lssSignBytes lss with
  | None => True
  | Some bz => ∃ r, hrs_of r = lss_hrs lss ∧ bytes_of r = Done bz ∧
                    ∀ sig, lssSignature lss = Some sig → Sign bz = Some sig
  end.

Definition same_lss (a b : FilePVLastSignState) : Prop :=
  lss_hrs a = lss_hrs b ∧ lssSignBytes a = lssSignBytes b ∧
  (∀ sig, lssSignature b = Some sig → lssSignature a = Some sig) ∧
  (∀ sig, sig ≠ [] → lssSignature a = Some sig → lssSignature b = Some sig).

Record pv_ok (pv : FilePV) (h : list released) : Prop := {
  ok_file : same_lss (LastSignState pv) (file pv);
  ok_lss : lss_ok (LastSignState pv);
  ok_hist : Forall (λ r, ∃ bz, bytes_of r = Done bz ∧
              (hrs_lt (hrs_of r) (lss_hrs (LastSignState pv)) ∨
               hrs_of r = lss_hrs (LastSignState pv) ∧ lssSignBytes (LastSignState pv) = Some bz)) h
}.

Lemma bytes_nonempty r bz : bytes_of r = Done bz → bz ≠ [].
Proof.
  destruct r; cbn [bytes_of]; unfold VoteSignBytes, ProposalSignBytes; intros E; outcome_inv;
    eauto using encode_vote_nonempty, encode_proposal_nonempty.
Qed.

Lemma load_same lss bz : lssSignBytes lss = Some bz → bz ≠ [] → same_lss lss (load lss).
Proof.
  intros E Hne. destruct lss as [lh lr ls sig b]. cbn in E. subst b. split; [done|]. split.
  - cbn. by destruct bz.
  - cbn. destruct sig as [[|]|]; cbn; split; congruence.
Qed.

Lemma restart_ok pv h : pv_ok pv h → pv_ok (loadFilePV pv) h.
Proof.
  intros [(E1 & E2 & E3 & _) Hok Hh]. split; cbn [loadFilePV LastSignState file].
  - by split_and!.
  - unfold lss_ok in *. rewrite <-E1, <-E2. destruct (lssSignBytes (LastSignState pv)); [|done].
    destruct Hok as (r & ? & ? & Hs). exists r. split_and!; eauto.
  - by rewrite <-E1, <-E2.
Qed.

(** Recording a new signature for a later point. *)
Lemma save_ok pv h r bz sig :
  pv_ok pv h → bytes_of r = Done bz → Sign bz = Some sig → hrs_lt (lss_hrs (LastSignState pv)) (hrs_of r) →
  let '(ht, rd, st) := hrs_of r in
  pv_ok (saveSigned pv ht rd st bz sig) (h ++ [r]) ∧ pv_ok (saveSigned pv ht rd st bz sig) h.
Proof.
  intros [_ _ Hh] Hb Hs Hlt. pose proof (bytes_nonempty r bz Hb) as Hne. destruct (hrs_of r) as [[ht rd] st] eqn:Er.
  assert (pv_ok (saveSigned pv ht rd st bz sig) h) as Hok.
  { split.
    - by apply (load_same _ bz).
    - exists r. split_and!; [done|done|]. cbn. intros sig' [= <-]. done.
    - eapply Forall_impl; [exact Hh|]. intros r' (bz' & Hb' & Hr'). exists bz'. split; [done|left].
      cbn. eapply hrs_le_lt; [|exact Hlt]. destruct Hr' as [|[-> _]]; [by left|by right]. }
  split; [|done]. destruct Hok as [H1 H2 H3]. split; [done..|]. apply Forall_app. split; [done|].
  apply Forall_singleton. exists bz. split; [done|right]. by rewrite Er.
Qed.
(** The canonical vote does not depend on the signatures. *)
Lemma VoteSignBytes_vote_sig c v ts sig :
  VoteSignBytes c (set_vote_sig v ts sig) =
  (cbid ← CanonicalizeBlockID (vBlockID v);
   Done (encode_vote (mkCanonicalVote (Type_ v) (Height v) (Round v) cbid ts c))).
Proof. unfold VoteSignBytes, CanonicalizeVote. cbn. by destruct (CanonicalizeBlockID _). Qed.

Lemma sign_extension_same c v v1 :
  sign_extension Sign c v = Ok v1 →
  ∃ s, v1 = set_ext_sig v s.
Proof. unfold sign_extension. intros E. repeat case_match; simplify_eq; eauto. Qed.

(** The last bytes signed, when the points agree, are those of a vote. *)
Lemma lss_vote_bytes lss bz s v :
  lss_ok lss → lssSignBytes lss = Some bz → lss_hrs lss = (Height v, Round v, s) → voteToStep v = Done s →
  ∃ c', decode_vote bz = Some c' ∧ encode_vote c' = bz.
Proof.
  unfold lss_ok. intros Hok E Hhrs [_ Hs]%voteToStep_spec. rewrite E in Hok.
  destruct Hok as (r & Hr & Hb & _). rewrite Hhrs in Hr. destruct r as [c' w|c' p].
  - cbn [bytes_of] in Hb. unfold VoteSignBytes in Hb. outcome_inv.
    eexists. split; [apply decode_encode_vote|done].
  - cbn in Hr. simplify_eq. unfold step_of_type, stepPropose, stepPrevote, stepPrecommit in *. by case_match.
Qed.

Definition vote_signed (pv : FilePV) (c : string) (v : Vote) (pv' : FilePV) (v' : Vote) : Prop :=
  Type_ v' = Type_ v ∧ Height v' = Height v ∧ Round v' = Round v ∧ vBlockID v' = vBlockID v ∧
  ∃ bz, bytes_of (RVote c v') = Done bz ∧ Sign bz = Some (Signature v') ∧
    ((pv' = pv ∧ hrs_of (RVote c v') = lss_hrs (LastSignState pv) ∧ lssSignBytes (LastSignState pv) = Some bz ∧
      lssSignature (LastSignState pv) = Some (Signature v')) ∨
     (hrs_lt (lss_hrs (LastSignState pv)) (hrs_of (RVote c v')) ∧
      pv' = saveSigned pv (Height v') (Round v') (step_of_type (Type_ v')) bz (Signature v'))).

Lemma signVote_cases now pv h c v ext pv' v' e :
  pv_ok pv h → signVote Sign now pv c v ext = Done (pv', v', e) →
  match e with Some _ => pv' = pv | None => vote_signed pv c v pv' v' end.
Proof.
  intros [_ Hok _]. unfold signVote. intros E.
  apply outcome_bind_Done in E as (s & Hs & E). apply outcome_bind_Done in E as ([same err] & Hc & E).
  destruct err as [err|]; [by simplify_eq|]. apply outcome_bind_Done in E as (bz & Hb & E).
  destruct (if ext then _ else _) as [v1|] eqn:Eext; [|by simplify_eq].
  assert (∃ es, v1 = set_ext_sig v es) as [es ->].
  { destruct ext; [by eapply sign_extension_same|]. exists (ExtensionSignature v). simplify_eq. by destruct v1. }
  apply voteToStep_spec in Hs as Hs'. destruct Hs' as [Hty ->].
  apply CheckHRS_ok in Hc. destruct same.
  - destruct Hc as (Hhrs & [bz0 Hbz0] & [sig0 Hsig0]). unfold lss_bytes, lss_sig in E.
    rewrite Hbz0, Hsig0 in E. cbn [from_option id] in E.
    assert (Hsig : Sign bz0 = Some sig0).
    { unfold lss_ok in Hok. rewrite Hbz0 in Hok. destruct Hok as (r & _ & _ & Hr). by apply Hr. }
    destruct (lss_vote_bytes _ _ _ _ Hok Hbz0 Hhrs Hs) as (c0 & Hd0 & He0).
    destruct (bytes_equal bz bz0) eqn:Eb.
    + apply bytes_equal_spec in Eb as <-. injection E as <- <- <-. split_and!; try done. exists bz.
      split; [|split; [done|left; by rewrite Hhrs]]. cbn [bytes_of].
      rewrite VoteSignBytes_vote_sig. cbn. unfold VoteSignBytes, CanonicalizeVote in Hb. outcome_inv.
      match goal with Hx : CanonicalizeBlockID _ = Done _ |- _ => by rewrite Hx end.
    + apply outcome_bind_Done in E as ([ts only] & Ho & E).
      unfold checkVotesOnlyDifferByTimestamp in Ho. rewrite Hd0 in Ho.
      unfold VoteSignBytes, CanonicalizeVote in Hb. outcome_inv.
      match goal with Hx : CanonicalizeBlockID _ = Done ?y |- _ => rename Hx into Hcan, y into cb end.
      rewrite decode_encode_vote in Ho. destruct only; simplify_eq; [|done].
      match goal with Hx : bool_decide _ = true |- _ => apply bool_decide_eq_true in Hx; rename Hx into Heq end.
      unfold cv_at in Heq. cbn in Heq. injection Heq as Et Eh Er Ebid Ech.
      split_and!; try done. exists (encode_vote c0). split; [|split; [done|left; by rewrite Hhrs]].
      cbn [bytes_of]. rewrite VoteSignBytes_vote_sig. cbn. rewrite Hcan. cbn. f_equal. f_equal.
      destruct c0; cbn in *. by simplify_eq.
  - destruct (Sign bz) as [sig|] eqn:Esig; simplify_eq; [|done]. split_and!; try done. exists bz.
    split; [|split; [done|right; split; [done|done]]]. cbn [bytes_of].
    rewrite VoteSignBytes_vote_sig. cbn. unfold VoteSignBytes, CanonicalizeVote in Hb. outcome_inv.
    match goal with Hx : CanonicalizeBlockID _ = Done _ |- _ => by rewrite Hx end.
Qed.

Lemma ProposalSignBytes_sig c p ts sig :
  ProposalSignBytes c (set_proposal_sig p ts sig) =
  (cbid ← CanonicalizeBlockID (pBlockID p);
   Done (encode_proposal (mkCanonicalProposal ProposalType (pHeight p) (pRound p) (POLRound p) cbid ts c))).
Proof. unfold ProposalSignBytes, CanonicalizeProposal. cbn. by destruct (CanonicalizeBlockID _). Qed.

Lemma lss_proposal_bytes lss bz ht rd :
  lss_ok lss → lssSignBytes lss = Some bz → lss_hrs lss = (ht, rd, stepPropose) →
  ∃ c', decode_proposal bz = Some c' ∧ encode_proposal c' = bz.
Proof.
  unfold lss_ok. intros Hok E Hhrs. rewrite E in Hok.
  destruct Hok as (r & Hr & Hb & _). rewrite Hhrs in Hr. destruct r as [c' w|c' p].
  - cbn in Hr. simplify_eq. unfold step_of_type, stepPropose, stepPrevote, stepPrecommit in *. by case_match.
  - cbn [bytes_of] in Hb. unfold ProposalSignBytes in Hb. outcome_inv.
    eexists. split; [apply decode_encode_proposal|done].
Qed.

Definition proposal_signed (pv : FilePV) (c : string) (p : Proposal) (pv' : FilePV) (p' : Proposal) : Prop :=
  pHeight p' = pHeight p ∧ pRound p' = pRound p ∧ pBlockID p' = pBlockID p ∧ POLRound p' = POLRound p ∧
  ∃ bz, bytes_of (RProposal c p') = Done bz ∧ Sign bz = Some (pSignature p') ∧
    ((pv' = pv ∧ hrs_of (RProposal c p') = lss_hrs (LastSignState pv) ∧ lssSignBytes (LastSignState pv) = Some bz) ∨
     (hrs_lt (lss_hrs (LastSignState pv)) (hrs_of (RProposal c p')) ∧
      pv' = saveSigned pv (pHeight p') (pRound p') stepPropose bz (pSignature p'))).

Lemma signProposal_cases now pv h c p pv' p' e :
  pv_ok pv h → signProposal Sign now pv c p = Done (pv', p', e) →
  match e with Some _ => pv' = pv | None => proposal_signed pv c p pv' p' end.
Proof.
  intros [_ Hok _]. unfold signProposal. intros E.
  apply outcome_bind_Done in E as ([same err] & Hc & E).
  destruct err as [err|]; [by simplify_eq|]. apply outcome_bind_Done in E as (bz & Hb & E).
  apply CheckHRS_ok in Hc. destruct same.
  - destruct Hc as (Hhrs & [bz0 Hbz0] & [sig0 Hsig0]). unfold lss_bytes, lss_sig in E.
    rewrite Hbz0, Hsig0 in E. cbn [from_option id] in E.
    assert (Hsig : Sign bz0 = Some sig0).
    { unfold lss_ok in Hok. rewrite Hbz0 in Hok. destruct Hok as (r & _ & _ & Hr). by apply Hr. }
    destruct (lss_proposal_bytes _ _ _ _ Hok Hbz0 Hhrs) as (c0 & Hd0 & He0).
    destruct (bytes_equal bz bz0) eqn:Eb.
    + apply bytes_equal_spec in Eb as <-. injection E as <- <- <-. split_and!; try done. exists bz.
      split; [|split; [done|left; by rewrite Hhrs]]. cbn [bytes_of].
      rewrite ProposalSignBytes_sig. cbn. unfold ProposalSignBytes, CanonicalizeProposal in Hb. outcome_inv.
      match goal with Hx : CanonicalizeBlockID _ = Done _ |- _ => by rewrite Hx end.
    + apply outcome_bind_Done in E as ([ts only] & Ho & E).
      unfold checkProposalsOnlyDifferByTimestamp in Ho. rewrite Hd0 in Ho.
      unfold ProposalSignBytes, CanonicalizeProposal in Hb. outcome_inv.
      match goal with Hx : CanonicalizeBlockID _ = Done ?y |- _ => rename Hx into Hcan, y into cb end.
      rewrite decode_encode_proposal in Ho. destruct only; simplify_eq; [|done].
      match goal with Hx : bool_decide _ = true |- _ => apply bool_decide_eq_true in Hx; rename Hx into Heq end.
      unfold cp_at in Heq. cbn in Heq. injection Heq as Et Eh Er Epol Ebid Ech.
      split_and!; try done. exists (encode_proposal c0). split; [|split; [done|left; by rewrite Hhrs]].
      cbn [bytes_of]. rewrite ProposalSignBytes_sig. cbn. rewrite Hcan. cbn. f_equal. f_equal.
      destruct c0; cbn in *. by simplify_eq.
  - destruct (Sign bz) as [sig|] eqn:Esig; simplify_eq; [|done]. split_and!; try done. exists bz.
    split; [|split; [done|right; split; [done|done]]]. cbn [bytes_of].
    rewrite ProposalSignBytes_sig. cbn. unfold ProposalSignBytes, CanonicalizeProposal in Hb. outcome_inv.
    match goal with Hx : CanonicalizeBlockID _ = Done _ |- _ => by rewrite Hx end.
Qed.

(** Signing, or finding the earlier signature, keeps the invariant, whether or not
    the answer leaves the signer. *)
Lemma signed_ok pv h r bz sig pv' :
  pv_ok pv h → bytes_of r = Done bz → Sign bz = Some sig →
  (pv' = pv ∧ hrs_of r = lss_hrs (LastSignState pv) ∧ lssSignBytes (LastSignState pv) = Some bz) ∨
  (hrs_lt (lss_hrs (LastSignState pv)) (hrs_of r) ∧
   let '(ht, rd, st) := hrs_of r in pv' = saveSigned pv ht rd st bz sig) →
  pv_ok pv' (h ++ [r]) ∧ pv_ok pv' h.
Proof.
  intros Hok Hb Hs [(-> & Hr & Hbz)|[Hlt Hpv]].
  - split; [|done]. destruct Hok as [H1 H2 H3]. split; [done..|]. apply Forall_app. split; [done|].
    apply Forall_singleton. eauto.
  - pose proof (save_ok pv h r bz sig Hok Hb Hs Hlt) as Hsave. destruct (hrs_of r) as [[ht rd] st]. by subst.
Qed.

Lemma sign_vote_ok now pv h c v ext pv' v' e :
  pv_ok pv h → signVote Sign now pv c v ext = Done (pv', v', e) →
  pv_ok pv' h ∧ (e = None → pv_ok pv' (h ++ [RVote c v'])).
Proof.
  intros Hok E. pose proof (signVote_cases _ _ _ _ _ _ _ _ _ Hok E) as Hcase. destruct e; [by subst|].
  destruct Hcase as (_ & _ & _ & _ & bz & Hb & Hs & Hc).
  destruct (signed_ok pv h (RVote c v') bz (Signature v') pv' Hok Hb Hs); [|done].
  destruct Hc as [(? & ? & ? & _)|[? ->]]; [by left|by right].
Qed.

Lemma sign_proposal_ok now pv h c p pv' p' e :
  pv_ok pv h → signProposal Sign now pv c p = Done (pv', p', e) →
  pv_ok pv' h ∧ (e = None → pv_ok pv' (h ++ [RProposal c p'])).
Proof.
  intros Hok E. pose proof (signProposal_cases _ _ _ _ _ _ _ _ Hok E) as Hcase. destruct e; [by subst|].
  destruct Hcase as (_ & _ & _ & _ & bz & Hb & Hs & Hc).
  destruct (signed_ok pv h (RProposal c p') bz (pSignature p') pv' Hok Hb Hs); [|done].
  destruct Hc as [?|[? ->]]; [by left|by right].
Qed.

Lemma history_ok pv h : history pv h → pv_ok pv h.
Proof.
  induction 1 as [|pv h now c v ext pv' v' _ IH E|pv h now c v ext pv' v' e _ IH E|pv h now c v ext pv' v' e _ IH E
    |pv h now c p pv' p' _ IH E|pv h now c p pv' p' e _ IH E|pv h now c p pv' p' e _ IH E|pv h _ IH].
  - split; [by split_and!|done|constructor].
  - by apply (sign_vote_ok _ _ _ _ _ _ _ _ _ IH E).
  - by apply (sign_vote_ok _ _ _ _ _ _ _ _ _ IH E).
  - apply restart_ok. by apply (sign_vote_ok _ _ _ _ _ _ _ _ _ IH E).
  - by apply (sign_proposal_ok _ _ _ _ _ _ _ _ IH E).
  - by apply (sign_proposal_ok _ _ _ _ _ _ _ _ IH E).
  - apply restart_ok. by apply (sign_proposal_ok _ _ _ _ _ _ _ _ IH E).
  - by apply restart_ok.
Qed.

(** A later release is for the same point with the same bytes, or for a later point. *)
Definition follows (a b : released) : Prop :=
  hrs_le (hrs_of a) (hrs_of b) ∧ (hrs_of a = hrs_of b → bytes_of a = bytes_of b).

Lemma signed_follows pv h r bz :
  pv_ok pv h → bytes_of r = Done bz →
  (hrs_of r = lss_hrs (LastSignState pv) ∧ lssSignBytes (LastSignState pv) = Some bz) ∨
  hrs_lt (lss_hrs (LastSignState pv)) (hrs_of r) →
  Forall (λ a, follows a r) h.
Proof.
  intros [_ _ Hall] Hb Hr. eapply Forall_impl; [exact Hall|]. intros a (bz' & Hb' & Ha).
  destruct Hr as [[Er Ebz]|Hlt], Ha as [Ha|[Ea Ebz']].
  - split; [left; by rewrite Er|]. intros E. rewrite <-Er, E in Ha. by apply hrs_lt_irrefl in Ha.
  - split; [right; congruence|]. intros _. congruence.
  - split; [left; by eapply hrs_lt_trans|]. intros E. rewrite E in Ha.
    destruct (hrs_lt_irrefl _ (hrs_lt_trans _ _ _ Ha Hlt)).
  - split; [left; by rewrite Ea|]. intros E. rewrite <-E, Ea in Hlt. by apply hrs_lt_irrefl in Hlt.
Qed.

Lemma history_follows pv h : history pv h → StronglySorted follows h.
Proof.
  induction 1 as [|pv h now c v ext pv' v' Hh IH E| | |pv h now c p pv' p' Hh IH E| | |]; try done; [constructor|..].
  all: apply StronglySorted_app; split_and!; [|done|repeat constructor].
  all: pose proof (history_ok _ _ Hh) as Hok; intros a b Ha ->%list_elem_of_singleton.
  - destruct (signVote_cases _ _ _ _ _ _ _ _ _ Hok E) as (_ & _ & _ & _ & bz & Hb & _ & Hc).
    assert (Forall (λ a, follows a (RVote c v')) h) as Hall by (eapply signed_follows; naive_solver).
    rewrite Forall_forall in Hall. by apply Hall.
  - destruct (signProposal_cases _ _ _ _ _ _ _ _ Hok E) as (_ & _ & _ & _ & bz & Hb & _ & Hc).
    assert (Forall (λ a, follows a (RProposal c p')) h) as Hall by (eapply signed_follows; naive_solver).
    rewrite Forall_forall in Hall. by apply Hall.
Qed.

Lemma sorted_pair {A} (R : A → A → Prop) l a b :
  StronglySorted R l → a ∈ l → b ∈ l → a = b ∨ R a b ∨ R b a.
Proof.
  induction 1 as [|x l _ IH Hx]; [by intros ?%not_elem_of_nil|].
  rewrite Forall_forall in Hx. rewrite !elem_of_cons. intros [->|Ha] [->|Hb]; auto.
Qed.

(** What is released for one point of the protocol has the same bytes. *)
Lemma released_agree pv h a b :
  history pv h → a ∈ h → b ∈ h → hrs_of a = hrs_of b → bytes_of a = bytes_of b.
Proof.
  intros Hh Ha Hb E. pose proof (history_follows pv h Hh) as Hs.
  destruct (sorted_pair _ _ _ _ Hs Ha Hb) as [->|[[_ Hf]|[_ Hf]]]; [done|by apply Hf|]. symmetry. by apply Hf.
Qed.

(** The sign bytes of a vote determine everything that is signed. *)
Lemma VoteSignBytes_inj c v c' w bz :
  VoteSignBytes c v = Done bz → VoteSignBytes c' w = Done bz →
  c = c' ∧ Height v = Height w ∧ Round v = Round w ∧ Type_ v = Type_ w ∧ vBlockID v = vBlockID w ∧ Timestamp v = Timestamp w.
Proof.
  unfold VoteSignBytes, CanonicalizeVote. intros E E'. outcome_inv.
  match goal with Hx : encode_vote _ = encode_vote _ |- _ =>
    apply (f_equal decode_vote) in Hx; rewrite !decode_encode_vote in Hx; simplify_eq end.
  split_and!; try done. unfold CanonicalizeBlockID in *. repeat case_match; simplify_eq; try done.
  all: by rewrite (nil_key (vBlockID v)), (nil_key (vBlockID w)).
Qed.

Lemma released_signed pv h r : history pv h → r ∈ h → ∃ bz, bytes_of r = Done bz.
Proof.
  intros [_ _ Hall]%history_ok Hr. rewrite Forall_forall in Hall. destruct (Hall _ Hr) as (bz & Hbz & _). eauto.
Qed.

(** The signature a released message carries. *)
Definition sig_of (r : released) : list Z :=
  match r with RVote _ v => Signature v | RProposal _ p => pSignature p end.

Lemma released_signature pv h r :
  history pv h → r ∈ h → ∃ bz, bytes_of r = Done bz ∧ Sign bz = Some (sig_of r).
Proof.
  induction 1 as [|pv h now c v ext pv' v' Hh IH E| | |pv h now c p pv' p' Hh IH E| | |]; try done; [by intros ?%not_elem_of_nil|..].
  all: pose proof (history_ok _ _ Hh) as Hok; intros [?| ->%list_elem_of_singleton]%elem_of_app; [by apply IH|].
  - destruct (signVote_cases _ _ _ _ _ _ _ _ _ Hok E) as (_ & _ & _ & _ & bz & Hb & Hs & _). eauto.
  - destruct (signProposal_cases _ _ _ _ _ _ _ _ Hok E) as (_ & _ & _ & _ & bz & Hb & Hs & _). eauto.
Qed.

(** C16: the signer never signs two different messages for the same height, round and
    step, whatever votes and proposals are requested of it, however often it
    crashes (also between writing its file and handing out the signature) and
    restarts from the file: everything released for one point has identical sign
    bytes and the identical signature, so two votes of one type for one height
    and round name the same block, time and chain, and the points of what is
    released never decrease.  Arbitrary byte strings ([SignBytes]) and an
    operator's [Reset] are not requests of the history. *)
Theorem no_double_sign pv h :
  history pv h →
  StronglySorted (λ a b, hrs_le (hrs_of a) (hrs_of b)) h ∧
  (∀ a b, a ∈ h → b ∈ h → hrs_of a = hrs_of b → bytes_of a = bytes_of b ∧ sig_of a = sig_of b) ∧
  (∀ c v c' w, RVote c v ∈ h → RVote c' w ∈ h →
     Height v = Height w → Round v = Round w → Type_ v = Type_ w →
     c = c' ∧ vBlockID v = vBlockID w ∧ Timestamp v = Timestamp w).
Proof.
  intros Hh. pose proof (history_follows pv h Hh) as Hs. split_and!.
  - clear -Hs. induction Hs as [|a l _ IH Hl]; constructor; [done|]. eapply Forall_impl; [exact Hl|]. by intros b [? _].
  - intros a b Ha Hb E. pose proof (released_agree pv h a b Hh Ha Hb E) as Eb. split; [done|].
    destruct (released_signature pv h a Hh Ha) as (bz & Hbz & Hsg), (released_signature pv h b Hh Hb) as (bz' & Hbz' & Hsg').
    congruence.
  - intros c v c' w Hv Hw E1 E2 E3. destruct (released_signed pv h _ Hh Hv) as [bz Hbz].
    assert (Eb : bytes_of (RVote c v) = bytes_of (RVote c' w)) by (apply (released_agree pv h); [done..|cbn; congruence]).
    rewrite Hbz in Eb. symmetry in Eb. destruct (VoteSignBytes_inj _ _ _ _ _ Hbz Eb) as (? & _ & _ & _ & ? & ?). done.
Qed.

(** ** Recovery *)

Lemma sign_extension_agree c v t sg :
  sign_extension Sign c (set_vote_sig v t sg) =
  match sign_extension Sign c v with
  | Ok v1 => Ok (set_vote_sig v1 t sg)
  | Err e => Err e
  end.
Proof.
  unfold sign_extension.
  change (VoteExtensionSignBytes c (set_vote_sig v t sg)) with (VoteExtensionSignBytes c v).
  cbn [set_vote_sig Type_ vBlockID Extension].
  destruct (_ && _); [by destruct (Sign _)|by destruct (_ <? _)].
Qed.

(** Asking again for the vote the state records, with any timestamp. *)
Lemma signVote_again now pv c v t sg (ext : bool) v1 cb sig ts :
  voteToStep v = Done (lssStep (LastSignState pv)) →
  lssHeight (LastSignState pv) = Height v → lssRound (LastSignState pv) = Round v →
  lssSignature (LastSignState pv) = Some sig → CanonicalizeBlockID (vBlockID v) = Done cb →
  lssSignBytes (LastSignState pv) = Some (encode_vote (mkCanonicalVote (Type_ v) (Height v) (Round v) cb ts c)) →
  (if ext then sign_extension Sign c v else Ok v) = Ok v1 →
  ∃ v2, signVote Sign now pv c (set_vote_sig v t sg) ext = Done (pv, v2, None) ∧
        Signature v2 = sig ∧ Timestamp v2 = ts.
Proof.
  intros Hs Eh Er Hsig Hcb Hbz Hext. unfold signVote.
  change (voteToStep (set_vote_sig v t sg)) with (voteToStep v). rewrite Hs. cbn [mbind outcome_bind].
  change (Height (set_vote_sig v t sg)) with (Height v). change (Round (set_vote_sig v t sg)) with (Round v).
  assert (CheckHRS (LastSignState pv) (Height v) (Round v) (lssStep (LastSignState pv)) = Done (true, None)) as ->
    by (rewrite <-Eh, <-Er; by eapply CheckHRS_same).
  cbn [mbind outcome_bind].
  rewrite VoteSignBytes_vote_sig, Hcb. cbn [mbind outcome_bind].
  assert (Hext' : (if ext then sign_extension Sign c (set_vote_sig v t sg) else Ok (set_vote_sig v t sg)) =
                  Ok (set_vote_sig v1 t sg)).
  { destruct ext; [|by simplify_eq]. by rewrite sign_extension_agree, Hext. }
  rewrite Hext'. unfold lss_bytes, lss_sig. rewrite Hbz, Hsig. cbn [from_option id].
  destruct (bytes_equal _ _) eqn:Eb.
  - eexists. split; [done|]. split; [done|]. cbn. apply bytes_equal_spec in Eb.
    apply (f_equal decode_vote) in Eb. rewrite !decode_encode_vote in Eb. by injection Eb.
  - unfold checkVotesOnlyDifferByTimestamp. rewrite !decode_encode_vote. cbn [mbind outcome_bind].
    rewrite bool_decide_true by done. eexists. split; [done|]. by cbn.
Qed.

(** a signature is not lost by a crash.  When the signer answered a request for a
    vote and the process then dies, at whatever moment after the answer was
    computed, the restarted signer answers the same request, made at any
    other time, with the same signature and the time it was first made for,
    instead of refusing it or signing again. *)
Theorem resign_after_crash pv h now c v ext pv' v' now' t sg :
  history pv h → signVote Sign now pv c v ext = Done (pv', v', None) → Signature v' ≠ [] →
  ∃ v2, signVote Sign now' (loadFilePV pv') c (set_vote_sig v t sg) ext = Done (loadFilePV pv', v2, None) ∧
        Signature v2 = Signature v' ∧ Timestamp v2 = Timestamp v'.
Proof.
  intros Hh%history_ok E Hne. pose proof (sign_vote_ok _ _ _ _ _ _ _ _ _ Hh E) as [Hok' _].
  pose proof (signVote_cases _ _ _ _ _ _ _ _ _ Hh E) as (Ety & Eht & Erd & Ebid & bz & Hb & Hs & Hc).
  assert (Hlss : lss_hrs (LastSignState pv') = hrs_of (RVote c v') ∧ lssSignBytes (LastSignState pv') = Some bz ∧
                 lssSignature (LastSignState pv') = Some (Signature v')).
  { destruct Hc as [(-> & -> & -> & ->)|[_ ->]]; done. }
  destruct Hlss as (L1 & L2 & L3). destruct Hok' as [(F1 & F2 & _ & F4) _ _].
  assert (voteToStep v = Done (step_of_type (Type_ v)) ∧ ∃ v1, (if ext then sign_extension Sign c v else Ok v) = Ok v1)
    as [Hst [v1 Hv1]].
  { unfold signVote in E. apply outcome_bind_Done in E as (s & Hs' & E). apply voteToStep_spec in Hs' as Hs2.
    destruct Hs2 as [_ ->]. split; [done|]. apply outcome_bind_Done in E as ([same err] & _ & E).
    destruct err; [by simplify_eq|]. apply outcome_bind_Done in E as (? & _ & E).
    destruct (if ext then _ else _) eqn:Ex; [by eexists|by simplify_eq]. }
  cbn [bytes_of] in Hb. unfold VoteSignBytes, CanonicalizeVote in Hb. outcome_inv.
  unfold lss_hrs in L1, F1. cbn [hrs_of] in L1. rewrite L1 in F1. injection F1 as F1h F1r F1s.
  eapply signVote_again; cbn [loadFilePV LastSignState].
  - by rewrite Hst, <-F1s, Ety.
  - by rewrite <-F1h.
  - by rewrite <-F1r.
  - by apply F4.
  - by rewrite <-Ebid.
  - rewrite <-F2, L2, Ety, Eht, Erd. done.
  - exact Hv1.
Qed.

End history.

(** ** Signed votes are accepted *)

Section accepted.
Context `{MsgCodecLaws, PubKeyOps}.
Variable Sign : list Z → option (list Z).
Variable pk : PubKey.
(** The private key belongs to the public key. *)
Hypothesis Sign_verifies : ∀ msg sig, Sign msg = Some sig → VerifySignature pk msg sig = true.

Lemma sign_extension_signature c v v1 :
  sign_extension Sign c v = Ok v1 →
  Type_ v = PrecommitType → IsNil (vBlockID v) = false →
  VerifySignature pk (VoteExtensionSignBytes c v) (ExtensionSignature v1) = true.
Proof.
  unfold sign_extension. intros E Ht Hn. rewrite Ht, Z.eqb_refl, Hn in E. cbn [andb negb] in E.
  destruct (Sign _) eqn:Es; simplify_eq. by apply Sign_verifies.
Qed.

Lemma signVote_extension now pv c v ext pv' v' :
  signVote Sign now pv c v ext = Done (pv', v', None) →
  ∃ v1, (if ext then sign_extension Sign c v else Ok v) = Ok v1 ∧
        ExtensionSignature v' = ExtensionSignature v1.
Proof.
  unfold signVote. intros E. apply outcome_bind_Done in E as (s & _ & E).
  apply outcome_bind_Done in E as ([same err] & _ & E). destruct err; [by simplify_eq|].
  apply outcome_bind_Done in E as (bz & _ & E). destruct (if ext then _ else _) as [v1|]; [|by simplify_eq].
  exists v1. split; [done|]. destruct same; [|by repeat case_match; simplify_eq].
  case_match; [by simplify_eq|]. apply outcome_bind_Done in E as ([ts []] & _ & E); by simplify_eq.
Qed.

Lemma Verify_signed c v bz :
  ValidatorAddress v = pk_Address pk → VoteSignBytes c v = Done bz → Sign bz = Some (Signature v) →
  Verify v c (Some pk) = Done None.
Proof.
  intros Ha Hb Hs. unfold Verify, verifyAndReturnProto. rewrite Ha.
  assert (bytes_equal (pk_Address pk) (pk_Address pk) = true) as -> by by apply bytes_equal_spec.
  cbn [negb]. rewrite Hb. cbn. by rewrite (Sign_verifies _ _ Hs).
Qed.

Lemma VerifyVoteAndExtension_signed c v :
  Verify v c (Some pk) = Done None →
  (Type_ v = PrecommitType → IsNil (vBlockID v) = false →
   0 < zlen (ExtensionSignature v) ∧
   VerifySignature pk (VoteExtensionSignBytes c v) (ExtensionSignature v) = true) →
  VerifyVoteAndExtension v c (Some pk) = Done None ∧ EnsureExtension v = None.
Proof.
  unfold Verify, VerifyVoteAndExtension, EnsureExtension. intros -> Hext. cbn [mbind outcome_bind].
  destruct (Z.eqb_spec (Type_ v) PrecommitType) as [Ht|]; [|done].
  destruct (IsNil (vBlockID v)) eqn:En; [done|]. destruct (Hext Ht eq_refl) as [Hlen ->]. cbn [andb negb].
  destruct (Z.eqb_spec (zlen (ExtensionSignature v)) 0); [lia|].
  by destruct (Z.ltb_spec 0 (zlen (ExtensionSignature v))); [|lia].
Qed.

(** a vote that [SignAndCheckVote] returns without error verifies under the
    validator's public key, together with its extension when extensions are
    enabled (and carries no extension signature when they are not), is for the
    requested height, round, type and block, and so is accepted by the tallies
    of the other validators; also when it is the repetition of an earlier
    signature after a crash. *)
Theorem SignAndCheckVote_verifies pv h now c vote ext pv' vote' rec :
  history Sign pv h → ValidatorAddress vote = pk_Address pk →
  SignAndCheckVote Sign now pv c vote ext = Done (pv', vote', rec, None) →
  Type_ vote' = Type_ vote ∧ Height vote' = Height vote ∧ Round vote' = Round vote ∧
  vBlockID vote' = vBlockID vote ∧ Extension vote' = Extension vote ∧
  Verify vote' c (Some pk) = Done None ∧
  (if ext : bool then VerifyVoteAndExtension vote' c (Some pk) = Done None ∧ EnsureExtension vote' = None
   else ExtensionSignature vote' = []).
Proof.
  intros Hh%history_ok Ha. unfold SignAndCheckVote. intros E.
  apply outcome_bind_Done in E as ([[pv1 v] err] & Hv & E). destruct err; [by simplify_eq|].
  pose proof (signVote_cases _ _ _ _ _ _ _ _ _ _ Hh Hv) as (Ety & Eht & Erd & Ebid & bz & Hb & Hs & _).
  destruct (signVote_extension _ _ _ _ _ _ _ Hv) as (v1 & Hext & Ees).
  assert (Hvb : ∀ es, VoteSignBytes c (set_vote_sig (set_ext_sig (set_vote_sig vote (Timestamp vote) (Signature v)) es)
                        (Timestamp v) (Signature v)) = Done bz).
  { intros es. rewrite VoteSignBytes_vote_sig. cbn. cbn [bytes_of] in Hb. unfold VoteSignBytes, CanonicalizeVote in Hb.
    rewrite Ebid, Ety, Eht, Erd in Hb. by destruct (CanonicalizeBlockID (vBlockID vote)). }
  assert (HV : ∀ es, Verify (set_vote_sig (set_ext_sig (set_vote_sig vote (Timestamp vote) (Signature v)) es)
                        (Timestamp v) (Signature v)) c (Some pk) = Done None).
  { intros es. eapply Verify_signed; [done|apply Hvb|done]. }
  destruct ext; cbn [negb andb] in E.
  - destruct (Z.eqb_spec (Type_ vote) PrecommitType) as [Hp|]; cbn [negb andb orb] in E; [|by simplify_eq].
    destruct (0 <? zlen (ExtensionSignature v)) eqn:Ez, (IsNil (vBlockID vote)) eqn:En; cbn [negb andb orb] in E; simplify_eq.
    + do 5 (split; [done|]). split; [exact (HV (ExtensionSignature v))|].
      apply VerifyVoteAndExtension_signed; [exact (HV (ExtensionSignature v))|]. zbool. intros _ _. split; [done|].
      cbn. rewrite Ees. by apply (sign_extension_signature _ _ _ Hext Hp En).
    + do 5 (split; [done|]). split; [exact (HV (ExtensionSignature v))|].
      apply VerifyVoteAndExtension_signed; [exact (HV (ExtensionSignature v))|]. cbn. congruence.
  - rewrite andb_false_r in E. case_match; simplify_eq. by split_and!.
Qed.

End accepted.

(** ** Examples *)

#[local] Existing Instances toy_msg_codec toy_msg_codec_laws toy_keys.

(** The toy key number 1. *)
Definition ex_Sign (msg : list Z) : option (list Z) := Some (1 :: msg).

Definition ex_precommit (block t : Z) : Vote :=
  {| Type_ := PrecommitType; Height := 5; Round := 0; vBlockID := ex_block block; Timestamp := t;
     ValidatorAddress := toy_address 1; ValidatorIndex := 0; Signature := []; Extension := [7];
     ExtensionSignature := [] |}.

Definition ex_chain : string := "chain".

(** The signer and the vote after a first request. *)
Definition ex_first : outcome (FilePV * Vote * option string) :=
  signVote ex_Sign 0 NewFilePV ex_chain (ex_precommit 1 10) true.
Definition ex_pv : FilePV := match ex_first with Done (pv, _, _) => pv | Panic _ => NewFilePV end.
Definition ex_signed : Vote := match ex_first with Done (_, v, _) => v | Panic _ => ex_precommit 1 10 end.

Lemma ex_first_signed : ex_first = Done (ex_pv, ex_signed, None).
Proof. by vm_compute. Qed.

Lemma no_double_sign_witness :
  history ex_Sign (loadFilePV ex_pv) [RVote ex_chain ex_signed] ∧
  (∃ v, signVote ex_Sign 3 (loadFilePV ex_pv) ex_chain (ex_precommit 2 10) true =
        Done (loadFilePV ex_pv, v, Some "conflicting data"%string)) ∧
  (∀ a b, a ∈ [RVote ex_chain ex_signed] → b ∈ [RVote ex_chain ex_signed] →
     hrs_of a = hrs_of b → bytes_of a = bytes_of b ∧ sig_of a = sig_of b).
Proof.
  assert (Hh : history ex_Sign (loadFilePV ex_pv) [RVote ex_chain ex_signed]).
  { apply h_crash. apply (h_vote ex_Sign NewFilePV [] 0 ex_chain (ex_precommit 1 10) true); [constructor|].
    exact ex_first_signed. }
  split; [done|]. split; [eexists; by vm_compute|].
  exact (proj1 (proj2 (no_double_sign ex_Sign _ _ Hh))).
Defined.

Lemma resign_after_crash_witness :
  ∃ v2, signVote ex_Sign 8 (loadFilePV ex_pv) ex_chain (set_vote_sig (ex_precommit 1 10) 99 []) true =
          Done (loadFilePV ex_pv, v2, None) ∧
        Signature v2 = Signature ex_signed ∧ Timestamp v2 = Timestamp ex_signed.
Proof.
  refine (resign_after_crash ex_Sign NewFilePV [] 0 ex_chain (ex_precommit 1 10) true ex_pv ex_signed 8 99 [] _ ex_first_signed _);
    [constructor|by vm_compute].
Defined.

Lemma SignAndCheckVote_verifies_witness :
  ∃ pv' vote', SignAndCheckVote ex_Sign 0 NewFilePV ex_chain (ex_precommit 1 10) true = Done (pv', vote', true, None) ∧
    Verify vote' ex_chain (Some (1 : @PubKey toy_keys)) = Done None.
Proof.
  eexists _, _. split; [by vm_compute|].
  refine (proj1 (proj2 (proj2 (proj2 (proj2 (proj2
    (SignAndCheckVote_verifies ex_Sign (1 : @PubKey toy_keys) _ NewFilePV [] 0 ex_chain (ex_precommit 1 10) true _ _ true _ _ _))))))).
  - intros msg sig [= <-]. by apply bool_decide_eq_true.
  - constructor.
  - reflexivity.
  - by vm_compute.
Defined.

End PrivVal.
