(* ===== verification/ConsensusState.v ===== *)
(** * ConsensusState: [internal/consensus/state.go]

    The consensus state machine: the round state of a node, the steps that enter and
    leave proposing, prevoting, precommitting and committing, and the handlers of the
    receive routine for proposals, block parts, votes and timeouts.

    The receive routine is the only writer of the state, so a handler is one step.
    Handlers run in a monad of state and panics; a panic ends the routine.  A [defer] is
    the second half of a sequence.  Everything the node asks of the outside (the
    clock, the event bus, the write-ahead log, the block executor with the
    application behind it, the stored block metas) is answered by the stream
    [answers], one answer per question, so no two answers are related.  Part sets are
    shared by pointer between the proposal, locked and valid block, and live in
    a store of the state.  What the node sends to itself, schedules, reports, saves and
    applies is kept in logs; [sArchive], which no operation reads, keeps the
    tallies of finished heights that the code drops.  Metrics, logging, events to the reactor
    and the statistics queue are left out, as is the cache of totals and
    proposers that reading a validator set fills. *)

From S2P Require Import Prelude BitArray Merkle Crypto ValidatorSet Votes PartSet Proposal Commit VoteSet HeightVoteSet PrivVal.
Import ValidatorSet.ValidatorSet Votes.Votes Proposal.Proposal Commit.Commit.
Notation VoteSet := VoteSet.VoteSet.
Notation HeightVoteSet := HeightVoteSet.HeightVoteSet.
Notation PartSet := PartSet.PartSet.
Notation Part := PartSet.Part.
Notation FilePV := PrivVal.FilePV.

Local Open Scope Z_scope.

Module ConsensusState.

(** ** Steps, configuration, messages *)

Definition RoundStepNewHeight : Z := 1.
Definition RoundStepNewRound : Z := 2.
Definition RoundStepPropose : Z := 3.
Definition RoundStepPrevote : Z := 4.
Definition RoundStepPrevoteWait : Z := 5.
Definition RoundStepPrecommit : Z := 6.
Definition RoundStepPrecommitWait : Z := 7.
Definition RoundStepCommit : Z := 8.

(** Durations are in nanoseconds. *)
Record ConsensusConfig := mkConfig {
  TimeoutPropose : Z; TimeoutProposeDelta : Z; TimeoutPrevote : Z; TimeoutPrevoteDelta : Z;
  TimeoutPrecommit : Z; TimeoutPrecommitDelta : Z; TimeoutCommit : Z;
  SkipTimeoutCommit : bool; CreateEmptyBlocks : bool; CreateEmptyBlocksInterval : Z }.

Definition WaitForTxs (cfg : ConsensusConfig) : bool :=
  negb (CreateEmptyBlocks cfg) || (0 <? CreateEmptyBlocksInterval cfg).
Definition timeoutTime (baseTimeout timeoutDelta round : Z) : Z :=
  wrap64 (baseTimeout + wrap64 (timeoutDelta * round)).
Definition cfg_Propose (cfg : ConsensusConfig) (round : Z) : Z :=
  timeoutTime (TimeoutPropose cfg) (TimeoutProposeDelta cfg) round.
Definition cfg_Prevote (cfg : ConsensusConfig) (round : Z) : Z :=
  timeoutTime (TimeoutPrevote cfg) (TimeoutPrevoteDelta cfg) round.
Definition cfg_Precommit (cfg : ConsensusConfig) (round : Z) : Z :=
  timeoutTime (TimeoutPrecommit cfg) (TimeoutPrecommitDelta cfg) round.
Definition cfg_Commit (cfg : ConsensusConfig) (t : Z) : Z := t + TimeoutCommit cfg.

(** [time.Time.Sub] saturates. *)
Definition time_Sub (t u : Z) : Z := Z.max min_int64 (Z.min max_int64 (t - u)).

Definition SafeAddInt32 (a b : Z) : outcome Z :=
  if (0 <? b) && (max_int32 - b <? a) then Panic "int32 overflow"
  else if (b <? 0) && (a <? min_int32 - b) then Panic "int32 overflow"
  else Done (a + b).

Record timeoutInfo := mkTimeout { tDuration : Z; tHeight : Z; tRound : Z; tStep : Z }.
#[export] Instance timeoutInfo_eq_dec : EqDecision timeoutInfo.
Proof. solve_decision. Defined.

Inductive Message :=
| ProposalMessage (p : option Proposal)
| BlockPartMessage (height round : Z) (part : option Part)
| VoteMessage (v : Vote).

Record msgInfo := mkMsg { Msg : Message; PeerID : string; ReceiveTime : Z }.

Definition MaxBlockSizeBytes : Z := 104857600.

(** The block, as far as consensus looks into it: its hash, time and height, and its
    protobuf encoding ([ToProto] and [BlockFromProto] with their checks; decoding may panic). *)
Class BlockOps := {
  Block : Type;
  block_Hash : Block → list Z;
  block_Time : Block → Z;
  block_Height : Block → Z;
  block_Marshal : Block → result string (list Z);
  block_Unmarshal : list Z → outcome (result string Block)
}.

Section block.
Context `{BlockOps}.

(** [Block.Hash] and [Block.HashesTo] of a block that may be nil. *)
Definition hash_of (b : option Block) : list Z := match b with None => [] | Some b => block_Hash b end.
Definition HashesTo (b : option Block) (hash : list Z) : bool :=
  if zlen hash =? 0 then false
  else match b with None => false | Some b => bytes_equal (block_Hash b) hash end.
End block.

Section state.
Context `{PubKeyOps, Merkle.HashOps, BlockOps, MsgCodec}.

(** [sm.State]: the fields consensus reads. *)
Record SMState := mkSM {
  sm_ChainID : string; sm_InitialHeight : Z; sm_LastBlockHeight : Z; sm_LastBlockTime : Z;
  sm_Validators : option ValidatorSet; sm_LastValidators : option ValidatorSet; sm_AppHash : list Z;
  sm_MaxBytes : Z; sm_VoteExtensionsEnableHeight : Z; sm_PbtsEnableHeight : Z; sm_Synchrony : SynchronyParams }.

Definition sm_IsEmpty (st : SMState) : bool := match sm_Validators st with None => true | Some _ => false end.

(** ** The state of a node *)

Record State := mkState {
  sHeight : Z;
  sRound : Z;
  sStep : Z;
  sStartTime : Z;
  sCommitTime : Z;
  sValidators : option ValidatorSet;
  sProposal : option Proposal;
  sProposalReceiveTime : Z;
  sProposalBlock : option Block;
  sProposalBlockParts : option nat;
  sLockedRound : Z;
  sLockedBlock : option Block;
  sLockedBlockParts : option nat;
  sValidRound : Z;
  sValidBlock : option Block;
  sValidBlockParts : option nat;
  sVotes : option HeightVoteSet;
  sCommitRound : Z;
  sLastCommit : option VoteSet;
  sLastValidators : option ValidatorSet;
  sTriggered : bool;
  sState : SMState;
  sPrivValidator : option FilePV;
  sPubKey : option PubKey;
  sPartSets : list PartSet;
  sStoreHeight : Z;
  sStore : list (Z * Block * Commit);
  sCommitted : list (Z * BlockID * Block);
  sQueue : list msgInfo;
  sTimeouts : list timeoutInfo;
  sEvidence : list (Vote * Vote);
  sTicks : nat;
  sArchive : list HeightVoteSet
}.

Definition set_height (x0 : Z) (s : State) : State :=
  mkState x0 (sRound s) (sStep s) (sStartTime s) (sCommitTime s) (sValidators s) (sProposal s) (sProposalReceiveTime
    s) (sProposalBlock s) (sProposalBlockParts s) (sLockedRound s) (sLockedBlock s) (sLockedBlockParts s) (sValidRound
    s) (sValidBlock s) (sValidBlockParts s) (sVotes s) (sCommitRound s) (sLastCommit s) (sLastValidators s)
    (sTriggered s) (sState s) (sPrivValidator s) (sPubKey s) (sPartSets s) (sStoreHeight s) (sStore s) (sCommitted s)
    (sQueue s) (sTimeouts s) (sEvidence s) (sTicks s) (sArchive s).
Definition set_round_step (x0 : Z) (x1 : Z) (s : State) : State :=
  mkState (sHeight s) x0 x1 (sStartTime s) (sCommitTime s) (sValidators s) (sProposal s) (sProposalReceiveTime s)
    (sProposalBlock s) (sProposalBlockParts s) (sLockedRound s) (sLockedBlock s) (sLockedBlockParts s) (sValidRound s)
    (sValidBlock s) (sValidBlockParts s) (sVotes s) (sCommitRound s) (sLastCommit s) (sLastValidators s) (sTriggered
    s) (sState s) (sPrivValidator s) (sPubKey s) (sPartSets s) (sStoreHeight s) (sStore s) (sCommitted s) (sQueue s)
    (sTimeouts s) (sEvidence s) (sTicks s) (sArchive s).
Definition set_start (x0 : Z) (s : State) : State :=
  mkState (sHeight s) (sRound s) (sStep s) x0 (sCommitTime s) (sValidators s) (sProposal s) (sProposalReceiveTime s)
    (sProposalBlock s) (sProposalBlockParts s) (sLockedRound s) (sLockedBlock s) (sLockedBlockParts s) (sValidRound s)
    (sValidBlock s) (sValidBlockParts s) (sVotes s) (sCommitRound s) (sLastCommit s) (sLastValidators s) (sTriggered
    s) (sState s) (sPrivValidator s) (sPubKey s) (sPartSets s) (sStoreHeight s) (sStore s) (sCommitted s) (sQueue s)
    (sTimeouts s) (sEvidence s) (sTicks s) (sArchive s).
Definition set_validators (x0 : option ValidatorSet) (s : State) : State :=
  mkState (sHeight s) (sRound s) (sStep s) (sStartTime s) (sCommitTime s) x0 (sProposal s) (sProposalReceiveTime s)
    (sProposalBlock s) (sProposalBlockParts s) (sLockedRound s) (sLockedBlock s) (sLockedBlockParts s) (sValidRound s)
    (sValidBlock s) (sValidBlockParts s) (sVotes s) (sCommitRound s) (sLastCommit s) (sLastValidators s) (sTriggered
    s) (sState s) (sPrivValidator s) (sPubKey s) (sPartSets s) (sStoreHeight s) (sStore s) (sCommitted s) (sQueue s)
    (sTimeouts s) (sEvidence s) (sTicks s) (sArchive s).
Definition set_proposal (x0 : option Proposal) (x1 : Z) (s : State) : State :=
  mkState (sHeight s) (sRound s) (sStep s) (sStartTime s) (sCommitTime s) (sValidators s) x0 x1 (sProposalBlock s)
    (sProposalBlockParts s) (sLockedRound s) (sLockedBlock s) (sLockedBlockParts s) (sValidRound s) (sValidBlock s)
    (sValidBlockParts s) (sVotes s) (sCommitRound s) (sLastCommit s) (sLastValidators s) (sTriggered s) (sState s)
    (sPrivValidator s) (sPubKey s) (sPartSets s) (sStoreHeight s) (sStore s) (sCommitted s) (sQueue s) (sTimeouts s)
    (sEvidence s) (sTicks s) (sArchive s).
Definition set_proposal_block (x0 : option Block) (s : State) : State :=
  mkState (sHeight s) (sRound s) (sStep s) (sStartTime s) (sCommitTime s) (sValidators s) (sProposal s)
    (sProposalReceiveTime s) x0 (sProposalBlockParts s) (sLockedRound s) (sLockedBlock s) (sLockedBlockParts s)
    (sValidRound s) (sValidBlock s) (sValidBlockParts s) (sVotes s) (sCommitRound s) (sLastCommit s) (sLastValidators
    s) (sTriggered s) (sState s) (sPrivValidator s) (sPubKey s) (sPartSets s) (sStoreHeight s) (sStore s) (sCommitted
    s) (sQueue s) (sTimeouts s) (sEvidence s) (sTicks s) (sArchive s).
Definition set_proposal_parts (x0 : option nat) (s : State) : State :=
  mkState (sHeight s) (sRound s) (sStep s) (sStartTime s) (sCommitTime s) (sValidators s) (sProposal s)
    (sProposalReceiveTime s) (sProposalBlock s) x0 (sLockedRound s) (sLockedBlock s) (sLockedBlockParts s)
    (sValidRound s) (sValidBlock s) (sValidBlockParts s) (sVotes s) (sCommitRound s) (sLastCommit s) (sLastValidators
    s) (sTriggered s) (sState s) (sPrivValidator s) (sPubKey s) (sPartSets s) (sStoreHeight s) (sStore s) (sCommitted
    s) (sQueue s) (sTimeouts s) (sEvidence s) (sTicks s) (sArchive s).
Definition set_locked_round (x0 : Z) (s : State) : State :=
  mkState (sHeight s) (sRound s) (sStep s) (sStartTime s) (sCommitTime s) (sValidators s) (sProposal s)
    (sProposalReceiveTime s) (sProposalBlock s) (sProposalBlockParts s) x0 (sLockedBlock s) (sLockedBlockParts s)
    (sValidRound s) (sValidBlock s) (sValidBlockParts s) (sVotes s) (sCommitRound s) (sLastCommit s) (sLastValidators
    s) (sTriggered s) (sState s) (sPrivValidator s) (sPubKey s) (sPartSets s) (sStoreHeight s) (sStore s) (sCommitted
    s) (sQueue s) (sTimeouts s) (sEvidence s) (sTicks s) (sArchive s).
Definition set_locked (x0 : Z) (x1 : option Block) (x2 : option nat) (s : State) : State :=
  mkState (sHeight s) (sRound s) (sStep s) (sStartTime s) (sCommitTime s) (sValidators s) (sProposal s)
    (sProposalReceiveTime s) (sProposalBlock s) (sProposalBlockParts s) x0 x1 x2 (sValidRound s) (sValidBlock s)
    (sValidBlockParts s) (sVotes s) (sCommitRound s) (sLastCommit s) (sLastValidators s) (sTriggered s) (sState s)
    (sPrivValidator s) (sPubKey s) (sPartSets s) (sStoreHeight s) (sStore s) (sCommitted s) (sQueue s) (sTimeouts s)
    (sEvidence s) (sTicks s) (sArchive s).
Definition set_valid (x0 : Z) (x1 : option Block) (x2 : option nat) (s : State) : State :=
  mkState (sHeight s) (sRound s) (sStep s) (sStartTime s) (sCommitTime s) (sValidators s) (sProposal s)
    (sProposalReceiveTime s) (sProposalBlock s) (sProposalBlockParts s) (sLockedRound s) (sLockedBlock s)
    (sLockedBlockParts s) x0 x1 x2 (sVotes s) (sCommitRound s) (sLastCommit s) (sLastValidators s) (sTriggered s)
    (sState s) (sPrivValidator s) (sPubKey s) (sPartSets s) (sStoreHeight s) (sStore s) (sCommitted s) (sQueue s)
    (sTimeouts s) (sEvidence s) (sTicks s) (sArchive s).
Definition set_votes (x0 : option HeightVoteSet) (s : State) : State :=
  mkState (sHeight s) (sRound s) (sStep s) (sStartTime s) (sCommitTime s) (sValidators s) (sProposal s)
    (sProposalReceiveTime s) (sProposalBlock s) (sProposalBlockParts s) (sLockedRound s) (sLockedBlock s)
    (sLockedBlockParts s) (sValidRound s) (sValidBlock s) (sValidBlockParts s) x0 (sCommitRound s) (sLastCommit s)
    (sLastValidators s) (sTriggered s) (sState s) (sPrivValidator s) (sPubKey s) (sPartSets s) (sStoreHeight s)
    (sStore s) (sCommitted s) (sQueue s) (sTimeouts s) (sEvidence s) (sTicks s) (sArchive s).
Definition set_commit (x0 : Z) (x1 : Z) (s : State) : State :=
  mkState (sHeight s) (sRound s) (sStep s) (sStartTime s) x1 (sValidators s) (sProposal s) (sProposalReceiveTime s)
    (sProposalBlock s) (sProposalBlockParts s) (sLockedRound s) (sLockedBlock s) (sLockedBlockParts s) (sValidRound s)
    (sValidBlock s) (sValidBlockParts s) (sVotes s) x0 (sLastCommit s) (sLastValidators s) (sTriggered s) (sState s)
    (sPrivValidator s) (sPubKey s) (sPartSets s) (sStoreHeight s) (sStore s) (sCommitted s) (sQueue s) (sTimeouts s)
    (sEvidence s) (sTicks s) (sArchive s).
Definition set_last_commit (x0 : option VoteSet) (s : State) : State :=
  mkState (sHeight s) (sRound s) (sStep s) (sStartTime s) (sCommitTime s) (sValidators s) (sProposal s)
    (sProposalReceiveTime s) (sProposalBlock s) (sProposalBlockParts s) (sLockedRound s) (sLockedBlock s)
    (sLockedBlockParts s) (sValidRound s) (sValidBlock s) (sValidBlockParts s) (sVotes s) (sCommitRound s) x0
    (sLastValidators s) (sTriggered s) (sState s) (sPrivValidator s) (sPubKey s) (sPartSets s) (sStoreHeight s)
    (sStore s) (sCommitted s) (sQueue s) (sTimeouts s) (sEvidence s) (sTicks s) (sArchive s).
Definition set_triggered (x0 : bool) (s : State) : State :=
  mkState (sHeight s) (sRound s) (sStep s) (sStartTime s) (sCommitTime s) (sValidators s) (sProposal s)
    (sProposalReceiveTime s) (sProposalBlock s) (sProposalBlockParts s) (sLockedRound s) (sLockedBlock s)
    (sLockedBlockParts s) (sValidRound s) (sValidBlock s) (sValidBlockParts s) (sVotes s) (sCommitRound s)
    (sLastCommit s) (sLastValidators s) x0 (sState s) (sPrivValidator s) (sPubKey s) (sPartSets s) (sStoreHeight s)
    (sStore s) (sCommitted s) (sQueue s) (sTimeouts s) (sEvidence s) (sTicks s) (sArchive s).
Definition set_signer (x0 : option FilePV) (s : State) : State :=
  mkState (sHeight s) (sRound s) (sStep s) (sStartTime s) (sCommitTime s) (sValidators s) (sProposal s)
    (sProposalReceiveTime s) (sProposalBlock s) (sProposalBlockParts s) (sLockedRound s) (sLockedBlock s)
    (sLockedBlockParts s) (sValidRound s) (sValidBlock s) (sValidBlockParts s) (sVotes s) (sCommitRound s)
    (sLastCommit s) (sLastValidators s) (sTriggered s) (sState s) x0 (sPubKey s) (sPartSets s) (sStoreHeight s)
    (sStore s) (sCommitted s) (sQueue s) (sTimeouts s) (sEvidence s) (sTicks s) (sArchive s).
Definition set_pub_key (x0 : option PubKey) (s : State) : State :=
  mkState (sHeight s) (sRound s) (sStep s) (sStartTime s) (sCommitTime s) (sValidators s) (sProposal s)
    (sProposalReceiveTime s) (sProposalBlock s) (sProposalBlockParts s) (sLockedRound s) (sLockedBlock s)
    (sLockedBlockParts s) (sValidRound s) (sValidBlock s) (sValidBlockParts s) (sVotes s) (sCommitRound s)
    (sLastCommit s) (sLastValidators s) (sTriggered s) (sState s) (sPrivValidator s) x0 (sPartSets s) (sStoreHeight s)
    (sStore s) (sCommitted s) (sQueue s) (sTimeouts s) (sEvidence s) (sTicks s) (sArchive s).
Definition set_part_sets (x0 : list PartSet) (s : State) : State :=
  mkState (sHeight s) (sRound s) (sStep s) (sStartTime s) (sCommitTime s) (sValidators s) (sProposal s)
    (sProposalReceiveTime s) (sProposalBlock s) (sProposalBlockParts s) (sLockedRound s) (sLockedBlock s)
    (sLockedBlockParts s) (sValidRound s) (sValidBlock s) (sValidBlockParts s) (sVotes s) (sCommitRound s)
    (sLastCommit s) (sLastValidators s) (sTriggered s) (sState s) (sPrivValidator s) (sPubKey s) x0 (sStoreHeight s)
    (sStore s) (sCommitted s) (sQueue s) (sTimeouts s) (sEvidence s) (sTicks s) (sArchive s).
Definition set_store (x0 : Z) (x1 : list (Z * Block * Commit)) (s : State) : State :=
  mkState (sHeight s) (sRound s) (sStep s) (sStartTime s) (sCommitTime s) (sValidators s) (sProposal s)
    (sProposalReceiveTime s) (sProposalBlock s) (sProposalBlockParts s) (sLockedRound s) (sLockedBlock s)
    (sLockedBlockParts s) (sValidRound s) (sValidBlock s) (sValidBlockParts s) (sVotes s) (sCommitRound s)
    (sLastCommit s) (sLastValidators s) (sTriggered s) (sState s) (sPrivValidator s) (sPubKey s) (sPartSets s) x0 x1
    (sCommitted s) (sQueue s) (sTimeouts s) (sEvidence s) (sTicks s) (sArchive s).
Definition set_committed (x0 : list (Z * BlockID * Block)) (s : State) : State :=
  mkState (sHeight s) (sRound s) (sStep s) (sStartTime s) (sCommitTime s) (sValidators s) (sProposal s)
    (sProposalReceiveTime s) (sProposalBlock s) (sProposalBlockParts s) (sLockedRound s) (sLockedBlock s)
    (sLockedBlockParts s) (sValidRound s) (sValidBlock s) (sValidBlockParts s) (sVotes s) (sCommitRound s)
    (sLastCommit s) (sLastValidators s) (sTriggered s) (sState s) (sPrivValidator s) (sPubKey s) (sPartSets s)
    (sStoreHeight s) (sStore s) x0 (sQueue s) (sTimeouts s) (sEvidence s) (sTicks s) (sArchive s).
Definition set_queue (x0 : list msgInfo) (s : State) : State :=
  mkState (sHeight s) (sRound s) (sStep s) (sStartTime s) (sCommitTime s) (sValidators s) (sProposal s)
    (sProposalReceiveTime s) (sProposalBlock s) (sProposalBlockParts s) (sLockedRound s) (sLockedBlock s)
    (sLockedBlockParts s) (sValidRound s) (sValidBlock s) (sValidBlockParts s) (sVotes s) (sCommitRound s)
    (sLastCommit s) (sLastValidators s) (sTriggered s) (sState s) (sPrivValidator s) (sPubKey s) (sPartSets s)
    (sStoreHeight s) (sStore s) (sCommitted s) x0 (sTimeouts s) (sEvidence s) (sTicks s) (sArchive s).
Definition set_timeouts (x0 : list timeoutInfo) (s : State) : State :=
  mkState (sHeight s) (sRound s) (sStep s) (sStartTime s) (sCommitTime s) (sValidators s) (sProposal s)
    (sProposalReceiveTime s) (sProposalBlock s) (sProposalBlockParts s) (sLockedRound s) (sLockedBlock s)
    (sLockedBlockParts s) (sValidRound s) (sValidBlock s) (sValidBlockParts s) (sVotes s) (sCommitRound s)
    (sLastCommit s) (sLastValidators s) (sTriggered s) (sState s) (sPrivValidator s) (sPubKey s) (sPartSets s)
    (sStoreHeight s) (sStore s) (sCommitted s) (sQueue s) x0 (sEvidence s) (sTicks s) (sArchive s).
Definition set_evidence (x0 : list (Vote * Vote)) (s : State) : State :=
  mkState (sHeight s) (sRound s) (sStep s) (sStartTime s) (sCommitTime s) (sValidators s) (sProposal s)
    (sProposalReceiveTime s) (sProposalBlock s) (sProposalBlockParts s) (sLockedRound s) (sLockedBlock s)
    (sLockedBlockParts s) (sValidRound s) (sValidBlock s) (sValidBlockParts s) (sVotes s) (sCommitRound s)
    (sLastCommit s) (sLastValidators s) (sTriggered s) (sState s) (sPrivValidator s) (sPubKey s) (sPartSets s)
    (sStoreHeight s) (sStore s) (sCommitted s) (sQueue s) (sTimeouts s) x0 (sTicks s) (sArchive s).
Definition set_ticks (x0 : nat) (s : State) : State :=
  mkState (sHeight s) (sRound s) (sStep s) (sStartTime s) (sCommitTime s) (sValidators s) (sProposal s)
    (sProposalReceiveTime s) (sProposalBlock s) (sProposalBlockParts s) (sLockedRound s) (sLockedBlock s)
    (sLockedBlockParts s) (sValidRound s) (sValidBlock s) (sValidBlockParts s) (sVotes s) (sCommitRound s)
    (sLastCommit s) (sLastValidators s) (sTriggered s) (sState s) (sPrivValidator s) (sPubKey s) (sPartSets s)
    (sStoreHeight s) (sStore s) (sCommitted s) (sQueue s) (sTimeouts s) (sEvidence s) x0 (sArchive s).
Definition set_new_height (x0 : Z) (x1 : option ValidatorSet) (x2 : bool) (x3 : SMState) (x4 : option HeightVoteSet)
    (x5 : list HeightVoteSet) (s : State) : State :=
  mkState (sHeight s) (sRound s) (sStep s) (sStartTime s) (sCommitTime s) (sValidators s) (sProposal s)
    (sProposalReceiveTime s) (sProposalBlock s) (sProposalBlockParts s) (sLockedRound s) (sLockedBlock s)
    (sLockedBlockParts s) (sValidRound s) (sValidBlock s) (sValidBlockParts s) x4 x0 (sLastCommit s) x1 x2 x3
    (sPrivValidator s) (sPubKey s) (sPartSets s) (sStoreHeight s) (sStore s) (sCommitted s) (sQueue s) (sTimeouts s)
    (sEvidence s) (sTicks s) x5.

(** ** The monad of handlers *)

Definition M (A : Type) : Type := State → outcome (State * A).
#[local] Instance M_ret : MRet M := λ A a s, Done (s, a).
#[local] Instance M_bind : MBind M := λ A B f m s,
  match m s with Done (s', a) => f a s' | Panic w => Panic w end.

Definition gets {A} (f : State → A) : M A := λ s, Done (s, f s).
Definition modify (f : State → State) : M unit := λ s, Done (f s, tt).
Definition panic {A} (why : string) : M A := λ _, Panic why.
Definition lift {A} (o : outcome A) : M A := λ s, match o with Done a => Done (s, a) | Panic w => Panic w end.
Definition when (b : bool) (m : M unit) : M unit := if b then m else mret tt.

(** ** The outside *)

(** One answer to each question a handler may ask. *)
Record Answers := {
  a_Now : Z;
  a_Publish : bool;
  a_Sync : bool;
  a_ValidateBlock : SMState → option Block → bool;
  a_ProcessProposal : option Block → SMState → result string bool;
  a_ApplyVerifiedBlock : SMState → BlockID → Block → result string SMState;
  a_CreateProposalBlock : Z → SMState → ExtendedCommit → list Z → result string (option Block);
  a_ExtendVote : Vote → option Block → SMState → result string (list Z);
  a_VerifyVoteExtension : Vote → bool;
  a_LoadBlockMeta : Z → option (list Z);
  a_LoadSeenCommit : Z → option Commit;
  a_LoadBlockCommit : Z → option Commit;
  a_LoadBlockExtendedCommit : Z → option ExtendedCommit;
  a_GetPubKey : result string PubKey
}.

Variable answers : nat → Answers.
Variable cfg : ConsensusConfig.
(** The private key of the signer. *)
Variable Sign : list Z → option (list Z).
(** [SynchronyParams.InRound], which computes in floating point. *)
Variable InRound : SynchronyParams → Z → SynchronyParams.

Definition ask {A} (q : Answers → A) : M A :=
  λ s, Done (set_ticks (S (sTicks s)) s, q (answers (sTicks s))).

(** ** Helpers *)

(** Pointers into the store of part sets. *)
Definition deref (p : option nat) (s : State) : option PartSet := p ≫= λ i, sPartSets s !! i.
Definition alloc (ps : PartSet) : M nat := λ s, Done (set_part_sets (sPartSets s ++ [ps]) s, length (sPartSets s)).
Definition assign (i : nat) (ps : PartSet) : M unit := modify (λ s, set_part_sets (<[i := ps]> (sPartSets s)) s).

Definition votes : M HeightVoteSet := λ s,
  match sVotes s with Some v => Done (s, v) | None => Panic "nil pointer dereference" end.
Definition validators : M ValidatorSet := λ s,
  match sValidators s with Some v => Done (s, v) | None => Panic "nil pointer dereference" end.

Definition Prevotes (round : Z) : M (option VoteSet) := v ← votes; lift (HeightVoteSet.Prevotes v round).
Definition Precommits (round : Z) : M (option VoteSet) := v ← votes; lift (HeightVoteSet.Precommits v round).
Definition HasTwoThirdsAny (vs : option VoteSet) : M bool := r ← lift (VoteSet.HasTwoThirdsAny vs); mret r.2.
Definition HasAll (vs : option VoteSet) : M bool := r ← lift (VoteSet.HasAll vs); mret r.2.

Definition GetProposer (vals : ValidatorSet) : M Validator :=
  r ← lift (ValidatorSet.GetProposer vals);
  match r.2 with Some v => mret v | None => panic "nil pointer dereference" end.

(** [MakePartSet(types.BlockPartSizeBytes)]. *)
Definition MakePartSet (b : Block) : M (result string PartSet) :=
  match block_Marshal b with
  | Err e => mret (Err e)
  | Ok bz => ps ← lift (PartSet.NewPartSetFromData bz PartSet.BlockPartSizeBytes); mret (Ok ps)
  end.

Definition VoteExtensionsEnabled (height : Z) : M bool :=
  st ← gets sState; lift (featureEnabled (sm_VoteExtensionsEnableHeight st) height).
Definition isPBTSEnabled (height : Z) : M bool :=
  st ← gets sState; lift (featureEnabled (sm_PbtsEnableHeight st) height).

Definition updateHeight (height : Z) : M unit := modify (set_height height).
Definition updateRoundStep (round step : Z) : M unit := modify (set_round_step round step).

Definition scheduleTimeout (duration height round step : Z) : M unit :=
  modify (λ s, set_timeouts (sTimeouts s ++ [mkTimeout duration height round step]) s).

Definition scheduleRound0 : M unit :=
  now ← ask a_Now;
  start ← gets sStartTime;
  height ← gets sHeight;
  scheduleTimeout (time_Sub start now) height 0 RoundStepNewHeight.

Definition sendInternalMessage (mi : msgInfo) : M unit := modify (λ s, set_queue (sQueue s ++ [mi]) s).

(** ** Entering a new height *)

(** The first error of [updateToState]'s consistency checks. *)
Definition check_new_state (s : State) (state : SMState) : option string :=
  if (-1 <? sCommitRound s) && (0 <? sHeight s) && negb (sHeight s =? sm_LastBlockHeight state)
  then Some "updateToState() expected state height"%string
  else if negb (sm_IsEmpty (sState s)) && (0 <? sm_LastBlockHeight (sState s)) &&
          negb (wrap64 (sm_LastBlockHeight (sState s) + 1) =? sHeight s)
  then Some "inconsistent cs.state.LastBlockHeight+1"%string
  else if negb (sm_IsEmpty (sState s)) && (0 <? sm_LastBlockHeight (sState s)) &&
          (sHeight s =? sm_InitialHeight (sState s))
  then Some "inconsistent cs.state.LastBlockHeight, expected 0 for initial height"%string
  else None.

(** The commit of the last height, from its precommits. *)
Definition take_last_commit (state : SMState) : M unit :=
  round ← gets sCommitRound;
  v ← gets sVotes;
  last ← gets sLastCommit;
  if sm_LastBlockHeight state =? 0 then modify (set_last_commit None)
  else if (-1 <? round) && match v with Some _ => true | None => false end then
    precommits ← Precommits round;
    if negb (VoteSet.HasTwoThirdsMajority precommits) then panic "wanted to form a commit, but precommits didn't have 2/3+"
    else modify (set_last_commit precommits)
  else match last with
       | None => panic "last commit cannot be empty after initial block"
       | Some _ => mret tt
       end.

Definition updateToState (state : SMState) : M unit :=
  bad ← gets (λ s, check_new_state s state);
  match bad with
  | Some why => panic why
  | None =>
      old ← gets sState;
      if negb (sm_IsEmpty old) && (sm_LastBlockHeight state <=? sm_LastBlockHeight old) then mret tt
      else
        take_last_commit state;;
        let height := wrap64 (sm_LastBlockHeight state + 1) in
        let height := if height =? 1 then sm_InitialHeight state else height in
        updateHeight height;;
        updateRoundStep 0 RoundStepNewHeight;;
        commitTime ← gets sCommitTime;
        start ← (if commitTime =? 0 then now ← ask a_Now; mret (cfg_Commit cfg now) else mret (cfg_Commit cfg commitTime));
        modify (set_start start);;
        modify (set_validators (sm_Validators state));;
        modify (set_proposal None 0);;
        modify (set_proposal_block None);;
        modify (set_proposal_parts None);;
        modify (set_locked (-1) None None);;
        modify (set_valid (-1) None None);;
        ext ← lift (featureEnabled (sm_VoteExtensionsEnableHeight state) height);
        match sm_Validators state with
        | None => panic "nil pointer dereference"
        | Some vals =>
            v ← lift (HeightVoteSet.NewHeightVoteSet ext (sm_ChainID state) height vals);
            modify (λ s, set_new_height (-1) (sm_LastValidators state) false state (Some v)
                           (match sVotes s with Some old => sArchive s ++ [old] | None => sArchive s end) s)
        end
  end.

(** ** Rounds *)

Definition needProofBlock (height : Z) : M bool :=
  st ← gets sState;
  if height =? sm_InitialHeight st then mret true
  else
    meta ← ask (λ a, a_LoadBlockMeta a (wrap64 (height - 1)));
    match meta with
    | None => mret true
    | Some appHash => mret (negb (bytes_equal (sm_AppHash st) appHash))
    end.

Definition isProposer (address : list Z) : M bool :=
  vals ← validators;
  p ← GetProposer vals;
  mret (bytes_equal (Address p) address).

Definition isProposalComplete : M bool :=
  proposal ← gets sProposal;
  block ← gets sProposalBlock;
  match proposal, block with
  | Some p, Some _ =>
      if POLRound p <? 0 then mret true
      else prevotes ← Prevotes (POLRound p); mret (VoteSet.HasTwoThirdsMajority prevotes)
  | _, _ => mret false
  end.

(** ** Signing *)

Definition voteTime (height : Z) : M Z :=
  pbts ← isPBTSEnabled height;
  now ← ask a_Now;
  if (pbts : bool) then mret now
  else
    locked ← gets sLockedBlock;
    proposed ← gets sProposalBlock;
    let minVoteTime :=
      match locked, proposed with
      | Some b, _ => block_Time b + 1000000
      | None, Some b => block_Time b + 1000000
      | None, None => now
      end in
    mret (if minVoteTime <? now then now else minVoteTime).

Definition with_extension (v : Vote) (ext : list Z) : Vote :=
  mkVote (Type_ v) (Votes.Height v) (Votes.Round v) (vBlockID v) (Timestamp v) (ValidatorAddress v) (ValidatorIndex v)
    (Signature v) ext (ExtensionSignature v).

(** The extension of a precommit for a block, when the chain has extensions. *)
Definition extend_vote (vote : Vote) (block : option Block) (extEnabled : bool) : M (result string Vote) :=
  if (Type_ vote =? PrecommitType) && negb (IsNil (vBlockID vote)) && extEnabled then
    st ← gets sState;
    ext ← ask (λ a, a_ExtendVote a vote block st);
    match ext with Err e => mret (Err e) | Ok ext => mret (Ok (with_extension vote ext)) end
  else mret (Ok vote).

Definition signVote (pv : FilePV) (msgType : Z) (hash : list Z) (header : PartSetHeader) (block : option Block)
    : M (result string Vote) :=
  synced ← ask a_Sync;
  pubKey ← gets sPubKey;
  match synced, pubKey with
  | false, _ => mret (Err "cannot flush the WAL"%string)
  | true, None => mret (Err "pubkey is not set"%string)
  | true, Some pubKey =>
      let addr := pk_Address pubKey in
      vals ← validators;
      height ← gets sHeight;
      round ← gets sRound;
      timestamp ← voteTime height;
      let vote := mkVote msgType height round (mkBlockID hash header) timestamp addr (GetByAddress vals addr).1 [] [] [] in
      extEnabled ← VoteExtensionsEnabled height;
      extended ← extend_vote vote block extEnabled;
      match extended with
      | Err e => mret (Err e)
      | Ok vote =>
          st ← gets sState;
          now ← ask a_Now;
          signed ← lift (PrivVal.SignAndCheckVote Sign now pv (sm_ChainID st) vote (extEnabled && (msgType =? PrecommitType)));
          let '(pv', vote', recoverable, err) := signed in
          modify (set_signer (Some pv'));;
          match err with
          | Some e => if (recoverable : bool) then mret (Err e) else panic "non-recoverable error when signing vote"
          | None => mret (Ok vote')
          end
      end
  end.

Definition signAddVote (msgType : Z) (hash : list Z) (header : PartSetHeader) (block : option Block) : M unit :=
  pv ← gets sPrivValidator;
  pubKey ← gets sPubKey;
  match pv, pubKey with
  | Some pv, Some pk =>
      vals ← validators;
      if negb (HasAddress vals (pk_Address pk)) then mret tt
      else
        signed ← signVote pv msgType hash header block;
        match signed with
        | Err _ => mret tt
        | Ok vote =>
            let hasExt := 0 <? zlen (ExtensionSignature vote) in
            extEnabled ← VoteExtensionsEnabled (Votes.Height vote);
            if (Type_ vote =? PrecommitType) && negb (IsNil (vBlockID vote)) && negb (Bool.eqb hasExt extEnabled)
            then panic "vote extension absence/presence does not match extensions enabled"
            else sendInternalMessage (mkMsg (VoteMessage vote) "" 0)
        end
  | _, _ => mret tt
  end.

Definition nil_header : PartSetHeader := mkPSH 0 [].
Definition vote_nil (msgType : Z) : M unit := signAddVote msgType [] nil_header None.

(** ** Proposing *)

Definition createProposalBlock : M (result string (option Block)) :=
  st ← gets sState;
  height ← gets sHeight;
  last ← gets sLastCommit;
  pv ← gets sPrivValidator;
  pubKey ← gets sPubKey;
  match pv with
  | None => mret (Err "nil private validator"%string)
  | Some _ =>
      ec ← (if height =? sm_InitialHeight st then mret (Ok (mkExtendedCommit 0 0 nil_BlockID []))
            else match last with
                 | Some vs =>
                     if VoteSet.HasTwoThirdsMajority last
                     then ec ← lift (VoteSet.MakeExtendedCommit vs (sm_VoteExtensionsEnableHeight st)); mret (Ok ec)
                     else mret (Err "proposal without previous commit"%string)
                 | None => mret (Err "proposal without previous commit"%string)
                 end);
      match (ec : result string ExtendedCommit), pubKey with
      | Err e, _ => mret (Err e)
      | Ok _, None => mret (Err "pubkey is not set"%string)
      | Ok ec, Some pk =>
          r ← ask (λ a, a_CreateProposalBlock a height st ec (pk_Address pk));
          match r with Err e => panic e | Ok b => mret (Ok b) end
      end
  end.

(** The block to propose with a pointer to its parts. *)
Definition choose_block : M (option (Block * option nat)) :=
  valid ← gets sValidBlock;
  validParts ← gets sValidBlockParts;
  match valid with
  | Some b => mret (Some (b, validParts))
  | None =>
      created ← createProposalBlock;
      match created with
      | Err _ => mret None
      | Ok None => panic "Method createProposalBlock should not provide a nil block without errors"
      | Ok (Some b) =>
          made ← MakePartSet b;
          match made with
          | Err _ => mret None
          | Ok ps => i ← alloc ps; mret (Some (b, Some i))
          end
      end
  end.

(** The loop that sends the parts from index [i], [n] of them. *)
Fixpoint send_parts (parts : option nat) (n : nat) (i : Z) : M unit :=
  match n with
  | O => mret tt
  | S n =>
      height ← gets sHeight;
      round ← gets sRound;
      ps ← gets (deref parts);
      match ps with
      | None => panic "nil pointer dereference"
      | Some ps =>
          part ← lift (PartSet.GetPart ps i);
          sendInternalMessage (mkMsg (BlockPartMessage height round part) "" 0);;
          send_parts parts n (i + 1)
      end
  end.

Definition defaultDecideProposal (height round : Z) : M unit :=
  chosen ← choose_block;
  match chosen with
  | None => mret tt
  | Some (block, blockParts) =>
      ask a_Sync;;
      parts ← gets (deref blockParts);
      validRound ← gets sValidRound;
      st ← gets sState;
      pv ← gets sPrivValidator;
      let propBlockID := mkBlockID (block_Hash block) (PartSet.Header parts) in
      let proposal := NewProposal height round validRound propBlockID (block_Time block) in
      match pv with
      | None => panic "nil pointer dereference"
      | Some pv =>
          now ← ask a_Now;
          signed ← lift (PrivVal.signProposal Sign now pv (sm_ChainID st) proposal);
          let '(pv', p, err) := signed in
          modify (set_signer (Some pv'));;
          match (err : option string) with
          | Some _ => mret tt
          | None =>
              recv ← ask a_Now;
              sendInternalMessage
                (mkMsg (ProposalMessage (Some (PrivVal.set_proposal_sig proposal (pTimestamp proposal) (pSignature p)))) "" recv);;
              send_parts blockParts (Z.to_nat (PartSet.Total parts)) 0
          end
      end
  end.

(** ** Prevoting *)

Definition proposalIsTimely (p : Proposal) : M bool :=
  st ← gets sState;
  recv ← gets sProposalReceiveTime;
  mret (IsTimely p recv (InRound (sm_Synchrony st) (pRound p))).

Definition prevote_proposal (block : Block) : M unit :=
  parts ← gets sProposalBlockParts;
  ps ← gets (deref parts);
  signAddVote PrevoteType (block_Hash block) (PartSet.Header ps) None.

(** Whether the timestamp rules of proposer-based time ask for a nil prevote. *)
Definition pbts_refuses (height : Z) (p : Proposal) (block : Block) : M bool :=
  pbts ← isPBTSEnabled height;
  if (pbts : bool) then
    if negb (pTimestamp p =? block_Time block) then mret true
    else if POLRound p =? -1 then timely ← proposalIsTimely p; mret (negb timely)
    else mret false
  else mret false.

(** A proposal without a polka. *)
Definition prevote_fresh (block : Block) : M unit :=
  lockedRound ← gets sLockedRound;
  locked ← gets sLockedBlock;
  if lockedRound =? -1 then
    validRound ← gets sValidRound;
    valid ← gets sValidBlock;
    if negb (validRound =? -1) && HashesTo (Some block) (hash_of valid) then prevote_proposal block
    else
      st ← gets sState;
      r ← ask (λ a, a_ProcessProposal a (Some block) st);
      match r with
      | Err _ => panic "state machine returned an error when calling ProcessProposal"
      | Ok false => vote_nil PrevoteType
      | Ok true => prevote_proposal block
      end
  else if HashesTo (Some block) (hash_of locked) then prevote_proposal block
  else vote_nil PrevoteType.

(** A proposal that names the round of a polka. *)
Definition prevote_with_polka (p : Proposal) (block : Block) : M unit :=
  prevotes ← Prevotes (POLRound p);
  lockedRound ← gets sLockedRound;
  locked ← gets sLockedBlock;
  csRound ← gets sRound;
  let '(blockID, ok) := VoteSet.TwoThirdsMajority prevotes in
  let ok := ok && negb (IsNil blockID) in
  if ok && HashesTo (Some block) (Votes.Hash blockID) && (POLRound p <? csRound) then
    if lockedRound <? POLRound p then prevote_proposal block
    else if HashesTo (Some block) (hash_of locked) then prevote_proposal block
    else if lockedRound =? POLRound p then prevote_proposal block
    else vote_nil PrevoteType
  else vote_nil PrevoteType.

Definition defaultDoPrevote (height round : Z) : M unit :=
  proposal ← gets sProposal;
  block ← gets sProposalBlock;
  match proposal, block with
  | None, _ | _, None => vote_nil PrevoteType
  | Some p, Some b =>
      untimely ← pbts_refuses height p b;
      if (untimely : bool) then vote_nil PrevoteType
      else
        st ← gets sState;
        valid ← ask (λ a, a_ValidateBlock a st (Some b));
        if negb valid then vote_nil PrevoteType
        else if POLRound p =? -1 then prevote_fresh b
        else prevote_with_polka p b
  end.

Definition enterPrevote (height round : Z) : M unit :=
  csHeight ← gets sHeight; csRound ← gets sRound; csStep ← gets sStep;
  if negb (csHeight =? height) || (round <? csRound) || ((csRound =? round) && (RoundStepPrevote <=? csStep))
  then mret tt
  else
    defaultDoPrevote height round;;
    updateRoundStep round RoundStepPrevote.

Definition enterPrevoteWait (height round : Z) : M unit :=
  csHeight ← gets sHeight; csRound ← gets sRound; csStep ← gets sStep;
  if negb (csHeight =? height) || (round <? csRound) || ((csRound =? round) && (RoundStepPrevoteWait <=? csStep))
  then mret tt
  else
    prevotes ← Prevotes round;
    any ← HasTwoThirdsAny prevotes;
    if negb any then panic "Entering prevote wait step, but prevotes does not have any +2/3 votes"
    else
      scheduleTimeout (cfg_Prevote cfg round) height round RoundStepPrevoteWait;;
      updateRoundStep round RoundStepPrevoteWait.

(** ** Proposing and new rounds *)

(** The body of [enterPropose] once its guards have passed. *)
Definition propose_body (height round : Z) : M unit :=
  scheduleTimeout (cfg_Propose cfg round) height round RoundStepPropose;;
  pv ← gets sPrivValidator;
  pubKey ← gets sPubKey;
  match pv, pubKey with
  | Some _, Some pk =>
      vals ← validators;
      if negb (HasAddress vals (pk_Address pk)) then mret tt
      else
        mine ← isProposer (pk_Address pk);
        when mine (defaultDecideProposal height round)
  | _, _ => mret tt
  end.

(** How long a proposer whose clock is behind the last block has to wait, if it has to. *)
Definition proposer_waits (height : Z) : M Z :=
  pbts ← isPBTSEnabled height;
  pubKey ← gets sPubKey;
  match pubKey with
  | Some pk =>
      if (pbts : bool) then
        mine ← isProposer (pk_Address pk);
        if (mine : bool) then
          st ← gets sState;
          t ← ask a_Now;
          mret (if t <? sm_LastBlockTime st then time_Sub (sm_LastBlockTime st) t else 0)
        else mret 0
      else mret 0
  | None => mret 0
  end.

Definition enterPropose (height round : Z) : M unit :=
  csHeight ← gets sHeight; csRound ← gets sRound; csStep ← gets sStep;
  if negb (csHeight =? height) || (round <? csRound) || ((csRound =? round) && (RoundStepPropose <=? csStep))
  then mret tt
  else
    wait ← proposer_waits height;
    if 0 <? wait then scheduleTimeout wait height round RoundStepNewRound
    else
      propose_body height round;;
      updateRoundStep round RoundStepPropose;;
      complete ← isProposalComplete;
      csRound ← gets sRound;
      when complete (enterPrevote height csRound).

Definition enterNewRound (height round : Z) : M unit :=
  csHeight ← gets sHeight; csRound ← gets sRound; csStep ← gets sStep;
  if negb (csHeight =? height) || (round <? csRound) || ((csRound =? round) && negb (csStep =? RoundStepNewHeight))
  then mret tt
  else
    ask a_Now;;
    vals ← validators;
    vals ← (if csRound <? round then
              times ← lift (HeightVoteSet.SafeSubInt32 round csRound); lift (IncrementProposerPriority vals times)
            else mret vals);
    updateRoundStep round RoundStepNewRound;;
    modify (set_validators (Some vals));;
    proposer ← GetProposer vals;
    (match ValPubKey proposer with None => panic "nil pointer dereference" | Some _ => mret tt end);;
    when (negb (round =? 0))
      (modify (set_proposal None 0);; modify (set_proposal_block None);; modify (set_proposal_parts None));;
    next ← lift (SafeAddInt32 round 1);
    v ← votes;
    v ← lift (HeightVoteSet.SetRound v next);
    modify (set_votes (Some v));;
    modify (set_triggered false);;
    proof ← (if WaitForTxs cfg && (round =? 0) then needProofBlock height else mret true);
    if WaitForTxs cfg && (round =? 0) && negb proof then
      when (0 <? CreateEmptyBlocksInterval cfg)
        (scheduleTimeout (CreateEmptyBlocksInterval cfg) height round RoundStepNewRound)
    else enterPropose height round.

(** ** Precommitting *)

(** The block of a polka is not the one we have: get it. *)
Definition expect_parts (header : PartSetHeader) : M unit :=
  i ← alloc (PartSet.NewPartSetFromHeader header);
  modify (set_proposal_parts (Some i)).

Definition precommit_body (round : Z) : M unit :=
  prevotes ← Prevotes round;
  let '(blockID, ok) := VoteSet.TwoThirdsMajority prevotes in
  if negb ok then vote_nil PrecommitType
  else
    v ← votes;
    pol ← lift (HeightVoteSet.POLInfo v);
    if pol.1 <? round then panic "this POLRound should be the round"
    else if IsNil blockID then vote_nil PrecommitType
    else
      locked ← gets sLockedBlock;
      proposed ← gets sProposalBlock;
      parts ← gets sProposalBlockParts;
      if HashesTo locked (Votes.Hash blockID) then
        modify (set_locked_round round);;
        signAddVote PrecommitType (Votes.Hash blockID) (PSH blockID) locked
      else if HashesTo proposed (Votes.Hash blockID) then
        st ← gets sState;
        valid ← ask (λ a, a_ValidateBlock a st proposed);
        if negb valid then panic "Precommit step; +2/3 prevoted for an invalid block"
        else
          modify (set_locked round proposed parts);;
          signAddVote PrecommitType (Votes.Hash blockID) (PSH blockID) proposed
      else
        ps ← gets (deref parts);
        when (negb (PartSet.HasHeader ps (PSH blockID)))
          (modify (set_proposal_block None);; expect_parts (PSH blockID));;
        vote_nil PrecommitType.

Definition enterPrecommit (height round : Z) : M unit :=
  csHeight ← gets sHeight; csRound ← gets sRound; csStep ← gets sStep;
  if negb (csHeight =? height) || (round <? csRound) || ((csRound =? round) && (RoundStepPrecommit <=? csStep))
  then mret tt
  else
    precommit_body round;;
    updateRoundStep round RoundStepPrecommit.

Definition enterPrecommitWait (height round : Z) : M unit :=
  csHeight ← gets sHeight; csRound ← gets sRound; triggered ← gets sTriggered;
  if negb (csHeight =? height) || (round <? csRound) || ((csRound =? round) && triggered)
  then mret tt
  else
    precommits ← Precommits round;
    any ← HasTwoThirdsAny precommits;
    if negb any then panic "entering precommit wait step, but precommits does not have any +2/3 votes"
    else
      scheduleTimeout (cfg_Precommit cfg round) height round RoundStepPrecommitWait;;
      modify (set_triggered true).

(** ** Committing *)

Definition updatePrivValidatorPubKey : M unit :=
  pv ← gets sPrivValidator;
  match pv with
  | None => mret tt
  | Some _ =>
      r ← ask a_GetPubKey;
      match r with Ok pk => modify (set_pub_key (Some pk)) | Err _ => mret tt end
  end.

(** [SaveBlock] and [SaveBlockWithExtendedCommit] of the block store: the checks that
    make them panic, and the new last height. *)
Definition SaveBlock (block : Block) (parts : option PartSet) (seenCommit : Commit) : M unit :=
  storeHeight ← gets sStoreHeight;
  store ← gets sStore;
  if (0 <? storeHeight) && negb (block_Height block =? wrap64 (storeHeight + 1))
  then panic "BlockStore can only save contiguous blocks"
  else match parts with
       | None => panic "nil pointer dereference"
       | Some ps =>
           if negb (PartSet.IsComplete ps) then panic "BlockStore can only save complete block part sets"
           else if negb (block_Height block =? cHeight seenCommit)
           then panic "BlockStore cannot save seen commit of a different height"
           else modify (set_store (block_Height block) (store ++ [(block_Height block, block, seenCommit)]))
       end.

Definition save_decided (block : Block) (parts : option PartSet) : M unit :=
  storeHeight ← gets sStoreHeight;
  if storeHeight <? block_Height block then
    commitRound ← gets sCommitRound;
    precommits ← Precommits commitRound;
    st ← gets sState;
    match precommits with
    | None => panic "nil pointer dereference"
    | Some vs =>
        ec ← lift (VoteSet.MakeExtendedCommit vs (sm_VoteExtensionsEnableHeight st));
        ext ← VoteExtensionsEnabled (block_Height block);
        (if (ext : bool) then
           match EnsureExtensions ec true with
           | Some _ => panic "problems saving block with extensions"
           | None => mret tt
           end
         else mret tt);;
        SaveBlock block parts (ToCommit ec)
    end
  else mret tt.

Definition finalizeCommit (height : Z) : M unit :=
  csHeight ← gets sHeight; csStep ← gets sStep;
  if negb (csHeight =? height) || negb (csStep =? RoundStepCommit) then mret tt
  else
    commitRound ← gets sCommitRound;
    precommits ← Precommits commitRound;
    block ← gets sProposalBlock;
    blockParts ← gets sProposalBlockParts;
    parts ← gets (deref blockParts);
    let '(blockID, ok) := VoteSet.TwoThirdsMajority precommits in
    if negb ok then panic "cannot finalize commit; commit does not have 2/3 majority"
    else if negb (PartSet.HasHeader parts (PSH blockID)) then panic "expected ProposalBlockParts header to be commit header"
    else if negb (HashesTo block (Votes.Hash blockID)) then panic "cannot finalize commit; proposal block does not hash to commit hash"
    else
      st ← gets sState;
      valid ← ask (λ a, a_ValidateBlock a st block);
      match block with
      | None => panic "nil pointer dereference"
      | Some b =>
          if negb valid then panic "+2/3 committed an invalid block"
          else
            save_decided b parts;;
            synced ← ask a_Sync;
            if negb synced then panic "failed to write EndHeightMessage to consensus WAL"
            else
              let id := mkBlockID (block_Hash b) (PartSet.Header parts) in
              modify (λ s, set_committed (sCommitted s ++ [(height, id, b)]) s);;
              applied ← ask (λ a, a_ApplyVerifiedBlock a st id b);
              match applied with
              | Err _ => panic "failed to apply block"
              | Ok st' =>
                  updateToState st';;
                  updatePrivValidatorPubKey;;
                  scheduleRound0
              end
      end.

Definition tryFinalizeCommit (height : Z) : M unit :=
  csHeight ← gets sHeight;
  if negb (csHeight =? height) then panic "tryFinalizeCommit() cs.Height vs height"
  else
    commitRound ← gets sCommitRound;
    precommits ← Precommits commitRound;
    block ← gets sProposalBlock;
    let '(blockID, ok) := VoteSet.TwoThirdsMajority precommits in
    if negb ok || IsNil blockID then mret tt
    else if negb (HashesTo block (Votes.Hash blockID)) then mret tt
    else finalizeCommit height.

Definition commit_body (commitRound : Z) : M unit :=
  precommits ← Precommits commitRound;
  let '(blockID, ok) := VoteSet.TwoThirdsMajority precommits in
  if negb ok || IsNil blockID then panic "RunActionCommit() expects +2/3 precommits"
  else
    locked ← gets sLockedBlock;
    lockedParts ← gets sLockedBlockParts;
    when (HashesTo locked (Votes.Hash blockID))
      (modify (set_proposal_block locked);; modify (set_proposal_parts lockedParts));;
    block ← gets sProposalBlock;
    parts ← gets sProposalBlockParts;
    ps ← gets (deref parts);
    when (negb (HashesTo block (Votes.Hash blockID)) && negb (PartSet.HasHeader ps (PSH blockID)))
      (modify (set_proposal_block None);; expect_parts (PSH blockID)).

Definition enterCommit (height commitRound : Z) : M unit :=
  csHeight ← gets sHeight; csStep ← gets sStep;
  if negb (csHeight =? height) || (RoundStepCommit <=? csStep) then mret tt
  else
    commit_body commitRound;;
    csRound ← gets sRound;
    updateRoundStep csRound RoundStepCommit;;
    now ← ask a_Now;
    modify (set_commit commitRound now);;
    tryFinalizeCommit height.

(** ** Proposals and block parts *)

Definition max_bytes (st : SMState) : Z := if sm_MaxBytes st =? -1 then MaxBlockSizeBytes else sm_MaxBytes st.

Definition defaultSetProposal (proposal : option Proposal) (recvTime : Z) : M (option string) :=
  have ← gets sProposal;
  csHeight ← gets sHeight; csRound ← gets sRound;
  match have, proposal with
  | Some _, _ | _, None => mret None
  | None, Some p =>
      if negb (pHeight p =? csHeight) || negb (pRound p =? csRound) then mret None
      else if (POLRound p <? -1) || ((0 <=? POLRound p) && (pRound p <=? POLRound p))
      then mret (Some "invalid proposal POL round"%string)
      else
        st ← gets sState;
        vals ← validators;
        proposer ← GetProposer vals;
        match ValPubKey proposer with
        | None => panic "nil pointer dereference"
        | Some pubKey =>
            signBytes ← lift (ProposalSignBytes (sm_ChainID st) p);
            if negb (VerifySignature pubKey signBytes (pSignature p)) then mret (Some "invalid proposal signature"%string)
            else if Z.quot (max_bytes st - 1) PartSet.BlockPartSizeBytes + 1 <? psh_Total (PSH (pBlockID p))
            then mret (Some "proposal block has too many parts"%string)
            else
              modify (set_proposal (Some p) recvTime);;
              parts ← gets sProposalBlockParts;
              match parts with
              | None => expect_parts (PSH (pBlockID p))
              | Some _ => mret tt
              end;;
              mret None
        end
  end.

(** [io.ReadFull] of a part-set reader into a buffer of [n] bytes: each round reads
    something or ends, so [n] rounds are enough. *)
Fixpoint ReadFull (fuel : nat) (psr : PartSet.PartSetReader) (n : Z) : outcome (result string (list Z)) :=
  if n <=? 0 then Done (Ok [])
  else
    match fuel with
    | O => Done (Err "out of fuel"%string)
    | S fuel =>
        '(psr', bs, eof) ← PartSet.Read psr n;
        if n <=? zlen bs then Done (Ok bs)
        else if (eof : bool) then Done (Err "unexpected EOF"%string)
        else
          rest ← ReadFull fuel psr' (n - zlen bs);
          Done (match (rest : result string (list Z)) with Ok r => Ok (bs ++ r) | Err e => Err e end)
    end.

Definition readSerializedBlockFromBlockParts (ps : PartSet) : outcome (result string (list Z)) :=
  let size := PartSet.ByteSize (Some ps) in
  psr ← PartSet.GetReader ps;
  ReadFull (Z.to_nat size) psr size.

(** Whether the part was added, and the error. *)
Definition addProposalBlockPart (height round : Z) (part : option Part) : M (bool * option string) :=
  csHeight ← gets sHeight;
  parts ← gets sProposalBlockParts;
  ps ← gets (deref parts);
  if negb (csHeight =? height) then mret (false, None)
  else
    match part with
    | None => panic "nil pointer dereference"
    | Some part =>
        match parts, ps with
        | Some i, Some ps =>
            r ← lift (PartSet.AddPart (Some ps) part);
            let '(ps', added, err) := r in
            match (ps' : option PartSet), (err : option PartSet.part_error) with
            | None, _ => panic "nil pointer dereference"
            | Some _, Some _ => mret (added, Some "cannot add part"%string)
            | Some ps', None =>
                assign i ps';;
                st ← gets sState;
                if max_bytes st <? PartSet.ByteSize (Some ps')
                then mret (added, Some "total size of proposal block parts exceeds maximum block bytes"%string)
                else if added && PartSet.IsComplete ps' then
                  bz ← lift (readSerializedBlockFromBlockParts ps');
                  match (bz : result string (list Z)) with
                  | Err e => mret (added, Some e)
                  | Ok bz =>
                      blk ← lift (block_Unmarshal bz);
                      match (blk : result string Block) with
                      | Err e => mret (added, Some e)
                      | Ok block => modify (set_proposal_block (Some block));; mret (added, None)
                      end
                  end
                else mret (added, None)
            end
        | _, _ => mret (false, None)
        end
    end.

Definition handleCompleteProposal (blockHeight : Z) : M unit :=
  csRound ← gets sRound;
  prevotes ← Prevotes csRound;
  validRound ← gets sValidRound;
  block ← gets sProposalBlock;
  parts ← gets sProposalBlockParts;
  let '(blockID, hasTwoThirds) := VoteSet.TwoThirdsMajority prevotes in
  when (hasTwoThirds && negb (IsNil blockID) && (validRound <? csRound) && HashesTo block (Votes.Hash blockID))
    (modify (set_valid csRound block parts));;
  csStep ← gets sStep;
  complete ← (if csStep <=? RoundStepPropose then isProposalComplete else mret false);
  if (csStep <=? RoundStepPropose) && complete then
    enterPrevote blockHeight csRound;;
    csRound ← gets sRound;
    when hasTwoThirds (enterPrecommit blockHeight csRound)
  else when (csStep =? RoundStepCommit) (tryFinalizeCommit blockHeight).

(** ** Votes *)

Inductive add_error :=
| EVote (e : vote_error)
| EUnwantedRound | EInvalidType
| EInvalidVote | EExtensionRejected | EExtensionDisabled | EPublish
| EPubKeyNotSet.

Definition of_height_error (e : HeightVoteSet.height_vote_error) : add_error :=
  match e with
  | HeightVoteSet.ErrInvalidVoteType => EInvalidType
  | HeightVoteSet.ErrGotVoteFromUnwantedRound => EUnwantedRound
  | HeightVoteSet.ErrVote e => EVote e
  end.

Definition skipTimeoutCommit : bool := SkipTimeoutCommit cfg || (TimeoutCommit cfg =? 0).

(** A late precommit of the previous height. *)
Definition add_last_precommit (vote : Vote) : M (bool * option add_error) :=
  csStep ← gets sStep;
  if negb (csStep =? RoundStepNewHeight) then mret (false, None)
  else
    last ← gets sLastCommit;
    r ← lift (VoteSet.AddVote last (Some vote));
    let '(vs', (added, err)) := r in
    modify (set_last_commit (Some vs'));;
    if negb added then mret (added, EVote <$> err)
    else
      ok ← ask a_Publish;
      if negb ok then mret (added, Some EPublish)
      else
        all ← (if skipTimeoutCommit then HasAll (Some vs') else mret false);
        csHeight ← gets sHeight;
        when all (enterNewRound csHeight 0);;
        mret (added, EVote <$> err).

(** The checks on vote extensions before a vote is counted. *)
Definition check_extension (vote : Vote) (extEnabled : bool) : M (option add_error) :=
  if extEnabled then
    pubKey ← gets sPubKey;
    let myAddr := match pubKey with Some pk => pk_Address pk | None => [] end in
    if (Type_ vote =? PrecommitType) && negb (IsNil (vBlockID vote)) && negb (bytes_equal (ValidatorAddress vote) myAddr) then
      st ← gets sState;
      match sm_Validators st with
      | None => panic "nil pointer dereference"
      | Some vals =>
          match GetByIndex vals (ValidatorIndex vote) with
          | None => mret (Some EInvalidVote)
          | Some (_, val) =>
              err ← lift (VerifyExtension vote (sm_ChainID st) (ValPubKey val));
              match err with
              | Some e => mret (Some (EVote e))
              | None =>
                  ok ← ask (λ a, a_VerifyVoteExtension a vote);
                  mret (if (ok : bool) then None else Some EExtensionRejected)
              end
          end
      end
    else mret None
  else if (0 <? zlen (Extension vote)) || (0 <? zlen (ExtensionSignature vote)) then mret (Some EExtensionDisabled)
  else mret None.

(** After a prevote was added; false when the event bus failed. *)
Definition after_prevote (height : Z) (vote : Vote) : M bool :=
  prevotes ← Prevotes (Votes.Round vote);
  validRound ← gets sValidRound; csRound ← gets sRound;
  let '(blockID, ok) := VoteSet.TwoThirdsMajority prevotes in
  published ← (if ok && negb (IsNil blockID) && (validRound <? Votes.Round vote) && (Votes.Round vote =? csRound) then
     block ← gets sProposalBlock;
     parts ← gets sProposalBlockParts;
     (if HashesTo block (Votes.Hash blockID) then modify (set_valid (Votes.Round vote) block parts)
      else modify (set_proposal_block None));;
     ps ← gets (deref parts);
     when (negb (PartSet.HasHeader ps (PSH blockID))) (expect_parts (PSH blockID));;
     ask a_Publish
   else mret true);
  if negb published then mret false
  else
    csRound ← gets sRound; csStep ← gets sStep;
    proposal ← gets sProposal;
    future ← (if csRound <? Votes.Round vote then HasTwoThirdsAny prevotes else mret false);
    (if (future : bool) then enterNewRound height (Votes.Round vote)
     else if (csRound =? Votes.Round vote) && (RoundStepPrevote <=? csStep) then
       complete ← (if ok then isProposalComplete else mret false);
       if ok && (complete || IsNil blockID) then enterPrecommit height (Votes.Round vote)
       else
         any ← HasTwoThirdsAny prevotes;
         when any (enterPrevoteWait height (Votes.Round vote))
     else
       match proposal with
       | Some p =>
           if (0 <=? POLRound p) && (POLRound p =? Votes.Round vote) then
             complete ← isProposalComplete;
             when complete (enterPrevote height csRound)
           else mret tt
       | None => mret tt
       end);;
    mret true.

(** After a precommit was added. *)
Definition after_precommit (height : Z) (vote : Vote) : M unit :=
  precommits ← Precommits (Votes.Round vote);
  let '(blockID, ok) := VoteSet.TwoThirdsMajority precommits in
  if (ok : bool) then
    enterNewRound height (Votes.Round vote);;
    enterPrecommit height (Votes.Round vote);;
    if negb (IsNil blockID) then
      enterCommit height (Votes.Round vote);;
      all ← (if skipTimeoutCommit then HasAll precommits else mret false);
      csHeight ← gets sHeight;
      when all (enterNewRound csHeight 0)
    else enterPrecommitWait height (Votes.Round vote)
  else
    csRound ← gets sRound;
    any ← (if csRound <=? Votes.Round vote then HasTwoThirdsAny precommits else mret false);
    when any (enterNewRound height (Votes.Round vote);; enterPrecommitWait height (Votes.Round vote)).

Definition addVote (vote : Vote) (peerID : string) : M (bool * option add_error) :=
  csHeight ← gets sHeight;
  if (wrap64 (Votes.Height vote + 1) =? csHeight) && (Type_ vote =? PrecommitType) then add_last_precommit vote
  else if negb (Votes.Height vote =? csHeight) then mret (false, None)
  else
    extEnabled ← VoteExtensionsEnabled (Votes.Height vote);
    bad ← check_extension vote extEnabled;
    match bad with
    | Some e => mret (false, Some e)
    | None =>
        v ← votes;
        r ← lift (HeightVoteSet.AddVote v vote peerID extEnabled);
        let '(v', (added, err)) := r in
        modify (set_votes (Some v'));;
        let err := of_height_error <$> err in
        if negb added then mret (added, err)
        else
          ok ← ask a_Publish;
          if negb ok then mret (added, Some EPublish)
          else if Type_ vote =? PrevoteType then
            published ← after_prevote csHeight vote;
            mret (added, if (published : bool) then err else Some EPublish)
          else if Type_ vote =? PrecommitType then
            after_precommit csHeight vote;; mret (added, err)
          else panic "unexpected vote type"
    end.

Definition tryAddVote (vote : Vote) (peerID : string) : M (bool * option add_error) :=
  r ← addVote vote peerID;
  match r with
  | (added, Some (EVote (ErrVoteConflictingVotes a b))) =>
      pubKey ← gets sPubKey;
      match pubKey with
      | None => mret (false, Some EPubKeyNotSet)
      | Some pk =>
          if bytes_equal (ValidatorAddress vote) (pk_Address pk) then mret r
          else modify (λ s, set_evidence (sEvidence s ++ [(a, b)]) s);; mret r
      end
  | _ => mret r
  end.

(** ** The receive routine *)

Definition handleMsg (mi : msgInfo) : M unit :=
  match Msg mi with
  | ProposalMessage p => defaultSetProposal p (ReceiveTime mi);; mret tt
  | BlockPartMessage height round part =>
      r ← addProposalBlockPart height round part;
      parts ← gets sProposalBlockParts;
      ps ← gets (deref parts);
      if (r.1 : bool) then
        match ps with
        | None => panic "nil pointer dereference"
        | Some ps => when (PartSet.IsComplete ps) (handleCompleteProposal height)
        end
      else mret tt
  | VoteMessage v => tryAddVote v (PeerID mi);; mret tt
  end.

Definition handleTimeout (ti : timeoutInfo) : M unit :=
  csHeight ← gets sHeight; csRound ← gets sRound; csStep ← gets sStep;
  if negb (tHeight ti =? csHeight) || (tRound ti <? csRound) || ((tRound ti =? csRound) && (tStep ti <? csStep))
  then mret tt
  else if tStep ti =? RoundStepNewHeight then enterNewRound (tHeight ti) 0
  else if tStep ti =? RoundStepNewRound then enterPropose (tHeight ti) (tRound ti)
  else if tStep ti =? RoundStepPropose then enterPrevote (tHeight ti) (tRound ti)
  else if tStep ti =? RoundStepPrevoteWait then enterPrecommit (tHeight ti) (tRound ti)
  else if tStep ti =? RoundStepPrecommitWait then
    enterPrecommit (tHeight ti) (tRound ti);;
    enterNewRound (tHeight ti) (wrap32 (tRound ti + 1))
  else panic "invalid field timeout_step".

Definition handleTxsAvailable : M unit :=
  csRound ← gets sRound; csStep ← gets sStep; csHeight ← gets sHeight;
  if negb (csRound =? 0) then mret tt
  else if csStep =? RoundStepNewHeight then
    proof ← needProofBlock csHeight;
    if (proof : bool) then mret tt
    else
      now ← ask a_Now;
      start ← gets sStartTime;
      scheduleTimeout (wrap64 (time_Sub start now + 1000000)) csHeight 0 RoundStepNewRound
  else when (csStep =? RoundStepNewRound) (enterPropose csHeight 0).

(** ** Starting *)

Definition votesFromExtendedCommit (state : SMState) : M (result string VoteSet) :=
  ec ← ask (λ a, a_LoadBlockExtendedCommit a (sm_LastBlockHeight state));
  match ec, sm_LastValidators state with
  | None, _ => mret (Err "extended commit not found"%string)
  | Some ec, vals =>
      if negb (ecHeight ec =? sm_LastBlockHeight state) then mret (Err "heights don't match in votesFromExtendedCommit"%string)
      else
        match vals with
        | None => panic "nil pointer dereference"
        | Some vals =>
            vs ← lift (VoteSet.ToExtendedVoteSet ec (sm_ChainID state) vals);
            mret (if VoteSet.HasTwoThirdsMajority (Some vs) then Ok vs else Err "commit quorum not met"%string)
        end
  end.

Definition votesFromSeenCommit (state : SMState) : M (result string VoteSet) :=
  seen ← ask (λ a, a_LoadSeenCommit a (sm_LastBlockHeight state));
  commit ← (match seen with
            | Some c => mret (Some c)
            | None => ask (λ a, a_LoadBlockCommit a (sm_LastBlockHeight state))
            end);
  match commit, sm_LastValidators state with
  | None, _ => mret (Err "commit not found"%string)
  | Some c, vals =>
      if negb (cHeight c =? sm_LastBlockHeight state) then mret (Err "heights don't match in votesFromSeenCommit"%string)
      else
        match vals with
        | None => panic "nil pointer dereference"
        | Some vals =>
            vs ← lift (VoteSet.ToVoteSet c (sm_ChainID state) vals);
            mret (if VoteSet.HasTwoThirdsMajority (Some vs) then Ok vs else Err "commit quorum not met"%string)
        end
  end.

(** [reconstructSeenCommit] and [reconstructLastCommit]. *)
Definition reconstruct (offline : bool) (state : SMState) : M unit :=
  ext ← (if offline then mret false
         else lift (featureEnabled (sm_VoteExtensionsEnableHeight state) (sm_LastBlockHeight state)));
  r ← (if (ext : bool) then votesFromExtendedCommit state else votesFromSeenCommit state);
  match r with
  | Err _ => panic "failed to reconstruct last commit"
  | Ok vs => modify (set_last_commit (Some vs))
  end.

Definition empty_sm : SMState := mkSM "" 0 0 0 None None [] 0 0 0 (mkSynchrony 0 0).

(** The zero value of a [State], with the store it is given. *)
Definition zero_state (storeHeight : Z) (pv : option FilePV) : State :=
  mkState 0 0 0 0 0 None None 0 None None 0 None None 0 None None None 0 None None false
    empty_sm pv None [] storeHeight [] [] [] [] [] 0 [].

(** [NewState], [SetPrivValidator] and the end of [OnStart]. *)
Definition NewState (offline : bool) (state : SMState) : M unit :=
  when (0 <? sm_LastBlockHeight state) (reconstruct offline state);;
  updateToState state;;
  updatePrivValidatorPubKey;;
  scheduleRound0.

End state.

End ConsensusState.
