(* ===== verification/BlockFlow.v ===== *)
(** * BlockFlow: a proposed block on its way to another node

    Composes [PartSet] with the handler of block parts in [ConsensusState]: a node that
    expects the parts of a block and gets them, in any order and among any others, has the
    block. *)

From S2P Require Import Prelude BitArray Merkle Crypto ValidatorSet Votes PartSet Proposal Commit VoteSet HeightVoteSet PrivVal ConsensusState.
Import ConsensusState.ConsensusState.

Local Open Scope Z_scope.

Module BlockFlow.

Section flow.
Context `{PubKeyOps, Merkle.HashLaws, BlockOps, MsgCodec}.
#[local] Existing Instances M_ret M_bind.

(** One unit of fuel is enough: a reader with enough bytes left fills the buffer at once. *)
Lemma ReadFull_all ps psr n fuel :
  PartSet.reader_ok ps psr → 0 < n → zlen (PartSet.left ps psr) = n → (0 < fuel)%nat →
  ReadFull fuel psr n = Done (Ok (PartSet.left ps psr)).
Proof.
  intros Hok Hn Hlen Hf. destruct fuel as [|fuel]; [lia|]. cbn [ReadFull]. destruct (Z.leb_spec n 0); [lia|].
  destruct (PartSet.Read_spec ps psr n Hok Hn) as (psr' & -> & _). cbn [mbind outcome_bind].
  rewrite take_ge by (unfold zlen in *; lia). rewrite Hlen, Z.leb_refl. done.
Qed.

Lemma read_complete data partSize ps :
  0 < partSize → 0 < zlen data → zlen data + partSize ≤ 4294967296 →
  PartSet.inv ps → PartSet.total ps = Z.of_nat (PartSet.nchunks data partSize) →
  (∀ i p, PartSet.parts ps !! i = Some (Some p) → PartSet.chunks data partSize !! i = Some (PartSet.pBytes p)) →
  PartSet.IsComplete ps = true →
  PartSet.byteSize ps = zlen data ∧ readSerializedBlockFromBlockParts ps = Done (Ok data).
Proof.
  intros Hp Hd Hdp Hinv Ht Hch Hc.
  destruct (PartSet.complete_reader data partSize ps Hp Hd Hdp Hinv Ht Hch Hc) as (Hsize & qs & psr & E & Hok & Hleft).
  split; [done|]. unfold readSerializedBlockFromBlockParts. rewrite E. cbn [mbind outcome_bind PartSet.ByteSize]. rewrite Hsize.
  rewrite (ReadFull_all qs psr); [by rewrite Hleft|done|lia|by rewrite Hleft|lia].
Qed.

(** The messages of one block, one after the other. *)
Fixpoint receive_parts (height round : Z) (l : list Part) : M unit :=
  match l with
  | [] => mret tt
  | p :: l => addProposalBlockPart height round (Some p);; receive_parts height round l
  end.

(** Two strings with the same digest, computed from a part that does not belong. *)
Definition collides (data : list Z) (p : Part) : Prop :=
  let '(x, y) := Merkle.find_collision (PartSet.chunks data PartSet.BlockPartSizeBytes) (PartSet.pProof p) (PartSet.pBytes p) in
  x ≠ y ∧ Merkle.Sum x = Merkle.Sum y.

(** ** One part *)

Section one.
Variables (b : Block) (bz : list Z) (full : PartSet) (i : nat) (h : Z).
Let size := PartSet.BlockPartSizeBytes.
Hypothesis unmarshal : block_Unmarshal bz = Done (Ok b).
Hypothesis made : PartSet.NewPartSetFromData bz size = Done full.
Hypothesis nonempty : 0 < zlen bz.
Hypothesis small : zlen bz + size ≤ 4294967296.

(** The node expects the parts of the block: it stores only the right pieces, has a piece
    for each part of the block it has seen, and has the block when all pieces are there. *)
Definition expecting (seen : list Part) (s : State) : Prop :=
  sHeight s = h ∧ sProposalBlockParts s = Some i ∧ zlen bz ≤ max_bytes (sState s) ∧
  ∃ ps, sPartSets s !! i = Some ps ∧ PartSet.inv ps ∧ PartSet.total ps = PartSet.total full ∧ PartSet.hash ps = PartSet.hash full ∧
    (∀ k p, PartSet.parts ps !! k = Some (Some p) → PartSet.chunks bz size !! k = Some (PartSet.pBytes p)) ∧
    (∀ p, p ∈ seen → Some p ∈ PartSet.parts full → ∃ q, PartSet.parts ps !! Z.to_nat (PartSet.pIndex p) = Some (Some q)) ∧
    (PartSet.IsComplete ps = true → sProposalBlock s = Some b).

Lemma full_spec :
  ∃ qs, PartSet.inv full ∧ PartSet.total full = Z.of_nat (PartSet.nchunks bz size) ∧
    PartSet.hash full = Merkle.HashFromByteSlices (PartSet.chunks bz size) ∧ PartSet.parts full = map Some qs ∧
    ∀ p, p ∈ qs → PartSet.proof_ok full p.
Proof.
  destruct (PartSet.NewPartSetFromData_spec bz size ltac:(done) small) as (full' & qs & E & Hinv & Ht & _ & _ & Hh & Hqs & _ & Hok).
  assert (full' = full) as -> by (unfold size in *; congruence). exists qs. split_and!; try done. intros p Hp. by apply Hok.
Qed.

(** What [AddPart] does to the pieces, unless the part collides. *)
Lemma add_piece ps p seen :
  PartSet.inv ps → PartSet.total ps = PartSet.total full → PartSet.hash ps = PartSet.hash full →
  (∀ k q, PartSet.parts ps !! k = Some (Some q) → PartSet.chunks bz size !! k = Some (PartSet.pBytes q)) →
  (∀ q, q ∈ seen → Some q ∈ PartSet.parts full → ∃ q', PartSet.parts ps !! Z.to_nat (PartSet.pIndex q) = Some (Some q')) →
  PartSet.part_ValidateBasic p = None → 0 ≤ PartSet.pIndex p →
  collides bz p ∨
  ∃ ps' added err, PartSet.AddPart (Some ps) p = Done (Some ps', added, err) ∧ (added = false → ps' = ps) ∧ (err ≠ None → added = false) ∧
    PartSet.inv ps' ∧ PartSet.total ps' = PartSet.total full ∧ PartSet.hash ps' = PartSet.hash full ∧
    (∀ k q, PartSet.parts ps' !! k = Some (Some q) → PartSet.chunks bz size !! k = Some (PartSet.pBytes q)) ∧
    (∀ q, q ∈ p :: seen → Some q ∈ PartSet.parts full → ∃ q', PartSet.parts ps' !! Z.to_nat (PartSet.pIndex q) = Some (Some q')).
Proof.
  intros Hinv Ht Hh Hch Hseen Hvb Hpos. destruct full_spec as (qs & Hinvf & Htf & Hhf & Hqs & Hok).
  destruct (PartSet.AddPart_spec ps p Hinv Hpos) as (ps' & added & err & E & Hinv' & Ht' & Hh' & Hcase).
  assert (Hmem : ∀ q, Some q ∈ PartSet.parts full → PartSet.proof_ok ps q ∧ 0 ≤ PartSet.pIndex q < PartSet.total full).
  { intros q Hq. rewrite Hqs in Hq. apply list_elem_of_fmap in Hq as (q' & [= ->] & Hq). split.
    - destruct (Hok q' Hq) as [H1' H2']. unfold PartSet.proof_ok. by rewrite Ht, Hh.
    - apply list_elem_of_lookup in Hq as [k Hk]. assert (Hk' : PartSet.parts full !! k = Some (Some q')) by (by rewrite Hqs, list_lookup_fmap, Hk).
      destruct Hinvf as (Hlen & _ & _ & _ & Hidx & _). rewrite (Hidx k q' Hk'). apply lookup_lt_Some in Hk'. unfold zlen in Hlen. lia. }
  destruct Hcase as [(Hge & -> & -> & ->)|[((q & Hq) & -> & -> & ->)|[(Hn & Hbad & -> & -> & ->)|(Hn & Hgood & -> & -> & Hps)]]].
  - right. eexists _, _, _. split_and!; try done. intros q [->|Hq]%elem_of_cons Hqf; [|by apply Hseen].
    destruct (Hmem p Hqf). lia.
  - right. eexists _, _, _. split_and!; try done. intros q' [->|Hq']%elem_of_cons Hqf; [eauto|by apply Hseen].
  - right. eexists _, _, _. split_and!; try done. intros q' [->|Hq']%elem_of_cons Hqf; [|by apply Hseen].
    by destruct (Hmem p Hqf).
  - destruct (PartSet.proof_ok_item bz size _ ps p (eq_trans Ht Htf) (eq_trans Hh Hhf) Hvb Hgood eq_refl) as [Hi|Hc]; [right|by left].
    eexists _, _, _. split_and!; try done; try congruence.
    + intros k q. rewrite Hps. destruct (decide (k = Z.to_nat (PartSet.pIndex p))) as [->|].
      * rewrite list_lookup_insert_eq by (by apply lookup_lt_Some in Hn). by intros [= <-].
      * rewrite list_lookup_insert_ne by done. apply Hch.
    + intros q Hq Hqf. rewrite Hps. destruct (decide (Z.to_nat (PartSet.pIndex q) = Z.to_nat (PartSet.pIndex p))) as [->|].
      * rewrite list_lookup_insert_eq by (by apply lookup_lt_Some in Hn). eauto.
      * rewrite list_lookup_insert_ne by done. apply elem_of_cons in Hq as [->|Hq]; [done|by apply Hseen].
Qed.
(** The handler of one part message. *)
Lemma receive_one seen s p round :
  expecting seen s → PartSet.part_ValidateBasic p = None → 0 ≤ PartSet.pIndex p →
  collides bz p ∨ ∃ s' r, addProposalBlockPart h round (Some p) s = Done (s', r) ∧ expecting (p :: seen) s'.
Proof.
  intros (Eh & Ep & Hmax & ps & Eps & Hinv & Ht & Hh & Hch & Hseen & Hblock) Hvb Hpos.
  destruct (add_piece ps p seen Hinv Ht Hh Hch Hseen Hvb Hpos) as [?|(ps' & added & err & E & Hsame & Herr & Hinv' & Ht' & Hh' & Hch' & Hseen')];
    [by left|right].
  destruct full_spec as (qs & _ & Htf & _).
  assert (Hread : PartSet.IsComplete ps' = true → PartSet.byteSize ps' = zlen bz ∧ readSerializedBlockFromBlockParts ps' = Done (Ok bz)).
  { intros Hc. apply (read_complete bz size); try done. congruence. }
  assert (Hkeep : ∀ s', sHeight s' = h → sProposalBlockParts s' = Some i → sState s' = sState s → sPartSets s' !! i = Some ps' →
    (PartSet.IsComplete ps' = true → sProposalBlock s' = Some b) → expecting (p :: seen) s').
  { intros s' ? ? Est ? ?. split_and!; [done|done|by rewrite Est|]. by exists ps'. }
  assert (Hi : <[i := ps']> (sPartSets s) !! i = Some ps') by (rewrite list_lookup_insert_eq; [done|by apply lookup_lt_Some in Eps]).
  unfold addProposalBlockPart, gets, deref, assign, modify, lift, mret, mbind, M_bind, M_ret. rewrite Ep. cbn [option_bind mbind].
  rewrite Eps, Eh, Z.eqb_refl. cbn [negb]. rewrite E. destruct err as [err|].
  { eexists _, _. split; [done|]. rewrite (Herr ltac:(done)) in *. rewrite (Hsame eq_refl) in *. by apply Hkeep. }
  cbn [sState set_part_sets]. cbn [PartSet.ByteSize].
  destruct (Z.ltb_spec (max_bytes (sState s)) (PartSet.byteSize ps')) as [Hbig|_].
  { eexists _, _. split; [done|]. apply Hkeep; try done. intros Hc. destruct (Hread Hc). lia. }
  destruct added; cbn [andb].
  - destruct (PartSet.IsComplete ps') eqn:Hc.
    + destruct (Hread eq_refl) as [_ ->]. rewrite unmarshal. eexists _, _. split; [done|]. by apply Hkeep.
    + eexists _, _. split; [done|]. by apply Hkeep.
  - eexists _, _. split; [done|]. rewrite (Hsame eq_refl) in *. by apply Hkeep.
Qed.

Lemma receive_all l seen s round :
  expecting seen s → Forall (λ p, PartSet.part_ValidateBasic p = None ∧ 0 ≤ PartSet.pIndex p) l →
  (∃ p, p ∈ l ∧ collides bz p) ∨
  ∃ s', receive_parts h round l s = Done (s', tt) ∧ expecting (reverse l ++ seen) s'.
Proof.
  revert seen s. induction l as [|p l IH]; intros seen s He Hl; [right; by exists s|].
  apply Forall_cons in Hl as [[Hvb Hpos] Hl]. destruct (receive_one seen s p round He Hvb Hpos) as [Hc|(s1 & r & E & He1)].
  { left. exists p. set_solver. }
  destruct (IH (p :: seen) s1 He1 Hl) as [(q & ? & ?)|(s2 & E2 & He2)]; [left; exists q; set_solver|right].
  exists s2. cbn [receive_parts]. unfold mbind, M_bind. rewrite E. split; [exact E2|].
  rewrite reverse_cons, <-app_assoc. exact He2.
Qed.

(** With every part of the block among those seen, no slot is empty. *)
Lemma all_seen_complete seen s :
  expecting seen s → (∀ p, Some p ∈ PartSet.parts full → p ∈ seen) → sProposalBlock s = Some b.
Proof.
  intros (_ & _ & _ & ps & _ & Hinv & Ht & _ & _ & Hseen & Hblock) Hall. apply Hblock.
  destruct full_spec as (qs & Hinvf & _ & _ & Hqs & _).
  destruct Hinv as (Hlen & _ & Hcount & _), Hinvf as (Hlenf & _ & _ & _ & Hidxf & _).
  unfold PartSet.IsComplete. apply Z.eqb_eq. rewrite Hcount, <-Hlen. clear Hcount Hblock.
  assert (Hfill : ∀ k, (k < length (PartSet.parts ps))%nat → ∃ q, PartSet.parts ps !! k = Some (Some q)).
  { intros k Hk. destruct (lookup_lt_is_Some_2 qs k) as [q Hq].
    { rewrite Hqs in Hlenf. unfold zlen in *. rewrite length_map in Hlenf. lia. }
    assert (Hqf : PartSet.parts full !! k = Some (Some q)) by (by rewrite Hqs, list_lookup_fmap, Hq).
    destruct (Hseen q) as [q' Hq']; [apply Hall; by eapply list_elem_of_lookup_2|by eapply list_elem_of_lookup_2|].
    rewrite (Hidxf k q Hqf), Nat2Z.id in Hq'. eauto. }
  clear -Hfill. induction (PartSet.parts ps) as [|o l IH]; [done|]. destruct (Hfill 0%nat) as [q [= ->]]; [simpl; lia|].
  cbn [zsum]. rewrite IH; [unfold zlen; simpl; lia|]. intros k Hk. apply (Hfill (S k)). simpl. lia.
Qed.


End one.
(** C25: a proposed block arrives.  The proposer cuts a block into parts; another node
    that expects that part set and handles messages with parts that passed basic
    validation, every part of the block among them, in any order and mixed with any
    forged ones, does not panic and ends with exactly that block as its proposal block,
    unless two different strings with the same SHA-256 digest can be computed from one of
    the parts.  The encoded block decodes to the block, is not empty, and is within the receiver's
    limit on the size of a block. *)
Theorem proposed_block_arrives b bz full (proposer : State) receiver s l round :
  block_Marshal b = Ok bz → block_Unmarshal bz = Done (Ok b) → 0 < zlen bz → zlen bz + PartSet.BlockPartSizeBytes ≤ 4294967296 →
  MakePartSet b proposer = Done (proposer, Ok full) →
  expect_parts (PartSet.Header (Some full)) receiver = Done (s, tt) → zlen bz ≤ max_bytes (sState s) →
  Forall (λ p, PartSet.part_ValidateBasic p = None ∧ 0 ≤ PartSet.pIndex p) l →
  (∀ p, Some p ∈ PartSet.parts full → p ∈ l) →
  (∃ p, p ∈ l ∧ collides bz p) ∨
  ∃ s', receive_parts (sHeight s) round l s = Done (s', tt) ∧ sProposalBlock s' = Some b.
Proof.
  intros Em Eu Hpos Hsmall Emake Eexp Hmax Hl Hall.
  assert (Emade : PartSet.NewPartSetFromData bz PartSet.BlockPartSizeBytes = Done full).
  { unfold MakePartSet in Emake. rewrite Em in Emake. unfold lift, mbind, M_bind in Emake.
    destruct (PartSet.NewPartSetFromData _ _); [|done]. by injection Emake as ->. }
  injection Eexp as <-. set (s := set_proposal_parts _ _) in *.
  destruct (full_spec bz full Emade Hsmall) as (qs & Hinv & Ht & _).
  assert (He : expecting b bz full (length (sPartSets receiver)) (sHeight s) [] s).
  { split_and!; [done|done|done|]. exists (PartSet.awaiting full).
    split_and!; [cbn; rewrite lookup_app_r by lia; by rewrite Nat.sub_diag|..|by intros p ?%not_elem_of_nil|].
    - apply PartSet.NewPartSetFromHeader_inv. cbn. destruct Hinv as (Hlen & ? & _). pose proof (zlen_nonneg (PartSet.parts full)). lia.
    - done.
    - done.
    - intros k p Hk. cbn in Hk. by apply lookup_replicate in Hk as [? _].
    - intros Hc. exfalso. unfold PartSet.IsComplete in Hc. apply Z.eqb_eq in Hc. cbn in Hc.
      pose proof (PartSet.nchunks_pos bz PartSet.BlockPartSizeBytes ltac:(done) Hpos). lia. }
  destruct (receive_all b bz full _ _ Eu Emade Hpos Hsmall l [] s round He Hl) as [?|(s' & E & He')]; [by left|right].
  exists s'. split; [done|]. eapply all_seen_complete; [done|exact Hsmall|exact He'|].
  intros p Hp. apply elem_of_app. left. apply elem_of_reverse. by apply Hall.
Qed.


End flow.

(** ** Examples *)

(** Toy blocks: a height, a time and data. *)
Record toy_block := mkToyBlock { tb_height : Z; tb_time : Z; tb_data : list Z }.
Definition toy_blocks : BlockOps := {|
  Block := toy_block;
  block_Hash b := take 32 (tb_height b :: tb_time b :: tb_data b ++ replicate 32 0);
  block_Time := tb_time;
  block_Height := tb_height;
  block_Marshal b := Ok (tb_height b :: tb_time b :: tb_data b);
  block_Unmarshal bz := match bz with h :: t :: d => Done (Ok (mkToyBlock h t d)) | _ => Done (Err "short"%string) end |}.

Section example.
#[local] Existing Instances toy_keys Merkle.toy_hash Merkle.toy_hash_laws Proposal.Proposal.toy_msg_codec toy_blocks.

Definition ex_block : Block := mkToyBlock 1 50 [7; 7].
Definition ex_parts : PartSet :=
  match PartSet.NewPartSetFromData [1; 50; 7; 7] PartSet.BlockPartSizeBytes with
  | Done ps => ps | Panic _ => PartSet.NewPartSetFromHeader (Votes.Votes.mkPSH 0 [])
  end.
Definition ex_part : Part :=
  match PartSet.parts ex_parts with Some p :: _ => p | _ => PartSet.mkPart 0 [] (Merkle.mkProof 0 0 [] []) end.
(** A part with other bytes and the same proof. *)
Definition ex_forged : Part := PartSet.mkPart 0 [7; 8] (PartSet.pProof ex_part).
Definition ex_node : State :=
  set_new_height (-1) None false (mkSM "chain" 1 0 0 None None [] (-1) 0 0 (Proposal.Proposal.mkSynchrony 0 0)) None [] (zero_state 0 None).
Definition ex_receiver : State :=
  match expect_parts (PartSet.Header (Some ex_parts)) ex_node with Done (s, _) => s | Panic _ => ex_node end.

Lemma proposed_block_arrives_witness :
  (∃ p, p ∈ [ex_forged; ex_part] ∧ collides [1; 50; 7; 7] p) ∨
  ∃ s', receive_parts (sHeight ex_receiver) 0 [ex_forged; ex_part] ex_receiver = Done (s', tt) ∧ sProposalBlock s' = Some ex_block.
Proof.
  refine (proposed_block_arrives ex_block [1; 50; 7; 7] ex_parts ex_node ex_node ex_receiver [ex_forged; ex_part] 0
    eq_refl eq_refl _ _ _ _ _ _ _).
  - vm_compute. reflexivity.
  - vm_compute. discriminate.
  - vm_compute. reflexivity.
  - vm_compute. reflexivity.
  - vm_compute. discriminate.
  - by_decide.
  - intros p Hp. assert (PartSet.parts ex_parts = [Some ex_part]) as E by (vm_compute; reflexivity). rewrite E in Hp. set_solver.
Defined.

End example.

End BlockFlow.
