(* ===== verification/ConsensusSafety.v ===== *)
(** * ConsensusSafety: the locking and voting rules of one node

    A small program logic for the handlers of [ConsensusState], the invariant of a
    node and its preservation by every handler: rounds and steps only move
    forward, a node sends at most one prevote and one precommit per round, it
    precommits a block only after a polka for it and is then locked on it, and
    it prevotes against its lock only after a polka in a later round. *)

From S2P Require Import Prelude BitArray Merkle Crypto ValidatorSet Votes PartSet Proposal Commit VoteSet HeightVoteSet PrivVal ConsensusState.
Import ValidatorSet.ValidatorSet Votes.Votes Proposal.Proposal Commit.Commit ConsensusState.ConsensusState.
Notation hinv := HeightVoteSet.hinv.
Notation hHeight := HeightVoteSet.hHeight.
Notation hRound := HeightVoteSet.hRound.
Notation majority := HeightVoteSet.majority.
Notation later := HeightVoteSet.later.

Local Open Scope Z_scope.

Module ConsensusSafety.

Section logic.
Context `{PubKeyOps, Merkle.HashOps, BlockOps, MsgCodec}.
#[local] Existing Instances M_ret M_bind.

(** ** Weakest preconditions; a panic ends the node *)

Definition wp {A} (m : M A) (Q : A → State → Prop) (s : State) : Prop :=
  match m s with Done (s', a) => Q a s' | Panic _ => True end.

Lemma wp_bind {A B} (m : M A) (f : A → M B) Q s :
  wp m (λ a s', wp (f a) Q s') s → wp (m ≫= f) Q s.
Proof. unfold wp, mbind, M_bind. by destruct (m s) as [[s' a]|]. Qed.
Lemma wp_mono {A} (m : M A) (P Q : A → State → Prop) s :
  wp m P s → (∀ a s', P a s' → Q a s') → wp m Q s.
Proof. unfold wp. destruct (m s) as [[s' a]|]; auto. Qed.
Lemma wp_run {A} (m : M A) (Q : A → State → Prop) s s' a : wp m Q s → m s = Done (s', a) → Q a s'.
Proof. unfold wp. intros Hw E. by rewrite E in Hw. Qed.
Lemma wp_ret {A} (a : A) (Q : A → State → Prop) s : Q a s → wp (mret a) Q s.
Proof. done. Qed.
Lemma wp_gets {A} (f : State → A) (Q : A → State → Prop) s : Q (f s) s → wp (gets f) Q s.
Proof. done. Qed.
Lemma wp_modify f (Q : unit → State → Prop) s : Q tt (f s) → wp (modify f) Q s.
Proof. done. Qed.
Lemma wp_panic {A} why (Q : A → State → Prop) s : wp (panic why) Q s.
Proof. done. Qed.
Lemma wp_lift {A} (o : outcome A) (Q : A → State → Prop) s : (∀ a, o = Done a → Q a s) → wp (lift o) Q s.
Proof. unfold wp, lift. destruct o; auto. Qed.
Lemma wp_votes (Q : HeightVoteSet → State → Prop) s : (∀ v, sVotes s = Some v → Q v s) → wp votes Q s.
Proof. unfold wp, votes. destruct (sVotes s); auto. Qed.
Lemma wp_validators (Q : ValidatorSet → State → Prop) s : (∀ v, sValidators s = Some v → Q v s) → wp validators Q s.
Proof. unfold wp, validators. destruct (sValidators s); auto. Qed.
Lemma wp_Prevotes r (Q : option VoteSet → State → Prop) s :
  (∀ v o, sVotes s = Some v → HeightVoteSet.Prevotes v r = Done o → Q o s) → wp (Prevotes r) Q s.
Proof. intros HQ. apply wp_bind, wp_votes. intros v Hv. apply wp_lift. eauto. Qed.
Lemma wp_Precommits r (Q : option VoteSet → State → Prop) s :
  (∀ v o, sVotes s = Some v → HeightVoteSet.Precommits v r = Done o → Q o s) → wp (Precommits r) Q s.
Proof. intros HQ. apply wp_bind, wp_votes. intros v Hv. apply wp_lift. eauto. Qed.

(** ** What the invariant looks at *)

(** The votes the node has sent. *)
Definition vote_of (mi : msgInfo) : option Vote := match Msg mi with VoteMessage v => Some v | _ => None end.
Definition sent (s : State) : list Vote := omap vote_of (sQueue s).

(** The fields of the invariant but the lock and the votes sent. *)
Definition same_core (s s' : State) : Prop :=
  sHeight s' = sHeight s ∧ sRound s' = sRound s ∧ sStep s' = sStep s ∧ sVotes s' = sVotes s ∧
  sCommitRound s' = sCommitRound s ∧ sTimeouts s' = sTimeouts s ∧ sArchive s' = sArchive s ∧ sCommitted s' = sCommitted s ∧
  sState s' = sState s.
Definition same_lock (s s' : State) : Prop := sLockedRound s' = sLockedRound s ∧ sLockedBlock s' = sLockedBlock s.
Definition frame (s s' : State) : Prop := same_core s s' ∧ same_lock s s' ∧ sent s' = sent s.

#[export] Instance same_core_pre : PreOrder same_core.
Proof. split; unfold same_core; [done|]. intros a b c ? ?. intuition congruence. Qed.
#[export] Instance same_lock_pre : PreOrder same_lock.
Proof. split; unfold same_lock; [done|]. intros a b c ? ?. intuition congruence. Qed.
#[export] Instance frame_pre : PreOrder frame.
Proof. split; unfold frame; [done|]. intros a b c (? & ? & ?) (? & ? & ?). split_and!; etrans; done. Qed.

(** ** Operations that leave all of it alone *)

Definition quiet {A} (m : M A) : Prop := ∀ s, wp m (λ _ s', frame s s') s.

Lemma quiet_bind {A B} (m : M A) (f : A → M B) : quiet m → (∀ a, quiet (f a)) → quiet (m ≫= f).
Proof.
  intros Hm Hf s. apply wp_bind. eapply wp_mono; [apply Hm|]. intros a s1 Hs1. cbn beta.
  eapply wp_mono; [apply Hf|]. intros b s2 Hs2. cbn beta in *. by etrans.
Qed.
Lemma quiet_ret {A} (a : A) : quiet (mret a).
Proof. intros s. apply wp_ret. done. Qed.
Lemma quiet_gets {A} (f : State → A) : quiet (gets f).
Proof. intros s. apply wp_gets. done. Qed.
Lemma quiet_panic {A} why : quiet (A := A) (panic why).
Proof. intros s. done. Qed.
Lemma quiet_lift {A} (o : outcome A) : quiet (lift o).
Proof. intros s. apply wp_lift. done. Qed.
Lemma quiet_modify f : (∀ s, frame s (f s)) → quiet (modify f).
Proof. intros Hf s. apply wp_modify, Hf. Qed.
Lemma quiet_votes : quiet votes.
Proof. intros s. apply wp_votes. done. Qed.
Lemma quiet_validators : quiet validators.
Proof. intros s. apply wp_validators. done. Qed.
Lemma quiet_alloc ps : quiet (alloc ps).
Proof. intros s. done. Qed.
Lemma quiet_assign i ps : quiet (assign i ps).
Proof. by apply quiet_modify. Qed.
Lemma quiet_send m : vote_of m = None → quiet (sendInternalMessage m).
Proof.
  intros Hm. apply quiet_modify. intros s. split_and!; try done. unfold sent. simpl. rewrite omap_app. simpl.
  rewrite Hm. by rewrite app_nil_r.
Qed.

Variable answers : nat → Answers.
Variable cfg : ConsensusConfig.
Variable Sign : list Z → option (list Z).
Variable InRound : SynchronyParams → Z → SynchronyParams.

Lemma wp_ask {A} (q : Answers → A) (Q : A → State → Prop) s :
  Q (q (answers (sTicks s))) (set_ticks (S (sTicks s)) s) → wp (ask answers q) Q s.
Proof. done. Qed.
Lemma quiet_ask {A} (q : Answers → A) : quiet (ask answers q).
Proof. intros s. done. Qed.

#[local] Hint Resolve quiet_ret quiet_gets quiet_panic quiet_lift quiet_votes quiet_validators quiet_alloc quiet_assign quiet_ask : quiet.

(** Proves an operation quiet by its syntax. *)
Ltac quiet_tac :=
  repeat match goal with
  | |- quiet (_ ≫= _) => apply quiet_bind; [|intros ?]
  | |- quiet (when _ _) => unfold when
  | |- quiet (match ?x with _ => _ end) => destruct x
  | |- quiet (modify _) => apply quiet_modify; intros ?; done
  | |- quiet (sendInternalMessage _) => apply quiet_send; done
  | |- quiet ((match ?x with _ => _ end) _) => destruct x
  | _ => solve [auto with quiet nocore]
  end.

Lemma quiet_Prevotes r : quiet (Prevotes r).
Proof. unfold Prevotes. quiet_tac. Qed.
Lemma quiet_Precommits r : quiet (Precommits r).
Proof. unfold Precommits. quiet_tac. Qed.
Lemma quiet_HasTwoThirdsAny vs : quiet (HasTwoThirdsAny vs).
Proof. unfold HasTwoThirdsAny. quiet_tac. Qed.
Lemma quiet_HasAll vs : quiet (HasAll vs).
Proof. unfold HasAll. quiet_tac. Qed.
Lemma quiet_GetProposer v : quiet (ConsensusState.GetProposer v).
Proof. unfold ConsensusState.GetProposer. quiet_tac. Qed.
Lemma quiet_MakePartSet b : quiet (MakePartSet b).
Proof. unfold MakePartSet. quiet_tac. Qed.
Lemma quiet_VoteExtensionsEnabled h : quiet (VoteExtensionsEnabled h).
Proof. unfold VoteExtensionsEnabled. quiet_tac. Qed.
Lemma quiet_isPBTSEnabled h : quiet (isPBTSEnabled h).
Proof. unfold isPBTSEnabled. quiet_tac. Qed.
#[local] Hint Resolve quiet_Prevotes quiet_Precommits quiet_HasTwoThirdsAny quiet_HasAll quiet_GetProposer quiet_MakePartSet
  quiet_VoteExtensionsEnabled quiet_isPBTSEnabled : quiet.

Lemma quiet_needProofBlock h : quiet (needProofBlock answers h).
Proof. unfold needProofBlock. quiet_tac. Qed.
Lemma quiet_isProposer a : quiet (isProposer a).
Proof. unfold isProposer. quiet_tac. Qed.
Lemma quiet_isProposalComplete : quiet isProposalComplete.
Proof. unfold isProposalComplete. quiet_tac. Qed.
Lemma quiet_voteTime h : quiet (voteTime answers h).
Proof. unfold voteTime. quiet_tac. Qed.
Lemma quiet_extend_vote v b e : quiet (extend_vote answers v b e).
Proof. unfold extend_vote. quiet_tac. Qed.
Lemma quiet_expect_parts h : quiet (expect_parts h).
Proof. unfold expect_parts. quiet_tac. Qed.
#[local] Hint Resolve quiet_needProofBlock quiet_isProposer quiet_isProposalComplete quiet_voteTime quiet_extend_vote
  quiet_expect_parts : quiet.

Lemma quiet_signVote pv t h p b : quiet (signVote answers Sign pv t h p b).
Proof. unfold signVote. quiet_tac. Qed.
Lemma quiet_createProposalBlock : quiet (createProposalBlock answers).
Proof. unfold createProposalBlock. quiet_tac. Qed.
#[local] Hint Resolve quiet_signVote quiet_createProposalBlock : quiet.
Lemma quiet_choose_block : quiet (choose_block answers).
Proof. unfold choose_block. quiet_tac. Qed.
Lemma quiet_send_parts p n i : quiet (send_parts p n i).
Proof. revert i. induction n as [|n IH]; intros i; cbn [send_parts]; [auto with quiet|]. quiet_tac. Qed.
#[local] Hint Resolve quiet_choose_block quiet_send_parts : quiet.
Lemma quiet_defaultDecideProposal h r : quiet (defaultDecideProposal answers Sign h r).
Proof. unfold defaultDecideProposal. quiet_tac. Qed.
Lemma quiet_proposalIsTimely p : quiet (proposalIsTimely InRound p).
Proof. unfold proposalIsTimely. quiet_tac. Qed.
#[local] Hint Resolve quiet_defaultDecideProposal quiet_proposalIsTimely : quiet.
Lemma quiet_pbts_refuses h p b : quiet (pbts_refuses InRound h p b).
Proof. unfold pbts_refuses. quiet_tac. Qed.
Lemma quiet_proposer_waits h : quiet (proposer_waits answers h).
Proof. unfold proposer_waits. quiet_tac. Qed.
Lemma quiet_updatePrivValidatorPubKey : quiet (updatePrivValidatorPubKey answers).
Proof. unfold updatePrivValidatorPubKey. quiet_tac. Qed.
Lemma quiet_SaveBlock b p c : quiet (SaveBlock b p c).
Proof. unfold SaveBlock. quiet_tac. Qed.
#[local] Hint Resolve quiet_pbts_refuses quiet_proposer_waits quiet_updatePrivValidatorPubKey quiet_SaveBlock : quiet.
Lemma quiet_save_decided b p : quiet (save_decided b p).
Proof. unfold save_decided. quiet_tac. Qed.
Lemma quiet_commit_body r : quiet (commit_body r).
Proof. unfold commit_body. quiet_tac. Qed.
Lemma quiet_defaultSetProposal p t : quiet (defaultSetProposal p t).
Proof. unfold defaultSetProposal. quiet_tac. Qed.
Lemma quiet_addProposalBlockPart h r p : quiet (addProposalBlockPart h r p).
Proof. unfold addProposalBlockPart. quiet_tac. Qed.
Lemma quiet_check_extension v e : quiet (check_extension answers v e).
Proof. unfold check_extension. quiet_tac. Qed.
Lemma quiet_take_last_commit st : quiet (take_last_commit st).
Proof. unfold take_last_commit. quiet_tac. Qed.
#[local] Hint Resolve quiet_save_decided quiet_commit_body quiet_defaultSetProposal quiet_addProposalBlockPart
  quiet_check_extension quiet_take_last_commit : quiet.

(** Steps over a quiet prefix. *)
Lemma wp_quiet {A B} (m : M A) (f : A → M B) Q s :
  quiet m → (∀ a s', frame s s' → wp (f a) Q s') → wp (m ≫= f) Q s.
Proof. intros Hm Hf. apply wp_bind. eapply wp_mono; [apply Hm|]. auto. Qed.

Ltac wstep :=
  lazymatch goal with
  | |- wp (gets _ ≫= _) _ _ => apply wp_bind, wp_gets
  | |- wp (modify _ ≫= _) _ _ => apply wp_bind, wp_modify
  | |- wp (mret _ ≫= _) _ _ => apply wp_bind, wp_ret
  | |- wp (panic _ ≫= _) _ _ => exact I
  | |- wp (lift _ ≫= _) _ _ => let a := fresh "a" in let E := fresh "E" in apply wp_bind, wp_lift; intros a E
  | |- wp (gets _) _ _ => apply wp_gets
  | |- wp (modify _) _ _ => apply wp_modify
  | |- wp (mret _) _ _ => apply wp_ret
  | |- wp (panic _) _ _ => exact I
  | |- wp (_ ≫= _) _ _ =>
      let a := fresh "a" in let s := fresh "s" in let Hf := fresh "Hf" in
      apply wp_quiet; [solve [auto with quiet nocore | quiet_tac]|intros a s Hf]
  end.
Ltac wcase := match goal with
  | |- wp (match ?x with _ => _ end) _ _ => destruct x eqn:?
  | |- wp ((match ?x with _ => _ end) _) _ _ => destruct x eqn:?
  end.
Ltac frames := unfold frame, same_core, same_lock in *; intuition congruence.

(** ** The invariant of a node *)

(** A polka: a majority of prevotes. *)
Definition polka (hv : HeightVoteSet) (r : Z) (id : BlockID) : Prop := majority hv r PrevoteType id.

Definition is_precommit (v : Vote) : Prop := Type_ v = PrecommitType ∧ IsNil (vBlockID v) = false.
Definition is_prevote (v : Vote) : Prop := Type_ v = PrevoteType ∧ IsNil (vBlockID v) = false.
Definition vhash (v : Vote) : list Z := Votes.Hash (vBlockID v).

(** The rules of the votes [l] of a node at the height of [hv]: a precommit for a block
    has its polka, and a later prevote for another block has a polka not before the
    precommit. *)
Definition rules (l : list Vote) (hv : HeightVoteSet) : Prop :=
  (∀ v, v ∈ l → Votes.Height v = hHeight hv → is_precommit v →
     polka hv (Votes.Round v) (vBlockID v) ∧ vhash v ≠ []) ∧
  (∀ v w, v ∈ l → w ∈ l → Votes.Height v = hHeight hv → Votes.Height w = hHeight hv →
     is_precommit v → is_prevote w → Votes.Round v < Votes.Round w → vhash v ≠ vhash w →
     ∃ r id, Votes.Round v ≤ r < Votes.Round w ∧ polka hv r id ∧ Votes.Hash id = vhash w).

(** The step a vote belongs to. *)
Definition vote_step (t : Z) : Z := if t =? PrevoteType then RoundStepPrevote else RoundStepPrecommit.

Definition not_ahead (v : Vote) (height round step : Z) : Prop :=
  Votes.Height v < height ∨ Votes.Height v = height ∧
    (0 ≤ Votes.Round v < round ∨ Votes.Round v = round ∧ vote_step (Type_ v) ≤ step).

Definition lock_ok (s : State) (hv : HeightVoteSet) : Prop :=
  sLockedRound s = -1 ∧ sLockedBlock s = None ∨
  ∃ b id, (0 ≤ sLockedRound s < sRound s ∨ 0 ≤ sLockedRound s ∧ sLockedRound s = sRound s ∧ RoundStepPrecommit ≤ sStep s) ∧
    sLockedBlock s = Some b ∧ polka hv (sLockedRound s) id ∧ Votes.Hash id = block_Hash b ∧ block_Hash b ≠ [].

(** The tallies of a node: those of its height and of the heights before. *)
Definition has_votes (s : State) (hv : HeightVoteSet) : Prop := sVotes s = Some hv ∨ hv ∈ sArchive s.

(** A block is decided by a majority of precommits. *)
Definition decided_by (hv : HeightVoteSet) (b : Block) : Prop :=
  ∃ r id, 0 ≤ r ∧ majority hv r PrecommitType id ∧ Votes.Hash id = block_Hash b ∧ block_Hash b ≠ [].

Record cinv (s : State) : Prop := {
  ci_height : 1 ≤ sHeight s ≤ max_int64;
  ci_round : 0 ≤ sRound s;
  ci_votes : ∃ hv, sVotes s = Some hv ∧ hinv hv ∧ hHeight hv = sHeight s ∧ hRound hv < max_int32 ∧ lock_ok s hv;
  ci_types : ∀ v, v ∈ sent s → IsVoteTypeValid (Type_ v) = true ∧ 0 ≤ Votes.Round v ∧ (IsNil (vBlockID v) = false → vhash v ≠ []);
  ci_sent : ∀ v, v ∈ sent s → not_ahead v (sHeight s) (sRound s) (sStep s);
  ci_unique : ∀ v w, v ∈ sent s → w ∈ sent s → Votes.Height v = Votes.Height w → Votes.Round v = Votes.Round w →
    Type_ v = Type_ w → vBlockID v = vBlockID w;
  ci_timeouts : ∀ ti, ti ∈ sTimeouts s →
    0 ≤ tRound ti ∧ (tHeight ti < sHeight s ∨ tHeight ti = sHeight s ∧ tRound ti ≤ sRound s);
  ci_rules : ∀ hv, has_votes s hv → rules (sent s) hv;
  ci_tally : ∀ v, v ∈ sent s → ∃ hv, has_votes s hv ∧ hHeight hv = Votes.Height v;
  ci_locked : ∀ v, v ∈ sent s → Votes.Height v = sHeight s → is_precommit v → Votes.Round v ≤ sLockedRound s;
  ci_archive : ∀ hv, hv ∈ sArchive s → hinv hv ∧ hHeight hv < sHeight s;
  ci_commit : sStep s = RoundStepCommit → 0 ≤ sCommitRound s;
  ci_committed : ∀ h id b, (h, id, b) ∈ sCommitted s → ∃ hv, has_votes s hv ∧ hHeight hv = h ∧ decided_by hv b
}.

Lemma cinv_frame s s' : cinv s → frame s s' → cinv s'.
Proof.
  intros [] ((Eh & Er & Est & Ev & Ecr & Et & Ea & Ec & _) & (Elr & Elb) & Es).
  split; unfold has_votes, lock_ok in *; rewrite ?Eh, ?Er, ?Est, ?Ev, ?Ecr, ?Et, ?Ea, ?Ec, ?Elr, ?Elb, ?Es; done.
Qed.

(** Scheduling a timeout for a round not ahead of the node. *)
Lemma cinv_timeout s d r st :
  cinv s → 0 ≤ r ≤ sRound s → cinv (set_timeouts (sTimeouts s ++ [mkTimeout d (sHeight s) r st]) s).
Proof.
  intros Hc Hr. destruct Hc. split; try done. cbn [sTimeouts set_timeouts]. intros ti [Hti|Hti]%elem_of_app; [by apply ci_timeouts0|].
  apply list_elem_of_singleton in Hti as ->. cbn. split; [lia|]. right. lia.
Qed.

(** Moving forward to a round and step. *)
Lemma cinv_step s r st :
  cinv s → sRound s < r ∨ sRound s = r ∧ sStep s ≤ st → (st = RoundStepCommit → 0 ≤ sCommitRound s) →
  cinv (set_round_step r st s).
Proof.
  intros [] Hle Hst. split; try done; cbn [sRound sStep sHeight sCommitRound set_round_step sTimeouts].
  - lia.
  - destruct ci_votes0 as (hv & ? & ? & ? & ? & Hl). exists hv. split_and!; try done.
    destruct Hl as [?|(b & id & ? & ? & ? & ? & ?)]; [by left|right]. exists b, id. cbn. split_and!; try done; lia.
  - intros v Hv. specialize (ci_sent0 v Hv). unfold not_ahead in *. lia.
  - intros ti Hti. specialize (ci_timeouts0 ti Hti). lia.
Qed.

(** A later state of the tallies. *)
Lemma rules_later l hv hv' : later hv hv' → rules l hv → rules l hv'.
Proof.
  intros (_ & (_ & Eh & _) & Hk) [R1 R2]. unfold rules, polka in *. rewrite Eh. split.
  - intros v Hv Hh Hp. destruct (R1 v Hv Hh Hp). split; [by apply Hk|done].
  - intros v w Hv Hw Hh Hh' Hp Hp' Hlt Hne. destruct (R2 v w Hv Hw Hh Hh' Hp Hp' Hlt Hne) as (r & id & ? & ? & ?).
    exists r, id. split_and!; [lia|lia|by apply Hk|done].
Qed.

Lemma cinv_later s hv hv' :
  cinv s → sVotes s = Some hv → later hv hv' → hRound hv' < max_int32 → cinv (set_votes (Some hv') s).
Proof.
  intros [] Hv Hl Hr. pose proof Hl as (Hi & (_ & Eh & _) & Hk).
  destruct ci_votes0 as (hv0 & Hv0 & Hi0 & Hh & _ & Hlock). assert (hv0 = hv) as -> by congruence.
  split; try done; cbn [sVotes set_votes sHeight sArchive sCommitted].
  - exists hv'. split_and!; [done|done|congruence|done|]. destruct Hlock as [?|(b & id & ? & ? & ? & ? & ?)]; [by left|right].
    exists b, id. split_and!; try done; try (cbn; lia). by apply Hk.
  - intros hv1 [[= <-]|Ha]; [|apply ci_rules0; by right]. eapply rules_later; [done|]. apply ci_rules0. by left.
  - intros v Hvv. destruct (ci_tally0 v Hvv) as (hv1 & [Hx|Ha] & Hhv); [|exists hv1; split; [by right|done]].
    exists hv'. split; [by left|]. congruence.
  - intros h id b Hc. destruct (ci_committed0 h id b Hc) as (hv1 & [Hx|Ha] & Hhh & r & id' & ? & ? & ? & ?).
    + exists hv'. assert (hv1 = hv) as -> by congruence. split_and!; [by left|congruence|]. exists r, id'. split_and!; try done. by apply Hk.
    + exists hv1. split_and!; [by right|done|]. by exists r, id'.
Qed.


(** ** Sending votes *)

(** At most one vote more, of the current height and round, with a block id in [P]. *)
Definition sent_as (s s' : State) (t : Z) (P : BlockID → Prop) : Prop :=
  sent s' = sent s ∨ ∃ v, sent s' = sent s ++ [v] ∧ Type_ v = t ∧ Votes.Height v = sHeight s ∧ Votes.Round v = sRound s ∧ P (vBlockID v).

Lemma sign_same now pv c v ext pv' v' rec :
  PrivVal.SignAndCheckVote Sign now pv c v ext = Done (pv', v', rec, None) →
  Type_ v' = Type_ v ∧ Votes.Height v' = Votes.Height v ∧ Votes.Round v' = Votes.Round v ∧ vBlockID v' = vBlockID v.
Proof.
  unfold PrivVal.SignAndCheckVote. intros E. apply outcome_bind_Done in E as ([[pv1 v1] [e|]] & _ & E); [done|].
  repeat (case_match; try done); injection E as <- <- <-; done.
Qed.

Lemma signVote_spec pv t h p b s :
  wp (signVote answers Sign pv t h p b) (λ r s', frame s s' ∧ ∀ v, r = Ok v →
    Type_ v = t ∧ Votes.Height v = sHeight s ∧ Votes.Round v = sRound s ∧ vBlockID v = mkBlockID h p) s.
Proof.
  unfold signVote. do 2 wstep. wcase; [|by wstep]. wcase; [|by wstep].
  apply wp_bind, wp_validators. intros vals _. do 4 wstep. set (vote := mkVote _ _ _ _ _ _ _ _ _ _).
  apply wp_bind. eapply (wp_mono _ (λ r s', frame s2 s' ∧ ∀ v, r = Ok v →
    Type_ v = t ∧ Votes.Height v = sHeight s0 ∧ Votes.Round v = sRound s0 ∧ vBlockID v = mkBlockID h p)).
  { unfold extend_vote. wcase; [|wstep; split; [done|]; by intros v [= <-]].
    do 2 wstep. wcase; wstep; (split; [done|]); [by intros v [= <-]|done]. }
  intros r s4 [Hf4 Hr]. destruct r as [v|e]; [|wstep; split; [by repeat (etrans; [eassumption|])|done]].
  do 3 wstep. match goal with E : PrivVal.SignAndCheckVote _ _ _ _ _ _ = Done ?x |- _ => rename E into Esign; destruct x as [[[pv' v'] rec] err] end. wstep. destruct err as [e|].
  - destruct rec; wstep. split; [by repeat (etrans; [eassumption|])|done].
  - wstep. split; [by repeat (etrans; [eassumption|])|]. intros w [= <-].
    destruct (sign_same _ _ _ _ _ _ _ _ Esign) as (-> & -> & -> & ->). destruct (Hr v eq_refl) as (-> & -> & -> & ->).
    split_and!; try done; frames.
Qed.

Lemma signAddVote_spec t h p b s :
  wp (signAddVote answers Sign t h p b) (λ _ s', same_core s s' ∧ same_lock s s' ∧ sent_as s s' t (λ id, id = mkBlockID h p)) s.
Proof.
  assert (Hdone : ∀ s', frame s s' → same_core s s' ∧ same_lock s s' ∧ sent_as s s' t (λ id, id = mkBlockID h p)).
  { intros s' (? & ? & ?). split_and!; try done. by left. }
  unfold signAddVote. do 2 wstep. destruct (sPrivValidator s) as [pv|]; [|wstep; by apply Hdone].
  destruct (sPubKey s) as [pk|]; [|wstep; by apply Hdone]. wstep. destruct (negb _); [wstep; by apply Hdone|].
  apply wp_bind. eapply wp_mono; [apply signVote_spec|]. intros r s1 [Hf1 Hr]. cbn beta.
  destruct r as [v|e]; [|wstep; apply Hdone; by etrans].
  wstep. destruct (_ && _ && _); [done|]. unfold sendInternalMessage. wstep.
  assert (Hf2 : frame s s2) by (by repeat (etrans; [eassumption|])). destruct Hf2 as (Hc & Hl & Hs).
  split_and!; [exact Hc|exact Hl|]. right. exists v. destruct (Hr v eq_refl) as (? & ? & ? & ?).
  split_and!; [|done|frames|frames|done]. unfold sent in *. simpl. rewrite omap_app. rewrite Hs. done.
Qed.

Lemma vote_nil_spec t s :
  wp (vote_nil answers Sign t) (λ _ s', same_core s s' ∧ same_lock s s' ∧ sent_as s s' t (λ id, IsNil id = true)) s.
Proof.
  eapply wp_mono; [apply signAddVote_spec|]. intros _ s' (? & ? & Hs). split_and!; try done.
  destruct Hs as [?|(v & ? & ? & ? & ? & E)]; [by left|right]. exists v. split_and!; try done. by rewrite E.
Qed.

(** When a prevote for a block with hash [x] respects the lock. *)
Definition justified (s : State) (x : list Z) : Prop :=
  sLockedRound s = -1 ∨ hash_of (sLockedBlock s) = x ∨
  ∃ hv r id, sVotes s = Some hv ∧ polka hv r id ∧ Votes.Hash id = x ∧ sLockedRound s ≤ r < sRound s.

Definition prevoted (s s' : State) : Prop :=
  same_core s s' ∧ same_lock s s' ∧
  sent_as s s' PrevoteType (λ id, IsNil id = true ∨ justified s (Votes.Hash id) ∧ Votes.Hash id ≠ []).

Lemma prevoted_frame s s1 s2 : frame s s1 → prevoted s1 s2 → prevoted s s2.
Proof.
  intros (Hc & Hl & Hs) (Hc' & Hl' & Hs'). split_and!; [by etrans|by etrans|].
  destruct Hs' as [Hs'|(v & Hs' & Ht & Hh & Hr & Hj)]; [left; congruence|right]. exists v.
  split_and!; [congruence|done|frames|frames|]. destruct Hj as [?|[Hj ?]]; [by left|right]. split; [|done].
  unfold justified in *. destruct Hl as [<- <-]. destruct Hc as (_ & Er & _ & Ev & _). by rewrite <-Er, <-Ev.
Qed.

Lemma wp_prevoted {A B} (m : M A) (f : A → M B) s :
  quiet m → (∀ a s', frame s s' → wp (f a) (λ _, prevoted s') s') → wp (m ≫= f) (λ _, prevoted s) s.
Proof.
  intros Hm Hf. apply wp_quiet; [done|]. intros a s' Hs. eapply wp_mono; [by apply Hf|]. intros b s2. by apply prevoted_frame.
Qed.

Lemma wp_prevoted_frame {A} (m : M A) s s' : frame s s' → wp m (λ _, prevoted s') s' → wp m (λ _, prevoted s) s'.
Proof. intros Hf Hm. eapply wp_mono; [exact Hm|]. intros b s2. by apply prevoted_frame. Qed.

Lemma prevote_nil s : wp (vote_nil answers Sign PrevoteType) (λ _, prevoted s) s.
Proof.
  eapply wp_mono; [apply vote_nil_spec|]. intros _ s' (? & ? & Hs). split_and!; try done.
  destruct Hs as [?|(v & ? & ? & ? & ? & E)]; [by left|right]. exists v. split_and!; try done. by left.
Qed.

Lemma prevote_block b s : block_Hash b ≠ [] → justified s (block_Hash b) → wp (prevote_proposal answers Sign b) (λ _, prevoted s) s.
Proof.
  intros Hb Hj. unfold prevote_proposal. do 2 wstep. eapply wp_mono; [apply signAddVote_spec|]. intros _ s' (? & ? & Hs).
  split_and!; try done. destruct Hs as [?|(v & ? & ? & ? & ? & E)]; [by left|right]. exists v. split_and!; try done. right. by rewrite E.
Qed.

Lemma HashesTo_true b x : HashesTo b x = true → ∃ b', b = Some b' ∧ block_Hash b' = x ∧ x ≠ [].
Proof.
  unfold HashesTo, zlen. destruct x as [|y x]; [done|]. cbn [length]. destruct (Z.eqb_spec (Z.of_nat (S (length x))) 0); [lia|].
  destruct b as [b|]; [|done]. intros E%bool_decide_eq_true. eauto.
Qed.

(** A block that passes validation has a hash. *)
Hypothesis validate_ok : ∀ n st b, a_ValidateBlock (answers n) st (Some b) = true → block_Hash b ≠ [].

Lemma doPrevote_spec h r s : wp (defaultDoPrevote answers Sign InRound h r) (λ _, prevoted s) s.
Proof.
  unfold defaultDoPrevote. do 2 wstep. destruct (sProposal s) as [p|]; [|apply prevote_nil].
  destruct (sProposalBlock s) as [b|]; [|apply prevote_nil].
  apply wp_prevoted; [auto with quiet|]. intros untimely s1 Hf1. destruct untimely; [apply prevote_nil|]. wstep.
  apply wp_bind, wp_ask. set (s2 := set_ticks _ s1). apply wp_prevoted_frame; [done|].
  destruct (a_ValidateBlock _ _ _) eqn:Evalid; cbn [negb]; [|apply prevote_nil]. apply validate_ok in Evalid as Hne. clearbody s2.
  destruct (POLRound p =? -1).
  - unfold prevote_fresh. do 2 wstep. destruct (Z.eqb_spec (sLockedRound s2) (-1)) as [El|].
    + do 2 wstep. destruct (_ && _); [apply prevote_block; [done|by left]|]. wstep. apply wp_prevoted; [auto with quiet|].
      intros res s3 Hf3. destruct res as [[]|]; [apply prevote_block; [done|left]|apply prevote_nil|done]. frames.
    + destruct (HashesTo (Some b) _) eqn:Eh; [|apply prevote_nil]. apply prevote_block; [done|].
      apply HashesTo_true in Eh as (b' & [= <-] & -> & _). right. by left.
  - unfold prevote_with_polka. apply wp_bind, wp_Prevotes. intros hv o Hv Ho. do 3 wstep.
    destruct (VoteSet.TwoThirdsMajority o) as [id ok] eqn:Em.
    destruct (ok && negb (IsNil id)) eqn:Eok; cbn [andb]; [|apply prevote_nil].
    destruct (HashesTo (Some b) (Votes.Hash id)) eqn:Eh; cbn [andb]; [|apply prevote_nil].
    destruct (Z.ltb_spec (POLRound p) (sRound s2)) as [Hlt|]; [|apply prevote_nil].
    apply andb_true_iff in Eok as [-> _]. apply HashesTo_true in Eh as (b' & [= <-] & Ehash & _).
    assert (Hpolka : polka hv (POLRound p) id). { destruct o as [vs|]; [|done]. by exists vs. }
    assert (Hj : sLockedRound s2 ≤ POLRound p → justified s2 (block_Hash b)).
    { intros Hle. do 2 right. exists hv, (POLRound p), id. split_and!; try done. }
    destruct (Z.ltb_spec (sLockedRound s2) (POLRound p)); [apply prevote_block, Hj; [done|lia]|].
    destruct (HashesTo (Some b) (hash_of _)) eqn:Eh'.
    + apply prevote_block; [done|]. apply HashesTo_true in Eh' as (b' & [= <-] & -> & _). right. by left.
    + destruct (Z.eqb_spec (sLockedRound s2) (POLRound p)); [apply prevote_block, Hj; [done|lia]|apply prevote_nil].
Qed.

(** The effect of the precommit step: a nil precommit, or a lock on the block of this
    round's polka with a precommit for it. *)
Definition precommitted (s s' : State) : Prop :=
  same_core s s' ∧
  (same_lock s s' ∧ sent_as s s' PrecommitType (λ id, IsNil id = true) ∨
   ∃ hv id b, sVotes s = Some hv ∧ polka hv (sRound s) id ∧ sLockedRound s' = sRound s ∧ sLockedBlock s' = Some b ∧
     block_Hash b = Votes.Hash id ∧ Votes.Hash id ≠ [] ∧ sent_as s s' PrecommitType (λ id', id' = id)).

Lemma precommit_nil s s' : frame s s' → wp (vote_nil answers Sign PrecommitType) (λ _, precommitted s) s'.
Proof.
  intros (Hc & Hl & Hs). eapply wp_mono; [apply vote_nil_spec|]. intros _ s2 (Hc' & Hl' & Hs'). split; [by etrans|left].
  split; [by etrans|]. destruct Hs' as [Hs'|(v & Hs' & ? & ? & ? & ?)]; [left; congruence|right]. exists v.
  split_and!; [congruence|done|frames|frames|done].
Qed.

Lemma precommit_block hv id b s s' blk :
  same_core s s' → sent s' = sent s → sVotes s = Some hv → polka hv (sRound s) id → sLockedRound s' = sRound s →
  sLockedBlock s' = Some b → block_Hash b = Votes.Hash id → Votes.Hash id ≠ [] →
  wp (signAddVote answers Sign PrecommitType (Votes.Hash id) (PSH id) blk) (λ _, precommitted s) s'.
Proof.
  intros Hc Hs Hv Hp Hlr Hlb Hb Hne. eapply wp_mono; [apply signAddVote_spec|]. intros _ s2 (Hc' & [Elr Elb] & Hs').
  split; [by etrans|right]. exists hv, id, b. split_and!; try done; try congruence.
  destruct Hs' as [Hs'|(v & Hs' & ? & ? & ? & Ev)]; [left; congruence|right]. exists v.
  split_and!; [congruence|done|frames|frames|]. rewrite Ev. by destruct id.
Qed.

Lemma precommit_body_spec s : wp (precommit_body answers Sign (sRound s)) (λ _, precommitted s) s.
Proof.
  unfold precommit_body. apply wp_bind, wp_Prevotes. intros hv o Hv Ho.
  destruct (VoteSet.TwoThirdsMajority o) as [id ok] eqn:Em. destruct ok; cbn [negb]; [|by apply precommit_nil].
  assert (Hp : polka hv (sRound s) id). { destruct o as [vs|]; [|done]. by exists vs. }
  wstep. wstep. destruct (_ <? _); [done|]. destruct (IsNil id); [by apply precommit_nil|]. do 3 wstep.
  destruct (HashesTo (sLockedBlock s0) (Votes.Hash id)) eqn:El.
  - wstep. apply HashesTo_true in El as (b & El & Eb & Hne).
    apply (precommit_block hv id b); try done; try (cbn; congruence). all: frames.
  - destruct (HashesTo (sProposalBlock s0) (Votes.Hash id)) eqn:Ep.
    + do 2 wstep. destruct (negb _); [done|]. wstep. apply HashesTo_true in Ep as (b & Ep & Eb & Hne).
      assert (frame s s1) as (? & _ & ?) by (by etrans). apply (precommit_block hv id b); try done; cbn; congruence.
    + wstep. apply wp_quiet.
      * unfold when. destruct (negb _); [|auto with quiet]. apply quiet_bind; [by apply quiet_modify|auto with quiet].
      * intros _ s1 Hf1. apply precommit_nil. by etrans.
Qed.

(** ** The invariant through the voting steps *)

Lemma elem_snoc (l : list Vote) v w : v ∈ l ++ [w] → v ∈ l ∨ v = w.
Proof. intros [?|?%list_elem_of_singleton]%elem_of_app; auto. Qed.

(** The parts of the invariant that only depend on where the new vote stands. *)
Lemma sent_ok s s1 t P :
  cinv s → same_core s s1 → sent_as s s1 t P → IsVoteTypeValid t = true → sStep s < vote_step t →
  (∀ id, P id → IsNil id = false → Votes.Hash id ≠ []) →
  (∀ v, v ∈ sent s1 → IsVoteTypeValid (Type_ v) = true ∧ 0 ≤ Votes.Round v ∧ (IsNil (vBlockID v) = false → vhash v ≠ [])) ∧
  (∀ v, v ∈ sent s1 → not_ahead v (sHeight s) (sRound s) (vote_step t)) ∧
  (∀ v w, v ∈ sent s1 → w ∈ sent s1 → Votes.Height v = Votes.Height w → Votes.Round v = Votes.Round w →
    Type_ v = Type_ w → vBlockID v = vBlockID w).
Proof.
  intros [] Hc [Es|(v0 & Es & Ht & Hh & Hr & HP)] Hvalid Hstep Hhash; rewrite Es.
  - split_and!; try done. intros v Hv. specialize (ci_sent0 v Hv). unfold not_ahead in *. lia.
  - split_and!.
    + intros v [Hv| ->]%elem_snoc; [by apply ci_types0|]. rewrite Ht, Hr. split_and!; [done..|]. by apply Hhash.
    + intros v [Hv| ->]%elem_snoc; unfold not_ahead in *; [specialize (ci_sent0 v Hv); lia|]. rewrite Ht. lia.
    + intros v w [Hv| ->]%elem_snoc [Hw| ->]%elem_snoc EH ER ET; try done; [by apply ci_unique0|..].
      * specialize (ci_sent0 v Hv). unfold not_ahead in ci_sent0. rewrite ET, Ht in ci_sent0. lia.
      * specialize (ci_sent0 w Hw). unfold not_ahead in ci_sent0. rewrite <-ET, Ht in ci_sent0. lia.
Qed.

Lemma rules_old s hv v0 :
  cinv s → hv ∈ sArchive s → Votes.Height v0 = sHeight s → rules (sent s ++ [v0]) hv.
Proof.
  intros [] Ha Hh. destruct (ci_archive0 hv Ha) as [_ Hlt]. destruct (ci_rules0 hv (or_intror Ha)) as [R1 R2]. split.
  - intros v [Hv| ->]%elem_snoc Hv'; [by apply R1|lia].
  - intros v w [Hv| ->]%elem_snoc [Hw| ->]%elem_snoc Hv' Hw'; try lia. by apply R2.
Qed.

(** A vote of the current height breaks no rule of an earlier one. *)
Lemma rules_archive s s1 t P hv :
  cinv s → sent_as s s1 t P → hv ∈ sArchive s → rules (sent s1) hv.
Proof.
  intros Hc [Es|(v0 & Es & _ & Hh & _)] Ha; rewrite Es; [|by eapply rules_old]. destruct Hc. apply ci_rules0. by right.
Qed.

(** Everything but the rules of the votes of the current height and the lock. *)
Lemma cinv_voted s s1 t P hv :
  cinv s → same_core s s1 → sent_as s s1 t P → IsVoteTypeValid t = true → sStep s < vote_step t →
  (∀ id, P id → IsNil id = false → Votes.Hash id ≠ []) → sVotes s = Some hv → lock_ok (set_round_step (sRound s) (vote_step t) s1) hv → rules (sent s1) hv →
  (∀ v, v ∈ sent s1 → Votes.Height v = sHeight s → is_precommit v → Votes.Round v ≤ sLockedRound s1) →
  cinv (set_round_step (sRound s) (vote_step t) s1).
Proof.
  intros Hcinv Hc Hs Ht Hstep Hhash Hv Hlock Hrules Hlocked.
  destruct (sent_ok s s1 _ _ Hcinv Hc Hs Ht Hstep Hhash) as (Htypes & Hahead & Huniq).
  pose proof Hcinv as []. destruct Hc as (Eh & Er & Est & Ev & Ecr & Et & Ea & Ec & _).
  destruct ci_votes0 as (hv0 & Hv0 & Hi & Hhh & Hlt & _). assert (hv0 = hv) as -> by congruence.
  assert (Hsent : sent (set_round_step (sRound s) (vote_step t) s1) = sent s1) by done.
  split; unfold has_votes in *; rewrite ?Hsent;
    cbn [sRound sStep sHeight sVotes sLockedRound sTimeouts sArchive sCommitRound sCommitted set_round_step];
    rewrite ?Eh, ?Ev, ?Et, ?Ea, ?Ecr, ?Ec; try done.
  - exists hv. by split_and!.
  - intros hv' [Hx|Ha]; [by assert (hv' = hv) as -> by congruence|]. by eapply rules_archive.
  - intros v Hvv. destruct Hs as [Es|(v0 & Es & _ & Hh0 & _)]; rewrite Es in Hvv; [by apply ci_tally0|].
    apply elem_snoc in Hvv as [Hvv| ->]; [by apply ci_tally0|]. exists hv. split; [by left|congruence].
  - unfold vote_step. destruct (t =? _); done.
Qed.

Lemma cinv_prevoted s s1 :
  cinv s → sStep s < RoundStepPrevote → prevoted s s1 → cinv (set_round_step (sRound s) RoundStepPrevote s1).
Proof.
  intros Hcinv Hstep (Hc & Hl & Hs). pose proof Hcinv as [].
  destruct ci_votes0 as (hv & Hv & Hi & Hhh & Hlt & Hlock). destruct Hl as [Elr Elb].
  apply (cinv_voted s s1 PrevoteType _ hv Hcinv Hc Hs); try done.
  - intros id [?|[_ ?]] ?; [congruence|done].
  - unfold lock_ok in *. cbn [sLockedRound sLockedBlock set_round_step sRound sStep]. rewrite Elr, Elb.
    destruct Hlock as [?|(b & id & Hr & ?)]; [by left|right]. exists b, id. split; [|done].
    unfold RoundStepPrecommit, RoundStepPrevote in *. lia.
  - destruct Hs as [Es|(v0 & Es & Ht & Hh0 & Hr0 & Hj)]; rewrite Es; [apply ci_rules0; by left|].
    destruct (ci_rules0 hv (or_introl Hv)) as [R1 R2]. split.
    + intros v [Hvv| ->]%elem_snoc Hvh Hp; [by apply R1|]. destruct Hp as [Hp _]. by rewrite Ht in Hp.
    + intros v w [Hvv| ->]%elem_snoc [Hw| ->]%elem_snoc Hvh Hwh Hpc Hpv Hlt' Hne; [by apply R2| |
        destruct Hpc as [Hpc _]; by rewrite Ht in Hpc ..].
      destruct Hj as [Hnil|[Hj _]]; [destruct Hpv; congruence|].
      pose proof (ci_locked0 v Hvv ltac:(congruence) Hpc) as Hlr. pose proof (ci_types0 v Hvv) as (_ & Hpos & _).
      destruct Hj as [Hm|[Hlb|(hv1 & r & id & Hv1 & Hpk & Hx & Hrange)]]; [lia| |].
      * destruct Hlock as [[Hm _]|(b & id & Hrng & Eb & Hpk & Hx & Hnb)]; [lia|].
        rewrite Eb in Hlb. simpl in Hlb. fold (vhash v0) in Hlb. unfold RoundStepPrecommit, RoundStepPrevote in *.
        exists (sLockedRound s), id. split_and!; [lia|lia|done|congruence].
      * assert (hv1 = hv) as -> by congruence. exists r, id. split_and!; [lia|lia|done|done].
  - rewrite Elr. intros v Hvv Hvh Hpc. destruct Hs as [Es|(v0 & Es & Ht & _)]; rewrite Es in Hvv; [by apply ci_locked0|].
    apply elem_snoc in Hvv as [Hvv| ->]; [by apply ci_locked0|]. destruct Hpc as [Hpc _]. by rewrite Ht in Hpc.
Qed.

(** A precommit is the last vote of its height: no prevote follows it yet. *)
Lemma rules_precommit s s1 (P : BlockID → Prop) hv :
  cinv s → sVotes s = Some hv → sent_as s s1 PrecommitType P →
  (∀ id, P id → IsNil id = false → polka hv (sRound s) id ∧ Votes.Hash id ≠ []) → rules (sent s1) hv.
Proof.
  intros [] Hv Hs HP. destruct Hs as [Es|(v0 & Es & Ht & Hh0 & Hr0 & Hj)]; rewrite Es; [apply ci_rules0; by left|].
  destruct ci_votes0 as (hv0 & Hv0 & Hi & Hhh & _). assert (hv0 = hv) as -> by congruence.
  destruct (ci_rules0 hv (or_introl Hv)) as [R1 R2]. split.
  - intros v [Hvv| ->]%elem_snoc Hvh Hp; [by apply R1|]. destruct Hp as [_ Hp]. rewrite Hr0. by apply HP.
  - intros v w [Hvv| ->]%elem_snoc [Hw| ->]%elem_snoc Hvh Hwh Hpc Hpv Hlt' Hne; [by apply R2|
      destruct Hpv as [Hpv _]; by rewrite Ht in Hpv| |destruct Hpv as [Hpv _]; by rewrite Ht in Hpv].
    specialize (ci_sent0 w Hw). unfold not_ahead in ci_sent0. lia.
Qed.

Lemma cinv_precommitted s s1 :
  cinv s → sStep s < RoundStepPrecommit → precommitted s s1 → cinv (set_round_step (sRound s) RoundStepPrecommit s1).
Proof.
  intros Hcinv Hstep (Hc & Hs). pose proof Hcinv as [].
  destruct ci_votes0 as (hv & Hv & Hi & Hhh & Hlt & Hlock).
  destruct Hs as [[[Elr Elb] Hs]|(hv0 & id & b & Hv0 & Hpk & Elr & Elb & Eb & Hne & Hs)].
  - apply (cinv_voted s s1 PrecommitType _ hv Hcinv Hc Hs); try done.
    + intros ? ? ?. congruence.
    + unfold lock_ok in *. cbn [sLockedRound sLockedBlock set_round_step sRound sStep]. rewrite Elr, Elb.
      destruct Hlock as [?|(b & id & Hr & ?)]; [by left|right]. exists b, id. split; [lia|done].
    + eapply rules_precommit; [done..|]. cbn. intros id ? ?. congruence.
    + rewrite Elr. intros v Hvv Hvh Hpc. destruct Hs as [Es|(v0 & Es & Ht & _ & _ & Hn)]; rewrite Es in Hvv; [by apply ci_locked0|].
      apply elem_snoc in Hvv as [Hvv| ->]; [by apply ci_locked0|]. destruct Hpc as [_ Hpc]. congruence.
  - assert (hv0 = hv) as -> by congruence. apply (cinv_voted s s1 PrecommitType _ hv Hcinv Hc Hs); try done.
    + by intros ? -> _.
    + right. exists b, id. cbn [sLockedRound sLockedBlock set_round_step sRound sStep]. rewrite Elr, Elb, Eb.
      split_and!; try done. right. unfold vote_step. simpl. lia.
    + eapply rules_precommit; [done..|]. cbn. by intros ? -> _.
    + rewrite Elr. intros v Hvv Hvh _. destruct Hs as [Es|(v0 & Es & _ & _ & Hr0 & _)]; rewrite Es in Hvv.
      * specialize (ci_sent0 v Hvv). unfold not_ahead in ci_sent0. lia.
      * apply elem_snoc in Hvv as [Hvv| ->]; [|lia]. specialize (ci_sent0 v Hvv). unfold not_ahead in ci_sent0. lia.
Qed.

(** ** The invariant through the handlers *)

(** The node stays at its height and does not go back to an earlier round. *)
Definition onward (s s' : State) : Prop := sHeight s' = sHeight s ∧ sRound s ≤ sRound s'.
#[export] Instance onward_pre : PreOrder onward.
Proof. split; unfold onward; [done|]. intros a b c ? ?. lia. Qed.
Lemma frame_onward s s' : frame s s' → onward s s'.
Proof. intros ((? & ? & _) & _). unfold onward. lia. Qed.

Definition kept (s s' : State) : Prop := cinv s' ∧ onward s s'.

Lemma kept_frame s s1 s2 : kept s s1 → frame s1 s2 → kept s s2.
Proof. intros [? ?] Hf. split; [by eapply cinv_frame|]. etrans; [done|by apply frame_onward]. Qed.
Lemma kept_trans s s1 s2 : onward s s1 → kept s1 s2 → kept s s2.
Proof. intros ? [? ?]. split; [done|by etrans]. Qed.
Lemma kept_refl s : cinv s → kept s s.
Proof. done. Qed.

Lemma wp_kept {A} (m : M A) s s1 : onward s s1 → wp m (λ _, kept s1) s1 → wp m (λ _, kept s) s1.
Proof. intros Ho Hm. eapply wp_mono; [exact Hm|]. intros a s2. by apply kept_trans. Qed.

(** The rounds a handler is called with are not ahead of the node. *)
Definition at_most (s : State) (height round : Z) : Prop := sHeight s = height → round ≤ sRound s.

Lemma guard_passed s height round (b : bool) :
  at_most s height round → negb (sHeight s =? height) || (round <? sRound s) || ((sRound s =? round) && b) = false →
  height = sHeight s ∧ round = sRound s ∧ b = false.
Proof.
  intros Ha E. apply orb_false_iff in E as [E Eb]. apply orb_false_iff in E as [Eh Er]. apply negb_false_iff, Z.eqb_eq in Eh.
  apply Z.ltb_ge in Er. specialize (Ha Eh). assert (round = sRound s) as -> by lia. rewrite Z.eqb_refl in Eb. done.
Qed.

Lemma enterPrevote_kept height round s :
  cinv s → at_most s height round → wp (enterPrevote answers Sign InRound height round) (λ _, kept s) s.
Proof.
  intros Hc Ha. unfold enterPrevote. do 3 wstep. destruct (_ || _) eqn:Eg; [by wstep|].
  destruct (guard_passed _ _ _ _ Ha Eg) as (-> & -> & Hst). apply Z.leb_gt in Hst.
  apply wp_bind. eapply wp_mono; [apply doPrevote_spec|]. intros ? s1 Hp. unfold updateRoundStep. wstep.
  split; [by apply cinv_prevoted|]. destruct Hp as ((Eh & _) & _). split; [done|cbn; lia].
Qed.

Lemma enterPrecommit_kept height round s :
  cinv s → at_most s height round → wp (enterPrecommit answers Sign height round) (λ _, kept s) s.
Proof.
  intros Hc Ha. unfold enterPrecommit. do 3 wstep. destruct (_ || _) eqn:Eg; [by wstep|].
  destruct (guard_passed _ _ _ _ Ha Eg) as (-> & -> & Hst). apply Z.leb_gt in Hst.
  apply wp_bind. eapply wp_mono; [apply precommit_body_spec|]. intros ? s1 Hp. unfold updateRoundStep. wstep.
  split; [by apply cinv_precommitted|]. destruct Hp as ((Eh & _) & _). split; [done|cbn; lia].
Qed.

(** Where the node stands. *)
Definition spot (s s' : State) : Prop := sHeight s' = sHeight s ∧ sRound s' = sRound s ∧ sStep s' = sStep s.
Lemma frame_spot s s' : frame s s' → spot s s'.
Proof. unfold spot. frames. Qed.

(** A quiet operation first. *)
Lemma wp_first {A B} (m : M A) (f : A → M B) s :
  cinv s → quiet m → (∀ a s', cinv s' → spot s s' → wp (f a) (λ _, kept s') s') → wp (m ≫= f) (λ _, kept s) s.
Proof.
  intros Hc Hm Hf. apply wp_quiet; [done|]. intros a s' Hs. apply wp_kept; [by apply frame_onward|].
  apply Hf; [by eapply cinv_frame|by apply frame_spot].
Qed.

Lemma scheduleTimeout_kept d h r st s :
  cinv s → sHeight s = h → 0 ≤ r ≤ sRound s → wp (scheduleTimeout d h r st) (λ _ s', cinv s' ∧ spot s s') s.
Proof. intros Hc <- Hr. unfold scheduleTimeout. wstep. split; [by apply cinv_timeout|done]. Qed.

Lemma step_kept r st s :
  cinv s → sRound s < r ∨ sRound s = r ∧ sStep s ≤ st → (st = RoundStepCommit → 0 ≤ sCommitRound s) →
  wp (updateRoundStep r st) (λ _, kept s) s.
Proof. intros Hc Hr Hst. unfold updateRoundStep. wstep. split; [by apply cinv_step|]. split; [done|cbn; lia]. Qed.

Lemma spot_onward s s' : spot s s' → onward s s'.
Proof. unfold spot, onward. lia. Qed.

Ltac spots := unfold spot, onward, kept, at_most in *; intuition lia.
Ltac wfirst := apply wp_first; [done|solve [auto with quiet nocore | quiet_tac]|].

Lemma enterPrevoteWait_kept height round s :
  cinv s → at_most s height round → wp (enterPrevoteWait cfg height round) (λ _, kept s) s.
Proof.
  intros Hc Ha. unfold enterPrevoteWait. do 3 wstep. destruct (_ || _) eqn:Eg; [by wstep|].
  destruct (guard_passed _ _ _ _ Ha Eg) as (-> & -> & Hst). apply Z.leb_gt in Hst. pose proof (ci_round _ Hc).
  wfirst. intros prevotes s1 Hc1 Hs1. wfirst. intros any s2 Hc2 Hs2. destruct any; [|done]. cbn [negb].
  apply wp_bind. eapply wp_mono; [apply scheduleTimeout_kept; [done|spots..]|]. intros ? s3 [Hc3 Hs3]. cbn beta.
  apply wp_kept; [spots|]. apply step_kept; [done| |done]. spots.
Qed.

Lemma enterPrecommitWait_kept height round s :
  cinv s → at_most s height round → wp (enterPrecommitWait cfg height round) (λ _, kept s) s.
Proof.
  intros Hc Ha. unfold enterPrecommitWait. do 3 wstep. destruct (_ || _) eqn:Eg; [by wstep|].
  destruct (guard_passed _ _ _ _ Ha Eg) as (-> & -> & Hst). pose proof (ci_round _ Hc).
  wfirst. intros precommits s1 Hc1 Hs1. wfirst. intros any s2 Hc2 Hs2. destruct any; [|done]. cbn [negb].
  apply wp_bind. eapply wp_mono; [apply scheduleTimeout_kept; [done|spots..]|]. intros ? s3 [Hc3 Hs3]. cbn beta.
  wstep. split; [by eapply cinv_frame|]. split; cbn; spots.
Qed.

Lemma propose_body_kept round s :
  cinv s → round = sRound s → wp (propose_body answers cfg Sign (sHeight s) round) (λ _ s', cinv s' ∧ spot s s') s.
Proof.
  intros Hc ->. pose proof (ci_round _ Hc). unfold propose_body. apply wp_bind.
  eapply wp_mono; [apply scheduleTimeout_kept; [done|spots..]|]. intros ? s1 [Hc1 Hs1]. cbn beta.
  assert (Hq : ∀ m : M unit, quiet m → wp m (λ _ s', cinv s' ∧ spot s s') s1).
  { intros m Hm. eapply wp_mono; [apply Hm|]. intros ? s2 Hf. split; [by eapply cinv_frame|]. apply frame_spot in Hf. spots. }
  apply Hq. quiet_tac.
Qed.

Lemma enterPropose_kept height round s :
  cinv s → at_most s height round → wp (enterPropose answers cfg Sign InRound height round) (λ _, kept s) s.
Proof.
  intros Hc Ha. unfold enterPropose. do 3 wstep. destruct (_ || _) eqn:Eg; [by wstep|].
  destruct (guard_passed _ _ _ _ Ha Eg) as (-> & -> & Hst). apply Z.leb_gt in Hst. pose proof (ci_round _ Hc).
  wfirst. intros wait s1 Hc1 Hs1. destruct (0 <? wait).
  - eapply wp_mono; [apply scheduleTimeout_kept; [done|spots..]|]. intros ? s2 [? ?]. split; [done|spots].
  - apply wp_bind. destruct Hs1 as (<- & <- & Hs1).
    eapply wp_mono; [by apply propose_body_kept|]. intros ? s2 [Hc2 Hs2]. cbn beta. apply wp_bind.
    eapply wp_mono; [apply step_kept; [done|spots|done]|]. intros ? s3 [Hc3 Hs3]. cbn beta. apply wp_kept; [spots|].
    wfirst. intros complete s4 Hc4 Hs4. wstep. destruct complete; cbn [when]; [|by wstep]. apply enterPrevote_kept; [done|].
    spots.
Qed.
(** A quiet operation first, for any postcondition. *)
Lemma wp_next {A B} (m : M A) (f : A → M B) Q s :
  cinv s → quiet m → (∀ a s', cinv s' → spot s s' → wp (f a) Q s') → wp (m ≫= f) Q s.
Proof. intros Hc Hm Hf. apply wp_quiet; [done|]. intros a s' Hs. apply Hf; [by eapply cinv_frame|by apply frame_spot]. Qed.
Ltac wnext := apply wp_next; [done|solve [auto with quiet nocore | quiet_tac]|].

(** The votes of the next rounds are opened. *)
Lemma SetRound_kept {B} round (f : unit → M B) Q s :
  cinv s → 0 ≤ round → (∀ s', cinv s' → spot s s' → wp (f tt) Q s') →
  wp (v ← votes; v ← lift (HeightVoteSet.SetRound v round); modify (set_votes (Some v)) ≫= f) Q s.
Proof.
  intros Hc Hr Hf. pose proof (ci_votes _ Hc) as (hv & Hv & Hi & _ & Hlt & _). apply wp_bind, wp_votes. intros hv0 Hv0.
  assert (hv0 = hv) as -> by congruence. apply wp_bind, wp_lift. intros hv' E.
  destruct (HeightVoteSet.SetRound_later _ _ _ Hi Hlt Hr E) as (Hl & Er & Hmax). apply wp_bind, wp_modify.
  apply Hf; [|done]. apply (cinv_later s hv hv'); [done..|lia].
Qed.

Lemma SafeAddInt32_sum a b c : SafeAddInt32 a b = Done c → c = a + b.
Proof. unfold SafeAddInt32. destruct (_ && _); [done|]. destruct (_ && _); congruence. Qed.

Definition entered (s s' : State) (height round : Z) : Prop := kept s s' ∧ at_most s' height round.

Lemma enterNewRound_kept height round s :
  cinv s → wp (enterNewRound answers cfg Sign InRound height round) (λ _ s', entered s s' height round) s.
Proof.
  intros Hc. unfold enterNewRound. do 3 wstep. pose proof (ci_round _ Hc) as Hpos.
  destruct (_ || _) eqn:Eg.
  { wstep. split; [done|]. intros Eh. rewrite Eh, Z.eqb_refl in Eg. cbn [negb orb] in Eg.
    destruct (Z.ltb_spec round (sRound s)); [lia|]. cbn [orb] in Eg. apply andb_true_iff in Eg as [?%Z.eqb_eq _]. lia. }
  apply orb_false_iff in Eg as [Eg Est]. apply orb_false_iff in Eg as [Eh Er].
  apply negb_false_iff, Z.eqb_eq in Eh. apply Z.ltb_ge in Er.
  wnext. intros ? s1 Hc1 Hs1. wnext. intros vals s2 Hc2 Hs2. wnext. intros vals' s3 Hc3 Hs3.
  unfold updateRoundStep at 1. wstep. assert (Hc4 : cinv (set_round_step round RoundStepNewRound s3)).
  { apply cinv_step; [done| |done]. destruct (Z.eqb_spec (sRound s) round) as [E|]; [|spots].
    cbn [andb] in Est. apply negb_false_iff, Z.eqb_eq in Est. unfold RoundStepNewRound, RoundStepNewHeight in *. spots. }
  set (s4 := set_round_step _ _ s3) in *. assert (Hs4 : sHeight s4 = sHeight s ∧ sRound s4 = round) by (cbn; spots).
  clearbody s4.
  wnext. intros ? s5 Hc5 Hs5. wnext. intros proposer s6 Hc6 Hs6. wnext. intros ? s7 Hc7 Hs7. wnext. intros ? s8 Hc8 Hs8.
  wstep. apply SafeAddInt32_sum in E as ->. apply SetRound_kept; [done|lia|]. intros s9 Hc9 Hs9.
  wnext. intros ? s10 Hc10 Hs10. wnext. intros proof s11 Hc11 Hs11.
  destruct (_ && _ && _).
  - unfold when. destruct (0 <? _); [|wstep; split; [split; [done|]|]; spots].
    eapply wp_mono; [apply scheduleTimeout_kept; [done|spots..]|]. intros ? s12 [? ?]. split; [split; [done|]|]; spots.
  - eapply wp_mono; [apply enterPropose_kept; [done|spots]|]. intros ? s12 [? ?]. split; [split; [done|]|]; spots.
Qed.

(** ** A new height *)

(** Everything the node did was before height [h]. *)
Record closed (s : State) (h : Z) : Prop := {
  cl_types : ∀ v, v ∈ sent s → IsVoteTypeValid (Type_ v) = true ∧ 0 ≤ Votes.Round v ∧ (IsNil (vBlockID v) = false → vhash v ≠ []);
  cl_sent : ∀ v, v ∈ sent s → Votes.Height v < h;
  cl_unique : ∀ v w, v ∈ sent s → w ∈ sent s → Votes.Height v = Votes.Height w → Votes.Round v = Votes.Round w →
    Type_ v = Type_ w → vBlockID v = vBlockID w;
  cl_timeouts : ∀ ti, ti ∈ sTimeouts s → 0 ≤ tRound ti ∧ tHeight ti < h;
  cl_rules : ∀ hv, has_votes s hv → rules (sent s) hv;
  cl_tally : ∀ v, v ∈ sent s → ∃ hv, has_votes s hv ∧ hHeight hv = Votes.Height v;
  cl_votes : ∀ hv, has_votes s hv → hinv hv ∧ hHeight hv < h;
  cl_committed : ∀ h id b, (h, id, b) ∈ sCommitted s → ∃ hv, has_votes s hv ∧ hHeight hv = h ∧ decided_by hv b
}.

Lemma cinv_closed s : cinv s → closed s (sHeight s + 1).
Proof.
  intros []. split; try done.
  - intros v Hv. specialize (ci_sent0 v Hv). unfold not_ahead in *. lia.
  - intros ti Hti. specialize (ci_timeouts0 ti Hti). lia.
  - intros hv [Hv|Ha]; [|destruct (ci_archive0 hv Ha); split; [done|lia]].
    destruct ci_votes0 as (hv0 & Hv0 & Hi & Hh & _). assert (hv0 = hv) as -> by congruence. split; [done|lia].
Qed.

Lemma closed_zero sh pv h : closed (zero_state sh pv) h.
Proof. split; unfold has_votes; cbn; intros; set_solver. Qed.

(** The fields the handlers of the old height share with the new one. *)
Definition same_past (s s' : State) : Prop :=
  sent s' = sent s ∧ sTimeouts s' = sTimeouts s ∧ sCommitted s' = sCommitted s ∧ sVotes s' = sVotes s ∧ sArchive s' = sArchive s.

#[export] Instance same_past_pre : PreOrder same_past.
Proof. split; unfold same_past; [done|]. intros a b c ? ?. intuition congruence. Qed.
Lemma frame_past s s' : frame s s' → same_past s s'.
Proof. unfold same_past. frames. Qed.

Lemma closed_past s s' h : closed s h → same_past s s' → closed s' h.
Proof.
  intros [] (Es & Et & Ec & Ev & Ea). split; unfold has_votes in *; rewrite ?Es, ?Et, ?Ec, ?Ev, ?Ea; done.
Qed.

Lemma cinv_fresh s s' h hv :
  closed s h → 1 ≤ h ≤ max_int64 → hinv hv → hHeight hv = h → hRound hv = 0 →
  sHeight s' = h → sRound s' = 0 → sStep s' = RoundStepNewHeight → sVotes s' = Some hv →
  sLockedRound s' = -1 → sLockedBlock s' = None → sent s' = sent s → sTimeouts s' = sTimeouts s →
  sCommitted s' = sCommitted s → (∀ hv, hv ∈ sArchive s' ↔ has_votes s hv) → cinv s'.
Proof.
  intros [] Hh Hi Hhh Hhr Eh Er Est Ev Elr Elb Es Et Ec Ha.
  assert (Hhas : ∀ hv', has_votes s' hv' ↔ hv' = hv ∨ has_votes s hv').
  { intros hv'. unfold has_votes at 1. rewrite Ev, Ha. naive_solver. }
  split; rewrite ?Es, ?Et, ?Ec, ?Eh, ?Er, ?Est, ?Elr; try done.
  - exists hv. split_and!; try done; [by rewrite Hhr|by left].
  - intros v Hv. left. by apply cl_sent0.
  - intros ti Hti. specialize (cl_timeouts0 ti Hti). lia.
  - intros hv' [->|Hv]%Hhas; [|by apply cl_rules0]. split.
    + intros v Hv Hvh. specialize (cl_sent0 v Hv). lia.
    + intros v w Hv _ Hvh. specialize (cl_sent0 v Hv). lia.
  - intros v Hv. destruct (cl_tally0 v Hv) as (hv' & ? & ?). exists hv'. rewrite Hhas. auto.
  - intros v Hv Hvh. specialize (cl_sent0 v Hv). lia.
  - intros hv' Hv%Ha. by apply cl_votes0.
  - intros h' id b Hb. destruct (cl_committed0 h' id b Hb) as (hv' & ? & ? & ?). exists hv'. rewrite Hhas. eauto.
Qed.

Definition next_height (st : SMState) : Z :=
  let height := wrap64 (sm_LastBlockHeight st + 1) in if height =? 1 then sm_InitialHeight st else height.

(** States a node can work with: their validator sets are well-formed and not empty. *)
Definition sm_ok (st : SMState) : Prop :=
  ∃ vals, sm_Validators st = Some vals ∧ wf vals ∧ Validators vals ≠ [].

Lemma updateToState_spec st s :
  sm_ok st → (check_new_state s st = None → 1 ≤ next_height st → closed s (next_height st) ∧ next_height st ≤ max_int64) →
  wp (updateToState answers cfg st) (λ _ s', s' = s ∧ sm_IsEmpty (sState s) = false ∨ cinv s') s.
Proof.
  intros (vals & Evals & Hwf & Hne) Hcl. unfold updateToState. wstep. destruct (check_new_state s st) eqn:Ech; [done|].
  wstep. destruct (negb (sm_IsEmpty _) && _) eqn:Ee; [wstep; left; split; [done|]; by apply andb_true_iff in Ee as [?%negb_true_iff _]|].
  specialize (Hcl eq_refl). wstep. fold (next_height st). cbv zeta.
  set (h := next_height st) in *. clearbody h.
  assert (Hp0 : same_past s s0) by (by apply frame_past).
  unfold updateHeight, updateRoundStep. do 3 wstep.
  apply wp_bind. eapply (wp_mono _ (λ _ s', same_past s s' ∧ sHeight s' = h ∧ sRound s' = 0 ∧ sStep s' = RoundStepNewHeight)).
  { destruct (_ =? _); [wstep|]; wstep; [|by split_and!]. match goal with Hf : frame _ _ |- _ => pose proof Hf as ((? & ? & ? & _) & _) end.
    split_and!; [|done..]. etrans; [|apply frame_past; eassumption]. exact Hp0. }
  intros start s1 (Hp1 & Eh1 & Er1 & Es1). do 7 wstep. wstep. rename E into Efeat.
  assert (Hh : 1 ≤ h). { unfold featureEnabled in Efeat. destruct (Z.ltb_spec h 1); [done|lia]. }
  rewrite Evals. destruct (HeightVoteSet.New_ok a0 (sm_ChainID st) h vals Hwf Hne ltac:(lia)) as (hv & Enew & Hi & Hr & Hhh & _).
  wstep. wstep. right. rewrite Enew in E. injection E as <-. destruct Hp1 as (Es & Et & Ec & Ev & Ea).
  destruct (Hcl Hh). eapply (cinv_fresh s _ h hv); try done. intros hv'. cbn. rewrite Ev, Ea. unfold has_votes.
  destruct (sVotes s); set_solver.
Qed.

(** The states the block executor returns. *)
Hypothesis apply_ok : ∀ n st id b st', a_ApplyVerifiedBlock (answers n) st id b = Ok st' → sm_ok st'.

Lemma next_height_succ s st :
  cinv s → 0 ≤ sCommitRound s → check_new_state s st = None → 1 ≤ next_height st →
  next_height st = sHeight s + 1 ∧ next_height st ≤ max_int64.
Proof.
  intros [] Hcr. unfold check_new_state. destruct (_ && _) eqn:E; [done|]. intros _.
  destruct (Z.ltb_spec (-1) (sCommitRound s)); [|lia]. destruct (Z.ltb_spec 0 (sHeight s)); [|lia].
  cbn [andb] in E. apply negb_false_iff, Z.eqb_eq in E. unfold next_height. rewrite <-E.
  unfold wrap64. unfold_ints. destruct (Z.eq_dec (sHeight s) 9223372036854775807) as [->|]; [done|].
  rewrite Z.mod_small by lia. destruct (Z.eqb_spec (sHeight s + 1 + 9223372036854775808 - 9223372036854775808) 1); lia.
Qed.

Lemma updateToState_inv st s :
  cinv s → 0 ≤ sCommitRound s → sm_ok st → wp (updateToState answers cfg st) (λ _, cinv) s.
Proof.
  intros Hc Hcr Hok. eapply wp_mono; [apply updateToState_spec; [done|]|].
  - intros Hch Hpos. destruct (next_height_succ s st Hc Hcr Hch Hpos) as [-> ?]. split; [by apply cinv_closed|done].
  - by intros ? s' [[-> _]|?].
Qed.

Lemma scheduleRound0_inv s : cinv s → wp (scheduleRound0 answers) (λ _, cinv) s.
Proof.
  intros Hc. unfold scheduleRound0. wnext. intros now s1 Hc1 Hs1. do 2 wstep. pose proof (ci_round _ Hc1).
  eapply wp_mono; [apply scheduleTimeout_kept; [done|done|lia]|]. by intros ? s2 [? ?].
Qed.

Lemma cinv_decided s h id b hv :
  cinv s → sVotes s = Some hv → h = sHeight s → decided_by hv b →
  cinv (set_committed (sCommitted s ++ [(h, id, b)]) s).
Proof.
  intros [] Hv -> Hd. split; try done. cbn [sCommitted set_committed].
  intros h' id' b' [Hb|Hb]%elem_of_app; [by apply (ci_committed0 h' id' b')|].
  apply list_elem_of_singleton in Hb. simplify_eq. exists hv. destruct ci_votes0 as (hv0 & Hv0 & _ & Hh & _).
  split_and!; [by left|congruence|done].
Qed.

Lemma finalizeCommit_inv height s : cinv s → wp (finalizeCommit answers cfg height) (λ _, cinv) s.
Proof.
  intros Hc. unfold finalizeCommit. do 2 wstep. destruct (_ || _) eqn:Eg; [by wstep|].
  apply orb_false_iff in Eg as [Eh%negb_false_iff%Z.eqb_eq Est%negb_false_iff%Z.eqb_eq].
  pose proof (ci_commit _ Hc Est) as Hcr. wstep. apply wp_bind, wp_Precommits. intros hv o Hv Ho. do 3 wstep.
  destruct (VoteSet.TwoThirdsMajority o) as [id ok] eqn:Em. destruct ok; [|done]. cbn [negb].
  destruct (PartSet.HasHeader _ _); [|done]. cbn [negb].
  destruct (HashesTo (sProposalBlock s) (Votes.Hash id)) eqn:Ehash; [|done]. cbn [negb].
  apply HashesTo_true in Ehash as (b & Eb & Ehash & Hne). wstep. rewrite Eb.
  assert (Hd : decided_by hv b). { destruct o as [vs|]; [|done]. exists (sCommitRound s), id. split_and!; try done; [by exists vs|congruence]. }
  apply wp_quiet; [auto with quiet|]. intros valid s1 Hf1. destruct valid; [|done]. cbn [negb].
  apply wp_quiet; [auto with quiet|]. intros ? s2 Hf2. apply wp_quiet; [auto with quiet|]. intros synced s3 Hf3.
  destruct synced; [|done]. cbn [negb]. cbv zeta. assert (Hf : frame s s3) by (by etrans; [|etrans]).
  wstep. set (s4 := set_committed _ s3). assert (Hc4 : cinv s4).
  { pose proof (cinv_frame _ _ Hc Hf). destruct Hf as ((? & ? & ? & ? & _) & _). apply (cinv_decided s3 height _ b hv); congruence. }
  assert (Hcr4 : sCommitRound s4 = sCommitRound s) by (destruct Hf as ((_ & _ & _ & _ & ? & _) & _); done). clearbody s4.
  apply wp_bind, wp_ask. destruct (a_ApplyVerifiedBlock _ _ _ _) as [st'|] eqn:Eapply; [|done].
  apply wp_bind. eapply wp_mono; [apply updateToState_inv; [by eapply cinv_frame|cbn; lia|by eapply apply_ok]|].
  intros ? s6 Hc6. cbn beta in Hc6. wnext. intros ? s7 Hc7 _. by apply scheduleRound0_inv.
Qed.

Lemma tryFinalizeCommit_inv height s : cinv s → wp (tryFinalizeCommit answers cfg height) (λ _, cinv) s.
Proof.
  intros Hc. unfold tryFinalizeCommit. wstep. destruct (negb _); [done|]. wstep. wnext. intros o s1 Hc1 Hs1. wstep.
  destruct (VoteSet.TwoThirdsMajority o) as [id ok]. destruct (_ || _); [by wstep|]. destruct (negb _); [by wstep|].
  by apply finalizeCommit_inv.
Qed.

Lemma enterCommit_inv height round s : cinv s → 0 ≤ round → wp (enterCommit answers cfg height round) (λ _, cinv) s.
Proof.
  intros Hc Hr. unfold enterCommit. do 2 wstep. destruct (_ || _) eqn:Eg; [by wstep|].
  apply orb_false_iff in Eg as [_ Est%Z.leb_gt]. wnext. intros ? s1 Hc1 Hs1. wstep. unfold updateRoundStep. wstep.
  apply wp_bind, wp_ask. wstep. apply tryFinalizeCommit_inv. set (now := a_Now _).
  apply (cinv_frame (set_round_step (sRound s1) RoundStepCommit (set_commit round now s1))); [|done].
  apply cinv_step; [|cbn; spots|done]. destruct Hc1. split; try done; cbn; spots.
Qed.

(** ** Messages and timeouts *)

(** From [kept] to the invariant alone. *)
Lemma wp_cinv {A} (m : M A) s : wp m (λ _, kept s) s → wp m (λ _, cinv) s.
Proof. intros Hm. eapply wp_mono; [exact Hm|]. by intros ? s' [? _]. Qed.
Lemma enterNewRound_inv height round s :
  cinv s → wp (enterNewRound answers cfg Sign InRound height round) (λ _, cinv) s.
Proof. intros Hc. eapply wp_mono; [by apply enterNewRound_kept|]. by intros ? s' [[? _] _]. Qed.
Lemma wp_done {A} (m : M unit) (a : A) s : wp m (λ _, cinv) s → wp (m;; mret a) (λ _, cinv) s.
Proof. intros Hm. apply wp_bind. exact Hm. Qed.

Lemma at_current s s' : spot s s' → at_most s' (sHeight s) (sRound s).
Proof. unfold spot, at_most. lia. Qed.

Lemma handleCompleteProposal_inv height s :
  cinv s → wp (handleCompleteProposal answers cfg Sign InRound height) (λ _, cinv) s.
Proof.
  intros Hc. unfold handleCompleteProposal. wstep. wnext. intros prevotes s1 Hc1 Hs1. do 3 wstep.
  destruct (VoteSet.TwoThirdsMajority prevotes) as [id ok]. wnext. intros ? s2 Hc2 Hs2. wstep. wnext. intros complete s3 Hc3 Hs3.
  destruct (_ && complete).
  - apply wp_bind. eapply wp_mono; [apply enterPrevote_kept; [done|spots]|]. intros ? s4 [Hc4 Hs4]. cbn beta. wstep.
    unfold when. destruct ok; [|by wstep]. apply wp_cinv, enterPrecommit_kept; [done|by intros ?].
  - unfold when. destruct (_ =? _); [|by wstep]. by apply tryFinalizeCommit_inv.
Qed.

Lemma add_last_precommit_inv v s :
  cinv s → wp (add_last_precommit answers cfg Sign InRound v) (λ _, cinv) s.
Proof.
  intros Hc. unfold add_last_precommit. wstep. destruct (negb _); [by wstep|]. wstep. wstep. destruct a as [vs' [added err]].
  wnext. intros ? s1 Hc1 Hs1. destruct (negb added); [by wstep|]. wnext. intros ok s2 Hc2 Hs2. destruct (negb ok); [by wstep|].
  wnext. intros all s3 Hc3 Hs3. wstep. apply wp_done. unfold when. destruct all; [|by wstep]. by apply enterNewRound_inv.
Qed.

Lemma after_prevote_inv v s :
  cinv s → wp (after_prevote answers cfg Sign InRound (sHeight s) v) (λ _, cinv) s.
Proof.
  intros Hc. unfold after_prevote. wnext. intros prevotes s1 Hc1 Hs1. do 2 wstep.
  destruct (VoteSet.TwoThirdsMajority prevotes) as [id ok]. wnext. intros published s2 Hc2 Hs2.
  destruct (negb published); [by wstep|]. do 3 wstep. wnext. intros future s3 Hc3 Hs3. apply wp_done.
  destruct future; [by apply enterNewRound_inv|]. destruct (Z.eqb_spec (sRound s2) (Votes.Round v)) as [Er|].
  - destruct (_ && _).
    + wnext. intros complete s4 Hc4 Hs4. destruct (_ && _); [apply wp_cinv, enterPrecommit_kept; [done|spots]|].
      wnext. intros any s5 Hc5 Hs5. unfold when. destruct any; [|by wstep]. apply wp_cinv, enterPrevoteWait_kept; [done|spots].
    + destruct (sProposal s2); [|by wstep]. destruct (_ && _); [|by wstep]. wnext. intros complete s4 Hc4 Hs4.
      unfold when. destruct complete; [|by wstep]. apply wp_cinv, enterPrevote_kept; [done|spots].
  - cbn [andb]. destruct (sProposal s2); [|by wstep]. destruct (_ && _); [|by wstep]. wnext. intros complete s4 Hc4 Hs4.
    unfold when. destruct complete; [|by wstep]. apply wp_cinv, enterPrevote_kept; [done|spots].
Qed.

Lemma after_precommit_inv height v s :
  cinv s → 0 ≤ Votes.Round v → wp (after_precommit answers cfg Sign InRound height v) (λ _, cinv) s.
Proof.
  intros Hc Hr. unfold after_precommit. wnext. intros precommits s1 Hc1 Hs1.
  destruct (VoteSet.TwoThirdsMajority precommits) as [id ok]. destruct ok.
  - apply wp_bind. eapply wp_mono; [by apply enterNewRound_kept|]. intros ? s2 [[Hc2 Hs2] Ha2]. cbn beta.
    apply wp_bind. eapply wp_mono; [by apply enterPrecommit_kept|]. intros ? s3 [Hc3 Hs3]. cbn beta.
    destruct (negb (IsNil id)).
    + apply wp_bind. eapply wp_mono; [by apply enterCommit_inv|]. intros ? s4 Hc4. cbn beta in *.
      wnext. intros all s5 Hc5 Hs5. wstep. unfold when. destruct all; [|by wstep]. by apply enterNewRound_inv.
    + apply wp_cinv, enterPrecommitWait_kept; [done|spots].
  - wstep. wnext. intros any s2 Hc2 Hs2. unfold when. destruct any; [|by wstep].
    apply wp_bind. eapply wp_mono; [by apply enterNewRound_kept|]. intros ? s3 [[Hc3 Hs3] Ha3]. cbn beta.
    by apply wp_cinv, enterPrecommitWait_kept.
Qed.

Lemma vote_basic v :
  vote_ValidateBasic v = None → block_ValidateBasic (vBlockID v) = true ∧ 0 ≤ Votes.Round v.
Proof.
  unfold vote_ValidateBasic. destruct (negb _); [done|]. destruct (_ <=? _); [done|].
  destruct (Z.ltb_spec (Votes.Round v) 0); [done|]. destruct (block_ValidateBasic _); [done|done].
Qed.

Lemma addVote_inv v peer s :
  cinv s → vote_ValidateBasic v = None → wp (addVote answers cfg Sign InRound v peer) (λ _, cinv) s.
Proof.
  intros Hc [Hb Hr]%vote_basic. unfold addVote. wstep. destruct (_ && _); [by apply add_last_precommit_inv|].
  destruct (negb _); [by wstep|]. wnext. intros ext s1 Hc1 Hs1. wnext. intros bad s2 Hc2 Hs2. destruct bad; [by wstep|].
  apply wp_bind, wp_votes. intros hv Hv. pose proof (ci_votes _ Hc2) as (hv0 & Hv0 & Hi & _ & Hlt & _).
  assert (hv0 = hv) as -> by congruence. wstep. destruct a as [hv' [added err]].
  destruct (HeightVoteSet.AddVote_later _ _ _ _ _ _ Hi Hb E) as [Hl Ehr]. wstep.
  assert (Hc3 : cinv (set_votes (Some hv') s2)) by (apply (cinv_later s2 hv hv'); [done..|lia]).
  assert (Hs3 : sHeight s = sHeight (set_votes (Some hv') s2)) by (cbn; spots).
  destruct (negb added); [by wstep|]. set (s3 := set_votes _ s2) in *. clearbody s3. rewrite Hs3.
  wnext. intros ok s4 Hc4 [<- _]. destruct (negb ok); [by wstep|]. destruct (Type_ v =? PrevoteType).
  - apply wp_bind. eapply wp_mono; [by apply after_prevote_inv|]. intros published s5 Hc5. by wstep.
  - destruct (Type_ v =? PrecommitType); [|done]. apply wp_done. by apply after_precommit_inv.
Qed.

Lemma tryAddVote_inv v peer s :
  cinv s → vote_ValidateBasic v = None → wp (tryAddVote answers cfg Sign InRound v peer) (λ _, cinv) s.
Proof.
  intros Hc Hv. unfold tryAddVote. apply wp_bind. eapply wp_mono; [by apply addVote_inv|]. intros [added err] s1 Hc1. cbn beta in *.
  assert (Hq : ∀ m : M (bool * option add_error), quiet m → wp m (λ _, cinv) s1).
  { intros m Hm. eapply wp_mono; [apply Hm|]. intros ? s2 Hf. by eapply cinv_frame. }
  apply Hq. quiet_tac.
Qed.

(** The check on the messages of peers before they reach the state machine. *)
Definition msg_ok (mi : msgInfo) : Prop :=
  match Msg mi with VoteMessage v => vote_ValidateBasic v = None | _ => True end.

Lemma handleMsg_inv mi s : cinv s → msg_ok mi → wp (handleMsg answers cfg Sign InRound mi) (λ _, cinv) s.
Proof.
  intros Hc Hm. unfold handleMsg, msg_ok in *. destruct (Msg mi) as [p|height round part|v].
  - wnext. intros ? s1 Hc1 _. by wstep.
  - wnext. intros r s1 Hc1 _. do 2 wstep. destruct r.1; [|by wstep]. destruct (deref _ _); [|done].
    unfold when. destruct (PartSet.IsComplete _); [|by wstep]. by apply handleCompleteProposal_inv.
  - apply wp_bind. eapply wp_mono; [by apply tryAddVote_inv|]. intros ? s1 Hc1. by wstep.
Qed.

Lemma handleTimeout_inv ti s :
  cinv s → ti ∈ sTimeouts s → wp (handleTimeout answers cfg Sign InRound ti) (λ _, cinv) s.
Proof.
  intros Hc Hti. unfold handleTimeout. do 3 wstep. destruct (_ || _); [by wstep|].
  assert (Ha : at_most s (tHeight ti) (tRound ti)). { pose proof (ci_timeouts _ Hc ti Hti). spots. }
  destruct (_ =? RoundStepNewHeight); [by apply enterNewRound_inv|].
  destruct (_ =? RoundStepNewRound); [by apply wp_cinv, enterPropose_kept|].
  destruct (_ =? RoundStepPropose); [by apply wp_cinv, enterPrevote_kept|].
  destruct (_ =? RoundStepPrevoteWait); [by apply wp_cinv, enterPrecommit_kept|].
  destruct (_ =? RoundStepPrecommitWait); [|done].
  apply wp_bind. eapply wp_mono; [by apply enterPrecommit_kept|]. intros ? s1 [Hc1 _]. by apply enterNewRound_inv.
Qed.

Lemma handleTxsAvailable_inv s : cinv s → wp (handleTxsAvailable answers cfg Sign InRound) (λ _, cinv) s.
Proof.
  intros Hc. unfold handleTxsAvailable. do 3 wstep. destruct (Z.eqb_spec (sRound s) 0) as [Er|]; cbn [negb]; [|by wstep].
  destruct (_ =? _).
  - wnext. intros proof s1 Hc1 Hs1. destruct proof; [by wstep|]. wnext. intros now s2 Hc2 Hs2. wstep.
    eapply wp_mono; [apply scheduleTimeout_kept; [done|spots..]|]. by intros ? s3 [? _].
  - unfold when. destruct (_ =? _); [|by wstep]. apply wp_cinv, enterPropose_kept; [done|]. intros _. lia.
Qed.

(** ** Runs of a node *)

(** What the receive routine and the reactor do to the state: a message, a timeout, new
    transactions, and a peer's claim of a majority. *)
Inductive Event :=
| EMsg (mi : msgInfo)
| ETimeout (ti : timeoutInfo)
| ETxsAvailable
| EPeerMaj23 (round type_ : Z) (peerID : string) (blockID : BlockID).

Definition peer_maj23 (round type_ : Z) (peerID : string) (blockID : BlockID) : M unit :=
  v ← votes; r ← lift (HeightVoteSet.SetPeerMaj23 v round type_ peerID blockID); modify (set_votes (Some r.1)).

Definition handle (ev : Event) : M unit :=
  match ev with
  | EMsg mi => handleMsg answers cfg Sign InRound mi
  | ETimeout ti => handleTimeout answers cfg Sign InRound ti
  | ETxsAvailable => handleTxsAvailable answers cfg Sign InRound
  | EPeerMaj23 r t p b => peer_maj23 r t p b
  end.

(** A vote has passed its basic validation, and a timeout was scheduled. *)
Definition allowed (ev : Event) (s : State) : bool :=
  match ev with
  | EMsg mi => match Msg mi with
               | VoteMessage v => match vote_ValidateBasic v with None => true | Some _ => false end
               | _ => true
               end
  | ETimeout ti => bool_decide (ti ∈ sTimeouts s)
  | _ => true
  end.

Fixpoint run (evs : list Event) (s : State) : option State :=
  match evs with
  | [] => Some s
  | ev :: evs =>
      if allowed ev s then match handle ev s with Done (s', _) => run evs s' | Panic _ => None end else None
  end.

(** A node started in state [st], then any events. *)
Definition node_run (offline : bool) (st : SMState) (storeHeight : Z) (pv : option FilePV) (evs : list Event)
    : option State :=
  match NewState answers cfg offline st (zero_state storeHeight pv) with
  | Done (s, _) => run evs s
  | Panic _ => None
  end.

Lemma handle_inv ev s : cinv s → allowed ev s = true → wp (handle ev) (λ _, cinv) s.
Proof.
  intros Hc Ha. destruct ev as [mi|ti| |r t p b]; cbn in *.
  - apply handleMsg_inv; [done|]. unfold msg_ok. destruct (Msg mi); try done. by destruct (vote_ValidateBasic _).
  - apply handleTimeout_inv; [done|]. by apply bool_decide_eq_true in Ha.
  - by apply handleTxsAvailable_inv.
  - unfold peer_maj23. apply wp_bind, wp_votes. intros hv Hv. wstep. destruct a as [hv' err]. wstep.
    pose proof (ci_votes _ Hc) as (hv0 & Hv0 & Hi & _ & Hlt & _). assert (hv0 = hv) as -> by congruence.
    destruct (HeightVoteSet.SetPeerMaj23_later _ _ _ _ _ _ _ Hi E) as [Hl Er]. apply (cinv_later s hv hv'); [done..|lia].
Qed.

Lemma run_cinv evs s s' : cinv s → run evs s = Some s' → cinv s'.
Proof.
  revert s. induction evs as [|ev evs IH]; intros s Hc; cbn; [by intros [= <-]|]. destruct (allowed ev s) eqn:Ea; [|done].
  pose proof (handle_inv ev s Hc Ea) as Hw. unfold wp in Hw. destruct (handle ev s) as [[s1 ?]|]; [|done]. by apply IH.
Qed.

Lemma quiet_reconstruct offline st : quiet (reconstruct answers offline st).
Proof. unfold reconstruct, votesFromExtendedCommit, votesFromSeenCommit. quiet_tac. Qed.

Lemma NewState_inv offline st sh pv :
  sm_ok st → sm_InitialHeight st ≤ max_int64 → wp (NewState answers cfg offline st) (λ _, cinv) (zero_state sh pv).
Proof.
  intros Hok Hmax. unfold NewState. apply wp_quiet.
  { unfold when. destruct (_ <? _); [apply quiet_reconstruct|auto with quiet]. }
  intros ? s1 Hf1. apply wp_bind. eapply wp_mono; [apply updateToState_spec; [done|]|].
  - intros _ _. split; [eapply closed_past; [apply closed_zero|by apply frame_past]|]. unfold next_height.
    pose proof (wrap64_range (sm_LastBlockHeight st + 1)). unfold in_int64 in *. destruct (_ =? 1); lia.
  - intros ? s2 [[-> He]|Hc]; cbn beta.
    { destruct Hf1 as ((_ & _ & _ & _ & _ & _ & _ & _ & Es) & _). by rewrite Es in He. }
    wnext. intros ? s3 Hc3 _. by apply scheduleRound0_inv.
Qed.

Lemma node_run_inv offline st sh pv evs s :
  sm_ok st → sm_InitialHeight st ≤ max_int64 → node_run offline st sh pv evs = Some s → cinv s.
Proof.
  intros Hok Hmax E. unfold node_run in E. pose proof (NewState_inv offline st sh pv Hok Hmax) as Hw. unfold wp in Hw.
  destruct (NewState _ _ _ _ _) as [[s1 ?]|]; [|done]. by eapply run_cinv.
Qed.


End logic.

End ConsensusSafety.
