(* ===== verification/Agreement.v ===== *)
(** * Agreement: two correct nodes never decide different blocks

    The nodes of a network run [ConsensusState] each with its own clock, application,
    store and events, and are tied together only by signatures: a vote counted under the
    key of a correct validator was sent by that validator's node.  With less than a third
    of the voting power faulty, every two blocks that correct nodes commit at one height
    have the same hash. *)

From S2P Require Import Prelude BitArray Merkle Crypto ValidatorSet Votes PartSet Proposal Commit VoteSet HeightVoteSet PrivVal ConsensusState ConsensusSafety BlockFlow.
Import ValidatorSet.ValidatorSet Votes.Votes Proposal.Proposal Commit.Commit ConsensusState.ConsensusState
  ConsensusSafety.ConsensusSafety.
Notation toy_blocks := BlockFlow.toy_blocks.
Notation mkToyBlock := BlockFlow.mkToyBlock.

Local Open Scope Z_scope.

Module Agreement.

Section agreement.
Context `{PubKeyOps, Merkle.HashOps, BlockOps, MsgCodec, !MsgCodecLaws}.

(** ** Nodes *)

(** A node with everything it was given and everything that happened to it. *)
Record Node := mkNode {
  nAnswers : nat → Answers; nConfig : ConsensusConfig; nSign : list Z → option (list Z);
  nInRound : SynchronyParams → Z → SynchronyParams;
  nOffline : bool; nState : SMState; nStoreHeight : Z; nSigner : option FilePV; nEvents : list Event }.

Definition final (n : Node) : option State :=
  node_run (nAnswers n) (nConfig n) (nSign n) (nInRound n) (nOffline n) (nState n) (nStoreHeight n) (nSigner n) (nEvents n).

(** What a node relies on: the executor returns states with well-formed validator sets, a
    block that passes validation has a hash, and so is the state it starts with. *)
Definition sound (n : Node) : Prop :=
  (∀ k st id b st', a_ApplyVerifiedBlock (nAnswers n k) st id b = Ok st' → sm_ok st') ∧
  (∀ k st b, a_ValidateBlock (nAnswers n k) st (Some b) = true → block_Hash b ≠ []) ∧
  sm_ok (nState n) ∧ sm_InitialHeight (nState n) ≤ max_int64.

Lemma final_cinv n s : sound n → final n = Some s → cinv s.
Proof. intros (? & ? & ? & ?) E. eapply node_run_inv; [..|exact E]; done. Qed.

(** ** Quorums *)

(** The vote of validator [k] in the tally of a round. *)
Definition counted (hv : HeightVoteSet) (r t : Z) (k : nat) (v : Vote) : Prop :=
  ∃ vs, HeightVoteSet.getVoteSet hv r t = Done (Some vs) ∧ VoteSet.votes vs !! k = Some (Some v).

(** The power of the validators that are not run by a correct node. *)
Definition faulty_power {I} (owner : nat → option I) (vals : list Validator) : Z :=
  zsum id (imap (λ k val, match owner k with Some _ => 0 | None => VotingPower val end) vals).

Lemma faulty_cons {I} (owner : nat → option I) val vals :
  faulty_power owner (val :: vals) =
  match owner 0%nat with Some _ => 0 | None => VotingPower val end + faulty_power (owner ∘ S) vals.
Proof. done. Qed.

(** Two sets of slots that share no correct validator overlap in faulty power only. *)
Lemma both_faulty {I} (owner : nat → option I) P Q l1 l2 vals :
  (∀ val, val ∈ vals → 0 ≤ VotingPower val) →
  (∀ k v w, l1 !! k = Some (Some v) → l2 !! k = Some (Some w) → P v = true → Q w = true → owner k = None) →
  VoteSet.both_power P Q l1 l2 vals ≤ faulty_power owner vals.
Proof.
  revert owner l1 l2. induction vals as [|val vals IH]; intros owner l1 l2 Hnn Hno.
  { unfold VoteSet.both_power. by destruct (zip l1 l2). }
  rewrite faulty_cons. pose proof (Hnn val ltac:(set_solver)).
  assert (Hrest : ∀ l1' l2', (∀ k v w, l1' !! k = Some (Some v) → l2' !! k = Some (Some w) → P v = true → Q w = true → owner (S k) = None) →
    VoteSet.both_power P Q l1' l2' vals ≤ faulty_power (owner ∘ S) vals) by (intros; apply IH; [set_solver|done]).
  assert (Hz : VoteSet.both_power P Q [] [] vals ≤ faulty_power (owner ∘ S) vals) by (by apply Hrest).
  assert (E0 : VoteSet.both_power P Q [] [] vals = 0) by done.
  assert (Hpos : 0 ≤ match owner 0%nat with Some _ => 0 | None => VotingPower val end) by (destruct (owner 0%nat); lia).
  destruct l1 as [|o1 l1], l2 as [|o2 l2]; unfold VoteSet.both_power in *; cbn [zip zip_with zsum fst snd] in *; try lia.
  specialize (Hrest l1 l2 (λ k, Hno (S k))).
  destruct o1 as [v|], o2 as [w|]; try lia. destruct (P v) eqn:EP, (Q w) eqn:EQ; cbn [andb]; try lia.
  rewrite (Hno 0%nat v w) by done. lia.
Qed.

(** Two majorities of the same validators share a correct one. *)
Lemma quorums_meet {I} (owner : nat → option I) vals hv1 hv2 r1 t1 b1 r2 t2 b2 :
  hinv hv1 → hinv hv2 → Validators (HeightVoteSet.hValSet hv1) = vals → Validators (HeightVoteSet.hValSet hv2) = vals →
  3 * faulty_power owner vals < zsum VotingPower vals →
  IsVoteTypeValid t1 = true → IsVoteTypeValid t2 = true → majority hv1 r1 t1 b1 → majority hv2 r2 t2 b2 →
  ∃ k i v w, owner k = Some i ∧ counted hv1 r1 t1 k v ∧ Key (vBlockID v) = Key b1 ∧
    counted hv2 r2 t2 k w ∧ Key (vBlockID w) = Key b2.
Proof.
  intros Hi1 Hi2 E1 E2 Hf Ht1 Ht2 (vs1 & Hg1 & Hm1) (vs2 & Hg2 & Hm2).
  destruct (HeightVoteSet.getVoteSet_total hv1 r1 t1 Hi1 Ht1) as (o1 & Ho1 & _ & Hok1).
  destruct (HeightVoteSet.getVoteSet_total hv2 r2 t2 Hi2 Ht2) as (o2 & Ho2 & _ & Hok2).
  rewrite Hg1 in Ho1. rewrite Hg2 in Ho2. injection Ho1 as <-. injection Ho2 as <-.
  destruct (Hok1 vs1 eq_refl) as (Hr1 & _ & _ & _ & _ & _ & Hv1). destruct (Hok2 vs2 eq_refl) as (Hr2 & _ & _ & _ & _ & _ & Hv2).
  apply VoteSet.reachable_inv in Hr1, Hr2. apply HeightVoteSet.majority_maj23 in Hm1, Hm2.
  pose proof (VoteSet.maj_power _ _ Hr1 Hm1) as Hp1. pose proof (VoteSet.maj_power _ _ Hr2 Hm2) as Hp2.
  unfold VoteSet.total in *. rewrite Hv1, E1 in Hp1. rewrite Hv2, E2 in Hp2.
  pose proof (VoteSet.inv_vals _ _ (proj1 Hr1)) as Hwf. rewrite Hv1, E1 in Hwf.
  pose proof (VoteSet.slots_ok_length _ _ _ _ (VoteSet.inv_votes _ _ (proj1 Hr1))) as Hl1.
  pose proof (VoteSet.slots_ok_length _ _ _ _ (VoteSet.inv_votes _ _ (proj1 Hr2))) as Hl2. rewrite Hv1, E1 in Hl1. rewrite Hv2, E2 in Hl2.
  pose proof (VoteSet.both_power_lower (VoteSet.for_key (Key b1)) (VoteSet.for_key (Key b2)) (VoteSet.votes vs1) (VoteSet.votes vs2) vals
    (wf_power_nonneg _ Hwf) Hl1 Hl2) as Hb.
  set (shared := λ k, match VoteSet.votes vs1 !! k, VoteSet.votes vs2 !! k, owner k with
    | Some (Some v), Some (Some w), Some _ => VoteSet.for_key (Key b1) v && VoteSet.for_key (Key b2) w | _, _, _ => false end).
  destruct (existsb shared (seq 0 (length vals))) eqn:Hex.
  - apply existsb_exists in Hex as (k & _ & Hk). unfold shared in Hk. destruct (VoteSet.votes vs1 !! k) as [[v|]|] eqn:Ev; try done.
    destruct (VoteSet.votes vs2 !! k) as [[w|]|] eqn:Ew; try done. destruct (owner k) as [i|] eqn:Eo; [|done].
    apply andb_true_iff in Hk as [Hk1%bool_decide_eq_true Hk2%bool_decide_eq_true].
    exists k, i, v, w. split_and!; [done|by exists vs1|done|by exists vs2|done].
  - exfalso. pose proof (both_faulty owner (VoteSet.for_key (Key b1)) (VoteSet.for_key (Key b2)) (VoteSet.votes vs1) (VoteSet.votes vs2)
      vals (wf_power_nonneg _ Hwf)) as Hbf.
    cut (zsum VotingPower vals < 3 * faulty_power owner vals); [lia|].
    eapply Z.lt_le_trans; [|apply Z.mul_le_mono_nonneg_l; [lia|apply Hbf]]; [lia|].
    intros k v w Ev Ew EP EQ. destruct (owner k) eqn:Eo; [|done]. exfalso.
    assert (existsb shared (seq 0 (length vals)) = true); [|congruence]. apply existsb_exists. exists k. split.
    + apply in_seq. apply lookup_lt_Some in Ev. lia.
    + unfold shared. by rewrite Ev, Ew, Eo, EP, EQ.
Qed.
(** ** Block ids behind keys *)

Lemma same_hash a b :
  block_ValidateBasic a = true → block_ValidateBasic b = true → Votes.Hash a ≠ [] → Votes.Hash b ≠ [] → Key a = Key b →
  Votes.Hash a = Votes.Hash b.
Proof.
  assert (Hlen : ∀ c, block_ValidateBasic c = true → Votes.Hash c ≠ [] → zlen (Votes.Hash c) = tmhash_Size).
  { intros c Hc Hne. unfold block_ValidateBasic, ValidateHash in Hc. apply andb_true_iff in Hc as [Hc _].
    destruct (Votes.Hash c) as [|x l]; [done|]. zbool. apply andb_false_iff in Hc as [Hc|Hc]; zbool; [|done].
    unfold zlen in *. simpl in *. lia. }
  intros Ha Hb Hna Hnb E. unfold Key in E. apply app_inj_1 in E as [? _]; [done|].
  pose proof (Hlen a Ha Hna). pose proof (Hlen b Hb Hnb). unfold zlen in *. lia.
Qed.

Lemma key_not_nil a b : Votes.Hash a ≠ [] → Key b = Key a → IsNil b = false.
Proof.
  intros Ha E. destruct (IsNil b) eqn:En; [|done]. apply nil_key in En as ->. unfold Key in E. cbn in E.
  by destruct (Votes.Hash a).
Qed.

Lemma verify_basic v c pk : verifyAndReturnProto v c pk = Done None → block_ValidateBasic (vBlockID v) = true.
Proof.
  unfold verifyAndReturnProto, VoteSignBytes, CanonicalizeVote, CanonicalizeBlockID. destruct pk as [pk|]; [|done].
  destruct (negb _); [done|]. by destruct (block_ValidateBasic _).
Qed.

Lemma accepted_basic vs k v : VoteSet.accepted vs k v → block_ValidateBasic (vBlockID v) = true.
Proof.
  intros (_ & _ & _ & _ & _ & val & _ & _ & E). unfold VoteSet.check_signature, Verify, VerifyVoteAndExtension in E.
  destruct (VoteSet.extensionsEnabled vs); apply outcome_bind_Done in E as ([e|] & E & E'); try done; by eapply verify_basic.
Qed.

(** ** The network *)

Context {I : Type} (node : I → Node) (St : I → State) (owner : nat → option I) (h : Z) (vals : list Validator).

Definition tallied (i : I) (hv : HeightVoteSet) : Prop := has_votes (St i) hv ∧ hHeight hv = h.

(** A vote counted under the key of a correct validator was sent by its node: the node
    sent a vote with the same sign bytes. *)
Definition authentic : Prop :=
  ∀ i hv r t k v j, tallied i hv → counted hv r t k v → owner k = Some j →
    ∃ w, w ∈ sent (St j) ∧ VoteSignBytes (HeightVoteSet.hChainID hv) w = VoteSignBytes (HeightVoteSet.hChainID hv) v.

Hypothesis nodes_sound : ∀ i, sound (node i).
Hypothesis nodes_run : ∀ i, final (node i) = Some (St i).
Hypothesis same_validators : ∀ i hv, tallied i hv → Validators (HeightVoteSet.hValSet hv) = vals.
Hypothesis votes_authentic : authentic.
Hypothesis few_faulty : 3 * faulty_power owner vals < zsum VotingPower vals.

Lemma node_cinv i : cinv (St i).
Proof. by apply (final_cinv (node i)). Qed.

Lemma tallied_inv i hv : tallied i hv → hinv hv.
Proof. intros [Hv _]. by apply (cl_votes _ _ (cinv_closed _ (node_cinv i))). Qed.

(** The vote a correct validator sent, for a vote counted anywhere. *)
Lemma honest_vote i hv r t k v j :
  tallied i hv → IsVoteTypeValid t = true → counted hv r t k v → owner k = Some j →
  ∃ w, w ∈ sent (St j) ∧ Votes.Height w = h ∧ Votes.Round w = r ∧ Type_ w = t ∧ vBlockID w = vBlockID v ∧
    block_ValidateBasic (vBlockID w) = true.
Proof.
  intros Ht Htype Hcount Ho. destruct (votes_authentic i hv r t k v j Ht Hcount Ho) as (w & Hw & Esign).
  destruct Hcount as (vs & Hg & Hv). pose proof (tallied_inv i hv Ht) as Hi. destruct Ht as [_ Hh].
  destruct (HeightVoteSet.getVoteSet_total hv r t Hi Htype) as (o & Ho' & _ & Hok). rewrite Hg in Ho'. injection Ho' as <-.
  destruct (Hok vs eq_refl) as (Hre & _ & Eh & Er & Et & _). apply VoteSet.reachable_inv in Hre.
  pose proof (VoteSet.inv_accepted _ _ (proj1 Hre) _ _ Hv) as Hacc. pose proof (accepted_basic _ _ _ Hacc) as Hb.
  destruct Hacc as (_ & Ah & Ar & At & _). exists w.
  unfold VoteSignBytes, CanonicalizeVote, CanonicalizeBlockID in Esign. rewrite Hb in Esign.
  destruct (block_ValidateBasic (vBlockID w)) eqn:Hbw; [|done]. injection Esign as E.
  apply (f_equal decode_vote) in E. rewrite !decode_encode_vote in E. injection E as E1 E2 E3 E4.
  split_and!; try congruence. destruct (IsNil (vBlockID w)) eqn:N1, (IsNil (vBlockID v)) eqn:N2; try done; [|congruence].
  by rewrite (nil_key _ N1), (nil_key _ N2).
Qed.

Lemma majority_basic i hv r t b :
  tallied i hv → IsVoteTypeValid t = true → majority hv r t b → block_ValidateBasic b = true.
Proof.
  intros Ht Htype (vs & Hg & Hm). pose proof (tallied_inv i hv Ht) as Hi.
  destruct (HeightVoteSet.getVoteSet_total hv r t Hi Htype) as (o & Ho' & _ & Hok). rewrite Hg in Ho'. injection Ho' as <-.
  destruct (Hok vs eq_refl) as (Hre & _). apply VoteSet.reachable_inv in Hre as [Hcore Hmaj].
  apply HeightVoteSet.majority_maj23 in Hm. unfold VoteSet.maj_inv in Hmaj. rewrite Hm in Hmaj.
  destruct Hmaj as (bv & Hbv & _ & (k & v & Hk & <-) & _). destruct (VoteSet.inv_blocks _ _ Hcore _ _ Hbv) as [_ Hall].
  destruct (Hall k v Hk) as (_ & Hacc & _). by eapply accepted_basic.
Qed.

(** Two majorities for blocks: a correct node sent a vote for the first block and one
    for the second. *)
Lemma common_voter i1 hv1 r1 t1 b1 i2 hv2 r2 t2 b2 :
  tallied i1 hv1 → tallied i2 hv2 → IsVoteTypeValid t1 = true → IsVoteTypeValid t2 = true →
  majority hv1 r1 t1 b1 → majority hv2 r2 t2 b2 → Votes.Hash b1 ≠ [] → Votes.Hash b2 ≠ [] →
  ∃ j v w, v ∈ sent (St j) ∧ w ∈ sent (St j) ∧
    (Votes.Height v = h ∧ Votes.Round v = r1 ∧ Type_ v = t1 ∧ IsNil (vBlockID v) = false ∧ vhash v = Votes.Hash b1) ∧
    (Votes.Height w = h ∧ Votes.Round w = r2 ∧ Type_ w = t2 ∧ IsNil (vBlockID w) = false ∧ vhash w = Votes.Hash b2).
Proof.
  intros Hh1 Hh2 Ht1 Ht2 Hm1 Hm2 Hn1 Hn2.
  destruct (quorums_meet owner vals hv1 hv2 r1 t1 b1 r2 t2 b2) as (k & j & v & w & Ho & Hcv & Kv & Hcw & Kw);
    eauto using tallied_inv.
  destruct (honest_vote i1 hv1 r1 t1 k v j) as (v' & Hv' & ? & ? & ? & Ev & Hbv); [done..|].
  destruct (honest_vote i2 hv2 r2 t2 k w j) as (w' & Hw' & ? & ? & ? & Ew & Hbw); [done..|].
  assert (Hhash : ∀ x b, x ∈ sent (St j) → block_ValidateBasic (vBlockID x) = true → block_ValidateBasic b = true →
    Votes.Hash b ≠ [] → Key (vBlockID x) = Key b → IsNil (vBlockID x) = false ∧ vhash x = Votes.Hash b).
  { intros x b Hx Hbx Hbb Hne Hk. pose proof (key_not_nil b (vBlockID x) Hne Hk) as Hnil. split; [done|].
    apply same_hash; try done. by apply (ci_types _ (node_cinv j)). }
  destruct (Hhash v' b1) as [? ?]; [done|done|by apply (majority_basic i1 hv1 r1 t1)|done|congruence|].
  destruct (Hhash w' b2) as [? ?]; [done|done|by apply (majority_basic i2 hv2 r2 t2)|done|congruence|].
  exists j, v', w'. by split_and!.
Qed.

(** The tallies of a node that precommitted a block hold its polka. *)
Lemma precommit_polka j v :
  v ∈ sent (St j) → Votes.Height v = h → is_precommit v →
  ∃ hv, tallied j hv ∧ polka hv (Votes.Round v) (vBlockID v) ∧ rules (sent (St j)) hv.
Proof.
  intros Hv Hh Hp. destruct (ci_tally _ (node_cinv j) v Hv) as (hv & Hhv & Ehv).
  pose proof (ci_rules _ (node_cinv j) hv Hhv) as Hr. exists hv. split_and!; [split; [done|congruence]| |done].
  by apply Hr.
Qed.

(** One polka per round, whichever node sees it. *)
Lemma polka_agree i hv i' hv' r a b :
  tallied i hv → tallied i' hv' → polka hv r a → polka hv' r b → Votes.Hash a ≠ [] → Votes.Hash b ≠ [] →
  Votes.Hash a = Votes.Hash b.
Proof.
  intros Ht Ht' Ha Hb Hna Hnb.
  destruct (common_voter i hv r PrevoteType a i' hv' r PrevoteType b) as (j & v & w & Hv & Hw & (? & ? & ? & _ & Ev) & (? & ? & ? & _ & Ew));
    [done..|].
  assert (vBlockID v = vBlockID w) as E by (apply (ci_unique _ (node_cinv j)); [done|done|congruence..]).
  rewrite <-Ev, <-Ew. unfold vhash. by rewrite E.
Qed.

(** A majority of precommits for a block fixes the block of every later polka. *)
Lemma precommits_fix_polkas i hv r a i' hv' r' b :
  tallied i hv → majority hv r PrecommitType a → Votes.Hash a ≠ [] →
  r ≤ r' → tallied i' hv' → polka hv' r' b → Votes.Hash b ≠ [] → Votes.Hash b = Votes.Hash a.
Proof.
  intros Ht Ha Hna. revert i' hv' b. induction (Z.lt_wf r r') as [r' _ IH]. intros i' hv' b Hle Ht' Hb Hnb.
  destruct (common_voter i hv r PrecommitType a i' hv' r' PrevoteType b)
    as (j & v & w & Hv & Hw & (Hh & Hr & Hty & Hnil & Ev) & (Hh' & Hr' & Hty' & Hnil' & Ew)); [done..|].
  destruct (precommit_polka j v Hv Hh (conj Hty Hnil)) as (hvj & Htj & Hpj & _ & Hrule). rewrite Hr in Hpj.
  assert (Hnv : Votes.Hash (vBlockID v) ≠ []) by (fold (vhash v); congruence).
  destruct (decide (r' = r)) as [->|Hne].
  - rewrite <-Ev. symmetry. by apply (polka_agree j hvj i' hv' r).
  - destruct (decide (vhash v = vhash w)) as [E|Hdiff]; [congruence|]. destruct Htj as [Hhas Ehj].
    destruct (Hrule v w) as (r2 & id & Hrange & Hpk & Eid); try done; try congruence; [lia|].
    rewrite <-Ew, <-Eid. apply (IH r2 ltac:(lia) j hvj); [lia|by split|done|]. rewrite Eid, Ew. done.
Qed.

(** Decisions of one height agree. *)
Lemma decisions_agree i hv i' hv' b b' :
  tallied i hv → tallied i' hv' → decided_by hv b → decided_by hv' b' → block_Hash b = block_Hash b'.
Proof.
  assert (Hhalf : ∀ i hv i' hv' r r' a a', tallied i hv → tallied i' hv' → majority hv r PrecommitType a →
    majority hv' r' PrecommitType a' → Votes.Hash a ≠ [] → Votes.Hash a' ≠ [] → r ≤ r' → Votes.Hash a' = Votes.Hash a).
  { intros i1 hv1 i2 hv2 r r' a a' Ht Ht' Ha Ha' Hna Hna' Hle.
    destruct (common_voter i2 hv2 r' PrecommitType a' i2 hv2 r' PrecommitType a')
      as (j & v & w & Hv & _ & (Hh & Hr & Hty & Hnil & Ev) & _); [done..|].
    destruct (precommit_polka j v Hv Hh (conj Hty Hnil)) as (hvj & Htj & Hpj & _).
    rewrite <-Ev. apply (precommits_fix_polkas i1 hv1 r a j hvj r'); try done; [congruence|]. fold (vhash v). congruence. }
  intros Ht Ht' (r & id & Hr & Hm & E & Hne) (r' & id' & Hr' & Hm' & E' & Hne'). rewrite <-E, <-E' in *.
  destruct (Z.le_ge_cases r r').
  - symmetry. by apply (Hhalf i hv i' hv' r r').
  - by apply (Hhalf i' hv' i hv r' r).
Qed.

Lemma committed_decided i b id : (h, id, b) ∈ sCommitted (St i) → ∃ hv, tallied i hv ∧ decided_by hv b.
Proof. intros Hb. destruct (ci_committed _ (node_cinv i) h id b Hb) as (hv & ? & ? & ?). by exists hv. Qed.


End agreement.
(** ** Claims *)

Section claims.
Context `{PubKeyOps, Merkle.HashOps, BlockOps, MsgCodec, !MsgCodecLaws}.

(** C1: agreement.  Correct nodes that run the state machine, each with its own
    clock, application answers and events, never commit blocks with different hashes at
    one height, as long as they have the same validators at that height, the validators
    that no correct node runs hold less than a third of the power, and a vote counted
    under a correct validator's key was sent by its node. *)
Theorem agreement {I} (node : I → Node) (St : I → State) (owner : nat → option I) (h : Z) (vals : list Validator) :
  (∀ i, sound (node i)) → (∀ i, final (node i) = Some (St i)) →
  (∀ i hv, tallied St h i hv → Validators (HeightVoteSet.hValSet hv) = vals) →
  authentic St owner h → 3 * faulty_power owner vals < zsum VotingPower vals →
  ∀ i j id id' b b', (h, id, b) ∈ sCommitted (St i) → (h, id', b') ∈ sCommitted (St j) → block_Hash b = block_Hash b'.
Proof.
  intros Hs Hr Hv Ha Hf i j id id' b b' Hb Hb'.
  destruct (committed_decided node St h Hs Hr i b id Hb) as (hv & Ht & Hd).
  destruct (committed_decided node St h Hs Hr j b' id' Hb') as (hv' & Ht' & Hd').
  by apply (decisions_agree node St owner h vals Hs Hr Hv Ha Hf i hv j hv').
Qed.

(** C2: the voting rules of a node.  Whatever messages, timeouts and claims a node
    handles, it sends at most one block id per height, round and vote type; a
    precommit for a block follows a two-thirds majority of prevotes for it in that
    round; and a prevote for another block after a precommit follows such a majority
    for that block, in a round not before the precommit. *)
Theorem votes_follow_the_lock n s :
  sound n → final n = Some s →
  (∀ v w, v ∈ sent s → w ∈ sent s → Votes.Height v = Votes.Height w → Votes.Round v = Votes.Round w → Type_ v = Type_ w →
     vBlockID v = vBlockID w) ∧
  (∀ v, v ∈ sent s → is_precommit v →
     ∃ hv, has_votes s hv ∧ hHeight hv = Votes.Height v ∧ polka hv (Votes.Round v) (vBlockID v)) ∧
  (∀ v w, v ∈ sent s → w ∈ sent s → Votes.Height v = Votes.Height w → is_precommit v → is_prevote w →
     Votes.Round v < Votes.Round w → vhash v ≠ vhash w →
     ∃ hv r id, has_votes s hv ∧ hHeight hv = Votes.Height v ∧ Votes.Round v ≤ r < Votes.Round w ∧ polka hv r id ∧
       Votes.Hash id = vhash w).
Proof.
  intros Hn Hf. pose proof (final_cinv n s Hn Hf) as []. split_and!; [done|..].
  - intros v Hv Hp. destruct (ci_tally0 v Hv) as (hv & Hhv & Hh). exists hv. split_and!; [done..|].
    by apply (ci_rules0 hv Hhv).
  - intros v w Hv Hw Hh Hp Hpv Hlt Hne. destruct (ci_tally0 v Hv) as (hv & Hhv & Hhh).
    destruct (ci_rules0 hv Hhv) as [_ R2]. destruct (R2 v w) as (r & id & ? & ? & ?); try done; [congruence|]. by exists hv, r, id.
Qed.

(** C3: a node commits a block only when the recorded and verified precommits for it
    of its height hold more than two thirds of the voting power. *)
Theorem commits_have_a_quorum n s h id b :
  sound n → final n = Some s → (h, id, b) ∈ sCommitted s →
  ∃ hv r id' vs, has_votes s hv ∧ hHeight hv = h ∧ HeightVoteSet.getVoteSet hv r PrecommitType = Done (Some vs) ∧
    Votes.Hash id' = block_Hash b ∧
    2 * VoteSet.total vs < 3 * VoteSet.power_of (VoteSet.for_key (Key id')) (VoteSet.votes vs) (VoteSet.vals_of vs) ∧
    ∀ k v, VoteSet.votes vs !! k = Some (Some v) → VoteSet.accepted vs k v ∧ Votes.Height v = h ∧ Votes.Round v = r.
Proof.
  intros Hn Hf Hb. pose proof (final_cinv n s Hn Hf) as Hc.
  destruct (ci_committed _ Hc h id b Hb) as (hv & Hhv & Hh & r & id' & Hr & (vs & Hg & Hm) & E & _).
  pose proof (cl_votes _ _ (cinv_closed _ Hc) hv Hhv) as [Hi _].
  destruct (HeightVoteSet.getVoteSet_total hv r PrecommitType Hi eq_refl) as (o & Ho & _ & Hok). rewrite Hg in Ho. injection Ho as <-.
  destruct (Hok vs eq_refl) as (Hre & _ & Eh & Er & _). apply VoteSet.reachable_inv in Hre.
  apply HeightVoteSet.majority_maj23 in Hm. exists hv, r, id', vs. split_and!; try done; [by apply VoteSet.maj_power|].
  intros k v Hk. pose proof (VoteSet.inv_accepted _ _ (proj1 Hre) _ _ Hk) as Hacc. split; [done|].
  destruct Hacc as (_ & ? & ? & _). split; congruence.
Qed.

End claims.

(** ** A network of four validators *)

Section example.
#[local] Existing Instances toy_keys Merkle.toy_hash toy_msg_codec toy_msg_codec_laws toy_blocks.

(** Validators with keys 1 to 4 and equal power; keys 1 to 3 are run by correct nodes, key
    4 is faulty and silent. *)
Inductive ex_node := N1 | N2 | N3.
Definition ex_key (i : ex_node) : Z := match i with N1 => 1 | N2 => 2 | N3 => 3 end.

Definition ex_vals : ValidatorSet :=
  match NewValidatorSet ((λ k : Z, NewValidator (k : PubKey) 10) <$> [1; 2; 3; 4]) with Done v => v | Panic _ => mkValidatorSet [] None 0 true end.
Definition ex_state : SMState := mkSM "chain" 1 0 0 (Some ex_vals) (Some ex_vals) [] (-1) 0 0 (mkSynchrony 0 0).
Definition ex_answers (i : ex_node) : Answers := {|
  a_Now := 100; a_Publish := true; a_Sync := true;
  a_ValidateBlock _ _ := true; a_ProcessProposal _ _ := Ok true;
  a_ApplyVerifiedBlock st id b := Ok (mkSM (sm_ChainID st) 1 (block_Height b) (block_Time b) (Some ex_vals) (Some ex_vals) [] (-1) 0 0 (mkSynchrony 0 0));
  a_CreateProposalBlock h st ec addr := Ok (Some (mkToyBlock h 50 [7; 7])); a_ExtendVote _ _ _ := Err ""%string;
  a_VerifyVoteExtension _ := true; a_LoadBlockMeta _ := None; a_LoadSeenCommit _ := None; a_LoadBlockCommit _ := None;
  a_LoadBlockExtendedCommit _ := None; a_GetPubKey := Ok (ex_key i : PubKey) |}.
Definition ex_config : ConsensusConfig := mkConfig 3000 500 1000 500 1000 500 1000 false true 0.

Definition ex_net (evs : list Event) (i : ex_node) : Node :=
  mkNode (λ _, ex_answers i) ex_config (λ m, Some (ex_key i :: m)) (λ p _, p) false ex_state 0 (Some PrivVal.NewFilePV) evs.

(** The messages the nodes have queued after the events. *)
Definition queued (evs : list Event) (i : ex_node) : list Event :=
  match final (ex_net evs i) with Some s => EMsg <$> sQueue s | None => [] end.
Definition ex_start : list Event :=
  match final (ex_net [] N1) with Some s => ETimeout <$> sTimeouts s | None => [] end.
Definition everyone (f : ex_node → list Event) : list Event := f N1 ++ f N2 ++ f N3.
(** What they queued since. *)
Definition fresh (before evs : list Event) : list Event :=
  everyone (λ i, drop (length (queued before i)) (queued evs i)).
(** Everybody enters round 0 and one node proposes; then all prevote; then all precommit. *)
Definition ex_proposed : list Event := ex_start ++ everyone (queued ex_start).
Definition ex_prevoted : list Event := ex_proposed ++ fresh ex_start ex_proposed.
Definition ex_precommitted : list Event := ex_prevoted ++ fresh ex_proposed ex_prevoted.

Definition ex_final (i : ex_node) : State :=
  match final (ex_net ex_precommitted i) with Some s => s | None => zero_state 0 None end.
Definition ex_owner (k : nat) : option ex_node := [N1; N2; N3] !! k.

(** *** Checking the hypotheses of agreement on given states *)

Definition tallies (s : State) : list HeightVoteSet := option_list (sVotes s) ++ sArchive s.
Lemma tallies_has s hv : has_votes s hv → hv ∈ tallies s.
Proof. unfold has_votes, tallies. destruct (sVotes s); set_solver. Qed.

Definition slot_votes (vs : VoteSet) : list (nat * Vote) := omap (λ p, pair p.1 <$> p.2) (imap pair (VoteSet.votes vs)).
Lemma slot_votes_lookup vs k v : VoteSet.votes vs !! k = Some (Some v) → (k, v) ∈ slot_votes vs.
Proof.
  intros Hk. apply list_elem_of_omap. exists (k, Some v). split; [|done]. apply list_elem_of_lookup. exists k.
  by rewrite list_lookup_imap, Hk.
Qed.

Definition all_counted (hv : HeightVoteSet) : list (nat * Vote) :=
  (map_to_list (HeightVoteSet.roundVoteSets hv)) ≫= λ p,
    slot_votes (HeightVoteSet.Prevotes_ p.2) ++ slot_votes (HeightVoteSet.Precommits_ p.2).
Lemma counted_all hv r t k v : counted hv r t k v → (k, v) ∈ all_counted hv.
Proof.
  intros (vs & Hg & Hk). apply slot_votes_lookup in Hk. unfold HeightVoteSet.getVoteSet in Hg.
  destruct (HeightVoteSet.roundVoteSets hv !! r) as [rvs|] eqn:Er; [|done]. apply list_elem_of_bind. exists (r, rvs).
  split; [|by apply elem_of_map_to_list]. apply elem_of_app.
  destruct (_ =? _); [injection Hg as <-; by left|]. destruct (_ =? _); [injection Hg as <-; by right|done].
Qed.

Definition same_sign_bytes (c : string) (w v : Vote) : bool :=
  match VoteSignBytes c w, VoteSignBytes c v with Done x, Done y => bool_decide (x = y) | _, _ => false end.
Lemma same_sign_bytes_eq c w v : same_sign_bytes c w v = true → VoteSignBytes c w = VoteSignBytes c v.
Proof. unfold same_sign_bytes. do 2 destruct (VoteSignBytes _ _); try done. by intros ->%bool_decide_eq_true. Qed.

Definition check_node (h : Z) (i : ex_node) : bool :=
  forallb (λ hv, negb (hHeight hv =? h) ||
    bool_decide (Validators (HeightVoteSet.hValSet hv) = Validators ex_vals) &&
    forallb (λ p, match ex_owner p.1 with
                  | Some j => existsb (λ w, same_sign_bytes (HeightVoteSet.hChainID hv) w p.2) (sent (ex_final j))
                  | None => true
                  end) (all_counted hv)) (tallies (ex_final i)).

Lemma check_node_ok h i hv :
  check_node h i = true → tallied ex_final h i hv →
  Validators (HeightVoteSet.hValSet hv) = Validators ex_vals ∧
  ∀ r t k v j, counted hv r t k v → ex_owner k = Some j →
    ∃ w, w ∈ sent (ex_final j) ∧ VoteSignBytes (HeightVoteSet.hChainID hv) w = VoteSignBytes (HeightVoteSet.hChainID hv) v.
Proof.
  unfold check_node. intros Hc [Hv%tallies_has Hh]. rewrite forallb_forall in Hc. apply list_elem_of_In in Hv.
  specialize (Hc hv Hv). rewrite Hh, Z.eqb_refl in Hc. cbn [negb orb] in Hc.
  apply andb_true_iff in Hc as [Hvals%bool_decide_eq_true Hall]. split; [done|]. intros r t k v j Hk%counted_all Ho.
  rewrite forallb_forall in Hall. apply list_elem_of_In in Hk. specialize (Hall _ Hk). cbn [fst snd] in Hall. rewrite Ho in Hall.
  apply existsb_exists in Hall as (w & Hw%list_elem_of_In & Hs%same_sign_bytes_eq). eauto.
Qed.

(** *** Witnesses *)

Lemma ex_runs i : final (ex_net ex_precommitted i) = Some (ex_final i).
Proof.
  assert (match final (ex_net ex_precommitted i) with Some _ => true | None => false end = true) as Hf
    by (destruct i; vm_compute; reflexivity).
  unfold ex_final. by destruct (final _).
Qed.

Lemma ex_sm_ok c h t : sm_ok (mkSM c 1 h t (Some ex_vals) (Some ex_vals) [] (-1) 0 0 (mkSynchrony 0 0)).
Proof. exists ex_vals. split; [reflexivity|]. split; [by_decide|]. intros E. vm_compute in E. discriminate E. Qed.

Lemma ex_sound i : sound (ex_net ex_precommitted i).
Proof.
  split_and!; try done.
  - intros k st id b st' [= <-]. apply ex_sm_ok.
  - apply ex_sm_ok.
Qed.

Lemma ex_checked i : check_node 1 i = true.
Proof. destruct i; vm_compute; reflexivity. Qed.

Definition ex_committed (i : ex_node) : Z * BlockID * Block :=
  match sCommitted (ex_final i) with c :: _ => c | [] => (0, nil_BlockID, mkToyBlock 0 0 []) end.

Lemma agreement_witness :
  block_Hash (ex_committed N1).2 = block_Hash (ex_committed N3).2 ∧ length (sCommitted (ex_final N1)) = 1%nat.
Proof.
  split; [|vm_compute; reflexivity].
  refine (agreement (ex_net ex_precommitted) ex_final ex_owner 1 (Validators ex_vals) ex_sound ex_runs _ _ _
    N1 N3 (ex_committed N1).1.2 (ex_committed N3).1.2 (ex_committed N1).2 (ex_committed N3).2 _ _).
  - intros i hv Ht. by apply (check_node_ok 1 i hv (ex_checked i)).
  - intros i hv r t k v j Ht. destruct (check_node_ok 1 i hv (ex_checked i) Ht) as [_ Ha]. apply Ha.
  - vm_compute. reflexivity.
  - apply list_elem_of_lookup. exists 0%nat. vm_compute. reflexivity.
  - apply list_elem_of_lookup. exists 0%nat. vm_compute. reflexivity.
Defined.

Lemma votes_follow_the_lock_witness :
  length (sent (ex_final N1)) = 2%nat ∧
  ∀ v, v ∈ sent (ex_final N1) → is_precommit v →
    ∃ hv, has_votes (ex_final N1) hv ∧ hHeight hv = Votes.Height v ∧ polka hv (Votes.Round v) (vBlockID v).
Proof.
  split; [vm_compute; reflexivity|].
  exact (proj1 (proj2 (votes_follow_the_lock (ex_net ex_precommitted N1) (ex_final N1) (ex_sound N1) (ex_runs N1)))).
Defined.

Lemma commits_have_a_quorum_witness :
  ∃ hv r id' vs, has_votes (ex_final N2) hv ∧ hHeight hv = 1 ∧ HeightVoteSet.getVoteSet hv r PrecommitType = Done (Some vs) ∧
    Votes.Hash id' = block_Hash (ex_committed N2).2 ∧
    2 * VoteSet.total vs < 3 * VoteSet.power_of (VoteSet.for_key (Key id')) (VoteSet.votes vs) (VoteSet.vals_of vs) ∧
    ∀ k v, VoteSet.votes vs !! k = Some (Some v) → VoteSet.accepted vs k v ∧ Votes.Height v = 1 ∧ Votes.Round v = r.
Proof.
  refine (commits_have_a_quorum (ex_net ex_precommitted N2) (ex_final N2) 1 (ex_committed N2).1.2 (ex_committed N2).2
    (ex_sound N2) (ex_runs N2) _).
  apply list_elem_of_lookup. exists 0%nat. vm_compute. reflexivity.
Defined.

End example.


End Agreement.
