(* ===== verification/Header.v ===== *)
(** * Header: block headers and the hashes that bind them

    [Header] of [types/block.go] with its basic validation and hash, [SignedHeader] and
    [LightBlock] of [types/light.go], and the hash of a validator set.  Both hashes are Merkle roots, and
    both are shown to determine what was hashed, up to a collision of SHA-256 that
    can be computed. *)

From S2P Require Import Prelude BitArray Merkle Crypto ValidatorSet Votes Commit.
Import ValidatorSet.ValidatorSet Votes.Votes Commit.Commit.

Local Open Scope Z_scope.

Module Header.

(** The protobuf encodings of the values that are hashed.  [StdTimeMarshal] fails outside
    the range of protobuf timestamps, and a key of an unsupported type has no encoding. *)
Class HeaderCodec `{PubKeyOps} := {
  version_Marshal : Z → Z → list Z;
  StdTimeMarshal : Z → option (list Z);
  blockID_Marshal : BlockID → list Z;
  StringValue : string → list Z;
  Int64Value : Z → list Z;
  BytesValue : list Z → list Z;
  SimpleValidator_Marshal : PubKey → Z → option (list Z)
}.

(** Encodings of different values differ, and only empty values have an empty one. *)
Class HeaderCodecLaws `{HeaderCodec} : Prop := {
  version_inj b a b' a' : version_Marshal b a = version_Marshal b' a' → b = b' ∧ a = a';
  time_inj t t' x : StdTimeMarshal t = Some x → StdTimeMarshal t' = Some x → t = t';
  blockID_inj :: Inj (=) (=) blockID_Marshal;
  string_inj :: Inj (=) (=) StringValue;
  string_nonempty s : s ≠ ""%string → StringValue s ≠ [];
  int64_inj :: Inj (=) (=) Int64Value;
  bytes_inj :: Inj (=) (=) BytesValue;
  bytes_nonempty b : b ≠ [] → BytesValue b ≠ [];
  validator_inj k p k' p' x : SimpleValidator_Marshal k p = Some x → SimpleValidator_Marshal k' p' = Some x → k = k' ∧ p = p'
}.

(** [cdcEncode] of a string, a number and bytes. *)
Section codec.
Context `{HeaderCodec}.
Definition cdcEncode_string (s : string) : list Z := match s with EmptyString => [] | _ => StringValue s end.
Definition cdcEncode_int64 (z : Z) : list Z := Int64Value z.
Definition cdcEncode_bytes (b : list Z) : list Z := match b with [] => [] | _ => BytesValue b end.

Lemma encode_string_inj `{!HeaderCodecLaws} s s' : cdcEncode_string s = cdcEncode_string s' → s = s'.
Proof.
  intros E. destruct (decide (s = ""%string)) as [->|Hs], (decide (s' = ""%string)) as [->|Hs']; [done|..].
  - cbn in E. destruct s'; [done|]. cbn [cdcEncode_string] in E. by destruct (string_nonempty _ Hs').
  - cbn in E. destruct s; [done|]. cbn [cdcEncode_string] in E. by destruct (string_nonempty _ Hs).
  - destruct s, s'; try done. cbn [cdcEncode_string] in E. by apply string_inj.
Qed.
Lemma encode_bytes_inj `{!HeaderCodecLaws} b b' : cdcEncode_bytes b = cdcEncode_bytes b' → b = b'.
Proof.
  intros E. destruct b as [|x b], b' as [|x' b']; cbn [cdcEncode_bytes] in E; [done| | |by apply bytes_inj].
  - symmetry in E. by apply bytes_nonempty in E.
  - by apply bytes_nonempty in E.
Qed.
End codec.

(** ** Headers *)

Definition BlockProtocol : Z := 11.
Definition MaxChainIDLen : Z := 50.

Record Header := mkHeader {
  VersionBlock : Z; VersionApp : Z; hChainID : string; hHeight : Z; hTime : Z; LastBlockID : BlockID;
  LastCommitHash : list Z; DataHash : list Z; ValidatorsHash : list Z; NextValidatorsHash : list Z;
  ConsensusHash : list Z; AppHash : list Z; LastResultsHash : list Z; EvidenceHash : list Z; ProposerAddress : list Z }.

Definition header_ValidateBasic (h : Header) : option string :=
  if negb (VersionBlock h =? BlockProtocol) then Some "block protocol is incorrect"%string
  else if MaxChainIDLen <? Z.of_nat (String.length (hChainID h)) then Some "chainID is too long"%string
  else if hHeight h <? 0 then Some "negative Height"%string
  else if hHeight h =? 0 then Some "zero Height"%string
  else if negb (block_ValidateBasic (LastBlockID h)) then Some "wrong LastBlockID"%string
  else if negb (ValidateHash (LastCommitHash h)) then Some "wrong LastCommitHash"%string
  else if negb (ValidateHash (DataHash h)) then Some "wrong DataHash"%string
  else if negb (ValidateHash (EvidenceHash h)) then Some "wrong EvidenceHash"%string
  else if negb (zlen (ProposerAddress h) =? AddressSize) then Some "invalid ProposerAddress length"%string
  else if negb (ValidateHash (ValidatorsHash h)) then Some "wrong ValidatorsHash"%string
  else if negb (ValidateHash (NextValidatorsHash h)) then Some "wrong NextValidatorsHash"%string
  else if negb (ValidateHash (ConsensusHash h)) then Some "wrong ConsensusHash"%string
  else if negb (ValidateHash (LastResultsHash h)) then Some "wrong LastResultsHash"%string
  else None.

Section hash.
Context `{PubKeyOps, !HeaderCodec, Merkle.HashOps}.

(** The fourteen leaves of the header's Merkle tree. *)
Definition header_items (h : Header) (pbt : list Z) : list (list Z) :=
  [version_Marshal (VersionBlock h) (VersionApp h); cdcEncode_string (hChainID h); cdcEncode_int64 (hHeight h); pbt;
   blockID_Marshal (LastBlockID h); cdcEncode_bytes (LastCommitHash h); cdcEncode_bytes (DataHash h);
   cdcEncode_bytes (ValidatorsHash h); cdcEncode_bytes (NextValidatorsHash h); cdcEncode_bytes (ConsensusHash h);
   cdcEncode_bytes (AppHash h); cdcEncode_bytes (LastResultsHash h); cdcEncode_bytes (EvidenceHash h);
   cdcEncode_bytes (ProposerAddress h)].

(** [Hash]; the nil result is the empty list. *)
Definition header_Hash (h : option Header) : list Z :=
  match h with
  | None => []
  | Some h =>
      if zlen (ValidatorsHash h) =? 0 then []
      else match StdTimeMarshal (hTime h) with
           | None => []
           | Some pbt => Merkle.HashFromByteSlices (header_items h pbt)
           end
  end.

(** ** Validator sets *)

Definition validator_Bytes (v : Validator) : outcome (list Z) :=
  match ValPubKey v with
  | None => Panic "unsupported key"
  | Some pk => match SimpleValidator_Marshal pk (VotingPower v) with Some bz => Done bz | None => Panic "unsupported key" end
  end.

Fixpoint validators_bytes (l : list Validator) : outcome (list (list Z)) :=
  match l with
  | [] => Done []
  | v :: l => bz ← validator_Bytes v; rest ← validators_bytes l; Done (bz :: rest)
  end.

Definition vals_Hash (vals : ValidatorSet) : outcome (list Z) :=
  bzs ← validators_bytes (Validators vals); Done (Merkle.HashFromByteSlices bzs).

(** [binary.PutUvarint] of a 64-bit number: at most ten bytes, seven bits each. *)
Fixpoint uvarint (fuel : nat) (x : Z) : list Z :=
  match fuel with
  | O => []
  | S fuel => if x <? 128 then [x] else Z.lor (Z.land x 255) 128 :: uvarint fuel (Z.shiftr x 7)
  end.
Definition MaxVarintLen64 : nat := 10.

(** [binary.PutVarint]: the sign goes to the lowest bit. *)
Definition varint (x : Z) : list Z :=
  let ux := (x * 2) mod 2 ^ 64 in
  uvarint MaxVarintLen64 (if x <? 0 then 2 ^ 64 - 1 - ux else ux).

(** The loop of [ProposerPriorityHash]: every encoding is put at the start of the buffer. *)
Fixpoint put_priorities (l : list Validator) (buf : list Z) (total : nat) : list Z * nat :=
  match l with
  | [] => (buf, total)
  | v :: l =>
      let bz := varint (ProposerPriority v) in
      put_priorities l (bz ++ drop (length bz) buf) (total + length bz)
  end.

Definition ProposerPriorityHash (vals : ValidatorSet) : list Z :=
  if zlen (Validators vals) =? 0 then []
  else
    let buf := replicate (MaxVarintLen64 * length (Validators vals)) 0 in
    let '(buf, total) := put_priorities (Validators vals) buf 0 in
    Merkle.Sum (take total buf).

(** [keytypes.IsSupported]; BLS keys are a build option. *)
Definition IsSupported (blsEnabled : bool) (keyType : string) : bool :=
  bool_decide (keyType = "ed25519"%string) || bool_decide (keyType = "secp256k1"%string) ||
  (blsEnabled && bool_decide (keyType = "bls12_381"%string)).

Definition val_ValidateBasic (bls : bool) (v : option Validator) : option string :=
  match v with
  | None => Some "nil validator"%string
  | Some v =>
      match ValPubKey v with
      | None => Some "validator does not have a public key"%string
      | Some pk =>
          if VotingPower v <? 0 then Some "validator has negative voting power"%string
          else if negb (bytes_equal (Address v) (pk_Address pk)) then Some "validator address is incorrectly derived from pubkey"%string
          else if negb (IsSupported bls (pk_Type pk)) then Some "unsupported public key type"%string
          else None
      end
  end.

Definition vals_ValidateBasic (bls : bool) (vals : option ValidatorSet) : option string :=
  match vals with
  | None => Some "validator set is nil or empty"%string
  | Some vals =>
      if zlen (Validators vals) =? 0 then Some "validator set is nil or empty"%string
      else
        match first_error (λ v, val_ValidateBasic bls (Some v)) (Validators vals) with
        | Some e => Some e
        | None =>
            match val_ValidateBasic bls (Proposer vals), Proposer vals with
            | Some e, _ => Some e
            | None, Some p =>
                if existsb (λ v, bytes_equal (Address v) (Address p)) (Validators vals) then None
                else Some "proposer not in validator set"%string
            | None, None => None
            end
        end
  end.

(** ** Signed headers and light blocks *)

Record SignedHeader := mkSignedHeader { shHeader : option Header; shCommit : option Commit }.

Definition sh_ValidateBasic (sh : SignedHeader) (chainID : string) : option string :=
  match shHeader sh, shCommit sh with
  | None, _ => Some "missing header"%string
  | _, None => Some "missing commit"%string
  | Some h, Some c =>
      match header_ValidateBasic h with
      | Some e => Some e
      | None =>
          match commit_ValidateBasic c with
          | Some e => Some e
          | None =>
              if negb (bool_decide (hChainID h = chainID)) then Some "header belongs to another chain"%string
              else if negb (cHeight c =? hHeight h) then Some "header and commit height mismatch"%string
              else if negb (bytes_equal (header_Hash (Some h)) (Votes.Hash (cBlockID c)))
              then Some "commit signs another block"%string
              else None
          end
      end
  end.

(** Both pointers of a light block may be nil. *)
Record LightBlock := mkLightBlock { lbSignedHeader : option SignedHeader; lbValidatorSet : option ValidatorSet }.

Definition lb_ValidateBasic (bls : bool) (lb : LightBlock) (chainID : string) : outcome (option string) :=
  match lbSignedHeader lb, lbValidatorSet lb with
  | None, _ => Done (Some "missing signed header"%string)
  | _, None => Done (Some "missing validator set"%string)
  | Some sh, Some vals =>
      match sh_ValidateBasic sh chainID, shHeader sh with
      | Some e, _ => Done (Some e)
      | None, None => Panic "nil pointer dereference"
      | None, Some h =>
          match vals_ValidateBasic bls (Some vals) with
          | Some e => Done (Some e)
          | None =>
              valSetHash ← vals_Hash vals;
              Done (if bytes_equal (ValidatorsHash h) valSetHash then None
                    else Some "expected validator hash of header to match validator set hash"%string)
          end
      end
  end.

End hash.

(** ** What the hashes determine *)

Section binding.
Context `{PubKeyOps, !HeaderCodec, !HeaderCodecLaws, Merkle.HashLaws}.

Lemma items_inj h h' x x' :
  StdTimeMarshal (hTime h) = Some x → StdTimeMarshal (hTime h') = Some x' → header_items h x = header_items h' x' → h = h'.
Proof.
  intros Ex Ex' E. unfold header_items, cdcEncode_int64 in E. injection E as E1 E2 E3 <- E5 E6 E7 E8 E9 E10 E11 E12 E13 E14.
  apply version_inj in E1 as [? ?]. apply encode_string_inj in E2. apply int64_inj in E3.
  pose proof (time_inj _ _ _ Ex Ex'). apply blockID_inj in E5.
  apply encode_bytes_inj in E6, E7, E8, E9, E10, E11, E12, E13, E14. destruct h, h'. cbn in *. by subst.
Qed.

(** The strings to compare when two headers have one hash. *)
Definition header_collision (h h' : Header) : list Z * list Z :=
  match StdTimeMarshal (hTime h), StdTimeMarshal (hTime h') with
  | Some x, Some x' => Merkle.root_collision (header_items h x) (header_items h' x')
  | _, _ => ([], [])
  end.

Lemma header_binds h h' :
  header_Hash (Some h) = header_Hash (Some h') → header_Hash (Some h) ≠ [] → h = h' ∨ Merkle.collision (header_collision h h').
Proof.
  unfold header_Hash, header_collision. intros E Hne. destruct (zlen (ValidatorsHash h) =? 0); [done|].
  destruct (StdTimeMarshal (hTime h)) as [x|] eqn:Ex; [|done].
  destruct (zlen (ValidatorsHash h') =? 0); [by rewrite E in Hne|]. destruct (StdTimeMarshal (hTime h')) as [x'|] eqn:Ex'; [|by rewrite E in Hne].
  destruct (Merkle.roots_bind _ _ E) as [Ei|?]; [left|by right]. by eapply items_inj.
Qed.

(** What a validator contributes to the hash of its set. *)
Definition hashed (v : Validator) : option PubKey * Z := (ValPubKey v, VotingPower v).

Lemma validators_bytes_inj l l' x : validators_bytes l = Done x → validators_bytes l' = Done x → hashed <$> l = hashed <$> l'.
Proof.
  revert l' x. induction l as [|v l IH]; intros [|v' l'] x Ex Ex'; cbn [validators_bytes] in *.
  - done.
  - injection Ex as <-. apply outcome_bind_Done in Ex' as (bz & _ & Ex'). by apply outcome_bind_Done in Ex' as (? & _ & ?).
  - injection Ex' as <-. apply outcome_bind_Done in Ex as (bz & _ & Ex). by apply outcome_bind_Done in Ex as (? & _ & ?).
  - apply outcome_bind_Done in Ex as (bz & Eb & Ex), Ex' as (bz' & Eb' & Ex').
    apply outcome_bind_Done in Ex as (rest & Er & [= <-]), Ex' as (rest' & Er' & [= -> ->]).
    rewrite !fmap_cons, (IH l' rest Er Er'). f_equal. unfold validator_Bytes, hashed in *.
    destruct (ValPubKey v) as [k|]; [|done]. destruct (ValPubKey v') as [k'|]; [|done].
    destruct (SimpleValidator_Marshal k _) as [b|] eqn:Em; [|done]. destruct (SimpleValidator_Marshal k' _) as [b'|] eqn:Em'; [|done].
    injection Eb as ->. injection Eb' as ->. destruct (validator_inj _ _ _ _ _ Em Em') as [-> ->]. done.
Qed.

(** The strings to compare when two validator sets have one hash. *)
Definition vals_collision (a b : ValidatorSet) : list Z * list Z :=
  match validators_bytes (Validators a), validators_bytes (Validators b) with
  | Done x, Done y => Merkle.root_collision x y
  | _, _ => ([], [])
  end.

Lemma vals_bind a b x :
  vals_Hash a = Done x → vals_Hash b = Done x →
  hashed <$> Validators a = hashed <$> Validators b ∨ Merkle.collision (vals_collision a b).
Proof.
  unfold vals_Hash, vals_collision. intros (xs & Ex & [= <-])%outcome_bind_Done (ys & Ey & [= E])%outcome_bind_Done.
  rewrite Ex, Ey. symmetry in E. destruct (Merkle.roots_bind _ _ E) as [->|?]; [left|by right]. by eapply validators_bytes_inj.
Qed.

Lemma vals_Hash_length a x : vals_Hash a = Done x → length x = 32%nat.
Proof. unfold vals_Hash. intros (xs & _ & [= <-])%outcome_bind_Done. apply Merkle.HashFromByteSlices_length. Qed.

(** the hash of a header determines every field of it, and the hash of a validator
    set determines the keys and powers of its members in order; otherwise two different
    strings with the same SHA-256 digest can be computed. *)
Theorem hashes_bind h h' a b x :
  header_Hash (Some h) = header_Hash (Some h') → header_Hash (Some h) ≠ [] →
  vals_Hash a = Done x → vals_Hash b = Done x →
  (h = h' ∨ Merkle.collision (header_collision h h')) ∧
  (hashed <$> Validators a = hashed <$> Validators b ∨ Merkle.collision (vals_collision a b)).
Proof. intros Eh Hne Ea Eb. split; [by apply header_binds|by apply (vals_bind a b x)]. Qed.

End binding.

(** ** What the hash of the priorities misses *)

Section priorities.
Context `{PubKeyOps, Merkle.HashOps}.

(** Two lists whose priorities have encodings of the same lengths, none longer than [k]. *)
Definition same_lengths (k : nat) (v w : Validator) : Prop :=
  length (varint (ProposerPriority v)) = length (varint (ProposerPriority w)) ∧ (length (varint (ProposerPriority v)) ≤ k)%nat.

#[export] Instance same_lengths_dec k v w : Decision (same_lengths k v w).
Proof. unfold same_lengths. apply _. Defined.

Lemma put_priorities_app l l' buf total :
  put_priorities (l ++ l') buf total =
  put_priorities l' (put_priorities l buf total).1 (put_priorities l buf total).2.
Proof. revert buf total. induction l as [|v l IH]; intros buf total; [done|]. apply IH. Qed.

Lemma put_priorities_tail k l l' buf buf' total :
  Forall2 (same_lengths k) l l' → drop k buf = drop k buf' →
  drop k (put_priorities l buf total).1 = drop k (put_priorities l' buf' total).1 ∧
  (put_priorities l buf total).2 = (put_priorities l' buf' total).2.
Proof.
  intros Hf. revert buf buf' total. induction Hf as [|v w l l' [El Hk] Hf IH]; intros buf buf' total E; [done|].
  cbn [put_priorities]. rewrite <-El. apply IH.
  rewrite !drop_app_ge by lia. rewrite <-El, !drop_drop.
  replace (_ + _)%nat with k by lia. done.
Qed.

Lemma priorities_overwritten l l' v buf total :
  Forall2 (same_lengths (length (varint (ProposerPriority v)))) l l' →
  put_priorities (l ++ [v]) buf total = put_priorities (l' ++ [v]) buf total.
Proof.
  intros Hf. destruct (put_priorities_tail _ _ _ buf buf total Hf eq_refl) as [Eb Et].
  rewrite !put_priorities_app. cbn [put_priorities]. by rewrite Eb, Et.
Qed.

(** two validator sets with different priorities have the same
    [ProposerPriorityHash] whenever the last priorities agree and the encodings of the
    others have the same lengths, at most the length of the last. *)
Theorem ProposerPriorityHash_blind a b l l' v :
  Validators a = l ++ [v] → Validators b = l' ++ [v] →
  Forall2 (same_lengths (length (varint (ProposerPriority v)))) l l' →
  ProposerPriorityHash a = ProposerPriorityHash b.
Proof.
  intros Ea Eb Hf. unfold ProposerPriorityHash. rewrite Ea, Eb. unfold zlen.
  rewrite !length_app, (Forall2_length _ _ _ Hf). by rewrite (priorities_overwritten _ _ _ _ _ Hf).
Qed.

End priorities.

(** ** Concrete headers *)

(** A codec on lists of numbers. *)
Definition toy_validator (k p : Z) : option (list Z) := Some [k; p].
Definition toy_header_codec : @HeaderCodec toy_keys :=
  @Build_HeaderCodec toy_keys
    (λ b a, [b; a]) (λ t, Some [t])
    (λ b, zlen (Votes.Hash b) :: Votes.Hash b ++ psh_Total (PSH b) :: psh_Hash (PSH b))
    (λ s, 10 :: ((λ a, Z.of_nat (Ascii.nat_of_ascii a)) <$> String.list_ascii_of_string s))
    (λ z, [z]) (λ b, 10 :: b) toy_validator.

Lemma toy_header_codec_laws : @HeaderCodecLaws toy_keys toy_header_codec.
Proof.
  split; simpl; try done.
  - by intros ???? [=].
  - by intros ??? [= <-] [=].
  - intros [h [t ph]] [h' [t' ph']]. simpl. intros [= El E]. unfold zlen in El. apply app_inj_1 in E as [-> [= -> ->]]; [done|lia].
  - intros s s' [= E]. rewrite <-(String.string_of_list_ascii_of_string s), <-(String.string_of_list_ascii_of_string s').
    f_equal. refine (list_fmap_eq_inj _ _ _ _ E). intros a a' Ea%Nat2Z.inj. by rewrite <-(Ascii.ascii_nat_embedding a), Ea, Ascii.ascii_nat_embedding.
  - by intros ?? [=].
  - by intros ?? [=].
  - by intros ????? [= <-] [=].
Qed.

Section examples.
#[local] Existing Instances toy_keys Merkle.toy_hash Merkle.toy_hash_laws toy_header_codec toy_header_codec_laws.

(** The header of height [h] and time [t] that names the set [v] and the next set [v']. *)
Definition ex_header (h t : Z) (v v' : list Z) : Header :=
  mkHeader BlockProtocol 1 "chain" h t (ex_block 1) [] [] v v' [] [5] [] [] (toy_address 1).

Lemma hashes_bind_witness :
  (ex_header 5 9 [1] [2] = ex_header 5 9 [1] [2] ∨ Merkle.collision (header_collision (ex_header 5 9 [1] [2]) (ex_header 5 9 [1] [2]))) ∧
  (hashed <$> Validators ex_vals = hashed <$> Validators ex_vals ∨ Merkle.collision (vals_collision ex_vals ex_vals)).
Proof.
  destruct (vals_Hash ex_vals) as [x|] eqn:E; [|by vm_compute in E].
  refine (hashes_bind (ex_header 5 9 [1] [2]) (ex_header 5 9 [1] [2]) ex_vals ex_vals x eq_refl _ E E). by vm_compute.
Defined.

(** Two sets of three validators that disagree on the next proposer and have one hash. *)
Definition ex_prio (ps : list Z) : ValidatorSet :=
  mkValidatorSet (imap (λ i p, mkValidator (toy_address (Z.of_nat i)) (Some (Z.of_nat i)) 1 p) ps) None 0 true.

Lemma ProposerPriorityHash_blind_witness :
  ProposerPriorityHash (ex_prio [60; -50; -10]) = ProposerPriorityHash (ex_prio [-50; 60; -10]).
Proof.
  refine (ProposerPriorityHash_blind (ex_prio [60; -50; -10]) (ex_prio [-50; 60; -10]) (take 2 (Validators (ex_prio [60; -50; -10]))) (take 2 (Validators (ex_prio [-50; 60; -10])))
    (mkValidator (toy_address 2) (Some 2) 1 (-10)) eq_refl eq_refl _). by_decide.
Defined.

End examples.

End Header.
