(* ===== verification/Light.v ===== *)
(** * Light: [light/verifier.go], the checks of the light client

    A new signed header is accepted from a trusted one when the trusted one has not
    expired, the new one is valid, higher, later and not from the future, its commit is
    signed by the validators it names, and it continues the trusted header: directly, by
    the next validators, or over a gap, by a share of the trusted validators.  Times are
    nanoseconds.  A nil header inside a signed header makes an access panic. *)

From S2P Require Import Prelude BitArray Merkle Crypto ValidatorSet Votes Commit Validation Header.
Import ValidatorSet.ValidatorSet Votes.Votes Commit.Commit Validation.Validation Header.Header.

Local Open Scope Z_scope.

Module Light.

(** Why a header is invalid. *)
Inductive header_reason :=
| FailedBasic (e : string) | NotHigher | NotLater | FromTheFuture | OtherValidators
| BadCommit (e : verify_error)
| AnotherChain | NotEarlier | NotLastBlock.

Inductive light_error :=
| ErrNotNonAdjacent | ErrNotAdjacent
| ErrOldHeaderExpired (at_ now : Z)
| ErrInvalidHeader (r : header_reason)
| ErrNewValSetCantBeTrusted (got needed : Z)
| ErrCommit (e : verify_error)
| ErrNextValidators.

#[export] Instance light_error_eq_dec : EqDecision light_error.
Proof. unfold EqDecision. intros x y. unfold Decision. repeat decide equality. Defined.

Definition DefaultTrustLevel : Fraction := mkFraction 1 3.

(** The product is a [uint64]. *)
Definition ValidateTrustLevel (lvl : Fraction) : bool :=
  negb (((Numerator lvl * 3) mod 2 ^ 64 <? Denominator lvl) || (Denominator lvl <? Numerator lvl) || (Denominator lvl =? 0)).

Section verifier.
Context `{PubKeyOps, SignCodec, !BatchOps, !HeaderCodec, Merkle.HashOps}.

(** A field of the header embedded in a signed header. *)
Definition header_of (sh : SignedHeader) : outcome Header :=
  match shHeader sh with Some h => Done h | None => Panic "nil pointer dereference" end.

Definition HeaderExpired (h : Header) (trustingPeriod now : Z) : bool := negb (now <? hTime h + trustingPeriod).

Definition verifyNewHeaderAndVals (untrustedHeader : SignedHeader) (untrustedVals : option ValidatorSet)
    (trusted : Header) (now maxClockDrift : Z) : outcome (option header_reason) :=
  match sh_ValidateBasic untrustedHeader (hChainID trusted) with
  | Some e => Done (Some (FailedBasic e))
  | None =>
      h ← header_of untrustedHeader;
      if hHeight h <=? hHeight trusted then Done (Some NotHigher)
      else if negb (hTime trusted <? hTime h) then Done (Some NotLater)
      else if negb (hTime h <? now + maxClockDrift) then Done (Some FromTheFuture)
      else
        match untrustedVals with
        | None => Panic "nil pointer dereference"
        | Some vals =>
            vh ← vals_Hash vals;
            if negb (bytes_equal (ValidatorsHash h) vh) then Done (Some OtherValidators) else Done None
        end
  end.

Definition verify_new_commit (untrustedHeader : SignedHeader) (untrustedVals : option ValidatorSet)
    (trusted h : Header) : outcome (option light_error) :=
  match shCommit untrustedHeader with
  | None => Panic "nil pointer dereference"
  | Some c =>
      r ← VerifyCommitLight (hChainID trusted) untrustedVals (cBlockID c) (hHeight h) (Some c);
      Done (match r with Some e => Some (ErrInvalidHeader (BadCommit e)) | None => None end)
  end.

Definition VerifyNonAdjacent (trustedHeader : SignedHeader) (trustedVals : option ValidatorSet)
    (untrustedHeader : SignedHeader) (untrustedVals : option ValidatorSet)
    (trustingPeriod now maxClockDrift : Z) (trustLevel : Fraction) : outcome (option light_error) :=
  h ← header_of untrustedHeader;
  t ← header_of trustedHeader;
  if hHeight h =? wrap64 (hHeight t + 1) then Done (Some ErrNotNonAdjacent)
  else if HeaderExpired t trustingPeriod now then Done (Some (ErrOldHeaderExpired (hTime t + trustingPeriod) now))
  else
    r ← verifyNewHeaderAndVals untrustedHeader untrustedVals t now maxClockDrift;
    match r with
    | Some e => Done (Some (ErrInvalidHeader e))
    | None =>
        r ← VerifyCommitLightTrusting (hChainID t) trustedVals (shCommit untrustedHeader) trustLevel;
        match r with
        | Some (ErrNotEnoughVotingPowerSigned got needed) => Done (Some (ErrNewValSetCantBeTrusted got needed))
        | Some e => Done (Some (ErrCommit e))
        | None => verify_new_commit untrustedHeader untrustedVals t h
        end
    end.

Definition VerifyAdjacent (trustedHeader untrustedHeader : SignedHeader) (untrustedVals : option ValidatorSet)
    (trustingPeriod now maxClockDrift : Z) : outcome (option light_error) :=
  h ← header_of untrustedHeader;
  t ← header_of trustedHeader;
  if negb (hHeight h =? wrap64 (hHeight t + 1)) then Done (Some ErrNotAdjacent)
  else if HeaderExpired t trustingPeriod now then Done (Some (ErrOldHeaderExpired (hTime t + trustingPeriod) now))
  else
    r ← verifyNewHeaderAndVals untrustedHeader untrustedVals t now maxClockDrift;
    match r with
    | Some e => Done (Some (ErrInvalidHeader e))
    | None =>
        if negb (bytes_equal (ValidatorsHash h) (NextValidatorsHash t)) then Done (Some ErrNextValidators)
        else verify_new_commit untrustedHeader untrustedVals t h
    end.

Definition Verify (trustedHeader : SignedHeader) (trustedVals : option ValidatorSet)
    (untrustedHeader : SignedHeader) (untrustedVals : option ValidatorSet)
    (trustingPeriod now maxClockDrift : Z) (trustLevel : Fraction) : outcome (option light_error) :=
  h ← header_of untrustedHeader;
  t ← header_of trustedHeader;
  if negb (hHeight h =? wrap64 (hHeight t + 1))
  then VerifyNonAdjacent trustedHeader trustedVals untrustedHeader untrustedVals trustingPeriod now maxClockDrift trustLevel
  else VerifyAdjacent trustedHeader untrustedHeader untrustedVals trustingPeriod now maxClockDrift.

Definition VerifyBackwards (untrusted trusted : option Header) : outcome (option light_error) :=
  match untrusted, trusted with
  | Some u, Some t =>
      match header_ValidateBasic u with
      | Some e => Done (Some (ErrInvalidHeader (FailedBasic e)))
      | None =>
          if negb (bool_decide (hChainID u = hChainID t)) then Done (Some (ErrInvalidHeader AnotherChain))
          else if negb (hTime u <? hTime t) then Done (Some (ErrInvalidHeader NotEarlier))
          else if negb (bytes_equal (header_Hash (Some u)) (Votes.Hash (LastBlockID t)))
          then Done (Some (ErrInvalidHeader NotLastBlock))
          else Done None
      end
  | None, _ => Panic "nil pointer dereference"
  | Some u, None =>
      match header_ValidateBasic u with
      | Some e => Done (Some (ErrInvalidHeader (FailedBasic e)))
      | None => Panic "nil pointer dereference"
      end
  end.

End verifier.
(** ** Trust levels *)

Lemma trust_level_sound lvl :
  0 ≤ Numerator lvl → ValidateTrustLevel lvl = true → 0 < Denominator lvl ≤ 3 * Numerator lvl ∧ Numerator lvl ≤ Denominator lvl.
Proof.
  unfold ValidateTrustLevel. intros Hn Hv. apply negb_true_iff in Hv. rewrite !orb_false_iff, !Z.ltb_ge, Z.eqb_neq in Hv.
  destruct Hv as [[Hm Hd] Hz]. pose proof (Z.mod_le (Numerator lvl * 3) (2 ^ 64) ltac:(lia) ltac:(lia)). lia.
Qed.

(** every accepted trust level lies in [1/3, 1], although the product wraps around;
    below 2^64/3 the levels of that range are exactly the accepted ones, and above it some
    of them are refused. *)
Theorem ValidateTrustLevel_correct lvl :
  0 ≤ Numerator lvl < 2 ^ 64 → 0 ≤ Denominator lvl < 2 ^ 64 →
  let within := 0 < Denominator lvl ≤ 3 * Numerator lvl ∧ Numerator lvl ≤ Denominator lvl in
  (ValidateTrustLevel lvl = true → within) ∧
  (within → 3 * Numerator lvl < 2 ^ 64 → ValidateTrustLevel lvl = true) ∧
  (within → 2 ^ 64 ≤ 3 * Numerator lvl → 3 * Numerator lvl - 2 ^ 64 < Denominator lvl → ValidateTrustLevel lvl = false).
Proof.
  intros Hn Hd within. split_and!; [by apply trust_level_sound; lia|..].
  - intros [??] Hlt. unfold ValidateTrustLevel. rewrite Z.mod_small by lia.
    apply negb_true_iff. rewrite !orb_false_iff, !Z.ltb_ge, Z.eqb_neq. lia.
  - intros [??] Hge Hlt. unfold ValidateTrustLevel. apply negb_false_iff.
    assert (E : (Numerator lvl * 3) mod 2 ^ 64 < Denominator lvl); [|apply Z.ltb_lt in E; by rewrite E].
    pose proof (Z.mod_le (Numerator lvl * 3 - 2 ^ 64) (2 ^ 64) ltac:(lia) ltac:(lia)) as Hm.
    replace (Numerator lvl * 3 - 2 ^ 64) with (Numerator lvl * 3 + (-1) * 2 ^ 64) in Hm by lia. rewrite Z.mod_add in Hm by lia. lia.
Qed.

Lemma ValidateTrustLevel_correct_witness :
  ValidateTrustLevel DefaultTrustLevel = true ∧ ValidateTrustLevel (mkFraction (2 ^ 63 - 1) (2 ^ 63 - 1)) = false.
Proof.
  split; [exact (proj1 (proj2 (ValidateTrustLevel_correct (mkFraction 1 3) ltac:(simpl; lia) ltac:(simpl; lia)))
                   ltac:(simpl; lia) ltac:(simpl; lia))|].
  apply (proj2 (proj2 (ValidateTrustLevel_correct (mkFraction (2 ^ 63 - 1) (2 ^ 63 - 1)) ltac:(simpl; lia) ltac:(simpl; lia))));
    simpl; lia.
Defined.

(** ** What acceptance shows *)

(** A set as [NewValidatorSet] and the updates of a set produce it. *)
Definition sound_set `{PubKeyOps} (vals : ValidatorSet) : Prop :=
  wf vals ∧ Validators vals ≠ [] ∧ zlen (Validators vals) ≤ max_int32.

#[export] Instance sound_set_dec `{PubKeyOps} vals : Decision (sound_set vals).
Proof. unfold sound_set. apply _. Defined.

Section acceptance.
Context `{PubKeyOps, SignCodec, !BatchOps, !BatchLaws, !HeaderCodec, Merkle.HashOps}.

(** The new header is valid and fits after the trusted one. *)
Definition follows (t h : Header) (period now drift : Z) : Prop :=
  now < hTime t + period ∧ hHeight t < hHeight h ∧ hTime t < hTime h < now + drift ∧
  hChainID h = hChainID t ∧ header_ValidateBasic h = None.

(** More than two thirds of the validators that the header names signed it. *)
Definition committed (h : Header) (c : Commit) (vals : ValidatorSet) : Prop :=
  cHeight c = hHeight h ∧ Votes.Hash (cBlockID c) = header_Hash (Some h) ∧ vals_Hash vals = Done (ValidatorsHash h) ∧
  ∃ S, signed_by (hChainID h) vals c true S ∧ 2 * zsum VotingPower (Validators vals) < 3 * zsum (power_at vals) S.*1.

(** The header is backed by the trusted one. *)
Definition continues (t : Header) (tvals : ValidatorSet) (h : Header) (c : Commit) (lvl : Fraction) : Prop :=
  (hHeight h = hHeight t + 1 ∧ ValidatorsHash h = NextValidatorsHash t) ∨
  (hHeight t + 1 < hHeight h ∧ ∃ S, signed_by (hChainID h) tvals c false S ∧
     Numerator lvl * zsum VotingPower (Validators tvals) < Denominator lvl * zsum (power_at tvals) S.*1).

Lemma first_error_inv {A} (f : A → option string) l : first_error f l = None → Forall (λ x, f x = None) l.
Proof. induction l as [|x l IH]; [constructor|]. cbn [first_error]. destruct (f x) eqn:E; [done|]. by constructor; [|apply IH]. Qed.

Lemma header_basic_positive h : header_ValidateBasic h = None → 0 < hHeight h.
Proof. unfold header_ValidateBasic. intros E. repeat (case_match; try done). lia. Qed.

(** The basic checks of a signed header. *)
Lemma sh_basic_inv sh chain :
  sh_ValidateBasic sh chain = None →
  ∃ h c, sh = mkSignedHeader (Some h) (Some c) ∧ header_ValidateBasic h = None ∧ hChainID h = chain ∧ cHeight c = hHeight h ∧
    header_Hash (Some h) = Votes.Hash (cBlockID c) ∧ Forall (λ cs, cs_ValidateBasic cs = None) (Signatures c).
Proof.
  destruct sh as [[h|] [c|]]; [|done..]. unfold sh_ValidateBasic. cbn [shHeader shCommit]. intros E.
  destruct (header_ValidateBasic h) eqn:Eh; [done|]. destruct (commit_ValidateBasic c) eqn:Ec; [done|].
  case_bool_decide as Hc; [|done]. destruct (Z.eqb_spec (cHeight c) (hHeight h)) as [Hh|]; [|done].
  destruct (bytes_equal _ _) eqn:Eb; [|done]. apply bytes_equal_spec in Eb. exists h, c. split_and!; try done.
  apply first_error_inv. pose proof (header_basic_positive h Eh). unfold commit_ValidateBasic in Ec.
  destruct (cHeight c <? 0), (cRound c <? 0); try done. rewrite (proj2 (Z.leb_le 1 (cHeight c))) in Ec by lia.
  destruct (IsNil _); [done|]. by destruct (zlen (Signatures c) =? 0).
Qed.

Lemma new_header_inv uh uvals t now drift :
  verifyNewHeaderAndVals uh (Some uvals) t now drift = Done None →
  ∃ h c, uh = mkSignedHeader (Some h) (Some c) ∧ header_ValidateBasic h = None ∧ hChainID h = hChainID t ∧ cHeight c = hHeight h ∧
    header_Hash (Some h) = Votes.Hash (cBlockID c) ∧ Forall (λ cs, cs_ValidateBasic cs = None) (Signatures c) ∧
    hHeight t < hHeight h ∧ hTime t < hTime h < now + drift ∧ vals_Hash uvals = Done (ValidatorsHash h).
Proof.
  unfold verifyNewHeaderAndVals. intros E. destruct (sh_ValidateBasic uh _) eqn:Es; [done|].
  apply sh_basic_inv in Es as (h & c & -> & ? & ? & ? & ? & ?). cbn [header_of shHeader mbind outcome_bind] in E.
  destruct (Z.leb_spec (hHeight h) (hHeight t)); [done|]. destruct (Z.ltb_spec (hTime t) (hTime h)); [|done].
  destruct (Z.ltb_spec (hTime h) (now + drift)); [|done]. cbn [negb] in E. apply outcome_bind_Done in E as (vh & Ev & E).
  destruct (bytes_equal (ValidatorsHash h) vh) eqn:Eb; [|done]. apply bytes_equal_spec in Eb as <-. exists h, c. by split_and!.
Qed.

Lemma new_commit_inv h c uvals t :
  sound_set uvals → hChainID h = hChainID t → Forall (λ cs, cs_ValidateBasic cs = None) (Signatures c) →
  verify_new_commit (mkSignedHeader (Some h) (Some c)) (Some uvals) t h = Done None →
  ∃ S, signed_by (hChainID h) uvals c true S ∧ 2 * zsum VotingPower (Validators uvals) < 3 * zsum (power_at uvals) S.*1.
Proof.
  intros (Hwf & Hne & Hmax) Hc Hb E. unfold verify_new_commit in E. cbn [shCommit] in E.
  apply outcome_bind_Done in E as (r & Er & E). destruct r; [done|]. rewrite <-Hc in Er.
  by apply commit_light_sound in Er as (_ & _ & ?).
Qed.

Lemma next_height t : 0 ≤ t < max_int64 → wrap64 (t + 1) = t + 1.
Proof. intros Ht. apply wrap64_id. unfold_ints. lia. Qed.

Lemma not_expired t period now : HeaderExpired t period now = false → now < hTime t + period.
Proof. unfold HeaderExpired. intros E%negb_false_iff. by apply Z.ltb_lt. Qed.

Lemma adjacent_sound th uh uvals t period now drift :
  sound_set uvals → 0 ≤ hHeight t < max_int64 → shHeader th = Some t →
  VerifyAdjacent th uh (Some uvals) period now drift = Done None →
  ∃ h c, uh = mkSignedHeader (Some h) (Some c) ∧ follows t h period now drift ∧ committed h c uvals ∧
    hHeight h = hHeight t + 1 ∧ ValidatorsHash h = NextValidatorsHash t.
Proof.
  intros Hu Ht Et E. unfold VerifyAdjacent in E. apply outcome_bind_Done in E as (h & Eh & E). unfold header_of at 1 in E.
  rewrite Et in E. cbn [mbind outcome_bind] in E. destruct (Z.eqb_spec (hHeight h) (wrap64 (hHeight t + 1))) as [Ea|]; [|done]. cbn [negb] in E.
  destruct (HeaderExpired t period now) eqn:Ex; [done|]. apply not_expired in Ex. apply outcome_bind_Done in E as (r & Er & E).
  destruct r; [done|]. apply new_header_inv in Er as (h' & c & -> & Hb & Hc & Hch & Hhash & Hsig & Hlt & Htime & Hv).
  cbn [header_of shHeader] in Eh. injection Eh as ->. destruct (bytes_equal _ _) eqn:En; [|done]. apply bytes_equal_spec in En. cbn [negb] in E.
  apply new_commit_inv in E; [|done..]. exists h, c. split_and!; try done.
  by rewrite Ea, next_height.
Qed.


Lemma nonadjacent_sound th tvals uh uvals t period now drift lvl :
  sound_set tvals → sound_set uvals → 0 ≤ hHeight t < max_int64 → 0 ≤ Numerator lvl ≤ max_int64 → 0 < Denominator lvl ≤ max_int64 →
  shHeader th = Some t → VerifyNonAdjacent th (Some tvals) uh (Some uvals) period now drift lvl = Done None →
  ∃ h c, uh = mkSignedHeader (Some h) (Some c) ∧ follows t h period now drift ∧ committed h c uvals ∧
    hHeight t + 1 < hHeight h ∧ ∃ S, signed_by (hChainID h) tvals c false S ∧
     Numerator lvl * zsum VotingPower (Validators tvals) < Denominator lvl * zsum (power_at tvals) S.*1.
Proof.
  intros (Hwf & Hne & Hmax) Hu Ht Hn Hd Et E. unfold VerifyNonAdjacent in E. apply outcome_bind_Done in E as (h & Eh & E).
  unfold header_of at 1 in E. rewrite Et in E. cbn [mbind outcome_bind] in E.
  destruct (Z.eqb_spec (hHeight h) (wrap64 (hHeight t + 1))) as [|Ea]; [done|].
  destruct (HeaderExpired t period now) eqn:Ex; [done|]. apply not_expired in Ex. apply outcome_bind_Done in E as (r & Er & E).
  destruct r; [done|]. apply new_header_inv in Er as (h' & c & -> & Hb & Hc & Hch & Hhash & Hsig & Hlt & Htime & Hv).
  cbn [header_of shHeader shCommit] in Eh, E. injection Eh as ->. apply outcome_bind_Done in E as (r & Er & E).
  destruct r as [[]|]; try done. rewrite <-Hc in Er. apply commit_trusting_sound in Er; [|done..].
  apply new_commit_inv in E; [|done..]. exists h, c. split_and!; try done.
  destruct (decide (hHeight h = hHeight t + 1)) as [He|]; [|lia]. destruct Ea. by rewrite He, next_height.
Qed.

Lemma verify_sound th tvals uh uvals t period now drift lvl :
  sound_set tvals → sound_set uvals → 0 ≤ hHeight t < max_int64 → 0 ≤ Numerator lvl ≤ max_int64 → 0 < Denominator lvl ≤ max_int64 →
  shHeader th = Some t → Verify th (Some tvals) uh (Some uvals) period now drift lvl = Done None →
  ∃ h c, uh = mkSignedHeader (Some h) (Some c) ∧ follows t h period now drift ∧ committed h c uvals ∧ continues t tvals h c lvl.
Proof.
  intros Htv Hu Ht Hn Hd Et E. unfold Verify in E. apply outcome_bind_Done in E as (h0 & Eh & E).
  apply outcome_bind_Done in E as (t0 & Et' & E). destruct (negb _).
  - apply (nonadjacent_sound _ _ _ _ t) in E as (h & c & -> & ? & ? & ? & ?); [|done..]. exists h, c. split_and!; try done. by right.
  - apply (adjacent_sound _ _ _ t) in E as (h & c & -> & ? & ? & ? & ?); [|done..]. exists h, c. split_and!; try done. by left.
Qed.

(** C11: a header that [Verify] accepts belongs to the chain of the trusted header, which has not
    expired, and is valid, higher, later and not from the future; its commit is for the
    header's own hash and height and carries valid signatures of distinct validators with
    more than two thirds of the power of a set that hashes to the header's
    [ValidatorsHash]; and either it is the next header and that hash is the trusted
    header's [NextValidatorsHash], or distinct trusted validators with more than the trust level
    of the trusted power signed it. *)
Theorem Verify_sound th tvals uh uvals t period now drift lvl :
  sound_set tvals → sound_set uvals → 0 ≤ hHeight t < max_int64 → 0 ≤ Numerator lvl ≤ max_int64 → 0 < Denominator lvl ≤ max_int64 →
  shHeader th = Some t → Verify th (Some tvals) uh (Some uvals) period now drift lvl = Done None →
  ∃ h c, uh = mkSignedHeader (Some h) (Some c) ∧ follows t h period now drift ∧ committed h c uvals ∧ continues t tvals h c lvl.
Proof. apply verify_sound. Qed.

(** ** Correct validators among the signers *)

Lemma zsum_subset (f : nat → Z) l k : NoDup l → l ⊆ k → (∀ x, 0 ≤ f x) → zsum f l ≤ zsum f k.
Proof.
  intros Hl Hs Hf. destruct (submseteq_Permutation l k) as [r Hp]; [by apply NoDup_submseteq|].
  rewrite (zsum_perm _ _ _ Hp), zsum_app. assert (0 ≤ zsum f r) by (apply zsum_nonneg; auto). lia.
Qed.

Lemma power_at_nonneg vals i : wf vals → 0 ≤ power_at vals i.
Proof.
  intros Hwf. unfold power_at. destruct (Validators vals !! i) as [v|] eqn:E; simpl; [|done].
  apply (wf_power_nonneg _ (proj1 Hwf)). by eapply list_elem_of_lookup_2.
Qed.

(** Signers with more power than the faulty validators include a correct one. *)
Lemma correct_signer chain vals c byIdx S (faulty : list nat) :
  wf vals → signed_by chain vals c byIdx S → zsum (power_at vals) faulty < zsum (power_at vals) S.*1 →
  ∃ i j val cs, i ∉ faulty ∧ Validators vals !! i = Some val ∧ Signatures c !! j = Some cs ∧
    is_commit cs = true ∧ sig_ok chain c j cs val = true.
Proof.
  intros Hwf [Hnd Hf] Hlt. destruct (decide (S.*1 ⊆ faulty)) as [Hs|Hs].
  { pose proof (zsum_subset (power_at vals) _ _ Hnd Hs (λ i, power_at_nonneg vals i Hwf)). lia. }
  assert (∃ p, p ∈ S ∧ p.1 ∉ faulty) as (p & Hp & Hn).
  { apply Exists_exists. apply not_Forall_Exists; [intros ?; apply _|]. intros Hall. apply Hs. intros i Hi.
    apply list_elem_of_fmap in Hi as (p & -> & Hp). rewrite Forall_forall in Hall. specialize (Hall p Hp). cbn in Hall. by destruct (decide (p.1 ∈ faulty)). }
  rewrite Forall_forall in Hf. destruct (Hf p Hp) as (val & cs & ? & ? & ? & ? & _). by exists p.1, p.2, val, cs.
Qed.

(** C12: when a header is accepted over a gap at a valid trust level, and faulty validators hold at
    most a third of the trusted power, a correct trusted validator signed
    the commit for the header's hash. *)
Theorem skipping_needs_correct_signer th tvals uh uvals t h c period now drift lvl (faulty : list nat) :
  sound_set tvals → sound_set uvals → 0 ≤ hHeight t < max_int64 → 0 ≤ Numerator lvl → Denominator lvl ≤ max_int64 →
  ValidateTrustLevel lvl = true → shHeader th = Some t → uh = mkSignedHeader (Some h) (Some c) → hHeight h ≠ hHeight t + 1 →
  Verify th (Some tvals) uh (Some uvals) period now drift lvl = Done None →
  3 * zsum (power_at tvals) faulty ≤ zsum VotingPower (Validators tvals) →
  Votes.Hash (cBlockID c) = header_Hash (Some h) ∧
  ∃ i j val cs, i ∉ faulty ∧ Validators tvals !! i = Some val ∧ Signatures c !! j = Some cs ∧
    is_commit cs = true ∧ sig_ok (hChainID h) c j cs val = true.
Proof.
  intros Htv Hu Ht Hn Hdm Hv Et -> Hgap E Hf. destruct (trust_level_sound lvl Hn Hv) as [Hd Hnd].
  apply (verify_sound _ _ _ _ t) in E as (h' & c' & [= <- <-] & _ & Hc & [[? _]|[_ (S & HS & Hlt)]]); [lia| |done|done|lia..|done].
  split; [apply Hc|]. apply (correct_signer _ _ _ _ _ _ (proj1 Htv) HS).
  assert (0 ≤ zsum VotingPower (Validators tvals)) by (apply zsum_nonneg, wf_power_nonneg, (proj1 (proj1 Htv))). nia.
Qed.

Context `{!HeaderCodecLaws, !Merkle.HashLaws}.

(** the hash chain in both directions.  A header accepted one height up comes with the
    validators that the trusted header announced, and a header accepted one height down is the
    trusted header's predecessor; otherwise a collision of SHA-256 can be computed. *)
Theorem hash_chain_binds th uh uvals t next period now drift u :
  sound_set uvals → 0 ≤ hHeight t < max_int64 → shHeader th = Some t →
  VerifyAdjacent th uh (Some uvals) period now drift = Done None → vals_Hash next = Done (NextValidatorsHash t) →
  VerifyBackwards (Some u) (Some t) = Done None →
  (hashed <$> Validators uvals = hashed <$> Validators next ∨ Merkle.collision (vals_collision uvals next)) ∧
  header_ValidateBasic u = None ∧ hChainID u = hChainID t ∧ hTime u < hTime t ∧
  (∀ u', header_Hash (Some u') = Votes.Hash (LastBlockID t) → Votes.Hash (LastBlockID t) ≠ [] →
    u = u' ∨ Merkle.collision (header_collision u u')).
Proof.
  intros Hu Ht Et E En Eb. split.
  - apply (adjacent_sound _ _ _ t) in E as (h & c & _ & _ & (_ & _ & Ev & _) & _ & Eq); [|done..]. rewrite Eq in Ev. by apply (vals_bind _ _ _ Ev).
  - unfold VerifyBackwards in Eb. destruct (header_ValidateBasic u) eqn:Hb; [done|]. case_bool_decide as Hc; [|done].
    destruct (Z.ltb_spec (hTime u) (hTime t)); [|done]. destruct (bytes_equal _ _) eqn:Hh; [|done]. apply bytes_equal_spec in Hh.
    split_and!; try done. intros u' Hu' Hne. apply header_binds; congruence.
Qed.

End acceptance.
(** ** A concrete chain *)

Section examples.
#[local] Existing Instances toy_keys toy_codec toy_batch toy_batch_laws Merkle.toy_hash Merkle.toy_hash_laws toy_header_codec toy_header_codec_laws.

Definition ex_set_hash : list Z := match vals_Hash ex_vals with Done x => x | Panic _ => [] end.

(** The block of height [h], produced on day [h] after the block with hash [last]. *)
Definition ex_chain_header (h : Z) (last : list Z) : Header :=
  mkHeader BlockProtocol 1 "chain" h (day h) {| Votes.Hash := last; PSH := PSH (ex_block 1) |} [] [] ex_set_hash ex_set_hash [] [] [] [] (toy_address 1).

(** The signatures of three of the four validators, and no signature of the last one. *)
Definition ex_header_sig (b : BlockID) (h k : Z) : CommitSig :=
  let v := {| Type_ := PrecommitType; Height := h; Round := 0; vBlockID := b; Timestamp := day h;
              ValidatorAddress := toy_address k; ValidatorIndex := k - 1; Signature := [];
              Extension := []; ExtensionSignature := [] |} in
  match VoteSignBytes "chain" v with
  | Done bz => {| cs_Flag := BlockIDFlagCommit; cs_Address := toy_address k; cs_Timestamp := day h; cs_Signature := k :: bz |}
  | Panic _ => NewCommitSigAbsent
  end.
Definition ex_header_commit (h : Header) : Commit :=
  let b := {| Votes.Hash := header_Hash (Some h); PSH := PSH (ex_block 1) |} in
  {| cHeight := hHeight h; cRound := 0; cBlockID := b; Signatures := (ex_header_sig b (hHeight h) <$> [1; 2; 3]) ++ [NewCommitSigAbsent] |}.
Definition ex_signed (h : Header) : SignedHeader := mkSignedHeader (Some h) (Some (ex_header_commit h)).

Definition ex_h4 : Header := ex_chain_header 4 (replicate 32 1).
Definition ex_h5 : Header := ex_chain_header 5 (header_Hash (Some ex_h4)).
Definition ex_h6 : Header := ex_chain_header 6 (header_Hash (Some ex_h5)).
Definition ex_h8 : Header := ex_chain_header 8 (replicate 32 7).
Definition ex_period : Z := 14 * 86400000000000.

Lemma Verify_sound_witness :
  ∃ h c, ex_signed ex_h8 = mkSignedHeader (Some h) (Some c) ∧ follows ex_h5 h ex_period (day 9) 10 ∧
    committed h c ex_vals ∧ continues ex_h5 ex_vals h c DefaultTrustLevel.
Proof.
  refine (Verify_sound (ex_signed ex_h5) ex_vals (ex_signed ex_h8) ex_vals ex_h5 ex_period (day 9) 10 DefaultTrustLevel
    _ _ _ _ _ eq_refl _); [by_decide..|vm_compute; reflexivity].
Defined.

(** One of the four validators is faulty. *)
Lemma skipping_needs_correct_signer_witness :
  ∃ i j val cs, i ∉ [0%nat] ∧ Validators ex_vals !! i = Some val ∧ Signatures (ex_header_commit ex_h8) !! j = Some cs ∧
    is_commit cs = true ∧ sig_ok "chain" (ex_header_commit ex_h8) j cs val = true.
Proof.
  refine (proj2 (skipping_needs_correct_signer (ex_signed ex_h5) ex_vals (ex_signed ex_h8) ex_vals ex_h5 ex_h8
    (ex_header_commit ex_h8) ex_period (day 9) 10 DefaultTrustLevel [0%nat] _ _ _ _ _ _ eq_refl eq_refl _ _ _));
    [by_decide..|vm_compute; reflexivity|by_decide].
Defined.

Lemma hash_chain_binds_witness :
  (hashed <$> Validators ex_vals = hashed <$> Validators ex_vals ∨ Merkle.collision (vals_collision ex_vals ex_vals)) ∧
  (∀ u', header_Hash (Some u') = Votes.Hash (LastBlockID ex_h5) → Votes.Hash (LastBlockID ex_h5) ≠ [] →
    ex_h4 = u' ∨ Merkle.collision (header_collision ex_h4 u')).
Proof.
  refine (match hash_chain_binds (ex_signed ex_h5) (ex_signed ex_h6) ex_vals ex_h5 ex_vals ex_period (day 9) 10 ex_h4
    _ _ eq_refl _ _ _ with conj a (conj _ (conj _ (conj _ b))) => conj a b end); [by_decide|by_decide|by vm_compute..].
Defined.

End examples.


End Light.
