(* ===== verification/LightStore.v ===== *)
(** * LightStore: [light/store/db], the trusted store of the light client

    The database is an ordered map; the store keeps one light block under the key of its height,
    and a counter of 16 bits.  The legacy key layout is shown to order keys by height, so
    that iterating over keys is iterating over heights; from there on the store is a map from
    heights.  Failures of the database are not modelled. *)

From S2P Require Import Prelude Mediation.

Local Open Scope Z_scope.

Module LightStore.

(** ** Keys *)

(** [%020d] of a number below 10^20. *)
Fixpoint padded (width : nat) (n : Z) : list Z :=
  match width with
  | O => []
  | S w => 48 + n / 10 ^ Z.of_nat w :: padded w (n mod 10 ^ Z.of_nat w)
  end.

(** [v1LegacyLayout.LBKey]: ["lb/<prefix>/<height>"]. *)
Definition LBKey (height : Z) (prefix : list Z) : list Z := [108; 98; 47] ++ prefix ++ [47] ++ padded 20 height.

(** The prefix group of the key pattern: everything up to the next slash. *)
Fixpoint until_slash (s : list Z) : option (list Z * list Z) :=
  match s with
  | [] => None
  | c :: s => if c =? 47 then Some ([], s) else match until_slash s with Some (p, r) => Some (c :: p, r) | None => None end
  end.

Definition is_digit (c : Z) : bool := (48 <=? c) && (c <=? 57).

Definition parseKey (key : list Z) : option (list Z * Z) :=
  match key with
  | 108 :: 98 :: 47 :: s =>
      match until_slash s with
      | Some (prefix, ds) =>
          if bool_decide (ds = []) || negb (forallb is_digit ds) then None
          else match Mediation.ParseUint ds with
               | Some n => if n <=? max_int64 then Some (prefix, n) else None
               | None => None
               end
      | None => None
      end
  | _ => None
  end.

Definition ParseLBKey (key : list Z) : option Z := match parseKey key with Some (_, n) => Some n | None => None end.

(** Keys in the order of the database. *)
Fixpoint key_compare (a b : list Z) : comparison :=
  match a, b with
  | [], [] => Eq
  | [], _ => Lt
  | _, [] => Gt
  | x :: a, y :: b => match x ?= y with Eq => key_compare a b | c => c end
  end.

Lemma key_compare_app p a b : key_compare (p ++ a) (p ++ b) = key_compare a b.
Proof. induction p as [|x p IH]; [done|]. cbn. by rewrite Z.compare_refl. Qed.

Lemma padded_compare w a b :
  0 ≤ a < 10 ^ Z.of_nat w → 0 ≤ b < 10 ^ Z.of_nat w → key_compare (padded w a) (padded w b) = (a ?= b).
Proof.
  revert a b. induction w as [|w IH]; intros a b Ha Hb; [symmetry; apply Z.compare_eq_iff; simpl in *; lia|].
  rewrite Nat2Z.inj_succ, Z.pow_succ_r in Ha, Hb by lia. cbn [padded key_compare].
  set (P := 10 ^ Z.of_nat w) in *. assert (HP : 0 < P) by (apply Z.pow_pos_nonneg; lia).
  rewrite IH by (apply Z.mod_pos_bound; lia).
  pose proof (Z.div_mod a P ltac:(lia)). pose proof (Z.div_mod b P ltac:(lia)).
  pose proof (Z.mod_pos_bound a P HP). pose proof (Z.mod_pos_bound b P HP).
  destruct (Z.compare_spec (48 + a / P) (48 + b / P)) as [E|E|E]; symmetry.
  - destruct (Z.compare_spec (a mod P) (b mod P)); [apply Z.compare_eq_iff|apply Z.compare_lt_iff|apply Z.compare_gt_iff]; nia.
  - apply Z.compare_lt_iff. nia.
  - apply Z.compare_gt_iff. nia.
Qed.
Lemma padded_parse w acc n :
  0 ≤ acc → 0 ≤ n < 10 ^ Z.of_nat w → acc * 10 ^ Z.of_nat w + n ≤ max_uint64 →
  Mediation.parse_digits (padded w n) acc = Some (acc * 10 ^ Z.of_nat w + n).
Proof.
  revert acc n. induction w as [|w IH]; intros acc n Ha Hn Hm; [simpl in *; f_equal; lia|].
  rewrite Nat2Z.inj_succ, Z.pow_succ_r in * by lia. cbn [padded Mediation.parse_digits].
  set (P := 10 ^ Z.of_nat w) in *. assert (HP : 0 < P) by (apply Z.pow_pos_nonneg; lia).
  pose proof (Z.div_mod n P ltac:(lia)). pose proof (Z.mod_pos_bound n P HP).
  assert (0 ≤ n / P < 10) by (split; [apply Z.div_pos; lia|apply Z.div_lt_upper_bound; lia]).
  rewrite (proj2 (Z.leb_le _ _)), (proj2 (Z.leb_le _ _)) by lia. cbn [andb negb].
  assert (acc * 10 + n / P ≤ max_uint64) by nia. assert (acc * 10 ≤ max_uint64) by lia.
  destruct (Z.leb_spec 1844674407370955162 acc); [unfold max_uint64 in *; lia|].
  replace (acc * 10 + (48 + n / P - 48)) with (acc * 10 + n / P) by lia. cbv zeta.
  destruct (Z.ltb_spec max_uint64 (acc * 10 + n / P)); [lia|]. rewrite IH by nia. f_equal. nia.
Qed.

Lemma padded_digits w n : 0 ≤ n < 10 ^ Z.of_nat w → forallb is_digit (padded w n) = true.
Proof.
  revert n. induction w as [|w IH]; intros n Hn; [done|]. rewrite Nat2Z.inj_succ, Z.pow_succ_r in Hn by lia. cbn [padded forallb].
  assert (HP : 0 < 10 ^ Z.of_nat w) by (apply Z.pow_pos_nonneg; lia). rewrite IH by (apply Z.mod_pos_bound; lia).
  assert (0 ≤ n / 10 ^ Z.of_nat w < 10) by (split; [apply Z.div_pos; lia|apply Z.div_lt_upper_bound; lia]).
  unfold is_digit. rewrite (proj2 (Z.leb_le _ _)), (proj2 (Z.leb_le _ _)) by lia. done.
Qed.

Lemma until_slash_app p s : 47 ∉ p → until_slash (p ++ 47 :: s) = Some (p, s).
Proof.
  induction p as [|c p IH]; intros Hp; [done|]. cbn [app until_slash]. destruct (Z.eqb_spec c 47); [set_solver|]. by rewrite IH by set_solver.
Qed.

(** the legacy key layout orders the light blocks of a store by height, and the height is
    read back from the key. *)
Theorem LBKey_ordered prefix a b :
  47 ∉ prefix → 0 ≤ a ≤ max_int64 → 0 ≤ b ≤ max_int64 →
  key_compare (LBKey a prefix) (LBKey b prefix) = (a ?= b) ∧ ParseLBKey (LBKey a prefix) = Some a.
Proof.
  intros Hp Ha Hb. assert (H20 : 10 ^ Z.of_nat 20 = 100000000000000000000) by reflexivity. split.
  - unfold LBKey. rewrite !key_compare_app. apply padded_compare; rewrite H20; unfold_ints; lia.
  - unfold ParseLBKey, parseKey, LBKey. cbn [app]. rewrite until_slash_app by done.
    rewrite padded_digits by (rewrite H20; unfold_ints; lia). rewrite bool_decide_false by done. cbn [orb negb].
    replace (Mediation.ParseUint (padded 20 a)) with (Mediation.parse_digits (padded 20 a) 0) by done.
    rewrite padded_parse by (rewrite ?H20; unfold_ints; unfold max_uint64 in *; lia). rewrite Z.mul_0_l, Z.add_0_l. by rewrite (proj2 (Z.leb_le a max_int64)) by lia.
Qed.

Lemma LBKey_ordered_witness :
  key_compare (LBKey 9 [65]) (LBKey 10 [65]) = Lt ∧ ParseLBKey (LBKey 9 [65]) = Some 9.
Proof. apply (LBKey_ordered [65] 9 10); by_decide. Defined.

(** ** The store *)

Section store.
Context {A : Type}.

Record Store := mkStore { blocks : gmap Z A; size : Z }.

Definition wrap16 (z : Z) : Z := z mod 65536.

(** The heights an iterator visits, from the first to the last key. *)
Definition heights (s : Store) : list Z :=
  merge_sort Z.le (filter (λ k, 1 ≤ k ≤ max_int64) (map_to_list (blocks s)).*1).

Definition SaveLightBlock (s : Store) (height : Z) (lb : A) : outcome Store :=
  if height <=? 0 then Panic "negative or zero height"
  else Done (mkStore (<[height := lb]> (blocks s)) (wrap16 (size s + 1))).

Definition DeleteLightBlock (s : Store) (height : Z) : outcome Store :=
  if height <=? 0 then Panic "negative or zero height"
  else Done (mkStore (delete height (blocks s)) (wrap16 (size s - 1))).

(** [None] is [ErrLightBlockNotFound]. *)
Definition LightBlock (s : Store) (height : Z) : outcome (option A) :=
  if height <=? 0 then Panic "negative or zero height" else Done (blocks s !! height).

Definition LastLightBlockHeight (s : Store) : Z := default (-1) (last (heights s)).
Definition FirstLightBlockHeight (s : Store) : Z := default (-1) (head (heights s)).

Definition LightBlockBefore (s : Store) (height : Z) : outcome (option A) :=
  if height <=? 0 then Panic "negative or zero height"
  else match last (filter (λ k, k < height) (heights s)) with
       | Some existingHeight => LightBlock s existingHeight
       | None => Done None
       end.

Definition Prune (s : Store) (n : Z) : Store :=
  if size s <=? n then s
  else
    let pruned := take (Z.to_nat (size s - n)) (heights s) in
    mkStore (foldr delete (blocks s) pruned) (wrap16 (size s - Z.of_nat (length pruned))).

End store.
Arguments Store A : clear implicits.

(** ** What the operations do *)

Section properties.
Context {A : Type}.
Implicit Types s : Store A.

Definition wf_store s : Prop := map_Forall (λ k _, 1 ≤ k ≤ max_int64) (blocks s).

(** The counter is the number of blocks. *)
Definition counted s : Prop := wf_store s ∧ size s = Z.of_nat (length (heights s)) ∧ size s < 65536.

#[export] Instance wf_store_dec s : Decision (wf_store s).
Proof. unfold wf_store. apply _. Defined.
#[export] Instance counted_dec s : Decision (counted s).
Proof. unfold counted. apply _. Defined.

Lemma heights_elem s k : wf_store s → k ∈ heights s ↔ is_Some (blocks s !! k).
Proof.
  intros Hwf. unfold heights. rewrite merge_sort_Permutation, list_elem_of_filter, list_elem_of_fmap. split.
  - intros (_ & [k' b] & -> & Hb). apply elem_of_map_to_list in Hb. by exists b.
  - intros [b Hb]. split; [by apply (Hwf k b)|]. exists (k, b). split; [done|]. by apply elem_of_map_to_list.
Qed.

Lemma heights_sorted s : StronglySorted Z.lt (heights s).
Proof.
  assert (Hnd : NoDup (heights s)).
  { unfold heights. rewrite merge_sort_Permutation. apply NoDup_filter, NoDup_fst_map_to_list. }
  pose proof (StronglySorted_merge_sort Z.le (filter (λ k, 1 ≤ k ≤ max_int64) (map_to_list (blocks s)).*1)) as Hs.
  fold (heights s) in Hs. revert Hs Hnd. induction (heights s) as [|x l IH]; intros Hs Hnd; [constructor|].
  apply StronglySorted_inv in Hs as [Hs Hx]. apply NoDup_cons in Hnd as [Hn Hnd]. constructor; [by apply IH|].
  rewrite Forall_forall in Hx |- *. intros y Hy. specialize (Hx y Hy). assert (x ≠ y) by (by intros ->). lia.
Qed.

Lemma sorted_unique (l k : list Z) : StronglySorted Z.lt l → StronglySorted Z.lt k → (∀ x, x ∈ l ↔ x ∈ k) → l = k.
Proof.
  intros Hl Hk E. assert (Hle : ∀ l, StronglySorted Z.lt l → StronglySorted Z.le l ∧ NoDup l).
  { intros m Hm. induction Hm as [|x m _ IH Hx]; [split; constructor|]. destruct IH as [IH1 IH2]. rewrite Forall_forall in Hx. split; constructor; try done.
    - apply Forall_forall. intros y Hy. specialize (Hx y Hy). lia.
    - intros Hin. specialize (Hx x Hin). lia. }
  destruct (Hle l Hl), (Hle k Hk). apply (StronglySorted_unique Z.le); [done..|]. by apply NoDup_Permutation.
Qed.

Lemma last_greatest l (x y : Z) : StronglySorted Z.lt l → last l = Some x → y ∈ l → y ≤ x.
Proof.
  intros Hs Hl Hy. apply last_Some in Hl as [l' ->]. apply StronglySorted_app in Hs as (Hs & _ & _).
  apply elem_of_app in Hy as [Hy|Hy%list_elem_of_singleton]; [|lia]. specialize (Hs y x Hy ltac:(set_solver)). lia.
Qed.

Lemma sorted_filter (P : Z → Prop) `{∀ x, Decision (P x)} l : StronglySorted Z.lt l → StronglySorted Z.lt (filter P l).
Proof.
  induction 1 as [|x l _ IH Hx]; [constructor|]. rewrite filter_cons. case_decide; [|done]. constructor; [done|].
  rewrite Forall_forall in *. intros y [_ Hy]%list_elem_of_filter. auto.
Qed.

(** the reads of the store.  The first and the last height enclose all stored heights
    and are stored when there is any, and [LightBlockBefore] finds the nearest lower block. *)
Theorem store_reads s h :
  wf_store s → 0 < h →
  (blocks s = ∅ → FirstLightBlockHeight s = -1 ∧ LastLightBlockHeight s = -1) ∧
  (∀ k b, blocks s !! k = Some b → FirstLightBlockHeight s ≤ k ≤ LastLightBlockHeight s ∧
     is_Some (blocks s !! FirstLightBlockHeight s) ∧ is_Some (blocks s !! LastLightBlockHeight s)) ∧
  match LightBlockBefore s h with
  | Done (Some b) => ∃ k, k < h ∧ blocks s !! k = Some b ∧ ∀ k', k < k' < h → blocks s !! k' = None
  | Done None => ∀ k, k < h → blocks s !! k = None
  | Panic _ => False
  end.
Proof.
  intros Hwf Hh. pose proof (heights_sorted s) as Hs. split_and!.
  - intros E. unfold FirstLightBlockHeight, LastLightBlockHeight, heights. rewrite E. done.
  - intros k b Hk. assert (Hin : k ∈ heights s) by (apply heights_elem; [done|by exists b]).
    unfold FirstLightBlockHeight, LastLightBlockHeight. destruct (last (heights s)) as [x|] eqn:El.
    2:{ apply last_None in El. rewrite El in Hin. set_solver. }
    assert (Hx : x ∈ heights s) by (apply last_Some in El as [l' ->]; set_solver). pose proof (last_greatest _ _ _ Hs El Hin) as Hkx.
    assert (is_Some (blocks s !! x)) by (by apply heights_elem). destruct (heights s) as [|y l] eqn:Eh; [set_solver|].
    assert (is_Some (blocks s !! y)) by (apply heights_elem; [done|]; rewrite Eh; set_solver). simpl. split_and!; try done.
    apply StronglySorted_inv in Hs as [_ Hs]. rewrite Forall_forall in Hs. apply elem_of_cons in Hin as [->|Hin]; [lia|]. specialize (Hs k Hin). lia.
  - unfold LightBlockBefore. rewrite (proj2 (Z.leb_gt h 0)) by lia.
    destruct (last (filter (λ k, k < h) (heights s))) as [x|] eqn:El.
    + assert (Hx : x ∈ filter (λ k, k < h) (heights s)) by (apply last_Some in El as [l' ->]; set_solver).
      apply list_elem_of_filter in Hx as [Hlt Hx]. apply heights_elem in Hx as [b Hb]; [|done].
      assert (1 ≤ x) by apply (Hwf x b Hb). unfold LightBlock. rewrite (proj2 (Z.leb_gt x 0)), Hb by lia. exists x. split_and!; try done.
      intros k' Hk'. apply eq_None_not_Some. intros Hk%heights_elem; [|done].
      pose proof (last_greatest _ _ k' (sorted_filter _ _ Hs) El ltac:(apply list_elem_of_filter; split; [lia|done])). lia.
    + apply last_None in El. intros k Hk. apply eq_None_not_Some. intros Hin%heights_elem; [|done].
      assert (k ∈ filter (λ k, k < h) (heights s)) by (by apply list_elem_of_filter). rewrite El in *. set_solver.
Qed.

Lemma foldr_delete_lookup (m : gmap Z A) l k : foldr delete m l !! k = if decide (k ∈ l) then None else m !! k.
Proof.
  induction l as [|x l IH]; cbn [foldr]; [by rewrite decide_False by set_solver|]. destruct (decide (k = x)) as [->|].
  - rewrite lookup_delete_eq. by rewrite decide_True by set_solver.
  - rewrite lookup_delete_ne, IH by done. repeat case_decide; set_solver.
Qed.

(** What deleting the lowest blocks leaves. *)
Lemma delete_lowest s s' n :
  wf_store s → blocks s' = foldr delete (blocks s) (take n (heights s)) →
  wf_store s' ∧ heights s' = drop n (heights s) ∧ ∀ k, k ∈ drop n (heights s) → blocks s' !! k = blocks s !! k.
Proof.
  intros Hwf E. pose proof (heights_sorted s) as Hs. rewrite <-(take_drop n (heights s)) in Hs.
  apply StronglySorted_app in Hs as (Hcross & _ & Hd).
  assert (Hwf' : wf_store s').
  { intros k b. rewrite E, foldr_delete_lookup. case_decide; [done|]. apply Hwf. }
  assert (Hdrop : ∀ k, k ∈ drop n (heights s) → k ∉ take n (heights s)).
  { intros k Hk Hk'. specialize (Hcross k k Hk' Hk). lia. }
  split_and!; [done| |].
  - apply sorted_unique; [apply heights_sorted|done|]. intros k. rewrite heights_elem by done. rewrite E, foldr_delete_lookup. split.
    + case_decide as Ht; [by intros [??]|]. rewrite <-heights_elem by done. rewrite <-(take_drop n (heights s)) at 1. set_solver.
    + intros Hk. rewrite decide_False by auto. apply heights_elem; [done|]. rewrite <-(take_drop n (heights s)). set_solver.
  - intros k Hk. rewrite E, foldr_delete_lookup. by rewrite decide_False by auto.
Qed.

(** with an exact counter, [Prune] keeps the [n] highest blocks, or all if there are
    fewer, unchanged, and the counter stays exact. *)
Theorem Prune_keeps_highest s n :
  counted s → 0 ≤ n → let s' := Prune s n in
  counted s' ∧ heights s' = drop (length (heights s) - Z.to_nat n) (heights s) ∧
  ∀ k, k ∈ heights s' → blocks s' !! k = blocks s !! k.
Proof.
  intros (Hwf & Hsz & Hlt) Hn. cbv zeta. unfold Prune. destruct (Z.leb_spec (size s) n) as [Hle|Hgt].
  { replace (length (heights s) - Z.to_nat n)%nat with 0%nat by lia. by rewrite drop_0. }
  set (s' := mkStore _ _). replace (Z.to_nat (size s - n)) with (length (heights s) - Z.to_nat n)%nat in * by lia.
  destruct (delete_lowest s s' (length (heights s) - Z.to_nat n) Hwf) as (Hwf' & Hh & Hb).
  { subst s'. cbn [blocks]. do 3 f_equal. lia. }
  rewrite Hh. split_and!; try done. split_and!; [done| |].
  - rewrite Hh, length_drop. subst s'. cbn [size]. unfold wrap16. rewrite length_take. rewrite Z.mod_small by lia. lia.
  - subst s'. cbn [size]. unfold wrap16. apply Z.mod_pos_bound. lia.
Qed.

Lemma heights_insert_old s h b : wf_store s → is_Some (blocks s !! h) → heights (mkStore (<[h:=b]> (blocks s)) (wrap16 (size s + 1))) = heights s.
Proof.
  intros Hwf Hin. destruct Hin as [b0 Hb0]. apply sorted_unique; [apply heights_sorted..|]. intros k.
  rewrite !heights_elem; [|done|by apply map_Forall_insert_2; [apply (Hwf h b0)|]]. cbn [blocks].
  destruct (decide (k = h)) as [->|]; [rewrite lookup_insert_eq; naive_solver|by rewrite lookup_insert_ne].
Qed.

(** saving a block at a height the store has counts it twice: pruning to the number
    of stored blocks then removes the lowest one. *)
Theorem SaveLightBlock_counts_twice s h b s' :
  counted s → is_Some (blocks s !! h) → size s < 65535 → SaveLightBlock s h b = Done s' →
  heights s' = heights s ∧ size s' = Z.of_nat (length (heights s')) + 1 ∧
  heights (Prune s' (Z.of_nat (length (heights s')))) = drop 1 (heights s').
Proof.
  intros (Hwf & Hsz & Hlt) Hin Hmax E. unfold SaveLightBlock in E. destruct (Z.leb_spec h 0); [done|]. injection E as <-.
  rewrite heights_insert_old by done. cbn [size blocks]. unfold wrap16. rewrite Z.mod_small by lia.
  split_and!; [done|lia|]. unfold Prune. cbn [size blocks]. rewrite (proj2 (Z.leb_gt _ _)) by lia.
  set (s' := {| blocks := <[h:=b]> (blocks s); size := size s + 1 |}).
  assert (Hh : heights s' = heights s) by (exact (heights_insert_old s h b Hwf Hin)). rewrite Hh.
  set (s'' := mkStore _ _). rewrite <-Hh.
  refine (proj1 (proj2 (delete_lowest s' s'' 1 _ _))).
  - destruct Hin as [b0 Hb0]. apply map_Forall_insert_2; [by apply (Hwf h b0)|done].
  - subst s''. cbn [blocks]. rewrite Hh. do 2 f_equal. lia.
Qed.

End properties.

(** ** A concrete store *)

Definition ex_store : Store Z := mkStore (list_to_map [(3, 30); (7, 70); (12, 120)]) 3.

Lemma store_reads_witness :
  FirstLightBlockHeight ex_store ≤ 7 ≤ LastLightBlockHeight ex_store ∧ LightBlockBefore ex_store 12 = Done (Some 70).
Proof.
  split; [|vm_compute; reflexivity].
  refine (proj1 (proj1 (proj2 (store_reads ex_store 12 _ _)) 7 70 _)); by_decide.
Defined.

Lemma Prune_keeps_highest_witness : heights (Prune ex_store 2) = [7; 12].
Proof. refine (proj1 (proj2 (Prune_keeps_highest ex_store 2 _ _))); by_decide. Defined.

Lemma SaveLightBlock_counts_twice_witness :
  ∃ s', SaveLightBlock ex_store 7 71 = Done s' ∧ heights (Prune s' 3) = [7; 12].
Proof.
  eexists. split; [reflexivity|].
  refine (proj2 (proj2 (SaveLightBlock_counts_twice ex_store 7 71 _ _ _ _ eq_refl))); by_decide.
Defined.


End LightStore.
