(* ===== verification/LightClient.v ===== *)
(** * LightClient: [light/client.go] and [light/detector.go]

    The client asks providers for light blocks, verifies them against what it trusts, compares
    them with witnesses and stores them.  A provider may answer anything at any time:
    answers, their order of arrival and the interleaving of the goroutines that compare
    witnesses come from an environment.  The [n]-th request of a run has the number [n].  A light
    block of a provider has its header, commit and validators.  Loops without a static bound take fuel,
    and running out of it is a panic of the model, so that no path of the code hides it. *)

From S2P Require Import Prelude BitArray Merkle Crypto ValidatorSet Votes Commit Validation Header Light Mediation LightStore.
Import ValidatorSet.ValidatorSet Votes.Votes Commit.Commit Validation.Validation Header.Header Light.Light LightStore.LightStore.

Local Open Scope Z_scope.

Module LightClient.

Section client.
Context `{PubKeyOps, SignCodec, !BatchOps, !HeaderCodec, Merkle.HashOps}.

(** ** Data *)

Record Block := mkBlock { b_header : Header; b_commit : Commit; b_vals : ValidatorSet }.

Definition b_SignedHeader (b : Block) : SignedHeader := mkSignedHeader (Some (b_header b)) (Some (b_commit b)).
Definition b_Height (b : Block) : Z := hHeight (b_header b).
Definition b_Time (b : Block) : Z := hTime (b_header b).
Definition b_Hash (b : Block) : list Z := header_Hash (Some (b_header b)).

(** The identity of a provider. *)
Definition Provider : Type := Z.

Inductive provider_error :=
| ErrNoResponse | ErrLightBlockNotFound | ErrHeightTooHigh | Canceled | DeadlineExceeded | ErrBadLightBlock.

Inductive client_error :=
| FromVerify (e : light_error)
| FromProvider (e : provider_error)
| ErrVerificationFailed (from to : Z) (reason : client_error)
| ErrNoWitnesses | ErrEmptyTrustedStore | ErrFailedHeaderCrossReferencing | ErrLightClientAttack
| ErrConflictingHeaders (b : Block) (witness : nat)
| ErrProposerPrioritiesDiverge (witness : nat)
| ErrNoDivergence
| ErrOther (what : string).

(** What a goroutine that compares a witness sends. *)
Inductive report :=
| Matching
| Conflicting (b : Block) (witness : nat)
| BadWitness (witness : nat)
| Diverging (witness : nat)
| Raw (e : provider_error).

Class Env := {
  ask : nat → Provider → Z → result provider_error Block;
  arrival : nat → nat → list nat;
  sched : nat → list (list report) → list report;
  confirm : nat → bool;
  provider_ChainID : Provider → string;
  blsEnabled : bool
}.

Inductive mode := sequential | skipping.

Record Config := mkConfig {
  chainID : string; trustingPeriod : Z; verificationMode : mode; trustLevel : Fraction;
  maxClockDrift : Z; pruningSize : Z }.

Record Client := mkClient {
  cfg : Config; primary : Provider; witnesses : list Provider;
  trustedStore : Store Block; latestTrustedBlock : option Block;
  evidence : list (Provider * (Block * Block * Block)); tick : nat }.

Definition set_providers (p : Provider) (ws : list Provider) (c : Client) : Client :=
  mkClient (cfg c) p ws (trustedStore c) (latestTrustedBlock c) (evidence c) (tick c).
Definition set_trusted (s : Store Block) (l : option Block) (c : Client) : Client :=
  mkClient (cfg c) (primary c) (witnesses c) s l (evidence c) (tick c).
Definition set_tick (n : nat) (c : Client) : Client :=
  mkClient (cfg c) (primary c) (witnesses c) (trustedStore c) (latestTrustedBlock c) (evidence c) n.
Definition add_evidence (e : Provider * (Block * Block * Block)) (c : Client) : Client :=
  mkClient (cfg c) (primary c) (witnesses c) (trustedStore c) (latestTrustedBlock c) (evidence c ++ [e]) (tick c).

(** Methods of the client: they change it and return a value or an error. *)
Definition CM (A : Type) : Type := Client → outcome (Client * result client_error A).

#[global] Instance CM_ret : MRet CM := λ A a c, Done (c, Ok a).
#[global] Instance CM_bind : MBind CM := λ A B f m c,
  match m c with
  | Done (c', Ok a) => f a c'
  | Done (c', Err e) => Done (c', Err e)
  | Panic w => Panic w
  end.

Definition fail {A} (e : client_error) : CM A := λ c, Done (c, Err e).
Definition crash {A} (w : string) : CM A := λ _, Panic w.
Definition get : CM Client := λ c, Done (c, Ok c).
Definition modify (f : Client → Client) : CM () := λ c, Done (f c, Ok ()).
Definition attempt {A} (m : CM A) : CM (result client_error A) := λ c,
  match m c with Done (c', r) => Done (c', Ok r) | Panic w => Panic w end.
Definition pure_outcome {A} (o : outcome A) : CM A := λ c,
  match o with Done a => Done (c, Ok a) | Panic w => Panic w end.

Context `{!Env}.

(** ** Providers *)

Definition request (p : Provider) (height : Z) : CM (result provider_error Block) := λ c,
  Done (set_tick (S (tick c)) c, Ok (ask (tick c) p height)).

Definition benign (e : provider_error) : bool :=
  match e with ErrNoResponse | ErrLightBlockNotFound | ErrHeightTooHigh => true | _ => false end.
Definition from_context (e : provider_error) : bool := match e with Canceled | DeadlineExceeded => true | _ => false end.

(** [ws[i] = ws[len(ws)-1]; ws = ws[:len(ws)-1]] *)
Definition remove_at (ws : list Provider) (i : nat) : outcome (list Provider) :=
  match ws !! i, last ws with
  | Some _, Some l => Done (take (length ws - 1) (<[i := l]> ws))
  | _, _ => Panic "index out of range"
  end.

Fixpoint remove_all (ws : list Provider) (indexes : list nat) : outcome (list Provider) :=
  match indexes with
  | [] => Done ws
  | i :: indexes => ws ← remove_at ws i; remove_all ws indexes
  end.

(** [None] is [ErrNoWitnesses]. *)
Definition remove_witnesses (ws : list Provider) (indexes : list nat) : outcome (option (list Provider)) :=
  if (length ws <=? length indexes)%nat then Done None
  else Some <$> remove_all ws (rev (merge_sort Nat.le indexes)).

Definition removeWitnesses (indexes : list nat) : CM () := λ c,
  match remove_witnesses (witnesses c) indexes with
  | Done (Some ws) => Done (set_providers (primary c) ws c, Ok ())
  | Done None => Done (c, Err ErrNoWitnesses)
  | Panic w => Panic w
  end.

(** The responses to [findNewPrimary], in their order of arrival. *)
Inductive found := Found (b : Block) (i : nat) (bad : list nat) | NotFound (bad : list nat) (lastError : option provider_error).

Fixpoint collect (responses : list (nat * result provider_error Block)) (bad : list nat)
    (lastError : option provider_error) : found :=
  match responses with
  | [] => NotFound bad lastError
  | (i, Ok b) :: _ => Found b i bad
  | (i, Err e) :: rest => collect rest (if benign e then bad else bad ++ [i]) (Some e)
  end.

Definition responses (c : Client) (height : Z) : list (nat * result provider_error Block) :=
  omap (λ i, (λ w, (i, ask (tick c + i)%nat w height)) <$> witnesses c !! i) (arrival (tick c) (length (witnesses c))).

Definition findNewPrimary (height : Z) (remove : bool) : CM Block := λ c,
  match witnesses c with
  | [] => Done (c, Err ErrNoWitnesses)
  | _ =>
      let c' := set_tick (tick c + length (witnesses c)) c in
      match collect (responses c height) [] None with
      | Found b i bad =>
          let ws := if remove then witnesses c else witnesses c ++ [primary c] in
          match ws !! i with
          | None => Panic "index out of range"
          | Some p => (removeWitnesses (bad ++ [i]);; mret b) (set_providers p ws c')
          end
      | NotFound bad lastError =>
          (attempt (removeWitnesses bad);;
           match lastError with Some e => fail (FromProvider e) | None => crash "nil light block" end) c'
      end
  end.

Definition lightBlockFromPrimary (height : Z) : CM Block :=
  c ← get;
  r ← request (primary c) height;
  match r with
  | Ok l => mret l
  | Err e =>
      if from_context e then fail (FromProvider e)
      else if benign e then findNewPrimary height false
      else findNewPrimary height true
  end.

(** ** Skipping verification *)

Definition verify_at (c : Config) (t n : Block) (now : Z) : outcome (option light_error) :=
  Verify (b_SignedHeader t) (Some (b_vals t)) (b_SignedHeader n) (Some (b_vals n))
    (trustingPeriod c) now (maxClockDrift c) (trustLevel c).

Definition verifySkippingNumerator : Z := 9.
Definition verifySkippingDenominator : Z := 16.

Definition pivot_height (verified upper : Z) : Z :=
  wrap64 (verified + Z.quot (wrap64 (wrap64 (upper - verified) * verifySkippingNumerator)) verifySkippingDenominator).

Fixpoint skip_loop (fuel : nat) (source : Provider) (new : Block) (now : Z)
    (blockCache : list Block) (depth : nat) (verified : Block) (trace : list Block) : CM (list Block) :=
  match fuel with
  | O => crash "out of fuel"
  | S fuel =>
      match blockCache !! depth with
      | None => crash "index out of range"
      | Some upper =>
          c ← get;
          r ← pure_outcome (verify_at (cfg c) verified upper now);
          match r with
          | None =>
              if (depth =? 0)%nat then mret (trace ++ [new])
              else skip_loop fuel source new now (take depth blockCache) 0 upper (trace ++ [upper])
          | Some (ErrNewValSetCantBeTrusted _ _ as err) =>
              if (depth =? length blockCache - 1)%nat then
                let pivotHeight := pivot_height (b_Height verified) (b_Height upper) in
                r ← request source pivotHeight;
                match r with
                | Ok interim => skip_loop fuel source new now (blockCache ++ [interim; interim]) (S depth) verified trace
                | Err e => if benign e then fail (FromVerify err)
                           else fail (ErrVerificationFailed (b_Height verified) pivotHeight (FromProvider e))
                end
              else skip_loop fuel source new now blockCache (S depth) verified trace
          | Some err => fail (ErrVerificationFailed (b_Height verified) (b_Height upper) (FromVerify err))
          end
      end
  end.

(** Enough rounds for blocks of the requested heights. *)
Definition skip_fuel (trusted new : Block) : nat :=
  let d := Z.to_nat (b_Height new - b_Height trusted) in S ((d + 1) * (2 * d + 2)).

Definition verifySkipping (source : Provider) (trusted new : Block) (now : Z) : CM (list Block) :=
  skip_loop (skip_fuel trusted new) source new now [new] 0 trusted [trusted].
(** ** Witnesses *)

Definition getTargetBlockOrLatest (height : Z) (witness : Provider) : CM (result provider_error (bool * Block)) :=
  r ← request witness 0;
  match r with
  | Err e => mret (Err e)
  | Ok lightBlock =>
      if b_Height lightBlock =? height then mret (Ok (true, lightBlock))
      else if height <? b_Height lightBlock then
        r ← request witness height;
        mret (match r with Ok b => Ok (true, b) | Err e => Err e end)
      else mret (Ok (false, lightBlock))
  end.

(** The end of the comparison: a conflict does not end it. *)
Definition compare_blocks (l lightBlock : Block) (i : nat) : list report :=
  (if bytes_equal (b_Hash l) (b_Hash lightBlock) then [] else [Conflicting lightBlock i]) ++
  (if bytes_equal (ProposerPriorityHash (b_vals l)) (ProposerPriorityHash (b_vals lightBlock)) then [] else [Diverging i]) ++
  [Matching].

Definition compareNewLightBlockWithWitness (l : Block) (witness : Provider) (i : nat) : CM (list report) :=
  r ← request witness (b_Height l);
  match r with
  | Ok lightBlock => mret (compare_blocks l lightBlock i)
  | Err ErrHeightTooHigh =>
      r ← getTargetBlockOrLatest (b_Height l) witness;
      match r with
      | Err e => mret [Raw e]
      | Ok (true, lightBlock) => mret (compare_blocks l lightBlock i)
      | Ok (false, lightBlock) =>
          if negb (b_Time lightBlock <? b_Time l) then mret [Conflicting lightBlock i]
          else
            r ← getTargetBlockOrLatest (b_Height l) witness;
            match r with
            | Err e => mret (if from_context e then [Raw e] else [BadWitness i])
            | Ok (true, lightBlock) => mret (compare_blocks l lightBlock i)
            | Ok (false, lightBlock) =>
                if negb (b_Time lightBlock <? b_Time l) then mret [Conflicting lightBlock i] else mret [Raw ErrNoResponse]
            end
      end
  | Err ErrBadLightBlock => mret [BadWitness i]
  | Err e => mret [Raw e]
  end.

(** One goroutine per witness. *)
Fixpoint compare_all (l : Block) (ws : list Provider) (i : nat) : CM (list (list report)) :=
  match ws with
  | [] => mret []
  | w :: ws =>
      q ← compareNewLightBlockWithWitness l w i;
      qs ← compare_all l ws (S i);
      mret (q :: qs)
  end.

(** As many reports are received as there are witnesses. *)
Definition received (qs : list (list report)) : CM (list report) :=
  c ← get; mret (sched (tick c) qs).

(** ** Conflicting headers *)

Fixpoint examine_loop (trace : list Block) (previouslyVerified : option Block) (sourceTrace : list Block)
    (target : Block) (source : Provider) (now : Z) : CM (list Block * Block) :=
  match trace with
  | [] => fail ErrNoDivergence
  | traceBlock :: trace =>
      if b_Height target <? b_Height traceBlock then
        if b_Time target <? b_Time traceBlock then fail (ErrOther "sanity check failed")
        else
          match previouslyVerified with
          | None => crash "nil pointer dereference"
          | Some prev =>
              if negb (b_Height prev =? b_Height target) then
                sourceTrace ← verifySkipping source prev target now;
                mret (sourceTrace, traceBlock)
              else mret (sourceTrace, traceBlock)
          end
      else
        sourceBlock ← (if b_Height traceBlock =? b_Height target then mret target
                       else r ← request source (b_Height traceBlock);
                            match r with Ok b => mret b | Err e => fail (FromProvider e) end);
        match previouslyVerified with
        | None =>
            if negb (bytes_equal (b_Hash sourceBlock) (b_Hash traceBlock))
            then fail (ErrOther "trusted block is different to the source's first block")
            else examine_loop trace (Some sourceBlock) sourceTrace target source now
        | Some prev =>
            sourceTrace ← verifySkipping source prev sourceBlock now;
            if negb (bytes_equal (b_Hash sourceBlock) (b_Hash traceBlock)) then mret (sourceTrace, traceBlock)
            else examine_loop trace (Some sourceBlock) sourceTrace target source now
        end
  end.

Definition examineConflictingHeaderAgainstTrace (trace : list Block) (target : Block) (source : Provider) (now : Z)
    : CM (list Block * Block) :=
  match trace with
  | [] => crash "index out of range"
  | first :: _ =>
      if b_Height target <? b_Height first then fail (ErrOther "target block has a height lower than the trusted height")
      else examine_loop trace None [] target source now
  end.

(** [sendEvidence]: what the evidence is made from. *)
Definition sendEvidence (receiver : Provider) (conflicted trusted common : Block) : CM () :=
  modify (add_evidence (receiver, (conflicted, trusted, common))).

Definition first_and_last (trace : list Block) : CM (Block * Block) :=
  match head trace, last trace with Some a, Some b => mret (a, b) | _, _ => crash "index out of range" end.

Definition handleConflictingHeaders (primaryTrace : list Block) (challenging : Block) (witnessIndex : nat) (now : Z) : CM () :=
  c ← get;
  match witnesses c !! witnessIndex with
  | None => crash "index out of range"
  | Some supportingWitness =>
      r ← attempt (examineConflictingHeaderAgainstTrace primaryTrace challenging supportingWitness now);
      match r with
      | Err _ => mret ()
      | Ok (witnessTrace, primaryBlock) =>
          ct ← first_and_last witnessTrace;
          sendEvidence supportingWitness primaryBlock ct.2 ct.1;;
          r ← attempt (examineConflictingHeaderAgainstTrace witnessTrace primaryBlock (primary c) now);
          match r with
          | Err _ => fail ErrLightClientAttack
          | Ok (primaryTrace, witnessBlock) =>
              ct ← first_and_last primaryTrace;
              sendEvidence (primary c) witnessBlock ct.2 ct.1;;
              fail ErrLightClientAttack
          end
      end
  end.

Fixpoint handle_reports (rs : list report) (primaryTrace : list Block) (now : Z) (headerMatched : bool) (bad : list nat)
    : CM (bool * list nat) :=
  match rs with
  | [] => mret (headerMatched, bad)
  | Matching :: rs => handle_reports rs primaryTrace now true bad
  | Conflicting b i :: rs =>
      handleConflictingHeaders primaryTrace b i now;;
      handle_reports rs primaryTrace now headerMatched (bad ++ [i])
  | BadWitness i :: rs => handle_reports rs primaryTrace now headerMatched (bad ++ [i])
  | Diverging i :: _ => fail (ErrProposerPrioritiesDiverge i)
  | Raw e :: rs => if from_context e then fail (FromProvider e) else handle_reports rs primaryTrace now headerMatched bad
  end.

Definition detectDivergence (primaryTrace : list Block) (now : Z) : CM () :=
  match last primaryTrace with
  | Some lastVerified =>
      if (length primaryTrace <? 2)%nat then fail (ErrOther "nil or single block primary trace")
      else
        c ← get;
        if (length (witnesses c) =? 0)%nat then fail ErrNoWitnesses
        else
          qs ← compare_all lastVerified (witnesses c) 0;
          rs ← received qs;
          mb ← handle_reports rs primaryTrace now false [];
          removeWitnesses mb.2;;
          if (mb.1 : bool) then mret () else fail ErrFailedHeaderCrossReferencing
  | None => fail (ErrOther "nil or single block primary trace")
  end.

Fixpoint handle_first_reports (rs : list report) (bad : list nat) : CM (list nat) :=
  match rs with
  | [] => mret bad
  | Matching :: rs => handle_first_reports rs bad
  | Conflicting b i :: _ => fail (ErrConflictingHeaders b i)
  | BadWitness i :: rs => handle_first_reports rs (bad ++ [i])
  | Diverging i :: _ => fail (ErrProposerPrioritiesDiverge i)
  | Raw e :: rs => if from_context e then fail (FromProvider e) else handle_first_reports rs bad
  end.

Definition compareFirstLightBlockWithWitnesses (l : Block) : CM () :=
  c ← get;
  if (length (witnesses c) =? 0)%nat then fail ErrNoWitnesses
  else
    qs ← compare_all l (witnesses c) 0;
    rs ← received qs;
    bad ← handle_first_reports rs [];
    attempt (removeWitnesses bad);;
    mret ().

(** ** Verification against the primary *)

(** [errors.Unwrap(err).(type)] is [ErrInvalidHeader]; the height that failed. *)
Definition invalid_header (e : client_error) : option Z :=
  match e with ErrVerificationFailed _ to_ (FromVerify (ErrInvalidHeader _)) => Some to_ | _ => None end.

(** [errors.Unwrap(err)] is nil: only [ErrVerificationFailed] wraps an error. *)
Definition unwraps_to_nil (e : client_error) : bool := match e with ErrVerificationFailed _ _ _ => false | _ => true end.

Fixpoint verifySkippingAgainstPrimary (fuel : nat) (trusted new : Block) (now : Z) : CM () :=
  match fuel with
  | O => crash "out of fuel"
  | S fuel =>
      c ← get;
      r ← attempt (verifySkipping (primary c) trusted new now);
      match r with
      | Ok trace => detectDivergence trace now
      | Err e =>
          match invalid_header e with
          | Some to_ =>
              if to_ =? b_Height new then fail e
              else
                r ← attempt (findNewPrimary (b_Height new) true);
                match r with
                | Err _ => fail e
                | Ok replacement =>
                    if negb (bytes_equal (b_Hash replacement) (b_Hash new)) then fail e
                    else verifySkippingAgainstPrimary fuel trusted replacement now
                end
          | None => if unwraps_to_nil e then detectDivergence [] now else fail e
          end
      end
  end.

Definition verify_adjacent_at (c : Config) (t n : Block) (now : Z) : outcome (option light_error) :=
  VerifyAdjacent (b_SignedHeader t) (b_SignedHeader n) (Some (b_vals n)) (trustingPeriod c) now (maxClockDrift c).

Fixpoint sequential_loop (fuel : nat) (new : Block) (now : Z) (height : Z) (verified : Block) (trace : list Block)
    : CM (list Block) :=
  match fuel with
  | O => crash "out of fuel"
  | S fuel =>
      if b_Height new <? height then mret trace
      else
        r ← (if height =? b_Height new then mret (Ok new) else attempt (lightBlockFromPrimary height));
        match r with
        | Err e => fail (ErrVerificationFailed (b_Height verified) height e)
        | Ok interim =>
            c ← get;
            r ← pure_outcome (verify_adjacent_at (cfg c) verified interim now);
            match r with
            | None => sequential_loop fuel new now (wrap64 (height + 1)) interim (trace ++ [interim])
            | Some e =>
                let err := ErrVerificationFailed (b_Height verified) (b_Height interim) (FromVerify e) in
                match e with
                | ErrInvalidHeader _ =>
                    if b_Height interim =? b_Height new then fail err
                    else
                      r ← attempt (findNewPrimary (b_Height new) true);
                      match r with
                      | Err _ => fail err
                      | Ok replacement =>
                          if negb (bytes_equal (b_Hash replacement) (b_Hash new)) then fail err
                          else sequential_loop fuel new now height verified trace
                      end
                | _ => fail err
                end
            end
        end
  end.

(** Every round moves up one height or drops a primary. *)
Definition sequential_fuel (c : Client) (trusted new : Block) : nat :=
  (Z.to_nat (b_Height new - b_Height trusted) + length (witnesses c) + 2)%nat.

Definition verifySequential (trusted new : Block) (now : Z) : CM () :=
  c ← get;
  trace ← sequential_loop (sequential_fuel c trusted new) new now (wrap64 (b_Height trusted + 1)) trusted [trusted];
  detectDivergence trace now.

Fixpoint backwards (fuel : nat) (verifiedHeader newHeader : Header) : CM () :=
  match fuel with
  | O => crash "out of fuel"
  | S fuel =>
      if hHeight verifiedHeader <=? hHeight newHeader then mret ()
      else
        interim ← lightBlockFromPrimary (wrap64 (hHeight verifiedHeader - 1));
        r ← pure_outcome (VerifyBackwards (Some (b_header interim)) (Some verifiedHeader));
        match r with
        | None => backwards fuel (b_header interim) newHeader
        | Some err =>
            r ← attempt (findNewPrimary (hHeight newHeader) true);
            match r with
            | Err _ => fail (FromVerify err)
            | Ok newPrimarysBlock =>
                if negb (bytes_equal (b_Hash newPrimarysBlock) (header_Hash (Some newHeader))) then fail (FromVerify err)
                else backwards fuel verifiedHeader (b_header newPrimarysBlock)
            end
        end
  end.

Definition backwards_fuel (c : Client) (trusted new : Header) : nat :=
  (Z.to_nat (hHeight trusted - hHeight new) + length (witnesses c) + 2)%nat.

(** ** The trusted store *)

Definition updateTrustedLightBlock (l : Block) : CM () :=
  c ← get;
  s ← pure_outcome (SaveLightBlock (trustedStore c) (b_Height l) l);
  let s := if 0 <? pruningSize (cfg c) then Prune s (pruningSize (cfg c)) else s in
  let latest := match latestTrustedBlock c with
                | None => Some l
                | Some t => if b_Height t <? b_Height l then Some l else Some t
                end in
  modify (set_trusted s latest).

Definition restoreTrustedLightBlock : CM () :=
  c ← get;
  let lastHeight := LastLightBlockHeight (trustedStore c) in
  if lastHeight =? -1 then fail ErrEmptyTrustedStore
  else
    b ← pure_outcome (LightBlock (trustedStore c) lastHeight);
    match b with
    | None => fail (ErrOther "can't get last trusted light block")
    | Some b => modify (set_trusted (trustedStore c) (Some b))
    end.

Definition Cleanup : CM () := modify (λ c, set_trusted (Prune (trustedStore c) 0) None c).

Fixpoint cleanup_loop (fuel : nat) (s : Store Block) (height prevHeight : Z) : outcome (Store Block) :=
  match fuel with
  | O => Panic "out of fuel"
  | S fuel =>
      h ← LightBlockBefore s prevHeight;
      match h with
      | None => Done s
      | Some h =>
          if b_Height h <=? height then Done s
          else s ← DeleteLightBlock s (b_Height h); cleanup_loop fuel s height (b_Height h)
      end
  end.

Definition cleanupAfter (height : Z) : CM () :=
  c ← get;
  match latestTrustedBlock c with
  | None => crash "nil pointer dereference"
  | Some latest =>
      s ← pure_outcome (cleanup_loop (S (length (heights (trustedStore c)))) (trustedStore c) height (b_Height latest));
      modify (set_trusted s None);;
      restoreTrustedLightBlock
  end.

Definition compareWithLatestHeight (height : Z) : CM Z :=
  c ← get;
  let latestHeight := LastLightBlockHeight (trustedStore c) in
  if latestHeight =? -1 then fail (ErrOther "no headers exist")
  else if latestHeight <? height then fail (ErrOther "unverified header/valset requested")
  else if height =? 0 then mret latestHeight
  else if height <? 0 then fail (ErrOther "negative height")
  else mret height.

Definition TrustedLightBlock (height : Z) : CM Block :=
  height ← compareWithLatestHeight height;
  c ← get;
  b ← pure_outcome (LightBlock (trustedStore c) height);
  match b with Some b => mret b | None => fail (ErrOther "light block not found") end.

(** ** Entry points *)

Definition verifyFunc (trusted new : Block) (now : Z) : CM () :=
  c ← get;
  match verificationMode (cfg c) with
  | sequential => verifySequential trusted new now
  | skipping => verifySkippingAgainstPrimary (S (length (witnesses c))) trusted new now
  end.

Definition verifyLightBlock (new : Block) (now : Z) : CM () :=
  c ← get;
  let firstBlockHeight := FirstLightBlockHeight (trustedStore c) in
  match latestTrustedBlock c with
  | None => crash "nil pointer dereference"
  | Some latest =>
      (if b_Height latest <=? b_Height new then verifyFunc latest new now
       else if b_Height new <? firstBlockHeight then
         b ← pure_outcome (LightBlock (trustedStore c) firstBlockHeight);
         match b with
         | None => fail (ErrOther "can't get first light block")
         | Some first => backwards (backwards_fuel c (b_header first) (b_header new)) (b_header first) (b_header new)
         end
       else
         b ← pure_outcome (LightBlockBefore (trustedStore c) (b_Height new));
         match b with
         | None => fail (ErrOther "can't get signed header before height")
         | Some closest => verifyFunc closest new now
         end);;
      updateTrustedLightBlock new
  end.

Definition VerifyLightBlockAtHeight (height now : Z) : CM Block :=
  if height <=? 0 then fail (ErrOther "negative or zero height")
  else
    r ← attempt (TrustedLightBlock height);
    match r with
    | Ok h => mret h
    | Err _ => l ← lightBlockFromPrimary height; verifyLightBlock l now;; mret l
    end.

Definition VerifyHeader (newHeader : option Header) (now : Z) : CM () :=
  match newHeader with
  | None => fail (ErrOther "nil header")
  | Some h =>
      if hHeight h <=? 0 then fail (ErrOther "negative or zero height")
      else
        r ← attempt (TrustedLightBlock (hHeight h));
        match r with
        | Ok l => if negb (bytes_equal (b_Hash l) (header_Hash (Some h)))
                  then fail (ErrOther "existing trusted header does not match newHeader") else mret ()
        | Err _ =>
            l ← lightBlockFromPrimary (hHeight h);
            if negb (bytes_equal (b_Hash l) (header_Hash (Some h)))
            then fail (ErrOther "light block header does not match newHeader")
            else verifyLightBlock l now
        end
  end.

Definition Update (now : Z) : CM (option Block) :=
  c ← get;
  let lastTrustedHeight := LastLightBlockHeight (trustedStore c) in
  if lastTrustedHeight =? -1 then mret None
  else
    latestBlock ← lightBlockFromPrimary 0;
    if lastTrustedHeight <? b_Height latestBlock
    then verifyLightBlock latestBlock now;; mret (Some latestBlock)
    else mret None.

(** ** Initialisation *)

Record TrustOptions := mkTrustOptions { to_Period : Z; to_Height : Z; to_Hash : list Z }.

Definition to_ValidateBasic (o : TrustOptions) : option string :=
  if to_Period o <=? 0 then Some "negative or zero period"%string
  else if to_Height o <=? 0 then Some "zero or negative height"%string
  else if negb (zlen (to_Hash o) =? Merkle.tmhash_size) then Some "wrong hash size"%string
  else None.

(** The two questions to the user are numbered 0 and 1. *)
Definition checkTrustedHeaderUsingOptions (o : TrustOptions) : CM () :=
  c ← get;
  match latestTrustedBlock c with
  | None => crash "nil pointer dereference"
  | Some latest =>
      primaryHash ←
        (if b_Height latest <? to_Height o then
           h ← lightBlockFromPrimary (b_Height latest); mret (Some (b_Hash h))
         else if to_Height o =? b_Height latest then mret (Some (to_Hash o))
         else if confirm 0 then cleanupAfter (to_Height o);; mret (Some (to_Hash o))
         else mret None);
      match primaryHash with
      | None => mret ()
      | Some primaryHash =>
          c ← get;
          match latestTrustedBlock c with
          | None => crash "nil pointer dereference"
          | Some latest =>
              if negb (bytes_equal primaryHash (b_Hash latest)) then
                if negb (confirm 1) then fail (ErrOther "refused to remove the stored light blocks despite hashes mismatch")
                else Cleanup
              else mret ()
          end
      end
  end.

Definition initializeWithTrustOptions (o : TrustOptions) : CM () :=
  l ← lightBlockFromPrimary (to_Height o);
  c ← get;
  r ← pure_outcome (lb_ValidateBasic blsEnabled (mkLightBlock (Some (b_SignedHeader l)) (Some (b_vals l))) (chainID (cfg c)));
  match r with
  | Some e => fail (ErrOther e)
  | None =>
      if negb (bytes_equal (b_Hash l) (to_Hash o)) then fail (ErrOther "expected another header's hash")
      else
        r ← pure_outcome (VerifyCommitLight (chainID (cfg c)) (Some (b_vals l)) (cBlockID (b_commit l)) (b_Height l) (Some (b_commit l)));
        match r with
        | Some e => fail (ErrOther "invalid commit")
        | None => compareFirstLightBlockWithWitnesses l;; updateTrustedLightBlock l
        end
  end.

Definition NewClientFromTrustedStore (config : Config) (p : Provider) (ws : list Provider) (s : Store Block)
    : outcome (Client * result client_error ()) :=
  let c := mkClient config p ws s None [] 0 in
  if (length ws =? 0)%nat then Done (c, Err ErrNoWitnesses)
  else if negb (forallb (λ w, bool_decide (provider_ChainID w = chainID config)) ws)
  then Done (c, Err (ErrOther "witness is on another chain"))
  else if negb (ValidateTrustLevel (trustLevel config)) then Done (c, Err (ErrOther "trustLevel must be within [1/3, 1]"))
  else restoreTrustedLightBlock c.

(** The trusting period comes from the trust options. *)
Definition with_period (c : Config) (period : Z) : Config :=
  mkConfig (chainID c) period (verificationMode c) (trustLevel c) (maxClockDrift c) (pruningSize c).

Definition new_client_tail (o : TrustOptions) : CM () :=
  c ← get;
  match latestTrustedBlock c with
  | Some _ => checkTrustedHeaderUsingOptions o
  | None => mret ()
  end;;
  c ← get;
  match latestTrustedBlock c with
  | None => initializeWithTrustOptions o
  | Some latest => if b_Height latest <? to_Height o then initializeWithTrustOptions o else mret ()
  end.

Definition NewClient (config : Config) (o : TrustOptions) (p : Provider) (ws : list Provider) (s : Store Block)
    : outcome (Client * result client_error ()) :=
  match to_ValidateBasic o with
  | Some e => Done (mkClient config p ws s None [] 0, Err (ErrOther e))
  | None =>
      match NewClientFromTrustedStore (with_period config (to_Period o)) p ws s with
      | Panic w => Panic w
      | Done (c, Err ErrEmptyTrustedStore) | Done (c, Ok _) => new_client_tail o c
      | Done (c, Err e) => Done (c, Err e)
      end
  end.


End client.

End LightClient.
