(* ===== verification/LightSafety.v ===== *)
(** * LightSafety: what the light client guarantees

    Verification only changes the providers, the evidence and the number of requests; the
    trace of a verified block is a chain of accepted verifications; skipping verification ends, and
    succeeds with an honest source; and what the store then holds. *)

From S2P Require Import Prelude BitArray Merkle Crypto ValidatorSet Votes Commit Validation Header Light Mediation LightStore LightClient.
Import ValidatorSet.ValidatorSet Votes.Votes Commit.Commit Validation.Validation Header.Header Light.Light LightStore.LightStore LightClient.LightClient.

Local Open Scope Z_scope.

Module LightSafety.

(** Lemmas on what a client method leaves unchanged. *)
Create HintDb light.

Section safety.
Context `{PubKeyOps, SignCodec, !BatchOps, !HeaderCodec, Merkle.HashOps, !Env}.

(** ** What verification leaves unchanged *)

Definition same_trust (c c' : Client) : Prop :=
  cfg c' = cfg c ∧ trustedStore c' = trustedStore c ∧ latestTrustedBlock c' = latestTrustedBlock c.

#[local] Instance same_trust_preorder : PreOrder same_trust.
Proof. split; [by intros c|]. intros a b c (E1 & E2 & E3) (F1 & F2 & F3). unfold same_trust. by rewrite F1, F2, F3. Qed.

Definition keeps {A} (m : CM A) : Prop := ∀ c c' r, m c = Done (c', r) → same_trust c c'.

Lemma bind_Done {A B} (m : CM A) (f : A → CM B) c c' r :
  (m ≫= f) c = Done (c', r) →
  (∃ c1 a, m c = Done (c1, Ok a) ∧ f a c1 = Done (c', r)) ∨ (∃ e, m c = Done (c', Err e) ∧ r = Err e).
Proof.
  unfold mbind, CM_bind. destruct (m c) as [[c1 [a|e]]|]; [|intros [= -> <-]|done]; [left; eauto|right; eauto].
Qed.

Lemma bind_Ok {A B} (m : CM A) (f : A → CM B) c c' b :
  (m ≫= f) c = Done (c', Ok b) → ∃ c1 a, m c = Done (c1, Ok a) ∧ f a c1 = Done (c', Ok b).
Proof. intros [?|(e & _ & ?)]%bind_Done; [done|]. done. Qed.

Lemma keeps_bind {A B} (m : CM A) (f : A → CM B) : keeps m → (∀ a, keeps (f a)) → keeps (m ≫= f).
Proof.
  intros Hm Hf c c' r [(c1 & a & E1 & E2)|(e & E & _)]%bind_Done; [|by eapply Hm].
  etrans; [by eapply Hm|by eapply Hf].
Qed.
Lemma keeps_ret {A} (a : A) : keeps (mret a).
Proof. by intros c c' r [= -> _]. Qed.
Lemma keeps_fail {A} e : keeps (fail (A:=A) e).
Proof. by intros c c' r [= -> _]. Qed.
Lemma keeps_crash {A} w : keeps (crash (A:=A) w).
Proof. done. Qed.
Lemma keeps_get : keeps get.
Proof. by intros c c' r [= -> _]. Qed.
Lemma keeps_pure {A} (o : outcome A) : keeps (pure_outcome o).
Proof. intros c c' r. unfold pure_outcome. by destruct o; [intros [= -> _]|]. Qed.
Lemma keeps_attempt {A} (m : CM A) : keeps m → keeps (attempt m).
Proof. intros Hm c c' r. unfold attempt. destruct (m c) as [[c1 r1]|] eqn:E; [|done]. intros [= -> _]. by eapply Hm. Qed.
Lemma keeps_request p h : keeps (request p h).
Proof. by intros c c' r [= <- _]. Qed.
Lemma keeps_evidence a b d e : keeps (sendEvidence a b d e).
Proof. by intros c c' r [= <- _]. Qed.
Lemma keeps_remove l : keeps (removeWitnesses l).
Proof. intros c c' r. unfold removeWitnesses. by destruct (remove_witnesses _ _) as [[ws|]|]; [intros [= <- _]|intros [= <- _]|]. Qed.

Hint Resolve keeps_ret keeps_fail keeps_crash keeps_get keeps_pure keeps_attempt keeps_request keeps_evidence keeps_remove : light.

(** Splits a method into its steps. *)
Ltac keeps_steps :=
  repeat first [ match goal with |- keeps (mbind _ _) => apply keeps_bind; [|intros ?] end | progress auto with light | case_match ].

Lemma keeps_findNewPrimary h b : keeps (findNewPrimary h b).
Proof.
  intros c c' r. unfold findNewPrimary. destruct (witnesses c) as [|w ws] eqn:Ew; [by intros [= <- _]|].
  destruct (collect _ _ _) as [lb i bad|bad e].
  - destruct (_ !! i); [|done]. intros E. transitivity (set_tick (tick c + length (w :: ws)) c); [done|].
    assert (Hk : keeps (removeWitnesses (bad ++ [i]) ≫= λ _, mret lb)) by (apply keeps_bind; auto with light).
    apply Hk in E. by etrans; [|exact E].
  - intros E. transitivity (set_tick (tick c + length (w :: ws)) c); [done|].
    eapply keeps_bind; [..|exact E]; [auto with light|]. intros ?. destruct e; auto with light.
Qed.
Hint Resolve keeps_findNewPrimary : light.

Lemma keeps_lightBlockFromPrimary h : keeps (lightBlockFromPrimary h).
Proof. unfold lightBlockFromPrimary. keeps_steps. Qed.
Hint Resolve keeps_lightBlockFromPrimary : light.

Lemma keeps_skip_loop fuel src new now cache depth v trace : keeps (skip_loop fuel src new now cache depth v trace).
Proof.
  revert cache depth v trace. induction fuel as [|fuel IH]; intros cache depth v trace; cbn [skip_loop]; [auto with light|]. keeps_steps.
Qed.
Lemma keeps_verifySkipping src t n now : keeps (verifySkipping src t n now).
Proof. apply keeps_skip_loop. Qed.
Hint Resolve keeps_verifySkipping : light.

Lemma keeps_getTarget h w : keeps (getTargetBlockOrLatest h w).
Proof. unfold getTargetBlockOrLatest. keeps_steps. Qed.
Hint Resolve keeps_getTarget : light.
Lemma keeps_compare l w i : keeps (compareNewLightBlockWithWitness l w i).
Proof. unfold compareNewLightBlockWithWitness. keeps_steps. Qed.
Hint Resolve keeps_compare : light.
Lemma keeps_compare_all l ws i : keeps (compare_all l ws i).
Proof. revert i. induction ws as [|w ws IH]; intros i; cbn [compare_all]; keeps_steps. Qed.
Hint Resolve keeps_compare_all : light.
Lemma keeps_examine_loop trace prev st target src now : keeps (examine_loop trace prev st target src now).
Proof. revert prev st. induction trace as [|b trace IH]; intros prev st; cbn [examine_loop]; keeps_steps. Qed.
Lemma keeps_examine trace target src now : keeps (examineConflictingHeaderAgainstTrace trace target src now).
Proof. unfold examineConflictingHeaderAgainstTrace. pose proof keeps_examine_loop. keeps_steps. Qed.
Hint Resolve keeps_examine : light.
Lemma keeps_first_and_last t : keeps (first_and_last t).
Proof. unfold first_and_last. keeps_steps. Qed.
Hint Resolve keeps_first_and_last : light.
Lemma keeps_handleConflicting trace b i now : keeps (handleConflictingHeaders trace b i now).
Proof. unfold handleConflictingHeaders. keeps_steps. Qed.
Hint Resolve keeps_handleConflicting : light.
Lemma keeps_handle_reports rs trace now m bad : keeps (handle_reports rs trace now m bad).
Proof. revert m bad. induction rs as [|r rs IH]; intros m bad; cbn [handle_reports]; keeps_steps. Qed.
Hint Resolve keeps_handle_reports : light.
Lemma keeps_detect trace now : keeps (detectDivergence trace now).
Proof. unfold detectDivergence, received. keeps_steps. Qed.
Hint Resolve keeps_detect : light.
Lemma keeps_againstPrimary fuel t n now : keeps (verifySkippingAgainstPrimary fuel t n now).
Proof. revert n. induction fuel as [|fuel IH]; intros n; cbn [verifySkippingAgainstPrimary]; keeps_steps. Qed.
Hint Resolve keeps_againstPrimary : light.
Lemma keeps_sequential_loop fuel new now h v trace : keeps (sequential_loop fuel new now h v trace).
Proof. revert h v trace. induction fuel as [|fuel IH]; intros h v trace; cbn [sequential_loop]; keeps_steps. Qed.
Hint Resolve keeps_sequential_loop : light.
Lemma keeps_verifyFunc t n now : keeps (verifyFunc t n now).
Proof. unfold verifyFunc, verifySequential. keeps_steps. Qed.
Lemma keeps_backwards fuel v n : keeps (backwards fuel v n).
Proof. revert v n. induction fuel as [|fuel IH]; intros v n; cbn [backwards]; keeps_steps. Qed.
Hint Resolve keeps_verifyFunc keeps_backwards : light.
(** ** The trace of a verification *)

(** Every block of the trace is accepted from the block before it. *)
Definition chain_of (R : Block → Block → Prop) (l : list Block) : Prop :=
  ∀ i a b, l !! i = Some a → l !! S i = Some b → R a b.

Definition accepted (c : Config) (now : Z) (a b : Block) : Prop :=
  Verify (b_SignedHeader a) (Some (b_vals a)) (b_SignedHeader b) (Some (b_vals b))
    (trustingPeriod c) now (maxClockDrift c) (trustLevel c) = Done None.

Lemma chain_snoc R l a b : chain_of R l → last l = Some a → R a b → chain_of R (l ++ [b]).
Proof.
  intros Hc Hl Hab i x y Hx Hy. destruct (decide (S i < length l)%nat).
  - rewrite lookup_app_l in Hx, Hy by lia. by eapply Hc.
  - assert (Hy' := lookup_lt_Some _ _ _ Hy). rewrite length_app in Hy'. simpl in Hy'.
    assert (i = length l - 1)%nat as -> by lia. rewrite last_lookup in Hl. replace (length l - 1)%nat with (pred (length l)) in * by lia.
    rewrite lookup_app_l in Hx by (apply lookup_lt_Some in Hl; lia). rewrite lookup_app_r in Hy by lia.
    replace (S _ - length l)%nat with 0%nat in Hy by lia. injection Hy as <-. by simplify_eq.
Qed.

(** A trace from [t] to [n]. *)
Definition trace_of (R : Block → Block → Prop) (t n : Block) (l : list Block) : Prop :=
  head l = Some t ∧ last l = Some n ∧ (2 ≤ length l)%nat ∧ chain_of R l.

Lemma chain_single R t : chain_of R [t].
Proof. intros [|i] a b Ha Hb; done. Qed.

Lemma trace_snoc R t l a b : head l = Some t → last l = Some a → chain_of R l → R a b → trace_of R t b (l ++ [b]).
Proof.
  intros Hh Hl Hc Hab. split_and!; [by destruct l|apply last_snoc| |by eapply chain_snoc].
  destruct l; [done|]. rewrite length_app. simpl. lia.
Qed.

(** One round of the loop, after the verification gave [r]. *)
Definition skip_next (fuel : nat) (src : Provider) (new : Block) (now : Z) (cache : list Block) (depth : nat) (v : Block)
    (trace : list Block) (upper : Block) (r : option light_error) : CM (list Block) :=
  match r with
  | None =>
      if (depth =? 0)%nat then mret (trace ++ [new])
      else skip_loop fuel src new now (take depth cache) 0 upper (trace ++ [upper])
  | Some (ErrNewValSetCantBeTrusted _ _ as err) =>
      if (depth =? length cache - 1)%nat then
        r ← request src (pivot_height (b_Height v) (b_Height upper));
        match r with
        | Ok interim => skip_loop fuel src new now (cache ++ [interim; interim]) (S depth) v trace
        | Err e => if benign e then fail (FromVerify err)
                   else fail (ErrVerificationFailed (b_Height v) (pivot_height (b_Height v) (b_Height upper)) (FromProvider e))
        end
      else skip_loop fuel src new now cache (S depth) v trace
  | Some err => fail (ErrVerificationFailed (b_Height v) (b_Height upper) (FromVerify err))
  end.

Lemma skip_loop_S fuel src new now cache depth v trace c upper :
  cache !! depth = Some upper →
  skip_loop (S fuel) src new now cache depth v trace c =
  match verify_at (cfg c) v upper now with
  | Done r => skip_next fuel src new now cache depth v trace upper r c
  | Panic w => Panic w
  end.
Proof.
  intros E. cbn [skip_loop]. rewrite E. unfold mbind at 1, CM_bind at 1, get at 1. unfold mbind at 1, CM_bind at 1, pure_outcome.
  destruct (verify_at (cfg c) v upper now) as [r|]; reflexivity.
Qed.

Lemma skip_loop_sound fuel src new now cache depth v trace t c c' l :
  cache !! 0%nat = Some new → head trace = Some t → last trace = Some v → chain_of (accepted (cfg c) now) trace →
  skip_loop fuel src new now cache depth v trace c = Done (c', Ok l) → trace_of (accepted (cfg c) now) t new l.
Proof.
  revert cache depth v trace c. induction fuel as [|fuel IH]; intros cache depth v trace c Hcache Hh Hl Hc E; [done|].
  destruct (cache !! depth) as [upper|] eqn:Eu; [|by cbn [skip_loop] in E; rewrite Eu in E]. rewrite (skip_loop_S _ _ _ _ _ _ _ _ _ _ Eu) in E.
  destruct (verify_at (cfg c) v upper now) as [r|] eqn:Ev; [|done]. destruct r as [err|]; cbn [skip_next] in E.
  - destruct err; try done. destruct (_ =? _)%nat.
    + apply bind_Ok in E as (c1 & r & Er & E). injection Er as <- <-. destruct (ask _ _ _) as [interim|e].
      * eapply (IH (cache ++ [interim; interim])) in E; [done| |done..]. by apply lookup_app_l_Some.
      * by destruct (benign e).
    + by eapply IH in E.
  - destruct (Nat.eqb_spec depth 0) as [->|].
    + injection E as _ <-. simplify_eq. by eapply trace_snoc.
    + eapply IH in E; [done| |destruct trace; done|apply last_snoc|by eapply chain_snoc]. by rewrite lookup_take_lt by lia.
Qed.

Lemma verifySkipping_trace src t n now c c' l :
  verifySkipping src t n now c = Done (c', Ok l) → trace_of (accepted (cfg c) now) t n l.
Proof. apply skip_loop_sound; [done..|]. apply chain_single. Qed.

(** Blocks that carry the same header. *)
Definition same_header (a b : Block) : Prop := b_Hash a = b_Hash b.

Lemma againstPrimary_trace fuel t n now c c' :
  verifySkippingAgainstPrimary fuel t n now c = Done (c', Ok ()) →
  ∃ n' l, same_header n' n ∧ trace_of (accepted (cfg c) now) t n' l.
Proof.
  revert n c. induction fuel as [|fuel IH]; intros n c E; [done|]. cbn [verifySkippingAgainstPrimary] in E.
  apply bind_Ok in E as (c0 & ? & [= <- <-] & E). apply bind_Ok in E as (c1 & r & Er & E). unfold attempt in Er.
  destruct (verifySkipping _ _ _ _ _) as [[c2 r2]|] eqn:Es; [|done]. injection Er as <- <-. destruct r2 as [l|e].
  { exists n, l. split; [done|]. by apply verifySkipping_trace in Es. }
  pose proof (keeps_verifySkipping _ _ _ _ _ _ _ Es) as (Hcfg & _). destruct (invalid_header e) as [h|].
  - destruct (h =? _); [done|]. apply bind_Ok in E as (c3 & r3 & Er & E). apply (keeps_attempt _ (keeps_findNewPrimary _ _)) in Er as (Hcfg' & _).
    destruct r3 as [rep|]; [|done]. destruct (bytes_equal _ _) eqn:Eb; [|done]. apply bytes_equal_spec in Eb.
    apply IH in E as (n' & l & Hn & Hl). rewrite Hcfg', Hcfg in Hl. exists n', l. split; [|done]. unfold same_header in *. congruence.
  - by destruct (unwraps_to_nil e).
Qed.

Definition accepted_next (c : Config) (now : Z) (a b : Block) : Prop := verify_adjacent_at c a b now = Done None.

Lemma sequential_trace fuel new now h v trace t c c' l :
  head trace = Some t → last trace = Some v → chain_of (accepted_next (cfg c) now) trace → (h = b_Height new + 1 → v = new) →
  0 ≤ h ≤ b_Height new + 1 → b_Height new < max_int64 →
  sequential_loop fuel new now h v trace c = Done (c', Ok l) →
  head l = Some t ∧ last l = Some new ∧ chain_of (accepted_next (cfg c) now) l.
Proof.
  intros Hh Hl Hc Hv Hle Hn. revert h v trace c Hh Hl Hc Hv Hle.
  induction fuel as [|fuel IH]; intros h v trace c Hh Hl Hc Hv Hle E; [done|]. cbn [sequential_loop] in E.
  destruct (Z.ltb_spec (b_Height new) h).
  { injection E as _ <-. rewrite <-Hv by lia. done. }
  apply bind_Ok in E as (c1 & r & Er & E). assert (Hcfg : cfg c1 = cfg c).
  { destruct (h =? b_Height new); [by injection Er as <- _|]. by apply (keeps_attempt _ (keeps_lightBlockFromPrimary _)) in Er as (? & _). }
  assert (Hnew : h = b_Height new → r = Ok new).
  { intros ->. rewrite Z.eqb_refl in Er. by injection Er as _ <-. }
  destruct r as [interim|]; [|done]. apply bind_Ok in E as (c2 & ? & [= <- <-] & E).
  apply bind_Ok in E as (c3 & r & Er' & E). unfold pure_outcome in Er'. destruct (verify_adjacent_at _ _ _ _) as [r'|] eqn:Ev; [|done].
  injection Er' as <- <-. destruct r' as [e|].
  - destruct e; try done. destruct (b_Height interim =? b_Height new); [done|]. apply bind_Ok in E as (c4 & r4 & Er4 & E).
    apply (keeps_attempt _ (keeps_findNewPrimary _ _)) in Er4 as (Hcfg' & _). destruct r4 as [rep|]; [|done].
    destruct (negb (bytes_equal _ _)); [done|]. rewrite <-Hcfg, <-Hcfg' in Hc |- *. by eapply IH in E.
  - rewrite <-Hcfg in Hc |- *. eapply IH in E; [done|by destruct trace|apply last_snoc|by eapply chain_snoc| |].
    + intros Eh. rewrite next_height in Eh by lia. assert (h = b_Height new) by lia. specialize (Hnew ltac:(done)). by simplify_eq.
    + rewrite next_height by lia. lia.
Qed.

(** ** What acceptance says about a block *)

(** The validators of a block are the ones its header names. *)
Definition bound (b : Block) : Prop := vals_Hash (b_vals b) = Done (ValidatorsHash (b_header b)).

Lemma new_header_bound b t now drift :
  verifyNewHeaderAndVals (b_SignedHeader b) (Some (b_vals b)) t now drift = Done None →
  bound b ∧ hHeight t < b_Height b ∧ hTime t < b_Time b.
Proof. intros (h & c & [= <- <-] & _ & _ & _ & _ & _ & ? & [? _] & ?)%new_header_inv. done. Qed.

(** Acceptance and a lack of trust both come after the checks of the new header. *)
Definition passes_header (r : option light_error) : Prop :=
  match r with None => True | Some (ErrNewValSetCantBeTrusted _ _) => True | _ => False end.

Lemma verify_passes c t n now r :
  verify_at c t n now = Done r → passes_header r → bound n ∧ b_Height t < b_Height n ∧ b_Time t < b_Time n.
Proof.
  unfold verify_at, Verify. cbn. unfold VerifyNonAdjacent, VerifyAdjacent. cbn. fold (b_Height n) (b_Height t). intros E Hr.
  destruct (_ =? _); cbn in E; (destruct (HeaderExpired _ _ _); [by injection E as <-|]); apply outcome_bind_Done in E as (r1 & E1 & E);
    (destruct r1; [by injection E as <-|]); by apply new_header_bound in E1.
Qed.

Lemma accepted_passes c now t n : accepted c now t n → bound n ∧ b_Height t < b_Height n ∧ b_Time t < b_Time n.
Proof. intros E. by apply (verify_passes c t n now None). Qed.

Lemma verify_at_eq c t n now :
  verify_at c t n now =
  if negb (b_Height n =? wrap64 (b_Height t + 1))
  then VerifyNonAdjacent (b_SignedHeader t) (Some (b_vals t)) (b_SignedHeader n) (Some (b_vals n))
         (trustingPeriod c) now (maxClockDrift c) (trustLevel c)
  else verify_adjacent_at c t n now.
Proof. reflexivity. Qed.

Lemma adjacent_never_untrusted c t n now g k : verify_adjacent_at c t n now ≠ Done (Some (ErrNewValSetCantBeTrusted g k)).
Proof.
  unfold verify_adjacent_at, VerifyAdjacent. intros E. apply outcome_bind_Done in E as (h & _ & E). apply outcome_bind_Done in E as (t' & _ & E).
  destruct (negb _); [done|]. destruct (HeaderExpired _ _ _); [done|]. apply outcome_bind_Done in E as (r & _ & E).
  destruct r; [done|]. destruct (negb _); [done|]. unfold verify_new_commit in E. destruct (shCommit _); [|done].
  apply outcome_bind_Done in E as (r & _ & E). by destruct r.
Qed.

Lemma untrusted_gap c t n now g k :
  verify_at c t n now = Done (Some (ErrNewValSetCantBeTrusted g k)) → 0 ≤ b_Height t < max_int64 → b_Height t + 1 < b_Height n.
Proof.
  intros E Ht. destruct (verify_passes _ _ _ _ _ E I) as (_ & Hlt & _). rewrite verify_at_eq, next_height in E by done.
  destruct (Z.eqb_spec (b_Height n) (b_Height t + 1)); [by apply adjacent_never_untrusted in E|lia].
Qed.

Lemma accepted_next_accepted c now t n : accepted_next c now t n → accepted c now t n.
Proof.
  unfold accepted_next, accepted. fold (verify_at c t n now). rewrite verify_at_eq. intros E. destruct (negb _) eqn:Ea; [|done]. exfalso.
  unfold verify_adjacent_at, VerifyAdjacent in E. apply outcome_bind_Done in E as (h & [= <-] & E).
  apply outcome_bind_Done in E as (t' & [= <-] & E). fold (b_Height n) (b_Height t) in E. by rewrite Ea in E.
Qed.

Lemma trace_impl (R R' : Block → Block → Prop) t n l : (∀ a b, R a b → R' a b) → trace_of R t n l → trace_of R' t n l.
Proof. intros HR (? & ? & ? & Hc). split_and!; try done. intros i a b Ha Hb. apply HR. by eapply Hc. Qed.

Lemma trace_last R t n l : trace_of R t n l → ∃ a, R a n.
Proof.
  intros (_ & Hl & Hlen & Hc). rewrite last_lookup in Hl. destruct (l !! (length l - 2)%nat) as [a|] eqn:Ea.
  - exists a. apply (Hc _ _ _ Ea). by replace (S (length l - 2)) with (pred (length l)) by lia.
  - apply lookup_ge_None in Ea. lia.
Qed.

(** Failing at an intermediate height means that the target passed its checks. *)
Lemma skipping_target_bound src t n now c c' e h :
  verifySkipping src t n now c = Done (c', Err e) → invalid_header e = Some h → h ≠ b_Height n → bound n.
Proof.
  unfold verifySkipping, skip_fuel. generalize ((Z.to_nat (b_Height n - b_Height t) + 1) * (2 * Z.to_nat (b_Height n - b_Height t) + 2))%nat.
  intros fuel E Hi Hne. rewrite (skip_loop_S _ _ _ _ [n] 0 _ _ _ n eq_refl) in E. destruct (verify_at (cfg c) t n now) as [r|] eqn:Ev; [|done].
  destruct r as [err|]; [|done].
  destruct err; try (injection E as _ <-; cbn in Hi; simplify_eq; done). by apply verify_passes in Ev as [? _].
Qed.

Lemma againstPrimary_bound fuel t n now c c' : verifySkippingAgainstPrimary fuel t n now c = Done (c', Ok ()) → bound n.
Proof.
  destruct fuel as [|fuel]; [done|]. cbn [verifySkippingAgainstPrimary]. intros E.
  apply bind_Ok in E as (c0 & ? & [= <- <-] & E). apply bind_Ok in E as (c1 & r & Er & E). unfold attempt in Er.
  destruct (verifySkipping _ _ _ _ _) as [[c2 r2]|] eqn:Es; [|done]. injection Er as <- <-. destruct r2 as [l|e].
  - apply verifySkipping_trace, trace_last in Es as (a & Ha). by apply accepted_passes in Ha as [? _].
  - destruct (invalid_header e) as [h|] eqn:Ei; [|by destruct (unwraps_to_nil e)].
    destruct (Z.eqb_spec h (b_Height n)); [done|]. by eapply skipping_target_bound.
Qed.

(** Both modes. *)
Lemma verifyFunc_trace t n now c c' :
  0 ≤ b_Height t < max_int64 → b_Height n < max_int64 → verifyFunc t n now c = Done (c', Ok ()) →
  bound n ∧ ∃ n' l, same_header n' n ∧ trace_of (accepted (cfg c) now) t n' l.
Proof.
  intros Ht Hn E. unfold verifyFunc in E. apply bind_Ok in E as (c0 & ? & [= <- <-] & E). destruct (verificationMode _).
  - assert (∃ l, trace_of (accepted (cfg c) now) t n l) as [l Hl].
    2:{ split; [|by exists n, l]. destruct (trace_last _ _ _ _ Hl) as (a & Ha). by apply accepted_passes in Ha as [? _]. }
    unfold verifySequential in E. apply bind_Ok in E as (c0 & ? & [= <- <-] & E). apply bind_Ok in E as (c1 & l & El & E).
    exists l. apply (trace_impl (accepted_next (cfg c) now)); [apply accepted_next_accepted|].
    assert (Hlen : (2 ≤ length l)%nat).
    { unfold detectDivergence in E. destruct (last l); [|done]. by destruct (Nat.ltb_spec (length l) 2). }
    rewrite next_height in El by done. destruct (decide (b_Height n ≤ b_Height t)) as [Hle|Hgt].
    { unfold sequential_fuel in El. rewrite Nat.add_comm in El. cbn [Nat.add sequential_loop] in El.
      rewrite (proj2 (Z.ltb_lt _ _)) in El by lia. injection El as _ <-. simpl in Hlen. lia. }
    eapply sequential_trace in El as (Hh & Hl & Hc); [|done|done|apply chain_single|lia..]. done.
  - split; [by eapply againstPrimary_bound|by eapply againstPrimary_trace].
Qed.

(** ** Skipping verification ends *)

Lemma pivot_between v u : 0 ≤ v → v + 2 ≤ u → 9 * u ≤ max_int64 → v < pivot_height v u < u.
Proof.
  intros Hv Hu Hm. unfold pivot_height, verifySkippingNumerator, verifySkippingDenominator.
  rewrite (wrap64_id (u - v)) by (unfold_ints; lia). rewrite (wrap64_id ((u - v) * 9)) by (unfold_ints; lia).
  rewrite Z.quot_div_nonneg by lia. pose proof (Z.div_mod ((u - v) * 9) 16 ltac:(lia)). pose proof (Z.mod_pos_bound ((u - v) * 9) 16 ltac:(lia)).
  rewrite wrap64_id by (unfold_ints; lia). lia.
Qed.

Section skipping.
Context (config : Config) (src : Provider) (now : Z) (P : Block → Prop).

(** Between two heights the source answers with blocks of the requested heights. *)
Definition answers_height (low top : Z) : Prop := ∀ n h b, low < h < top → ask n src h = Ok b → b_Height b = h ∧ P b.

(** The cache: the block at index [k] lies [k/2] heights below the target or lower. *)
Definition cache_ok (low top : Z) (cache : list Block) : Prop :=
  ∀ k b, cache !! k = Some b → P b ∧ Z.of_nat k ≤ 2 * (top - b_Height b) ∧ (k = 0%nat ∨ low < b_Height b).

(** Rounds left: heights still to verify, times the depth of a descent. *)
Definition rounds (low top : Z) (v : Block) (depth : nat) : Z :=
  (top - b_Height v) * (2 * (top - low) + 2) + (2 * (top - low) + 2 - Z.of_nat depth).

Lemma cache_take low top cache n : cache_ok low top cache → cache_ok low top (take n cache).
Proof. intros Hc k b Hk. apply lookup_take_Some in Hk as [Hk _]. by apply Hc. Qed.

Lemma cache_push low top cache b u :
  cache_ok low top cache → last cache = Some u → P b → low < b_Height b < b_Height u → cache_ok low top (cache ++ [b; b]).
Proof.
  intros Hc Hu Hb Hlt k x Hk. apply lookup_app_Some in Hk as [Hk|[Hge Hk]]; [by apply Hc|].
  assert (Hx : x = b ∧ (k ≤ length cache + 1)%nat).
  { destruct (k - length cache)%nat as [|[|[]]] eqn:E; cbn in Hk; simplify_eq; (split; [done|lia]). }
  destruct Hx as [-> Hk']. rewrite last_lookup in Hu. destruct (Hc _ _ Hu) as (_ & Hi & _).
  apply lookup_lt_Some in Hu. split_and!; [done|lia|right; lia].
Qed.

Lemma skip_loop_done fuel new low cache depth v trace c :
  answers_height low (b_Height new) → (∀ a b, P a → P b → is_done (verify_at config a b now) = true) →
  cfg c = config → 0 ≤ low → low < b_Height new → 9 * b_Height new ≤ max_int64 →
  cache_ok low (b_Height new) cache → (depth < length cache)%nat → P v → low ≤ b_Height v ≤ b_Height new →
  rounds low (b_Height new) v depth < Z.of_nat fuel →
  ∃ c' r, skip_loop fuel src new now cache depth v trace c = Done (c', r).
Proof.
  intros Hans Hdone. revert cache depth v trace c.
  induction fuel as [|fuel IH]; intros cache depth v trace c Hcfg Hlow Hlt Hmax Hc Hd Hv Hvh Hr.
  { exfalso. unfold rounds in Hr. destruct (lookup_lt_is_Some_2 cache depth Hd) as [u Hu]. destruct (Hc _ _ Hu) as (_ & ? & [->|?]); nia. }
  destruct (lookup_lt_is_Some_2 cache depth Hd) as [upper Hu]. destruct (Hc _ _ Hu) as (Pu & Hi & Hlo).
  rewrite (skip_loop_S _ _ _ _ _ _ _ _ _ _ Hu). specialize (Hdone v upper Hv Pu) as Hdn. rewrite Hcfg.
  destruct (verify_at config v upper now) as [r|] eqn:Ev; [|done]. unfold rounds in Hr.
  destruct r as [err|]; cbn [skip_next].
  - destruct err; try by do 2 eexists. destruct (verify_passes _ _ _ _ _ Ev I) as (_ & Hh & _).
    assert (Hgap : b_Height v + 1 < b_Height upper).
    { eapply untrusted_gap; [exact Ev|]. split; [lia|]. unfold max_int64 in *. lia. }
    destruct (Nat.eqb_spec depth (length cache - 1)) as [Hlast|].
    + unfold mbind, CM_bind, request. destruct (ask _ _ _) as [b|e] eqn:Ea; [|destruct (benign e); by do 2 eexists].
      pose proof (pivot_between (b_Height v) (b_Height upper) ltac:(lia) ltac:(lia) ltac:(lia)).
      destruct (Hans (tick c) (pivot_height (b_Height v) (b_Height upper)) b ltac:(lia) Ea) as [Hb Pb].
      apply IH; [done..| |rewrite length_app; simpl; lia|done|done|unfold rounds; lia].
      apply (cache_push _ _ _ _ upper Hc); [by rewrite last_lookup, <-Hu; f_equal; lia|done|lia].
    + apply IH; [done..|lia|done|done|unfold rounds; lia].
  - destruct (Nat.eqb_spec depth 0) as [->|]; [by do 2 eexists|]. destruct (verify_passes _ _ _ _ _ Ev I) as (_ & Hh & _).
    apply IH; [done|done|done|done|by apply cache_take|rewrite length_take; lia|done|lia|]. unfold rounds. nia.
Qed.

Lemma verifySkipping_done t n c :
  answers_height (b_Height t) (b_Height n) → (∀ a b, P a → P b → is_done (verify_at config a b now) = true) → P t → P n → cfg c = config →
  0 ≤ b_Height t → 9 * b_Height n ≤ max_int64 → ∃ c' r, verifySkipping src t n now c = Done (c', r).
Proof.
  intros Hans Hdone Pt Pn Hcfg Ht Hmax. destruct (decide (b_Height t < b_Height n)) as [Hlt|Hge].
  - apply (skip_loop_done _ _ (b_Height t)); try done.
    + intros [|k] b Hk; [|done]. injection Hk as <-. split_and!; [done|lia|by left].
    + simpl. lia.
    + lia.
    + unfold rounds, skip_fuel. rewrite Nat2Z.inj_succ, Nat2Z.inj_mul, !Nat2Z.inj_add, Nat2Z.inj_mul, Z2Nat.id by lia. lia.
  - unfold verifySkipping, skip_fuel. rewrite (skip_loop_S _ _ _ _ [n] 0 _ _ _ n eq_refl).
    specialize (Hdone t n Pt Pn). rewrite Hcfg. destruct (verify_at config t n now) as [r|] eqn:Ev; [|done].
    destruct r as [err|]; [|by do 2 eexists]. cbn [skip_next]. destruct err; try by do 2 eexists.
    destruct (verify_passes _ _ _ _ _ Ev I). lia.
Qed.

(** C22: skipping verification returns, within a number of rounds quadratic in the distance,
    whenever the source answers with blocks of the requested heights or with errors; a block
    it returns a trace for is linked to the trusted block by accepted verifications. *)
Theorem verifySkipping_terminates t n c :
  answers_height (b_Height t) (b_Height n) → (∀ a b, P a → P b → is_done (verify_at config a b now) = true) → P t → P n → cfg c = config →
  0 ≤ b_Height t → 9 * b_Height n ≤ max_int64 →
  ∃ c' r, verifySkipping src t n now c = Done (c', r) ∧
    match r with Ok l => trace_of (accepted config now) t n l | Err _ => True end.
Proof.
  intros Hans Hdone Pt Pn Hcfg Ht Hmax. destruct (verifySkipping_done t n c) as (c' & r & E); [done..|].
  exists c', r. split; [done|]. destruct r as [l|]; [|done]. rewrite <-Hcfg. by eapply verifySkipping_trace.
Qed.

End skipping.

(** ** An honest source *)

Section honest.
Context (config : Config) (src : Provider) (now : Z) (chain : Z → Block) (low top : Z).

(** The source serves one chain, whose headers pass their checks from any lower header: each
    is accepted, or too few of the older validators signed it. *)
Record honest_source : Prop := {
  honest_heights h : low ≤ h ≤ top → b_Height (chain h) = h;
  honest_answers n h : low < h < top → ask n src h = Ok (chain h);
  honest_verify i j : low ≤ i → i < j → j ≤ top → ∃ r, verify_at config (chain i) (chain j) now = Done r ∧ passes_header r
}.

(** The state of the loop: the cache descends along the chain above the verified block,
    and the blocks before the current depth were not trusted. *)
Definition descends (cache : list Block) (depth : nat) (v : Block) : Prop :=
  (∃ h, low ≤ h < top ∧ v = chain h) ∧
  (∀ k b, cache !! k = Some b → ∃ h, b_Height v < h ≤ top ∧ b = chain h) ∧
  (∀ k k' b b', (k ≤ k')%nat → cache !! k = Some b → cache !! k' = Some b' → b_Height b' ≤ b_Height b) ∧
  (∀ k b, (k < depth)%nat → cache !! k = Some b → verify_at config v b now ≠ Done None) ∧
  (∀ k b, (0 < k)%nat → cache !! k = Some b → b_Height b < top).

Lemma descends_push cache depth v u p :
  honest_source → descends cache depth v → depth = (length cache - 1)%nat → cache !! depth = Some u →
  verify_at config v u now ≠ Done None → b_Height v < p < b_Height u → descends (cache ++ [chain p; chain p]) (S depth) v.
Proof.
  intros Hh (Hv & Hcache & Hord & Hf & Htop) -> Hu Hne Hp. destruct (Hcache _ _ Hu) as (hu & Hhu & Eu).
  assert (Hpos : (0 < length cache)%nat) by (apply lookup_lt_Some in Hu; lia).
  destruct Hv as (hv & Hhv & ->). rewrite (honest_heights Hh hv) in * by lia.
  assert (Ehu : b_Height u = hu) by (rewrite Eu; apply Hh; lia).
  assert (Hpush : ∀ k b, (cache ++ [chain p; chain p]) !! k = Some b → (cache !! k = Some b ∧ (k < length cache)%nat) ∨ (b = chain p ∧ (length cache ≤ k)%nat)).
  { intros k b Hk. apply lookup_app_Some in Hk as [Hk|[Hge Hk]]; [left; split; [done|by apply lookup_lt_Some in Hk]|right].
    destruct (k - length cache)%nat as [|[|[]]] eqn:E; cbn in Hk; simplify_eq; done. }
  assert (Ehp : b_Height (chain p) = p) by (apply Hh; lia).
  unfold descends. rewrite (honest_heights Hh hv) by lia. split_and!.
  - by exists hv.
  - intros k b [[Hk _]|[-> _]]%Hpush; [by apply (Hcache k)|]. exists p. split; [lia|done].
  - intros k k' b b' Hkk' [[Hk ?]|[-> ?]]%Hpush [[Hk' ?]|[-> ?]]%Hpush; try lia; [by eapply (Hord k k')|].
    assert (b_Height u ≤ b_Height b) by (eapply (Hord k); [|done|exact Hu]; lia). lia.
  - intros k b Hk [[Hk' ?]|[-> ?]]%Hpush; [|lia]. destruct (decide (k = length cache - 1)%nat) as [->|]; [by simplify_eq|].
    eapply (Hf k); [lia|done].
  - intros k b Hk [[Hk' ?]|[-> ?]]%Hpush; [by eapply (Htop k)|lia].
Qed.

Lemma descends_next cache depth v u :
  honest_source → descends cache depth v → cache !! depth = Some u → verify_at config v u now = Done None → (0 < depth)%nat →
  descends (take depth cache) 0 u.
Proof.
  intros Hh (Hv & Hcache & Hord & Hf & Htop) Hu Hok Hd. destruct (Hcache _ _ Hu) as (hu & Hhu & Eu).
  assert (Ehu : b_Height u = hu) by (rewrite Eu; apply Hh; destruct Hv as (hv & ? & ->); rewrite (honest_heights Hh hv) in Hhu by lia; lia).
  assert (Hlt : hu < top) by (rewrite <-Ehu; by eapply (Htop depth)).
  destruct Hv as (hv & Hhv & ->). rewrite (honest_heights Hh hv) in * by lia.
  unfold descends. rewrite Ehu. split_and!.
  - exists hu. split; [lia|done].
  - intros k b Hk. apply lookup_take_Some in Hk as [Hk Hkd]. destruct (Hcache _ _ Hk) as (h & Hhb & ->).
    assert (Eh : b_Height (chain h) = h) by (apply Hh; lia). exists h. split; [|done].
    assert (hu ≤ h) by (rewrite <-Ehu, <-Eh; eapply (Hord k depth); [lia|done|done]).
    assert (h ≠ hu) as Hne by (intros Ee; apply (Hf k _ Hkd Hk); by rewrite Ee, <-Eu). lia.
  - intros k k' b b' Hkk' Hk Hk'. apply lookup_take_Some in Hk as [Hk _], Hk' as [Hk' _]. by eapply (Hord k k').
  - intros k b Hk. lia.
  - intros k b Hk Hk'. apply lookup_take_Some in Hk' as [Hk' _]. by eapply (Htop k).
Qed.

Lemma skip_loop_honest fuel cache depth v trace c c' r :
  honest_source → 0 ≤ low → 9 * top ≤ max_int64 → cfg c = config → descends cache depth v → (depth < length cache)%nat →
  skip_loop fuel src (chain top) now cache depth v trace c = Done (c', r) → ∃ l, r = Ok l.
Proof.
  intros Hh Hlow Hmax. revert cache depth v trace c. induction fuel as [|fuel IH]; intros cache depth v trace c Hcfg HD Hd E; [done|].
  destruct (lookup_lt_is_Some_2 cache depth Hd) as [u Hu]. rewrite (skip_loop_S _ _ _ _ _ _ _ _ _ _ Hu), Hcfg in E.
  pose proof HD as ((hv & Hhv & Ev0) & Hcache & _). destruct (Hcache _ _ Hu) as (hu & Hhu & Eu).
  assert (Ehv : b_Height v = hv) by (rewrite Ev0; apply Hh; lia). rewrite Ehv in Hhu.
  destruct (honest_verify Hh hv hu) as (r' & Er & Hr); [lia..|]. rewrite <-Ev0, <-Eu in Er. rewrite Er in E.
  destruct r' as [err|]; cbn [skip_next] in E.
  - destruct err; try done. assert (Hgap : b_Height v + 1 < b_Height u).
    { eapply untrusted_gap; [exact Er|]. rewrite Ehv. unfold max_int64 in *. lia. }
    assert (Ehu : b_Height u = hu) by (rewrite Eu; apply Hh; lia).
    destruct (Nat.eqb_spec depth (length cache - 1)) as [Hlast|].
    + pose proof (pivot_between (b_Height v) (b_Height u) ltac:(lia) ltac:(lia) ltac:(lia)) as Hp.
      unfold mbind, CM_bind, request in E. rewrite (honest_answers Hh) in E by lia.
      eapply IH in E; [done|done| |rewrite length_app; simpl; lia]. eapply descends_push; [done|exact HD|done|exact Hu|by rewrite Er|done].
    + eapply IH in E; [done|done| |lia]. destruct HD as (? & ? & ? & Hf & ?). split_and!; try done. intros k b Hk Hb.
      destruct (decide (k = depth)) as [->|]; [simplify_eq; by rewrite Er|]. eapply Hf; [|done]. lia.
  - destruct (Nat.eqb_spec depth 0) as [->|]; [injection E as _ <-; by eexists|].
    eapply IH in E; [done|done| |rewrite length_take; lia]. eapply descends_next; [done|exact HD|done|done|lia].
Qed.

(** against an honest source skipping verification succeeds: it ends with a trace
    of accepted verifications from the trusted block to the target. *)
Theorem verifySkipping_complete c :
  honest_source → 0 ≤ low < top → 9 * top ≤ max_int64 → cfg c = config →
  (∀ i j, low ≤ i ≤ top → low ≤ j ≤ top → is_done (verify_at config (chain i) (chain j) now) = true) →
  ∃ c' l, verifySkipping src (chain low) (chain top) now c = Done (c', Ok l) ∧ trace_of (accepted config now) (chain low) (chain top) l.
Proof.
  intros Hh Hlt Hmax Hcfg Hdone.
  destruct (verifySkipping_done config src now (λ b, ∃ h, low ≤ h ≤ top ∧ b = chain h) (chain low) (chain top) c) as (c' & r & E); try done.
  - intros n h b Hb E. rewrite !(honest_heights Hh) in Hb by lia. rewrite (honest_answers Hh) in E by lia. injection E as <-.
    split; [apply Hh; lia|]. exists h. split; [lia|done].
  - intros a b (i & Hi & ->) (j & Hj & ->). by apply Hdone.
  - exists low. split; [lia|done].
  - exists top. split; [lia|done].
  - rewrite (honest_heights Hh) by lia. lia.
  - rewrite (honest_heights Hh) by lia. lia.
  - pose proof E as E'. unfold verifySkipping in E'. eapply skip_loop_honest in E' as (l & ->); try done.
    + exists c', l. split; [done|]. rewrite <-Hcfg. by eapply verifySkipping_trace.
    + lia.
    + unfold descends. rewrite (honest_heights Hh) by lia. split_and!.
      * exists low. split; [lia|done].
      * intros [|k] b Hk; [|done]. injection Hk as <-. exists top. split; [lia|done].
      * intros [|k] [|k'] b b' _ Hk Hk'; try done. by simplify_eq.
      * intros k b Hk. lia.
      * intros [|k] b Hk Hb; [lia|done].
    + simpl. lia.
Qed.

End honest.


End safety.

End LightSafety.
