(* ===== verification/LightRun.v ===== *)
(** * LightRun: runs of the light client

    Which blocks the trusted store can hold after any sequence of requests, from the
    initialisation on, and where the client falls short of its documentation. *)

From S2P Require Import Prelude BitArray Merkle Crypto ValidatorSet Votes Commit Validation Header Light Mediation LightStore LightClient LightSafety.
Import ValidatorSet.ValidatorSet Votes.Votes Commit.Commit Validation.Validation Header.Header Light.Light LightStore.LightStore LightClient.LightClient LightSafety.LightSafety.

Local Open Scope Z_scope.

Module LightRun.

Section runs.
Context `{PubKeyOps, SignCodec, !BatchOps, !HeaderCodec, Merkle.HashOps, !Env}.

(** ** Blocks reached from a root *)

(** A block is reached from a root by verifications that the given configuration (trust level,
    trusting period, clock drift) accepts, each at one of the given times; a block with the same
    header and the validators that the header names counts as the same. *)
Inductive reached (config : Config) (times : list Z) (root : Block → Prop) : Block → Prop :=
| reached_root b : root b → reached config times root b
| reached_next now a b :
    reached config times root a → now ∈ times → accepted config now a b → reached config times root b
| reached_same a b :
    reached config times root a → same_header a b → bound b → reached config times root b.

Section trusted.
Variables (config : Config) (times : list Z).
Local Notation reached := (reached config times).

Lemma chain_reached root now l i a :
  now ∈ times → chain_of (accepted config now) l → (∀ t, head l = Some t → reached root t) → l !! i = Some a → reached root a.
Proof.
  intros Hnow Hc Ht. revert a. induction i as [|i IH]; intros a Ha; [apply Ht; by rewrite head_lookup|].
  destruct (lookup_lt_is_Some_2 l i) as [b Hb]; [apply lookup_lt_Some in Ha; lia|].
  apply (reached_next _ _ _ now b); [by apply IH|done|by apply (Hc i)].
Qed.

Lemma trace_reached root now t n l : now ∈ times → reached root t → trace_of (accepted config now) t n l → reached root n.
Proof.
  intros Hnow Ht (Hh & Hl & _ & Hc). rewrite last_lookup in Hl. eapply chain_reached; [exact Hnow|exact Hc| |exact Hl]. intros t' Ht'. by simplify_eq.
Qed.

(** ** The invariant of the store *)

Definition height_ok (b : Block) : Prop := 0 < b_Height b < max_int64.

Record trusted_inv (root : Block → Prop) (c : Client) : Prop := {
  inv_config : cfg c = config;
  inv_store h b : blocks (trustedStore c) !! h = Some b → b_Height b = h ∧ height_ok b ∧ reached root b;
  inv_latest b : latestTrustedBlock c = Some b → height_ok b ∧ reached root b
}.

Lemma inv_same_trust root c c' : same_trust c c' → trusted_inv root c → trusted_inv root c'.
Proof. intros (Ec & Es & El) [Hc Hs Hl]. split; [congruence|rewrite Es|rewrite El]; done. Qed.

Lemma Prune_subset (s : Store Block) n k b : blocks (Prune s n) !! k = Some b → blocks s !! k = Some b.
Proof. unfold Prune. case_match; [done|]. cbn [blocks]. rewrite foldr_delete_lookup. by case_decide. Qed.

Lemma update_inv root c c' l r :
  trusted_inv root c → reached root l → b_Height l < max_int64 → updateTrustedLightBlock l c = Done (c', r) → trusted_inv root c'.
Proof.
  intros [Hc Hs Hl] Hr Hmax E. unfold updateTrustedLightBlock in E. apply bind_Done in E as [(c1 & ? & [= <- <-] & E)|(e & [=] & _)].
  apply bind_Done in E as [(c1 & s & Es & E)|(e & Es & _)]; unfold pure_outcome in Es; unfold SaveLightBlock in Es; destruct (Z.leb_spec (b_Height l) 0); try done.
  injection Es as <- <-. injection E as <- _. split; cbn [set_trusted cfg trustedStore latestTrustedBlock]; [done|..].
  - intros h b Hb. assert (Hb' : <[b_Height l := l]> (blocks (trustedStore c)) !! h = Some b).
    { destruct (0 <? _); [by apply Prune_subset in Hb|done]. }
    apply lookup_insert_Some in Hb' as [[<- <-]|[_ Hb']]; [|by apply Hs]. done.
  - intros b Hb. destruct (latestTrustedBlock c) as [t|] eqn:El; [|injection Hb as <-; done].
    destruct (_ <? _); injection Hb as <-; [done|by apply Hl].
Qed.

(** ** Answers of the providers *)

(** Blocks carry the height they were asked for, the latest one included. *)
Definition providers_ok : Prop :=
  ∀ n p h b, ask n p h = Ok b → b_Height b < max_int64 ∧ (h ≠ 0 → b_Height b = h).

Lemma collect_found l bad e b i bad' : collect l bad e = Found b i bad' → (i, Ok b) ∈ l.
Proof.
  revert bad e. induction l as [|[j [x|x]] l IH]; intros bad e E; [done| |].
  - injection E as <- <- _. set_solver.
  - apply IH in E. set_solver.
Qed.

Lemma findNewPrimary_answer h rm c c' b : findNewPrimary h rm c = Done (c', Ok b) → ∃ n p, ask n p h = Ok b.
Proof.
  unfold findNewPrimary. destruct (witnesses c); [done|]. destruct (collect _ _ _) as [b' i bad|bad e] eqn:Ec.
  - destruct (_ !! i); [|done]. intros (c1 & ? & _ & [= _ <-])%bind_Ok. apply collect_found in Ec.
    unfold responses in Ec. apply list_elem_of_omap in Ec as (j & _ & Ej). apply fmap_Some in Ej as (w & _ & [= _ Ea]). eauto.
  - intros (c1 & ? & _ & E)%bind_Ok. by destruct e.
Qed.

Lemma primary_answer h c c' b : lightBlockFromPrimary h c = Done (c', Ok b) → ∃ n p, ask n p h = Ok b.
Proof.
  unfold lightBlockFromPrimary. intros (c1 & ? & [= <- <-] & E)%bind_Ok. apply bind_Ok in E as (c2 & r & [= <- <-] & E).
  destruct (ask (tick c) (primary c) h) as [l|e] eqn:Ea; [injection E as _ <-; eauto|]. destruct (from_context e); [done|].
  destruct (benign e); by apply findNewPrimary_answer in E.
Qed.

(** ** Verification keeps the invariant *)

Lemma verifyLightBlock_inv root c c' new now r :
  now ∈ times → trusted_inv root c → b_Height new < max_int64 → FirstLightBlockHeight (trustedStore c) ≤ b_Height new →
  verifyLightBlock new now c = Done (c', r) → trusted_inv root c'.
Proof.
  intros Hnow Hinv Hmax Hfirst E. unfold verifyLightBlock in E. apply bind_Done in E as [(c1 & ? & [= <- <-] & E)|(e & [=] & _)].
  destruct (latestTrustedBlock c) as [latest|] eqn:El; [|done]. rewrite (proj2 (Z.ltb_ge _ _) Hfirst) in E.
  assert (Hverify : ∀ t c1 r1, verifyFunc t new now c = Done (c1, r1) → height_ok t → reached root t →
            trusted_inv root c1 ∧ (r1 = Ok () → reached root new)).
  { intros t c1 r1 Ev Ht Hr. split; [by eapply inv_same_trust; [eapply keeps_verifyFunc|]|]. intros ->.
    apply verifyFunc_trace in Ev as (Hb & n' & l & Hs & Htr); [|unfold height_ok in Ht; lia|done].
    rewrite (inv_config _ _ Hinv) in Htr. eapply reached_same; [|exact Hs|done]. by eapply trace_reached. }
  assert (Hfinish : ∀ t c1 r1, verifyFunc t new now c = Done (c1, r1) → height_ok t → reached root t →
            (verifyFunc t new now;; updateTrustedLightBlock new) c = Done (c', r) → trusted_inv root c').
  { intros t c1 r1 Ev Ht Hr E'. destruct (Hverify t c1 r1 Ev Ht Hr) as [Hi Hn].
    apply bind_Done in E' as [(c2 & [] & E1 & E2)|(e & E1 & _)]; rewrite Ev in E1; injection E1 as -> ->; [|done].
    eapply update_inv; [exact Hi|by apply Hn|done|exact E2]. }
  destruct (b_Height latest <=? b_Height new).
  - destruct (inv_latest _ _ Hinv latest El) as [Ht Hr]. destruct (verifyFunc latest new now c) as [[c1 r1]|] eqn:Ev.
    + by eapply Hfinish.
    + unfold mbind, CM_bind in E. by rewrite Ev in E.
  - unfold LightBlockBefore in E. destruct (b_Height new <=? 0); [done|].
    destruct (last _) as [k|]; [|by injection E as <- _]. unfold LightBlock in E. destruct (k <=? 0); [done|].
    destruct (blocks (trustedStore c) !! k) as [t|] eqn:Et; [|by injection E as <- _].
    destruct (inv_store _ _ Hinv k t Et) as (_ & Ht & Hr). destruct (verifyFunc t new now c) as [[c1 r1]|] eqn:Ev.
    + by eapply (Hfinish t).
    + unfold mbind, CM_bind, pure_outcome in E. by rewrite Ev in E.
Qed.

Lemma keeps_TrustedLightBlock h : keeps (TrustedLightBlock h).
Proof.
  unfold TrustedLightBlock, compareWithLatestHeight. apply keeps_bind; [|intros ?]; (apply keeps_bind; [apply keeps_get|intros ?]).
  - repeat case_match; first [apply keeps_ret|apply keeps_fail].
  - apply keeps_bind; [apply keeps_pure|intros ?]. case_match; [apply keeps_ret|apply keeps_fail].
Qed.

(** The requests of a user that do not go below the first trusted height. *)
Inductive request_op := OpUpdate (now : Z) | OpVerifyAt (height now : Z) | OpVerifyHeader (h : Header) (now : Z).

Definition perform (op : request_op) : CM () :=
  match op with
  | OpUpdate now => Update now;; mret ()
  | OpVerifyAt height now => VerifyLightBlockAtHeight height now;; mret ()
  | OpVerifyHeader h now => VerifyHeader (Some h) now
  end.

Definition op_time (op : request_op) : Z :=
  match op with OpUpdate now | OpVerifyAt _ now | OpVerifyHeader _ now => now end.

Definition forward (op : request_op) (c : Client) : Prop :=
  match op with
  | OpUpdate _ => True
  | OpVerifyAt height _ => FirstLightBlockHeight (trustedStore c) ≤ height
  | OpVerifyHeader h _ => FirstLightBlockHeight (trustedStore c) ≤ hHeight h
  end.

(** Requests in sequence, with the times they were made at. *)
Inductive run : list Z → Client → Client → Prop :=
| run_nil c : run [] c c
| run_op c c1 c2 op r ts :
    forward op c → perform op c = Done (c1, r) → run ts c1 c2 → run (op_time op :: ts) c c2.

Lemma first_le_last (s : Store Block) : FirstLightBlockHeight s ≤ LastLightBlockHeight s.
Proof.
  unfold FirstLightBlockHeight, LastLightBlockHeight. pose proof (heights_sorted s) as Hs. destruct (heights s) as [|x l]; [done|].
  destruct (last (x :: l)) as [y|] eqn:El; [|by apply last_None in El]. apply (last_greatest (x :: l)); [done..|]. simpl. set_solver.
Qed.

(** A block from the primary is verified and the invariant is kept. *)
Lemma fetch_verify_inv root h now c c' r :
  providers_ok → now ∈ times → trusted_inv root c → h ≠ 0 → FirstLightBlockHeight (trustedStore c) ≤ h →
  (l ← lightBlockFromPrimary h; verifyLightBlock l now) c = Done (c', r) → trusted_inv root c'.
Proof.
  intros Hp Hnow Hinv Hh Hf E. apply bind_Done in E as [(c1 & l & El & E)|(e & El & _)];
    pose proof (keeps_lightBlockFromPrimary _ _ _ _ El) as Hk; pose proof (inv_same_trust _ _ _ Hk Hinv) as Hinv'; [|done].
  apply primary_answer in El as (n & p & Ea). destruct (Hp _ _ _ _ Ea) as [Hm Hl]. destruct Hk as (_ & Es & _).
  eapply verifyLightBlock_inv; [exact Hnow|exact Hinv'|done| |exact E]. rewrite Es, Hl by done. done.
Qed.

Lemma discard_result {A} (m : CM A) c c' r : (m;; mret ()) c = Done (c', r) → ∃ r', m c = Done (c', r').
Proof. intros [(c1 & a & E & [= <- _])|(e & E & _)]%bind_Done; eauto. Qed.

Lemma attempt_trusted h c c1 r : attempt (TrustedLightBlock h) c = Done (c1, r) → same_trust c c1.
Proof. apply keeps_attempt, keeps_TrustedLightBlock. Qed.

Lemma perform_inv root op c c' r :
  providers_ok → op_time op ∈ times → trusted_inv root c → forward op c → perform op c = Done (c', r) → trusted_inv root c'.
Proof.
  intros Hp Hnow Hinv Hf E. destruct op as [now|h now|h now]; cbn [perform forward op_time] in *.
  - apply discard_result in E as [r' E]. unfold Update in E. apply bind_Done in E as [(c1 & ? & [= <- <-] & E)|(e & [=] & _)].
    destruct (_ =? -1); [by injection E as <- _|].
    apply bind_Done in E as [(c1 & l & El & E)|(e & El & _)];
      pose proof (keeps_lightBlockFromPrimary _ _ _ _ El) as Hk; pose proof (inv_same_trust _ _ _ Hk Hinv) as Hinv'; [|done].
    destruct (Z.ltb_spec (LastLightBlockHeight (trustedStore c)) (b_Height l)); [|by injection E as <- _].
    apply primary_answer in El as (n & p & Ea). destruct (Hp _ _ _ _ Ea) as [Hm _]. destruct Hk as (_ & Es & _).
    assert (∃ r1, verifyLightBlock l now c1 = Done (c', r1)) as [r1 Ev].
    { apply bind_Done in E as [(c2 & [] & E & [= <- _])|(e & E & _)]; eauto. }
    eapply verifyLightBlock_inv; [exact Hnow|exact Hinv'|done| |exact Ev]. rewrite Es. pose proof (first_le_last (trustedStore c)). lia.
  - apply discard_result in E as [r' E]. unfold VerifyLightBlockAtHeight in E. destruct (Z.leb_spec h 0); [by injection E as <- _|].
    apply bind_Done in E as [(c1 & ro & Er & E)|(e & Er & _)]; apply attempt_trusted in Er as Hk; [|by eapply inv_same_trust].
    pose proof (inv_same_trust _ _ _ Hk Hinv) as Hinv'. destruct ro; [by injection E as <- _|]. destruct Hk as (_ & Es & _).
    assert (∃ r1, (l ← lightBlockFromPrimary h; verifyLightBlock l now) c1 = Done (c', r1)) as [r1 Ev].
    { revert E. unfold mbind, CM_bind. destruct (lightBlockFromPrimary h c1) as [[c2 [l|e0]]|]; [|intros [= -> _]; eauto|done].
      destruct (verifyLightBlock l now c2) as [[c3 [[]|e3]]|]; [intros [= <- _]; eauto|intros [= <- _]; eauto|done]. }
    eapply fetch_verify_inv; [done|exact Hnow|exact Hinv'| |by rewrite Es|exact Ev]. lia.
  - unfold VerifyHeader in E. destruct (Z.leb_spec (hHeight h) 0); [by injection E as <- _|].
    apply bind_Done in E as [(c1 & ro & Er & E)|(e & Er & _)]; apply attempt_trusted in Er as Hk; [|by eapply inv_same_trust].
    pose proof (inv_same_trust _ _ _ Hk Hinv) as Hinv'. destruct ro; [by destruct (negb _); injection E as <- _|]. destruct Hk as (_ & Es & _).
    apply bind_Done in E as [(c2 & l & El & E)|(e0 & El & _)].
    + destruct (negb _); [injection E as <- _; by eapply inv_same_trust; [eapply keeps_lightBlockFromPrimary|]|].
      assert (Ev : (l ← lightBlockFromPrimary (hHeight h); verifyLightBlock l now) c1 = Done (c', r)).
      { unfold mbind, CM_bind. by rewrite El. }
      eapply fetch_verify_inv; [done|exact Hnow|exact Hinv'| |by rewrite Es|exact Ev]. lia.
    + by eapply inv_same_trust; [eapply keeps_lightBlockFromPrimary|].
Qed.

Lemma light_run_inv root ts c c' : providers_ok → run ts c c' → ts ⊆ times → trusted_inv root c → trusted_inv root c'.
Proof.
  intros Hp. induction 1 as [|c c1 c2 op r ts Hf E _ IH]; [done|]. intros Hts Hinv.
  apply IH; [set_solver|]. eapply perform_inv; [done| |done..]. set_solver.
Qed.

(** ** Initialisation *)

(** The block a user trusts. *)
Definition trusted_root (o : TrustOptions) (b : Block) : Prop := b_Hash b = to_Hash o ∧ bound b.

Lemma keeps_compareFirst l : keeps (compareFirstLightBlockWithWitnesses l).
Proof.
  unfold compareFirstLightBlockWithWitnesses, received. apply keeps_bind; [apply keeps_get|intros c]. case_match; [apply keeps_fail|].
  apply keeps_bind; [apply keeps_compare_all|intros qs]. apply keeps_bind; [apply keeps_bind; [apply keeps_get|intros; apply keeps_ret]|intros rs].
  apply keeps_bind.
  - generalize (@nil nat). induction rs as [|r rs IH]; intros bad; cbn [handle_first_reports]; [apply keeps_ret|].
    destruct r; try apply IH; try apply keeps_fail. case_match; [apply keeps_fail|apply IH].
  - intros bad. apply keeps_bind; [apply keeps_attempt, keeps_remove|intros; apply keeps_ret].
Qed.

Lemma lb_basic_bound bls b chain : lb_ValidateBasic bls (mkLightBlock (Some (b_SignedHeader b)) (Some (b_vals b))) chain = Done None → bound b.
Proof.
  unfold lb_ValidateBasic. cbn [lbSignedHeader lbValidatorSet]. intros E. destruct (sh_ValidateBasic _ _); [discriminate E|].
  cbn [shHeader b_SignedHeader] in E. destruct (vals_ValidateBasic bls _); [discriminate E|].
  apply outcome_bind_Done in E as (vh & Ev & E). destruct (bytes_equal _ _) eqn:Eb; [|discriminate E].
  apply bytes_equal_spec in Eb. unfold bound. by rewrite Ev, Eb.
Qed.

Lemma initialize_inv o c c' r :
  providers_ok → trusted_inv (trusted_root o) c → initializeWithTrustOptions o c = Done (c', r) →
  trusted_inv (trusted_root o) c' ∧ (latestTrustedBlock c = None → r = Ok () → ∃ l, latestTrustedBlock c' = Some l ∧ trusted_root o l).
Proof.
  intros Hp Hinv E. unfold initializeWithTrustOptions in E. apply bind_Done in E as [(c1 & l & El & E)|(e & El & ->)];
    pose proof (keeps_lightBlockFromPrimary _ _ _ _ El) as Hk; pose proof (inv_same_trust _ _ _ Hk Hinv) as Hinv'; [|done].
  apply primary_answer in El as (n & p & Ea). destruct (Hp _ _ _ _ Ea) as [Hm _].
  apply bind_Done in E as [(c2 & ? & [= <- <-] & E)|(e & [=] & _)]. unfold pure_outcome at 1 in E. unfold mbind at 1, CM_bind at 1 in E.
  destruct (lb_ValidateBasic _ _ _) as [[e|]|] eqn:Eb; [by injection E as <- <-| |done]. apply lb_basic_bound in Eb.
  destruct (bytes_equal (b_Hash l) (to_Hash o)) eqn:Eh; [|by injection E as <- <-]. apply bytes_equal_spec in Eh. cbn [negb] in E.
  unfold pure_outcome at 1 in E. unfold mbind at 1, CM_bind at 1 in E. destruct (VerifyCommitLight _ _ _ _ _) as [[e|]|]; [by injection E as <- <-| |done].
  apply bind_Done in E as [(c2 & [] & E1 & E)|(e & E1 & ->)]; pose proof (keeps_compareFirst _ _ _ _ E1) as Hk1;
    pose proof (inv_same_trust _ _ _ Hk1 Hinv') as Hinv2; [|done].
  split; [eapply update_inv; [exact Hinv2| |done|exact E]; by constructor|]. intros Hnone ->. exists l. split; [|done].
  unfold updateTrustedLightBlock in E. apply bind_Ok in E as (c3 & ? & [= <- <-] & E). apply bind_Ok in E as (c3 & s & Es & E).
  unfold pure_outcome in Es. destruct (SaveLightBlock _ _ _); [|done]. injection Es as <- _. injection E as <-. cbn.
  destruct Hk1 as (_ & _ & ->), Hk as (_ & _ & ->). by rewrite Hnone.
Qed.

End trusted.

(** C10: a client created on an empty store trusts a block with the hash given by the user, and
    after any requests that do not go below the first trusted height, every stored block and the
    latest trusted block is reached from a block with that hash by verifications that the
    client's own configuration (its trust level, drift and the trusting period of the options)
    accepts, each at the time of one of the requests.  The providers may answer anything, in any
    order, as long as a block answered for a height has that height. *)
Theorem stored_blocks_are_reached config o p ws c ts c' :
  providers_ok → NewClient config o p ws (mkStore ∅ 0) = Done (c, Ok ()) → run ts c c' →
  (∃ l, latestTrustedBlock c = Some l ∧ trusted_root o l) ∧
  (∀ h b, blocks (trustedStore c') !! h = Some b →
     b_Height b = h ∧ reached (with_period config (to_Period o)) ts (trusted_root o) b) ∧
  (∀ b, latestTrustedBlock c' = Some b → reached (with_period config (to_Period o)) ts (trusted_root o) b).
Proof.
  intros Hp E Hrun. set (cf := with_period config (to_Period o)).
  assert (Hempty : trusted_inv cf ts (trusted_root o) (mkClient cf p ws (mkStore ∅ 0) None [] 0)) by (split; done).
  assert (Hnew : trusted_inv cf ts (trusted_root o) c ∧ ∃ l, latestTrustedBlock c = Some l ∧ trusted_root o l).
  { unfold NewClient in E. destruct (to_ValidateBasic o); [done|]. unfold NewClientFromTrustedStore in E.
    destruct (_ =? 0)%nat; [done|]. destruct (negb _); [done|]. destruct (negb _); [done|].
    destruct (initialize_inv cf ts o _ c (Ok ()) Hp Hempty) as [Hi Hl]; [exact E|]. split; [done|]. by apply Hl. }
  destruct Hnew as [Hi Hl]. split; [done|]. apply (light_run_inv _ _ _ _ _ _ Hp Hrun) in Hi as [_ Hs Hla]; [|done]. split.
  - intros h b Hb. destruct (Hs h b Hb) as (? & _ & ?). done.
  - intros b Hb. by destruct (Hla b Hb).
Qed.

(** ** Rolling back *)

(** The stored heights below [p]. *)
Definition lower (s : Store Block) (p : Z) : list Z := filter (λ k, k < p) (heights s).

Lemma sorted_NoDup (l : list Z) : StronglySorted Z.lt l → NoDup l.
Proof. induction 1 as [|x l _ IH Hx]; constructor; [|done]. intros Hin. rewrite Forall_forall in Hx. specialize (Hx x Hin). lia. Qed.

Lemma cleanup_loop_spec fuel (s : Store Block) h prev :
  wf_store s → map_Forall (λ k b, b_Height b = k) (blocks s) → 0 < prev → (length (lower s prev) < fuel)%nat →
  ∃ s', cleanup_loop fuel s h prev = Done s' ∧
    ∀ k, blocks s' !! k = if decide (h < k < prev) then None else blocks s !! k.
Proof.
  revert s prev. induction fuel as [|fuel IH]; intros s prev Hwf Hk Hp Hf; [lia|]. cbn [cleanup_loop].
  unfold LightBlockBefore. rewrite (proj2 (Z.leb_gt prev 0)) by lia.
  pose proof (heights_sorted s) as Hs. destruct (last (filter (λ k, k < prev) (heights s))) as [x|] eqn:El.
  - assert (Hx : x ∈ filter (λ k, k < prev) (heights s)) by (apply last_Some in El as [l' ->]; set_solver).
    apply list_elem_of_filter in Hx as [Hlt Hx]. apply heights_elem in Hx as [b Hb]; [|done].
    assert (1 ≤ x) by apply (Hwf x b Hb). unfold LightBlock. rewrite (proj2 (Z.leb_gt x 0)), Hb by lia. cbn [mbind outcome_bind].
    assert (Ex : b_Height b = x) by (by apply (Hk x b)). rewrite Ex.
    assert (Hnone : ∀ k, x < k < prev → blocks s !! k = None).
    { intros k Hk'. apply eq_None_not_Some. intros Hin%heights_elem; [|done].
      pose proof (last_greatest _ _ k (sorted_filter _ _ Hs) El ltac:(apply list_elem_of_filter; split; [lia|done])). lia. }
    destruct (Z.leb_spec x h).
    + exists s. split; [done|]. intros k. case_decide; [|done]. apply Hnone. lia.
    + unfold DeleteLightBlock. rewrite (proj2 (Z.leb_gt x 0)) by lia. cbn [mbind outcome_bind].
      set (s1 := mkStore (delete x (blocks s)) (wrap16 (size s - 1))).
      assert (Hwf1 : wf_store s1) by (by apply map_Forall_delete).
      destruct (IH s1 x) as (s' & E & Hspec); [done|by apply map_Forall_delete|lia| |].
      * enough (Hl : (length (lower s1 x) < length (lower s prev))%nat) by lia.
        assert (Hsub : lower s1 x ++ [x] ⊆+ lower s prev).
        { apply NoDup_submseteq.
          - apply NoDup_app. split_and!; [apply NoDup_filter, sorted_NoDup, heights_sorted| |apply NoDup_singleton].
            intros k [Hk1 _]%list_elem_of_filter ->%list_elem_of_singleton. lia.
          - intros k Hin. apply elem_of_app in Hin as [Hin|Hin]; [apply list_elem_of_filter in Hin as [Hk1 Hk2]|apply list_elem_of_singleton in Hin as ->].
            + apply heights_elem in Hk2; [|done]. cbn [blocks s1] in Hk2. rewrite lookup_delete_ne in Hk2 by lia.
              apply list_elem_of_filter. split; [lia|]. by apply heights_elem.
            + apply list_elem_of_filter. split; [done|]. apply heights_elem; [done|by exists b]. }
        apply submseteq_length in Hsub. rewrite length_app in Hsub. simpl in Hsub. lia.
      * exists s'. split; [done|]. intros k. rewrite Hspec. cbn [blocks s1].
        repeat case_decide; try done; try lia.
        -- destruct (decide (k = x)) as [->|]; [apply lookup_delete_eq|]. rewrite lookup_delete_ne by done. apply Hnone. lia.
        -- rewrite lookup_delete_ne; [done|lia].
  - exists s. split; [done|]. apply last_None in El. intros k. case_decide as Hd; [|done]. apply eq_None_not_Some.
    intros Hin%heights_elem; [|done]. assert (k ∈ filter (λ k, k < prev) (heights s)) by (apply list_elem_of_filter; split; [lia|done]).
    rewrite El in *. set_solver.
Qed.

(** [s'] is [s] without the blocks strictly between two heights. *)
Definition cut_between (low high : Z) (s s' : Store Block) : Prop :=
  ∀ k, blocks s' !! k = if decide (low < k < high) then None else blocks s !! k.

(** [cleanupAfter] removes the blocks strictly between the given height and the latest
    trusted block and no other: the latest block, which it is documented to remove, stays
    stored and stays the latest trusted block. *)
Theorem cleanupAfter_keeps_latest c h latest :
  wf_store (trustedStore c) → map_Forall (λ k b, b_Height b = k ∧ k ≤ b_Height latest) (blocks (trustedStore c)) →
  latestTrustedBlock c = Some latest → blocks (trustedStore c) !! b_Height latest = Some latest →
  ∃ c', cleanupAfter h c = Done (c', Ok ()) ∧ latestTrustedBlock c' = Some latest ∧
    cut_between h (b_Height latest) (trustedStore c) (trustedStore c').
Proof.
  intros Hwf Hk Hl Hin. assert (Hpos : 1 ≤ b_Height latest) by apply (Hwf _ _ Hin).
  destruct (cleanup_loop_spec (S (length (heights (trustedStore c)))) (trustedStore c) h (b_Height latest)) as (s' & E & Hs'); [done| |lia| |].
  { eapply map_Forall_impl; [exact Hk|]. by intros k b [? _]. }
  { unfold lower. pose proof (length_filter (λ k, k < b_Height latest) (heights (trustedStore c))). lia. }
  assert (Hwf' : wf_store s') by (intros k b; rewrite Hs'; case_decide; [done|]; apply Hwf).
  assert (Hin' : blocks s' !! b_Height latest = Some latest) by (rewrite Hs', decide_False by lia; done).
  assert (Elast : LastLightBlockHeight s' = b_Height latest).
  { assert (Hel : b_Height latest ∈ heights s') by (apply heights_elem; [done|by exists latest]).
    unfold LastLightBlockHeight. destruct (last (heights s')) as [x|] eqn:El; [|apply last_None in El; rewrite El in Hel; set_solver].
    pose proof (last_greatest _ _ _ (heights_sorted s') El Hel). assert (Hx : x ∈ heights s') by (apply last_Some in El as [l' ->]; set_solver).
    apply heights_elem in Hx as [b Hb]; [|done]. rewrite Hs' in Hb. case_decide; [done|]. assert (x ≤ b_Height latest) by apply (Hk x b Hb). simpl. lia. }
  exists (set_trusted s' (Some latest) c). split; [|by split].
  unfold cleanupAfter, restoreTrustedLightBlock, mbind, CM_bind, get, pure_outcome, modify. rewrite Hl, E.
  cbn [set_trusted trustedStore]. rewrite Elast. rewrite (proj2 (Z.eqb_neq (b_Height latest) (-1))) by lia.
  unfold LightBlock. rewrite (proj2 (Z.leb_gt (b_Height latest) 0)), Hin' by lia. reflexivity.
Qed.

(** ** Dropping witnesses *)

Lemma remove_at_spec (ws : list Provider) i : (i < length ws)%nat →
  ∃ x ws', ws !! i = Some x ∧ remove_at ws i = Done ws' ∧ x :: ws' ≡ₚ ws ∧ ∀ j, (j < i)%nat → ws' !! j = ws !! j.
Proof.
  intros Hi. destruct (lookup_lt_is_Some_2 ws i Hi) as [x Hx]. destruct (last ws) as [l|] eqn:El.
  2:{ apply last_None in El. subst. simpl in Hi. lia. }
  exists x, (take (length ws - 1) (<[i := l]> ws)). unfold remove_at. rewrite Hx, El. split_and!; try done.
  - apply last_Some in El as [ws0 ->]. rewrite length_app in *. simpl in *. replace (length ws0 + 1 - 1)%nat with (length ws0) by lia.
    destruct (decide (i < length ws0)%nat) as [Hlt|].
    + rewrite insert_app_l, take_app_length' by (rewrite ?length_insert; done). rewrite lookup_app_l in Hx by done.
      rewrite <-(take_drop_middle ws0 i x Hx) at 2. rewrite insert_take_drop by done. rewrite <-!app_assoc. simpl.
      rewrite <-!Permutation_middle. apply Permutation_skip. rewrite app_assoc. by rewrite app_nil_r.
    + assert (i = length ws0) as -> by lia. rewrite lookup_app_r, Nat.sub_diag in Hx by lia. injection Hx as <-.
      rewrite take_insert_ge by lia. rewrite take_app_length. by rewrite Permutation_cons_append.
  - intros j Hj. rewrite lookup_take_lt, list_lookup_insert_ne by lia. done.
Qed.

Lemma remove_all_spec is_ ws :
  StronglySorted (λ a b, (b < a)%nat) is_ → Forall (λ i, (i < length ws)%nat) is_ →
  ∃ ws' gone, remove_all ws is_ = Done ws' ∧ gone ++ ws' ≡ₚ ws ∧ Forall2 (λ i x, ws !! i = Some x) is_ gone.
Proof.
  revert ws. induction is_ as [|i is_ IH]; intros ws Hs Hf; [by exists ws, []|]. cbn [remove_all].
  apply StronglySorted_inv in Hs as [Hs Hlt]. apply Forall_cons in Hf as [Hi Hf]. rewrite Forall_forall in Hlt, Hf.
  destruct (remove_at_spec ws i Hi) as (x & ws1 & Hx & E & Hp & Hlow). rewrite E. cbn [mbind outcome_bind].
  assert (Hlen : length ws = S (length ws1)) by (rewrite <-Hp; done).
  destruct (IH ws1 Hs) as (ws' & gone & E' & Hp' & Hg).
  { apply Forall_forall. intros j Hj. specialize (Hlt j Hj). lia. }
  exists ws', (x :: gone). split_and!; [done| |].
  - simpl. by rewrite Hp'.
  - constructor; [done|]. rewrite Forall2_lookup in Hg |- *. intros k. specialize (Hg k).
    destruct (is_ !! k) as [j|] eqn:Ej; inversion Hg as [? y Hy|]; subst; constructor.
    rewrite <-Hlow; [done|]. apply Hlt. by eapply list_elem_of_lookup_2.
Qed.

(** removing witnesses by distinct indexes removes exactly the witnesses at these
    indexes, and refuses when none would be left. *)
Theorem removeWitnesses_correct (ws : list Provider) indexes :
  NoDup indexes → Forall (λ i, (i < length ws)%nat) indexes →
  if decide (length ws ≤ length indexes)%nat then remove_witnesses ws indexes = Done None
  else ∃ ws' gone, remove_witnesses ws indexes = Done (Some ws') ∧ gone ++ ws' ≡ₚ ws ∧
         ∃ is_, is_ ≡ₚ indexes ∧ Forall2 (λ i x, ws !! i = Some x) is_ gone.
Proof.
  intros Hnd Hf. unfold remove_witnesses. destruct (Nat.leb_spec (length ws) (length indexes)); case_decide; try lia; [done|].
  pose proof (merge_sort_Permutation Nat.le indexes) as Hp. set (l := merge_sort Nat.le indexes) in *.
  assert (Hs : StronglySorted (λ a b, (b < a)%nat) (rev l)).
  { pose proof (StronglySorted_merge_sort Nat.le indexes) as Hs. fold l in Hs. assert (Hn : NoDup l) by (by rewrite Hp). clearbody l. clear -Hs Hn.
    induction l as [|x l IH]; [constructor|]. apply StronglySorted_inv in Hs as [Hs Hx]. apply NoDup_cons in Hn as [Hxl Hn].
    simpl. apply StronglySorted_app. split_and!; [|by apply IH|repeat constructor].
    intros a b Ha Hb. apply list_elem_of_singleton in Hb as ->. rewrite <-Permutation_rev in Ha. rewrite Forall_forall in Hx. specialize (Hx a Ha).
    assert (a ≠ x) by (by intros ->). unfold Nat.le in Hx. lia. }
  destruct (remove_all_spec (rev l) ws Hs) as (ws' & gone & E & Hp' & Hg).
  { by rewrite <-Permutation_rev, Hp. }
  exists ws', gone. rewrite E. split_and!; [done..|]. exists (rev l). split; [|done]. by rewrite <-Permutation_rev.
Qed.


End runs.
(** ** Interleavings *)

(** What the receiver of the reports may see: one report after another, each the next of some goroutine. *)
Inductive interleaved `{PubKeyOps} : list (list report) → list report → Prop :=
| il_nil qs : interleaved qs []
| il_cons qs i r q rs : qs !! i = Some (r :: q) → interleaved (<[i := q]> qs) rs → interleaved qs (r :: rs).

Lemma concat_first {A} (qs : list (list A)) r rest :
  concat qs = r :: rest → ∃ i q, qs !! i = Some (r :: q) ∧ concat (<[i := q]> qs) = rest.
Proof.
  induction qs as [|[|x q] qs IH]; intros E; [done| |].
  - destruct (IH E) as (i & q & Hi & Hc). by exists (S i), q.
  - injection E as -> <-. by exists 0%nat, q.
Qed.

Lemma interleaved_in_turn `{PubKeyOps} qs m : interleaved qs (take m (concat qs)).
Proof.
  revert qs. induction m as [|m IH]; intros qs; [constructor|]. destruct (concat qs) as [|r rest] eqn:E; [constructor|].
  destruct (concat_first qs r rest E) as (i & q & Hi & <-). by apply (il_cons qs i r q).
Qed.

(** ** Concrete runs *)

Section examples.
#[local] Existing Instances toy_keys toy_codec toy_batch toy_batch_laws Merkle.toy_hash Merkle.toy_hash_laws toy_header_codec.

Definition ex_pvals : ValidatorSet := mkValidatorSet (Validators ex_vals) (Validators ex_vals !! 0%nat) 0 true.

(** A chain that starts at height 4. *)
Fixpoint ex_chain_at (n : nat) : Header :=
  ex_chain_header (4 + Z.of_nat n) (match n with O => replicate 32 1 | S n => header_Hash (Some (ex_chain_at n)) end).
Definition ex_blk (h : Z) : Block := let hd := ex_chain_at (Z.to_nat (h - 4)) in mkBlock hd (ex_header_commit hd) ex_pvals.

Lemma ex_blk_height h : 4 ≤ h → b_Height (ex_blk h) = h.
Proof. intros Hh. unfold b_Height, ex_blk. cbn [b_header]. destruct (Z.to_nat (h - 4)) eqn:E; cbn [ex_chain_at ex_chain_header hHeight]; lia. Qed.

(** A block that was never signed. *)
Definition ex_forged (h : Z) : Block :=
  mkBlock (mkHeader BlockProtocol 1 "chain" h (day h) nil_BlockID [] [] (replicate 32 6) (replicate 32 6) [] [66] [] [] (toy_address 9))
    (mkCommit h 0 nil_BlockID []) ex_pvals.

Definition ex_serve (h : Z) : result provider_error Block :=
  if h =? 0 then Ok (ex_blk 8) else if (4 <=? h) && (h <=? 8) then Ok (ex_blk h) else Err ErrLightBlockNotFound.

(** Reports are received in turn, and all questions are confirmed. *)
Definition ex_env (answer : nat → Provider → Z → result provider_error Block) : Env :=
  {| ask := answer; arrival _ n := seq 0 n; sched _ qs := take (length qs) (concat qs); confirm _ := true;
     provider_ChainID _ := "chain"%string; blsEnabled := false |}.
Definition honest_env : Env := ex_env (λ _ _ h, ex_serve h).

Definition ex_config : Config := mkConfig "chain" ex_period skipping DefaultTrustLevel 10 1000.
Definition ex_client (h : Z) : Client := mkClient ex_config 1 [2; 3] (mkStore {[h := ex_blk h]} 1) (Some (ex_blk h)) [] 0.

(** A primary that answers the first request with [forged] and every later one honestly. *)
Definition liar_env (forged : Block) : Env := ex_env (λ n _ h, match n with O => Ok forged | _ => ex_serve h end).

(** a primary that answers twice differently makes the client store an unverified block: asked
    for a height below the first trusted one, the client verifies the chain of headers
    it fetches afterwards and stores the block it fetched first, whatever that is. *)
Theorem backwards_stores_unverified forged :
  b_Height forged = 5 →
  match @VerifyLightBlockAtHeight _ _ _ _ _ (liar_env forged) 5 (day 9) (ex_client 6) with
  | Done (c', Ok b) => b = forged ∧ blocks (trustedStore c') !! 5 = Some forged
  | _ => False
  end.
Proof.
  destruct forged as [[vb va ci h t lb lc dh vh nv ch ah lr eh pa] fc fv]. unfold b_Height. cbn. intros ->. vm_compute. done.
Qed.

Lemma backwards_stores_unverified_witness :
  match @VerifyLightBlockAtHeight _ _ _ _ _ (liar_env (ex_forged 5)) 5 (day 9) (ex_client 6) with
  | Done (c', Ok b) => b = ex_forged 5 ∧ blocks (trustedStore c') !! 5 = Some (ex_forged 5)
  | _ => False
  end.
Proof. apply (backwards_stores_unverified (ex_forged 5)). reflexivity. Defined.

(** Witness 2 reports a forged block at height 8, and witness 3 does not answer for it. *)
Definition split_env : Env := ex_env (λ _ p h,
  if h =? 8 then if p =? 2 then Ok (ex_forged 8) else if p =? 3 then Err ErrNoResponse else Ok (ex_blk 8) else ex_serve h).

(** [detectDivergence] can accept a block that no witness confirmed: the goroutine that
    reports a conflict goes on and also reports a match, which is read in place of the report of the
    next witness. *)
Theorem divergence_accepted_without_match :
  (∀ n w b, w ∈ witnesses (ex_client 5) → @ask _ split_env n w 8 = Ok b → b_Hash b ≠ b_Hash (ex_blk 8)) ∧
  (∀ n qs, interleaved qs (@sched _ split_env n qs)) ∧
  match @detectDivergence _ _ _ _ _ split_env [ex_blk 5; ex_blk 8] (day 9) (ex_client 5) with
  | Done (c', Ok _) => witnesses c' = [3]
  | _ => False
  end.
Proof.
  split_and!.
  - intros n w b Hw. apply list_elem_of_In in Hw. cbn [In witnesses ex_client] in Hw.
    destruct Hw as [<-|[<-|[]]]; intros E; vm_compute in E; [injection E as <-|discriminate E].
    intros E. vm_compute in E. discriminate E.
  - intros n qs. apply interleaved_in_turn.
  - vm_compute. done.
Qed.

(** ** Witnesses *)

Lemma honest_ok : @providers_ok _ honest_env.
Proof.
  intros n p h b. cbn. unfold ex_serve. destruct (Z.eqb_spec h 0); [intros [= <-]; split; [vm_compute; done|done]|].
  destruct (Z.leb_spec 4 h), (Z.leb_spec h 8); try done. cbn [andb]. intros [= <-]. rewrite ex_blk_height by lia.
  split; [unfold max_int64; lia|done].
Qed.

Definition ex_options : TrustOptions := mkTrustOptions ex_period 5 (b_Hash (ex_blk 5)).
Definition client_of (o : outcome (Client * result client_error ())) : Client := match o with Done (c, _) => c | Panic _ => ex_client 5 end.
Definition ex_started : Client := client_of (@NewClient _ _ _ _ _ honest_env ex_config ex_options 1 [2; 3] (mkStore ∅ 0)).
Definition ex_updated : Client := client_of (@perform _ _ _ _ _ honest_env (OpUpdate (day 9)) ex_started).

Lemma stored_blocks_are_reached_witness :
  latestTrustedBlock ex_updated = Some (ex_blk 8) ∧
  ∀ b, latestTrustedBlock ex_updated = Some b →
    @reached _ _ _ _ _ (with_period ex_config ex_period) [day 9] (trusted_root ex_options) b.
Proof.
  split; [vm_compute; reflexivity|].
  refine (proj2 (proj2 (@stored_blocks_are_reached _ _ _ _ _ honest_env ex_config ex_options 1 [2; 3] ex_started [day 9] ex_updated honest_ok _ _))).
  - vm_compute. reflexivity.
  - apply (@run_op _ _ _ _ _ honest_env ex_started ex_updated ex_updated (OpUpdate (day 9)) (Ok ()) []); [exact I|vm_compute; reflexivity|constructor].
Defined.

Lemma cleanupAfter_keeps_latest_witness :
  let c := mkClient ex_config 1 [2; 3] (mkStore (list_to_map [(5, ex_blk 5); (6, ex_blk 6); (8, ex_blk 8)]) 3) (Some (ex_blk 8)) [] 0 in
  ∃ c', cleanupAfter 5 c = Done (c', Ok ()) ∧ latestTrustedBlock c' = Some (ex_blk 8).
Proof.
  intros c. destruct (cleanupAfter_keeps_latest c 5 (ex_blk 8)) as (c' & E & El & _).
  - apply (bool_decide_unpack _). vm_compute. exact I.
  - apply (bool_decide_unpack _). vm_compute. exact I.
  - reflexivity.
  - vm_compute. reflexivity.
  - by exists c'.
Defined.

Lemma removeWitnesses_correct_witness : ∃ ws' gone, remove_witnesses [10; 11; 12] [2%nat; 0%nat] = Done (Some ws') ∧ gone ++ ws' ≡ₚ [10; 11; 12].
Proof.
  assert (Hd : ¬ (length [10; 11; 12] ≤ length [2; 0]%nat)%nat) by (simpl; lia).
  pose proof (removeWitnesses_correct [10; 11; 12] [2%nat; 0%nat] ltac:(by_decide) ltac:(by_decide)) as Hr. rewrite decide_False in Hr by done.
  destruct Hr as (ws' & gone & E & Hp & _). by exists ws', gone.
Defined.
(** Heights 5 to 8, one by one. *)
Ltac each_height h := assert (h = 5 ∨ h = 6 ∨ h = 7 ∨ h = 8) as [->|[->|[->| ->]]] by lia.

Lemma ex_verify_done i j : 5 ≤ i ≤ 8 → 5 ≤ j ≤ 8 → is_done (verify_at ex_config (ex_blk i) (ex_blk j) (day 9)) = true.
Proof. intros Hi Hj. each_height i; each_height j; vm_compute; reflexivity. Qed.

Lemma ex_honest_source : @honest_source _ _ _ _ _ honest_env ex_config 1 (day 9) ex_blk 5 8.
Proof.
  split.
  - intros h Hh. apply ex_blk_height. lia.
  - intros n h Hh. cbn [ask honest_env ex_env]. unfold ex_serve. rewrite (proj2 (Z.eqb_neq h 0)), (proj2 (Z.leb_le 4 h)), (proj2 (Z.leb_le h 8)) by lia. done.
  - intros i j Hi Hij Hj. each_height i; try lia; each_height j; try lia; (eexists; split; [vm_compute; reflexivity|exact I]).
Qed.

Lemma verifySkipping_complete_witness :
  ∃ c' l, @verifySkipping _ _ _ _ _ honest_env 1 (ex_blk 5) (ex_blk 8) (day 9) (ex_client 5) = Done (c', Ok l) ∧
    trace_of (accepted ex_config (day 9)) (ex_blk 5) (ex_blk 8) l.
Proof.
  refine (@verifySkipping_complete _ _ _ _ _ honest_env ex_config 1 (day 9) ex_blk 5 8 (ex_client 5) ex_honest_source _ _ eq_refl ex_verify_done); by_decide.
Defined.

Lemma verifySkipping_terminates_witness :
  ∃ c' r, @verifySkipping _ _ _ _ _ honest_env 1 (ex_blk 5) (ex_blk 8) (day 9) (ex_client 5) = Done (c', r) ∧
    match r with Ok l => trace_of (accepted ex_config (day 9)) (ex_blk 5) (ex_blk 8) l | Err _ => True end.
Proof.
  refine (@verifySkipping_terminates _ _ _ _ _ honest_env ex_config 1 (day 9) (λ b, ∃ h, 5 ≤ h ≤ 8 ∧ b = ex_blk h)
    (ex_blk 5) (ex_blk 8) (ex_client 5) _ _ _ _ eq_refl _ _).
  - intros n h b Hh E. rewrite !ex_blk_height in Hh by lia. rewrite (honest_answers _ _ _ _ _ _ ex_honest_source n h Hh) in E. injection E as <-.
    split; [apply ex_blk_height; lia|]. exists h. split; [lia|done].
  - intros a b (i & Hi & ->) (j & Hj & ->). by apply ex_verify_done.
  - exists 5. split; [lia|done].
  - exists 8. split; [lia|done].
  - rewrite ex_blk_height; lia.
  - rewrite ex_blk_height by lia. by_decide.
Defined.


End examples.


End LightRun.
