(* ===== verification/Params.v ===== *)
(** * Params: the consensus parameters

    [types/params.go]: the parameters, their validation, the rules for changing them while
    the chain runs, their hash and their protobuf form. *)

From S2P Require Import Prelude Merkle Crypto ValidatorSet Votes Commit Header.
Import Commit.Commit Header.Header.

Local Open Scope Z_scope.

Module Params.

(** ** Parameters *)

Definition MaxBlockSizeBytes : Z := 100 * 1024 * 1024.
Definition Second : Z := 1000000000.
Definition MaxMessageDelay : Z := 24 * 3600 * Second.
Definition MaxPrecision : Z := 30 * Second.

Record BlockParams := mkBlockParams { MaxBytes : Z; MaxGas : Z }.
Record EvidenceParams := mkEvidenceParams { MaxAgeNumBlocks : Z; MaxAgeDuration : Z; evMaxBytes : Z }.
Record ValidatorParams := mkValidatorParams { PubKeyTypes : list string }.
Record VersionParams := mkVersionParams { App : Z }.
Record FeatureParams := mkFeatureParams { VoteExtensionsEnableHeight : Z; PbtsEnableHeight : Z }.
Record SynchronyParams := mkSynchronyParams { Precision : Z; MessageDelay : Z }.

Record ConsensusParams := mkConsensusParams {
  pBlock : BlockParams; pEvidence : EvidenceParams; pValidator : ValidatorParams;
  pVersion : VersionParams; pSynchrony : SynchronyParams; pFeature : FeatureParams }.

(** [featureEnabled] panics below height 1. *)
Definition VoteExtensionsEnabled (p : FeatureParams) (h : Z) : outcome bool := featureEnabled (VoteExtensionsEnableHeight p) h.
Definition PbtsEnabled (p : FeatureParams) (h : Z) : outcome bool := featureEnabled (PbtsEnableHeight p) h.

Definition DefaultBlockParams : BlockParams := mkBlockParams 4194304 10000000.
Definition DefaultEvidenceParams : EvidenceParams := mkEvidenceParams 100000 (48 * 3600 * Second) 1048576.
Definition DefaultValidatorParams : ValidatorParams := mkValidatorParams ["ed25519"%string].
Definition DefaultVersionParams : VersionParams := mkVersionParams 0.
Definition DefaultFeatureParams : FeatureParams := mkFeatureParams 0 0.
Definition DefaultSynchronyParams : SynchronyParams := mkSynchronyParams 505000000 (15 * Second).
Definition DefaultConsensusParams : ConsensusParams :=
  mkConsensusParams DefaultBlockParams DefaultEvidenceParams DefaultValidatorParams DefaultVersionParams
    DefaultSynchronyParams DefaultFeatureParams.

Definition IsValidPubkeyType (params : ValidatorParams) (pubkeyType : string) : bool :=
  existsb (λ t, bool_decide (t = pubkeyType)) (PubKeyTypes params).

(** [ValidateBasic]; the checks are in the order of the code. *)
Definition params_ValidateBasic (bls : bool) (params : ConsensusParams) : option string :=
  let b := pBlock params in let e := pEvidence params in let f := pFeature params in let s := pSynchrony params in
  if MaxBytes b =? 0 then Some "block.MaxBytes cannot be 0"%string
  else if MaxBytes b <? -1 then Some "block.MaxBytes must be -1 or greater than 0"%string
  else if MaxBlockSizeBytes <? MaxBytes b then Some "block.MaxBytes is too big"%string
  else if MaxGas b <? -1 then Some "block.MaxGas must be greater or equal to -1"%string
  else if MaxAgeNumBlocks e <=? 0 then Some "evidence.MaxAgeNumBlocks must be greater than 0"%string
  else if MaxAgeDuration e <=? 0 then Some "evidence.MaxAgeDuration must be greater than 0"%string
  else if (if MaxBytes b =? -1 then MaxBlockSizeBytes else MaxBytes b) <? evMaxBytes e
  then Some "evidence.MaxBytesEvidence is greater than upper bound"%string
  else if evMaxBytes e <? 0 then Some "evidence.MaxBytes must be non negative"%string
  else if VoteExtensionsEnableHeight f <? 0 then Some "Feature.VoteExtensionsEnabledHeight cannot be negative"%string
  else if PbtsEnableHeight f <? 0 then Some "Feature.PbtsEnableHeight cannot be negative"%string
  else if (0 <? PbtsEnableHeight f) && (MessageDelay s <=? 0) then Some "synchrony.MessageDelay must be greater than 0"%string
  else if (0 <? PbtsEnableHeight f) && (Precision s <=? 0) then Some "synchrony.Precision must be greater than 0"%string
  else if (0 <? PbtsEnableHeight f) && (MaxMessageDelay <? MessageDelay s) then Some "synchrony.MessageDelay is too big"%string
  else if (0 <? PbtsEnableHeight f) && (MaxPrecision <? Precision s) then Some "synchrony.Precision is too big"%string
  else if zlen (PubKeyTypes (pValidator params)) =? 0 then Some "len(Validator.PubKeyTypes) must be greater than 0"%string
  else first_error (λ keyType, if IsSupported bls keyType then None else Some "unknown pubkey type"%string)
         (PubKeyTypes (pValidator params)).

(** ** Changes

    The message of an update holds the parts that change; inside [Feature] and [Synchrony]
    every field may be absent too. *)
Record FeatureUpdate := mkFeatureUpdate { uVoteExtensions : option Z; uPbts : option Z }.
Record SynchronyUpdate := mkSynchronyUpdate { uMessageDelay : option Z; uPrecision : option Z }.
Record ParamsMsg := mkParamsMsg {
  mBlock : option BlockParams; mEvidence : option EvidenceParams; mValidator : option ValidatorParams;
  mVersion : option VersionParams; mAbci : option Z; mSynchrony : option SynchronyUpdate; mFeature : option FeatureUpdate }.

Definition validateUpdateFeatureEnableHeight (param updated h : Z) : option string :=
  if updated <? 0 then Some "EnableHeight must be positive"%string
  else if (param <=? 0) && (updated =? 0) then None
  else if param =? updated then None
  else if (0 <? param) && (updated =? 0) then
    if param <=? h then Some "cannot be disabled once enabled"%string else None
  else if updated <=? h then Some "cannot be updated to a past or current height"%string
  else if param <=? 0 then None
  else if param <=? h then Some "cannot be modified once enabled"%string
  else None.

Definition validateUpdateFeatures (params : FeatureParams) (updated : FeatureUpdate) (h : Z) : option string :=
  let check param new := match new with Some u => validateUpdateFeatureEnableHeight param u h | None => None end in
  match check (VoteExtensionsEnableHeight params) (uVoteExtensions updated) with
  | Some e => Some e
  | None => check (PbtsEnableHeight params) (uPbts updated)
  end.

Definition ValidateUpdate (params : ConsensusParams) (updated : option ParamsMsg) (h : Z) : option string :=
  match updated with
  | None => None
  | Some u => match mFeature u with Some f => validateUpdateFeatures (pFeature params) f h | None => None end
  end.

Definition Update (params : ConsensusParams) (params2 : option ParamsMsg) : ConsensusParams :=
  match params2 with
  | None => params
  | Some u =>
      mkConsensusParams
        (default (pBlock params) (mBlock u))
        (default (pEvidence params) (mEvidence u))
        (default (pValidator params) (mValidator u))
        (default (pVersion params) (mVersion u))
        (match mSynchrony u with
         | Some s => mkSynchronyParams (default (Precision (pSynchrony params)) (uPrecision s))
                       (default (MessageDelay (pSynchrony params)) (uMessageDelay s))
         | None => pSynchrony params
         end)
        (match mFeature u with
         | Some f => mkFeatureParams (default (VoteExtensionsEnableHeight (pFeature params)) (uVoteExtensions f))
                       (default (PbtsEnableHeight (pFeature params)) (uPbts f))
         | None => pFeature params
         end)
  end.

(** ** Protobuf form *)

Definition params_ToProto (p : ConsensusParams) : ParamsMsg :=
  mkParamsMsg (Some (pBlock p)) (Some (pEvidence p)) (Some (pValidator p)) (Some (pVersion p)) None
    (Some (mkSynchronyUpdate (Some (MessageDelay (pSynchrony p))) (Some (Precision (pSynchrony p)))))
    (Some (mkFeatureUpdate (Some (VoteExtensionsEnableHeight (pFeature p))) (Some (PbtsEnableHeight (pFeature p))))).

(** The first four parts are read without a nil check. *)
Definition ConsensusParamsFromProto (pb : ParamsMsg) : outcome ConsensusParams :=
  match mBlock pb, mEvidence pb, mValidator pb, mVersion pb with
  | Some b, Some e, Some v, Some ver =>
      let vote := default 0 (mFeature pb ≫= uVoteExtensions) in
      let pbts := default 0 (mFeature pb ≫= uPbts) in
      let sync := mkSynchronyParams (default 0 (mSynchrony pb ≫= uPrecision)) (default 0 (mSynchrony pb ≫= uMessageDelay)) in
      let abci := default 0 (mAbci pb) in
      if 0 <? abci then
        if 0 <? vote then Panic "vote_extension_enable_height is set in two different places"
        else Done (mkConsensusParams b e v ver sync (mkFeatureParams abci pbts))
      else Done (mkConsensusParams b e v ver sync (mkFeatureParams vote pbts))
  | _, _, _, _ => Panic "nil pointer dereference"
  end.

(** ** Hash *)

(** [HashedParams.Marshal]: two varint fields, left out when zero. *)
Definition HashedParams_Marshal (maxBytes maxGas : Z) : list Z :=
  (if maxBytes =? 0 then [] else 8 :: Votes.Votes.encodeVarint 10 (wrapu64 maxBytes)) ++
  (if maxGas =? 0 then [] else 16 :: Votes.Votes.encodeVarint 10 (wrapu64 maxGas)).

Definition params_Hash `{Merkle.HashOps} (params : ConsensusParams) : list Z :=
  Merkle.Sum (HashedParams_Marshal (MaxBytes (pBlock params)) (MaxGas (pBlock params))).

(** The empty message, which the state store writes when nothing changed. *)
Definition empty_ParamsMsg : ParamsMsg := mkParamsMsg None None None None None None None.

#[export] Instance BlockParams_eq_dec : EqDecision BlockParams.
Proof. solve_decision. Defined.
#[export] Instance EvidenceParams_eq_dec : EqDecision EvidenceParams.
Proof. solve_decision. Defined.
#[export] Instance ValidatorParams_eq_dec : EqDecision ValidatorParams.
Proof. solve_decision. Defined.
#[export] Instance VersionParams_eq_dec : EqDecision VersionParams.
Proof. solve_decision. Defined.
#[export] Instance FeatureParams_eq_dec : EqDecision FeatureParams.
Proof. solve_decision. Defined.
#[export] Instance SynchronyParams_eq_dec : EqDecision SynchronyParams.
Proof. solve_decision. Defined.
#[export] Instance ConsensusParams_eq_dec : EqDecision ConsensusParams.
Proof. solve_decision. Defined.
#[export] Instance FeatureUpdate_eq_dec : EqDecision FeatureUpdate.
Proof. solve_decision. Defined.
#[export] Instance SynchronyUpdate_eq_dec : EqDecision SynchronyUpdate.
Proof. solve_decision. Defined.
#[export] Instance ParamsMsg_eq_dec : EqDecision ParamsMsg.
Proof. solve_decision. Defined.

(** ** Properties *)

Lemma feature_update_cases p u h :
  validateUpdateFeatureEnableHeight p u h = None ↔
  0 ≤ u ∧ (u = p ∨ (u = 0 ∨ h < u) ∧ (p ≤ 0 ∨ h < p)).
Proof.
  unfold validateUpdateFeatureEnableHeight.
  destruct (Z.ltb_spec u 0); [split; [done|lia]|].
  destruct (Z.leb_spec p 0), (Z.eqb_spec u 0), (Z.eqb_spec p u), (Z.ltb_spec 0 p), (Z.leb_spec p h), (Z.leb_spec u h);
    cbn [andb]; split; intros; try done; lia.
Qed.

(** The heights up to [h] at which a feature is on do not change with the parameters. *)
Definition same_until (h : Z) (p p' : FeatureParams) : Prop :=
  ∀ k, k ≤ h → PbtsEnabled p k = PbtsEnabled p' k ∧ VoteExtensionsEnabled p k = VoteExtensionsEnabled p' k.

Lemma same_until_mono h h' p p' : h' ≤ h → same_until h p p' → same_until h' p p'.
Proof. intros Hh Hs k Hk. apply Hs. lia. Qed.

#[export] Instance same_until_equiv h : Equivalence (same_until h).
Proof.
  split.
  - by intros p k _.
  - intros p q Hs k Hk. by destruct (Hs k Hk).
  - intros p q r Hs Hs' k Hk. destruct (Hs k Hk) as [-> ->]. apply (Hs' k Hk).
Qed.

Lemma feature_update_keeps p u h k :
  validateUpdateFeatureEnableHeight p u h = None → k ≤ h → featureEnabled p k = featureEnabled u k.
Proof.
  intros (Hu & Hc)%feature_update_cases Hk. unfold featureEnabled. destruct (Z.ltb_spec k 1); [done|].
  destruct (Z.leb_spec p 0), (Z.leb_spec u 0), (Z.leb_spec p k), (Z.leb_spec u k); try done; lia.
Qed.

Lemma ValidateUpdate_keeps params u h :
  ValidateUpdate params u h = None → same_until h (pFeature params) (pFeature (Update params u)).
Proof.
  unfold ValidateUpdate, Update, validateUpdateFeatures. intros E k Hk. destruct u as [u|]; [|done]. cbn [pFeature].
  destruct (mFeature u) as [[ve pb]|]; [|done]. cbn [uVoteExtensions uPbts] in *.
  unfold PbtsEnabled, VoteExtensionsEnabled. cbn [PbtsEnableHeight VoteExtensionsEnableHeight].
  destruct ve as [ve|], pb as [pb|]; cbn [default from_option id] in *; case_hyp E;
    split; try done; by eapply feature_update_keeps.
Qed.

Lemma params_proto_roundtrip p : ConsensusParamsFromProto (params_ToProto p) = Done p.
Proof. by destruct p as [? ? ? ? [] []]. Qed.

Lemma ToProto_nonempty p : params_ToProto p ≠ empty_ParamsMsg.
Proof. done. Qed.

(** The full message changes every parameter. *)
Lemma Update_ToProto p q : Update p (Some (params_ToProto q)) = q.
Proof. by destruct q as [? ? ? ? [] []]. Qed.

Lemma default_params_valid bls : params_ValidateBasic bls DefaultConsensusParams = None.
Proof. by destruct bls. Qed.
(** Varints are self-delimiting. *)
Lemma encodeVarint_prefix fuel x y r r' :
  0 ≤ x < 128 ^ Z.of_nat fuel → 0 ≤ y < 128 ^ Z.of_nat fuel →
  Votes.Votes.encodeVarint fuel x ++ r = Votes.Votes.encodeVarint fuel y ++ r' → x = y ∧ r = r'.
Proof.
  revert x y. induction fuel as [|fuel IH]; intros x y Hx Hy E; [simpl in *; split; [lia|done]|].
  rewrite Nat2Z.inj_succ, Z.pow_succ_r in Hx, Hy by lia. cbn [Votes.Votes.encodeVarint] in E.
  assert (Hlow : ∀ z, 0 ≤ z → Z.lor (Z.land z 127) 128 = z `mod` 128 + 128).
  { intros z Hz. change 127 with (Z.ones 7). rewrite Z.land_ones by lia. change (2 ^ 7) with 128.
    rewrite Z.add_nocarry_lxor, Z.lxor_lor; try done.
    all: apply Z.bits_inj'; intros n Hn; rewrite Z.land_spec, Z.bits_0; change 128 with (2 ^ 7);
      rewrite Z.pow2_bits_eqb by lia; destruct (Z.eqb_spec 7 n) as [<-|]; [|by rewrite andb_false_r];
      by rewrite Z.mod_pow2_bits_high by lia. }
  destruct (Z.leb_spec 128 x), (Z.leb_spec 128 y); cbn [app] in E; injection E as E1 E2.
  - rewrite !Hlow in E1 by lia. rewrite !Z.shiftr_div_pow2 in E2 by lia. change (2 ^ 7) with 128 in E2.
    pose proof (Z.div_mod x 128 ltac:(lia)). pose proof (Z.div_mod y 128 ltac:(lia)).
    apply IH in E2 as [? ?]; [split; [lia|done]|..]; split; try (apply Z.div_pos; lia); apply Z.div_lt_upper_bound; lia.
  - rewrite Hlow in E1 by lia. pose proof (Z.mod_pos_bound x 128). lia.
  - rewrite Hlow in E1 by lia. pose proof (Z.mod_pos_bound y 128). lia.
  - done.
Qed.

Lemma wrapu64_int64_inj x y : in_int64 x → in_int64 y → wrapu64 x = wrapu64 y → x = y.
Proof.
  unfold wrapu64; unfold_ints. intros Hx Hy E.
  pose proof (Z.div_mod x 18446744073709551616 ltac:(lia)). pose proof (Z.div_mod y 18446744073709551616 ltac:(lia)). lia.
Qed.

Lemma wrapu64_nonzero x : in_int64 x → x ≠ 0 → wrapu64 x ≠ 0.
Proof. intros Hx Hn E. apply Hn. apply wrapu64_int64_inj; [done|by unfold_ints; lia|by rewrite E]. Qed.

Lemma wrapu64_varint x : 0 ≤ wrapu64 x < 128 ^ Z.of_nat 10.
Proof. pose proof (wrapu64_range x). unfold_ints. change (128 ^ Z.of_nat 10) with 1180591620717411303424. lia. Qed.

Lemma HashedParams_inj a g a' g' :
  in_int64 a → in_int64 g → in_int64 a' → in_int64 g' →
  HashedParams_Marshal a g = HashedParams_Marshal a' g' → a = a' ∧ g = g'.
Proof.
  intros Ha Hg Ha' Hg' E. unfold HashedParams_Marshal in E.
  assert (Hinj : ∀ x y r r', in_int64 x → in_int64 y →
    Votes.Votes.encodeVarint 10 (wrapu64 x) ++ r = Votes.Votes.encodeVarint 10 (wrapu64 y) ++ r' → x = y ∧ r = r').
  { intros x y r r' Hx Hy Er. apply encodeVarint_prefix in Er as [? ?]; [|apply wrapu64_varint..]. split; [by apply wrapu64_int64_inj|done]. }
  assert (Hgas : ∀ x y, in_int64 x → in_int64 y →
    (if x =? 0 then [] else 16 :: Votes.Votes.encodeVarint 10 (wrapu64 x)) =
    (if y =? 0 then [] else 16 :: Votes.Votes.encodeVarint 10 (wrapu64 y)) → x = y).
  { intros x y Hx Hy Er. destruct (Z.eqb_spec x 0), (Z.eqb_spec y 0); [lia|done|done|]. apply (f_equal tail) in Er. cbn [tail] in Er.
    by destruct (Hinj x y [] []); [..|rewrite !app_nil_r|]. }
  destruct (Z.eqb_spec a 0) as [->|], (Z.eqb_spec a' 0) as [->|].
  - split; [done|]. by apply Hgas.
  - destruct (g =? 0); [done|]. apply (f_equal head) in E. discriminate E.
  - destruct (g' =? 0); [done|]. apply (f_equal head) in E. discriminate E.
  - apply (f_equal tail) in E. cbn [app tail] in E. destruct (Hinj a a' _ _ Ha Ha' E) as [-> Er]. split; [done|]. by apply Hgas.
Qed.

(** What the hash in the header says of the parameters. *)
Lemma params_Hash_binds `{Merkle.HashOps} p q :
  in_int64 (MaxBytes (pBlock p)) → in_int64 (MaxGas (pBlock p)) → in_int64 (MaxBytes (pBlock q)) → in_int64 (MaxGas (pBlock q)) →
  params_Hash p = params_Hash q →
  pBlock p = pBlock q ∨
  Merkle.collision (HashedParams_Marshal (MaxBytes (pBlock p)) (MaxGas (pBlock p)), HashedParams_Marshal (MaxBytes (pBlock q)) (MaxGas (pBlock q))).
Proof.
  intros Ha Hg Ha' Hg' E. unfold params_Hash in E.
  destruct (decide (HashedParams_Marshal (MaxBytes (pBlock p)) (MaxGas (pBlock p)) = HashedParams_Marshal (MaxBytes (pBlock q)) (MaxGas (pBlock q)))) as [Em|Hn].
  - left. apply HashedParams_inj in Em as [E1 E2]; [|done..]. destruct (pBlock p), (pBlock q). cbn in *. by subst.
  - by right.
Qed.


End Params.
