(* ===== verification/Wire.v ===== *)
(** * Wire: the protobuf forms of keys, votes, commits, headers and validator sets

    The [ToProto] and [FromProto] functions of [types/] and the key codec of
    [crypto/encoding/codec.go].  A message that has the fields of the struct it stands for is
    that struct's record; the others have a record of their own.  Decoding answers with a
    value or an error, or panics: every decoder returns a [decoded] value. *)

From S2P Require Import Prelude Merkle Crypto ValidatorSet Votes Commit Header.
Import ValidatorSet.ValidatorSet Votes.Votes Commit.Commit Header.Header.

Local Open Scope Z_scope.

Module Wire.

(** ** Results of decoding *)

Notation decoded A := (outcome (result string A)).
Definition value {A} (a : A) : decoded A := Done (Ok a).
Definition fails {A} (e : string) : decoded A := Done (Err e).

Definition dbind {A B} (m : decoded A) (f : A → decoded B) : decoded B :=
  match m with
  | Done (Ok a) => f a
  | Done (Err e) => Done (Err e)
  | Panic w => Panic w
  end.
Notation "x ←? m ; k" := (dbind m (λ x, k)) (at level 20, m at level 100, k at level 200, only parsing).

(** A value with the error of its check. *)
Definition checked {A} (a : A) (e : option string) : decoded A :=
  match e with None => value a | Some e => fails e end.

Fixpoint decode_all {A B} (f : A → decoded B) (l : list A) : decoded (list B) :=
  match l with
  | [] => value []
  | x :: l => y ←? f x; ys ←? decode_all f l; value (y :: ys)
  end.

Lemma dbind_Ok {A B} (m : decoded A) (f : A → decoded B) b :
  dbind m f = Done (Ok b) ↔ ∃ a, m = Done (Ok a) ∧ f a = Done (Ok b).
Proof. destruct m as [[a|e]|w]; simpl; naive_solver. Qed.

Lemma checked_Ok {A} (a b : A) e : checked a e = Done (Ok b) ↔ a = b ∧ e = None.
Proof. unfold checked, value, fails. destruct e; naive_solver. Qed.

Lemma decode_all_Ok {A B} (f : A → decoded B) l l' :
  decode_all f l = Done (Ok l') ↔ Forall2 (λ x y, f x = Done (Ok y)) l l'.
Proof.
  revert l'. induction l as [|x l IH]; intros l'; cbn [decode_all].
  - unfold value. split; [intros [= <-]; constructor|by intros ->%Forall2_nil_inv_l].
  - rewrite dbind_Ok. setoid_rewrite dbind_Ok. setoid_rewrite IH. unfold value. split.
    + intros (y & Ey & ys & Eys & [= <-]). by constructor.
    + intros (y & ys & Ey & Eys & ->)%Forall2_cons_inv_l. eauto.
Qed.

(** ** Keys *)

(** The bytes of a key, and the key of a type made of bytes of the right length. *)
Class KeyCodec `{PubKeyOps} := {
  pk_Bytes : PubKey → list Z;
  make_key : string → list Z → option PubKey
}.

Inductive PublicKeyMsg :=
| PublicKey_Ed25519 (bz : list Z)
| PublicKey_Secp256K1 (bz : list Z)
| PublicKey_Bls12381 (bz : list Z)
| PublicKey_Nil.

Section wire.
Context `{PubKeyOps, !KeyCodec}.
Variable bls : bool.

Definition PubKeyFromTypeAndBytes (pkType : string) (bytes : list Z) : result string PubKey :=
  let sized n := if negb (zlen bytes =? n) then Err "invalid key length"%string
                 else match make_key pkType bytes with Some k => Ok k | None => Err "invalid key"%string end in
  if bool_decide (pkType = "ed25519"%string) then sized 32
  else if bool_decide (pkType = "secp256k1"%string) then sized 33
  else if bool_decide (pkType = "bls12_381"%string) then if bls then sized 96 else Err "unsupported key"%string
  else Err "unsupported key"%string.

Definition PubKeyFromProto (k : PublicKeyMsg) : result string PubKey :=
  match k with
  | PublicKey_Ed25519 bz => PubKeyFromTypeAndBytes "ed25519" bz
  | PublicKey_Secp256K1 bz => PubKeyFromTypeAndBytes "secp256k1" bz
  | PublicKey_Bls12381 bz => PubKeyFromTypeAndBytes "bls12_381" bz
  | PublicKey_Nil => Err "unsupported key"%string
  end.

Definition PubKeyToProto (k : option PubKey) : result string PublicKeyMsg :=
  match k with
  | None => Err "unsupported key"%string
  | Some k =>
      if bool_decide (pk_Type k = "ed25519"%string) then Ok (PublicKey_Ed25519 (pk_Bytes k))
      else if bool_decide (pk_Type k = "secp256k1"%string) then Ok (PublicKey_Secp256K1 (pk_Bytes k))
      else if bool_decide (pk_Type k = "bls12_381"%string) then
        if bls then Ok (PublicKey_Bls12381 (pk_Bytes k)) else Err "unsupported key"%string
      else Err "unsupported key"%string
  end.

(** ** Block ids, votes and commits *)

Definition PartSetHeader_ToProto (psh : PartSetHeader) : PartSetHeader :=
  mkPSH (psh_Total psh) (psh_Hash psh).

Definition BlockID_ToProto (b : BlockID) : BlockID :=
  {| Votes.Hash := Votes.Hash b; PSH := PartSetHeader_ToProto (PSH b) |}.

Definition Vote_ToProto (vote : Vote) : Vote :=
  mkVote (Type_ vote) (Height vote) (Round vote) (BlockID_ToProto (vBlockID vote)) (Timestamp vote)
    (ValidatorAddress vote) (ValidatorIndex vote) (Signature vote) (Extension vote) (ExtensionSignature vote).

Definition CommitSig_ToProto (cs : CommitSig) : CommitSig :=
  mkCommitSig (cs_Flag cs) (cs_Address cs) (cs_Timestamp cs) (cs_Signature cs).

Definition Commit_ToProto (commit : Commit) : Commit :=
  mkCommit (cHeight commit) (cRound commit) (BlockID_ToProto (cBlockID commit))
    (CommitSig_ToProto <$> Signatures commit).

Definition Header_ToProto (h : Header) : Header :=
  mkHeader (VersionBlock h) (VersionApp h) (hChainID h) (hHeight h) (hTime h) (BlockID_ToProto (LastBlockID h))
    (LastCommitHash h) (DataHash h) (ValidatorsHash h) (NextValidatorsHash h) (ConsensusHash h) (AppHash h)
    (LastResultsHash h) (EvidenceHash h) (ProposerAddress h).

Definition SignedHeader_ToProto (sh : SignedHeader) : SignedHeader :=
  mkSignedHeader (Header_ToProto <$> shHeader sh) (Commit_ToProto <$> shCommit sh).

Definition PartSetHeaderFromProto (p : PartSetHeader) : decoded PartSetHeader :=
  checked p (if psh_ValidateBasic p then None else Some "wrong Hash"%string).

Definition BlockIDFromProto (b : BlockID) : decoded BlockID :=
  ph ←? PartSetHeaderFromProto (PSH b);
  let blockID := {| Votes.Hash := Votes.Hash b; PSH := ph |} in
  checked blockID (if block_ValidateBasic blockID then None else Some "wrong Hash"%string).

Definition VoteFromProto (pv : Vote) : decoded Vote :=
  blockID ←? BlockIDFromProto (vBlockID pv);
  value (mkVote (Type_ pv) (Height pv) (Round pv) blockID (Timestamp pv) (ValidatorAddress pv) (ValidatorIndex pv)
           (Signature pv) (Extension pv) (ExtensionSignature pv)).

(** The flag is an [int32] on the wire and a [byte] in the struct. *)
Definition CommitSigFromProto (csp : CommitSig) : decoded CommitSig :=
  let cs := mkCommitSig (cs_Flag csp mod 256) (cs_Address csp) (cs_Timestamp csp) (cs_Signature csp) in
  checked cs (cs_ValidateBasic cs).

Definition ExtendedCommitSigFromProto (p : ExtendedCommitSig) : decoded ExtendedCommitSig :=
  let csp := ecs_CommitSig p in
  let ecs := mkExtCommitSig (mkCommitSig (cs_Flag csp mod 256) (cs_Address csp) (cs_Timestamp csp) (cs_Signature csp))
               (ecs_Extension p) (ecs_ExtensionSignature p) in
  checked ecs (ecs_ValidateBasic ecs).

Definition CommitFromProto (cp : Commit) : decoded Commit :=
  bi ←? BlockIDFromProto (cBlockID cp);
  sigs ←? decode_all CommitSigFromProto (Signatures cp);
  let commit := mkCommit (cHeight cp) (cRound cp) bi sigs in
  checked commit (commit_ValidateBasic commit).

Definition ExtendedCommitFromProto (ecp : ExtendedCommit) : decoded ExtendedCommit :=
  bi ←? BlockIDFromProto (ecBlockID ecp);
  sigs ←? decode_all ExtendedCommitSigFromProto (ExtendedSignatures ecp);
  let ec := mkExtendedCommit (ecHeight ecp) (ecRound ecp) bi sigs in
  checked ec (ec_ValidateBasic ec).

Definition HeaderFromProto (ph : Header) : decoded Header :=
  bi ←? BlockIDFromProto (LastBlockID ph);
  let h := mkHeader (VersionBlock ph) (VersionApp ph) (hChainID ph) (hHeight ph) (hTime ph) bi (LastCommitHash ph)
             (DataHash ph) (ValidatorsHash ph) (NextValidatorsHash ph) (ConsensusHash ph) (AppHash ph)
             (LastResultsHash ph) (EvidenceHash ph) (ProposerAddress ph) in
  checked h (header_ValidateBasic h).

(** ** Validators *)

Record ValidatorMsg := mkValidatorMsg {
  vmAddress : list Z; vmPubKey : option PublicKeyMsg; vmVotingPower : Z; vmProposerPriority : Z;
  vmPubKeyBytes : list Z; vmPubKeyType : string }.

Record ValidatorSetMsg := mkValidatorSetMsg { vsmValidators : list ValidatorMsg; vsmProposer : option ValidatorMsg }.

Definition validator_ToProto (v : option Validator) : result string ValidatorMsg :=
  match v with
  | None => Err "nil validator"%string
  | Some v =>
      match ValPubKey v with
      | None => Err "nil pubkey"%string
      | Some pk => Ok (mkValidatorMsg (Address v) None (VotingPower v) (ProposerPriority v) (pk_Bytes pk) (pk_Type pk))
      end
  end.

(** The second attempt reads the old form of the key through a pointer that may be nil. *)
Definition ValidatorFromProto (vp : option ValidatorMsg) : decoded Validator :=
  match vp with
  | None => fails "nil validator"
  | Some vp =>
      let make pk := value (mkValidator (vmAddress vp) (Some pk) (vmVotingPower vp) (vmProposerPriority vp)) in
      match PubKeyFromTypeAndBytes (vmPubKeyType vp) (vmPubKeyBytes vp) with
      | Ok pk => make pk
      | Err _ =>
          match vmPubKey vp with
          | None => Panic "nil pointer dereference"
          | Some k => match PubKeyFromProto k with Ok pk => make pk | Err e => fails e end
          end
      end
  end.

Fixpoint validators_ToProto (l : list Validator) : result string (list ValidatorMsg) :=
  match l with
  | [] => Ok []
  | v :: l =>
      match validator_ToProto (Some v), validators_ToProto l with
      | Ok m, Ok ms => Ok (m :: ms)
      | Err e, _ => Err e
      | _, Err e => Err e
      end
  end.

Definition vals_ToProto (vals : option ValidatorSet) : result string ValidatorSetMsg :=
  match vals with
  | None => Ok (mkValidatorSetMsg [] None)
  | Some vals =>
      if zlen (Validators vals) =? 0 then Ok (mkValidatorSetMsg [] None)
      else
        match validators_ToProto (Validators vals), validator_ToProto (Proposer vals) with
        | Ok ms, Ok p => Ok (mkValidatorSetMsg ms (Some p))
        | Err e, _ => Err e
        | _, Err e => Err e
        end
  end.

Definition ValidatorSetFromProto (vp : option ValidatorSetMsg) : decoded ValidatorSet :=
  match vp with
  | None => fails "nil validator set"
  | Some vp =>
      l ←? decode_all (λ m, ValidatorFromProto (Some m)) (vsmValidators vp);
      vals ← checkAllKeysHaveSameType (mkValidatorSet l None 0 false);
      p ←? ValidatorFromProto (vsmProposer vp);
      let vals := mkValidatorSet (Validators vals) (Some p) (totalVotingPower vals) (allKeysHaveSameType vals) in
      r ← TotalVotingPower vals;
      checked r.1 (vals_ValidateBasic bls (Some r.1))
  end.

(** ** Light blocks *)

Record LightBlockMsg := mkLightBlockMsg { lbmSignedHeader : option SignedHeader; lbmValidatorSet : option ValidatorSetMsg }.

Definition SignedHeaderFromProto (shp : SignedHeader) : decoded SignedHeader :=
  h ←? (match shHeader shp with None => value None | Some h => h ←? HeaderFromProto h; value (Some h) end);
  c ←? (match shCommit shp with None => value None | Some c => c ←? CommitFromProto c; value (Some c) end);
  value (mkSignedHeader h c).

Definition LightBlockFromProto (pb : option LightBlockMsg) : decoded LightBlock :=
  match pb with
  | None => fails "nil light block"
  | Some pb =>
      sh ←? (match lbmSignedHeader pb with None => value None | Some sh => sh ←? SignedHeaderFromProto sh; value (Some sh) end);
      vals ←? (match lbmValidatorSet pb with None => value None | Some vs => vs ←? ValidatorSetFromProto (Some vs); value (Some vs) end);
      value (mkLightBlock sh vals)
  end.

Definition lb_ToProto (lb : LightBlock) : result string LightBlockMsg :=
  match lbValidatorSet lb with
  | None => Ok (mkLightBlockMsg (SignedHeader_ToProto <$> lbSignedHeader lb) None)
  | Some vals => match vals_ToProto (Some vals) with
                 | Ok vs => Ok (mkLightBlockMsg (SignedHeader_ToProto <$> lbSignedHeader lb) (Some vs))
                 | Err e => Err e
                 end
  end.

(** ** Round trips *)

(** The messages that have the fields of the struct carry every one of them. *)
Lemma BlockID_same b : BlockID_ToProto b = b.
Proof. by destruct b as [h []]. Qed.
Lemma Vote_same v : Vote_ToProto v = v.
Proof. unfold Vote_ToProto. rewrite BlockID_same. by destruct v. Qed.
Lemma Commit_same c : Commit_ToProto c = c.
Proof.
  unfold Commit_ToProto. rewrite BlockID_same. destruct c as [h r b l]. f_equal. cbn [Signatures].
  induction l as [|[] l IH]; [done|]. cbn [fmap list_fmap]. by rewrite IH.
Qed.
Lemma Header_same h : Header_ToProto h = h.
Proof. unfold Header_ToProto. rewrite BlockID_same. by destruct h. Qed.
Lemma SignedHeader_same sh : SignedHeader_ToProto sh = sh.
Proof.
  destruct sh as [[h|] [c|]]; unfold SignedHeader_ToProto; cbn [shHeader shCommit fmap option_fmap option_map];
    by rewrite ?Header_same, ?Commit_same.
Qed.

Lemma BlockID_roundtrip b : block_ValidateBasic b = true → BlockIDFromProto b = value b.
Proof.
  intros Hb. unfold BlockIDFromProto, PartSetHeaderFromProto. pose proof Hb as Hb'. unfold block_ValidateBasic in Hb'.
  apply andb_true_iff in Hb' as [_ Hp]. rewrite Hp. cbn [checked dbind value]. destruct b as [h p]. cbn [Votes.Hash PSH] in *. by rewrite Hb.
Qed.

Lemma BlockIDFromProto_Ok b b' : BlockIDFromProto b = Done (Ok b') ↔ b' = b ∧ block_ValidateBasic b = true.
Proof.
  split; [|by intros [-> ?]; apply BlockID_roundtrip].
  unfold BlockIDFromProto, PartSetHeaderFromProto. intros (p & [<- _]%checked_Ok & [<- E]%checked_Ok)%dbind_Ok.
  destruct b as [h p]. cbn [Votes.Hash PSH] in *. split; [done|]. by destruct (block_ValidateBasic _).
Qed.

Lemma Vote_roundtrip v : block_ValidateBasic (vBlockID v) = true → VoteFromProto v = value v.
Proof. intros Hb. unfold VoteFromProto. rewrite BlockID_roundtrip by done. by destruct v. Qed.

Lemma valid_flag cs : cs_ValidateBasic cs = None → cs_Flag cs mod 256 = cs_Flag cs.
Proof.
  unfold cs_ValidateBasic, known_flag, BlockIDFlagAbsent, BlockIDFlagCommit, BlockIDFlagNil. intros E.
  apply Z.mod_small. destruct (Z.eqb_spec (cs_Flag cs) 1), (Z.eqb_spec (cs_Flag cs) 2), (Z.eqb_spec (cs_Flag cs) 3); try done; lia.
Qed.

Lemma CommitSig_roundtrip cs : cs_ValidateBasic cs = None → CommitSigFromProto cs = value cs.
Proof.
  intros Hv. unfold CommitSigFromProto. rewrite (valid_flag _ Hv). destruct cs. cbn [cs_Flag cs_Address cs_Timestamp cs_Signature] in *. by rewrite Hv.
Qed.

Lemma ExtendedCommitSig_roundtrip ecs : ecs_ValidateBasic ecs = None → ExtendedCommitSigFromProto ecs = value ecs.
Proof.
  intros Hv. unfold ExtendedCommitSigFromProto. pose proof Hv as Hc. unfold ecs_ValidateBasic in Hc.
  destruct (cs_ValidateBasic (ecs_CommitSig ecs)) eqn:Ec; [done|]. rewrite (valid_flag _ Ec).
  destruct ecs as [[] ? ?]. cbn [cs_Flag cs_Address cs_Timestamp cs_Signature ecs_CommitSig ecs_Extension ecs_ExtensionSignature] in *. by rewrite Hv.
Qed.

Lemma decode_all_id {A} (f : A → decoded A) l : Forall (λ x, f x = value x) l → decode_all f l = value l.
Proof. intros Hf. apply decode_all_Ok. by induction Hf; constructor. Qed.

Lemma Commit_roundtrip c :
  block_ValidateBasic (cBlockID c) = true → Forall (λ cs, cs_ValidateBasic cs = None) (Signatures c) →
  commit_ValidateBasic c = None → CommitFromProto c = value c.
Proof.
  intros Hb Hs Hv. unfold CommitFromProto. rewrite BlockID_roundtrip by done. cbn [dbind value].
  rewrite decode_all_id by (eapply Forall_impl; [exact Hs|]; intros; by apply CommitSig_roundtrip).
  cbn [dbind value]. destruct c. cbn [cHeight cRound cBlockID Signatures] in *. by rewrite Hv.
Qed.

Lemma ExtendedCommit_roundtrip c :
  block_ValidateBasic (ecBlockID c) = true → Forall (λ cs, ecs_ValidateBasic cs = None) (ExtendedSignatures c) →
  ec_ValidateBasic c = None → ExtendedCommitFromProto c = value c.
Proof.
  intros Hb Hs Hv. unfold ExtendedCommitFromProto. rewrite BlockID_roundtrip by done. cbn [dbind value].
  rewrite decode_all_id by (eapply Forall_impl; [exact Hs|]; intros; by apply ExtendedCommitSig_roundtrip).
  cbn [dbind value]. destruct c. cbn [ecHeight ecRound ecBlockID ExtendedSignatures] in *. by rewrite Hv.
Qed.

Lemma header_valid_blockID h : header_ValidateBasic h = None → block_ValidateBasic (LastBlockID h) = true.
Proof. unfold header_ValidateBasic. intros E. by destruct (block_ValidateBasic (LastBlockID h)); case_hyp E. Qed.

Lemma Header_roundtrip h : header_ValidateBasic h = None → HeaderFromProto h = value h.
Proof.
  intros Hv. unfold HeaderFromProto. rewrite BlockID_roundtrip by by apply header_valid_blockID. cbn [dbind value].
  destruct h. cbn in *. by rewrite Hv.
Qed.

(** What the code relies on: a key of a supported type has the length of its type, is
    made again from its type and bytes, and has the type it was made for. *)
Class KeyCodecLaws : Prop := {
  key_size k : zlen (pk_Bytes k) = if bool_decide (pk_Type k = "ed25519"%string) then 32
                                   else if bool_decide (pk_Type k = "secp256k1"%string) then 33
                                   else if bool_decide (pk_Type k = "bls12_381"%string) then 96 else zlen (pk_Bytes k);
  key_remade k : make_key (pk_Type k) (pk_Bytes k) = Some k;
  key_type t bz k : make_key t bz = Some k → pk_Type k = t
}.

Section roundtrip.
Context `{!KeyCodecLaws}.

Lemma PubKey_roundtrip k : IsSupported bls (pk_Type k) = true → PubKeyFromTypeAndBytes (pk_Type k) (pk_Bytes k) = Ok k.
Proof.
  intros Hs. unfold PubKeyFromTypeAndBytes. rewrite key_remade. pose proof (key_size k) as Hl. unfold IsSupported in Hs.
  destruct (bool_decide (pk_Type k = "ed25519"%string)); [by rewrite Hl|].
  destruct (bool_decide (pk_Type k = "secp256k1"%string)); [by rewrite Hl|].
  destruct (bool_decide (pk_Type k = "bls12_381"%string)); [|by destruct bls]. destruct bls; [by rewrite Hl|done].
Qed.

Lemma PubKeyProto_roundtrip k m :
  PubKeyToProto (Some k) = Ok m → PubKeyFromProto m = Ok k.
Proof.
  unfold PubKeyToProto. intros E.
  destruct (bool_decide_reflect (pk_Type k = "ed25519"%string)) as [Et|N1].
  { injection E as <-. cbn [PubKeyFromProto]. rewrite <-Et. apply PubKey_roundtrip. by rewrite Et. }
  destruct (bool_decide_reflect (pk_Type k = "secp256k1"%string)) as [Et|N2].
  { injection E as <-. cbn [PubKeyFromProto]. rewrite <-Et. apply PubKey_roundtrip. by rewrite Et. }
  destruct (bool_decide_reflect (pk_Type k = "bls12_381"%string)) as [Et|N3]; [|done].
  destruct bls eqn:Eb; [|done]. injection E as <-. cbn [PubKeyFromProto]. rewrite <-Et.
  pose proof (PubKey_roundtrip k) as Hr. rewrite Eb in Hr. apply Hr. by rewrite Et.
Qed.

Lemma Validator_roundtrip v m :
  validator_ToProto (Some v) = Ok m → (∀ pk, ValPubKey v = Some pk → IsSupported bls (pk_Type pk) = true) →
  ValidatorFromProto (Some m) = value v.
Proof.
  unfold validator_ToProto. intros E Hs. destruct (ValPubKey v) as [pk|] eqn:Ek; [|done]. injection E as <-.
  unfold ValidatorFromProto. cbn [vmPubKeyType vmPubKeyBytes]. rewrite PubKey_roundtrip by by apply Hs.
  destruct v. cbn in *. by subst.
Qed.

Definition supported (v : Validator) : Prop := ∀ pk, ValPubKey v = Some pk → IsSupported bls (pk_Type pk) = true.

Lemma val_valid_supported v : val_ValidateBasic bls (Some v) = None → supported v.
Proof. intros E pk Ek. unfold val_ValidateBasic in E. rewrite Ek in E. by destruct (IsSupported bls (pk_Type pk)); case_hyp E. Qed.

Lemma validators_roundtrip l ms :
  validators_ToProto l = Ok ms → Forall supported l → decode_all (λ m, ValidatorFromProto (Some m)) ms = value l.
Proof.
  revert ms. induction l as [|v l IH]; intros ms E Hs; cbn [validators_ToProto] in E; [by injection E as <-|].
  destruct (validator_ToProto (Some v)) as [m|] eqn:Ev; [|done]. destruct (validators_ToProto l) as [ms'|]; [|done].
  injection E as <-. apply Forall_cons in Hs as [Hv Hs]. cbn [decode_all].
  rewrite (Validator_roundtrip _ _ Ev) by apply Hv. cbn [dbind value]. by rewrite (IH ms' eq_refl Hs).
Qed.

Lemma first_error_Forall {A} (f : A → option string) l : first_error f l = None ↔ Forall (λ x, f x = None) l.
Proof.
  induction l as [|x l IH]; cbn [first_error]; [by split; [constructor|]|]. rewrite Forall_cons, <-IH. by destruct (f x); naive_solver.
Qed.

Lemma vals_valid vals :
  vals_ValidateBasic bls (Some vals) = None →
  Validators vals ≠ [] ∧ Forall (λ v, val_ValidateBasic bls (Some v) = None) (Validators vals) ∧
  ∃ p, Proposer vals = Some p ∧ val_ValidateBasic bls (Some p) = None.
Proof.
  unfold vals_ValidateBasic. intros E. destruct (zlen (Validators vals) =? 0) eqn:El; [done|].
  destruct (first_error _ _) eqn:Ef; [done|]. apply first_error_Forall in Ef. split_and!; [by intros El'; rewrite El' in El|done|].
  destruct (Proposer vals) as [p|]; [|done]. exists p. split; [done|]. by destruct (val_ValidateBasic bls (Some p)).
Qed.

(** A set whose caches agree with its validators. *)
Definition coherent (vals : ValidatorSet) : Prop :=
  same_type_scan (Validators vals) "" = Done (allKeysHaveSameType vals) ∧
  sum_power (Validators vals) 0 = Done (totalVotingPower vals).

Lemma ValidatorSet_roundtrip vals m :
  vals_ValidateBasic bls (Some vals) = None → coherent vals → vals_ToProto (Some vals) = Ok m →
  ValidatorSetFromProto (Some m) = value vals.
Proof.
  intros Hv [Ht Hs] E. destruct (vals_valid _ Hv) as (Hne & Hf & p & Ep & Hp). unfold vals_ToProto in E.
  destruct (zlen (Validators vals) =? 0) eqn:E0; [zbool; by destruct (Validators vals)|].
  destruct (validators_ToProto (Validators vals)) as [ms|] eqn:Em; [|done]. rewrite Ep in E.
  destruct (validator_ToProto (Some p)) as [pm|] eqn:Epm; [|done]. injection E as <-.
  unfold ValidatorSetFromProto. cbn [vsmValidators vsmProposer].
  rewrite (validators_roundtrip _ _ Em) by (eapply Forall_impl; [exact Hf|]; intros; by apply val_valid_supported).
  cbn [dbind value]. unfold checkAllKeysHaveSameType. cbn [Validators]. rewrite Ht. cbn [mbind outcome_bind].
  rewrite (Validator_roundtrip _ _ Epm) by by apply val_valid_supported.
  cbn [dbind value totalVotingPower allKeysHaveSameType Proposer].
  unfold TotalVotingPower, updateTotalVotingPower. cbn [totalVotingPower Validators]. rewrite Hs.
  cbn [mbind outcome_bind fst set_total Validators Proposer allKeysHaveSameType totalVotingPower Z.eqb]. unfold set_total.
  destruct vals as [l pr t b]. cbn [Validators Proposer allKeysHaveSameType totalVotingPower] in *. rewrite <-Ep. by rewrite Hv.
Qed.

Lemma LightBlock_roundtrip lb m sh h c vals :
  lbSignedHeader lb = Some sh → shHeader sh = Some h → shCommit sh = Some c → lbValidatorSet lb = Some vals →
  header_ValidateBasic h = None →
  block_ValidateBasic (cBlockID c) = true → Forall (λ cs, cs_ValidateBasic cs = None) (Signatures c) → commit_ValidateBasic c = None →
  vals_ValidateBasic bls (Some vals) = None → coherent vals → lb_ToProto lb = Ok m →
  LightBlockFromProto (Some m) = value lb.
Proof.
  intros Esh Eh Ec Ev Hh Hb Hs Hc Hv Hco E. unfold lb_ToProto in E. rewrite Ev, Esh in E.
  cbn [fmap option_fmap option_map] in E. rewrite SignedHeader_same in E.
  destruct (vals_ToProto (Some vals)) as [vm|] eqn:Evm; [|done]. injection E as <-.
  unfold LightBlockFromProto. cbn [lbmSignedHeader lbmValidatorSet].
  unfold SignedHeaderFromProto. rewrite Eh, Ec, Header_roundtrip, Commit_roundtrip by done. cbn [dbind value].
  rewrite (ValidatorSet_roundtrip _ _ Hv Hco Evm). cbn [dbind value]. destruct lb, sh. cbn in *. by subst.
Qed.

End roundtrip.


End wire.
(** ** A concrete key codec *)

Definition toy_key_codec : @KeyCodec toy_keys := @Build_KeyCodec toy_keys (λ k : Z, k :: replicate 31 0) (λ t bz, if bool_decide (t = "ed25519"%string) then head bz else None).

Lemma toy_key_codec_laws : @KeyCodecLaws toy_keys toy_key_codec.
Proof. split; [done..|]. intros t bz k. cbn. by case_bool_decide. Qed.

End Wire.
