(* ===== verification/Evidence.v ===== *)
(** * Evidence: duplicate votes and light client attacks

    [types/evidence.go] and [internal/evidence/verify.go]: the two kinds of evidence, their
    protobuf forms and hashes, who they accuse, and how a full node checks them. *)

From S2P Require Import Prelude Merkle Crypto ValidatorSet Votes Proposal Commit VoteSet Validation PrivVal Header Light Params Wire.
Import ValidatorSet.ValidatorSet Votes.Votes Commit.Commit Validation.Validation Header.Header Light.Light Params.Params Wire.Wire.

Local Open Scope Z_scope.

Module Evidence.

(** [time.Time.Sub] saturates. *)
Definition time_Sub (t u : Z) : Z := Z.max min_int64 (Z.min max_int64 (t - u)).

(** ** The two kinds of evidence *)

Record DuplicateVoteEvidence := mkDuplicateVoteEvidence {
  VoteA : option Vote; VoteB : option Vote; dTotalVotingPower : Z; dValidatorPower : Z; dTimestamp : Z }.

Inductive evidence_error :=
| ErrNoHeaderAtHeight (height : Z)
| ErrNoCommitAtHeight (height : Z)
| ErrVotingPowerDoesNotMatch (trusted evidence : Z)
| ErrAddressNotValidatorAtHeight (address : list Z) (height : Z)
| ErrValidatorAddressesDoNotMatch (a b : list Z)
| ErrSameBlockIDs
| ErrInvalidEvidenceValidators (why : string)
| ErrConflictingBlock (why : string)
| ErrInvalidEvidence (why : string)
| ErrDuplicateEvidenceHRTMismatch
| ErrVoteSignature (why : string)
| ErrEvidenceAlreadyCommitted
| ErrDuplicateEvidence
| ErrStore (why : string).

#[export] Instance evidence_error_eq_dec : EqDecision evidence_error.
Proof. solve_decision. Defined.

Section evidence.
Context `{PubKeyOps, SignCodec, !BatchOps, !HeaderCodec, Merkle.HashOps, !KeyCodec}.
Variable bls : bool.

(** The slice of accused validators may be nil, which is not the empty slice, and so may
    its entries. *)
Record LightClientAttackEvidence := mkLightClientAttackEvidence {
  ConflictingBlock : option LightBlock; CommonHeight : Z; ByzantineValidators : option (list (option Validator));
  lTotalVotingPower : Z; lTimestamp : Z }.

Inductive Evidence :=
| EvDuplicateVote (dve : DuplicateVoteEvidence)
| EvLightClientAttack (l : LightClientAttackEvidence).

(** A field or method reached through a nil pointer. *)
Definition deref {A} (p : option A) : outcome A :=
  match p with Some a => Done a | None => Panic "nil pointer dereference" end.

Definition conflicting_header (l : LightClientAttackEvidence) : outcome Header :=
  lb ← deref (ConflictingBlock l); sh ← deref (lbSignedHeader lb); deref (shHeader sh).
Definition conflicting_commit (l : LightClientAttackEvidence) : outcome Commit :=
  lb ← deref (ConflictingBlock l); sh ← deref (lbSignedHeader lb); deref (shCommit sh).

(** ** Duplicate votes *)

Definition NewDuplicateVoteEvidence (vote1 vote2 : option Vote) (blockTime : Z) (valSet : option ValidatorSet)
    : outcome (result string DuplicateVoteEvidence) :=
  match vote1, vote2, valSet with
  | None, _, _ | _, None, _ => Done (Err "missing vote"%string)
  | _, _, None => Done (Err "missing validator set"%string)
  | Some v1, Some v2, Some vals =>
      match GetByAddress vals (ValidatorAddress v1) with
      | (idx, val) =>
          if idx =? -1 then Done (Err "validator not in validator set"%string)
          else
            let '(voteA, voteB) := if bytes_compare (Key (vBlockID v1)) (Key (vBlockID v2)) =? -1 then (v1, v2) else (v2, v1) in
            tvp ← TotalVotingPower vals;
            val ← deref val;
            Done (Ok (mkDuplicateVoteEvidence (Some voteA) (Some voteB) tvp.2 (VotingPower val) blockTime))
      end
  end.

Definition dve_ValidateBasic (dve : DuplicateVoteEvidence) : option string :=
  match VoteA dve, VoteB dve with
  | Some a, Some b =>
      match vote_ValidateBasic a, vote_ValidateBasic b with
      | Some _, _ => Some "invalid VoteA"%string
      | None, Some _ => Some "invalid VoteB"%string
      | None, None =>
          if 0 <=? bytes_compare (Key (vBlockID a)) (Key (vBlockID b))
          then Some "duplicate votes in invalid order"%string else None
      end
  | _, _ => Some "one or both of the votes are empty"%string
  end.

(** The message has the fields of the struct. *)
Definition DuplicateVoteEvidenceFromProto (pb : option DuplicateVoteEvidence) : decoded DuplicateVoteEvidence :=
  let vote v := match v with
                | None => value None
                | Some v => dbind (VoteFromProto v) (λ v, checked (Some v) (match vote_ValidateBasic v with
                                                                           | Some _ => Some "invalid vote"%string
                                                                           | None => None end))
                end in
  match pb with
  | None => fails "nil duplicate vote evidence"
  | Some pb =>
      dbind (vote (VoteA pb)) (λ vA,
      dbind (vote (VoteB pb)) (λ vB,
      let dve := mkDuplicateVoteEvidence vA vB (dTotalVotingPower pb) (dValidatorPower pb) (dTimestamp pb) in
      checked dve (dve_ValidateBasic dve)))
  end.

Definition VerifyDuplicateVote (e : DuplicateVoteEvidence) (chainID : string) (valSet : ValidatorSet)
    : outcome (option evidence_error) :=
  a ← deref (VoteA e); b ← deref (VoteB e);
  match (GetByAddress valSet (ValidatorAddress a)).2 with
  | None => Done (Some (ErrAddressNotValidatorAtHeight (ValidatorAddress a) (Height a)))
  | Some val =>
      if negb (Height a =? Height b) || negb (Round a =? Round b) || negb (Type_ a =? Type_ b)
      then Done (Some ErrDuplicateEvidenceHRTMismatch)
      else if negb (bytes_equal (ValidatorAddress a) (ValidatorAddress b))
      then Done (Some (ErrValidatorAddressesDoNotMatch (ValidatorAddress a) (ValidatorAddress b)))
      else if Equals (vBlockID a) (vBlockID b) then Done (Some ErrSameBlockIDs)
      else
        pubKey ← deref (ValPubKey val);
        if negb (bytes_equal (pk_Address pubKey) (ValidatorAddress a))
        then Done (Some (ErrInvalidEvidenceValidators "address doesn't match pubkey"))
        else if negb (VotingPower val =? dValidatorPower e)
        then Done (Some (ErrVotingPowerDoesNotMatch (VotingPower val) (dValidatorPower e)))
        else
          tvp ← TotalVotingPower valSet;
          if negb (tvp.2 =? dTotalVotingPower e)
          then Done (Some (ErrVotingPowerDoesNotMatch tvp.2 (dTotalVotingPower e)))
          else
            bzA ← VoteSignBytes chainID a;
            if negb (VerifySignature pubKey bzA (Signature a)) then Done (Some (ErrVoteSignature "verifying VoteA"))
            else
              bzB ← VoteSignBytes chainID b;
              if negb (VerifySignature pubKey bzB (Signature b)) then Done (Some (ErrVoteSignature "verifying VoteB"))
              else Done None
  end.

(** ** Light client attacks *)

Definition lca_ValidateBasic (l : LightClientAttackEvidence) : outcome (option string) :=
  match ConflictingBlock l with
  | None => Done (Some "conflicting block is nil"%string)
  | Some lb =>
      sh ← deref (lbSignedHeader lb);
      match shHeader sh with
      | None => Done (Some "conflicting block missing header"%string)
      | Some h =>
          if lTotalVotingPower l <=? 0 then Done (Some "negative or zero total voting power"%string)
          else if CommonHeight l <=? 0 then Done (Some "negative or zero common height"%string)
          else if hHeight h <? CommonHeight l then Done (Some "common height is ahead of the conflicting block height"%string)
          else lb_ValidateBasic bls lb (hChainID h)
      end
  end.

Definition ConflictingHeaderIsInvalid (conflicting trustedHeader : Header) : bool :=
  negb (bytes_equal (ValidatorsHash trustedHeader) (ValidatorsHash conflicting)) ||
  negb (bytes_equal (NextValidatorsHash trustedHeader) (NextValidatorsHash conflicting)) ||
  negb (bytes_equal (ConsensusHash trustedHeader) (ConsensusHash conflicting)) ||
  negb (bytes_equal (AppHash trustedHeader) (AppHash conflicting)) ||
  negb (bytes_equal (LastResultsHash trustedHeader) (LastResultsHash conflicting)).

(** [sort.Sort] on validator pointers: comparing reads through them. *)
Definition sort_pointers (l : list (option Validator)) : outcome (list (option Validator)) :=
  if (length l <? 2)%nat then Done l
  else match mapM id l with
       | Some vs => Done (Some <$> sort_power vs)
       | None => Panic "nil pointer dereference"
       end.

(** The signers of a lunatic block that the common set knows. *)
Definition lunatic_signers (commonVals : ValidatorSet) (sigs : list CommitSig) : list (option Validator) :=
  omap (λ cs, if cs_Flag cs =? BlockIDFlagCommit
              then Some <$> (GetByAddress commonVals (cs_Address cs)).2 else None) sigs.

(** The loop over both commits; the trusted one is indexed with the position in the other. *)
Fixpoint double_signers (vals : ValidatorSet) (sigsA : list CommitSig) (sigsB : list CommitSig) : outcome (list (option Validator)) :=
  match sigsA with
  | [] => Done []
  | sigA :: sigsA =>
      if negb (cs_Flag sigA =? BlockIDFlagCommit) then double_signers vals sigsA (tail sigsB)
      else match sigsB with
           | [] => Panic "index out of range"
           | sigB :: sigsB =>
               rest ← double_signers vals sigsA sigsB;
               Done (if cs_Flag sigB =? BlockIDFlagCommit
                     then (GetByAddress vals (cs_Address sigA)).2 :: rest else rest)
           end
  end.

(** The empty list is the nil slice: elements are only appended to a nil slice. *)
Definition GetByzantineValidators (l : LightClientAttackEvidence) (commonVals : ValidatorSet) (trusted : SignedHeader)
    : outcome (list (option Validator)) :=
  th ← deref (shHeader trusted);
  ch ← conflicting_header l;
  cc ← conflicting_commit l;
  if ConflictingHeaderIsInvalid ch th then sort_pointers (lunatic_signers commonVals (Signatures cc))
  else
    tc ← deref (shCommit trusted);
    if cRound tc =? cRound cc then
      lb ← deref (ConflictingBlock l);
      match lbValidatorSet lb with
      | None => Panic "nil pointer dereference"
      | Some vals => l ← double_signers vals (Signatures cc) (Signatures tc); sort_pointers l
      end
    else Done [].

(** [Hash]: only the first 31 bytes of the block's hash are copied. *)
Definition lca_Hash (l : LightClientAttackEvidence) : outcome (list Z) :=
  h ← conflicting_header l;
  let buf := varint (CommonHeight l) in
  let head := take 31 (header_Hash (Some h)) in
  Done (Merkle.Sum (head ++ replicate (32 - length head) 0 ++ buf)).

Fixpoint byzantine_match (validators : list (option Validator)) (listed : list (option Validator)) : outcome (option evidence_error) :=
  match validators with
  | [] => Done None
  | val :: validators =>
      match listed with
      | [] => Panic "index out of range"
      | got :: listed =>
          got ← deref got; val ← deref val;
          if negb (bytes_equal (Address got) (Address val))
          then Done (Some (ErrInvalidEvidenceValidators "unexpected byzantine validator address"))
          else if negb (VotingPower got =? VotingPower val)
          then Done (Some (ErrInvalidEvidenceValidators "unexpected byzantine validator power"))
          else byzantine_match validators listed
      end
  end.

Definition validateABCIEvidence (ev : LightClientAttackEvidence) (commonVals : ValidatorSet) (trustedHeader : SignedHeader)
    : outcome (option evidence_error) :=
  tvp ← TotalVotingPower commonVals;
  if negb (lTotalVotingPower ev =? tvp.2) then Done (Some (ErrVotingPowerDoesNotMatch tvp.2 (lTotalVotingPower ev)))
  else
    validators ← GetByzantineValidators ev commonVals trustedHeader;
    if bool_decide (validators = []) && bool_decide (is_Some (ByzantineValidators ev))
    then Done (Some (ErrInvalidEvidenceValidators "expected nil validators from an amnesia light client attack"))
    else
      let listed := default [] (ByzantineValidators ev) in
      if negb (zlen validators =? zlen listed)
      then Done (Some (ErrInvalidEvidenceValidators "unexpected number of byzantine validators"))
      else byzantine_match validators listed.

Definition VerifyLightClientAttack (e : LightClientAttackEvidence) (commonHeader trustedHeader : SignedHeader)
    (commonVals : ValidatorSet) : outcome (option evidence_error) :=
  common ← deref (shHeader commonHeader);
  trusted ← deref (shHeader trustedHeader);
  ch ← conflicting_header e;
  cc ← conflicting_commit e;
  lb ← deref (ConflictingBlock e);
  first ← (if negb (hHeight common =? hHeight ch) then
             r ← VerifyCommitLightTrustingAllSignatures (hChainID trusted) (Some commonVals) (Some cc) DefaultTrustLevel;
             Done (match r with
                   | Some _ => Some (ErrConflictingBlock "skipping verification of conflicting block failed")
                   | None => None end)
           else Done (if ConflictingHeaderIsInvalid ch trusted
                      then Some (ErrConflictingBlock "expected the conflicting block to be correctly derived") else None));
  match first with
  | Some err => Done (Some err)
  | None =>
      r ← VerifyCommitLightAllSignatures (hChainID trusted) (lbValidatorSet lb) (cBlockID cc) (hHeight ch) (Some cc);
      match r with
      | Some _ => Done (Some (ErrConflictingBlock "invalid commit from conflicting block"))
      | None =>
          tvp ← TotalVotingPower commonVals;
          if negb (lTotalVotingPower e =? tvp.2) then Done (Some (ErrVotingPowerDoesNotMatch tvp.2 (lTotalVotingPower e)))
          else if (hHeight trusted <? hHeight ch) && (hTime trusted <? hTime ch)
          then Done (Some (ErrConflictingBlock "conflicting block doesn't violate monotonically increasing time"))
          else if bytes_equal (header_Hash (Some trusted)) (header_Hash (Some ch))
          then Done (Some (ErrConflictingBlock "trusted header hash matches the evidence's conflicting header hash"))
          else validateABCIEvidence e commonVals trustedHeader
      end
  end.

(** ** Evidence of either kind *)

Definition ev_Height (ev : Evidence) : outcome Z :=
  match ev with
  | EvDuplicateVote dve => a ← deref (VoteA dve); Done (Height a)
  | EvLightClientAttack l => Done (CommonHeight l)
  end.
Definition ev_Time (ev : Evidence) : Z :=
  match ev with EvDuplicateVote dve => dTimestamp dve | EvLightClientAttack l => lTimestamp l end.
Definition ev_ValidateBasic (ev : Evidence) : outcome (option string) :=
  match ev with EvDuplicateVote dve => Done (dve_ValidateBasic dve) | EvLightClientAttack l => lca_ValidateBasic l end.

(** Both conditions must hold for evidence to be too old. *)
Definition IsEvidenceExpired (heightNow timeNow heightEv timeEv : Z) (params : EvidenceParams) : bool :=
  let ageDuration := time_Sub timeNow timeEv in
  let ageNumBlocks := wrap64 (heightNow - heightEv) in
  (MaxAgeDuration params <? ageDuration) && (MaxAgeNumBlocks params <? ageNumBlocks).

(** ** Protobuf forms *)

Record LightAttackMsg := mkLightAttackMsg {
  lamConflictingBlock : option LightBlockMsg; lamCommonHeight : Z; lamByzantineValidators : list ValidatorMsg;
  lamTotalVotingPower : Z; lamTimestamp : Z }.

Inductive EvidenceMsg :=
| MsgDuplicateVote (dve : option DuplicateVoteEvidence)
| MsgLightClientAttack (l : option LightAttackMsg)
| MsgNone.

Fixpoint byzantine_ToProto (l : list (option Validator)) : result string (list ValidatorMsg) :=
  match l with
  | [] => Ok []
  | v :: l =>
      match validator_ToProto v, byzantine_ToProto l with
      | Ok m, Ok ms => Ok (m :: ms)
      | Err e, _ => Err e
      | _, Err e => Err e
      end
  end.

Definition lca_ToProto (l : LightClientAttackEvidence) : result string LightAttackMsg :=
  match match ConflictingBlock l with None => Ok None | Some lb => match lb_ToProto lb with Ok m => Ok (Some m) | Err e => Err e end end,
        byzantine_ToProto (default [] (ByzantineValidators l)) with
  | Ok cb, Ok byz => Ok (mkLightAttackMsg cb (CommonHeight l) byz (lTotalVotingPower l) (lTimestamp l))
  | Err e, _ => Err e
  | _, Err e => Err e
  end.

(** The slice of accused validators is made, never nil. *)
Definition LightClientAttackEvidenceFromProto (lpb : option LightAttackMsg) : decoded LightClientAttackEvidence :=
  match lpb with
  | None => fails "light_client_attack_evidence is required"
  | Some lpb =>
      dbind (LightBlockFromProto bls (lamConflictingBlock lpb)) (λ conflictingBlock,
      dbind (decode_all (λ m, ValidatorFromProto bls (Some m)) (lamByzantineValidators lpb)) (λ byzVals,
      let l := mkLightClientAttackEvidence (Some conflictingBlock) (lamCommonHeight lpb) (Some (Some <$> byzVals))
                 (lamTotalVotingPower lpb) (lamTimestamp lpb) in
      e ← lca_ValidateBasic l; checked l e))
  end.

(** The votes are encoded through their pointers, which may be nil. *)
Definition dve_ToProto (dve : DuplicateVoteEvidence) : DuplicateVoteEvidence :=
  mkDuplicateVoteEvidence (Vote_ToProto <$> VoteA dve) (Vote_ToProto <$> VoteB dve) (dTotalVotingPower dve)
    (dValidatorPower dve) (dTimestamp dve).

Definition EvidenceToProto (ev : Evidence) : result string EvidenceMsg :=
  match ev with
  | EvDuplicateVote dve => Ok (MsgDuplicateVote (Some (dve_ToProto dve)))
  | EvLightClientAttack l => match lca_ToProto l with Ok m => Ok (MsgLightClientAttack (Some m)) | Err e => Err e end
  end.

Definition EvidenceFromProto (evidence : EvidenceMsg) : decoded Evidence :=
  match evidence with
  | MsgDuplicateVote m => dbind (DuplicateVoteEvidenceFromProto m) (λ dve, value (EvDuplicateVote dve))
  | MsgLightClientAttack m => dbind (LightClientAttackEvidenceFromProto m) (λ l, value (EvLightClientAttack l))
  | MsgNone => fails "evidence is not recognized"
  end.

(** [newLightClientAttackEvidence] of [light/detector.go]. *)
Definition newLightClientAttackEvidence (conflicted trusted common : LightBlock) : outcome LightClientAttackEvidence :=
  let bare := mkLightClientAttackEvidence (Some conflicted) 0 None 0 0 in
  ch ← conflicting_header bare;
  tsh ← deref (lbSignedHeader trusted);
  th ← deref (shHeader tsh);
  let base := if ConflictingHeaderIsInvalid ch th then common else trusted in
  bsh ← deref (lbSignedHeader base); bh ← deref (shHeader bsh);
  bvals ← deref (lbValidatorSet base); tvp ← TotalVotingPower bvals;
  cvals ← deref (lbValidatorSet common);
  validators ← GetByzantineValidators bare cvals tsh;
  Done (mkLightClientAttackEvidence (Some conflicted) (hHeight bh) (if bool_decide (validators = []) then None else Some validators) tvp.2 (hTime bh)).

(** ** What is told to the application *)

Inductive MisbehaviorType := DUPLICATE_VOTE | LIGHT_CLIENT_ATTACK.
Record Misbehavior := mkMisbehavior {
  mbType : MisbehaviorType; mbAddress : list Z; mbPower : Z; mbHeight : Z; mbTime : Z; mbTotalVotingPower : Z }.

(** [TM2PB.Validator] derives the address from the key. *)
Definition tm2pb_Validator (v : Validator) : outcome (list Z * Z) :=
  pk ← deref (ValPubKey v); Done (pk_Address pk, VotingPower v).

Fixpoint accused (l : LightClientAttackEvidence) (vals : list (option Validator)) : outcome (list Misbehavior) :=
  match vals with
  | [] => Done []
  | v :: vals =>
      v ← deref v; a ← tm2pb_Validator v;
      ms ← accused l vals;
      Done (mkMisbehavior LIGHT_CLIENT_ATTACK a.1 a.2 (CommonHeight l) (lTimestamp l) (lTotalVotingPower l) :: ms)
  end.

Definition ev_ABCI (ev : Evidence) : outcome (list Misbehavior) :=
  match ev with
  | EvDuplicateVote dve =>
      a ← deref (VoteA dve);
      Done [mkMisbehavior DUPLICATE_VOTE (ValidatorAddress a) (dValidatorPower dve) (Height a) (dTimestamp dve) (dTotalVotingPower dve)]
  | EvLightClientAttack l => accused l (default [] (ByzantineValidators l))
  end.

Fixpoint ToABCI (evl : list Evidence) : outcome (list Misbehavior) :=
  match evl with
  | [] => Done []
  | e :: evl => m ← ev_ABCI e; ms ← ToABCI evl; Done (m ++ ms)
  end.

End evidence.
(** ** What accepted duplicate votes prove *)

Section duplicate_votes.
Context `{PubKeyOps, SignCodec}.

(** Both votes are for one height, round and type, name different blocks, and are signed
    with the key of one validator of the set; the powers are those of the set. *)
Definition double_vote (e : DuplicateVoteEvidence) (chainID : string) (vals : ValidatorSet) : Prop :=
  ∃ a b val pk bzA bzB,
    VoteA e = Some a ∧ VoteB e = Some b ∧ val ∈ Validators vals ∧ ValPubKey val = Some pk ∧
    Address val = ValidatorAddress a ∧ Address val = ValidatorAddress b ∧ pk_Address pk = Address val ∧
    Height a = Height b ∧ Round a = Round b ∧ Type_ a = Type_ b ∧ vBlockID a ≠ vBlockID b ∧
    dValidatorPower e = VotingPower val ∧ dTotalVotingPower e = zsum VotingPower (Validators vals) ∧
    VoteSignBytes chainID a = Done bzA ∧ VoteSignBytes chainID b = Done bzB ∧
    VerifySignature pk bzA (Signature a) = true ∧ VerifySignature pk bzB (Signature b) = true.

Lemma GetByAddress_2 vals a :
  zlen (Validators vals) ≤ max_int32 → (GetByAddress vals a).2 = (find_address (Validators vals) a 0).2.
Proof.
  intros Hmax. unfold GetByAddress, GetByAddressMut. destruct (find_address (Validators vals) a 0) as [i [v|]] eqn:E.
  - destruct (find_address_index _ _ _ _ _ E) as (j & -> & Hj & _). apply lookup_lt_Some in Hj. unfold zlen in Hmax.
    unfold wrap32, max_int32 in *. rewrite Z.mod_small by lia. by destruct (Z.eqb_spec (0 + Z.of_nat j + 2147483648 - 2147483648) (-1)); [lia|].
  - by destruct (i =? -1).
Qed.

Lemma Equals_false a b : Equals a b = false ↔ a ≠ b.
Proof. rewrite <-Equals_spec. by destruct (Equals a b). Qed.

Lemma bytes_equal_refl a : bytes_equal a a = true.
Proof. by apply bytes_equal_spec. Qed.

Lemma VerifyDuplicateVote_spec e chainID vals :
  wf_list (Validators vals) → (totalVotingPower vals = 0 ∨ totalVotingPower vals = zsum VotingPower (Validators vals)) → zlen (Validators vals) ≤ max_int32 →
  VerifyDuplicateVote e chainID vals = Done None ↔ double_vote e chainID vals.
Proof.
  intros Hwf Hc Hmax. pose proof (TotalVotingPower_spec vals Hwf Hc) as Et. unfold VerifyDuplicateVote, double_vote. split.
  - intros E. outcome_inv. destruct (VoteA e) as [a|]; [|done]. destruct (VoteB e) as [b|]; [|done].
    unfold deref in *. simplify_eq/=. rewrite GetByAddress_2 in * by done.
    destruct (find_address _ _ _).2 as [val|] eqn:Ev; [|done]. apply find_address_Some in Ev as [Hval Ea].
    destruct (negb (Height x =? Height x0) || _ || _) eqn:Eh; [done|].
    destruct (bytes_equal (ValidatorAddress x) (ValidatorAddress x0)) eqn:Eab; [|done].
    destruct (Equals (vBlockID x) (vBlockID x0)) eqn:Eb; [done|].
    destruct (ValPubKey val) as [pk|] eqn:Ek; [|done]. cbn [negb mbind outcome_bind] in *.
    destruct (bytes_equal (pk_Address pk) (ValidatorAddress x)) eqn:Ep; [|done].
    destruct (Z.eqb_spec (VotingPower val) (dValidatorPower e)); [|done]. rewrite Et in *. cbn [negb mbind outcome_bind snd] in *.
    destruct (Z.eqb_spec (zsum VotingPower (Validators vals)) (dTotalVotingPower e)); [|done]. cbn [negb] in *. outcome_inv.
    destruct (VerifySignature pk x1 (Signature x)) eqn:Es; [|done]. cbn [negb] in *. outcome_inv.
    destruct (VerifySignature pk x2 (Signature x0)) eqn:Es'; [|done].
    apply bytes_equal_spec in Eab, Ep. apply Equals_false in Eb. zbool.
    exists x, x0, val, pk, x1, x2. split_and!; congruence.
  - intros (a & b & val & pk & bzA & bzB & -> & -> & Hval & Ek & Ea & Eb & Ep & Eh & Er & Ety & Hne & E1 & E2 & EbA & EbB & Es & Es').
    cbn [deref mbind outcome_bind]. rewrite GetByAddress_2 by done. rewrite (find_address_elem _ _ 0 val (proj1 Hwf) Hval Ea).
    rewrite Eh, Er, Ety, !Z.eqb_refl. cbn [negb orb]. rewrite <-Ea, <-Eb, bytes_equal_refl. cbn [negb].
    rewrite (proj2 (Equals_false _ _) Hne), Ek. cbn [deref mbind outcome_bind]. rewrite Ep, bytes_equal_refl. cbn [negb].
    rewrite E1, Z.eqb_refl. cbn [negb]. rewrite Et. cbn [mbind outcome_bind snd]. rewrite E2, Z.eqb_refl. cbn [negb].
    rewrite EbA. cbn [mbind outcome_bind]. rewrite Es. cbn [negb]. rewrite EbB. cbn [mbind outcome_bind]. by rewrite Es'.
Qed.

(** C19: a full node accepts evidence of a duplicate vote exactly when it shows two votes
    for one height, round and type and different blocks, both validly signed with the key
    of one validator of the set at that height, with the powers of that set. *)
Theorem VerifyDuplicateVote_iff e chainID vals :
  wf vals → zlen (Validators vals) ≤ max_int32 →
  VerifyDuplicateVote e chainID vals = Done None ↔ double_vote e chainID vals.
Proof. intros (Hwf & _ & Hc & _). by apply VerifyDuplicateVote_spec. Qed.
Lemma accepted_signed vs i v val pk :
  VoteSet.VoteSet.accepted vs i v → VoteSet.VoteSet.vals_of vs !! i = Some val → ValPubKey val = Some pk →
  ∃ bz, VoteSignBytes (VoteSet.VoteSet.chainID vs) v = Done bz ∧ VerifySignature pk bz (Signature v) = true ∧
        pk_Address pk = ValidatorAddress v.
Proof.
  intros (_ & _ & _ & _ & _ & val' & Hval' & Ha & Hc) Hval Ek. simplify_eq. rewrite Ek in Hc.
  assert (Hv : verifyAndReturnProto v (VoteSet.VoteSet.chainID vs) (Some pk) = Done None).
  { unfold VoteSet.VoteSet.check_signature, VerifyVoteAndExtension, Verify in Hc.
    destruct (VoteSet.VoteSet.extensionsEnabled vs); outcome_inv; by destruct x. }
  unfold verifyAndReturnProto in Hv. destruct (bytes_equal (pk_Address pk) (ValidatorAddress v)) eqn:Ep; [|done].
  cbn [negb] in Hv. outcome_inv. destruct (VerifySignature pk x (Signature v)) eqn:Es; [|done].
  apply bytes_equal_spec in Ep. eauto.
Qed.

Lemma accepted_double_vote vs i a b t val pk :
  VoteSet.VoteSet.accepted vs i a → VoteSet.VoteSet.accepted vs i b → VoteSet.VoteSet.vkey a ≠ VoteSet.VoteSet.vkey b →
  VoteSet.VoteSet.vals_of vs !! i = Some val → ValPubKey val = Some pk →
  double_vote (mkDuplicateVoteEvidence (Some a) (Some b) (zsum VotingPower (VoteSet.VoteSet.vals_of vs)) (VotingPower val) t)
    (VoteSet.VoteSet.chainID vs) (VoteSet.VoteSet.valSet vs).
Proof.
  intros Ha Hb Hk Hval Ek. destruct (accepted_signed _ _ _ _ _ Ha Hval Ek) as (bzA & EbA & EsA & Ep).
  destruct (accepted_signed _ _ _ _ _ Hb Hval Ek) as (bzB & EbB & EsB & _).
  destruct Ha as (_ & Hh & Hr & Ht & _ & va & Hva & Eva & _), Hb as (_ & Hh' & Hr' & Ht' & _ & vb & Hvb & Evb & _).
  assert (va = val) as -> by congruence. assert (vb = val) as -> by congruence.
  exists a, b, val, pk, bzA, bzB. split_and!; try done; try congruence.
  - by eapply list_elem_of_lookup_2.
  - intros E. apply Hk. unfold VoteSet.VoteSet.vkey. by rewrite E.
Qed.

Lemma dve_same dve : dve_ToProto dve = dve.
Proof.
  destruct dve as [[a|] [b|] tp p t]; unfold dve_ToProto;
    cbn [VoteA VoteB dTotalVotingPower dValidatorPower dTimestamp fmap option_fmap option_map]; by rewrite ?Vote_same.
Qed.

Lemma dve_roundtrip dve : dve_ValidateBasic dve = None → DuplicateVoteEvidenceFromProto (Some dve) = value dve.
Proof.
  intros Hv. pose proof Hv as Hv'. unfold dve_ValidateBasic in Hv'. unfold DuplicateVoteEvidenceFromProto.
  destruct (VoteA dve) as [a|] eqn:EA; [|done]. destruct (VoteB dve) as [b|] eqn:EB; [|done].
  destruct (vote_ValidateBasic a) eqn:Ea; [done|]. destruct (vote_ValidateBasic b) eqn:Eb; [done|].
  assert (Hid : ∀ v, vote_ValidateBasic v = None → block_ValidateBasic (vBlockID v) = true).
  { intros v E. unfold vote_ValidateBasic in E. by destruct (block_ValidateBasic (vBlockID v)); case_hyp E. }
  rewrite !Vote_roundtrip by auto. cbn [dbind value checked]. rewrite Ea, Eb. cbn [dbind value checked].
  destruct dve as [? ? tp p t]. cbn [VoteA VoteB dTotalVotingPower dValidatorPower dTimestamp] in *. subst. by rewrite Hv.
Qed.

(** Two accepted votes of one validator in the order of their keys. *)
Lemma ordered_evidence vs i x y t val pk :
  VoteSet.VoteSet.inv vs → zlen (VoteSet.VoteSet.vals_of vs) ≤ max_int32 →
  VoteSet.VoteSet.vals_of vs !! i = Some val → ValPubKey val = Some pk →
  VoteSet.VoteSet.vkey x ≠ VoteSet.VoteSet.vkey y → VoteSet.VoteSet.accepted vs i x → VoteSet.VoteSet.accepted vs i y →
  bytes_compare (Key (vBlockID x)) (Key (vBlockID y)) = -1 →
  let d := mkDuplicateVoteEvidence (Some x) (Some y) (zsum VotingPower (VoteSet.VoteSet.vals_of vs)) (VotingPower val) t in
  VerifyDuplicateVote d (VoteSet.VoteSet.chainID vs) (VoteSet.VoteSet.valSet vs) = Done None ∧
  (vote_ValidateBasic x = None → vote_ValidateBasic y = None → DuplicateVoteEvidenceFromProto (Some d) = value d).
Proof.
  intros [[Hwf _ Hc _ _ _ _] _] Hmax Hval Ek Hxy Hx Hy Hcmp d. split.
  - by apply VerifyDuplicateVote_spec, (accepted_double_vote vs i x y _ val pk).
  - intros Bx By. apply dve_roundtrip. unfold dve_ValidateBasic. cbn [VoteA VoteB d]. by rewrite Bx, By, Hcmp.
Qed.

Lemma conflict_evidence vs v vs' added a b blockTime :
  VoteSet.VoteSet.reachable vs → zlen (VoteSet.VoteSet.vals_of vs) ≤ max_int32 → block_ValidateBasic (vBlockID v) = true →
  VoteSet.VoteSet.AddVote (Some vs) (Some v) = Done (vs', (added, Some (ErrVoteConflictingVotes a b))) →
  ∃ dve, NewDuplicateVoteEvidence (Some a) (Some b) blockTime (Some (VoteSet.VoteSet.valSet vs)) = Done (Ok dve) ∧
    VerifyDuplicateVote dve (VoteSet.VoteSet.chainID vs) (VoteSet.VoteSet.valSet vs) = Done None ∧
    (vote_ValidateBasic a = None → vote_ValidateBasic b = None → DuplicateVoteEvidenceFromProto (Some dve) = value dve).
Proof.
  intros Hr%VoteSet.VoteSet.reachable_inv Hmax Hb E.
  destruct (VoteSet.VoteSet.addVote_spec vs v Hr Hb) as (vs1 & ad & err & E' & Ho & _).
  unfold VoteSet.VoteSet.AddVote in E. rewrite E' in E. injection E as -> -> ->. clear E'.
  inversion Ho as [e ? ? ? Hn|? ? ? ? ? ? ?|?|i e ad' Hacc Hvi Hacc' Hk ? ? E1 E2]; [by destruct (Hn a b)|]. subst.
  assert (Hcore := proj1 Hr). destruct Hcore as [Hwf _ Hc _ _ _ _]. fold (VoteSet.VoteSet.vals_of vs) in *.
  pose proof Hacc as (_ & _ & _ & _ & _ & val & Hval & Eav & _). pose proof Hacc' as (_ & _ & _ & _ & _ & val' & Hval' & Eae & _).
  assert (val' = val) as -> by congruence.
  assert (is_Some (ValPubKey val)) as [pk Ek].
  { destruct Hwf as (_ & Hf & _). rewrite Forall_forall in Hf. by apply Hf; eapply list_elem_of_lookup_2. }
  assert (Hin : val ∈ VoteSet.VoteSet.vals_of vs) by by eapply list_elem_of_lookup_2.
  assert (Eg : (GetByAddress (VoteSet.VoteSet.valSet vs) (ValidatorAddress a)).2 = Some val).
  { rewrite GetByAddress_2 by done. by apply find_address_elem; [apply Hwf|..]. }
  unfold NewDuplicateVoteEvidence. destruct (GetByAddress _ _) as [ix o] eqn:EG. cbn [snd] in Eg. subst o.
  assert (ix =? -1 = false) as ->.
  { unfold GetByAddress in EG. destruct (GetByAddressMut _ _) as [j o]. destruct (j =? -1) eqn:Ej; by simplify_eq. }
  rewrite (TotalVotingPower_spec _ Hwf Hc). cbn [mbind outcome_bind snd deref].
  destruct (Z.eqb_spec (bytes_compare (Key (vBlockID a)) (Key (vBlockID b))) (-1)) as [Ec|Ec].
  - eexists. split; [done|]. by apply (ordered_evidence vs i _ _ _ val pk).
  - eexists. split; [done|]. destruct (ordered_evidence vs i b a blockTime val pk) as [Hver Hwire]; try done.
    + rewrite bytes_compare_antisym. pose proof (bytes_compare_eq (Key (vBlockID a)) (Key (vBlockID b))) as He.
      destruct (bytes_compare_cases (Key (vBlockID a)) (Key (vBlockID b))) as [?|[E0|E1]]; [done| |by rewrite E1].
      by apply He in E0.
    + split; [done|]. intros ? ?. by apply Hwire.
Qed.

(** whenever the tally reports two conflicting votes, the evidence made from the pair
    exists, every node with that validator set accepts it, and, the votes being well formed,
    it reaches other nodes unchanged. *)
Theorem conflicts_become_evidence vs v vs' added a b blockTime :
  VoteSet.VoteSet.reachable vs → zlen (VoteSet.VoteSet.vals_of vs) ≤ max_int32 → block_ValidateBasic (vBlockID v) = true →
  VoteSet.VoteSet.AddVote (Some vs) (Some v) = Done (vs', (added, Some (ErrVoteConflictingVotes a b))) →
  ∃ dve, NewDuplicateVoteEvidence (Some a) (Some b) blockTime (Some (VoteSet.VoteSet.valSet vs)) = Done (Ok dve) ∧
    VerifyDuplicateVote dve (VoteSet.VoteSet.chainID vs) (VoteSet.VoteSet.valSet vs) = Done None ∧
    (vote_ValidateBasic a = None → vote_ValidateBasic b = None → DuplicateVoteEvidenceFromProto (Some dve) = value dve).
Proof. apply conflict_evidence. Qed.

End duplicate_votes.

(** ** What accepted light client attacks prove *)

Section attacks.
Context `{PubKeyOps, SignCodec, !BatchOps, !HeaderCodec, Merkle.HashOps, !KeyCodec}.
Implicit Types (e : LightClientAttackEvidence) (vals : ValidatorSet).

Definition set_accused (e : LightClientAttackEvidence) (bs : option (list (option Validator))) : LightClientAttackEvidence :=
  mkLightClientAttackEvidence (ConflictingBlock e) (CommonHeight e) bs (lTotalVotingPower e) (lTimestamp e).

(** The same address and power, with another key. *)
Definition rekey (v : Validator) (k : PubKey) : Validator := mkValidator (Address v) (Some k) (VotingPower v) (ProposerPriority v).
Definition rekeyed (bs : list Validator) (ks : list PubKey) : list (option Validator) := Some <$> zip_with rekey bs ks.

Lemma byzantine_match_rekeyed validators bs ks :
  length ks = length bs → byzantine_match validators (rekeyed bs ks) = byzantine_match validators (Some <$> bs).
Proof.
  revert bs ks. induction validators as [|v validators IH]; intros [|b bs] [|k ks] Hl; try done.
  cbn [rekeyed zip_with fmap list_fmap byzantine_match deref mbind outcome_bind rekey Address VotingPower].
  destruct v as [v|]; [|done]. cbn [deref mbind outcome_bind]. fold (rekeyed bs ks). by rewrite (IH bs ks) by by injection Hl.
Qed.

Lemma validateABCI_rekeyed e vals trusted bs ks :
  length ks = length bs → ByzantineValidators e = Some (Some <$> bs) →
  validateABCIEvidence (set_accused e (Some (rekeyed bs ks))) vals trusted = validateABCIEvidence e vals trusted.
Proof.
  intros Hl Hb. unfold validateABCIEvidence. cbn [set_accused lTotalVotingPower ByzantineValidators].
  change (GetByzantineValidators (set_accused e (Some (rekeyed bs ks))) vals trusted) with (GetByzantineValidators e vals trusted).
  rewrite Hb. cbn [default from_option id]. rewrite !bool_decide_true by done.
  assert (zlen (rekeyed bs ks) = zlen (Some <$> bs : list (option Validator))) as ->.
  { unfold zlen, rekeyed. rewrite !length_fmap, length_zip_with. lia. }
  destruct (TotalVotingPower vals) as [[? ?]|]; [|done]. cbn [mbind outcome_bind snd].
  destruct (negb _); [done|]. destruct (GetByzantineValidators e vals trusted) as [vs|]; [|done]. cbn [mbind outcome_bind].
  by rewrite byzantine_match_rekeyed.
Qed.

Lemma accused_rekeyed l bs ks :
  length ks = length bs → ∃ ms, accused l (rekeyed bs ks) = Done ms ∧ mbAddress <$> ms = pk_Address <$> ks.
Proof.
  revert ks. induction bs as [|b bs IH]; intros [|k ks] Hl; try done; [by exists []|].
  destruct (IH ks) as (ms & E & Ea); [by injection Hl|].
  cbn [rekeyed zip_with fmap list_fmap accused deref mbind outcome_bind tm2pb_Validator rekey ValPubKey]. fold (rekeyed bs ks).
  rewrite E. cbn [mbind outcome_bind fst]. eexists. split; [done|]. by rewrite fmap_cons, Ea.
Qed.

(** nothing binds the keys of the accused: for any keys in place of those of the listed
    validators the evidence is judged the same, has the same hash, and what the application
    is told then names the addresses of those keys. *)
Theorem accused_keys_unbound e common trusted vals bs ks :
  ByzantineValidators e = Some (Some <$> bs) → length ks = length bs →
  let e' := set_accused e (Some (rekeyed bs ks)) in
  VerifyLightClientAttack e' common trusted vals = VerifyLightClientAttack e common trusted vals ∧
  lca_Hash e' = lca_Hash e ∧
  ∃ ms, ev_ABCI (EvLightClientAttack e') = Done ms ∧ mbAddress <$> ms = pk_Address <$> ks.
Proof.
  intros Hb Hl e'. split_and!; [|done|by apply accused_rekeyed].
  unfold VerifyLightClientAttack, e'. by rewrite (validateABCI_rekeyed e vals trusted bs ks Hl Hb).
Qed.

(** Everything an accepted attack passed. *)
Lemma VerifyLightClientAttack_inv e common trusted vals :
  VerifyLightClientAttack e common trusted vals = Done None →
  ∃ hc ht ch cc lb,
    shHeader common = Some hc ∧ shHeader trusted = Some ht ∧ conflicting_header e = Done ch ∧ conflicting_commit e = Done cc ∧
    ConflictingBlock e = Some lb ∧
    (hHeight hc ≠ hHeight ch → VerifyCommitLightTrustingAllSignatures (hChainID ht) (Some vals) (Some cc) DefaultTrustLevel = Done None) ∧
    (hHeight hc = hHeight ch → ConflictingHeaderIsInvalid ch ht = false) ∧
    VerifyCommitLightAllSignatures (hChainID ht) (lbValidatorSet lb) (cBlockID cc) (hHeight ch) (Some cc) = Done None ∧
    (hHeight ht < hHeight ch → hTime ch ≤ hTime ht) ∧
    header_Hash (Some ht) ≠ header_Hash (Some ch) ∧
    validateABCIEvidence e vals trusted = Done None.
Proof.
  unfold VerifyLightClientAttack. intros E.
  destruct (shHeader common) as [hc|]; [|done]. destruct (shHeader trusted) as [ht|]; [|done]. cbn [deref mbind outcome_bind] in E.
  apply outcome_bind_Done in E as (ch & Ech & E). apply outcome_bind_Done in E as (cc & Ecc & E).
  destruct (ConflictingBlock e) as [lb|]; [|done]. cbn [deref mbind outcome_bind] in E.
  apply outcome_bind_Done in E as (first & Ef & E). destruct first as [err|]; [done|].
  apply outcome_bind_Done in E as (r & Er & E). destruct r as [err|]; [done|].
  apply outcome_bind_Done in E as (tvp & Et & E). destruct (negb (lTotalVotingPower e =? tvp.2)); [done|].
  destruct ((hHeight ht <? hHeight ch) && (hTime ht <? hTime ch)) eqn:Etime; [done|].
  destruct (bytes_equal (header_Hash (Some ht)) (header_Hash (Some ch))) eqn:Eh; [done|].
  exists hc, ht, ch, cc, lb. split_and!; try done.
  - intros Hne. destruct (Z.eqb_spec (hHeight hc) (hHeight ch)); [done|]. cbn [negb] in Ef.
    apply outcome_bind_Done in Ef as (r' & Er' & Ef). by destruct r'.
  - intros Heq. rewrite Heq, Z.eqb_refl in Ef. cbn [negb] in Ef. by destruct (ConflictingHeaderIsInvalid ch ht).
  - intros Hlt. destruct (Z.ltb_spec (hHeight ht) (hHeight ch)); [|lia]. cbn [andb] in Etime. zbool. lia.
  - intros Heq. by rewrite Heq, bytes_equal_refl in Eh.
Qed.

(** evidence of an amnesia attack (nobody can be accused) is refused by every node that
    received it from another: the slice of the accused is made when a message is decoded, and
    the check wants it to be nil. *)
Theorem amnesia_refused_from_the_wire bls m (l : LightClientAttackEvidence) common trusted vals :
  LightClientAttackEvidenceFromProto bls m = value l → GetByzantineValidators l vals trusted = Done [] →
  VerifyLightClientAttack l common trusted vals ≠ Done None.
Proof.
  intros Hd Hg Hv. apply VerifyLightClientAttack_inv in Hv as (? & ? & ? & ? & ? & _ & _ & _ & _ & _ & _ & _ & _ & _ & _ & Hv).
  assert (is_Some (ByzantineValidators l)) as Hs.
  { unfold LightClientAttackEvidenceFromProto in Hd. destruct m as [m|]; [|done].
    apply dbind_Ok in Hd as (lb & _ & Hd). apply dbind_Ok in Hd as (bs & _ & Hd).
    apply outcome_bind_Done in Hd as (err & _ & Hd). apply checked_Ok in Hd as [<- _]. by eexists. }
  unfold validateABCIEvidence in Hv. outcome_inv. destruct (negb _); [done|]. rewrite Hg in Hb0. cbn [mbind outcome_bind] in Hb0.
  by rewrite !bool_decide_true in Hb0.
Qed.

(** With every signature counted, every signature of a member of the set was checked. *)
Lemma single_loop_checks chainID vals commit needed ig ct k seen tallied l m cs val :
  drop k (Signatures commit) = l →
  single_loop chainID vals commit needed ig ct true false l (Z.of_nat k) seen tallied = Done None →
  (k ≤ m)%nat → Signatures commit !! m = Some cs → ig cs = false → (GetByAddressMut vals (cs_Address cs)).2 = Some val →
  sig_ok chainID commit m cs val = true.
Proof.
  revert k seen tallied. induction l as [|c l IH]; intros k seen tallied Hd E Hkm Hcs Hig Hval.
  { apply lookup_lt_Some in Hcs. apply (f_equal length) in Hd. rewrite length_drop in Hd. simpl in Hd. lia. }
  assert (Hc : Signatures commit !! k = Some c) by by rewrite <-(Nat.add_0_r k), <-lookup_drop, Hd.
  assert (Hd' : drop (S k) (Signatures commit) = l).
  { change (S k) with (1 + k)%nat. rewrite Nat.add_comm, <-drop_drop, Hd. done. }
  specialize (IH (S k)). replace (Z.of_nat (S k)) with (Z.of_nat k + 1) in IH by lia. cbn [single_loop] in E.
  destruct (decide (m = k)) as [->|Hne].
  - assert (c = cs) as -> by congruence. rewrite Hig in E. destruct (bool_decide _); [done|].
    unfold lookup_validator in E. destruct (GetByAddressMut vals (cs_Address cs)) as [vi o]. cbn [snd] in Hval. subst o.
    destruct (seen !! vi); [done|]. cbn [mbind outcome_bind] in E. unfold sig_ok. destruct (ValPubKey val) as [pk|]; [|done].
    destruct (commit_VoteSignBytes commit chainID (wrap32 (Z.of_nat k))) as [bz|]; [|done]. cbn [mbind outcome_bind] in E.
    by destruct (VerifySignature pk bz (cs_Signature cs)).
  - destruct (ig c); [by eapply IH; [..|lia| | |]|]. destruct (bool_decide _); [done|].
    apply outcome_bind_Done in E as (r & _ & E). destruct r as [|v seen'|err]; [by eapply IH; [..|lia| | |]| |done].
    destruct (ValPubKey v) as [pk|]; [|done]. apply outcome_bind_Done in E as (bz & _ & E).
    destruct (negb _); [done|]. cbn [negb andb] in E. by eapply IH; [..|lia| | |].
Qed.

Section lunatic.
Context `{!BatchLaws}.

Lemma trusting_checks chainID vals commit trust m cs val :
  wf vals → Validators vals ≠ [] → 0 ≤ Numerator trust ≤ max_int64 → 0 < Denominator trust ≤ max_int64 →
  Forall (λ cs, cs_ValidateBasic cs = None) (Signatures commit) →
  VerifyCommitLightTrustingAllSignatures chainID (Some vals) (Some commit) trust = Done None →
  Signatures commit !! m = Some cs → is_commit cs = true → (GetByAddressMut vals (cs_Address cs)).2 = Some val →
  sig_ok chainID commit m cs val = true.
Proof.
  intros Hwf Hne Hnum Hden Hbasic E Hm Hc Hval. destruct (needed_two_thirds vals Hwf) as (Htvp & _ & _).
  unfold VerifyCommitLightTrustingAllSignatures, verifyCommitLightTrustingInternal in E.
  destruct (Denominator trust =? 0) eqn:Ed; [done|]. rewrite Htvp in E. cbn [mbind outcome_bind fst snd] in E.
  destruct (safeMul _ _) as [product overflow] eqn:Em. destruct overflow; [done|]. apply outcome_bind_Done in E as (needed & En & E).
  set (vals' := set_total vals (zsum VotingPower (Validators vals))) in *.
  assert (0 ≤ needed) as Hn0.
  { unfold to_int64 in *. rewrite !wrap64_id in Em, En by (unfold_ints; lia). pose proof (zsum_nonneg VotingPower (Validators vals) (wf_power_nonneg _ (proj1 Hwf))).
    pose proof (total_in_int64 _ (proj1 Hwf)). rewrite safeMul_spec in Em by (unfold_ints; lia). case_bool_decide; [|done]. injection Em as <-.
    unfold div64 in En. rewrite Ed in En. injection En as <-. rewrite Z.quot_div_nonneg by nia.
    assert (0 ≤ (zsum VotingPower (Validators vals) * Numerator trust) `div` Denominator trust) by (apply Z.div_pos; nia).
    assert ((zsum VotingPower (Validators vals) * Numerator trust) `div` Denominator trust ≤ zsum VotingPower (Validators vals) * Numerator trust)
      by (apply Z.div_le_upper_bound; nia).
    rewrite !Z.abs_eq in * by lia. rewrite wrap64_id by (unfold_ints; lia). lia. }
  apply either_sound in E; [|done..|by apply basic_ok_all]. unfold verifyCommitSingle in E.
  eapply (single_loop_checks chainID vals' commit needed _ _ 0) in E; [exact E|done|lia|done| |done].
  unfold not_commit. by rewrite Hc.
Qed.
Lemma zsum_lookup {A} (f : A → Z) l : zsum f l = zsum (λ i, from_option f 0 (l !! i)) (seq 0 (length l)).
Proof.
  induction l as [|x l IH] using rev_ind; [done|]. rewrite length_app, seq_app, !zsum_app. cbn [length seq zsum].
  rewrite Nat.add_0_l, list_lookup_middle by done. cbn [from_option]. f_equal. rewrite IH. apply zsum_ext.
  intros i Hi%elem_of_seq. by rewrite lookup_app_l by lia.
Qed.

Lemma sort_pointers_spec l l' : sort_pointers l = Done l' → l' ≡ₚ l.
Proof.
  unfold sort_pointers. destruct (length l <? 2)%nat; [by intros [= ->]|]. destruct (mapM id l) as [vs|] eqn:E; [|done].
  intros [= <-]. apply mapM_Some in E.
  assert (l = Some <$> vs) as ->.
  { clear -E. induction E as [|x y l k Hxy _ IH]; [done|]. cbn [id] in Hxy. subst x. by rewrite IH. }
  unfold sort_power. by rewrite merge_sort_Permutation.
Qed.

Lemma byzantine_match_spec vs bs :
  zlen vs = zlen bs → byzantine_match vs bs = Done None →
  Forall2 (λ v b, ∃ val got, v = Some val ∧ b = Some got ∧ Address got = Address val ∧ VotingPower got = VotingPower val) vs bs.
Proof.
  revert bs. induction vs as [|v vs IH]; intros [|b bs] Hl E; [constructor|by cbv in Hl|done|].
  cbn [byzantine_match] in E. destruct b as [got|]; [|done]. destruct v as [val|]; [|done]. cbn [deref mbind outcome_bind] in E.
  destruct (bytes_equal (Address got) (Address val)) eqn:Ea; [|done]. destruct (Z.eqb_spec (VotingPower got) (VotingPower val)); [|done].
  apply bytes_equal_spec in Ea. constructor; [by exists val, got|]. apply IH; [|done]. unfold zlen in *. simpl in Hl. lia.
Qed.

(** The member of the set that a signature for the block names, with its power. *)
Definition named (vals : ValidatorSet) (cs : CommitSig) : option Validator :=
  if cs_Flag cs =? BlockIDFlagCommit then (GetByAddress vals (cs_Address cs)).2 else None.

Lemma lunatic_named vals sigs : lunatic_signers vals sigs = Some <$> omap (named vals) sigs.
Proof.
  unfold lunatic_signers, named. induction sigs as [|cs sigs IH]; [done|]. cbn [omap list_omap].
  destruct (cs_Flag cs =? BlockIDFlagCommit); [|done]. destruct (GetByAddress vals (cs_Address cs)).2; [|done].
  cbn [fmap option_fmap option_map]. by rewrite fmap_cons, <-IH.
Qed.

Lemma zsum_omap {A B} (F : A → option B) (f : B → Z) l : zsum f (omap F l) = zsum (λ x, from_option f 0 (F x)) l.
Proof. induction l as [|x l IH]; [done|]. cbn [omap list_omap zsum]. destruct (F x); cbn [zsum from_option]; by rewrite ?IH. Qed.

(** The signers found by address are among those the signatures name. *)
Lemma signed_by_named chainID vals commit S :
  wf vals → zlen (Validators vals) ≤ max_int32 → signed_by chainID vals commit false S →
  zsum (power_at vals) S.*1 ≤ zsum VotingPower (omap (named vals) (Signatures commit)).
Proof.
  intros (Hwf & _) Hmax [Hn Hf]. rewrite zsum_omap, (zsum_lookup _ (Signatures commit)).
  set (g := λ i, from_option (λ cs, from_option VotingPower 0 (named vals cs)) 0 (Signatures commit !! i)).
  assert (Hg : ∀ p, p ∈ S → g p.2 = power_at vals p.1 ∧ (p.2 < length (Signatures commit))%nat ∧
     ∃ cs val, Signatures commit !! p.2 = Some cs ∧ Validators vals !! p.1 = Some val ∧ Address val = cs_Address cs).
  { intros p Hp. rewrite Forall_forall in Hf. destruct (Hf p Hp) as (val & cs & Hv & Hcs & Hc & _ & Ha).
    split_and!; [|by eapply lookup_lt_Some|by exists cs, val]. unfold g, power_at. rewrite Hv, Hcs. cbn [from_option fmap option_fmap option_map default id].
    unfold named. unfold is_commit in Hc. rewrite Hc, GetByAddress_2 by done.
    by rewrite (find_address_elem _ _ 0 val (proj1 Hwf)); [|by eapply list_elem_of_lookup_2|]. }
  rewrite zsum_fmap. rewrite (zsum_ext _ (g ∘ snd)) by (intros p Hp; cbn; by destruct (Hg p Hp)). rewrite <-zsum_fmap.
  apply zsum_subset.
  - apply NoDup_fmap_2_strong; [|by apply NoDup_fmap_1 in Hn]. intros p q Hp Hq E.
    destruct (Hg p Hp) as (_ & _ & cs & v & Ec & Ev & Ea), (Hg q Hq) as (_ & _ & cs' & v' & Ec' & Ev' & Ea').
    rewrite E, Ec' in Ec. injection Ec as ->. destruct p as [j m], q as [j' m']. cbn [fst snd] in *. subst m'. f_equal.
    apply (NoDup_lookup _ _ _ (Address v) (proj1 Hwf)); rewrite list_lookup_fmap; [by rewrite Ev|rewrite Ev'; cbn; congruence].
  - intros i (p & -> & Hp)%list_elem_of_fmap. apply elem_of_seq. destruct (Hg p Hp) as (_ & ? & _). lia.
  - intros i. unfold g. destruct (Signatures commit !! i) as [cs|]; [|done]. cbn [from_option]. destruct (named vals cs) as [v|] eqn:En; [|done].
    unfold named in En. destruct (cs_Flag cs =? BlockIDFlagCommit); [|done]. rewrite GetByAddress_2 in En by done.
    apply find_address_Some in En as [Hv _]. cbn. by apply (wf_power_nonneg (Validators vals)).
Qed.

(** The listed validators are the ones found, with their powers. *)
Lemma accused_list (vs bs : list (option Validator)) (ns : list Validator) :
  vs ≡ₚ Some <$> ns →
  Forall2 (λ v b, ∃ val got, v = Some val ∧ b = Some got ∧ Address got = Address val ∧ VotingPower got = VotingPower val) vs bs →
  ∃ gs, bs = Some <$> gs ∧ Forall (λ b, ∃ val, val ∈ ns ∧ Address b = Address val ∧ VotingPower b = VotingPower val) gs ∧
    zsum VotingPower gs = zsum VotingPower ns.
Proof.
  intros Hp Hf. destruct (Permutation.Permutation_map_inv Some _ Hp) as (ns' & -> & Hp').
  assert (zsum VotingPower ns = zsum VotingPower ns') as -> by by rewrite Hp'.
  assert (Hsub : ∀ v, v ∈ ns' → v ∈ ns) by (intros v; by rewrite Hp'). clear Hp Hp'.
  revert bs Hf. induction ns' as [|n ns' IH]; intros bs Hf; [apply Forall2_nil_inv_l in Hf as ->; by exists []|].
  apply Forall2_cons_inv_l in Hf as (b & bs' & (val & got & [= <-] & -> & Ea & Ep) & Hf & ->).
  destruct (IH ltac:(intros; apply Hsub; set_solver) _ Hf) as (gs & -> & Hgs & Hsum).
  exists (got :: gs). split_and!; [done| |cbn [zsum]; congruence]. constructor; [|done]. exists n. split_and!; [apply Hsub; set_solver|done..].
Qed.

(** when a full node accepts evidence of a lunatic attack (a header that was not
    derived from the chain), every accused validator was in the common validator set with the
    listed power and signed the forged block with its own key, and together the accused hold
    more than a third of that set's power. *)
Theorem lunatic_accused_signed e common trusted vals hc ht ch cc :
  wf vals → Validators vals ≠ [] → zlen (Validators vals) ≤ max_int32 →
  shHeader common = Some hc → shHeader trusted = Some ht →
  conflicting_header e = Done ch → conflicting_commit e = Done cc → Forall (λ cs, cs_ValidateBasic cs = None) (Signatures cc) →
  hHeight hc ≠ hHeight ch → ConflictingHeaderIsInvalid ch ht = true →
  VerifyLightClientAttack e common trusted vals = Done None →
  ∃ bs, default [] (ByzantineValidators e) = Some <$> bs ∧
    Forall (λ b, ∃ m cs val, val ∈ Validators vals ∧ Address b = Address val ∧ VotingPower b = VotingPower val ∧
              Signatures cc !! m = Some cs ∧ is_commit cs = true ∧ sig_ok (hChainID ht) cc m cs val = true) bs ∧
    zsum VotingPower (Validators vals) < 3 * zsum VotingPower bs.
Proof.
  intros Hwf Hne Hmax Ehc Eht Ech Ecc Hbasic Hh Hlun Hv.
  apply VerifyLightClientAttack_inv in Hv as (hc' & ht' & ch' & cc' & lb & E1 & E2 & E3 & E4 & _ & Htrust & _ & _ & _ & _ & Habci).
  assert (hc' = hc) as -> by congruence. assert (ht' = ht) as -> by congruence. assert (ch' = ch) as -> by congruence.
  assert (cc' = cc) as -> by congruence. specialize (Htrust Hh). clear E1 E2 E3 E4.
  unfold validateABCIEvidence in Habci. apply outcome_bind_Done in Habci as (tvp & _ & Habci). destruct (negb _); [done|].
  apply outcome_bind_Done in Habci as (vs & Evs & Habci). destruct (_ && _); [done|].
  destruct (negb (zlen vs =? zlen (default [] (ByzantineValidators e)))) eqn:Elen; [done|]. zbool.
  apply byzantine_match_spec in Habci; [|done]. unfold GetByzantineValidators in Evs.
  rewrite Eht, Ech, Ecc in Evs. cbn [deref mbind outcome_bind] in Evs. rewrite Hlun, lunatic_named in Evs.
  apply sort_pointers_spec in Evs. set (ns := omap (named vals) (Signatures cc)) in *.
  destruct (accused_list _ _ _ Evs Habci) as (bs & Ebs & Hbs & Hpow). exists bs. split_and!; [done| |].
  - eapply Forall_impl; [exact Hbs|]. intros b (val & Hval & Ha & Hp). apply list_elem_of_omap in Hval as (cs & Hcs & Hnm).
    unfold named in Hnm. destruct (cs_Flag cs =? BlockIDFlagCommit) eqn:Ec; [|done]. rewrite GetByAddress_2 in Hnm by done.
    pose proof Hnm as [Hin _]%find_address_Some. apply list_elem_of_lookup in Hcs as [m Hm].
    exists m, cs, val. split_and!; try done.
    by apply (trusting_checks _ vals cc DefaultTrustLevel m cs val Hwf Hne).
  - rewrite Hpow. destruct (commit_trusting_sound (hChainID ht) vals cc DefaultTrustLevel true) as (S & HS & Hlt); try done.
    pose proof (signed_by_named _ _ _ _ Hwf Hmax HS). cbn [Numerator Denominator DefaultTrustLevel] in Hlt. subst ns. lia.
Qed.


End lunatic.

End attacks.

(** ** Correct validators *)

Section correct.
Import Proposal.Proposal.
Context `{MsgCodecLaws, PubKeyOps}.
Variable Sign : list Z → option (list Z).

(** C21: a validator whose key signs votes only through the file-backed signer is never
    named by accepted evidence of a duplicate vote, whatever it was asked to sign and however
    often it crashed. *)
Theorem correct_signer_not_accused pv h e chainID vals a val pk :
  PrivVal.PrivVal.history Sign pv h → wf vals → zlen (Validators vals) ≤ max_int32 →
  val ∈ Validators vals → ValPubKey val = Some pk →
  (∀ v bz, VoteSignBytes chainID v = Done bz → VerifySignature pk bz (Signature v) = true →
     ∃ w, PrivVal.PrivVal.RVote chainID w ∈ h ∧ VoteSignBytes chainID w = Done bz) →
  VoteA e = Some a → ValidatorAddress a = Address val →
  VerifyDuplicateVote e chainID vals ≠ Done None.
Proof.
  intros Hh Hwf Hmax Hval Ek Hunf Ea Eaddr Hv. destruct Hwf as (Hwf & _ & Hc & _).
  apply VerifyDuplicateVote_spec in Hv as (a' & b & val' & pk' & bzA & bzB & Ea' & Eb & Hval' & Ek' & Ead & Ead' & _ & Eh & Er & Et & Hne & _ & _ & EA & EB & SA & SB); try done.
  assert (a' = a) as -> by congruence.
  assert (val' = val) as ->.
  { assert (E1 := find_address_elem (Validators vals) _ 0 val (proj1 Hwf) Hval eq_refl).
    assert (E2 := find_address_elem (Validators vals) _ 0 val' (proj1 Hwf) Hval' eq_refl). congruence. }
  assert (pk' = pk) as -> by congruence.
  destruct (Hunf a bzA EA SA) as (w & Hw & Ew), (Hunf b bzB EB SB) as (w' & Hw' & Ew').
  destruct (PrivVal.PrivVal.VoteSignBytes_inj _ _ _ _ _ EA Ew) as (_ & ? & ? & ? & ? & _).
  destruct (PrivVal.PrivVal.VoteSignBytes_inj _ _ _ _ _ EB Ew') as (_ & ? & ? & ? & ? & _).
  assert (E : PrivVal.PrivVal.bytes_of (PrivVal.PrivVal.RVote chainID w) = PrivVal.PrivVal.bytes_of (PrivVal.PrivVal.RVote chainID w')).
  { apply (PrivVal.PrivVal.released_agree Sign pv h); [done..|]. cbn. congruence. }
  cbn [PrivVal.PrivVal.bytes_of] in E. rewrite Ew, Ew' in E. injection E as <-.
  destruct (PrivVal.PrivVal.VoteSignBytes_inj _ _ _ _ _ EA EB) as (_ & _ & _ & _ & ? & _). done.
Qed.

End correct.

(** ** Examples *)

Section examples.
#[local] Existing Instances toy_keys toy_codec toy_batch toy_batch_laws Merkle.toy_hash Merkle.toy_hash_laws toy_header_codec toy_header_codec_laws toy_key_codec.

Definition ex_dve : DuplicateVoteEvidence :=
  mkDuplicateVoteEvidence (Some (VoteSet.VoteSet.ex_vote 4 VoteSet.VoteSet.ex_A)) (Some (VoteSet.VoteSet.ex_vote 4 VoteSet.VoteSet.ex_B))
    (zsum VotingPower (Validators ex_vals)) 1 7.

Lemma VerifyDuplicateVote_iff_witness : double_vote ex_dve "chain" ex_vals.
Proof. apply (VerifyDuplicateVote_iff ex_dve "chain" ex_vals); [by_decide..|by vm_compute]. Defined.

Lemma conflicts_become_evidence_witness :
  ∃ dve, NewDuplicateVoteEvidence (Some (VoteSet.VoteSet.ex_vote 4 VoteSet.VoteSet.ex_B)) (Some (VoteSet.VoteSet.ex_vote 4 VoteSet.VoteSet.ex_A)) 7
           (Some (VoteSet.VoteSet.valSet (VoteSet.VoteSet.ex_after VoteSet.VoteSet.ex_votes_A))) = Done (Ok dve) ∧
    VerifyDuplicateVote dve "chain" (VoteSet.VoteSet.valSet (VoteSet.VoteSet.ex_after VoteSet.VoteSet.ex_votes_A)) = Done None ∧
    DuplicateVoteEvidenceFromProto (Some dve) = value dve.
Proof.
  destruct (VoteSet.VoteSet.AddVote (Some (VoteSet.VoteSet.ex_after VoteSet.VoteSet.ex_votes_A)) (Some (VoteSet.VoteSet.ex_vote 4 VoteSet.VoteSet.ex_A)))
    as [[vs' [added err]]|] eqn:E; [|by vm_compute in E].
  assert (err = Some (ErrVoteConflictingVotes (VoteSet.VoteSet.ex_vote 4 VoteSet.VoteSet.ex_B) (VoteSet.VoteSet.ex_vote 4 VoteSet.VoteSet.ex_A))) as ->
    by (vm_compute in E; injection E; by intros).
  destruct (conflicts_become_evidence _ (VoteSet.VoteSet.ex_vote 4 VoteSet.VoteSet.ex_A) vs' added _ _ 7 VoteSet.VoteSet.ex_A_reachable ltac:(by_decide) ltac:(by_decide) E) as (dve & E1 & E2 & E3).
  exists dve. split_and!; [done|done|]. apply E3; by vm_compute.
Defined.

(** The commit of three validators for a header in a round. *)
Definition ex_attack_sig (b : BlockID) (h r k : Z) : CommitSig :=
  let v := {| Type_ := PrecommitType; Height := h; Round := r; vBlockID := b; Timestamp := day h;
              ValidatorAddress := toy_address k; ValidatorIndex := k - 1; Signature := [];
              Extension := []; ExtensionSignature := [] |} in
  match VoteSignBytes "chain" v with
  | Done bz => {| cs_Flag := BlockIDFlagCommit; cs_Address := toy_address k; cs_Timestamp := day h; cs_Signature := k :: bz |}
  | Panic _ => NewCommitSigAbsent
  end.
Definition ex_attack_commit (h : Header) (r : Z) : Commit :=
  let b := {| Votes.Hash := header_Hash (Some h); PSH := PSH (ex_block 1) |} in
  {| cHeight := hHeight h; cRound := r; cBlockID := b; Signatures := (ex_attack_sig b (hHeight h) r <$> [1; 2; 3]) ++ [NewCommitSigAbsent] |}.

(** A forged header of height 8, and one that only differs in its data. *)
Definition ex_forged (app data : list Z) : Header :=
  mkHeader BlockProtocol 1 "chain" 8 (day 8) (LastBlockID ex_h8) [] data ex_set_hash ex_set_hash [] app [] [] (toy_address 1).
Definition ex_attack (h : Header) (r common : Z) (byz : option (list (option Validator))) : LightClientAttackEvidence :=
  mkLightClientAttackEvidence
    (Some (mkLightBlock (Some (mkSignedHeader (Some h) (Some (ex_attack_commit h r))))
             (Some (mkValidatorSet (Validators ex_vals) (head (Validators ex_vals)) (zsum VotingPower (Validators ex_vals)) true))))
    common byz (zsum VotingPower (Validators ex_vals)) (day common).

Definition ex_lunatic : LightClientAttackEvidence := ex_attack (ex_forged [66] []) 0 5 (Some (Some <$> take 3 (Validators ex_vals))).
Definition ex_amnesia (byz : option (list (option Validator))) : LightClientAttackEvidence := ex_attack (ex_forged [] (replicate 32 6)) 1 8 byz.

Lemma accused_keys_unbound_witness :
  VerifyLightClientAttack (set_accused ex_lunatic (Some (rekeyed (take 3 (Validators ex_vals)) [4; 4; 4]))) (ex_signed ex_h5) (ex_signed ex_h8) ex_vals = Done None ∧
  ∃ ms, ev_ABCI (EvLightClientAttack (set_accused ex_lunatic (Some (rekeyed (take 3 (Validators ex_vals)) [4; 4; 4])))) = Done ms ∧
    mbAddress <$> ms = replicate 3 (toy_address 4).
Proof.
  destruct (accused_keys_unbound ex_lunatic (ex_signed ex_h5) (ex_signed ex_h8) ex_vals (take 3 (Validators ex_vals)) [4; 4; 4] eq_refl eq_refl) as (-> & _ & Ha).
  split; [by vm_compute|exact Ha].
Defined.

Lemma lunatic_accused_signed_witness :
  ∃ bs, default [] (ByzantineValidators ex_lunatic) = Some <$> bs ∧ zsum VotingPower (Validators ex_vals) < 3 * zsum VotingPower bs.
Proof.
  destruct (lunatic_accused_signed ex_lunatic (ex_signed ex_h5) (ex_signed ex_h8) ex_vals ex_h5 ex_h8 (ex_forged [66] []) (ex_attack_commit (ex_forged [66] []) 0))
    as (bs & E & _ & Hp); [by_decide..|reflexivity|reflexivity|reflexivity|reflexivity|by_decide|by_decide|by vm_compute|by vm_compute|]. by exists bs.
Defined.

Lemma amnesia_refused_from_the_wire_witness :
  VerifyLightClientAttack (ex_amnesia None) (ex_signed ex_h8) (ex_signed ex_h8) ex_vals = Done None ∧
  (∃ m, lca_ToProto (ex_amnesia None) = Ok m ∧ LightClientAttackEvidenceFromProto false (Some m) = value (ex_amnesia (Some []))) ∧
  VerifyLightClientAttack (ex_amnesia (Some [])) (ex_signed ex_h8) (ex_signed ex_h8) ex_vals ≠ Done None.
Proof.
  split; [by vm_compute|]. destruct (lca_ToProto (ex_amnesia None)) as [m|] eqn:Em; [|by vm_compute in Em].
  assert (Ed : LightClientAttackEvidenceFromProto false (Some m) = value (ex_amnesia (Some []))) by (vm_compute in Em; injection Em as <-; by vm_compute).
  split; [by exists m|]. apply (amnesia_refused_from_the_wire false (Some m) _ _ _ _ Ed). by vm_compute.
Defined.

End examples.

Section correct_example.
Import Proposal.Proposal PrivVal.PrivVal.
#[local] Existing Instances toy_msg_codec toy_msg_codec_laws.

(** Keys whose number 1 is in the hands of the signer alone: it signed one vote. *)
Definition guarded_keys : PubKeyOps := {|
  PubKey := Z; PubKey_eq_dec := _; pk_Address := toy_address; pk_Type _ := "ed25519"%string;
  VerifySignature k msg sig :=
    bool_decide (sig = k :: msg) &&
    (negb (k =? 1) || match VoteSignBytes ex_chain PrivVal.PrivVal.ex_signed with Done bz => bool_decide (msg = bz) | Panic _ => false end);
  pk_Type_named _ := ltac:(done)
|}.
#[local] Existing Instance guarded_keys.

Definition ex_guarded : ValidatorSet :=
  {| Validators := [NewValidator (1 : PubKey) 5]; Proposer := None; totalVotingPower := 0; allKeysHaveSameType := true |}.

(** A vote for another block with a made-up signature. *)
Definition ex_framed : DuplicateVoteEvidence :=
  mkDuplicateVoteEvidence (Some PrivVal.PrivVal.ex_signed)
    (Some (match VoteSignBytes ex_chain (ex_precommit 2 10) with
           | Done bz => set_vote_sig (ex_precommit 2 10) 10 (1 :: bz) | Panic _ => ex_precommit 2 10 end)) 5 5 7.

Lemma correct_signer_not_accused_witness : VerifyDuplicateVote ex_framed ex_chain ex_guarded ≠ Done None.
Proof.
  refine (correct_signer_not_accused ex_Sign (loadFilePV ex_pv) [RVote ex_chain PrivVal.PrivVal.ex_signed] ex_framed ex_chain ex_guarded
    PrivVal.PrivVal.ex_signed (NewValidator (1 : PubKey) 5) 1 _ _ _ _ eq_refl _ eq_refl _).
  - apply h_crash. apply (h_vote ex_Sign NewFilePV [] 0 ex_chain (ex_precommit 1 10) true); [constructor|exact ex_first_signed].
  - by_decide.
  - by_decide.
  - by left.
  - intros v bz _ Hs. exists PrivVal.PrivVal.ex_signed. split; [by left|]. cbn [VerifySignature guarded_keys] in Hs.
    apply andb_true_iff in Hs as [_ Hs]. destruct (VoteSignBytes ex_chain PrivVal.PrivVal.ex_signed) as [bz'|]; [|done].
    by apply bool_decide_eq_true in Hs as ->.
  - by vm_compute.
Defined.

End correct_example.


End Evidence.
