(* ===== verification/Block.v ===== *)
(** * Block: blocks, their hashes, sizes and protobuf form

    [Block], [Data] and [EvidenceData] of [types/block.go], the transactions of [types/tx.go],
    and the sizes of the generated messages, which the limits on a proposal rely on. *)

From S2P Require Import Prelude Merkle Crypto ValidatorSet Votes Commit Validation Header Light Params Wire Evidence.
Import ValidatorSet.ValidatorSet Votes.Votes Commit.Commit Validation.Validation Header.Header Light.Light Params.Params Wire.Wire Evidence.Evidence.

Local Open Scope Z_scope.

Module Block.

(** ** Limits *)

Definition MaxHeaderBytes : Z := 626.
Definition MaxOverheadForBlock : Z := 11.
Definition MaxCommitOverheadBytes : Z := 94.
Definition MaxCommitSigBytes : Z := 131 + (4 + 1 + 1 + 1 + 3).

Definition MaxCommitBytes (valCount : Z) : Z := MaxCommitOverheadBytes + (MaxCommitSigBytes + 3) * valCount.

Definition MaxDataBytes (maxBytes evidenceBytes valsCount : Z) : outcome Z :=
  let maxDataBytes := maxBytes - MaxOverheadForBlock - MaxHeaderBytes - MaxCommitBytes valsCount - evidenceBytes in
  if maxDataBytes <? 0 then Panic "Negative MaxDataBytes" else Done maxDataBytes.

Definition MaxDataBytesNoEvidence (maxBytes valsCount : Z) : outcome Z :=
  let maxDataBytes := maxBytes - MaxOverheadForBlock - MaxHeaderBytes - MaxCommitBytes valsCount in
  if maxDataBytes <? 0 then Panic "Negative MaxDataBytesNoEvidence" else Done maxDataBytes.

(** ** Sizes of messages *)

(** [sovTypes]: the bytes of a varint. *)
Definition sov (x : Z) : Z := (Merkle.bits_Len (Z.lor x 1) + 6) / 7.
Definition varint_field (x : Z) : Z := if x =? 0 then 0 else 1 + sov (wrapu64 x).
Definition bytes_field (l : Z) : Z := if 0 <? l then 1 + l + sov l else 0.
Definition message_field (l : Z) : Z := 1 + l + sov l.

Definition psh_ProtoSize (p : PartSetHeader) : Z := varint_field (psh_Total p) + bytes_field (zlen (psh_Hash p)).
Definition blockID_ProtoSize (b : BlockID) : Z := bytes_field (zlen (Votes.Hash b)) + message_field (psh_ProtoSize (PSH b)).
Definition version_ProtoSize (block app : Z) : Z := varint_field block + varint_field app.
Definition data_ProtoSize (txs : list (list Z)) : Z := zsum (λ tx, message_field (zlen tx)) txs.

(** [ComputeProtoSizeForTxs] and [Txs.Validate], which adds the sizes up one by one. *)
Fixpoint txs_Validate (txs : list (list Z)) (size maxSizeBytes : Z) : option string :=
  match txs with
  | [] => None
  | tx :: txs =>
      let size := wrap64 (size + data_ProtoSize [tx]) in
      if maxSizeBytes <? size then Some "transaction data size exceeds maximum"%string else txs_Validate txs size maxSizeBytes
  end.

(** The rest of the generated code: what is marshalled for hashing, and the sizes of a time
    and of a piece of evidence. *)
Class BlockCodec `{PubKeyOps} := {
  commitSig_Marshal : CommitSig → option (list Z);
  dve_Marshal : DuplicateVoteEvidence → option (list Z);
  lca_Marshal : LightAttackMsg → option (list Z);
  SizeOfStdTime : Z → Z;
  evidence_Size : EvidenceMsg → Z
}.

(** A time is two varint fields of at most ten and five bytes. *)
Class BlockCodecLaws `{BlockCodec} : Prop := {
  time_size t : 0 ≤ SizeOfStdTime t ≤ 17;
  evidence_size m : 0 ≤ evidence_Size m
}.

Section block.
Context `{PubKeyOps, SignCodec, !BatchOps, !HeaderCodec, Merkle.HashOps, !KeyCodec, !BlockCodec}.
Variable bls : bool.

Definition header_ProtoSize (h : Header) : Z :=
  message_field (version_ProtoSize (VersionBlock h) (VersionApp h)) +
  bytes_field (Z.of_nat (String.length (hChainID h))) + varint_field (hHeight h) +
  message_field (SizeOfStdTime (hTime h)) + message_field (blockID_ProtoSize (LastBlockID h)) +
  bytes_field (zlen (LastCommitHash h)) + bytes_field (zlen (DataHash h)) + bytes_field (zlen (ValidatorsHash h)) +
  bytes_field (zlen (NextValidatorsHash h)) + bytes_field (zlen (ConsensusHash h)) + bytes_field (zlen (AppHash h)) +
  bytes_field (zlen (LastResultsHash h)) + bytes_field (zlen (EvidenceHash h)) + bytes_field (zlen (ProposerAddress h)).

Definition commitSig_ProtoSize (cs : CommitSig) : Z :=
  varint_field (cs_Flag cs) + bytes_field (zlen (cs_Address cs)) +
  message_field (SizeOfStdTime (cs_Timestamp cs)) + bytes_field (zlen (cs_Signature cs)).

Definition commit_ProtoSize (c : Commit) : Z :=
  varint_field (cHeight c) + varint_field (cRound c) + message_field (blockID_ProtoSize (cBlockID c)) +
  zsum (λ cs, message_field (commitSig_ProtoSize cs)) (Signatures c).

Definition evidenceList_ProtoSize (l : list EvidenceMsg) : Z := zsum (λ m, message_field (evidence_Size m)) l.

(** ** Blocks *)

Record Block := mkBlock {
  bHeader : Header; bTxs : list (list Z); bEvidence : list Evidence; bLastCommit : option Commit }.

(** The message of a block. *)
Record BlockMsg := mkBlockMsg {
  bmHeader : Header; bmTxs : list (list Z); bmEvidence : list EvidenceMsg; bmLastCommit : option Commit }.

Definition blockMsg_Size (b : BlockMsg) : Z :=
  message_field (header_ProtoSize (bmHeader b)) + message_field (data_ProtoSize (bmTxs b)) +
  message_field (evidenceList_ProtoSize (bmEvidence b)) +
  match bmLastCommit b with Some c => message_field (commit_ProtoSize c) | None => 0 end.

(** ** Hashes

    The code keeps the hashes of a commit, of the data and of the evidence once they are
    computed; here they are computed again. *)

Fixpoint commit_leaves (l : list CommitSig) : outcome (list (list Z)) :=
  match l with
  | [] => Done []
  | cs :: l => bz ← deref (commitSig_Marshal cs); rest ← commit_leaves l; Done (bz :: rest)
  end.
Definition commit_Hash (c : option Commit) : outcome (list Z) :=
  match c with
  | None => Done []
  | Some c => bs ← commit_leaves (Signatures c); Done (Merkle.HashFromByteSlices bs)
  end.

(** The leaves are the hashes of the transactions. *)
Definition txs_hashList (txs : list (list Z)) : list (list Z) := Merkle.Sum <$> txs.
Definition data_Hash (txs : list (list Z)) : list Z := Merkle.HashFromByteSlices (txs_hashList txs).

Definition ev_Bytes (ev : Evidence) : outcome (list Z) :=
  match ev with
  | EvDuplicateVote dve => deref (dve_Marshal dve)
  | EvLightClientAttack l =>
      match lca_ToProto l with
      | Err _ => Panic "cannot encode evidence"
      | Ok m => deref (lca_Marshal m)
      end
  end.

Definition ev_Hash (ev : Evidence) : outcome (list Z) :=
  match ev with
  | EvDuplicateVote dve => bz ← ev_Bytes ev; Done (Merkle.Sum bz)
  | EvLightClientAttack l => lca_Hash l
  end.

Fixpoint evidence_bytes (evl : list Evidence) : outcome (list (list Z)) :=
  match evl with
  | [] => Done []
  | e :: evl => bz ← ev_Bytes e; rest ← evidence_bytes evl; Done (bz :: rest)
  end.
Definition evidenceList_Hash (evl : list Evidence) : outcome (list Z) :=
  bzs ← evidence_bytes evl; Done (Merkle.HashFromByteSlices bzs).

(** [Has] compares hashes. *)
Fixpoint evidenceList_Has (evl : list Evidence) (evidence : Evidence) : outcome bool :=
  match evl with
  | [] => Done false
  | ev :: evl =>
      h ← ev_Hash evidence; h' ← ev_Hash ev;
      if bytes_equal h h' then Done true else evidenceList_Has evl evidence
  end.

(** [fillHeader] fills the three hashes that are still nil. *)
Definition set_hashes (h : Header) (lastCommitHash dataHash evidenceHash : list Z) : Header :=
  mkHeader (VersionBlock h) (VersionApp h) (hChainID h) (hHeight h) (hTime h) (LastBlockID h) lastCommitHash dataHash
    (ValidatorsHash h) (NextValidatorsHash h) (ConsensusHash h) (AppHash h) (LastResultsHash h) evidenceHash (ProposerAddress h).

Definition fillHeader (b : Block) : outcome Block :=
  let h := bHeader b in
  lch ← (if bool_decide (LastCommitHash h = []) then commit_Hash (bLastCommit b) else Done (LastCommitHash h));
  eh ← (if bool_decide (EvidenceHash h = []) then evidenceList_Hash (bEvidence b) else Done (EvidenceHash h));
  let dh := if bool_decide (DataHash h = []) then data_Hash (bTxs b) else DataHash h in
  Done (mkBlock (set_hashes h lch dh eh) (bTxs b) (bEvidence b) (bLastCommit b)).

(** [Hash] fills the header; the hash of a block without a commit is nil. *)
Definition block_Hash (b : option Block) : outcome (list Z) :=
  match b with
  | None => Done []
  | Some b =>
      match bLastCommit b with
      | None => Done []
      | Some _ => b ← fillHeader b; Done (header_Hash (Some (bHeader b)))
      end
  end.

Definition HashesTo (b : option Block) (hash : list Z) : outcome bool :=
  match hash, b with
  | [], _ | _, None => Done false
  | _, Some b => h ← block_Hash (Some b); Done (bytes_equal h hash)
  end.

(** [MakeBlock] of [types/test_util.go], which the proposer calls. *)
Definition nil_header (height : Z) : Header :=
  mkHeader BlockProtocol 0 "" height 0 nil_BlockID [] [] [] [] [] [] [] [] [].

Definition types_MakeBlock (height : Z) (txs : list (list Z)) (lastCommit : option Commit) (evidence : list Evidence) : outcome Block :=
  fillHeader (mkBlock (nil_header height) txs evidence lastCommit).

Definition Populate (h : Header) (versionBlock versionApp : Z) (chainID : string) (timestamp : Z) (lastBlockID : BlockID)
    (valHash nextValHash consensusHash appHash lastResultsHash proposerAddress : list Z) : Header :=
  mkHeader versionBlock versionApp chainID (hHeight h) timestamp lastBlockID (LastCommitHash h) (DataHash h)
    valHash nextValHash consensusHash appHash lastResultsHash (EvidenceHash h) proposerAddress.

(** ** Validation *)

Fixpoint evidence_ValidateBasic (evl : list Evidence) : outcome (option string) :=
  match evl with
  | [] => Done None
  | ev :: evl => e ← ev_ValidateBasic bls ev;
                 match e with Some _ => Done (Some "invalid evidence"%string) | None => evidence_ValidateBasic evl end
  end.

Definition Block_ValidateBasic (b : option Block) : outcome (option string) :=
  match b with
  | None => Done (Some "nil block"%string)
  | Some b =>
      match header_ValidateBasic (bHeader b), bLastCommit b with
      | Some _, _ => Done (Some "invalid header"%string)
      | None, None => Done (Some "nil LastCommit"%string)
      | None, Some c =>
          match commit_ValidateBasic c with
          | Some _ => Done (Some "wrong LastCommit"%string)
          | None =>
              ch ← commit_Hash (Some c);
              if negb (bytes_equal (LastCommitHash (bHeader b)) ch) then Done (Some "wrong Header.LastCommitHash"%string)
              else if negb (bytes_equal (DataHash (bHeader b)) (data_Hash (bTxs b))) then Done (Some "wrong Header.DataHash"%string)
              else
                e ← evidence_ValidateBasic (bEvidence b);
                match e with
                | Some e => Done (Some e)
                | None =>
                    eh ← evidenceList_Hash (bEvidence b);
                    Done (if bytes_equal (EvidenceHash (bHeader b)) eh then None else Some "wrong Header.EvidenceHash"%string)
                end
          end
      end
  end.

(** ** Protobuf form *)

Fixpoint evidence_ToProto (evl : list Evidence) : result string (list EvidenceMsg) :=
  match evl with
  | [] => Ok []
  | e :: evl =>
      match EvidenceToProto e, evidence_ToProto evl with
      | Ok m, Ok ms => Ok (m :: ms)
      | Err e, _ => Err e
      | _, Err e => Err e
      end
  end.

(** [EvidenceData.ByteSize]. *)
Definition evidence_ByteSize (evl : list Evidence) : outcome Z :=
  match evidence_ToProto evl with Ok ms => Done (evidenceList_ProtoSize ms) | Err _ => Panic "cannot encode evidence" end.

Definition block_ToProto (b : Block) : result string BlockMsg :=
  match evidence_ToProto (bEvidence b) with
  | Ok ms => Ok (mkBlockMsg (Header_ToProto (bHeader b)) (bTxs b) ms (Commit_ToProto <$> bLastCommit b))
  | Err e => Err e
  end.

(** [Size] is zero when the block has no protobuf form. *)
Definition block_Size (b : Block) : Z := match block_ToProto b with Ok m => blockMsg_Size m | Err _ => 0 end.

Definition BlockFromProto (bp : option BlockMsg) : decoded Block :=
  match bp with
  | None => fails "nil block"
  | Some bp =>
      dbind (HeaderFromProto (bmHeader bp)) (λ h,
      dbind (decode_all (EvidenceFromProto bls) (bmEvidence bp)) (λ evs,
      dbind (match bmLastCommit bp with None => value None | Some c => dbind (CommitFromProto c) (λ c, value (Some c)) end) (λ lc,
      let b := mkBlock h (bmTxs bp) evs lc in
      e ← Block_ValidateBasic (Some b); checked b e)))
  end.

(** [BlockMeta] of [types/block_meta.go]. *)
Record BlockMeta := mkBlockMeta { bmBlockID : BlockID; bmBlockSize : Z; bmMetaHeader : Header; bmNumTxs : Z }.

Definition NewBlockMeta (b : Block) (psh : PartSetHeader) : outcome BlockMeta :=
  h ← block_Hash (Some b);
  Done (mkBlockMeta {| Votes.Hash := h; PSH := psh |} (block_Size b) (bHeader b) (zlen (bTxs b))).

Definition blockMeta_ValidateBasic (bm : BlockMeta) : option string :=
  if negb (block_ValidateBasic (bmBlockID bm)) then Some "invalid BlockID"%string
  else if negb (bytes_equal (Votes.Hash (bmBlockID bm)) (header_Hash (Some (bmMetaHeader bm))))
  then Some "expected BlockID#Hash and Header#Hash to be the same"%string else None.
(** ** A message that cannot be decoded *)

(** Evidence of a light client attack whose light block is empty. *)
Definition empty_attack (height power time : Z) : EvidenceMsg :=
  MsgLightClientAttack (Some (mkLightAttackMsg (Some (mkLightBlockMsg None None)) height [] power time)).

Lemma empty_attack_panics height power time : EvidenceFromProto bls (empty_attack height power time) = Panic "nil pointer dereference".
Proof. done. Qed.

Lemma decode_all_panics {A B} (f : A → decoded B) l m r w :
  Forall (λ x, ∃ y, f x = value y) l → f m = Panic w → decode_all f (l ++ m :: r) = Panic w.
Proof.
  intros Hl Hm. induction Hl as [|x l [y Hy] _ IH]; cbn [app decode_all]; [by rewrite Hm|]. by rewrite Hy; cbn [dbind value]; rewrite IH.
Qed.

(** decoding a received block panics whenever its header is well formed and among its
    evidence there is an attack without a signed header after evidence that decodes, whatever
    the rest of the block is and whether or not its hashes match. *)
Theorem poisoned_block_panics bp evs height power time rest :
  header_ValidateBasic (bmHeader bp) = None → Forall (λ m, ∃ ev, EvidenceFromProto bls m = value ev) evs →
  bmEvidence bp = evs ++ empty_attack height power time :: rest →
  BlockFromProto (Some bp) = Panic "nil pointer dereference".
Proof.
  intros Hh Hev E. unfold BlockFromProto. rewrite Header_roundtrip by done. cbn [dbind value].
  by rewrite E, (decode_all_panics _ _ _ _ "nil pointer dereference" Hev).
Qed.

(** ** Sizes *)

Lemma sov_bounds x k : 0 ≤ x < 2 ^ (7 * k) → 1 ≤ k → 1 ≤ sov x ≤ k.
Proof.
  intros Hx Hk. unfold sov, Merkle.bits_Len.
  assert (Hl : 0 < Z.lor x 1 < 2 ^ (7 * k)).
  { assert (0 ≤ Z.lor x 1) by (apply Z.lor_nonneg; lia).
    assert (Z.lor x 1 ≠ 0) by (intros [_ ?]%Z.lor_eq_0_iff; lia). split; [lia|].
    destruct (decide (x = 0)) as [->|]; [change (Z.lor 0 1) with (2 ^ 0); apply Z.pow_lt_mono_r; lia|].
    apply Z.log2_lt_pow2; [lia|]. rewrite Z.log2_lor by lia. change (Z.log2 1) with 0.
    rewrite Z.max_l by apply Z.log2_nonneg. apply Z.log2_lt_pow2; lia. }
  destruct (Z.leb_spec (Z.lor x 1) 0); [lia|]. pose proof (Z.log2_nonneg (Z.lor x 1)).
  assert (Z.log2 (Z.lor x 1) < 7 * k) by (apply Z.log2_lt_pow2; lia). split.
  - apply Z.div_le_lower_bound; lia.
  - apply Z.lt_succ_r. apply Z.div_lt_upper_bound; lia.
Qed.

Lemma varint_field_bounds x k : 0 ≤ x ≤ max_uint64 → x < 2 ^ (7 * k) → 1 ≤ k → 0 ≤ varint_field x ≤ 1 + k.
Proof.
  intros Hx Hk Hk1. unfold varint_field. destruct (x =? 0); [lia|]. rewrite wrapu64_id by done. pose proof (sov_bounds x k). lia.
Qed.

Lemma bytes_field_bounds l k : 0 ≤ l < 2 ^ (7 * k) → 1 ≤ k → 0 ≤ bytes_field l ≤ 1 + l + k.
Proof. intros Hl Hk. unfold bytes_field. destruct (Z.ltb_spec 0 l); [|lia]. pose proof (sov_bounds l k). lia. Qed.

Lemma message_field_bounds l k : 0 ≤ l < 2 ^ (7 * k) → 1 ≤ k → 0 ≤ message_field l ≤ 1 + l + k.
Proof. intros Hl Hk. unfold message_field. pose proof (sov_bounds l k). lia. Qed.

Lemma message_field_nonneg l : 0 ≤ l → 0 ≤ message_field l.
Proof.
  intros Hl. unfold message_field. assert (0 ≤ sov l); [|lia]. unfold sov. apply Z.div_pos; [|lia].
  unfold Merkle.bits_Len. destruct (_ <=? 0); [lia|]. pose proof (Z.log2_nonneg (Z.lor l 1)). lia.
Qed.

Lemma message_field_mono l n k : 0 ≤ l ≤ n → n < 2 ^ (7 * k) → 1 ≤ k → 0 ≤ message_field l ≤ 1 + n + k.
Proof. intros Hl Hn Hk. pose proof (message_field_bounds l k). lia. Qed.

(** A hash is empty or 32 bytes. *)
Lemma ValidateHash_len h : ValidateHash h = true → zlen h = 0 ∨ zlen h = 32.
Proof. unfold ValidateHash, tmhash_Size. intros E. pose proof (zlen_nonneg h). destruct (Z.ltb_spec 0 (zlen h)); zbool; lia. Qed.

Lemma hash_field h : ValidateHash h = true → 0 ≤ bytes_field (zlen h) ≤ 34.
Proof. intros [->| ->]%ValidateHash_len; unfold bytes_field; vm_compute; split; discriminate. Qed.

Lemma psh_size p : psh_ValidateBasic p = true → 0 ≤ psh_Total p < 2 ^ 32 → 0 ≤ psh_ProtoSize p ≤ 40.
Proof.
  intros Hp Ht. unfold psh_ProtoSize. pose proof (hash_field _ Hp). pose proof (varint_field_bounds (psh_Total p) 5).
  unfold_ints. lia.
Qed.

Lemma blockID_size b : block_ValidateBasic b = true → 0 ≤ psh_Total (PSH b) < 2 ^ 32 → 0 ≤ blockID_ProtoSize b ≤ 76.
Proof.
  unfold block_ValidateBasic. intros [Hh Hp]%andb_true_iff Ht. unfold blockID_ProtoSize.
  pose proof (hash_field _ Hh). pose proof (psh_size _ Hp Ht). pose proof (message_field_mono (psh_ProtoSize (PSH b)) 40 1). lia.
Qed.

Section sizes.
Context `{!BlockCodecLaws}.

(** What the types of the fields bound. *)
Definition header_ranges (h : Header) : Prop :=
  in_uint64 (VersionApp h) ∧ hHeight h ≤ max_int64 ∧ 0 ≤ psh_Total (PSH (LastBlockID h)) < 2 ^ 32.

Lemma time_field t : 0 ≤ message_field (SizeOfStdTime t) ≤ 19.
Proof. pose proof (time_size t). pose proof (message_field_mono (SizeOfStdTime t) 17 1). lia. Qed.

Lemma header_size h :
  header_ValidateBasic h = None → header_ranges h → zlen (AppHash h) ≤ 173 → 0 ≤ header_ProtoSize h ≤ 619.
Proof.
  intros Hv (Hver & Hh & Ht) Happ. unfold header_ValidateBasic, BlockProtocol, MaxChainIDLen, AddressSize in Hv. case_hyp Hv. zbool.
  unfold header_ProtoSize, version_ProtoSize. unfold in_uint64 in Hver.
  pose proof (varint_field_bounds (VersionBlock h) 1). pose proof (varint_field_bounds (VersionApp h) 10 Hver).
  assert (Hvs : 0 ≤ varint_field (VersionBlock h) + varint_field (VersionApp h) ≤ 13) by (unfold_ints; lia).
  pose proof (message_field_mono _ 13 1 Hvs). pose proof (bytes_field_bounds (Z.of_nat (String.length (hChainID h))) 1).
  pose proof (varint_field_bounds (hHeight h) 9). pose proof (time_field (hTime h)).
  pose proof (blockID_size (LastBlockID h) ltac:(done) Ht) as Hb. pose proof (message_field_mono _ 76 1 Hb).
  repeat match goal with H : ValidateHash _ = true |- _ => apply hash_field in H end.
  pose proof (bytes_field_bounds (zlen (AppHash h)) 2). pose proof (zlen_nonneg (AppHash h)).
  pose proof (bytes_field_bounds (zlen (ProposerAddress h)) 1). unfold_ints. lia.
Qed.

Lemma commitSig_size cs : cs_ValidateBasic cs = None → 0 ≤ commitSig_ProtoSize cs ≤ 141.
Proof.
  intros Hv. unfold cs_ValidateBasic, known_flag, BlockIDFlagAbsent, BlockIDFlagCommit, BlockIDFlagNil, AddressSize, MaxSignatureSize in Hv.
  unfold commitSig_ProtoSize. pose proof (time_field (cs_Timestamp cs)).
  assert (Hf : 1 ≤ cs_Flag cs ≤ 3) by (destruct (Z.eqb_spec (cs_Flag cs) 1), (Z.eqb_spec (cs_Flag cs) 2), (Z.eqb_spec (cs_Flag cs) 3); try done; lia).
  pose proof (varint_field_bounds (cs_Flag cs) 1). pose proof (bytes_field_bounds (zlen (cs_Address cs)) 1).
  pose proof (bytes_field_bounds (zlen (cs_Signature cs)) 1). pose proof (zlen_nonneg (cs_Signature cs)). pose proof (zlen_nonneg (cs_Address cs)).
  case_hyp Hv; zbool; unfold_ints; lia.
Qed.

Lemma commit_size c :
  commit_ValidateBasic c = None → Forall (λ cs, cs_ValidateBasic cs = None) (Signatures c) →
  block_ValidateBasic (cBlockID c) = true → 0 ≤ psh_Total (PSH (cBlockID c)) < 2 ^ 32 → cHeight c ≤ max_int64 → cRound c ≤ max_int32 →
  0 ≤ commit_ProtoSize c ≤ MaxCommitBytes (zlen (Signatures c)).
Proof.
  intros Hv Hs Hb Ht Hh Hr. unfold commit_ProtoSize, MaxCommitBytes, MaxCommitOverheadBytes, MaxCommitSigBytes.
  unfold commit_ValidateBasic in Hv. destruct (Z.ltb_spec (cHeight c) 0); [done|]. destruct (Z.ltb_spec (cRound c) 0); [done|].
  pose proof (varint_field_bounds (cHeight c) 9). pose proof (varint_field_bounds (cRound c) 5).
  pose proof (blockID_size _ Hb Ht) as Hid. pose proof (message_field_mono _ 76 1 Hid).
  assert (0 ≤ zsum (λ cs, message_field (commitSig_ProtoSize cs)) (Signatures c) ≤ 144 * zlen (Signatures c)).
  { revert Hs. generalize (Signatures c). intros sigs Hs. induction Hs as [|cs l Hcs _ IH]; [done|]. cbn [zsum]. unfold zlen in *. cbn [length].
    pose proof (message_field_mono _ 141 2 (commitSig_size cs Hcs)). lia. }
  unfold_ints. lia.
Qed.

Lemma txs_Validate_spec txs size max :
  0 ≤ size → max ≤ max_int64 → zsum (λ tx, message_field (zlen tx)) txs + size ≤ max_int64 →
  txs_Validate txs size max = None → txs = [] ∨ size + data_ProtoSize txs ≤ max.
Proof.
  intros Hs Hm Hfit E. pose proof (λ tx : list Z, message_field_nonneg _ (zlen_nonneg tx)) as Hmsg.
  revert size Hs Hfit E. induction txs as [|tx txs IH]; intros size Hs Hfit E; [by left|right]. cbn [txs_Validate] in E.
  unfold data_ProtoSize in *. cbn [zsum] in *. pose proof (Hmsg tx). assert (0 ≤ zsum (λ tx : list Z, message_field (zlen tx)) txs) by (apply zsum_nonneg; auto).
  rewrite wrap64_id in E by (unfold_ints; lia). destruct (Z.ltb_spec max (size + (message_field (zlen tx) + 0))); [done|].
  destruct (IH (size + (message_field (zlen tx) + 0))) as [->|?]; [lia|lia|done| |]; cbn [zsum]; lia.
Qed.

Lemma data_ProtoSize_nonneg txs : 0 ≤ data_ProtoSize txs.
Proof.
  apply zsum_nonneg. intros tx _. apply message_field_nonneg, zlen_nonneg.
Qed.
(** The limits leave enough room: a block within them is no larger than allowed. *)
Lemma block_fits b c maxBytes evSize valsCount maxDataBytes :
  header_ValidateBasic (bHeader b) = None → header_ranges (bHeader b) → zlen (AppHash (bHeader b)) ≤ 173 →
  bLastCommit b = Some c → commit_ValidateBasic c = None → Forall (λ cs, cs_ValidateBasic cs = None) (Signatures c) →
  block_ValidateBasic (cBlockID c) = true → 0 ≤ psh_Total (PSH (cBlockID c)) < 2 ^ 32 → cHeight c ≤ max_int64 → cRound c ≤ max_int32 →
  zlen (Signatures c) ≤ valsCount → 0 ≤ maxBytes ≤ MaxBlockSizeBytes →
  evidence_ByteSize (bEvidence b) = Done evSize → MaxDataBytes maxBytes evSize valsCount = Done maxDataBytes →
  data_ProtoSize (bTxs b) ≤ maxDataBytes →
  block_Size b ≤ maxBytes.
Proof.
  intros Hv Hr Happ Ec Hc Hcs Hcb Hct Hch Hcr Hn Hmax Hev Hmd Hd. unfold block_Size.
  destruct (block_ToProto b) as [m|] eqn:Em; [|lia]. unfold block_ToProto, evidence_ByteSize in *.
  destruct (evidence_ToProto (bEvidence b)) as [ms|]; [|done]. injection Em as <-. injection Hev as <-.
  unfold blockMsg_Size. cbn [bmHeader bmTxs bmEvidence bmLastCommit]. rewrite Ec, Header_same.
  cbn [fmap option_fmap option_map]. rewrite Commit_same.
  unfold MaxDataBytes, MaxOverheadForBlock, MaxHeaderBytes in Hmd. case_hyp Hmd. injection Hmd as <-. zbool.
  pose proof (header_size _ Hv Hr Happ) as Hhs. pose proof (message_field_mono _ 619 2 Hhs).
  pose proof (commit_size c Hc Hcs Hcb Hct Hch Hcr) as Hcm. pose proof (data_ProtoSize_nonneg (bTxs b)).
  assert (0 ≤ evidenceList_ProtoSize ms) by (apply zsum_nonneg; intros x _; apply message_field_nonneg, evidence_size).
  assert (MaxCommitBytes (zlen (Signatures c)) ≤ MaxCommitBytes valsCount) by (unfold MaxCommitBytes, MaxCommitSigBytes; lia).
  unfold MaxBlockSizeBytes in Hmax.
  pose proof (message_field_bounds (data_ProtoSize (bTxs b)) 4). pose proof (message_field_bounds (evidenceList_ProtoSize ms) 4).
  pose proof (message_field_bounds (commit_ProtoSize c) 4). lia.
Qed.


End sizes.

(** ** Round trip *)

Section roundtrip.
Context `{!KeyCodecLaws}.

(** Evidence that survives the wire: a light client attack lists accused validators (the
    slice is not nil) with supported keys, and its light block is well formed. *)
Definition wire_evidence (ev : Evidence) : Prop :=
  match ev with
  | EvDuplicateVote dve => dve_ValidateBasic dve = None
  | EvLightClientAttack l =>
      lca_ValidateBasic bls l = Done None ∧
      (∃ bs, ByzantineValidators l = Some (Some <$> bs) ∧ Forall (supported bls) bs) ∧
      ∃ h c vals, ConflictingBlock l = Some (mkLightBlock (Some (mkSignedHeader (Some h) (Some c))) (Some vals)) ∧
        block_ValidateBasic (cBlockID c) = true ∧ coherent vals
  end.

Lemma byzantine_validators bs : byzantine_ToProto (Some <$> bs) = validators_ToProto bs.
Proof. induction bs as [|b bs IH]; [done|]. cbn [fmap list_fmap byzantine_ToProto validators_ToProto]. by rewrite <-IH. Qed.

Lemma lca_roundtrip l m :
  wire_evidence (EvLightClientAttack l) → lca_ToProto l = Ok m → LightClientAttackEvidenceFromProto bls (Some m) = value l.
Proof.
  intros (Hv & (bs & Eb & Hbs) & h & c & vals & El & Hid & Hco) E. unfold lca_ToProto in E. rewrite El, Eb in E. cbn [default from_option id] in E.
  rewrite byzantine_validators in E. destruct (lb_ToProto _) as [lm|] eqn:Elm; [|done].
  destruct (validators_ToProto bs) as [bm|] eqn:Ebm; [|done]. injection E as <-.
  unfold LightClientAttackEvidenceFromProto. cbn [lamConflictingBlock lamByzantineValidators lamCommonHeight lamTotalVotingPower lamTimestamp].
  pose proof Hv as Hv'. unfold lca_ValidateBasic in Hv'. rewrite El in Hv'. cbn [lbSignedHeader deref mbind outcome_bind shHeader] in Hv'.
  destruct (lTotalVotingPower l <=? 0); [done|]. destruct (CommonHeight l <=? 0); [done|]. destruct (hHeight h <? CommonHeight l); [done|].
  unfold lb_ValidateBasic in Hv'. cbn [lbSignedHeader lbValidatorSet shHeader] in Hv'.
  destruct (sh_ValidateBasic _ _) eqn:Esh; [done|]. unfold sh_ValidateBasic in Esh. cbn [shHeader shCommit] in Esh.
  destruct (header_ValidateBasic h) eqn:Eh; [done|]. destruct (commit_ValidateBasic c) eqn:Ec; [done|].
  destruct (vals_ValidateBasic bls (Some vals)) eqn:Evals; [done|].
  assert (Hsigs : Forall (λ cs, cs_ValidateBasic cs = None) (Signatures c)).
  { destruct (negb (bool_decide _)); [done|]. destruct (Z.eqb_spec (cHeight c) (hHeight h)) as [Eq|]; [|done].
    assert (0 < hHeight h) by (unfold header_ValidateBasic in Eh; case_hyp Eh; zbool; lia).
    unfold commit_ValidateBasic in Ec. destruct (Z.ltb_spec (cHeight c) 0); [done|]. destruct (cRound c <? 0); [done|].
    destruct (Z.leb_spec 1 (cHeight c)); [|lia]. destruct (IsNil _); [done|]. destruct (_ =? 0); [done|]. by apply first_error_Forall. }
  rewrite (LightBlock_roundtrip bls (mkLightBlock (Some (mkSignedHeader (Some h) (Some c))) (Some vals)) lm (mkSignedHeader (Some h) (Some c)) h c vals eq_refl eq_refl eq_refl eq_refl Eh Hid Hsigs Ec Evals Hco Elm). cbn [dbind value].
  rewrite (validators_roundtrip bls _ _ Ebm Hbs). cbn [dbind value].
  replace (mkLightClientAttackEvidence _ _ _ _ _) with l; [by rewrite Hv|].
  clear -El Eb. destruct l. cbn [ConflictingBlock ByzantineValidators CommonHeight lTotalVotingPower lTimestamp] in *. by subst.
Qed.

Lemma evidence_roundtrip evl ms :
  Forall wire_evidence evl → evidence_ToProto evl = Ok ms → decode_all (EvidenceFromProto bls) ms = value evl.
Proof.
  intros Hf. revert ms. induction Hf as [|ev evl Hev _ IH]; intros ms E; cbn [evidence_ToProto] in E; [by injection E as <-|].
  destruct (EvidenceToProto ev) as [m|] eqn:Em; [|done]. destruct (evidence_ToProto evl) as [ms'|]; [|done]. injection E as <-.
  cbn [decode_all]. assert (EvidenceFromProto bls m = value ev) as ->.
  { destruct ev as [dve|l]; cbn [EvidenceToProto] in Em.
    - injection Em as <-. cbn [EvidenceFromProto]. by rewrite dve_same, dve_roundtrip.
    - destruct (lca_ToProto l) as [lm|] eqn:El; [|done]. injection Em as <-. cbn [EvidenceFromProto]. by rewrite (lca_roundtrip l lm Hev El). }
  cbn [dbind value]. by rewrite (IH ms' eq_refl).
Qed.

(** C26: a valid block whose commit and evidence are well formed ([wire_evidence]: in a light
    client attack the list of accused validators is not nil, their keys are supported and the light
    block is complete) is decoded by its receiver to the same block. *)
Theorem block_roundtrip b m c :
  Block_ValidateBasic (Some b) = Done None → bLastCommit b = Some c → block_ValidateBasic (cBlockID c) = true →
  Forall (λ cs, cs_ValidateBasic cs = None) (Signatures c) → Forall wire_evidence (bEvidence b) → block_ToProto b = Ok m →
  BlockFromProto (Some m) = value b.
Proof.
  intros Hv Ec Hid Hs Hev E. unfold block_ToProto in E. destruct (evidence_ToProto (bEvidence b)) as [ms|] eqn:Ems; [|done]. injection E as <-.
  unfold BlockFromProto. cbn [bmHeader bmTxs bmEvidence bmLastCommit]. rewrite Header_same.
  pose proof Hv as Hv'. unfold Block_ValidateBasic in Hv'. destruct (header_ValidateBasic (bHeader b)) eqn:Eh; [done|]. rewrite Ec in Hv' |- *.
  cbn [fmap option_fmap option_map]. rewrite Commit_same. destruct (commit_ValidateBasic c) eqn:Evc; [done|].
  rewrite Header_roundtrip, (evidence_roundtrip _ _ Hev Ems), Commit_roundtrip by done. cbn [dbind value].
  replace (mkBlock _ _ _ _) with b; [by rewrite Hv|]. clear -Ec. destruct b. cbn [bHeader bTxs bEvidence bLastCommit] in *. by subst.
Qed.

End roundtrip.

End block.

(** ** Examples *)

Section examples.
#[local] Existing Instances toy_keys toy_codec toy_batch toy_batch_laws Merkle.toy_hash Merkle.toy_hash_laws toy_header_codec toy_header_codec_laws toy_key_codec toy_key_codec_laws.

Definition toy_block_codec : @BlockCodec toy_keys :=
  @Build_BlockCodec toy_keys (λ cs, Some (cs_Flag cs :: cs_Address cs)) (λ dve, Some [dTotalVotingPower dve])
    (λ m, Some [lamCommonHeight m]) (λ _, 12) (λ _, 300).
#[local] Existing Instance toy_block_codec.

Lemma toy_block_codec_laws : BlockCodecLaws.
Proof. split; intros; cbn; lia. Qed.

(** A block of height 6 with both kinds of evidence. *)
Definition ex_full_block : Block :=
  let b := mkBlock (nil_header 6) [[1; 2; 3]; [4]] [EvDuplicateVote ex_dve; EvLightClientAttack ex_lunatic] (Some (ex_header_commit ex_h5)) in
  match fillHeader b with
  | Done b =>
      mkBlock (Populate (bHeader b) BlockProtocol 1 "chain" (day 6) (cBlockID (ex_header_commit ex_h5)) ex_set_hash ex_set_hash [] [] [] (toy_address 1))
        (bTxs b) (bEvidence b) (bLastCommit b)
  | Panic _ => b
  end.

Lemma block_roundtrip_witness : ∃ m, block_ToProto ex_full_block = Ok m ∧ BlockFromProto false (Some m) = value ex_full_block.
Proof.
  destruct (block_ToProto ex_full_block) as [m|] eqn:E; [|by vm_compute in E]. exists m. split; [done|].
  apply (block_roundtrip false _ _ (ex_header_commit ex_h5)); [by vm_compute|by vm_compute|by vm_compute|by_decide| |done].
  repeat constructor; [by vm_compute..| |].
  - exists (take 3 (Validators ex_vals)). split; [by vm_compute|]. apply Forall_true. by intros v pk _.
  - eexists _, _, _. split; [reflexivity|]. split; [by vm_compute|repeat split; vm_compute; done].
Defined.

(** The same block with the attack emptied and its hashes left as they were. *)
Definition ex_poisoned : BlockMsg :=
  mkBlockMsg (bHeader ex_full_block) (bTxs ex_full_block) [MsgDuplicateVote (Some ex_dve); empty_attack 5 10 (day 5)] (bLastCommit ex_full_block).

Lemma poisoned_block_panics_witness : BlockFromProto false (Some ex_poisoned) = Panic "nil pointer dereference".
Proof.
  apply (poisoned_block_panics false ex_poisoned [MsgDuplicateVote (Some ex_dve)] 5 10 (day 5) []); [by vm_compute| |reflexivity].
  repeat constructor. exists (EvDuplicateVote ex_dve). by vm_compute.
Defined.

End examples.

End Block.
