(* ===== verification/State.v ===== *)
(** * State: the state after a block, validating the next block and moving on

    [state/state.go], [state/validation.go] and the pure parts of [state/execution.go], with
    the genesis document of [types/genesis.go].  Times are instants: that a block time is in
    canonical form (UTC, no clock reading) is not part of the model. *)

From S2P Require Import Prelude Merkle Crypto ValidatorSet Votes Commit Validation Header Light Params Wire Evidence Block.
Import ValidatorSet.ValidatorSet Votes.Votes Commit.Commit Validation.Validation Header.Header Light.Light Params.Params Wire.Wire Evidence.Evidence Block.Block.

Local Open Scope Z_scope.

Module State.

(** ** Results of the application *)

Record ExecTxResult := mkExecTxResult {
  trCode : Z; trData : list Z; trLog : string; trInfo : string; trGasWanted : Z; trGasUsed : Z; trCodespace : string }.

Record ValidatorUpdate := mkValidatorUpdate { vuPower : Z; vuPubKeyType : string; vuPubKeyBytes : list Z }.

(** The answer to [FinalizeBlock].  A result is a pointer that may be nil; an event is published
    and never looked at. *)
Record FinalizeBlockResponse := mkFinalizeBlockResponse {
  frEvents : list string; frTxResults : list (option ExecTxResult); frValidatorUpdates : list ValidatorUpdate;
  frConsensusParamUpdates : option ParamsMsg; frAppHash : list Z }.

(** [DeterministicExecTxResult]: what the other nodes must agree on. *)
Definition DeterministicExecTxResult (r : ExecTxResult) : ExecTxResult :=
  mkExecTxResult (trCode r) (trData r) "" "" (trGasWanted r) (trGasUsed r) "".

Class ResultCodec := { result_Marshal : ExecTxResult → option (list Z) }.
(** Encoding a result with empty strings cannot fail. *)
Class ResultCodecLaws `{ResultCodec} : Prop := { result_marshals r : is_Some (result_Marshal (DeterministicExecTxResult r)) }.

(** ** Genesis *)

Section genesis.
Context `{PubKeyOps}.

Record GenesisValidator := mkGenesisValidator { gvAddress : list Z; gvPubKey : PubKey; gvPower : Z; gvName : string }.

(** [Validators] may be nil. *)
Record GenesisDoc := mkGenesisDoc {
  gdGenesisTime : Z; gdChainID : string; gdInitialHeight : Z; gdConsensusParams : option ConsensusParams;
  gdValidators : option (list GenesisValidator); gdAppHash : list Z; gdAppState : list Z }.

(** The loop over the validators fills in missing addresses. *)
Fixpoint complete_validators (l : list GenesisValidator) : result string (list GenesisValidator) :=
  match l with
  | [] => Ok []
  | v :: l =>
      if gvPower v =? 0 then Err "the genesis file cannot contain validators with no voting power"%string
      else if (0 <? zlen (gvAddress v)) && negb (bytes_equal (pk_Address (gvPubKey v)) (gvAddress v))
      then Err "incorrect address for validator in the genesis file"%string
      else
        let v := if zlen (gvAddress v) =? 0 then mkGenesisValidator (pk_Address (gvPubKey v)) (gvPubKey v) (gvPower v) (gvName v) else v in
        match complete_validators l with Ok l => Ok (v :: l) | Err e => Err e end
  end.

Definition ValidateAndComplete (bls : bool) (now : Z) (g : GenesisDoc) : result string GenesisDoc :=
  if bool_decide (gdChainID g = ""%string) then Err "genesis doc must include non-empty chain_id"%string
  else if MaxChainIDLen <? Z.of_nat (String.length (gdChainID g)) then Err "chain_id in genesis doc is too long"%string
  else if gdInitialHeight g <? 0 then Err "initial_height cannot be negative"%string
  else
    let initial := if gdInitialHeight g =? 0 then 1 else gdInitialHeight g in
    match match gdConsensusParams g with None => None | Some p => params_ValidateBasic bls p end with
    | Some e => Err e
    | None =>
        match complete_validators (default [] (gdValidators g)) with
        | Err e => Err e
        | Ok l =>
            Ok (mkGenesisDoc (if time_IsZero (gdGenesisTime g) then now else gdGenesisTime g) (gdChainID g) initial
                  (Some (default DefaultConsensusParams (gdConsensusParams g)))
                  (match gdValidators g with None => None | Some _ => Some l end) (gdAppHash g) (gdAppState g))
        end
    end.

Definition genesis_validators (g : GenesisDoc) : list Validator :=
  (λ v, NewValidator (gvPubKey v) (gvPower v)) <$> default [] (gdValidators g).

(** ** The state *)

Record State := mkState {
  stVersionBlock : Z; stVersionApp : Z; stSoftware : string;
  stChainID : string; stInitialHeight : Z;
  stLastBlockHeight : Z; stLastBlockID : BlockID; stLastBlockTime : Z;
  stNextValidators : ValidatorSet; stValidators : ValidatorSet; stLastValidators : ValidatorSet;
  stLastHeightValidatorsChanged : Z;
  stConsensusParams : ConsensusParams; stLastHeightConsensusParamsChanged : Z;
  stLastResultsHash : list Z; stAppHash : list Z }.

Definition CMTSemVer : string := "1.0.1".

(** [MakeGenesisState]; [NewValidatorSet] panics on validators it cannot take. *)
Definition MakeGenesisState (bls : bool) (now : Z) (genDoc : GenesisDoc) : decoded State :=
  match ValidateAndComplete bls now genDoc with
  | Err e => fails "error in genesis doc"
  | Ok g =>
      validatorSet ← NewValidatorSet (genesis_validators g);
      nextValidatorSet ← (match gdValidators g with
                          | None => NewValidatorSet []
                          | Some _ => vals ← NewValidatorSet (genesis_validators g); CopyIncrementProposerPriority vals 1
                          end);
      lastValidators ← NewValidatorSet [];
      value (mkState BlockProtocol 0 CMTSemVer (gdChainID g) (gdInitialHeight g)
               0 nil_BlockID (gdGenesisTime g)
               nextValidatorSet validatorSet lastValidators (gdInitialHeight g)
               (default DefaultConsensusParams (gdConsensusParams g)) (gdInitialHeight g)
               [] (gdAppHash g))
  end.

End genesis.

(** ** Protobuf form of the state *)

Section proto.
Context `{PubKeyOps, !KeyCodec}.
Variable bls : bool.

Record StateMsg := mkStateMsg {
  smVersionBlock : Z; smVersionApp : Z; smSoftware : string; smChainID : string; smInitialHeight : Z;
  smLastBlockHeight : Z; smLastBlockID : BlockID; smLastBlockTime : Z;
  smNextValidators : option ValidatorSetMsg; smValidators : option ValidatorSetMsg; smLastValidators : option ValidatorSetMsg;
  smLastHeightValidatorsChanged : Z; smConsensusParams : ParamsMsg; smLastHeightConsensusParamsChanged : Z;
  smLastResultsHash : list Z; smAppHash : list Z }.

Definition state_ToProto (s : State) : result string StateMsg :=
  match vals_ToProto (Some (stValidators s)), vals_ToProto (Some (stNextValidators s)) with
  | Err e, _ => Err e
  | _, Err e => Err e
  | Ok vals, Ok nVals =>
      match (if 1 <=? stLastBlockHeight s then
               match vals_ToProto (Some (stLastValidators s)) with Ok m => Ok (Some m) | Err e => Err e end
             else Ok None) with
      | Err e => Err e
      | Ok lVals =>
          Ok (mkStateMsg (stVersionBlock s) (stVersionApp s) (stSoftware s) (stChainID s) (stInitialHeight s)
                (stLastBlockHeight s) (stLastBlockID s) (stLastBlockTime s) (Some nVals) (Some vals) lVals
                (stLastHeightValidatorsChanged s) (params_ToProto (stConsensusParams s)) (stLastHeightConsensusParamsChanged s)
                (stLastResultsHash s) (stAppHash s))
      end
  end.

Definition state_FromProto (pb : option StateMsg) : decoded State :=
  match pb with
  | None => fails "nil State"
  | Some pb =>
      bi ←? BlockIDFromProto (smLastBlockID pb);
      vals ←? ValidatorSetFromProto bls (smValidators pb);
      nVals ←? ValidatorSetFromProto bls (smNextValidators pb);
      lVals ←? (if 1 <=? smLastBlockHeight pb then ValidatorSetFromProto bls (smLastValidators pb)
                else vals ← NewValidatorSet []; value vals);
      params ← ConsensusParamsFromProto (smConsensusParams pb);
      value (mkState (smVersionBlock pb) (smVersionApp pb) (smSoftware pb) (smChainID pb) (smInitialHeight pb)
               (smLastBlockHeight pb) bi (smLastBlockTime pb) nVals vals lVals
               (smLastHeightValidatorsChanged pb) params (smLastHeightConsensusParamsChanged pb)
               (smLastResultsHash pb) (smAppHash pb))
  end.

End proto.

Section state.
Context `{PubKeyOps, SignCodec, !BatchOps, !HeaderCodec, Merkle.HashOps, !KeyCodec, !BlockCodec, !ResultCodec}.
Variable bls : bool.

(** ** Making a block *)

Definition MakeBlock (now : Z) (s : State) (height : Z) (txs : list (list Z)) (lastCommit : Commit) (evidence : list Evidence)
    (proposerAddress : list Z) : outcome Block :=
  block ← types_MakeBlock height txs (Some lastCommit) evidence;
  pbts ← PbtsEnabled (pFeature (stConsensusParams s)) height;
  let timestamp :=
    if (pbts : bool) then now
    else if height =? stInitialHeight s then stLastBlockTime s
    else MedianTime lastCommit (stLastValidators s) in
  vh ← vals_Hash (stValidators s);
  nvh ← vals_Hash (stNextValidators s);
  Done (mkBlock
    (Populate (bHeader block) (stVersionBlock s) (stVersionApp s) (stChainID s) timestamp (stLastBlockID s) vh nvh
       (params_Hash (stConsensusParams s)) (stAppHash s) (stLastResultsHash s) proposerAddress)
    (bTxs block) (bEvidence block) (bLastCommit block)).

(** ** Validating a block *)

(** The time of a block against the state. *)
Definition validate_time (s : State) (h : Header) (lastCommit : Commit) : outcome (option string) :=
  if stInitialHeight s <? hHeight h then
    if negb (stLastBlockTime s <? hTime h) then Done (Some "block time not greater than last block time"%string)
    else
      pbts ← PbtsEnabled (pFeature (stConsensusParams s)) (hHeight h);
      Done (if negb pbts && negb (hTime h =? MedianTime lastCommit (stLastValidators s)) then Some "invalid block time"%string else None)
  else if hHeight h =? stInitialHeight s then
    Done (if hTime h <? stLastBlockTime s then Some "block time is before genesis time"%string else None)
  else Done (Some "block height lower than initial height"%string).

Definition validate_last_commit (s : State) (h : Header) (lastCommit : Commit) : outcome (option string) :=
  if hHeight h =? stInitialHeight s then
    Done (if negb (zlen (Signatures lastCommit) =? 0) then Some "initial block can't have LastCommit signatures"%string else None)
  else
    e ← VerifyCommit (stChainID s) (Some (stLastValidators s)) (stLastBlockID s) (wrap64 (hHeight h - 1)) (Some lastCommit);
    Done (match e with Some _ => Some "invalid LastCommit"%string | None => None end).

(** The fields of the header against the state, in the order of the code. *)
Definition validate_header (s : State) (h : Header) : outcome (option string) :=
  if negb (VersionApp h =? stVersionApp s) || negb (VersionBlock h =? stVersionBlock s) then Done (Some "wrong Block.Header.Version"%string)
  else if negb (bool_decide (hChainID h = stChainID s)) then Done (Some "wrong Block.Header.ChainID"%string)
  else if (stLastBlockHeight s =? 0) && negb (hHeight h =? stInitialHeight s) then Done (Some "wrong Block.Header.Height"%string)
  else if (0 <? stLastBlockHeight s) && negb (hHeight h =? wrap64 (stLastBlockHeight s + 1)) then Done (Some "wrong Block.Header.Height"%string)
  else if negb (Equals (LastBlockID h) (stLastBlockID s)) then Done (Some "wrong Block.Header.LastBlockID"%string)
  else if negb (bytes_equal (AppHash h) (stAppHash s)) then Done (Some "wrong Block.Header.AppHash"%string)
  else if negb (bytes_equal (ConsensusHash h) (params_Hash (stConsensusParams s))) then Done (Some "wrong Block.Header.ConsensusHash"%string)
  else if negb (bytes_equal (LastResultsHash h) (stLastResultsHash s)) then Done (Some "wrong Block.Header.LastResultsHash"%string)
  else
    vh ← vals_Hash (stValidators s);
    if negb (bytes_equal (ValidatorsHash h) vh) then Done (Some "wrong Block.Header.ValidatorsHash"%string)
    else
      nvh ← vals_Hash (stNextValidators s);
      Done (if negb (bytes_equal (NextValidatorsHash h) nvh) then Some "wrong Block.Header.NextValidatorsHash"%string else None).

(** An error ends the function. *)
Definition orElse (m k : outcome (option string)) : outcome (option string) :=
  e ← m; match e with Some e => Done (Some e) | None => k end.

(** A time in memory has, besides its instant, a reading of the monotonic clock or none and a
    location, [None] for UTC; [!=] compares all three, [After], [Equal] and [Before] the instants
    of times without a reading.  [Canonical] is [t.Round(0).UTC()]. *)
Record Time := mkTime { tInstant : Z; tMonotonic : option Z; tLocation : option string }.

#[export] Instance Time_eq_dec : EqDecision Time.
Proof. solve_decision. Defined.

Definition Canonical (t : Time) : Time := mkTime (tInstant t) None None.

(** [validateBlock] for a block whose time, at the instant of its header, has the given reading and
    location. *)
Definition validateBlock_at (reading : option Z) (location : option string) (s : State) (block : option Block)
    : outcome (option string) :=
  orElse (Block_ValidateBasic bls block)
  (match block with
   | None => Panic "nil pointer dereference"
   | Some b =>
       let h := bHeader b in
       orElse (validate_header s h)
       (c ← deref (bLastCommit b);
        orElse (validate_last_commit s h c)
        (if negb (zlen (ProposerAddress h) =? AddressSize) then Done (Some "wrong ProposerAddress size"%string)
         else if negb (HasAddress (stValidators s) (ProposerAddress h)) then Done (Some "block.Header.ProposerAddress is not a validator"%string)
         else if negb (bool_decide (mkTime (hTime h) reading location = Canonical (mkTime (hTime h) reading location)))
         then Done (Some "block time is not canonical"%string)
         else
           orElse (validate_time s h c)
           (got ← evidence_ByteSize (bEvidence b);
            Done (if evMaxBytes (pEvidence (stConsensusParams s)) <? got then Some "evidence exceeds limit"%string else None))))
   end).

(** The times of blocks that were decoded, and those of [cmttime.Now] and [MedianTime], are in UTC
    without a reading. *)
Definition validateBlock (s : State) (block : option Block) : outcome (option string) :=
  validateBlock_at None None s block.

(** ** The next state *)

Fixpoint validateValidatorUpdates (abciUpdates : list ValidatorUpdate) (params : ValidatorParams) : option string :=
  match abciUpdates with
  | [] => None
  | u :: l =>
      if vuPower u <? 0 then Some "voting power can't be negative"%string
      else if negb (IsValidPubkeyType params (vuPubKeyType u)) then Some "pubkey type is unsupported for consensus"%string
      else validateValidatorUpdates l params
  end.

(** [PB2TM.ValidatorUpdates]. *)
Fixpoint pb2tm_ValidatorUpdates (vals : list ValidatorUpdate) : result string (list Validator) :=
  match vals with
  | [] => Ok []
  | v :: l =>
      match PubKeyFromTypeAndBytes bls (vuPubKeyType v) (vuPubKeyBytes v) with
      | Err e => Err e
      | Ok pk => match pb2tm_ValidatorUpdates l with Ok l => Ok (NewValidator pk (vuPower v) :: l) | Err e => Err e end
      end
  end.

Fixpoint results_toByteSlices (l : list (option ExecTxResult)) : outcome (list (list Z)) :=
  match l with
  | [] => Done []
  | r :: l => r ← deref r; bz ← deref (result_Marshal (DeterministicExecTxResult r)); rest ← results_toByteSlices l; Done (bz :: rest)
  end.
Definition TxResultsHash (l : list (option ExecTxResult)) : outcome (list Z) :=
  bzs ← results_toByteSlices l; Done (Merkle.HashFromByteSlices bzs).

(** The state after [InitChain], as [ReplayBlocks] makes it from the answer of the application. *)
Record InitChainResponse := mkInitChainResponse { irAppHash : list Z; irValidators : list ValidatorUpdate; irConsensusParams : option ParamsMsg }.

Definition init_chain_state (s : State) (res : InitChainResponse) (genesisValidators : Z) : decoded State :=
  let appHash := if 0 <? zlen (irAppHash res) then irAppHash res else stAppHash s in
  sets ←? (if 0 <? zlen (irValidators res) then
             match pb2tm_ValidatorUpdates (irValidators res) with
             | Err e => fails e
             | Ok vals => vs ← NewValidatorSet vals; ns ← (vs ← NewValidatorSet vals; CopyIncrementProposerPriority vs 1); value (vs, ns)
             end
           else if genesisValidators =? 0 then fails "validator set is nil in genesis and still empty after InitChain"
           else value (stValidators s, stNextValidators s));
  let params := match irConsensusParams res with Some u => Update (stConsensusParams s) (Some u) | None => stConsensusParams s end in
  let app := match irConsensusParams res with Some _ => App (pVersion params) | None => stVersionApp s end in
  value (mkState (stVersionBlock s) app (stSoftware s) (stChainID s) (stInitialHeight s) (stLastBlockHeight s) (stLastBlockID s) (stLastBlockTime s)
           sets.2 sets.1 (stLastValidators s) (stLastHeightValidatorsChanged s) params (stLastHeightConsensusParamsChanged s)
           (Merkle.HashFromByteSlices []) appHash).

(** The parameters, the height of their last change and the application version after an
    update. *)
Definition update_params (s : State) (h : Header) (updates : option ParamsMsg) : result string (ConsensusParams * Z * Z) :=
  match updates with
  | None => Ok (stConsensusParams s, stLastHeightConsensusParamsChanged s, stVersionApp s)
  | Some u =>
      let nextParams := Update (stConsensusParams s) (Some u) in
      match params_ValidateBasic bls nextParams, ValidateUpdate (stConsensusParams s) (Some u) (hHeight h) with
      | Some _, _ => Err "validating new consensus params"%string
      | None, Some _ => Err "updating consensus params"%string
      | None, None => Ok (nextParams, wrap64 (hHeight h + 1), App (pVersion nextParams))
      end
  end.

Definition updateState (s : State) (blockID : BlockID) (header : Header) (abciResponse : FinalizeBlockResponse)
    (validatorUpdates : list Validator) : decoded State :=
  upd ←? (
    if 0 <? zlen validatorUpdates then
      '(vals, err) ← UpdateWithChangeSet (stNextValidators s) validatorUpdates;
      match err with
      | Some _ => fails "changing validator set"
      | None => value (vals, wrap64 (wrap64 (hHeight header + 1) + 1))
      end
    else value (stNextValidators s, stLastHeightValidatorsChanged s));
  let '(nValSet, changed) := upd in
  nValSet ← IncrementProposerPriority nValSet 1;
  match update_params s header (frConsensusParamUpdates abciResponse) with
  | Err e => fails e
  | Ok (nextParams, paramsChanged, app) =>
      lrh ← TxResultsHash (frTxResults abciResponse);
      value (mkState (stVersionBlock s) app (stSoftware s) (stChainID s) (stInitialHeight s)
               (hHeight header) blockID (hTime header)
               nValSet (stNextValidators s) (stValidators s) changed
               nextParams paramsChanged lrh [])
  end.

(** [SaveFinalizeBlockResponse] drops the nil results of the response it is given, which is the
    one the caller goes on with. *)
Definition strip_results (resp : FinalizeBlockResponse) : FinalizeBlockResponse :=
  mkFinalizeBlockResponse (frEvents resp) (filter is_Some (frTxResults resp)) (frValidatorUpdates resp) (frConsensusParamUpdates resp) (frAppHash resp).

(** What [applyBlock] computes from the answer of the application. *)
Definition apply_response (s : State) (blockID : BlockID) (block : Block) (resp : FinalizeBlockResponse) : decoded State :=
  if negb (zlen (bTxs block) =? zlen (frTxResults resp)) then fails "expected tx results length to match size of transactions in block"
  else
    let resp := strip_results resp in
    match validateValidatorUpdates (frValidatorUpdates resp) (pValidator (stConsensusParams s)) with
    | Some _ => fails "error in validator updates"
    | None =>
        match pb2tm_ValidatorUpdates (frValidatorUpdates resp) with
        | Err e => fails e
        | Ok validatorUpdates => updateState s blockID (bHeader block) resp validatorUpdates
        end
    end.

(** [state.AppHash = abciResponse.AppHash], once the application has committed. *)
Definition set_app_hash (s : State) (h : list Z) : State :=
  mkState (stVersionBlock s) (stVersionApp s) (stSoftware s) (stChainID s) (stInitialHeight s)
    (stLastBlockHeight s) (stLastBlockID s) (stLastBlockTime s) (stNextValidators s) (stValidators s) (stLastValidators s)
    (stLastHeightValidatorsChanged s) (stConsensusParams s) (stLastHeightConsensusParamsChanged s) (stLastResultsHash s) h.

(** ** What the application is told *)

Record VoteInfo := mkVoteInfo { viAddress : list Z; viPower : Z; viFlag : Z }.
Record ExtendedVoteInfo := mkExtendedVoteInfo { xiAddress : list Z; xiPower : Z; xiFlag : Z; xiExtension : list Z; xiSignature : list Z }.

Fixpoint vote_infos (vals : list Validator) (sigs : list CommitSig) : outcome (list VoteInfo) :=
  match vals, sigs with
  | [], _ => Done []
  | v :: vals, cs :: sigs =>
      a ← tm2pb_Validator v; rest ← vote_infos vals sigs;
      Done (mkVoteInfo a.1 a.2 (cs_Flag cs) :: rest)
  | _, [] => Panic "index out of range"
  end.

Definition BuildLastCommitInfo (block : Block) (lastValSet : ValidatorSet) (initialHeight : Z) : outcome (Z * list VoteInfo) :=
  if hHeight (bHeader block) =? initialHeight then Done (0, [])
  else
    c ← deref (bLastCommit block);
    if negb (zlen (Signatures c) =? zlen (Validators lastValSet)) then Panic "commit size doesn't match validator set length"
    else votes ← vote_infos (Validators lastValSet) (Signatures c); Done (cRound c, votes).

Fixpoint extended_vote_infos (vals : list Validator) (sigs : list ExtendedCommitSig) (extEnabled : bool) : outcome (list ExtendedVoteInfo) :=
  match vals, sigs with
  | [], _ => Done []
  | v :: vals, ecs :: sigs =>
      if negb (cs_Flag (ecs_CommitSig ecs) =? BlockIDFlagAbsent) && negb (bytes_equal (cs_Address (ecs_CommitSig ecs)) (Address v))
      then Panic "validator address of extended commit signature does not match"
      else
        match ecs_EnsureExtension ecs extEnabled with
        | Some _ => Panic "commit has problems with vote extension data"
        | None =>
            a ← tm2pb_Validator v; rest ← extended_vote_infos vals sigs extEnabled;
            Done (mkExtendedVoteInfo a.1 a.2 (cs_Flag (ecs_CommitSig ecs)) (ecs_Extension ecs) (ecs_ExtensionSignature ecs) :: rest)
        end
  | _, [] => Panic "index out of range"
  end.

(** The feature is looked up for every signature; with none it is not. *)
Definition BuildExtendedCommitInfo (ec : ExtendedCommit) (valSet : ValidatorSet) (initialHeight : Z) (fp : FeatureParams)
    : outcome (Z * list ExtendedVoteInfo) :=
  if ecHeight ec <? initialHeight then Done (0, [])
  else if negb (zlen (ExtendedSignatures ec) =? zlen (Validators valSet)) then Panic "extended commit size does not match validator set length"
  else if zlen (Validators valSet) =? 0 then Done (ecRound ec, [])
  else
    extEnabled ← VoteExtensionsEnabled fp (ecHeight ec);
    votes ← extended_vote_infos (Validators valSet) (ExtendedSignatures ec) extEnabled; Done (ecRound ec, votes).

(** [TxPreCheck]: the largest transaction data the mempool accepts. *)
Definition TxPreCheck_limit (s : State) : outcome Z :=
  let maxBytes := MaxBytes (pBlock (stConsensusParams s)) in
  MaxDataBytesNoEvidence (if maxBytes =? -1 then MaxBlockSizeBytes else maxBytes) (Size (stValidators s)).

End state.

End State.
