(* ===== verification/Chain.v ===== *)
(** * Chain: the life of a chain, block after block

    The state invariant and its preservation; what [validateBlock] accepts; that a proposed
    block is valid; and that a chain of accepted blocks is one the light client follows. *)

From S2P Require Import Prelude Merkle Crypto ValidatorSet Votes Commit Validation Header Light Params Wire Evidence Block State.
Import ValidatorSet.ValidatorSet Votes.Votes Commit.Commit Validation.Validation Header.Header Light.Light Params.Params Wire.Wire Evidence.Evidence Block.Block State.State.

Local Open Scope Z_scope.

Module Chain.

(** ** Validator sets of a state *)

Section sets.
Context `{PubKeyOps, !KeyCodec}.
Variable bls : bool.

Definition ktype (v : Validator) : string := match ValPubKey v with Some pk => pk_Type pk | None => ""%string end.
Definition valid_val (v : Validator) : Prop := val_ValidateBasic bls (Some v) = None.

Lemma valid_val_shape v w : shape v = shape w → valid_val v → valid_val w.
Proof. unfold shape, valid_val, val_ValidateBasic. intros [= -> -> ->]. done. Qed.

Lemma valid_val_key v : valid_val v → ∃ pk, ValPubKey v = Some pk ∧ Address v = pk_Address pk ∧ IsSupported bls (pk_Type pk) = true.
Proof.
  unfold valid_val, val_ValidateBasic. destruct (ValPubKey v) as [pk|]; [|done]. intros E. case_hyp E. zbool. exists pk.
  split_and!; [done|by apply bytes_equal_spec|done].
Qed.

Lemma ktype_nonempty v : valid_val v → ktype v ≠ ""%string.
Proof.
  intros (pk & Ek & _ & Hs)%valid_val_key. unfold ktype. rewrite Ek. intros E. rewrite E in Hs. by destruct bls.
Qed.

Lemma scan_typed l t :
  Forall valid_val l → t ≠ ""%string →
  ∃ b, same_type_scan l t = Done b ∧ (b = true ↔ ∀ v, v ∈ l → ktype v = t).
Proof.
  intros Hl Ht. induction Hl as [|v l Hv _ IH]; cbn [same_type_scan]; [exists true; set_solver|].
  destruct (valid_val_key v Hv) as (pk & Ek & _). rewrite Ek. rewrite (bool_decide_false (t = ""%string)) by done.
  assert (Et : ktype v = pk_Type pk) by (unfold ktype; by rewrite Ek).
  case_bool_decide as E.
  - destruct IH as (b & -> & Hb). exists b. split; [done|]. rewrite Hb. split; [|set_solver].
    intros Hf w [->|Hw]%elem_of_cons; [congruence|by apply Hf].
  - exists false. split; [done|]. split; [done|]. intros Hf. specialize (Hf v). set_solver.
Qed.

(** The flag says whether all keys have one type, so it does not depend on the order. *)
Lemma scan_spec l :
  Forall valid_val l →
  ∃ b, same_type_scan l "" = Done b ∧ (b = true ↔ ∀ v w, v ∈ l → w ∈ l → ktype v = ktype w).
Proof.
  intros Hl. destruct Hl as [|v l Hv Hl]; cbn [same_type_scan]; [exists true; set_solver|].
  destruct (valid_val_key v Hv) as (pk & Ek & _). rewrite Ek. rewrite (bool_decide_true (""%string = ""%string)) by done.
  assert (Et : ktype v = pk_Type pk) by (unfold ktype; by rewrite Ek). rewrite bool_decide_true by done.
  destruct (scan_typed l (pk_Type pk) Hl) as (b & -> & Hb); [rewrite <-Et; by apply ktype_nonempty|].
  exists b. split; [done|]. rewrite Hb. split.
  - intros Hf a w Ha Hw. assert (∀ u, u ∈ v :: l → ktype u = pk_Type pk) as Hu by (intros u [->|]%elem_of_cons; auto). by rewrite !Hu.
  - intros Hf w Hw. rewrite <-Et. apply Hf; [by right|by left].
Qed.

Lemma scan_shape l l' b :
  Forall valid_val l → shape <$> l ≡ₚ shape <$> l' → same_type_scan l "" = Done b → same_type_scan l' "" = Done b.
Proof.
  intros Hl Hp E.
  assert (Hto : ∀ v, v ∈ l' → ∃ w, w ∈ l ∧ shape v = shape w).
  { intros v Hv. apply (list_elem_of_fmap_2 shape) in Hv. rewrite <-Hp in Hv. apply list_elem_of_fmap in Hv as (w & ? & ?). by exists w. }
  assert (Hfrom : ∀ v, v ∈ l → ∃ w, w ∈ l' ∧ shape v = shape w).
  { intros v Hv. apply (list_elem_of_fmap_2 shape) in Hv. rewrite Hp in Hv. apply list_elem_of_fmap in Hv as (w & ? & ?). by exists w. }
  assert (Hty : ∀ v w, shape v = shape w → ktype v = ktype w) by (unfold shape, ktype; by intros v w [= _ -> _]).
  assert (Hl' : Forall valid_val l').
  { apply Forall_forall. intros v (w & Hw & Es)%Hto. rewrite Forall_forall in Hl. by eapply valid_val_shape, Hl. }
  destruct (scan_spec l Hl) as (b1 & E1 & Hb1), (scan_spec l' Hl') as (b2 & E2 & Hb2).
  rewrite E in E1. injection E1 as <-. rewrite E2. f_equal. apply eq_true_iff_eq. rewrite Hb1, Hb2. split; intros Hf v w Hv Hw.
  - destruct (Hfrom v Hv) as (v' & ? & ->%Hty), (Hfrom w Hw) as (w' & ? & ->%Hty). by apply Hf.
  - destruct (Hto v Hv) as (v' & ? & ->%Hty), (Hto w Hw) as (w' & ? & ->%Hty). by apply Hf.
Qed.

(** A set the state may hold, before and after its proposer is chosen. *)
Definition pre_ok (vals : ValidatorSet) : Prop :=
  wf vals ∧ Validators vals ≠ [] ∧ Forall valid_val (Validators vals) ∧
  same_type_scan (Validators vals) "" = Done (allKeysHaveSameType vals).
Definition set_ok (vals : ValidatorSet) : Prop :=
  pre_ok vals ∧ totalVotingPower vals = zsum VotingPower (Validators vals) ∧
  ∃ p, Proposer vals = Some p ∧ p ∈ Validators vals.

Lemma set_ok_known vals : set_ok vals → proposer_known vals.
Proof. intros (_ & _ & p & Ep & Hp). by eapply proposer_known_in. Qed.

Lemma set_ok_valid vals : set_ok vals → vals_ValidateBasic bls (Some vals) = None.
Proof.
  intros ((_ & Hne & Hv & _) & _ & p & Ep & Hp). unfold vals_ValidateBasic.
  destruct (Z.eqb_spec (zlen (Validators vals)) 0) as [E|_]; [destruct (Validators vals); [done|unfold zlen in E; simpl in E; lia]|].
  assert (first_error (λ v, val_ValidateBasic bls (Some v)) (Validators vals) = None) as -> by (by apply first_error_Forall).
  rewrite Ep. assert (val_ValidateBasic bls (Some p) = None) as -> by (rewrite Forall_forall in Hv; by apply Hv).
  assert (existsb (λ v, bytes_equal (Address v) (Address p)) (Validators vals) = true) as ->; [|done].
  apply existsb_exists. exists p. split; [by apply list_elem_of_In|by apply bytes_equal_spec].
Qed.

Lemma set_ok_coherent vals : set_ok vals → coherent vals.
Proof.
  intros ((Hwf & Hne & _ & Ht) & Htot & _). split; [done|]. rewrite Htot. destruct Hwf as (Hwf & _). 
  pose proof (updateTotal_spec vals Hwf) as E. unfold updateTotalVotingPower in E. destruct (sum_power _ 0); [|done]. injection E as ->. done.
Qed.

Lemma Increment_ok vals times :
  pre_ok vals → 0 < times →
  ∃ vals', IncrementProposerPriority vals times = Done vals' ∧ set_ok vals' ∧ shape <$> Validators vals' = shape <$> Validators vals.
Proof.
  intros (Hwf & Hne & Hv & Ht) Hpos.
  destruct (IncrementProposerPriority_post vals times Hwf Hne Hpos) as (vals' & p & E & Hwf' & Hs & Ep & Hp & Htot & Hty).
  assert (Hv' : Forall valid_val (Validators vals')).
  { apply Forall_forall. intros v Hin. apply (list_elem_of_fmap_2 shape) in Hin. rewrite Hs in Hin.
    apply list_elem_of_fmap in Hin as (w & Ew & Hw). rewrite Forall_forall in Hv. by eapply valid_val_shape, Hv. }
  exists vals'. split_and!; [done| |done]. split; [|split; [done|by exists p]]. split_and!; [done| |done|].
  - intros E'. rewrite E' in Hs. by destruct (Validators vals).
  - rewrite Hty. apply (scan_shape (Validators vals)); [done|by rewrite Hs|done].
Qed.

Lemma Update_ok vals changes vals' :
  wf vals → Forall valid_val (Validators vals) → Forall valid_val changes → changes ≠ [] →
  UpdateWithChangeSet vals changes = Done (vals', None) → pre_ok vals'.
Proof.
  intros Hwf Hv Hc Hne E.
  assert (Hk : Forall (λ c, is_Some (ValPubKey c)) changes).
  { eapply Forall_impl; [exact Hc|]. intros c (pk & -> & _)%valid_val_key. by exists pk. }
  destruct (updateWithChangeSet_post vals changes true Hwf Hk) as (vals2 & err & E2 & Hwf2 & He).
  unfold UpdateWithChangeSet in E. rewrite E in E2. injection E2 as <- <-.
  destruct (He Hne) as (_ & _ & Hne' & Hfrom & l & Hl & Hs).
  assert (Hv' : Forall valid_val (Validators vals')).
  { apply Forall_forall. intros v (w & Ew & Hw)%Hfrom%list_elem_of_fmap. apply (valid_val_shape w); [done|].
    rewrite Forall_forall in Hv, Hc. apply elem_of_app in Hw as [Hw|Hw]; auto. }
  split_and!; [done..|]. apply (scan_shape l); [|done|done]. apply Forall_forall. intros v Hin.
  apply (list_elem_of_fmap_2 shape) in Hin. rewrite Hl in Hin. apply list_elem_of_fmap in Hin as (w & Ew & Hw).
  rewrite Forall_forall in Hv'. by eapply valid_val_shape, Hv'.
Qed.

Lemma PubKeyFrom_type `{!KeyCodecLaws} t bz pk :
  PubKeyFromTypeAndBytes bls t bz = Ok pk → IsSupported bls (pk_Type pk) = true.
Proof.
  assert (Hs : ∀ n, (if negb (zlen bz =? n) then Err "invalid key length"%string
    else match make_key t bz with Some k => Ok k | None => Err "invalid key"%string end) = Ok pk → pk_Type pk = t).
  { intros n E. destruct (negb _); [done|]. destruct (make_key t bz) eqn:Em; [|done]. injection E as ->. by apply key_type in Em. }
  unfold PubKeyFromTypeAndBytes, IsSupported. intros E.
  destruct (bool_decide (t = "ed25519"%string)) eqn:E1; [by rewrite (Hs _ E), E1|].
  destruct (bool_decide (t = "secp256k1"%string)) eqn:E2; [by rewrite (Hs _ E), E1, E2|].
  destruct (bool_decide (t = "bls12_381"%string)) eqn:E3; [|done]. destruct bls; [|done]. by rewrite (Hs _ E), E1, E2, E3.
Qed.

Lemma pb2tm_valid `{!KeyCodecLaws} us l :
  Forall (λ u, 0 ≤ vuPower u) us → pb2tm_ValidatorUpdates bls us = Ok l → Forall valid_val l ∧ length l = length us.
Proof.
  intros Hp. revert l. induction Hp as [|u us Hu _ IH]; intros l E; cbn [pb2tm_ValidatorUpdates] in E; [by injection E as <-|].
  destruct (PubKeyFromTypeAndBytes bls _ _) as [pk|] eqn:Ek; [|done]. destruct (pb2tm_ValidatorUpdates bls us) as [l'|]; [|done].
  injection E as <-. destruct (IH l' eq_refl) as [Hl Hlen]. split; [|cbn; by rewrite Hlen]. constructor; [|done].
  unfold valid_val, val_ValidateBasic, NewValidator. cbn [ValPubKey VotingPower Address].
  destruct (Z.ltb_spec (vuPower u) 0); [lia|]. rewrite (proj2 (bytes_equal_spec _ _) eq_refl). cbn [negb].
  by rewrite (PubKeyFrom_type _ _ _ Ek).
Qed.

End sets.

(** ** The invariant of a state *)

Section invariant.
Context `{PubKeyOps, SignCodec, !BatchOps, !HeaderCodec, Merkle.HashOps, !KeyCodec, !BlockCodec, !ResultCodec}.
Variable bls : bool.

Definition next_height (s : State) : Z := if stLastBlockHeight s =? 0 then stInitialHeight s else stLastBlockHeight s + 1.

Definition empty_set : ValidatorSet := mkValidatorSet [] None 0 true.

Record state_ok (s : State) : Prop := {
  ok_version : stVersionBlock s = BlockProtocol;
  ok_chain : Z.of_nat (String.length (stChainID s)) ≤ MaxChainIDLen;
  ok_initial : 0 < stInitialHeight s;
  ok_height : stLastBlockHeight s = 0 ∨ stInitialHeight s ≤ stLastBlockHeight s;
  ok_block_id : block_ValidateBasic (stLastBlockID s) = true;
  ok_validators : set_ok bls (stValidators s);
  ok_next_validators : set_ok bls (stNextValidators s);
  ok_last_validators : if stLastBlockHeight s =? 0 then stLastValidators s = empty_set else set_ok bls (stLastValidators s);
  ok_validators_changed : stInitialHeight s ≤ stLastHeightValidatorsChanged s ≤ next_height s + 1;
  ok_params : params_ValidateBasic bls (stConsensusParams s) = None;
  ok_params_changed : stInitialHeight s ≤ stLastHeightConsensusParamsChanged s ≤ next_height s;
  ok_results : ValidateHash (stLastResultsHash s) = true
}.

Lemma next_height_pos s : state_ok s → 0 < next_height s ∧ stInitialHeight s ≤ next_height s.
Proof. intros Hs. pose proof (ok_initial s Hs). pose proof (ok_height s Hs). unfold next_height. destruct (Z.eqb_spec (stLastBlockHeight s) 0); lia. Qed.

Lemma set_app_hash_ok s a : state_ok s → state_ok (set_app_hash s a).
Proof. by intros []. Qed.

(** ** What [validateBlock] accepts *)

Lemma orElse_None m k : orElse m k = Done None ↔ m = Done None ∧ k = Done None.
Proof. unfold orElse. destruct m as [[e|]|]; cbn [mbind outcome_bind]; naive_solver. Qed.

Definition fits_state (s : State) (h : Header) : Prop :=
  VersionApp h = stVersionApp s ∧ VersionBlock h = stVersionBlock s ∧ hChainID h = stChainID s ∧
  hHeight h = next_height s ∧ LastBlockID h = stLastBlockID s ∧ AppHash h = stAppHash s ∧
  ConsensusHash h = params_Hash (stConsensusParams s) ∧ LastResultsHash h = stLastResultsHash s ∧
  vals_Hash (stValidators s) = Done (ValidatorsHash h) ∧ vals_Hash (stNextValidators s) = Done (NextValidatorsHash h).

(** The time of the first block is not before genesis; later times grow, and without
    proposer-based timestamps they are the median of the last commit. *)
Definition timely (s : State) (h : Header) (c : Commit) : Prop :=
  if hHeight h =? stInitialHeight s then stLastBlockTime s ≤ hTime h
  else stLastBlockTime s < hTime h ∧
       (PbtsEnabled (pFeature (stConsensusParams s)) (hHeight h) = Done false → hTime h = MedianTime c (stLastValidators s)).

Definition commits_last (s : State) (h : Header) (c : Commit) : Prop :=
  if hHeight h =? stInitialHeight s then Signatures c = []
  else VerifyCommit (stChainID s) (Some (stLastValidators s)) (stLastBlockID s) (hHeight h - 1) (Some c) = Done None.

Definition acceptable (s : State) (b : Block) : Prop :=
  ∃ c size, bLastCommit b = Some c ∧ Block_ValidateBasic bls (Some b) = Done None ∧ fits_state s (bHeader b) ∧
    commits_last s (bHeader b) c ∧ (∃ v, v ∈ Validators (stValidators s) ∧ Address v = ProposerAddress (bHeader b)) ∧
    timely s (bHeader b) c ∧ evidence_ByteSize (bEvidence b) = Done size ∧ size ≤ evMaxBytes (pEvidence (stConsensusParams s)).

Lemma validate_header_spec s h :
  state_ok s → next_height s ≤ max_int64 → validate_header s h = Done None ↔ fits_state s h.
Proof.
  intros Hs Hmax. pose proof (next_height_pos s Hs). pose proof (ok_height s Hs). pose proof (ok_initial s Hs). unfold validate_header, fits_state.
  assert (Hh : ((stLastBlockHeight s =? 0) && negb (hHeight h =? stInitialHeight s) = false ∧
                (0 <? stLastBlockHeight s) && negb (hHeight h =? wrap64 (stLastBlockHeight s + 1)) = false) ↔ hHeight h = next_height s).
  { unfold next_height in *. destruct (Z.eqb_spec (stLastBlockHeight s) 0) as [->|]; cbn [andb Z.ltb].
    - rewrite negb_false_iff, Z.eqb_eq. naive_solver.
    - destruct (Z.ltb_spec 0 (stLastBlockHeight s)); [|lia]. cbn [andb]. rewrite wrap64_id by (unfold_ints; lia).
      rewrite negb_false_iff, Z.eqb_eq. naive_solver. }
  split.
  - intros E. destruct (_ || _) eqn:E1; [done|]. case_bool_decide; [|done]. cbn [negb] in E.
    destruct (_ && _) eqn:E2 in E; [done|]. destruct (_ && _) eqn:E3 in E; [done|].
    destruct (Equals _ _) eqn:E4; [|done]. destruct (bytes_equal (AppHash h) _) eqn:E5; [|done].
    destruct (bytes_equal (ConsensusHash h) _) eqn:E6; [|done]. destruct (bytes_equal (LastResultsHash h) _) eqn:E7; [|done]. cbn [negb] in E.
    apply outcome_bind_Done in E as (vh & Ev & E). destruct (bytes_equal (ValidatorsHash h) _) eqn:E8; [|done].
    apply outcome_bind_Done in E as (nvh & Env & E). destruct (bytes_equal (NextValidatorsHash h) _) eqn:E9; [|done].
    zbool. apply bytes_equal_spec in E5, E6, E7, E8, E9. apply Equals_spec in E4. subst. split_and!; try done. by apply Hh.
  - intros (-> & -> & -> & Eh & -> & -> & -> & -> & Ev & Env). rewrite !Z.eqb_refl, bool_decide_true by done. cbn [negb orb].
    apply Hh in Eh as [-> ->]. rewrite (proj2 (Equals_spec _ _) eq_refl), !bytes_equal_refl, Ev. cbn [negb mbind outcome_bind].
    rewrite bytes_equal_refl, Env. cbn [negb mbind outcome_bind]. by rewrite bytes_equal_refl.
Qed.

Lemma validate_time_spec s h c :
  state_ok s → hHeight h = next_height s → validate_time s h c = Done None ↔ timely s h c.
Proof.
  intros Hs Eh. pose proof (next_height_pos s Hs). unfold validate_time, timely, PbtsEnabled, featureEnabled.
  destruct (Z.ltb_spec (stInitialHeight s) (hHeight h)) as [Hlt|Hge].
  - destruct (Z.eqb_spec (hHeight h) (stInitialHeight s)); [lia|]. destruct (Z.ltb_spec (hHeight h) 1); [lia|].
    destruct (Z.ltb_spec (stLastBlockTime s) (hTime h)); cbn [negb]; [|split; [done|lia]].
    destruct (Z.leb_spec (PbtsEnableHeight (pFeature (stConsensusParams s))) 0); cbn [mbind outcome_bind negb andb];
      [|destruct (Z.leb_spec (PbtsEnableHeight (pFeature (stConsensusParams s))) (hHeight h)); cbn [negb andb]];
      try (destruct (Z.eqb_spec (hTime h) (MedianTime c (stLastValidators s))); cbn [negb]); naive_solver.
  - destruct (Z.eqb_spec (hHeight h) (stInitialHeight s)); [|lia]. destruct (Z.ltb_spec (hTime h) (stLastBlockTime s)); naive_solver lia.
Qed.

Lemma validate_commit_spec s h c :
  state_ok s → hHeight h = next_height s → next_height s ≤ max_int64 → validate_last_commit s h c = Done None ↔ commits_last s h c.
Proof.
  intros Hs Eh Hmax. pose proof (next_height_pos s Hs). unfold validate_last_commit, commits_last.
  destruct (Z.eqb_spec (hHeight h) (stInitialHeight s)).
  - destruct (Signatures c) as [|x l]; [done|]. destruct (Z.eqb_spec (zlen (x :: l)) 0) as [E|]; [unfold zlen in E; cbn in E; lia|done].
  - rewrite wrap64_id by (unfold_ints; lia). split.
    + intros (e & E & He)%outcome_bind_Done. by destruct e.
    + by intros ->.
Qed.

Lemma validateBlock_unfold s b :
  validateBlock bls s (Some b) =
  orElse (Block_ValidateBasic bls (Some b))
  (orElse (validate_header s (bHeader b))
   (c ← deref (bLastCommit b);
    orElse (validate_last_commit s (bHeader b) c)
    (if negb (zlen (ProposerAddress (bHeader b)) =? AddressSize) then Done (Some "wrong ProposerAddress size"%string)
     else if negb (HasAddress (stValidators s) (ProposerAddress (bHeader b)))
     then Done (Some "block.Header.ProposerAddress is not a validator"%string)
     else
       orElse (validate_time s (bHeader b) c)
       (got ← evidence_ByteSize (bEvidence b);
        Done (if evMaxBytes (pEvidence (stConsensusParams s)) <? got then Some "evidence exceeds limit"%string else None))))).
Proof. unfold validateBlock, validateBlock_at, Canonical. cbn [tInstant]. by rewrite bool_decide_true. Qed.

Lemma validateBlock_spec s b :
  state_ok s → next_height s ≤ max_int64 → validateBlock bls s (Some b) = Done None ↔ acceptable s b.
Proof.
  intros Hs Hmax. rewrite validateBlock_unfold. unfold acceptable. rewrite orElse_None, orElse_None, validate_header_spec by done. split.
  - intros (Hv & Hh & (c & Ec & E)%outcome_bind_Done). unfold deref in Ec. destruct (bLastCommit b) as [c'|]; [|done]. injection Ec as ->.
    assert (Eh : hHeight (bHeader b) = next_height s) by apply Hh.
    apply orElse_None in E as [Hc%validate_commit_spec E]; [|done..].
    destruct (negb _); [done|]. unfold HasAddress in E. destruct (existsb _ _) eqn:Ep; [|done]. cbn [negb] in E.
    apply orElse_None in E as [Ht%validate_time_spec (size & Es & E)%outcome_bind_Done]; [|done..].
    destruct (Z.ltb_spec (evMaxBytes (pEvidence (stConsensusParams s))) size); [done|].
    apply existsb_exists in Ep as (v & Hv'%list_elem_of_In & Ea%bytes_equal_spec). exists c, size. split_and!; try done. by exists v.
  - intros (c & size & Ec & Hv & Hh & Hc & (v & Hv' & Ea) & Ht & Es & Hsize). split_and!; [done|done|]. rewrite Ec. cbn [deref mbind outcome_bind].
    assert (Eh : hHeight (bHeader b) = next_height s) by apply Hh.
    apply orElse_None. split; [by apply validate_commit_spec|].
    assert (Hl : (zlen (ProposerAddress (bHeader b)) =? AddressSize) = true).
    { unfold Block_ValidateBasic in Hv. destruct (header_ValidateBasic (bHeader b)) eqn:Eb; [done|]. unfold header_ValidateBasic in Eb.
      case_hyp Eb. zbool. by apply Z.eqb_eq. }
    rewrite Hl. cbn [negb]. unfold HasAddress.
    assert (existsb (λ v, bytes_equal (Address v) (ProposerAddress (bHeader b))) (Validators (stValidators s)) = true) as ->.
    { apply existsb_exists. exists v. split; [by apply list_elem_of_In|by apply bytes_equal_spec]. }
    cbn [negb]. apply orElse_None. split; [by apply validate_time_spec|]. rewrite Es. cbn [mbind outcome_bind].
    by destruct (Z.ltb_spec (evMaxBytes (pEvidence (stConsensusParams s))) size); [lia|].
Qed.

(** C7: a block is valid for a state exactly when it is well formed, its header continues the
    state in every field, its last commit is that of the state's last block, its proposer is a
    validator, its time is canonical (in UTC, without a reading of the monotonic clock) and advances
    by the rules, and its evidence fits. *)
Theorem validateBlock_iff reading location s b :
  state_ok s → next_height s ≤ max_int64 →
  validateBlock_at bls reading location s (Some b) = Done None ↔
  reading = None ∧ location = None ∧ acceptable s b.
Proof.
  intros Hs Hmax. destruct (decide (reading = None ∧ location = None)) as [[-> ->]|Hn].
  - pose proof (validateBlock_spec s b Hs Hmax) as Hiff. unfold validateBlock in Hiff. rewrite Hiff. naive_solver.
  - split; [|naive_solver]. unfold validateBlock_at, Canonical. cbn [tInstant].
    rewrite bool_decide_false by naive_solver. rewrite !orElse_None. intros (_ & _ & (c & _ & E)%outcome_bind_Done).
    apply orElse_None in E as [_ E]. cbn [negb] in E.
    destruct (zlen _ =? _); [|done]. by destruct (HasAddress _ _).
Qed.

(** ** The next state *)

Section step.
Context `{!KeyCodecLaws, !ResultCodecLaws, !Merkle.HashLaws}.

Lemma TxResultsHash_total l : Forall is_Some l → ∃ x, TxResultsHash l = Done x ∧ ValidateHash x = true.
Proof.
  intros Hl. assert (∃ bzs, results_toByteSlices l = Done bzs) as [bzs E].
  { induction Hl as [|r l [x ->] _ [bzs IH]]; [by exists []|]. cbn [results_toByteSlices deref mbind outcome_bind].
    destruct (result_marshals x) as [bz ->]. rewrite IH. by exists (bz :: bzs). }
  unfold TxResultsHash. rewrite E. eexists. split; [done|]. unfold ValidateHash, zlen. by rewrite Merkle.HashFromByteSlices_length.
Qed.

Lemma updates_nonneg us params : validateValidatorUpdates us params = None → Forall (λ u, 0 ≤ vuPower u) us.
Proof.
  induction us as [|u us IH]; cbn [validateValidatorUpdates]; [constructor|]. destruct (Z.ltb_spec (vuPower u) 0); [done|].
  destruct (negb _); [done|]. constructor; auto.
Qed.

Lemma update_params_ok s h u r :
  state_ok s → hHeight h = next_height s → next_height s + 1 ≤ max_int64 → update_params bls s h u = Ok r →
  params_ValidateBasic bls r.1.1 = None ∧ stInitialHeight s ≤ r.1.2 ≤ next_height s + 1 ∧
  (r.1.2 = next_height s + 1 ∨ r.1.2 = stLastHeightConsensusParamsChanged s ∧ r.1.1 = stConsensusParams s) ∧
  same_until (hHeight h) (pFeature (stConsensusParams s)) (pFeature r.1.1).
Proof.
  intros Hs Eh Hmax E. pose proof (next_height_pos s Hs). pose proof (ok_params_changed s Hs). unfold update_params in E. destruct u as [u|].
  - destruct (params_ValidateBasic bls _) eqn:Ev; [done|]. destruct (ValidateUpdate _ _ _) eqn:Eu; [done|]. injection E as <-.
    cbn [fst snd]. rewrite wrap64_id by (unfold_ints; lia). split; [done|]. split; [lia|]. split; [left; lia|]. exact (ValidateUpdate_keeps _ _ _ Eu).
  - injection E as <-. cbn [fst snd]. split; [by apply ok_params|]. split; [lia|]. split; [by right|]. reflexivity.
Qed.

(** What the next state takes over from the state and the block. *)
Definition advances (s : State) (blockID : BlockID) (h : Header) (s' : State) : Prop :=
  stLastBlockHeight s' = next_height s ∧ next_height s' = next_height s + 1 ∧
  stLastBlockID s' = blockID ∧ stLastBlockTime s' = hTime h ∧ stChainID s' = stChainID s ∧ stInitialHeight s' = stInitialHeight s ∧
  stLastValidators s' = stValidators s ∧ stValidators s' = stNextValidators s ∧
  (stLastHeightValidatorsChanged s' = next_height s' + 1 ∨
   stLastHeightValidatorsChanged s' = stLastHeightValidatorsChanged s ∧
   shape <$> Validators (stNextValidators s') = shape <$> Validators (stNextValidators s)) ∧
  (stLastHeightConsensusParamsChanged s' = next_height s' ∨
   stLastHeightConsensusParamsChanged s' = stLastHeightConsensusParamsChanged s ∧ stConsensusParams s' = stConsensusParams s) ∧
  same_until (hHeight h) (pFeature (stConsensusParams s)) (pFeature (stConsensusParams s')).

Lemma updateState_ok s blockID h resp us :
  state_ok s → hHeight h = next_height s → next_height s + 2 ≤ max_int64 → block_ValidateBasic blockID = true →
  Forall (valid_val bls) us → Forall is_Some (frTxResults resp) →
  ∃ r, updateState bls s blockID h resp us = Done r ∧
    match r with Err _ => True | Ok s' => state_ok s' ∧ advances s blockID h s' end.
Proof.
  intros Hs Eh Hmax Hid Hus Hres. unfold updateState. pose proof (next_height_pos s Hs). pose proof (ok_validators_changed s Hs) as Hch.
  destruct (ok_next_validators s Hs) as (Hpre & _). pose proof Hpre as (Hwf & _ & Hv & _).
  set (upd := if 0 <? zlen us then _ else _).
  assert (Hupd : ∃ r, upd = Done r ∧ match r with
    | Err _ => True
    | Ok (vals, ch) => pre_ok bls vals ∧ stInitialHeight s ≤ ch ≤ next_height s + 2 ∧
        (ch = next_height s + 2 ∨ ch = stLastHeightValidatorsChanged s ∧ vals = stNextValidators s) end).
  { unfold upd. destruct us as [|u us]; [exists (Ok (stNextValidators s, stLastHeightValidatorsChanged s)); split; [done|]; split_and!; [done|lia|lia|by right]|].
    replace (0 <? zlen (u :: us)) with true by (symmetry; apply Z.ltb_lt; unfold zlen; cbn; lia).
    destruct (updateWithChangeSet_post (stNextValidators s) (u :: us) true Hwf) as (vals & err & E & _).
    { eapply Forall_impl; [exact Hus|]. intros c (pk & -> & _)%valid_val_key. by exists pk. }
    unfold UpdateWithChangeSet. rewrite E. cbn [mbind outcome_bind]. destruct err as [err|]; eexists; (split; [reflexivity|]); [done|].
    split; [eapply (Update_ok bls (stNextValidators s) (u :: us)); [done|done|done|done|exact E]|]. rewrite Eh, (wrap64_id (next_height s + 1)), wrap64_id by (unfold_ints; lia). cbn [fst snd]. split; [lia|left; lia]. }
  destruct Hupd as (r & -> & Hr). destruct r as [[vals ch]|e]; cbn [dbind mbind outcome_bind]; [|by exists (Err e)].
  destruct Hr as (Hp & Hc & Hwhich). destruct (Increment_ok bls vals 1 Hp) as (vals' & -> & Hok & Hsh); [lia|]. cbn [mbind outcome_bind].
  destruct (update_params bls s h _) as [[[params pch] app]|e] eqn:Eu; [|by exists (Err e)].
  apply update_params_ok in Eu as (Hpar & Hpch & Hpw & Hsame); [|done|done|lia]. cbn [fst snd] in *.
  destruct (TxResultsHash_total (frTxResults resp) Hres) as (x & -> & Hx). cbn [mbind outcome_bind]. eexists. split; [done|]. cbn [value].
  assert (Hnz : (hHeight h =? 0) = false) by (apply Z.eqb_neq; lia).
  split; [|do 8 (split; [first [done|unfold next_height at 1; cbn; rewrite Hnz; lia]|]);
    unfold next_height at 1 2; cbn [stLastBlockHeight stLastHeightValidatorsChanged stLastHeightConsensusParamsChanged stNextValidators stConsensusParams];
    rewrite Hnz, Eh; split; [destruct Hwhich as [->|[-> ->]]; [left; lia|by right]|split; [destruct Hpw as [->|]; [left; lia|by right]|rewrite <-Eh; exact Hsame]]].
  destruct Hs. split; cbn [stVersionBlock stChainID stInitialHeight stLastBlockHeight stLastBlockID stValidators stNextValidators stLastValidators
    stLastHeightValidatorsChanged stConsensusParams stLastHeightConsensusParamsChanged stLastResultsHash]; try done.
  - right. lia.
  - by rewrite Hnz.
  - unfold next_height at 1. cbn [stLastBlockHeight]. rewrite Hnz. lia.
  - unfold next_height at 1. cbn [stLastBlockHeight]. rewrite Hnz. lia.
Qed.

Lemma stripped resp : Forall is_Some (frTxResults (strip_results resp)).
Proof. apply Forall_forall. by intros r [? _]%list_elem_of_filter. Qed.

(** One block, whatever the application answers. *)
Lemma apply_response_ok s blockID b resp :
  state_ok s → next_height s + 2 ≤ max_int64 → block_ValidateBasic blockID = true → validateBlock bls s (Some b) = Done None →
  ∃ r, apply_response bls s blockID b resp = Done r ∧
    match r with Err _ => True | Ok s' => state_ok s' ∧ advances s blockID (bHeader b) s' end.
Proof.
  intros Hs Hmax Hid Hv. assert (Eh : hHeight (bHeader b) = next_height s).
  { rewrite validateBlock_unfold in Hv. rewrite orElse_None, orElse_None, validate_header_spec in Hv by (done || lia). apply Hv. }
  unfold apply_response. destruct (negb _); [by eexists|]. destruct (validateValidatorUpdates _ _) eqn:Eu; [by eexists|].
  destruct (pb2tm_ValidatorUpdates bls _) as [us|e] eqn:Ep; [|by eexists].
  apply updateState_ok; try done; [apply (pb2tm_valid bls _ us (updates_nonneg _ _ Eu) Ep)|apply stripped].
Qed.

(** ** Proposals *)

Lemma merkle_hash_valid l : ValidateHash (Merkle.HashFromByteSlices l) = true.
Proof. unfold ValidateHash, zlen. by rewrite Merkle.HashFromByteSlices_length. Qed.

Lemma commit_Hash_valid c x : commit_Hash (Some c) = Done x → ValidateHash x = true.
Proof. unfold commit_Hash. intros (bs & _ & [= <-])%outcome_bind_Done. apply merkle_hash_valid. Qed.
Lemma evidence_Hash_valid evs x : evidenceList_Hash evs = Done x → ValidateHash x = true.
Proof. unfold evidenceList_Hash. intros (bs & _ & [= <-])%outcome_bind_Done. apply merkle_hash_valid. Qed.
Lemma vals_Hash_valid vals x : vals_Hash vals = Done x → ValidateHash x = true.
Proof. unfold vals_Hash. intros (bs & _ & [= <-])%outcome_bind_Done. apply merkle_hash_valid. Qed.

(** The header of a block that was made from a state. *)
Lemma MakeBlock_inv now s height txs c evs proposer b :
  MakeBlock now s height txs c evs proposer = Done b →
  ∃ ch eh vh nvh pbts, commit_Hash (Some c) = Done ch ∧ evidenceList_Hash evs = Done eh ∧
    vals_Hash (stValidators s) = Done vh ∧ vals_Hash (stNextValidators s) = Done nvh ∧
    PbtsEnabled (pFeature (stConsensusParams s)) height = Done pbts ∧
    b = mkBlock (mkHeader (stVersionBlock s) (stVersionApp s) (stChainID s) height
                   (if pbts then now else if height =? stInitialHeight s then stLastBlockTime s else MedianTime c (stLastValidators s))
                   (stLastBlockID s) ch (data_Hash txs) vh nvh (params_Hash (stConsensusParams s)) (stAppHash s) (stLastResultsHash s) eh proposer)
          txs evs (Some c).
Proof.
  unfold MakeBlock, types_MakeBlock, fillHeader, nil_header. cbn [bHeader LastCommitHash EvidenceHash DataHash bLastCommit bEvidence bTxs].
  rewrite !bool_decide_true by done. intros (b0 & E0 & E)%outcome_bind_Done.
  apply outcome_bind_Done in E0 as (ch & Ech & E0). apply outcome_bind_Done in E0 as (eh & Eeh & [= <-]).
  apply outcome_bind_Done in E as (pbts & Ep & E). apply outcome_bind_Done in E as (vh & Evh & E). apply outcome_bind_Done in E as (nvh & Envh & [= <-]).
  by exists ch, eh, vh, nvh, pbts.
Qed.

(** the block a proposer makes from its state, the commit of the last block and valid
    evidence is valid for that state, provided the clock, or the median of the commit, is after
    the last block. *)
Theorem proposed_block_is_valid now s txs c evs proposer v size b :
  state_ok s → next_height s ≤ max_int64 →
  MakeBlock now s (next_height s) txs c evs proposer = Done b →
  commit_ValidateBasic c = None → commits_last s (bHeader b) c →
  evidence_ValidateBasic bls evs = Done None → evidence_ByteSize evs = Done size → size ≤ evMaxBytes (pEvidence (stConsensusParams s)) →
  v ∈ Validators (stValidators s) → Address v = proposer → zlen proposer = AddressSize →
  stLastBlockTime s < now → (next_height s ≠ stInitialHeight s → stLastBlockTime s < MedianTime c (stLastValidators s)) →
  validateBlock bls s (Some b) = Done None.
Proof.
  intros Hs Hmax E Hc Hlast Hev Es Hsize Hv Ea Hl Hnow Hmed. pose proof (next_height_pos s Hs) as Hpos.
  apply MakeBlock_inv in E as (ch & eh & vh & nvh & pbts & Ech & Eeh & Evh & Envh & Ep & ->).
  rewrite validateBlock_unfold, orElse_None, orElse_None, validate_header_spec by done. cbn [bHeader bLastCommit bEvidence deref] in *.
  split_and!.
  - unfold Block_ValidateBasic. cbn [bHeader bLastCommit bEvidence bTxs]. unfold header_ValidateBasic.
    cbn [VersionBlock hChainID hHeight LastBlockID LastCommitHash DataHash EvidenceHash ProposerAddress ValidatorsHash NextValidatorsHash ConsensusHash LastResultsHash].
    rewrite (ok_version s Hs), Z.eqb_refl. cbn [negb]. destruct (Z.ltb_spec MaxChainIDLen (Z.of_nat (String.length (stChainID s)))); [pose proof (ok_chain s Hs); lia|].
    destruct (Z.ltb_spec (next_height s) 0); [lia|]. destruct (Z.eqb_spec (next_height s) 0); [lia|].
    rewrite (ok_block_id s Hs), (commit_Hash_valid _ _ Ech), (evidence_Hash_valid _ _ Eeh), (vals_Hash_valid _ _ Evh), (vals_Hash_valid _ _ Envh), (ok_results s Hs).
    assert (ValidateHash (data_Hash txs) = true) as -> by apply merkle_hash_valid.
    assert (ValidateHash (params_Hash (stConsensusParams s)) = true) as -> by (unfold params_Hash, ValidateHash, zlen; by rewrite Merkle.Sum_length).
    rewrite Hl, Z.eqb_refl, Hc, Ech. cbn [negb mbind outcome_bind]. rewrite !bytes_equal_refl, Hev, Eeh. cbn [negb mbind outcome_bind]. by rewrite bytes_equal_refl.
  - unfold fits_state. cbn. by split_and!.
  - cbn [mbind outcome_bind]. rewrite orElse_None, validate_commit_spec by done. split; [done|]. cbn [ProposerAddress]. rewrite Hl, Z.eqb_refl. cbn [negb].
    unfold HasAddress. replace (existsb _ _) with true.
    2:{ symmetry. apply existsb_exists. exists v. split; [by apply list_elem_of_In|by apply bytes_equal_spec]. }
    cbn [negb]. rewrite orElse_None, validate_time_spec by done. split.
    + unfold timely. cbn [hHeight hTime]. rewrite Ep. destruct (Z.eqb_spec (next_height s) (stInitialHeight s)); destruct pbts; [lia|lia|done|]. auto.
    + rewrite Es. cbn [mbind outcome_bind]. by destruct (Z.ltb_spec (evMaxBytes (pEvidence (stConsensusParams s))) size); [lia|].
Qed.

End step.

End invariant.

(** ** The chain and the light client *)

Section light.
Context `{PubKeyOps, SignCodec, !BatchOps, !BatchLaws, !HeaderCodec, Merkle.HashOps, !KeyCodec, !BlockCodec, !ResultCodec}.
Context `{!KeyCodecLaws, !ResultCodecLaws, !Merkle.HashLaws}.
Variable bls : bool.

(** A commit that passes the full check passes the light one. *)
Lemma VerifyCommit_light chainID vals blockID height c :
  wf vals → proposer_known vals → Validators vals ≠ [] → Forall (λ cs, cs_ValidateBasic cs = None) (Signatures c) →
  VerifyCommit chainID (Some vals) blockID height (Some c) = Done None →
  VerifyCommitLight chainID (Some vals) blockID height (Some c) = Done None.
Proof.
  intros Hwf Hknown Hne Hbasic (Hlen & Hh & Hb & Hv & Hp)%VerifyCommit_spec; [|done..].
  destruct (needed_two_thirds vals Hwf) as (Htvp & Hn0 & Hn). pose proof (positive_powers vals Hwf) as Hpos.
  unfold VerifyCommitLight, verifyCommitLightInternal.
  assert (verifyBasicValsAndCommit (Some vals) (Some c) height blockID = None) as -> by (by apply verifyBasic_None).
  rewrite Htvp. cbn [mbind outcome_bind fst snd]. set (needed := Z.quot _ 3) in *.
  apply either_accepts; [by apply wf_set_total|done|done|done|by apply basic_ok_all|]. unfold verifyCommitSingle. rewrite (single_ext _ _ vals) by done.
  apply (single_complete chainID vals c needed not_commit count_all false true 0 ∅ 0 (Signatures c) (Validators vals)); try done.
  - intros m cs val _ Hcs Hval Hi. split; [by eapply Forall_lookup_1 in Hbasic|]. apply Hv; [done..|].
    unfold not_commit, is_commit, is_absent in *. apply negb_false_iff, Z.eqb_eq in Hi. by rewrite Hi.
  - pose proof (total_in_int64 _ (proj1 Hwf)). unfold_ints. lia.
  - replace (commit_power (counts not_commit count_all) _ _) with (commit_power is_commit (Signatures c) (Validators vals)); [by apply Hn|].
    apply zsum_ext. intros [cs val] _. unfold counts, not_commit, count_all. cbn [fst snd]. by rewrite negb_involutive, andb_true_r.
Qed.

Lemma commit_sigs_valid c : commit_ValidateBasic c = None → 1 ≤ cHeight c → Forall (λ cs, cs_ValidateBasic cs = None) (Signatures c).
Proof.
  intros E Hh. unfold commit_ValidateBasic in E. destruct (Z.ltb_spec (cHeight c) 0); [lia|]. destruct (cRound c <? 0); [done|].
  destruct (Z.leb_spec 1 (cHeight c)); [|lia]. destruct (IsNil _); [done|]. destruct (_ =? 0); [done|]. by apply first_error_inv.
Qed.

(** Executing a block: it is valid, the application answered, and the next state is kept
    with the application's hash. *)
Definition executes (s : State) (b : Block) (blockID : BlockID) (s' : State) : Prop :=
  validateBlock bls s (Some b) = Done None ∧ block_ValidateBasic blockID = true ∧ next_height s + 2 ≤ max_int64 ∧
  ∃ resp s1, apply_response bls s blockID b resp = value s1 ∧ s' = set_app_hash s1 (frAppHash resp).

Lemma executes_ok s b blockID s' :
  state_ok bls s → executes s b blockID s' →
  state_ok bls s' ∧ advances s blockID (bHeader b) s' ∧ acceptable bls s b.
Proof.
  intros Hs (Hv & Hid & Hmax & resp & s1 & E & ->).
  assert (Ha : acceptable bls s b) by (apply validateBlock_spec in Hv; [done..|lia]).
  destruct Ha as (c & size & Ec & Hb & Hf & Hrest). assert (Eh : hHeight (bHeader b) = next_height s) by apply Hf.
  unfold apply_response in E. destruct (negb _); [done|]. destruct (validateValidatorUpdates _ _) eqn:Eu; [done|].
  destruct (pb2tm_ValidatorUpdates bls _) as [us|e] eqn:Ep; [|done].
  destruct (updateState_ok bls s blockID (bHeader b) (strip_results resp) us Hs Eh Hmax Hid) as (r & Er & Hr);
    [apply (pb2tm_valid bls _ us (updates_nonneg _ _ Eu) Ep)|apply stripped|].
  rewrite E in Er. injection Er as <-. destruct Hr as [Hok Hadv].
  split_and!; [by apply set_app_hash_ok|exact Hadv|by exists c, size].
Qed.

(** ** From genesis on *)

Lemma NewValidatorSet_ok l vals :
  l ≠ [] → Forall (λ v, ∃ pk power, v = NewValidator pk power ∧ IsSupported bls (pk_Type pk) = true) l →
  NewValidatorSet l = Done vals → set_ok bls vals.
Proof.
  intros Hne Hl E. unfold NewValidatorSet in E. apply outcome_bind_Done in E as ([v err] & Eu & E). destruct err; [done|].
  assert (Hpos : (0 <? zlen l) = true) by (apply Z.ltb_lt; destruct l; [done|unfold zlen; cbn; lia]). rewrite Hpos in E.
  assert (Hempty : wf empty_set) by (split_and!; [split_and!; [constructor|constructor|by vm_compute]|constructor|by left|by constructor]).
  assert (Hge : Forall (λ v, 0 ≤ VotingPower v) l).
  { unfold updateWithChangeSet in Eu. rewrite bool_decide_false in Eu by done. destruct (processChanges l) as [[ups dels]|] eqn:Epc; [|done].
    apply process_scan_spec in Epc as (Hp & _ & _ & _ & Hu & Hd); [|apply Sorted_merge_sort, _]. rewrite <-(sort_address_perm l), Hp.
    apply Forall_app. split; (eapply Forall_impl; [eassumption|]); cbn; lia. }
  assert (Hval : Forall (valid_val bls) l).
  { apply Forall_forall. intros x Hx. rewrite Forall_forall in Hl, Hge. destruct (Hl x Hx) as (pk & power & -> & Hs). specialize (Hge _ Hx).
    unfold valid_val, val_ValidateBasic, NewValidator in *. cbn [ValPubKey VotingPower Address] in *. destruct (Z.ltb_spec power 0); [lia|]. by rewrite bytes_equal_refl, Hs. }
  assert (Hpre : pre_ok bls v).
  { destruct (updateWithChangeSet_post empty_set l false Hempty) as (v' & err' & E' & Hwf' & He).
    { eapply Forall_impl; [exact Hl|]. intros x (pk & power & -> & _). by eexists. }
    unfold empty_set in E'. rewrite Eu in E'. injection E' as <- <-. destruct (He Hne) as (_ & _ & Hne' & Hfrom & k & Hk & Hscan). cbn [empty_set Validators] in Hfrom. rewrite app_nil_r in Hfrom.
    assert (Hv' : Forall (valid_val bls) (Validators v)).
    { apply Forall_forall. intros x (w & Ew & Hw)%Hfrom%list_elem_of_fmap. rewrite Forall_forall in Hval. by eapply valid_val_shape, Hval. }
    split_and!; [done..|]. apply (scan_shape bls k); [|done|done]. apply Forall_forall. intros x Hx. apply (list_elem_of_fmap_2 shape) in Hx. rewrite Hk in Hx.
    apply list_elem_of_fmap in Hx as (w & Ew & Hw). rewrite Forall_forall in Hv'. by eapply valid_val_shape, Hv'. }
  destruct (Increment_ok bls v 1 Hpre) as (v1 & E1 & Hok & _); [lia|]. rewrite E in E1. by injection E1 as <-.
Qed.

(** A genesis document with validators, all with keys of supported types. *)
Definition with_validators (g : GenesisDoc) : Prop :=
  ∃ l, gdValidators g = Some l ∧ l ≠ [] ∧ Forall (λ v, IsSupported bls (pk_Type (gvPubKey v)) = true) l.

Lemma complete_keys l l' : complete_validators l = Ok l' → gvPubKey <$> l' = gvPubKey <$> l.
Proof.
  revert l'. induction l as [|v l IH]; intros l' E; cbn [complete_validators] in E; [by injection E as <-|].
  destruct (_ =? 0); [done|]. destruct (_ && _); [done|]. destruct (complete_validators l) as [l0|]; [|done]. injection E as <-.
  rewrite !fmap_cons, (IH l0) by done. f_equal. by destruct (_ =? 0).
Qed.

Lemma genesis_ok now g s : with_validators g → MakeGenesisState bls now g = value s → state_ok bls s.
Proof.
  intros (l & El & Hne & Hl) E. unfold MakeGenesisState, ValidateAndComplete in E.
  case_bool_decide as Hc; [done|]. destruct (Z.ltb_spec MaxChainIDLen (Z.of_nat (String.length (gdChainID g)))); [done|].
  destruct (Z.ltb_spec (gdInitialHeight g) 0); [done|]. destruct (match gdConsensusParams g with None => None | Some p => _ end) eqn:Ep; [done|].
  rewrite El in E. cbn [default from_option id] in E. destruct (complete_validators l) as [l'|] eqn:Ecv; [|done]. apply complete_keys in Ecv.
  unfold genesis_validators in E. cbn [gdValidators default from_option id gdChainID gdInitialHeight gdGenesisTime gdConsensusParams gdAppHash gdAppState] in E.
  assert (Hok : ∀ vals, NewValidatorSet ((λ v, NewValidator (gvPubKey v) (gvPower v)) <$> l') = Done vals → set_ok bls vals).
  { intros vals. apply NewValidatorSet_ok.
    - intros Hn%fmap_nil_inv. subst l'. destruct l; done.
    - apply Forall_fmap, Forall_forall. intros v Hv. exists (gvPubKey v), (gvPower v). split; [done|].
      apply (list_elem_of_fmap_2 gvPubKey) in Hv. rewrite Ecv in Hv. apply list_elem_of_fmap in Hv as (w & -> & Hw). rewrite Forall_forall in Hl. by apply Hl. }
  apply outcome_bind_Done in E as (vals & Ev & E). apply outcome_bind_Done in E as (nvals & Env & E).
  apply outcome_bind_Done in Env as (vals' & Ev' & Env). assert (vals' = vals) as -> by congruence. pose proof (Hok vals Ev) as Hv.
  destruct (Increment_ok bls vals 1 (proj1 Hv)) as (nv & En & Hnv & _); [lia|]. unfold CopyIncrementProposerPriority in Env. rewrite En in Env. injection Env as ->.
  apply outcome_bind_Done in E as (lv & Elv & [= <-]). injection Elv as <-.
  set (initial := if gdInitialHeight g =? 0 then 1 else gdInitialHeight g).
  assert (0 < initial) by (unfold initial; destruct (Z.eqb_spec (gdInitialHeight g) 0); lia).
  split; cbn; try done; unfold next_height; cbn; try lia.
  destruct (gdConsensusParams g); [done|apply default_params_valid].
Qed.

Lemma genesis_height now g s : MakeGenesisState bls now g = value s → stLastBlockHeight s = 0.
Proof.
  unfold MakeGenesisState. intros E. destruct (ValidateAndComplete _ _ _) as [g'|]; [|done].
  repeat (apply outcome_bind_Done in E as (? & _ & E)). by injection E as <-.
Qed.

(** The answer to [InitChain] may replace the validators and change the parameters, which
    nobody validates. *)
Lemma pb2tm_new us l :
  pb2tm_ValidatorUpdates bls us = Ok l →
  length l = length us ∧ Forall (λ v, ∃ pk power, v = NewValidator pk power ∧ IsSupported bls (pk_Type pk) = true) l.
Proof.
  revert l. induction us as [|u us IH]; intros l E; cbn [pb2tm_ValidatorUpdates] in E; [by injection E as <-|].
  destruct (PubKeyFromTypeAndBytes bls _ _) as [pk|] eqn:Ek; [|done]. destruct (pb2tm_ValidatorUpdates bls us) as [l'|]; [|done].
  injection E as <-. destruct (IH l' eq_refl) as [Hlen Hl]. split; [cbn; by rewrite Hlen|]. constructor; [|done].
  exists pk, (vuPower u). split; [done|]. by apply (PubKeyFrom_type bls _ _ _ Ek).
Qed.

Lemma init_ok s res n s' :
  state_ok bls s → stLastBlockHeight s = 0 → init_chain_state bls s res n = value s' →
  params_ValidateBasic bls (stConsensusParams s') = None → state_ok bls s'.
Proof.
  intros Hs Hz E Hp. unfold init_chain_state in E. apply dbind_Ok in E as ([vs ns] & Esets & [= <-]).
  assert (Hsets : set_ok bls vs ∧ set_ok bls ns).
  { destruct (Z.ltb_spec 0 (zlen (irValidators res))) as [Hlt|].
    - destruct (pb2tm_ValidatorUpdates bls _) as [l|] eqn:El; [|done]. apply pb2tm_new in El as [Hlen Hl].
      apply outcome_bind_Done in Esets as (v & Ev & Esets). apply outcome_bind_Done in Esets as (v2 & Env & [= -> ->]).
      apply outcome_bind_Done in Env as (v' & Ev' & Env). assert (v' = vs) as -> by congruence.
      assert (Hv : set_ok bls vs).
      { eapply NewValidatorSet_ok; [|exact Hl|exact Ev]. intros ->. unfold zlen in Hlt. cbn in Hlen. lia. }
      destruct (Increment_ok bls vs 1 (proj1 Hv)) as (nv & En & Hnv & _); [lia|].
      unfold CopyIncrementProposerPriority in Env. rewrite En in Env. injection Env as ->. done.
    - destruct (n =? 0); [done|]. injection Esets as <- <-. by destruct Hs. }
  destruct Hsets as [Hv Hn]. pose proof (merkle_hash_valid []) as Hh. destruct Hs. by split.
Qed.

(** The states of a node that started from a genesis document: that of the document or of the answer
    to [InitChain] with valid parameters, and then those of the blocks executed. *)
Inductive reachable (g : GenesisDoc) : State → Prop :=
| reach_genesis now s : MakeGenesisState bls now g = value s → reachable g s
| reach_init now s res s' :
    MakeGenesisState bls now g = value s →
    init_chain_state bls s res (zlen (default [] (gdValidators g))) = value s' →
    params_ValidateBasic bls (stConsensusParams s') = None → reachable g s'
| reach_block s b blockID s' : reachable g s → executes s b blockID s' → reachable g s'.

Lemma reachable_ok g s : with_validators g → reachable g s → state_ok bls s.
Proof.
  intros Hg Hr. induction Hr as [now s E|now s res s' E Ei Hp|s b blockID s' _ IH Hx]; [by eapply genesis_ok| |].
  - eapply init_ok; [by eapply genesis_ok|by eapply genesis_height|exact Ei|done].
  - by destruct (executes_ok s b blockID s' IH Hx).
Qed.


(** The genesis document may hold a negative power: the checks let it pass and building the
    set panics, where an error is promised. *)
Lemma genesis_negative_power_panics now g g' v l :
  gdValidators g = Some l → v ∈ l → gvPower v < 0 → ValidateAndComplete bls now g = Ok g' →
  MakeGenesisState bls now g = Panic "Cannot create validator set".
Proof.
  intros El Hv Hneg E. unfold MakeGenesisState. rewrite E.
  assert (∃ w, w ∈ genesis_validators g' ∧ VotingPower w < 0) as (w & Hw & Hw0).
  { unfold ValidateAndComplete in E. destruct (bool_decide _); [done|]. destruct (_ <? _); [done|]. destruct (_ <? _); [done|].
    destruct (match gdConsensusParams g with None => None | Some p => _ end); [done|]. rewrite El in E. cbn [default from_option id] in E.
    destruct (complete_validators l) as [l'|] eqn:Ec; [|done]. injection E as <-. unfold genesis_validators. cbn [gdValidators default from_option id].
    assert (gvPower <$> l' = gvPower <$> l) as Ep.
    { clear -Ec. revert l' Ec. induction l as [|x l IH]; intros l' E; cbn [complete_validators] in E; [by injection E as <-|].
      destruct (_ =? 0); [done|]. destruct (_ && _); [done|]. destruct (complete_validators l) as [l0|]; [|done]. injection E as <-.
      rewrite !fmap_cons, (IH l0) by done. f_equal. by destruct (_ =? 0). }
    apply (list_elem_of_fmap_2 gvPower) in Hv. rewrite <-Ep in Hv. apply list_elem_of_fmap in Hv as (x & Ex & Hx).
    exists (NewValidator (gvPubKey x) (gvPower x)). split; [by apply list_elem_of_fmap; exists x|]. cbn. lia. }
  assert (NewValidatorSet (genesis_validators g') = Panic "Cannot create validator set") as ->; [|done]. unfold NewValidatorSet, updateWithChangeSet. rewrite (bool_decide_false (genesis_validators g' = [])) by (intros En; rewrite En in Hw; by apply elem_of_nil in Hw).
  destruct (processChanges _) as [[ups dels]|] eqn:Ep; [|done]. exfalso.
  apply process_scan_spec in Ep as (Hp & _ & _ & _ & Hu & Hd); [|apply Sorted_merge_sort, _].
  rewrite <-(sort_address_perm (genesis_validators g')), Hp in Hw. rewrite Forall_forall in Hu, Hd.
  apply elem_of_app in Hw as [Hw|Hw]; [specialize (Hu w Hw)|specialize (Hd w Hw)]; lia.
Qed.

(** ** Storing the state *)

Lemma validators_marshal l : Forall (valid_val bls) l → ∃ ms, validators_ToProto l = Ok ms.
Proof.
  intros Hl. induction Hl as [|v l Hv _ [ms IH]]; [by exists []|]. destruct (valid_val_key bls v Hv) as (pk & Ek & _).
  cbn [validators_ToProto]. unfold validator_ToProto. rewrite Ek, IH. by eexists.
Qed.

Lemma set_roundtrip vals : set_ok bls vals → ∃ m, vals_ToProto (Some vals) = Ok m ∧ ValidatorSetFromProto bls (Some m) = value vals.
Proof.
  intros Hok. pose proof Hok as ((_ & Hne & Hv & _) & _ & p & Ep & Hp). destruct (validators_marshal _ Hv) as [ms Ems].
  assert (Hpv : valid_val bls p) by (rewrite Forall_forall in Hv; by apply Hv). destruct (valid_val_key bls p Hpv) as (pk & Ek & _).
  assert (∃ m, vals_ToProto (Some vals) = Ok m) as [m Em].
  { unfold vals_ToProto. destruct (_ =? 0); [by eexists|]. rewrite Ems, Ep. unfold validator_ToProto. rewrite Ek. by eexists. }
  exists m. split; [done|]. apply (ValidatorSet_roundtrip bls vals m); [by apply set_ok_valid|by eapply set_ok_coherent|done].
Qed.

Lemma state_roundtrip s :
  state_ok bls s → ∃ m, state_ToProto s = Ok m ∧ state_FromProto bls (Some m) = value s.
Proof.
  intros Hs. destruct (set_roundtrip _ (ok_validators bls s Hs)) as (vm & Ev & Rv), (set_roundtrip _ (ok_next_validators bls s Hs)) as (nm & En & Rn).
  pose proof (ok_last_validators bls s Hs) as Hl. pose proof (ok_height bls s Hs) as Hh. pose proof (ok_initial bls s Hs).
  unfold state_ToProto, state_FromProto. rewrite Ev, En.
  destruct (Z.eqb_spec (stLastBlockHeight s) 0) as [E0|N0].
  - destruct (Z.leb_spec 1 (stLastBlockHeight s)); [lia|]. eexists. split; [reflexivity|]. cbn [smLastBlockID smValidators smNextValidators smLastBlockHeight smConsensusParams].
    rewrite BlockID_roundtrip by apply (ok_block_id bls s Hs). rewrite Rv, Rn, params_proto_roundtrip. cbn [dbind value]. destruct (Z.leb_spec 1 (stLastBlockHeight s)); [lia|].
    cbn. destruct s. cbn in *. by rewrite Hl.
  - destruct (set_roundtrip _ Hl) as (lm & El & Rl). destruct (Z.leb_spec 1 (stLastBlockHeight s)); [|lia]. rewrite El. eexists. split; [reflexivity|].
    cbn [smLastBlockID smValidators smNextValidators smLastValidators smLastBlockHeight smConsensusParams].
    rewrite BlockID_roundtrip by apply (ok_block_id bls s Hs). rewrite Rv, Rn, params_proto_roundtrip. destruct (Z.leb_spec 1 (stLastBlockHeight s)); [|lia]. rewrite Rl.
    cbn. by destruct s.
Qed.

(** a well-formed state can be written, and is read back as it was. *)
Theorem state_survives_restart s :
  state_ok bls s → ∃ m, state_ToProto s = Ok m ∧ state_FromProto bls (Some m) = value s.
Proof. apply state_roundtrip. Qed.

(** The validator sets, times and hashes of consecutive blocks. *)
Lemma chain_links s b1 id1 s1 b2 id2 s2 b3 c2 :
  state_ok bls s → executes s b1 id1 s1 → executes s1 b2 id2 s2 → validateBlock bls s2 (Some b3) = Done None → bLastCommit b3 = Some c2 →
  hHeight (bHeader b2) = hHeight (bHeader b1) + 1 ∧ hHeight (bHeader b2) ≤ max_int64 ∧ hChainID (bHeader b2) = hChainID (bHeader b1) ∧
  hTime (bHeader b1) < hTime (bHeader b2) ∧ LastBlockID (bHeader b2) = id1 ∧
  header_ValidateBasic (bHeader b1) = None ∧ header_ValidateBasic (bHeader b2) = None ∧
  vals_Hash (stValidators s1) = Done (ValidatorsHash (bHeader b2)) ∧ ValidatorsHash (bHeader b2) = NextValidatorsHash (bHeader b1) ∧
  commit_ValidateBasic c2 = None ∧
  VerifyCommit (hChainID (bHeader b1)) (Some (stValidators s1)) id2 (hHeight (bHeader b2)) (Some c2) = Done None.
Proof.
  intros Hs X1 X2 V3 E3. destruct (executes_ok s b1 id1 s1 Hs X1) as (Hs1 & A1 & (c0 & z0 & _ & B1 & F1 & _)).
  destruct (executes_ok s1 b2 id2 s2 Hs1 X2) as (Hs2 & A2 & (c1 & z1 & _ & B2 & F2 & _ & _ & T2 & _)).
  assert (Hmax : next_height s1 + 2 ≤ max_int64) by apply X2.
  destruct A1 as (_ & Hn1 & Hid1 & Ht1 & Hc1 & Hi1 & _ & Hv1 & _), A2 as (_ & Hn2 & Hid2 & _ & Hc2 & Hi2 & Hl2 & _).
  apply validateBlock_spec in V3 as (c & z & Ec & B3 & F3 & C3 & _); [|done|lia]. rewrite E3 in Ec. injection Ec as <-.
  destruct F1 as (_ & _ & Fc1 & Fh1 & _ & _ & _ & _ & _ & Fn1), F2 as (_ & _ & Fc2 & Fh2 & Fl2 & _ & _ & _ & Fv2 & _), F3 as (_ & _ & _ & Fh3 & _).
  pose proof (next_height_pos bls s Hs) as [? ?].
  unfold timely in T2. unfold commits_last in C3. rewrite Fh2 in T2. rewrite Fh3 in C3.
  destruct (Z.eqb_spec (next_height s1) (stInitialHeight s1)); [lia|]. destruct (Z.eqb_spec (next_height s2) (stInitialHeight s2)); [lia|].
  rewrite Hv1 in Fv2 |- *. rewrite Fn1 in Fv2. injection Fv2 as Fv2.
  assert (Hbv : ∀ b, Block_ValidateBasic bls (Some b) = Done None → header_ValidateBasic (bHeader b) = None).
  { intros b Hb. unfold Block_ValidateBasic in Hb. by destruct (header_ValidateBasic (bHeader b)). }
  assert (Hcv : commit_ValidateBasic c2 = None).
  { unfold Block_ValidateBasic in B3. rewrite E3 in B3. destruct (header_ValidateBasic _); [done|]. by destruct (commit_ValidateBasic c2). }
  destruct T2 as [T2 _]. rewrite Hl2, Hc2, Hc1, Hid2, Hn2, Hv1 in C3. replace (next_height s1 + 1 - 1) with (next_height s1) in C3 by lia.
  rewrite Fh1, Fh2, Fc1, Fc2, Fl2. split_and!; try done; try lia; try (by apply Hbv); congruence.
Qed.

(** C8: three blocks that a node executes in a row give the light client what it checks: from the
    header of the first it accepts the header of the second with the commit that the third
    carries and the validators of the node, as long as the first has not expired and the
    second is not from the future; and back from the second it accepts the first. *)
Theorem chain_is_light_verifiable s b1 id1 s1 b2 id2 s2 b3 c1 c2 period now drift :
  state_ok bls s → executes s b1 id1 s1 → executes s1 b2 id2 s2 → validateBlock bls s2 (Some b3) = Done None → bLastCommit b3 = Some c2 →
  Votes.Hash id1 = header_Hash (Some (bHeader b1)) → Votes.Hash id2 = header_Hash (Some (bHeader b2)) →
  HeaderExpired (bHeader b1) period now = false → hTime (bHeader b2) < now + drift →
  VerifyAdjacent (mkSignedHeader (Some (bHeader b1)) c1) (mkSignedHeader (Some (bHeader b2)) (Some c2)) (Some (stValidators s1)) period now drift = Done None ∧
  VerifyBackwards (Some (bHeader b1)) (Some (bHeader b2)) = Done None.
Proof.
  intros Hs X1 X2 V3 E3 Hh1 Hh2 Hexp Hdrift.
  destruct (chain_links s b1 id1 s1 b2 id2 s2 b3 c2 Hs X1 X2 V3 E3) as (Eh & Hmax & Ec & Ht & El & B1 & B2 & Ev & Env & Hc & Hvc).
  destruct (executes_ok s b1 id1 s1 Hs X1) as (Hs1 & _). pose proof (set_ok_known _ _ (ok_validators bls s1 Hs1)) as Hknown.
  destruct (ok_validators bls s1 Hs1) as ((Hwf & Hne & _) & _).
  assert (0 < hHeight (bHeader b1)) by (by apply header_basic_positive).
  assert (Hcb : cHeight c2 = hHeight (bHeader b2) ∧ cBlockID c2 = id2).
  { unfold VerifyCommit in Hvc. destruct (verifyBasicValsAndCommit _ _ _ _) eqn:Eb; [done|]. apply verifyBasic_None in Eb as (_ & E1 & E2). done. }
  destruct Hcb as [Hch Hcid]. split.
  - unfold VerifyAdjacent, header_of. cbn [shHeader mbind outcome_bind]. rewrite wrap64_id by (unfold_ints; lia). rewrite Eh, Z.eqb_refl, Hexp. cbn [negb].
    unfold verifyNewHeaderAndVals, sh_ValidateBasic, header_of. cbn [shHeader shCommit]. rewrite B2, Hc, bool_decide_true, Hch, Z.eqb_refl by done. cbn [negb].
    rewrite Hcid, Hh2, bytes_equal_refl. cbn [negb mbind outcome_bind]. rewrite Eh. destruct (Z.leb_spec (hHeight (bHeader b1) + 1) (hHeight (bHeader b1))); [lia|].
    rewrite (proj2 (Z.ltb_lt _ _) Ht), (proj2 (Z.ltb_lt _ _) Hdrift), Ev. cbn [negb mbind outcome_bind]. rewrite bytes_equal_refl, Env, bytes_equal_refl. cbn [negb].
    unfold verify_new_commit. cbn [shCommit]. rewrite Hcid. rewrite VerifyCommit_light; [done|done|exact Hknown|done|apply commit_sigs_valid; [done|lia]|exact Hvc].
  - unfold VerifyBackwards. rewrite B1, Ec, bool_decide_true by done. cbn [negb]. rewrite (proj2 (Z.ltb_lt _ _) Ht), El, Hh1, bytes_equal_refl. done.
Qed.

End light.

(** ** Examples *)

Section examples.
#[local] Existing Instances toy_keys toy_codec toy_batch toy_batch_laws Merkle.toy_hash Merkle.toy_hash_laws toy_header_codec toy_header_codec_laws
  toy_key_codec toy_key_codec_laws toy_block_codec.

Definition toy_result_codec : ResultCodec := {| result_Marshal r := Some (trCode r :: trData r) |}.
#[local] Existing Instance toy_result_codec.
Lemma toy_result_codec_laws : ResultCodecLaws.
Proof. split. intros r. by eexists. Qed.
#[local] Existing Instance toy_result_codec_laws.

Definition ex_genesis : GenesisDoc :=
  mkGenesisDoc (day 1) "chain" 0 None (Some ((λ k : Z, mkGenesisValidator [] (k : PubKey) 10 "") <$> [1; 2; 3; 4])) [] [].
Definition no_state : State := mkState 0 0 "" "" 0 0 nil_BlockID 0 empty_set empty_set empty_set 0 DefaultConsensusParams 0 [] [].
Definition get {A} (d : A) (m : decoded A) : A := match m with Done (Ok a) => a | _ => d end.

(** The precommits of all validators of a set for a block. *)
Definition ex_sign (chain : string) (id : BlockID) (h t : Z) (v : Validator) : CommitSig :=
  let vote := {| Type_ := PrecommitType; Height := h; Round := 0; vBlockID := id; Timestamp := t; ValidatorAddress := Address v;
                 ValidatorIndex := 0; Signature := []; Extension := []; ExtensionSignature := [] |} in
  match VoteSignBytes chain vote, ValPubKey v with
  | Done bz, Some k => {| cs_Flag := BlockIDFlagCommit; cs_Address := Address v; cs_Timestamp := t; cs_Signature := (k : Z) :: bz |}
  | _, _ => NewCommitSigAbsent
  end.
Definition ex_commit (s : State) (t : Z) : Commit :=
  {| cHeight := stLastBlockHeight s; cRound := 0; cBlockID := stLastBlockID s;
     Signatures := ex_sign (stChainID s) (stLastBlockID s) (stLastBlockHeight s) t <$> Validators (stLastValidators s) |}.

(** The next block of a state: its proposer's, with one transaction. *)
Definition ex_next (s : State) (t : Z) : Block :=
  match MakeBlock t s (next_height s) [[7]] (ex_commit s t) [] (toy_address 1) with
  | Done b => b | Panic _ => mkBlock (nil_header 0) [] [] None end.
Definition ex_id (b : Block) : BlockID := {| Votes.Hash := header_Hash (Some (bHeader b)); PSH := PSH (ex_block 1) |}.

(** The application adds a validator and later removes one. *)
Definition ex_resp (us : list ValidatorUpdate) : FinalizeBlockResponse := mkFinalizeBlockResponse [] [Some (mkExecTxResult 0 [1] "log" "" 1 1 "")] us None [5].
Definition ex_apply (s : State) (b : Block) (resp : FinalizeBlockResponse) : State :=
  set_app_hash (get no_state (apply_response false s (ex_id b) b resp)) (frAppHash resp).

Definition ex_s0 : State := Eval vm_compute in get no_state (MakeGenesisState false 0 ex_genesis).
Definition ex_b1 : Block := Eval vm_compute in ex_next ex_s0 (day 2).
Definition ex_resp1 : FinalizeBlockResponse := ex_resp [mkValidatorUpdate 7 "ed25519" (5 :: replicate 31 0)].
Definition ex_s1 : State := Eval vm_compute in ex_apply ex_s0 ex_b1 ex_resp1.
Definition ex_b2 : Block := Eval vm_compute in ex_next ex_s1 (day 3).
Definition ex_resp2 : FinalizeBlockResponse := ex_resp [mkValidatorUpdate 0 "ed25519" (4 :: replicate 31 0)].
Definition ex_s2 : State := Eval vm_compute in ex_apply ex_s1 ex_b2 ex_resp2.
Definition ex_b3 : Block := Eval vm_compute in ex_next ex_s2 (day 4).

Lemma ex_with_validators : with_validators false ex_genesis.
Proof. eexists. split; [reflexivity|]. split; [done|]. by_decide. Qed.

Lemma ex_exec1 : executes false ex_s0 ex_b1 (ex_id ex_b1) ex_s1.
Proof. split_and!; [by vm_compute|by vm_compute|by vm_compute|]. exists ex_resp1. eexists. split; [vm_compute; reflexivity|by vm_compute]. Qed.
Lemma ex_exec2 : executes false ex_s1 ex_b2 (ex_id ex_b2) ex_s2.
Proof. split_and!; [by vm_compute|by vm_compute|by vm_compute|]. exists ex_resp2. eexists. split; [vm_compute; reflexivity|by vm_compute]. Qed.

Lemma ex_reach0 : reachable false ex_genesis ex_s0.
Proof. apply (reach_genesis false ex_genesis 0). by vm_compute. Qed.
Lemma ex_reach1 : reachable false ex_genesis ex_s1.
Proof. eapply reach_block; [exact ex_reach0|exact ex_exec1]. Qed.
Lemma ex_ok0 : state_ok false ex_s0.
Proof. exact (reachable_ok false _ _ ex_with_validators ex_reach0). Qed.
Lemma ex_ok1 : state_ok false ex_s1.
Proof. exact (reachable_ok false _ _ ex_with_validators ex_reach1). Qed.


Lemma validateBlock_iff_witness : acceptable false ex_s1 ex_b2.
Proof. apply (validateBlock_iff false None None ex_s1 ex_b2 ex_ok1); by vm_compute. Defined.

Definition ex_proposer : Validator := Eval vm_compute in default (@NewValidator toy_keys 0 0) (head (Validators (stValidators ex_s1))).

Lemma proposed_block_is_valid_witness : validateBlock false ex_s1 (Some ex_b2) = Done None.
Proof.
  apply (proposed_block_is_valid false (day 3) ex_s1 [[7]] (ex_commit ex_s1 (day 3)) [] (toy_address 1) ex_proposer 0 ex_b2).
  - exact ex_ok1.
  - by vm_compute.
  - by vm_compute.
  - by vm_compute.
  - by vm_compute.
  - by vm_compute.
  - by vm_compute.
  - by vm_compute.
  - by_decide.
  - by vm_compute.
  - by vm_compute.
  - by vm_compute.
  - by vm_compute.
Defined.

Lemma state_survives_restart_witness : ∃ m, state_ToProto ex_s1 = Ok m ∧ state_FromProto false (Some m) = value ex_s1.
Proof. exact (state_survives_restart false ex_s1 ex_ok1). Defined.

Lemma chain_is_light_verifiable_witness :
  ∃ c2, bLastCommit ex_b3 = Some c2 ∧
  VerifyAdjacent (mkSignedHeader (Some (bHeader ex_b1)) None) (mkSignedHeader (Some (bHeader ex_b2)) (Some c2)) (Some (stValidators ex_s1)) (day 10) (day 5) 10 = Done None.
Proof.
  destruct (bLastCommit ex_b3) as [c2|] eqn:Ec; [|by vm_compute in Ec]. exists c2. split; [done|].
  apply (chain_is_light_verifiable false ex_s0 ex_b1 (ex_id ex_b1) ex_s1 ex_b2 (ex_id ex_b2) ex_s2 ex_b3 None c2 (day 10) (day 5) 10);
    [exact ex_ok0|exact ex_exec1|exact ex_exec2|by vm_compute|exact Ec|by vm_compute|by vm_compute|by vm_compute|by vm_compute].
Defined.

End examples.

End Chain.
