(* ===== verification/StateStore.v ===== *)
(** * StateStore: the state store

    [state/store.go]: saving and loading the state, the validator sets, the consensus
    parameters and the answers of the application by height, and pruning them.  The
    database holds the messages under keys made from a kind and a height, so it is one map
    per kind; reads and writes do not fail.  A batch is a list of writes. *)

From S2P Require Import Prelude Merkle Crypto ValidatorSet Votes Commit Validation Header Light Params Wire Evidence Block State Chain.
Import ValidatorSet.ValidatorSet Votes.Votes Commit.Commit Validation.Validation Header.Header Light.Light Params.Params Wire.Wire Evidence.Evidence Block.Block State.State Chain.Chain.

Local Open Scope Z_scope.

Module StateStore.

Definition valSetCheckpointInterval : Z := 100000.

(** ** The database *)

(** An absent set, or the empty message in place of the parameters, points to the height of the
    last change. *)
Record ValidatorsInfo := mkValidatorsInfo { viValidatorSet : option ValidatorSetMsg; viLastHeightChanged : Z }.
Record ConsensusParamsInfo := mkConsensusParamsInfo { piConsensusParams : ParamsMsg; piLastHeightChanged : Z }.

Record DB := mkDB {
  dbState : option StateMsg;
  dbValidators : gmap Z ValidatorsInfo;
  dbParams : gmap Z ConsensusParamsInfo;
  dbResponses : gmap Z FinalizeBlockResponse;
  dbLastRetain : option Z }.
Definition empty_db : DB := mkDB None ∅ ∅ ∅ None.

Inductive write :=
| SetValidators (h : Z) (v : ValidatorsInfo) | DelValidators (h : Z)
| SetParams (h : Z) (p : ConsensusParamsInfo) | DelParams (h : Z)
| SetResponse (h : Z) (r : FinalizeBlockResponse) | DelResponse (h : Z)
| SetState (s : StateMsg) | SetLastRetain (h : Z).

Definition put (db : DB) (w : write) : DB :=
  match w with
  | SetValidators h v => mkDB (dbState db) (<[h := v]> (dbValidators db)) (dbParams db) (dbResponses db) (dbLastRetain db)
  | DelValidators h => mkDB (dbState db) (delete h (dbValidators db)) (dbParams db) (dbResponses db) (dbLastRetain db)
  | SetParams h p => mkDB (dbState db) (dbValidators db) (<[h := p]> (dbParams db)) (dbResponses db) (dbLastRetain db)
  | DelParams h => mkDB (dbState db) (dbValidators db) (delete h (dbParams db)) (dbResponses db) (dbLastRetain db)
  | SetResponse h r => mkDB (dbState db) (dbValidators db) (dbParams db) (<[h := r]> (dbResponses db)) (dbLastRetain db)
  | DelResponse h => mkDB (dbState db) (dbValidators db) (dbParams db) (delete h (dbResponses db)) (dbLastRetain db)
  | SetState s => mkDB (Some s) (dbValidators db) (dbParams db) (dbResponses db) (dbLastRetain db)
  | SetLastRetain h => mkDB (dbState db) (dbValidators db) (dbParams db) (dbResponses db) (Some h)
  end.
Definition write_batch (db : DB) (batch : list write) : DB := foldl put db batch.

(** [SafeConvertInt32] of [libs/math/safemath.go]. *)
Definition SafeConvertInt32 (a : Z) : outcome Z :=
  if max_int32 <? a then Panic "int32 overflow" else if a <? min_int32 then Panic "int32 overflow" else Done a.

Section store.
Context `{PubKeyOps, !KeyCodec}.
Variable bls : bool.

(** ** Validator sets *)

Definition lastStoredHeightFor (height lastHeightChanged : Z) : Z :=
  Z.max (height - Z.rem height valSetCheckpointInterval) lastHeightChanged.

(** A message without a set and with height 0 is encoded as no bytes, which reads as absent. *)
Definition loadValidatorsInfo (db : DB) (h : Z) : option ValidatorsInfo :=
  match dbValidators db !! h with
  | Some v => if bool_decide (viValidatorSet v = None) && (viLastHeightChanged v =? 0) then None else Some v
  | None => None
  end.

Definition LoadValidators (db : DB) (height : Z) : decoded ValidatorSet :=
  match loadValidatorsInfo db height with
  | None => fails "no validator set for height"
  | Some valInfo =>
      m ←? (match viValidatorSet valInfo with
            | Some m => value m
            | None =>
                let lastStoredHeight := lastStoredHeightFor height (viLastHeightChanged valInfo) in
                match loadValidatorsInfo db lastStoredHeight with
                | Some (mkValidatorsInfo (Some m) _) =>
                    vs ←? ValidatorSetFromProto bls (Some m);
                    n ← SafeConvertInt32 (wrap64 (height - lastStoredHeight));
                    vs ← IncrementProposerPriority vs n;
                    Done (vals_ToProto (Some vs))
                | _ => fails "couldn't find validators"
                end
            end);
      ValidatorSetFromProto bls (Some m)
  end.

(** [saveValidatorsInfo] adds to the batch. *)
Definition saveValidatorsInfo (height lastHeightChanged : Z) (valSet : ValidatorSet) : result string write :=
  if height <? lastHeightChanged then Err "lastHeightChanged cannot be greater than ValidatorsInfo height"%string
  else if (height =? lastHeightChanged) || (Z.rem height valSetCheckpointInterval =? 0) then
    match vals_ToProto (Some valSet) with
    | Ok pv => Ok (SetValidators height (mkValidatorsInfo (Some pv) lastHeightChanged))
    | Err e => Err e
    end
  else Ok (SetValidators height (mkValidatorsInfo None lastHeightChanged)).

(** ** Consensus parameters *)

#[global] Instance ParamsMsg_eq_dec : EqDecision ParamsMsg.
Proof. solve_decision. Defined.

Definition LoadConsensusParams (db : DB) (height : Z) : decoded ConsensusParams :=
  match dbParams db !! height with
  | None => fails "could not find consensus params for height"
  | Some paramsInfo =>
      paramsInfo ←? (if bool_decide (piConsensusParams paramsInfo = empty_ParamsMsg) then
                       match dbParams db !! piLastHeightChanged paramsInfo with
                       | None => fails "couldn't find consensus params"
                       | Some paramsInfo2 => value paramsInfo2
                       end
                     else value paramsInfo);
      params ← ConsensusParamsFromProto (piConsensusParams paramsInfo); value params
  end.

Definition saveConsensusParamsInfo (nextHeight changeHeight : Z) (params : ConsensusParams) : write :=
  SetParams nextHeight
    (mkConsensusParamsInfo (if changeHeight =? nextHeight then params_ToProto params else empty_ParamsMsg) changeHeight).

(** ** States *)

(** [Save]: the batch is written only when everything in it could be made. *)
Definition Save (db : DB) (s : State) : decoded DB :=
  let nextHeight := wrap64 (stLastBlockHeight s + 1) in
  first ←? (if nextHeight =? 1 then
              Done (match saveValidatorsInfo (stInitialHeight s) (stInitialHeight s) (stValidators s) with
                    | Ok w => Ok (stInitialHeight s, [w]) | Err e => Err e end)
            else value (nextHeight, []));
  let '(nextHeight, batch) := first in
  match saveValidatorsInfo (wrap64 (nextHeight + 1)) (stLastHeightValidatorsChanged s) (stNextValidators s) with
  | Err e => fails e
  | Ok w =>
      let p := saveConsensusParamsInfo nextHeight (stLastHeightConsensusParamsChanged s) (stConsensusParams s) in
      match state_ToProto s with
      | Err _ => Panic "cannot encode state"
      | Ok m => value (write_batch db (batch ++ [w; p; SetState m]))
      end
  end.

(** [Bootstrap], for a node that starts from a snapshot; the validators of the last block are
    saved when there are any. *)
Definition Bootstrap (db : DB) (s : State) : decoded DB :=
  let height := wrap64 (stLastBlockHeight s + 1) in
  let height := if height =? 1 then stInitialHeight s else height in
  let prev := if (1 <? height) && negb (zlen (Validators (stLastValidators s)) =? 0)
              then match saveValidatorsInfo (wrap64 (height - 1)) (wrap64 (height - 1)) (stLastValidators s) with Ok w => Ok [w] | Err e => Err e end
              else Ok [] in
  match prev, saveValidatorsInfo height height (stValidators s), saveValidatorsInfo (wrap64 (height + 1)) (wrap64 (height + 1)) (stNextValidators s) with
  | Err e, _, _ => fails e
  | _, Err e, _ => fails e
  | _, _, Err e => fails e
  | Ok prev, Ok w, Ok w' =>
      let p := saveConsensusParamsInfo height (stLastHeightConsensusParamsChanged s) (stConsensusParams s) in
      match state_ToProto s with
      | Err _ => Panic "cannot encode state"
      | Ok m => value (write_batch db (prev ++ [w; w'; p; SetState m]))
      end
  end.

(** [Load]: [None] is the empty state. *)
Definition Load (db : DB) : decoded (option State) :=
  match dbState db with
  | None => value None
  | Some m => s ←? state_FromProto bls (Some m); value (Some s)
  end.

Definition LoadFromDBOrGenesisDoc (db : DB) (now : Z) (genDoc : GenesisDoc) : decoded State :=
  s ←? Load db;
  match s with Some s => value s | None => MakeGenesisState bls now genDoc end.

(** ** Answers of the application *)

Definition SaveFinalizeBlockResponse (discard : bool) (db : DB) (height : Z) (resp : FinalizeBlockResponse) : DB :=
  let db := if discard && (1 <? height) then put db (DelResponse (height - 1)) else db in
  put db (SetResponse height (strip_results resp)).

(** A response with nothing in it is encoded as no bytes. *)
Definition encodes_to_nothing (r : FinalizeBlockResponse) : bool :=
  match frEvents r, frTxResults r, frValidatorUpdates r, frConsensusParamUpdates r, frAppHash r with
  | [], [], [], None, [] => true
  | _, _, _, _, _ => false
  end.

(** Without the entry that older versions wrote. *)
Definition LoadLastFinalizeBlockResponse (db : DB) (height : Z) : result string FinalizeBlockResponse :=
  match dbResponses db !! height with
  | Some r => if encodes_to_nothing r then Err "expected last ABCI responses, but none are found"%string else Ok r
  | None => Err "expected last ABCI responses, but none are found"%string
  end.

(** ** Pruning *)

(** One height of the loop: the writes it adds to the batch.  It reads the database, not the
    batch. *)
Definition prune_validators (db : DB) (keep : Z → bool) (evidenceThresholdHeight h : Z) : decoded (list write) :=
  if keep h then
    match loadValidatorsInfo db h with
    | Some (mkValidatorsInfo (Some _) _) => value []
    | Some _ =>
        vip ←? LoadValidators db h;
        Done (match vals_ToProto (Some vip) with
              | Ok pvi => Ok [SetValidators h (mkValidatorsInfo (Some pvi) h)]
              | Err e => Err e
              end)
    | None =>
        vip ←? LoadValidators db h;
        Panic "nil pointer dereference"
    end
  else value (if h <? evidenceThresholdHeight then [DelValidators h] else []).

Definition prune_params (db : DB) (keep : Z → bool) (h : Z) : decoded (list write) :=
  if keep h then
    match dbParams db !! h with
    | None => fails "value retrieved from db is empty"
    | Some p =>
        if bool_decide (piConsensusParams p = empty_ParamsMsg) then
          params ←? LoadConsensusParams db h;
          value [SetParams h (mkConsensusParamsInfo (params_ToProto params) h)]
        else value []
    end
  else value [DelParams h].

(** [n] heights downwards; every 1000 the batch is written.  An error leaves the batch unwritten
    but not what was written before. *)
Fixpoint prune_loop (n : nat) (h evidenceThresholdHeight : Z) (keepVals keepParams : Z → bool) (db : DB) (batch : list write) (pruned : Z)
    : outcome (DB * result string Z) :=
  match n with
  | O => Done (write_batch db batch, Ok pruned)
  | S n =>
      vs ← prune_validators db keepVals evidenceThresholdHeight h;
      match vs with
      | Err e => Done (db, Err e)
      | Ok vs =>
          ps ← prune_params db keepParams h;
          match ps with
          | Err e => Done (db, Err e)
          | Ok ps =>
              let batch := batch ++ vs ++ ps ++ [DelResponse h] in
              let pruned := pruned + 1 in
              if pruned mod 1000 =? 0
              then prune_loop n (h - 1) evidenceThresholdHeight keepVals keepParams (write_batch db batch) [] pruned
              else prune_loop n (h - 1) evidenceThresholdHeight keepVals keepParams db batch pruned
          end
      end
  end.

Definition PruneStates (db : DB) (from to evidenceThresholdHeight : Z) : outcome (DB * result string Z) :=
  if (from <=? 0) || (to <=? 0) then Done (db, Err "from height and to height must be greater than 0"%string)
  else if to <=? from then Done (db, Err "from height must be lower than to height"%string)
  else
    match loadValidatorsInfo db (Z.min to evidenceThresholdHeight), dbParams db !! to with
    | None, _ => Done (db, Err "validators not found"%string)
    | _, None => Done (db, Err "consensus params not found"%string)
    | Some valInfo, Some paramsInfo =>
        let keepVals h :=
          bool_decide (viValidatorSet valInfo = None) &&
          ((h =? viLastHeightChanged valInfo) || (h =? lastStoredHeightFor to (viLastHeightChanged valInfo))) in
        let keepParams h := bool_decide (piConsensusParams paramsInfo = empty_ParamsMsg) && (h =? piLastHeightChanged paramsInfo) in
        prune_loop (Z.to_nat (to - from)) (to - 1) evidenceThresholdHeight keepVals keepParams db [] 0
    end.

(** [PruneABCIResponses]: the deleted heights, and the retain height that is written after every
    1000 of them. *)
Fixpoint prune_responses (n : nat) (h : Z) (db : DB) (batch : list write) (pruned batchPruned : Z) : DB * Z :=
  match n with
  | O => (write_batch db batch, pruned + batchPruned)
  | S n =>
      let batch := batch ++ [DelResponse h] in
      let batchPruned := batchPruned + 1 in
      if 1000 <=? batchPruned
      then prune_responses n (h + 1) (put (write_batch db batch) (SetLastRetain h)) [] (pruned + batchPruned) 0
      else prune_responses n (h + 1) db batch pruned batchPruned
  end.

(** Returns the number of heights pruned and the new retain height. *)
Definition PruneABCIResponses (discard : bool) (db : DB) (targetRetainHeight : Z) : DB * result string (Z * Z) :=
  if discard then (db, Ok (0, 0))
  else
    let last := default 0 (dbLastRetain db) in
    if last <? 0 then (db, Err "invalid height value"%string)
    else
      let last := if last =? 0 then 1 else last in
      let '(db, pruned) := prune_responses (Z.to_nat (targetRetainHeight - last)) last db [] 0 0 in
      (db, Ok (pruned, targetRetainHeight)).

End store.

(** ** What the store remembers *)

Section history.
Context `{PubKeyOps, SignCodec, !BatchOps, !BatchLaws, !HeaderCodec, Merkle.HashOps, !KeyCodec, !BlockCodec, !ResultCodec}.
Context `{!KeyCodecLaws, !ResultCodecLaws, !Merkle.HashLaws}.
Variable bls : bool.

(** The same validators with the same keys and powers, in the same order. *)
Definition same_members (V W : ValidatorSet) : Prop := shape <$> Validators V = shape <$> Validators W.
#[global] Instance same_members_equiv : Equivalence same_members.
Proof. unfold same_members. split; [by intros ?|by intros ? ?|intros ? ? ? -> ->; done]. Qed.

(** A set stored in full. *)
Definition full (db : DB) (h : Z) (V : ValidatorSet) : Prop :=
  ∃ m l, dbValidators db !! h = Some (mkValidatorsInfo (Some m) l) ∧ ValidatorSetFromProto bls (Some m) = value V.

Lemma lastStored_bounds h l : 0 < l < h → l ≤ lastStoredHeightFor h l ≤ h ∧ h - lastStoredHeightFor h l < valSetCheckpointInterval.
Proof.
  intros Hl. unfold lastStoredHeightFor, valSetCheckpointInterval. rewrite Z.rem_mod_nonneg by lia.
  pose proof (Z.mod_pos_bound h 100000 ltac:(lia)). lia.
Qed.

Lemma LoadValidators_full db h V : full db h V → LoadValidators bls db h = value V.
Proof.
  intros (m & l & E & Em). unfold LoadValidators, loadValidatorsInfo. rewrite E. cbn [viValidatorSet].
  rewrite bool_decide_false by done. cbn [andb viValidatorSet dbind value mbind outcome_bind]. exact Em.
Qed.

(** A pointer is followed to a set stored in full, whose priorities are moved on. *)
Lemma LoadValidators_pointer db h l V :
  dbValidators db !! h = Some (mkValidatorsInfo None l) → 0 < l < h → lastStoredHeightFor h l < h → h ≤ max_int64 →
  full db (lastStoredHeightFor h l) V → set_ok bls V →
  ∃ W, LoadValidators bls db h = value W ∧ same_members W V ∧ set_ok bls W.
Proof.
  intros E Hl Hlt Hmax (m & l' & Em & Hm) HV. unfold LoadValidators, loadValidatorsInfo. rewrite E. cbn [viValidatorSet viLastHeightChanged].
  rewrite bool_decide_true by done. destruct (Z.eqb_spec l 0); [lia|]. cbn [andb viValidatorSet viLastHeightChanged]. rewrite Em. cbn [viValidatorSet].
  rewrite bool_decide_false by done. cbn [andb]. rewrite Hm. cbn [dbind value mbind outcome_bind].
  destruct (lastStored_bounds h l Hl) as [? Hd]. unfold valSetCheckpointInterval in Hd. set (k := lastStoredHeightFor h l) in *.
  rewrite wrap64_id by (unfold_ints; lia). unfold SafeConvertInt32. destruct (Z.ltb_spec max_int32 (h - k)); [unfold_ints; lia|].
  destruct (Z.ltb_spec (h - k) min_int32); [unfold_ints; lia|]. cbn [mbind outcome_bind].
  destruct (Increment_ok bls V (h - k) (proj1 HV)) as (W & -> & HW & Hs); [lia|]. cbn [mbind outcome_bind].
  destruct (set_roundtrip bls W HW) as (wm & -> & Hw). cbn [dbind mbind outcome_bind]. rewrite Hw. by exists W.
Qed.

Definition entry_ok (db : DB) (sets : Z → ValidatorSet) (initial h : Z) : Prop :=
  full db h (sets h) ∨
  ∃ l, dbValidators db !! h = Some (mkValidatorsInfo None l) ∧ initial ≤ l < h ∧ lastStoredHeightFor h l < h ∧
    full db (lastStoredHeightFor h l) (sets (lastStoredHeightFor h l)) ∧ same_members (sets (lastStoredHeightFor h l)) (sets h).

Definition params_entry_ok (db : DB) (params : Z → ConsensusParams) (h : Z) : Prop :=
  ∃ i, dbParams db !! h = Some i ∧
    (piConsensusParams i = params_ToProto (params h) ∨
     piConsensusParams i = empty_ParamsMsg ∧ piLastHeightChanged i < h ∧
     ∃ j, dbParams db !! piLastHeightChanged i = Some j ∧ piConsensusParams j = params_ToProto (params h)).

Lemma LoadConsensusParams_ok db params h : params_entry_ok db params h → LoadConsensusParams db h = value (params h).
Proof.
  intros (i & Ei & Hi). unfold LoadConsensusParams. rewrite Ei. destruct Hi as [Hi|(He & _ & j & Ej & Hj)].
  - rewrite Hi, bool_decide_false by done. cbn [dbind value mbind outcome_bind]. by rewrite Hi, params_proto_roundtrip.
  - rewrite He, bool_decide_true by done. rewrite Ej. cbn [dbind value mbind outcome_bind]. by rewrite Hj, params_proto_roundtrip.
Qed.

(** The store after the states of a chain were saved one after the other, with the validator
    set and the parameters of every height. *)
Record remembers (s : State) (db : DB) (sets : Z → ValidatorSet) (params : Z → ConsensusParams) : Prop := {
  rem_state : Load bls db = value (Some s);
  rem_sets h : stInitialHeight s ≤ h ≤ next_height s + 1 → entry_ok db sets (stInitialHeight s) h ∧ set_ok bls (sets h);
  rem_last : 0 < stLastBlockHeight s → sets (stLastBlockHeight s) = stLastValidators s;
  rem_next : sets (next_height s) = stValidators s ∧ sets (next_height s + 1) = stNextValidators s;
  rem_unchanged h : stLastHeightValidatorsChanged s ≤ h ≤ next_height s + 1 → same_members (sets h) (stNextValidators s);
  rem_changed : full db (stLastHeightValidatorsChanged s) (sets (stLastHeightValidatorsChanged s));
  rem_checkpoints h : stInitialHeight s ≤ h ≤ next_height s + 1 → Z.rem h valSetCheckpointInterval = 0 → full db h (sets h);
  rem_params h : stInitialHeight s ≤ h ≤ next_height s → params_entry_ok db params h;
  rem_params_changed : ∃ i, dbParams db !! stLastHeightConsensusParamsChanged s = Some i ∧ piConsensusParams i = params_ToProto (stConsensusParams s)
}.

(** What saving a set writes. *)
Lemma saveValidatorsInfo_ok h l V :
  set_ok bls V → l ≤ h →
  ∃ i, saveValidatorsInfo h l V = Ok (SetValidators h i) ∧ viLastHeightChanged i = l ∧
    if (h =? l) || (Z.rem h valSetCheckpointInterval =? 0)
    then ∃ m, viValidatorSet i = Some m ∧ ValidatorSetFromProto bls (Some m) = value V
    else viValidatorSet i = None.
Proof.
  intros HV Hl. unfold saveValidatorsInfo. destruct (Z.ltb_spec h l); [lia|]. destruct (set_roundtrip bls V HV) as (m & Em & Hm).
  destruct (_ || _) eqn:E; [|by eexists]. rewrite Em. eexists. split; [done|]. split; [done|]. by exists m.
Qed.

(** The database after a save. *)
Definition saved (db : DB) (initial : option ValidatorsInfo) (ih nh : Z) (i : ValidatorsInfo) (p : ConsensusParamsInfo) (m : StateMsg) : DB :=
  mkDB (Some m) (<[nh + 1 := i]> (match initial with Some i0 => <[ih := i0]> (dbValidators db) | None => dbValidators db end))
    (<[nh := p]> (dbParams db)) (dbResponses db) (dbLastRetain db).

Lemma Save_ok db s :
  state_ok bls s → next_height s + 1 ≤ max_int64 →
  ∃ i0 i p m, Save db s = value (saved db (if stLastBlockHeight s =? 0 then Some i0 else None) (stInitialHeight s) (next_height s) i p m) ∧
    (∃ m0, viValidatorSet i0 = Some m0 ∧ ValidatorSetFromProto bls (Some m0) = value (stValidators s)) ∧
    viLastHeightChanged i = stLastHeightValidatorsChanged s ∧
    (if (next_height s + 1 =? stLastHeightValidatorsChanged s) || (Z.rem (next_height s + 1) valSetCheckpointInterval =? 0)
     then ∃ m, viValidatorSet i = Some m ∧ ValidatorSetFromProto bls (Some m) = value (stNextValidators s)
     else viValidatorSet i = None) ∧
    p = mkConsensusParamsInfo (if stLastHeightConsensusParamsChanged s =? next_height s then params_ToProto (stConsensusParams s) else empty_ParamsMsg)
          (stLastHeightConsensusParamsChanged s) ∧
    state_FromProto bls (Some m) = value s.
Proof.
  intros Hs Hmax. pose proof (next_height_pos bls s Hs) as [? ?]. pose proof (ok_height bls s Hs). pose proof (ok_initial bls s Hs).
  destruct (saveValidatorsInfo_ok (stInitialHeight s) (stInitialHeight s) (stValidators s) (ok_validators bls s Hs)) as (i0 & E0 & _ & H0'); [lia|].
  rewrite Z.eqb_refl in H0'. cbn [orb] in H0'.
  destruct (saveValidatorsInfo_ok (next_height s + 1) (stLastHeightValidatorsChanged s) (stNextValidators s) (ok_next_validators bls s Hs)) as (i & Ei & Hi & Hi');
    [by apply (ok_validators_changed bls s Hs)|].
  destruct (state_roundtrip bls s Hs) as (m & Em & Hm).
  exists i0, i, (mkConsensusParamsInfo (if stLastHeightConsensusParamsChanged s =? next_height s then params_ToProto (stConsensusParams s) else empty_ParamsMsg)
          (stLastHeightConsensusParamsChanged s)), m. split; [|done].
  unfold Save. unfold next_height in *. destruct (Z.eqb_spec (stLastBlockHeight s) 0) as [->|].
  - rewrite (wrap64_id (0 + 1)) by (unfold_ints; lia). change (0 + 1 =? 1) with true. cbv iota. rewrite E0. cbn [dbind mbind outcome_bind].
    rewrite (wrap64_id (stInitialHeight s + 1)) by (unfold_ints; lia). rewrite Ei, Em. done.
  - rewrite (wrap64_id (stLastBlockHeight s + 1)) by (unfold_ints; lia). destruct (Z.eqb_spec (stLastBlockHeight s + 1) 1); [lia|]. cbn [dbind value mbind outcome_bind].
    rewrite wrap64_id by (unfold_ints; lia). rewrite Ei, Em. done.
Qed.

Lemma full_saved db i0 ih nh i p m h V :
  full db h V → h < nh + 1 → i0 = None → full (saved db i0 ih nh i p m) h V.
Proof. intros (x & l & E & Ex) Hh ->. exists x, l. split; [|done]. cbn. by rewrite lookup_insert_ne by lia. Qed.

Lemma saved_full db i0 ih nh i p m V :
  (∃ x, viValidatorSet i = Some x ∧ ValidatorSetFromProto bls (Some x) = value V) → full (saved db i0 ih nh i p m) (nh + 1) V.
Proof. intros (x & E & Ex). destruct i as [o l]. cbn in E. subst o. exists x, l. split; [|done]. cbn. by rewrite lookup_insert_eq. Qed.

Definition extend {A} (f : Z → A) (h : Z) (x : A) : Z → A := λ k, if k =? h then x else f k.
Lemma extend_eq {A} (f : Z → A) h x : extend f h x h = x.
Proof. unfold extend. by rewrite Z.eqb_refl. Qed.
Lemma extend_lt {A} (f : Z → A) h x k : k < h → extend f h x k = f k.
Proof. intros Hk. unfold extend. destruct (Z.eqb_spec k h); [lia|done]. Qed.

Lemma lastStored_cases h l :
  0 < l < h → Z.rem h valSetCheckpointInterval ≠ 0 →
  lastStoredHeightFor h l < h ∧ (lastStoredHeightFor h l = l ∨ Z.rem (lastStoredHeightFor h l) valSetCheckpointInterval = 0).
Proof.
  unfold lastStoredHeightFor, valSetCheckpointInterval. intros Hl Hr. rewrite Z.rem_mod_nonneg in * by lia.
  pose proof (Z.mod_pos_bound h 100000 ltac:(lia)). split; [lia|].
  destruct (Z.max_spec (h - h mod 100000) l) as [[_ ->]|[_ ->]]; [by left|right].
  pose proof (Z.mod_le h 100000 ltac:(lia) ltac:(lia)). rewrite Z.rem_mod_nonneg by lia. by rewrite Zminus_mod, Zmod_mod, Z.sub_diag.
Qed.

(** The parameters of the saved heights. *)
Lemma remembers_params s db sets params blockID h s' i0 ih i m :
  state_ok bls s → remembers s db sets params → advances s blockID h s' →
  let p := mkConsensusParamsInfo (if stLastHeightConsensusParamsChanged s' =? next_height s' then params_ToProto (stConsensusParams s') else empty_ParamsMsg)
             (stLastHeightConsensusParamsChanged s') in
  let db' := saved db i0 ih (next_height s') i p m in
  (∀ k, stInitialHeight s' ≤ k ≤ next_height s' → params_entry_ok db' (extend params (next_height s') (stConsensusParams s')) k) ∧
  ∃ i, dbParams db' !! stLastHeightConsensusParamsChanged s' = Some i ∧ piConsensusParams i = params_ToProto (stConsensusParams s').
Proof.
  intros Hs R (Hh & Hn & _ & _ & _ & Hi & _ & _ & _ & Hpch & _) p db'. pose proof (ok_params_changed bls s Hs).
  destruct (rem_params_changed _ _ _ _ R) as (j & Ej & Hj). split.
  - intros k Hk. unfold params_entry_ok. destruct (decide (k = next_height s')) as [->|].
    + rewrite extend_eq. exists p. split; [cbn; by rewrite lookup_insert_eq|]. cbn [p piConsensusParams piLastHeightChanged].
      destruct (Z.eqb_spec (stLastHeightConsensusParamsChanged s') (next_height s')) as [|N]; [by left|right].
      destruct Hpch as [|[El Ep]]; [done|]. split; [done|]. split; [lia|]. exists j. rewrite El, Ep. split; [|done]. cbn. by rewrite lookup_insert_ne by lia.
    + rewrite extend_lt by lia. destruct (rem_params _ _ _ _ R k) as (j1 & Ej1 & Hj1); [lia|]. exists j1. split; [cbn; by rewrite lookup_insert_ne by lia|].
      destruct Hj1 as [Hj1|(He & Hlt & j' & Ej' & Hj')]; [by left|right]. split; [done|]. split; [done|]. exists j'. split; [|done]. cbn.
      by rewrite lookup_insert_ne by lia.
  - destruct (decide (stLastHeightConsensusParamsChanged s' = next_height s')) as [Eq|N].
    + exists p. split; [cbn; by rewrite Eq, lookup_insert_eq|]. cbn [p piConsensusParams]. by rewrite Eq, Z.eqb_refl.
    + destruct Hpch as [|[El Ep]]; [done|]. exists j. rewrite El, Ep. split; [|done]. cbn. by rewrite lookup_insert_ne by lia.
Qed.

Lemma remembers_step s db sets params blockID h s' db' :
  state_ok bls s → remembers s db sets params → advances s blockID h s' → state_ok bls s' → next_height s' + 1 ≤ max_int64 →
  Save db s' = value db' →
  remembers s' db' (extend sets (next_height s' + 1) (stNextValidators s')) (extend params (next_height s') (stConsensusParams s')).
Proof.
  intros Hs R Hadv Hs' Hmax E. pose proof Hadv as (Hh & Hn & _ & _ & _ & Hi & Hlv & Hv & Hch & _). pose proof (next_height_pos bls s Hs) as [Hpos Hinit].
  destruct (Save_ok db s' Hs' Hmax) as (i0 & i & p & m & E' & _ & Hil & Hif & Hp & Hm). rewrite E in E'. injection E' as ->. subst p.
  assert (Hnz : (stLastBlockHeight s' =? 0) = false) by (apply Z.eqb_neq; lia). rewrite Hnz. set (db' := saved _ _ _ _ _ _ _).
  set (sets' := extend sets _ _). set (params' := extend params _ _).
  assert (Hold : ∀ k V, full db k V → k < next_height s' + 1 → full db' k V) by (intros; by apply full_saved).
  assert (Es : ∀ k, k < next_height s' + 1 → sets' k = sets k) by (intros; by apply extend_lt).
  assert (En : sets' (next_height s' + 1) = stNextValidators s') by apply extend_eq.
  pose proof (ok_validators_changed bls s Hs) as Hvc. pose proof (ok_validators_changed bls s' Hs') as Hvc'.
  assert (Hun : ∀ k, stLastHeightValidatorsChanged s' ≤ k ≤ next_height s' + 1 → same_members (sets' k) (stNextValidators s')).
  { intros k Hk. destruct (decide (k = next_height s' + 1)) as [->|]; [by rewrite En|]. destruct Hch as [|[Hl Hsame]]; [lia|].
    rewrite Es by lia. transitivity (stNextValidators s); [|by symmetry]. apply (rem_unchanged _ _ _ _ R). lia. }
  assert (Hfull : (next_height s' + 1 =? stLastHeightValidatorsChanged s') || (Z.rem (next_height s' + 1) valSetCheckpointInterval =? 0) = true →
    full db' (next_height s' + 1) (sets' (next_height s' + 1))).
  { intros Eb. rewrite Eb in Hif. rewrite En. by apply saved_full. }
  assert (Hcp : ∀ k, stInitialHeight s' ≤ k ≤ next_height s' + 1 → Z.rem k valSetCheckpointInterval = 0 → full db' k (sets' k)).
  { intros k Hk Hr. destruct (decide (k = next_height s' + 1)) as [->|]; [apply Hfull; rewrite Hr; by rewrite orb_true_r|].
    rewrite Es by lia. apply Hold; [|lia]. apply (rem_checkpoints _ _ _ _ R); [lia|done]. }
  assert (Hlast : full db' (stLastHeightValidatorsChanged s') (sets' (stLastHeightValidatorsChanged s'))).
  { destruct (decide (stLastHeightValidatorsChanged s' = next_height s' + 1)) as [Eq|]; [rewrite Eq; apply Hfull; by rewrite Eq, Z.eqb_refl|].
    destruct Hch as [|[Hl _]]; [lia|]. rewrite Es by lia. apply Hold; [|lia]. rewrite Hl. apply (rem_changed _ _ _ _ R). }
  split.
  - unfold Load. change (dbState db') with (Some m). cbv iota. by rewrite Hm.
  - intros k Hk. destruct (decide (k = next_height s' + 1)) as [->|].
    + split; [|rewrite En; by apply ok_next_validators].
      destruct (_ || _) eqn:Eb in Hfull; [left; by apply Hfull|]. rewrite Eb in Hif. apply orb_false_iff in Eb as [Eb1%Z.eqb_neq Eb2%Z.eqb_neq].
      right. exists (stLastHeightValidatorsChanged s'). destruct i as [o l]. cbn in Hil, Hif. subst o l.
      pose proof (ok_initial bls s' Hs'). destruct (lastStored_bounds (next_height s' + 1) (stLastHeightValidatorsChanged s')) as [Hb _]; [lia|].
      pose proof (lastStored_cases (next_height s' + 1) (stLastHeightValidatorsChanged s') ltac:(lia) Eb2) as Hls. set (ls := lastStoredHeightFor _ _) in *.
      split_and!; [cbn; by rewrite lookup_insert_eq|lia|lia|lia| |].
      * destruct Hls as [Hlt [->|Hr]]; [done|]. apply Hcp; [lia|done].
      * rewrite En. apply Hun. lia.
    + rewrite Es by lia. destruct (rem_sets _ _ _ _ R k) as [He Hok]; [lia|]. split; [|done].
      destruct He as [Hf|(l & El & Hl & Hlt & Hf & Hsame)]; [left; rewrite Es by lia; apply Hold; [done|lia]|right].
      exists l. rewrite (Es k), (Es (lastStoredHeightFor k l)) by lia. split_and!; [cbn; by rewrite lookup_insert_ne by lia|lia|lia|done|apply Hold; [done|lia]|done].
  - intros _. destruct (rem_next _ _ _ _ R) as [Hnx _]. rewrite Es, Hh, Hlv by lia. done.
  - destruct (rem_next _ _ _ _ R) as [_ Hnx]. split; [|done]. rewrite Es, Hn, Hv by lia. done.
  - exact Hun.
  - exact Hlast.
  - exact Hcp.
  - exact (proj1 (remembers_params s db sets params blockID h s' None (stInitialHeight s') i m Hs R Hadv)).
  - exact (proj2 (remembers_params s db sets params blockID h s' None (stInitialHeight s') i m Hs R Hadv)).
Qed.

(** The first state: its two sets have the same members. *)
Lemma genesis_facts now g s :
  with_validators bls g → MakeGenesisState bls now g = value s →
  stLastBlockHeight s = 0 ∧ stLastHeightValidatorsChanged s = stInitialHeight s ∧
  stLastHeightConsensusParamsChanged s = stInitialHeight s ∧ same_members (stNextValidators s) (stValidators s).
Proof.
  intros Hg E. pose proof (genesis_ok bls now g s Hg E) as Hs. unfold MakeGenesisState in E. destruct (ValidateAndComplete _ _ _) as [g'|]; [|done].
  apply outcome_bind_Done in E as (vals & Ev & E). apply outcome_bind_Done in E as (nvals & Env & E). apply outcome_bind_Done in E as (lv & _ & [= <-]).
  split_and!; [done..|]. cbn [stNextValidators stValidators]. pose proof (ok_validators bls _ Hs) as Hv. cbn [stValidators] in Hv.
  destruct (gdValidators g') as [l|]; [|rewrite Ev in Env || idtac].
  - apply outcome_bind_Done in Env as (vals' & Ev' & Env). assert (vals' = vals) as -> by congruence. unfold CopyIncrementProposerPriority in Env.
    destruct (Increment_ok bls vals 1 (proj1 Hv)) as (w & Ew & _ & Hsh); [lia|]. rewrite Env in Ew. by injection Ew as <-.
  - exfalso. pose proof (ok_next_validators bls _ Hs) as ((_ & Hne & _) & _). cbn [stNextValidators] in Hne. injection Env as <-. by apply Hne.
Qed.

Lemma remembers_genesis now g s db :
  with_validators bls g → MakeGenesisState bls now g = value s → next_height s + 1 ≤ max_int64 → Save empty_db s = value db →
  remembers s db (extend (λ _, stValidators s) (stInitialHeight s + 1) (stNextValidators s)) (λ _, stConsensusParams s).
Proof.
  intros Hg Eg Hmax E. pose proof (genesis_ok bls now g s Hg Eg) as Hs. destruct (genesis_facts now g s Hg Eg) as (H0' & Hvc & Hpc & Hsame).
  destruct (Save_ok empty_db s Hs Hmax) as (i0 & i & p & m & E' & (m0 & Em0 & Hm0) & Hil & Hif & Hp & Hm). rewrite E in E'. injection E' as ->. subst p.
  pose proof (ok_initial bls s Hs). assert (Hn : next_height s = stInitialHeight s) by (unfold next_height; by rewrite H0'). rewrite H0', Hn, Hvc, Hpc in *.
  cbn [Z.eqb]. set (db := saved _ _ _ _ _ _ _). set (I := stInitialHeight s) in *. set (sets := extend _ _ _).
  assert (Hfirst : full db I (sets I)).
  { unfold sets. rewrite extend_lt by lia. destruct i0 as [o l]. cbn in Em0. subst o. exists m0, l. split; [|done]. cbn. rewrite lookup_insert_ne by lia. by rewrite lookup_insert_eq. }
  assert (En : sets (I + 1) = stNextValidators s) by apply extend_eq.
  assert (Hcases : ∀ k, I ≤ k ≤ I + 1 → k = I ∨ k = I + 1) by (intros; lia).
  assert (E1 : (I + 1 =? I) = false) by (apply Z.eqb_neq; lia). rewrite E1 in Hif. cbn [orb] in Hif.
  split; rewrite ?H0', ?Hn, ?Hvc, ?Hpc; fold I.
  - unfold Load. change (dbState db) with (Some m). cbv iota. by rewrite Hm.
  - intros k [->| ->]%Hcases; [split; [by left|]; unfold sets; rewrite extend_lt by lia; by apply ok_validators|].
    split; [|rewrite En; by apply ok_next_validators]. destruct (Z.eqb_spec (Z.rem (I + 1) valSetCheckpointInterval) 0) as [|Nr]; [left; rewrite En; by apply saved_full|].
    right. exists I. destruct i as [o l]. cbn in Hif, Hil. subst o l. destruct (lastStored_bounds (I + 1) I) as [Hb _]; [lia|].
    destruct (lastStored_cases (I + 1) I) as [Hlt _]; [lia|done|]. assert (lastStoredHeightFor (I + 1) I = I) as -> by lia.
    split_and!; [cbn; by rewrite lookup_insert_eq|lia|lia|lia|done|]. rewrite En. unfold sets. rewrite extend_lt by lia. by symmetry.
  - lia.
  - split; [|done]. unfold sets. by rewrite extend_lt by lia.
  - intros k [->| ->]%Hcases; [unfold sets; rewrite extend_lt by lia; by symmetry|by rewrite En].
  - done.
  - intros k [->| ->]%Hcases Hr; [done|]. rewrite En. rewrite Hr in Hif. by apply saved_full.
  - intros k Hk. assert (k = I) as -> by lia. eexists. split; [cbn; by rewrite lookup_insert_eq|]. rewrite Z.eqb_refl. by left.
  - eexists. split; [cbn; by rewrite lookup_insert_eq|]. by rewrite Z.eqb_refl.
Qed.

(** Two databases with the same states, validators and parameters; the responses and what was
    pruned of them may differ. *)
Definition agrees (db db' : DB) : Prop := dbState db = dbState db' ∧ dbValidators db = dbValidators db' ∧ dbParams db = dbParams db'.
#[global] Instance agrees_equiv : Equivalence agrees.
Proof. unfold agrees. split; [by intros ?|by intros ? ? (-> & -> & ->)|by intros ? ? ? (-> & -> & ->) (-> & -> & ->)]. Qed.

Lemma remembers_agrees s db db' sets params : agrees db db' → remembers s db sets params → remembers s db' sets params.
Proof.
  intros (E1 & E2 & E3) []. split; unfold Load, entry_ok, params_entry_ok, full in *; rewrite <-?E1, <-?E2, <-?E3; done.
Qed.

(** A node that saves the state of genesis and then the state after every block; between two
    blocks it may store responses. *)
Inductive history (g : GenesisDoc) : State → DB → (Z → ValidatorSet) → (Z → ConsensusParams) → Prop :=
| hist_genesis now s db : MakeGenesisState bls now g = value s → next_height s + 1 ≤ max_int64 → Save empty_db s = value db →
    history g s db (extend (λ _, stValidators s) (stInitialHeight s + 1) (stNextValidators s)) (λ _, stConsensusParams s)
| hist_block s db sets params b blockID s' db0 db' :
    history g s db sets params → executes bls s b blockID s' → agrees db db0 → Save db0 s' = value db' →
    history g s' db' (extend sets (next_height s' + 1) (stNextValidators s')) (extend params (next_height s') (stConsensusParams s')).

Lemma history_remembers g s db sets params :
  with_validators bls g → history g s db sets params → state_ok bls s ∧ next_height s + 1 ≤ max_int64 ∧ remembers s db sets params.
Proof.
  intros Hg Hh. induction Hh as [now s db Eg Hmax E|s db sets params b blockID s' db0 db' _ (Hs & Hmax & R) Hx Ha E].
  - split_and!; [by eapply genesis_ok|done|by eapply remembers_genesis].
  - destruct (executes_ok bls s b blockID s' Hs Hx) as (Hs' & Hadv & _). assert (Hm : next_height s' + 1 ≤ max_int64).
    { destruct Hadv as (_ & -> & _), Hx as (_ & _ & ? & _). lia. }
    split_and!; [done|done|exact (remembers_step s db0 sets params blockID (bHeader b) s' db' Hs (remembers_agrees _ _ _ _ _ Ha R) Hadv Hs' Hm E)].
Qed.

Lemma remembers_validators s db sets params h :
  state_ok bls s → next_height s + 1 ≤ max_int64 → remembers s db sets params → stInitialHeight s ≤ h ≤ next_height s + 1 →
  ∃ V, LoadValidators bls db h = value V ∧ same_members V (sets h) ∧ set_ok bls V.
Proof.
  intros Hs Hmax R Hb. pose proof (ok_initial bls s Hs). destruct (rem_sets _ _ _ _ R h Hb) as [[Hf|(l & El & Hl & Hlt & Hf & Hsame)] Hok].
  - exists (sets h). split; [by apply LoadValidators_full|done].
  - destruct (lastStored_bounds h l) as [Hls _]; [lia|]. destruct (rem_sets _ _ _ _ R (lastStoredHeightFor h l)) as [_ Hok']; [lia|].
    destruct (LoadValidators_pointer db h l (sets (lastStoredHeightFor h l)) El) as (V & EV & HV & HVok); [lia|done|lia|done|done|].
    exists V. split; [done|]. split; [by transitivity (sets (lastStoredHeightFor h l))|done].
Qed.

(** C9: a node that saves its state after every block can load, for every height from the
    first to the one after the next, the validators of that height with their keys and powers
    (although most heights only store a pointer), and for every height up to the next the exact
    parameters; the state it loads is the last one it saved. *)
Theorem stored_history_is_found g s db sets params h :
  with_validators bls g → history g s db sets params →
  Load bls db = value (Some s) ∧
  (stInitialHeight s ≤ h ≤ next_height s + 1 → ∃ V, LoadValidators bls db h = value V ∧ same_members V (sets h) ∧ set_ok bls V) ∧
  (stInitialHeight s ≤ h ≤ next_height s → LoadConsensusParams db h = value (params h)).
Proof.
  intros Hg Hh. destruct (history_remembers g s db sets params Hg Hh) as (Hs & Hmax & R). split; [apply (rem_state _ _ _ _ R)|].
  split; [intros; by eapply remembers_validators|intros Hb; apply LoadConsensusParams_ok; by apply (rem_params _ _ _ _ R)].
Qed.

End history.

(** ** Pruning *)

Section prune.
Context `{PubKeyOps, !KeyCodec}.
Variable bls : bool.

Lemma write_batch_app db a b : write_batch db (a ++ b) = write_batch (write_batch db a) b.
Proof. apply foldl_app. Qed.

(** The writes of one height leave the validators of the others alone, and delete its own
    below the threshold when they are not kept. *)
Lemma prune_validators_writes db keep ev h vs d k :
  prune_validators bls db keep ev h = value vs → keep k = false →
  dbValidators (write_batch d vs) !! k = if (k =? h) && (k <? ev) then None else dbValidators d !! k.
Proof.
  unfold prune_validators. intros E Hk. destruct (Z.eqb_spec k h) as [->|Hne]; cbn [andb].
  - rewrite Hk in E. injection E as <-. destruct (h <? ev); cbn; [by rewrite lookup_delete_eq|done].
  - destruct (keep h).
    + destruct (loadValidatorsInfo db h) as [[[m|] l]|]; [by injection E as <-| |].
      * destruct (LoadValidators bls db h) as [[V|]|]; try done. cbn [dbind mbind outcome_bind] in E. destruct (vals_ToProto (Some V)); [|done].
        injection E as <-. cbn. by rewrite lookup_insert_ne.
      * by destruct (LoadValidators bls db h) as [[V|]|].
    + injection E as <-. destruct (h <? ev); cbn; [by rewrite lookup_delete_ne|done].
Qed.

Lemma prune_params_writes db keep h ps d k :
  prune_params db keep h = value ps → dbValidators (write_batch d ps) !! k = dbValidators d !! k.
Proof.
  unfold prune_params. destruct (keep h); [|by intros [= <-]]. destruct (dbParams db !! h) as [p|]; [|done].
  destruct (bool_decide _); [|by intros [= <-]]. destruct (LoadConsensusParams db h) as [[q|]|]; try done. by intros [= <-].
Qed.

Lemma prune_loop_validators n h ev kv kp db batch pruned db' r k :
  prune_loop bls n h ev kv kp db batch pruned = Done (db', Ok r) → kv k = false →
  dbValidators db' !! k = if (h - Z.of_nat n <? k) && (k <=? h) && (k <? ev) then None else dbValidators (write_batch db batch) !! k.
Proof.
  intros E Hk. revert h db batch pruned E. induction n as [|n IH]; intros h db batch pruned E; cbn [prune_loop] in E.
  { injection E as <- <-. rewrite Z.sub_0_r. destruct (Z.ltb_spec h k), (Z.leb_spec k h); cbn [andb]; try done. lia. }
  apply outcome_bind_Done in E as (vs & Ev & E). destruct vs as [vs|]; [|done].
  apply outcome_bind_Done in E as (ps & Ep & E). destruct ps as [ps|]; [|done].
  set (b' := batch ++ vs ++ ps ++ [DelResponse h]) in E.
  assert (Hb : dbValidators (write_batch db b') !! k = if (k =? h) && (k <? ev) then None else dbValidators (write_batch db batch) !! k).
  { unfold b'. rewrite !write_batch_app. cbn [write_batch foldl put dbValidators]. rewrite (prune_params_writes _ _ _ _ _ _ Ep).
    apply (prune_validators_writes _ _ _ _ _ _ _ Ev Hk). }
  assert (Hn : dbValidators db' !! k = if (h - 1 - Z.of_nat n <? k) && (k <=? h - 1) && (k <? ev) then None else dbValidators (write_batch db b') !! k).
  { destruct (_ =? 0); [|by apply IH in E]. apply IH in E. by rewrite E. }
  rewrite Hn, Hb. destruct (Z.ltb_spec k ev); [|by rewrite !andb_false_r]. rewrite !andb_true_r.
  destruct (Z.eqb_spec k h), (Z.ltb_spec (h - 1 - Z.of_nat n) k), (Z.leb_spec k (h - 1)), (Z.ltb_spec (h - Z.of_nat (S n)) k), (Z.leb_spec k h); cbn [andb]; try done; lia.
Qed.

(** pruning with an evidence threshold below the pruned range keeps the pointers of the
    heights above the threshold but may delete the checkpoint they lead to: the checkpoint that is
    kept is the one before the end of the range, not the one before the threshold.  The
    validators of those heights, which evidence of that age is checked against, can no longer
    be loaded. *)
Theorem pruning_loses_evidence_validators db from to ev h l db' n :
  ev ≤ h < to → loadValidatorsInfo db ev = Some (mkValidatorsInfo None l) → loadValidatorsInfo db h = Some (mkValidatorsInfo None l) → l < h →
  let checkpoint := lastStoredHeightFor h l in
  from ≤ checkpoint < ev → checkpoint ≠ l → checkpoint ≠ lastStoredHeightFor to l → h ≠ lastStoredHeightFor to l →
  PruneStates bls db from to ev = Done (db', Ok n) →
  LoadValidators bls db' h = fails "couldn't find validators".
Proof.
  intros Hh Eev Eh Hl c Hc Hcl Hct Hht E. unfold PruneStates in E. destruct (_ || _); [done|]. destruct (to <=? from); [done|].
  rewrite Z.min_r, Eev in E by lia. destruct (dbParams db !! to) as [pi|]; [|done]. cbn [viValidatorSet viLastHeightChanged] in E.
  rewrite bool_decide_true in E by done. cbn [andb] in E. set (kv := λ h, _ || _) in E.
  assert (Hkc : kv c = false) by (unfold kv; apply orb_false_iff; split; by apply Z.eqb_neq).
  assert (Hkh : kv h = false) by (unfold kv; apply orb_false_iff; split; apply Z.eqb_neq; [lia|done]).
  pose proof (prune_loop_validators _ _ _ _ _ _ _ _ _ _ _ E Hkc) as Gc. pose proof (prune_loop_validators _ _ _ _ _ _ _ _ _ _ _ E Hkh) as Gh.
  assert (Hto : from < to) by lia. rewrite Z2Nat.id in Gc, Gh by lia.
  assert ((to - 1 - (to - from) <? c) && (c <=? to - 1) && (c <? ev) = true) as X.
  { apply andb_true_iff. split; [apply andb_true_iff; split|]; [apply Z.ltb_lt|apply Z.leb_le|apply Z.ltb_lt]; lia. }
  rewrite X in Gc. destruct (Z.ltb_spec h ev); [lia|]. rewrite andb_false_r in Gh. cbn [write_batch foldl] in Gh.
  unfold LoadValidators. unfold loadValidatorsInfo in Eh |- *. rewrite Gh. destruct (dbValidators db !! h) as [v|]; [|done].
  destruct (_ && _); [done|]. injection Eh as ->. cbn [viValidatorSet viLastHeightChanged]. fold c. by rewrite Gc.
Qed.

(** Pruning succeeds when what it keeps is stored in full. *)
Lemma prune_loop_total n h ev kv kp db batch pruned :
  (∀ k, kp k = false) →
  (∀ k, kv k = true → h - Z.of_nat n < k ≤ h → ∃ m l, dbValidators db !! k = Some (mkValidatorsInfo (Some m) l)) →
  (∀ k, k ≤ h → dbValidators (write_batch db batch) !! k = dbValidators db !! k) →
  ∃ db', prune_loop bls n h ev kv kp db batch pruned = Done (db', Ok (pruned + Z.of_nat n)).
Proof.
  intros Hkp. revert h db batch pruned. induction n as [|n IH]; intros h db batch pruned Hkv Hb; cbn [prune_loop].
  { eexists. by rewrite Z.add_0_r. }
  assert (∃ vs, prune_validators bls db kv ev h = value vs ∧ (vs = [] ∨ vs = [DelValidators h])) as (vs & -> & Hvs).
  { unfold prune_validators. destruct (kv h) eqn:Ek; [|destruct (h <? ev); eauto]. destruct (Hkv h Ek) as (m & l & E); [lia|].
    exists []. unfold loadValidatorsInfo. rewrite E. cbn [viValidatorSet]. rewrite bool_decide_false by done. by split; [|left]. }
  cbn [mbind outcome_bind value]. unfold prune_params. rewrite Hkp. cbn [mbind outcome_bind value]. set (b' := batch ++ vs ++ [DelParams h] ++ [DelResponse h]).
  assert (Hb' : ∀ k, k ≤ h - 1 → dbValidators (write_batch db b') !! k = dbValidators db !! k).
  { intros k Hk. unfold b'. rewrite !write_batch_app. cbn [write_batch foldl put dbValidators]. destruct Hvs as [->| ->]; cbn [write_batch foldl put dbValidators];
      [|rewrite lookup_delete_ne by lia]; apply Hb; lia. }
  replace (pruned + Z.of_nat (S n)) with (pruned + 1 + Z.of_nat n) by lia. destruct (_ =? 0).
  - apply IH; [|done]. intros k Hk Hr. rewrite Hb' by lia. apply Hkv; [done|lia].
  - apply IH; [|done]. intros k Hk Hr. apply Hkv; [done|lia].
Qed.

Lemma PruneStates_total db from to ev vi pi :
  0 < from < to → loadValidatorsInfo db (Z.min to ev) = Some vi → dbParams db !! to = Some pi → piConsensusParams pi ≠ empty_ParamsMsg →
  (∀ k, from ≤ k < to → k = viLastHeightChanged vi ∨ k = lastStoredHeightFor to (viLastHeightChanged vi) →
     ∃ m l, dbValidators db !! k = Some (mkValidatorsInfo (Some m) l)) →
  ∃ db', PruneStates bls db from to ev = Done (db', Ok (to - from)).
Proof.
  intros Hf Ev Ep Hp Hk. unfold PruneStates. destruct (Z.leb_spec from 0); [lia|]. destruct (Z.leb_spec to 0); [lia|]. cbn [orb].
  destruct (Z.leb_spec to from); [lia|]. rewrite Ev, Ep, (bool_decide_false (piConsensusParams pi = empty_ParamsMsg)) by done.
  set (kv := λ h : Z, _ && _). set (kp := λ h : Z, _ && _).
  destruct (prune_loop_total (Z.to_nat (to - from)) (to - 1) ev kv kp db [] 0) as [db' E]; [done| |done|].
  - intros k Hkv Hr. rewrite Z2Nat.id in Hr by lia. apply Hk; [lia|].
    apply andb_true_iff in Hkv as [_ [E|E]%orb_true_iff]; apply Z.eqb_eq in E; auto.
  - exists db'. rewrite E, Z2Nat.id by lia. by rewrite Z.add_0_l.
Qed.

End prune.

(** ** Examples *)

Section examples.
#[local] Existing Instances toy_keys toy_codec toy_batch toy_batch_laws Merkle.toy_hash Merkle.toy_hash_laws toy_header_codec toy_header_codec_laws
  toy_key_codec toy_key_codec_laws toy_block_codec toy_result_codec toy_result_codec_laws.

Definition ex_db0 : DB := Eval vm_compute in get empty_db (Save empty_db ex_s0).
Definition ex_db1 : DB := Eval vm_compute in get empty_db (Save ex_db0 ex_s1).
Definition ex_db2 : DB := Eval vm_compute in get empty_db (Save ex_db1 ex_s2).

Lemma ex_history1 : ∃ sets params, history false ex_genesis ex_s1 ex_db1 sets params.
Proof.
  eexists _, _. eapply (hist_block false ex_genesis ex_s0 ex_db0); [|exact ex_exec1|reflexivity|by vm_compute].
  apply (hist_genesis false ex_genesis 0 ex_s0 ex_db0); by vm_compute.
Qed.

Lemma stored_history_is_found_witness :
  ∃ sets params, Load false ex_db2 = value (Some ex_s2) ∧ (∃ V, LoadValidators false ex_db2 2 = value V ∧ same_members V (sets 2)) ∧
    LoadConsensusParams ex_db2 2 = value (params 2).
Proof.
  destruct ex_history1 as (sets & params & Hh). 
  assert (Hh2 := hist_block false ex_genesis ex_s1 ex_db1 sets params ex_b2 (ex_id ex_b2) ex_s2 ex_db1 ex_db2 Hh ex_exec2 (reflexivity _) ltac:(by vm_compute)).
  eexists _, _. destruct (stored_history_is_found false ex_genesis ex_s2 ex_db2 _ _ 2 ex_with_validators Hh2) as (E1 & E2 & E3).
  split; [exact E1|]. split; [destruct E2 as (V & EV & HV & _); [by split; vm_compute|exists V; exact (conj EV HV)]|]. apply E3. by split; vm_compute.
Defined.

(** Validators that have not changed since height 1, stored at the checkpoints. *)
Definition ex_msg : ValidatorSetMsg := Eval vm_compute in match vals_ToProto (Some (stValidators ex_s1)) with Ok m => m | Err _ => mkValidatorSetMsg [] None end.
Definition ex_long_db : DB :=
  mkDB None (<[100000 := mkValidatorsInfo (Some ex_msg) 1]> (<[200000 := mkValidatorsInfo (Some ex_msg) 1]>
    (<[150000 := mkValidatorsInfo None 1]> (<[150001 := mkValidatorsInfo None 1]> ∅))))
    {[ 200001 := mkConsensusParamsInfo (params_ToProto DefaultConsensusParams) 200001 ]} ∅ None.

Lemma ex_prunes : ∃ db', PruneStates false ex_long_db 100000 200001 150000 = Done (db', Ok (200001 - 100000)).
Proof.
  apply (PruneStates_total false ex_long_db 100000 200001 150000 (mkValidatorsInfo None 1) (mkConsensusParamsInfo (params_ToProto DefaultConsensusParams) 200001));
    [lia|reflexivity|reflexivity|discriminate|].
  intros k Hk [->| ->]; [cbn [viLastHeightChanged] in Hk; lia|]. exists ex_msg, 1. reflexivity.
Qed.
Lemma pruning_loses_evidence_validators_witness :
  ∃ db', PruneStates false ex_long_db 100000 200001 150000 = Done (db', Ok (200001 - 100000)) ∧
    LoadValidators false db' 150001 = fails "couldn't find validators".
Proof.
  destruct ex_prunes as [db' E]. exists db'. split; [exact E|].
  refine (pruning_loses_evidence_validators false ex_long_db 100000 200001 150000 150001 1 db' _ _ _ _ _ _ _ _ _ E); clear E db';
    [lia|reflexivity|reflexivity|lia|split; vm_compute; [discriminate|reflexivity]|vm_compute; discriminate..].
Defined.

End examples.

End StateStore.
