(* ===== verification/Executor.v ===== *)
(** * Executor: executing blocks, and catching up after a crash

    [state/execution.go]: making a proposal, validating and applying a block; and the handshake
    of [internal/consensus/replay.go], which brings the application, the state and the block
    store together when a node starts.  The application is a parameter with a persistent and a
    working state; the mempool and the evidence pool are answers.  What a step has made
    persistent is a [World]; the worlds a call goes through are where a crash can leave the
    node. *)

From S2P Require Import Prelude Merkle Crypto ValidatorSet Votes Commit Validation Header Light Params Wire Evidence Block State Chain StateStore.
Import ValidatorSet.ValidatorSet Votes.Votes Commit.Commit Validation.Validation Header.Header Light.Light Params.Params Wire.Wire Evidence.Evidence Block.Block State.State Chain.Chain StateStore.StateStore.

Local Open Scope Z_scope.

Module Executor.

(** ** The application *)

Record FinalizeBlockRequest := mkFinalizeBlockRequest {
  rqHash : list Z; rqNextValidatorsHash : list Z; rqProposerAddress : list Z; rqHeight : Z; rqTime : Z;
  rqDecidedLastCommit : Z * list VoteInfo; rqMisbehavior : list Misbehavior; rqTxs : list (list Z); rqSyncingToHeight : Z }.

Record InitChainRequest := mkInitChainRequest {
  icTime : Z; icChainId : string; icInitialHeight : Z; icConsensusParams : ParamsMsg; icValidators : list ValidatorUpdate; icAppStateBytes : list Z }.

(** [Info] answers with the height and the hash of the last committed block and the version. *)
Class AppOps := {
  AppState : Type;
  app_Info : AppState → Z * list Z * Z;
  app_InitChain : AppState → InitChainRequest → result string (AppState * InitChainResponse);
  app_FinalizeBlock : AppState → FinalizeBlockRequest → result string (AppState * FinalizeBlockResponse);
  app_Commit : AppState → result string (AppState * Z)
}.

Section executor.
Context `{PubKeyOps, SignCodec, !BatchOps, !HeaderCodec, Merkle.HashOps, !KeyCodec, !BlockCodec, !ResultCodec, AppOps}.
Variable bls : bool.
(** The store option to keep only the last response. *)
Variable discard : bool.

(** What of the node's disk the executor writes: the state store, the block store and the committed
    application.  The database of the evidence pool is not part of it: [Update] of the pool is
    in EvidencePool, and a replayed block does not reach it (there, [crash_before_update]). *)
Record World := mkWorld { wDb : DB; wBlocks : gmap Z (Block * BlockID); wBase : Z; wHeight : Z; wApp : AppState }.
Definition set_db (w : World) (db : DB) : World := mkWorld db (wBlocks w) (wBase w) (wHeight w) (wApp w).
Definition set_app (w : World) (a : AppState) : World := mkWorld (wDb w) (wBlocks w) (wBase w) (wHeight w) a.

(** [SaveBlock] of the block store, as far as the executor sees it. *)
Definition save_block (w : World) (b : Block) (blockID : BlockID) : World :=
  mkWorld (wDb w) (<[hHeight (bHeader b) := (b, blockID)]> (wBlocks w)) (if wBase w =? 0 then hHeight (bHeader b) else wBase w)
    (hHeight (bHeader b)) (wApp w).

(** ** Proposals *)

Definition buildLastCommitInfoFromStore (db : DB) (block : Block) (initialHeight : Z) : outcome (Z * list VoteInfo) :=
  if hHeight (bHeader block) =? initialHeight then Done (0, [])
  else
    r ← LoadValidators bls db (wrap64 (hHeight (bHeader block) - 1));
    match r with
    | Err _ => Panic "failed to load validator set"
    | Ok lastValSet => BuildLastCommitInfo block lastValSet initialHeight
    end.

Definition buildExtendedCommitInfoFromStore (db : DB) (ec : ExtendedCommit) (initialHeight : Z) (fp : FeatureParams) : outcome (Z * list ExtendedVoteInfo) :=
  if ecHeight ec <? initialHeight then Done (0, [])
  else
    r ← LoadValidators bls db (ecHeight ec);
    match r with
    | Err _ => Panic "failed to load validator set"
    | Ok valSet => BuildExtendedCommitInfo ec valSet initialHeight fp
    end.

(** The answers of the evidence pool (evidence and its size), of the mempool (given the limits on
    bytes and gas) and of the application (given the limit, the first block and the commit). *)
Definition CreateProposalBlock (PendingEvidence : Z → list Evidence * Z) (Reap : Z → Z → list (list Z))
    (PrepareProposal : Z → Block → Z * list ExtendedVoteInfo → list Misbehavior → result string (list (list Z)))
    (now : Z) (db : DB) (height : Z) (s : State) (lastExtCommit : ExtendedCommit) (proposerAddr : list Z) : decoded Block :=
  let emptyMaxBytes := MaxBytes (pBlock (stConsensusParams s)) =? -1 in
  let maxBytes := if emptyMaxBytes then MaxBlockSizeBytes else MaxBytes (pBlock (stConsensusParams s)) in
  let '(evidence, evSize) := PendingEvidence (evMaxBytes (pEvidence (stConsensusParams s))) in
  maxDataBytes ← MaxDataBytes maxBytes evSize (Size (stValidators s));
  let maxReapBytes := if emptyMaxBytes then -1 else maxDataBytes in
  let txs := Reap maxReapBytes (MaxGas (pBlock (stConsensusParams s))) in
  let commit := ToCommit lastExtCommit in
  block ← MakeBlock now s height txs commit evidence proposerAddr;
  info ← buildExtendedCommitInfoFromStore db lastExtCommit (stInitialHeight s) (pFeature (stConsensusParams s));
  misbehavior ← ToABCI (bEvidence block);
  match PrepareProposal maxDataBytes block info misbehavior with
  | Err e => fails e
  | Ok txl =>
      match txs_Validate txl 0 maxDataBytes with
      | Some e => fails e
      | None => b ← MakeBlock now s height txl commit evidence proposerAddr; value b
      end
  end.

(** ** Applying a block *)

Definition finalize_request (db : DB) (initialHeight : Z) (b : Block) (syncingToHeight : Z) : outcome FinalizeBlockRequest :=
  hash ← block_Hash (Some b);
  info ← buildLastCommitInfoFromStore db b initialHeight;
  misbehavior ← ToABCI (bEvidence b);
  Done (mkFinalizeBlockRequest hash (NextValidatorsHash (bHeader b)) (ProposerAddress (bHeader b)) (hHeight (bHeader b)) (hTime (bHeader b))
          info misbehavior (bTxs b) syncingToHeight).

(** [fireEvents] reads the result of every transaction. *)
Definition fireEvents (b : Block) (resp : FinalizeBlockResponse) : outcome () :=
  if zlen (frTxResults resp) <? zlen (bTxs b) then Panic "index out of range" else Done ().

(** [applyBlock] with the application in the working state [a]; how it answers is a parameter,
    since replaying uses a stand-in.  The worlds are those after each persistent write. *)
Definition applyBlock (finalize : FinalizeBlockRequest → result string (AppState * FinalizeBlockResponse)) (commit : AppState → result string (AppState * Z))
    (w : World) (s : State) (blockID : BlockID) (b : Block) (syncingToHeight : Z) : list World * outcome (result string (AppState * State)) :=
  match finalize_request (wDb w) (stInitialHeight s) b syncingToHeight with
  | Panic m => ([], Panic m)
  | Done req =>
      match finalize req with
      | Err e => ([], fails e)
      | Ok (a, resp) =>
          if negb (zlen (bTxs b) =? zlen (frTxResults resp)) then ([], fails "expected tx results length to match size of transactions in block")
          else
            let w1 := set_db w (SaveFinalizeBlockResponse discard (wDb w) (hHeight (bHeader b)) resp) in
            match apply_response bls s blockID b resp with
            | Panic m => ([w1], Panic m)
            | Done (Err e) => ([w1], fails e)
            | Done (Ok s1) =>
                match commit a with
                | Err e => ([w1], fails e)
                | Ok (a, _) =>
                    let w2 := set_app w1 a in
                    let s' := set_app_hash s1 (frAppHash resp) in
                    match Save (wDb w2) s' with
                    | Panic m => ([w1; w2], Panic m)
                    | Done (Err e) => ([w1; w2], fails e)
                    | Done (Ok db) => ([w1; w2; set_db w2 db], fireEvents b (strip_results resp);; value (a, s'))
                    end
                end
            end
      end
  end.

Definition ApplyVerifiedBlock (w : World) (a : AppState) (s : State) (blockID : BlockID) (b : Block) (syncingToHeight : Z) :=
  applyBlock (app_FinalizeBlock a) app_Commit w s blockID b syncingToHeight.

(** [ApplyBlock] validates first. *)
Definition ApplyBlock_with finalize commit (w : World) (s : State) (blockID : BlockID) (b : Block) (syncingToHeight : Z)
    : list World * outcome (result string (AppState * State)) :=
  match validateBlock bls s (Some b) with
  | Panic m => ([], Panic m)
  | Done (Some _) => ([], fails "invalid block")
  | Done None => applyBlock finalize commit w s blockID b syncingToHeight
  end.

(** ** The handshake *)

Definition last_world (w : World) (ws : list World) : World := default w (last ws).

(** [replayBlock]: the last block of the store, with the real application or with the stored
    answer. *)
Definition replayBlock finalize commit (w : World) (s : State) (height : Z) : World * outcome (result string State) :=
  match wBlocks w !! height with
  | None => (w, Panic "nil pointer dereference")
  | Some (b, blockID) =>
      let '(ws, r) := ApplyBlock_with finalize commit w s blockID b (hHeight (bHeader b)) in
      (last_world w ws, r ← r; Done (match r with Ok (_, s') => Ok s' | Err e => Err e end))
  end.

(** The stand-in answers what was stored and commits nothing. *)
Definition mock_finalize (a : AppState) (resp : FinalizeBlockResponse) (_ : FinalizeBlockRequest) : result string (AppState * FinalizeBlockResponse) := Ok (a, resp).
Definition mock_commit (a : AppState) : result string (AppState * Z) := Ok (a, 0).

(** [ExecCommitBlock]: the application alone. *)
Definition ExecCommitBlock (w : World) (a : AppState) (b : Block) (initialHeight finalHeight : Z) : outcome (result string (AppState * list Z)) :=
  req ← finalize_request (wDb w) initialHeight b finalHeight;
  match app_FinalizeBlock a req with
  | Err e => fails e
  | Ok (a, resp) =>
      if negb (zlen (bTxs b) =? zlen (frTxResults resp)) then fails "expected tx results length to match size of transactions in block"
      else match app_Commit a with Err e => fails e | Ok (a, _) => value (a, frAppHash resp) end
  end.

Fixpoint replay_loop (n : nat) (i : Z) (w : World) (a : AppState) (initialHeight : Z) (appHash : list Z) (finalHeight : Z)
    : World * outcome (result string (AppState * list Z)) :=
  match n with
  | O => (w, value (a, appHash))
  | S n =>
      match wBlocks w !! i with
      | None => (w, Panic "nil pointer dereference")
      | Some (b, _) =>
          if (0 <? zlen appHash) && negb (bytes_equal appHash (AppHash (bHeader b)))
          then (w, Panic "block.AppHash does not match AppHash after replay")
          else
            match ExecCommitBlock w a b initialHeight finalHeight with
            | Panic m => (w, Panic m)
            | Done (Err e) => (w, fails e)
            | Done (Ok (a, appHash)) => replay_loop n (i + 1) (set_app w a) a initialHeight appHash finalHeight
            end
      end
  end.

Definition assertAppHash (appHash : list Z) (s : State) : outcome (result string (list Z)) :=
  if bytes_equal appHash (stAppHash s) then value appHash else Panic "state.AppHash does not match AppHash after replay".

(** The blocks the application has not seen, and the last one with the state when it is to be
    moved on. *)
Definition replayBlocks (genDoc : GenesisDoc) (w : World) (a : AppState) (s : State) (appBlockHeight storeBlockHeight : Z) (mutateState : bool)
    : World * outcome (result string (list Z)) :=
  let finalBlock := if mutateState then storeBlockHeight - 1 else storeBlockHeight in
  let firstBlock := if appBlockHeight + 1 =? 1 then stInitialHeight s else appBlockHeight + 1 in
  match replay_loop (Z.to_nat (finalBlock - firstBlock + 1)) firstBlock w a (gdInitialHeight genDoc) [] storeBlockHeight with
  | (w, Panic m) => (w, Panic m)
  | (w, Done (Err e)) => (w, fails e)
  | (w, Done (Ok (a, appHash))) =>
      if mutateState then
        match replayBlock (app_FinalizeBlock a) app_Commit w s storeBlockHeight with
        | (w, Panic m) => (w, Panic m)
        | (w, Done (Err e)) => (w, fails e)
        | (w, Done (Ok s)) => (w, assertAppHash (stAppHash s) s)
        end
      else (w, assertAppHash appHash s)
  end.

Definition state_hash (r : World * outcome (result string State)) : World * outcome (result string (list Z)) :=
  (r.1, r ← r.2; Done (match r with Ok s => Ok (stAppHash s) | Err e => Err e end)).

(** The cases of [ReplayBlocks] once the chain is initialised. *)
Definition replay_cases (genDoc : GenesisDoc) (w : World) (a : AppState) (s : State) (appHash : list Z) (appBlockHeight : Z) : World * outcome (result string (list Z)) :=
  let storeBlockBase := wBase w in let storeBlockHeight := wHeight w in let stateBlockHeight := stLastBlockHeight s in
  if storeBlockHeight =? 0 then (w, assertAppHash appHash s)
  else if (appBlockHeight =? 0) && (stInitialHeight s <? storeBlockBase) then (w, fails "app block height too low")
  else if (0 <? appBlockHeight) && (appBlockHeight <? storeBlockBase - 1) then (w, fails "app block height too low")
  else if storeBlockHeight <? appBlockHeight then (w, fails "app block height too high")
  else if storeBlockHeight <? stateBlockHeight then (w, Panic "StateBlockHeight > StoreBlockHeight")
  else if stateBlockHeight + 1 <? storeBlockHeight then (w, Panic "StoreBlockHeight > StateBlockHeight + 1")
  else if storeBlockHeight =? stateBlockHeight then
    if appBlockHeight <? storeBlockHeight then replayBlocks genDoc w a s appBlockHeight storeBlockHeight false
    else if appBlockHeight =? storeBlockHeight then (w, assertAppHash appHash s)
    else (w, Panic "uncovered case!")
  else if storeBlockHeight =? stateBlockHeight + 1 then
    if appBlockHeight <? stateBlockHeight then replayBlocks genDoc w a s appBlockHeight storeBlockHeight true
    else if appBlockHeight =? stateBlockHeight then state_hash (replayBlock (app_FinalizeBlock a) app_Commit w s storeBlockHeight)
    else if appBlockHeight =? storeBlockHeight then
      match LoadLastFinalizeBlockResponse (wDb w) storeBlockHeight with
      | Err e => (w, fails e)
      | Ok resp =>
          let resp := if zlen (frAppHash resp) =? 0
                      then mkFinalizeBlockResponse (frEvents resp) (frTxResults resp) (frValidatorUpdates resp) (frConsensusParamUpdates resp) appHash
                      else resp in
          state_hash (replayBlock (mock_finalize a resp) mock_commit w s storeBlockHeight)
      end
    else (w, Panic "uncovered case!")
  else (w, Panic "uncovered case!").

(** [TM2PB.ValidatorUpdates]. *)
Fixpoint tm2pb_ValidatorUpdates (l : list Validator) : outcome (list ValidatorUpdate) :=
  match l with
  | [] => Done []
  | v :: l => pk ← deref (ValPubKey v); us ← tm2pb_ValidatorUpdates l; Done (mkValidatorUpdate (VotingPower v) (pk_Type pk) (pk_Bytes pk) :: us)
  end.

(** The request of [InitChain], from a genesis document that was completed. *)
Definition init_request (genDoc : GenesisDoc) : decoded InitChainRequest :=
  if existsb (λ v, negb (IsSupported bls (pk_Type (gvPubKey v)))) (default [] (gdValidators genDoc)) then fails "unsupported public key type"
  else
    validatorSet ← NewValidatorSet (genesis_validators genDoc);
    nextVals ← tm2pb_ValidatorUpdates (Validators validatorSet);
    params ← deref (gdConsensusParams genDoc);
    value (mkInitChainRequest (gdGenesisTime genDoc) (gdChainID genDoc) (gdInitialHeight genDoc) (params_ToProto params) nextVals (gdAppState genDoc)).

(** [ReplayBlocks]: at height 0 the application is initialised first. *)
Definition ReplayBlocks (genDoc : GenesisDoc) (w : World) (s : State) (appHash : list Z) (appBlockHeight : Z)
    : World * outcome (result string (list Z)) :=
  if appBlockHeight =? 0 then
    match init_request genDoc with
    | Panic m => (w, Panic m)
    | Done (Err e) => (w, fails e)
    | Done (Ok req) =>
        match app_InitChain (wApp w) req with
        | Err e => (w, fails e)
        | Ok (a, res) =>
            if stLastBlockHeight s =? 0 then
              match init_chain_state bls s res (zlen (default [] (gdValidators genDoc))) with
              | Panic m => (w, Panic m)
              | Done (Err e) => (w, fails e)
              | Done (Ok s) =>
                  match Save (wDb w) s with
                  | Panic m => (w, Panic m)
                  | Done (Err e) => (w, fails e)
                  | Done (Ok db) => replay_cases genDoc (set_db w db) a s (irAppHash res) appBlockHeight
                  end
              end
            else replay_cases genDoc w a s (irAppHash res) appBlockHeight
        end
    end
  else replay_cases genDoc w (wApp w) s appHash appBlockHeight.

Definition set_app_version (s : State) (v : Z) : State :=
  mkState (stVersionBlock s) v (stSoftware s) (stChainID s) (stInitialHeight s) (stLastBlockHeight s) (stLastBlockID s) (stLastBlockTime s)
    (stNextValidators s) (stValidators s) (stLastValidators s) (stLastHeightValidatorsChanged s) (stConsensusParams s)
    (stLastHeightConsensusParamsChanged s) (stLastResultsHash s) (stAppHash s).

(** [Handshake] of a node that starts with the state [s]. *)
Definition Handshake (genDoc : GenesisDoc) (w : World) (s : State) : World * outcome (result string (list Z)) :=
  let '(blockHeight, appHash, version) := app_Info (wApp w) in
  if blockHeight <? 0 then (w, fails "got a negative last block height from the app")
  else
    let s := if stLastBlockHeight s =? 0 then set_app_version s version else s in
    ReplayBlocks genDoc w s appHash blockHeight.

End executor.

(** ** Crashes *)

(** The contract of the application: after a commit it reports the block it committed. *)
Class AppLaws `{AppOps} : Prop := {
  app_reports a req a' resp a'' r : app_FinalizeBlock a req = Ok (a', resp) → app_Commit a' = Ok (a'', r) → (app_Info a'').1 = (rqHeight req, frAppHash resp)
}.

Section crash.
Context `{PubKeyOps, SignCodec, !BatchOps, !BatchLaws, !HeaderCodec, Merkle.HashOps, !KeyCodec, !BlockCodec, !ResultCodec, !AppOps}.
Context `{!KeyCodecLaws, !BlockCodecLaws, !ResultCodecLaws, !Merkle.HashLaws, !AppLaws}.
Variables (bls discard : bool).

Lemma strip_strip resp : strip_results (strip_results resp) = strip_results resp.
Proof. unfold strip_results. cbn. f_equal. apply list_filter_filter_l. by intros. Qed.

Lemma strip_no_nil resp : zlen (frTxResults (strip_results resp)) = zlen (frTxResults resp) → strip_results resp = resp.
Proof.
  unfold strip_results. cbn [frTxResults]. intros E. destruct resp as [ev l us ps h]. cbn in *. f_equal. unfold zlen in E.
  induction l as [|[x|] l IH]; [done| |].
  - rewrite filter_cons_True in E |- * by done. cbn [length] in E. f_equal. apply IH. lia.
  - exfalso. rewrite filter_cons_False in E by (by intros [? ?]). cbn [length] in E. pose proof (length_filter is_Some l). lia.
Qed.

Lemma strip_all resp : Forall is_Some (frTxResults resp) → strip_results resp = resp.
Proof.
  intros Hl. apply strip_no_nil. unfold strip_results. cbn [frTxResults]. f_equal.
  induction Hl as [|o l Ho _ IH]; [done|]. rewrite filter_cons_True by done. by rewrite IH.
Qed.

(** Writing the response a second time changes nothing. *)
Lemma save_response_twice db h resp :
  SaveFinalizeBlockResponse discard (SaveFinalizeBlockResponse discard db h resp) h (strip_results resp) = SaveFinalizeBlockResponse discard db h resp.
Proof.
  unfold SaveFinalizeBlockResponse. rewrite strip_strip. destruct (discard && (1 <? h)); cbn [put dbState dbValidators dbParams dbResponses dbLastRetain]; f_equal.
  - rewrite delete_insert_ne by lia. rewrite insert_insert_eq. f_equal. apply map_eq. intros k. destruct (decide (k = h - 1)) as [->|];
      [by rewrite !lookup_delete_eq|by rewrite !lookup_delete_ne by done].
  - by rewrite insert_insert_eq.
Qed.

Lemma request_saved db h resp ih b sync :
  finalize_request bls (SaveFinalizeBlockResponse discard db h resp) ih b sync = finalize_request bls db ih b sync.
Proof.
  unfold finalize_request, buildLastCommitInfoFromStore, LoadValidators, loadValidatorsInfo, SaveFinalizeBlockResponse. by destruct (discard && (1 <? h)).
Qed.

Lemma Load_saved db h resp : Load bls (SaveFinalizeBlockResponse discard db h resp) = Load bls db.
Proof. unfold Load, SaveFinalizeBlockResponse. by destruct (discard && (1 <? h)). Qed.

(** A successful application of a block, step by step. *)
Lemma applyBlock_inv finalize commit w s blockID b sync ws a' s' :
  applyBlock bls discard finalize commit w s blockID b sync = (ws, value (a', s')) →
  ∃ req a resp s1 r db, finalize_request bls (wDb w) (stInitialHeight s) b sync = Done req ∧ finalize req = Ok (a, resp) ∧
    zlen (bTxs b) = zlen (frTxResults resp) ∧ strip_results resp = resp ∧ apply_response bls s blockID b resp = value s1 ∧ commit a = Ok (a', r) ∧
    s' = set_app_hash s1 (frAppHash resp) ∧
    let w1 := set_db w (SaveFinalizeBlockResponse discard (wDb w) (hHeight (bHeader b)) resp) in
    Save (wDb w1) s' = value db ∧ ws = [w1; set_app w1 a'; set_db (set_app w1 a') db].
Proof.
  unfold applyBlock. destruct (finalize_request _ _ _ _ _) as [req|] eqn:Er; [|done]. destruct (finalize req) as [[a resp]|] eqn:Ef; [|done].
  destruct (Z.eqb_spec (zlen (bTxs b)) (zlen (frTxResults resp))) as [El|]; [|done]. cbn [negb].
  destruct (apply_response _ _ _ _ _) as [[s1|]|] eqn:Ea; [|done..]. destruct (commit a) as [[a1 r]|] eqn:Ec; [|done].
  destruct (Save _ _) as [[db|]|] eqn:Es; [|done..]. unfold fireEvents. destruct (Z.ltb_spec (zlen (frTxResults (strip_results resp))) (zlen (bTxs b))); [done|].
  intros [= <- <- <-]. exists req, a, resp, s1, r, db. split_and!; try done. apply strip_no_nil.
  assert (zlen (frTxResults (strip_results resp)) ≤ zlen (frTxResults resp)); [|lia].
  unfold strip_results, zlen. cbn [frTxResults]. pose proof (length_filter is_Some (frTxResults resp)). lia.
Qed.

Lemma applyBlock_intro finalize commit w s blockID b sync req a resp s1 a' r db :
  finalize_request bls (wDb w) (stInitialHeight s) b sync = Done req → finalize req = Ok (a, resp) → zlen (bTxs b) = zlen (frTxResults resp) → strip_results resp = resp →
  apply_response bls s blockID b resp = value s1 → commit a = Ok (a', r) →
  let s' := set_app_hash s1 (frAppHash resp) in
  let w1 := set_db w (SaveFinalizeBlockResponse discard (wDb w) (hHeight (bHeader b)) resp) in
  Save (wDb w1) s' = value db →
  applyBlock bls discard finalize commit w s blockID b sync = ([w1; set_app w1 a'; set_db (set_app w1 a') db], value (a', s')).
Proof.
  intros Er Ef El Es Ea Ec s' w1 Ed. unfold applyBlock. rewrite Er, Ef, El, Z.eqb_refl, Ea, Ec. cbn [negb].
  subst s' w1. cbn [wDb set_db set_app] in Ed |- *. unfold value in Ed |- *. cbn beta iota. rewrite Ed, Es. unfold fireEvents. rewrite El, Z.ltb_irrefl. done.
Qed.

(** ** Recovery *)

(** A node between two blocks: its stores, its state and its application agree. *)
Definition in_sync (w : World) (s : State) : Prop :=
  Load bls (wDb w) = value (Some s) ∧ wHeight w = stLastBlockHeight s ∧ 0 < wBase w ≤ stLastBlockHeight s ∧
  (app_Info (wApp w)).1 = (stLastBlockHeight s, stAppHash s).

(** The handshake of a node whose chain has started. *)
Lemma Handshake_started g w s h x :
  0 < stLastBlockHeight s → (app_Info (wApp w)).1 = (h, x) → 0 < h → Handshake bls discard g w s = replay_cases bls discard g w (wApp w) s x h.
Proof.
  intros Hs E Hh. unfold Handshake. destruct (app_Info (wApp w)) as [[h' x'] v]. cbn in E. injection E as -> ->.
  destruct (Z.ltb_spec h 0); [lia|]. destruct (Z.eqb_spec (stLastBlockHeight s) 0); [lia|]. unfold ReplayBlocks. destruct (Z.eqb_spec h 0); [lia|done].
Qed.

Lemma replay_synced g w a s x :
  0 < stLastBlockHeight s → wHeight w = stLastBlockHeight s → 0 < wBase w ≤ stLastBlockHeight s → x = stAppHash s →
  replay_cases bls discard g w a s x (stLastBlockHeight s) = (w, value x).
Proof.
  intros Hs Hh Hb ->. unfold replay_cases. rewrite Hh. destruct (Z.eqb_spec (stLastBlockHeight s) 0); [lia|]. cbn [andb].
  destruct (Z.ltb_spec (stLastBlockHeight s) (wBase w - 1)); [lia|]. rewrite andb_false_r.
  rewrite !Z.ltb_irrefl, !Z.eqb_refl. destruct (Z.ltb_spec (stLastBlockHeight s + 1) (stLastBlockHeight s)); [lia|]. unfold assertAppHash. by rewrite bytes_equal_refl.
Qed.

(** One block ahead of the state: the application has it or not. *)
Lemma replay_one_ahead g w a s x h :
  0 < stLastBlockHeight s → wHeight w = stLastBlockHeight s + 1 → 0 < wBase w ≤ stLastBlockHeight s →
  (h = stLastBlockHeight s → replay_cases bls discard g w a s x h = state_hash (replayBlock bls discard (app_FinalizeBlock a) app_Commit w s (stLastBlockHeight s + 1))) ∧
  (h = stLastBlockHeight s + 1 → ∀ resp, LoadLastFinalizeBlockResponse (wDb w) (stLastBlockHeight s + 1) = Ok resp → frAppHash resp = x →
     replay_cases bls discard g w a s x h = state_hash (replayBlock bls discard (mock_finalize a resp) mock_commit w s (stLastBlockHeight s + 1))).
Proof.
  intros Hs Hh Hb. unfold replay_cases. rewrite Hh. destruct (Z.eqb_spec (stLastBlockHeight s + 1) 0); [lia|].
  split; intros ->.
  - destruct (Z.eqb_spec (stLastBlockHeight s) 0); [lia|]. cbn [andb]. destruct (Z.ltb_spec (stLastBlockHeight s) (wBase w - 1)); [lia|]. rewrite andb_false_r.
    destruct (Z.ltb_spec (stLastBlockHeight s + 1) (stLastBlockHeight s)); [lia|]. rewrite Z.ltb_irrefl.
    destruct (Z.eqb_spec (stLastBlockHeight s + 1) (stLastBlockHeight s)); [lia|]. by rewrite Z.ltb_irrefl, !Z.eqb_refl.
  - intros resp -> Ex. destruct (Z.eqb_spec (stLastBlockHeight s + 1) 0); [lia|]. cbn [andb]. destruct (Z.ltb_spec (stLastBlockHeight s + 1) (wBase w - 1)); [lia|]. rewrite andb_false_r.
    rewrite !Z.ltb_irrefl. destruct (Z.ltb_spec (stLastBlockHeight s + 1) (stLastBlockHeight s)); [lia|].
    destruct (Z.eqb_spec (stLastBlockHeight s + 1) (stLastBlockHeight s)); [lia|]. rewrite !Z.eqb_refl.
    destruct (Z.eqb_spec (zlen (frAppHash resp)) 0) as [Ez|]; [|done]. by rewrite <-Ex; destruct resp.
Qed.

Lemma replayBlock_intro finalize commit w s b blockID ws a' s' :
  wBlocks w !! hHeight (bHeader b) = Some (b, blockID) → validateBlock bls s (Some b) = Done None →
  applyBlock bls discard finalize commit w s blockID b (hHeight (bHeader b)) = (ws, value (a', s')) →
  state_hash (replayBlock bls discard finalize commit w s (hHeight (bHeader b))) = (last_world w ws, value (stAppHash s')).
Proof. intros Eb Hv E. unfold replayBlock, ApplyBlock_with. by rewrite Eb, Hv, E. Qed.

(** Replaying the block in a world with the same stores, with an application that answers and
    commits the same, ends as the first run did. *)
Lemma replay_again w w' s b blockID req resp s1 a' db fin com a0 r0 :
  wBlocks w !! hHeight (bHeader b) = Some (b, blockID) → validateBlock bls s (Some b) = Done None →
  wBlocks w' = wBlocks w → wBase w' = wBase w → wHeight w' = wHeight w →
  let db1 := SaveFinalizeBlockResponse discard (wDb w) (hHeight (bHeader b)) resp in
  let s' := set_app_hash s1 (frAppHash resp) in
  SaveFinalizeBlockResponse discard (wDb w') (hHeight (bHeader b)) resp = db1 → finalize_request bls (wDb w') (stInitialHeight s) b (hHeight (bHeader b)) = Done req →
  fin req = Ok (a0, resp) → com a0 = Ok (a', r0) → zlen (bTxs b) = zlen (frTxResults resp) → strip_results resp = resp → apply_response bls s blockID b resp = value s1 →
  Save db1 s' = value db →
  state_hash (replayBlock bls discard fin com w' s (hHeight (bHeader b))) = (set_db (set_app (set_db w db1) a') db, value (stAppHash s')).
Proof.
  intros Hblk Hv B1 B2 B3 db1 s' Hdb Hr Hf Hc El Est Ea Ed. rewrite <-B1 in Hblk.
  pose proof (applyBlock_intro fin com w' s blockID b (hHeight (bHeader b)) req a0 resp s1 a' r0 db Hr Hf El Est Ea Hc) as Hi.
  cbn [wDb set_db] in Hi. rewrite Hdb in Hi. specialize (Hi Ed). rewrite (replayBlock_intro _ _ _ _ _ _ _ _ _ Hblk Hv Hi). f_equal.
  unfold last_world. cbn. unfold set_db, set_app. cbn. by rewrite B1, B2, B3.
Qed.

Lemma Load_Save db s db' : state_ok bls s → next_height s + 1 ≤ max_int64 → Save db s = value db' → Load bls db' = value (Some s).
Proof.
  intros Hs Hmax E. destruct (Save_ok bls db s Hs Hmax) as (i0 & i & p & m & E' & _ & _ & _ & _ & Hm). rewrite E in E'. injection E' as ->.
  unfold Load. cbn [dbState saved]. by rewrite Hm.
Qed.

(** The response is saved again, and the request is the same. *)
Lemma saved_again db h resp ih b sync req :
  strip_results resp = resp → finalize_request bls db ih b sync = Done req →
  let db1 := SaveFinalizeBlockResponse discard db h resp in
  SaveFinalizeBlockResponse discard db1 h resp = db1 ∧ finalize_request bls db1 ih b sync = Done req ∧ dbResponses db1 !! h = Some resp.
Proof.
  intros Est Er db1. split_and!; [rewrite <-Est at 1; apply save_response_twice|etransitivity; [apply request_saved|exact Er]|].
  unfold db1, SaveFinalizeBlockResponse. rewrite Est. destruct (discard && _); cbn; by rewrite lookup_insert_eq.
Qed.


(** when the chain starts above height 1 and the node crashes while it applies the first block,
    after storing it and before saving the state, the handshake can never succeed,
    whatever the application does: the block store seems to be more than one block ahead of the state. *)
Theorem first_block_crash_is_fatal g w s x :
  stLastBlockHeight s = 0 → 1 < stInitialHeight s → wHeight w = stInitialHeight s →
  (Handshake bls discard g w s).2 ≠ value x.
Proof.
  intros H0' Hi Hh.
  assert (Hcases : ∀ w' a s' y h, stLastBlockHeight s' = 0 → wHeight w' = stInitialHeight s → (replay_cases bls discard g w' a s' y h).2 ≠ value x).
  { intros w' a s' y h E0 Ew. unfold replay_cases. rewrite E0, Ew. destruct (Z.eqb_spec (stInitialHeight s) 0); [lia|].
    destruct (_ && _); [done|]. destruct (_ && _); [done|]. destruct (_ <? h); [done|]. destruct (Z.ltb_spec (stInitialHeight s) 0); [lia|].
    destruct (Z.ltb_spec (0 + 1) (stInitialHeight s)); [done|lia]. }
  unfold Handshake. destruct (app_Info (wApp w)) as [[h y] v]. destruct (h <? 0); [done|]. rewrite H0'. cbn [Z.eqb]. unfold ReplayBlocks.
  destruct (h =? 0); [|by apply Hcases]. destruct (init_request bls g) as [[req|]|]; [|done..]. destruct (app_InitChain (wApp w) req) as [[a res]|]; [|done].
  cbn [stLastBlockHeight set_app_version]. rewrite H0'. cbn [Z.eqb].
  destruct (init_chain_state _ _ _ _) as [[s1|]|] eqn:Es1; [|done..]. destruct (Save _ s1) as [[db|]|]; [|done..]. apply Hcases; [|done].
  unfold init_chain_state in Es1. apply outcome_bind_Done in Es1 as (r & _ & Es1). destruct r as [sets|]; [|done]. injection Es1 as <-. exact H0'.
Qed.

(** ** Valid blocks can be applied *)

Lemma vote_infos_spec vals : ∀ sigs,
  Forall (valid_val bls) vals → length vals = length sigs →
  vote_infos vals sigs = Done (zip_with (λ v cs, mkVoteInfo (Address v) (VotingPower v) (cs_Flag cs)) vals sigs).
Proof.
  induction vals as [|v vals IH]; intros [|cs sigs] Hv Hl; [done..|]. injection Hl as Hl. apply Forall_cons in Hv as [(pk & Epk & Ea & _)%valid_val_key Hv].
  cbn [vote_infos]. unfold tm2pb_Validator. rewrite Epk. cbn [deref mbind outcome_bind]. rewrite (IH sigs Hv Hl). cbn. by rewrite Ea.
Qed.

(** Who signed the last block, as the application is told. *)
Definition decided (s : State) (c : Commit) : Z * list VoteInfo :=
  (cRound c, zip_with (λ v cs, mkVoteInfo (Address v) (VotingPower v) (cs_Flag cs)) (Validators (stLastValidators s)) (Signatures c)).

Lemma infos_same_members V W sigs :
  same_members V W → zip_with (λ v cs, mkVoteInfo (Address v) (VotingPower v) (cs_Flag cs)) (Validators V) sigs =
                     zip_with (λ v cs, mkVoteInfo (Address v) (VotingPower v) (cs_Flag cs)) (Validators W) sigs.
Proof.
  unfold same_members. revert sigs. generalize (Validators V) (Validators W). intros l. induction l as [|v l IH]; intros [|w k] sigs Hs; [done..|].
  destruct sigs as [|cs sigs]; [done|]. cbn in Hs. injection Hs as Ea Ek Ep Hs. cbn. rewrite Ea, Ep. f_equal. by apply IH.
Qed.

Lemma valid_block_hash b : Block_ValidateBasic bls (Some b) = Done None → ∃ x, block_Hash (Some b) = Done x.
Proof.
  unfold Block_ValidateBasic, block_Hash, fillHeader. destruct (header_ValidateBasic _); [done|]. destruct (bLastCommit b) as [c|]; [|done].
  destruct (commit_ValidateBasic c); [done|]. intros (ch & -> & E)%outcome_bind_Done. destruct (negb _); [done|]. destruct (negb _); [done|].
  apply outcome_bind_Done in E as (e & _ & E). destruct e; [done|]. apply outcome_bind_Done in E as (eh & -> & _).
  destruct (bool_decide (LastCommitHash _ = _)), (bool_decide (EvidenceHash _ = _)); cbn [mbind outcome_bind]; eexists; reflexivity.
Qed.

Lemma commit_info_spec s db sets params b c :
  state_ok bls s → next_height s + 1 ≤ max_int64 → remembers bls s db sets params → hHeight (bHeader b) = next_height s → bLastCommit b = Some c →
  commits_last s (bHeader b) c →
  buildLastCommitInfoFromStore bls db b (stInitialHeight s) = Done (if hHeight (bHeader b) =? stInitialHeight s then (0, []) else decided s c).
Proof.
  intros Hs Hmax R Eh Ec Hc. unfold buildLastCommitInfoFromStore, BuildLastCommitInfo, commits_last in *.
  destruct (Z.eqb_spec (hHeight (bHeader b)) (stInitialHeight s)) as [|Hn]; [done|].
  pose proof (ok_initial bls s Hs) as Hi. pose proof (ok_height bls s Hs) as Hh. unfold next_height in Eh. destruct (Z.eqb_spec (stLastBlockHeight s) 0) as [|Hnz]; [lia|].
  assert (Hlast : stInitialHeight s ≤ stLastBlockHeight s ≤ next_height s + 1) by (unfold next_height; destruct (Z.eqb_spec (stLastBlockHeight s) 0); lia).
  assert (wrap64 (hHeight (bHeader b) - 1) = stLastBlockHeight s) as -> by (rewrite Eh, wrap64_id by (unfold_ints; lia); lia).
  destruct (remembers_validators bls s db sets params _ Hs Hmax R Hlast) as (V & -> & Hm & (_ & _ & HV & _) & _).
  rewrite (rem_last _ _ _ _ _ R) in Hm by lia. cbn [mbind outcome_bind value]. rewrite Ec. cbn [deref mbind outcome_bind].
  unfold VerifyCommit in Hc. destruct (verifyBasicValsAndCommit _ _ _ _) eqn:Eb; [done|]. apply verifyBasic_None in Eb as (El & _ & _).
  assert (EV : length (Validators V) = length (Validators (stLastValidators s))) by (pose proof (f_equal length Hm) as E; by rewrite !length_fmap in E).
  unfold Size, zlen in El. unfold zlen. rewrite EV, El, Z.eqb_refl. cbn [negb]. rewrite vote_infos_spec; [|done|lia]. cbn [mbind outcome_bind].
  unfold decided. by rewrite (infos_same_members V _ _ Hm).
Qed.

Lemma request_spec s db sets params b sync m :
  state_ok bls s → next_height s + 1 ≤ max_int64 → remembers bls s db sets params → validateBlock bls s (Some b) = Done None → ToABCI (bEvidence b) = Done m →
  ∃ req c, finalize_request bls db (stInitialHeight s) b sync = Done req ∧ bLastCommit b = Some c ∧ rqTxs req = bTxs b ∧ rqMisbehavior req = m ∧
    rqHeight req = next_height s ∧ rqDecidedLastCommit req = if next_height s =? stInitialHeight s then (0, []) else decided s c.
Proof.
  intros Hs Hmax R Hv Em. apply validateBlock_spec in Hv as (c & z & Ec & Hb & Hf & Hc & _); [|done|lia].
  assert (Eh : hHeight (bHeader b) = next_height s) by apply Hf. destruct (valid_block_hash b Hb) as [x Ex]. unfold finalize_request.
  rewrite Ex, (commit_info_spec s db sets params b c Hs Hmax R Eh Ec Hc), Em. cbn [mbind outcome_bind]. eexists _, c. split; [done|]. cbn. by rewrite Eh.
Qed.

Lemma agrees_saved db h resp : agrees db (SaveFinalizeBlockResponse discard db h resp).
Proof. unfold SaveFinalizeBlockResponse. by destruct (discard && (1 <? h)). Qed.

(** C5: a node whose database holds the history of the chain can hand every valid block, whose
    evidence converts to misbehaviour without a panic, to the
    application: what it asks names the block's transactions and misbehaviour, the next
    height, and the vote of every validator of the last block.  When the application answers
    with one result per transaction, none of them nil, and commits, applying the block does not panic: it ends with an error
    that the application's updates caused, or with the next state, saved on top of the history
    and beside the committed application. *)
Theorem valid_block_is_applied g s sets params w blockID b sync m :
  with_validators bls g → history bls g s (wDb w) sets params → validateBlock bls s (Some b) = Done None → block_ValidateBasic blockID = true →
  next_height s + 2 ≤ max_int64 → ToABCI (bEvidence b) = Done m →
  ∃ req c, finalize_request bls (wDb w) (stInitialHeight s) b sync = Done req ∧ bLastCommit b = Some c ∧ rqTxs req = bTxs b ∧ rqMisbehavior req = m ∧
    rqHeight req = next_height s ∧ (rqDecidedLastCommit req = if next_height s =? stInitialHeight s then (0, []) else decided s c) ∧
    ∀ a resp a' r, app_FinalizeBlock (wApp w) req = Ok (a, resp) → zlen (bTxs b) = zlen (frTxResults resp) → Forall is_Some (frTxResults resp) →
      app_Commit a = Ok (a', r) →
      ∃ ws res, ApplyVerifiedBlock bls discard w (wApp w) s blockID b sync = (ws, Done res) ∧
        match res with
        | Err e => apply_response bls s blockID b resp = fails e
        | Ok (a'', s') => a'' = a' ∧ wApp (last_world w ws) = a' ∧ executes bls s b blockID s' ∧
            ∃ sets' params', history bls g s' (wDb (last_world w ws)) sets' params'
        end.
Proof.
  intros Hg Hh Hv Hid Hmax Em. destruct (history_remembers bls g s (wDb w) sets params Hg Hh) as (Hs & Hmax' & R).
  destruct (request_spec s (wDb w) sets params b sync m Hs Hmax' R Hv Em) as (req & c & Er & Ec & Et & Emb & Eh & Ed). exists req, c. split_and!; try done.
  intros a resp a' r Ef El Hsome Ecm.
  pose proof (strip_all resp Hsome) as Est.
  destruct (apply_response_ok bls s blockID b resp Hs Hmax Hid Hv) as (res & Ea & Hres). destruct res as [s1|e].
  - destruct Hres as [Hok1 (E1 & E2 & _)]. set (s' := set_app_hash s1 (frAppHash resp)).
    assert (Hs' : state_ok bls s') by (by apply set_app_hash_ok). set (db1 := SaveFinalizeBlockResponse discard (wDb w) (hHeight (bHeader b)) resp).
    destruct (Save_ok bls db1 s' Hs') as (i0 & i & p & mm & Es & _); [change (next_height s') with (next_height s1); lia|].
    pose proof (applyBlock_intro (app_FinalizeBlock (wApp w)) app_Commit w s blockID b sync req a resp s1 a' r _ Er Ef El Est Ea Ecm Es) as Hi.
    eexists _, _. split; [exact Hi|]. split; [done|]. split; [done|].
    assert (Hx : executes bls s b blockID s') by (split_and!; [done|done|done|]; exists resp, s1; by split). split; [exact Hx|].
    eexists _, _. eapply hist_block; [exact Hh|exact Hx|apply (agrees_saved (wDb w))|exact Es].
  - eexists _, _. unfold ApplyVerifiedBlock, applyBlock. rewrite Er, Ef, El, Z.eqb_refl, Ea. cbn [negb]. split; [reflexivity|reflexivity].
Qed.

(** ** Proposals fit *)

(** C18: the block a proposer makes, if it is valid for the state, is no larger than the limit of the parameters, when the
    evidence pool reports the size of what it returns, the last block was not decided by
    more validators than decide the next one, the application hash has at most 173 bytes (what
    [MaxHeaderBytes] leaves for it), the application's version and the heights, rounds and part counts of the last
    block and its commit have their machine widths, and the block id of the commit is well formed. *)
Theorem proposal_fits PendingEvidence Reap PrepareProposal now db s ec proposer b :
  let c := ToCommit ec in
  state_ok bls s → next_height s ≤ max_int64 →
  CreateProposalBlock bls PendingEvidence Reap PrepareProposal now db (next_height s) s ec proposer = value b →
  validateBlock bls s (Some b) = Done None →
  (∀ max, evidence_ByteSize (PendingEvidence max).1 = Done (PendingEvidence max).2) →
  in_uint64 (stVersionApp s) → zlen (stAppHash s) ≤ 173 → 0 ≤ psh_Total (PSH (stLastBlockID s)) < 2 ^ 32 →
  block_ValidateBasic (cBlockID c) = true → 0 ≤ psh_Total (PSH (cBlockID c)) < 2 ^ 32 → cHeight c ≤ max_int64 → cRound c ≤ max_int32 →
  data_ProtoSize (bTxs b) ≤ max_int64 →
  Size (stLastValidators s) ≤ Size (stValidators s) →
  block_Size b ≤ (if MaxBytes (pBlock (stConsensusParams s)) =? -1 then MaxBlockSizeBytes else MaxBytes (pBlock (stConsensusParams s))).
Proof.
  intros c Hs Hmax E Hv Hpool Happ Hah Hlb Hcb Hct Hch Hcr Hd Hn. unfold CreateProposalBlock in E.
  pose proof (Hpool (evMaxBytes (pEvidence (stConsensusParams s)))) as Hev.
  destruct (PendingEvidence (evMaxBytes (pEvidence (stConsensusParams s)))) as [evs size]. cbn [fst snd] in Hev.
  apply outcome_bind_Done in E as (maxData & Emd & E). apply outcome_bind_Done in E as (b0 & _ & E). do 2 apply outcome_bind_Done in E as (? & _ & E).
  destruct (PrepareProposal _ _ _ _) as [txl|]; [|done]. destruct (txs_Validate txl 0 maxData) eqn:Etx; [done|].
  apply outcome_bind_Done in E as (b' & Eb & [= ->]). fold c in Eb. clearbody c. apply MakeBlock_inv in Eb as (ch & eh & vh & nvh & pbts & _ & _ & _ & _ & _ & ->).
  apply validateBlock_spec in Hv as (c' & z & [= <-] & Hb & Hf & Hc & _); [|done..]. cbn [bHeader bTxs bEvidence bLastCommit] in *.
  unfold Block_ValidateBasic in Hb. cbn [bHeader bLastCommit] in Hb. destruct (header_ValidateBasic _) eqn:Ehv in Hb; [done|].
  destruct (commit_ValidateBasic c) eqn:Ecv in Hb; [done|]. pose proof (ok_params bls s Hs) as Hp.
  assert (Hbytes : 0 ≤ (if MaxBytes (pBlock (stConsensusParams s)) =? -1 then MaxBlockSizeBytes else MaxBytes (pBlock (stConsensusParams s))) ≤ MaxBlockSizeBytes).
  { unfold params_ValidateBasic in Hp. destruct (Z.eqb_spec (MaxBytes (pBlock (stConsensusParams s))) (-1)); [unfold MaxBlockSizeBytes; lia|].
    destruct (Z.eqb_spec (MaxBytes (pBlock (stConsensusParams s))) 0); [done|]. destruct (Z.ltb_spec (MaxBytes (pBlock (stConsensusParams s))) (-1)); [done|].
    destruct (Z.ltb_spec MaxBlockSizeBytes (MaxBytes (pBlock (stConsensusParams s)))); [done|]. lia. }
  set (mb := if MaxBytes (pBlock (stConsensusParams s)) =? -1 then MaxBlockSizeBytes else MaxBytes (pBlock (stConsensusParams s))) in *. clearbody mb.
  assert (Hsig : zlen (Signatures c) ≤ Size (stValidators s) ∧ Forall (λ cs, cs_ValidateBasic cs = None) (Signatures c)).
  { unfold commits_last in Hc. cbn [hHeight] in Hc. destruct (Z.eqb_spec (next_height s) (stInitialHeight s)) as [|Hni]; [rewrite Hc; split; [apply zlen_nonneg|done]|].
    unfold VerifyCommit in Hc. destruct (verifyBasicValsAndCommit _ _ _ _) eqn:Evb; [done|]. apply verifyBasic_None in Evb as (El & Ehc & _).
    pose proof (next_height_pos bls s Hs). pose proof (ok_initial bls s Hs). split; [unfold Size, zlen in *; lia|]. apply commit_sigs_valid; [done|lia]. }
  eapply (block_fits (mkBlock _ txl evs (Some c)) c); cbn [bHeader bTxs bEvidence bLastCommit]; [exact Ehv|split_and!; [apply Happ..|exact Hmax|apply Hlb|apply Hlb]|exact Hah|done|exact Ecv|apply Hsig|done|done|done|done|apply Hsig|exact Hbytes|exact Hev|exact Emd|].
  assert (0 ≤ maxData) by (unfold MaxDataBytes in Emd; case_hyp Emd; injection Emd as <-; zbool; lia).
  assert (maxData ≤ max_int64).
  { unfold MaxDataBytes, MaxOverheadForBlock, MaxHeaderBytes, MaxCommitBytes, MaxCommitOverheadBytes, MaxCommitSigBytes in Emd. case_hyp Emd. injection Emd as <-.
    assert (0 ≤ size) by (unfold evidence_ByteSize in Hev; case_hyp Hev; injection Hev as <-; apply zsum_nonneg; intros; apply message_field_nonneg, evidence_size).
    assert (0 ≤ Size (stValidators s)) by apply zlen_nonneg. unfold MaxBlockSizeBytes in *. unfold_ints. lia. }
  destruct (txs_Validate_spec txl 0 maxData) as [->|]; [lia|done| |done|unfold data_ProtoSize; cbn [zsum]; lia|lia].
  unfold data_ProtoSize in Hd. lia.
Qed.

End crash.

(** ** Examples *)

(** An application that remembers the height it committed and the height it is working on. *)
Definition toy_app : AppOps :=
  {| AppState := Z * Z;
     app_Info a := (a.1, [5], 1);
     app_InitChain _ _ := Ok ((0, 0), mkInitChainResponse [] [] None);
     app_FinalizeBlock a req := Ok ((a.1, rqHeight req), mkFinalizeBlockResponse [] ((λ _, Some (mkExecTxResult 0 [1] "log" "" 1 1 "")) <$> rqTxs req) [] None [5]);
     app_Commit a := Ok ((a.2, a.2), 0) |}.
#[local] Existing Instance toy_app.
Lemma toy_app_laws : AppLaws.
Proof. split. intros a req a' resp a'' r. cbn. by intros [= <- <-] [= <- _]. Qed.

Section examples.
#[local] Existing Instances toy_keys toy_codec toy_batch toy_batch_laws Merkle.toy_hash Merkle.toy_hash_laws toy_header_codec toy_header_codec_laws
  toy_key_codec toy_key_codec_laws toy_block_codec toy_block_codec_laws toy_result_codec toy_result_codec_laws toy_app_laws.

Definition ex_w : World := mkWorld ex_db1 {[ 1 := (ex_b1, ex_id ex_b1) ]} 1 1 (1, 1).
Definition ex_run := ApplyVerifiedBlock false true (save_block ex_w ex_b2 (ex_id ex_b2)) (wApp ex_w) ex_s1 (ex_id ex_b2) ex_b2 2.
Definition ex_end : (Z * Z) * State := Eval vm_compute in match ex_run.2 with Done (Ok r) => r | _ => ((0, 0), no_state) end.
(** The worlds the run goes through: a crash after the commit and before the state is saved is the third. *)
Definition ex_crashed : World := default ex_w (ex_run.1 !! 1%nat).

Lemma ex_history : ∃ sets params, history false ex_genesis ex_s1 (wDb ex_w) sets params.
Proof. exact ex_history1. Qed.
Lemma valid_block_is_applied_witness :
  ∃ req c, finalize_request false (wDb ex_w) 1 ex_b2 2 = Done req ∧ bLastCommit ex_b2 = Some c ∧ rqDecidedLastCommit req = decided ex_s1 c.
Proof.
  destruct ex_history as (sets & params & Hh).
  destruct (valid_block_is_applied false true ex_genesis ex_s1 sets params ex_w (ex_id ex_b2) ex_b2 2 []) as (req & c & Er & Ec & _ & _ & _ & Ed & _);
    [exact ex_with_validators|exact Hh|by vm_compute..|]. by exists req, c.
Defined.

(** The commit of the example as the proposer has it. *)
Definition ex_extended (c : Commit) : ExtendedCommit :=
  {| ecHeight := cHeight c; ecRound := cRound c; ecBlockID := cBlockID c;
     ExtendedSignatures := (λ cs, {| ecs_CommitSig := cs; ecs_Extension := []; ecs_ExtensionSignature := [] |}) <$> Signatures c |}.
Definition ex_propose (tx : list Z) (db : DB) (s : State) : decoded Block :=
  CreateProposalBlock false (λ _, ([], 0)) (λ _ _, [tx]) (λ _ b _ _, Ok (bTxs b)) (day 3) db (next_height s) s (ex_extended (ex_commit s (day 3))) (toy_address 1).

Lemma proposal_fits_witness : ex_propose [7] ex_db1 ex_s1 = value ex_b2 ∧ block_Size ex_b2 ≤ 4194304.
Proof.
  split; [by vm_compute|].
  apply (proposal_fits false (λ _, ([], 0)) (λ _ _, [[7]]) (λ _ b _ _, Ok (bTxs b)) (day 3) ex_db1 ex_s1 (ex_extended (ex_commit ex_s1 (day 3))) (toy_address 1) ex_b2);
    [exact ex_ok1|by vm_compute..].
Defined.

(** The last block was decided by twelve validators, the next one will be by one. *)
Definition ex_set (n : Z) : ValidatorSet :=
  match NewValidatorSet ((λ k : Z, NewValidator (k : PubKey) 10) <$> seqZ 1 n) with Done V => V | Panic _ => empty_set end.
Definition ex_shrunk : State := Eval vm_compute in
  let p := stConsensusParams ex_s1 in
  mkState (stVersionBlock ex_s1) (stVersionApp ex_s1) (stSoftware ex_s1) (stChainID ex_s1) 1 1 (stLastBlockID ex_s1) (stLastBlockTime ex_s1)
    (ex_set 1) (ex_set 1) (ex_set 12) 3 (mkConsensusParams (mkBlockParams 2000 (-1)) (mkEvidenceParams 100 100 100) (pValidator p) (pVersion p) (pSynchrony p) (pFeature p)) 1 [] [].
Definition ex_shrunk_db : DB := Eval vm_compute in
  mkDB None {[ 1 := mkValidatorsInfo (match vals_ToProto (Some (ex_set 12)) with Ok m => Some m | Err _ => None end) 1 ]} ∅ ∅ None.

(** When the number of validators drops, a proposer may make a valid block above the limit. *)
Lemma oversized_proposal :
  ∃ b, ex_propose (replicate 1050 0) ex_shrunk_db ex_shrunk = value b ∧ validateBlock false ex_shrunk (Some b) = Done None ∧
    MaxBytes (pBlock (stConsensusParams ex_shrunk)) < block_Size b.
Proof. eexists. split; [vm_compute; reflexivity|]. split; by vm_compute. Qed.


(** The state of the example with a chain that starts at height 10. *)
Definition ex_late : State := Eval vm_compute in
  get no_state (MakeGenesisState false 0 (mkGenesisDoc (day 1) "chain" 10 None (gdValidators ex_genesis) [] [])).
Definition ex_late_world : World := mkWorld ex_db0 ∅ 10 10 (0, 0).
Lemma first_block_crash_is_fatal_witness : (Handshake false true ex_genesis ex_late_world ex_late).2 ≠ value [5].
Proof. apply (first_block_crash_is_fatal false true ex_genesis ex_late_world ex_late [5]); by vm_compute. Defined.

End examples.

End Executor.
