(* ===== verification/EvidencePool.v ===== *)
(** * EvidencePool: the pool of evidence

    [internal/evidence/pool.go] and the entry point of [verify.go]: evidence waits in a database
    until it is proposed, committed or expired.  The keys of the database are pairs of height
    and hash, which both key layouts order in this way; the database does not fail.  The
    concurrent list that is gossiped from is a list. *)

From stdpp Require Import sorting.
From S2P Require Import Prelude Merkle Crypto ValidatorSet Votes PartSet Commit VoteSet Validation Header Light Params Wire Evidence Block State Chain StateStore Executor.
Import ValidatorSet.ValidatorSet Votes.Votes Commit.Commit Validation.Validation Header.Header Light.Light Params.Params Wire.Wire Evidence.Evidence Block.Block State.State Chain.Chain StateStore.StateStore Executor.Executor.

Local Open Scope Z_scope.
Local Notation wrapu32 := PartSet.PartSet.wrapu32.

Module EvidencePool.

Section pool.
Context `{PubKeyOps, SignCodec, !BatchOps, !HeaderCodec, Merkle.HashOps, !KeyCodec, !BlockCodec}.
Variable bls : bool.

(** What the pool needs of the block store. *)
Record BlockStore := mkBlockStore { LoadBlockMeta : Z → option BlockMeta; LoadBlockCommit : Z → option Commit; bsHeight : Z }.

Definition key : Type := Z * list Z.

Record Pool := mkPool {
  pState : State; pPending : gmap key EvidenceMsg; pCommitted : gmap key Z; pSize : Z; pList : list Evidence;
  pBuffer : list (Vote * Vote); pPruningHeight : Z; pPruningTime : Z }.

Definition set_pending (p : Pool) (m : gmap key EvidenceMsg) (size : Z) : Pool :=
  mkPool (pState p) m (pCommitted p) size (pList p) (pBuffer p) (pPruningHeight p) (pPruningTime p).
Definition set_committed (p : Pool) (m : gmap key Z) : Pool :=
  mkPool (pState p) (pPending p) m (pSize p) (pList p) (pBuffer p) (pPruningHeight p) (pPruningTime p).
Definition set_list (p : Pool) (l : list Evidence) : Pool :=
  mkPool (pState p) (pPending p) (pCommitted p) (pSize p) l (pBuffer p) (pPruningHeight p) (pPruningTime p).
Definition set_buffer (p : Pool) (l : list (Vote * Vote)) : Pool :=
  mkPool (pState p) (pPending p) (pCommitted p) (pSize p) (pList p) l (pPruningHeight p) (pPruningTime p).
Definition set_pruning (p : Pool) (h t : Z) : Pool :=
  mkPool (pState p) (pPending p) (pCommitted p) (pSize p) (pList p) (pBuffer p) h t.
(** [updateState]. *)
Definition pool_updateState (p : Pool) (s : State) : Pool :=
  mkPool s (pPending p) (pCommitted p) (pSize p) (pList p) (pBuffer p) (pPruningHeight p) (pPruningTime p).

(** ** Keys and the database *)

Definition CalcKey (ev : Evidence) : outcome key := h ← ev_Height ev; x ← ev_Hash ev; Done (h, x).

Definition key_leb (a b : key) : bool := (a.1 <? b.1) || ((a.1 =? b.1) && (bytes_compare a.2 b.2 <=? 0)).
Definition entry_le (a b : key * EvidenceMsg) : Prop := key_leb a.1 b.1 = true.
#[local] Instance entry_le_dec : RelDecision entry_le.
Proof. intros a b. unfold entry_le. apply _. Defined.
(** An iterator over the pending evidence. *)
Definition pending_list (p : Pool) : list (key * EvidenceMsg) := merge_sort entry_le (map_to_list (pPending p)).

Definition isCommitted (p : Pool) (ev : Evidence) : outcome bool := k ← CalcKey ev; Done (bool_decide (is_Some (pCommitted p !! k))).
Definition isPending (p : Pool) (ev : Evidence) : outcome bool := k ← CalcKey ev; Done (bool_decide (is_Some (pPending p !! k))).

Definition addPendingEvidence (p : Pool) (ev : Evidence) : outcome (result string Pool) :=
  match EvidenceToProto ev with
  | Err _ => fails "unable to convert to proto"
  | Ok m => k ← CalcKey ev; value (set_pending p (<[k := m]> (pPending p)) (wrapu32 (pSize p + 1)))
  end.

Definition removePendingEvidence (p : Pool) (ev : Evidence) : outcome Pool :=
  k ← CalcKey ev; Done (set_pending p (delete k (pPending p)) (wrapu32 (pSize p - 1))).

(** ** Verification *)

Definition getSignedHeader (bs : BlockStore) (height : Z) : result evidence_error SignedHeader :=
  match LoadBlockMeta bs height with
  | None => Err (ErrNoHeaderAtHeight height)
  | Some m =>
      match LoadBlockCommit bs height with
      | None => Err (ErrNoCommitAtHeight height)
      | Some c => Ok (mkSignedHeader (Some (bmMetaHeader m)) (Some c))
      end
  end.

(** The header the conflicting one is compared with; when the node has none at that height, its
    latest. *)
Definition trusted_header (bs : BlockStore) (common : SignedHeader) (height : Z) (conflicting : Header) : outcome (result evidence_error SignedHeader) :=
  if height =? hHeight conflicting then Done (Ok common)
  else
    match getSignedHeader bs (hHeight conflicting) with
    | Ok t => Done (Ok t)
    | Err _ =>
        match getSignedHeader bs (bsHeight bs) with
        | Err e => Done (Err e)
        | Ok t =>
            th ← deref (shHeader t);
            Done (if hTime th <? hTime conflicting then Err (ErrConflictingBlock "latest block time is before conflicting block time") else Ok t)
        end
    end.

Definition verify_attack (db : DB) (bs : BlockStore) (l : LightClientAttackEvidence) : outcome (option evidence_error) :=
  let height := CommonHeight l in
  match getSignedHeader bs height with
  | Err e => Done (Some e)
  | Ok common =>
      r ← LoadValidators bls db height;
      match r with
      | Err e => Done (Some (ErrStore e))
      | Ok commonVals =>
          ch ← conflicting_header l;
          t ← trusted_header bs common height ch;
          match t with
          | Err e => Done (Some e)
          | Ok trusted => VerifyLightClientAttack l common trusted commonVals
          end
      end
  end.

Definition verify (db : DB) (bs : BlockStore) (p : Pool) (ev : Evidence) : outcome (option evidence_error) :=
  let s := pState p in
  height ← ev_Height ev;
  match LoadBlockMeta bs height with
  | None => Done (Some (ErrNoHeaderAtHeight (stLastBlockHeight s)))
  | Some m =>
      let evTime := hTime (bmMetaHeader m) in
      if negb (ev_Time ev =? evTime) then Done (Some (ErrInvalidEvidence "evidence has a different time to the block it is associated with"))
      else if IsEvidenceExpired (stLastBlockHeight s) (stLastBlockTime s) height evTime (pEvidence (stConsensusParams s))
      then Done (Some (ErrInvalidEvidence "evidence is too old"))
      else
        match ev with
        | EvDuplicateVote dve =>
            r ← LoadValidators bls db height;
            match r with
            | Err e => Done (Some (ErrStore e))
            | Ok valSet => VerifyDuplicateVote dve (stChainID s) valSet
            end
        | EvLightClientAttack l => verify_attack db bs l
        end
  end.

(** ** Adding and checking *)

Definition AddEvidence (db : DB) (bs : BlockStore) (p : Pool) (ev : Evidence) : outcome (Pool * option evidence_error) :=
  pending ← isPending p ev;
  if (pending : bool) then Done (p, None)
  else
    committed ← isCommitted p ev;
    if (committed : bool) then Done (p, None)
    else
      err ← verify db bs p ev;
      match err with
      | Some e => Done (p, Some e)
      | None =>
          r ← addPendingEvidence p ev;
          match r with
          | Err e => Done (p, Some (ErrStore e))
          | Ok p => Done (set_list p (pList p ++ [ev]), None)
          end
      end.

Definition ReportConflictingVotes (p : Pool) (voteA voteB : Vote) : Pool := set_buffer p (pBuffer p ++ [(voteA, voteB)]).

Definition is_attack (ev : Evidence) : bool := match ev with EvLightClientAttack _ => true | EvDuplicateVote _ => false end.

(** The loop of [CheckEvidence], with the hashes so far, the last one first. *)
Fixpoint check_evidence (db : DB) (bs : BlockStore) (p : Pool) (hashes : list (list Z)) (evList : list Evidence)
    : outcome (Pool * option evidence_error) :=
  match evList with
  | [] => Done (p, None)
  | ev :: evList =>
      pending ← (if is_attack ev then Done false else isPending p ev);
      r ← (if (pending : bool) then Done (Ok p)
           else
             committed ← isCommitted p ev;
             if (committed : bool) then Done (Err ErrEvidenceAlreadyCommitted)
             else
               err ← verify db bs p ev;
               match err with
               | Some e => Done (Err e)
               | None => r ← addPendingEvidence p ev; Done (Ok (match r with Ok p' => p' | Err _ => p end))
               end);
      match r with
      | Err e => Done (p, Some e)
      | Ok p =>
          hash ← ev_Hash ev;
          if existsb (bytes_equal hash) hashes then Done (p, Some ErrDuplicateEvidence)
          else check_evidence db bs p (hash :: hashes) evList
      end
  end.
Definition CheckEvidence (db : DB) (bs : BlockStore) (p : Pool) (evList : list Evidence) := check_evidence db bs p [] evList.

(** ** Listing *)

(** The size of the list so far includes the evidence that does not fit any more. *)
Fixpoint list_evidence (ms : list EvidenceMsg) (maxBytes : Z) (seen : list EvidenceMsg) (evidence : list Evidence) (totalSize : Z)
    : outcome (list Evidence * Z * option string) :=
  match ms with
  | [] => Done (evidence, totalSize, None)
  | m :: ms =>
      let seen := seen ++ [m] in
      let evSize := evidenceList_ProtoSize seen in
      if negb (maxBytes =? -1) && (maxBytes <? evSize) then Done (evidence, totalSize, None)
      else
        r ← EvidenceFromProto bls m;
        match r with
        | Err e => Done ([], totalSize, Some e)
        | Ok ev => list_evidence ms maxBytes seen (evidence ++ [ev]) evSize
        end
  end.
Definition listEvidence (p : Pool) (maxBytes : Z) : outcome (list Evidence * Z * option string) :=
  list_evidence (pending_list p).*2 maxBytes [] [] 0.

Definition PendingEvidence (p : Pool) (maxBytes : Z) : outcome (list Evidence * Z) :=
  if pSize p =? 0 then Done ([], 0)
  else r ← listEvidence p maxBytes; Done (match r with (evs, size, None) => (evs, size) | (_, _, Some _) => ([], 0) end).

(** ** Committing and expiry *)

Fixpoint drop_hashes (hashes : list (list Z)) (l : list Evidence) : outcome (list Evidence) :=
  match l with
  | [] => Done []
  | ev :: l =>
      hash ← ev_Hash ev; rest ← drop_hashes hashes l;
      Done (if existsb (bytes_equal hash) hashes then rest else ev :: rest)
  end.
Definition removeEvidenceFromList (p : Pool) (hashes : list (list Z)) : outcome Pool :=
  match hashes with
  | [] => Done p
  | _ => l ← drop_hashes hashes (pList p); Done (set_list p l)
  end.

Fixpoint mark_committed (p : Pool) (hashes : list (list Z)) (evidence : list Evidence) : outcome (Pool * list (list Z)) :=
  match evidence with
  | [] => Done (p, hashes)
  | ev :: evidence =>
      pending ← isPending p ev;
      r ← (if (pending : bool) then p ← removePendingEvidence p ev; hash ← ev_Hash ev; Done (p, hash :: hashes) else Done (p, hashes));
      let '(p, hashes) := r in
      k ← CalcKey ev; h ← ev_Height ev;
      mark_committed (set_committed p (<[k := h]> (pCommitted p))) hashes evidence
  end.
Definition markEvidenceAsCommitted (p : Pool) (evidence : list Evidence) : outcome Pool :=
  r ← mark_committed p [] evidence; removeEvidenceFromList r.1 r.2.

Definition isExpired (p : Pool) (height time : Z) : bool :=
  let params := pEvidence (stConsensusParams (pState p)) in
  let ageDuration := time_Sub (stLastBlockTime (pState p)) time in
  let ageNumBlocks := wrap64 (stLastBlockHeight (pState p) - height) in
  (MaxAgeNumBlocks params <? ageNumBlocks) && (MaxAgeDuration params <? ageDuration).

(** The loop stops at the first evidence that is not expired, and returns when that will be. *)
Fixpoint remove_expired (p : Pool) (hashes : list (list Z)) (ms : list EvidenceMsg) : outcome (Pool * Z * Z) :=
  match ms with
  | [] => p ← removeEvidenceFromList p hashes; Done (p, stLastBlockHeight (pState p), stLastBlockTime (pState p))
  | m :: ms =>
      r ← EvidenceFromProto bls m;
      match r with
      | Err _ => remove_expired p hashes ms
      | Ok ev =>
          height ← ev_Height ev;
          if negb (isExpired p height (ev_Time ev)) then
            p ← removeEvidenceFromList p hashes;
            let params := pEvidence (stConsensusParams (pState p)) in
            Done (p, wrap64 (wrap64 (height + MaxAgeNumBlocks params) + 1), ev_Time ev + MaxAgeDuration params + 1000000000)
          else
            p ← removePendingEvidence p ev; hash ← ev_Hash ev;
            remove_expired p (hash :: hashes) ms
      end
  end.
Definition removeExpiredPendingEvidence (p : Pool) : outcome Pool :=
  r ← remove_expired p [] (pending_list p).*2; let '(p, h, t) := r in Done (set_pruning p h t).

(** ** Updating *)

Definition make_evidence (db : DB) (bs : BlockStore) (s : State) (voteA voteB : Vote) : outcome (result string DuplicateVoteEvidence) :=
  if Height voteA =? stLastBlockHeight s
  then NewDuplicateVoteEvidence (Some voteA) (Some voteB) (stLastBlockTime s) (Some (stLastValidators s))
  else if Height voteA <? stLastBlockHeight s then
    r ← LoadValidators bls db (Height voteA);
    match r with
    | Err e => Done (Err e)
    | Ok valSet =>
        match LoadBlockMeta bs (Height voteA) with
        | None => Done (Err "failed to load block time for conflicting votes"%string)
        | Some m => NewDuplicateVoteEvidence (Some voteA) (Some voteB) (hTime (bmMetaHeader m)) (Some valSet)
        end
    end
  else Done (Err "inbound duplicate votes from consensus are of a greater height than current state"%string).

Definition add_conflict (db : DB) (bs : BlockStore) (s : State) (p : Pool) (votes : Vote * Vote) : outcome Pool :=
  made ← make_evidence db bs s votes.1 votes.2;
  match made with
  | Err _ => Done p
  | Ok dve =>
      let ev := EvDuplicateVote dve in
      pending ← isPending p ev;
      if (pending : bool) then Done p
      else
        committed ← isCommitted p ev;
        if (committed : bool) then Done p
        else
          r ← addPendingEvidence p ev;
          Done (match r with Err _ => p | Ok p => set_list p (pList p ++ [ev]) end)
  end.

Fixpoint flush (db : DB) (bs : BlockStore) (s : State) (p : Pool) (buffer : list (Vote * Vote)) : outcome Pool :=
  match buffer with
  | [] => Done p
  | votes :: buffer => p ← add_conflict db bs s p votes; flush db bs s p buffer
  end.
Definition processConsensusBuffer (db : DB) (bs : BlockStore) (p : Pool) (s : State) : outcome Pool :=
  p ← flush db bs s p (pBuffer p); Done (set_buffer p []).

Definition Update (db : DB) (bs : BlockStore) (p : Pool) (s : State) (evs : list Evidence) : outcome Pool :=
  if stLastBlockHeight s <=? stLastBlockHeight (pState p) then Panic "failed EvidencePool.Update"
  else
    p ← processConsensusBuffer db bs p s;
    p ← markEvidenceAsCommitted (pool_updateState p s) evs;
    if (0 <? pSize p) && (pPruningHeight p <? stLastBlockHeight s) && (pPruningTime p <? stLastBlockTime s)
    then removeExpiredPendingEvidence p else Done p.

(** [NewPool], on a database with evidence in it. *)
Definition NewPool (s : State) (pending : gmap key EvidenceMsg) (committed : gmap key Z) : decoded Pool :=
  p ← removeExpiredPendingEvidence (mkPool s pending committed 0 [] [] 0 0);
  r ← listEvidence p (-1);
  match r with
  | (_, _, Some e) => fails e
  | (evList, _, None) => value (set_list (set_pending p (pPending p) (wrapu32 (zlen evList))) evList)
  end.

End pool.

(** ** The invariant of a pool *)

Section invariant.
Context `{PubKeyOps, SignCodec, !BatchOps, !HeaderCodec, Merkle.HashOps, !KeyCodec, !BlockCodec}.
Variable bls : bool.

(** A stored message that decodes to evidence of the key, which encodes to the message again. *)
Definition decodes (k : key) (m : EvidenceMsg) : Prop :=
  ∃ ev, EvidenceFromProto bls m = value ev ∧ EvidenceToProto ev = Ok m ∧ CalcKey ev = Done k.
Definition storable (ev : Evidence) : Prop := ∃ k m, CalcKey ev = Done k ∧ EvidenceToProto ev = Ok m ∧ decodes k m.
(** Votes whose evidence can be stored. *)
Definition reportable (a b : Vote) : Prop :=
  ∀ time vals dve, NewDuplicateVoteEvidence (Some a) (Some b) time (Some vals) = Done (Ok dve) → storable (EvDuplicateVote dve).

(** [dropped] are the hashes of evidence that is about to leave the gossip list, [log] the keys of
    all committed evidence. *)
Record core (dropped : list (list Z)) (log : list key) (p : Pool) : Prop := {
  core_stored k m : pPending p !! k = Some m → decodes k m;
  core_disjoint k : is_Some (pPending p !! k) → pCommitted p !! k = None;
  core_list ev : ev ∈ pList p → ∃ k, CalcKey ev = Done k ∧ (is_Some (pPending p !! k) ∨ k.2 ∈ dropped);
  core_log k : k ∈ log ↔ is_Some (pCommitted p !! k);
  core_buffer : Forall (λ v, reportable v.1 v.2) (pBuffer p)
}.
(** The counter covers the stored evidence, and counts at most the additions. *)
Definition sized (n : Z) (p : Pool) : Prop := Z.of_nat (size (pPending p)) ≤ pSize p ≤ n.
Definition pool_ok (n : Z) (log : list key) (p : Pool) : Prop := core [] log p ∧ NoDup log ∧ sized n p.

Lemma wrapu32_id z : 0 ≤ z < 4294967296 → wrapu32 z = z.
Proof. apply Z.mod_small. Qed.

Lemma CalcKey_inv ev k : CalcKey ev = Done k → ev_Height ev = Done k.1 ∧ ev_Hash ev = Done k.2.
Proof. unfold CalcKey. intros (h & -> & (x & -> & [= <-])%outcome_bind_Done)%outcome_bind_Done. done. Qed.

Lemma isPending_key p ev k : CalcKey ev = Done k → isPending p ev = Done (bool_decide (is_Some (pPending p !! k))).
Proof. intros E. unfold isPending. by rewrite E. Qed.
Lemma isCommitted_key p ev k : CalcKey ev = Done k → isCommitted p ev = Done (bool_decide (is_Some (pCommitted p !! k))).
Proof. intros E. unfold isCommitted. by rewrite E. Qed.

Lemma add_pending_ok dropped log p ev k :
  storable ev → CalcKey ev = Done k → pCommitted p !! k = None → core dropped log p →
  ∃ m, addPendingEvidence p ev = value (set_pending p (<[k := m]> (pPending p)) (wrapu32 (pSize p + 1))) ∧
    core dropped log (set_pending p (<[k := m]> (pPending p)) (wrapu32 (pSize p + 1))).
Proof.
  intros (k' & m & Ek & Em & Hd) Ek' Hc C. rewrite Ek in Ek'. injection Ek' as ->. exists m. unfold addPendingEvidence. rewrite Em, Ek. split; [done|].
  destruct C. split; cbn; try done.
  - intros k' m'. destruct (decide (k = k')) as [->|]; [rewrite lookup_insert_eq; by intros [= <-]|rewrite lookup_insert_ne by done; auto].
  - intros k'. destruct (decide (k = k')) as [->|]; [done|rewrite lookup_insert_ne by done; auto].
  - intros e He. destruct (core_list0 e He) as (k' & E & [Hp|Hd']); exists k'; (split; [done|]); [left|by right].
    destruct (decide (k = k')) as [->|]; [rewrite lookup_insert_eq; by eexists|by rewrite lookup_insert_ne by done].
Qed.

Lemma sized_insert n p k m :
  sized n p → 0 ≤ n < 4294967295 → sized (n + 1) (set_pending p (<[k := m]> (pPending p)) (wrapu32 (pSize p + 1))).
Proof.
  unfold sized. cbn. intros [Hs Hn] Hb. rewrite wrapu32_id by lia. rewrite map_size_insert. destruct (pPending p !! k); cbn; lia.
Qed.

Lemma push_ok dropped log p ev k : core dropped log p → CalcKey ev = Done k → is_Some (pPending p !! k) → core dropped log (set_list p (pList p ++ [ev])).
Proof.
  intros [] E Hk. split; cbn; try done. intros e [He|He%list_elem_of_singleton]%elem_of_app; [auto|]. subst e. exists k. auto.
Qed.

Lemma remove_pending_ok dropped log p ev k :
  core dropped log p → CalcKey ev = Done k →
  ∃ p', removePendingEvidence p ev = Done p' ∧ p' = set_pending p (delete k (pPending p)) (wrapu32 (pSize p - 1)) ∧ core (k.2 :: dropped) log p'.
Proof.
  intros [] E. unfold removePendingEvidence. rewrite E. eexists. split; [done|]. split; [done|]. split; cbn; try done.
  - intros k' m' [_ Hm]%lookup_delete_Some. auto.
  - intros k' [m' [_ Hm]%lookup_delete_Some]. apply core_disjoint0. by eexists.
  - intros e He. destruct (core_list0 e He) as (k' & Ek & Hk). exists k'. split; [done|]. destruct (decide (k = k')) as [->|]; [right; by left|].
    rewrite lookup_delete_ne by done. destruct Hk; [by left|right; by right].
Qed.

Lemma sized_delete n p k : is_Some (pPending p !! k) → sized n p → n < 4294967296 → sized n (set_pending p (delete k (pPending p)) (wrapu32 (pSize p - 1))).
Proof.
  unfold sized. cbn. intros [m Hm] [Hs Hn] Hb. assert (size (pPending p) ≠ 0%nat) by (intros E%map_size_empty_inv; by rewrite E in Hm).
  rewrite map_size_delete, Hm. rewrite wrapu32_id by lia. lia.
Qed.

Lemma drop_hashes_ok hashes l :
  (∀ ev, ev ∈ l → ∃ k, CalcKey ev = Done k) →
  ∃ l', drop_hashes hashes l = Done l' ∧ ∀ ev, ev ∈ l' → ev ∈ l ∧ ∀ k, CalcKey ev = Done k → k.2 ∉ hashes.
Proof.
  induction l as [|ev l IH]; intros Hl; [exists []; split; [done|by intros ? ?%elem_of_nil]|].
  destruct (Hl ev) as [k Ek]; [by left|]. destruct IH as (l' & El & Hl'); [intros; apply Hl; by right|]. pose proof (CalcKey_inv ev k Ek) as [_ Eh].
  cbn [drop_hashes]. rewrite Eh, El. cbn [mbind outcome_bind]. eexists. split; [done|]. intros e He.
  destruct (existsb (bytes_equal k.2) hashes) eqn:Ex; [destruct (Hl' e He); split; [by right|done]|].
  apply elem_of_cons in He as [->|He]; [|destruct (Hl' e He); split; [by right|done]]. split; [by left|]. intros k' Ek'. rewrite Ek in Ek'. injection Ek' as <-. intros Hin.
  assert (existsb (bytes_equal k.2) hashes = true); [|congruence]. apply existsb_exists. exists k.2. split; [by apply list_elem_of_In|by apply bytes_equal_spec].
Qed.

Lemma drop_list_ok hashes log p :
  core hashes log p → ∃ p', removeEvidenceFromList p hashes = Done p' ∧ core [] log p' ∧ pPending p' = pPending p ∧ pSize p' = pSize p ∧
    pCommitted p' = pCommitted p ∧ pState p' = pState p ∧ pBuffer p' = pBuffer p.
Proof.
  intros C. unfold removeEvidenceFromList. destruct hashes as [|x hashes]; [by exists p|].
  destruct (drop_hashes_ok (x :: hashes) (pList p)) as (l & -> & Hl); [intros ev Hev; destruct (core_list _ _ _ C ev Hev) as (k & E & _); by exists k|].
  eexists. split; [done|]. split; [|done]. destruct C. split; cbn; try done. intros ev [Hin Hn]%Hl. destruct (core_list0 ev Hin) as (k & E & [Hk|Hk]); [by exists k; auto|].
  by destruct (Hn k E).
Qed.

(** What no operation but [Update] changes. *)
Definition same (p p' : Pool) : Prop := pCommitted p' = pCommitted p ∧ pState p' = pState p ∧ pBuffer p' = pBuffer p.
#[local] Instance same_refl : Reflexive same.
Proof. by intros p. Qed.
#[local] Instance same_trans : Transitive same.
Proof. intros p q r (E1 & E2 & E3) (F1 & F2 & F3). split_and!; congruence. Qed.

Lemma pool_ok_mono n n' log p : n ≤ n' → pool_ok n log p → pool_ok n' log p.
Proof. intros Hn (C & Hl & Hs). split_and!; [done|done|]. unfold sized in *. lia. Qed.

Lemma add_ok n log p ev k :
  pool_ok n log p → 0 ≤ n < 4294967295 → storable ev → CalcKey ev = Done k → pCommitted p !! k = None →
  ∃ p', addPendingEvidence p ev = value p' ∧ pool_ok (n + 1) log p' ∧ same p p' ∧ is_Some (pPending p' !! k) ∧ pList p' = pList p.
Proof.
  intros (C & Hl & Hs) Hn Hst Ek Hc. destruct (add_pending_ok [] log p ev k Hst Ek Hc C) as (m & -> & C'). eexists. split; [done|].
  split_and!; [|done|cbn; by rewrite lookup_insert_eq|done]. split_and!; [done|done|]. by apply sized_insert.
Qed.

Lemma AddEvidence_ok n log db bs p ev p' err :
  pool_ok n log p → 0 ≤ n < 4294967295 → storable ev → AddEvidence bls db bs p ev = Done (p', err) → pool_ok (n + 1) log p' ∧ same p p'.
Proof.
  intros Hp Hn Hst E. pose proof Hst as (k & m & Ek & _). unfold AddEvidence in E. rewrite (isPending_key _ _ _ Ek), (isCommitted_key _ _ _ Ek) in E.
  cbn [mbind outcome_bind] in E. assert (Hsame : pool_ok (n + 1) log p ∧ same p p) by (split; [by eapply pool_ok_mono; [|done]; lia|done]).
  case_bool_decide; [by injection E as <- _|]. case_bool_decide as Hc; [by injection E as <- _|].
  apply outcome_bind_Done in E as (e & _ & E). destruct e; [by injection E as <- _|].
  destruct (add_ok n log p ev k Hp Hn Hst Ek) as (q & Eq & Hq & Hsm & Hk & _); [by apply eq_None_not_Some|]. rewrite Eq in E. cbn [mbind outcome_bind value] in E.
  injection E as <- _. destruct Hq as (C & Hl & Hs). split; [|exact Hsm]. split_and!; [by eapply push_ok|done|exact Hs].
Qed.

Lemma check_evidence_ok log db bs evs : ∀ n p hashes p' err,
  pool_ok n log p → 0 ≤ n → n + zlen evs < 4294967296 → Forall storable evs → check_evidence bls db bs p hashes evs = Done (p', err) →
  pool_ok (n + zlen evs) log p' ∧ same p p' ∧
  (err = None → ∃ ks, Forall2 (λ ev k, CalcKey ev = Done k) evs ks ∧ NoDup (ks.*2) ∧ ∀ k : key, k ∈ ks → pCommitted p !! k = None ∧ k.2 ∉ hashes).
Proof.
  induction evs as [|ev evs IH]; intros n p hashes p' err Hp Hn Hb Hst E.
  { injection E as <- <-. rewrite Z.add_0_r. split_and!; [done|done|]. intros _. exists []. split_and!; [constructor|constructor|by intros ? ?%elem_of_nil]. }
  apply Forall_cons in Hst as [Hst Hrest]. pose proof Hst as (k & m & Ek & _). pose proof (CalcKey_inv _ _ Ek) as [_ Eh]. unfold zlen in *. cbn [length] in *.
  cbn [check_evidence] in E. rewrite (isPending_key _ _ _ Ek), (isCommitted_key _ _ _ Ek) in E.
  apply outcome_bind_Done in E as (pend & Epend & E). apply outcome_bind_Done in E as (r & Er & E).
  (* the evidence was pending, or it was not committed and is now *)
  assert (Hr : match r with Err _ => True | Ok q => pool_ok (n + 1) log q ∧ same p q ∧ pCommitted p !! k = None end).
  { destruct pend.
    - injection Er as <-. split; [by eapply pool_ok_mono; [|done]; lia|]. split; [done|]. destruct (is_attack ev); [done|]. injection Epend as Epend%bool_decide_eq_true.
      by apply (core_disjoint _ _ _ (proj1 Hp)).
    - cbn [mbind outcome_bind] in Er. case_bool_decide as Hc; [by injection Er as <-|]. apply outcome_bind_Done in Er as (e & _ & Er). destruct e; [by injection Er as <-|].
      assert (Hc' : pCommitted p !! k = None) by (by apply eq_None_not_Some).
      destruct (add_ok n log p ev k Hp ltac:(lia) Hst Ek Hc') as (q & Eq & Hq & Hsm & _). rewrite Eq in Er. injection Er as <-. by split_and!. }
  destruct r as [q|e]; [|injection E as <- <-; split_and!; [eapply pool_ok_mono; [|done]; lia|done|done]].
  destruct Hr as (Hq & Hsm & Hc). rewrite Eh in E. cbn [mbind outcome_bind] in E.
  destruct (existsb _ _) eqn:Ex; [injection E as <- <-; split_and!; [eapply pool_ok_mono; [|done]; lia|done|done]|].
  destruct (IH (n + 1) q (k.2 :: hashes) p' err Hq ltac:(lia) ltac:(lia) Hrest E) as (Hp' & Hsm' & Hks).
  split_and!; [eapply pool_ok_mono; [|done]; lia|by transitivity q|].
  intros He. destruct (Hks He) as (ks & Hall & Hnd & Hfree). exists (k :: ks). split_and!; [by constructor| |].
  - cbn. constructor; [|done]. intros (k' & Ek' & Hk')%list_elem_of_fmap. destruct (Hfree k' Hk') as [_ Hn']. apply Hn'. rewrite Ek'. by left.
  - intros k' [->|Hk']%elem_of_cons.
    + split; [done|]. intros Hin. assert (existsb (bytes_equal k.2) hashes = true); [|congruence].
      apply existsb_exists. exists k.2. split; [by apply list_elem_of_In|by apply bytes_equal_spec].
    + destruct (Hfree k' Hk') as [Hc' Hn']. destruct Hsm as (Ec & _). rewrite Ec in Hc'. split; [done|]. intros Hin. apply Hn'. by right.
Qed.

(** ** Committing *)

Lemma core_log_iff dropped log log' p : (∀ k, k ∈ log ↔ k ∈ log') → core dropped log p → core dropped log' p.
Proof. intros Hl []. split; try done. intros k. by rewrite <-Hl. Qed.

Lemma mark_committed_ok evs : ∀ ks n dropped log p,
  core dropped log p → sized n p → n < 4294967296 → Forall2 (λ ev k, CalcKey ev = Done k) evs ks →
  ∃ p' hashes, mark_committed p dropped evs = Done (p', hashes) ∧ core hashes (ks ++ log) p' ∧ sized n p' ∧ pState p' = pState p ∧ pBuffer p' = pBuffer p ∧
    ∀ k, pPending p' !! k = if bool_decide (k ∈ ks) then None else pPending p !! k.
Proof.
  induction evs as [|ev evs IH]; intros ks n dropped log p C Hs Hn Hks.
  { apply Forall2_nil_inv_l in Hks as ->. exists p, dropped. split_and!; try done. }
  apply Forall2_cons_inv_l in Hks as (k & ks' & Ek & Hks & ->). pose proof (CalcKey_inv _ _ Ek) as [Eht Eh]. cbn [mark_committed].
  rewrite (isPending_key _ _ _ Ek), Ek, Eht. cbn [mbind outcome_bind].
  assert (Hq : ∃ q d, (if bool_decide (is_Some (pPending p !! k)) then p ← removePendingEvidence p ev; hash ← ev_Hash ev; Done (p, hash :: dropped) else Done (p, dropped)) = Done (q, d) ∧
    core d log q ∧ sized n q ∧ pState q = pState p ∧ pBuffer q = pBuffer p ∧ ∀ k', pPending q !! k' = if bool_decide (k' = k) then None else pPending p !! k').
  { case_bool_decide as Hp.
    - destruct (remove_pending_ok dropped log p ev k C Ek) as (q & -> & -> & Cq). cbn [mbind outcome_bind]. rewrite Eh. cbn [mbind outcome_bind]. eexists _, _. split; [done|].
      split_and!; [done|by apply sized_delete|done|done|]. intros k'. cbn. case_bool_decide; [subst; apply lookup_delete_eq|by rewrite lookup_delete_ne by done].
    - exists p, dropped. split_and!; try done. intros k'. case_bool_decide; [subst; by apply eq_None_not_Some|done]. }
  destruct Hq as (q & d & -> & Cq & Hsq & Est & Ebf & Hpend). cbn [mbind outcome_bind].
  assert (C1 : core d (k :: log) (set_committed q (<[k := k.1]> (pCommitted q)))).
  { destruct Cq. split; cbn; try done.
    - intros k' Hk'. rewrite lookup_insert_ne; [auto|]. intros <-. rewrite Hpend, bool_decide_true in Hk' by done. by destruct Hk'.
    - intros k'. rewrite elem_of_cons, core_log0. destruct (decide (k = k')) as [->|]; [rewrite lookup_insert_eq; split; [by eexists|auto]|].
      rewrite lookup_insert_ne by done. split; [|auto]. intros [->|]; [done|done]. }
  destruct (IH ks' n d (k :: log) _ C1 Hsq Hn Hks) as (p' & hs & E & C' & Hs' & E1 & E2 & Hp'). exists p', hs. split; [exact E|].
  split_and!; [|done|by rewrite E1|by rewrite E2|].
  - eapply core_log_iff; [|exact C']. intros k'. set_solver.
  - intros k'. rewrite Hp'. cbn. rewrite Hpend. destruct (decide (k' = k)) as [->|Hne].
    + rewrite (bool_decide_true (k ∈ k :: ks')), (bool_decide_true (k = k)) by (done || by left). by case_bool_decide.
    + rewrite (bool_decide_false (k' = k)) by done. repeat case_bool_decide; set_solver.
Qed.

Lemma mark_ok evs ks n log p :
  core [] log p → sized n p → n < 4294967296 → Forall2 (λ ev k, CalcKey ev = Done k) evs ks →
  ∃ p', markEvidenceAsCommitted p evs = Done p' ∧ core [] (ks ++ log) p' ∧ sized n p' ∧ pState p' = pState p ∧ pBuffer p' = pBuffer p ∧
    ∀ k, pPending p' !! k = if bool_decide (k ∈ ks) then None else pPending p !! k.
Proof.
  intros C Hs Hn Hks. destruct (mark_committed_ok evs ks n [] log p C Hs Hn Hks) as (q & hs & E & Cq & Hsq & Est & Ebf & Hp).
  unfold markEvidenceAsCommitted. rewrite E. cbn [mbind outcome_bind fst snd]. destruct (drop_list_ok hs _ q Cq) as (p' & E' & C' & E1 & E2 & _ & E4 & E5).
  exists p'. split; [exact E'|]. split; [exact C'|]. unfold sized. rewrite E1, E2, E4, E5. split; [exact Hsq|]. by split_and!.
Qed.

(** ** Expiry *)

Lemma pending_list_perm p : pending_list p ≡ₚ map_to_list (pPending p).
Proof. apply merge_sort_Permutation. Qed.
Lemma pending_list_lookup p k m : (k, m) ∈ pending_list p ↔ pPending p !! k = Some m.
Proof. rewrite pending_list_perm. apply elem_of_map_to_list. Qed.
Lemma pending_list_NoDup p : NoDup (pending_list p).*1.
Proof. rewrite pending_list_perm. apply NoDup_fst_map_to_list. Qed.

(** What was stored under a key was expired. *)
Definition was_expired (p : Pool) (k : key) (m : EvidenceMsg) : Prop :=
  ∃ ev, EvidenceFromProto bls m = value ev ∧ isExpired p k.1 (ev_Time ev) = true.

Lemma remove_expired_ok n log l : ∀ p hashes,
  core hashes log p → NoDup l.*1 → (∀ k m, (k, m) ∈ l → pPending p !! k = Some m) →
  ∃ p' h t, remove_expired bls p hashes l.*2 = Done (p', h, t) ∧ core [] log p' ∧ same p p' ∧ (n < 4294967296 → sized n p → sized n p') ∧
    (∀ k m, pPending p' !! k = Some m → pPending p !! k = Some m) ∧
    (∀ k m, pPending p !! k = Some m → pPending p' !! k = None → was_expired p k m).
Proof.
  assert (Hstop : ∀ p hashes, core hashes log p → ∃ p', removeEvidenceFromList p hashes = Done p' ∧ core [] log p' ∧ same p p' ∧ (n < 4294967296 → sized n p → sized n p') ∧
    (∀ k m, pPending p' !! k = Some m → pPending p !! k = Some m) ∧ (∀ k m, pPending p !! k = Some m → pPending p' !! k = None → was_expired p k m)).
  { intros p hashes C. destruct (drop_list_ok hashes log p C) as (p' & E & C' & E1 & E2 & E3 & E4 & E5). exists p'. split; [done|]. unfold sized, same. rewrite E1, E2, E3, E4, E5.
    split_and!; try done; congruence. }
  induction l as [|[k m] l IH]; intros p hashes C Hnd Hin.
  { cbn [remove_expired fmap list_fmap]. destruct (Hstop p hashes C) as (p' & -> & Hrest). cbn [mbind outcome_bind]. eexists p', _, _. by split. }
  assert (Hm : pPending p !! k = Some m) by (apply Hin; by left). apply NoDup_cons in Hnd as [Hnk Hnd].
  destruct (core_stored _ _ _ C k m Hm) as (ev & Ed & Em & Ek). pose proof (CalcKey_inv _ _ Ek) as [Eht Eh]. cbn [remove_expired fmap list_fmap snd].
  rewrite Ed. cbn [mbind outcome_bind value]. rewrite Eht. cbn [mbind outcome_bind]. destruct (isExpired p k.1 (ev_Time ev)) eqn:Ex; cbn [negb].
  - destruct (remove_pending_ok hashes log p ev k C Ek) as (q & Eq & -> & Cq). rewrite Eq, Eh. cbn [mbind outcome_bind].
    destruct (IH _ _ Cq Hnd) as (p' & h & t & E & C' & Hsm & Hsz & Hsub & Hexp).
    { intros k' m' Hk'. cbn. rewrite lookup_delete_ne; [apply Hin; by right|]. intros <-. apply Hnk. by apply (list_elem_of_fmap_2 fst) in Hk'. }
    eexists p', _, _. split; [exact E|]. split; [done|]. split; [exact Hsm|]. split; [intros ? ?; apply Hsz; [done|apply sized_delete; [by eexists|done|done]]|]. split.
    + intros k' m' Hk'. apply Hsub in Hk'. cbn in Hk'. by apply lookup_delete_Some in Hk' as [_ ?].
    + intros k' m' Hk' Hnone. destruct (decide (k = k')) as [->|Hne].
      * rewrite Hm in Hk'. injection Hk' as <-. by exists ev.
      * apply (Hexp k' m'); [|done]. cbn. by rewrite lookup_delete_ne.
  - destruct (Hstop p hashes C) as (p' & -> & Hrest). cbn [mbind outcome_bind]. eexists p', _, _. by split.
Qed.

Lemma removeExpired_ok n log p :
  core [] log p →
  ∃ p', removeExpiredPendingEvidence bls p = Done p' ∧ core [] log p' ∧ same p p' ∧ (n < 4294967296 → sized n p → sized n p') ∧
    (∀ k m, pPending p' !! k = Some m → pPending p !! k = Some m) ∧
    (∀ k m, pPending p !! k = Some m → pPending p' !! k = None → was_expired p k m).
Proof.
  intros C. unfold removeExpiredPendingEvidence.
  destruct (remove_expired_ok n log (pending_list p) p [] C (pending_list_NoDup p) (λ k m, proj1 (pending_list_lookup p k m))) as (p' & h & t & -> & C' & Hsm & Hsz & Hsub & Hexp).
  cbn [mbind outcome_bind]. eexists. split; [done|]. destruct C'. by split_and!.
Qed.

(** ** Listing *)

Lemma evidence_ToProto_app a b ma mb : evidence_ToProto a = Ok ma → evidence_ToProto b = Ok mb → evidence_ToProto (a ++ b) = Ok (ma ++ mb).
Proof.
  intros Ha Hb. revert ma Ha. induction a as [|e a IH]; intros ma Ha; cbn in Ha |- *; [by injection Ha as <-|].
  destruct (EvidenceToProto e) as [m|]; [|done]. destruct (evidence_ToProto a) as [ms|]; [|done]. injection Ha as <-. by rewrite (IH ms eq_refl).
Qed.

(** Evidence that was read from the store, with its entries. *)
Definition read_from (l : list (key * EvidenceMsg)) (evs : list Evidence) : Prop :=
  Forall2 (λ km ev, EvidenceFromProto bls km.2 = value ev ∧ CalcKey ev = Done km.1) l evs.

Lemma list_evidence_ok max l : ∀ seen evs,
  (∀ k m, (k, m) ∈ l → decodes k m) → evidence_ToProto evs = Ok seen →
  ∃ evs' taken rest, list_evidence bls l.*2 max seen evs (evidenceList_ProtoSize seen) = Done (evs ++ evs', evidenceList_ProtoSize (seen ++ taken.*2), None) ∧
    l = taken ++ rest ∧ read_from taken evs' ∧ evidence_ToProto (evs ++ evs') = Ok (seen ++ taken.*2) ∧
    (max = -1 → rest = []) ∧ (max ≠ -1 → evidenceList_ProtoSize seen ≤ max → evidenceList_ProtoSize (seen ++ taken.*2) ≤ max).
Proof.
  induction l as [|[k m] l IH]; intros seen evs Hd Hev.
  { exists [], [], []. cbn. rewrite !app_nil_r. split_and!; try done. constructor. }
  cbn [fmap list_fmap snd list_evidence]. destruct (negb (max =? -1) && _) eqn:Eb.
  { exists [], [], ((k, m) :: l). cbn. rewrite !app_nil_r. apply andb_true_iff in Eb as [Hm%negb_true_iff%Z.eqb_neq _]. split_and!; try done. constructor. }
  destruct (Hd k m) as (ev & Ef & Et & Ek); [by left|]. rewrite Ef. cbn [mbind outcome_bind value].
  destruct (IH (seen ++ [m]) (evs ++ [ev])) as (evs' & taken & rest & E & -> & Hr & Ht & Hall & Hfit).
  { intros k' m' Hin. apply Hd. by right. }
  { apply evidence_ToProto_app; [done|]. cbn. by rewrite Et. }
  rewrite <-(app_assoc evs), <-(app_assoc seen) in E, Ht. rewrite <-(app_assoc seen) in Hfit. cbn [app] in *. exists (ev :: evs'), ((k, m) :: taken), rest. split; [exact E|].
  split_and!; [done|by constructor|done|done|]. intros Hm Hseen. apply Hfit; [done|].
  apply andb_false_iff in Eb as [Eb|Eb]; [apply negb_false_iff, Z.eqb_eq in Eb; done|]. by apply Z.ltb_ge in Eb.
Qed.

Lemma listEvidence_ok log p max :
  core [] log p →
  ∃ evs taken rest size, listEvidence bls p max = Done (evs, size, None) ∧ pending_list p = taken ++ rest ∧ read_from taken evs ∧ evidence_ByteSize evs = Done size ∧
    (max = -1 → rest = []) ∧ (0 ≤ max → size ≤ max).
Proof.
  intros C. unfold listEvidence.
  destruct (list_evidence_ok max (pending_list p) [] []) as (evs & taken & rest & E & El & Hr & Ht & Hall & Hfit).
  - intros k m Hin%pending_list_lookup. by apply (core_stored _ _ _ C).
  - done.
  - exists evs, taken, rest, (evidenceList_ProtoSize taken.*2). cbn [app] in *. split_and!; try done.
    + unfold evidence_ByteSize. by rewrite Ht.
    + intros Hm. apply Hfit; [lia|done].
Qed.

Lemma read_from_key l evs ev : read_from l evs → ev ∈ evs → ∃ k m, (k, m) ∈ l ∧ CalcKey ev = Done k.
Proof.
  intros Hr (i & Hi)%list_elem_of_lookup. destruct (Forall2_lookup_r _ _ _ _ _ Hr Hi) as ([k m] & Hk & _ & Ek). exists k, m. split; [by eapply list_elem_of_lookup_2|done].
Qed.

(** ** Conflicts from consensus *)

Lemma make_evidence_storable db bs s a b dve :
  reportable a b → make_evidence bls db bs s a b = Done (Ok dve) → storable (EvDuplicateVote dve).
Proof.
  intros Hr E. unfold make_evidence in E. destruct (_ =? _); [by eapply Hr|]. destruct (_ <? _); [|done].
  apply outcome_bind_Done in E as (r & _ & E). destruct r as [vals|]; [|done]. destruct (LoadBlockMeta bs _); [|done]. by eapply Hr.
Qed.

Lemma add_conflict_ok n log db bs s p votes p' :
  pool_ok n log p → 0 ≤ n < 4294967295 → reportable votes.1 votes.2 → add_conflict bls db bs s p votes = Done p' →
  pool_ok (n + 1) log p' ∧ same p p' ∧ (∀ k m, pPending p !! k = Some m → pPending p' !! k = Some m) ∧
  (∀ dve k, make_evidence bls db bs s votes.1 votes.2 = Done (Ok dve) → CalcKey (EvDuplicateVote dve) = Done k → is_Some (pPending p' !! k) ∨ is_Some (pCommitted p !! k)).
Proof.
  intros Hp Hn Hr E. unfold add_conflict in E. apply outcome_bind_Done in E as (made & Em & E). rewrite Em.
  assert (Hmono : pool_ok (n + 1) log p) by (by eapply pool_ok_mono; [|done]; lia).
  destruct made as [dve|e]; [|injection E as <-; by split_and!].
  pose proof (make_evidence_storable db bs s _ _ dve Hr Em) as Hst. pose proof Hst as (k & m & Ek & _).
  rewrite (isPending_key _ _ _ Ek), (isCommitted_key _ _ _ Ek) in E. cbn [mbind outcome_bind] in E.
  assert (Hkey : ∀ dve' k', Done (Ok dve : result string _) = Done (Ok dve') → CalcKey (EvDuplicateVote dve') = Done k' → k' = k) by (intros dve' k' [= <-]; congruence).
  case_bool_decide as Hpend; [injection E as <-; split_and!; [done..|]; intros dve' k' H1' H2'; left; by rewrite (Hkey dve' k' H1' H2')|].
  case_bool_decide as Hc; [injection E as <-; split_and!; [done..|]; intros dve' k' H1' H2'; right; by rewrite (Hkey dve' k' H1' H2')|].
  destruct (add_pending_ok [] log p (EvDuplicateVote dve) k Hst Ek) as (m' & Eq & Cq); [by apply eq_None_not_Some|apply Hp|].
  rewrite Eq in E. injection E as <-. destruct Hp as (C & Hl & Hs). set (q := set_pending _ _ _) in *.
  assert (Hk : is_Some (pPending q !! k)) by (cbn; by rewrite lookup_insert_eq).
  split_and!; [split_and!; [exact (push_ok [] log q _ k Cq Ek Hk)|done|exact (sized_insert n p k m' Hs Hn)]|done| |].
  - intros k' x Hk'. cbn. destruct (decide (k = k')) as [->|]; [destruct Hpend; by eexists|by rewrite lookup_insert_ne].
  - intros dve' k' H1' H2'. left. by rewrite (Hkey dve' k' H1' H2').
Qed.

Lemma flush_ok log db bs s buffer : ∀ n p p',
  pool_ok n log p → 0 ≤ n → n + zlen buffer < 4294967296 → Forall (λ v, reportable v.1 v.2) buffer → flush bls db bs s p buffer = Done p' →
  pool_ok (n + zlen buffer) log p' ∧ same p p' ∧ (∀ k m, pPending p !! k = Some m → pPending p' !! k = Some m) ∧
  (∀ a b dve k, (a, b) ∈ buffer → make_evidence bls db bs s a b = Done (Ok dve) → CalcKey (EvDuplicateVote dve) = Done k →
     is_Some (pPending p' !! k) ∨ is_Some (pCommitted p !! k)).
Proof.
  induction buffer as [|v buffer IH]; intros n p p' Hp Hn Hb Hr E.
  { injection E as <-. rewrite Z.add_0_r. split_and!; try done. by intros ? ? ? ? ?%elem_of_nil. }
  unfold zlen in *. cbn [length] in *. apply Forall_cons in Hr as [Hr Hrest]. cbn [flush] in E. apply outcome_bind_Done in E as (q & Eq & E).
  destruct (add_conflict_ok n log db bs s p v q Hp ltac:(lia) Hr Eq) as (Hq & Hsm & Hsub & Hnew).
  destruct (IH (n + 1) q p' Hq ltac:(lia) ltac:(lia) Hrest E) as (Hp' & Hsm' & Hsub' & Hnew').
  split_and!; [by eapply pool_ok_mono; [|done]; lia|by transitivity q|auto|].
  intros a b dve k [<-|Hin]%elem_of_cons Em Ek.
  - destruct (Hnew dve k Em Ek) as [[x Hx]|]; [left; exists x; auto|auto].
  - destruct (Hnew' a b dve k Hin Em Ek) as [|Hc]; [auto|]. destruct Hsm as (<- & _). auto.
Qed.

(** ** Updates *)


Lemma pool_Update_ok n log db bs p s evs ks p' :
  pool_ok n log p → 0 ≤ n → n + zlen (pBuffer p) < 4294967296 → Forall2 (λ ev k, CalcKey ev = Done k) evs ks →
  NoDup ks → (∀ k, k ∈ ks → pCommitted p !! k = None) → Update bls db bs p s evs = Done p' →
  pool_ok (n + zlen (pBuffer p)) (ks ++ log) p' ∧ pState p' = s ∧ pBuffer p' = [] ∧
  (0 ≤ MaxAgeNumBlocks (pEvidence (stConsensusParams s)) → ∀ a b dve k, (a, b) ∈ pBuffer p → make_evidence bls db bs s a b = Done (Ok dve) →
     CalcKey (EvDuplicateVote dve) = Done k → k.1 = stLastBlockHeight s → is_Some (pPending p' !! k) ∨ k ∈ ks ++ log).
Proof.
  intros Hp Hn Hb Hks Hnd Hfree E. unfold Update, processConsensusBuffer in E. destruct (_ <=? _); [done|].
  apply outcome_bind_Done in E as (q0 & (q & Eq & [= <-])%outcome_bind_Done & E). apply outcome_bind_Done in E as (r & Er & E).
  destruct (flush_ok log db bs s (pBuffer p) n p q Hp Hn Hb (core_buffer _ _ _ (proj1 Hp)) Eq) as (Hq & Hsm & _ & Hnew).
  destruct Hq as (C & Hl & Hs). set (n' := n + zlen (pBuffer p)) in *. set (q1 := pool_updateState (set_buffer q []) s) in *.
  assert (C1 : core [] log q1) by (destruct C; split; cbn; try done; constructor).
  destruct (mark_ok evs ks n' log q1 C1 Hs ltac:(lia) Hks) as (r' & Er' & Cr & Hsr & Est & Ebf & Hpend). rewrite Er in Er'. injection Er' as <-.
  assert (Hnd' : NoDup (ks ++ log)).
  { apply NoDup_app. split; [done|]. split; [|done]. intros k Hk Hlog. apply (core_log _ _ _ (proj1 Hp)) in Hlog as [x Hx]. by rewrite (Hfree k Hk) in Hx. }
  assert (Hfin : ∃ x, (if (0 <? pSize r) && (pPruningHeight r <? stLastBlockHeight s) && (pPruningTime r <? stLastBlockTime s) then removeExpiredPendingEvidence bls r else Done r) = Done x ∧
    core [] (ks ++ log) x ∧ sized n' x ∧ pState x = s ∧ pBuffer x = [] ∧ ∀ k m, pPending r !! k = Some m → pPending x !! k = None → was_expired r k m).
  { destruct (_ && _); [|exists r; do 3 (split; [done|]); split; [done|split; [done|congruence]]].
    destruct (removeExpired_ok n' (ks ++ log) r Cr) as (x & Ex & Cx & (_ & E2 & E3) & Hsx & _ & Hexp). exists x. rewrite E2, E3, Est, Ebf. do 2 (split; [done|]). split; [apply Hsx; [lia|done]|by split_and!]. }
  destruct Hfin as (x & Ex & Cx & Hsx & Esx & Ebx & Hexp). rewrite E in Ex. injection Ex as <-. split_and!; [done..|].
  intros Hage a b dve k Hin Em Ek Hk. destruct (Hnew a b dve k Hin Em Ek) as [[m Hm]|Hc].
  - destruct (decide (k ∈ ks)) as [|Hnk]; [right; apply elem_of_app; by left|]. specialize (Hpend k). rewrite bool_decide_false in Hpend by done. cbn in Hpend. rewrite Hm in Hpend.
    destruct (pPending p' !! k) eqn:Ep; [by left; eexists|]. destruct (Hexp k m Hpend Ep) as (ev & _ & Hx). unfold isExpired in Hx. rewrite Est in Hx. cbn in Hx.
    rewrite Hk, Z.sub_diag in Hx. change (wrap64 0) with 0 in Hx. destruct (Z.ltb_spec (MaxAgeNumBlocks (pEvidence (stConsensusParams s))) 0); [lia|done].
  - right. apply elem_of_app. right. by apply (core_log _ _ _ (proj1 Hp)).
Qed.

Lemma NewPool_ok n log s p p' :
  pool_ok n log p → 0 ≤ n < 4294967296 → NewPool bls s (pPending p) (pCommitted p) = value p' → pool_ok n log p'.
Proof.
  intros (C & Hl & Hs) Hn E. unfold NewPool in E. set (p0 := mkPool _ _ _ _ _ _ _ _) in E.
  assert (C0 : core [] log p0) by (destruct C; split; cbn; try done; try constructor; by intros ? ?%elem_of_nil).
  destruct (removeExpired_ok n log p0 C0) as (q & Eq & Cq & (Ec & _ & Eb) & _ & Hsub & _). rewrite Eq in E. cbn [mbind outcome_bind] in E.
  destruct (listEvidence_ok log q (-1) Cq) as (evs & taken & rest & size & El & Epl & Hr & _ & Hall & _). rewrite El in E. injection E as <-.
  rewrite (Hall eq_refl), app_nil_r in Epl. subst taken.
  assert (Hlen : length evs = base.size (pPending q)).
  { rewrite <-(Forall2_length _ _ _ Hr), pending_list_perm. apply length_map_to_list. }
  assert (Hle : (base.size (pPending q) ≤ base.size (pPending p))%nat).
  { apply map_subseteq_size, map_subseteq_spec. exact Hsub. }
  split_and!; [|done|].
  - destruct Cq. split; cbn; try done. intros ev Hev. destruct (read_from_key _ _ _ Hr Hev) as (k & m & Hk%pending_list_lookup & Ek). exists k. split; [done|]. left. by eexists.
  - unfold sized in *. cbn. unfold zlen. rewrite Hlen, wrapu32_id; lia.
Qed.

(** ** Runs of a pool *)

(** Evidence from peers, blocks that are checked, votes from consensus. *)
Inductive gossip : Z → Pool → Pool → Prop :=
| gossip_refl p : gossip 0 p p
| gossip_add n p q db bs ev r err : gossip n p q → storable ev → AddEvidence bls db bs q ev = Done (r, err) → gossip (n + 1) p r
| gossip_check n p q db bs evs r err : gossip n p q → Forall storable evs → CheckEvidence bls db bs q evs = Done (r, err) → gossip (n + zlen evs) p r
| gossip_report n p q a b : gossip n p q → reportable a b → gossip n p (ReportConflictingVotes q a b).

(** The life of a pool: it starts empty, may be restarted on its database between blocks, and
    moves on by a block whose evidence it had accepted and which it is then told of: no crash comes
    between the commit of the block and [Update] (see [crash_before_update]).  [n] counts what was added, [log] lists the keys of
    what was committed. *)
Inductive run : Z → list key → Pool → Prop :=
| run_new s p : NewPool bls s ∅ ∅ = value p → run 0 [] p
| run_restart n log p s p' : run n log p → NewPool bls s (pPending p) (pCommitted p) = value p' → run n log p'
| run_gossip n log p m p' : run n log p → gossip m p p' → run (n + m) log p'
| run_block n log p db bs evs p1 m p2 db' bs' s p3 ks :
    run n log p → Forall storable evs → CheckEvidence bls db bs p evs = Done (p1, None) → gossip m p1 p2 → Update bls db' bs' p2 s evs = Done p3 →
    Forall2 (λ ev k, CalcKey ev = Done k) evs ks → run (n + zlen evs + m + zlen (pBuffer p2)) (ks ++ log) p3.

Lemma gossip_nonneg m p q : gossip m p q → 0 ≤ m.
Proof. induction 1 as [| |n p q db bs evs r err _ IH _ _|]; try lia. pose proof (zlen_nonneg evs). lia. Qed.

Lemma gossip_ok n log m p q :
  gossip m p q → 0 ≤ n → n + m < 4294967296 → pool_ok n log p → pool_ok (n + m) log q ∧ pCommitted q = pCommitted p.
Proof.
  intros G Hn Hb Hp. induction G as [p|m p q db bs ev r err G IH Hst E|m p q db bs evs r err G IH Hst E|m p q a b G IH Hr].
  - rewrite Z.add_0_r. done.
  - pose proof (gossip_nonneg _ _ _ G). destruct IH as [Hq Ec]; [lia|done|]. destruct (AddEvidence_ok (n + m) log db bs q ev r err Hq ltac:(lia) Hst E) as (Hr & Ec' & _).
    split; [by rewrite Z.add_assoc|congruence].
  - pose proof (gossip_nonneg _ _ _ G). pose proof (zlen_nonneg evs). destruct IH as [Hq Ec]; [lia|done|].
    destruct (check_evidence_ok log db bs evs (n + m) q [] r err Hq ltac:(lia) ltac:(lia) Hst E) as (Hr & (Ec' & _) & _). split; [by rewrite Z.add_assoc|congruence].
  - destruct IH as [(C & Hl & Hs) Ec]; [done|done|]. split; [|done]. split_and!; [|done|exact Hs]. destruct C. split; cbn; try done. apply Forall_app. split; [done|]. by constructor.
Qed.

Lemma run_ok n log p : run n log p → n < 4294967296 → 0 ≤ n ∧ pool_ok n log p.
Proof.
  induction 1 as [s p E|n log p s p' _ IH E|n log p m p' _ IH G|n log p db bs evs p1 m p2 db' bs' s p3 ks _ IH Hst E1 G E2 Hks]; intros Hb.
  - split; [done|]. apply (NewPool_ok 0 [] s (mkPool s ∅ ∅ 0 [] [] 0 0)); [|lia|exact E]. split_and!; [|constructor|by split].
    split; cbn; try done; try constructor; try (by intros ? ?%elem_of_nil).
    + intros ?%elem_of_nil. done.
    + intros [x Hx]. done.
  - destruct IH as [Hn Hp]; [done|]. split; [done|]. by eapply NewPool_ok.
  - pose proof (gossip_nonneg _ _ _ G). destruct IH as [Hn Hp]; [lia|]. split; [lia|]. by eapply gossip_ok.
  - pose proof (gossip_nonneg _ _ _ G). pose proof (zlen_nonneg evs). pose proof (zlen_nonneg (pBuffer p2)). destruct IH as [Hn Hp]; [lia|]. split; [lia|].
    destruct (check_evidence_ok log db bs evs n p [] p1 None Hp Hn ltac:(lia) Hst E1) as (Hp1 & (Ec1 & _) & Hks'). destruct (Hks' eq_refl) as (ks' & Hall & Hnd & Hfree).
    assert (ks' = ks) as ->.
    { clear -Hall Hks. revert ks Hks. induction Hall as [|ev k evs ks' Ek _ IH]; intros ks Hks; [by apply Forall2_nil_inv_l in Hks|].
      apply Forall2_cons_inv_l in Hks as (k2 & ks2 & E2 & Hks & ->). f_equal; [congruence|by apply IH]. }
    destruct (gossip_ok (n + zlen evs) log m p1 p2 G ltac:(lia) ltac:(lia) Hp1) as [Hp2 Ec2].
    eapply (pool_Update_ok _ log db' bs' p2 s evs ks p3); [exact Hp2|lia|lia|exact Hks|by eapply NoDup_fmap_1| |exact E2]. intros k Hk. rewrite Ec2, Ec1. by apply Hfree.
Qed.

Lemma Pending_ok n log p max :
  pool_ok n log p →
  ∃ evs size taken rest, PendingEvidence bls p max = Done (evs, size) ∧ evidence_ByteSize evs = Done size ∧ (0 ≤ max → size ≤ max) ∧
    pending_list p = taken ++ rest ∧ read_from taken evs ∧ (max = -1 → rest = []).
Proof.
  intros (C & _ & Hs). unfold PendingEvidence. destruct (Z.eqb_spec (pSize p) 0) as [E0|Hne].
  - assert (pPending p = ∅) as Ee by (apply map_size_empty_inv; unfold sized in Hs; lia). assert (El : pending_list p = []).
    { apply Permutation_nil. symmetry. rewrite pending_list_perm. by rewrite Ee, map_to_list_empty. }
    exists [], 0, [], []. split_and!; try done. constructor.
  - destruct (listEvidence_ok log p max C) as (evs & taken & rest & size & -> & El & Hr & Hsize & Hall & Hfit). cbn [mbind outcome_bind]. by exists evs, size, taken, rest.
Qed.

(** C40: over the life of a pool that is told of every block it accepted (restarts on its database
    come between blocks, none between the commit of a block and [Update]) and adds fewer than 2^32
    pieces of evidence, evidence is committed at most once by blocks the pool accepted: the keys of
    all that was committed are distinct, none of them is proposed again, and a block that contains
    one again is refused. *)
Theorem evidence_committed_once n log p :
  run n log p → n < 4294967296 →
  NoDup log ∧
  (∀ max evs size ev k, PendingEvidence bls p max = Done (evs, size) → ev ∈ evs → CalcKey ev = Done k → k ∉ log) ∧
  (∀ db bs evs p' ev k, ev ∈ evs → CalcKey ev = Done k → k ∈ log → Forall storable evs → n + zlen evs < 4294967296 →
     CheckEvidence bls db bs p evs ≠ Done (p', None)).
Proof.
  intros R Hb. destruct (run_ok n log p R Hb) as [Hn Hp]. pose proof Hp as (C & Hl & _). split_and!; [done| |].
  - intros max evs size ev k E Hev Ek Hin. destruct (Pending_ok n log p max Hp) as (evs' & size' & taken & rest & E' & _ & _ & El & Hr & _). rewrite E in E'. injection E' as <- <-.
    destruct (read_from_key _ _ _ Hr Hev) as (k' & m & Hk & Ek'). rewrite Ek in Ek'. injection Ek' as <-. apply (core_log _ _ _ C) in Hin as [x Hx].
    assert (pPending p !! k = Some m) by (apply pending_list_lookup; rewrite El; apply elem_of_app; by left). by rewrite (core_disjoint _ _ _ C k ltac:(by eexists)) in Hx.
  - intros db bs evs p' ev k Hev Ek Hin Hst Hb' E. destruct (check_evidence_ok log db bs evs n p [] p' None Hp Hn Hb' Hst E) as (_ & _ & Hks).
    destruct (Hks eq_refl) as (ks & Hall & _ & Hfree). apply list_elem_of_lookup in Hev as [i Hi]. destruct (Forall2_lookup_l _ _ _ _ _ Hall Hi) as (k' & Hk' & Ek').
    rewrite Ek in Ek'. injection Ek' as <-. destruct (Hfree k) as [Hc _]; [by eapply list_elem_of_lookup_2|]. apply (core_log _ _ _ C) in Hin as [x Hx]. congruence.
Qed.

(** the evidence a pool gives a proposer is what it has stored, the oldest first, cut off
    where it would be too large: its size is the one a block is charged for it and within the
    limit, it can be encoded, no piece comes twice, and without a limit all of it is there. *)
Theorem pending_evidence_correct n log p max :
  run n log p → n < 4294967296 →
  ∃ evs size ks, PendingEvidence bls p max = Done (evs, size) ∧ evidence_ByteSize evs = Done size ∧ (0 ≤ max → size ≤ max) ∧
    Forall2 (λ ev k, CalcKey ev = Done k) evs ks ∧ NoDup ks ∧ ks `prefix_of` (pending_list p).*1 ∧
    (max = -1 → ∀ k, k ∈ ks ↔ is_Some (pPending p !! k)).
Proof.
  intros R Hb. destruct (run_ok n log p R Hb) as [Hn Hp]. destruct (Pending_ok n log p max Hp) as (evs & size & taken & rest & E & Hsize & Hfit & El & Hr & Hall).
  exists evs, size, taken.*1. split_and!; try done.
  - clear -Hr. induction Hr as [|[k m] ev taken evs [_ Ek] _ IH]; [constructor|by constructor].
  - pose proof (pending_list_NoDup p) as Hnd. rewrite El, fmap_app in Hnd. by apply NoDup_app in Hnd as [? _].
  - rewrite El, fmap_app. by eexists.
  - intros Hm k. rewrite (Hall Hm), app_nil_r in El. rewrite <-El. rewrite list_elem_of_fmap. split.
    + intros ([k' m] & -> & Hin%pending_list_lookup). by eexists.
    + intros [m Hin%pending_list_lookup]. by exists (k, m).
Qed.

Lemma Update_keeps n log db bs p s p' k m :
  pool_ok n log p → 0 ≤ n → n + zlen (pBuffer p) < 4294967296 → stLastBlockHeight s ≤ pPruningHeight p → pPending p !! k = Some m →
  Update bls db bs p s [] = Done p' → pPending p' !! k = Some m.
Proof.
  intros Hp Hn Hb Hprune Hk E. unfold Update, processConsensusBuffer in E. destruct (_ <=? _); [done|].
  apply outcome_bind_Done in E as (q0 & (q & Eq & [= <-])%outcome_bind_Done & E). cbn [markEvidenceAsCommitted mark_committed mbind outcome_bind fst snd removeEvidenceFromList] in E.
  destruct (flush_ok log db bs s (pBuffer p) n p q Hp Hn Hb (core_buffer _ _ _ (proj1 Hp)) Eq) as (_ & _ & Hsub & _).
  assert (Epr : pPruningHeight q = pPruningHeight p).
  { clear -Eq. revert p q Eq. generalize (pBuffer). intros f p. generalize (f p). clear f. intros l. revert p. induction l as [|v l IH]; intros p q E; [by injection E as <-|].
    cbn [flush] in E. apply outcome_bind_Done in E as (r & Er & E). rewrite (IH r q E). clear -Er. unfold add_conflict in Er. apply outcome_bind_Done in Er as (made & _ & Er).
    destruct made as [dve|]; [|by injection Er as <-]. apply outcome_bind_Done in Er as (x & _ & Er). destruct x; [by injection Er as <-|].
    apply outcome_bind_Done in Er as (y & _ & Er). destruct y; [by injection Er as <-|]. apply outcome_bind_Done in Er as (z & Ez & [= <-]). destruct z as [r'|]; [|done].
    unfold addPendingEvidence in Ez. destruct (EvidenceToProto _); [|done]. by apply outcome_bind_Done in Ez as (kk & _ & [= <-]). }
  cbn [pPruningHeight pool_updateState set_buffer] in E. rewrite Epr in E. destruct (Z.ltb_spec (pPruningHeight p) (stLastBlockHeight s)); [lia|].
  rewrite andb_false_r in E. cbn [andb] in E. injection E as <-. cbn. auto.
Qed.

Lemma Pending_has n log p k m ev :
  pool_ok n log p → pPending p !! k = Some m → EvidenceFromProto bls m = value ev →
  ∃ out size, PendingEvidence bls p (-1) = Done (out, size) ∧ ev ∈ out.
Proof.
  intros Hp Hk Ev. destruct (Pending_ok n log p (-1) Hp) as (out & size & taken & rest & E & _ & _ & El & Hr & Hall). rewrite (Hall eq_refl), app_nil_r in El. subst taken.
  exists out, size. split; [done|]. apply pending_list_lookup, list_elem_of_lookup in Hk as [i Hi]. destruct (Forall2_lookup_l _ _ _ _ _ Hr Hi) as (ev' & Hi' & Ef & _).
  cbn in Ef. rewrite Ev in Ef. injection Ef as <-. by eapply list_elem_of_lookup_2.
Qed.

(** pruning runs one block late: at the height at which the oldest evidence expires it is
    still proposed, although every node that does not have it pending refuses a block with it. *)
Theorem expired_evidence_is_proposed n log p (k : key) m ev db bs s p' :
  run n log p → n + zlen (pBuffer p) < 4294967296 → pPending p !! k = Some m → EvidenceFromProto bls m = value ev →
  let params := pEvidence (stConsensusParams s) in
  pPruningHeight p = k.1 + MaxAgeNumBlocks params + 1 → stLastBlockHeight s = pPruningHeight p → pPruningHeight p - k.1 ≤ max_int64 → 0 ≤ MaxAgeNumBlocks params →
  MaxAgeDuration params < time_Sub (stLastBlockTime s) (ev_Time ev) →
  Update bls db bs p s [] = Done p' →
  (∃ out size, PendingEvidence bls p' (-1) = Done (out, size) ∧ ev ∈ out) ∧
  (∀ db bs q q', pState q = s → pPending q !! k = None → CheckEvidence bls db bs q [ev] ≠ Done (q', None)).
Proof.
  intros R Hb Hk Ev params Eph Eh Hmax Hpos Hdur E. pose proof (zlen_nonneg (pBuffer p)). destruct (run_ok n log p R ltac:(lia)) as [Hn Hp].
  pose proof (core_stored _ _ _ (proj1 Hp) k m Hk) as (ev' & Ev' & _ & Ek). rewrite Ev in Ev'. injection Ev' as <-. pose proof (CalcKey_inv _ _ Ek) as [Eht _]. split.
  - pose proof (Update_keeps n log db bs p s p' k m Hp Hn Hb ltac:(lia) Hk E) as Hk'.
    destruct (pool_Update_ok n log db bs p s [] [] p' Hp Hn Hb ltac:(constructor) ltac:(constructor) ltac:(by intros ? ?%elem_of_nil) E) as (Hp' & _). by eapply Pending_has.
  - intros db' bs' q q' Es Hnone Ec. unfold CheckEvidence in Ec. cbn [check_evidence] in Ec. rewrite (isPending_key _ _ _ Ek), Hnone, (isCommitted_key _ _ _ Ek) in Ec.
    apply outcome_bind_Done in Ec as (pend & Epend & Ec). assert (pend = false) as -> by (destruct (is_attack ev); injection Epend as <-; by rewrite ?(bool_decide_false (is_Some None)) by (by intros [? ?])).
    apply outcome_bind_Done in Ec as (r & Er & Ec). destruct r as [q1|]; [|done]. cbn [mbind outcome_bind] in Er. destruct (bool_decide (is_Some (pCommitted q !! k))); [done|].
    apply outcome_bind_Done in Er as (e & Ee & Er). destruct e; [done|]. unfold verify in Ee. rewrite Es, Eht in Ee. cbn [mbind outcome_bind] in Ee.
    destruct (LoadBlockMeta bs' k.1) as [bm|]; [|done]. destruct (Z.eqb_spec (ev_Time ev) (hTime (bmMetaHeader bm))) as [Et|]; [|done]. cbn [negb] in Ee.
    rewrite <-Et in Ee. unfold IsEvidenceExpired in Ee. fold params in Ee. rewrite (proj2 (Z.ltb_lt _ _) Hdur), Eh, wrap64_id in Ee by (unfold_ints; lia).
    destruct (Z.ltb_spec (MaxAgeNumBlocks params) (pPruningHeight p - k.1)); [done|lia].
Qed.

End invariant.

(** ** From a conflict in the tally to a proposal *)

Section conflicts.
Context `{PubKeyOps, SignCodec, !BatchOps, !HeaderCodec, Merkle.HashOps, !KeyCodec, !BlockCodec}.
Variable bls : bool.

(** Evidence that survives the wire can be stored. *)
Lemma wire_storable `{!KeyCodecLaws} ev k m : wire_evidence bls ev → CalcKey ev = Done k → EvidenceToProto ev = Ok m → storable bls ev.
Proof.
  intros Hw Ek Em. exists k, m. split_and!; [done|done|]. exists ev. split_and!; [|done|done].
  pose proof (evidence_roundtrip bls [ev] [m]) as Hr. cbn [evidence_ToProto decode_all] in Hr. rewrite Em in Hr. specialize (Hr ltac:(by constructor) eq_refl).
  destruct (EvidenceFromProto bls m) as [[ev'|]|]; [|done..]. cbn [dbind value] in Hr. by injection Hr as ->.
Qed.

(** Well-formed votes for different blocks can be reported. *)
Lemma conflict_reportable a b :
  vote_ValidateBasic a = None → vote_ValidateBasic b = None → Key (vBlockID a) ≠ Key (vBlockID b) → (∀ dve, is_Some (dve_Marshal dve)) → reportable bls a b.
Proof.
  intros Va Vb Hne Hm time vals dve E. unfold NewDuplicateVoteEvidence in E. destruct (GetByAddress _ _) as [ix o]. destruct (ix =? -1); [done|].
  assert (Hv : ∀ x y tp vp, vote_ValidateBasic x = None → vote_ValidateBasic y = None → bytes_compare (Key (vBlockID x)) (Key (vBlockID y)) = -1 →
    storable bls (EvDuplicateVote (mkDuplicateVoteEvidence (Some x) (Some y) tp vp time))).
  { intros x y tp vp Hx Hy Hc. set (d := mkDuplicateVoteEvidence _ _ _ _ _). destruct (Hm d) as [bz Ebz].
    assert (Ek : CalcKey (EvDuplicateVote d) = Done (Height x, Merkle.Sum bz)) by (unfold CalcKey, ev_Hash, ev_Bytes; cbn [ev_Height VoteA d deref mbind outcome_bind]; by rewrite Ebz).
    eexists _, _. split_and!; [exact Ek|reflexivity|]. exists (EvDuplicateVote d). split_and!; [|done|exact Ek]. cbn [EvidenceFromProto].
    rewrite dve_same, dve_roundtrip; [done|]. unfold dve_ValidateBasic. cbn [VoteA VoteB d]. by rewrite Hx, Hy, Hc. }
  destruct (Z.eqb_spec (bytes_compare (Key (vBlockID a)) (Key (vBlockID b))) (-1)) as [Ec|Ec];
    apply outcome_bind_Done in E as (t & _ & E); apply outcome_bind_Done in E as (val & _ & [= <-]); apply Hv; try done.
  rewrite bytes_compare_antisym. pose proof (bytes_compare_eq (Key (vBlockID a)) (Key (vBlockID b))) as He.
  destruct (bytes_compare_cases (Key (vBlockID a)) (Key (vBlockID b))) as [?|[E0|E1]]; [done| |by rewrite E1]. by apply He in E0.
Qed.

Lemma evidence_height a b time vals dve chain :
  NewDuplicateVoteEvidence (Some a) (Some b) time (Some vals) = Done (Ok dve) → VerifyDuplicateVote dve chain vals = Done None →
  ev_Height (EvDuplicateVote dve) = Done (Height a).
Proof.
  unfold NewDuplicateVoteEvidence. destruct (GetByAddress vals _) as [ix o]. destruct (ix =? -1); [done|]. destruct (_ =? -1);
    intros (t & _ & (val & _ & [= <-])%outcome_bind_Done)%outcome_bind_Done Hv; [done|]. cbn. f_equal.
  unfold VerifyDuplicateVote in Hv. cbn [VoteA VoteB deref mbind outcome_bind] in Hv. destruct (_.2); [|done].
  destruct (Z.eqb_spec (Height b) (Height a)) as [E|]; [done|]. done.
Qed.

(** The check of the evidence does not depend on the priorities of the validators. *)
Lemma double_vote_members dve chain V W : same_members V W → double_vote dve chain W → double_vote dve chain V.
Proof.
  unfold same_members. intros Hs (x & y & val & pk & bzA & bzB & Ex & Ey & Hval & Ek & E1 & E2 & E3 & E4 & E5 & E6 & E7 & Ep & Et & S1 & S2 & S3 & S4).
  apply (list_elem_of_fmap_2 shape) in Hval. rewrite <-Hs in Hval. apply list_elem_of_fmap in Hval as (val' & [= Ea' Ek' Ep'] & Hval').
  assert (Ets : zsum VotingPower (Validators V) = zsum VotingPower (Validators W)).
  { by apply shape_zsum. }
  exists x, y, val', pk, bzA, bzB. split_and!; try done; congruence.
Qed.

(** What the evidence says is what was reported. *)
Lemma evidence_votes a b time vals dve :
  NewDuplicateVoteEvidence (Some a) (Some b) time (Some vals) = Done (Ok dve) →
  dTimestamp dve = time ∧ ((VoteA dve, VoteB dve) = (Some a, Some b) ∨ (VoteA dve, VoteB dve) = (Some b, Some a)).
Proof.
  unfold NewDuplicateVoteEvidence. destruct (GetByAddress vals _) as [ix o]. destruct (ix =? -1); [done|]. destruct (_ =? -1);
    intros (t & _ & (val & _ & [= <-])%outcome_bind_Done)%outcome_bind_Done; cbn; auto.
Qed.

(** Any node that has the block of the height and its validators, and for which the evidence is not
    too old yet. *)
Definition knows_height (db : DB) (bs : BlockStore) (q : Pool) (chain : string) (height time : Z) (vals : ValidatorSet) : Prop :=
  stChainID (pState q) = chain ∧
  (∃ m, LoadBlockMeta bs height = Some m ∧ hTime (bmMetaHeader m) = time) ∧
  (∃ V, LoadValidators bls db height = value V ∧ same_members V vals ∧ wf V) ∧
  IsEvidenceExpired (stLastBlockHeight (pState q)) (stLastBlockTime (pState q)) height time
    (pEvidence (stConsensusParams (pState q))) = false.

Lemma node_verifies dve db bs q chain height time vals :
  VerifyDuplicateVote dve chain vals = Done None → wf vals → zlen (Validators vals) ≤ max_int32 →
  ev_Height (EvDuplicateVote dve) = Done height → dTimestamp dve = time →
  knows_height db bs q chain height time vals → verify bls db bs q (EvDuplicateVote dve) = Done None.
Proof.
  intros Hv (Hwf & _ & Hc & _) Hmax Eh Et (Ec & (m & Em & Emt) & (V & EV & Hs & HwV & _ & HcV & _) & Hexp).
  unfold verify. rewrite Eh. cbn [mbind outcome_bind ev_Time]. rewrite Em, Emt, Et, Z.eqb_refl, Hexp. cbn [negb]. rewrite EV.
  cbn [mbind outcome_bind]. rewrite Ec. apply VerifyDuplicateVote_spec; [done|done| |].
  - pose proof (f_equal length Hs) as Hl. rewrite !length_fmap in Hl. unfold zlen in *. by rewrite Hl.
  - eapply double_vote_members; [exact Hs|]. by apply VerifyDuplicateVote_spec.
Qed.

(** C20: two conflicting votes that the tally reported and consensus handed to the pool become, when
    the height ends, evidence of exactly these two votes, stamped with the time of the block of
    that height, that the pool of every node verifies which has that block and its validators and
    for which it is not too old; unless it is committed already, the pool has it for its next
    proposal.  The votes are of the height of the state, its last validators are those of the tally, no
    evidence of the block repeats what was committed, and the pool adds fewer than 2^32 pieces. *)
Theorem reported_conflict_is_proposed n log p s db bs evs ks p' vs v vs' added a b :
  run bls n log p → n + zlen (pBuffer p) < 4294967296 →
  VoteSet.VoteSet.reachable vs → zlen (VoteSet.VoteSet.vals_of vs) ≤ max_int32 → block_ValidateBasic (vBlockID v) = true →
  VoteSet.VoteSet.AddVote (Some vs) (Some v) = Done (vs', (added, Some (ErrVoteConflictingVotes a b))) →
  (a, b) ∈ pBuffer p → Height a = stLastBlockHeight s → VoteSet.VoteSet.valSet vs = stLastValidators s → 0 ≤ MaxAgeNumBlocks (pEvidence (stConsensusParams s)) →
  Forall2 (λ ev k, CalcKey ev = Done k) evs ks → NoDup ks → (∀ k, k ∈ ks → k ∉ log) → Update bls db bs p s evs = Done p' →
  ∃ dve k, ((VoteA dve, VoteB dve) = (Some a, Some b) ∨ (VoteA dve, VoteB dve) = (Some b, Some a)) ∧
    dTimestamp dve = stLastBlockTime s ∧
    VerifyDuplicateVote dve (VoteSet.VoteSet.chainID vs) (stLastValidators s) = Done None ∧
    (∀ db' bs' q, knows_height db' bs' q (VoteSet.VoteSet.chainID vs) (Height a) (stLastBlockTime s) (stLastValidators s) →
       verify bls db' bs' q (EvDuplicateVote dve) = Done None) ∧
    CalcKey (EvDuplicateVote dve) = Done k ∧
    (k ∈ ks ++ log ∨ ∃ out size ev, PendingEvidence bls p' (-1) = Done (out, size) ∧ ev ∈ out ∧ CalcKey ev = Done k).
Proof.
  intros R Hb Hvs Hmax Hid Ev Hin Hh Evals Hage Hks Hnd Hfree E. pose proof (zlen_nonneg (pBuffer p)). destruct (run_ok bls n log p R ltac:(lia)) as [Hn Hp].
  destruct (conflict_evidence vs v vs' added a b (stLastBlockTime s) Hvs Hmax Hid Ev) as (dve & Ed & Hv & _). rewrite Evals in Ed, Hv.
  assert (Em : make_evidence bls db bs s a b = Done (Ok dve)) by (unfold make_evidence; by rewrite Hh, Z.eqb_refl).
  assert (Hr : reportable bls a b) by (pose proof (core_buffer _ _ _ _ (proj1 Hp)) as Hbuf; rewrite Forall_forall in Hbuf; exact (Hbuf _ Hin)).
  destruct (make_evidence_storable bls db bs s a b dve Hr Em) as (k & m & Ek & _). exists dve, k.
  destruct (evidence_votes _ _ _ _ _ Ed) as [Etime Evotes]. pose proof (evidence_height a b _ _ dve _ Ed Hv) as Eht.
  split_and!; [exact Evotes|exact Etime|done| |done|].
  { intros db' bs' q. apply node_verifies; try done; rewrite <-Evals; [by apply VoteSet.VoteSet.reachable_sorted|done]. }
  destruct (pool_Update_ok bls n log db bs p s evs ks p' Hp Hn Hb Hks Hnd) as (Hp' & _ & _ & Hnew); [|exact E|].
  { intros k' Hk'. apply eq_None_not_Some. intros Hc. apply (Hfree k' Hk'). by apply (core_log _ _ _ _ (proj1 Hp)). }
  pose proof (CalcKey_inv _ _ Ek) as [Eht' _]. rewrite Eht in Eht'. injection Eht' as Eht'.
  destruct (Hnew Hage a b dve k Hin Em Ek ltac:(congruence)) as [[x Hx]|]; [right|by left].
  destruct (core_stored _ _ _ _ (proj1 Hp') k x Hx) as (ev & Ef & _ & Ekv). destruct (Pending_has bls _ _ p' k x ev Hp' Hx Ef) as (out & size & Eo & Hev). by exists out, size, ev.
Qed.

End conflicts.

(** ** Examples *)

Section examples.
#[local] Existing Instances toy_keys toy_codec toy_batch toy_batch_laws Merkle.toy_hash Merkle.toy_hash_laws toy_header_codec toy_header_codec_laws
  toy_key_codec toy_key_codec_laws toy_block_codec.

Definition ex_tally := VoteSet.VoteSet.ex_after VoteSet.VoteSet.ex_votes_A.
Definition ex_first : Vote := VoteSet.VoteSet.ex_vote 4 VoteSet.VoteSet.ex_B.
Definition ex_second : Vote := VoteSet.VoteSet.ex_vote 4 VoteSet.VoteSet.ex_A.

(** States after the height of the votes; evidence expires after five blocks. *)
Definition ex_state (h t : Z) : State :=
  let p := DefaultConsensusParams in
  mkState 11 0 "" "chain" 1 h nil_BlockID t (VoteSet.VoteSet.valSet ex_tally) (VoteSet.VoteSet.valSet ex_tally) (VoteSet.VoteSet.valSet ex_tally) 1
    (mkConsensusParams (pBlock p) (mkEvidenceParams 5 100 1000) (pValidator p) (pVersion p) (pSynchrony p) (pFeature p)) 1 [] [].
Definition ex_blocks : BlockStore := mkBlockStore (λ _, None) (λ _, None) 0.

Definition done_or {A} (d : A) (m : outcome A) : A := match m with Done a => a | Panic _ => d end.
Definition ex_pool0 : Pool := Eval vm_compute in get (mkPool no_state ∅ ∅ 0 [] [] 0 0) (NewPool false no_state ∅ ∅).
Definition ex_pool1 : Pool := ReportConflictingVotes ex_pool0 ex_first ex_second.
Definition ex_height : Z := Eval vm_compute in Height ex_first.
Definition ex_pool2 : Pool := Eval vm_compute in done_or ex_pool0 (Update false empty_db ex_blocks ex_pool1 (ex_state ex_height 1000) []).
Definition ex_pool3 : Pool := Eval vm_compute in done_or ex_pool0 (Update false empty_db ex_blocks ex_pool2 (ex_state (ex_height + 6) 2000) []).
Definition ex_out : list Evidence * Z := Eval vm_compute in done_or ([], 0) (PendingEvidence false ex_pool2 (-1)).
Definition ex_pool4 : Pool := Eval vm_compute in done_or ex_pool0 (Update false empty_db ex_blocks ex_pool2 (ex_state (ex_height + 1) 2000) ex_out.1).
Definition ex_keys : list key := Eval vm_compute in (map_to_list (pPending ex_pool2)).*1.

Lemma ex_reportable : reportable false ex_first ex_second.
Proof. apply conflict_reportable; [by vm_compute..|by_decide|by eexists]. Qed.
Lemma ex_run1 : run false 0 [] ex_pool1.
Proof.
  apply (run_gossip false 0 [] ex_pool0 0); [apply (run_new false no_state); by vm_compute|].
  apply (gossip_report false 0 ex_pool0 ex_pool0); [apply gossip_refl|exact ex_reportable].
Qed.
Lemma ex_run2 : run false 1 [] ex_pool2.
Proof.
  apply (run_block false 0 [] ex_pool1 empty_db ex_blocks [] ex_pool1 0 ex_pool1 empty_db ex_blocks (ex_state ex_height 1000) ex_pool2 [] ex_run1);
    [constructor|done|apply gossip_refl|by vm_compute|constructor].
Qed.
Lemma ex_out_storable : Forall (storable false) ex_out.1.
Proof.
  constructor; [|constructor]. apply (make_evidence_storable false empty_db ex_blocks (ex_state ex_height 1000) ex_first ex_second);
    [exact ex_reportable|by vm_compute].
Qed.
Lemma ex_run4 : run false 2 ex_keys ex_pool4.
Proof.
  apply (run_block false 1 [] ex_pool2 empty_db ex_blocks ex_out.1 ex_pool2 0 ex_pool2 empty_db ex_blocks (ex_state (ex_height + 1) 2000) ex_pool4 ex_keys ex_run2);
    [exact ex_out_storable|by vm_compute|apply gossip_refl|by vm_compute|].
  constructor; [by vm_compute|constructor].
Qed.

(** Only [Update] marks evidence as committed.  A node that crashes after its block with the evidence was
    committed and before [Update] replays that block with an empty evidence pool: restarted on its
    database at the next state, its pool proposes the evidence again and accepts a further block with it,
    which a pool that was told of the block refuses. *)
Lemma crash_before_update :
  ∃ p1 p', ex_out.1 ≠ [] ∧ CheckEvidence false empty_db ex_blocks ex_pool2 ex_out.1 = Done (p1, None) ∧
    NewPool false (ex_state (ex_height + 1) 2000) (pPending p1) (pCommitted p1) = value p' ∧
    PendingEvidence false p' (-1) = Done ex_out ∧
    CheckEvidence false empty_db ex_blocks p' ex_out.1 = Done (p', None) ∧
    CheckEvidence false empty_db ex_blocks ex_pool4 ex_out.1 = Done (ex_pool4, Some ErrEvidenceAlreadyCommitted).
Proof. eexists _, _. split_and!; [done|by vm_compute..]. Qed.

Lemma evidence_committed_once_witness : ex_keys ≠ [] ∧ NoDup ex_keys.
Proof. split; [done|]. exact (proj1 (evidence_committed_once false 2 ex_keys ex_pool4 ex_run4 ltac:(lia))). Defined.

Lemma pending_evidence_correct_witness : ∃ evs size, PendingEvidence false ex_pool2 1000 = Done (evs, size) ∧ evidence_ByteSize evs = Done size ∧ size ≤ 1000.
Proof.
  destruct (pending_evidence_correct false 1 [] ex_pool2 1000 ex_run2 ltac:(lia)) as (evs & size & ks & E & Es & Hs & _).
  exists evs, size. split; [exact E|]. split; [exact Es|]. apply Hs. done.
Defined.

Lemma reported_conflict_is_proposed_witness :
  ∃ dve k, ((VoteA dve, VoteB dve) = (Some ex_first, Some ex_second) ∨ (VoteA dve, VoteB dve) = (Some ex_second, Some ex_first)) ∧
    dTimestamp dve = stLastBlockTime (ex_state ex_height 1000) ∧
    VerifyDuplicateVote dve (VoteSet.VoteSet.chainID ex_tally) (stLastValidators (ex_state ex_height 1000)) = Done None ∧
    (∀ db' bs' q, knows_height false db' bs' q (VoteSet.VoteSet.chainID ex_tally) (Height ex_first) (stLastBlockTime (ex_state ex_height 1000))
         (stLastValidators (ex_state ex_height 1000)) →
       verify false db' bs' q (EvDuplicateVote dve) = Done None) ∧
    CalcKey (EvDuplicateVote dve) = Done k ∧
    (k ∈ [] ++ [] ∨ ∃ out size ev, PendingEvidence false ex_pool2 (-1) = Done (out, size) ∧ ev ∈ out ∧ CalcKey ev = Done k).
Proof.
  destruct (VoteSet.VoteSet.AddVote (Some ex_tally) (Some ex_second)) as [[vs' [added err]]|] eqn:E; [|by vm_compute in E].
  assert (err = Some (ErrVoteConflictingVotes ex_first ex_second)) as -> by (vm_compute in E; injection E; by intros).
  simple refine (reported_conflict_is_proposed false 0 [] ex_pool1 (ex_state ex_height 1000) empty_db ex_blocks [] [] ex_pool2 ex_tally ex_second vs' added ex_first ex_second _ _ _ _ _ _ _ _ _ _ _ _ _ _).
  - exact ex_run1.
  - by vm_compute.
  - exact VoteSet.VoteSet.ex_A_reachable.
  - by_decide.
  - by_decide.
  - exact E.
  - left; reflexivity.
  - by vm_compute.
  - reflexivity.
  - by vm_compute.
  - constructor.
  - constructor.
  - intros k Hk. destruct (not_elem_of_nil k Hk).
  - by vm_compute.
Defined.

(** A node that has the height: its validators are stored in full, with other priorities. *)
Definition ex_moved : ValidatorSet := Eval vm_compute in done_or empty_set (IncrementProposerPriority (VoteSet.VoteSet.valSet ex_tally) 1).
Definition ex_node_db : DB :=
  mkDB None {[ ex_height := mkValidatorsInfo (match vals_ToProto (Some ex_moved) with Ok m => Some m | Err _ => None end) ex_height ]} ∅ ∅ None.
Definition ex_node_blocks : BlockStore :=
  let h := mkHeader 11 0 "chain" ex_height 1000 nil_BlockID [] [] [] [] [] [] [] [] [] in
  mkBlockStore (λ k, if k =? ex_height then Some (mkBlockMeta nil_BlockID 0 h 0) else None) (λ _, None) ex_height.

Lemma ex_knows_height :
  knows_height false ex_node_db ex_node_blocks ex_pool4 "chain" ex_height 1000 (VoteSet.VoteSet.valSet ex_tally).
Proof.
  split_and!; [by vm_compute|eexists; split; by vm_compute| |by vm_compute].
  eexists. split_and!; [vm_compute; reflexivity|by vm_compute|by_decide].
Qed.

Lemma expired_evidence_is_proposed_witness :
  ∃ ev, ∀ db bs q q', pState q = ex_state (ex_height + 6) 2000 → pPending q = ∅ → CheckEvidence false db bs q [ev] ≠ Done (q', None).
Proof.
  destruct (map_to_list (pPending ex_pool2)) as [|[k m] l] eqn:El; [by vm_compute in El|].
  assert (Hk : pPending ex_pool2 !! k = Some m) by (apply elem_of_map_to_list; rewrite El; by left). vm_compute in El. injection El as <- <- _.
  eexists. intros db bs q q' Es Hq.
  refine (proj2 (expired_evidence_is_proposed false 1 [] ex_pool2 _ _ _ empty_db ex_blocks (ex_state (ex_height + 6) 2000) ex_pool3 ex_run2 _ Hk _ _ _ _ _ _ _) db bs q q' Es _);
    [by vm_compute|vm_compute; reflexivity|by vm_compute|by vm_compute|by vm_compute|by vm_compute|by vm_compute|by vm_compute|by rewrite Hq].
Defined.

End examples.

End EvidencePool.
