(* ===== verification/BlockStore.v ===== *)
(** * BlockStore: the block store

    [store/store.go] and the first key layout of [store/db_key_layout.go]: saving blocks with
    their parts and commits, loading them through caches, pruning old blocks and deleting the
    last one.  A key is made from a kind and a height, part or hash, so that the database is one
    map per kind; that the keys of the first layout tell the kinds and the arguments apart is
    proved below.  A batch is a list of writes that are made together; reads and writes do not
    fail.  The caches come from a library and may forget any entry at any time. *)

From stdpp Require Import pretty.
From S2P Require Import Prelude Merkle Crypto ValidatorSet Votes PartSet Commit Validation Header Light Params Wire Evidence Block State Chain.
Import ValidatorSet.ValidatorSet Votes.Votes Commit.Commit Validation.Validation Header.Header Light.Light Params.Params Wire.Wire Evidence.Evidence Block.Block State.State Chain.Chain.

Local Open Scope Z_scope.

Module BlockStore.

Local Notation Part := PartSet.PartSet.Part.
Local Notation PartSet := PartSet.PartSet.PartSet.

Definition maxBlockPartsToBatch : Z := 10.

(** ** The keys of the first layout *)

(** What a key stands for. *)
Inductive bkey : Type :=
| KMeta (height : Z) | KPart (height index : Z) | KCommit (height : Z) | KSeen (height : Z) | KExt (height : Z) | KHash (hash : list Z).

(** The verb [%x] on bytes. *)
Definition hex_digit (n : Z) : ascii := Ascii.ascii_of_N (Z.to_N (if n <? 10 then 48 + n else 87 + n)).
Fixpoint hex (l : list Z) : string :=
  match l with [] => "" | b :: l => String (hex_digit (b / 16)) (String (hex_digit (b mod 16)) (hex l)) end.

Definition v1_CalcBlockMetaKey (height : Z) : string := "H:" +:+ pretty height.
Definition v1_CalcBlockPartKey (height partIndex : Z) : string := "P:" +:+ pretty height +:+ ":" +:+ pretty partIndex.
Definition v1_CalcBlockCommitKey (height : Z) : string := "C:" +:+ pretty height.
Definition v1_CalcSeenCommitKey (height : Z) : string := "SC:" +:+ pretty height.
Definition v1_CalcExtCommitKey (height : Z) : string := "EC:" +:+ pretty height.
Definition v1_CalcBlockHashKey (hash : list Z) : string := "BH:" +:+ hex hash.
Definition blockStoreKey : string := "blockStore".
Definition versionKey : string := "version".

Definition v1_key (k : bkey) : string :=
  match k with
  | KMeta h => v1_CalcBlockMetaKey h
  | KPart h i => v1_CalcBlockPartKey h i
  | KCommit h => v1_CalcBlockCommitKey h
  | KSeen h => v1_CalcSeenCommitKey h
  | KExt h => v1_CalcExtCommitKey h
  | KHash x => v1_CalcBlockHashKey x
  end.

(** ** The database *)

(** A commit that is nil is stored as no bytes, which reads as absent. *)
Record DB := mkDB {
  dbMetas : gmap Z BlockMeta; dbParts : gmap (Z * Z) Part; dbCommits : gmap Z (option Commit); dbSeen : gmap Z Commit;
  dbExt : gmap Z ExtendedCommit; dbHashes : gmap (list Z) Z; dbBlockStore : option (Z * Z) }.
Definition empty_db : DB := mkDB ∅ ∅ ∅ ∅ ∅ ∅ None.

Inductive write : Type :=
| SetMeta (h : Z) (m : BlockMeta) | DelMeta (h : Z)
| SetPart (h i : Z) (p : Part) | DelPart (h i : Z)
| SetCommit (h : Z) (c : option Commit) | DelCommit (h : Z)
| SetSeen (h : Z) (c : Commit) | DelSeen (h : Z)
| SetExt (h : Z) (c : ExtendedCommit)
| SetHash (x : list Z) (h : Z) | DelHash (x : list Z)
| SetBlockStore (base height : Z).

Definition put (d : DB) (w : write) : DB :=
  let '(mkDB ms ps cs ss es hs st) := d in
  match w with
  | SetMeta h m => mkDB (<[h := m]> ms) ps cs ss es hs st
  | DelMeta h => mkDB (delete h ms) ps cs ss es hs st
  | SetPart h i p => mkDB ms (<[(h, i) := p]> ps) cs ss es hs st
  | DelPart h i => mkDB ms (delete (h, i) ps) cs ss es hs st
  | SetCommit h c => mkDB ms ps (<[h := c]> cs) ss es hs st
  | DelCommit h => mkDB ms ps (delete h cs) ss es hs st
  | SetSeen h c => mkDB ms ps cs (<[h := c]> ss) es hs st
  | DelSeen h => mkDB ms ps cs (delete h ss) es hs st
  | SetExt h c => mkDB ms ps cs ss (<[h := c]> es) hs st
  | SetHash x h => mkDB ms ps cs ss es (<[x := h]> hs) st
  | DelHash x => mkDB ms ps cs ss es (delete x hs) st
  | SetBlockStore b h => mkDB ms ps cs ss es hs (Some (b, h))
  end.
Definition write_batch (d : DB) (batch : list write) : DB := foldl put d batch.

(** Base and height; a record from before there was a base has base 0. *)
Definition LoadBlockStoreState (d : DB) : Z * Z :=
  match dbBlockStore d with
  | None => (0, 0)
  | Some (base, height) => (if (0 <? height) && (base =? 0) then 1 else base, height)
  end.

(** ** The store *)

Record Store := mkStore {
  bsDb : DB; bsBase : Z; bsHeight : Z; blocksDeleted : Z; compact : bool; compactionInterval : Z;
  seenCommitCache : gmap Z Commit; blockCommitCache : gmap Z Commit; blockExtendedCommitCache : gmap Z ExtendedCommit; blockPartCache : gmap (Z * Z) Part }.

Definition set_bsdb (s : Store) (d : DB) : Store :=
  mkStore d (bsBase s) (bsHeight s) (blocksDeleted s) (compact s) (compactionInterval s) (seenCommitCache s) (blockCommitCache s) (blockExtendedCommitCache s) (blockPartCache s).
Definition set_range (s : Store) (base height : Z) : Store :=
  mkStore (bsDb s) base height (blocksDeleted s) (compact s) (compactionInterval s) (seenCommitCache s) (blockCommitCache s) (blockExtendedCommitCache s) (blockPartCache s).
Definition set_deleted (s : Store) (n : Z) : Store :=
  mkStore (bsDb s) (bsBase s) (bsHeight s) n (compact s) (compactionInterval s) (seenCommitCache s) (blockCommitCache s) (blockExtendedCommitCache s) (blockPartCache s).
Definition set_caches (s : Store) seen commits exts parts : Store :=
  mkStore (bsDb s) (bsBase s) (bsHeight s) (blocksDeleted s) (compact s) (compactionInterval s) seen commits exts parts.

Definition NewBlockStore (d : DB) (compact : bool) (interval : Z) : Store :=
  let '(base, height) := LoadBlockStoreState d in mkStore d base height 0 compact interval ∅ ∅ ∅ ∅.

Definition IsEmpty (s : Store) : bool := (bsBase s =? 0) && (bsHeight s =? 0).
Definition store_Size (s : Store) : Z := if bsHeight s =? 0 then 0 else wrap64 (bsHeight s - bsBase s + 1).

(** What a decoder that fails makes of a stored message. *)
Definition must {A} (why : string) (m : decoded A) : outcome A :=
  r ← m; match r with Ok a => Done a | Err _ => Panic why end.

(** The encoding of a block, which is generated code. *)
Class BlockBytes `{PubKeyOps} := { blockMsg_Marshal : BlockMsg → list Z; blockMsg_Unmarshal : list Z → option BlockMsg }.

Section store.
Context `{PubKeyOps, SignCodec, !BatchOps, !HeaderCodec, Merkle.HashOps, !KeyCodec, !BlockCodec, !BlockBytes}.
Variable bls : bool.

(** [MakePartSet] of a block. *)
Definition MakePartSet (b : Block) (partSize : Z) : outcome (result string PartSet) :=
  match block_ToProto b with
  | Err e => Done (Err e)
  | Ok m => ps ← PartSet.PartSet.NewPartSetFromData (blockMsg_Marshal m) partSize; Done (Ok ps)
  end.

(** [PartFromProto] and [BlockMetaFromTrustedProto]. *)
Definition PartFromProto (p : Part) : decoded Part :=
  match Merkle.ValidateBasic (PartSet.PartSet.pProof p) with
  | Some e => fails e
  | None => match PartSet.PartSet.part_ValidateBasic p with Some _ => fails "invalid part" | None => value p end
  end.
Definition BlockMetaFromTrustedProto (m : BlockMeta) : decoded BlockMeta :=
  bi ←? BlockIDFromProto (bmBlockID m); h ←? HeaderFromProto (bmMetaHeader m); value (mkBlockMeta bi (bmBlockSize m) h (bmNumTxs m)).

(** ** Loading *)

Definition LoadBlockMeta (s : Store) (height : Z) : outcome (option BlockMeta) :=
  match dbMetas (bsDb s) !! height with
  | None => Done None
  | Some m => m ← must "BlockMetadata" (BlockMetaFromTrustedProto m); Done (Some m)
  end.

Definition LoadBaseMeta (s : Store) : outcome (option BlockMeta) := if bsBase s =? 0 then Done None else LoadBlockMeta s (bsBase s).

Definition LoadBlockPart (s : Store) (height index : Z) : outcome (option Part * Store) :=
  match blockPartCache s !! (height, index) with
  | Some p => Done (Some p, s)
  | None =>
      match dbParts (bsDb s) !! (height, index) with
      | None => Done (None, s)
      | Some p =>
          p ← must "Error reading block part" (PartFromProto p);
          Done (Some p, set_caches s (seenCommitCache s) (blockCommitCache s) (blockExtendedCommitCache s) (<[(height, index) := p]> (blockPartCache s)))
      end
  end.

(** The loop that reads [n] parts from index [i] on. *)
Fixpoint load_parts (n : nat) (i : Z) (s : Store) (height : Z) (buf : list Z) : outcome (option (list Z) * Store) :=
  match n with
  | O => Done (Some buf, s)
  | S n =>
      '(p, s) ← LoadBlockPart s height i;
      match p with
      | None => Done (None, s)
      | Some p => load_parts n (i + 1) s height (buf ++ PartSet.PartSet.pBytes p)
      end
  end.

Definition decode_block (buf : list Z) : outcome Block :=
  match blockMsg_Unmarshal buf with
  | None => Panic "Error reading block"
  | Some m => must "Block" (BlockFromProto bls (Some m))
  end.

Definition LoadBlock (s : Store) (height : Z) : outcome (option (Block * BlockMeta) * Store) :=
  m ← LoadBlockMeta s height;
  match m with
  | None => Done (None, s)
  | Some m =>
      '(buf, s) ← load_parts (Z.to_nat (psh_Total (PSH (bmBlockID m)))) 0 s height [];
      match buf with
      | None => Done (None, s)
      | Some buf => b ← decode_block buf; Done (Some (b, m), s)
      end
  end.

Definition LoadBlockByHash (s : Store) (hash : list Z) : outcome (option (Block * BlockMeta) * Store) :=
  match dbHashes (bsDb s) !! hash with None => Done (None, s) | Some h => LoadBlock s h end.
Definition LoadBlockMetaByHash (s : Store) (hash : list Z) : outcome (option BlockMeta) :=
  match dbHashes (bsDb s) !! hash with None => Done None | Some h => LoadBlockMeta s h end.

Definition LoadBlockCommit (s : Store) (height : Z) : outcome (option Commit * Store) :=
  match blockCommitCache s !! height with
  | Some c => Done (Some c, s)
  | None =>
      match dbCommits (bsDb s) !! height with
      | Some (Some c) =>
          c ← must "Commit" (CommitFromProto c);
          Done (Some c, set_caches s (seenCommitCache s) (<[height := c]> (blockCommitCache s)) (blockExtendedCommitCache s) (blockPartCache s))
      | _ => Done (None, s)
      end
  end.

Definition LoadBlockExtendedCommit (s : Store) (height : Z) : outcome (option ExtendedCommit * Store) :=
  match blockExtendedCommitCache s !! height with
  | Some c => Done (Some c, s)
  | None =>
      match dbExt (bsDb s) !! height with
      | None => Done (None, s)
      | Some c =>
          c ← must "converting extended commit" (ExtendedCommitFromProto c);
          Done (Some c, set_caches s (seenCommitCache s) (blockCommitCache s) (<[height := c]> (blockExtendedCommitCache s)) (blockPartCache s))
      end
  end.

Definition LoadSeenCommit (s : Store) (height : Z) : outcome (option Commit * Store) :=
  match seenCommitCache s !! height with
  | Some c => Done (Some c, s)
  | None =>
      match dbSeen (bsDb s) !! height with
      | None => Done (None, s)
      | Some c =>
          c ← must "converting seen commit" (CommitFromProto c);
          Done (Some c, set_caches s (<[height := c]> (seenCommitCache s)) (blockCommitCache s) (blockExtendedCommitCache s) (blockPartCache s))
      end
  end.

(** ** Saving *)

(** The loop over the parts: each goes to the batch or to the database, and to the cache. *)
Fixpoint save_parts (n : nat) (i : Z) (s : Store) (height : Z) (ps : PartSet) (toBatch : bool) (batch : list write) : outcome (Store * list write) :=
  match n with
  | O => Done (s, batch)
  | S n =>
      p ← PartSet.PartSet.GetPart ps i;
      match p with
      | None => Panic "nil part"
      | Some p =>
          let s := if toBatch then s else set_bsdb s (put (bsDb s) (SetPart height i p)) in
          let batch := if toBatch then batch ++ [SetPart height i p] else batch in
          save_parts n (i + 1) (set_caches s (seenCommitCache s) (blockCommitCache s) (blockExtendedCommitCache s) (<[(height, i) := p]> (blockPartCache s)))
            height ps toBatch batch
      end
  end.

Definition saveBlockToBatch (s : Store) (b : Block) (ps : PartSet) (seenCommit : Commit) : outcome (result string (Store * list write)) :=
  let height := hHeight (bHeader b) in
  hash ← block_Hash (Some b);
  if (0 <? bsBase s) && negb (height =? wrap64 (bsHeight s + 1)) then Done (Err "BlockStore can only save contiguous blocks"%string)
  else if negb (PartSet.PartSet.IsComplete ps) then Done (Err "BlockStore can only save complete block part sets"%string)
  else if negb (height =? cHeight seenCommit) then Done (Err "BlockStore cannot save seen commit of a different height"%string)
  else
    let toBatch := PartSet.PartSet.Count (Some ps) <=? maxBlockPartsToBatch in
    '(s, batch) ← save_parts (Z.to_nat (PartSet.PartSet.Total (Some ps))) 0 s height ps toBatch [];
    m ← NewBlockMeta b (PartSet.PartSet.Header (Some ps));
    Done (Ok (s, batch ++ [SetMeta height m; SetHash hash height; SetCommit (wrap64 (height - 1)) (bLastCommit b); SetSeen height seenCommit])).

Definition saveStateAndWriteDB (s : Store) (batch : list write) : Store :=
  set_bsdb s (write_batch (bsDb s) (batch ++ [SetBlockStore (bsBase s) (bsHeight s)])).

(** The end of [SaveBlock] and [SaveBlockWithExtendedCommit]. *)
Definition save_batch (s : Store) (batch : list write) (height : Z) : Store :=
  saveStateAndWriteDB (set_range s (if bsBase s =? 0 then height else bsBase s) height) batch.

Definition SaveBlock (s : Store) (b : option Block) (ps : PartSet) (seenCommit : Commit) : outcome Store :=
  match b with
  | None => Panic "BlockStore can only save a non-nil block"
  | Some b =>
      r ← saveBlockToBatch s b ps seenCommit;
      match r with Err e => Panic e | Ok (s, batch) => Done (save_batch s batch (hHeight (bHeader b))) end
  end.

Definition SaveBlockWithExtendedCommit (s : Store) (b : option Block) (ps : PartSet) (ec : ExtendedCommit) : outcome Store :=
  match b with
  | None => Panic "BlockStore can only save a non-nil block"
  | Some b =>
      match EnsureExtensions ec true with
      | Some e => Panic e
      | None =>
          r ← saveBlockToBatch s b ps (ToCommit ec);
          match r with
          | Err e => Panic e
          | Ok (s, batch) => Done (save_batch s (batch ++ [SetExt (hHeight (bHeader b)) ec]) (hHeight (bHeader b)))
          end
      end
  end.

Definition SaveSeenCommit (s : Store) (height : Z) (seenCommit : Commit) : Store := set_bsdb s (put (bsDb s) (SetSeen height seenCommit)).

(** ** Removing *)

Definition del_parts (height total : Z) : list write := DelPart height <$> seqZ 0 total.

(** The state of the loop of [PruneBlocks]; [pPoints] are the stores after each flush within it,
    where a crash can leave the database. *)
Record Pruning := mkPruning { pStore : Store; pBatch : list write; pPruned : Z; pPoint : Z; pPoints : list Store }.

(** The writes for one block that is there. *)
Definition prune_writes (h evidencePoint : Z) (m : BlockMeta) : list write :=
  (if h <? evidencePoint then [DelMeta h] else []) ++ [DelHash (Votes.Hash (bmBlockID m))] ++
  (if h <? evidencePoint then [DelCommit h] else []) ++ [DelSeen h] ++ del_parts h (psh_Total (PSH (bmBlockID m))).

Definition prune_caches (s : Store) (h evidencePoint total : Z) : Store :=
  set_caches s (delete h (seenCommitCache s)) (if h <? evidencePoint then delete h (blockCommitCache s) else blockCommitCache s)
    (blockExtendedCommitCache s) (foldr (λ p c, delete (h, p) c) (blockPartCache s) (seqZ 0 total)).

Definition prune_one (st : State) (height h : Z) (p : Pruning) : outcome Pruning :=
  m ← LoadBlockMeta (pStore p) h;
  match m with
  | None => Done p
  | Some m =>
      let point :=
        if (pPoint p =? height) &&
           negb (IsEvidenceExpired (stLastBlockHeight st) (stLastBlockTime st) h (hTime (bmMetaHeader m)) (pEvidence (stConsensusParams st)))
        then h else pPoint p in
      let batch := pBatch p ++ prune_writes h point m in
      let s := prune_caches (pStore p) h point (psh_Total (PSH (bmBlockID m))) in
      let pruned := wrapu64 (pPruned p + 1) in
      if (pruned mod 1000 =? 0) && (0 <? pruned) then
        let s := saveStateAndWriteDB (set_range s h (bsHeight s)) batch in
        Done (mkPruning s [] pruned point (pPoints p ++ [s]))
      else Done (mkPruning s batch pruned point (pPoints p))
  end.

Fixpoint prune_loop (n : nat) (st : State) (height h : Z) (p : Pruning) : outcome Pruning :=
  match n with
  | O => Done p
  | S n => p ← prune_one st height h p; prune_loop n st height (h + 1) p
  end.

(** The stores at the flushes within the loop, and the store, the number of blocks and the height
    down to which evidence needs data. *)
Definition PruneBlocks (s : Store) (height : Z) (st : State) : outcome (list Store * result string (Store * Z * Z)) :=
  if height <=? 0 then Done ([], Err "height must be greater than 0"%string)
  else if bsHeight s <? height then Done ([], Err "cannot prune beyond the latest height"%string)
  else if height <? bsBase s then Done ([], Err "cannot prune to height, it is lower than base height"%string)
  else
    p ← prune_loop (Z.to_nat (height - bsBase s)) st height (bsBase s) (mkPruning s [] 0 height []);
    let s := saveStateAndWriteDB (set_range (pStore p) height (bsHeight (pStore p))) (pBatch p) in
    let deleted := wrap64 (blocksDeleted s + wrap64 (pPruned p)) in
    Done (pPoints p, Ok (set_deleted s (if compact s && (compactionInterval s <=? deleted) then 0 else deleted), pPruned p, pPoint p)).

Definition DeleteLatestBlock (s : Store) : outcome Store :=
  let target := bsHeight s in
  m ← LoadBlockMeta s target;
  let batch :=
    match m with Some m => DelHash (Votes.Hash (bmBlockID m)) :: del_parts target (psh_Total (PSH (bmBlockID m))) | None => [] end ++
    [DelCommit target; DelSeen target; DelMeta target] in
  Done (saveStateAndWriteDB (set_range s (bsBase s) (wrap64 (target - 1))) batch).

End store.

(** ** The keys tell everything apart *)

Fixpoint no_colon (s : string) : Prop := match s with EmptyString => True | String c s => c ≠ ":"%char ∧ no_colon s end.

Lemma no_colon_app s t : no_colon s → no_colon t → no_colon (s +:+ t).
Proof. induction s as [|c s IH]; simpl; [done|]. intros [? ?] ?. split; [done|auto]. Qed.

Lemma pretty_N_char_colon n : pretty_N_char n ≠ ":"%char.
Proof. unfold pretty_N_char. by repeat case_match. Qed.

Lemma pretty_N_go_colon x s : no_colon s → no_colon (pretty_N_go x s).
Proof.
  revert s. induction (N.lt_wf_0 x) as [x _ IH]. intros s Hs. destruct (decide (x = 0)%N) as [->|Hx]; [by rewrite pretty_N_go_0|].
  rewrite pretty_N_go_step by lia. apply IH; [apply N.div_lt; lia|]. split; [apply pretty_N_char_colon|done].
Qed.

Lemma pretty_Z_colon (z : Z) : no_colon (pretty z).
Proof.
  assert (∀ p : positive, no_colon (pretty p)) as Hp.
  { intros p. unfold pretty, pretty_positive, pretty, pretty_N. case_decide; [done|]. by apply pretty_N_go_colon. }
  destruct z; [done|apply Hp|]. change (no_colon ("-" +:+ pretty p)). by apply no_colon_app.
Qed.

Lemma split_at_colon s1 s2 t1 t2 : no_colon s1 → no_colon s2 → s1 +:+ ":" +:+ t1 = s2 +:+ ":" +:+ t2 → s1 = s2 ∧ t1 = t2.
Proof.
  revert s2. induction s1 as [|c s1 IH]; intros [|d s2] H1 H2; simpl.
  - intros E. split; [done|]. by injection E.
  - intros [= E _]. simpl in H2. destruct H2 as [H2 _]. by rewrite E in H2.
  - intros [= E _]. simpl in H1. destruct H1 as [H1 _]. by rewrite E in H1.
  - intros [= -> E]. simpl in *. destruct H1, H2. destruct (IH s2) as [-> ->]; done.
Qed.

Definition is_byte (b : Z) : Prop := 0 ≤ b < 256.

Lemma hex_digit_inj a b : 0 ≤ a < 16 → 0 ≤ b < 16 → hex_digit a = hex_digit b → a = b.
Proof.
  intros Ha Hb E. apply (f_equal Ascii.N_of_ascii) in E. unfold hex_digit in E.
  destruct (Z.ltb_spec a 10), (Z.ltb_spec b 10); rewrite !Ascii.N_ascii_embedding in E; lia.
Qed.

Lemma hex_inj l k : Forall is_byte l → Forall is_byte k → hex l = hex k → l = k.
Proof.
  revert k. induction l as [|a l IH]; intros [|b k] Hl Hk; simpl; [done..|]. intros [= E1 E2 E3].
  apply Forall_cons in Hl as [Ha Hl], Hk as [Hb Hk]. unfold is_byte in *.
  assert (∀ c, 0 ≤ c < 256 → 0 ≤ c / 16 < 16) as Hd by (intros c Hc; split; [apply Z.div_pos|apply Z.div_lt_upper_bound]; lia).
  assert (a / 16 = b / 16) by (apply hex_digit_inj; auto).
  assert (a mod 16 = b mod 16) by (apply hex_digit_inj; [..|done]; apply Z.mod_pos_bound; lia).
  f_equal; [|by apply IH]. rewrite (Z.div_mod a 16), (Z.div_mod b 16) by lia. lia.
Qed.

Definition key_ok (k : bkey) : Prop := match k with KHash x => Forall is_byte x | _ => True end.

Lemma str_app_inj (p s t : string) : p +:+ s = p +:+ t → s = t.
Proof. induction p as [|c p IH]; simpl; [done|]. intros [= E]. auto. Qed.

(** Two different things are never stored under one key of the first layout, nor under the keys of
    the store's own records. *)
Theorem v1_keys_differ k1 k2 : key_ok k1 → key_ok k2 →
  (v1_key k1 = v1_key k2 → k1 = k2) ∧ v1_key k1 ≠ blockStoreKey ∧ v1_key k1 ≠ versionKey.
Proof.
  intros H1 H2. split; [|by destruct k1]. destruct k1, k2; simpl; try done; intros E.
  - apply (str_app_inj "H:") in E. by apply (inj pretty) in E as ->.
  - apply (str_app_inj "P:") in E. apply split_at_colon in E as [E1 E2]; [|apply pretty_Z_colon..].
    apply (inj pretty) in E1 as ->. by apply (inj pretty) in E2 as ->.
  - apply (str_app_inj "C:") in E. by apply (inj pretty) in E as ->.
  - apply (str_app_inj "SC:") in E. by apply (inj pretty) in E as ->.
  - apply (str_app_inj "EC:") in E. by apply (inj pretty) in E as ->.
  - apply (str_app_inj "BH:") in E. by apply hex_inj in E as ->.
Qed.

(** ** What is saved, and how it is found *)

Section lemmas.
Context `{PubKeyOps, SignCodec, !BatchOps, !HeaderCodec, Merkle.HashOps, !KeyCodec, !BlockCodec, !BlockBytes}.
Variable bls : bool.
Local Notation pBytes := PartSet.PartSet.pBytes.

Record entry := mkEntry { eBlock : Block; eParts : list Part; eMeta : BlockMeta; eSeen : Commit }.
Definition eHeight (e : entry) : Z := hHeight (bHeader (eBlock e)).
Definition eHash (e : entry) : list Z := Votes.Hash (bmBlockID (eMeta e)).

(** What is stored of a block can be read back: it is decoded to what was encoded. *)
Record entry_ok (e : entry) : Prop := mk_entry_ok {
  ok_meta : BlockMetaFromTrustedProto (eMeta e) = value (eMeta e);
  ok_total : psh_Total (PSH (bmBlockID (eMeta e))) = zlen (eParts e);
  ok_parts : Forall (λ p, PartFromProto p = value p) (eParts e);
  ok_nonempty : eParts e ≠ [];
  ok_decode : decode_block bls (concat (pBytes <$> eParts e)) = Done (eBlock e);
  ok_seen : CommitFromProto (eSeen e) = value (eSeen e);
  ok_last : match bLastCommit (eBlock e) with Some c => CommitFromProto c = value c | None => True end;
  ok_height : 0 < eHeight e ≤ max_int64 }.

(** A block, its parts and the commit seen for it that make up an entry. *)
Definition saves (b : Block) (ps : PartSet) (sc : Commit) (e : entry) : Prop :=
  entry_ok e ∧ eBlock e = b ∧ eSeen e = sc ∧ PartSet.PartSet.parts ps = Some <$> eParts e ∧
  PartSet.PartSet.total ps = zlen (eParts e) ∧ PartSet.PartSet.count ps = zlen (eParts e) ∧
  NewBlockMeta b (PartSet.PartSet.Header (Some ps)) = Done (eMeta e) ∧ cHeight sc = hHeight (bHeader b).

(** What the database holds of a block, apart from its last commit. *)
Record stored (d : DB) (h : Z) (e : entry) : Prop := mk_stored {
  st_meta : dbMetas d !! h = Some (eMeta e);
  st_parts : ∀ (i : nat) p, eParts e !! i = Some p → dbParts d !! (h, Z.of_nat i) = Some p;
  st_hash : dbHashes d !! eHash e = Some h;
  st_seen : dbSeen d !! h = Some (eSeen e) }.

(** The caches hold nothing but what is read from the database. *)
Record cached (s : Store) (d : DB) : Prop := mk_cached {
  ca_parts : ∀ k p, blockPartCache s !! k = Some p → dbParts d !! k = Some p;
  ca_seen : ∀ h c, seenCommitCache s !! h = Some c → ∃ c0, dbSeen d !! h = Some c0 ∧ CommitFromProto c0 = value c;
  ca_commits : ∀ h c, blockCommitCache s !! h = Some c → ∃ c0, dbCommits d !! h = Some (Some c0) ∧ CommitFromProto c0 = value c;
  ca_ext : ∀ h c, blockExtendedCommitCache s !! h = Some c → is_Some (dbExt d !! h) }.

(** The blocks from [lo] on are stored, each with the last commit of the next one; nothing is stored
    above [hi]. *)
Record holds (d : DB) (B : gmap Z entry) (lo hi : Z) : Prop := mk_holds {
  ho_stored : ∀ h e, B !! h = Some e → lo ≤ h → stored d h e;
  ho_commit : ∀ h e, B !! h = Some e → lo < h → dbCommits d !! (h - 1) = Some (bLastCommit (eBlock e));
  ho_above : ∀ h, hi < h → dbMetas d !! h = None ∧ dbSeen d !! h = None ∧ dbExt d !! h = None;
  ho_above_commit : ∀ h, hi ≤ h → dbCommits d !! h = None }.

(** [B]: the blocks the store promises to have. *)
Record inv (s : Store) (B : gmap Z entry) : Prop := mk_inv {
  in_range : (bsBase s = 0 ∧ bsHeight s = 0) ∨ (0 < bsBase s ≤ bsHeight s ∧ bsHeight s ≤ max_int64);
  in_dom : ∀ h, is_Some (B !! h) ↔ bsBase s ≤ h ≤ bsHeight s ∧ 0 < bsBase s;
  in_ok : ∀ h e, B !! h = Some e → entry_ok e ∧ eHeight e = h;
  in_hash : ∀ h h' e e', B !! h = Some e → B !! h' = Some e' → eHash e = eHash e' → h = h';
  in_holds : holds (bsDb s) B (bsBase s) (bsHeight s);
  in_state : LoadBlockStoreState (bsDb s) = (bsBase s, bsHeight s);
  in_cached : cached s (bsDb s) }.

(** *** Loading *)

Lemma must_value {A} why (a : A) : must why (value a) = Done a.
Proof. done. Qed.

(** Loading changes nothing but the caches, which stay consistent. *)
Definition same_store (s s' : Store) : Prop :=
  bsDb s' = bsDb s ∧ bsBase s' = bsBase s ∧ bsHeight s' = bsHeight s ∧ blocksDeleted s' = blocksDeleted s ∧ compact s' = compact s ∧ compactionInterval s' = compactionInterval s.
Lemma same_store_refl s : same_store s s. Proof. done. Qed.
Lemma same_store_trans s1 s2 s3 : same_store s1 s2 → same_store s2 s3 → same_store s1 s3.
Proof. unfold same_store. intuition congruence. Qed.

Lemma LoadBlockPart_spec s h i p : cached s (bsDb s) → dbParts (bsDb s) !! (h, i) = Some p → PartFromProto p = value p →
  ∃ s', LoadBlockPart s h i = Done (Some p, s') ∧ same_store s s' ∧ cached s' (bsDb s').
Proof.
  intros C Hp Hok. unfold LoadBlockPart. destruct (blockPartCache s !! (h, i)) as [q|] eqn:E.
  - apply (ca_parts _ _ C) in E. assert (q = p) as -> by congruence. by exists s.
  - rewrite Hp, Hok, must_value. simpl. eexists. split; [done|]. split; [done|]. destruct C as [C1 C2 C3 C4]. split; simpl; try done.
    intros k q. destruct (decide (k = (h, i))) as [->|]; [rewrite lookup_insert_eq; naive_solver|rewrite lookup_insert_ne by done; apply C1].
Qed.

Lemma load_parts_spec h (ps : list Part) : ∀ i s buf, cached s (bsDb s) → Forall (λ p, PartFromProto p = value p) ps →
  (∀ (j : nat) p, ps !! j = Some p → dbParts (bsDb s) !! (h, i + Z.of_nat j) = Some p) →
  ∃ s', load_parts (length ps) i s h buf = Done (Some (buf ++ concat (pBytes <$> ps)), s') ∧ same_store s s' ∧ cached s' (bsDb s').
Proof.
  induction ps as [|p ps IH]; intros i s buf C Hok Hps; simpl.
  { exists s. rewrite app_nil_r. done. }
  apply Forall_cons in Hok as [Hp Hok]. pose proof (Hps 0%nat p eq_refl) as Hp0. rewrite Z.add_0_r in Hp0.
  destruct (LoadBlockPart_spec s h i p C Hp0 Hp) as (s1 & -> & S1 & C1). simpl.
  destruct (IH (i + 1) s1 (buf ++ pBytes p) C1 Hok) as (s2 & -> & S2 & C2).
  { intros j q Hq. rewrite (proj1 S1). specialize (Hps (S j) q Hq). by replace (i + 1 + Z.of_nat j) with (i + Z.of_nat (S j)) by lia. }
  exists s2. rewrite <- (assoc (++)). split; [done|]. split; [by apply (same_store_trans _ s1)|done].
Qed.

Lemma LoadBlockMeta_spec s h e : stored (bsDb s) h e → entry_ok e → LoadBlockMeta s h = Done (Some (eMeta e)).
Proof. intros S O. unfold LoadBlockMeta. rewrite (st_meta _ _ _ S), (ok_meta _ O). done. Qed.

Lemma LoadBlock_spec s h e : cached s (bsDb s) → stored (bsDb s) h e → entry_ok e →
  ∃ s', LoadBlock bls s h = Done (Some (eBlock e, eMeta e), s') ∧ same_store s s' ∧ cached s' (bsDb s').
Proof.
  intros C S O. unfold LoadBlock. rewrite (LoadBlockMeta_spec _ _ _ S O). cbn [mbind outcome_bind]. rewrite (ok_total _ O). unfold zlen. rewrite Nat2Z.id.
  destruct (load_parts_spec h (eParts e) 0 s [] C (ok_parts _ O)) as (s' & -> & S' & C').
  { intros j p Hp. by apply (st_parts _ _ _ S). }
  simpl. rewrite (ok_decode _ O). simpl. by exists s'.
Qed.

Lemma LoadSeenCommit_spec s h e : cached s (bsDb s) → stored (bsDb s) h e → entry_ok e →
  ∃ s', LoadSeenCommit s h = Done (Some (eSeen e), s') ∧ same_store s s' ∧ cached s' (bsDb s').
Proof.
  intros C S O. unfold LoadSeenCommit. destruct (seenCommitCache s !! h) as [c|] eqn:E.
  - apply (ca_seen _ _ C) in E as (c0 & Ec & Hc). rewrite (st_seen _ _ _ S) in Ec. injection Ec as <-. rewrite (ok_seen _ O) in Hc. injection Hc as <-. by exists s.
  - rewrite (st_seen _ _ _ S), (ok_seen _ O), must_value. simpl. eexists. split; [done|]. split; [done|]. destruct C as [C1 C2 C3 C4]. split; simpl; try done.
    intros k q. destruct (decide (k = h)) as [->|]; [|rewrite lookup_insert_ne by done; apply C2].
    rewrite lookup_insert_eq. intros [= <-]. exists (eSeen e). split; [apply (st_seen _ _ _ S)|apply (ok_seen _ O)].
Qed.

Lemma LoadBlockCommit_spec s h c : cached s (bsDb s) → dbCommits (bsDb s) !! h = Some c → match c with Some c => CommitFromProto c = value c | None => True end →
  ∃ s', LoadBlockCommit s h = Done (c, s') ∧ same_store s s' ∧ cached s' (bsDb s').
Proof.
  intros C Hc Hok. unfold LoadBlockCommit. destruct (blockCommitCache s !! h) as [q|] eqn:E.
  - apply (ca_commits _ _ C) in E as (c0 & Ec & Hq). rewrite Hc in Ec. injection Ec as ->. rewrite Hok in Hq. injection Hq as <-. by exists s.
  - rewrite Hc. destruct c as [c|]; [|by exists s]. rewrite Hok, must_value. simpl. eexists. split; [done|]. split; [done|]. destruct C as [C1 C2 C3 C4]. split; simpl; try done.
    intros k q. destruct (decide (k = h)) as [->|]; [|rewrite lookup_insert_ne by done; apply C3].
    rewrite lookup_insert_eq. intros [= <-]. by exists c.
Qed.

Lemma inv_same s s' B : inv s B → same_store s s' → cached s' (bsDb s') → inv s' B.
Proof. intros [I1 I2 I3 I4 I5 I6 I7] (E1 & E2 & E3 & _) C. rewrite E1 in C. split; rewrite ?E1, ?E2, ?E3; done. Qed.

(** *** Saving *)

Fixpoint part_writes (h i : Z) (ps : list Part) : list write := match ps with [] => [] | p :: ps => SetPart h i p :: part_writes h (i + 1) ps end.
Fixpoint insert_parts (h i : Z) (ps : list Part) (m : gmap (Z * Z) Part) : gmap (Z * Z) Part :=
  match ps with [] => m | p :: ps => insert_parts h (i + 1) ps (<[(h, i) := p]> m) end.

Lemma insert_parts_lookup h ps : ∀ i m k, 
  insert_parts h i ps m !! k = (if decide (k.1 = h ∧ i ≤ k.2 < i + zlen ps) then ps !! Z.to_nat (k.2 - i) else m !! k).
Proof.
  induction ps as [|p ps IH]; intros i m [h' j]; simpl.
  { rewrite decide_False; [done|]. unfold zlen. simpl. lia. }
  rewrite IH. simpl. assert (zlen (p :: ps) = zlen ps + 1) as -> by (unfold zlen; simpl; lia). pose proof (zlen_nonneg ps).
  destruct (decide (h' = h ∧ i + 1 ≤ j < i + 1 + zlen ps)) as [[-> Hj]|Hn].
  - rewrite decide_True by lia. replace (Z.to_nat (j - i)) with (S (Z.to_nat (j - (i + 1)))) by lia. done.
  - destruct (decide (h' = h ∧ i ≤ j < i + (zlen ps + 1))) as [[-> Hj]|Hn'].
    + assert (j = i) as -> by lia. by rewrite lookup_insert_eq, Z.sub_diag.
    + rewrite lookup_insert_ne; [done|]. intros [= -> ->]. lia.
Qed.

Lemma store_batch_app d a b : write_batch d (a ++ b) = write_batch (write_batch d a) b.
Proof. apply foldl_app. Qed.

Lemma write_parts h ps : ∀ i d, write_batch d (part_writes h i ps) =
  mkDB (dbMetas d) (insert_parts h i ps (dbParts d)) (dbCommits d) (dbSeen d) (dbExt d) (dbHashes d) (dbBlockStore d).
Proof. induction ps as [|p ps IH]; intros i d; simpl; [by destruct d|]. unfold write_batch in *. rewrite IH. by destruct d. Qed.

Lemma save_parts_spec h full toBatch qs : PartSet.PartSet.parts full = Some <$> qs → ∀ rest i s batch, drop i qs = rest →
  save_parts (length rest) (Z.of_nat i) s h full toBatch batch =
  Done (set_caches (if toBatch then s else set_bsdb s (write_batch (bsDb s) (part_writes h (Z.of_nat i) rest)))
          (seenCommitCache s) (blockCommitCache s) (blockExtendedCommitCache s) (insert_parts h (Z.of_nat i) rest (blockPartCache s)),
        if toBatch then batch ++ part_writes h (Z.of_nat i) rest else batch).
Proof.
  intros Hps rest. induction rest as [|p rest IH]; intros i s batch Hd; simpl.
  { rewrite app_nil_r. by destruct toBatch, s. }
  assert (qs !! i = Some p) as Hp by (rewrite <- (Nat.add_0_r i), <- lookup_drop, Hd; done).
  assert (PartSet.PartSet.GetPart full (Z.of_nat i) = Done (Some p)) as ->.
  { unfold PartSet.PartSet.GetPart. apply idx_nat. rewrite Hps, list_lookup_fmap, Hp. done. }
  simpl. replace (Z.of_nat i + 1) with (Z.of_nat (S i)) by lia. rewrite IH.
  2: { rewrite (drop_S _ _ _ Hp) in Hd. by injection Hd. }
  destruct toBatch; simpl; [by rewrite <- (assoc (++))|done].
Qed.

(** The database after a save. *)
Definition saved_db (d : DB) (e : entry) (base : Z) (ext : option ExtendedCommit) : DB :=
  let h := eHeight e in
  mkDB (<[h := eMeta e]> (dbMetas d)) (insert_parts h 0 (eParts e) (dbParts d)) (<[h - 1 := bLastCommit (eBlock e)]> (dbCommits d))
    (<[h := eSeen e]> (dbSeen d)) (match ext with Some ec => <[h := ec]> (dbExt d) | None => dbExt d end) (<[eHash e := h]> (dbHashes d)) (Some (base, h)).
Definition saved_store (s : Store) (e : entry) (ext : option ExtendedCommit) : Store :=
  let base := if bsBase s =? 0 then eHeight e else bsBase s in
  mkStore (saved_db (bsDb s) e base ext) base (eHeight e) (blocksDeleted s) (compact s) (compactionInterval s)
    (seenCommitCache s) (blockCommitCache s) (blockExtendedCommitCache s) (insert_parts (eHeight e) 0 (eParts e) (blockPartCache s)).

Definition extends (s : Store) (e : entry) : Prop := bsBase s = 0 ∨ eHeight e = wrap64 (bsHeight s + 1).

Definition ext_writes (h : Z) (ext : option ExtendedCommit) : list write := match ext with Some ec => [SetExt h ec] | None => [] end.

Lemma save_spec s b ps sc e : saves b ps sc e → extends s e → ∃ s1 batch, saveBlockToBatch s b ps sc = Done (Ok (s1, batch)) ∧
  ∀ ext, save_batch s1 (batch ++ ext_writes (eHeight e) ext) (eHeight e) = saved_store s e ext.
Proof.
  intros (O & <- & <- & Hps & Ht & Hc & Hm & Hh) Hx. unfold saveBlockToBatch. fold (eHeight e) in *.
  assert (∃ x, block_Hash (Some (eBlock e)) = Done x ∧ eHash e = x) as (x & -> & <-).
  { unfold NewBlockMeta in Hm. apply outcome_bind_Done in Hm as (x & E & [= Em]). exists x. split; [done|]. unfold eHash. by rewrite <- Em. }
  cbn [mbind outcome_bind]. replace ((0 <? bsBase s) && negb (eHeight e =? wrap64 (bsHeight s + 1))) with false.
  2: { symmetry. apply andb_false_iff. destruct Hx as [->| ->]; [by left|right]. by rewrite Z.eqb_refl. }
  unfold PartSet.PartSet.IsComplete. rewrite Ht, Hc, Z.eqb_refl, Hh, Z.eqb_refl. cbn [negb].
  unfold PartSet.PartSet.Total, PartSet.PartSet.Count. rewrite Ht, Hc. unfold zlen at 1. rewrite Nat2Z.id.
  pose proof (save_parts_spec (eHeight e) ps (zlen (eParts e) <=? maxBlockPartsToBatch) (eParts e) Hps (eParts e) 0 s [] eq_refl) as E. change (Z.of_nat 0) with 0 in E.
  rewrite E. cbn [mbind outcome_bind]. rewrite Hm. cbn [mbind outcome_bind]. eexists _, _. split; [done|]. intros ext.
  pose proof (ok_height _ O). rewrite wrap64_id by (unfold_ints; lia).
  unfold save_batch, saveStateAndWriteDB, saved_store, saved_db. unfold set_range, set_bsdb, set_caches. simpl.
  destruct (zlen (eParts e) <=? maxBlockPartsToBatch); simpl; f_equal.
  - rewrite <- !(assoc (++)), store_batch_app, write_parts. by destruct ext.
  - rewrite write_parts. by destruct ext.
Qed.

Lemma extends_height s B e : inv s B → entry_ok e → extends s e → bsHeight s < eHeight e ∧ (0 < bsBase s → eHeight e = bsHeight s + 1).
Proof.
  intros I O Hx. pose proof (ok_height _ O). destruct (in_range _ _ I) as [[Hb Hh]|[Hb Hh]]; [lia|].
  destruct Hx as [?|Hx]; [lia|]. destruct (decide (bsHeight s = max_int64)) as [E|].
  - rewrite E in Hx. assert (wrap64 (max_int64 + 1) = min_int64) as E' by done. rewrite E' in Hx. unfold_ints. lia.
  - rewrite wrap64_id in Hx by (unfold_ints; lia). lia.
Qed.

Lemma saved_stored d e base ext : stored (saved_db d e base ext) (eHeight e) e.
Proof.
  split; simpl; [by rewrite lookup_insert_eq| |by rewrite lookup_insert_eq|by rewrite lookup_insert_eq].
  intros i p Hp. pose proof (lookup_lt_Some _ _ _ Hp). rewrite insert_parts_lookup. simpl. rewrite decide_True by (unfold zlen; lia).
  by rewrite Z.sub_0_r, Nat2Z.id.
Qed.

Lemma saved_stored_other d e base ext h e' : stored d h e' → h ≠ eHeight e → eHash e' ≠ eHash e → stored (saved_db d e base ext) h e'.
Proof.
  intros [S1 S2 S3 S4] Hh Hx. split; simpl; [by rewrite lookup_insert_ne| |by rewrite lookup_insert_ne|by rewrite lookup_insert_ne].
  intros i p Hp. rewrite insert_parts_lookup, decide_False; [by apply S2|]. simpl. tauto.
Qed.

Lemma saved_holds s B e ext : inv s B → entry_ok e → extends s e → (∀ h e', B !! h = Some e' → eHash e' ≠ eHash e) →
  holds (bsDb (saved_store s e ext)) (<[eHeight e := e]> B) (bsBase (saved_store s e ext)) (eHeight e).
Proof.
  intros I O Hx Hfresh. destruct (extends_height _ _ _ I O Hx) as [Hgt Hnext].
  assert (∀ h e', B !! h = Some e' → bsBase s ≤ h ≤ bsHeight s ∧ 0 < bsBase s) as Hdom by (intros h e' Hh; apply (in_dom _ _ I); eauto).
  split; simpl.
  - intros h e'. destruct (decide (eHeight e = h)) as [<-|Hn].
    + rewrite lookup_insert_eq. intros [= <-] _. apply saved_stored.
    + rewrite lookup_insert_ne by done. intros Hh _. specialize (Hdom _ _ Hh). apply saved_stored_other; [|lia|by apply (Hfresh h)].
      apply (ho_stored _ _ _ _ (in_holds _ _ I)); [done|lia].
  - intros h e'. destruct (decide (eHeight e = h)) as [<-|Hn].
    + rewrite lookup_insert_eq. intros [= <-] _. by rewrite lookup_insert_eq.
    + rewrite lookup_insert_ne by done. intros Hh Hlt. specialize (Hdom _ _ Hh). rewrite (proj2 (Z.eqb_neq _ _)) in Hlt by lia.
      rewrite lookup_insert_ne by lia. by apply (ho_commit _ _ _ _ (in_holds _ _ I)).
  - intros h Hh. destruct (ho_above _ _ _ _ (in_holds _ _ I) h ltac:(lia)) as (? & ? & ?). rewrite !lookup_insert_ne by lia. split; [done|]. split; [done|].
    destruct ext; [by rewrite lookup_insert_ne by lia|done].
  - intros h Hh. rewrite lookup_insert_ne by lia. apply (ho_above_commit _ _ _ _ (in_holds _ _ I)). lia.
Qed.

Lemma saved_cached s B e ext : inv s B → entry_ok e → extends s e → cached (saved_store s e ext) (bsDb (saved_store s e ext)).
Proof.
  intros I O Hx. destruct (extends_height _ _ _ I O Hx) as [Hgt _]. pose proof (in_holds _ _ I) as Ho. destruct (in_cached _ _ I) as [C1 C2 C3 C4]. split; simpl.
  - intros k p. rewrite !insert_parts_lookup. case_decide; [done|apply C1].
  - intros h c (c0 & Hc & Hd)%C2. destruct (ho_above _ _ _ _ Ho (eHeight e) ltac:(lia)) as (_ & ? & _). exists c0. rewrite lookup_insert_ne; [done|]. intros <-. congruence.
  - intros h c (c0 & Hc & Hd)%C3. pose proof (ho_above_commit _ _ _ _ Ho (eHeight e - 1) ltac:(lia)). exists c0. rewrite lookup_insert_ne; [done|]. intros <-. congruence.
  - intros h c [c0 Hc]%C4. destruct (ho_above _ _ _ _ Ho (eHeight e) ltac:(lia)) as (_ & _ & ?). destruct ext; [|by exists c0].
    rewrite lookup_insert_ne; [by exists c0|]. intros <-. congruence.
Qed.

Lemma saved_inv s B e ext : inv s B → entry_ok e → extends s e → (∀ h e', B !! h = Some e' → eHash e' ≠ eHash e) →
  inv (saved_store s e ext) (<[eHeight e := e]> B).
Proof.
  intros I O Hx Hfresh. destruct (extends_height _ _ _ I O Hx) as [Hgt Hnext]. pose proof (ok_height _ O) as Hpos.
  assert (0 ≤ bsBase s) as Hb0 by (destruct (in_range _ _ I); lia).
  assert (bsBase (saved_store s e ext) = if decide (bsBase s = 0) then eHeight e else bsBase s) as Ebase.
  { simpl. case_decide; [by rewrite (proj2 (Z.eqb_eq _ _))|by rewrite (proj2 (Z.eqb_neq _ _))]. }
  split; [| | | |by apply saved_holds|by cbn; destruct (Z.eqb_spec (bsBase s) 0); rewrite (proj2 (Z.eqb_neq _ 0)), andb_false_r by lia|by apply (saved_cached s B)].
  - right. rewrite Ebase. change (bsHeight (saved_store s e ext)) with (eHeight e). case_decide; [lia|]. destruct (in_range _ _ I); lia.
  - intros h. rewrite Ebase. change (bsHeight (saved_store s e ext)) with (eHeight e). destruct (decide (eHeight e = h)) as [<-|Hn].
    + rewrite lookup_insert_eq. split; [|done]. intros _. destruct (in_range _ _ I); case_decide; lia.
    + rewrite lookup_insert_ne by done. rewrite (in_dom _ _ I). case_decide; [lia|]. specialize (Hnext ltac:(lia)). lia.
  - intros h e'. destruct (decide (eHeight e = h)) as [<-|Hn]; [rewrite lookup_insert_eq; by intros [= <-]|].
    rewrite lookup_insert_ne by done. apply (in_ok _ _ I).
  - intros h h' e1 e2. destruct (decide (eHeight e = h)) as [<-|Hn], (decide (eHeight e = h')) as [<-|Hn']; rewrite ?lookup_insert_eq, ?lookup_insert_ne by done.
    + done.
    + intros [= <-] Hb2 E. by destruct (Hfresh _ _ Hb2).
    + intros Hb1 [= <-] E. by destruct (Hfresh _ _ Hb1).
    + apply (in_hash _ _ I).
Qed.

(** *** Pruning *)

Lemma write_del_parts h l : ∀ d, ∃ m, write_batch d (DelPart h <$> l) = mkDB (dbMetas d) m (dbCommits d) (dbSeen d) (dbExt d) (dbHashes d) (dbBlockStore d) ∧
  ∀ k, m !! k = if decide (k.1 = h ∧ k.2 ∈ l) then None else dbParts d !! k.
Proof.
  induction l as [|i l IH]; intros d.
  { exists (dbParts d). split; [by destruct d|]. intros k. rewrite decide_False; [done|]. intros [_ ?%not_elem_of_nil]. done. }
  destruct (IH (put d (DelPart h i))) as (m & E & Hm). exists m.
  change (write_batch d (DelPart h <$> i :: l)) with (write_batch (put d (DelPart h i)) (DelPart h <$> l)). split; [rewrite E; by destruct d|].
  intros [h' j]. rewrite Hm. simpl. destruct d as [ms ps cs ss es hs st]. simpl.
  destruct (decide (h' = h ∧ j ∈ l)) as [[-> Hj]|Hn]; [rewrite decide_True; [done|]; split; [done|by right]|].
  destruct (decide ((h', j) = (h, i))) as [[= -> ->]|Hk]; [rewrite lookup_delete_eq, decide_True; [done|]; split; [done|left]|].
  rewrite lookup_delete_ne by done. rewrite decide_False; [done|]. intros [-> [->|?]%elem_of_cons]; tauto.
Qed.

Lemma delete_cache_parts (h : Z) (l : list Z) (c : gmap (Z * Z) Part) k :
  foldr (λ p c, delete (h, p) c) c l !! k = if decide (k.1 = h ∧ k.2 ∈ l) then None else c !! k.
Proof.
  induction l as [|i l IH]; simpl; [rewrite decide_False; [done|]; intros [_ ?%not_elem_of_nil]; done|]. destruct k as [h' j]. simpl in *.
  destruct (decide ((h', j) = (h, i))) as [[= -> ->]|Hk]; [rewrite lookup_delete_eq, decide_True; [done|]; split; [done|left]|].
  rewrite lookup_delete_ne, IH by done. destruct (decide (h' = h ∧ j ∈ l)) as [[-> Hj]|Hn].
  - rewrite decide_True; [done|]. split; [done|by right].
  - rewrite decide_False; [done|]. intros [-> [->|?]%elem_of_cons]; tauto.
Qed.

(** What the writes for one block do to the database. *)
Record pruned_db (d d' : DB) (h point : Z) (m : BlockMeta) : Prop := mk_pruned_db {
  pd_metas : dbMetas d' = if h <? point then delete h (dbMetas d) else dbMetas d;
  pd_parts : ∀ k, dbParts d' !! k = if decide (k.1 = h ∧ k.2 ∈ seqZ 0 (psh_Total (PSH (bmBlockID m)))) then None else dbParts d !! k;
  pd_commits : dbCommits d' = if h <? point then delete h (dbCommits d) else dbCommits d;
  pd_seen : dbSeen d' = delete h (dbSeen d);
  pd_ext : dbExt d' = dbExt d;
  pd_hashes : dbHashes d' = delete (Votes.Hash (bmBlockID m)) (dbHashes d);
  pd_state : dbBlockStore d' = dbBlockStore d }.

Lemma prune_writes_spec d h point m : pruned_db d (write_batch d (prune_writes h point m)) h point m.
Proof.
  unfold prune_writes, del_parts. rewrite !store_batch_app.
  match goal with |- pruned_db d (write_batch ?d1 (DelPart h <$> ?l)) _ _ _ => destruct (write_del_parts h l d1) as (m' & -> & Hm); set (d0 := d1) in * end.
  assert (dbMetas d0 = (if h <? point then delete h (dbMetas d) else dbMetas d) ∧ dbParts d0 = dbParts d ∧
    dbCommits d0 = (if h <? point then delete h (dbCommits d) else dbCommits d) ∧ dbSeen d0 = delete h (dbSeen d) ∧ dbExt d0 = dbExt d ∧
    dbHashes d0 = delete (Votes.Hash (bmBlockID m)) (dbHashes d) ∧ dbBlockStore d0 = dbBlockStore d) as (E1 & E2 & E3 & E4 & E5 & E6 & E7).
  { unfold d0. destruct d. destruct (h <? point); done. }
  clearbody d0. split; simpl; try done. intros k. by rewrite Hm, E2.
Qed.

Definition vdb (p : Pruning) : DB := write_batch (bsDb (pStore p)) (pBatch p).

Definition expired (st : State) (e : entry) : bool :=
  IsEvidenceExpired (stLastBlockHeight st) (stLastBlockTime st) (eHeight e) (hTime (bmMetaHeader (eMeta e))) (pEvidence (stConsensusParams st)).

(** What evidence from height [h] needs: the header, and the commit for it that the next block
    brought. *)
Definition evidence_data (d : DB) (B : gmap Z entry) (h : Z) (e : entry) : Prop :=
  dbMetas d !! h = Some (eMeta e) ∧ ∀ e', B !! (h + 1) = Some e' → dbCommits d !! h = Some (bLastCommit (eBlock e')).

(** The loop before height [h]: the blocks from [h] on are untouched. *)
Record pruning_ok (st : State) (s0 : Store) (B : gmap Z entry) (height h : Z) (p : Pruning) : Prop := mk_pruning_ok {
  pr_holds : holds (vdb p) B h (bsHeight s0);
  pr_cached : cached (pStore p) (vdb p);
  pr_metas : ∀ h' e, B !! h' = Some e → h ≤ h' → dbMetas (bsDb (pStore p)) !! h' = Some (eMeta e);
  pr_height : bsHeight (pStore p) = bsHeight s0;
  pr_point : pPoint p = height ∨ pPoint p < h;
  pr_unexpired : ∀ h' e, B !! h' = Some e → h' < h → expired st e = false → pPoint p ≤ h';
  pr_evidence : ∀ h' e, B !! h' = Some e → h' < h → pPoint p ≤ h' → evidence_data (vdb p) B h' e;
  pr_below : ∀ h', h' < bsBase s0 → dbMetas (vdb p) !! h' = dbMetas (bsDb s0) !! h';
  pr_ext : dbExt (vdb p) = dbExt (bsDb s0) }.

Lemma holds_state d B lo hi b h : holds d B lo hi → holds (put d (SetBlockStore b h)) B lo hi.
Proof. intros [H1' H2' H3' H4']. destruct d. split; try done. intros k e Hk Hl. destruct (H1' k e Hk Hl). by split. Qed.

Lemma cached_state s s' d b h : cached s d → seenCommitCache s' = seenCommitCache s → blockCommitCache s' = blockCommitCache s →
  blockExtendedCommitCache s' = blockExtendedCommitCache s → blockPartCache s' = blockPartCache s → cached s' (put d (SetBlockStore b h)).
Proof. intros [C1 C2 C3 C4] E1 E2 E3 E4. destruct d. split; simpl; rewrite ?E1, ?E2, ?E3, ?E4; done. Qed.

Lemma pruned_holds d d' B h point e hi : holds d B h hi → B !! h = Some e →
  (∀ h' e', B !! h' = Some e' → eHash e = eHash e' → h = h') → pruned_db d d' h point (eMeta e) → holds d' B (h + 1) hi.
Proof.
  intros [H1' H2' H3' H4'] He Hinj [P1 P2 P3 P4 P5 P6 P7].
  assert (∀ k, k ≠ h → dbMetas d' !! k = dbMetas d !! k) as Em by (intros k Hk; rewrite P1; destruct (_ <? _); [by rewrite lookup_delete_ne|done]).
  assert (∀ k, k ≠ h → dbCommits d' !! k = dbCommits d !! k) as Ec by (intros k Hk; rewrite P3; destruct (_ <? _); [by rewrite lookup_delete_ne|done]).
  split.
  - intros k e' Hk Hl. destruct (H1' k e' Hk ltac:(lia)) as [S1 S2 S3 S4]. split.
    + by rewrite Em by lia.
    + intros i p Hp. rewrite P2, decide_False by (simpl; lia). by apply S2.
    + rewrite P6, lookup_delete_ne; [done|]. intros E. specialize (Hinj _ _ Hk E). lia.
    + by rewrite P4, lookup_delete_ne by lia.
  - intros k e' Hk Hl. rewrite Ec by lia. apply H2'; [done|lia].
  - intros k Hk. destruct (H3' k Hk) as (? & ? & ?). rewrite P1, P4, P5. split; [destruct (_ <? _); [by rewrite lookup_delete_None; right|done]|].
    split; [rewrite lookup_delete_None; by right|done].
  - intros k Hk. rewrite P3. destruct (_ <? _); [rewrite lookup_delete_None; right|]; by apply H4'.
Qed.

Lemma pruned_cached s d d' h point m : cached s d → pruned_db d d' h point m → cached (prune_caches s h point (psh_Total (PSH (bmBlockID m)))) d'.
Proof.
  intros [C1 C2 C3 C4] [P1 P2 P3 P4 P5 P6 P7]. split; simpl.
  - intros k p. rewrite delete_cache_parts, P2. case_decide; [done|apply C1].
  - intros k c [Hk (c0 & Hc & Hd)%C2]%lookup_delete_Some. exists c0. split; [|done]. rewrite P4. by apply lookup_delete_Some.
  - intros k c. rewrite P3. destruct (h <? point); [|apply C3]. intros [Hk (c0 & Hc & Hd)%C3]%lookup_delete_Some. exists c0. split; [|done]. by apply lookup_delete_Some.
  - intros k c. rewrite P5. apply C4.
Qed.

Lemma evidence_data_pruned d d' B h point m k e : evidence_data d B k e → pruned_db d d' h point m → k ≠ h ∨ point ≤ h → evidence_data d' B k e.
Proof.
  intros [E1 E2] [P1 _ P3 _ _ _ _] Hk. split; [rewrite P1|intros e' He'; rewrite P3]; destruct (Z.ltb_spec h point); [|done| |by apply E2].
  - rewrite lookup_delete_ne by lia. done.
  - rewrite lookup_delete_ne by lia. by apply E2.
Qed.

Lemma prune_one_ok st s0 B height h p e : inv s0 B → pruning_ok st s0 B height h p → B !! h = Some e → h < height →
  ∃ p', prune_one st height h p = Done p' ∧ pruning_ok st s0 B height (h + 1) p'.
Proof.
  intros I P He Hlt. destruct (in_ok _ _ I _ _ He) as [O Hh]. destruct P as [P1 P2 P3 P4 P5 P6 P7 P8 P9].
  assert (bsBase s0 ≤ h) as Hbase by (apply (in_dom _ _ I); eauto).
  unfold prune_one, LoadBlockMeta. rewrite (P3 h e He ltac:(lia)), (ok_meta _ O). rewrite must_value. cbn [mbind outcome_bind].
  assert (IsEvidenceExpired (stLastBlockHeight st) (stLastBlockTime st) h (hTime (bmMetaHeader (eMeta e))) (pEvidence (stConsensusParams st)) = expired st e) as ->
    by (unfold expired; by rewrite Hh).
  set (point := if (pPoint p =? height) && negb (expired st e) then h else pPoint p).
  assert ((point = height ∨ point < h + 1) ∧ (expired st e = false → point ≤ h) ∧ (point ≠ pPoint p → point = h ∧ pPoint p = height)) as (Hp1 & Hp3 & Hp4).
  { unfold point. destruct (Z.eqb_spec (pPoint p) height), (expired st e); simpl; lia. }
  set (s1 := prune_caches _ _ _ _). set (batch := pBatch p ++ _).
  pose proof (prune_writes_spec (vdb p) h point (eMeta e)) as D. unfold vdb in D. rewrite <- store_batch_app in D. fold batch in D.
  assert (holds (write_batch (bsDb (pStore p)) batch) B (h + 1) (bsHeight s0)) as G1.
  { apply (pruned_holds (vdb p) _ _ _ point e); [done|done| |done]. intros h' e' He' E. by apply (in_hash _ _ I h h' e e'). }
  assert (cached s1 (write_batch (bsDb (pStore p)) batch)) as G2 by (by apply (pruned_cached _ (vdb p))).
  assert (∀ h' e', B !! h' = Some e' → h' < h + 1 → expired st e' = false → point ≤ h') as G3.
  { intros h' e' He' Hlt' Hex. destruct (decide (h' = h)) as [->|].
    - assert (e' = e) as -> by congruence. auto.
    - specialize (P6 h' e' He' ltac:(lia) Hex). destruct (decide (point = pPoint p)) as [->|Hn]; [done|]. destruct (Hp4 Hn). lia. }
  assert (∀ h' e', B !! h' = Some e' → h' < h + 1 → point ≤ h' → evidence_data (write_batch (bsDb (pStore p)) batch) B h' e') as G4.
  { intros h' e' He' Hlt' Hpt. apply (evidence_data_pruned (vdb p) _ _ h point (eMeta e)); [|done|lia].
    destruct (decide (h' = h)) as [->|].
    - assert (e' = e) as -> by congruence. split; [apply (st_meta _ _ _ (ho_stored _ _ _ _ P1 h e He ltac:(lia)))|].
      intros e2 He2. pose proof (ho_commit _ _ _ _ P1 (h + 1) e2 He2 ltac:(lia)) as Hc. by replace (h + 1 - 1) with h in Hc by lia.
    - apply P7; [done|lia|]. destruct (decide (point = pPoint p)) as [->|Hn]; [done|]. destruct (Hp4 Hn). lia. }
  assert (∀ h', h' < bsBase s0 → dbMetas (write_batch (bsDb (pStore p)) batch) !! h' = dbMetas (bsDb s0) !! h') as G5.
  { intros h' Hl. rewrite (pd_metas _ _ _ _ _ D). destruct (h <? point); [rewrite lookup_delete_ne by lia|]; by apply P8. }
  assert (dbExt (write_batch (bsDb (pStore p)) batch) = dbExt (bsDb s0)) as G6 by (rewrite (pd_ext _ _ _ _ _ D); exact P9).
  destruct ((wrapu64 (pPruned p + 1) mod 1000 =? 0) && (0 <? wrapu64 (pPruned p + 1))).
  - eexists. split; [done|]. set (s2 := saveStateAndWriteDB _ _).
    assert (vdb (mkPruning s2 [] (wrapu64 (pPruned p + 1)) point (pPoints p ++ [s2])) = put (write_batch (bsDb (pStore p)) batch) (SetBlockStore h (bsHeight s1))) as Ev.
    { unfold vdb, s2, saveStateAndWriteDB. simpl. by rewrite store_batch_app. }
    split; rewrite ?Ev; simpl; [by apply holds_state|by apply (cached_state s1)| |done|done|done| |by destruct (write_batch (bsDb (pStore p)) batch)|by destruct (write_batch (bsDb (pStore p)) batch)].
    + intros h' e' He' Hl. rewrite store_batch_app. simpl. pose proof (st_meta _ _ _ (ho_stored _ _ _ _ G1 h' e' He' Hl)) as Hm.
      by destruct (write_batch (bsDb (pStore p)) batch).
    + intros h' e' He' Hl Hpt. destruct (G4 h' e' He' Hl Hpt) as [E1 E2]. destruct (write_batch (bsDb (pStore p)) batch). by split.
  - eexists. split; [done|]. split; simpl; try done. intros h' e' He' Hl. apply P3; [done|lia].
Qed.

Lemma prune_loop_ok st s0 B height n : ∀ h p, inv s0 B → pruning_ok st s0 B height h p → bsBase s0 ≤ h → h + Z.of_nat n = height → height ≤ bsHeight s0 → 0 < bsBase s0 →
  ∃ p', prune_loop n st height h p = Done p' ∧ pruning_ok st s0 B height height p'.
Proof.
  induction n as [|n IH]; intros h p I P Hb Hn Hh Hpos; simpl.
  { assert (h = height) as <- by lia. eauto. }
  destruct (proj2 (in_dom _ _ I h)) as [e He]; [lia|]. destruct (prune_one_ok st s0 B height h p e I P He) as (p1 & -> & P1); [lia|]. simpl.
  apply (IH (h + 1)); [done|done|lia|lia|done|done].
Qed.

Definition from (h : Z) (B : gmap Z entry) : gmap Z entry := filter (λ x, h ≤ x.1) B.

Lemma lookup_from h B k : from h B !! k = if decide (h ≤ k) then B !! k else None.
Proof.
  unfold from. case_decide as Hk.
  - destruct (B !! k) as [e|] eqn:E; [by apply map_lookup_filter_Some_2|by apply map_lookup_filter_None_2; left].
  - apply map_lookup_filter_None_2. right. intros e _. simpl. done.
Qed.

Lemma pruned_inv s0 B height d s' : inv s0 B → holds d B height (bsHeight s0) → bsBase s0 ≤ height ≤ bsHeight s0 → 0 < bsBase s0 →
  bsDb s' = put d (SetBlockStore height (bsHeight s0)) → bsBase s' = height → bsHeight s' = bsHeight s0 → cached s' (bsDb s') → inv s' (from height B).
Proof.
  intros I Hd Hr Hpos Ed Eb Eh C. split; rewrite ?Eb, ?Eh.
  - right. destruct (in_range _ _ I); lia.
  - intros h. rewrite lookup_from. case_decide; [rewrite (in_dom _ _ I); lia|]. split; [intros []; done|lia].
  - intros h e. rewrite lookup_from. case_decide; [apply (in_ok _ _ I)|done].
  - intros h h' e e'. rewrite !lookup_from. repeat case_decide; try done. apply (in_hash _ _ I).
  - rewrite Ed. apply holds_state. destruct Hd as [H1' H2' H3' H4']. split; [| |done|done]; intros h e; rewrite lookup_from; case_decide; (done || auto).
  - rewrite Ed. unfold LoadBlockStoreState. destruct d. simpl. rewrite (proj2 (Z.eqb_neq height 0)), andb_false_r by lia. done.
  - done.
Qed.

Lemma PruneBlocks_spec s B height st : inv s B → 0 < bsBase s ≤ height → height ≤ bsHeight s →
  ∃ points s' pruned point, PruneBlocks s height st = Done (points, Ok (s', pruned, point)) ∧ inv s' (from height B) ∧ bsBase s' = height ∧ bsHeight s' = bsHeight s ∧
    (∀ h e, B !! h = Some e → h < height → (expired st e = false → point ≤ h) ∧ (point ≤ h → evidence_data (bsDb s') B h e)) ∧
    (∀ h, h < bsBase s → dbMetas (bsDb s') !! h = dbMetas (bsDb s) !! h) ∧ dbExt (bsDb s') = dbExt (bsDb s).
Proof.
  intros I Hb Hh. unfold PruneBlocks. rewrite (proj2 (Z.leb_gt height 0)) by lia. rewrite (proj2 (Z.ltb_ge (bsHeight s) height)), (proj2 (Z.ltb_ge height (bsBase s))) by lia.
  destruct (prune_loop_ok st s B height (Z.to_nat (height - bsBase s)) (bsBase s) (mkPruning s [] 0 height [])) as (p & -> & P); [done| |lia|lia|done|lia|].
  { assert (∀ h e, B !! h = Some e → bsBase s ≤ h) as Hlow by (intros h e Hx; apply (in_dom _ _ I); eauto).
    split; simpl; [apply (in_holds _ _ I)|apply (in_cached _ _ I)| |done|by left| | |done|done].
    - intros h e Hx _. apply (st_meta _ _ _ (ho_stored _ _ _ _ (in_holds _ _ I) h e Hx (Hlow _ _ Hx))).
    - intros h e Hx Hlt. specialize (Hlow _ _ Hx). lia.
    - intros h e Hx Hlt. specialize (Hlow _ _ Hx). lia. }
  cbn [mbind outcome_bind]. destruct P as [P1 P2 P3 P4 P5 P6 P7 P8 P9]. eexists _, _, _, _. split; [done|].
  assert (write_batch (bsDb (pStore p)) (pBatch p ++ [SetBlockStore height (bsHeight (pStore p))]) = put (vdb p) (SetBlockStore height (bsHeight s))) as Ed
    by (rewrite store_batch_app, P4; done).
  split; [|split; [done|split; [by simpl|split]]].
  - apply (pruned_inv s B height (vdb p)); [done|done|lia|lia|exact Ed|done|by simpl|]. simpl. rewrite Ed. by apply (cached_state (pStore p)).
  - intros h e Hx Hlt. split; [by apply P6|]. intros Hpt. destruct (P7 h e Hx Hlt Hpt) as [E1 E2]. simpl. rewrite Ed. destruct (vdb p). by split.
  - simpl. rewrite Ed. by destruct (vdb p).
Qed.

(** *** Runs *)

(** Anything a load returns leaves the store as it was, but for the caches. *)
Inductive loads (s : Store) : Store → Prop :=
| load_part h i r s' : LoadBlockPart s h i = Done (r, s') → loads s s'
| load_commit h r s' : LoadBlockCommit s h = Done (r, s') → loads s s'
| load_seen h r s' : LoadSeenCommit s h = Done (r, s') → loads s s'
| load_ext h r s' : LoadBlockExtendedCommit s h = Done (r, s') → loads s s'.

Lemma PartFromProto_eq p q : PartFromProto p = value q → q = p.
Proof. unfold PartFromProto. repeat case_match; by intros [=]. Qed.

Lemma must_Done {X} why (m : decoded X) a : must why m = Done a → m = value a.
Proof. unfold must. intros (r & -> & Hr)%outcome_bind_Done. destruct r; [by injection Hr as ->|done]. Qed.

Lemma loads_ok s s' : loads s s' → cached s (bsDb s) → same_store s s' ∧ cached s' (bsDb s').
Proof.
  intros L C. pose proof C as [C1 C2 C3 C4]. inversion L as [h i r ? E|h r ? E|h r ? E|h r ? E]; subst.
  - unfold LoadBlockPart in E. destruct (blockPartCache s !! _); [by injection E as <- <-|]. destruct (dbParts (bsDb s) !! _) as [p|] eqn:Ep; [|by injection E as <- <-].
    apply outcome_bind_Done in E as (q & Hq%must_Done%PartFromProto_eq & [= <- <-]). subst q. split; [done|]. split; simpl; try done.
    intros k q. destruct (decide (k = (h, i))) as [->|]; [rewrite lookup_insert_eq; naive_solver|rewrite lookup_insert_ne by done; apply C1].
  - unfold LoadBlockCommit in E. destruct (blockCommitCache s !! _); [by injection E as <- <-|]. destruct (dbCommits (bsDb s) !! _) as [[p|]|] eqn:Ep; [|by injection E as <- <-..].
    apply outcome_bind_Done in E as (q & Hq%must_Done & [= <- <-]). split; [done|]. split; simpl; try done.
    intros k c. destruct (decide (k = h)) as [->|]; [rewrite lookup_insert_eq; intros [= <-]; eauto|rewrite lookup_insert_ne by done; apply C3].
  - unfold LoadSeenCommit in E. destruct (seenCommitCache s !! _); [by injection E as <- <-|]. destruct (dbSeen (bsDb s) !! _) as [p|] eqn:Ep; [|by injection E as <- <-].
    apply outcome_bind_Done in E as (q & Hq%must_Done & [= <- <-]). split; [done|]. split; simpl; try done.
    intros k c. destruct (decide (k = h)) as [->|]; [rewrite lookup_insert_eq; intros [= <-]; eauto|rewrite lookup_insert_ne by done; apply C2].
  - unfold LoadBlockExtendedCommit in E. destruct (blockExtendedCommitCache s !! _); [by injection E as <- <-|]. destruct (dbExt (bsDb s) !! _) as [p|] eqn:Ep; [|by injection E as <- <-].
    apply outcome_bind_Done in E as (q & _ & [= <- <-]). split; [done|]. split; simpl; try done.
    intros k c. destruct (decide (k = h)) as [->|]; [by rewrite Ep|rewrite lookup_insert_ne by done; apply C4].
Qed.

Definition evicted (s s' : Store) : Prop :=
  same_store s s' ∧ seenCommitCache s' ⊆ seenCommitCache s ∧ blockCommitCache s' ⊆ blockCommitCache s ∧
  blockExtendedCommitCache s' ⊆ blockExtendedCommitCache s ∧ blockPartCache s' ⊆ blockPartCache s.

Definition new_hash (B : gmap Z entry) (e : entry) : Prop := ∀ h e', B !! h = Some e' → eHash e' ≠ eHash e.

(** The life of a store: blocks are saved in order, old ones pruned, anything is loaded and forgotten
    by the caches, the node restarts, also after some parts of a large block were written but not
    the block.  [B]: the blocks that were saved and not pruned. *)
Inductive store_run : Store → gmap Z entry → Prop :=
| run_new c i : store_run (NewBlockStore empty_db c i) ∅
| run_save s B b ps sc e s' : store_run s B → saves b ps sc e → extends s e → new_hash B e → SaveBlock s (Some b) ps sc = Done s' →
    store_run s' (<[eHeight e := e]> B)
| run_save_ext s B b ps ec e s' : store_run s B → saves b ps (ToCommit ec) e → extends s e → new_hash B e → SaveBlockWithExtendedCommit s (Some b) ps ec = Done s' →
    store_run s' (<[eHeight e := e]> B)
| run_prune s B height st points s' n p : store_run s B → PruneBlocks s height st = Done (points, Ok (s', n, p)) → store_run s' (from height B)
| run_load s B s' : store_run s B → loads s s' → store_run s' B
| run_evict s B s' : store_run s B → evicted s s' → store_run s' B
| run_restart s B c i : store_run s B → store_run (NewBlockStore (bsDb s) c i) B
| run_crash s B e n c i : store_run s B → entry_ok e → extends s e →
    store_run (NewBlockStore (write_batch (bsDb s) (part_writes (eHeight e) 0 (take n (eParts e)))) c i) B.

Lemma SaveBlock_spec s B b ps sc e : inv s B → saves b ps sc e → extends s e → SaveBlock s (Some b) ps sc = Done (saved_store s e None).
Proof.
  intros I Hs Hx. destruct (save_spec s b ps sc e Hs Hx) as (s1 & batch & E & Hsave). unfold SaveBlock. rewrite E. simpl.
  specialize (Hsave None). simpl in Hsave. rewrite app_nil_r in Hsave. destruct Hs as (_ & <- & _). unfold eHeight in Hsave. by rewrite Hsave.
Qed.

Lemma SaveExt_inv s B b ps ec e s' : inv s B → saves b ps (ToCommit ec) e → extends s e → SaveBlockWithExtendedCommit s (Some b) ps ec = Done s' → s' = saved_store s e (Some ec).
Proof.
  intros I Hs Hx. destruct (save_spec s b ps (ToCommit ec) e Hs Hx) as (s1 & batch & E & Hsave). unfold SaveBlockWithExtendedCommit. destruct (EnsureExtensions _ _); [done|]. rewrite E. simpl.
  specialize (Hsave (Some ec)). simpl in Hsave. destruct Hs as (_ & <- & _). unfold eHeight in Hsave. rewrite Hsave. by intros [= <-].
Qed.

Lemma PruneBlocks_inv s B height st points s' n p : inv s B → PruneBlocks s height st = Done (points, Ok (s', n, p)) → inv s' (from height B).
Proof.
  intros I E. assert (0 < height ≤ bsHeight s ∧ bsBase s ≤ height) as [Hh Hb].
  { unfold PruneBlocks in E. destruct (Z.leb_spec height 0); [done|]. destruct (Z.ltb_spec (bsHeight s) height); [done|]. destruct (Z.ltb_spec height (bsBase s)); [done|]. lia. }
  destruct (in_range _ _ I) as [?|?]; [lia|]. destruct (PruneBlocks_spec s B height st I) as (points' & s1 & n' & p' & E' & I' & _); [lia|lia|].
  rewrite E' in E. by injection E as <- <- <- <-.
Qed.

Lemma restart_inv s B d c i : inv s B → holds d B (bsBase s) (bsHeight s) → LoadBlockStoreState d = (bsBase s, bsHeight s) → inv (NewBlockStore d c i) B.
Proof.
  intros [I1 I2 I3 I4 I5 I6 I7] Hd Hst. unfold NewBlockStore. rewrite Hst. by split.
Qed.

Lemma crash_holds s B e n : inv s B → entry_ok e → extends s e →
  let d := write_batch (bsDb s) (part_writes (eHeight e) 0 (take n (eParts e))) in
  holds d B (bsBase s) (bsHeight s) ∧ LoadBlockStoreState d = (bsBase s, bsHeight s).
Proof.
  intros I O Hx. destruct (extends_height _ _ _ I O Hx) as [Hgt _]. simpl. rewrite write_parts. split; [|apply (in_state _ _ I)].
  destruct (in_holds _ _ I) as [H1' H2' H3' H4']. split; simpl; try done. intros h e' Hh Hl. destruct (H1' h e' Hh Hl) as [S1 S2 S3 S4]. split; simpl; try done.
  intros j p Hp. rewrite insert_parts_lookup, decide_False; [by apply S2|]. simpl.
  assert (h ≤ bsHeight s) by (apply (in_dom _ _ I); eauto). lia.
Qed.

Lemma store_run_inv s B : store_run s B → inv s B.
Proof.
  induction 1 as [c i|s B b ps sc e s' _ I Hs Hx Hn E|s B b ps ec e s' _ I Hs Hx Hn E|s B height st points s' n p _ I E|s B s' _ I L|s B s' _ I (S & E1 & E2 & E3 & E4)|s B c i _ I|s B e n c i _ I O Hx].
  - split; simpl; [by left|intros h; rewrite lookup_empty; split; [by intros []|lia]|done|done| |done|].
    + split; simpl; done.
    + split; simpl; intros ? ?; by rewrite lookup_empty.
  - rewrite (SaveBlock_spec _ _ _ _ _ _ I Hs Hx) in E. injection E as <-. apply saved_inv; [done|apply Hs|done|done].
  - apply (SaveExt_inv _ _ _ _ _ _ _ I Hs Hx) in E as ->. apply saved_inv; [done|apply Hs|done|done].
  - by apply (PruneBlocks_inv _ _ _ _ _ _ _ _ I E).
  - destruct (loads_ok _ _ L (in_cached _ _ I)) as [S C]. by apply (inv_same s).
  - apply (inv_same s); [done|done|]. rewrite (proj1 S). destruct (in_cached _ _ I) as [C1 C2 C3 C4].
    split; intros ? ? Hc; [apply C1|apply C2|apply C3|eapply C4]; by eapply lookup_weaken.
  - apply (restart_inv s); [done|apply (in_holds _ _ I)|apply (in_state _ _ I)].
  - destruct (crash_holds _ _ _ n I O Hx) as [Hd Hst]. by apply (restart_inv s).
Qed.

(** The block of an entry is loaded by height and by hash, with the commit that was seen for it. *)
Definition loads_entry (s : Store) (h : Z) (e : entry) : Prop :=
  (∃ s', LoadBlock bls s h = Done (Some (eBlock e, eMeta e), s')) ∧ (∃ s', LoadBlockByHash bls s (eHash e) = Done (Some (eBlock e, eMeta e), s')) ∧
  (∃ s', LoadSeenCommit s h = Done (Some (eSeen e), s')).

Lemma inv_loads s B h e : inv s B → B !! h = Some e → loads_entry s h e.
Proof.
  intros I He. pose proof (in_cached _ _ I) as C. pose proof (proj1 (in_dom _ _ I h) ltac:(by eexists)) as [Hh Hpos].
  destruct (in_ok _ _ I _ _ He) as [O _]. pose proof (ho_stored _ _ _ _ (in_holds _ _ I) h e He ltac:(lia)) as S.
  destruct (LoadBlock_spec s h e C S O) as (s1 & E1 & _). destruct (LoadSeenCommit_spec s h e C S O) as (s2 & E2 & _).
  split; [by exists s1|]. split; [exists s1; unfold LoadBlockByHash; by rewrite (st_hash _ _ _ S)|by exists s2].
Qed.

(** C27: The store has the blocks it promises.  Through saving, pruning, loading, forgetting caches,
    restarts and crashes in the middle of a save, every height from base to height is loaded as
    the very block that was saved there, by height and by hash, with the commit that was seen for
    it and, below the last height, with the commit the next block carries; above there is
    nothing; and the next block can be saved. *)
Theorem store_holds_blocks s B : store_run s B →
  (∀ h, 0 < bsBase s → bsBase s ≤ h ≤ bsHeight s → ∃ e, B !! h = Some e ∧
    (∃ s', LoadBlock bls s h = Done (Some (eBlock e, eMeta e), s')) ∧ (∃ s', LoadBlockByHash bls s (eHash e) = Done (Some (eBlock e, eMeta e), s')) ∧
    (∃ s', LoadSeenCommit s h = Done (Some (eSeen e), s')) ∧
    (h < bsHeight s → ∃ e' s', B !! (h + 1) = Some e' ∧ LoadBlockCommit s h = Done (bLastCommit (eBlock e'), s'))) ∧
  (∀ h, bsHeight s < h → LoadBlock bls s h = Done (None, s)) ∧
  (∀ b ps sc e, saves b ps sc e → extends s e → ∃ s', SaveBlock s (Some b) ps sc = Done s').
Proof.
  intros I%store_run_inv. pose proof (in_cached _ _ I) as C. pose proof (in_holds _ _ I) as Ho. split_and!.
  - intros h Hpos Hh. destruct (proj2 (in_dom _ _ I h)) as [e He]; [done|]. exists e. split; [done|].
    destruct (inv_loads s B h e I He) as (L1 & L2 & L3). split; [done|]. split; [done|]. split; [done|]. intros Hlt.
    destruct (proj2 (in_dom _ _ I (h + 1))) as [e' He']; [lia|]. pose proof (ho_commit _ _ _ _ Ho (h + 1) e' He' ltac:(lia)) as Hc. rewrite Z.add_simpl_r in Hc.
    destruct (LoadBlockCommit_spec s h _ C Hc (ok_last _ (proj1 (in_ok _ _ I _ _ He')))) as (s3 & E3 & _). by exists e', s3.
  - intros h Hh. unfold LoadBlock, LoadBlockMeta. destruct (ho_above _ _ _ _ Ho h Hh) as (-> & _). done.
  - intros b ps sc e Hs Hx. rewrite (SaveBlock_spec _ _ _ _ _ _ I Hs Hx). eauto.
Qed.

(** C28: Pruning keeps what evidence needs.  Pruning up to a height within the store succeeds and
    leaves every block from that height on to be loaded as before, by height and by hash, with its
    seen commit; for every older block whose evidence is not too old
    yet, the header and the commit for it are still there, and the reported height is not above
    it. *)
Theorem pruning_keeps_evidence s B height st : store_run s B → 0 < bsBase s ≤ height → height ≤ bsHeight s →
  ∃ points s' pruned point, PruneBlocks s height st = Done (points, Ok (s', pruned, point)) ∧ bsBase s' = height ∧ bsHeight s' = bsHeight s ∧
    (∀ h e, B !! h = Some e → height ≤ h → loads_entry s' h e) ∧
    ∀ h e, B !! h = Some e → h < height → expired st e = false → point ≤ h ∧
      LoadBlockMeta s' h = Done (Some (eMeta e)) ∧ ∀ e', B !! (h + 1) = Some e' → ∃ s'', LoadBlockCommit s' h = Done (bLastCommit (eBlock e'), s'').
Proof.
  intros I%store_run_inv Hb Hh. destruct (PruneBlocks_spec s B height st I Hb Hh) as (points & s' & n & p & E & I' & Eb & Eh & Hev & _).
  exists points, s', n, p. split; [done|]. split; [done|]. split; [done|]. split.
  { intros h e He Hle. eapply inv_loads; [exact I'|]. by apply map_lookup_filter_Some. }
  intros h e He Hlt Hex. destruct (Hev h e He Hlt) as [Hp Hd]. specialize (Hp Hex). split; [done|].
  destruct (Hd Hp) as [Hm Hc]. destruct (in_ok _ _ I _ _ He) as [O _]. split; [unfold LoadBlockMeta; rewrite Hm, (ok_meta _ O); done|].
  intros e' He'. destruct (LoadBlockCommit_spec s' h _ (in_cached _ _ I') (Hc e' He') (ok_last _ (proj1 (in_ok _ _ I _ _ He')))) as (s'' & E' & _). by exists s''.
Qed.

(** What pruning does not remove: headers kept for evidence at an earlier pruning stay for good, since
    later prunings start at the base, and extended commits are not removed at all. *)
Theorem pruning_leaves_behind s B height st points s' n p : store_run s B → PruneBlocks s height st = Done (points, Ok (s', n, p)) →
  (∀ h, h < bsBase s → dbMetas (bsDb s') !! h = dbMetas (bsDb s) !! h) ∧ dbExt (bsDb s') = dbExt (bsDb s).
Proof.
  intros I%store_run_inv E. assert (0 < height ≤ bsHeight s ∧ bsBase s ≤ height) as [Hh Hb].
  { unfold PruneBlocks in E. destruct (Z.leb_spec height 0); [done|]. destruct (Z.ltb_spec (bsHeight s) height); [done|]. destruct (Z.ltb_spec height (bsBase s)); [done|]. lia. }
  destruct (in_range _ _ I) as [?|?]; [lia|]. destruct (PruneBlocks_spec s B height st I) as (points' & s1 & n' & p' & E' & _ & _ & _ & _ & H1' & H2'); [lia|lia|].
  rewrite E' in E. by injection E as <- <- <- <-.
Qed.

(** A valid block, cut into parts by its proposer, can be saved and read back. *)
Lemma made_block_saves `{!Merkle.HashLaws} b m ps sc x c : block_ToProto b = Ok m → blockMsg_Unmarshal (blockMsg_Marshal m) = Some m → BlockFromProto bls (Some m) = value b →
  0 < zlen (blockMsg_Marshal m) → zlen (blockMsg_Marshal m) + PartSet.PartSet.BlockPartSizeBytes ≤ 4294967296 →
  MakePartSet b PartSet.PartSet.BlockPartSizeBytes = Done (Ok ps) → block_Hash (Some b) = Done x → ValidateHash x = true →
  header_ValidateBasic (bHeader b) = None → CommitFromProto sc = value sc → cHeight sc = hHeight (bHeader b) → hHeight (bHeader b) ≤ max_int64 →
  bLastCommit b = Some c → CommitFromProto c = value c → ∃ e, saves b ps sc e.
Proof.
  intros Em Eu Ed Hlen Hmax Eps Ex Hx Hh Hsc Hsch Hmh Ec Hc. unfold MakePartSet in Eps. rewrite Em in Eps. apply outcome_bind_Done in Eps as (ps' & Eps & [= ->]).
  destruct (PartSet.PartSet.NewPartSetFromData_spec (blockMsg_Marshal m) PartSet.PartSet.BlockPartSizeBytes ltac:(done) Hmax) as (full & qs & E' & Hinv & Ht & Hcnt & _ & Hhash & Hqs & Hbytes & _).
  assert (full = ps) as -> by congruence. clear E'.
  destruct (PartSet.PartSet.genuine_parts_accepted (blockMsg_Marshal m) ps qs Hlen Hmax Eps) as [Hval _].
  { apply Forall_forall. intros p Hp. rewrite Hqs. apply list_elem_of_fmap. by exists p. }
  assert (zlen qs = PartSet.PartSet.total ps) as Hz.
  { rewrite Ht. apply (f_equal length) in Hbytes. rewrite length_map, PartSet.PartSet.chunks_length in Hbytes. unfold zlen. by rewrite Hbytes. }
  set (meta := mkBlockMeta {| Votes.Hash := x; PSH := PartSet.PartSet.Header (Some ps) |} (block_Size b) (bHeader b) (zlen (bTxs b))).
  exists (mkEntry b qs meta sc). split; [|split_and!; [done|done|by rewrite Hqs|by simpl; rewrite Hz|by simpl; rewrite Hcnt, Hz|unfold NewBlockMeta; by rewrite Ex|done]].
  assert (block_ValidateBasic (bmBlockID meta) = true) as Hbid.
  { unfold block_ValidateBasic, psh_ValidateBasic. simpl. rewrite Hx, Hhash. unfold ValidateHash, zlen. by rewrite Merkle.HashFromByteSlices_length. }
  split; simpl.
  - unfold BlockMetaFromTrustedProto. simpl. rewrite BlockID_roundtrip by exact Hbid. cbn [dbind value]. by rewrite Header_roundtrip.
  - by rewrite Hz.
  - eapply Forall_impl; [exact Hval|]. intros p Hp. cbn beta in Hp. unfold PartFromProto. rewrite Hp. unfold PartSet.PartSet.part_ValidateBasic in Hp.
    repeat (case_match; try done).
  - intros ->. unfold zlen in Hz. simpl in Hz. pose proof (PartSet.PartSet.nchunks_pos (blockMsg_Marshal m) PartSet.PartSet.BlockPartSizeBytes ltac:(done) Hlen). lia.
  - change (pBytes <$> qs) with (map pBytes qs). rewrite Hbytes, PartSet.PartSet.concat_chunks by done. unfold decode_block. by rewrite Eu, Ed.
  - done.
  - by rewrite Ec.
  - unfold eHeight. simpl. split; [by apply header_basic_positive|done].
Qed.

End lemmas.

(** ** Examples *)

Section examples.
#[local] Existing Instances toy_keys toy_codec toy_batch toy_batch_laws Merkle.toy_hash Merkle.toy_hash_laws toy_header_codec toy_header_codec_laws
  toy_key_codec toy_key_codec_laws toy_block_codec toy_result_codec.

(** The blocks of a short chain; a block is encoded by its height. *)
Definition ex_msg (b : Block) : option BlockMsg := match block_ToProto b with Ok m => Some m | Err _ => None end.
Definition toy_bytes : BlockBytes :=
  {| blockMsg_Marshal m := [hHeight (bmHeader m)];
     blockMsg_Unmarshal bz := match bz with [1] => ex_msg ex_b1 | [2] => ex_msg ex_b2 | _ => None end |}.
#[local] Existing Instance toy_bytes.

Definition no_part_set : PartSet := PartSet.PartSet.mkPartSet 0 [] [] None 0 0.
Definition no_commit : Commit := mkCommit 0 0 nil_BlockID [].
Definition no_meta : BlockMeta := mkBlockMeta nil_BlockID 0 (nil_header 0) 0.
Definition ex_parts (b : Block) : PartSet := match MakePartSet b PartSet.PartSet.BlockPartSizeBytes with Done (Ok ps) => ps | _ => no_part_set end.
Definition ex_part_list (b : Block) : list Part := omap id (PartSet.PartSet.parts (ex_parts b)).
Definition ex_meta (b : Block) : BlockMeta := match NewBlockMeta b (PartSet.PartSet.Header (Some (ex_parts b))) with Done m => m | Panic _ => no_meta end.
Definition ex_entry (b : Block) (sc : Commit) : entry := mkEntry b (ex_part_list b) (ex_meta b) sc.

Definition ex_c1 : Commit := default no_commit (bLastCommit ex_b2).
Definition ex_c2 : Commit := default no_commit (bLastCommit ex_b3).
Definition ex_e1 : entry := ex_entry ex_b1 ex_c1.
Definition ex_e2 : entry := ex_entry ex_b2 ex_c2.

Lemma ex_e1_saves : saves false ex_b1 (ex_parts ex_b1) ex_c1 ex_e1.
Proof. split; [split; [by vm_compute|by vm_compute|repeat constructor|by vm_compute|by vm_compute|by vm_compute|by vm_compute|by vm_compute]|split_and!; by vm_compute]. Qed.
Lemma ex_e2_saves : saves false ex_b2 (ex_parts ex_b2) ex_c2 ex_e2.
Proof. split; [split; [by vm_compute|by vm_compute|repeat constructor|by vm_compute|by vm_compute|by vm_compute|by vm_compute|by vm_compute]|split_and!; by vm_compute]. Qed.

Definition ex_new : Store := NewBlockStore empty_db false 0.
Definition ex_st1 : Store := saved_store ex_new ex_e1 None.
Definition ex_st2 : Store := saved_store ex_st1 ex_e2 None.
Definition ex_B : gmap Z entry := <[eHeight ex_e2 := ex_e2]> (<[eHeight ex_e1 := ex_e1]> ∅).

Lemma ex_store_run1 : store_run false ex_st1 (<[eHeight ex_e1 := ex_e1]> ∅).
Proof.
  eapply run_save; [apply (run_new false false 0)|exact ex_e1_saves|by left| |].
  - intros h e. by rewrite lookup_empty.
  - apply (SaveBlock_spec false _ ∅); [apply store_run_inv, run_new|exact ex_e1_saves|by left].
Qed.
Lemma ex_store_run2 : store_run false ex_st2 ex_B.
Proof.
  assert (extends ex_st1 ex_e2) as Hx by (right; by vm_compute).
  eapply run_save; [exact ex_store_run1|exact ex_e2_saves|exact Hx| |].
  - intros h e. destruct (decide (eHeight ex_e1 = h)) as [<-|]; [|by rewrite lookup_insert_ne].
    rewrite lookup_insert_eq. intros [= <-]. by vm_compute.
  - apply (SaveBlock_spec false _ (<[eHeight ex_e1 := ex_e1]> ∅)); [apply store_run_inv, ex_store_run1|exact ex_e2_saves|exact Hx].
Qed.

Lemma store_holds_blocks_witness : ∃ e, ex_B !! 1 = Some e ∧
    (∃ s', LoadBlock false ex_st2 1 = Done (Some (eBlock e, eMeta e), s')) ∧ (∃ s', LoadBlockByHash false ex_st2 (eHash e) = Done (Some (eBlock e, eMeta e), s')) ∧
    (∃ s', LoadSeenCommit ex_st2 1 = Done (Some (eSeen e), s')) ∧
    (1 < bsHeight ex_st2 → ∃ e' s', ex_B !! (1 + 1) = Some e' ∧ LoadBlockCommit ex_st2 1 = Done (bLastCommit (eBlock e'), s')).
Proof. apply (store_holds_blocks false ex_st2 ex_B ex_store_run2); by vm_compute. Defined.

Lemma pruning_keeps_evidence_witness :
  ∃ points s' pruned point, PruneBlocks ex_st2 2 ex_s2 = Done (points, Ok (s', pruned, point)) ∧ bsBase s' = 2 ∧ bsHeight s' = 2 ∧
    (∀ h e, ex_B !! h = Some e → 2 ≤ h → loads_entry false s' h e) ∧
    ∀ h e, ex_B !! h = Some e → h < 2 → expired ex_s2 e = false → point ≤ h ∧
      LoadBlockMeta s' h = Done (Some (eMeta e)) ∧ ∀ e', ex_B !! (h + 1) = Some e' → ∃ s'', LoadBlockCommit s' h = Done (bLastCommit (eBlock e'), s'').
Proof. apply (pruning_keeps_evidence false ex_st2 ex_B 2 ex_s2 ex_store_run2); by vm_compute. Defined.

(** The evidence of the first block is not too old, so that the statement above is about it. *)
Example ex_not_expired : expired ex_s2 ex_e1 = false.
Proof. by vm_compute. Qed.

(** The last block is deleted, but the caches keep its parts and the commit that was seen for it;
    the commit it brought for the block before stays in the database. *)
Theorem deleted_block_is_cached :
  (r ← LoadSeenCommit ex_st2 2; s ← DeleteLatestBlock r.2; p ← LoadBlockPart s 2 0; c ← LoadSeenCommit s 2; l ← LoadBlockCommit s 1;
   Done (bsHeight s, bool_decide (is_Some p.1), bool_decide (c.1 = Some ex_c2), bool_decide (is_Some l.1))) = Done (1, true, true, true).
Proof. by vm_compute. Qed.

(** A store of 1001 blocks is pruned to the last one: the flush after a thousand blocks moves the base to
    a block that it deletes. *)
Definition ex_long : Store :=
  let heights := seqZ 1 1001 in
  NewBlockStore (mkDB (list_to_map ((λ h, (h, ex_meta ex_b1)) <$> heights)) (list_to_map ((λ h, ((h, 0), default (PartSet.PartSet.mkPart 0 [] (Merkle.mkProof 0 0 [] [])) (head (ex_part_list ex_b1)))) <$> heights))
    ∅ ∅ ∅ ∅ (Some (1, 1001))) false 0.

Theorem pruning_flush_loses_base :
  (r ← PruneBlocks ex_long 1001 ex_s2;
   match r.1 with
   | [s] => b ← LoadBlock false s (bsBase s); Done (bsBase s, bool_decide (b.1 = None))
   | _ => Panic "no flush"
   end) = Done (1000, true).
Proof. by vm_compute. Qed.
End examples.

End BlockStore.
