(* ===== verification/CList.v ===== *)
(** * CList: the concurrent list

    [internal/clist/clist.go]: the linked list that the mempool and the evidence pool are read
    from while they change.  Elements live in a store and are named by the order in which they
    were allocated; a removed element stays in the store, since a reader may hold it.  An
    operation runs under the locks it takes, as one step.  A wait group and the channel beside
    it are made, counted down and closed together: one flag says whether both are released, and
    releasing them twice is a panic. *)

From S2P Require Import Prelude.

Local Open Scope Z_scope.

Module CList.

Section clist.
Context {A : Type}.

Record CElement := mkCElement {
  prev : option nat; prevReleased : bool; next : option nat; nextReleased : bool; removed : bool; Value : A }.

Record CList := mkCList {
  elems : gmap nat CElement; fresh : nat; released : bool; lHead : option nat; lTail : option nat; curLen : Z; maxLen : Z }.

Definition set_elem (l : CList) (i : nat) (c : CElement) : CList :=
  mkCList (<[i := c]> (elems l)) (fresh l) (released l) (lHead l) (lTail l) (curLen l) (maxLen l).
Definition set_head (l : CList) (h : option nat) : CList := mkCList (elems l) (fresh l) (released l) h (lTail l) (curLen l) (maxLen l).
Definition set_tail (l : CList) (t : option nat) : CList := mkCList (elems l) (fresh l) (released l) (lHead l) t (curLen l) (maxLen l).
Definition set_count (l : CList) (r : bool) (n : Z) : CList := mkCList (elems l) (fresh l) r (lHead l) (lTail l) n (maxLen l).

Definition elem (l : CList) (i : nat) : outcome CElement :=
  match elems l !! i with Some c => Done c | None => Panic "invalid memory address or nil pointer dereference" end.

(** [Done] and [close] of a wait group and a channel. *)
Definition release (r : bool) : outcome bool := if r then Panic "sync: negative WaitGroup counter" else Done true.

Definition Next (l : CList) (i : nat) : outcome (option nat) := c ← elem l i; Done (next c).
Definition Prev (l : CList) (i : nat) : outcome (option nat) := c ← elem l i; Done (prev c).
Definition Removed (l : CList) (i : nat) : outcome bool := c ← elem l i; Done (removed c).

(** One turn of the loops of [NextWait] and [PrevWait]: an answer, or wait. *)
Definition NextWait_turn (c : CElement) : option (option nat) :=
  if bool_decide (is_Some (next c)) || removed c then Some (next c) else None.
Definition PrevWait_turn (c : CElement) : option (option nat) :=
  if bool_decide (is_Some (prev c)) || removed c then Some (prev c) else None.

Definition DetachNext (l : CList) (i : nat) : outcome CList :=
  c ← elem l i;
  if negb (removed c) then Panic "DetachNext() must be called after Remove(e)"
  else Done (set_elem l i (mkCElement (prev c) (prevReleased c) None (nextReleased c) (removed c) (Value c))).

Definition DetachPrev (l : CList) (i : nat) : outcome CList :=
  c ← elem l i;
  if negb (removed c) then Panic "DetachPrev() must be called after Remove(e)"
  else Done (set_elem l i (mkCElement None (prevReleased c) (next c) (nextReleased c) (removed c) (Value c))).

(** The flag after a pointer changes: renewed when it becomes nil, released when it stops being
    nil. *)
Definition relink (old new : option nat) (r : bool) : outcome bool :=
  let r := match old, new with Some _, None => false | _, _ => r end in
  match old, new with None, Some _ => release r | _, _ => Done r end.

Definition SetNext (l : CList) (i : nat) (newNext : option nat) : outcome CList :=
  c ← elem l i;
  r ← relink (next c) newNext (nextReleased c);
  Done (set_elem l i (mkCElement (prev c) (prevReleased c) newNext r (removed c) (Value c))).

Definition SetPrev (l : CList) (i : nat) (newPrev : option nat) : outcome CList :=
  c ← elem l i;
  r ← relink (prev c) newPrev (prevReleased c);
  Done (set_elem l i (mkCElement newPrev r (next c) (nextReleased c) (removed c) (Value c))).

Definition SetRemoved (l : CList) (i : nat) : outcome CList :=
  c ← elem l i;
  rp ← (match prev c with None => release (prevReleased c) | Some _ => Done (prevReleased c) end);
  rn ← (match next c with None => release (nextReleased c) | Some _ => Done (nextReleased c) end);
  Done (set_elem l i (mkCElement (prev c) rp (next c) rn true (Value c))).

Definition MaxLength : Z := max_int64.
(** [Init] forgets the elements; they stay allocated. *)
Definition Init (l : CList) : CList := mkCList (elems l) (fresh l) false None None 0 (maxLen l).
Definition newWithMax (maxLength : Z) : CList := Init (mkCList ∅ 0 false None None 0 maxLength).
Definition New : CList := newWithMax MaxLength.

Definition Len (l : CList) : Z := curLen l.
Definition Front (l : CList) : option nat := lHead l.
Definition Back (l : CList) : option nat := lTail l.
Definition FrontWait_turn (l : CList) : option nat := lHead l.
Definition BackWait_turn (l : CList) : option nat := lTail l.

(** A new element, in the store but not yet in the list. *)
Definition alloc (l : CList) (v : A) : CList :=
  mkCList (<[fresh l := mkCElement None false None false false v]> (elems l)) (S (fresh l)) (released l) (lHead l) (lTail l) (curLen l) (maxLen l).

Definition PushBack (l0 : CList) (v : A) : outcome (nat * CList) :=
  let e := fresh l0 in
  let l := alloc l0 v in
  r ← (if curLen l =? 0 then release (released l) else Done (released l));
  if maxLen l <=? curLen l then Panic "clist: maximum length list reached"
  else
    let l := set_count l r (curLen l + 1) in
    match lTail l with
    | None => Done (e, set_tail (set_head l (Some e)) (Some e))
    | Some t =>
        l ← SetPrev l e (Some t);
        l ← SetNext l t (Some e);
        Done (e, set_tail l (Some e))
    end.

Definition Remove (l : CList) (e : nat) : outcome CList :=
  p ← Prev l e;
  n ← Next l e;
  match lHead l, lTail l with
  | None, _ | _, None => Panic "Remove(e) on empty CList"
  | Some h, Some t =>
      if bool_decide (p = None) && bool_decide (h ≠ e) then Panic "Remove(e) with false head"
      else if bool_decide (n = None) && bool_decide (t ≠ e) then Panic "Remove(e) with false tail"
      else
        let l := set_count l (if curLen l =? 1 then false else released l) (curLen l - 1) in
        l ← (match p with None => Done (set_head l n) | Some q => SetNext l q n end);
        l ← (match n with None => Done (set_tail l p) | Some q => SetPrev l q p end);
        SetRemoved l e
  end.

(** The loop [for e := l.Front(); e != nil; e = e.Next()], from any element. *)
Fixpoint walk (fuel : nat) (l : CList) (e : option nat) : outcome (list (nat * A)) :=
  match e with
  | None => Done []
  | Some i =>
      match fuel with
      | O => Panic "out of fuel"
      | S fuel => c ← elem l i; r ← walk fuel l (next c); Done ((i, Value c) :: r)
      end
  end.

(** ** The list that is represented *)

(** The element at a position, and the one before it. *)
Definition id_at (xs : list (nat * A)) (k : nat) : option nat := fst <$> xs !! k.
Definition id_before (xs : list (nat * A)) (k : nat) : option nat := match k with O => None | S k => id_at xs k end.

Definition live_elem (xs : list (nat * A)) (k : nat) (v : A) : CElement :=
  let p := id_before xs k in
  let n := id_at xs (S k) in
  mkCElement p (bool_decide (is_Some p)) n (bool_decide (is_Some n)) false v.

(** A removed element is released on both sides; if it leads on, then to an element allocated
    later, and no element of the list lies between the two. *)
Definition dead_elem (l : CList) (xs : list (nat * A)) (i : nat) (c : CElement) : Prop :=
  removed c = true ∧ prevReleased c = true ∧ nextReleased c = true ∧
  (∀ j, next c = Some j → (i < j < fresh l)%nat ∧ ∀ k x, id_at xs k = Some x → (i < x)%nat → (j ≤ x)%nat).

Record rep (l : CList) (xs : list (nat * A)) : Prop := mk_rep {
  rep_sorted : ∀ j k a b, (j < k)%nat → id_at xs j = Some a → id_at xs k = Some b → (a < b)%nat;
  rep_live : ∀ k i v, xs !! k = Some (i, v) → elems l !! i = Some (live_elem xs k v);
  rep_dead : ∀ i c, elems l !! i = Some c → (∀ k, id_at xs k ≠ Some i) → dead_elem l xs i c;
  rep_fresh : ∀ i, is_Some (elems l !! i) ↔ (i < fresh l)%nat;
  rep_head : lHead l = id_at xs 0;
  rep_tail : lTail l = fst <$> last xs;
  rep_len : curLen l = zlen xs;
  rep_released : released l = bool_decide (xs ≠ []) }.

End clist.
Arguments CElement : clear implicits.
Arguments CList : clear implicits.

Section lemmas.
Context {A : Type}.
Implicit Types (l : CList A) (xs : list (nat * A)).

Lemma id_at_Some xs k i : id_at xs k = Some i ↔ ∃ v, xs !! k = Some (i, v).
Proof. unfold id_at. rewrite fmap_Some. split; [intros ([? ?] & ? & ->); eauto|intros [v ?]; by exists (i, v)]. Qed.

Lemma id_at_inj l xs j k i : rep l xs → id_at xs j = Some i → id_at xs k = Some i → j = k.
Proof.
  intros R Hj Hk. destruct (Nat.lt_trichotomy j k) as [Hlt|[?|Hlt]]; [|done|];
    [pose proof (rep_sorted _ _ R _ _ _ _ Hlt Hj Hk)|pose proof (rep_sorted _ _ R _ _ _ _ Hlt Hk Hj)]; lia.
Qed.

Lemma id_at_None xs k : id_at xs k = None ↔ (length xs ≤ k)%nat.
Proof. unfold id_at. rewrite fmap_None. apply lookup_ge_None. Qed.

Lemma last_id xs : fst <$> last xs = id_before xs (length xs).
Proof. rewrite last_lookup. unfold id_before, id_at. by destruct xs. Qed.

(** Deletion, by position. *)
Lemma id_at_delete xs k j : id_at (delete k xs) j = id_at xs (if decide (j < k)%nat then j else S j).
Proof.
  unfold id_at. case_decide; [by rewrite list_lookup_delete_lt|]. rewrite list_lookup_delete_ge; [done|lia].
Qed.

Lemma in_or_out xs i : (∃ k v, xs !! k = Some (i, v)) ∨ (∀ k, id_at xs k ≠ Some i).
Proof.
  destruct (decide (Exists (λ x, x.1 = i) xs)) as [He|He].
  - left. apply Exists_exists in He as ([i' v] & [k Hk]%list_elem_of_lookup & <-). eauto.
  - right. intros k [v Hv]%id_at_Some. apply He, Exists_exists. exists (i, v). split; [|done]. by apply list_elem_of_lookup_2 in Hv.
Qed.

Lemma rep_New n : rep (newWithMax n) ([] : list (nat * A)).
Proof.
  split; simpl; try done.
  - intros i. rewrite lookup_empty. split; [intros []; done|lia].
Qed.

Lemma rep_lt l xs k i : rep l xs → id_at xs k = Some i → (i < fresh l)%nat.
Proof. intros R [v Hv]%id_at_Some. apply (rep_fresh _ _ R). rewrite (rep_live _ _ R _ _ _ Hv). done. Qed.

Lemma id_at_app_l xs ys k i : id_at xs k = Some i → id_at (xs ++ ys) k = Some i.
Proof. rewrite !id_at_Some. intros [v Hv]. exists v. by apply lookup_app_l_Some. Qed.

Lemma id_at_snoc xs i v k :
  id_at (xs ++ [(i, v)]) k = if decide (k = length xs) then Some i else id_at xs k.
Proof.
  unfold id_at. case_decide as Hk.
  - subst. rewrite lookup_app_r, Nat.sub_diag; [done|lia].
  - destruct (decide (k < length xs)%nat); [by rewrite lookup_app_l|].
    rewrite !lookup_ge_None_2; [done|lia|rewrite length_app; simpl; lia].
Qed.

Lemma id_before_app xs ys : id_before (xs ++ ys) (length xs) = id_before xs (length xs).
Proof.
  unfold id_before, id_at. destruct (length xs) as [|n] eqn:E; [done|]. rewrite lookup_app_l; [done|lia].
Qed.

Lemma live_elem_snoc xs i w k v : (S k < length xs)%nat → live_elem (xs ++ [(i, w)]) k v = live_elem xs k v.
Proof.
  intros Hk. unfold live_elem.
  assert (id_before (xs ++ [(i, w)]) k = id_before xs k) as ->.
  { destruct k; simpl; [done|]. rewrite id_at_snoc, decide_False; [done|lia]. }
  assert (id_at (xs ++ [(i, w)]) (S k) = id_at xs (S k)) as ->; [|done].
  rewrite id_at_snoc, decide_False; [done|lia].
Qed.

Lemma sorted_snoc l xs v : rep l xs →
  ∀ j k a b, (j < k)%nat → id_at (xs ++ [(fresh l, v)]) j = Some a → id_at (xs ++ [(fresh l, v)]) k = Some b → (a < b)%nat.
Proof.
  intros R j k a b Hjk. rewrite !id_at_snoc. destruct (decide (k = length xs)) as [->|Hk].
  - rewrite decide_False; [|lia]. intros Ha [= <-]. by apply (rep_lt _ _ _ _ R Ha).
  - case_decide as Hj; [|by apply (rep_sorted _ _ R)]. subst. intros _ Hb.
    assert (id_at xs k = None) by (apply id_at_None; lia). congruence.
Qed.

(** The elements that an operation leaves alone stay removed as they were. *)
Lemma dead_snoc l l' xs v i c : rep l xs → (fresh l ≤ fresh l')%nat → dead_elem l xs i c → dead_elem l' (xs ++ [(fresh l, v)]) i c.
Proof.
  intros R Hf (? & ? & ? & Hn). repeat split; [done..| | |]; try (specialize (Hn _ H2); lia).
  intros k x. rewrite id_at_snoc. destruct (Hn _ H2) as [? Hg]. case_decide; [|by apply Hg]. intros [= <-] _. lia.
Qed.

Lemma push_intro l l' xs v : rep l xs → let xs' := xs ++ [(fresh l, v)] in
  (∀ k i w, xs' !! k = Some (i, w) → elems l' !! i = Some (live_elem xs' k w)) →
  (∀ i, (∀ k, id_at xs' k ≠ Some i) → elems l' !! i = elems l !! i) →
  fresh l' = S (fresh l) → lHead l' = id_at xs' 0 → lTail l' = Some (fresh l) → curLen l' = zlen xs' → released l' = true →
  rep l' xs'.
Proof.
  intros R xs' Hl Hd Hf Hh Ht Hc Hr. split; [by apply (sorted_snoc _ _ _ R)|done| | |done| |done|].
  - intros i c Hi Hn. rewrite Hd in Hi by done. apply (dead_snoc l); [done|lia|]. apply (rep_dead _ _ R); [done|].
    intros k Hk. apply (Hn k). by apply id_at_app_l.
  - intros i. rewrite Hf. destruct (decide (i = fresh l)) as [->|].
    { rewrite (Hl (length xs) _ v); [|by apply list_lookup_middle]. split; [lia|done]. }
    transitivity (i < fresh l)%nat; [|lia]. rewrite <- (rep_fresh _ _ R).
    destruct (in_or_out xs i) as [(k & w & Hk)|Hi].
    + rewrite (rep_live _ _ R _ _ _ Hk), (Hl k i w); [done|]. by apply lookup_app_l_Some.
    + rewrite Hd; [done|]. intros k. unfold xs'. rewrite id_at_snoc. case_decide; [congruence|apply Hi].
  - unfold xs'. by rewrite last_snoc.
  - rewrite Hr. symmetry. apply bool_decide_eq_true. unfold xs'. by destruct xs.
Qed.

(** The last element and the new one are linked to each other; nothing else changes. *)
Lemma push_live l xs t w v (m : gmap nat (CElement A)) : rep l (xs ++ [(t, w)]) → let xs' := xs ++ [(t, w); (fresh l, v)] in
  m !! t = Some (mkCElement (id_before (xs ++ [(t, w)]) (length xs)) (bool_decide (is_Some (id_before (xs ++ [(t, w)]) (length xs)))) (Some (fresh l)) true false w) →
  m !! fresh l = Some (mkCElement (Some t) true None false false v) →
  (∀ i, i ≠ t → i ≠ fresh l → m !! i = elems l !! i) →
  ∀ k i u, xs' !! k = Some (i, u) → m !! i = Some (live_elem xs' k u).
Proof.
  intros R xs' Ht Hf Hm k i u Hk. unfold xs' in *.
  destruct (decide (k = S (length xs))) as [->|Hk1]; [|destruct (decide (k = length xs)) as [->|Hk2]].
  - rewrite lookup_app_r in Hk by lia. replace (S (length xs) - length xs)%nat with 1%nat in Hk by lia. injection Hk as <- <-.
    rewrite Hf. f_equal. unfold live_elem. simpl.
    rewrite (proj2 (id_at_None _ (S (S (length xs))))) by (rewrite length_app; simpl; lia).
    assert (id_at (xs ++ [(t, w); (fresh l, v)]) (length xs) = Some t) as -> by (apply id_at_Some; exists w; by apply list_lookup_middle).
    done.
  - rewrite list_lookup_middle in Hk by done. injection Hk as <- <-. rewrite Ht. f_equal.
    assert (id_at (xs ++ [(t, w); (fresh l, v)]) (S (length xs)) = Some (fresh l)) as Hs.
    { apply id_at_Some. exists v. rewrite lookup_app_r by lia. by replace (S (length xs) - length xs)%nat with 1%nat by lia. }
    unfold live_elem. rewrite Hs. by rewrite !id_before_app.
  - assert (k < length xs)%nat by (apply lookup_lt_Some in Hk; rewrite length_app in Hk; simpl in Hk; lia).
    rewrite lookup_app_l in Hk by done.
    assert ((xs ++ [(t, w)]) !! k = Some (i, u)) as Hk' by (by apply lookup_app_l_Some).
    assert (i < t)%nat.
    { apply (rep_sorted _ _ R k (length xs)); [done|apply id_at_Some; by exists u|].
      apply id_at_Some. exists w. by apply list_lookup_middle. }
    assert (t < fresh l)%nat by (apply (rep_lt _ _ (length xs) _ R), id_at_Some; exists w; by apply list_lookup_middle).
    rewrite Hm by lia. rewrite (rep_live _ _ R _ _ _ Hk'). f_equal.
    rewrite <- (live_elem_snoc _ (fresh l) v) by (rewrite length_app; simpl; lia). by rewrite <- (app_assoc xs).
Qed.

Lemma PushBack_rep l xs v : rep l xs → zlen xs < maxLen l →
  ∃ l', PushBack l v = Done (fresh l, l') ∧ rep l' (xs ++ [(fresh l, v)]) ∧ maxLen l' = maxLen l ∧ fresh l' = S (fresh l).
Proof.
  intros R Hmax. unfold PushBack. simpl. rewrite (rep_len _ _ R), (rep_released _ _ R), (rep_tail _ _ R).
  assert (maxLen l <=? zlen xs = false) as -> by (apply Z.leb_gt; lia).
  destruct xs as [|[t w] xs _] using rev_ind; simpl.
  - eexists. split; [done|]. split; [|done]. apply (push_intro l _ [] v R); simpl; try done.
    + intros [|k] i w; simpl; [|done]. intros [= <- <-]. by rewrite lookup_insert_eq.
    + intros i Hi. rewrite lookup_insert_ne; [done|]. intros <-. by apply (Hi 0%nat).
  - assert ((xs ++ [(t, w)]) !! length xs = Some (t, w)) as Hlt by (by apply list_lookup_middle).
    assert (zlen (xs ++ [(t, w)]) =? 0 = false) as -> by (apply Z.eqb_neq; unfold zlen; rewrite length_app; simpl; lia).
    rewrite last_snoc, bool_decide_eq_true_2 by (by destruct xs). simpl.
    unfold SetPrev at 1, SetNext at 1, elem. simpl. rewrite lookup_insert_eq. simpl.
    pose proof (rep_live _ _ R _ _ _ Hlt) as Ht.
    assert (t < fresh l)%nat by (apply (rep_fresh _ _ R); by rewrite Ht).
    rewrite !lookup_insert_ne by lia. rewrite Ht. simpl.
    assert (id_at (xs ++ [(t, w)]) (S (length xs)) = None) as Hn by (apply id_at_None; rewrite length_app; simpl; lia).
    rewrite Hn. simpl. eexists. split; [done|]. split; [|done].
    apply (push_intro l _ (xs ++ [(t, w)]) v R); simpl; try done.
    + rewrite <- (app_assoc xs). simpl. apply push_live; [done|by rewrite lookup_insert_eq|by rewrite lookup_insert_ne, lookup_insert_eq by lia|].
      intros i ? ?. by rewrite !lookup_insert_ne by done.
    + intros i Hi. assert (fresh l ≠ i).
      { intros <-. apply (Hi (length (xs ++ [(t, w)]))). by rewrite id_at_snoc, decide_True. }
      rewrite !lookup_insert_ne; [done|done|done|]. intros <-. apply (Hi (length xs)). apply id_at_app_l, id_at_Some. by exists w.
    + rewrite (rep_head _ _ R). unfold id_at. rewrite (lookup_app_l (xs ++ _)); [done|]. rewrite length_app. simpl. lia.
    + unfold zlen. rewrite !length_app. simpl. lia.
Qed.

(** ** Removal *)

Lemma live_elem_delete xs k j w :
  live_elem (delete k xs) j w =
  let j' := if decide (j < k)%nat then j else S j in
  let p := if decide (j = k) then id_before xs k else id_before xs j' in
  let n := if decide (S j = k) then id_at xs (S k) else id_at xs (S j') in
  mkCElement p (bool_decide (is_Some p)) n (bool_decide (is_Some n)) false w.
Proof.
  unfold live_elem.
  assert (id_at (delete k xs) (S j) = if decide (S j = k) then id_at xs (S k) else id_at xs (S (if decide (j < k)%nat then j else S j))) as ->.
  { rewrite id_at_delete. repeat case_decide; try lia; try done. congruence. }
  assert (id_before (delete k xs) j = if decide (j = k) then id_before xs k else id_before xs (if decide (j < k)%nat then j else S j)) as ->; [|done].
  destruct j as [|j]; simpl.
  - repeat case_decide; try lia; try done; subst; done.
  - rewrite id_at_delete. repeat case_decide; try lia; try done; subst; done.
Qed.

Lemma delete_last xs k x : xs !! k = Some x → fst <$> last (delete k xs) = if decide (S k = length xs) then id_before xs k else fst <$> last xs.
Proof.
  intros Hk. pose proof (lookup_lt_Some _ _ _ Hk). rewrite !last_id, length_delete by done.
  destruct (length xs) as [|n] eqn:E; [lia|]. simpl. rewrite Nat.sub_0_r. case_decide as Hd.
  - injection Hd as <-. destruct k; simpl; [done|]. by rewrite id_at_delete, decide_True by lia.
  - destruct n; simpl; [lia|]. rewrite id_at_delete, decide_False by lia. done.
Qed.

Definition pos_del (k j : nat) : nat := if decide (j < k)%nat then j else pred j.

Lemma id_at_delete_pos xs k j : j ≠ k → id_at (delete k xs) (pos_del k j) = id_at xs j.
Proof.
  intros. rewrite id_at_delete. unfold pos_del. repeat case_decide; try lia; [done|]. by rewrite Nat.succ_pred by lia.
Qed.

Lemma id_at_delete_inv xs k j i : id_at (delete k xs) j = Some i → ∃ j', j' ≠ k ∧ id_at xs j' = Some i.
Proof. rewrite id_at_delete. case_decide; intros ?; eexists; (split; [|done]); lia. Qed.

Lemma sorted_delete l xs k : rep l xs →
  ∀ i j a b, (i < j)%nat → id_at (delete k xs) i = Some a → id_at (delete k xs) j = Some b → (a < b)%nat.
Proof.
  intros R i j a b Hij. rewrite !id_at_delete. intros Ha Hb. refine (rep_sorted _ _ R _ _ _ _ _ Ha Hb). repeat case_decide; lia.
Qed.

Lemma dead_removed l xs k e p v : rep l xs → id_at xs k = Some e →
  dead_elem l (delete k xs) e (mkCElement p true (id_at xs (S k)) true true v).
Proof.
  intros R Hk. do 3 (split; [done|]). simpl. intros j Hj. split.
  { split; [by apply (rep_sorted _ _ R k (S k)); [lia|..]|by apply (rep_lt _ _ _ _ R Hj)]. }
  intros q x (q' & Hq' & Hq)%id_at_delete_inv Hex. destruct (decide (q' < k)%nat).
  { pose proof (rep_sorted _ _ R q' k _ _ ltac:(lia) Hq Hk). lia. }
  destruct (decide (q' = S k)) as [->|]; [rewrite Hq in Hj; injection Hj; lia|].
  pose proof (rep_sorted _ _ R (S k) q' _ _ ltac:(lia) Hj Hq). lia.
Qed.

Lemma dead_delete l xs k i c : dead_elem l xs i c → dead_elem l (delete k xs) i c.
Proof.
  intros (? & ? & ? & Hx). do 3 (split; [done|]). intros j Hj. destruct (Hx _ Hj) as [? Hg]. split; [done|].
  intros q x (q' & _ & Hq)%id_at_delete_inv. by apply (Hg q').
Qed.

Lemma remove_intro l l' xs k e v : rep l xs → xs !! k = Some (e, v) → let ys := delete k xs in
  (∀ j i w, ys !! j = Some (i, w) → elems l' !! i = Some (live_elem ys j w)) →
  (∀ i, (∀ j, id_at xs j ≠ Some i) → elems l' !! i = elems l !! i) →
  (∃ p, elems l' !! e = Some (mkCElement p true (id_at xs (S k)) true true v)) →
  fresh l' = fresh l → lHead l' = id_at ys 0 → lTail l' = fst <$> last ys → curLen l' = curLen l - 1 →
  released l' = (if curLen l =? 1 then false else released l) →
  rep l' ys.
Proof.
  intros R Hk ys Hl Hd [p He] Hf Hh Ht Hc Hr.
  assert (id_at xs k = Some e) as Hke by (apply id_at_Some; by exists v).
  assert (length ys = length xs - 1)%nat as Hlen by (apply length_delete; by rewrite Hk).
  pose proof (lookup_lt_Some _ _ _ Hk) as Hlt.
  assert (∀ i, i ≠ e → (∀ j, id_at ys j ≠ Some i) → ∀ j, id_at xs j ≠ Some i) as Hout.
  { intros i Hie Hn j Hj. apply (Hn (pos_del k j)). unfold ys. rewrite id_at_delete_pos; [done|]. congruence. }
  split; [by apply (sorted_delete _ _ _ R)|done| | |done|done| |].
  - intros i c Hi Hn. unfold dead_elem. rewrite Hf. destruct (decide (i = e)) as [->|Hie].
    + rewrite He in Hi. injection Hi as <-. by apply (dead_removed l).
    + rewrite Hd in Hi by auto. apply dead_delete, (rep_dead _ _ R); auto.
  - intros i. rewrite Hf, <- (rep_fresh _ _ R). destruct (decide (i = e)) as [->|Hie].
    { by rewrite He, (rep_live _ _ R _ _ _ Hk). }
    destruct (in_or_out ys i) as [(j & w & Hj)|Hn]; [|rewrite Hd by auto; done].
    rewrite (Hl _ _ _ Hj). assert (id_at ys j = Some i) as (j' & _ & [u Hu]%id_at_Some)%id_at_delete_inv by (apply id_at_Some; eauto).
    by rewrite (rep_live _ _ R _ _ _ Hu).
  - rewrite Hc, (rep_len _ _ R). unfold zlen. lia.
  - rewrite Hr, (rep_len _ _ R), (rep_released _ _ R). unfold zlen. destruct (Z.eqb_spec (Z.of_nat (length xs)) 1).
    + symmetry. apply bool_decide_eq_false. assert (length ys = 0)%nat as ->%nil_length_inv by lia. naive_solver.
    + apply bool_decide_ext. split; intros _ E; [rewrite E in Hlen|rewrite E in Hlt]; simpl in *; lia.
Qed.

Definition with_next (n : option nat) (c : CElement A) : CElement A :=
  mkCElement (prev c) (prevReleased c) n (bool_decide (is_Some n)) (removed c) (Value c).
Definition with_prev (p : option nat) (c : CElement A) : CElement A :=
  mkCElement p (bool_decide (is_Some p)) (next c) (nextReleased c) (removed c) (Value c).

Lemma SetNext_live l q c e n : elems l !! q = Some c → next c = Some e → nextReleased c = true →
  SetNext l q n = Done (set_elem l q (with_next n c)).
Proof. intros Hq Hn Hr. unfold SetNext, elem. rewrite Hq. simpl. rewrite Hn, Hr. by destruct n. Qed.

Lemma SetPrev_live l q c e p : elems l !! q = Some c → prev c = Some e → prevReleased c = true →
  SetPrev l q p = Done (set_elem l q (with_prev p c)).
Proof. intros Hq Hn Hr. unfold SetPrev, elem. rewrite Hq. simpl. rewrite Hn, Hr. by destruct p. Qed.

Lemma SetRemoved_live l e xs k v : elems l !! e = Some (live_elem xs k v) →
  SetRemoved l e = Done (set_elem l e (mkCElement (id_before xs k) true (id_at xs (S k)) true true v)).
Proof. intros He. unfold SetRemoved, elem. rewrite He. simpl. by destruct (id_before xs k), (id_at xs (S k)). Qed.

(** What [Remove] does to the store: the neighbours are linked to each other. *)
Definition alter_opt {B} (f : B → B) (o : option nat) (m : gmap nat B) : gmap nat B :=
  match o with Some q => alter f q m | None => m end.
Definition unlinked (xs : list (nat * A)) (k e : nat) (v : A) (m : gmap nat (CElement A)) : gmap nat (CElement A) :=
  let p := id_before xs k in
  let n := id_at xs (S k) in
  <[e := mkCElement p true n true true v]> (alter_opt (with_prev p) n (alter_opt (with_next n) p m)).

Lemma lookup_alter_opt {B} (f : B → B) o (m : gmap nat B) i :
  alter_opt f o m !! i = if decide (o = Some i) then f <$> m !! i else m !! i.
Proof.
  unfold alter_opt. destruct o as [q|]; [|by rewrite decide_False]. case_decide as Hq.
  - injection Hq as <-. by rewrite lookup_alter_eq.
  - rewrite lookup_alter_ne; [done|]. congruence.
Qed.

Lemma id_before_pos l xs k j i : rep l xs → id_at xs j = Some i → id_before xs k = Some i ↔ S j = k.
Proof.
  intros R Hj. destruct k as [|k]; simpl; [done|]. split; [|intros [= ->]; done].
  intros Hk. f_equal. by apply (id_at_inj _ _ _ _ _ R Hj).
Qed.

Lemma unlinked_live l xs k e v : rep l xs → xs !! k = Some (e, v) →
  ∀ j i w, delete k xs !! j = Some (i, w) → unlinked xs k e v (elems l) !! i = Some (live_elem (delete k xs) j w).
Proof.
  intros R Hk j i w Hj. set (j' := if decide (j < k)%nat then j else S j).
  assert (xs !! j' = Some (i, w)) as Hj'.
  { unfold j'. case_decide; [by rewrite list_lookup_delete_lt in Hj|]. by rewrite list_lookup_delete_ge in Hj by lia. }
  assert (id_at xs j' = Some i) as Hid by (apply id_at_Some; eauto).
  assert (id_at xs k = Some e) as Hide by (apply id_at_Some; eauto).
  assert (j' ≠ k) as Hjk by (unfold j'; case_decide; lia).
  assert (e ≠ i) as Hei by (intros ->; by apply Hjk, (id_at_inj _ _ _ _ _ R Hid)).
  unfold unlinked. rewrite lookup_insert_ne by done. rewrite !lookup_alter_opt, (rep_live _ _ R _ _ _ Hj').
  rewrite live_elem_delete. fold j'. unfold live_elem. simpl.
  destruct (decide (j = k)) as [Hjk'|Hjk'].
  - assert (j' = S k) as E by (unfold j'; rewrite decide_False by lia; lia). rewrite E in *.
    rewrite (decide_True (P := id_at xs (S k) = Some i)) by done.
    rewrite decide_False by (rewrite (id_before_pos _ _ _ _ _ R Hid); lia).
    rewrite decide_False by lia. done.
  - rewrite (decide_False (P := id_at xs (S k) = Some i)).
    2: { intros Hn. assert (S k = j') by (by apply (id_at_inj _ _ _ _ _ R Hn)). unfold j' in *. case_decide; lia. }
    destruct (decide (S j = k)) as [Hs|Hs].
    + assert (j' = j) as E by (unfold j'; by rewrite decide_True by lia). rewrite E in *.
      rewrite decide_True by (rewrite (id_before_pos _ _ _ _ _ R Hid); lia). done.
    + rewrite decide_False; [done|]. rewrite (id_before_pos _ _ _ _ _ R Hid). unfold j'. case_decide; lia.
Qed.

Lemma id_before_None xs k x : xs !! k = Some x → id_before xs k = None ↔ k = 0%nat.
Proof.
  intros Hk%lookup_lt_Some. destruct k; simpl; [done|]. rewrite id_at_None. split; lia.
Qed.

(** The pointers that are set belong to the neighbours. *)
Lemma prev_next l xs k e v q : rep l xs → xs !! k = Some (e, v) → id_before xs k = Some q →
  ∃ c, elems l !! q = Some c ∧ next c = Some e ∧ nextReleased c = true.
Proof.
  intros R Hk Hq. destruct k as [|k]; [done|]. simpl in Hq. apply id_at_Some in Hq as [w Hw].
  exists (live_elem xs k w). split; [by apply (rep_live _ _ R)|]. simpl.
  assert (id_at xs (S k) = Some e) as -> by (apply id_at_Some; eauto). done.
Qed.

Lemma next_prev l xs k e v q : rep l xs → xs !! k = Some (e, v) → id_at xs (S k) = Some q →
  ∃ c, elems l !! q = Some c ∧ prev c = Some e ∧ prevReleased c = true.
Proof.
  intros R Hk [w Hw]%id_at_Some. exists (live_elem xs (S k) w). split; [by apply (rep_live _ _ R)|]. simpl.
  assert (id_at xs k = Some e) as -> by (apply id_at_Some; eauto). done.
Qed.

Lemma unlink_prev l l0 xs k e v : rep l xs → xs !! k = Some (e, v) → elems l0 = elems l →
  (match id_before xs k with None => Done (set_head l0 (id_at xs (S k))) | Some q => SetNext l0 q (id_at xs (S k)) end) =
  Done (mkCList (alter_opt (with_next (id_at xs (S k))) (id_before xs k) (elems l0)) (fresh l0) (released l0)
    (if decide (k = 0%nat) then id_at xs 1 else lHead l0) (lTail l0) (curLen l0) (maxLen l0)).
Proof.
  intros R Hk El. pose proof (id_before_None _ _ _ Hk) as Hp. destruct (id_before xs k) as [q|] eqn:E.
  - destruct (prev_next _ _ _ _ _ _ R Hk E) as (c & Hc & Hn & Hr). rewrite <- El in Hc.
    rewrite (SetNext_live _ _ _ _ _ Hc Hn Hr). rewrite decide_False by (rewrite <- Hp; done).
    unfold set_elem, alter_opt. do 2 f_equal. apply map_eq. intros i. destruct (decide (i = q)) as [->|].
    + by rewrite lookup_insert_eq, lookup_alter_eq, Hc.
    + by rewrite lookup_insert_ne, lookup_alter_ne by done.
  - assert (k = 0%nat) as -> by (by apply Hp). done.
Qed.

Lemma unlink_next l0 xs k e v : xs !! k = Some (e, v) →
  (∀ q, id_at xs (S k) = Some q → ∃ c, elems l0 !! q = Some c ∧ prev c = Some e ∧ prevReleased c = true) →
  (match id_at xs (S k) with None => Done (set_tail l0 (id_before xs k)) | Some q => SetPrev l0 q (id_before xs k) end) =
  Done (mkCList (alter_opt (with_prev (id_before xs k)) (id_at xs (S k)) (elems l0)) (fresh l0) (released l0)
    (lHead l0) (if decide (S k = length xs) then id_before xs k else lTail l0) (curLen l0) (maxLen l0)).
Proof.
  intros Hk Hq. pose proof (lookup_lt_Some _ _ _ Hk) as Hlt. pose proof (id_at_None xs (S k)) as Hn.
  destruct (id_at xs (S k)) as [q|].
  - destruct (Hq q eq_refl) as (c & Hc & Hp & Hr). rewrite (SetPrev_live _ _ _ _ _ Hc Hp Hr).
    rewrite decide_False by (intros ?; assert (length xs ≤ S k)%nat as ?%Hn by lia; done).
    unfold set_elem, alter_opt. do 2 f_equal. apply map_eq. intros i. destruct (decide (i = q)) as [->|].
    + by rewrite lookup_insert_eq, lookup_alter_eq, Hc.
    + by rewrite lookup_insert_ne, lookup_alter_ne by done.
  - rewrite decide_True; [done|]. assert (length xs ≤ S k)%nat by (by apply Hn). lia.
Qed.

Lemma Remove_store l xs k e v : rep l xs → xs !! k = Some (e, v) →
  Remove l e = Done (mkCList (unlinked xs k e v (elems l)) (fresh l) (if curLen l =? 1 then false else released l)
    (if decide (k = 0%nat) then id_at xs 1 else lHead l) (if decide (S k = length xs) then id_before xs k else lTail l) (curLen l - 1) (maxLen l)).
Proof.
  intros R Hk. pose proof (rep_live _ _ R _ _ _ Hk) as He. pose proof (lookup_lt_Some _ _ _ Hk) as Hlt.
  assert (id_at xs k = Some e) as Hide by (apply id_at_Some; eauto).
  unfold Remove, Prev, Next, elem. rewrite He. simpl.
  assert (∃ h, lHead l = Some h ∧ (k = 0%nat → h = e)) as (h & Hh & Hhe).
  { rewrite (rep_head _ _ R). destruct (id_at xs 0) as [h|] eqn:E; [|apply id_at_None in E; lia]. exists h. split; [done|]. intros ->. congruence. }
  assert (∃ t, lTail l = Some t ∧ (id_at xs (S k) = None → t = e)) as (t & Ht & Hte).
  { rewrite (rep_tail _ _ R), last_id. destruct (length xs) as [|n] eqn:E; [lia|]. simpl.
    destruct (id_at xs n) as [t|] eqn:E2; [|apply id_at_None in E2; lia]. exists t. split; [done|].
    intros Hn%id_at_None. assert (n = k) as -> by lia. congruence. }
  rewrite Hh, Ht.
  replace (bool_decide (id_before xs k = None) && bool_decide (h ≠ e)) with false.
  2: { symmetry. apply andb_false_iff. destruct (id_before xs k) eqn:E; [by left|]. right. apply bool_decide_eq_false.
       intros Hn. by apply Hn, Hhe, (id_before_None _ _ _ Hk). }
  replace (bool_decide (id_at xs (S k) = None) && bool_decide (t ≠ e)) with false.
  2: { symmetry. apply andb_false_iff. destruct (id_at xs (S k)) eqn:E; [by left|]. right. apply bool_decide_eq_false. intros Hn. by apply Hn, Hte. }
  rewrite (unlink_prev l _ _ _ _ _ R Hk) by done. simpl.
  rewrite (unlink_next _ _ _ _ _ Hk); simpl.
  2: { intros q Hq. destruct (next_prev _ _ _ _ _ _ R Hk Hq) as (c & Hc & ? & ?). rewrite lookup_alter_opt, Hc.
       case_decide; simpl; eauto. }
  rewrite (SetRemoved_live _ _ xs k v); [by rewrite ?Hh, ?Ht|]. simpl. rewrite !lookup_alter_opt.
  rewrite !decide_False; [done|..].
  - rewrite (id_before_pos _ _ _ _ _ R Hide). lia.
  - intros E. pose proof (id_at_inj _ _ _ _ _ R E Hide). lia.
Qed.

Lemma Remove_rep l xs k e v : rep l xs → xs !! k = Some (e, v) →
  ∃ l', Remove l e = Done l' ∧ rep l' (delete k xs) ∧ fresh l' = fresh l ∧ maxLen l' = maxLen l ∧
    (∃ p, elems l' !! e = Some (mkCElement p true (id_at xs (S k)) true true v)).
Proof.
  intros R Hk. pose proof (lookup_lt_Some _ _ _ Hk) as Hlt. rewrite (Remove_store _ _ _ _ _ R Hk). eexists. split; [done|].
  assert (∃ p, unlinked xs k e v (elems l) !! e = Some (mkCElement p true (id_at xs (S k)) true true v)) as He.
  { unfold unlinked. rewrite lookup_insert_eq. eauto. }
  split; [|done]. apply (remove_intro l _ _ _ e v R Hk); simpl; try done.
  - by apply (unlinked_live l).
  - intros i Hi. unfold unlinked. rewrite lookup_insert_ne.
    2: { intros <-. apply (Hi k), id_at_Some. eauto. }
    rewrite !lookup_alter_opt, !decide_False; [done| |].
    + destruct k; [done|]. apply Hi.
    + apply Hi.
  - rewrite (rep_head _ _ R), id_at_delete. repeat case_decide; try done; lia.
  - rewrite (delete_last _ _ _ Hk), (rep_tail _ _ R). done.
Qed.

Lemma delete_filter l xs k e v : rep l xs → xs !! k = Some (e, v) → delete k xs = filter (λ x, x.1 ≠ e) xs.
Proof.
  intros R Hk. assert (∀ j i w, xs !! j = Some (i, w) → i = e → j = k) as Huniq.
  { intros j i w Hj ->. apply (id_at_inj _ _ _ _ e R); apply id_at_Some; eauto. }
  clear R. revert k Hk Huniq. induction xs as [|[i w] xs IH]; intros k Hk Huniq; [done|]. destruct k as [|k]; simpl.
  - injection Hk as -> ->. rewrite filter_cons_False by (simpl; tauto). symmetry. apply filter_keeps.
    intros [i w] [j Hj]%list_elem_of_lookup Hi. specialize (Huniq (S j) _ _ Hj Hi). lia.
  - rewrite filter_cons_True by (simpl; intros ->; specialize (Huniq 0%nat e w eq_refl eq_refl); lia). f_equal.
    apply IH; [done|]. intros j i' w' Hj Hi. specialize (Huniq (S j) _ _ Hj Hi). lia.
Qed.

Lemma rep_elem l xs k i v : rep l xs → xs !! k = Some (i, v) → elem l i = Done (live_elem xs k v).
Proof. intros R Hk. unfold elem. by rewrite (rep_live _ _ R _ _ _ Hk). Qed.

Lemma rep_Next l xs k i : rep l xs → id_at xs k = Some i → Next l i = Done (id_at xs (S k)).
Proof. intros R [v Hk]%id_at_Some. unfold Next. by rewrite (rep_elem _ _ _ _ _ R Hk). Qed.

Lemma detach_rep l xs i c c' : rep l xs → elems l !! i = Some c → removed c = true → removed c' = true →
  prevReleased c' = prevReleased c → nextReleased c' = nextReleased c → (next c' = next c ∨ next c' = None) →
  rep (set_elem l i c') xs.
Proof.
  intros R Hi Hrm Hrm' Hp Hn Hx.
  assert (∀ k w, xs !! k = Some (i, w) → False) as Hout.
  { intros k w Hk. rewrite (rep_live _ _ R _ _ _ Hk) in Hi. injection Hi as <-. done. }
  destruct R as [Rs Rl Rd Rf Rh Rt Rc Rr]. split; try done; simpl.
  - intros k j v Hk. rewrite lookup_insert_ne; [by apply Rl|]. intros <-. by apply (Hout k v).
  - intros j c0. destruct (decide (i = j)) as [->|]; [|rewrite lookup_insert_ne by done; apply Rd].
    rewrite lookup_insert_eq. intros [= <-] Hk. destruct (Rd _ _ Hi Hk) as (? & ? & ? & Hd).
    split; [done|]. split; [by rewrite Hp|]. split; [by rewrite Hn|]. intros q Hq. apply Hd. destruct Hx; congruence.
  - intros j. rewrite <- Rf. destruct (decide (i = j)) as [->|]; [by rewrite lookup_insert_eq, Hi|by rewrite lookup_insert_ne].
Qed.

(** ** The specification: a list of elements *)

Inductive clist_op : Type := OPush (v : A) | ORemove (e : nat) | ODetachPrev (e : nat) | ODetachNext (e : nat).

Definition run_op l (o : clist_op) : outcome (CList A) :=
  match o with
  | OPush v => snd <$> PushBack l v
  | ORemove e => Remove l e
  | ODetachPrev e => DetachPrev l e
  | ODetachNext e => DetachNext l e
  end.

(** [(n, xs)]: how many elements have been allocated, and those in the list.  Only elements of
    the list are removed, only removed elements are detached, and [max] is not exceeded. *)
Inductive spec_op (max : Z) : nat * list (nat * A) → clist_op → nat * list (nat * A) → Prop :=
| SPush n xs v : zlen xs < max → spec_op max (n, xs) (OPush v) (S n, xs ++ [(n, v)])
| SRemove n xs e v : (e, v) ∈ xs → spec_op max (n, xs) (ORemove e) (n, filter (λ x, x.1 ≠ e) xs)
| SDetachPrev n xs e : (e < n)%nat → e ∉ xs.*1 → spec_op max (n, xs) (ODetachPrev e) (n, xs)
| SDetachNext n xs e : (e < n)%nat → e ∉ xs.*1 → spec_op max (n, xs) (ODetachNext e) (n, xs).

Inductive spec_run (max : Z) : nat * list (nat * A) → list clist_op → nat * list (nat * A) → Prop :=
| SNil s : spec_run max s [] s
| SCons s o s1 os s2 : spec_op max s o s1 → spec_run max s1 os s2 → spec_run max s (o :: os) s2.

Fixpoint run_ops l (os : list clist_op) : outcome (CList A) :=
  match os with [] => Done l | o :: os => l ← run_op l o; run_ops l os end.

Lemma dead_lookup l xs e : rep l xs → (e < fresh l)%nat → e ∉ xs.*1 → ∃ c, elems l !! e = Some c ∧ removed c = true.
Proof.
  intros R [c Hc]%(rep_fresh _ _ R) Hout. exists c. split; [done|]. apply (rep_dead _ _ R _ _ Hc).
  intros k [v Hv]%id_at_Some. apply Hout. apply list_elem_of_fmap. exists (e, v). split; [done|]. by apply list_elem_of_lookup_2 in Hv.
Qed.

Lemma op_simulation l n xs o n' xs' : rep l xs → fresh l = n → spec_op (maxLen l) (n, xs) o (n', xs') →
  ∃ l', run_op l o = Done l' ∧ rep l' xs' ∧ fresh l' = n' ∧ maxLen l' = maxLen l.
Proof.
  intros R Hf Hs. inversion Hs as [? ? v Hmax|? ? e v He|? ? e He Hout|? ? e He Hout]; subst; simpl.
  - destruct (PushBack_rep l xs v R) as (l' & -> & ? & ? & ?); [done|]. eexists. split; [done|]. done.
  - apply list_elem_of_lookup in He as [k Hk]. destruct (Remove_rep _ _ _ _ _ R Hk) as (l' & -> & Hr & ? & ? & _).
    exists l'. split; [done|]. split; [|split; congruence]. by rewrite <- (delete_filter _ _ _ _ _ R Hk).
  - destruct (dead_lookup _ _ _ R He Hout) as (c & Hc & Hrm). unfold DetachPrev, elem. rewrite Hc. simpl. rewrite Hrm. simpl.
    eexists. split; [done|]. split; [|done]. apply (detach_rep _ _ _ c); simpl; auto.
  - destruct (dead_lookup _ _ _ R He Hout) as (c & Hc & Hrm). unfold DetachNext, elem. rewrite Hc. simpl. rewrite Hrm. simpl.
    eexists. split; [done|]. split; [|done]. apply (detach_rep _ _ _ c); simpl; auto.
Qed.

Lemma run_simulation os : ∀ l n xs n' xs', rep l xs → fresh l = n → spec_run (maxLen l) (n, xs) os (n', xs') →
  ∃ l', run_ops l os = Done l' ∧ rep l' xs' ∧ fresh l' = n' ∧ maxLen l' = maxLen l.
Proof.
  induction os as [|o os IH]; intros l n xs n' xs' R Hf Hr; inversion Hr as [|? ? [n1 xs1] ? ? Ho Hrest]; subst; simpl; [eauto|].
  destruct (op_simulation _ _ _ _ _ _ R eq_refl Ho) as (l1 & -> & R1 & Hf1 & Hm). simpl.
  rewrite <- Hm in Hrest |- *. by apply (IH l1 n1 xs1).
Qed.

(** A reader is never left waiting, and never skips an element. *)
Definition reader_ok l xs (i : nat) : Prop :=
  ∃ c, elem l i = Done c ∧
    (nextReleased c = true ↔ NextWait_turn c ≠ None) ∧ (prevReleased c = true ↔ PrevWait_turn c ≠ None) ∧
    (removed c = true ↔ i ∉ xs.*1) ∧
    (∀ j, next c = Some j → (i < j < fresh l)%nat ∧ ∀ x, x ∈ xs.*1 → (i < x)%nat → (j ≤ x)%nat).

Lemma elem_of_ids xs i : i ∈ xs.*1 ↔ ∃ k, id_at xs k = Some i.
Proof.
  rewrite list_elem_of_lookup. unfold id_at. split; intros [k Hk]; exists k; [by rewrite list_lookup_fmap in Hk|by rewrite list_lookup_fmap].
Qed.

Lemma rep_reader_ok l xs i : rep l xs → (i < fresh l)%nat → reader_ok l xs i.
Proof.
  intros R Hi. destruct (in_or_out xs i) as [(k & v & Hk)|Hout].
  - exists (live_elem xs k v). split; [by apply (rep_elem _ _ _ _ _ R)|]. unfold NextWait_turn, PrevWait_turn, live_elem. simpl. rewrite !orb_false_r.
    assert (id_at xs k = Some i) as Hid by (apply id_at_Some; eauto).
    split; [by destruct (id_at xs (S k))|]. split; [by destruct (id_before xs k)|]. split; [split; [done|]|].
    + intros Hn. exfalso. apply Hn, elem_of_ids. eauto.
    + intros j Hj. split; [split; [by apply (rep_sorted _ _ R k (S k)); [lia|..]|by apply (rep_lt _ _ _ _ R Hj)]|].
      intros x [q Hq]%elem_of_ids Hix. destruct (decide (q ≤ k)%nat).
      { destruct (decide (q = k)) as [->|]; [rewrite Hid in Hq; injection Hq; lia|].
        pose proof (rep_sorted _ _ R q k _ _ ltac:(lia) Hq Hid). lia. }
      destruct (decide (q = S k)) as [->|]; [rewrite Hq in Hj; injection Hj; lia|].
      pose proof (rep_sorted _ _ R (S k) q _ _ ltac:(lia) Hj Hq). lia.
  - apply (rep_fresh _ _ R) in Hi as [c Hc]. destruct (rep_dead _ _ R _ _ Hc Hout) as (Hrm & Hp & Hn & Hx).
    exists c. unfold elem. rewrite Hc. split; [done|]. unfold NextWait_turn, PrevWait_turn. rewrite Hrm, !orb_true_r.
    split; [done|]. split; [done|]. split; [split; [|done]|].
    + intros _ [k Hk]%elem_of_ids. by apply (Hout k).
    + intros j Hj. destruct (Hx _ Hj) as [? Hg]. split; [done|]. intros x [q Hq]%elem_of_ids. by apply (Hg q).
Qed.

Lemma walk_rep l xs k fuel : rep l xs → (length xs - k < fuel)%nat → walk fuel l (id_at xs k) = Done (drop k xs).
Proof.
  intros R. revert k. induction fuel as [|fuel IH]; intros k Hf; [lia|].
  destruct (id_at xs k) as [i|] eqn:Hk; simpl.
  - apply id_at_Some in Hk as [v Hk]. pose proof (lookup_lt_Some _ _ _ Hk). rewrite (rep_elem _ _ _ _ _ R Hk). simpl. rewrite IH by lia. simpl.
    by rewrite (drop_S _ _ _ Hk).
  - apply id_at_None in Hk. by rewrite drop_ge.
Qed.

(** C32: The linked list is a list.  Whatever elements are pushed, removed and detached, the
    operations do not panic, the length and both ends are those of the list in the
    specification, the loop from the front visits exactly its elements in order, and a reader
    that holds any element ever allocated, in the list or removed, waits only as long as
    there is nothing to read and is never led past an element of the list. *)
Theorem clist_refines_list max os n xs : spec_run max (0%nat, []) os (n, xs) →
  ∃ l, run_ops (newWithMax max) os = Done l ∧ Len l = zlen xs ∧ Front l = id_at xs 0 ∧ Back l = fst <$> last xs ∧
    walk (S (Z.to_nat (Len l))) l (Front l) = Done xs ∧ ∀ i, (i < n)%nat → reader_ok l xs i.
Proof.
  intros Hr. destruct (run_simulation os (newWithMax max) 0 [] n xs (rep_New max) eq_refl Hr) as (l & Hl & R & Hf & _).
  exists l. split; [done|]. split; [apply (rep_len _ _ R)|]. split; [apply (rep_head _ _ R)|]. split; [apply (rep_tail _ _ R)|]. split.
  - unfold Front, Len. rewrite (rep_head _ _ R), (rep_len _ _ R). apply (walk_rep _ _ 0 _ R). unfold zlen. lia.
  - intros i Hi. apply (rep_reader_ok _ _ _ R). lia.
Qed.

End lemmas.

(** Three elements are pushed, the middle one is removed and detached from its predecessor. *)
Definition ex_ops : list (clist_op (A := Z)) := [OPush 10; OPush 11; OPush 12; ORemove 1; ODetachPrev 1].

Lemma ex_ops_run : spec_run 5 (0%nat, []) ex_ops (3%nat, [(0%nat, 10); (2%nat, 12)]).
Proof.
  repeat (eapply SCons; [constructor; first [by_decide|lia]|]; simpl).
  eapply SCons; [apply (SRemove _ _ _ 1%nat 11); by_decide|]. simpl. eapply SCons; [constructor; [lia|by_decide]|]. apply SNil.
Qed.

Lemma clist_refines_list_witness :
  ∃ l, run_ops (newWithMax 5) ex_ops = Done l ∧ Len l = 2 ∧ Front l = Some 0%nat ∧ Back l = Some 2%nat ∧
    walk (S (Z.to_nat (Len l))) l (Front l) = Done [(0%nat, 10); (2%nat, 12)] ∧ ∀ i, (i < 3)%nat → reader_ok l [(0%nat, 10); (2%nat, 12)] i.
Proof. apply (clist_refines_list 5 ex_ops 3 [(0%nat, 10); (2%nat, 12)]). exact ex_ops_run. Defined.

(** A removed element that was not the last one still leads to its successor: the mempool's
    iterator, whose comment says that [Next] then returns nil, goes on from there. *)
Theorem removed_entry_leads_on :
  (l ← run_ops (newWithMax 5) ex_ops; r ← Removed l 1; n ← Next l 1; Done (r, n)) = Done (true, Some 2%nat).
Proof. reflexivity. Qed.

End CList.
