(* ===== verification/TxCache.v ===== *)
(** * TxCache: the transactions the mempool has seen

    [mempool/cache.go]: a least-recently-used cache of transaction keys, a map beside a list, and
    the cache that does nothing.  The list of the Go library is a list of elements with their
    keys; an element is named by the order in which it was made, as the map holds pointers to
    elements. *)

From S2P Require Import Prelude Merkle.

Local Open Scope Z_scope.

Module TxCache.

Section cache.
Context `{Merkle.HashOps}.

Definition TxKey : Type := list Z.
Definition tx_Key (tx : list Z) : TxKey := Merkle.Sum tx.

Record LRUTxCache := mkLRU { lsize : Z; cacheMap : gmap TxKey nat; llist : list (nat * TxKey); lnext : nat }.

Definition NewLRUTxCache (cacheSize : Z) : LRUTxCache := mkLRU cacheSize ∅ [] 0.
Definition lru_Reset (c : LRUTxCache) : LRUTxCache := mkLRU (lsize c) ∅ [] (lnext c).

Definition list_without (e : nat) (l : list (nat * TxKey)) : list (nat * TxKey) := filter (λ x, x.1 ≠ e) l.
Definition list_MoveToBack (e : nat) (l : list (nat * TxKey)) : list (nat * TxKey) := list_without e l ++ filter (λ x, x.1 = e) l.

Definition lru_Push (c : LRUTxCache) (tx : list Z) : LRUTxCache * bool :=
  let key := tx_Key tx in
  match cacheMap c !! key with
  | Some moved => (mkLRU (lsize c) (cacheMap c) (list_MoveToBack moved (llist c)) (lnext c), false)
  | None =>
      let '(m, l) :=
        if lsize c <=? zlen (llist c) then
          match llist c with
          | [] => (cacheMap c, [])
          | (front, frontKey) :: _ => (delete frontKey (cacheMap c), list_without front (llist c))
          end
        else (cacheMap c, llist c) in
      (mkLRU (lsize c) (<[key := lnext c]> m) (l ++ [(lnext c, key)]) (S (lnext c)), true)
  end.

Definition lru_Remove (c : LRUTxCache) (tx : list Z) : LRUTxCache :=
  let key := tx_Key tx in
  let l := match cacheMap c !! key with Some e => list_without e (llist c) | None => llist c end in
  mkLRU (lsize c) (delete key (cacheMap c)) l (lnext c).

Definition lru_Has (c : LRUTxCache) (tx : list Z) : bool := bool_decide (is_Some (cacheMap c !! tx_Key tx)).

(** The two implementations of the interface. *)
Inductive Cache : Type := LRU (c : LRUTxCache) | NopTxCache.

Definition cache_Reset (c : Cache) : Cache := match c with LRU c => LRU (lru_Reset c) | NopTxCache => NopTxCache end.
Definition cache_Push (c : Cache) (tx : list Z) : Cache * bool :=
  match c with LRU c => let '(c, b) := lru_Push c tx in (LRU c, b) | NopTxCache => (NopTxCache, true) end.
Definition cache_Remove (c : Cache) (tx : list Z) : Cache := match c with LRU c => LRU (lru_Remove c tx) | NopTxCache => NopTxCache end.
Definition cache_Has (c : Cache) (tx : list Z) : bool := match c with LRU c => lru_Has c tx | NopTxCache => false end.

(** ** The specification: the keys, least recently used first *)

Record lru_rep (c : LRUTxCache) (ks : list TxKey) : Prop := mk_lru_rep {
  lru_keys : (llist c).*2 = ks;
  lru_nodup : NoDup ks;
  lru_ids : NoDup (llist c).*1;
  lru_map : ∀ k i, cacheMap c !! k = Some i ↔ (i, k) ∈ llist c;
  lru_next : ∀ i k, (i, k) ∈ llist c → (i < lnext c)%nat }.

Definition without (k : TxKey) (ks : list TxKey) : list TxKey := filter (λ x, x ≠ k) ks.

Definition spec_push (size : Z) (ks : list TxKey) (k : TxKey) : list TxKey * bool :=
  if decide (k ∈ ks) then (without k ks ++ [k], false)
  else ((if size <=? zlen ks then tail ks else ks) ++ [k], true).

End cache.

Section lemmas.
Context `{Merkle.HashOps}.

Lemma lru_rep_New n : lru_rep (NewLRUTxCache n) [].
Proof.
  split; simpl; [done|constructor|constructor|intros k i; rewrite lookup_empty; split; [done|]; by intros ?%not_elem_of_nil|].
  by intros i k ?%not_elem_of_nil.
Qed.

Lemma pair_unique {X Y} (l : list (X * Y)) x y y' : NoDup l.*1 → (x, y) ∈ l → (x, y') ∈ l → y = y'.
Proof.
  induction l as [|[a b] l IH]; [by intros _ ?%not_elem_of_nil|]. simpl. rewrite NoDup_cons. intros [Hn Hd].
  assert (∀ z, (a, z) ∈ l → False) by (intros z Hz; apply Hn, list_elem_of_fmap; by exists (a, z)).
  rewrite !elem_of_cons. naive_solver.
Qed.

Lemma key_unique {X Y} (l : list (X * Y)) x x' y : NoDup l.*2 → (x, y) ∈ l → (x', y) ∈ l → x = x'.
Proof.
  induction l as [|[a b] l IH]; [by intros _ ?%not_elem_of_nil|]. simpl. rewrite NoDup_cons. intros [Hn Hd].
  assert (∀ z, (z, b) ∈ l → False) by (intros z Hz; apply Hn, list_elem_of_fmap; by exists (z, b)).
  rewrite !elem_of_cons. naive_solver.
Qed.

Lemma lru_rep_elem c ks k : lru_rep c ks → k ∈ ks ↔ is_Some (cacheMap c !! k).
Proof.
  intros R. rewrite <- (lru_keys _ _ R), list_elem_of_fmap. split.
  - intros ([i k'] & -> & Hi). exists i. by apply (lru_map _ _ R).
  - intros [i Hi%(lru_map _ _ R)]. by exists (i, k).
Qed.

(** Removing an element removes its key. *)
Lemma without_elem c ks i k : lru_rep c ks → (i, k) ∈ llist c → (list_without i (llist c)).*2 = without k ks.
Proof.
  intros R Hi. unfold list_without, without. rewrite <- (lru_keys _ _ R).
  assert (∀ j q, (j, q) ∈ llist c → (j ≠ i ↔ q ≠ k)) as Hiff.
  { intros j q Hj. split; intros Hn ->; apply Hn.
    - apply (key_unique (llist c) _ _ k); [by rewrite (lru_keys _ _ R); apply (lru_nodup _ _ R)|done..].
    - by apply (pair_unique (llist c) i); [apply (lru_ids _ _ R)|..]. }
  clear Hi. induction (llist c) as [|[j q] l IH]; [done|]. simpl.
  assert (j ≠ i ↔ q ≠ k) as Hq by (apply Hiff; left). rewrite !filter_cons. simpl.
  assert ((filter (λ x, x.1 ≠ i) l).*2 = filter (λ x, x ≠ k) l.*2) as IH' by (apply IH; intros; apply Hiff; by right).
  destruct (decide (q ≠ k)), (decide (j ≠ i)); simpl; first [exact IH'|exact (f_equal (cons q) IH')|exfalso; tauto].
Qed.

Lemma elem_of_without i l j k : (j, k) ∈ list_without i l ↔ j ≠ i ∧ (j, k) ∈ l.
Proof. unfold list_without. by rewrite list_elem_of_filter. Qed.

Lemma remove_rep c ks i k m : lru_rep c ks → cacheMap c !! k = Some i → m = delete k (cacheMap c) →
  lru_rep (mkLRU (lsize c) m (list_without i (llist c)) (lnext c)) (without k ks).
Proof.
  intros R Hk ->. pose proof (proj1 (lru_map _ _ R _ _) Hk) as Hi. split; simpl.
  - by apply without_elem.
  - apply NoDup_filter, (lru_nodup _ _ R).
  - eapply sublist_NoDup; [apply (lru_ids _ _ R)|]. apply fmap_sublist, sublist_filter.
  - intros q j. rewrite lookup_delete_Some, (lru_map _ _ R), elem_of_without. split; intros [Hn Hj]; (split; [|done]); intros ->; apply Hn.
    + by apply (pair_unique (llist c) i); [apply (lru_ids _ _ R)|..].
    + apply (key_unique (llist c) _ _ q); [by rewrite (lru_keys _ _ R); apply (lru_nodup _ _ R)|done..].
  - intros j q [_ Hj]%elem_of_without. by apply (lru_next _ _ R) in Hj.
Qed.

Lemma push_new_rep n c ks k : lru_rep c ks → k ∉ ks →
  lru_rep (mkLRU n (<[k := lnext c]> (cacheMap c)) (llist c ++ [(lnext c, k)]) (S (lnext c))) (ks ++ [k]).
Proof.
  intros R Hk. split; simpl.
  - by rewrite fmap_app, (lru_keys _ _ R).
  - apply NoDup_app. split; [apply (lru_nodup _ _ R)|]. split; [|apply NoDup_singleton]. intros x Hx ->%list_elem_of_singleton. done.
  - rewrite fmap_app. apply NoDup_app. split; [apply (lru_ids _ _ R)|]. split; [|apply NoDup_singleton].
    intros x ([i q] & -> & Hi)%list_elem_of_fmap E%list_elem_of_singleton. apply (lru_next _ _ R) in Hi. simpl in *. lia.
  - intros q j. rewrite elem_of_app, list_elem_of_singleton, <- (lru_map _ _ R). destruct (decide (k = q)) as [->|Hn].
    + rewrite lookup_insert_eq. split; [intros [= <-]; by right|]. intros [Hj|[= ->]]; [|done].
      destruct Hk. apply (lru_rep_elem _ _ _ R). eauto.
    + rewrite lookup_insert_ne by done. split; [by left|]. intros [?|[= _ ->]]; [done|]. done.
  - intros i q. rewrite elem_of_app, list_elem_of_singleton. intros [Hi%(lru_next _ _ R)|[= -> _]]; lia.
Qed.

Lemma filter_one {X Y} `{EqDecision X} (l : list (X * Y)) i k : NoDup l.*1 → (i, k) ∈ l → filter (λ x, x.1 = i) l = [(i, k)].
Proof.
  induction l as [|[j q] l IH]; [by intros _ ?%not_elem_of_nil|]. simpl. rewrite NoDup_cons. intros [Hn Hd].
  assert (∀ z, (j, z) ∈ l → False) as Hj by (intros z Hz; apply Hn, list_elem_of_fmap; by exists (j, z)).
  rewrite elem_of_cons. intros [[= -> ->]|Hi].
  - rewrite filter_cons_True by done. f_equal. apply filter_none. intros [x y] Hx E. simpl in E. subst. by apply (Hj y).
  - rewrite filter_cons_False; [by apply IH|]. simpl. intros ->. by apply (Hj k).
Qed.

Lemma without_notin k ks : k ∉ ks → without k ks = ks.
Proof. intros Hk. apply filter_keeps. intros x Hx ->. done. Qed.

Lemma elem_of_without_key k ks x : x ∈ without k ks ↔ x ≠ k ∧ x ∈ ks.
Proof. unfold without. by rewrite list_elem_of_filter. Qed.

Lemma move_rep c ks i k : lru_rep c ks → cacheMap c !! k = Some i →
  lru_rep (mkLRU (lsize c) (cacheMap c) (list_MoveToBack i (llist c)) (lnext c)) (without k ks ++ [k]).
Proof.
  intros R Hk. pose proof (proj1 (lru_map _ _ R _ _) Hk) as Hi.
  assert (list_MoveToBack i (llist c) ≡ₚ llist c) as HP.
  { unfold list_MoveToBack, list_without. rewrite Permutation_app_comm, filter_app_complement. done. }
  split; simpl.
  - unfold list_MoveToBack. by rewrite fmap_app, (without_elem _ _ _ _ R Hi), (filter_one _ _ _ (lru_ids _ _ R) Hi).
  - apply NoDup_app. split; [apply NoDup_filter, (lru_nodup _ _ R)|]. split; [|apply NoDup_singleton].
    intros x [Hx _]%elem_of_without_key E%list_elem_of_singleton. done.
  - rewrite HP. apply (lru_ids _ _ R).
  - intros q j. rewrite HP. apply (lru_map _ _ R).
  - intros j q. rewrite HP. apply (lru_next _ _ R).
Qed.

Lemma lru_Push_spec c ks tx : lru_rep c ks → lsize c > 0 →
  ∃ c', lru_Push c tx = (c', (spec_push (lsize c) ks (tx_Key tx)).2) ∧ lru_rep c' (spec_push (lsize c) ks (tx_Key tx)).1 ∧ lsize c' = lsize c.
Proof.
  intros R Hs. unfold spec_push, lru_Push. pose proof (lru_rep_elem _ _ (tx_Key tx) R) as Hin. case_decide as Hk.
  - apply Hin in Hk as [i Hi]. rewrite Hi. eexists. split; [done|]. split; [|done]. by apply move_rep.
  - rewrite (proj2 (eq_None_not_Some _)) by (by rewrite <- Hin).
    assert (zlen (llist c) = zlen ks) as -> by (rewrite <- (lru_keys _ _ R); unfold zlen; by rewrite length_fmap).
    destruct (Z.leb_spec (lsize c) (zlen ks)).
    + destruct (llist c) as [|[f fk] rest] eqn:El.
      { pose proof (lru_keys _ _ R) as E. rewrite El in E. simpl in E. subst ks. unfold zlen in *. simpl in *. lia. }
      assert (ks = fk :: rest.*2) as Eks by (by rewrite <- (lru_keys _ _ R), El).
      assert (cacheMap c !! fk = Some f) as Hf by (apply (lru_map _ _ R); rewrite El; left). rewrite <- El.
      pose proof (remove_rep c ks f fk _ R Hf eq_refl) as R'.
      assert (without fk ks = tail ks) as Ew.
      { pose proof (lru_nodup _ _ R) as Hd. rewrite Eks in Hd |- *. apply NoDup_cons in Hd as [Hd _]. unfold without.
        rewrite filter_cons_False by tauto. by apply without_notin. }
      assert (tx_Key tx ∉ without fk ks) as Hk' by (rewrite elem_of_without_key; tauto).
      eexists. split; [done|]. split; [|done]. simpl. rewrite <- Ew. exact (push_new_rep (lsize c) _ _ _ R' Hk').
    + eexists. split; [done|]. split; [|done]. by apply push_new_rep.
Qed.

Lemma lru_Remove_spec c ks tx : lru_rep c ks → lru_rep (lru_Remove c tx) (without (tx_Key tx) ks).
Proof.
  intros R. unfold lru_Remove. destruct (cacheMap c !! tx_Key tx) as [i|] eqn:E; [by apply remove_rep|].
  rewrite without_notin by (rewrite (lru_rep_elem _ _ _ R), E; by intros []).
  rewrite delete_id by done. by destruct c.
Qed.

Lemma lru_Has_spec c ks tx : lru_rep c ks → lru_Has c tx = bool_decide (tx_Key tx ∈ ks).
Proof. intros R. unfold lru_Has. apply bool_decide_ext. symmetry. by apply lru_rep_elem. Qed.

(** ** Runs *)

Inductive cache_op : Type := CPush (tx : list Z) | CRemove (tx : list Z) | CReset.

Definition cache_step (c : LRUTxCache) (o : cache_op) : LRUTxCache :=
  match o with CPush tx => (lru_Push c tx).1 | CRemove tx => lru_Remove c tx | CReset => lru_Reset c end.
Definition cache_run (c : LRUTxCache) (os : list cache_op) : LRUTxCache := foldl cache_step c os.

Definition spec_step (size : Z) (ks : list TxKey) (o : cache_op) : list TxKey :=
  match o with CPush tx => (spec_push size ks (tx_Key tx)).1 | CRemove tx => without (tx_Key tx) ks | CReset => [] end.

Lemma zlen_without k ks : zlen (without k ks) ≤ zlen ks.
Proof. unfold zlen, without. pose proof (length_filter (λ x, x ≠ k) ks). lia. Qed.

Lemma zlen_without_in k ks : k ∈ ks → zlen (without k ks) < zlen ks.
Proof.
  intros Hk. unfold zlen, without. enough (length (filter (λ x, x ≠ k) ks) < length ks)%nat by lia.
  apply length_filter_lt with k; [done|tauto].
Qed.

Lemma spec_step_bound size ks o : size > 0 → zlen ks ≤ size → zlen (spec_step size ks o) ≤ size.
Proof.
  intros Hs Hb. destruct o as [tx|tx|]; simpl.
  - unfold spec_push. case_decide as Hk; simpl.
    + apply zlen_without_in in Hk. unfold zlen in *. rewrite length_app. simpl. lia.
    + destruct (Z.leb_spec size (zlen ks)); unfold zlen in *; rewrite length_app; simpl; [|lia].
      destruct ks; simpl in *; lia.
  - pose proof (zlen_without (tx_Key tx) ks). lia.
  - unfold zlen. simpl. lia.
Qed.

Lemma cache_step_spec c ks o : lru_rep c ks → lsize c > 0 →
  lru_rep (cache_step c o) (spec_step (lsize c) ks o) ∧ lsize (cache_step c o) = lsize c.
Proof.
  intros R Hs. destruct o as [tx|tx|]; simpl.
  - destruct (lru_Push_spec _ _ tx R Hs) as (c' & -> & ? & ?). done.
  - split; [by apply lru_Remove_spec|done].
  - split; [|done]. split; simpl; [done|constructor|constructor|intros k i; rewrite lookup_empty; split; [done|]; by intros ?%not_elem_of_nil|].
    by intros i k ?%not_elem_of_nil.
Qed.

Lemma cache_run_spec os : ∀ c ks, lru_rep c ks → lsize c > 0 → zlen ks ≤ lsize c →
  let ks' := foldl (spec_step (lsize c)) ks os in
  lru_rep (cache_run c os) ks' ∧ lsize (cache_run c os) = lsize c ∧ zlen ks' ≤ lsize c.
Proof.
  induction os as [|o os IH]; intros c ks R Hs Hb; [done|]. simpl. destruct (cache_step_spec c ks o R Hs) as [R' Hs'].
  pose proof (IH (cache_step c o) (spec_step (lsize c) ks o) R') as IH'. rewrite Hs' in IH'. apply IH'; [done|]. by apply spec_step_bound.
Qed.

(** The keys used more recently than [k] are in [O]. *)
Definition recent (O : gset TxKey) (k : TxKey) (ks : list TxKey) : Prop := ∃ a b, ks = a ++ k :: b ∧ ∀ x, x ∈ b → x ∈ O.

Lemma recent_without O k q ks : q ≠ k → recent O k ks → recent O k (without q ks).
Proof.
  intros Hq (a & b & -> & Hb). exists (without q a), (without q b). split.
  - unfold without. rewrite filter_app, filter_cons_True by done. done.
  - intros x [_ Hx]%elem_of_without_key. auto.
Qed.

Lemma recent_snoc O k q ks : q ∈ O → recent O k ks → recent O k (ks ++ [q]).
Proof.
  intros Hq (a & b & -> & Hb). exists a, (b ++ [q]). split; [by rewrite <- (assoc (++))|].
  intros x [?| ->%list_elem_of_singleton]%elem_of_app; auto.
Qed.

(** Only the least recently used key is dropped, and then at least [size] keys came after it. *)
Lemma recent_push (O : gset TxKey) k q (size : Z) (ks : list TxKey) : q ≠ k → q ∈ O → Z.of_nat (base.size O) < size → NoDup ks → zlen ks ≤ size → recent O k ks →
  recent O k (spec_push size ks q).1.
Proof.
  intros Hqk Hq HO Hd Hb Hr. unfold spec_push. case_decide as Hin; simpl; [by apply recent_snoc, recent_without|].
  apply recent_snoc; [done|]. destruct (Z.leb_spec size (zlen ks)) as [Hfull|]; [|done].
  destruct Hr as ([|x a] & b & -> & Hb'); [|by exists a, b]. exfalso. apply NoDup_cons in Hd as [_ Hd].
  assert (length (q :: b) ≤ base.size O)%nat as Hle.
  { rewrite <- (size_list_to_set (C := gset TxKey) (q :: b)).
    - apply subseteq_size. intros x. rewrite elem_of_list_to_set, elem_of_cons. intros [->|]; auto.
    - apply NoDup_cons. split; [|done]. intros ?. apply Hin. by right. }
  unfold zlen in *. simpl in *. lia.
Qed.

Lemma recent_step (O : gset TxKey) k (size : Z) (ks : list TxKey) o : Z.of_nat (base.size O) < size → NoDup ks → zlen ks ≤ size → recent O k ks →
  match o with CPush tx => tx_Key tx ≠ k ∧ tx_Key tx ∈ O | CRemove tx => tx_Key tx ≠ k | CReset => False end →
  recent O k (spec_step size ks o).
Proof. intros HO Hd Hb Hr Ho. destruct o as [tx|tx|]; simpl; [destruct Ho; by apply recent_push|by apply recent_without|done]. Qed.

Lemma retains_run (O : gset TxKey) tx os : ∀ c ks, lru_rep c ks → lsize c > 0 → Z.of_nat (base.size O) < lsize c →
  zlen ks ≤ lsize c → recent O (tx_Key tx) ks →
  Forall (λ o, match o with CPush t => tx_Key t ≠ tx_Key tx ∧ tx_Key t ∈ O | CRemove t => tx_Key t ≠ tx_Key tx | CReset => False end) os →
  lru_Has (cache_run c os) tx = true.
Proof.
  induction os as [|o os IH]; intros c ks R Hs HO Hb Hr Ha; simpl.
  - rewrite (lru_Has_spec _ _ _ R). apply bool_decide_eq_true. destruct Hr as (a & b & -> & _). apply elem_of_app. right. left.
  - apply Forall_cons in Ha as [Ho Ha]. destruct (cache_step_spec c ks o R) as [R' Hs']; [lia|].
    apply (IH _ (spec_step (lsize c) ks o)); rewrite ?Hs'; [done|done|done|by apply spec_step_bound| |done].
    apply recent_step; [done|apply (lru_nodup _ _ R)|done|done|done].
Qed.

(** The cache keeps what was seen last.  Whatever happened before, a transaction that is pushed
    is still in the cache as long as the others pushed after it are fewer than the cache's size
    and it is not itself removed; and the cache never holds more than its size. *)
Theorem cache_retains (size : Z) (before : list cache_op) (tx : list Z) (after : list cache_op) (O : gset TxKey) : size > 0 →
  Z.of_nat (base.size O) < size →
  Forall (λ o, match o with CPush t => tx_Key t ≠ tx_Key tx ∧ tx_Key t ∈ O | CRemove t => tx_Key t ≠ tx_Key tx | CReset => False end) after →
  let c := cache_run (NewLRUTxCache size) (before ++ CPush tx :: after) in
  lru_Has c tx = true ∧ zlen (llist c) ≤ size.
Proof.
  intros Hs HO Ha c. assert (zlen (llist c) ≤ size) as Hlen.
  { destruct (cache_run_spec (before ++ CPush tx :: after) (NewLRUTxCache size) [] (lru_rep_New size) Hs) as (R & _ & Hb); [unfold zlen; simpl; lia|].
    rewrite <- (lru_keys _ _ R) in Hb. unfold zlen in *. by rewrite length_fmap in Hb. }
  split; [|done]. clear Hlen. unfold c, cache_run. rewrite foldl_app.
  destruct (cache_run_spec before (NewLRUTxCache size) [] (lru_rep_New size) Hs) as (R & Hsz & Hb); [unfold zlen; simpl; lia|].
  cbn [lsize NewLRUTxCache] in *. fold (cache_run (NewLRUTxCache size) before). cbn [foldl].
  destruct (cache_step_spec _ _ (CPush tx) R) as [R1 Hs1]; [lia|]. rewrite Hsz in *.
  apply (retains_run O tx after _ _ R1); rewrite ?Hs1; [done|done|by apply spec_step_bound| |done].
  simpl. unfold spec_push. case_decide; simpl; eexists _, []; (split; [done|]); by intros x ?%not_elem_of_nil.
Qed.

End lemmas.

#[local] Existing Instance Merkle.toy_hash.

Lemma cache_retains_witness : lru_Has (cache_run (NewLRUTxCache 2) ([CPush [1]; CPush [2]] ++ CPush [3] :: [CPush [4]; CRemove [2]])) [3] = true.
Proof.
  apply (cache_retains 2 [CPush [1]; CPush [2]] [3] [CPush [4]; CRemove [2]] {[tx_Key [4]]}); [lia|rewrite size_singleton; lia|].
  repeat constructor; first [by_decide|set_solver].
Defined.

End TxCache.
