(* ===== verification/Mempool.v ===== *)
(** * Mempool: the pool of transactions

    [mempool/clist_mempool.go], [mempoolTx.go] and the filters of [mempool.go], over the linked
    list of [CList] and the cache of [TxCache].  A handler runs as one step; the application
    answers through a connection that is either local, where the callback runs at once, or
    asynchronous, where answers come later in the order of the requests.  The entry that an
    element of the list points to is a value beside the set of its senders, which is the only
    part of it that changes. *)

From S2P Require Import Prelude Merkle Block CList TxCache.
Import CList.CList TxCache.TxCache.

Local Open Scope Z_scope.

Module Mempool.

Local Notation Tx := (list Z).
Local Notation ID := string.

(** ** Data *)

Record MempoolConfig := mkMempoolConfig {
  cfgRecheck : bool; cfgSize : Z; MaxTxBytes : Z; MaxTxsBytes : Z; CacheSize : Z; KeepInvalidTxsInCache : bool }.

Record CheckTxResponse := mkCheckTxResponse { resCode : Z; resData : list Z; resLog : string; resGasWanted : Z; resCodespace : string }.
Definition CodeTypeOK : Z := 0.

Inductive mempool_error : Type :=
| ErrTxNotFound
| ErrTxInCache
| ErrTxInMempool
| ErrLateRecheckResponse
| ErrRecheckFull
| ErrInvalidTx (r : CheckTxResponse) (hash : list Z)
| ErrTxTooLarge (max actual : Z)
| ErrMempoolIsFull (numTxs maxTxs txsBytes maxTxsBytes : Z)
| ErrPreCheck (e : string)
| ErrPostCheck (e : string)
| ErrAppConnMempool (e : string).

Definition PreCheckFunc : Type := Tx → option string.
Definition PostCheckFunc : Type := Tx → CheckTxResponse → option string.

(** [ComputeProtoSizeForTxs] of one transaction. *)
Definition txSize (tx : Tx) : Z := Block.Block.data_ProtoSize [tx].

Definition PreCheckMaxBytes (maxBytes : Z) : PreCheckFunc :=
  λ tx, if maxBytes <? txSize tx then Some "tx size is too big"%string else None.

Definition PostCheckMaxGas (maxGas : Z) : PostCheckFunc :=
  λ _ res,
    if maxGas =? -1 then None
    else if resGasWanted res <? 0 then Some "gas wanted is negative"%string
    else if maxGas <? resGasWanted res then Some "gas wanted is greater than max gas"%string
    else None.

Record mempoolTx := mkMempoolTx { mtHeight : Z; mtGasWanted : Z; mtTx : Tx }.

Record recheck := mkRecheck {
  cursor : option nat; rcEnd : option nat; doneCh : bool; numPendingTxs : Z; isRechecking : bool; recheckFull : bool }.

Record CListMempool := mkMempool {
  mHeight : Z; txsBytes : Z; notifiedTxsAvailable : bool; txsAvailable : option bool;
  config : MempoolConfig; preCheck : option PreCheckFunc; postCheck : option PostCheckFunc;
  mRecheck : recheck; mTxs : CList mempoolTx; txsMap : gmap TxKey nat; mSenders : gmap nat (gset ID); mCache : Cache }.

Definition set_txs (m : CListMempool) (l : CList mempoolTx) (mp : gmap TxKey nat) (bytes : Z) : CListMempool :=
  mkMempool (mHeight m) bytes (notifiedTxsAvailable m) (txsAvailable m) (config m) (preCheck m) (postCheck m) (mRecheck m) l mp (mSenders m) (mCache m).
Definition set_cache (m : CListMempool) (c : Cache) : CListMempool :=
  mkMempool (mHeight m) (txsBytes m) (notifiedTxsAvailable m) (txsAvailable m) (config m) (preCheck m) (postCheck m) (mRecheck m) (mTxs m) (txsMap m) (mSenders m) c.
Definition set_senders (m : CListMempool) (s : gmap nat (gset ID)) : CListMempool :=
  mkMempool (mHeight m) (txsBytes m) (notifiedTxsAvailable m) (txsAvailable m) (config m) (preCheck m) (postCheck m) (mRecheck m) (mTxs m) (txsMap m) s (mCache m).
Definition set_recheck (m : CListMempool) (r : recheck) : CListMempool :=
  mkMempool (mHeight m) (txsBytes m) (notifiedTxsAvailable m) (txsAvailable m) (config m) (preCheck m) (postCheck m) r (mTxs m) (txsMap m) (mSenders m) (mCache m).
Definition set_available (m : CListMempool) (notified : bool) (ch : option bool) : CListMempool :=
  mkMempool (mHeight m) (txsBytes m) notified ch (config m) (preCheck m) (postCheck m) (mRecheck m) (mTxs m) (txsMap m) (mSenders m) (mCache m).

Definition newRecheck : recheck := mkRecheck None None false 0 false false.

Definition NewCListMempool (cfg : MempoolConfig) (height : Z) (pre : option PreCheckFunc) (post : option PostCheckFunc) : CListMempool :=
  mkMempool height 0 false None cfg pre post newRecheck New ∅ ∅ (if 0 <? CacheSize cfg then LRU (NewLRUTxCache (CacheSize cfg)) else NopTxCache).

Definition EnableTxsAvailable (m : CListMempool) : CListMempool := set_available m (notifiedTxsAvailable m) (Some false).

Section mempool.
Context `{Merkle.HashOps}.

(** ** The list, the map and the cache *)

Definition getCElement (m : CListMempool) (k : TxKey) : option nat := txsMap m !! k.
Definition InMempool (m : CListMempool) (k : TxKey) : bool := bool_decide (is_Some (getCElement m k)).
Definition mSize (m : CListMempool) : Z := Len (mTxs m).
Definition SizeBytes (m : CListMempool) : Z := txsBytes m.

Definition addToCache (m : CListMempool) (tx : Tx) : CListMempool * bool :=
  let '(c, b) := cache_Push (mCache m) tx in (set_cache m c, b).
Definition forceRemoveFromCache (m : CListMempool) (tx : Tx) : CListMempool := set_cache m (cache_Remove (mCache m) tx).
Definition tryRemoveFromCache (m : CListMempool) (tx : Tx) : CListMempool :=
  if negb (KeepInvalidTxsInCache (config m)) then forceRemoveFromCache m tx else m.

(** [addSender], of the entry at an element. *)
Definition addSender (m : CListMempool) (e : nat) (peer : ID) : CListMempool * bool :=
  if bool_decide (peer = ""%string) then (m, false)
  else
    let s := default ∅ (mSenders m !! e) in
    if bool_decide (peer ∈ s) then (m, true) else (set_senders m (<[e := {[peer]} ∪ s]> (mSenders m)), false).
Definition IsSender (m : CListMempool) (e : nat) (peer : ID) : bool := bool_decide (peer ∈ default ∅ (mSenders m !! e)).

(** The loop of [removeAllTxs]: an element is removed before its successor is read. *)
Fixpoint remove_all (fuel : nat) (l : CList mempoolTx) (e : option nat) : outcome (CList mempoolTx) :=
  match e with
  | None => Done l
  | Some i =>
      match fuel with
      | O => Panic "out of fuel"
      | S fuel => l ← Remove l i; l ← DetachPrev l i; n ← Next l i; remove_all fuel l n
      end
  end.
Definition removeAllTxs (m : CListMempool) : outcome CListMempool :=
  l ← remove_all (S (Z.to_nat (mSize m))) (mTxs m) (Front (mTxs m)); Done (set_txs m l ∅ (txsBytes m)).

Definition Flush (m : CListMempool) : outcome CListMempool :=
  let m := set_txs m (mTxs m) (txsMap m) 0 in removeAllTxs (set_cache m (cache_Reset (mCache m))).

(** ** Rechecking *)

Definition rc_done (r : recheck) : bool := negb (isRechecking r).

Definition rc_init (r : recheck) (first last : option nat) : outcome recheck :=
  if negb (rc_done r) then Panic "Having more than one rechecking process at a time is not possible."
  else Done (mkRecheck first last (doneCh r) 0 true (recheckFull r)).

Definition setDone (r : recheck) : recheck := mkRecheck None (rcEnd r) (doneCh r) (numPendingTxs r) false false.

Definition set_cursor (r : recheck) (c : option nat) : recheck :=
  mkRecheck c (rcEnd r) (doneCh r) (numPendingTxs r) (isRechecking r) (recheckFull r).
Definition set_pendingTxs (r : recheck) (n : Z) : recheck :=
  mkRecheck (cursor r) (rcEnd r) (doneCh r) n (isRechecking r) (recheckFull r).
Definition set_doneCh (r : recheck) (b : bool) : recheck :=
  mkRecheck (cursor r) (rcEnd r) b (numPendingTxs r) (isRechecking r) (recheckFull r).

Definition deref_cursor (r : recheck) : outcome nat :=
  match cursor r with Some i => Done i | None => Panic "invalid memory address or nil pointer dereference" end.

Definition setNextEntry (l : CList mempoolTx) (r : recheck) : outcome recheck :=
  i ← deref_cursor r; n ← Next l i; Done (set_cursor r n).

(** The channel has room for one signal; a second one is dropped. *)
Definition tryFinish (r : recheck) : recheck * bool :=
  let r := if bool_decide (cursor r = rcEnd r) then setDone r else r in
  if rc_done r then (set_doneCh r true, true) else (r, false).

Fixpoint find_matching (fuel : nat) (l : CList mempoolTx) (r : recheck) (tx : Tx) : outcome (recheck * bool) :=
  if rc_done r then Done (r, false)
  else
    i ← deref_cursor r;
    c ← elem l i;
    if bytes_equal tx (mtTx (Value c)) then Done (set_pendingTxs r (wrap32 (numPendingTxs r - 1)), true)
    else
      match fuel with
      | O => Panic "out of fuel"
      | S fuel => r ← setNextEntry l r; find_matching fuel l r tx
      end.

(** Successors were allocated later, so that the loop takes at most one turn per element. *)
Definition findNextEntryMatching (l : CList mempoolTx) (r : recheck) (tx : Tx) : outcome (recheck * bool) :=
  '(r, found) ← find_matching (fresh l) l r tx;
  let '(r, finished) := tryFinish r in
  if finished then Done (r, found) else r ← setNextEntry l r; Done (r, found).

Definition setRecheckFull (r : recheck) : recheck * bool :=
  let rechecking := negb (rc_done r) in
  (mkRecheck (cursor r) (rcEnd r) (doneCh r) (numPendingTxs r) (isRechecking r) rechecking, negb (Bool.eqb rechecking (recheckFull r))).
Definition PreUpdate (m : CListMempool) : CListMempool := set_recheck m (setRecheckFull (mRecheck m)).1.

(** ** Adding transactions *)

Definition isFull (m : CListMempool) (size : Z) : option mempool_error :=
  if (cfgSize (config m) <=? mSize m) || (wrapu64 (MaxTxsBytes (config m)) <? wrapu64 (wrapu64 size + wrapu64 (txsBytes m))) then
    Some (ErrMempoolIsFull (mSize m) (cfgSize (config m)) (txsBytes m) (MaxTxsBytes (config m)))
  else if recheckFull (mRecheck m) then Some ErrRecheckFull
  else None.

(** [CheckTx] up to the cache; [connErr] is the state of the connection. *)
Definition CheckTx_checks (m : CListMempool) (connErr : option string) (tx : Tx) : option mempool_error :=
  match isFull m (zlen tx) with
  | Some e => Some e
  | None =>
      if MaxTxBytes (config m) <? zlen tx then Some (ErrTxTooLarge (MaxTxBytes (config m)) (zlen tx))
      else
        match (match preCheck m with Some f => f tx | None => None end) with
        | Some e => Some (ErrPreCheck e)
        | None => ErrAppConnMempool <$> connErr
        end
  end.

(** The cache, and the senders of a transaction that is in it. *)
Definition CheckTx_cache (m : CListMempool) (tx : Tx) (sender : ID) : CListMempool * option mempool_error :=
  let '(m, added) := addToCache m tx in
  if added then (m, None)
  else
    (if bool_decide (sender ≠ ""%string) then
       match getCElement m (tx_Key tx) with Some e => (addSender m e sender).1 | None => m end
     else m, Some ErrTxInCache).

(** [CheckTx] up to the request: without an error the request is sent with
    [handleCheckTxResponse] as its callback. *)
Definition CheckTx (m : CListMempool) (connErr : option string) (tx : Tx) (sender : ID) : CListMempool * option mempool_error :=
  match CheckTx_checks m connErr tx with Some e => (m, Some e) | None => CheckTx_cache m tx sender end.

Definition notifyTxsAvailable (m : CListMempool) : outcome CListMempool :=
  if mSize m =? 0 then Panic "notified txs available but mempool is empty!"
  else
    match txsAvailable m with
    | Some _ => if negb (notifiedTxsAvailable m) then Done (set_available m true (Some true)) else Done m
    | None => Done m
    end.

Definition addTx (m : CListMempool) (memTx : mempoolTx) (sender : ID) : outcome CListMempool :=
  '(e, l) ← PushBack (mTxs m) memTx;
  let m := set_txs m l (<[tx_Key (mtTx memTx) := e]> (txsMap m)) (wrap64 (txsBytes m + zlen (mtTx memTx))) in
  Done (addSender m e sender).1.

Definition post_check (m : CListMempool) (tx : Tx) (res : CheckTxResponse) : option string :=
  match postCheck m with Some f => f tx res | None => None end.
Definition invalid (m : CListMempool) (tx : Tx) (res : CheckTxResponse) : option mempool_error :=
  match post_check m tx res with
  | Some e => Some (ErrPostCheck e)
  | None => if resCode res =? CodeTypeOK then None else Some (ErrInvalidTx res (Merkle.Sum tx))
  end.

Definition handleCheckTxResponse (m : CListMempool) (tx : Tx) (sender : ID) (res : CheckTxResponse) : outcome (CListMempool * option mempool_error) :=
  if negb (rc_done (mRecheck m)) then Panic "rechecking has not finished; cannot check new tx"
  else
    match invalid m tx res with
    | Some e => Done (tryRemoveFromCache m tx, Some e)
    | None =>
        match isFull m (zlen tx) with
        | Some e => Done (forceRemoveFromCache m tx, Some e)
        | None =>
            match getCElement m (tx_Key tx) with
            | Some e => Done ((addSender m e sender).1, Some ErrTxInMempool)
            | None =>
                m ← addTx m (mkMempoolTx (mHeight m) (resGasWanted res) tx) sender;
                m ← notifyTxsAvailable m;
                Done (m, None)
            end
        end
    end.

(** ** Removing transactions *)

Definition RemoveTxByKey (m : CListMempool) (k : TxKey) : outcome (CListMempool * option mempool_error) :=
  match getCElement m k with
  | None => Done (m, Some ErrTxNotFound)
  | Some e =>
      l ← Remove (mTxs m) e;
      l ← DetachPrev l e;
      c ← elem l e;
      Done (set_txs m l (delete k (txsMap m)) (wrap64 (txsBytes m - zlen (mtTx (Value c)))), None)
  end.

Definition handleRecheckTxResponse (m : CListMempool) (tx : Tx) (res : CheckTxResponse) : outcome (CListMempool * option mempool_error) :=
  if rc_done (mRecheck m) then Done (m, Some ErrLateRecheckResponse)
  else
    '(r, found) ← findNextEntryMatching (mTxs m) (mRecheck m) tx;
    let m := set_recheck m r in
    if negb found then Done (m, None)
    else
      match invalid m tx res with
      | None => Done (m, None)
      | Some e =>
          '(m, err) ← RemoveTxByKey m (tx_Key tx);
          match err with
          | Some err => Done (m, Some err)
          | None => Done (tryRemoveFromCache m tx, Some e)
          end
      end.

(** ** Reaping *)

Fixpoint reap_bytes_gas (fuel : nat) (l : CList mempoolTx) (e : option nat) (maxBytes maxGas totalGas runningSize : Z) (txs : list Tx) : outcome (list Tx) :=
  match e with
  | None => Done txs
  | Some i =>
      match fuel with
      | O => Panic "out of fuel"
      | S fuel =>
          c ← elem l i;
          let dataSize := txSize (mtTx (Value c)) in
          if (-1 <? maxBytes) && (maxBytes <? wrap64 (runningSize + dataSize)) then Done txs
          else
            let newTotalGas := wrap64 (totalGas + mtGasWanted (Value c)) in
            if (-1 <? maxGas) && (maxGas <? newTotalGas) then Done txs
            else reap_bytes_gas fuel l (next c) maxBytes maxGas newTotalGas (wrap64 (runningSize + dataSize)) (txs ++ [mtTx (Value c)])
      end
  end.
Definition ReapMaxBytesMaxGas (m : CListMempool) (maxBytes maxGas : Z) : outcome (list Tx) :=
  reap_bytes_gas (S (Z.to_nat (mSize m))) (mTxs m) (Front (mTxs m)) maxBytes maxGas 0 0 [].

Fixpoint reap_count (fuel : nat) (l : CList mempoolTx) (e : option nat) (max : Z) (txs : list Tx) : outcome (list Tx) :=
  match e with
  | None => Done txs
  | Some i =>
      if zlen txs <=? max then
        match fuel with
        | O => Panic "out of fuel"
        | S fuel => c ← elem l i; reap_count fuel l (next c) max (txs ++ [mtTx (Value c)])
        end
      else Done txs
  end.
Definition ReapMaxTxs (m : CListMempool) (max : Z) : outcome (list Tx) :=
  reap_count (S (Z.to_nat (mSize m))) (mTxs m) (Front (mTxs m)) (if max <? 0 then mSize m else max) [].

(** ** Updating *)

(** The connection to the application. *)
Inductive client : Type := Local (app : Tx → CheckTxResponse) | Async.

(** The loop that sends the requests: a local client answers before the next element is read; the
    requests of an asynchronous one are collected. *)
Fixpoint recheck_loop (cl : client) (fuel : nat) (m : CListMempool) (e : option nat) (sent : list Tx) : outcome (CListMempool * list Tx) :=
  match e with
  | None => Done (m, sent)
  | Some i =>
      match fuel with
      | O => Panic "out of fuel"
      | S fuel =>
          c ← elem (mTxs m) i;
          let tx := mtTx (Value c) in
          let m := set_recheck m (set_pendingTxs (mRecheck m) (wrap32 (numPendingTxs (mRecheck m) + 1))) in
          '(m, sent) ← (match cl with
                        | Local app => '(m, _) ← handleRecheckTxResponse m tx (app tx); Done (m, sent)
                        | Async => Done (m, sent ++ [tx])
                        end);
          n ← Next (mTxs m) i;
          recheck_loop cl fuel m n sent
      end
  end.

(** [recheckTxs] up to the wait; the flag says whether it waits. *)
Definition recheckTxs (cl : client) (m : CListMempool) : outcome (CListMempool * list Tx * bool) :=
  if mSize m <=? 0 then Done (m, [], false)
  else
    r ← rc_init (mRecheck m) (Front (mTxs m)) (Back (mTxs m));
    '(m, sent) ← recheck_loop cl (S (Z.to_nat (mSize m))) (set_recheck m r) (Front (mTxs m)) [];
    Done (m, sent, true).

(** The wait: the timer, or the signal. *)
Definition recheck_timeout (m : CListMempool) : CListMempool := set_recheck m (setDone (mRecheck m)).
Definition recheck_signal (m : CListMempool) : option CListMempool :=
  if doneCh (mRecheck m) then Some (set_recheck m (set_doneCh (mRecheck m) false)) else None.

Fixpoint remove_committed (m : CListMempool) (txs : list Tx) (codes : list Z) (i : Z) : outcome CListMempool :=
  match txs with
  | [] => Done m
  | tx :: txs =>
      code ← idx codes i;
      let m := if code =? CodeTypeOK then (addToCache m tx).1 else tryRemoveFromCache m tx in
      '(m, _) ← RemoveTxByKey m (tx_Key tx);
      remove_committed m txs codes (i + 1)
  end.

Definition set_update (m : CListMempool) (height : Z) (pre : option PreCheckFunc) (post : option PostCheckFunc) : CListMempool :=
  mkMempool height (txsBytes m) false (txsAvailable m) (config m)
    (match pre with Some f => Some f | None => preCheck m end) (match post with Some f => Some f | None => postCheck m end)
    (mRecheck m) (mTxs m) (txsMap m) (mSenders m) (mCache m).

(** [Update] before and after the wait of [recheckTxs]. *)
Definition Update_begin (cl : client) (m : CListMempool) (height : Z) (txs : list Tx) (codes : list Z) (pre : option PreCheckFunc) (post : option PostCheckFunc) :
    outcome (CListMempool * list Tx * bool) :=
  m ← remove_committed (set_update m height pre post) txs codes 0;
  if cfgRecheck (config m) then recheckTxs cl m else Done (m, [], false).

Definition Update_end (m : CListMempool) : outcome CListMempool := if 0 <? mSize m then notifyTxsAvailable m else Done m.

(** ** The mempool beside an asynchronous connection *)

(** Where a call of [CheckTx] is: before the cache, or before the request is sent. *)
Inductive check_pc : Type := PastChecks | PastCache.

(** Requests are answered in order; a request carries its sender, or none when it is a recheck.
    [sCallers] are the calls of [CheckTx] under way, each with the read lock. *)
Record Sys := mkSys { sMem : CListMempool; sQueue : list (Tx * option ID); sUpdating : bool; sCallers : list (Tx * ID * check_pc) }.

Inductive event : Type :=
| EvCheck (connErr : option string) (tx : Tx) (sender : ID)
| EvCaller (k : nat)
| EvAnswer (res : CheckTxResponse)
| EvPreUpdate
| EvUpdate (height : Z) (txs : list Tx) (codes : list Z) (pre : option PreCheckFunc) (post : option PostCheckFunc)
| EvTimeout
| EvSignal
| EvFlush.

(** [None]: the event has to wait.  [CheckTx] takes the lock for reading: its calls overlap, and
    between their steps answers arrive.  [Update] and [Flush] take it for writing: they wait
    for the calls under way, and no call starts while [Update] waits for the recheck.

    The connection is one that answers in order and runs the callbacks one at a time, as the
    socket and gRPC clients do in their receiving routine.  A callback is one step: what runs beside
    it ([CheckTx], [PreUpdate], the readers) touches neither the list nor the map nor the
    counters.  The caller of [Update] has taken the lock and flushed the connection
    ([FlushAppConn]), so that no answer is open when it runs; [Flush], a command of the
    operator, is modelled under the same condition. *)
Definition sys_step (s : Sys) (ev : event) : outcome (option Sys) :=
  match ev with
  | EvCheck connErr tx sender =>
      if sUpdating s then Done None
      else
        Done (Some (mkSys (sMem s) (sQueue s) false
          (match CheckTx_checks (sMem s) connErr tx with None => sCallers s ++ [(tx, sender, PastChecks)] | Some _ => sCallers s end)))
  | EvCaller k =>
      match sCallers s !! k with
      | None => Done None
      | Some (tx, sender, PastChecks) =>
          let '(m, err) := CheckTx_cache (sMem s) tx sender in
          Done (Some (mkSys m (sQueue s) (sUpdating s)
            (match err with None => <[k := (tx, sender, PastCache)]> (sCallers s) | Some _ => delete k (sCallers s) end)))
      | Some (tx, sender, PastCache) => Done (Some (mkSys (sMem s) (sQueue s ++ [(tx, Some sender)]) (sUpdating s) (delete k (sCallers s))))
      end
  | EvAnswer res =>
      match sQueue s with
      | [] => Done None
      | (tx, Some sender) :: q => '(m, _) ← handleCheckTxResponse (sMem s) tx sender res; Done (Some (mkSys m q (sUpdating s) (sCallers s)))
      | (tx, None) :: q => '(m, _) ← handleRecheckTxResponse (sMem s) tx res; Done (Some (mkSys m q (sUpdating s) (sCallers s)))
      end
  | EvPreUpdate => Done (Some (mkSys (PreUpdate (sMem s)) (sQueue s) (sUpdating s) (sCallers s)))
  | EvUpdate height txs codes pre post =>
      match sUpdating s, sQueue s, sCallers s with
      | false, [], [] =>
          '(m, sent, wait) ← Update_begin Async (sMem s) height txs codes pre post;
          let q := (λ tx, (tx, None)) <$> sent in
          if wait : bool then Done (Some (mkSys m q true [])) else m ← Update_end m; Done (Some (mkSys m q false []))
      | _, _, _ => Done None
      end
  | EvTimeout => if sUpdating s then m ← Update_end (recheck_timeout (sMem s)); Done (Some (mkSys m (sQueue s) false (sCallers s))) else Done None
  | EvSignal =>
      match sUpdating s, recheck_signal (sMem s) with
      | true, Some m => m ← Update_end m; Done (Some (mkSys m (sQueue s) false (sCallers s)))
      | _, _ => Done None
      end
  | EvFlush =>
      match sUpdating s, sQueue s, sCallers s with
      | false, [], [] => m ← Flush (sMem s); Done (Some (mkSys m [] false []))
      | _, _, _ => Done None
      end
  end.

Fixpoint sys_run (s : Sys) (evs : list event) : outcome Sys :=
  match evs with
  | [] => Done s
  | ev :: evs => s' ← sys_step s ev; sys_run (default s s') evs
  end.

(** ** Iterating *)

(** [WaitNextCh]: [None] while it waits, and else the new cursor with the entry that is sent. *)
Definition WaitNextCh (m : CListMempool) (cur : option nat) : outcome (option (option nat * option mempoolTx)) :=
  let deliver (c : option nat) :=
    match c with None => Done (Some (None, None)) | Some i => c ← elem (mTxs m) i; Done (Some (Some i, Some (Value c))) end in
  match cur with
  | None => if released (mTxs m) then deliver (Front (mTxs m)) else Done None
  | Some i => c ← elem (mTxs m) i; if nextReleased c then deliver (next c) else Done None
  end.

End mempool.

Section lemmas.
Context `{Merkle.HashOps}.
Implicit Types (m : CListMempool) (xs : list (nat * mempoolTx)).

(** ** The list, the map and the counter agree *)

Definition entry_key (x : nat * mempoolTx) : TxKey := tx_Key (mtTx x.2).
Definition bytes_of xs : Z := zsum (λ x : nat * mempoolTx, zlen (mtTx x.2)) xs.

Record pool_ok m xs : Prop := mk_pool_ok {
  ok_rep : rep (mTxs m) xs;
  ok_max : maxLen (mTxs m) = MaxLength;
  ok_map : ∀ k i, txsMap m !! k = Some i ↔ ∃ v, (i, v) ∈ xs ∧ tx_Key (mtTx v) = k;
  ok_bytes : txsBytes m = bytes_of xs;
  ok_size : zlen xs ≤ cfgSize (config m);
  ok_total : bytes_of xs ≤ MaxTxsBytes (config m) }.

Definition cfg_ok (cfg : MempoolConfig) : Prop := 0 ≤ cfgSize cfg ≤ max_int64 ∧ 0 ≤ MaxTxsBytes cfg ≤ max_int64.

Lemma bytes_nonneg xs : 0 ≤ bytes_of xs.
Proof. apply zsum_nonneg. intros. apply zlen_nonneg. Qed.

Lemma ok_len m xs : pool_ok m xs → mSize m = zlen xs.
Proof. intros R. apply (rep_len _ _ (ok_rep _ _ R)). Qed.

(** What the invariant reads. *)
Lemma pool_ok_ext m m' xs : mTxs m' = mTxs m → txsMap m' = txsMap m → txsBytes m' = txsBytes m → config m' = config m →
  pool_ok m xs → pool_ok m' xs.
Proof. intros E1 E2 E3 E4 [R1 R2 R3 R4 R5 R6]. split; rewrite ?E1, ?E2, ?E3, ?E4; done. Qed.

Lemma pool_ok_new cfg h pre post : cfg_ok cfg → pool_ok (NewCListMempool cfg h pre post) [].
Proof.
  intros [? ?]. split; simpl; try done; [apply rep_New| | |].
  - intros k i. rewrite lookup_empty. split; [done|]. intros (v & ?%not_elem_of_nil & _). done.
  - unfold zlen. simpl. lia.
  - unfold bytes_of. simpl. lia.
Qed.

Lemma filter_entry m xs k i v : pool_ok m xs → (i, v) ∈ xs → tx_Key (mtTx v) = k →
  filter (λ x, x.1 ≠ i) xs = filter (λ x, entry_key x ≠ k) xs.
Proof.
  intros R Hi Hk. apply filter_ext_in. intros [j w] Hj. unfold entry_key. simpl. split; intros Hn E; apply Hn.
  - assert (txsMap m !! k = Some i) as E1 by (apply (ok_map _ _ R); eauto).
    assert (txsMap m !! k = Some j) as E2 by (apply (ok_map _ _ R); eauto). congruence.
  - subst j. apply list_elem_of_lookup in Hi as [a Ha], Hj as [b Hb].
    assert (a = b) as -> by (apply (id_at_inj _ _ _ _ i (ok_rep _ _ R)); apply id_at_Some; eauto). congruence.
Qed.

Lemma bytes_filter xs P `{∀ x, Decision (P x)} : bytes_of (filter P xs) ≤ bytes_of xs.
Proof. apply zsum_filter_le. intros. apply zlen_nonneg. Qed.

Lemma zlen_filter {B} (P : B → Prop) `{∀ x, Decision (P x)} (l : list B) : zlen (filter P l) ≤ zlen l.
Proof. unfold zlen. pose proof (length_filter P l). lia. Qed.

(** Removing an entry: the list, the map and the bytes follow. *)
Lemma pool_ok_filter m xs k i v l : pool_ok m xs → cfg_ok (config m) → (i, v) ∈ xs → tx_Key (mtTx v) = k →
  rep l (filter (λ x, x.1 ≠ i) xs) → maxLen l = MaxLength →
  pool_ok (set_txs m l (delete k (txsMap m)) (wrap64 (txsBytes m - zlen (mtTx v)))) (filter (λ x, entry_key x ≠ k) xs).
Proof.
  intros R [_ Hc] Hi Hk Hl Hmax. rewrite <- (filter_entry _ _ _ _ _ R Hi Hk). split; simpl.
  - done.
  - done.
  - intros q j. rewrite lookup_delete_Some, (ok_map _ _ R). rewrite (filter_entry _ _ _ _ _ R Hi Hk). split.
    + intros (Hn & w & Hw & <-). exists w. split; [|done]. apply list_elem_of_filter. done.
    + intros (w & [Hn Hw]%list_elem_of_filter & <-). split; [done|]. eauto.
  - rewrite (ok_bytes _ _ R). apply list_elem_of_lookup in Hi as [a Ha]. rewrite <- (delete_filter _ _ _ _ _ (ok_rep _ _ R) Ha).
    assert (bytes_of xs = zlen (mtTx v) + bytes_of (delete a xs)) as E.
    { unfold bytes_of. rewrite (zsum_perm _ _ _ (delete_Permutation _ _ _ Ha)). done. }
    pose proof (bytes_nonneg (delete a xs)). pose proof (zlen_nonneg (mtTx v)). pose proof (ok_total _ _ R).
    rewrite wrap64_id; [lia|]. unfold_ints. lia.
  - pose proof (ok_size _ _ R). pose proof (zlen_filter (λ x : nat * mempoolTx, x.1 ≠ i) xs). lia.
  - pose proof (ok_total _ _ R). pose proof (bytes_filter xs (λ x, x.1 ≠ i)). lia.
Qed.

Lemma Detach_removed l xs e p n v : rep l xs → elems l !! e = Some (mkCElement p true n true true v) →
  DetachPrev l e = Done (set_elem l e (mkCElement None true n true true v)) ∧ rep (set_elem l e (mkCElement None true n true true v)) xs.
Proof. intros R He. unfold DetachPrev, elem. rewrite He. split; [done|]. apply (detach_rep _ _ _ _ _ R He); auto. Qed.

Lemma unlink_spec l xs i v a : rep l xs → xs !! a = Some (i, v) →
  ∃ l', (l ← Remove l i; DetachPrev l i) = Done l' ∧ rep l' (delete a xs) ∧ maxLen l' = maxLen l ∧
    elems l' !! i = Some (mkCElement None true (id_at xs (S a)) true true v).
Proof.
  intros R Ha. destruct (Remove_rep _ _ _ _ _ R Ha) as (l1 & -> & R1 & _ & Hm & p & He). simpl.
  destruct (Detach_removed _ _ _ _ _ _ R1 He) as [-> R2]. eexists. split; [done|]. split; [done|]. split; [done|].
  simpl. by rewrite lookup_insert_eq.
Qed.

Lemma RemoveTxByKey_in m xs a i v : pool_ok m xs → cfg_ok (config m) → xs !! a = Some (i, v) →
  ∃ l, RemoveTxByKey m (tx_Key (mtTx v)) = Done (set_txs m l (delete (tx_Key (mtTx v)) (txsMap m)) (wrap64 (txsBytes m - zlen (mtTx v))), None) ∧
    pool_ok (set_txs m l (delete (tx_Key (mtTx v)) (txsMap m)) (wrap64 (txsBytes m - zlen (mtTx v)))) (delete a xs) ∧
    Next l i = Done (id_at xs (S a)).
Proof.
  intros R Hc Ha. assert ((i, v) ∈ xs) as Hi by (by apply list_elem_of_lookup_2 in Ha).
  unfold RemoveTxByKey, getCElement. rewrite (proj2 (ok_map _ _ R _ i)) by eauto.
  destruct (unlink_spec _ _ _ _ _ (ok_rep _ _ R) Ha) as (l & E & R' & Hm & He).
  apply outcome_bind_Done in E as (l1 & -> & E). simpl. rewrite E. simpl. unfold Next, elem. rewrite He. simpl.
  exists l. unfold elem. rewrite He. split; [done|]. split; [|done].
  rewrite (delete_filter _ _ _ _ _ (ok_rep _ _ R) Ha), (filter_entry _ _ _ _ _ R Hi eq_refl).
  apply (pool_ok_filter _ _ _ _ _ _ R Hc Hi eq_refl); [|by rewrite Hm; apply (ok_max _ _ R)].
  by rewrite <- (delete_filter _ _ _ _ _ (ok_rep _ _ R) Ha).
Qed.

Lemma not_in_pool m xs k : pool_ok m xs → txsMap m !! k = None → filter (λ x, entry_key x ≠ k) xs = xs.
Proof.
  intros R Hk. apply filter_keeps. intros [i v] Hi E.
  assert (txsMap m !! k = Some i) by (apply (ok_map _ _ R); eauto). congruence.
Qed.

(** In either case what is left is the entries with other keys. *)
Lemma RemoveTxByKey_spec m xs k : pool_ok m xs → cfg_ok (config m) →
  ∃ l mp b e, RemoveTxByKey m k = Done (set_txs m l mp b, e) ∧ pool_ok (set_txs m l mp b) (filter (λ x, entry_key x ≠ k) xs).
Proof.
  intros R Hc. destruct (txsMap m !! k) as [i|] eqn:E.
  - pose proof E as E'. apply (ok_map _ _ R) in E' as (v & Hi & Hk). pose proof Hi as [a Ha]%list_elem_of_lookup.
    destruct (RemoveTxByKey_in _ _ _ _ _ R Hc Ha) as (l & E1 & R' & _). rewrite Hk in *. eexists _, _, _, _. split; [exact E1|].
    rewrite (delete_filter _ _ _ _ _ (ok_rep _ _ R) Ha), (filter_entry _ _ _ _ _ R Hi Hk) in R'. done.
  - unfold RemoveTxByKey, getCElement. rewrite E. exists (mTxs m), (txsMap m), (txsBytes m), (Some ErrTxNotFound).
    split; [by destruct m|]. rewrite (not_in_pool _ _ _ R E). by destruct m.
Qed.

(** ** Adding *)

(** What the handlers leave alone. *)
Definition frame m m' : Prop := config m' = config m ∧ preCheck m' = preCheck m ∧ postCheck m' = postCheck m ∧ mHeight m' = mHeight m.
Lemma frame_refl m : frame m m. Proof. done. Qed.
Lemma frame_trans m1 m2 m3 : frame m1 m2 → frame m2 m3 → frame m1 m3.
Proof. unfold frame. intuition congruence. Qed.

Lemma isFull_None m xs size : pool_ok m xs → cfg_ok (config m) → 0 ≤ size ≤ max_int64 → isFull m size = None →
  zlen xs < cfgSize (config m) ∧ bytes_of xs + size ≤ MaxTxsBytes (config m) ∧ recheckFull (mRecheck m) = false.
Proof.
  intros R [_ Hm] Hs. unfold isFull. rewrite (ok_len _ _ R), (ok_bytes _ _ R).
  pose proof (bytes_nonneg xs). pose proof (ok_total _ _ R).
  rewrite !(wrapu64_id (MaxTxsBytes _)), (wrapu64_id size), (wrapu64_id (bytes_of xs)), wrapu64_id by (unfold_ints; lia).
  destruct ((_ <=? _) || _) eqn:E; [done|]. zbool. destruct (recheckFull _); [done|]. intros _. lia.
Qed.

Lemma addSender_same m e p : let m' := (addSender m e p).1 in
  frame m m' ∧ mTxs m' = mTxs m ∧ txsMap m' = txsMap m ∧ txsBytes m' = txsBytes m ∧ mRecheck m' = mRecheck m ∧ mCache m' = mCache m.
Proof. unfold addSender. repeat case_bool_decide; done. Qed.

Lemma notify_ok m : 0 < mSize m → ∃ n ch, notifyTxsAvailable m = Done (set_available m n ch).
Proof.
  intros Hs. unfold notifyTxsAvailable. rewrite (proj2 (Z.eqb_neq _ _)) by lia.
  destruct (txsAvailable m) as [b|] eqn:E1, (notifiedTxsAvailable m) eqn:E2; simpl; eauto; exists (notifiedTxsAvailable m), (txsAvailable m); by destruct m.
Qed.

Lemma addTx_spec m xs v sender : pool_ok m xs → cfg_ok (config m) → zlen (mtTx v) ≤ max_int64 →
  isFull m (zlen (mtTx v)) = None → txsMap m !! tx_Key (mtTx v) = None →
  ∃ m', addTx m v sender = Done m' ∧ pool_ok m' (xs ++ [(fresh (mTxs m), v)]) ∧ frame m m' ∧ mRecheck m' = mRecheck m.
Proof.
  intros R Hc Hl Hf Hk. pose proof (zlen_nonneg (mtTx v)). destruct (isFull_None _ _ _ R Hc (conj H0 Hl) Hf) as (Hs & Hb & _).
  destruct Hc as [Hc1 Hc2]. unfold addTx.
  destruct (PushBack_rep (mTxs m) xs v (ok_rep _ _ R)) as (l & -> & R' & Hm & _); [rewrite (ok_max _ _ R); unfold MaxLength; lia|].
  simpl. eexists. split; [done|]. set (m1 := set_txs m l _ _).
  destruct (addSender_same m1 (fresh (mTxs m)) sender) as (F & E1 & E2 & E3 & E4 & _).
  split; [|by split]. apply (pool_ok_ext m1); [done..|apply F|]. split; simpl; [done|by rewrite Hm; apply (ok_max _ _ R)| | | |].
  - intros q j. destruct (decide (tx_Key (mtTx v) = q)) as [<-|Hn].
    + rewrite lookup_insert_eq. split; [intros [= <-]; exists v; split; [apply elem_of_app; right; left|done]|].
      intros (w & [Hw|[= -> ->]%list_elem_of_singleton]%elem_of_app & Ew); [|done].
      assert (txsMap m !! tx_Key (mtTx v) = Some j) by (apply (ok_map _ _ R); eauto). congruence.
    + rewrite lookup_insert_ne by done. rewrite (ok_map _ _ R). split; intros (w & Hw & <-); exists w; (split; [|done]).
      * apply elem_of_app. by left.
      * apply elem_of_app in Hw as [?|[= -> ->]%list_elem_of_singleton]; [done|congruence].
  - pose proof (bytes_nonneg xs). rewrite (ok_bytes _ _ R). unfold bytes_of in *. rewrite zsum_app. simpl. rewrite wrap64_id; [lia|]. unfold_ints. lia.
  - unfold zlen in *. rewrite length_app. simpl. lia.
  - unfold bytes_of in *. rewrite zsum_app. simpl. lia.
Qed.

Lemma cache_frame m tx : frame m (tryRemoveFromCache m tx) ∧ mTxs (tryRemoveFromCache m tx) = mTxs m ∧
  txsMap (tryRemoveFromCache m tx) = txsMap m ∧ txsBytes (tryRemoveFromCache m tx) = txsBytes m ∧ mRecheck (tryRemoveFromCache m tx) = mRecheck m.
Proof. unfold tryRemoveFromCache. by destruct (negb _). Qed.

Lemma pool_ok_tryRemove m xs tx : pool_ok m xs → pool_ok (tryRemoveFromCache m tx) xs.
Proof. intros R. destruct (cache_frame m tx) as ((? & _) & ? & ? & ? & _). by apply (pool_ok_ext m). Qed.

(** A transaction is added exactly when it is valid, there is room and it is not there yet. *)
Definition admits m (tx : Tx) (res : CheckTxResponse) : bool :=
  bool_decide (invalid m tx res = None) && bool_decide (isFull m (zlen tx) = None) && bool_decide (txsMap m !! tx_Key tx = None).

Lemma handleCheckTx_spec m xs tx sender res : pool_ok m xs → cfg_ok (config m) → zlen tx ≤ max_int64 → isRechecking (mRecheck m) = false →
  ∃ m' err, handleCheckTxResponse m tx sender res = Done (m', err) ∧ frame m m' ∧ mRecheck m' = mRecheck m ∧
    pool_ok m' (if admits m tx res then xs ++ [(fresh (mTxs m), mkMempoolTx (mHeight m) (resGasWanted res) tx)] else xs) ∧
    (err = None ↔ admits m tx res = true).
Proof.
  intros R Hc Hl Hr. unfold handleCheckTxResponse, admits, rc_done. rewrite Hr. simpl.
  destruct (invalid m tx res) as [e|]; simpl.
  { eexists _, _. split; [done|]. destruct (cache_frame m tx) as (? & _ & _ & _ & ?). split; [done|]. split; [done|]. split; [by apply pool_ok_tryRemove|done]. }
  destruct (isFull m (zlen tx)) as [e|] eqn:Ef; simpl.
  { eexists _, _. split; [done|]. split; [done|]. split; [done|]. split; [by apply (pool_ok_ext m)|done]. }
  unfold getCElement. destruct (txsMap m !! tx_Key tx) as [e|] eqn:Ek; simpl.
  { destruct (addSender_same m e sender) as (F & E1 & E2 & E3 & E4 & _). eexists _, _. split; [done|]. split; [done|]. split; [done|]. split; [|done].
    apply (pool_ok_ext m); [done..|apply F|done]. }
  destruct (addTx_spec m xs (mkMempoolTx (mHeight m) (resGasWanted res) tx) sender R Hc Hl Ef Ek) as (m' & -> & R' & F & Er). simpl.
  destruct (notify_ok m') as (n & ch & ->); [rewrite (ok_len _ _ R'); unfold zlen; rewrite length_app; simpl; lia|]. simpl.
  eexists _, _. split; [done|]. split; [done|]. split; [done|]. split; [by apply (pool_ok_ext m')|done].
Qed.

(** ** Rechecking *)

(** The entries from position [a] on are still to be answered. *)
Definition rc_at (r : recheck) xs (a : nat) : Prop :=
  isRechecking r = true ∧ cursor r = id_at xs a ∧ rcEnd r = fst <$> last xs ∧ (a < length xs)%nat.

(** The state after the answer for the entry at [a]: the end, or the next entry. *)
Definition rc_next (r : recheck) xs (a : nat) : recheck :=
  let r := set_pendingTxs r (wrap32 (numPendingTxs r - 1)) in
  if decide (S a = length xs) then set_doneCh (setDone r) true else set_cursor r (id_at xs (S a)).

Lemma at_last m xs a : pool_ok m xs → (a < length xs)%nat → id_at xs a = fst <$> last xs ↔ S a = length xs.
Proof.
  intros R Ha. rewrite last_id. destruct (length xs) as [|n] eqn:E; [lia|]. simpl.
  destruct (id_at xs a) as [i|] eqn:Ei; [|apply id_at_None in Ei; lia]. split; [|intros [= <-]; done].
  intros Hn. f_equal. symmetry in Hn. by apply (id_at_inj _ _ _ _ _ (ok_rep _ _ R) Ei).
Qed.

Lemma find_at m xs a i v : pool_ok m xs → rc_at (mRecheck m) xs a → xs !! a = Some (i, v) →
  findNextEntryMatching (mTxs m) (mRecheck m) (mtTx v) = Done (rc_next (mRecheck m) xs a, true).
Proof.
  intros R (Hr & Hcur & Hend & Ha) Hx. assert (id_at xs a = Some i) as Hid by (apply id_at_Some; eauto).
  assert (find_matching (fresh (mTxs m)) (mTxs m) (mRecheck m) (mtTx v) = Done (set_pendingTxs (mRecheck m) (wrap32 (numPendingTxs (mRecheck m) - 1)), true)) as Hfind.
  { destruct (fresh (mTxs m)); simpl; unfold rc_done, deref_cursor; rewrite Hr, Hcur, Hid; simpl;
      rewrite (rep_elem _ _ _ _ _ (ok_rep _ _ R) Hx); simpl; unfold bytes_equal; by rewrite bool_decide_eq_true_2. }
  unfold findNextEntryMatching. rewrite Hfind. simpl. unfold tryFinish. simpl. rewrite Hcur, Hend. unfold rc_next.
  pose proof (at_last _ _ _ R Ha) as Hl. case_bool_decide as Hb.
  - rewrite decide_True by tauto. done.
  - rewrite decide_False by tauto. unfold rc_done. simpl. rewrite Hr. simpl. unfold setNextEntry, deref_cursor. simpl. rewrite Hcur, Hid. simpl.
    by rewrite (rep_Next _ _ _ _ (ok_rep _ _ R) Hid).
Qed.

Definition keeps m (tx : Tx) (res : CheckTxResponse) : bool := bool_decide (invalid m tx res = None).

Lemma keeps_frame m m' tx res : frame m m' → keeps m' tx res = keeps m tx res.
Proof. intros (_ & _ & E & _). unfold keeps, invalid, post_check. by rewrite E. Qed.

Lemma rc_next_at r xs a ys b : rc_at r xs a → (S a < length xs)%nat → id_at ys b = id_at xs (S a) → fst <$> last ys = fst <$> last xs → (b < length ys)%nat →
  rc_at (rc_next r xs a) ys b ∧ doneCh (rc_next r xs a) = doneCh r.
Proof.
  intros (Hr & Hc & He & _) Ha E1 E2 Hb. unfold rc_next. rewrite decide_False by lia. split; [|done]. split; simpl; [done|]. split; [done|]. split; [congruence|done].
Qed.

Lemma recheck_answer m xs a i v res : pool_ok m xs → cfg_ok (config m) → rc_at (mRecheck m) xs a → xs !! a = Some (i, v) →
  ∃ m' err, handleRecheckTxResponse m (mtTx v) res = Done (m', err) ∧ frame m m' ∧ mRecheck m' = rc_next (mRecheck m) xs a ∧
    Next (mTxs m') i = Done (id_at xs (S a)) ∧
    pool_ok m' (if keeps m (mtTx v) res then xs else delete a xs).
Proof.
  intros R Hc Hat Hx. assert (id_at xs a = Some i) as Hid by (apply id_at_Some; eauto).
  unfold handleRecheckTxResponse, rc_done. rewrite (proj1 Hat). simpl. rewrite (find_at _ _ _ _ _ R Hat Hx). simpl. unfold keeps.
  set (m1 := set_recheck m (rc_next (mRecheck m) xs a)). assert (pool_ok m1 xs) as R1 by (by apply (pool_ok_ext m)).
  change (invalid m1 (mtTx v) res) with (invalid m (mtTx v) res). destruct (invalid m (mtTx v) res) as [e|]; simpl.
  - destruct (RemoveTxByKey_in m1 xs a i v R1 Hc Hx) as (l & -> & R2 & Hn). simpl. set (m2 := set_txs m1 l _ _) in *.
    destruct (cache_frame m2 (mtTx v)) as (F & E1 & _ & _ & E2). eexists _, _. split; [done|]. split; [done|]. split; [by rewrite E2|].
    split; [by rewrite E1|]. by apply pool_ok_tryRemove.
  - eexists _, _. split; [done|]. split; [done|]. split; [done|]. split; [|done]. by apply (rep_Next _ _ a _ (ok_rep _ _ R)).
Qed.

(** The entries that are left when the rest of them is answered by [rs]. *)
Fixpoint kept m (ys : list (nat * mempoolTx)) (rs : list CheckTxResponse) : list (nat * mempoolTx) :=
  match ys, rs with
  | y :: ys, r :: rs => if keeps m (mtTx y.2) r then y :: kept m ys rs else kept m ys rs
  | _, _ => ys
  end.

Lemma kept_same_post m m' ys rs : frame m m' → kept m' ys rs = kept m ys rs.
Proof. intros F. revert rs. induction ys as [|y ys IH]; intros [|r rs]; simpl; [done..|]. by rewrite (keeps_frame _ _ _ _ F), IH. Qed.

Lemma take_delete {X} (l : list X) a : take a (delete a l) = take a l.
Proof. revert a. induction l as [|x l IH]; intros [|a]; simpl; [done..|by rewrite take_0|by rewrite IH]. Qed.
Lemma drop_delete {X} (l : list X) a : drop a (delete a l) = drop (S a) l.
Proof. revert a. induction l as [|x l IH]; intros [|a]; simpl; [done|done|by rewrite drop_0|by rewrite IH]. Qed.

(** One answer, as a step of the recheck: what it leaves of the list, and where it stands. *)
Lemma recheck_answer_step m xs a i v res rs : pool_ok m xs → cfg_ok (config m) → rc_at (mRecheck m) xs a → xs !! a = Some (i, v) →
  ∃ m' err ys b, handleRecheckTxResponse m (mtTx v) res = Done (m', err) ∧ frame m m' ∧ pool_ok m' ys ∧
    Next (mTxs m') i = Done (id_at ys b) ∧ drop b ys = drop (S a) xs ∧
    take b ys ++ kept m (drop b ys) rs = take a xs ++ kept m (drop a xs) (res :: rs) ∧
    (if decide (S a = length xs) then isRechecking (mRecheck m') = false ∧ doneCh (mRecheck m') = true
     else rc_at (mRecheck m') ys b ∧ doneCh (mRecheck m') = doneCh (mRecheck m)).
Proof.
  intros R Hc Hat Hx. destruct (recheck_answer m xs a i v res R Hc Hat Hx) as (m' & err & E & F & Er & Hn & R').
  set (k := keeps m (mtTx v) res) in *. exists m', err, (if k then xs else delete a xs), (if k then S a else a).
  pose proof (lookup_lt_Some _ _ _ Hx) as Ha. split; [done|]. split; [done|]. split; [done|].
  assert (id_at (if k then xs else delete a xs) (if k then S a else a) = id_at xs (S a)) as Eid.
  { destruct k; [done|]. rewrite id_at_delete, decide_False by lia. done. }
  split; [by rewrite Eid|]. assert (drop (if k then S a else a) (if k then xs else delete a xs) = drop (S a) xs) as Ed.
  { destruct k; [done|]. apply drop_delete. }
  split; [done|]. split.
  - rewrite Ed, (drop_S _ _ _ Hx). simpl. fold k. destruct k; [|by rewrite take_delete].
    rewrite (take_S_r _ _ _ Hx), <- (assoc (++)). done.
  - rewrite Er. case_decide as Hs; [unfold rc_next; by rewrite decide_True|].
    apply rc_next_at; [done|lia|done| |].
    + destruct k; [done|]. by rewrite (delete_last _ _ _ Hx), decide_False.
    + destruct k; [lia|]. rewrite length_delete by (by rewrite Hx). lia.
Qed.

(** The answers to a list of requests, in order. *)
Fixpoint answers m (txs : list Tx) (rs : list CheckTxResponse) : outcome CListMempool :=
  match txs, rs with
  | tx :: txs, r :: rs => '(m, _) ← handleRecheckTxResponse m tx r; answers m txs rs
  | _, _ => Done m
  end.

Definition txs_of (ys : list (nat * mempoolTx)) : list Tx := (λ y, mtTx y.2) <$> ys.

Lemma answers_spec rs : ∀ m xs a, pool_ok m xs → cfg_ok (config m) → rc_at (mRecheck m) xs a → length rs = length (drop a xs) →
  ∃ m', answers m (txs_of (drop a xs)) rs = Done m' ∧ frame m m' ∧ isRechecking (mRecheck m') = false ∧ doneCh (mRecheck m') = true ∧
    pool_ok m' (take a xs ++ kept m (drop a xs) rs).
Proof.
  induction rs as [|r rs IH]; intros m xs a R Hc Hat Hlen.
  { destruct Hat as (_ & _ & _ & Ha). rewrite length_drop in Hlen. simpl in Hlen. lia. }
  destruct (lookup_lt_is_Some_2 xs a) as [[i v] Hx]; [apply Hat|].
  destruct (recheck_answer_step m xs a i v r rs R Hc Hat Hx) as (m1 & err & ys & b & E & F & R1 & _ & Ed & Ek & Hrc).
  assert (txs_of (drop a xs) = mtTx v :: txs_of (drop (S a) xs)) as -> by (by rewrite (drop_S _ _ _ Hx)).
  rewrite (drop_S _ _ _ Hx) in Hlen. cbn [answers length] in Hlen |- *. rewrite E. cbn [mbind outcome_bind]. rewrite <- Ek.
  case_decide as Hs.
  - assert (rs = []) as ->. { apply nil_length_inv. rewrite length_drop in Hlen. lia. }
    assert (drop b ys = []) as Ed' by (rewrite Ed; apply drop_ge; lia).
    exists m1. rewrite drop_ge by lia. split; [done|]. split; [done|]. split; [apply Hrc|]. split; [apply Hrc|]. rewrite Ed' in *. simpl.
    assert (take b ys = ys) as ->; [|by rewrite app_nil_r]. rewrite <- (take_drop b ys) at 2. by rewrite Ed', app_nil_r.
  - destruct Hrc as [Hat1 _]. destruct (IH m1 ys b R1) as (m2 & E2 & F2 & Hd & Hch & R2); [by rewrite (proj1 F)|done|rewrite Ed; lia|].
    exists m2. rewrite <- Ed. split; [done|]. split; [by apply (frame_trans _ m1)|]. split; [done|]. split; [done|]. by rewrite (kept_same_post m m1) in R2.
Qed.

Lemma kept_app m (app : Tx → CheckTxResponse) ys : kept m ys (app <$> txs_of ys) = filter (λ y, keeps m (mtTx y.2) (app (mtTx y.2)) = true) ys.
Proof. induction ys as [|y ys IH]; [done|]. rewrite filter_cons, <- IH. simpl. by destruct (keeps _ _ _). Qed.

(** A local client answers within the loop. *)
Lemma local_loop app fuel : ∀ m xs a, pool_ok m xs → cfg_ok (config m) → rc_at (mRecheck m) xs a → (length xs - a < fuel)%nat →
  ∃ m', recheck_loop (Local app) fuel m (id_at xs a) [] = Done (m', []) ∧ frame m m' ∧ isRechecking (mRecheck m') = false ∧ doneCh (mRecheck m') = true ∧
    pool_ok m' (take a xs ++ filter (λ y, keeps m (mtTx y.2) (app (mtTx y.2)) = true) (drop a xs)).
Proof.
  induction fuel as [|fuel IH]; intros m xs a R Hc Hat Hf; [lia|].
  destruct (lookup_lt_is_Some_2 xs a) as [[i v] Hx]; [apply Hat|]. assert (id_at xs a = Some i) as Hid by (apply id_at_Some; eauto).
  simpl. rewrite Hid. simpl. rewrite (rep_elem _ _ _ _ _ (ok_rep _ _ R) Hx). simpl.
  set (m0 := set_recheck m _). assert (pool_ok m0 xs) as R0 by (by apply (pool_ok_ext m)).
  destruct (recheck_answer_step m0 xs a i v (app (mtTx v)) (app <$> txs_of (drop (S a) xs)) R0 Hc Hat Hx) as (m1 & err & ys & b & E & F & R1 & Hn & Ed & Ek & Hrc).
  rewrite E. simpl. rewrite Hn. simpl.
  assert (app (mtTx v) :: (app <$> txs_of (drop (S a) xs)) = app <$> txs_of (drop a xs)) as Eapp by (by rewrite (drop_S _ _ _ Hx)).
  rewrite Eapp, kept_app in Ek. rewrite <- Ed, kept_app in Ek. change (keeps m0) with (keeps m) in Ek.
  rewrite <- Ek. case_decide as Hs.
  - assert (drop b ys = []) as Ed' by (rewrite Ed; apply drop_ge; lia).
    assert (id_at ys b = None) as -> by (apply id_at_None; apply (f_equal length) in Ed'; rewrite length_drop in Ed'; simpl in Ed'; lia).
    destruct fuel; simpl; exists m1; (split; [done|]); (split; [done|]); (split; [apply Hrc|]); (split; [apply Hrc|]); rewrite Ed', app_nil_r;
      (assert (take b ys = ys) as ->; [rewrite <- (take_drop b ys) at 2; by rewrite Ed', app_nil_r|done]).
  - destruct Hrc as [Hat1 _]. pose proof (lookup_lt_Some _ _ _ Hx).
    assert (length ys - b = length xs - S a)%nat as El by (rewrite <- !length_drop; by rewrite Ed).
    destruct (IH m1 ys b R1) as (m2 & E2 & F2 & Hd & Hch & R2); [by rewrite (proj1 F)|done|lia|].
    exists m2. split; [done|]. split; [by apply (frame_trans _ m1)|]. split; [done|]. split; [done|].
    rewrite (filter_ext_in _ (λ y, keeps m1 (mtTx y.2) (app (mtTx y.2)) = true)); [done|].
    intros y _. by rewrite (keeps_frame m0 m1).
Qed.

(** An asynchronous client collects the requests. *)
Lemma async_loop fuel : ∀ m xs a sent, pool_ok m xs → (length xs - a < fuel)%nat →
  ∃ n, recheck_loop Async fuel m (id_at xs a) sent = Done (set_recheck m (set_pendingTxs (mRecheck m) n), sent ++ txs_of (drop a xs)).
Proof.
  induction fuel as [|fuel IH]; intros m xs a sent R Hf; [lia|]. destruct (id_at xs a) as [i|] eqn:Hid; simpl.
  - apply id_at_Some in Hid as [v Hx]. rewrite (rep_elem _ _ _ _ _ (ok_rep _ _ R) Hx). simpl.
    rewrite (rep_Next _ _ a _ (ok_rep _ _ R)) by (apply id_at_Some; eauto). simpl. pose proof (lookup_lt_Some _ _ _ Hx).
    set (m0 := set_recheck m _). destruct (IH m0 xs (S a) (sent ++ [mtTx v])) as [n E]; [by apply (pool_ok_ext m)|lia|].
    exists n. rewrite E, (drop_S _ _ _ Hx). simpl. by rewrite <- (assoc (++)).
  - apply id_at_None in Hid. exists (numPendingTxs (mRecheck m)). rewrite drop_ge, app_nil_r by done. by destruct m as [? ? ? ? ? ? ? []].
Qed.

(** ** Updating *)

Definition not_committed (txs : list Tx) (x : nat * mempoolTx) : Prop := entry_key x ∉ tx_Key <$> txs.
#[local] Instance not_committed_dec txs x : Decision (not_committed txs x).
Proof. unfold not_committed. apply _. Defined.

Lemma committed_cache_ok m xs tx (code : Z) : pool_ok m xs → let m' := if code =? CodeTypeOK then (addToCache m tx).1 else tryRemoveFromCache m tx in
  pool_ok m' xs ∧ frame m m' ∧ mRecheck m' = mRecheck m.
Proof.
  intros R. destruct (code =? CodeTypeOK); simpl.
  - unfold addToCache. destruct (cache_Push _ _). split; [by apply (pool_ok_ext m)|done].
  - destruct (cache_frame m tx) as (F & _ & _ & _ & E). split; [by apply pool_ok_tryRemove|done].
Qed.

Lemma remove_committed_spec txs codes : ∀ m xs i, pool_ok m xs → cfg_ok (config m) → 0 ≤ i → i + zlen txs ≤ zlen codes →
  ∃ m', remove_committed m txs codes i = Done m' ∧ pool_ok m' (filter (not_committed txs) xs) ∧ frame m m' ∧ mRecheck m' = mRecheck m.
Proof.
  induction txs as [|tx txs IH]; intros m xs i R Hc Hi Hl; simpl.
  - exists m. split; [done|]. split; [|done]. rewrite filter_keeps; [done|]. intros x _ ?%not_elem_of_nil. done.
  - destruct (idx_in_range codes i) as (code & -> & _); [unfold zlen in *; simpl in *; lia|]. simpl.
    destruct (committed_cache_ok m xs tx code R) as (R1 & F1 & E1). set (m1 := if code =? CodeTypeOK then _ else _) in *.
    destruct (RemoveTxByKey_spec m1 xs (tx_Key tx) R1) as (l & mp & b & e & -> & R2); [by rewrite (proj1 F1)|]. simpl.
    destruct (IH (set_txs m1 l mp b) _ (i + 1) R2) as (m' & E' & R' & F' & Er); [simpl; by rewrite (proj1 F1)|lia|unfold zlen in *; simpl in *; lia|].
    exists m'. split; [done|]. split; [|split; [by apply (frame_trans _ m1)|by rewrite Er]].
    rewrite list_filter_filter in R'.
    rewrite (filter_ext_in _ (λ x, not_committed txs x ∧ entry_key x ≠ tx_Key tx)); [done|].
    intros x _. unfold not_committed. simpl. rewrite not_elem_of_cons. tauto.
Qed.

(** Which entries an update leaves: those that were not committed and that the application and the
    filter of the new height still accept. *)
Definition still_valid (post : option PostCheckFunc) (app : Tx → CheckTxResponse) (tx : Tx) : bool :=
  (resCode (app tx) =? CodeTypeOK) && bool_decide ((match post with Some f => f tx (app tx) | None => None end) = None).
Definition new_post m (post : option PostCheckFunc) : option PostCheckFunc := match post with Some f => Some f | None => postCheck m end.
Definition survives m txs post app (x : nat * mempoolTx) : Prop := not_committed txs x ∧ still_valid (new_post m post) app (mtTx x.2) = true.
#[local] Instance survives_dec m txs post app x : Decision (survives m txs post app x).
Proof. unfold survives. apply _. Defined.

Lemma keeps_valid m app tx : keeps m tx (app tx) = still_valid (postCheck m) app tx.
Proof.
  unfold keeps, invalid, post_check, still_valid. destruct (postCheck m) as [f|]; [destruct (f _ _)|]; simpl;
    rewrite ?andb_false_r, ?andb_true_r; try done; by destruct (_ =? _).
Qed.

Lemma rc_init_at m xs : pool_ok m xs → xs ≠ [] → isRechecking (mRecheck m) = false →
  ∃ r, rc_init (mRecheck m) (Front (mTxs m)) (Back (mTxs m)) = Done r ∧ rc_at r xs 0 ∧ doneCh r = doneCh (mRecheck m) ∧ recheckFull r = recheckFull (mRecheck m).
Proof.
  intros R Hx Hr. unfold rc_init, rc_done. rewrite Hr. simpl. eexists. split; [done|]. split; [|done].
  split; [done|]. split; [apply (rep_head _ _ (ok_rep _ _ R))|]. split; [apply (rep_tail _ _ (ok_rep _ _ R))|]. destruct xs; [done|simpl; lia].
Qed.

Lemma recheckTxs_async m xs : pool_ok m xs → isRechecking (mRecheck m) = false →
  ∃ m', recheckTxs Async m = Done (m', txs_of xs, bool_decide (xs ≠ [])) ∧ pool_ok m' xs ∧ frame m m' ∧ doneCh (mRecheck m') = doneCh (mRecheck m) ∧
    (if decide (xs = []) then isRechecking (mRecheck m') = false else rc_at (mRecheck m') xs 0).
Proof.
  intros R Hr. unfold recheckTxs. rewrite (ok_len _ _ R). destruct (decide (xs = [])) as [->|Hx].
  { rewrite bool_decide_eq_false_2 by tauto. exists m. done. }
  rewrite (proj2 (Z.leb_gt _ _)) by (unfold zlen; destruct xs; simpl; [done|lia]).
  destruct (rc_init_at m xs R Hx Hr) as (r & -> & Hat & Hd & _). cbn [mbind outcome_bind]. unfold Front at 1. rewrite (rep_head _ _ (ok_rep _ _ R)).
  destruct (async_loop (S (Z.to_nat (zlen xs))) (set_recheck m r) xs 0 []) as [n ->]; [by apply (pool_ok_ext m)|unfold zlen; lia|]. simpl.
  rewrite bool_decide_eq_true_2 by done. eexists. split; [done|]. split; [by apply (pool_ok_ext m)|]. done.
Qed.

Lemma recheckTxs_local app m xs : pool_ok m xs → cfg_ok (config m) → isRechecking (mRecheck m) = false →
  ∃ m', recheckTxs (Local app) m = Done (m', [], bool_decide (xs ≠ [])) ∧ frame m m' ∧ isRechecking (mRecheck m') = false ∧
    (xs ≠ [] → doneCh (mRecheck m') = true) ∧ pool_ok m' (filter (λ y, still_valid (postCheck m) app (mtTx y.2) = true) xs).
Proof.
  intros R Hc Hr. unfold recheckTxs. rewrite (ok_len _ _ R). destruct (decide (xs = [])) as [->|Hx].
  { rewrite bool_decide_eq_false_2 by tauto. exists m. done. }
  rewrite (proj2 (Z.leb_gt _ _)) by (unfold zlen; destruct xs; simpl; [done|lia]).
  destruct (rc_init_at m xs R Hx Hr) as (r & -> & Hat & _). cbn [mbind outcome_bind]. unfold Front at 1. rewrite (rep_head _ _ (ok_rep _ _ R)).
  destruct (local_loop app (S (Z.to_nat (zlen xs))) (set_recheck m r) xs 0) as (m' & -> & F & Hd & Hch & R'); [by apply (pool_ok_ext m)|done|done|unfold zlen; lia|].
  simpl. rewrite bool_decide_eq_true_2 by done. exists m'. split; [done|]. split; [done|]. split; [done|]. split; [done|].
  rewrite take_0, drop_0 in R'. simpl in R'.
  rewrite (filter_ext_in _ (λ y, keeps (set_recheck m r) (mtTx y.2) (app (mtTx y.2)) = true)); [done|].
  intros y _. by rewrite keeps_valid.
Qed.

Lemma Update_end_ok m xs : pool_ok m xs → ∃ n ch, Update_end m = Done (set_available m n ch).
Proof.
  intros R. unfold Update_end. destruct (Z.ltb_spec 0 (mSize m)); [by apply notify_ok|].
  exists (notifiedTxsAvailable m), (txsAvailable m). by destruct m.
Qed.

(** C30: An update removes exactly the committed and the invalidated transactions.  Rechecking is
    configured, none is under way, every committed transaction has a result, and the application answers every recheck, in order, before [RecheckTimeout]:
    at once, or all after the requests were sent.  Then what is left after the recheck is the
    entries that were not committed and that the application and the filter of the new height
    accept, in their order; the recheck is over and its end has been signalled. *)
Theorem update_keeps_valid m xs app height txs codes pre post :
  pool_ok m xs → cfg_ok (config m) → isRechecking (mRecheck m) = false → zlen txs ≤ zlen codes → cfgRecheck (config m) = true →
  let ys := filter (survives m txs post app) xs in
  (∃ m1 wait, Update_begin (Local app) m height txs codes pre post = Done (m1, [], wait) ∧
     isRechecking (mRecheck m1) = false ∧ (wait = true → doneCh (mRecheck m1) = true) ∧ pool_ok m1 ys) ∧
  (∃ m1 sent wait m2, Update_begin Async m height txs codes pre post = Done (m1, sent, wait) ∧ answers m1 sent (app <$> sent) = Done m2 ∧
     isRechecking (mRecheck m2) = false ∧ (wait = true → doneCh (mRecheck m2) = true) ∧ pool_ok m2 ys).
Proof.
  intros R Hc Hr Hl Hcfg ys. unfold Update_begin.
  set (m0 := set_update m height pre post). assert (pool_ok m0 xs) as R0 by (by apply (pool_ok_ext m)).
  destruct (remove_committed_spec txs codes m0 xs 0 R0 Hc ltac:(lia) ltac:(lia)) as (m1 & -> & R1 & F1 & E1). cbn [mbind outcome_bind].
  assert (config m1 = config m) as Ec by apply F1. assert (postCheck m1 = new_post m post) as Ep by apply F1.
  assert (isRechecking (mRecheck m1) = false) as Hr1 by (by rewrite E1). rewrite Ec, Hcfg.
  assert (filter (λ y, still_valid (postCheck m1) app (mtTx y.2) = true) (filter (not_committed txs) xs) = ys) as Ey.
  { rewrite Ep, list_filter_filter. apply filter_ext_in. intros x _. unfold survives. tauto. }
  split.
  - destruct (recheckTxs_local app m1 _ R1) as (m2 & -> & _ & Hd & Hch & R2); [by rewrite Ec|done|].
    eexists _, _. split; [done|]. split; [done|]. split; [intros Hw%bool_decide_eq_true; auto|]. by rewrite <- Ey.
  - destruct (recheckTxs_async m1 _ R1 Hr1) as (m2 & -> & R2 & F2 & _ & Hat).
    assert (postCheck m2 = postCheck m1) as Ep2 by apply F2. destruct (decide (filter (not_committed txs) xs = [])) as [Hx|Hx].
    + eexists _, _, _, m2. rewrite Hx in *. split; [done|]. split; [done|]. split; [done|]. split; [by rewrite bool_decide_eq_false_2 by tauto|].
      by rewrite <- Ey.
    + destruct (answers_spec (app <$> txs_of (filter (not_committed txs) xs)) m2 _ 0 R2) as (m3 & E3 & _ & Hd & Hch & R3).
      { by rewrite (proj1 F2), Ec. } { done. } { unfold txs_of. by rewrite !length_fmap. }
      rewrite drop_0 in E3. rewrite drop_0, take_0, kept_app in R3. eexists _, _, _, m3. split; [done|]. split; [done|]. split; [done|]. split; [done|].
      rewrite <- Ey. simpl in R3. rewrite (filter_ext_in _ (λ y, keeps m2 (mtTx y.2) (app (mtTx y.2)) = true)); [done|].
      intros y _. by rewrite keeps_valid, Ep2.
Qed.

(** ** Runs *)

Lemma remove_all_empties fuel : ∀ l xs, rep l xs → (length xs < fuel)%nat → ∃ l', remove_all fuel l (id_at xs 0) = Done l' ∧ rep l' [] ∧ maxLen l' = maxLen l.
Proof.
  induction fuel as [|fuel IH]; intros l xs R Hf; [lia|]. destruct xs as [|[i v] xs]; [by exists l|]. simpl in Hf. cbn [remove_all id_at lookup list_lookup fmap option_fmap option_map fst].
  destruct (unlink_spec l ((i, v) :: xs) i v 0 R eq_refl) as (l1 & E & R1 & Hm & He).
  apply outcome_bind_Done in E as (l0 & -> & E). cbn [mbind outcome_bind]. rewrite E. cbn [mbind outcome_bind].
  unfold Next, elem. rewrite He. cbn [mbind outcome_bind next]. destruct (IH l1 xs R1) as (l2 & E2 & R2 & Hm2); [lia|].
  exists l2. split; [exact E2|]. split; [done|]. by rewrite Hm2.
Qed.

Lemma Flush_spec m xs : pool_ok m xs → cfg_ok (config m) → ∃ m', Flush m = Done m' ∧ pool_ok m' [] ∧ frame m m' ∧ mRecheck m' = mRecheck m.
Proof.
  intros R [? ?]. unfold Flush, removeAllTxs. change (mSize (set_cache _ _)) with (mSize m). change (mTxs (set_cache _ _)) with (mTxs m).
  unfold Front. rewrite (rep_head _ _ (ok_rep _ _ R)), (ok_len _ _ R).
  destruct (remove_all_empties (S (Z.to_nat (zlen xs))) (mTxs m) xs (ok_rep _ _ R)) as (l & -> & R' & Hm); [unfold zlen; lia|].
  cbn [mbind outcome_bind]. eexists. split; [done|]. split; [|done]. split; simpl; [done|by rewrite Hm; apply (ok_max _ _ R)| |done| |].
  - intros k i. rewrite lookup_empty. split; [done|]. intros (v & ?%not_elem_of_nil & _). done.
  - unfold zlen. simpl. lia.
  - unfold bytes_of. simpl. lia.
Qed.

(** While a recheck is under way, the oldest requests are those of the entries from the cursor on,
    and no transaction is added before they are answered. *)
Definition queue_ok (r : recheck) xs (q : list (Tx * option ID)) : Prop :=
  Forall (λ p, p.2 ≠ None → zlen p.1 ≤ max_int64) q ∧
  (isRechecking r = true → ∃ a checks, rc_at r xs a ∧ q = ((λ tx, (tx, None)) <$> txs_of (drop a xs)) ++ checks ∧ Forall (λ p, p.2 ≠ None) checks).

Definition sys_ok (s : Sys) xs : Prop :=
  pool_ok (sMem s) xs ∧ cfg_ok (config (sMem s)) ∧ queue_ok (mRecheck (sMem s)) xs (sQueue s) ∧
  Forall (λ c, zlen c.1.1 ≤ max_int64) (sCallers s).

Definition event_ok (ev : event) : Prop :=
  match ev with
  | EvCheck _ tx _ => zlen tx ≤ max_int64
  | EvUpdate _ txs codes _ _ => zlen txs ≤ zlen codes
  | _ => True
  end.

Lemma CheckTx_cache_same m tx sender : let m' := (CheckTx_cache m tx sender).1 in
  frame m m' ∧ mTxs m' = mTxs m ∧ txsMap m' = txsMap m ∧ txsBytes m' = txsBytes m ∧ mRecheck m' = mRecheck m.
Proof.
  unfold CheckTx_cache, addToCache. destruct (cache_Push _ _) as [c added]. destruct added; [done|].
  case_bool_decide; [|done]. destruct (getCElement _ _); [|done]. simpl.
  destruct (addSender_same (set_cache m c) n sender) as (? & ? & ? & ? & ? & _). done.
Qed.

Lemma queue_ok_idle r xs q : isRechecking r = false → Forall (λ p : Tx * option ID, p.2 ≠ None → zlen p.1 ≤ max_int64) q → queue_ok r xs q.
Proof. intros Hr Hq. split; [done|]. congruence. Qed.

Lemma step_check s xs connErr tx sender : sys_ok s xs → zlen tx ≤ max_int64 → sUpdating s = false →
  ∃ s', sys_step s (EvCheck connErr tx sender) = Done (Some s') ∧ sys_ok s' xs.
Proof.
  intros (R & Hc & Hq & Hcl) Hl Hu. simpl. rewrite Hu. eexists. split; [done|]. split_and!; [done..|]. simpl.
  destruct (CheckTx_checks _ _ _); [done|]. apply Forall_app. split; [done|by constructor].
Qed.

Lemma queue_ok_send r xs q tx sender : queue_ok r xs q → zlen tx ≤ max_int64 → queue_ok r xs (q ++ [(tx, Some sender)]).
Proof.
  intros [Hq Hrc] Hl. split; [apply Forall_app; split; [done|by constructor]|].
  intros Hr. destruct (Hrc Hr) as (a & checks & Hat & -> & Hch). exists a, (checks ++ [(tx, Some sender)]). split; [done|].
  split; [by rewrite (assoc (++))|]. apply Forall_app. split; [done|]. by constructor.
Qed.

Lemma step_caller s xs k : sys_ok s xs → ∃ s', sys_step s (EvCaller k) = Done s' ∧ sys_ok (default s s') xs.
Proof.
  intros Hs. pose proof Hs as (R & Hc & Hq & Hcl). simpl. destruct (sCallers s !! k) as [[[tx sender] pc]|] eqn:Ek; [|by exists None].
  pose proof (Forall_lookup_1 _ _ _ _ Hcl Ek) as Hl. simpl in Hl. destruct pc.
  - destruct (CheckTx_cache_same (sMem s) tx sender) as (F & E1 & E2 & E3 & E4). destruct (CheckTx_cache (sMem s) tx sender) as [m err]. simpl in *.
    eexists. split; [done|]. simpl. split; [by apply (pool_ok_ext (sMem s)); [..|apply F|]|]. split; [simpl; by rewrite (proj1 F)|]. simpl. rewrite E4.
    split; [done|]. destruct err; [by apply Forall_delete|by apply Forall_insert].
  - eexists. split; [done|]. simpl. split_and!; [done|done|by apply queue_ok_send|by apply Forall_delete].
Qed.

(** The steps of a call that nothing overlaps are [CheckTx]. *)
Lemma check_steps s connErr tx sender : sUpdating s = false → sCallers s = [] →
  sys_run s [EvCheck connErr tx sender; EvCaller 0; EvCaller 0] =
    let '(m, err) := CheckTx (sMem s) connErr tx sender in
    Done (mkSys m (match err with None => sQueue s ++ [(tx, Some sender)] | Some _ => sQueue s end) false []).
Proof.
  intros Hu Hc. unfold CheckTx. simpl. rewrite Hu, Hc. destruct (CheckTx_checks _ _ _); simpl; [done|].
  destruct (CheckTx_cache _ _ _) as [m [e|]]; by simpl.
Qed.

Lemma rc_at_idle r xs a : rc_at r xs a → drop a xs ≠ [].
Proof. intros (_ & _ & _ & Ha) E. apply (f_equal length) in E. rewrite length_drop in E. simpl in E. lia. Qed.

Lemma queue_empty_idle r xs : queue_ok r xs [] → isRechecking r = false.
Proof.
  intros [_ Hr]. destruct (isRechecking r); [|done]. destruct (Hr eq_refl) as (a & checks & Hat & E & _).
  apply rc_at_idle in Hat. by destruct (drop a xs).
Qed.

Lemma step_answer s xs res : sys_ok s xs → sQueue s ≠ [] → ∃ s' xs', sys_step s (EvAnswer res) = Done (Some s') ∧ sys_ok s' xs'.
Proof.
  intros (R & Hc & [Hq Hrc] & Hcl) Hne. simpl. destruct (sQueue s) as [|[tx [sender|]] q] eqn:Eq; [done| |].
  - apply Forall_cons in Hq as [Hl Hq]. assert (isRechecking (mRecheck (sMem s)) = false) as Hr.
    { destruct (isRechecking _); [|done]. destruct (Hrc eq_refl) as (a & checks & Hat & E & _). apply rc_at_idle in Hat. by destruct (drop a xs). }
    destruct (handleCheckTx_spec (sMem s) xs tx sender res R Hc) as (m' & err & -> & F & E4 & R' & _); [by apply Hl|done|]. simpl.
    eexists _, _. split; [done|]. split; [done|]. split; [simpl; by rewrite (proj1 F)|]. split; [|done]. apply queue_ok_idle; [simpl; by rewrite E4|done].
  - apply Forall_cons in Hq as [_ Hq]. destruct (isRechecking (mRecheck (sMem s))) eqn:Hr.
    + destruct (Hrc eq_refl) as (a & checks & Hat & E & Hch). destruct (lookup_lt_is_Some_2 xs a) as [[i v] Hx]; [apply Hat|].
      rewrite (drop_S _ _ _ Hx) in E. simpl in E. injection E as -> ->.
      destruct (recheck_answer_step (sMem s) xs a i v res [] R Hc Hat Hx) as (m1 & err & ys & b & -> & F & R1 & _ & Ed & _ & Hst). simpl.
      eexists _, ys. split; [done|]. split; [done|]. split; [simpl; by rewrite (proj1 F)|]. split; [|done]. case_decide as Hs.
      * apply queue_ok_idle; [apply Hst|done].
      * split; [done|]. intros _. exists b, checks. split; [apply Hst|]. split; [|done]. by rewrite Ed.
    + unfold handleRecheckTxResponse, rc_done. rewrite Hr. simpl. eexists _, xs. split; [done|]. split; [done|]. split; [done|]. split; [by apply queue_ok_idle|done].
Qed.

Lemma sys_ok_idle m xs q u cl : pool_ok m xs → cfg_ok (config m) → isRechecking (mRecheck m) = false →
  Forall (λ p : Tx * option ID, p.2 ≠ None → zlen p.1 ≤ max_int64) q →
  Forall (λ c : Tx * ID * check_pc, zlen c.1.1 ≤ max_int64) cl → sys_ok (mkSys m q u cl) xs.
Proof. intros R Hc Hr Hq Hcl. split_and!; [done|done|by apply queue_ok_idle|done]. Qed.

Lemma rechecks_ok (sent : list Tx) : Forall (λ p : Tx * option ID, p.2 ≠ None → zlen p.1 ≤ max_int64) ((λ tx, (tx, None)) <$> sent).
Proof. apply Forall_fmap, Forall_true. intros tx Hn. done. Qed.

Lemma step_update s xs height txs codes pre post : sys_ok s xs → zlen txs ≤ zlen codes → sUpdating s = false → sQueue s = [] → sCallers s = [] →
  ∃ s' xs', sys_step s (EvUpdate height txs codes pre post) = Done (Some s') ∧ sys_ok s' xs'.
Proof.
  intros (R & Hc & Hq & Hcl) Hl Hu Eq Ecl. simpl. rewrite Hu, Eq, Ecl in *. pose proof (queue_empty_idle _ _ Hq) as Hr. unfold Update_begin.
  set (m0 := set_update (sMem s) height pre post). assert (pool_ok m0 xs) as R0 by (by apply (pool_ok_ext (sMem s))).
  destruct (remove_committed_spec txs codes m0 xs 0 R0 Hc ltac:(lia) ltac:(lia)) as (m1 & -> & R1 & F1 & E1). cbn [mbind outcome_bind].
  assert (cfg_ok (config m1)) as Hc1 by (by rewrite (proj1 F1)). assert (isRechecking (mRecheck m1) = false) as Hr1 by (by rewrite E1).
  assert (∃ s' xs', (m2 ← Update_end m1; Done (Some (mkSys m2 [] false []))) = Done (Some s') ∧ sys_ok s' xs') as Hend.
  { destruct (Update_end_ok _ _ R1) as (n & ch & ->). simpl. eexists _, _. split; [done|]. apply sys_ok_idle; [by apply (pool_ok_ext m1)|done..]. }
  destruct (cfgRecheck (config m1)); [|exact Hend]. destruct (recheckTxs_async m1 _ R1 Hr1) as (m2 & -> & R2 & F2 & _ & Hat).
  cbn [mbind outcome_bind]. destruct (decide (filter (not_committed txs) xs = [])) as [Hx|Hx].
  - rewrite Hx, bool_decide_eq_false_2 by tauto. rewrite Hx in R2. destruct (Update_end_ok _ _ R2) as (n & ch & ->). simpl. eexists _, _. split; [done|].
    apply sys_ok_idle; [by apply (pool_ok_ext m2)|by simpl; rewrite (proj1 F2)|done|done|done].
  - rewrite bool_decide_eq_true_2 by done. eexists _, _. split; [done|]. split; [done|]. split; [simpl; by rewrite (proj1 F2)|].
    split; [|done]. split; [apply rechecks_ok|]. intros _. exists 0%nat, []. split; [done|]. split; [|done]. simpl. by rewrite app_nil_r, drop_0.
Qed.

Lemma queue_ok_ext r r' xs q : isRechecking r' = isRechecking r → cursor r' = cursor r → rcEnd r' = rcEnd r → queue_ok r xs q → queue_ok r' xs q.
Proof. intros E1 E2 E3 [Hq Hr]. split; [done|]. unfold rc_at. rewrite E1, E2, E3. exact Hr. Qed.

(** Every step leads from a good state to a good state, or has to wait. *)
Lemma step_ok s xs ev : sys_ok s xs → event_ok ev → ∃ s' xs', sys_step s ev = Done s' ∧ sys_ok (default s s') xs'.
Proof.
  intros Hs He. pose proof Hs as (R & Hc & Hq & Hcl).
  assert (∃ s' xs', Done None = Done s' ∧ sys_ok (default s s') xs') as Hwait by (exists None, xs; done).
  assert (∀ f, (∃ s' xs', f = Done (Some s') ∧ sys_ok s' xs') → ∃ s' xs', f = Done s' ∧ sys_ok (default s s') xs') as Hgo.
  { intros f (s' & xs' & -> & ?). by exists (Some s'), xs'. }
  destruct ev as [ce tx sender|k|res| |h txs codes pre post| | |]; simpl in He.
  - destruct (sUpdating s) eqn:Hu; [simpl; by rewrite Hu|]. apply Hgo. destruct (step_check s xs ce tx sender Hs He Hu) as (s' & ? & ?). eauto.
  - destruct (step_caller s xs k Hs) as (s' & ? & ?). eauto.
  - destruct (decide (sQueue s = [])) as [Eq|Eq]; [simpl; by rewrite Eq|]. apply Hgo. by apply (step_answer s xs).
  - apply Hgo. eexists _, xs. split; [done|]. split; [by apply (pool_ok_ext (sMem s))|]. split; [done|]. split; [by apply (queue_ok_ext (mRecheck (sMem s)))|done].
  - destruct (sUpdating s) eqn:Hu; [simpl; by rewrite Hu|]. destruct (decide (sQueue s = [])) as [Eq|Eq]; [|simpl; rewrite Hu; by destruct (sQueue s)].
    destruct (decide (sCallers s = [])) as [Ecl|Ecl]; [|simpl; rewrite Hu, Eq; by destruct (sCallers s)]. apply Hgo. by apply (step_update s xs).
  - simpl. destruct (sUpdating s) eqn:Hu; [|done]. apply Hgo.
    destruct (Update_end_ok (recheck_timeout (sMem s)) xs) as (n & ch & ->); [by apply (pool_ok_ext (sMem s))|]. simpl. eexists _, xs. split; [done|].
    apply sys_ok_idle; [by apply (pool_ok_ext (sMem s))|done|done|apply Hq|done].
  - simpl. destruct (sUpdating s) eqn:Hu; [|done]. unfold recheck_signal. destruct (doneCh _); [|done]. apply Hgo.
    destruct (Update_end_ok (set_recheck (sMem s) (set_doneCh (mRecheck (sMem s)) false)) xs) as (n & ch & ->); [by apply (pool_ok_ext (sMem s))|].
    simpl. eexists _, xs. split; [done|]. split; [by apply (pool_ok_ext (sMem s))|]. split; [done|]. split; [by apply (queue_ok_ext (mRecheck (sMem s)))|done].
  - simpl. destruct (sUpdating s) eqn:Hu; [done|]. destruct (sQueue s) as [|p q] eqn:Eq; [|done]. destruct (sCallers s) as [|c cl] eqn:Ecl; [|done]. apply Hgo.
    destruct (Flush_spec _ _ R Hc) as (m & -> & R' & F & E). simpl. eexists _, []. split; [done|].
    apply sys_ok_idle; [done|by rewrite (proj1 F)|rewrite E; by apply (queue_empty_idle _ xs)|done|done].
Qed.

Lemma sys_run_ok evs : ∀ s xs, sys_ok s xs → Forall event_ok evs → ∃ s' xs', sys_run s evs = Done s' ∧ sys_ok s' xs'.
Proof.
  induction evs as [|ev evs IH]; intros s xs Hs He; simpl; [eauto|]. apply Forall_cons in He as [He Hes].
  destruct (step_ok s xs ev Hs He) as (s1 & xs1 & -> & Hs1). simpl. by apply (IH _ xs1).
Qed.

Lemma keys_nodup m xs : pool_ok m xs → NoDup (entry_key <$> xs).
Proof.
  intros R. apply NoDup_alt. intros i j k Hi Hj.
  rewrite list_lookup_fmap in Hi, Hj. apply fmap_Some in Hi as ([a v] & Ha & ->), Hj as ([b w] & Hb & E). unfold entry_key in E. simpl in E.
  assert (txsMap m !! tx_Key (mtTx v) = Some a) as E1 by (apply (ok_map _ _ R); exists v; split; [by apply list_elem_of_lookup_2 in Ha|done]).
  assert (txsMap m !! tx_Key (mtTx v) = Some b) as E2 by (apply (ok_map _ _ R); exists w; split; [by apply list_elem_of_lookup_2 in Hb|done]).
  assert (a = b) as -> by congruence. apply (id_at_inj _ _ _ _ b (ok_rep _ _ R)); apply id_at_Some; eauto.
Qed.


(** ** Reaping *)

Definition gas_of xs : Z := zsum (λ x : nat * mempoolTx, mtGasWanted x.2) xs.

(** The loop on the list: what it adds to the transactions reaped so far. *)
Fixpoint reap_spec (xs : list (nat * mempoolTx)) (maxBytes maxGas gas size : Z) : list (nat * mempoolTx) :=
  match xs with
  | [] => []
  | x :: xs =>
      let size' := wrap64 (size + txSize (mtTx x.2)) in
      let gas' := wrap64 (gas + mtGasWanted x.2) in
      if ((-1 <? maxBytes) && (maxBytes <? size')) || ((-1 <? maxGas) && (maxGas <? gas')) then []
      else x :: reap_spec xs maxBytes maxGas gas' size'
  end.

Lemma reap_loop fuel : ∀ l xs k maxBytes maxGas gas size acc, rep l xs → (length xs - k < fuel)%nat →
  reap_bytes_gas fuel l (id_at xs k) maxBytes maxGas gas size acc = Done (acc ++ txs_of (reap_spec (drop k xs) maxBytes maxGas gas size)).
Proof.
  induction fuel as [|fuel IH]; intros l xs k maxBytes maxGas gas size acc R Hf; [lia|].
  destruct (id_at xs k) as [i|] eqn:Hid; simpl.
  - apply id_at_Some in Hid as [v Hx]. pose proof (lookup_lt_Some _ _ _ Hx). rewrite (rep_elem _ _ _ _ _ R Hx), (drop_S _ _ _ Hx). simpl.
    destruct ((-1 <? maxBytes) && _); simpl; [by rewrite app_nil_r|]. destruct ((-1 <? maxGas) && _); simpl; [by rewrite app_nil_r|].
    rewrite IH by (done || lia). by rewrite <- (assoc (++)).
  - apply id_at_None in Hid. rewrite drop_ge, app_nil_r by done. done.
Qed.

Lemma Reap_spec m xs maxBytes maxGas : pool_ok m xs → ReapMaxBytesMaxGas m maxBytes maxGas = Done (txs_of (reap_spec xs maxBytes maxGas 0 0)).
Proof.
  intros R. unfold ReapMaxBytesMaxGas, Front. rewrite (rep_head _ _ (ok_rep _ _ R)), (ok_len _ _ R).
  rewrite (reap_loop _ _ xs 0); [by rewrite drop_0|apply (ok_rep _ _ R)|unfold zlen; lia].
Qed.

Definition size_of xs : Z := Block.Block.data_ProtoSize (txs_of xs).
Lemma size_cons x xs : size_of (x :: xs) = txSize (mtTx x.2) + size_of xs.
Proof. unfold size_of, txSize, Block.Block.data_ProtoSize. simpl. lia. Qed.
Lemma txSize_nonneg tx : 0 ≤ txSize tx.
Proof. unfold txSize, Block.Block.data_ProtoSize. simpl. pose proof (Block.Block.message_field_nonneg (zlen tx) (zlen_nonneg tx)). lia. Qed.
Lemma size_nonneg xs : 0 ≤ size_of xs.
Proof. induction xs as [|x xs IH]; [done|]. rewrite size_cons. pose proof (txSize_nonneg (mtTx x.2)). lia. Qed.

(** The gas that the filter lets in does not overflow the sum. *)
Definition gas_ok (maxGas : Z) xs : Prop :=
  0 ≤ maxGas → 2 * maxGas ≤ max_int64 ∧ Forall (λ x : nat * mempoolTx, 0 ≤ mtGasWanted x.2 ≤ maxGas) xs.

Lemma size_nil : size_of [] = 0.
Proof. done. Qed.
Lemma gas_cons x xs : gas_of (x :: xs) = mtGasWanted x.2 + gas_of xs.
Proof. done. Qed.

Lemma reap_within maxBytes maxGas : ∀ xs gas size, 0 ≤ size → size + size_of xs ≤ max_int64 → gas_ok maxGas xs → (0 ≤ maxGas → 0 ≤ gas ≤ maxGas) → (0 ≤ maxBytes → size ≤ maxBytes) →
  ∃ n, reap_spec xs maxBytes maxGas gas size = take n xs ∧
    (0 ≤ maxBytes → size + size_of (take n xs) ≤ maxBytes) ∧ (0 ≤ maxGas → gas + gas_of (take n xs) ≤ maxGas) ∧
    (∀ x, xs !! n = Some x → (0 ≤ maxBytes ∧ maxBytes < size + size_of (take (S n) xs)) ∨ (0 ≤ maxGas ∧ maxGas < gas + gas_of (take (S n) xs))).
Proof.
  induction xs as [|x xs IH]; intros gas size Hs Hb Hg Hgas Hsz.
  { exists 0%nat. simpl. rewrite size_nil. unfold gas_of. simpl. split; [done|]. split; [intros Hm; specialize (Hsz Hm); lia|].
    split; [intros Hm; specialize (Hgas Hm); lia|done]. }
  rewrite size_cons in Hb. pose proof (txSize_nonneg (mtTx x.2)). pose proof (size_nonneg xs).
  assert (0 ≤ maxGas → 2 * maxGas ≤ max_int64 ∧ 0 ≤ mtGasWanted x.2 ≤ maxGas) as Hgx.
  { intros Hm. destruct (Hg Hm) as [? [? _]%Forall_cons]. done. }
  assert (0 ≤ maxGas → wrap64 (gas + mtGasWanted x.2) = gas + mtGasWanted x.2) as Hw.
  { intros Hm. specialize (Hgx Hm). specialize (Hgas Hm). apply wrap64_id. unfold_ints. lia. }
  cbn [reap_spec]. rewrite (wrap64_id (size + _)) by (unfold_ints; lia).
  destruct (_ || _) eqn:Estop.
  - assert ((0 ≤ maxBytes ∧ maxBytes < size + txSize (mtTx x.2)) ∨ (0 ≤ maxGas ∧ maxGas < gas + mtGasWanted x.2)) as Hex.
    { apply orb_true_iff in Estop as [[E1 E2]%andb_true_iff|[E1 E2]%andb_true_iff]; zbool; [left; lia|right].
      assert (0 ≤ maxGas) as Hm by lia. rewrite (Hw Hm) in E2. lia. }
    exists 0%nat. cbn [take]. rewrite size_cons, gas_cons, !take_0, size_nil. change (gas_of []) with 0. split; [done|].
    split; [intros Hm; specialize (Hsz Hm); lia|]. split; [intros Hm; specialize (Hgas Hm); lia|]. intros y _. lia.
  - assert ((0 ≤ maxBytes → size + txSize (mtTx x.2) ≤ maxBytes) ∧ (0 ≤ maxGas → gas + mtGasWanted x.2 ≤ maxGas)) as [Hin1 Hin2].
    { apply orb_false_iff in Estop as [E1%andb_false_iff E2%andb_false_iff]. split; intros Hm.
      - destruct E1; zbool; lia.
      - rewrite Hw in E2 by done. destruct E2; zbool; lia. }
    destruct (IH (wrap64 (gas + mtGasWanted x.2)) (size + txSize (mtTx x.2))) as (n & E & G1 & G2 & G3); [lia|lia| | |done|].
    { intros Hm. destruct (Hg Hm) as [? [_ ?]%Forall_cons]. done. }
    { intros Hm. rewrite (Hw Hm). specialize (Hgas Hm). specialize (Hgx Hm). specialize (Hin2 Hm). lia. }
    exists (S n). rewrite E. cbn [take lookup list_lookup]. rewrite !size_cons, !gas_cons. split; [done|]. split; [intros Hm; specialize (G1 Hm); lia|].
    split; [intros Hm; specialize (G2 Hm); rewrite (Hw Hm) in G2; lia|].
    intros y Hy. destruct (G3 y Hy) as [[? ?]|[Hm ?]]; [left; lia|right]. rewrite (Hw Hm) in *. lia.
Qed.

(** C31: What is reaped fits.  The transactions are the longest run from the front of the mempool
    whose encoding is within the bytes asked for and whose gas is within the gas asked for;
    a negative limit does not limit.  The sums do not leave 64 bits: the mempool's transactions encode to no
    more than that, twice the gas asked for fits, and each transaction wants no less than zero
    and no more than the gas asked for. *)
Theorem reaped_fit m xs maxBytes maxGas : pool_ok m xs → size_of xs ≤ max_int64 → gas_ok maxGas xs →
  ∃ n, ReapMaxBytesMaxGas m maxBytes maxGas = Done (txs_of (take n xs)) ∧
    (0 ≤ maxBytes → Block.Block.data_ProtoSize (txs_of (take n xs)) ≤ maxBytes) ∧ (0 ≤ maxGas → gas_of (take n xs) ≤ maxGas) ∧
    (∀ x, xs !! n = Some x →
       (0 ≤ maxBytes ∧ maxBytes < Block.Block.data_ProtoSize (txs_of (take (S n) xs))) ∨ (0 ≤ maxGas ∧ maxGas < gas_of (take (S n) xs))).
Proof.
  intros R Hs Hg. destruct (reap_within maxBytes maxGas xs 0 0) as (n & E & H1 & H2 & H3); [lia|lia|done|lia|lia|].
  exists n. rewrite (Reap_spec _ _ _ _ R), E. done.
Qed.

Lemma reap_count_loop fuel : ∀ l xs k max acc, rep l xs → (length xs - k < fuel)%nat → zlen acc ≤ max + 1 →
  reap_count fuel l (id_at xs k) max acc = Done (acc ++ txs_of (take (Z.to_nat (max + 1 - zlen acc)) (drop k xs))).
Proof.
  induction fuel as [|fuel IH]; intros l xs k max acc R Hf Hacc; [lia|].
  destruct (id_at xs k) as [i|] eqn:Hid; simpl.
  - apply id_at_Some in Hid as [v Hx]. pose proof (lookup_lt_Some _ _ _ Hx). rewrite (drop_S _ _ _ Hx). destruct (Z.leb_spec (zlen acc) max).
    + rewrite (rep_elem _ _ _ _ _ R Hx). simpl. assert (zlen (acc ++ [mtTx v]) = zlen acc + 1) as El by (unfold zlen; rewrite length_app; simpl; lia).
      rewrite IH by (done || lia). rewrite El. replace (Z.to_nat (max + 1 - zlen acc)) with (S (Z.to_nat (max + 1 - (zlen acc + 1)))) by lia.
      by rewrite <- (assoc (++)).
    + replace (Z.to_nat (max + 1 - zlen acc)) with 0%nat by lia. by rewrite take_0, app_nil_r.
  - apply id_at_None in Hid. rewrite drop_ge, take_nil, app_nil_r by done. done.
Qed.

(** [ReapMaxTxs] reaps one transaction more than it is asked for. *)
Theorem reaps_one_too_many m xs max : pool_ok m xs → 0 ≤ max → ReapMaxTxs m max = Done (txs_of (take (Z.to_nat (max + 1)) xs)).
Proof.
  intros R Hm. unfold ReapMaxTxs, Front. rewrite (rep_head _ _ (ok_rep _ _ R)), (ok_len _ _ R), (proj2 (Z.ltb_ge _ _)) by lia.
  rewrite (reap_count_loop _ _ xs 0); [|apply (ok_rep _ _ R)|unfold zlen; lia|unfold zlen; simpl; lia].
  rewrite drop_0. simpl. do 3 f_equal. unfold zlen. simpl. lia.
Qed.

(** What is reaped can be proposed.  An application that returns the transactions it is given
    passes the check on the size of what it returns. *)
Theorem reaped_can_be_proposed m xs maxBytes maxGas : pool_ok m xs → size_of xs ≤ max_int64 → gas_ok maxGas xs → 0 ≤ maxBytes →
  ∃ txs, ReapMaxBytesMaxGas m maxBytes maxGas = Done txs ∧ Block.Block.txs_Validate txs 0 maxBytes = None.
Proof.
  intros R Hs Hg Hm. destruct (reap_within maxBytes maxGas xs 0 0) as (n & E & H1 & _); [lia|lia|done|lia|lia|].
  exists (txs_of (take n xs)). rewrite (Reap_spec _ _ _ _ R), E. split; [done|].
  assert (∀ ys size, 0 ≤ size → size + size_of ys ≤ maxBytes → size + size_of ys ≤ max_int64 → Block.Block.txs_Validate (txs_of ys) size maxBytes = None) as Hv.
  { intros ys. induction ys as [|y ys IH]; intros size H0' Hle Hle'; [done|]. rewrite size_cons in Hle, Hle'. pose proof (txSize_nonneg (mtTx y.2)). pose proof (size_nonneg ys).
    cbn [txs_of fmap list_fmap Block.Block.txs_Validate]. fold (txSize (mtTx y.2)). rewrite wrap64_id by (unfold_ints; lia).
    rewrite (proj2 (Z.ltb_ge _ _)) by lia. apply IH; lia. }
  apply Hv; [lia|by apply H1|]. pose proof (size_nonneg (drop n xs)). unfold size_of, Block.Block.data_ProtoSize, txs_of in *.
  rewrite <- (take_drop n xs), fmap_app, zsum_app in Hs. lia.
Qed.

End lemmas.

(** ** Examples *)

#[local] Existing Instance Merkle.toy_hash.

Definition ex_cfg : MempoolConfig := mkMempoolConfig true 5 100 100 10 false.
Definition ex_res (gas : Z) : CheckTxResponse := mkCheckTxResponse 0 [] ""%string gas ""%string.
Definition ex_bad : CheckTxResponse := mkCheckTxResponse 1 [] ""%string 0 ""%string.
Definition ex_start : Sys := mkSys (NewCListMempool ex_cfg 1 None None) [] false [].
Definition ex_add (tx : Tx) (gas : Z) : list event := [EvCheck None tx "peer"%string; EvCaller 0; EvCaller 0; EvAnswer (ex_res gas)].
Definition ex_three : list event := ex_add [1] 5 ++ ex_add [2] 6 ++ ex_add [3] 7.
Definition ex_update : event := EvUpdate 2 [[2]] [0] None None.

(** The second of three transactions is committed; the application rejects the first. *)
Definition ex_events : list event := ex_three ++ [ex_update; EvAnswer ex_bad; EvAnswer (ex_res 7); EvSignal].
Definition contents (m : CListMempool) : outcome (list Tx) := xs ← walk (S (Z.to_nat (mSize m))) (mTxs m) (Front (mTxs m)); Done (txs_of xs).

Example ex_events_contents : (s ← sys_run ex_start ex_events; contents (sMem s)) = Done [[3]].
Proof. by vm_compute. Qed.

Lemma ex_events_ok : Forall event_ok ex_events.
Proof. unfold ex_events, ex_three, ex_add, ex_update. simpl. repeat (apply Forall_cons; split; [done|]). done. Qed.


(** Three transactions, and what is known of the mempool that holds them. *)
Definition ex_push (gas : Z) (tx : Tx) (m : CListMempool) : CListMempool :=
  match handleCheckTxResponse m tx "peer"%string (ex_res gas) with Done (m, _) => m | Panic _ => m end.
Definition ex_pool (gas : Z) : CListMempool := ex_push gas [3] (ex_push gas [2] (ex_push gas [1] (sMem ex_start))).
Definition ex_xs (gas : Z) : list (nat * mempoolTx) := [(0%nat, mkMempoolTx 1 gas [1]); (1%nat, mkMempoolTx 1 gas [2]); (2%nat, mkMempoolTx 1 gas [3])].

Lemma ex_push_ok gas m xs tx : pool_ok m xs → cfg_ok (config m) → zlen tx ≤ max_int64 → isRechecking (mRecheck m) = false → admits m tx (ex_res gas) = true →
  pool_ok (ex_push gas tx m) (xs ++ [(fresh (mTxs m), mkMempoolTx (mHeight m) gas tx)]).
Proof.
  intros R Hc Hl Hr Ha. unfold ex_push. destruct (handleCheckTx_spec m xs tx "peer"%string (ex_res gas) R Hc Hl Hr) as (m' & err & -> & _ & _ & R' & _).
  by rewrite Ha in R'.
Qed.

Lemma ex_pool_ok gas : pool_ok (ex_pool gas) (ex_xs gas).
Proof.
  pose proof (pool_ok_new ex_cfg 1 None None ltac:(by_decide)) as R0.
  assert (pool_ok (ex_push gas [1] (sMem ex_start)) [(0%nat, mkMempoolTx 1 gas [1])]) as R1 by (apply (ex_push_ok gas _ [] [1] R0); by vm_compute).
  assert (pool_ok (ex_push gas [2] (ex_push gas [1] (sMem ex_start))) [(0%nat, mkMempoolTx 1 gas [1]); (1%nat, mkMempoolTx 1 gas [2])]) as R2
    by (apply (ex_push_ok gas _ _ [2] R1); by vm_compute).
  apply (ex_push_ok gas _ _ [3] R2); by vm_compute.
Qed.

Lemma update_keeps_valid_witness :
  let app (tx : Tx) := if bool_decide (tx = [1]) then ex_bad else ex_res 5 in
  (∃ m1 wait, Update_begin (Local app) (ex_pool 5) 2 [[2]] [0] None None = Done (m1, [], wait) ∧
     isRechecking (mRecheck m1) = false ∧ (wait = true → doneCh (mRecheck m1) = true) ∧ pool_ok m1 [(2%nat, mkMempoolTx 1 5 [3])]) ∧
  (∃ m1 sent wait m2, Update_begin Async (ex_pool 5) 2 [[2]] [0] None None = Done (m1, sent, wait) ∧ answers m1 sent (app <$> sent) = Done m2 ∧
     isRechecking (mRecheck m2) = false ∧ (wait = true → doneCh (mRecheck m2) = true) ∧ pool_ok m2 [(2%nat, mkMempoolTx 1 5 [3])]).
Proof.
  intros app. apply (update_keeps_valid (ex_pool 5) (ex_xs 5) app 2 [[2]] [0] None None (ex_pool_ok 5)); [by_decide|by vm_compute..].
Defined.

Lemma reaped_fit_witness :
  ∃ n, ReapMaxBytesMaxGas (ex_pool 5) 7 100 = Done (txs_of (take n (ex_xs 5))) ∧
    (0 ≤ 7 → Block.Block.data_ProtoSize (txs_of (take n (ex_xs 5))) ≤ 7) ∧ (0 ≤ 100 → gas_of (take n (ex_xs 5)) ≤ 100) ∧
    (∀ x, ex_xs 5 !! n = Some x →
       (0 ≤ 7 ∧ 7 < Block.Block.data_ProtoSize (txs_of (take (S n) (ex_xs 5)))) ∨ (0 ≤ 100 ∧ 100 < gas_of (take (S n) (ex_xs 5)))).
Proof.
  apply (reaped_fit (ex_pool 5) (ex_xs 5) 7 100 (ex_pool_ok 5)); [by vm_compute|]. intros _. split; [unfold_ints; lia|]. repeat (apply Forall_cons; split; [simpl; lia|]). done.
Defined.

(** Transactions that each want the most gas there is: the sum wraps, and all of them are reaped,
    though each alone uses up the limit. *)
Theorem reaped_gas_overflows :
  ReapMaxBytesMaxGas (ex_pool max_int64) (-1) max_int64 = Done [[1]; [2]; [3]] ∧ PostCheckMaxGas max_int64 [1] (ex_res max_int64) = None.
Proof. split; by vm_compute. Qed.

(** An answer for a transaction that the recheck has passed, which the comments say is ignored,
    runs off the end of the list. *)
Theorem late_answer_panics :
  (s ← sys_run ex_start (ex_three ++ [EvUpdate 2 [] [] None None; EvAnswer (ex_res 5)]);
   handleRecheckTxResponse (sMem s) [1] (ex_res 5)) = Panic "invalid memory address or nil pointer dereference".
Proof. by vm_compute. Qed.

(** The timer fires when the recheck has just finished: its signal stays in the channel, and the
    next update returns before its own recheck has begun to be answered. *)
Theorem stale_signal :
  (s ← sys_run ex_start (ex_three ++ [EvUpdate 2 [[1]] [0] None None; EvAnswer (ex_res 5); EvAnswer (ex_res 5); EvTimeout; EvUpdate 3 [[2]] [0] None None; EvSignal]);
   Done (sUpdating s, isRechecking (mRecheck (sMem s)))) = Done (false, true).
Proof. by vm_compute. Qed.

End Mempool.
