(* ===== verification/Messages.v ===== *)
(** * Messages: what consensus reactors and the log exchange

    The messages of [internal/consensus/reactor.go] with their checks, and
    [internal/consensus/msgs.go], which converts them, and the entries of the write-ahead log,
    from and to protobuf messages.  The generated messages have a type of their own here, since
    they differ from the native ones in what may be nil and in widths. *)

From S2P Require Import Prelude BitArray Merkle Crypto ValidatorSet Votes PartSet Proposal Commit VoteSet HeightVoteSet PrivVal ConsensusState Header Wire BlockStore.
Import Votes.Votes Proposal.Proposal Wire.Wire.

Local Open Scope Z_scope.

Module Messages.

Local Notation Part := PartSet.PartSet.Part.
Local Notation BitArray := BitArray.BitArray.BitArray.
Local Notation bits_Size := BitArray.BitArray.Size.
Local Notation timeoutInfo := ConsensusState.ConsensusState.timeoutInfo.

(** ** Native messages *)

Inductive Message :=
| NewRoundStepMessage (height round step secondsSinceStartTime lastCommitRound : Z)
| NewValidBlockMessage (height round : Z) (header : PartSetHeader) (blockParts : option BitArray) (isCommit : bool)
| ProposalMessage (p : Proposal)
| ProposalPOLMessage (height proposalPOLRound : Z) (proposalPOL : option BitArray)
| BlockPartMessage (height round : Z) (part : Part)
| VoteMessage (v : Vote)
| HasVoteMessage (height round type_ index : Z)
| HasProposalBlockPartMessage (height round index : Z)
| VoteSetMaj23Message (height round type_ : Z) (blockID : BlockID)
| VoteSetBitsMessage (height round type_ : Z) (blockID : BlockID) (votes : option BitArray).

Definition MaxVotesCount : Z := 10000.
Definition MaxBlockPartsCount : Z := ConsensusState.ConsensusState.MaxBlockSizeBytes `quot` PartSet.PartSet.BlockPartSizeBytes + 1.

Definition step_IsValid (step : Z) : bool := (1 <=? step) && (step <=? 8).

(** ** Checks, one per kind of message *)

Definition nrs_ValidateBasic (height round step lastCommitRound : Z) : option string :=
  if height <? 0 then Some "Height"%string
  else if round <? 0 then Some "Round"%string
  else if negb (step_IsValid step) then Some "Step"%string
  else if lastCommitRound <? -1 then Some "LastCommitRound"%string
  else None.

Definition ValidateHeight (height lastCommitRound initialHeight : Z) : option string :=
  if height <? initialHeight then Some "Height"%string
  else if (height =? initialHeight) && negb (lastCommitRound =? -1) then Some "LastCommitRound"%string
  else if (initialHeight <? height) && (lastCommitRound <? 0) then Some "LastCommitRound"%string
  else None.

Definition nvb_ValidateBasic (height round : Z) (header : PartSetHeader) (blockParts : option BitArray) : option string :=
  if height <? 0 then Some "Height"%string
  else if round <? 0 then Some "Round"%string
  else if negb (psh_ValidateBasic header) then Some "BlockPartSetHeader"%string
  else if bits_Size blockParts =? 0 then Some "blockParts"%string
  else if negb (bits_Size blockParts =? psh_Total header) then Some "blockParts bit array size not equal to Total"%string
  else if MaxBlockPartsCount <? bits_Size blockParts then Some "blockParts bit array is too big"%string
  else None.

Definition pol_ValidateBasic (height polRound : Z) (pol : option BitArray) : option string :=
  if height <? 0 then Some "Height"%string
  else if polRound <? 0 then Some "ProposalPOLRound"%string
  else if bits_Size pol =? 0 then Some "ProposalPOL"%string
  else if MaxVotesCount <? bits_Size pol then Some "proposalPOL bit array is too big"%string
  else None.

Definition bp_ValidateBasic (height round : Z) (part : Part) : option string :=
  if height <? 0 then Some "Height"%string
  else if round <? 0 then Some "Round"%string
  else match PartSet.PartSet.part_ValidateBasic part with Some _ => Some "Part"%string | None => None end.

Definition hv_ValidateBasic (height round type_ index : Z) : option string :=
  if height <? 0 then Some "Height"%string
  else if round <? 0 then Some "Round"%string
  else if negb (IsVoteTypeValid type_) then Some "Type"%string
  else if index <? 0 then Some "Index"%string
  else None.

Definition vsm_ValidateBasic (height round type_ : Z) (blockID : BlockID) : option string :=
  if height <? 0 then Some "Height"%string
  else if round <? 0 then Some "Round"%string
  else if negb (IsVoteTypeValid type_) then Some "Type"%string
  else if negb (block_ValidateBasic blockID) then Some "BlockID"%string
  else None.

Definition vsb_ValidateBasic (height type_ : Z) (blockID : BlockID) (votes : option BitArray) : option string :=
  if height <? 0 then Some "Height"%string
  else if negb (IsVoteTypeValid type_) then Some "Type"%string
  else if negb (block_ValidateBasic blockID) then Some "BlockID"%string
  else if MaxVotesCount <? bits_Size votes then Some "votes bit array is too big"%string
  else None.

Definition hpbp_ValidateBasic (height round index : Z) : option string :=
  if height <? 1 then Some "Height"%string
  else if round <? 0 then Some "Round"%string
  else if index <? 0 then Some "Index"%string
  else None.

Definition ValidateBasic (m : Message) : option string :=
  match m with
  | NewRoundStepMessage h r s _ lcr => nrs_ValidateBasic h r s lcr
  | NewValidBlockMessage h r psh bp _ => nvb_ValidateBasic h r psh bp
  | ProposalMessage p => proposal_ValidateBasic p
  | ProposalPOLMessage h r pol => pol_ValidateBasic h r pol
  | BlockPartMessage h r part => bp_ValidateBasic h r part
  | VoteMessage v => match vote_ValidateBasic v with Some _ => Some "invalid vote"%string | None => None end
  | HasVoteMessage h r t i => hv_ValidateBasic h r t i
  | HasProposalBlockPartMessage h r i => hpbp_ValidateBasic h r i
  | VoteSetMaj23Message h r t b => vsm_ValidateBasic h r t b
  | VoteSetBitsMessage h _ t b votes => vsb_ValidateBasic h t b votes
  end.

(** ** Protobuf messages *)

(** [PBlockPart] to [PVoteSetBits] hold structs where the native message has pointers, the vote
    is a pointer; [POther] is any message of another kind. *)
Inductive ProtoMessage :=
| PNewRoundStep (height round step secondsSinceStartTime lastCommitRound : Z)
| PNewValidBlock (height round : Z) (header : PartSetHeader) (blockParts : option BitArray) (isCommit : bool)
| PProposal (p : Proposal)
| PProposalPOL (height proposalPolRound : Z) (proposalPol : BitArray)
| PBlockPart (height round : Z) (part : Part)
| PVote (v : option Vote)
| PHasVote (height round type_ index : Z)
| PHasProposalBlockPart (height round index : Z)
| PVoteSetMaj23 (height round type_ : Z) (blockID : BlockID)
| PVoteSetBits (height round type_ : Z) (blockID : BlockID) (votes : BitArray)
| POther.

Definition zero_bits : BitArray := BitArray.BitArray.mkBitArray 0 [].
Definition bits_FromProto (p : option BitArray) : option BitArray := Some (BitArray.BitArray.FromProto zero_bits p).

Definition nil_deref {A} : outcome A := Panic "invalid memory address or nil pointer dereference".

(** [MsgToWrappedProto]; dereferencing the form of an empty bit array is a panic. *)
Definition MsgToWrappedProto (msg : option Message) : decoded ProtoMessage :=
  match msg with
  | None => fails "message is nil"
  | Some (NewRoundStepMessage h r s secs lcr) => value (PNewRoundStep h r s secs lcr)
  | Some (NewValidBlockMessage h r psh bp c) => value (PNewValidBlock h r psh (BitArray.BitArray.ToProto bp) c)
  | Some (ProposalMessage p) => value (PProposal p)
  | Some (ProposalPOLMessage h r pol) =>
      match BitArray.BitArray.ToProto pol with Some b => value (PProposalPOL h r b) | None => nil_deref end
  | Some (BlockPartMessage h r part) => value (PBlockPart h r part)
  | Some (VoteMessage v) => value (PVote (Some v))
  | Some (HasVoteMessage h r t i) => value (PHasVote h r t i)
  | Some (HasProposalBlockPartMessage h r i) => value (PHasProposalBlockPart h r i)
  | Some (VoteSetMaj23Message h r t b) => value (PVoteSetMaj23 h r t b)
  | Some (VoteSetBitsMessage h r t b votes) =>
      value (PVoteSetBits h r t b (match BitArray.BitArray.ToProto votes with Some v => v | None => zero_bits end))
  end.

Definition SafeConvertUint8 (a : Z) : option Z := if 255 <? a then None else if a <? 0 then None else Some a.

Definition ProposalFromProto (pp : Proposal) : decoded Proposal :=
  blockID ←? BlockIDFromProto (pBlockID pp);
  let p := mkProposal (pType pp) (pHeight pp) (pRound pp) (POLRound pp) blockID (pTimestamp pp) (pSignature pp) in
  checked p (proposal_ValidateBasic p).

(** The conversions of [MsgFromProto], before its check. *)
Definition msg_of_proto (p : ProtoMessage) : decoded Message :=
  match p with
  | PNewRoundStep h r s secs lcr =>
      match SafeConvertUint8 s with
      | None => fails "denying message due to possible overflow"
      | Some s => value (NewRoundStepMessage h r s secs lcr)
      end
  | PNewValidBlock h r psh bp c =>
      psh ←? PartSetHeaderFromProto psh;
      value (NewValidBlockMessage h r psh (bits_FromProto bp) c)
  | PProposal p => p ←? ProposalFromProto p; value (ProposalMessage p)
  | PProposalPOL h r pol => value (ProposalPOLMessage h r (bits_FromProto (Some pol)))
  | PBlockPart h r part => part ←? BlockStore.BlockStore.PartFromProto part; value (BlockPartMessage h r part)
  | PVote None => nil_deref
  | PVote (Some v) => v ←? VoteFromProto v; value (VoteMessage v)
  | PHasVote h r t i => value (HasVoteMessage h r t i)
  | PHasProposalBlockPart h r i => value (HasProposalBlockPartMessage h r i)
  | PVoteSetMaj23 h r t b => b ←? BlockIDFromProto b; value (VoteSetMaj23Message h r t b)
  | PVoteSetBits h r t b votes => b ←? BlockIDFromProto b; value (VoteSetBitsMessage h r t b (bits_FromProto (Some votes)))
  | POther => fails "consensus: message not recognized"
  end.

Definition MsgFromProto (p : option ProtoMessage) : decoded Message :=
  match p with
  | None => fails "message is nil"
  | Some p => pb ←? msg_of_proto p; checked pb (ValidateBasic pb)
  end.

(** ** Entries of the write-ahead log *)

Inductive WALMessage :=
| EventDataRoundState (height round : Z) (step : string)
| MsgInfo (msg : option Message) (peerID : string) (receiveTime : Z)
| TimeoutInfo (ti : timeoutInfo)
| EndHeightMessage (height : Z).

Inductive WALProto :=
| PEventDataRoundState (height round : Z) (step : string)
| PMsgInfo (msg : option ProtoMessage) (peerID : string) (receiveTime : option Z)
| PTimeoutInfo (duration height round step : Z)
| PEndHeight (height : Z)
| PNoEntry.

Definition WALToProto (m : WALMessage) : decoded WALProto :=
  match m with
  | EventDataRoundState h r s => value (PEventDataRoundState h r s)
  | MsgInfo msg peer t =>
      cm ←? MsgToWrappedProto msg;
      value (PMsgInfo (Some cm) peer (if Commit.Commit.time_IsZero t then None else Some t))
  | TimeoutInfo ti =>
      value (PTimeoutInfo (ConsensusState.ConsensusState.tDuration ti) (ConsensusState.ConsensusState.tHeight ti)
               (ConsensusState.ConsensusState.tRound ti) (ConsensusState.ConsensusState.tStep ti))
  | EndHeightMessage h => value (PEndHeight h)
  end.

(** A wrapped message without a sum does not unwrap. *)
Definition WALFromProto (m : option WALProto) : decoded WALMessage :=
  match m with
  | None => fails "message is nil"
  | Some (PEventDataRoundState h r s) => value (EventDataRoundState h r s)
  | Some (PMsgInfo None _ _) => fails "unwrap message"
  | Some (PMsgInfo (Some um) peer t) =>
      walMsg ←? MsgFromProto (Some um);
      value (MsgInfo (Some walMsg) peer (match t with None => 0 | Some t => t end))
  | Some (PTimeoutInfo d h r s) =>
      match SafeConvertUint8 s with
      | None => fails "denying message due to possible overflow"
      | Some s => value (TimeoutInfo (ConsensusState.ConsensusState.mkTimeout d h r s))
      end
  | Some (PEndHeight h) => value (EndHeightMessage h)
  | Some PNoEntry => fails "from proto: wal message not recognized"
  end.

(** ** Round trips *)

Lemma SafeConvertUint8_id a : 0 ≤ a ≤ 255 → SafeConvertUint8 a = Some a.
Proof. intros Ha. unfold SafeConvertUint8. destruct (Z.ltb_spec 255 a); [lia|]. destruct (Z.ltb_spec a 0); [lia|done]. Qed.

Lemma bits_roundtrip b : BitArray.BitArray.wf b → BitArray.BitArray.ToProto (Some b) = Some b ∧ bits_FromProto (Some b) = Some b.
Proof.
  intros (Hb & Hl & _). assert (BitArray.BitArray.Elems b ≠ []) as He.
  { intros E. rewrite E in Hl. pose proof (BitArray.BitArray.num_elems_bounds (BitArray.BitArray.Bits b) Hb). simpl in Hl. lia. }
  unfold bits_FromProto, BitArray.BitArray.ToProto, BitArray.BitArray.FromProto. destruct b as [n [|e es]]; done.
Qed.

(** A bit array as messages carry it. *)
Definition bits_ok (b : option BitArray) : Prop := ∃ b', b = Some b' ∧ BitArray.BitArray.wf b'.

(** The bit arrays of a message are well formed; a claim of votes may also be empty. *)
Definition msg_bits_ok (m : Message) : Prop :=
  match m with
  | NewValidBlockMessage _ _ _ b _ | ProposalPOLMessage _ _ b => bits_ok b
  | VoteSetBitsMessage _ _ _ _ b => b = Some zero_bits ∨ bits_ok b
  | _ => True
  end.

Lemma BlockIDFromProto_id b : block_ValidateBasic b = true → BlockIDFromProto b = value b.
Proof.
  intros Hb. unfold BlockIDFromProto, PartSetHeaderFromProto. assert (psh_ValidateBasic (PSH b) = true) as Hp.
  { unfold block_ValidateBasic in Hb. by apply andb_prop in Hb as [_ Hb]. }
  rewrite Hp. simpl. replace {| Hash := Hash b; PSH := PSH b |} with b by (by destruct b). by rewrite Hb.
Qed.

Lemma PartFromProto_id p : PartSet.PartSet.part_ValidateBasic p = None → BlockStore.BlockStore.PartFromProto p = value p.
Proof.
  intros Hp. unfold BlockStore.BlockStore.PartFromProto. rewrite Hp. unfold PartSet.PartSet.part_ValidateBasic in Hp.
  repeat case_match; done.
Qed.

Lemma vote_block_valid v : vote_ValidateBasic v = None → block_ValidateBasic (vBlockID v) = true.
Proof. unfold vote_ValidateBasic. destruct (block_ValidateBasic _); [done|]. simpl. repeat case_match; done. Qed.

Lemma proposal_block_valid p : proposal_ValidateBasic p = None → block_ValidateBasic (pBlockID p) = true.
Proof. unfold proposal_ValidateBasic. destruct (block_ValidateBasic _); [done|]. simpl. repeat case_match; done. Qed.

(** A valid message comes out of its protobuf form as it went in. *)
Lemma msg_roundtrip m : ValidateBasic m = None → msg_bits_ok m → ∃ p, MsgToWrappedProto (Some m) = value p ∧ MsgFromProto (Some p) = value m.
Proof.
  intros Hv Hb. assert (∀ p, msg_of_proto p = value m → MsgFromProto (Some p) = value m) as Hfin.
  { intros p E. unfold MsgFromProto. rewrite E. simpl. by rewrite Hv. }
  destruct m; simpl in Hv, Hb; simpl; try (eexists; split; [done|]; by apply Hfin).
  - eexists. split; [done|]. apply Hfin. simpl. rewrite SafeConvertUint8_id; [done|].
    unfold nrs_ValidateBasic, step_IsValid in Hv. repeat case_match; try done. zbool. lia.
  - destruct Hb as (b & -> & Hw). destruct (bits_roundtrip b Hw) as [E1 E2]. rewrite E1. eexists. split; [done|]. apply Hfin. simpl. rewrite E2.
    unfold PartSetHeaderFromProto. unfold nvb_ValidateBasic in Hv. by destruct (psh_ValidateBasic header); [|repeat case_match].
  - eexists. split; [done|]. apply Hfin. simpl. unfold ProposalFromProto. rewrite BlockIDFromProto_id by by apply proposal_block_valid.
    simpl. replace (mkProposal _ _ _ _ _ _ _) with p by (by destruct p). by rewrite Hv.
  - destruct Hb as (b & -> & Hw). destruct (bits_roundtrip b Hw) as [E1 E2]. rewrite E1. eexists. split; [done|]. apply Hfin. simpl. by rewrite E2.
  - eexists. split; [done|]. apply Hfin. simpl. rewrite PartFromProto_id; [done|]. unfold bp_ValidateBasic in Hv. repeat case_match; done.
  - eexists. split; [done|]. apply Hfin. simpl. unfold VoteFromProto. rewrite BlockIDFromProto_id; [by destruct v|].
    apply vote_block_valid. by destruct (vote_ValidateBasic v).
  - eexists. split; [done|]. apply Hfin. simpl. rewrite BlockIDFromProto_id; [done|]. unfold vsm_ValidateBasic in Hv.
    destruct (block_ValidateBasic blockID); [done|]. repeat case_match; done.
  - assert (block_ValidateBasic blockID = true) as Hid.
    { unfold vsb_ValidateBasic in Hv. destruct (block_ValidateBasic blockID); [done|]. repeat case_match; done. }
    destruct Hb as [->|(b & -> & Hw)].
    + eexists. split; [done|]. apply Hfin. simpl. by rewrite BlockIDFromProto_id.
    + destruct (bits_roundtrip b Hw) as [E1 E2]. rewrite E1. eexists. split; [done|]. apply Hfin. simpl. by rewrite BlockIDFromProto_id, E2.
Qed.

Definition wal_ok (m : WALMessage) : Prop :=
  match m with
  | MsgInfo msg _ _ => ∃ m, msg = Some m ∧ ValidateBasic m = None ∧ msg_bits_ok m
  | TimeoutInfo ti => 0 ≤ ConsensusState.ConsensusState.tStep ti ≤ 255
  | _ => True
  end.

(** An entry of the write-ahead log comes back as it was written: messages that pass their
    checks, timeouts, steps and ends of heights are the same after their protobuf form is read. *)
Theorem wal_entry_roundtrip m : wal_ok m → ∃ p, WALToProto m = value p ∧ WALFromProto (Some p) = value m.
Proof.
  destruct m as [h r s|msg peer t|[d h r s]|h]; simpl; [by eexists| | |by eexists].
  - intros (m & -> & Hv & Hb). destruct (msg_roundtrip m Hv Hb) as (p & E1 & E2). cbv [value] in E1. rewrite E1. eexists. split; [done|].
    simpl. cbv [value] in E2. simpl in E2. rewrite E2. simpl. unfold Commit.Commit.time_IsZero. by destruct (Z.eqb_spec t 0) as [->|].
  - intros Hs. eexists. split; [done|]. simpl. by rewrite SafeConvertUint8_id.
Qed.

(** A timeout of the propose step and a claim of three votes. *)
Definition ex_entry : WALMessage :=
  MsgInfo (Some (VoteSetBitsMessage 5 1 PrevoteType (ex_block 1) (Some (BitArray.BitArray.mkBitArray 3 [5])))) "peer" 7.

Lemma wal_entry_roundtrip_witness : ∃ p, WALToProto ex_entry = value p ∧ WALFromProto (Some p) = value ex_entry.
Proof.
  apply wal_entry_roundtrip. eexists. split; [done|]. split; [by vm_compute|]. right. eexists. split; [done|by_decide].
Defined.

(** A vote message without a vote makes its receiver panic while decoding it. *)
Theorem empty_vote_panics : MsgFromProto (Some (PVote None)) = nil_deref.
Proof. done. Qed.

End Messages.
