(* ===== verification/PeerState.v ===== *)
(** * PeerState: what a node knows of a peer

    The peer state of [internal/consensus/reactor.go] and
    [internal/consensus/types/peer_round_state.go]: where the peer is, and which parts and votes
    it is known to have.  The fields that hold bit arrays are pointers, and some of them are the
    same pointer, so bit arrays live in a store of the peer state and fields hold references.  An
    operation runs under the mutex of the peer state, as one step. *)

From S2P Require Import Prelude BitArray Merkle Crypto ValidatorSet Votes PartSet Proposal Commit VoteSet HeightVoteSet.
Import BitArray.BitArray Votes.Votes Proposal.Proposal.

Local Open Scope Z_scope.

Module PeerState.

(** ** Data *)

Notation ref := (option nat).

Record PeerRoundState := mkPRS {
  prsHeight : Z; prsRound : Z; prsStep : Z; prsStartTime : Z;
  prsProposal : bool; prsHeader : PartSetHeader; prsBlockParts : ref;
  prsPOLRound : Z; prsPOL : ref; prsPrevotes : ref; prsPrecommits : ref;
  prsLastCommitRound : Z; prsLastCommit : ref; prsCatchupRound : Z; prsCatchup : ref }.

Record PeerState := mkPS { PRS : PeerRoundState; heap : gmap nat BitArray; fresh : nat; statVotes : Z; statBlockParts : Z }.

Definition zero_header : PartSetHeader := mkPSH 0 [].

Definition NewPeerState : PeerState :=
  mkPS (mkPRS 0 (-1) 0 0 false zero_header None (-1) None None None (-1) None (-1) None) ∅ 0 0 0.

Definition set_prs (ps : PeerState) (p : PeerRoundState) : PeerState := mkPS p (heap ps) (fresh ps) (statVotes ps) (statBlockParts ps).
Definition set_heap (ps : PeerState) (h : gmap nat BitArray) (n : nat) : PeerState := mkPS (PRS ps) h n (statVotes ps) (statBlockParts ps).

Definition prs_proposal (p : PeerRoundState) : PeerRoundState :=
  mkPRS (prsHeight p) (prsRound p) (prsStep p) (prsStartTime p) true (prsHeader p) (prsBlockParts p) (prsPOLRound p) (prsPOL p)
    (prsPrevotes p) (prsPrecommits p) (prsLastCommitRound p) (prsLastCommit p) (prsCatchupRound p) (prsCatchup p).
Definition prs_parts (p : PeerRoundState) (hd : PartSetHeader) (r : ref) : PeerRoundState :=
  mkPRS (prsHeight p) (prsRound p) (prsStep p) (prsStartTime p) (prsProposal p) hd r (prsPOLRound p) (prsPOL p)
    (prsPrevotes p) (prsPrecommits p) (prsLastCommitRound p) (prsLastCommit p) (prsCatchupRound p) (prsCatchup p).
Definition prs_pol (p : PeerRoundState) (round : Z) (r : ref) : PeerRoundState :=
  mkPRS (prsHeight p) (prsRound p) (prsStep p) (prsStartTime p) (prsProposal p) (prsHeader p) (prsBlockParts p) round r
    (prsPrevotes p) (prsPrecommits p) (prsLastCommitRound p) (prsLastCommit p) (prsCatchupRound p) (prsCatchup p).
Definition prs_prevotes (p : PeerRoundState) (r : ref) : PeerRoundState :=
  mkPRS (prsHeight p) (prsRound p) (prsStep p) (prsStartTime p) (prsProposal p) (prsHeader p) (prsBlockParts p) (prsPOLRound p) (prsPOL p)
    r (prsPrecommits p) (prsLastCommitRound p) (prsLastCommit p) (prsCatchupRound p) (prsCatchup p).
Definition prs_precommits (p : PeerRoundState) (r : ref) : PeerRoundState :=
  mkPRS (prsHeight p) (prsRound p) (prsStep p) (prsStartTime p) (prsProposal p) (prsHeader p) (prsBlockParts p) (prsPOLRound p) (prsPOL p)
    (prsPrevotes p) r (prsLastCommitRound p) (prsLastCommit p) (prsCatchupRound p) (prsCatchup p).
Definition prs_last (p : PeerRoundState) (round : Z) (r : ref) : PeerRoundState :=
  mkPRS (prsHeight p) (prsRound p) (prsStep p) (prsStartTime p) (prsProposal p) (prsHeader p) (prsBlockParts p) (prsPOLRound p) (prsPOL p)
    (prsPrevotes p) (prsPrecommits p) round r (prsCatchupRound p) (prsCatchup p).
Definition prs_catchup (p : PeerRoundState) (round : Z) (r : ref) : PeerRoundState :=
  mkPRS (prsHeight p) (prsRound p) (prsStep p) (prsStartTime p) (prsProposal p) (prsHeader p) (prsBlockParts p) (prsPOLRound p) (prsPOL p)
    (prsPrevotes p) (prsPrecommits p) (prsLastCommitRound p) (prsLastCommit p) round r.
Definition prs_step (p : PeerRoundState) (height round step start : Z) : PeerRoundState :=
  mkPRS height round step start (prsProposal p) (prsHeader p) (prsBlockParts p) (prsPOLRound p) (prsPOL p)
    (prsPrevotes p) (prsPrecommits p) (prsLastCommitRound p) (prsLastCommit p) (prsCatchupRound p) (prsCatchup p).

(** ** Pointers *)

Definition load (ps : PeerState) (r : ref) : option BitArray := i ← r; heap ps !! i.
Definition store (ps : PeerState) (r : ref) (b : option BitArray) : PeerState :=
  match r, b with Some i, Some b => set_heap ps (<[i := b]> (heap ps)) (fresh ps) | _, _ => ps end.
Definition alloc (ps : PeerState) (b : option BitArray) : PeerState * ref :=
  match b with None => (ps, None) | Some b => (set_heap ps (<[fresh ps := b]> (heap ps)) (S (fresh ps)), Some (fresh ps)) end.

(** [SetIndex(i, true)] through a pointer. *)
Definition mark (ps : PeerState) (r : ref) (i : Z) : outcome PeerState :=
  '(b, _) ← SetIndex (load ps r) i true; Done (store ps r b).

(** ** Operations *)

Definition GetRoundState (ps : PeerState) : PeerRoundState := PRS ps.
Definition ps_GetHeight (ps : PeerState) : Z := prsHeight (PRS ps).

Definition SetHasProposal (ps : PeerState) (p : Proposal) : PeerState :=
  if negb (prsHeight (PRS ps) =? pHeight p) || negb (prsRound (PRS ps) =? pRound p) then ps
  else if prsProposal (PRS ps) then ps
  else
    let ps := set_prs ps (prs_proposal (PRS ps)) in
    match prsBlockParts (PRS ps) with
    | Some _ => ps
    | None =>
        let '(ps, r) := alloc ps (NewBitArray (psh_Total (PSH (pBlockID p)))) in
        set_prs ps (prs_pol (prs_parts (PRS ps) (PSH (pBlockID p)) r) (POLRound p) None)
    end.

Definition InitProposalBlockParts (ps : PeerState) (header : PartSetHeader) : PeerState :=
  match prsBlockParts (PRS ps) with
  | Some _ => ps
  | None => let '(ps, r) := alloc ps (NewBitArray (psh_Total header)) in set_prs ps (prs_parts (PRS ps) header r)
  end.

Definition setHasProposalBlockPart (ps : PeerState) (height round index : Z) : outcome PeerState :=
  if negb (prsHeight (PRS ps) =? height) || negb (prsRound (PRS ps) =? round) then Done ps
  else mark ps (prsBlockParts (PRS ps)) index.
Definition SetHasProposalBlockPart (ps : PeerState) (height round index : Z) : outcome PeerState := setHasProposalBlockPart ps height round index.

Definition getVoteBitArray (p : PeerRoundState) (height round votesType : Z) : ref :=
  if negb (IsVoteTypeValid votesType) then None
  else if prsHeight p =? height then
    if prsRound p =? round then (if votesType =? PrevoteType then prsPrevotes p else prsPrecommits p)
    else if prsCatchupRound p =? round then (if votesType =? PrevoteType then None else prsCatchup p)
    else if prsPOLRound p =? round then (if votesType =? PrevoteType then prsPOL p else None)
    else None
  else if prsHeight p =? wrap64 (height + 1) then
    if prsLastCommitRound p =? round then (if votesType =? PrevoteType then None else prsLastCommit p) else None
  else None.

Definition ensureCatchupCommitRound (ps : PeerState) (height round numValidators : Z) : PeerState :=
  if negb (prsHeight (PRS ps) =? height) then ps
  else if prsCatchupRound (PRS ps) =? round then ps
  else if round =? prsRound (PRS ps) then set_prs ps (prs_catchup (PRS ps) round (prsPrecommits (PRS ps)))
  else let '(ps, r) := alloc ps (NewBitArray numValidators) in set_prs ps (prs_catchup (PRS ps) round r).

(** [if field == nil { field = bits.NewBitArray(n) }]. *)
Definition ensure (field : PeerRoundState → ref) (set : PeerRoundState → ref → PeerRoundState) (n : Z) (ps : PeerState) : PeerState :=
  match field (PRS ps) with
  | Some _ => ps
  | None => let '(ps, r) := alloc ps (NewBitArray n) in set_prs ps (set (PRS ps) r)
  end.

Definition ensureVoteBitArrays (ps : PeerState) (height numValidators : Z) : PeerState :=
  if prsHeight (PRS ps) =? height then
    let ps := ensure prsPrevotes prs_prevotes numValidators ps in
    let ps := ensure prsPrecommits prs_precommits numValidators ps in
    let ps := ensure prsCatchup (λ p, prs_catchup p (prsCatchupRound p)) numValidators ps in
    ensure prsPOL (λ p, prs_pol p (prsPOLRound p)) numValidators ps
  else if prsHeight (PRS ps) =? wrap64 (height + 1) then
    ensure prsLastCommit (λ p, prs_last p (prsLastCommitRound p)) numValidators ps
  else ps.
Definition EnsureVoteBitArrays (ps : PeerState) (height numValidators : Z) : PeerState := ensureVoteBitArrays ps height numValidators.

Definition RecordVote (ps : PeerState) : PeerState * Z :=
  let n := wrap64 (statVotes ps + 1) in (mkPS (PRS ps) (heap ps) (fresh ps) n (statBlockParts ps), n).
Definition VotesSent (ps : PeerState) : Z := statVotes ps.
Definition RecordBlockPart (ps : PeerState) : PeerState * Z :=
  let n := wrap64 (statBlockParts ps + 1) in (mkPS (PRS ps) (heap ps) (fresh ps) (statVotes ps) n, n).
Definition BlockPartsSent (ps : PeerState) : Z := statBlockParts ps.

Definition setHasVote (ps : PeerState) (height round voteType index : Z) : outcome PeerState :=
  match getVoteBitArray (PRS ps) height round voteType with None => Done ps | Some i => mark ps (Some i) index end.
Definition SetHasVote (ps : PeerState) (v : Vote) : outcome PeerState := setHasVote ps (Height v) (Round v) (Type_ v) (ValidatorIndex v).
Definition SetHasVoteFromPeer (ps : PeerState) (v : Vote) (csHeight valSize lastCommitSize : Z) : outcome PeerState :=
  let ps := ensureVoteBitArrays ps csHeight valSize in
  let ps := ensureVoteBitArrays ps (wrap64 (csHeight - 1)) lastCommitSize in
  setHasVote ps (Height v) (Round v) (Type_ v) (ValidatorIndex v).

Definition CompareHRS (h1 r1 s1 h2 r2 s2 : Z) : Z :=
  if h1 <? h2 then -1 else if h2 <? h1 then 1
  else if r1 <? r2 then -1 else if r2 <? r1 then 1
  else if s1 <? s2 then -1 else if s2 <? s1 then 1 else 0.

Definition ApplyNewRoundStepMessage (ps : PeerState) (now height round step secondsSinceStartTime lastCommitRound : Z) : PeerState :=
  let p := PRS ps in
  if CompareHRS height round step (prsHeight p) (prsRound p) (prsStep p) <=? 0 then ps
  else
    let start := now + wrap64 (wrap64 (-1 * secondsSinceStartTime) * 1000000000) in
    let q := prs_step p height round step start in
    let q :=
      if negb (prsHeight p =? height) || negb (prsRound p =? round) then
        mkPRS height round step start false zero_header None (-1) None None None
          (prsLastCommitRound q) (prsLastCommit q) (prsCatchupRound q) (prsCatchup q)
      else q in
    let q :=
      if (prsHeight p =? height) && negb (prsRound p =? round) && (round =? prsCatchupRound p)
      then prs_precommits q (prsCatchup p) else q in
    let q :=
      if negb (prsHeight p =? height) then
        prs_catchup
          (prs_last q lastCommitRound
             (if (wrap64 (prsHeight p + 1) =? height) && (prsRound p =? lastCommitRound) then prsPrecommits p else None))
          (-1) None
      else q in
    set_prs ps q.

(** The bit array of the message is one more array that the peer state points to. *)
Definition ApplyNewValidBlockMessage (ps : PeerState) (height round : Z) (header : PartSetHeader) (blockParts : option BitArray) (isCommit : bool) : PeerState :=
  if negb (prsHeight (PRS ps) =? height) then ps
  else if negb (prsRound (PRS ps) =? round) && negb isCommit then ps
  else let '(ps, r) := alloc ps blockParts in set_prs ps (prs_parts (PRS ps) header r).

Definition ApplyProposalPOLMessage (ps : PeerState) (height polRound : Z) (pol : option BitArray) : PeerState :=
  if negb (prsHeight (PRS ps) =? height) then ps
  else if negb (prsPOLRound (PRS ps) =? polRound) then ps
  else let '(ps, r) := alloc ps pol in set_prs ps (prs_pol (PRS ps) (prsPOLRound (PRS ps)) r).

Definition ApplyHasVoteMessage (ps : PeerState) (height round type_ index : Z) : outcome PeerState :=
  if negb (prsHeight (PRS ps) =? height) then Done ps else setHasVote ps height round type_ index.

Definition ApplyHasProposalBlockPartMessage (ps : PeerState) (height round index : Z) : outcome PeerState :=
  if negb (prsHeight (PRS ps) =? height) then Done ps else setHasProposalBlockPart ps height round index.

Definition ApplyVoteSetBitsMessage (ps : PeerState) (height round type_ : Z) (msgVotes ourVotes : option BitArray) : outcome PeerState :=
  match getVoteBitArray (PRS ps) height round type_ with
  | None => Done ps
  | Some i =>
      let votes := load ps (Some i) in
      match ourVotes with
      | None => Done (store ps (Some i) (Update votes msgVotes))
      | Some _ =>
          otherVotes ← Sub votes ourVotes;
          hasVotes ← Or otherVotes msgVotes;
          Done (store ps (Some i) (Update votes hasVotes))
      end
  end.

(** ** Sets of votes as the gossip reads them *)

(** The interface [types.VoteSetReader]. *)
Class VoteSetReader (A : Type) := {
  r_Height : A → Z; r_Round : A → Z; r_Type : A → Z; r_Size : A → Z;
  r_BitArray : A → outcome (option BitArray);
  r_GetByIndex : A → Z → outcome (option Vote);
  r_IsCommit : A → bool }.

Section readers.
Context `{PubKeyOps, SignCodec}.

#[export] Instance VoteSet_reader : VoteSetReader (option VoteSet.VoteSet.VoteSet) := {|
  r_Height := VoteSet.VoteSet.GetHeight; r_Round := VoteSet.VoteSet.GetRound; r_Type := VoteSet.VoteSet.vs_Type;
  r_Size := VoteSet.VoteSet.vs_Size; r_BitArray := λ vs, Done (VoteSet.VoteSet.vs_BitArray vs);
  r_GetByIndex := VoteSet.VoteSet.vs_GetByIndex; r_IsCommit := VoteSet.VoteSet.IsCommit |}.

#[export] Instance ExtendedCommit_reader : VoteSetReader Commit.Commit.ExtendedCommit := {|
  r_Height := Commit.Commit.ecHeight; r_Round := Commit.Commit.ecRound; r_Type := λ _, PrecommitType;
  r_Size := λ ec, zlen (Commit.Commit.ExtendedSignatures ec); r_BitArray := Commit.Commit.ec_BitArray;
  r_GetByIndex := λ ec i, v ← Commit.Commit.GetExtendedVote ec i; Done (Some v); r_IsCommit := Commit.Commit.ec_IsCommit |}.
End readers.

Section pick.
Context `{VoteSetReader A}.

(** The part of [PickVoteToSend] that sets the bit arrays of the peer for these votes. *)
Definition prepare (ps : PeerState) (votes : A) : PeerState :=
  let ps := if r_IsCommit votes then ensureCatchupCommitRound ps (r_Height votes) (r_Round votes) (r_Size votes) else ps in
  ensureVoteBitArrays ps (r_Height votes) (r_Size votes).

(** [intn] answers the draws of the random source. *)
Definition PickVoteToSend (ps : PeerState) (votes : A) (intn : Z → Z) : outcome (PeerState * option Vote) :=
  if r_Size votes =? 0 then Done (ps, None)
  else
    let ps := prepare ps votes in
    match getVoteBitArray (PRS ps) (r_Height votes) (r_Round votes) (r_Type votes) with
    | None => Done (ps, None)
    | Some i =>
        ours ← r_BitArray votes;
        missing ← Sub ours (load ps (Some i));
        '((index, ok) : Z * bool) ← PickRandom missing intn;
        if ok then v ← r_GetByIndex votes (wrap32 index); Done (ps, v) else Done (ps, None)
    end.

(** What the routine that gossips votes does as long as it picks from one set and sends succeed:
    the votes sent, and whether it has come to an end. *)
Fixpoint send_votes (n : nat) (ps : PeerState) (votes : A) (draws : nat → Z → Z) : outcome (PeerState * list Vote * bool) :=
  match n with
  | O => Done (ps, [], false)
  | S n =>
      '((ps, v) : PeerState * option Vote) ← PickVoteToSend ps votes (draws n);
      match v with
      | None => Done (ps, [], true)
      | Some v =>
          ps ← SetHasVote ps v;
          '((ps, sent, fin) : PeerState * list Vote * bool) ← send_votes n ps votes draws;
          Done (ps, v :: sent, fin)
      end
  end.
End pick.

(** ** What the bit arrays stand for *)

(** Height, round and type of votes. *)
Notation key := (Z * Z * Z)%type.

(** The fields that hold votes, with the votes they stand for. *)
Definition owners (p : PeerRoundState) : list (ref * key) :=
  [(prsPrevotes p, (prsHeight p, prsRound p, PrevoteType)); (prsPrecommits p, (prsHeight p, prsRound p, PrecommitType));
   (prsPOL p, (prsHeight p, prsPOLRound p, PrevoteType)); (prsCatchup p, (prsHeight p, prsCatchupRound p, PrecommitType));
   (prsLastCommit p, (prsHeight p - 1, prsLastCommitRound p, PrecommitType))].

Definition has_bit (b : BitArray) (k : nat) : Prop := bit (Elems b) k = true.

(** The peer is taken to have vote [k] of a kind. *)
Definition marked (ps : PeerState) (h r t : Z) (k : nat) : Prop :=
  ∃ b, load ps (getVoteBitArray (PRS ps) h r t) = Some b ∧ has_bit b k.

(** [K] is what the peer can be taken to have.  Every array is well formed and holds only votes of
    the kind its field stands for; fields that share an array stand for the same votes, and no
    vote field shares the array of the block parts. *)
Record peer_inv (K : key → nat → Prop) (ps : PeerState) : Prop := {
  pi_votes : ∀ i kd, (Some i, kd) ∈ owners (PRS ps) → ∃ b, heap ps !! i = Some b ∧ wf b ∧ ∀ k, has_bit b k → K kd k;
  pi_alias : ∀ i kd kd', (Some i, kd) ∈ owners (PRS ps) → (Some i, kd') ∈ owners (PRS ps) → kd = kd';
  pi_parts : ∀ i, prsBlockParts (PRS ps) = Some i → (∃ b, heap ps !! i = Some b ∧ wf b) ∧ ∀ kd, (Some i, kd) ∉ owners (PRS ps);
  pi_heap : ∀ i b, heap ps !! i = Some b → wf b;
  pi_fresh : ∀ i, is_Some (heap ps !! i) → (i < fresh ps)%nat;
  pi_height : 0 ≤ prsHeight (PRS ps) ≤ max_int64 }.

Lemma peer_inv_mono (K K' : key → nat → Prop) ps : (∀ kd k, K kd k → K' kd k) → peer_inv K ps → peer_inv K' ps.
Proof. intros HK [H1 H2 H3 H4 H5 H6]. split; try done. intros i kd Hi. destruct (H1 i kd Hi) as (b & ? & ? & ?). exists b. auto. Qed.

(** Membership in the list of owners of a state with known fields. *)
Ltac owners_tac :=
  unfold owners; cbn [PRS set_prs set_heap prsHeight prsRound prsStep prsStartTime prsProposal prsHeader prsBlockParts prsPOLRound prsPOL
    prsPrevotes prsPrecommits prsLastCommitRound prsLastCommit prsCatchupRound prsCatchup
    prs_proposal prs_parts prs_pol prs_prevotes prs_precommits prs_last prs_catchup prs_step];
  rewrite ?elem_of_cons, ?elem_of_nil.

(** A change that only drops references and moves them to fields for the same votes. *)
Lemma inv_fields K ps q : peer_inv K ps → 0 ≤ prsHeight q ≤ max_int64 →
  (∀ i kd, (Some i, kd) ∈ owners q → (Some i, kd) ∈ owners (PRS ps)) →
  prsBlockParts q = None ∨ prsBlockParts q = prsBlockParts (PRS ps) → peer_inv K (set_prs ps q).
Proof.
  intros [H1 H2 H3 H4 H5 H6] Hh Ho Hp. split; simpl; try done; [eauto|eauto|].
  intros i Hi. destruct Hp as [Hp|Hp]; rewrite Hp in Hi; [done|]. destruct (H3 i Hi) as [Hb Hn]. split; [done|]. intros kd Hin. by apply (Hn kd), Ho.
Qed.

Lemma fresh_unused K ps : peer_inv K ps → heap ps !! fresh ps = None.
Proof. intros I. destruct (heap ps !! fresh ps) eqn:E; [|done]. pose proof (pi_fresh _ _ I (fresh ps) ltac:(by eexists)). lia. Qed.

Lemma owner_not_fresh K ps i kd : peer_inv K ps → (Some i, kd) ∈ owners (PRS ps) → i ≠ fresh ps.
Proof. intros I Hi ->. destruct (pi_votes _ _ I _ _ Hi) as (b & Hb & _). by rewrite (fresh_unused _ _ I) in Hb. Qed.

Lemma parts_not_fresh K ps i : peer_inv K ps → prsBlockParts (PRS ps) = Some i → i ≠ fresh ps.
Proof. intros I Hi ->. destruct (pi_parts _ _ I _ Hi) as [(b & Hb & _) _]. by rewrite (fresh_unused _ _ I) in Hb. Qed.

(** A new array for one field of votes. *)
Lemma inv_alloc_votes K ps b q kd : peer_inv K ps → wf b → (∀ k, has_bit b k → K kd k) → prsHeight q = prsHeight (PRS ps) →
  prsBlockParts q = prsBlockParts (PRS ps) →
  (∀ i kd', (Some i, kd') ∈ owners q → (Some i, kd') ∈ owners (PRS ps) ∨ (i = fresh ps ∧ kd' = kd)) →
  peer_inv K (set_prs (alloc ps (Some b)).1 q).
Proof.
  intros I Hw HK Hh Hp Ho. split; simpl.
  - intros i kd' [Hi|[-> ->]]%Ho.
    + destruct (pi_votes _ _ I _ _ Hi) as (b' & ? & ? & ?). exists b'. rewrite lookup_insert_ne; [done|]. intros <-. by eapply owner_not_fresh.
    + exists b. by rewrite lookup_insert_eq.
  - intros i k1 k2 [H1|[-> ->]]%Ho [H2|[E ->]]%Ho; [by eapply pi_alias| | |done]; subst; exfalso; by eapply owner_not_fresh.
  - intros i Hi. rewrite Hp in Hi. pose proof (parts_not_fresh _ _ _ I Hi). destruct (pi_parts _ _ I _ Hi) as [Hb Hn].
    rewrite lookup_insert_ne by done. split; [done|]. intros k' [H1|[-> ->]]%Ho; [by apply (Hn k')|done].
  - intros i b' [[<- <-]|[_ Hi]]%lookup_insert_Some; [done|by apply (pi_heap _ _ I i)].
  - intros i. rewrite lookup_insert_is_Some. intros [->|[_ Hi]]; [lia|]. pose proof (pi_fresh _ _ I i Hi). lia.
  - rewrite Hh. apply (pi_height _ _ I).
Qed.

(** A new array for the block parts. *)
Lemma inv_alloc_parts K ps b q : peer_inv K ps → wf b → prsHeight q = prsHeight (PRS ps) → prsBlockParts q = Some (fresh ps) →
  (∀ i kd', (Some i, kd') ∈ owners q → (Some i, kd') ∈ owners (PRS ps)) → peer_inv K (set_prs (alloc ps (Some b)).1 q).
Proof.
  intros I Hw Hh Hp Ho. split; simpl.
  - intros i kd' Hi%Ho. destruct (pi_votes _ _ I _ _ Hi) as (b' & ? & ? & ?). exists b'. rewrite lookup_insert_ne; [done|].
    intros <-. by eapply owner_not_fresh.
  - intros i k1 k2 H1%Ho H2%Ho. by eapply pi_alias.
  - rewrite Hp. intros i [= <-]. split; [exists b; by rewrite lookup_insert_eq|]. intros k' H1%Ho. by eapply owner_not_fresh.
  - intros i b' [[<- <-]|[_ Hi]]%lookup_insert_Some; [done|by apply (pi_heap _ _ I i)].
  - intros i. rewrite lookup_insert_is_Some. intros [->|[_ Hi]]; [lia|]. pose proof (pi_fresh _ _ I i Hi). lia.
  - rewrite Hh. apply (pi_height _ _ I).
Qed.

(** Writing an array that a field points to. *)
Lemma inv_store K ps i b : peer_inv K ps → wf b → is_Some (heap ps !! i) → (∀ kd, (Some i, kd) ∈ owners (PRS ps) → ∀ k, has_bit b k → K kd k) →
  peer_inv K (store ps (Some i) (Some b)).
Proof.
  intros I Hw Hi HK. split; simpl.
  - intros j kd Hj. destruct (decide (i = j)) as [<-|Hne]; [exists b; rewrite lookup_insert_eq; eauto|].
    destruct (pi_votes _ _ I _ _ Hj) as (b' & ? & ? & ?). exists b'. by rewrite lookup_insert_ne.
  - apply (pi_alias _ _ I).
  - intros j Hj. destruct (pi_parts _ _ I _ Hj) as [(b' & ? & ?) Hn]. split; [|done].
    destruct (decide (i = j)) as [<-|Hne]; [exists b; by rewrite lookup_insert_eq|exists b'; by rewrite lookup_insert_ne].
  - intros j b' [[<- <-]|[_ Hj]]%lookup_insert_Some; [done|by apply (pi_heap _ _ I j)].
  - intros j. rewrite lookup_insert_is_Some. intros [->|[_ Hj]]; by apply (pi_fresh _ _ I).
  - apply (pi_height _ _ I).
Qed.

Lemma NewBitArray_bits n b : NewBitArray n = Some b → wf b ∧ ∀ k, ¬ has_bit b k.
Proof.
  intros E. assert (0 < n) as Hn by (unfold NewBitArray in E; destruct (Z.leb_spec n 0); [done|lia]).
  destruct (NewBitArray_spec n Hn) as (b' & E' & Hw & Hc & _ & Hg). rewrite E in E'. simplify_eq. split; [done|].
  intros k. unfold has_bit. rewrite <- get_clean, Hg by done. done.
Qed.

Lemma NewPeerState_inv K : peer_inv K NewPeerState.
Proof.
  assert (∀ i kd, (Some i, kd) ∉ owners (PRS NewPeerState)) as Hn.
  { intros i kd. owners_tac. intros Hi. repeat destruct Hi as [Hi|Hi]; by inversion Hi. }
  split; try done; [by intros i kd ?%Hn|by intros i kd kd' ?%Hn|intros i [b Hb]; done].
Qed.

(** ** The operations keep the invariant *)

Lemma mark_inv K ps i (k : nat) b : peer_inv K ps → heap ps !! i = Some b → wf b → (∀ kd, (Some i, kd) ∈ owners (PRS ps) → K kd k) →
  ∃ ps', mark ps (Some i) (Z.of_nat k) = Done ps' ∧ peer_inv K ps' ∧ PRS ps' = PRS ps.
Proof.
  intros I Hb Hw HK. unfold mark, load. cbn [mbind option_bind]. rewrite Hb.
  destruct (SetIndex_bits b k Hw) as (b' & ok & -> & Hw' & _ & Hbits). cbn [mbind outcome_bind]. eexists. split; [done|]. split; [|done].
  apply inv_store; [done|done|by eexists|]. intros kd Hkd j. unfold has_bit. rewrite Hbits. destruct (decide (j = k ∧ _)) as [Hj|Hj].
  - intros _. rewrite (proj1 Hj). by apply HK.
  - intros Hj'. destruct (pi_votes _ _ I _ _ Hkd) as (b0 & Hb0 & _ & HK0). rewrite Hb in Hb0. simplify_eq. by apply HK0.
Qed.

Lemma getVoteBitArray_owner p h r t i : 0 ≤ prsHeight p → in_int64 h → getVoteBitArray p h r t = Some i → (Some i, (h, r, t)) ∈ owners p.
Proof.
  intros Hp Hh. unfold getVoteBitArray, IsVoteTypeValid. destruct (Z.eqb_spec t PrevoteType) as [->|Ht1].
  - cbn [orb negb]. destruct (Z.eqb_spec (prsHeight p) h) as [<-|]; [|by repeat case_match].
    destruct (Z.eqb_spec (prsRound p) r) as [<-|]; [intros E; owners_tac; rewrite E; auto 8|]. destruct (_ =? r); [done|].
    destruct (Z.eqb_spec (prsPOLRound p) r) as [<-|]; [intros E; owners_tac; rewrite E; auto 8|done].
  - destruct (Z.eqb_spec t PrecommitType) as [->|Ht2]; [|done]. cbn [orb negb].
    destruct (Z.eqb_spec (prsHeight p) h) as [<-|].
    + destruct (Z.eqb_spec (prsRound p) r) as [<-|]; [intros E; owners_tac; rewrite E; auto 8|].
      destruct (Z.eqb_spec (prsCatchupRound p) r) as [<-|]; [intros E; owners_tac; rewrite E; auto 8|]. by destruct (_ =? r).
    + destruct (Z.eqb_spec (prsHeight p) (wrap64 (h + 1))) as [E|]; [|done].
      destruct (Z.eqb_spec (prsLastCommitRound p) r) as [<-|]; [|done]. intros E'. owners_tac. rewrite E'. do 4 right. left. do 3 f_equal.
      destruct (decide (h = max_int64)) as [->|]; [assert (wrap64 (max_int64 + 1) = min_int64) as Ew by done; rewrite Ew in E; unfold_ints; lia|]. rewrite wrap64_id in E by (unfold_ints; lia). lia.
Qed.

Lemma setHasVote_inv K ps h r t (k : nat) : peer_inv K ps → in_int64 h → K (h, r, t) k →
  ∃ ps', setHasVote ps h r t (Z.of_nat k) = Done ps' ∧ peer_inv K ps' ∧ PRS ps' = PRS ps.
Proof.
  intros I Hh HK. unfold setHasVote. destruct (getVoteBitArray (PRS ps) h r t) as [i|] eqn:E; [|by exists ps].
  apply getVoteBitArray_owner in E; [|apply (pi_height _ _ I)|done]. destruct (pi_votes _ _ I _ _ E) as (b & Hb & Hw & _).
  apply (mark_inv K ps i k b); [done..|]. intros kd Hkd. by rewrite (pi_alias _ _ I _ _ _ Hkd E).
Qed.

Lemma setHasPart_inv K ps h r (k : nat) : peer_inv K ps →
  ∃ ps', setHasProposalBlockPart ps h r (Z.of_nat k) = Done ps' ∧ peer_inv K ps' ∧ PRS ps' = PRS ps.
Proof.
  intros I. unfold setHasProposalBlockPart. destruct (_ || _); [by exists ps|].
  destruct (prsBlockParts (PRS ps)) as [i|] eqn:E; [|exists ps; by destruct ps].
  destruct (pi_parts _ _ I _ E) as [(b & Hb & Hw) Hn]. apply (mark_inv K ps i k b); [done..|]. intros kd Hkd. by destruct (Hn kd).
Qed.

(** A field of votes is filled with an empty array. *)
Lemma alloc_new_inv K ps n (set : ref → PeerRoundState) kd : peer_inv K ps →
  (∀ r, prsHeight (set r) = prsHeight (PRS ps)) → (∀ r, prsBlockParts (set r) = prsBlockParts (PRS ps)) →
  (∀ r i kd', (Some i, kd') ∈ owners (set r) → (Some i, kd') ∈ owners (PRS ps) ∨ (r = Some i ∧ kd' = kd)) →
  peer_inv K (let '(ps', r) := alloc ps (NewBitArray n) in set_prs ps' (set r)).
Proof.
  intros I Hh Hp Ho. destruct (NewBitArray n) as [b|] eqn:E.
  - destruct (NewBitArray_bits n b E) as [Hw Hb]. apply (inv_alloc_votes K ps b (set (Some (fresh ps))) kd I Hw); [by intros k ?%Hb|done|done|].
    intros i kd' [?|[[= ->] ->]]%Ho; auto.
  - apply inv_fields; [done|rewrite Hh; apply (pi_height _ _ I)| |auto]. intros i kd' [?|[? _]]%Ho; done.
Qed.

Lemma ensure_inv K ps n field set kd : peer_inv K ps →
  (∀ r, prsHeight (set (PRS ps) r) = prsHeight (PRS ps)) → (∀ r, prsBlockParts (set (PRS ps) r) = prsBlockParts (PRS ps)) →
  (∀ r i kd', (Some i, kd') ∈ owners (set (PRS ps) r) → (Some i, kd') ∈ owners (PRS ps) ∨ (r = Some i ∧ kd' = kd)) →
  peer_inv K (ensure field set n ps).
Proof.
  intros I Hh Hp Ho. unfold ensure. destruct (field (PRS ps)); [done|].
  assert (PRS (alloc ps (NewBitArray n)).1 = PRS ps) as E by (by destruct (NewBitArray n)).
  pose proof (alloc_new_inv K ps n (set (PRS ps)) kd I Hh Hp Ho) as R. destruct (alloc ps (NewBitArray n)) as [ps1 r]. simpl in E. by rewrite E.
Qed.

Ltac owners_left Hin := repeat destruct Hin as [Hin|Hin]; try done; rewrite Hin; auto 9.
Ltac owners_case :=
  intros ? ? ?; owners_tac; intros Hin; repeat destruct Hin as [Hin|Hin]; try done;
  first [by (left; rewrite Hin; auto 9) | by (right; injection Hin as <- <-; auto)].

Lemma ensureVoteBitArrays_inv K ps h n : peer_inv K ps → peer_inv K (ensureVoteBitArrays ps h n).
Proof.
  intros I. unfold ensureVoteBitArrays. destruct (_ =? h).
  - cbv zeta. set (ps1 := ensure prsPrevotes _ _ ps).
    assert (peer_inv K ps1) as I1 by (apply (ensure_inv K ps n _ _ (prsHeight (PRS ps), prsRound (PRS ps), PrevoteType)); [done..|owners_case]).
    clearbody ps1. set (ps2 := ensure prsPrecommits _ _ ps1).
    assert (peer_inv K ps2) as I2 by (apply (ensure_inv K ps1 n _ _ (prsHeight (PRS ps1), prsRound (PRS ps1), PrecommitType)); [done..|owners_case]).
    clearbody ps2. set (ps3 := ensure prsCatchup _ _ ps2).
    assert (peer_inv K ps3) as I3 by (apply (ensure_inv K ps2 n _ _ (prsHeight (PRS ps2), prsCatchupRound (PRS ps2), PrecommitType)); [done..|owners_case]).
    clearbody ps3. apply (ensure_inv K ps3 n _ _ (prsHeight (PRS ps3), prsPOLRound (PRS ps3), PrevoteType)); [done..|owners_case].
  - destruct (_ =? _); [|done]. apply (ensure_inv K ps n _ _ (prsHeight (PRS ps) - 1, prsLastCommitRound (PRS ps), PrecommitType)); [done..|owners_case].
Qed.

Lemma ensureCatchup_inv K ps h r n : peer_inv K ps → peer_inv K (ensureCatchupCommitRound ps h r n).
Proof.
  intros I. unfold ensureCatchupCommitRound. destruct (negb _); [done|]. destruct (_ =? r); [done|]. destruct (Z.eqb_spec r (prsRound (PRS ps))) as [->|].
  - apply inv_fields; [done|apply (pi_height _ _ I)| |auto]. intros ? ?. owners_tac. intros Hin. owners_left Hin.
  - assert (PRS (alloc ps (NewBitArray n)).1 = PRS ps) as E by (by destruct (NewBitArray n)).
    pose proof (alloc_new_inv K ps n (prs_catchup (PRS ps) r) (prsHeight (PRS ps), r, PrecommitType) I) as R.
    destruct (alloc ps (NewBitArray n)) as [ps1 r1]. simpl in E. rewrite E. apply R; try done. owners_case.
Qed.

Lemma alloc_parts_inv K ps (b : option BitArray) (set : ref → PeerRoundState) : peer_inv K ps → (∀ b', b = Some b' → wf b') →
  (∀ r, prsHeight (set r) = prsHeight (PRS ps)) → (∀ r, prsBlockParts (set r) = r) →
  (∀ r i kd', (Some i, kd') ∈ owners (set r) → (Some i, kd') ∈ owners (PRS ps)) →
  peer_inv K (let '(ps', r) := alloc ps b in set_prs ps' (set r)).
Proof.
  intros I Hw Hh Hp Ho. destruct b as [b|].
  - apply (inv_alloc_parts K ps b (set (Some (fresh ps))) I); auto. apply Ho.
  - apply inv_fields; [done|rewrite Hh; apply (pi_height _ _ I)|apply Ho|auto].
Qed.

Lemma alloc_PRS ps b : PRS (alloc ps b).1 = PRS ps.
Proof. by destruct b. Qed.

Lemma NewBitArray_wf n b : NewBitArray n = Some b → wf b.
Proof. apply NewBitArray_bits. Qed.

Lemma InitProposalBlockParts_inv K ps hd : peer_inv K ps → peer_inv K (InitProposalBlockParts ps hd).
Proof.
  intros I. unfold InitProposalBlockParts. destruct (prsBlockParts (PRS ps)); [done|].
  pose proof (alloc_PRS ps (NewBitArray (psh_Total hd))) as E.
  pose proof (alloc_parts_inv K ps (NewBitArray (psh_Total hd)) (prs_parts (PRS ps) hd) I (NewBitArray_wf _)) as R.
  destruct (alloc _ _) as [ps1 r]. simpl in E. rewrite E. by apply R.
Qed.

Lemma SetHasProposal_inv K ps p : peer_inv K ps → peer_inv K (SetHasProposal ps p).
Proof.
  intros I. unfold SetHasProposal. destruct (_ || _); [done|]. destruct (prsProposal _); [done|].
  set (ps0 := set_prs ps (prs_proposal (PRS ps))). assert (peer_inv K ps0) as I0.
  { apply inv_fields; [done|apply (pi_height _ _ I)| |auto]. done. }
  clearbody ps0. cbv zeta. destruct (prsBlockParts (PRS ps0)); [done|].
  pose proof (alloc_PRS ps0 (NewBitArray (psh_Total (PSH (pBlockID p))))) as E.
  pose proof (alloc_parts_inv K ps0 (NewBitArray (psh_Total (PSH (pBlockID p)))) (λ r, prs_pol (prs_parts (PRS ps0) (PSH (pBlockID p)) r) (POLRound p) None) I0 (NewBitArray_wf _)) as R.
  destruct (alloc _ _) as [ps1 r]. simpl in E. rewrite E. apply R; try done.
  intros ? ? ?. owners_tac. intros Hin. owners_left Hin.
Qed.

Lemma ApplyNewValidBlock_inv K ps h r hd b c : peer_inv K ps → (∀ b', b = Some b' → wf b') → peer_inv K (ApplyNewValidBlockMessage ps h r hd b c).
Proof.
  intros I Hw. unfold ApplyNewValidBlockMessage. destruct (negb _); [done|]. destruct (_ && _); [done|].
  pose proof (alloc_PRS ps b) as E. pose proof (alloc_parts_inv K ps b (prs_parts (PRS ps) hd) I Hw) as R.
  destruct (alloc _ _) as [ps1 i]. simpl in E. rewrite E. by apply R.
Qed.

Lemma ApplyProposalPOL_inv K ps h r b : peer_inv K ps → wf b → (∀ k, has_bit b k → K (h, r, PrevoteType) k) →
  peer_inv K (ApplyProposalPOLMessage ps h r (Some b)).
Proof.
  intros I Hw HK. unfold ApplyProposalPOLMessage. destruct (Z.eqb_spec (prsHeight (PRS ps)) h) as [<-|]; [|done].
  destruct (Z.eqb_spec (prsPOLRound (PRS ps)) r) as [<-|]; [|done]. cbn [negb alloc].
  refine (inv_alloc_votes K ps b (prs_pol (PRS ps) _ (Some (fresh ps))) _ I Hw HK _ _ _); [done..|].
  intros ? ?. owners_tac. intros Hin. repeat destruct Hin as [Hin|Hin]; try done;
    first [by (left; rewrite Hin; auto 9) | by (right; injection Hin as <- <-; auto)].
Qed.

Lemma ApplyNewRoundStep_inv K ps now h r s secs lcr : peer_inv K ps → 0 ≤ h ≤ max_int64 → peer_inv K (ApplyNewRoundStepMessage ps now h r s secs lcr).
Proof.
  intros I Hh. pose proof (pi_height _ _ I) as Hp. unfold ApplyNewRoundStepMessage. destruct (_ <=? 0); [done|]. cbv zeta.
  destruct (Z.eqb_spec (prsHeight (PRS ps)) h) as [<-|Hne]; cbn [negb orb andb].
  - destruct (Z.eqb_spec (prsRound (PRS ps)) r) as [<-|Hr]; cbn [negb orb andb].
    + apply inv_fields; auto.
    + destruct (Z.eqb_spec r (prsCatchupRound (PRS ps))) as [->|]; (apply inv_fields; [done|done| |by left]);
        intros ? ?; owners_tac; intros Hin; owners_left Hin.
  - apply inv_fields; [done|done| |by left]. intros ? ?. owners_tac. intros Hin.
    repeat destruct Hin as [Hin|Hin]; try done. destruct (Z.eqb_spec (wrap64 (prsHeight (PRS ps) + 1)) h) as [E|]; [|done]. cbn [andb] in Hin.
    destruct (Z.eqb_spec (prsRound (PRS ps)) lcr) as [<-|]; [|done]. rewrite Hin. right. left. do 3 f_equal.
    destruct (decide (prsHeight (PRS ps) = max_int64)) as [Em|].
    + rewrite Em in E. assert (wrap64 (max_int64 + 1) = min_int64) as Ew by done. rewrite Ew in E. unfold_ints. lia.
    + rewrite wrap64_id in E by (unfold_ints; lia). lia.
Qed.

Lemma Or_zero a : wf a → Or (Some a) (Some (mkBitArray 0 [])) = Done (Some a).
Proof.
  intros (Hb & Hl & Hu). unfold Or. simpl. rewrite Nat.min_0_r. simpl. rewrite Z.max_l by lia. rewrite <- Hl, copied_id. by destruct a.
Qed.

(** A claim of votes: any bits of a well-formed array, or none at all. *)
Definition claim_ok (b : BitArray) : Prop := b = mkBitArray 0 [] ∨ wf b.

Lemma claim_elems b : claim_ok b → Forall in_uint64 (Elems b).
Proof. intros [->|(_ & _ & Hu)]; [by constructor|done]. Qed.

Lemma ApplyVoteSetBits_inv K ps h r t b ours : peer_inv K ps → in_int64 h → claim_ok b → (∀ k, has_bit b k → K (h, r, t) k) →
  (∀ o, ours = Some o → wf o) →
  ∃ ps', ApplyVoteSetBitsMessage ps h r t (Some b) ours = Done ps' ∧ peer_inv K ps' ∧ PRS ps' = PRS ps.
Proof.
  intros I Hh Hb HK Ho. unfold ApplyVoteSetBitsMessage. destruct (getVoteBitArray (PRS ps) h r t) as [i|] eqn:E; [|by exists ps].
  apply getVoteBitArray_owner in E; [|apply (pi_height _ _ I)|done]. destruct (pi_votes _ _ I _ _ E) as (v & Hv & Hw & HKv).
  assert (∀ w, Forall in_uint64 (Elems w) → (∀ k, has_bit w k → K (h, r, t) k) →
    ∃ ps', Done (store ps (Some i) (Update (Some v) (Some w))) = Done ps' ∧ peer_inv K ps' ∧ PRS ps' = PRS ps) as Hst.
  { intros w Hu HKw. destruct (Update_bits v w Hw Hu) as (v' & -> & Hw' & _ & Hk). eexists. split; [done|]. split; [|done].
    apply inv_store; [done|done|by eexists|]. intros kd Hkd k [?|?]%Hk; rewrite (pi_alias _ _ I _ _ _ Hkd E); auto. }
  unfold load. cbn [mbind option_bind]. rewrite Hv. destruct ours as [o|].
  - destruct (Sub_exact v o Hw (Ho o eq_refl)) as (c & -> & Hc & _ & Hck). cbn [mbind outcome_bind].
    assert (∀ k, has_bit c k → K (h, r, t) k) as HKc.
    { intros k. unfold has_bit. rewrite Hck. intros [? _]%andb_prop. by apply HKv. }
    destruct Hb as [->|Hb].
    + rewrite Or_zero by done. cbn [mbind outcome_bind]. apply Hst; [apply Hc|done].
    + destruct (Or_exact c b Hc Hb) as (d & -> & Hd & _ & Hdk). cbn [mbind outcome_bind]. apply Hst; [apply Hd|].
      intros k. unfold has_bit. rewrite Hdk. intros [?|[_ ?]%andb_prop]%orb_prop; auto.
  - apply Hst; [by apply claim_elems|done].
Qed.

(** ** Picking votes *)

(** What the gossip relies on: the bit array of a set is that of the votes it returns. *)
Record reader_ok `{VoteSetReader A} (votes : A) : Prop := {
  ro_size : 0 < r_Size votes ≤ max_int32;
  ro_height : in_int64 (r_Height votes);
  ro_bits : ∃ b, r_BitArray votes = Done (Some b) ∧ wf b ∧ clean b ∧ Bits b = r_Size votes;
  ro_votes : ∀ b k, r_BitArray votes = Done (Some b) → has_bit b k →
    ∃ v, r_GetByIndex votes (Z.of_nat k) = Done (Some v) ∧ Height v = r_Height votes ∧ Round v = r_Round votes ∧
         Type_ v = r_Type votes ∧ ValidatorIndex v = Z.of_nat k }.

Definition fair (intn : Z → Z) : Prop := ∀ m, 0 < m → 0 ≤ intn m < m.

Section picking.
Context `{VoteSetReader A}.
Implicit Types (votes : A) (ps : PeerState).

Lemma prepare_inv K ps votes : peer_inv K ps → peer_inv K (prepare ps votes).
Proof. intros I. apply ensureVoteBitArrays_inv. destruct (r_IsCommit votes); [by apply ensureCatchup_inv|done]. Qed.

(** The votes of a set, and those of them that the peer is not taken to have. *)
Definition holds votes (k : nat) : Prop := ∃ b, r_BitArray votes = Done (Some b) ∧ has_bit b k.

Definition peer_marked ps votes (k : nat) : Prop := marked ps (r_Height votes) (r_Round votes) (r_Type votes) k.

(** Picking from a set: with a well-formed tracked array there is no panic, and the answer is a
    vote of the set that the peer is not taken to have, if there is any. *)
Lemma pick_spec ps votes intn i b : reader_ok votes → fair intn → getVoteBitArray (PRS (prepare ps votes)) (r_Height votes) (r_Round votes) (r_Type votes) = Some i →
  heap (prepare ps votes) !! i = Some b → wf b →
  ∃ o, PickVoteToSend ps votes intn = Done (prepare ps votes, o) ∧
    match o with
    | Some v => ∃ k, ValidatorIndex v = Z.of_nat k ∧ r_GetByIndex votes (Z.of_nat k) = Done (Some v) ∧ holds votes k ∧ ¬ has_bit b k ∧
                     Height v = r_Height votes ∧ Round v = r_Round votes ∧ Type_ v = r_Type votes ∧ Z.of_nat k < r_Size votes
    | None => ∀ k, holds votes k → has_bit b k
    end.
Proof.
  intros R Hf Hi Hb Hw. pose proof (ro_size _ R) as Hs. unfold PickVoteToSend. destruct (Z.eqb_spec (r_Size votes) 0); [lia|]. rewrite Hi.
  destruct (ro_bits _ R) as (a & Ea & Hwa & Hca & HBa). rewrite Ea. unfold load. cbn [mbind outcome_bind option_bind]. rewrite Hb.
  destruct (Sub_exact a b Hwa Hw) as (c & -> & Hwc & HBc & Hc). cbn [mbind outcome_bind].
  assert (∀ k, get c k = true ↔ has_bit a k ∧ ¬ has_bit b k) as Hg.
  { intros k. unfold has_bit. rewrite get_bit, Hc, HBc. case_bool_decide as Hk; cbn [andb].
    - destruct (bit (Elems a) k), (bit (Elems b) k); naive_solver.
    - rewrite (Hca k) by lia. naive_solver. }
  destruct (PickRandom_correct c intn Hwc Hf) as (z & ok & -> & Hok & _ & Hz). cbn [mbind outcome_bind]. destruct ok.
  - destruct (Hz eq_refl) as (_ & k & -> & Hk & Hgk). apply Hg in Hgk as [Ha Hnb]. rewrite HBc, HBa in Hk.
    destruct (ro_votes _ R a k Ea Ha) as (v & Ev & ? & ? & ? & ?).
    assert (wrap32 (Z.of_nat k) = Z.of_nat k) as -> by (unfold wrap32; unfold_ints; rewrite Z.mod_small; lia).
    rewrite Ev. cbn [mbind outcome_bind]. eexists. split; [done|]. exists k. split_and!; try done. by exists a.
  - eexists. split; [done|]. intros k (a' & Ea' & Ha). rewrite Ea in Ea'. simplify_eq. destruct (bit (Elems b) k) eqn:E; [done|].
    exfalso. assert (false = true) by (apply Hok; exists k; apply Hg; unfold has_bit; rewrite E; done). done.
Qed.

Lemma pick_inv K ps votes intn : peer_inv K ps → (r_Size votes ≠ 0 → reader_ok votes) → fair intn →
  ∃ ps' o, PickVoteToSend ps votes intn = Done (ps', o) ∧ peer_inv K ps'.
Proof.
  intros I R Hf. unfold PickVoteToSend at 1. destruct (Z.eqb_spec (r_Size votes) 0) as [|Hn]; [eauto|]. specialize (R Hn).
  pose proof (prepare_inv K ps votes I) as I1.
  destruct (getVoteBitArray _ _ _ _) as [i|] eqn:Hi; [|by eexists _, _].
  pose proof (getVoteBitArray_owner _ _ _ _ _ (proj1 (pi_height _ _ I1)) (ro_height _ R) Hi) as Ho.
  destruct (pi_votes _ _ I1 _ _ Ho) as (b & Hb & Hw & _). destruct (pick_spec ps votes intn i b R Hf Hi Hb Hw) as (o & E & _).
  unfold PickVoteToSend in E. destruct (Z.eqb_spec (r_Size votes) 0); [done|]. rewrite Hi in E. rewrite E. eauto.
Qed.

(** A state whose arrays have been set for these votes. *)
Definition prepared (p : PeerRoundState) votes : Prop :=
  (prsHeight p = r_Height votes → (r_IsCommit votes = true → prsCatchupRound p = r_Round votes) ∧
     is_Some (prsPrevotes p) ∧ is_Some (prsPrecommits p) ∧ is_Some (prsCatchup p) ∧ is_Some (prsPOL p)) ∧
  (prsHeight p ≠ r_Height votes → prsHeight p = wrap64 (r_Height votes + 1) → is_Some (prsLastCommit p)).

Lemma prepared_fix ps votes : prepared (PRS ps) votes → prepare ps votes = ps.
Proof.
  intros [H1 H2]. unfold prepare, ensureCatchupCommitRound, ensureVoteBitArrays, ensure.
  destruct (Z.eqb_spec (prsHeight (PRS ps)) (r_Height votes)) as [Eh|Eh]; cbn [negb].
  - destruct (H1 Eh) as (Hc & [? H3] & [? H4] & [? H5] & [? H6]). destruct (r_IsCommit votes).
    + rewrite Hc, Z.eqb_refl by done. rewrite Eh, Z.eqb_refl, H3, H4, H5, H6. done.
    + rewrite Eh, Z.eqb_refl, H3, H4, H5, H6. done.
  - assert ((if r_IsCommit votes then ps else ps) = ps) as -> by (by destruct (r_IsCommit votes)).
    rewrite (proj2 (Z.eqb_neq _ _)) by done. destruct (Z.eqb_spec (prsHeight (PRS ps)) (wrap64 (r_Height votes + 1))) as [E|]; [|done].
    by destruct (H2 Eh E) as [? ->].
Qed.

Lemma ensure_height field set n ps : (∀ p r, prsHeight (set p r) = prsHeight p) → prsHeight (PRS (ensure field set n ps)) = prsHeight (PRS ps).
Proof. intros Hs. unfold ensure. destruct (field _); [done|]. destruct (NewBitArray n); simpl; by rewrite Hs. Qed.

Lemma ensure_some field set n ps : 0 < n → (∀ p r, field (set p r) = r) → is_Some (field (PRS (ensure field set n ps))).
Proof.
  intros Hn Hs. unfold ensure. destruct (field (PRS ps)) eqn:E; [by rewrite E|].
  destruct (NewBitArray_spec n Hn) as (b & -> & _). simpl. by rewrite Hs.
Qed.

Lemma ensure_keeps {B} (other : PeerRoundState → B) field set n ps : (∀ p r, other (set p r) = other p) → other (PRS (ensure field set n ps)) = other (PRS ps).
Proof. intros Hs. unfold ensure. destruct (field _); [done|]. destruct (NewBitArray n); simpl; by rewrite Hs. Qed.

Lemma ensure_arrays_prepared ps h n : 0 < n →
  let p := PRS (ensureVoteBitArrays ps h n) in
  prsHeight p = prsHeight (PRS ps) ∧ prsCatchupRound p = prsCatchupRound (PRS ps) ∧
  (prsHeight p = h → is_Some (prsPrevotes p) ∧ is_Some (prsPrecommits p) ∧ is_Some (prsCatchup p) ∧ is_Some (prsPOL p)) ∧
  (prsHeight p ≠ h → prsHeight p = wrap64 (h + 1) → is_Some (prsLastCommit p)).
Proof.
  intros Hn. unfold ensureVoteBitArrays. destruct (Z.eqb_spec (prsHeight (PRS ps)) h) as [Eh|Eh]; cbv zeta.
  - repeat (rewrite (ensure_keeps prsHeight) by done). repeat (rewrite (ensure_keeps prsCatchupRound) by done). split_and!; [done|done| |done].
    intros _. split_and!; [..|by apply ensure_some].
    + do 3 (rewrite (ensure_keeps prsPrevotes) by done). by apply ensure_some.
    + do 2 (rewrite (ensure_keeps prsPrecommits) by done). by apply ensure_some.
    + rewrite (ensure_keeps prsCatchup) by done. by apply ensure_some.
  - destruct (Z.eqb_spec (prsHeight (PRS ps)) (wrap64 (h + 1))) as [E|E]; [|by split_and!].
    rewrite (ensure_keeps prsHeight), (ensure_keeps prsCatchupRound) by done. split_and!; [done..|]. intros _ _. by apply ensure_some.
Qed.

Lemma prepare_prepared ps votes : 0 < r_Size votes → prepared (PRS (prepare ps votes)) votes.
Proof.
  intros Hs. unfold prepare. set (ps1 := if r_IsCommit votes then _ else _).
  assert (prsHeight (PRS ps1) = prsHeight (PRS ps) ∧ (r_IsCommit votes = true → prsHeight (PRS ps) = r_Height votes → prsCatchupRound (PRS ps1) = r_Round votes)) as [Eh Hc].
  { unfold ps1, ensureCatchupCommitRound. destruct (r_IsCommit votes); [|done].
    destruct (Z.eqb_spec (prsHeight (PRS ps)) (r_Height votes)); cbn [negb]; [|done].
    destruct (Z.eqb_spec (prsCatchupRound (PRS ps)) (r_Round votes)); [done|]. destruct (_ =? prsRound _); [done|].
    destruct (NewBitArray (r_Size votes)); done. }
  clearbody ps1. destruct (ensure_arrays_prepared ps1 (r_Height votes) (r_Size votes) Hs) as (E1 & E2 & H1 & H2).
  split; [|exact H2]. intros E. split; [|by apply H1]. intros Hic. rewrite E2. apply Hc; [done|]. congruence.
Qed.

(** ** Sending a whole set of votes *)

Definition missing_at (a b : BitArray) : list nat := filter (λ k, bit (Elems a) k = true ∧ bit (Elems b) k = false) (seq 0 (Z.to_nat (Bits a))).

Lemma missing_mark a b b' k : k ∈ missing_at a b → (∀ j, bit (Elems b') j = if decide (j = k ∧ Z.of_nat k < Bits b) then true else bit (Elems b) j) →
  Z.of_nat k < Bits b → missing_at a b ≡ₚ k :: missing_at a b'.
Proof.
  intros Hk Hb Hlt. unfold missing_at in *. apply list_elem_of_filter in Hk as [[Ha Hnb] Hseq].
  apply NoDup_Permutation; [apply NoDup_filter, NoDup_seq|constructor; [|apply NoDup_filter, NoDup_seq]|].
  - rewrite list_elem_of_filter. intros [[_ Hc] _]. rewrite Hb in Hc. by rewrite decide_True in Hc.
  - intros j. rewrite elem_of_cons, !list_elem_of_filter, Hb. destruct (decide (j = k ∧ _)) as [[-> _]|Hn]; [naive_solver|].
    split; [naive_solver|]. intros [->|]; [naive_solver|done].
Qed.

Lemma mark_load ps i (k : nat) b : heap ps !! i = Some b → wf b →
  ∃ ps' b', mark ps (Some i) (Z.of_nat k) = Done ps' ∧ PRS ps' = PRS ps ∧ heap ps' !! i = Some b' ∧ wf b' ∧ Bits b' = Bits b ∧
    ∀ j, bit (Elems b') j = if decide (j = k ∧ Z.of_nat k < Bits b) then true else bit (Elems b) j.
Proof.
  intros Hb Hw. unfold mark, load. cbn [mbind option_bind]. rewrite Hb.
  destruct (SetIndex_bits b k Hw) as (b' & ok & -> & Hw' & HB & Hbits). cbn [mbind outcome_bind]. eexists _, b'. split; [done|].
  simpl. by rewrite lookup_insert_eq.
Qed.

Lemma send_votes_spec votes a draws n : reader_ok votes → (∀ i, fair (draws i)) → r_BitArray votes = Done (Some a) →
  ∀ ps i b, prepared (PRS ps) votes → getVoteBitArray (PRS ps) (r_Height votes) (r_Round votes) (r_Type votes) = Some i →
  heap ps !! i = Some b → wf b → r_Size votes ≤ Bits b → length (missing_at a b) = n →
  ∃ ps' sent b', send_votes (S n) ps votes draws = Done (ps', sent, true) ∧ PRS ps' = PRS ps ∧ heap ps' !! i = Some b' ∧
    (ValidatorIndex <$> sent) ≡ₚ Z.of_nat <$> missing_at a b ∧ (∀ k, has_bit a k → has_bit b' k) ∧
    Forall (λ v, r_GetByIndex votes (ValidatorIndex v) = Done (Some v)) sent.
Proof.
  intros R Hf Ea. induction n as [|n IH]; intros ps i b Hp Hi Hb Hw Hs Hl; pose proof (prepared_fix _ _ Hp) as Ep.
  - destruct (pick_spec ps votes (draws 0%nat) i b R (Hf 0%nat)) as (o & E & Ho); [by rewrite Ep|by rewrite Ep|done|]. rewrite Ep in E.
    cbn [send_votes]. rewrite E. cbn [mbind outcome_bind]. destruct o as [v|].
    + destruct Ho as (k & _ & _ & (a' & Ea' & Hak) & Hnb & _). rewrite Ea in Ea'. simplify_eq.
      exfalso. apply length_zero_iff_nil in Hl. assert (k ∈ missing_at a' b) as Hin; [|by rewrite Hl in Hin; apply not_elem_of_nil in Hin].
      apply list_elem_of_filter. unfold has_bit in *. split; [split; [done|by destruct (bit (Elems b) k)]|]. apply elem_of_seq.
      destruct (ro_bits _ R) as (a0 & Ea0 & _ & Hc & HB). rewrite Ea in Ea0. simplify_eq. destruct (decide (k < Z.to_nat (Bits a0))%nat); [lia|].
      rewrite Hc in Hak by lia. done.
    + eexists _, [], b. split; [done|]. split; [done|]. split; [done|]. apply length_zero_iff_nil in Hl. rewrite Hl. split; [done|]. split; [|done].
      intros k Hk. apply Ho. by exists a.
  - destruct (pick_spec ps votes (draws (S n)) i b R (Hf (S n))) as (o & E & Ho); [by rewrite Ep|by rewrite Ep|done|]. rewrite Ep in E.
    remember (S n) as m. cbn [send_votes]. subst m. rewrite E. cbn [mbind outcome_bind]. destruct o as [v|].
    + destruct Ho as (k & Hvk & Hg & (a' & Ea' & Hak) & Hnb & Hh & Hr & Ht & Hks). rewrite Ea in Ea'. simplify_eq.
      unfold SetHasVote, setHasVote. rewrite Hh, Hr, Ht, Hi, Hvk.
      destruct (mark_load ps i k b Hb Hw) as (ps1 & b1 & -> & Epr & Hb1 & Hw1 & HB1 & Hbits). cbn [mbind outcome_bind].
      assert (k ∈ missing_at a' b) as Hin.
      { apply list_elem_of_filter. unfold has_bit in *. split; [split; [done|by destruct (bit (Elems b) k)]|]. apply elem_of_seq.
        destruct (ro_bits _ R) as (a0 & Ea0 & _ & Hc & HB). rewrite Ea in Ea0. simplify_eq. lia. }
      pose proof (missing_mark a' b b1 k Hin Hbits ltac:(lia)) as Hperm.
      destruct (IH ps1 i b1) as (ps' & sent & b' & E' & Epr' & Hb' & Hs' & Hall & Hget); [by rewrite Epr|by rewrite Epr|done|done|lia| |].
      { apply Permutation_length in Hperm. simpl in Hperm. lia. }
      remember (S n) as m. rewrite E'. cbn [mbind outcome_bind]. eexists _, (v :: sent), b'. split; [done|]. split; [congruence|]. split; [done|].
      split; [|split; [done|by constructor; [rewrite Hvk|]]]. cbn [fmap list_fmap]. rewrite Hvk, Hperm. cbn [fmap list_fmap]. by constructor.
    + exfalso. destruct (missing_at a b) as [|k l] eqn:Em; [done|]. assert (k ∈ missing_at a b) as Hin by (rewrite Em; left).
      apply list_elem_of_filter in Hin as [[H1 H2] _]. specialize (Ho k (ex_intro _ a (conj Ea H1))). unfold has_bit in Ho. congruence.
Qed.

Lemma send_votes_prepare ps votes draws n : 0 < r_Size votes → send_votes (S n) ps votes draws = send_votes (S n) (prepare ps votes) votes draws.
Proof.
  intros Hs. cbn [send_votes]. assert (PickVoteToSend ps votes (draws n) = PickVoteToSend (prepare ps votes) votes (draws n)) as ->; [|done].
  unfold PickVoteToSend. destruct (_ =? 0) eqn:E; [apply Z.eqb_eq in E; lia|]. by rewrite (prepared_fix (prepare ps votes)) by by apply prepare_prepared.
Qed.

(** C34: Votes reach the peer.  Whatever the peer is known to have, and whatever the random source
    answers in its range, gossiping a set of votes that the peer is tracked for, by a bit array at least as
    long as the set, comes to an end; every vote of
    the set that the peer is not known to have is sent, exactly once, no other vote is sent, and
    in the end the peer is known to have them all. *)
Theorem votes_reach_peer K ps votes draws i b : peer_inv K ps → reader_ok votes → (∀ n, fair (draws n)) →
  getVoteBitArray (PRS (prepare ps votes)) (r_Height votes) (r_Round votes) (r_Type votes) = Some i →
  heap (prepare ps votes) !! i = Some b → r_Size votes ≤ Bits b →
  ∃ n ps' sent, send_votes n ps votes draws = Done (ps', sent, true) ∧
    (∀ k, Z.of_nat k ∈ ValidatorIndex <$> sent ↔ holds votes k ∧ ¬ peer_marked (prepare ps votes) votes k) ∧ NoDup (ValidatorIndex <$> sent) ∧
    Forall (λ v, r_GetByIndex votes (ValidatorIndex v) = Done (Some v)) sent ∧ ∀ k, holds votes k → peer_marked ps' votes k.
Proof.
  intros I R Hf Hi Hb Hs. pose proof (prepare_inv K ps votes I) as I1. pose proof (ro_size _ R) as Hn.
  pose proof (getVoteBitArray_owner _ _ _ _ _ (proj1 (pi_height _ _ I1)) (ro_height _ R) Hi) as Ho.
  destruct (pi_votes _ _ I1 _ _ Ho) as (b0 & Hb0 & Hw & _). rewrite Hb in Hb0. injection Hb0 as <-.
  destruct (ro_bits _ R) as (a & Ea & Hwa & Hca & HBa).
  destruct (send_votes_spec votes a draws _ R Hf Ea (prepare ps votes) i b (prepare_prepared _ _ (proj1 Hn)) Hi Hb Hw Hs eq_refl) as (ps' & sent & b' & E & Ep & Hb' & Hperm & Hall & Hget).
  exists (S (length (missing_at a b))), ps', sent. rewrite send_votes_prepare by lia. split; [done|]. split; [|split; [|split; [done|]]].
  - intros k. rewrite Hperm, list_elem_of_fmap. unfold peer_marked, marked, holds, load. rewrite Hi. cbn [mbind option_bind].
    rewrite Hb. unfold missing_at. setoid_rewrite list_elem_of_filter. unfold has_bit. split.
    + intros (j & Ej & (H1 & H2) & _). apply Nat2Z.inj in Ej as <-. split; [by exists a|]. intros (b1 & [= <-] & H3). congruence.
    + intros ((a' & Ea' & H1) & H2). rewrite Ea in Ea'. simplify_eq. exists k. split; [done|]. split; [split; [done|]|].
      * destruct (bit (Elems b) k) eqn:Eb; [|done]. destruct H2. by exists b.
      * apply elem_of_seq. destruct (decide (k < Z.to_nat (Bits a'))%nat); [lia|]. rewrite Hca in H1 by lia. done.
  - rewrite Hperm. apply NoDup_fmap; [apply _|]. apply NoDup_filter, NoDup_seq.
  - intros k (a' & Ea' & Hk). rewrite Ea in Ea'. simplify_eq. exists b'. unfold load. rewrite Ep, Hi. cbn [mbind option_bind]. auto.
Qed.
End picking.

(** ** The sets that are gossiped *)

Section sets.
Context `{PubKeyOps, SignCodec}.

Lemma VoteSet_reader_ok (vs : VoteSet.VoteSet.VoteSet) : VoteSet.VoteSet.inv vs → in_int64 (VoteSet.VoteSet.height vs) →
  zlen (VoteSet.VoteSet.vals_of vs) ≤ max_int32 → reader_ok (Some vs).
Proof.
  intros [C _] Hh Hs. destruct (VoteSet.VoteSet.inv_votes _ _ C) as (Hl & _ & b & Hb & Hw & Hc & HB & Hg).
  assert (VoteSet.VoteSet.vs_BitArray (Some vs) = Some b) as Eb by (unfold VoteSet.VoteSet.vs_BitArray; simpl; rewrite Hb; simpl; by rewrite copy_eq).
  assert (r_Size (Some vs) = zlen (VoteSet.VoteSet.vals_of vs)) as Es by done.
  split.
  - rewrite Es. split; [|done]. pose proof (VoteSet.VoteSet.inv_nonempty _ _ C) as Hne. unfold zlen. destruct (VoteSet.VoteSet.vals_of vs); [done|simpl; lia].
  - done.
  - exists b. cbn [r_BitArray VoteSet_reader]. rewrite Eb. split_and!; try done. rewrite Es, HB. unfold zlen. by rewrite Hl.
  - intros b' k. cbn [r_BitArray VoteSet_reader]. rewrite Eb. intros [= <-] Hk. unfold has_bit in Hk. rewrite <- get_clean, Hg in Hk by done.
    unfold VoteSet.VoteSet.voted in Hk. destruct (VoteSet.VoteSet.votes vs !! k) as [[v|]|] eqn:Ev; try done.
    exists v. cbn [r_GetByIndex VoteSet_reader VoteSet.VoteSet.vs_GetByIndex]. rewrite (idx_nat _ _ _ Ev).
    destruct (VoteSet.VoteSet.inv_accepted _ _ C _ _ Ev) as (? & ? & ? & ? & _). done.
Qed.

Lemma ExtendedCommit_reader_ok (ec : Commit.Commit.ExtendedCommit) : 0 < zlen (Commit.Commit.ExtendedSignatures ec) ≤ max_int32 →
  in_int64 (Commit.Commit.ecHeight ec) → Forall (λ s, Commit.Commit.known_flag (Commit.Commit.cs_Flag (Commit.Commit.ecs_CommitSig s)) = true) (Commit.Commit.ExtendedSignatures ec) →
  reader_ok ec.
Proof.
  intros Hs Hh Hk.
  destruct (NewBitArrayFromFn_spec (zlen (Commit.Commit.ExtendedSignatures ec))
    (λ i, match Commit.Commit.ExtendedSignatures ec !! Z.to_nat i with
          | Some ecs => negb (Commit.Commit.cs_Flag (Commit.Commit.ecs_CommitSig ecs) =? Commit.Commit.BlockIDFlagAbsent)
          | None => false end)) as (b & Eb & Hw & Hc & HB & Hg); [lia|].
  split; [done|done|exists b; by split_and!|]. intros b' k Eb' Hbk. cbn [r_BitArray ExtendedCommit_reader] in Eb'. unfold Commit.Commit.ec_BitArray in Eb'.
  rewrite Eb in Eb'. injection Eb' as <-. unfold has_bit in Hbk. rewrite <- get_clean, Hg, Nat2Z.id in Hbk by done. apply andb_prop in Hbk as [_ Hbk].
  destruct (Commit.Commit.ExtendedSignatures ec !! k) as [sg|] eqn:Es; [|done].
  pose proof (Forall_lookup_1 _ _ _ _ Hk Es) as Hfl. cbn beta in Hfl. cbn [r_GetByIndex ExtendedCommit_reader]. unfold Commit.Commit.GetExtendedVote.
  rewrite (idx_nat _ _ _ Es). cbn [mbind outcome_bind]. unfold Commit.Commit.cs_BlockID, Commit.Commit.known_flag in *.
  repeat case_match; try done; cbn [mbind outcome_bind]; by eexists.
Qed.

End sets.

(** A peer that claims prevotes with an array shorter than the validator set: a vote past its end
    cannot be marked, so the routine sends it again and again, without a pause. *)
Theorem short_claim_never_ends `{VoteSetReader A} (votes : A) draws n : reader_ok votes → (∀ n, fair (draws n)) →
  ∀ ps i b k, prepared (PRS ps) votes → getVoteBitArray (PRS ps) (r_Height votes) (r_Round votes) (r_Type votes) = Some i →
  heap ps !! i = Some b → wf b → holds votes k → Bits b ≤ Z.of_nat k → ¬ has_bit b k →
  ∃ ps' sent, send_votes n ps votes draws = Done (ps', sent, false) ∧ length sent = n.
Proof.
  intros R Hf. induction n as [|n IH]; intros ps i b k Hp Hi Hb Hw Hk Hlt Hnb; [by eexists _, []|]. pose proof (prepared_fix _ _ Hp) as Ep.
  destruct (pick_spec ps votes (draws n) i b R (Hf n)) as (o & E & Ho); [by rewrite Ep|by rewrite Ep|done|]. rewrite Ep in E.
  cbn [send_votes]. rewrite E. cbn [mbind outcome_bind]. destruct o as [v|]; [|by destruct Hnb; apply Ho].
  destruct Ho as (j & Hvj & _ & _ & _ & Hh & Hr & Ht & _). unfold SetHasVote, setHasVote. rewrite Hh, Hr, Ht, Hi, Hvj.
  destruct (mark_load ps i j b Hb Hw) as (ps1 & b1 & -> & Epr & Hb1 & Hw1 & HB1 & Hbits). cbn [mbind outcome_bind].
  destruct (IH ps1 i b1 k) as (ps' & sent & -> & Hl); [by rewrite Epr|by rewrite Epr|done|done|done|lia| |].
  { unfold has_bit. rewrite Hbits. destruct (decide (k = j ∧ _)) as [[-> ?]|]; [lia|done]. }
  cbn [mbind outcome_bind]. eexists _, (v :: sent). split; [done|]. simpl. lia.
Qed.

(** ** Examples *)

(** A commit of three validators, the second of which did not vote, for a peer that is in
    another round of the height. *)
Definition ex_sig (flag : Z) : Commit.Commit.ExtendedCommitSig := Commit.Commit.mkExtCommitSig (Commit.Commit.mkCommitSig flag [] 0 [1]) [] [].
Definition ex_commit : Commit.Commit.ExtendedCommit := Commit.Commit.mkExtendedCommit 3 0 (ex_block 1) [ex_sig 2; ex_sig 1; ex_sig 2].
Definition ex_peer : PeerState := ApplyNewRoundStepMessage NewPeerState 100 3 1 4 0 0.

Lemma ex_peer_inv : peer_inv (λ _ _, False) ex_peer.
Proof. apply ApplyNewRoundStep_inv; [apply NewPeerState_inv|unfold_ints; lia]. Qed.

Lemma votes_reach_peer_witness : ∃ n ps' sent, send_votes n ex_peer ex_commit (λ _ m, m - 1) = Done (ps', sent, true) ∧
  (∀ k, Z.of_nat k ∈ ValidatorIndex <$> sent ↔ holds ex_commit k ∧ ¬ peer_marked (prepare ex_peer ex_commit) ex_commit k) ∧ NoDup (ValidatorIndex <$> sent) ∧
  Forall (λ v, r_GetByIndex ex_commit (ValidatorIndex v) = Done (Some v)) sent ∧ ∀ k, holds ex_commit k → peer_marked ps' ex_commit k.
Proof.
  apply (votes_reach_peer (λ _ _, False) ex_peer ex_commit (λ _ m, m - 1) 0%nat (mkBitArray 3 [0])); [exact ex_peer_inv| |intros n m Hm; lia|done|done|done].
  apply ExtendedCommit_reader_ok; [unfold zlen; simpl; unfold_ints; lia|simpl; unfold_ints; lia|by_decide].
Defined.

(** What is sent: the two votes, the last one first. *)
Example ex_sent : (r ← send_votes 3 ex_peer ex_commit (λ _ m, m - 1); Done (map ValidatorIndex r.1.2, r.2)) = Done ([2; 0], true).
Proof. by vm_compute. Qed.

End PeerState.
