(* ===== verification/Reactor.v ===== *)
(** * Reactor: the gossip of consensus

    [internal/consensus/reactor.go]: handling the messages of a peer, and the rounds of the three
    routines that send it block parts, proposals, votes and claims of majorities.  The routines
    work on a snapshot of the peer's round state whose bit arrays are shared with the peer state,
    so the functions take the snapshot beside the state.  A round of a routine is given the
    answers of the connection and of the random source.  Timers, goroutines and the
    subscription to events are not modelled; the messages that events broadcast are. *)

From S2P Require Import Prelude BitArray Merkle Crypto ValidatorSet Votes PartSet Proposal Commit VoteSet HeightVoteSet PrivVal ConsensusState Validation Header Light Params Wire Evidence Block State Chain BlockStore Messages PeerState.
Import BitArray.BitArray Votes.Votes Proposal.Proposal Wire.Wire Messages.Messages PeerState.PeerState.

Local Open Scope Z_scope.

Module Reactor.

Local Notation VoteSet := VoteSet.VoteSet.VoteSet.
Local Notation HeightVoteSet := HeightVoteSet.HeightVoteSet.HeightVoteSet.
Local Notation ValidatorSet := ValidatorSet.ValidatorSet.ValidatorSet.
Local Notation PartSet := PartSet.PartSet.PartSet.
Local Notation Part := PartSet.PartSet.Part.
Local Notation ExtendedCommit := Commit.Commit.ExtendedCommit.
Local Notation Store := BlockStore.BlockStore.Store.

Definition StateChannel : Z := 32.
Definition DataChannel : Z := 33.
Definition VoteChannel : Z := 34.
Definition VoteSetBitsChannel : Z := 35.
Definition blocksToContributeToBecomeGoodPeer : Z := 10000.
Definition votesToContributeToBecomeGoodPeer : Z := 10000.

Section reactor.
Context `{PubKeyOps, SignCodec}.

(** ** Data *)

(** The round state of the node, as far as the reactor reads it. *)
Record RoundState := mkRS {
  rsHeight : Z; rsRound : Z; rsStep : Z; rsStartTime : Z; rsProposal : option Proposal; rsProposalBlockParts : option PartSet;
  rsVotes : option HeightVoteSet; rsLastCommit : option VoteSet; rsValidators : option ValidatorSet }.

Record Reactor := mkReactor { conRunning : bool; conWaitSync : bool; conRS : RoundState; conInitialHeight : Z }.

(** What handling a message does besides changing the peer state and the tallies. *)
Inductive effect :=
| StopPeerForError (e : string)
| PeerMsgQueue (m : ConsensusState.ConsensusState.Message) (receiveTime : Z)
| TrySend (ch : Z) (m : ProtoMessage)
| LogUnknown.

Definition votes_of (rs : RoundState) : outcome HeightVoteSet := match rsVotes rs with Some v => Done v | None => nil_deref end.

(** [votes.Prevotes(r).BitArrayByBlockID(b)] or that of the precommits. *)
Definition ourVotesFor (v : HeightVoteSet) (round type_ : Z) (b : BlockID) : outcome (option BitArray) :=
  if type_ =? PrevoteType then vs ← HeightVoteSet.HeightVoteSet.Prevotes v round; Done (VoteSet.VoteSet.BitArrayByBlockID vs b)
  else if type_ =? PrecommitType then vs ← HeightVoteSet.HeightVoteSet.Precommits v round; Done (VoteSet.VoteSet.BitArrayByBlockID vs b)
  else Panic "Bad VoteSetBitsMessage field Type. Forgot to add a check in ValidateBasic?".

(** ** Handling messages, channel by channel *)

Definition receive_state (conR : Reactor) (ps : PeerState) (peerID : string) (now : Z) (m : Message) : outcome (PeerState * option HeightVoteSet * list effect) :=
  let votes := rsVotes (conRS conR) in
  match m with
  | NewRoundStepMessage h r s secs lcr =>
      match ValidateHeight h lcr (conInitialHeight conR) with
      | Some e => Done (ps, votes, [StopPeerForError e])
      | None => Done (ApplyNewRoundStepMessage ps now h r s secs lcr, votes, [])
      end
  | NewValidBlockMessage h r psh bp c => Done (ApplyNewValidBlockMessage ps h r psh bp c, votes, [])
  | HasVoteMessage h r t i => ps ← ApplyHasVoteMessage ps h r t i; Done (ps, votes, [])
  | HasProposalBlockPartMessage h r i => ps ← ApplyHasProposalBlockPartMessage ps h r i; Done (ps, votes, [])
  | VoteSetMaj23Message h r t b =>
      if negb (rsHeight (conRS conR) =? h) then Done (ps, votes, [])
      else
        v ← votes_of (conRS conR);
        '((v, err) : HeightVoteSet * bool) ← HeightVoteSet.HeightVoteSet.SetPeerMaj23 v r t peerID b;
        if err then Done (ps, Some v, [StopPeerForError "SetPeerMaj23"])
        else
          ours ← ourVotesFor v r t b;
          Done (ps, Some v, [TrySend VoteSetBitsChannel (PVoteSetBits h r t b (match ToProto ours with Some o => o | None => zero_bits end))])
  | _ => Done (ps, votes, [LogUnknown])
  end.

Definition receive_data (ps : PeerState) (now : Z) (m : Message) : outcome (PeerState * list effect) :=
  match m with
  | ProposalMessage p => Done (SetHasProposal ps p, [PeerMsgQueue (ConsensusState.ConsensusState.ProposalMessage (Some p)) now])
  | ProposalPOLMessage h r pol => Done (ApplyProposalPOLMessage ps h r pol, [])
  | BlockPartMessage h r part =>
      ps ← SetHasProposalBlockPart ps h r (PartSet.PartSet.pIndex part);
      Done (ps, [PeerMsgQueue (ConsensusState.ConsensusState.BlockPartMessage h r (Some part)) 0])
  | _ => Done (ps, [LogUnknown])
  end.

Definition receive_vote (rs : RoundState) (ps : PeerState) (m : Message) : outcome (PeerState * list effect) :=
  match m with
  | VoteMessage v =>
      match rsValidators rs with
      | None => nil_deref
      | Some vals =>
          ps ← SetHasVoteFromPeer ps v (rsHeight rs) (ValidatorSet.ValidatorSet.Size vals) (VoteSet.VoteSet.vs_Size (rsLastCommit rs));
          Done (ps, [PeerMsgQueue (ConsensusState.ConsensusState.VoteMessage v) 0])
      end
  | _ => Done (ps, [LogUnknown])
  end.

Definition receive_bits (rs : RoundState) (ps : PeerState) (m : Message) : outcome (PeerState * list effect) :=
  match m with
  | VoteSetBitsMessage h r t b votes =>
      if rsHeight rs =? h then
        v ← votes_of rs;
        ours ← ourVotesFor v r t b;
        ps ← ApplyVoteSetBitsMessage ps h r t votes ours;
        Done (ps, [])
      else ps ← ApplyVoteSetBitsMessage ps h r t votes None; Done (ps, [])
  | _ => Done (ps, [LogUnknown])
  end.

(** [Receive]: the new peer state and tallies, and the effects.  [ps] is what the peer has stored
    under the key of the peer state. *)
Definition Receive (conR : Reactor) (ps : option PeerState) (peerID : string) (ch : Z) (message : ProtoMessage) (now : Z) :
    outcome (option PeerState * option HeightVoteSet * list effect) :=
  let rs := conRS conR in
  let same eff := Done (ps, rsVotes rs, eff) in
  if negb (conRunning conR) then same []
  else
    r ← MsgFromProto (Some message);
    match r with
    | Err e => same [StopPeerForError e]
    | Ok msg =>
        match ValidateBasic msg with
        | Some e => same [StopPeerForError e]
        | None =>
            match ps with
            | None => Panic "Peer has no state"
            | Some p =>
                if ch =? StateChannel then '(p, v, eff) ← receive_state conR p peerID now msg; Done (Some p, v, eff)
                else if ch =? DataChannel then
                  if conWaitSync conR then same [] else '(p, eff) ← receive_data p now msg; Done (Some p, rsVotes rs, eff)
                else if ch =? VoteChannel then
                  if conWaitSync conR then same [] else '(p, eff) ← receive_vote rs p msg; Done (Some p, rsVotes rs, eff)
                else if ch =? VoteSetBitsChannel then
                  if conWaitSync conR then same [] else '(p, eff) ← receive_bits rs p msg; Done (Some p, rsVotes rs, eff)
                else same [LogUnknown]
            end
        end
    end.

(** ** What events broadcast *)

Definition makeRoundStepMessage (rs : RoundState) (now : Z) : ProtoMessage :=
  PNewRoundStep (rsHeight rs) (rsRound rs) (rsStep rs) (Z.quot (ConsensusState.ConsensusState.time_Sub now (rsStartTime rs)) 1000000000)
    (VoteSet.VoteSet.GetRound (rsLastCommit rs)).

Definition newValidBlockMessage (rs : RoundState) : outcome ProtoMessage :=
  match rsProposalBlockParts rs with
  | None => nil_deref
  | Some parts =>
      Done (PNewValidBlock (rsHeight rs) (rsRound rs) (PartSet.PartSet.Header (Some parts)) (ToProto (PartSet.PartSet.BitArray_of parts))
              (rsStep rs =? ConsensusState.ConsensusState.RoundStepCommit))
  end.

Definition hasVoteMessage (v : Vote) : ProtoMessage := PHasVote (Height v) (Round v) (Type_ v) (ValidatorIndex v).
Definition hasProposalBlockPartMessage (height round : Z) (part : Part) : ProtoMessage := PHasProposalBlockPart height round (wrap32 (PartSet.PartSet.pIndex part)).

(** ** Block parts *)

Definition pickPartForCatchup (ps : PeerState) (prs : PeerRoundState) (store : Store) (intn : Z → Z) : outcome (option Part * Store) :=
  '((index, ok) : Z * bool) ← PickRandom (Not (load ps (prsBlockParts prs))) intn;
  if negb ok then Done (None, store)
  else
    meta ← BlockStore.BlockStore.LoadBlockMeta store (prsHeight prs);
    match meta with
    | None => Done (None, store)
    | Some m =>
        if negb (psh_Equals (PSH (Block.Block.bmBlockID m)) (prsHeader prs)) then Done (None, store)
        else BlockStore.BlockStore.LoadBlockPart store (prsHeight prs) index
    end.

(** The part that the first branch finds, if it applies. *)
Definition pick_proposal_part (rs : RoundState) (ps : PeerState) (prs : PeerRoundState) (intn : Z → Z) : outcome (option (option Part)) :=
  if PartSet.PartSet.HasHeader (rsProposalBlockParts rs) (prsHeader prs) then
    match rsProposalBlockParts rs with
    | None => nil_deref
    | Some parts =>
        missing ← Sub (PartSet.PartSet.BitArray_of parts) (Copy (load ps (prsBlockParts prs)));
        '((index, ok) : Z * bool) ← PickRandom missing intn;
        if ok then p ← PartSet.PartSet.GetPart parts index; Done (Some p) else Done None
    end
  else Done None.

Definition pickPartToSend (store : Store) (rs : RoundState) (ps : PeerState) (prs : PeerRoundState) (intn : Z → Z) :
    outcome (PeerState * Store * option Part * bool) :=
  found ← pick_proposal_part rs ps prs intn;
  match found with
  | Some part => Done (ps, store, part, true)
  | None =>
      let base := BlockStore.BlockStore.bsBase store in
      if (0 <? base) && (0 <? prsHeight prs) && (prsHeight prs <? rsHeight rs) && (base <=? prsHeight prs) then
        match load ps (prsBlockParts prs) with
        | None =>
            meta ← BlockStore.BlockStore.LoadBlockMeta store (prsHeight prs);
            match meta with
            | None => Done (ps, store, None, false)
            | Some m => Done (InitProposalBlockParts ps (PSH (Block.Block.bmBlockID m)), store, None, true)
            end
        | Some _ =>
            '((part, store) : option Part * Store) ← pickPartForCatchup ps prs store intn;
            Done (ps, store, part, false)
        end
      else Done (ps, store, None, false)
  end.

(** ** Votes *)

Definition pick {A} `{VoteSetReader A} (ps : PeerState) (votes : A) (intn : Z → Z) (next : PeerState → outcome (PeerState * option Vote)) :
    outcome (PeerState * option Vote) :=
  '((ps, v) : PeerState * option Vote) ← PickVoteToSend ps votes intn;
  match v with Some v => Done (ps, Some v) | None => next ps end.

(** A step of [pickVoteCurrentHeight]: when the guard holds, pick from the set. *)
Definition pick_when (guard : bool) (votes : outcome (option VoteSet)) (intn : Z → Z) (next : PeerState → outcome (PeerState * option Vote)) (ps : PeerState) :
    outcome (PeerState * option Vote) :=
  if guard then vs ← votes; pick ps (vs : option VoteSet) intn next else next ps.

Definition pickVoteCurrentHeight (rs : RoundState) (prs : PeerRoundState) (ps : PeerState) (intn : Z → Z) : outcome (PeerState * option Vote) :=
  v ← votes_of rs;
  let prevotes r := HeightVoteSet.HeightVoteSet.Prevotes v r in
  let precommits r := HeightVoteSet.HeightVoteSet.Precommits v r in
  let in_round := negb (prsRound prs =? -1) && (prsRound prs <=? rsRound rs) in
  pick_when (prsStep prs =? ConsensusState.ConsensusState.RoundStepNewHeight) (Done (rsLastCommit rs)) intn (
  pick_when ((prsStep prs <=? ConsensusState.ConsensusState.RoundStepPropose) && in_round && negb (prsPOLRound prs =? -1)) (prevotes (prsPOLRound prs)) intn (
  pick_when ((prsStep prs <=? ConsensusState.ConsensusState.RoundStepPrevoteWait) && in_round) (prevotes (prsRound prs)) intn (
  pick_when ((prsStep prs <=? ConsensusState.ConsensusState.RoundStepPrecommitWait) && in_round) (precommits (prsRound prs)) intn (
  pick_when in_round (prevotes (prsRound prs)) intn (
  pick_when (negb (prsPOLRound prs =? -1)) (prevotes (prsPOLRound prs)) intn (λ ps, Done (ps, None))))))) ps.

(** The commit of the block store that catches a peer up. *)
Definition catchup_commit (veEnableHeight : Z) (store : Store) (height : Z) : outcome (option ExtendedCommit * Store) :=
  veEnabled ← Commit.Commit.featureEnabled veEnableHeight height;
  if (veEnabled : bool) then BlockStore.BlockStore.LoadBlockExtendedCommit store height
  else
    '((c, store) : option Commit.Commit.Commit * Store) ← BlockStore.BlockStore.LoadBlockCommit store height;
    Done (Commit.Commit.WrappedExtendedCommit <$> c, store).

(** The last branch of [pickVoteToSend]. *)
Definition pick_catchup (veEnableHeight : Z) (store : Store) (rs : RoundState) (prs : PeerRoundState) (ps : PeerState) (intn : Z → Z) :
    outcome (PeerState * Store * option Vote) :=
  let base := BlockStore.BlockStore.bsBase store in
  if (0 <? base) && negb (prsHeight prs =? 0) && (wrap64 (prsHeight prs + 2) <=? rsHeight rs) && (base <=? prsHeight prs) then
    '((ec, store) : option ExtendedCommit * Store) ← catchup_commit veEnableHeight store (prsHeight prs);
    match ec with
    | None => Done (ps, store, None)
    | Some ec => '((ps, v) : PeerState * option Vote) ← PickVoteToSend ps ec intn; Done (ps, store, v)
    end
  else Done (ps, store, None).

Definition pickVoteToSend (veEnableHeight : Z) (store : Store) (rs : RoundState) (ps : PeerState) (prs : PeerRoundState) (intn : Z → Z) :
    outcome (PeerState * Store * option Vote) :=
  if rsHeight rs =? prsHeight prs then '((ps, v) : PeerState * option Vote) ← pickVoteCurrentHeight rs prs ps intn; Done (ps, store, v)
  else
    '((ps, v) : PeerState * option Vote) ←
      (if negb (prsHeight prs =? 0) && (rsHeight rs =? wrap64 (prsHeight prs + 1)) then PickVoteToSend ps (rsLastCommit rs) intn else Done (ps, None));
    match v with
    | Some v => Done (ps, store, Some v)
    | None => pick_catchup veEnableHeight store rs prs ps intn
    end.

(** ** Rounds of the routines *)

(** [SendPartSetHasPart], with the answer of the connection. *)
Definition SendPartSetHasPart (ps : PeerState) (part : Part) (prs : PeerRoundState) (sent : bool) : outcome (PeerState * bool) :=
  if sent then ps ← SetHasProposalBlockPart ps (prsHeight prs) (prsRound prs) (PartSet.PartSet.pIndex part); Done (ps, true)
  else Done (ps, false).

(** [SendProposalSetHasProposal]: the messages sent; the second one follows whatever the answer. *)
Definition SendProposalSetHasProposal (rs : RoundState) (p : Proposal) (ps : PeerState) (sent : bool) : outcome (PeerState * list ProtoMessage) :=
  let ps := if sent then SetHasProposal ps p else ps in
  if 0 <=? POLRound p then
    v ← votes_of rs;
    vs ← HeightVoteSet.HeightVoteSet.Prevotes v (POLRound p);
    match ToProto (VoteSet.VoteSet.vs_BitArray vs) with
    | None => nil_deref
    | Some b => Done (ps, [PProposal p; PProposalPOL (rsHeight rs) (POLRound p) b])
    end
  else Done (ps, [PProposal p]).

(** A round of [gossipDataRoutine]: the messages it sends, and whether the next round follows at once. *)
Definition gossipData (store : Store) (rs : RoundState) (ps : PeerState) (intn : Z → Z) (sentPart sentProposal : bool) :
    outcome (PeerState * Store * list ProtoMessage * bool) :=
  let prs := GetRoundState ps in
  '((ps, store, part, continue) : PeerState * Store * option Part * bool) ← pickPartToSend store rs ps prs intn;
  '((ps, msgs, again) : PeerState * list ProtoMessage * bool) ←
    match part with
    | Some part =>
        '((ps, ok) : PeerState * bool) ← SendPartSetHasPart ps part prs sentPart;
        Done (ps, [PBlockPart (prsHeight prs) (prsRound prs) part], ok || continue)
    | None => Done (ps, [], continue)
    end;
  if (again : bool) then Done (ps, store, msgs, true)
  else
    match rsProposal rs with
    | Some p =>
        if (rsHeight rs =? prsHeight prs) && (rsRound rs =? prsRound prs) && negb (prsProposal prs) then
          '((ps, more) : PeerState * list ProtoMessage) ← SendProposalSetHasProposal rs p ps sentProposal; Done (ps, store, msgs ++ more, true)
        else Done (ps, store, msgs, false)
    | None => Done (ps, store, msgs, false)
    end.

(** A round of [gossipVotesRoutine]. *)
Definition gossipVotes (veEnableHeight : Z) (store : Store) (rs : RoundState) (ps : PeerState) (intn : Z → Z) (sent : bool) :
    outcome (PeerState * Store * option Vote * bool) :=
  let prs := GetRoundState ps in
  '((ps, store, v) : PeerState * Store * option Vote) ← pickVoteToSend veEnableHeight store rs ps prs intn;
  match v with
  | None => Done (ps, store, None, false)
  | Some v => if sent then ps ← SetHasVote ps v; Done (ps, store, Some v, true) else Done (ps, store, Some v, false)
  end.

(** One of the first three claims of [queryMaj23Routine]. *)
Definition query_round (rs : RoundState) (prs : PeerRoundState) (round type_ : Z) : outcome (list ProtoMessage) :=
  if rsHeight rs =? prsHeight prs then
    v ← votes_of rs;
    vs ← HeightVoteSet.HeightVoteSet.getVoteSet v round type_;
    let '(maj23, ok) := VoteSet.VoteSet.TwoThirdsMajority vs in
    Done (if ok then [PVoteSetMaj23 (prsHeight prs) round type_ maj23] else [])
  else Done [].

(** A round of [queryMaj23Routine]; [loadCommit] is the node's [LoadCommit]. *)
Definition queryMaj23 (store : Store) (loadCommit : Z → outcome (option Commit.Commit.Commit)) (rs : RoundState) (ps : PeerState) : outcome (list ProtoMessage) :=
  let prs := GetRoundState ps in
  a ← query_round rs prs (prsRound prs) PrevoteType;
  b ← query_round rs prs (prsRound prs) PrecommitType;
  c ← (if 0 <=? prsPOLRound prs then query_round rs prs (prsPOLRound prs) PrevoteType else Done []);
  d ← (if negb (prsCatchupRound prs =? -1) && (0 <? prsHeight prs) && (prsHeight prs <=? BlockStore.BlockStore.bsHeight store)
          && (BlockStore.BlockStore.bsBase store <=? prsHeight prs) then
         commit ← loadCommit (prsHeight prs);
         Done (match commit with
               | Some commit => [PVoteSetMaj23 (prsHeight prs) (Commit.Commit.cRound commit) PrecommitType (Commit.Commit.cBlockID commit)]
               | None => []
               end)
       else Done []);
  Done (a ++ b ++ c ++ d).

(** [peerStatsRoutine] on one message: whether the peer is marked as good. *)
Definition peerStats (ps : PeerState) (m : ConsensusState.ConsensusState.Message) : PeerState * bool :=
  match m with
  | ConsensusState.ConsensusState.VoteMessage _ => let '(ps, n) := RecordVote ps in (ps, Z.rem n votesToContributeToBecomeGoodPeer =? 0)
  | ConsensusState.ConsensusState.BlockPartMessage _ _ _ => let '(ps, n) := RecordBlockPart ps in (ps, Z.rem n blocksToContributeToBecomeGoodPeer =? 0)
  | _ => (ps, false)
  end.

End reactor.

(** ** Runs of a peer *)

(** What can happen to a peer state: a message of the peer is handled, a routine picks from a
    snapshot taken at any earlier time, or a send has succeeded. *)
Section runs.
Context `{PubKeyOps, SignCodec}.

Inductive event :=
| EvReceive (conR : Reactor) (peerID : string) (ch : Z) (m : ProtoMessage) (now : Z)
| EvPickVote (veEnableHeight : Z) (store : Store) (rs : RoundState) (prs : PeerRoundState) (intn : Z → Z)
| EvVoteSent (v : Vote)
| EvPickPart (store : Store) (rs : RoundState) (prs : PeerRoundState) (intn : Z → Z)
| EvPartSent (height round index : Z)
| EvProposalSent (p : Proposal).

Definition step (e : event) (ps : PeerState) : outcome PeerState :=
  match e with
  | EvReceive conR peer ch m now => r ← Receive conR (Some ps) peer ch m now; Done (default ps r.1.1)
  | EvPickVote ve store rs prs intn => r ← pickVoteToSend ve store rs ps prs intn; Done r.1.1
  | EvVoteSent v => SetHasVote ps v
  | EvPickPart store rs prs intn => r ← pickPartToSend store rs ps prs intn; Done r.1.1.1
  | EvPartSent h r i => SetHasProposalBlockPart ps h r i
  | EvProposalSent p => Done (SetHasProposal ps p)
  end.

Fixpoint run (evs : list event) (ps : PeerState) : outcome PeerState :=
  match evs with [] => Done ps | e :: evs => ps ← step e ps; run evs ps end.

(** The votes that a message says its sender has. *)
Definition claims (m : Message) (kd : Z * Z * Z) (k : nat) : Prop :=
  match m with
  | HasVoteMessage h r t i => kd = (h, r, t) ∧ Z.of_nat k = i
  | VoteMessage v => kd = (Height v, Round v, Type_ v) ∧ Z.of_nat k = ValidatorIndex v
  | ProposalPOLMessage h r (Some b) => kd = (h, r, PrevoteType) ∧ has_bit b k
  | VoteSetBitsMessage h r t _ (Some b) => kd = (h, r, t) ∧ has_bit b k
  | _ => False
  end.

Definition tells (e : event) (kd : Z * Z * Z) (k : nat) : Prop :=
  match e with
  | EvReceive _ _ _ p _ => ∃ m, MsgFromProto (Some p) = value m ∧ claims m kd k
  | EvVoteSent v => kd = (Height v, Round v, Type_ v) ∧ Z.of_nat k = ValidatorIndex v
  | _ => False
  end.

(** The node's own state: its tallies are reachable ones, with sizes and heights in range. *)
Definition small (vs : VoteSet) : Prop := VoteSet.VoteSet.inv vs ∧ in_int64 (VoteSet.VoteSet.height vs) ∧ zlen (VoteSet.VoteSet.vals_of vs) ≤ max_int32.
Definition rs_ok (rs : RoundState) : Prop :=
  (∃ v, rsVotes rs = Some v ∧ HeightVoteSet.HeightVoteSet.hinv v ∧ in_int64 (HeightVoteSet.HeightVoteSet.hHeight v) ∧
        zlen (ValidatorSet.ValidatorSet.Validators (HeightVoteSet.HeightVoteSet.hValSet v)) ≤ max_int32) ∧
  (∀ vs, rsLastCommit rs = Some vs → small vs) ∧ is_Some (rsValidators rs) ∧ (∀ p, rsProposalBlockParts rs = Some p → PartSet.PartSet.inv p).

Definition commit_ok (ec : ExtendedCommit) : Prop :=
  0 < zlen (Commit.Commit.ExtendedSignatures ec) ≤ max_int32 ∧ in_int64 (Commit.Commit.ecHeight ec) ∧
  Forall (λ s, Commit.Commit.known_flag (Commit.Commit.cs_Flag (Commit.Commit.ecs_CommitSig s)) = true) (Commit.Commit.ExtendedSignatures ec).

(** The block store answers, with commits that hold signatures with known flags. *)
Definition store_ok (s : Store) : Prop :=
  (∀ h, 1 ≤ h → ∃ m, BlockStore.BlockStore.LoadBlockMeta s h = Done m) ∧
  (∀ h i, ∃ r, BlockStore.BlockStore.LoadBlockPart s h i = Done r) ∧
  ∀ ve h, 1 ≤ h → ∃ c s', catchup_commit ve s h = Done (c, s') ∧ ∀ ec, c = Some ec → commit_ok ec.

(** Heights are 64-bit integers, and indices are those of validators and parts. *)
Definition msg_range (m : Message) : Prop :=
  match m with
  | NewRoundStepMessage h _ _ _ _ | HasVoteMessage h _ _ _ | VoteSetBitsMessage h _ _ _ _ => h ≤ max_int64
  | VoteMessage v => Height v ≤ max_int64
  | BlockPartMessage _ _ p => 0 ≤ PartSet.PartSet.pIndex p
  | _ => True
  end.

Definition event_ok (e : event) : Prop :=
  match e with
  | EvReceive conR _ _ p _ => rs_ok (conRS conR) ∧ (∃ r, MsgFromProto (Some p) = Done r) ∧ ∀ m, MsgFromProto (Some p) = value m → msg_bits_ok m ∧ msg_range m
  | EvPickVote _ store rs prs intn => rs_ok rs ∧ store_ok store ∧ fair intn
  | EvVoteSent v => 0 ≤ ValidatorIndex v ∧ in_int64 (Height v)
  | EvPickPart store rs _ intn => rs_ok rs ∧ store_ok store ∧ fair intn
  | EvPartSent _ _ i => 0 ≤ i
  | EvProposalSent _ => True
  end.

(** *** Votes are picked without a panic *)

Lemma VoteSet_readable (o : option VoteSet) : (∀ vs, o = Some vs → small vs) → r_Size o ≠ 0 → reader_ok o.
Proof. intros Ho Hs. destruct o as [vs|]; [|done]. destruct (Ho vs eq_refl) as (? & ? & ?). by apply VoteSet_reader_ok. Qed.

Lemma pick_when_inv K ps guard votes intn next : peer_inv K ps → fair intn → (∃ o, votes = Done o ∧ ∀ vs, o = Some vs → small vs) →
  (∀ ps', peer_inv K ps' → ∃ ps'' o, next ps' = Done (ps'', o) ∧ peer_inv K ps'') →
  ∃ ps' o, pick_when guard votes intn next ps = Done (ps', o) ∧ peer_inv K ps'.
Proof.
  intros I Hf (o & -> & Ho) Hn. unfold pick_when. destruct guard; [|by apply Hn]. cbn [mbind outcome_bind]. unfold pick.
  destruct (pick_inv K ps o intn I (VoteSet_readable o Ho) Hf) as (ps' & v & -> & I'). cbn [mbind outcome_bind]. destruct v; [by eexists _, _|by apply Hn].
Qed.

Lemma tallies_small v r t : HeightVoteSet.HeightVoteSet.hinv v → in_int64 (HeightVoteSet.HeightVoteSet.hHeight v) →
  zlen (ValidatorSet.ValidatorSet.Validators (HeightVoteSet.HeightVoteSet.hValSet v)) ≤ max_int32 → IsVoteTypeValid t = true →
  ∃ o, HeightVoteSet.HeightVoteSet.getVoteSet v r t = Done o ∧ ∀ vs, o = Some vs → small vs.
Proof.
  intros Hv Hh Hs Ht. destruct (HeightVoteSet.HeightVoteSet.getVoteSet_total v r t Hv Ht) as (o & -> & _ & Ho). exists o. split; [done|].
  intros vs E. destruct (Ho vs E) as (Hr & _ & Eh & _ & _ & _ & Ev). unfold small. rewrite Eh, Ev. split; [|done]. by apply VoteSet.VoteSet.reachable_inv.
Qed.

Lemma pickCurrent_inv K rs prs ps intn : peer_inv K ps → rs_ok rs → fair intn → ∃ ps' o, pickVoteCurrentHeight rs prs ps intn = Done (ps', o) ∧ peer_inv K ps'.
Proof.
  intros I ((v & Ev & Hv & Hh & Hs) & Hl & _) Hf. unfold pickVoteCurrentHeight, votes_of. rewrite Ev. cbn [mbind outcome_bind].
  repeat match goal with
  | |- ∃ _ _, pick_when _ _ _ _ _ = _ ∧ _ => apply pick_when_inv; [done|done| |]; [first [by apply tallies_small|by eexists]|clear ps I; intros ps I]
  end. by eexists _, _.
Qed.

Lemma pickVoteToSend_inv K ve store rs ps prs intn : peer_inv K ps → rs_ok rs → store_ok store → fair intn →
  ∃ ps' s' o, pickVoteToSend ve store rs ps prs intn = Done (ps', s', o) ∧ peer_inv K ps'.
Proof.
  intros I Hrs (_ & _ & Hst) Hf. unfold pickVoteToSend. destruct (_ =? _).
  - destruct (pickCurrent_inv K rs prs ps intn I Hrs Hf) as (ps' & o & -> & I'). by eexists _, _, _.
  - assert (∃ ps' o, (if negb (prsHeight prs =? 0) && (rsHeight rs =? wrap64 (prsHeight prs + 1)) then PickVoteToSend ps (rsLastCommit rs) intn else Done (ps, None)) = Done (ps', o) ∧ peer_inv K ps') as (ps' & o & -> & I').
    { destruct (_ && _); [|by eexists _, _]. apply pick_inv; [done| |done]. apply VoteSet_readable, Hrs. }
    cbn [mbind outcome_bind]. destruct o; [by eexists _, _, _|]. unfold pick_catchup.
    destruct ((0 <? BlockStore.BlockStore.bsBase store) && negb (prsHeight prs =? 0) && (wrap64 (prsHeight prs + 2) <=? rsHeight rs) && (BlockStore.BlockStore.bsBase store <=? prsHeight prs)) eqn:Eg;
      [|by eexists _, _, _].
    zbool. destruct (Hst ve (prsHeight prs)) as (c & s' & -> & Hc); [lia|]. cbn [mbind outcome_bind]. destruct c as [ec|]; [|by eexists _, _, _].
    destruct (Hc ec eq_refl) as (? & ? & ?).
    destruct (pick_inv K ps' ec intn I') as (ps'' & o & -> & I''); [intros _; by apply ExtendedCommit_reader_ok|done|]. by eexists _, _, _.
Qed.

(** *** Block parts are picked without a panic *)

Lemma pick_proposal_part_ok K rs ps prs intn : peer_inv K ps → rs_ok rs → fair intn → ∃ o, pick_proposal_part rs ps prs intn = Done o.
Proof.
  intros I (_ & _ & _ & Hp) Hf. unfold pick_proposal_part. destruct (rsProposalBlockParts rs) as [parts|] eqn:E; [|by eexists].
  destruct (PartSet.PartSet.HasHeader _ _); [|by eexists]. destruct (Hp parts eq_refl) as (Hl & _ & _ & _ & _ & Hb).
  unfold PartSet.PartSet.BitArray_of. destruct (PartSet.PartSet.partsBitArray parts) as [a|]; [|by eexists]. destruct Hb as (Hwa & Hca & HBa & _).
  cbn [Copy fmap option_fmap option_map]. rewrite copy_eq. destruct (load ps (prsBlockParts prs)) as [b|] eqn:Eb; [|by eexists].
  assert (wf b) as Hwb by (unfold load in Eb; destruct (prsBlockParts prs) as [i|]; [|done]; by apply (pi_heap _ _ I i)).
  cbn [Copy fmap option_fmap option_map]. rewrite copy_eq. destruct (Sub_exact a b Hwa Hwb) as (c & -> & Hwc & HBc & _). cbn [mbind outcome_bind].
  destruct (PickRandom_correct c intn Hwc Hf) as (z & ok & -> & _ & _ & Hz). cbn [mbind outcome_bind]. destruct ok; [|by eexists].
  destruct (Hz eq_refl) as (_ & k & -> & Hk & _). unfold PartSet.PartSet.GetPart.
  destruct (idx_in_range (PartSet.PartSet.parts parts) (Z.of_nat k)) as (x & -> & _); [lia|]. by eexists.
Qed.

Lemma pickPartToSend_inv K store rs ps prs intn : peer_inv K ps → rs_ok rs → store_ok store → fair intn →
  ∃ ps' s' o c, pickPartToSend store rs ps prs intn = Done (ps', s', o, c) ∧ peer_inv K ps'.
Proof.
  intros I Hrs (Hm & Hp & _) Hf. unfold pickPartToSend. destruct (pick_proposal_part_ok K rs ps prs intn I Hrs Hf) as (found & ->). cbn [mbind outcome_bind].
  destruct found; [by eexists _, _, _, _|]. cbv zeta.
  destruct ((0 <? BlockStore.BlockStore.bsBase store) && (0 <? prsHeight prs) && (prsHeight prs <? rsHeight rs) && (BlockStore.BlockStore.bsBase store <=? prsHeight prs)) eqn:Eg;
    [|by eexists _, _, _, _]. zbool. destruct (Hm (prsHeight prs)) as (m & Em); [lia|].
  destruct (load ps (prsBlockParts prs)) as [b|] eqn:Eb.
  - unfold pickPartForCatchup. rewrite Eb. cbn [Not fmap option_fmap option_map].
    assert (wf b) as Hwb by (unfold load in Eb; destruct (prsBlockParts prs) as [i|]; [|done]; by apply (pi_heap _ _ I i)).
    destruct (not_spec b Hwb) as (Hwn & _). destruct (PickRandom_correct (not b) intn Hwn Hf) as (z & ok & -> & _). cbn [mbind outcome_bind].
    destruct ok; [|by eexists _, _, _, _]. cbn [negb]. rewrite Em. cbn [mbind outcome_bind]. destruct m as [m|]; [|by eexists _, _, _, _].
    destruct (negb _); [by eexists _, _, _, _|]. destruct (Hp (prsHeight prs) z) as ([? ?] & ->). by eexists _, _, _, _.
  - rewrite Em. cbn [mbind outcome_bind]. destruct m; eexists _, _, _, _; (split; [done|]); [by apply InitProposalBlockParts_inv|done].
Qed.

(** *** Messages are handled without a panic *)

Lemma ourVotesFor_ok v r t b : HeightVoteSet.HeightVoteSet.hinv v → IsVoteTypeValid t = true → ∃ o, ourVotesFor v r t b = Done o ∧ ∀ x, o = Some x → wf x.
Proof.
  intros Hv Ht. unfold ourVotesFor, HeightVoteSet.HeightVoteSet.Prevotes, HeightVoteSet.HeightVoteSet.Precommits.
  assert (∀ t, IsVoteTypeValid t = true → ∃ o, (vs ← HeightVoteSet.HeightVoteSet.getVoteSet v r t; Done (VoteSet.VoteSet.BitArrayByBlockID vs b)) = Done o ∧ ∀ x, o = Some x → wf x) as Hany.
  { clear t Ht. intros t Ht. destruct (HeightVoteSet.HeightVoteSet.getVoteSet_total v r t Hv Ht) as (o & -> & _ & Ho). cbn [mbind outcome_bind]. eexists. split; [done|].
    intros x. destruct o as [vs|]; [|done]. destruct (Ho vs eq_refl) as (Hr & _). destruct (VoteSet.VoteSet.reachable_inv vs Hr) as [C _].
    unfold VoteSet.VoteSet.BitArrayByBlockID. cbn [mbind option_bind]. destruct (VoteSet.VoteSet.votesByBlock vs !! Key b) as [bv|] eqn:Eb; [|done].
    destruct (VoteSet.VoteSet.inv_blocks _ _ C _ _ Eb) as ((_ & _ & a & -> & Hw & _) & _). simpl. rewrite copy_eq. by intros [= <-]. }
  unfold IsVoteTypeValid in Ht. destruct (Z.eqb_spec t PrevoteType) as [->|]; [by apply Hany|]. destruct (Z.eqb_spec t PrecommitType) as [->|]; [by apply Hany|done].
Qed.

Ltac checks H := repeat match type of H with (if ?b then _ else _) = None => destruct b eqn:?; [done|] end.

Lemma receive_state_inv K conR ps peer now m : peer_inv K ps → rs_ok (conRS conR) → ValidateBasic m = None → msg_bits_ok m → msg_range m →
  (∀ kd k, claims m kd k → K kd k) → ∃ ps' v eff, receive_state conR ps peer now m = Done (ps', v, eff) ∧ peer_inv K ps'.
Proof.
  intros I ((v & Ev & Hv & _) & _) Hval Hb Hr HK. destruct m; simpl in Hval, Hb, Hr, HK; cbn [receive_state]; try by eexists _, _, _.
  - destruct (ValidateHeight _ _ _); eexists _, _, _; (split; [done|]); [done|]. apply ApplyNewRoundStep_inv; [done|].
    unfold nrs_ValidateBasic in Hval. checks Hval. zbool. lia.
  - eexists _, _, _. split; [done|]. apply ApplyNewValidBlock_inv; [done|]. destruct Hb as (b & -> & Hw). by intros b' [= <-].
  - unfold ApplyHasVoteMessage. destruct (negb _); [by eexists _, _, _|]. unfold hv_ValidateBasic in Hval. checks Hval. zbool.
    destruct (setHasVote_inv K ps height round type_ (Z.to_nat index) I) as (ps' & E & I' & _); [unfold_ints; lia|apply HK; split; [done|lia]|].
    rewrite Z2Nat.id in E by lia. rewrite E. by eexists _, _, _.
  - unfold ApplyHasProposalBlockPartMessage. destruct (negb _); [by eexists _, _, _|]. unfold hpbp_ValidateBasic in Hval. checks Hval. zbool.
    destruct (setHasPart_inv K ps height round (Z.to_nat index) I) as (ps' & E & I' & _). rewrite Z2Nat.id in E by lia. rewrite E. by eexists _, _, _.
  - destruct (negb _); [by eexists _, _, _|]. unfold votes_of. rewrite Ev. cbn [mbind outcome_bind].
    destruct (HeightVoteSet.HeightVoteSet.SetPeerMaj23_ok v round type_ peer blockID Hv) as (v' & err & -> & Hv' & _). cbn [mbind outcome_bind].
    destruct err; [by eexists _, _, _|]. destruct (ourVotesFor_ok v' round type_ blockID Hv') as (o & -> & _); [|by eexists _, _, _].
    unfold vsm_ValidateBasic in Hval. checks Hval. by destruct (IsVoteTypeValid type_).
Qed.

Lemma receive_data_inv K ps now m : peer_inv K ps → ValidateBasic m = None → msg_bits_ok m → msg_range m →
  (∀ kd k, claims m kd k → K kd k) → ∃ ps' eff, receive_data ps now m = Done (ps', eff) ∧ peer_inv K ps'.
Proof.
  intros I Hval Hb Hr HK. destruct m; simpl in Hval, Hb, Hr, HK; cbn [receive_data]; try by eexists _, _.
  - eexists _, _. split; [done|]. by apply SetHasProposal_inv.
  - eexists _, _. split; [done|]. destruct Hb as (b & -> & Hw). apply ApplyProposalPOL_inv; [done|done|]. intros k Hk. by apply HK.
  - unfold SetHasProposalBlockPart. destruct (setHasPart_inv K ps height round (Z.to_nat (PartSet.PartSet.pIndex part)) I) as (ps' & E & I' & _).
    rewrite Z2Nat.id in E by lia. rewrite E. by eexists _, _.
Qed.

Lemma vote_fields v : vote_ValidateBasic v = None → 0 ≤ ValidatorIndex v ∧ 0 < Height v.
Proof. unfold vote_ValidateBasic. intros E. checks E. zbool. lia. Qed.

Lemma receive_vote_inv K rs ps m : peer_inv K ps → rs_ok rs → ValidateBasic m = None → msg_range m →
  (∀ kd k, claims m kd k → K kd k) → ∃ ps' eff, receive_vote rs ps m = Done (ps', eff) ∧ peer_inv K ps'.
Proof.
  intros I (_ & _ & [vals Ev] & _) Hval Hr HK. destruct m; simpl in Hval, Hr, HK; cbn [receive_vote]; try by eexists _, _.
  rewrite Ev. unfold SetHasVoteFromPeer. destruct (vote_ValidateBasic v) eqn:Ev'; [done|]. apply vote_fields in Ev'.
  set (ps1 := ensureVoteBitArrays _ _ _). assert (peer_inv K ps1) as I1 by (by do 2 apply ensureVoteBitArrays_inv). clearbody ps1.
  destruct (setHasVote_inv K ps1 (Height v) (Round v) (Type_ v) (Z.to_nat (ValidatorIndex v)) I1) as (ps' & E & I' & _); [unfold_ints; lia|apply HK; split; [done|lia]|].
  rewrite Z2Nat.id in E by lia. rewrite E. by eexists _, _.
Qed.

Lemma receive_bits_inv K rs ps m : peer_inv K ps → rs_ok rs → ValidateBasic m = None → msg_bits_ok m → msg_range m →
  (∀ kd k, claims m kd k → K kd k) → ∃ ps' eff, receive_bits rs ps m = Done (ps', eff) ∧ peer_inv K ps'.
Proof.
  intros I ((v & Ev & Hv & _) & _) Hval Hb Hr HK. destruct m; simpl in Hval, Hb, Hr, HK; cbn [receive_bits]; try by eexists _, _.
  assert (∃ b, votes = Some b ∧ claim_ok b) as (b & -> & Hc) by (destruct Hb as [->|(b & -> & Hw)]; eexists; (split; [done|]); [by left|by right]).
  assert (in_int64 height ∧ IsVoteTypeValid type_ = true) as [Hh Ht].
  { unfold vsb_ValidateBasic in Hval. checks Hval. zbool. split; [unfold_ints; lia|by destruct (IsVoteTypeValid type_)]. }
  assert (∀ k, has_bit b k → K (height, round, type_) k) as HKb by (intros k Hk; by apply HK).
  destruct (_ =? height).
  - unfold votes_of. rewrite Ev. cbn [mbind outcome_bind]. destruct (ourVotesFor_ok v round type_ blockID Hv Ht) as (o & -> & Ho). cbn [mbind outcome_bind].
    destruct (ApplyVoteSetBits_inv K ps height round type_ b o I Hh Hc HKb Ho) as (ps' & -> & I' & _). by eexists _, _.
  - destruct (ApplyVoteSetBits_inv K ps height round type_ b None I Hh Hc HKb) as (ps' & -> & I' & _); [done|]. by eexists _, _.
Qed.

Lemma Receive_inv K conR ps peer ch p now : peer_inv K ps → event_ok (EvReceive conR peer ch p now) →
  (∀ m kd k, MsgFromProto (Some p) = value m → claims m kd k → K kd k) →
  ∃ ps' v eff, Receive conR (Some ps) peer ch p now = Done (Some ps', v, eff) ∧ peer_inv K ps'.
Proof.
  intros I (Hrs & (r & Er) & Hm) HK. unfold Receive. destruct (conRunning conR); [|by eexists _, _, _]. cbn [negb]. rewrite Er. cbn [mbind outcome_bind].
  destruct r as [m|e]; [|by eexists _, _, _]. destruct (Hm m Er) as [Hb Hr]. destruct (ValidateBasic m) eqn:Ev; [by eexists _, _, _|].
  assert (∀ kd k, claims m kd k → K kd k) as HKm by (intros kd k; by apply HK).
  destruct (ch =? StateChannel).
  { destruct (receive_state_inv K conR ps peer now m I Hrs Ev Hb Hr HKm) as (ps' & v & eff & -> & I'). by eexists _, _, _. }
  destruct (ch =? DataChannel).
  { destruct (conWaitSync conR); [by eexists _, _, _|]. destruct (receive_data_inv K ps now m I Ev Hb Hr HKm) as (ps' & eff & -> & I'). by eexists _, _, _. }
  destruct (ch =? VoteChannel).
  { destruct (conWaitSync conR); [by eexists _, _, _|]. destruct (receive_vote_inv K _ ps m I Hrs Ev Hr HKm) as (ps' & eff & -> & I'). by eexists _, _, _. }
  destruct (ch =? VoteSetBitsChannel); [|by eexists _, _, _].
  destruct (conWaitSync conR); [by eexists _, _, _|]. destruct (receive_bits_inv K _ ps m I Hrs Ev Hb Hr HKm) as (ps' & eff & -> & I'). by eexists _, _, _.
Qed.

Lemma event_inv K e ps : peer_inv K ps → event_ok e → (∀ kd k, tells e kd k → K kd k) → ∃ ps', step e ps = Done ps' ∧ peer_inv K ps'.
Proof.
  intros I He HK. destruct e as [conR peerID ch m now|ve st rs prs intn|v|st rs prs intn|height round index|p]; cbn [step].
  - destruct (Receive_inv K conR ps peerID ch m now I He) as (ps' & v & eff & -> & I'); [|by eexists]. intros m' kd k Hm Hk. apply HK. by exists m'.
  - destruct He as (? & ? & ?). destruct (pickVoteToSend_inv K ve st rs ps prs intn) as (ps' & ? & ? & -> & I'); [done..|]. by eexists.
  - destruct He as [Hi Hh]. unfold SetHasVote. destruct (setHasVote_inv K ps (Height v) (Round v) (Type_ v) (Z.to_nat (ValidatorIndex v)) I) as (ps' & E & I' & _);
      [done|apply HK; split; [done|lia]|]. rewrite Z2Nat.id in E by lia. eauto.
  - destruct He as (? & ? & ?). destruct (pickPartToSend_inv K st rs ps prs intn) as (ps' & ? & ? & ? & -> & I'); [done..|]. by eexists.
  - simpl in He. destruct (setHasPart_inv K ps height round (Z.to_nat index) I) as (ps' & E & I' & _). rewrite Z2Nat.id in E by lia. unfold SetHasProposalBlockPart. eauto.
  - eexists. split; [done|]. by apply SetHasProposal_inv.
Qed.

Lemma events_inv K evs : ∀ ps, peer_inv K ps → Forall event_ok evs → (∀ e kd k, e ∈ evs → tells e kd k → K kd k) → ∃ ps', run evs ps = Done ps' ∧ peer_inv K ps'.
Proof.
  induction evs as [|e evs IH]; intros ps I Hok HK; [by exists ps|]. apply Forall_cons in Hok as [He Hok]. cbn [run].
  destruct (event_inv K e ps I He) as (ps1 & -> & I1); [intros kd k; apply HK; left|]. cbn [mbind outcome_bind]. apply IH; [done|done|].
  intros e' kd k Hin. apply HK. by right.
Qed.

(** C33: What a node takes a peer to have, the peer has said or was sent.  Let a peer send any
    messages that decode without a panic (a vote message has a vote in it) and whose bit arrays
    are well formed, with heights and indices in their ranges, in whatever order they interleave with the routines
    that pick and send, over well-formed round states, with snapshots of any age and a random
    source that answers in its range.  Then no handler and no pick panics, and a vote is
    marked for the peer only when the peer sent it, claimed it or was sent it: no vote is
    withheld by mistake, although the fields share bit arrays and move them between rounds. *)
Theorem peer_knowledge_sound evs : Forall event_ok evs →
  ∃ ps, run evs NewPeerState = Done ps ∧ ∀ h r t k, in_int64 h → marked ps h r t k → ∃ e, e ∈ evs ∧ tells e (h, r, t) k.
Proof.
  intros Hok. destruct (events_inv (λ kd k, ∃ e, e ∈ evs ∧ tells e kd k) evs NewPeerState) as (ps & E & I); [apply NewPeerState_inv|done|eauto|].
  exists ps. split; [done|]. intros h r t k Hh (b & Hb & Hk). unfold load in Hb. destruct (getVoteBitArray (PRS ps) h r t) as [i|] eqn:Ei; [|done].
  apply getVoteBitArray_owner in Ei; [|apply (pi_height _ _ I)|done]. destruct (pi_votes _ _ I _ _ Ei) as (b' & Hb' & _ & HK).
  cbn [mbind option_bind] in Hb. rewrite Hb in Hb'. simplify_eq. by apply HK.
Qed.

(** ** A message that ends the node *)

Lemma MsgFromProto_short h r hash total c : 0 ≤ h → 0 ≤ r → ValidateHash hash = true → 0 < total ≤ MaxBlockPartsCount →
  let m := NewValidBlockMessage h r (mkPSH total hash) (Some (mkBitArray total [])) c in
  MsgFromProto (Some (PNewValidBlock h r (mkPSH total hash) (Some (mkBitArray total [])) c)) = value m ∧ ValidateBasic m = None.
Proof.
  intros Hh Hr Hv Ht m. assert (ValidateBasic m = None) as E.
  { simpl. unfold nvb_ValidateBasic. simpl. unfold psh_ValidateBasic. simpl. rewrite Hv. destruct (Z.ltb_spec h 0), (Z.ltb_spec r 0); try lia. cbn [negb].
    rewrite Z.eqb_refl. destruct (Z.eqb_spec total 0), (Z.ltb_spec MaxBlockPartsCount total); try lia. done. }
  split; [|done]. unfold MsgFromProto, msg_of_proto, PartSetHeaderFromProto, psh_ValidateBasic. simpl. rewrite Hv. simpl. fold m. change (nvb_ValidateBasic _ _ _ _) with (ValidateBasic m). by rewrite E.
Qed.

Lemma Sub_short a n : wf a → Sub (Some a) (Some (mkBitArray n [])) = Done (Some a).
Proof. intros (Hb & Hl & Hu). unfold Sub. simpl. rewrite Nat.min_0_r. simpl. rewrite <- Hl, copied_id. by destruct a. Qed.

Lemma SetIndex_short n j v : 0 ≤ j < n → SetIndex (Some (mkBitArray n [])) j v = Panic "index out of range".
Proof.
  intros Hj. unfold SetIndex, setIndex. cbn [Bits Elems]. rewrite (proj2 (Z.leb_gt _ _)) by lia. unfold idx.
  assert (0 ≤ j ÷ 64) by (apply Z.quot_pos; lia). rewrite (proj2 (Z.leb_le _ _)) by lia. by rewrite lookup_nil.
Qed.

(** C35: A message ends the node.  A claim of a valid block whose bit array announces its size and
    holds no elements passes every check; once it is stored, the routine that gossips block parts
    panics when it has sent the first part, and since it is a goroutine of its own no one
    recovers. *)
Theorem short_bits_crash_node conR ps peer h r hash total c now parts store intn sentProposal k p :
  conRunning conR = true → 0 ≤ h → 0 ≤ r → ValidateHash hash = true → 0 < total ≤ MaxBlockPartsCount →
  prsHeight (PRS ps) = h → prsRound (PRS ps) = r →
  rsProposalBlockParts (conRS conR) = Some parts → PartSet.PartSet.inv parts → PartSet.PartSet.Header (Some parts) = mkPSH total hash →
  PartSet.PartSet.parts parts !! k = Some (Some p) → fair intn →
  ∃ ps', Receive conR (Some ps) peer StateChannel (PNewValidBlock h r (mkPSH total hash) (Some (mkBitArray total [])) c) now = Done (Some ps', rsVotes (conRS conR), []) ∧
    gossipData store (conRS conR) ps' intn true sentProposal = Panic "index out of range".
Proof.
  intros Hrun Hh Hr Hv Ht Eh Er Ep Hinv Ehd Hk Hf. destruct (MsgFromProto_short h r hash total c Hh Hr Hv Ht) as [E1 E2].
  unfold Receive. rewrite Hrun, E1. cbn [negb mbind outcome_bind value]. rewrite E2. change (StateChannel =? StateChannel) with true. cbn [receive_state mbind outcome_bind].
  eexists. split; [done|]. unfold ApplyNewValidBlockMessage. rewrite Eh, Er, !Z.eqb_refl. cbn [negb andb alloc].
  set (ps' := set_prs _ _). unfold gossipData, pickPartToSend, pick_proposal_part, GetRoundState. rewrite Ep.
  assert (PartSet.PartSet.HasHeader (Some parts) (prsHeader (PRS ps')) = true) as ->.
  { unfold PartSet.PartSet.HasHeader, psh_Equals. rewrite Ehd. simpl. unfold bytes_equal. by rewrite Z.eqb_refl, bool_decide_eq_true_2. }
  destruct Hinv as (Hl & Htot & _ & _ & Hidx & Hb). simpl in Ehd. injection Ehd as Et Ehash.
  unfold PartSet.PartSet.BitArray_of. destruct (PartSet.PartSet.partsBitArray parts) as [a|]; [|lia]. destruct Hb as (Hwa & Hca & HBa & Hg).
  cbn [Copy fmap option_fmap option_map]. rewrite copy_eq. assert (load ps' (prsBlockParts (PRS ps')) = Some (mkBitArray total [])) as ->.
  { unfold load. simpl. by rewrite lookup_insert_eq. }
  cbn [Copy fmap option_fmap option_map]. rewrite copy_eq, Sub_short by done. cbn [mbind outcome_bind].
  destruct (PickRandom_correct a intn Hwa Hf) as (z & ok & -> & Hok & _ & Hz). cbn [mbind outcome_bind].
  assert (ok = true) as ->. { apply Hok. exists k. rewrite Hg, Hk. by rewrite bool_decide_eq_true_2. }
  destruct (Hz eq_refl) as (_ & j & -> & Hj & Hgj). rewrite Hg in Hgj. apply bool_decide_eq_true in Hgj as [q Hq].
  destruct (PartSet.PartSet.parts parts !! j) as [[q'|]|] eqn:Eq; try done. unfold PartSet.PartSet.GetPart. rewrite (idx_nat _ _ _ Eq). cbn [mbind outcome_bind].
  unfold SendPartSetHasPart, SetHasProposalBlockPart, setHasProposalBlockPart. simpl prsHeight. simpl prsRound. rewrite Eh, Er, !Z.eqb_refl, (Hidx _ _ Eq). cbn [negb orb].
  unfold mark. assert (load ps' (Some (fresh ps)) = Some (mkBitArray total [])) as El by (unfold load; simpl; by rewrite lookup_insert_eq).
  simpl prsBlockParts. rewrite El, SetIndex_short by lia. done.
Qed.

(** ** A snapshot that is out of date *)

(** A routine finds, in a snapshot of an earlier height, that the parts of the peer are unknown.
    If the peer moves on before they are set, the header of the earlier block is taken for that of the
    new height, a proposal does not replace it, and no part of the proposal is picked. *)
Theorem stale_header_withholds_parts store rs ps prs intn m p parts :
  pick_proposal_part rs ps prs intn = Done None → prsBlockParts prs = None → 0 < BlockStore.BlockStore.bsBase store ≤ prsHeight prs → prsHeight prs < rsHeight rs →
  BlockStore.BlockStore.LoadBlockMeta store (prsHeight prs) = Done (Some m) → 0 < psh_Total (PSH (Block.Block.bmBlockID m)) →
  prsHeight (PRS ps) = pHeight p → prsRound (PRS ps) = pRound p → prsBlockParts (PRS ps) = None →
  rsProposalBlockParts rs = Some parts → psh_Equals (PartSet.PartSet.Header (Some parts)) (PSH (Block.Block.bmBlockID m)) = false →
  ∃ ps1, pickPartToSend store rs ps prs intn = Done (ps1, store, None, true) ∧
    let ps2 := SetHasProposal ps1 p in
    prsHeader (PRS ps2) = PSH (Block.Block.bmBlockID m) ∧ pick_proposal_part rs ps2 (PRS ps2) intn = Done None.
Proof.
  intros E0 En Hb Hlt Em Ht Eh Er Enow Ep Hne. eexists. split.
  { unfold pickPartToSend. rewrite E0. cbn [mbind outcome_bind]. rewrite !(proj2 (Z.ltb_lt _ _)), (proj2 (Z.leb_le _ _)) by lia. cbn [andb]. unfold load. rewrite En. cbn [mbind option_bind]. by rewrite Em. }
  unfold InitProposalBlockParts. rewrite Enow. destruct (NewBitArray_spec _ Ht) as (b & -> & _). cbn [alloc]. cbv zeta.
  unfold SetHasProposal. simpl. rewrite Eh, Er, !Z.eqb_refl. cbn [negb orb].
  destruct (prsProposal (PRS ps)); simpl; (split; [done|]); unfold pick_proposal_part; rewrite Ep; unfold PartSet.PartSet.HasHeader; simpl in Hne |- *; by rewrite Hne.
Qed.

End runs.

(** ** The round state of the consensus state machine *)

Section snapshot.
Context `{PubKeyOps, Merkle.HashOps, ConsensusState.ConsensusState.BlockOps, MsgCodec}.

(** [GetRoundState]: a shallow copy; the part set is the one the state points to. *)
Definition getRoundState (s : ConsensusState.ConsensusState.State) : RoundState :=
  mkRS (ConsensusState.ConsensusState.sHeight s) (ConsensusState.ConsensusState.sRound s) (ConsensusState.ConsensusState.sStep s)
    (ConsensusState.ConsensusState.sStartTime s) (ConsensusState.ConsensusState.sProposal s)
    (i ← ConsensusState.ConsensusState.sProposalBlockParts s; ConsensusState.ConsensusState.sPartSets s !! i)
    (ConsensusState.ConsensusState.sVotes s) (ConsensusState.ConsensusState.sLastCommit s) (ConsensusState.ConsensusState.sValidators s).
End snapshot.

(** ** Examples *)

#[local] Existing Instances toy_keys toy_codec Merkle.toy_hash Merkle.toy_hash_laws.

Definition ex_rs : RoundState :=
  mkRS 5 2 4 0 None (Some PartSet.PartSet.ex_full) (Some HeightVoteSet.HeightVoteSet.ex_hvs) None (Some Commit.Commit.ex_vals).
Definition ex_con : Reactor := mkReactor true false ex_rs 1.
Definition ex_store : Store := BlockStore.BlockStore.NewBlockStore BlockStore.BlockStore.empty_db false 0.

Lemma ex_full_inv : PartSet.PartSet.inv PartSet.PartSet.ex_full.
Proof.
  destruct (PartSet.PartSet.NewPartSetFromData_spec PartSet.PartSet.ex_data PartSet.PartSet.BlockPartSizeBytes) as (full & ps & E & I & _); [by vm_compute|by vm_compute|].
  unfold PartSet.PartSet.ex_full. by rewrite E.
Qed.

Lemma ex_rs_ok : rs_ok ex_rs.
Proof.
  split; [|split; [done|split; [by eexists|by intros p [= <-]; apply ex_full_inv]]]. eexists. split; [done|].
  split; [apply (HeightVoteSet.HeightVoteSet.hreachable_inv _ HeightVoteSet.HeightVoteSet.ex_hvs_reachable)|]. split; [|by vm_compute].
  by vm_compute.
Qed.

Lemma ex_store_ok : store_ok ex_store.
Proof.
  split; [|split].
  - intros h _. exists None. done.
  - intros h i. exists (None, ex_store). done.
  - intros ve h Hh. unfold catchup_commit, Commit.Commit.featureEnabled. rewrite (proj2 (Z.ltb_ge _ _)) by lia.
    exists None, ex_store. split; [|done]. destruct (ve <=? 0); [done|]. by destruct (ve <=? h).
Qed.

(** The peer enters round 2, is sent a prevote, and says that it has another one. *)
Definition ex_peer_rs : PeerRoundState := mkPRS 5 2 4 0 false zero_header None (-1) None None None 0 None (-1) None.
Definition ex_events : list event :=
  [EvReceive ex_con "peer" StateChannel (PNewRoundStep 5 2 4 0 0) 9; EvPickVote 0 ex_store ex_rs ex_peer_rs (λ m, m - 1);
   EvVoteSent (HeightVoteSet.HeightVoteSet.ex_prevote 2 1 VoteSet.VoteSet.ex_B); EvReceive ex_con "peer" StateChannel (PHasVote 5 2 PrevoteType 2) 10].

Lemma peer_knowledge_sound_witness : ∃ ps, run ex_events NewPeerState = Done ps ∧ ∀ h r t k, in_int64 h → marked ps h r t k → ∃ e, e ∈ ex_events ∧ tells e (h, r, t) k.
Proof.
  apply peer_knowledge_sound. repeat (apply Forall_cons; split); [..|done].
  - split; [exact ex_rs_ok|]. split; [by eexists|]. intros m [= <-]. split; [done|]. simpl. unfold_ints. lia.
  - split; [exact ex_rs_ok|]. split; [exact ex_store_ok|]. intros m Hm. lia.
  - split; [by vm_compute|]. by vm_compute.
  - split; [exact ex_rs_ok|]. split; [by eexists|]. intros m [= <-]. split; [done|]. simpl. unfold_ints. lia.
Defined.

(** Both votes are marked. *)
Example ex_marked : (ps ← run ex_events NewPeerState; Done (Elems <$> load ps (getVoteBitArray (PRS ps) 5 2 PrevoteType))) = Done (Some [5]).
Proof. by vm_compute. Qed.

Lemma short_bits_crash_node_witness : ∃ ps',
  Receive ex_con (Some (ApplyNewRoundStepMessage NewPeerState 9 5 2 4 0 0)) "peer" StateChannel
    (PNewValidBlock 5 2 (PartSet.PartSet.Header (Some PartSet.PartSet.ex_full)) (Some (mkBitArray 1 [])) false) 10 = Done (Some ps', rsVotes ex_rs, []) ∧
  gossipData ex_store ex_rs ps' (λ m, m - 1) true true = Panic "index out of range".
Proof.
  refine (short_bits_crash_node ex_con (ApplyNewRoundStepMessage NewPeerState 9 5 2 4 0 0) "peer" 5 2 (PartSet.PartSet.hash PartSet.PartSet.ex_full) 1 false 10
    PartSet.PartSet.ex_full ex_store (λ m, m - 1) true 0%nat PartSet.PartSet.ex_part eq_refl ltac:(lia) ltac:(lia) _ _ eq_refl eq_refl eq_refl ex_full_inv _ _ _).
  - by vm_compute.
  - split; [lia|by vm_compute].
  - by vm_compute.
  - by vm_compute.
  - intros m Hm. lia.
Defined.

End Reactor.
