(* ===== verification/Wal.v ===== *)
(** * Wal: the write-ahead log

    [internal/consensus/wal.go] over the group of files of [internal/autofile/group.go], with the
    replay of [internal/consensus/replay.go] and the repair that starting a node makes
    ([internal/consensus/state.go]).  Files are byte lists; the head of the group has a part that
    is known to be on stable storage, and bytes that were written but still sit in the
    buffer of the group.  The file system does not fail.  A reader sees the log as it was
    when it was opened.  The checksum and the encoding of a timed entry are those of
    libraries. *)

From S2P Require Import Prelude BitArray Merkle Crypto ValidatorSet Votes PartSet Proposal Commit VoteSet HeightVoteSet PrivVal ConsensusState Wire Messages.
Import Wire.Wire Messages.Messages.

Local Open Scope Z_scope.

Module Wal.

Local Notation bytes := (list Z).

Definition maxMsgSizeBytes : Z := 1048576 + 24.

(** ** Encoding *)

(** The encoding of a timed entry, by the protobuf library. *)
Class WalCodec := {
  timed_Marshal : Z → WALProto → bytes;
  timed_Unmarshal : bytes → option (Z * option WALProto) }.

(** [crc32.Checksum] with the Castagnoli table: the reversed polynomial, one bit at a time. *)
Definition castagnoli : Z := 2197175160.
Definition crc_bit (crc : Z) : Z := if Z.testbit crc 0 then Z.lxor (Z.shiftr crc 1) castagnoli else Z.shiftr crc 1.
Definition crc_byte (crc b : Z) : Z := Nat.iter 8 crc_bit (Z.lxor crc b).
Definition crc32c (data : bytes) : Z := PartSet.PartSet.wrapu32 (Z.lxor (foldl crc_byte 4294967295 data) 4294967295).

(** [binary.BigEndian.PutUint32] and [Uint32]. *)
Definition be32 (x : Z) : bytes := [x / 16777216 mod 256; x / 65536 mod 256; x / 256 mod 256; x mod 256].
Definition from_be32 (b : bytes) : Z := foldl (λ x d, x * 256 + d) 0 b.

Definition entry : Type := Z * WALMessage.

Section wal.
Context `{WalCodec}.

Definition Encode (v : entry) : decoded bytes :=
  pbMsg ←? WALToProto v.2;
  let data := timed_Marshal v.1 pbMsg in
  let length := PartSet.PartSet.wrapu32 (zlen data) in
  if maxMsgSizeBytes <? length then fails "msg is too big"
  else value (be32 (crc32c data) ++ be32 length ++ take (Z.to_nat length) data).

(** ** Readers *)

Inductive read_error := EOF | EmptySlice.

(** [io.Reader]: what is read into a buffer of the given length, and the error. *)
Class ByteReader (R : Type) := rd_Read : R → nat → R * bytes * option read_error.

(** What is left of the current file, and the files after it. *)
Definition GroupReader : Type := bytes * list bytes.

Fixpoint read_files (n : nat) (cur : bytes) (rest : list bytes) : GroupReader * bytes * option read_error :=
  if (n <=? length cur)%nat then ((drop n cur, rest), take n cur, None)
  else
    match rest with
    | [] => (([], []), cur, Some EOF)
    | f :: rest => let '(r, b, e) := read_files (n - length cur) f rest in (r, cur ++ b, e)
    end.

#[export] Instance group_Read : ByteReader GroupReader := λ r n,
  if (n =? 0)%nat then (r, [], Some EmptySlice) else read_files n r.1 r.2.

(** [os.File]: a read is short at the end of the file. *)
Record OsFile := mkOsFile { unread : bytes }.
#[export] Instance file_Read : ByteReader OsFile := λ f n,
  if (n =? 0)%nat then (f, [], None)
  else match unread f with [] => (f, [], Some EOF) | _ => (mkOsFile (drop n (unread f)), take n (unread f), None) end.

(** ** Decoding *)

Inductive decode_result := Decoded (e : entry) | AtEOF | DataCorruption (why : string).

(** The buffer after a read. *)
Definition filled (n : nat) (b : bytes) : bytes := b ++ replicate (n - length b) 0.

Definition decode_data (crc : Z) (data : bytes) : outcome decode_result :=
  if negb (crc32c data =? crc) then Done (DataCorruption "checksums do not match")
  else
    match timed_Unmarshal data with
    | None => Done (DataCorruption "failed to decode data")
    | Some (t, m) =>
        r ← WALFromProto m;
        Done (match r with Err e => DataCorruption e | Ok walMsg => Decoded (t, walMsg) end)
    end.

Definition Decode `{ByteReader R} (rd : R) : outcome (R * decode_result) :=
  let '(rd, b, err) := rd_Read rd 4 in
  match err with
  | Some EOF => Done (rd, AtEOF)
  | Some _ => Done (rd, DataCorruption "failed to read checksum")
  | None =>
      let crc := from_be32 (filled 4 b) in
      let '(rd, b, err) := rd_Read rd 4 in
      match err with
      | Some _ => Done (rd, DataCorruption "failed to read length")
      | None =>
          let length := from_be32 (filled 4 b) in
          if maxMsgSizeBytes <? length then Done (rd, DataCorruption "length exceeded maximum possible value")
          else
            let '(rd, data, err) := rd_Read rd (Z.to_nat length) in
            match err with
            | Some _ => Done (rd, DataCorruption "failed to read data")
            | None => r ← decode_data crc (filled (Z.to_nat length) data); Done (rd, r)
            end
      end
  end.

(** ** The group of files *)

(** [gSynced] bytes of the head are on stable storage; [gBuf] is the buffer before the head.
    [gBackup] is the copy of a head that a repair leaves in the directory. *)
Record Group := mkGroup {
  gFiles : gmap Z bytes; gMin : Z; gMax : Z; gHead : bytes; gSynced : nat; gBuf : bytes;
  gBackup : bytes; gHeadLimit : Z; gTotalLimit : Z }.

Definition headBufSize : nat := 40960.
Definition maxFilesToRemove : nat := 4.

Definition set_head (g : Group) (hd : bytes) (synced : nat) (buf : bytes) : Group :=
  mkGroup (gFiles g) (gMin g) (gMax g) hd synced buf (gBackup g) (gHeadLimit g) (gTotalLimit g).
Definition set_files (g : Group) (fs : gmap Z bytes) : Group := mkGroup fs (gMin g) (gMax g) (gHead g) (gSynced g) (gBuf g) (gBackup g) (gHeadLimit g) (gTotalLimit g).

(** [bufio.Writer.Write]: a full buffer is flushed, and what does not fit an empty buffer is written directly. *)
Definition group_Write (g : Group) (p : bytes) : Group :=
  let avail := (headBufSize - length (gBuf g))%nat in
  if (length p <=? avail)%nat then set_head g (gHead g) (gSynced g) (gBuf g ++ p)
  else
    match gBuf g with
    | [] => set_head g (gHead g ++ p) (gSynced g) []
    | _ =>
        let hd := gHead g ++ gBuf g ++ take avail p in
        let p := drop avail p in
        if (length p <=? headBufSize)%nat then set_head g hd (gSynced g) p else set_head g (hd ++ p) (gSynced g) []
    end.

(** The buffer is written to the head, which is then synced. *)
Definition Flush (g : Group) : Group := set_head g (gHead g ++ gBuf g) (gSynced g) [].
Definition Sync (g : Group) : Group := set_head g (gHead g) (length (gHead g)) (gBuf g).
Definition FlushAndSync (g : Group) : Group := Sync (Flush g).

Definition RotateFile (g : Group) : Group :=
  mkGroup (<[gMax g := gHead g ++ gBuf g]> (gFiles g)) (gMin g) (gMax g + 1) [] 0 [] (gBackup g) (gHeadLimit g) (gTotalLimit g).

Definition checkHeadSizeLimit (g : Group) : Group :=
  if gHeadLimit g =? 0 then g else if gHeadLimit g <=? zlen (gHead g) then RotateFile g else g.

(** [readGroupInfo]: the indices of the files in the directory, the head included, and their size. *)
Definition files_info (fs : gmap Z bytes) : Z * Z :=
  map_fold (λ i _ (mm : Z * Z), (if (mm.1 =? -1) || (i <? mm.1) then i else mm.1, Z.max mm.2 i)) (-1, -1) fs.
Definition readGroupInfo (fs : gmap Z bytes) (hd backup : bytes) : Z * Z * Z :=
  let '(mn, mx) := files_info fs in
  let '(mn, mx) := if mn =? -1 then (0, 0) else (mn, mx + 1) in
  (mn, mx, map_fold (λ _ b n, zlen b + n) (zlen hd + zlen backup) fs).

Fixpoint remove_files (n : nat) (index maxIndex totalSize limit : Z) (fs : gmap Z bytes) : gmap Z bytes :=
  match n with
  | O => fs
  | S n =>
      if totalSize <? limit then fs
      else if index =? maxIndex then fs
      else
        match fs !! index with
        | None => remove_files n (index + 1) maxIndex totalSize limit fs
        | Some b => remove_files n (index + 1) maxIndex (totalSize - zlen b) limit (delete index fs)
        end
  end.

Definition checkTotalSizeLimit (g : Group) : Group :=
  if gTotalLimit g =? 0 then g
  else
    let '(mn, mx, total) := readGroupInfo (gFiles g) (gHead g) (gBackup g) in
    set_files g (remove_files maxFilesToRemove mn mx total (gTotalLimit g) (gFiles g)).

Definition OpenGroup (fs : gmap Z bytes) (hd backup : bytes) (headLimit totalLimit : Z) : Group :=
  let '(mn, mx, _) := readGroupInfo fs hd backup in mkGroup fs mn mx hd (length hd) [] backup headLimit totalLimit.

(** The file of an index; opening a file that is not there makes it. *)
Definition file_at (g : Group) (index : Z) : bytes := if index =? gMax g then gHead g else default [] (gFiles g !! index).
Definition NewReader (g : Group) (index : Z) : result string (Group * GroupReader) :=
  if gMax g <? index then Err "EOF"%string
  else
    let g := if index =? gMax g then g else set_files g (<[index := file_at g index]> (gFiles g)) in
    Ok (g, (file_at g index, file_at g <$> seqZ (index + 1) (gMax g - index))).

(** ** The log *)

Definition Write (g : Group) (v : entry) : decoded Group := b ←? Encode v; value (group_Write g b).
Definition WriteSync (g : Group) (v : entry) : decoded Group := g ←? Write g v; value (FlushAndSync g).

(** [OnStart] of the log. *)
Definition wal_OnStart (now : Z) (g : Group) : decoded Group :=
  if zlen (gHead g) =? 0 then WriteSync g (now, EndHeightMessage 0) else value g.

(** Reading on in one reader: where the marker was found, or what ended the reading and the last marker seen. *)
Inductive scan_result := Found (r : GroupReader) | ScanEOF (lastHeightFound : Z) | ScanError (e : string).

Fixpoint scan (fuel : nat) (r : GroupReader) (height : Z) (ignore : bool) (lastHeightFound : Z) : outcome scan_result :=
  match fuel with
  | O => Panic "out of fuel"
  | S fuel =>
      '((r, d) : GroupReader * decode_result) ← Decode r;
      match d with
      | AtEOF => Done (ScanEOF lastHeightFound)
      | DataCorruption e => if ignore then scan fuel r height ignore lastHeightFound else Done (ScanError e)
      | Decoded (_, EndHeightMessage h) => if h =? height then Done (Found r) else scan fuel r height ignore h
      | Decoded _ => scan fuel r height ignore lastHeightFound
      end
  end.

Definition reader_size (r : GroupReader) : nat := (length r.1 + length (concat r.2))%nat.

(** The loop over the files, from [index] down, [n] of them. *)
Fixpoint search_files (n : nat) (index : Z) (g : Group) (height : Z) (ignore : bool) (lastHeightFound : Z) : outcome (Group * result string (option GroupReader)) :=
  match n with
  | O => Done (g, Ok None)
  | S n =>
      match NewReader g index with
      | Err e => Done (g, Err e)
      | Ok (g, r) =>
          res ← scan (S (reader_size r)) r height ignore lastHeightFound;
          match res with
          | Found r => Done (g, Ok (Some r))
          | ScanError e => Done (g, Err e)
          | ScanEOF last =>
              if (0 <? last) && (last <? height) then Done (g, Ok None) else search_files n (index - 1) g height ignore last
          end
      end
  end.

Definition SearchForEndHeight (g : Group) (height : Z) (ignore : bool) : outcome (Group * result string (option GroupReader)) :=
  search_files (Z.to_nat (gMax g - gMin g + 1)) (gMax g) g height ignore (-1).

(** ** Repair *)

Fixpoint repair_loop (fuel : nat) (f : OsFile) (out : bytes) : outcome (result string bytes) :=
  match fuel with
  | O => Panic "out of fuel"
  | S fuel =>
      '((f, d) : OsFile * decode_result) ← Decode f;
      match d with
      | Decoded e =>
          b ← Encode e;
          match b with Err e => Done (Err e) | Ok b => repair_loop fuel f (out ++ b) end
      | _ => Done (Ok out)
      end
  end.

Definition repairWalFile (src : bytes) : outcome (result string bytes) := repair_loop (S (length src)) (mkOsFile src) [].

(** ** Replay *)

(** Why the replay ended: at the end of the log, at corrupted data, or before it began. *)
Inductive replay_end := ReplayDone | ReplayCorrupt (e : string) | ReplayError (e : string).

(** The entries that the loop of [catchupReplay] reads. *)
Fixpoint read_entries (fuel : nat) (r : GroupReader) : outcome (list entry * replay_end) :=
  match fuel with
  | O => Panic "out of fuel"
  | S fuel =>
      '((r, d) : GroupReader * decode_result) ← Decode r;
      match d with
      | AtEOF => Done ([], ReplayDone)
      | DataCorruption e => Done ([], ReplayCorrupt e)
      | Decoded e => '((es, fin) : list entry * replay_end) ← read_entries fuel r; Done (e :: es, fin)
      end
  end.

(** [catchupReplay] up to what it does with the entries: those it handles in turn, and how it ends. *)
Definition catchup (g : Group) (csHeight initialHeight : Z) : outcome (Group * list entry * replay_end) :=
  '((g, res) : Group * result string (option GroupReader)) ← SearchForEndHeight g csHeight true;
  match res with
  | Err e => Done (g, [], ReplayError e)
  | Ok (Some _) => Done (g, [], ReplayError "wal should not contain #ENDHEIGHT")
  | Ok None =>
      if csHeight <? initialHeight then Done (g, [], ReplayError "cannot replay height below initial height")
      else
        let endHeight := if csHeight =? initialHeight then 0 else csHeight - 1 in
        '((g, res) : Group * result string (option GroupReader)) ← SearchForEndHeight g endHeight true;
        match res with
        | Err e => Done (g, [], ReplayError e)
        | Ok None => Done (g, [], ReplayError "WAL does not contain #ENDHEIGHT")
        | Ok (Some r) => '((es, fin) : list entry * replay_end) ← read_entries (S (reader_size r)) r; Done (g, es, fin)
        end
  end.

(** What is in the directory of the log when the node starts. *)
Record Disk := mkDisk { dFiles : gmap Z bytes; dHead : bytes; dBackup : bytes }.

Definition defaultHeadSizeLimit : Z := 10 * 1024 * 1024.
Definition defaultTotalSizeLimit : Z := 1024 * 1024 * 1024.

Definition loadWalFile (now : Z) (d : Disk) : decoded Group :=
  wal_OnStart now (OpenGroup (dFiles d) (dHead d) (dBackup d) defaultHeadSizeLimit defaultTotalSizeLimit).

(** The part of [OnStart] of the consensus state that loads and replays the log, with one repair
    of its head: the entries handed to the handlers, and the log in the end.  [now] and [now']
    are the times at which the log is opened. *)
Definition replay_on_start (now now' : Z) (d : Disk) (csHeight initialHeight : Z) : outcome (list entry * result string Group) :=
  g ← loadWalFile now d;
  match g with
  | Err e => Done ([], Err e)
  | Ok g =>
      '((g, es, fin) : Group * list entry * replay_end) ← catchup g csHeight initialHeight;
      match fin with
      | ReplayCorrupt _ =>
          let g := FlushAndSync g in
          hd ← repairWalFile (gHead g);
          match hd with
          | Err e => Done (es, Err e)
          | Ok hd =>
              g ← loadWalFile now' (mkDisk (gFiles g) hd (gHead g));
              match g with
              | Err e => Done (es, Err e)
              | Ok g =>
                  '((g, es', fin') : Group * list entry * replay_end) ← catchup g csHeight initialHeight;
                  Done (es ++ es', match fin' with ReplayCorrupt e => Err e | _ => Ok g end)
              end
          end
      | _ => Done (es, Ok g)
      end
  end.

(** What is on the disk after a crash that keeps [k] bytes of the head. *)
Definition crash (g : Group) (k : nat) : Disk := mkDisk (gFiles g) (take k (gHead g)) (gBackup g).
(** ** Reading what was written *)

Definition data_of (e : entry) : bytes := match WALToProto e.2 with Done (Ok p) => timed_Marshal e.1 p | _ => [] end.
Definition enc (e : entry) : bytes := be32 (crc32c (data_of e)) ++ be32 (zlen (data_of e)) ++ data_of e.
Definition encs (es : list entry) : bytes := concat (map enc es).

(** An entry that the protobuf library encodes and reads back, and whose checksum tells it from
    what is left of it when its end is lost. *)
Record entry_ok (e : entry) : Prop := {
  ok_msg : wal_ok e.2;
  ok_codec : ∀ p, WALToProto e.2 = value p → timed_Unmarshal (timed_Marshal e.1 p) = Some (e.1, Some p);
  ok_size : 0 < zlen (data_of e) ≤ maxMsgSizeBytes;
  ok_crc : ∀ k, crc32c (filled (length (data_of e)) (take k (data_of e))) = crc32c (data_of e) → filled (length (data_of e)) (take k (data_of e)) = data_of e;
  ok_crc_nil : crc32c [] ≠ crc32c (data_of e) }.

Lemma crc32c_range d : 0 ≤ crc32c d < 4294967296.
Proof. unfold crc32c, PartSet.PartSet.wrapu32. apply Z.mod_pos_bound. lia. Qed.

Lemma be32_length x : length (be32 x) = 4%nat.
Proof. done. Qed.

Lemma be32_roundtrip x : 0 ≤ x < 4294967296 → from_be32 (be32 x) = x.
Proof. intros Hx. unfold from_be32, be32. simpl. Z.to_euclidean_division_equations. lia. Qed.

Lemma entry_proto e : entry_ok e → ∃ p, WALToProto e.2 = value p ∧ WALFromProto (Some p) = value e.2 ∧ data_of e = timed_Marshal e.1 p.
Proof.
  intros [Hok _ _ _ _]. destruct (wal_entry_roundtrip _ Hok) as (p & E1 & E2). exists p. split_and!; [done..|]. unfold data_of. by rewrite E1.
Qed.

Lemma Encode_ok e : entry_ok e → Encode e = value (enc e).
Proof.
  intros He. destruct (entry_proto e He) as (p & E1 & _ & Ed). destruct (ok_size _ He) as [H1 H2]. unfold Encode. rewrite E1. cbn.
  rewrite <- Ed. unfold maxMsgSizeBytes in *.
  assert (PartSet.PartSet.wrapu32 (zlen (data_of e)) = zlen (data_of e)) as -> by (apply Z.mod_small; lia).
  destruct (Z.ltb_spec (1048576 + 24) (zlen (data_of e))); [lia|]. unfold enc. by rewrite take_ge by (unfold zlen; lia).
Qed.

Lemma decode_data_ok e : entry_ok e → decode_data (crc32c (data_of e)) (data_of e) = Done (Decoded e).
Proof.
  intros He. destruct (entry_proto e He) as (p & E1 & E2 & Ed). unfold decode_data. rewrite Z.eqb_refl. simpl.
  rewrite Ed, (ok_codec _ He p E1), E2. cbn. by destruct e.
Qed.

Lemma decode_data_bad crc d : crc32c d ≠ crc → decode_data crc d = Done (DataCorruption "checksums do not match").
Proof. intros Hd. unfold decode_data. by destruct (Z.eqb_spec (crc32c d) crc). Qed.

(** *** Readers of a group *)

Definition content (r : GroupReader) : bytes := r.1 ++ concat r.2.

Lemma reader_size_content r : reader_size r = length (content r).
Proof. unfold reader_size, content. by rewrite length_app. Qed.

Lemma group_Read_ok r n : (0 < n ≤ length (content r))%nat → ∃ r', rd_Read r n = (r', take n (content r), None) ∧ content r' = drop n (content r).
Proof.
  intros Hn. unfold rd_Read, group_Read. destruct (Nat.eqb_spec n 0); [lia|]. destruct r as [cur rest]. unfold content in *. simpl in *.
  assert (n ≤ length (cur ++ concat rest))%nat as Hle by lia. clear Hn n0. revert n cur Hle.
  induction rest as [|f rest IH]; intros n cur Hle; simpl in *; destruct (Nat.leb_spec n (length cur)).
  - eexists. split; [by rewrite take_app_le|]. simpl. by rewrite drop_app_le.
  - rewrite app_nil_r in Hle. lia.
  - eexists. split; [by rewrite take_app_le|]. simpl. by rewrite drop_app_le.
  - rewrite length_app in Hle. destruct (IH (n - length cur)%nat f ltac:(lia)) as (r' & E & Hc). rewrite E. exists r'.
    rewrite (take_app_ge cur), (drop_app_ge cur) by lia. done.
Qed.

Lemma group_Read_eof r n : (length (content r) < n)%nat → rd_Read r n = (([], []), content r, Some EOF).
Proof.
  intros Hn. unfold rd_Read, group_Read. destruct (Nat.eqb_spec n 0); [lia|]. destruct r as [cur rest]. unfold content in *. simpl in *.
  clear n0. revert n cur Hn. induction rest as [|f rest IH]; intros n cur Hn; simpl in *; destruct (Nat.leb_spec n (length cur)).
  - rewrite app_nil_r in Hn. lia.
  - by rewrite app_nil_r.
  - rewrite length_app in Hn. lia.
  - rewrite length_app in Hn. rewrite IH by lia. done.
Qed.

Lemma filled_full n b : length b = n → filled n b = b.
Proof. intros <-. unfold filled. rewrite Nat.sub_diag. apply app_nil_r. Qed.

Lemma Decode_entry e r rest : entry_ok e → content r = enc e ++ rest → ∃ r', Decode r = Done (r', Decoded e) ∧ content r' = rest.
Proof.
  intros He Hc. destruct (ok_size _ He) as [H1 H2]. unfold maxMsgSizeBytes in H2. unfold enc in Hc. rewrite <- !app_assoc in Hc.
  unfold Decode.
  destruct (group_Read_ok r 4) as (r1 & -> & Hc1); [rewrite Hc, length_app, be32_length; lia|].
  rewrite Hc in Hc1 |- *. rewrite drop_app_length' in Hc1 by done. rewrite take_app_length' by done. rewrite filled_full by done.
  rewrite be32_roundtrip by apply crc32c_range.
  destruct (group_Read_ok r1 4) as (r2 & -> & Hc2); [rewrite Hc1, length_app, be32_length; lia|].
  rewrite Hc1 in Hc2 |- *. rewrite drop_app_length' in Hc2 by done. rewrite take_app_length' by done. rewrite filled_full by done.
  rewrite be32_roundtrip by lia. unfold maxMsgSizeBytes. destruct (Z.ltb_spec (1048576 + 24) (zlen (data_of e))); [lia|].
  destruct (group_Read_ok r2 (Z.to_nat (zlen (data_of e)))) as (r3 & -> & Hc3); [rewrite Hc2, length_app; unfold zlen in *; lia|].
  rewrite Hc2 in Hc3 |- *. rewrite drop_app_length' in Hc3 by (unfold zlen; lia). rewrite take_app_length' by (unfold zlen; lia). rewrite filled_full by (unfold zlen; lia).
  rewrite decode_data_ok by done. eexists. split; [done|done].
Qed.

(** What is left of an entry whose end was not written. *)
Definition torn_of (oe : option entry) (t : bytes) : Prop :=
  match oe with None => t = [] | Some e => ∃ n, entry_ok e ∧ (n < length (enc e))%nat ∧ t = take n (enc e) end.
Definition torn (t : bytes) : Prop := ∃ oe, torn_of oe t.

Lemma enc_length e : length (enc e) = (8 + length (data_of e))%nat.
Proof. unfold enc. by rewrite !length_app, !be32_length. Qed.

Lemma take_enc n e : (4 ≤ n)%nat → take n (enc e) = be32 (crc32c (data_of e)) ++ take (n - 4) (be32 (zlen (data_of e)) ++ data_of e).
Proof. intros Hn. unfold enc. by rewrite take_app_ge. Qed.

Lemma take_enc_data n e : (8 ≤ n)%nat → take n (enc e) = be32 (crc32c (data_of e)) ++ be32 (zlen (data_of e)) ++ take (n - 8) (data_of e).
Proof. intros Hn. rewrite take_enc by lia. rewrite take_app_ge by (rewrite be32_length; lia). rewrite be32_length. do 3 f_equal. lia. Qed.

Lemma Decode_torn r t : torn t → content r = t →
  if decide (length t < 4)%nat then Decode r = Done (([], []), AtEOF) else ∃ why, Decode r = Done (([], []), DataCorruption why).
Proof.
  intros Ht Hc. unfold Decode. case_decide as Hlt; [by rewrite group_Read_eof by (rewrite Hc; lia)|].
  destruct Ht as [[e|] Ht]; simpl in Ht; [destruct Ht as (n & He & Hn & ->)|subst t; simpl in Hlt; lia]. rewrite length_take, enc_length in *.
  destruct (ok_size _ He) as [H1 H2]. unfold maxMsgSizeBytes in H2.
  destruct (group_Read_ok r 4) as (r1 & -> & Hc1); [rewrite Hc, length_take, enc_length; lia|].
  rewrite Hc, take_enc in Hc1 by lia. rewrite drop_app_length' in Hc1 by done.
  destruct (decide (n < 8)%nat) as [Hlt8|Hge].
  { rewrite (group_Read_eof r1) by (rewrite Hc1, length_take; lia). by eexists. }
  rewrite take_app_ge in Hc1 by (rewrite be32_length; lia). rewrite be32_length in Hc1.
  destruct (group_Read_ok r1 4) as (r2 & -> & Hc2); [rewrite Hc1, length_app, be32_length; lia|].
  rewrite Hc1 in Hc2 |- *. rewrite drop_app_length' in Hc2 by done. rewrite take_app_length' by done. rewrite (filled_full 4 (be32 _)) by done.
  rewrite be32_roundtrip by lia. unfold maxMsgSizeBytes. destruct (Z.ltb_spec (1048576 + 24) (zlen (data_of e))); [lia|].
  rewrite (group_Read_eof r2) by (rewrite Hc2, length_take; unfold zlen; lia). by eexists.
Qed.

(** *** Reading a file *)

Lemma file_Read_ok b n : (0 < n)%nat → b ≠ [] → rd_Read (mkOsFile b) n = (mkOsFile (drop n b), take n b, None).
Proof. intros Hn Hb. unfold rd_Read, file_Read. destruct (Nat.eqb_spec n 0); [lia|]. by destruct b. Qed.

Lemma file_Read_eof n : (0 < n)%nat → rd_Read (mkOsFile []) n = (mkOsFile [], [], Some EOF).
Proof. intros Hn. unfold rd_Read, file_Read. destruct (Nat.eqb_spec n 0); [lia|]. done. Qed.

(** What a file gives when its checksum and its length were read. *)
Lemma file_Decode_data e b : entry_ok e →
  Decode (mkOsFile (be32 (crc32c (data_of e)) ++ be32 (zlen (data_of e)) ++ b))
  = match b with
    | [] => Done (mkOsFile [], DataCorruption "failed to read data")
    | _ => r ← decode_data (crc32c (data_of e)) (filled (length (data_of e)) (take (length (data_of e)) b)); Done (mkOsFile (drop (length (data_of e)) b), r)
    end.
Proof.
  intros He. destruct (ok_size _ He) as [H1 H2]. unfold maxMsgSizeBytes in H2. unfold Decode.
  rewrite file_Read_ok by (done || lia). rewrite drop_app_length', take_app_length' by done. rewrite (filled_full 4) by done. rewrite be32_roundtrip by apply crc32c_range.
  rewrite file_Read_ok by (done || lia). rewrite drop_app_length', take_app_length' by done. rewrite (filled_full 4) by done. rewrite be32_roundtrip by lia.
  unfold maxMsgSizeBytes. destruct (Z.ltb_spec (1048576 + 24) (zlen (data_of e))); [lia|].
  assert (Z.to_nat (zlen (data_of e)) = length (data_of e)) as -> by (unfold zlen; lia). unfold zlen in H1.
  destruct b as [|x b]; [by rewrite file_Read_eof by lia|]. by rewrite file_Read_ok by (done || lia).
Qed.

Lemma file_Decode_entry e rest : entry_ok e → Decode (mkOsFile (enc e ++ rest)) = Done (mkOsFile rest, Decoded e).
Proof.
  intros He. destruct (ok_size _ He) as [H1 H2]. unfold enc. rewrite <- !app_assoc, file_Decode_data by done.
  destruct (data_of e ++ rest) as [|x l] eqn:E.
  - apply app_nil in E as [E _]. unfold zlen in H1. rewrite E in H1. simpl in H1. lia.
  - rewrite <- E. rewrite take_app_length, drop_app_length, filled_full, decode_data_ok by done. done.
Qed.

Lemma be32_cut x n : 0 ≤ x → 0 ≤ from_be32 (filled 4 (take n (be32 x))) ≤ x.
Proof.
  intros Hx. unfold from_be32, be32. destruct n as [|[|[|[|n]]]]; [..|rewrite take_ge by (simpl; lia)]; cbn -[Z.div Z.modulo Z.mul Z.add]; Z.to_euclidean_division_equations; lia.
Qed.

(** A torn entry is not read from a file, unless the bytes it lacks are zeros. *)
Lemma file_Decode_torn oe t : torn_of oe t →
  ∃ f d, Decode (mkOsFile t) = Done (f, d) ∧ ((∀ e, d ≠ Decoded e) ∨ unread f = [] ∧ t ≠ [] ∧ ∃ e, entry_ok e ∧ d = Decoded e ∧ oe = Some e).
Proof.
  destruct oe as [e|]; cbn [torn_of]; [intros (n & He & Hn & ->)|intros ->].
  2: { eexists _, _. split; [done|]. by left. }
  destruct (ok_size _ He) as [H1 H2]. unfold maxMsgSizeBytes in H2. rewrite enc_length in Hn.
  destruct (decide (n ≤ 4)%nat) as [H4|H4].
  { destruct n as [|n]; [eexists _, _; split; [done|by left]|].
    unfold Decode. rewrite file_Read_ok by first [lia|intros Hx; apply (f_equal length) in Hx; rewrite length_take, enc_length in Hx; simpl in Hx; lia].
    rewrite drop_ge by (rewrite length_take; lia). rewrite file_Read_eof by lia.
    eexists _, _. split; [done|by left]. }
  destruct (decide (n < 8)%nat) as [H8|H8].
  { rewrite take_enc by lia. unfold Decode. rewrite file_Read_ok by (done || lia).
    rewrite drop_app_length', (take_app_length' (be32 (crc32c _))) by done. rewrite (filled_full 4 (be32 _)) by done. rewrite be32_roundtrip by apply crc32c_range.
    rewrite take_app_le by (rewrite be32_length; lia). pose proof (be32_cut (zlen (data_of e)) (n - 4) ltac:(unfold zlen; lia)) as Hcut.
    rewrite file_Read_ok; [|lia|destruct (n - 4)%nat eqn:?; [lia|done]].
    rewrite drop_ge by (rewrite length_take, be32_length; lia). rewrite (take_ge _ 4) by (rewrite length_take, be32_length; lia).
    unfold maxMsgSizeBytes. destruct (Z.ltb_spec (1048576 + 24) (from_be32 (filled 4 (take (n - 4) (be32 (zlen (data_of e))))))); [lia|].
    destruct (decide (from_be32 (filled 4 (take (n - 4) (be32 (zlen (data_of e))))) = 0)) as [->|Hnz].
    - change (rd_Read (mkOsFile []) (Z.to_nat 0)) with (mkOsFile [], @nil Z, @None read_error). cbv beta iota.
      change (filled (Z.to_nat 0) []) with (@nil Z). rewrite decode_data_bad by exact (ok_crc_nil _ He).
      eexists _, _. split; [done|by left].
    - rewrite file_Read_eof by lia. eexists _, _. split; [done|by left]. }
  rewrite take_enc_data, file_Decode_data by (done || lia). unfold zlen in H1.
  destruct (take (n - 8) (data_of e)) as [|x l] eqn:E; [eexists _, _; split; [done|by left]|]. rewrite <- E.
  rewrite (take_ge (take _ _)), drop_ge by (rewrite length_take; lia).
  destruct (decide (crc32c (filled (length (data_of e)) (take (n - 8) (data_of e))) = crc32c (data_of e))) as [Ec|Ec].
  - rewrite (ok_crc _ He _ Ec), decode_data_ok by done. eexists _, _. split; [done|]. right. split_and!; [done|done|by exists e].
  - rewrite decode_data_bad by done. eexists _, _. split; [done|by left].
Qed.

(** *** Markers *)

Definition marker (e : entry) : option Z := match e.2 with EndHeightMessage h => Some h | _ => None end.
Definition markers (es : list entry) : list Z := omap marker es.

(** What follows the first, and the last, marker of a height. *)
Fixpoint after_first (h : Z) (es : list entry) : option (list entry) :=
  match es with [] => None | e :: es => if decide (marker e = Some h) then Some es else after_first h es end.
Fixpoint after_last (h : Z) (es : list entry) : option (list entry) :=
  match es with
  | [] => None
  | e :: es => match after_last h es with Some r => Some r | None => if decide (marker e = Some h) then Some es else None end
  end.
Definition last_marker (last : Z) (es : list entry) : Z := foldl (λ l e, default l (marker e)) last es.

Lemma after_first_None h es : after_first h es = None ↔ h ∉ markers es.
Proof.
  unfold markers. induction es as [|e es IH]; simpl; [set_solver|]. destruct (decide (marker e = Some h)) as [E|E].
  - rewrite E. set_solver.
  - rewrite IH. destruct (marker e) as [m|] eqn:Em; [|done]. rewrite not_elem_of_cons. naive_solver.
Qed.

Lemma after_last_None h es : after_last h es = None ↔ h ∉ markers es.
Proof.
  unfold markers. induction es as [|e es IH]; simpl; [set_solver|]. destruct (after_last h es) as [r|].
  - split; [done|]. intros Hn. destruct (proj2 IH); [|done]. destruct (marker e); set_solver.
  - destruct (decide (marker e = Some h)) as [E|E].
    + rewrite E. set_solver.
    + destruct (marker e) as [m|] eqn:Em; [|tauto]. rewrite not_elem_of_cons. naive_solver.
Qed.

Lemma after_last_app h es es' : after_last h (es ++ es') = match after_last h es' with Some r => Some r | None => (λ r, r ++ es') <$> after_last h es end.
Proof.
  induction es as [|e es IH]; simpl; [by destruct (after_last h es')|]. rewrite IH. destruct (after_last h es'); [done|].
  destruct (after_last h es); [done|]. simpl. by destruct (decide (marker e = Some h)).
Qed.

Lemma after_first_app h es es' : after_first h (es ++ es') = match after_first h es with Some r => Some (r ++ es') | None => after_first h es' end.
Proof. induction es as [|e es IH]; simpl; [done|]. by destruct (decide (marker e = Some h)). Qed.

Lemma last_marker_app last es es' : last_marker last (es ++ es') = last_marker (last_marker last es) es'.
Proof. apply foldl_app. Qed.

Lemma last_marker_elem last es : last_marker last es = last ∨ last_marker last es ∈ markers es.
Proof.
  revert last. unfold markers. induction es as [|e es IH]; intros last; simpl; [by left|]. destruct (IH (default last (marker e))) as [E|E].
  - unfold last_marker in *. rewrite E. destruct (marker e); set_solver.
  - right. unfold last_marker in *. destruct (marker e); set_solver.
Qed.

(** A marker that occurs once is found wherever one looks from. *)
Lemma after_first_last h es : NoDup (markers es) → after_first h es = after_last h es.
Proof.
  unfold markers. induction es as [|e es IH]; [done|]. intros Hnd. simpl in *.
  assert (NoDup (omap marker es)) as Hnd' by (revert Hnd; destruct (marker e); [by intros [_ ?]%NoDup_cons|done]).
  destruct (decide (marker e = Some h)) as [E|E]; [|rewrite (IH Hnd'); by destruct (after_last h es)].
  rewrite E in Hnd. apply NoDup_cons in Hnd as [Hn _]. by rewrite (proj2 (after_last_None h es) Hn).
Qed.

Lemma after_last_ok (P : entry → Prop) h es rest : Forall P es → after_last h es = Some rest → Forall P rest.
Proof.
  induction 1 as [|e es He Hes IH]; simpl; [done|]. destruct (after_last h es); [naive_solver|]. destruct (decide _); naive_solver.
Qed.

(** *** Reading the entries of a log *)

Lemma encs_app es es' : encs (es ++ es') = encs es ++ encs es'.
Proof. unfold encs. by rewrite map_app, concat_app. Qed.
Lemma encs_cons e es : encs (e :: es) = enc e ++ encs es.
Proof. done. Qed.

Lemma encs_length es : (length es ≤ length (encs es))%nat.
Proof. induction es as [|e es IH]; [done|]. rewrite encs_cons, length_app, enc_length. simpl. lia. Qed.

Lemma scan_ok fuel r h last es t : Forall entry_ok es → torn t → content r = encs es ++ t → (length es + length t < fuel)%nat →
  match after_first h es with
  | Some rest => ∃ r', scan fuel r h true last = Done (Found r') ∧ content r' = encs rest ++ t
  | None => scan fuel r h true last = Done (ScanEOF (last_marker last es))
  end.
Proof.
  intros Hes Ht. revert fuel r last. induction Hes as [|e es He Hes IH]; intros fuel r last Hc Hf.
  - destruct fuel as [|fuel]; simpl in Hf; [lia|]. simpl in Hc. cbn [after_first scan]. pose proof (Decode_torn r t Ht Hc) as Hd. case_decide.
    + by rewrite Hd.
    + destruct fuel as [|fuel]; [lia|]. destruct Hd as [why ->]. cbn [mbind outcome_bind scan]. unfold Decode. by rewrite (group_Read_eof ([], [])) by (simpl; lia).
  - destruct fuel as [|fuel]; simpl in Hf; [lia|]. rewrite encs_cons, <- app_assoc in Hc.
    destruct (Decode_entry e r _ He Hc) as (r' & Hd & Hc'). cbn [scan after_first]. rewrite Hd. cbn [mbind outcome_bind].
    destruct e as [tm m]. unfold marker at 1. simpl. destruct m as [? ? ?|? ? ?|?|h']; cbn [snd]; (destruct (decide _) as [E|E]; [simplify_eq|]).
    1-3: apply IH; [done|lia].
    + exists r'. by rewrite Z.eqb_refl.
    + destruct (Z.eqb_spec h' h); [by subst|]. apply IH; [done|lia].
Qed.

Lemma read_entries_ok fuel r es t : Forall entry_ok es → torn t → content r = encs es ++ t → (length es < fuel)%nat →
  ∃ fin, read_entries fuel r = Done (es, fin) ∧ if decide (length t < 4)%nat then fin = ReplayDone else ∃ why, fin = ReplayCorrupt why.
Proof.
  intros Hes Ht. revert fuel r. induction Hes as [|e es He Hes IH]; intros fuel r Hc Hf; (destruct fuel as [|fuel]; [lia|]); cbn [read_entries].
  - pose proof (Decode_torn r t Ht Hc) as Hd. case_decide.
    + rewrite Hd. by eexists.
    + destruct Hd as [why ->]. eexists. split; [done|by eexists].
  - rewrite encs_cons, <- app_assoc in Hc. destruct (Decode_entry e r _ He Hc) as (r' & -> & Hc'). cbn [mbind outcome_bind].
    destruct (IH fuel r' Hc') as (fin & -> & Hfin); [simpl in Hf; lia|]. cbn [mbind outcome_bind]. by eexists.
Qed.

Lemma repair_loop_ok fuel es oe t out : Forall entry_ok es → torn_of oe t → (length es + length t < fuel)%nat →
  ∃ es', repair_loop fuel (mkOsFile (encs es ++ t)) out = Done (Ok (out ++ encs (es ++ es'))) ∧
    (es' = [] ∨ ∃ e, es' = [e] ∧ entry_ok e ∧ oe = Some e).
Proof.
  intros Hes Ht. revert fuel out. induction Hes as [|e es He Hes IH]; intros fuel out Hf; (destruct fuel as [|fuel]; [lia|]); cbn [repair_loop].
  - destruct (file_Decode_torn oe t Ht) as (f & d & Hd & [Hnd|(Hu & Hne & e & He & -> & ->)]); simpl; rewrite Hd; cbn [mbind outcome_bind].
    + exists []. split; [|by left]. destruct d as [e| |]; [by destruct (Hnd e)|..]; by rewrite app_nil_r.
    + exists [e]. split; [|right; by exists e]. rewrite Encode_ok by done. cbn. 
      destruct fuel as [|fuel]; [destruct t; [done|simpl in Hf; lia]|].
      destruct f as [u]. simpl in Hu. subst u. cbn. unfold encs. simpl. by rewrite app_nil_r.
  - rewrite encs_cons, <- app_assoc, file_Decode_entry by done. cbn [mbind outcome_bind]. rewrite Encode_ok by done. cbn [mbind outcome_bind value].
    destruct (IH fuel (out ++ enc e)) as (es' & E & Hes'); [simpl in Hf; lia|]. exists es'. split; [|done].
    unfold value. rewrite E. simpl. by rewrite encs_cons, <- app_assoc.
Qed.

Lemma repair_ok es oe t : Forall entry_ok es → torn_of oe t →
  ∃ es', repairWalFile (encs es ++ t) = Done (Ok (encs (es ++ es'))) ∧ (es' = [] ∨ ∃ e, es' = [e] ∧ entry_ok e ∧ oe = Some e).
Proof.
  intros Hes Ht. unfold repairWalFile. apply (repair_loop_ok _ es oe t []); [done..|]. rewrite length_app. pose proof (encs_length es). lia.
Qed.

(** ** The entries of a group *)

(** The files of a directory hold the entries of [ess], from index [a] on. *)
Definition files_hold (a : Z) (fs : gmap Z bytes) (ess : list (list entry)) : Prop :=
  0 ≤ a ∧ ∀ i, fs !! i = if decide (a ≤ i) then encs <$> ess !! Z.to_nat (i - a) else None.

(** The files, from index [a] on, hold the entries of [ess]; the head and its buffer hold those of
    [es], and the bytes of a torn one. *)
Record log_at (a : Z) (g : Group) (ess : list (list entry)) (es : list entry) (t : bytes) : Prop := {
  lo_max : gMax g = a + Z.of_nat (length ess);
  lo_files : files_hold a (gFiles g) ess;
  lo_head : gHead g ++ gBuf g = encs es ++ t;
  lo_synced : (gSynced g ≤ length (gHead g))%nat;
  lo_ok : Forall entry_ok (concat (ess ++ [es]));
  lo_torn : torn t }.

(** None of the files that the group knows of was removed. *)
Notation log_of g := (log_at (gMin g) g).

(** The marks of heights: within a file each is above the one before it, and after a file
    only the mark of height zero is lower. *)
Definition heights_ok (fs : list (list entry)) : Prop :=
  StronglySorted (λ a b, b = 0 ∨ a < b) (markers (concat fs)) ∧ Forall (λ f, StronglySorted Z.lt (markers f)) fs.

Lemma markers_app es es' : markers (es ++ es') = markers es ++ markers es'.
Proof. apply omap_app. Qed.

Lemma sorted_lt_NoDup (l : list Z) : StronglySorted Z.lt l → NoDup l.
Proof. induction 1 as [|x l Hl IH Hx]; constructor; [|done]. intros Hin. rewrite Forall_forall in Hx. specialize (Hx x Hin). lia. Qed.

(** After a mark of [h], there is none between zero and [h]. *)
Lemma no_early_stop h A B m : StronglySorted (λ a b, b = 0 ∨ a < b) (markers (A ++ B)) → h ∈ markers A → m ∈ markers B → ¬ (0 < m < h).
Proof.
  rewrite markers_app. intros Hs Hh Hm. apply StronglySorted_app in Hs as (Hs & _ & _).
  specialize (Hs _ _ Hh Hm) as [?|?]; lia.
Qed.

Section group.
Context (g : Group) (ess : list (list entry)) (es : list entry) (t : bytes).
Hypothesis Hlog : log_of g ess es t.
Hypothesis Hbuf : gBuf g = [].

Let fs := ess ++ [es].

Lemma reader_content n i : i = gMin g + Z.of_nat n → (n < length fs)%nat →
  file_at g i ++ concat (file_at g <$> seqZ (i + 1) (gMax g - i)) = encs (concat (drop n fs)) ++ t.
Proof.
  unfold fs. destruct Hlog as [Hmax [_ Hf] Hhd _ _ _]. rewrite Hbuf, app_nil_r in Hhd. rewrite length_app. simpl. intros -> Hn.
  remember (length ess - n)%nat as k eqn:Hk. revert n Hn Hk. induction k as [|k IH]; intros n Hn Hk.
  - assert (n = length ess) as -> by lia. rewrite <- Hmax, Z.sub_diag. unfold file_at. rewrite Z.eqb_refl. simpl.
    rewrite drop_app_length. simpl. by rewrite !app_nil_r.
  - destruct (lookup_lt_is_Some_2 ess n ltac:(lia)) as [f Hfn].
    rewrite seqZ_cons by lia. rewrite fmap_cons. simpl. assert (file_at g (gMin g + Z.of_nat n) = encs f) as ->.
    { unfold file_at. destruct (Z.eqb_spec (gMin g + Z.of_nat n) (gMax g)); [lia|]. rewrite Hf. rewrite decide_True by lia.
      replace (Z.to_nat (gMin g + Z.of_nat n - gMin g)) with n by lia. by rewrite Hfn. }
    specialize (IH (S n) ltac:(lia) ltac:(lia)). replace (gMin g + Z.of_nat (S n)) with (gMin g + Z.of_nat n + 1) in IH by lia.
    replace (Z.pred (gMax g - (gMin g + Z.of_nat n))) with (gMax g - (gMin g + Z.of_nat n + 1)) by lia.
    rewrite <- Z.add_1_r, IH. rewrite (drop_S (ess ++ [es]) f n) by (by rewrite lookup_app_l by lia). simpl. by rewrite encs_app, app_assoc.
Qed.

Lemma NewReader_ok n : (n < length fs)%nat → ∃ r, NewReader g (gMin g + Z.of_nat n) = Ok (g, r) ∧ content r = encs (concat (drop n fs)) ++ t.
Proof.
  intros Hn. pose proof (reader_content n _ eq_refl Hn) as Hr. pose proof Hlog as [Hmax [_ Hf] _ _ _ _]. unfold fs in Hn. rewrite length_app in Hn. simpl in Hn.
  unfold NewReader. destruct (Z.ltb_spec (gMax g) (gMin g + Z.of_nat n)); [lia|]. eexists. destruct (Z.eqb_spec (gMin g + Z.of_nat n) (gMax g)) as [E|E].
  - split; [done|]. exact Hr.
  - assert (set_files g (<[gMin g + Z.of_nat n := file_at g (gMin g + Z.of_nat n)]> (gFiles g)) = g) as ->; [|done].
    destruct (lookup_lt_is_Some_2 ess n ltac:(lia)) as [f Hfn]. specialize (Hf (gMin g + Z.of_nat n)). rewrite decide_True in Hf by lia.
    replace (Z.to_nat (gMin g + Z.of_nat n - gMin g)) with n in Hf by lia. rewrite Hfn in Hf. simpl in Hf.
    unfold file_at. destruct (Z.eqb_spec (gMin g + Z.of_nat n) (gMax g)); [lia|]. rewrite Hf. simpl. rewrite insert_id by done. by destruct g.
Qed.

Lemma drop_ok n : Forall entry_ok (concat (drop n fs)).
Proof.
  pose proof (lo_ok _ _ _ _ _ Hlog) as Hok. fold fs in Hok. rewrite <- (take_drop n fs), concat_app in Hok. by apply Forall_app in Hok as [_ ?].
Qed.

Lemma scan_file n r h last : content r = encs (concat (drop n fs)) ++ t →
  match after_first h (concat (drop n fs)) with
  | Some rest => ∃ r', scan (S (reader_size r)) r h true last = Done (Found r') ∧ content r' = encs rest ++ t
  | None => scan (S (reader_size r)) r h true last = Done (ScanEOF (last_marker last (concat (drop n fs))))
  end.
Proof.
  intros Hc. apply scan_ok; [apply drop_ok|apply Hlog|done|]. rewrite reader_size_content, Hc, length_app.
  pose proof (encs_length (concat (drop n fs))). lia.
Qed.

Lemma search_absent n i h last : (n ≤ length fs)%nat → i = gMin g + Z.of_nat n - 1 → h ∉ markers (concat fs) → search_files n i g h true last = Done (g, Ok None).
Proof.
  intros Hn -> Hh. revert last Hn. induction n as [|n IH]; intros last Hn; [done|]. cbn [search_files].
  replace (gMin g + Z.of_nat (S n) - 1) with (gMin g + Z.of_nat n) by lia.
  destruct (NewReader_ok n ltac:(lia)) as (r & -> & Hc). pose proof (scan_file n r h last Hc) as Hs.
  assert (h ∉ markers (concat (drop n fs))) as Hn'.
  { rewrite <- (take_drop n fs), concat_app, markers_app in Hh. set_solver. }
  rewrite (proj2 (after_first_None _ _) Hn') in Hs. rewrite Hs. cbn [mbind outcome_bind].
  destruct (_ && _); [done|]. apply IH. lia.
Qed.

Lemma found_here n h rest : heights_ok fs → (n < length fs)%nat → h ∉ markers (concat (drop (S n) fs)) →
  after_first h (concat (drop n fs)) = Some rest → after_last h (concat fs) = Some rest.
Proof.
  intros [_ Hh] Hn Hout. destruct (lookup_lt_is_Some_2 fs n Hn) as [f Hf]. rewrite <- (take_drop n fs) at 2. rewrite concat_app.
  rewrite (drop_S fs f n Hf). simpl. rewrite after_first_app, !after_last_app, (proj2 (after_last_None _ _) Hout), (proj2 (after_first_None _ _) Hout).
  rewrite after_first_last by (apply sorted_lt_NoDup; rewrite Forall_lookup in Hh; by apply (Hh n)). destruct (after_last h f) as [r0|]; simpl; [|done].
  intros [= <-]. done.
Qed.

Lemma pass_on n h last : heights_ok fs → h ∈ markers (concat fs) → h ∉ markers (concat (drop n fs)) →
  (last = -1 ∨ last ∈ markers (concat (drop (S n) fs))) →
  ((0 <? last_marker last (concat (drop n fs))) && (last_marker last (concat (drop n fs)) <? h) = false)
  ∧ (last_marker last (concat (drop n fs)) = -1 ∨ last_marker last (concat (drop n fs)) ∈ markers (concat (drop n fs))).
Proof.
  intros [Hh _] Hin Hout Hlast. rewrite <- (take_drop n fs), concat_app in Hh, Hin.
  assert (last_marker last (concat (drop n fs)) = -1 ∨ last_marker last (concat (drop n fs)) ∈ markers (concat (drop n fs))) as Hl.
  { destruct (last_marker_elem last (concat (drop n fs))) as [->|?]; [|by right]. destruct Hlast as [->|Hlast]; [by left|]. right.
    destruct (drop n fs) as [|f l] eqn:E.
    - apply (f_equal (drop 1)) in E. rewrite drop_drop, Nat.add_1_r in E. by rewrite E in Hlast.
    - apply (f_equal (drop 1)) in E. rewrite drop_drop, Nat.add_1_r in E. rewrite E in Hlast. simpl in *. rewrite markers_app. set_solver. }
  split; [|done]. destruct Hl as [->|Hl]; [done|].
  rewrite markers_app in Hin. assert (h ∈ markers (concat (take n fs))) as Hin' by set_solver.
  pose proof (no_early_stop h _ _ _ Hh Hin' Hl). apply andb_false_iff. rewrite !Z.ltb_ge. lia.
Qed.

Lemma search_found n i h last : heights_ok fs → (n < length fs)%nat → i = gMin g + Z.of_nat n →
  h ∈ markers (concat fs) → h ∉ markers (concat (drop (S n) fs)) → (last = -1 ∨ last ∈ markers (concat (drop (S n) fs))) →
  ∃ r rest, search_files (S n) i g h true last = Done (g, Ok (Some r)) ∧ after_last h (concat fs) = Some rest ∧ content r = encs rest ++ t.
Proof.
  intros Hh Hn -> Hin. revert last Hn. induction n as [n IH] using lt_wf_ind; intros last Hn Hout Hlast. cbn [search_files].
  destruct (NewReader_ok n Hn) as (r & -> & Hc). pose proof (scan_file n r h last Hc) as Hs.
  destruct (after_first h (concat (drop n fs))) as [rest|] eqn:Ea.
  - destruct Hs as (r' & -> & Hc'). exists r', rest. split_and!; [done|by eapply found_here|done].
  - rewrite Hs. cbn [mbind outcome_bind]. apply after_first_None in Ea. destruct (pass_on n h last Hh Hin Ea Hlast) as [-> Hl].
    destruct n as [|n]; [done|]. replace (gMin g + Z.of_nat (S n) - 1) with (gMin g + Z.of_nat n) by lia. apply IH; [lia..|done|done].
Qed.

Lemma length_files : Z.to_nat (gMax g - gMin g + 1) = length fs.
Proof. unfold fs. rewrite length_app. rewrite (lo_max _ _ _ _ _ Hlog). simpl. lia. Qed.

(** The search gives what follows the last mark of the height, and nothing if there is none. *)
Lemma SearchForEndHeight_ok h : heights_ok fs →
  match after_last h (concat fs) with
  | Some rest => ∃ r, SearchForEndHeight g h true = Done (g, Ok (Some r)) ∧ content r = encs rest ++ t
  | None => SearchForEndHeight g h true = Done (g, Ok None)
  end.
Proof.
  intros Hh. pose proof length_files as Hl. pose proof (lo_max _ _ _ _ _ Hlog) as Hm. unfold SearchForEndHeight. rewrite Hl.
  assert (length fs = S (length ess)) as El by (unfold fs; rewrite length_app; simpl; lia).
  destruct (after_last h (concat fs)) as [rest|] eqn:E.
  - rewrite El. destruct (search_found (length ess) (gMax g) h (-1) Hh) as (r & rest' & -> & Er & Hc); [lia..| | |by left|].
    + apply dec_stable. rewrite <- after_last_None. by rewrite E.
    + rewrite drop_ge by lia. set_solver.
    + rewrite E in Er. simplify_eq. by exists r.
  - apply after_last_None in E. apply search_absent; [done|lia|done].
Qed.

(** The entries that a replay hands on, and how it ends. *)
Lemma catchup_ok h ih rest : heights_ok fs → h ∉ markers (concat fs) → ih ≤ h → after_last (if h =? ih then 0 else h - 1) (concat fs) = Some rest →
  ∃ fin, catchup g h ih = Done (g, rest, fin) ∧ if decide (length t < 4)%nat then fin = ReplayDone else ∃ why, fin = ReplayCorrupt why.
Proof.
  intros Hh Hout Hih Ea. unfold catchup. pose proof (SearchForEndHeight_ok h Hh) as Hs. rewrite (proj2 (after_last_None _ _) Hout) in Hs. rewrite Hs.
  cbn [mbind outcome_bind]. destruct (Z.ltb_spec h ih); [lia|].
  pose proof (SearchForEndHeight_ok (if h =? ih then 0 else h - 1) Hh) as Hs'. rewrite Ea in Hs'. destruct Hs' as (r & -> & Hc). cbn [mbind outcome_bind].
  destruct (read_entries_ok (S (reader_size r)) r rest t) as (fin & -> & Hfin); [|apply Hlog|done| |].
  - pose proof (drop_ok 0) as Hok. rewrite drop_0 in Hok. eapply after_last_ok; done.
  - rewrite reader_size_content, Hc, length_app. pose proof (encs_length rest). lia.
  - by eexists.
Qed.
End group.

(** ** What the operations keep *)

(** What is durable: all of the files, and the entries that lie in the synced part of the head. *)
Definition durable (g : Group) (ess : list (list entry)) (es D : list entry) : Prop :=
  ∃ es1, es1 `prefix_of` es ∧ D `prefix_of` (concat ess ++ es1) ∧ (length (encs es1) ≤ gSynced g)%nat.

Lemma group_Write_spec g p : ∃ hd buf, group_Write g p = set_head g hd (gSynced g) buf ∧ hd ++ buf = (gHead g ++ gBuf g) ++ p ∧ (length (gHead g) ≤ length hd)%nat.
Proof.
  unfold group_Write. destruct (_ <=? _)%nat; [eexists _, _; split_and!; [done|by rewrite app_assoc|done]|].
  destruct (gBuf g) as [|x b] eqn:E; [eexists _, _; split_and!; [done|by rewrite !app_nil_r|rewrite length_app; lia]|].
  destruct (_ <=? _)%nat; (eexists _, _; split_and!; [done| |rewrite !length_app; lia]).
  - rewrite <- E, <- !app_assoc. do 2 f_equal. apply take_drop.
  - rewrite <- E, app_nil_r, <- !app_assoc. do 2 f_equal. apply take_drop.
Qed.

Lemma concat_snoc_ok {A} (P : A → Prop) (ess : list (list A)) es es' : Forall P (concat (ess ++ [es])) → Forall P es' → Forall P (concat (ess ++ [es ++ es'])).
Proof. rewrite !concat_app. simpl. rewrite !app_nil_r, !Forall_app. tauto. Qed.

Lemma Write_ok a g ess es D e : log_at a g ess es [] → durable g ess es D → entry_ok e →
  ∃ g', Write g e = value g' ∧ gMin g' = gMin g ∧ log_at a g' ess (es ++ [e]) [] ∧ durable g' ess (es ++ [e]) D.
Proof.
  intros [Hmax Hf Hhd Hsy Hok Ht] (es1 & Hp & HD & Hl) He. unfold Write. rewrite Encode_ok by done. cbn -[group_Write enc].
  destruct (group_Write_spec g (enc e)) as (hd & buf & -> & Ehd & Hlen). eexists. split; [done|]. split; [done|]. split.
  - split; simpl; [done|done| |lia| |done].
    + rewrite Ehd, Hhd, !app_nil_r, encs_app. f_equal. unfold encs. simpl. by rewrite app_nil_r.
    + apply concat_snoc_ok; [done|by constructor].
  - exists es1. split_and!; [by apply prefix_app_r|done|done].
Qed.

Lemma FlushAndSync_ok a g ess es t : log_at a g ess es t → log_at a (FlushAndSync g) ess es t.
Proof. intros [Hmax Hf Hhd Hsy Hok Ht]. split; simpl; [done|done|by rewrite app_nil_r|done..]. Qed.

Lemma FlushAndSync_durable a g ess es : log_at a g ess es [] → durable (FlushAndSync g) ess es (concat (ess ++ [es])).
Proof.
  intros [Hmax Hf Hhd Hsy Hok Ht]. exists es. split_and!; [done|by rewrite concat_app; simpl; rewrite app_nil_r|]. simpl. by rewrite Hhd, app_nil_r.
Qed.

Lemma RotateFile_ok a g ess es D : log_at a g ess es [] → durable g ess es D → log_at a (RotateFile g) (ess ++ [es]) [] [] ∧ durable (RotateFile g) (ess ++ [es]) [] D.
Proof.
  intros [Hmax [H0 Hf] Hhd Hsy Hok Ht] (es1 & Hp & HD & _). split.
  - split; simpl; [rewrite length_app; simpl; lia| |done|lia| |done].
    + split; [done|]. intros i. rewrite Hhd, app_nil_r, Hmax. destruct (decide (i = a + Z.of_nat (length ess))) as [->|Hne].
      * rewrite lookup_insert_eq. rewrite decide_True by lia. rewrite lookup_app_r by lia.
        replace (Z.to_nat (a + Z.of_nat (length ess) - a) - length ess)%nat with 0%nat by lia. done.
      * rewrite lookup_insert_ne by done. rewrite Hf. case_decide; [|done]. destruct (decide (Z.to_nat (i - a) < length ess)%nat).
        -- by rewrite lookup_app_l.
        -- rewrite !lookup_ge_None_2; [done|rewrite length_app; simpl; lia|lia].
    + rewrite concat_app. simpl. by rewrite app_nil_r.
  - exists []. split_and!; [done| |simpl; lia]. rewrite app_nil_r, concat_app. simpl. rewrite app_nil_r.
    etrans; [exact HD|]. by apply prefix_app.
Qed.

(** ** Opening a log *)

Lemma files_info_spec fs : (∀ i, is_Some (fs !! i) → 0 ≤ i) →
  match files_info fs with
  | (mn, mx) => fs = ∅ ∧ mn = -1 ∧ mx = -1 ∨ is_Some (fs !! mn) ∧ is_Some (fs !! mx) ∧ (∀ i, is_Some (fs !! i) → mn ≤ i ≤ mx)
  end.
Proof.
  unfold files_info. apply (map_fold_weak_ind (λ (r : Z * Z) (fs : gmap Z bytes), (∀ i, is_Some (fs !! i) → 0 ≤ i) →
    match r with (mn, mx) => fs = ∅ ∧ mn = -1 ∧ mx = -1 ∨ is_Some (fs !! mn) ∧ is_Some (fs !! mx) ∧ (∀ i, is_Some (fs !! i) → mn ≤ i ≤ mx) end)).
  - intros _. by left.
  - intros i b fs' [mn mx] Hi IH Hpos. assert (∀ i, is_Some (fs' !! i) → 0 ≤ i) as Hpos'.
    { intros j Hj. apply Hpos. destruct (decide (i = j)) as [->|]; [by rewrite lookup_insert_eq|by rewrite lookup_insert_ne]. }
    assert (0 ≤ i) as Hi0 by (apply Hpos; by rewrite lookup_insert_eq). right. destruct (IH Hpos') as [(-> & -> & ->)|(H1 & H2 & H3)]; simpl.
    + rewrite Z.max_r by lia. rewrite lookup_insert_eq. split_and!; [done|done|]. intros j Hj.
      destruct (decide (i = j)) as [->|]; [lia|]. rewrite lookup_insert_ne, lookup_empty in Hj by done. by destruct Hj.
    + pose proof (Hpos' mn H1). destruct (Z.eqb_spec mn (-1)); [lia|]. simpl. split_and!.
      * destruct (i <? mn); [by rewrite lookup_insert_eq|]. destruct (decide (i = mn)) as [->|]; [by rewrite lookup_insert_eq|by rewrite lookup_insert_ne].
      * destruct (decide (i = Z.max mx i)) as [<-|]; [by rewrite lookup_insert_eq|]. rewrite lookup_insert_ne by done. by replace (Z.max mx i) with mx by lia.
      * intros j Hj. destruct (decide (i = j)) as [->|].
        -- destruct (Z.ltb_spec j mn); lia.
        -- rewrite lookup_insert_ne in Hj by done. specialize (H3 j Hj). destruct (Z.ltb_spec i mn); lia.
Qed.

Lemma files_hold_nil a b fs : files_hold a fs [] → 0 ≤ b → files_hold b fs [].
Proof. intros [_ Hf] Hb. split; [done|]. intros i. rewrite Hf. by repeat case_decide. Qed.

(** The indices that [readGroupInfo] finds. *)
Lemma readGroupInfo_ok a fs ess hd backup : files_hold a fs ess →
  ∃ b total, readGroupInfo fs hd backup = (b, b + Z.of_nat (length ess), total) ∧ files_hold b fs ess ∧ (ess = [] ∨ b = a).
Proof.
  intros [Ha Hf]. pose proof (conj Ha Hf : files_hold a fs ess) as Hfh. unfold readGroupInfo. pose proof (files_info_spec fs) as Hi.
  assert (∀ i, is_Some (fs !! i) ↔ a ≤ i < a + Z.of_nat (length ess)) as Hdom.
  { intros i. rewrite Hf. case_decide; [|split; [by intros []|lia]]. rewrite fmap_is_Some, lookup_lt_is_Some. lia. }
  destruct (files_info fs) as [mn mx]. destruct Hi as [(-> & -> & ->)|(H1 & H2 & H3)]; [intros i Hi; apply Hdom in Hi; lia|..]; simpl.
  - assert (ess = []) as ->. { destruct ess as [|f ess]; [done|]. destruct (proj2 (Hdom a)) as [x Hx]; [simpl; lia|]. by rewrite lookup_empty in Hx. }
    eexists 0, _. split_and!; [done|by apply (files_hold_nil a)|by left].
  - rewrite Hdom in H1, H2. assert (mn = a) as ->. { specialize (H3 a). rewrite Hdom in H3. lia. }
    assert (mx = a + Z.of_nat (length ess) - 1) as ->. { specialize (H3 (a + Z.of_nat (length ess) - 1)). rewrite Hdom in H3. lia. }
    destruct (Z.eqb_spec a (-1)); [lia|]. eexists a, _. split_and!; [|done|by right]. by rewrite Z.sub_add.
Qed.

Lemma OpenGroup_ok a fs ess es t backup hl tl : files_hold a fs ess → Forall entry_ok (concat (ess ++ [es])) → torn t →
  log_of (OpenGroup fs (encs es ++ t) backup hl tl) ess es t.
Proof.
  intros Hf Hok Ht. unfold OpenGroup. destruct (readGroupInfo_ok a fs ess (encs es ++ t) backup Hf) as (b & total & -> & Hb & _).
  split; simpl; [done|done|by rewrite app_nil_r|done..].
Qed.

(** *** Removing the oldest files *)

Definition files_size (fs : gmap Z bytes) : nat := map_fold (λ _ b n, (length b + n)%nat) 0%nat fs.

Lemma files_size_delete i b fs : fs !! i = Some b → files_size fs = (length b + files_size (delete i fs))%nat.
Proof. intros Hi. unfold files_size. rewrite (map_fold_delete_L _ _ i b fs); [done| |done]. intros. lia. Qed.

Lemma files_hold_delete a fs f ess : files_hold a fs (f :: ess) → fs !! a = Some (encs f) ∧ files_hold (a + 1) (delete a fs) ess.
Proof.
  intros [Ha Hf]. split; [by rewrite Hf, decide_True, Z.sub_diag by lia|]. split; [lia|]. intros i. destruct (decide (i = a)) as [->|Hne].
  - rewrite lookup_delete_eq. by rewrite decide_False by lia.
  - rewrite lookup_delete_ne, Hf by done. do 2 case_decide; try lia; [|done]. replace (Z.to_nat (i - a)) with (S (Z.to_nat (i - (a + 1)))) by lia. done.
Qed.

(** A prefix of the files goes. *)
Lemma remove_files_ok n a fs ess total limit : files_hold a fs ess →
  ∃ k, let fs' := remove_files n a (a + Z.of_nat (length ess)) total limit fs in
    (k ≤ length ess)%nat ∧ files_hold (a + Z.of_nat k) fs' (drop k ess) ∧ files_size fs = (length (encs (concat (take k ess))) + files_size fs')%nat.
Proof.
  revert a fs ess total. induction n as [|n IH]; intros a fs ess total Hf; cbn [remove_files].
  { exists 0%nat. rewrite Z.add_0_r. split_and!; [lia|done|done]. }
  destruct (total <? limit); [exists 0%nat; rewrite Z.add_0_r; split_and!; [lia|done|done]|].
  destruct (Z.eqb_spec a (a + Z.of_nat (length ess))) as [E|E]; [exists 0%nat; rewrite Z.add_0_r; split_and!; [lia|done|done]|].
  destruct ess as [|f ess]; [simpl in E; lia|]. destruct (files_hold_delete a fs f ess Hf) as [Ea Hd]. rewrite Ea.
  destruct (IH (a + 1) (delete a fs) ess (total - zlen (encs f)) Hd) as (k & Hk & Hfh & Hs). exists (S k). simpl length in *.
  replace (a + Z.of_nat (S (length ess))) with (a + 1 + Z.of_nat (length ess)) by lia.
  replace (a + Z.of_nat (S k)) with (a + 1 + Z.of_nat k) by lia. split_and!; [lia|done|].
  rewrite (files_size_delete a (encs f)), Hs by done. simpl. rewrite encs_app, length_app. lia.
Qed.

(** The entries of the head once the log is open: an empty head gets the mark of height zero. *)
Definition opened (now : Z) (es : list entry) (t : bytes) : list entry :=
  match es, t with [], [] => [(now, EndHeightMessage 0)] | _, _ => es end.

(** A log as it is after it was opened: nothing is buffered, and all of it is on disk. *)
Definition at_rest (g : Group) : Prop := gBuf g = [] ∧ gSynced g = length (gHead g).

Lemma loadWalFile_ok now a d ess es t : files_hold a (dFiles d) ess → dHead d = encs es ++ t → Forall entry_ok (concat (ess ++ [es])) → torn t →
  entry_ok (now, EndHeightMessage 0) →
  ∃ g, loadWalFile now d = value g ∧ log_of g ess (opened now es t) t ∧ at_rest g.
Proof.
  intros Hf Hd Hok Ht He. unfold loadWalFile, wal_OnStart. rewrite Hd.
  pose proof (OpenGroup_ok a (dFiles d) ess es t (dBackup d) defaultHeadSizeLimit defaultTotalSizeLimit Hf Hok Ht) as Hg.
  set (g := OpenGroup _ _ _ _ _) in *. assert (gBuf g = [] ∧ gHead g = encs es ++ t ∧ gSynced g = length (gHead g)) as (Hb & Hh & Hs).
  { subst g. unfold OpenGroup. by destruct (readGroupInfo _ _ _) as [[mn mx] tot]. }
  rewrite Hh. destruct (Z.eqb_spec (zlen (encs es ++ t)) 0) as [E|E].
  - unfold zlen in E. rewrite length_app in E. pose proof (encs_length es). destruct es; [|simpl in *; lia]. destruct t; [|simpl in *; lia].
    destruct (Write_ok _ g ess [] [] _ Hg ltac:(exists []; split_and!; [done|apply prefix_nil|simpl; lia]) He) as (g' & Ew & Hm & Hg' & _).
    unfold WriteSync. rewrite Ew. cbn. eexists. split; [done|]. split; [|done]. cbn. rewrite Hm. by apply FlushAndSync_ok.
  - exists g. split_and!; [done| |done]. unfold opened. destruct es as [|e es]; [|done]. destruct t as [|x t]; [by destruct E|done].
Qed.

(** Cutting the bytes of a log leaves the entries that fit, and what is left of the next. *)
Lemma cut_encs es k : Forall entry_ok es → ∃ es' t, take k (encs es) = encs es' ++ t ∧ es' `prefix_of` es ∧ torn_of (es !! length es') t
  ∧ ∀ es1, es1 `prefix_of` es → (length (encs es1) ≤ k)%nat → es1 `prefix_of` es'.
Proof.
  intros Hok. revert k. induction Hok as [|e es He Hok IH]; intros k.
  - exists [], []. split_and!; [apply take_nil|done|done|]. intros es1 Hp _. by apply prefix_nil_inv in Hp as ->.
  - destruct (decide (k < length (enc e))%nat) as [Hlt|Hge].
    + exists [], (take k (enc e)). rewrite encs_cons, take_app_le by lia. split_and!; [done|apply prefix_nil|by exists k|].
      intros [|e1 es1] Hp Hl; [done|]. apply prefix_cons_inv_1 in Hp as ->. rewrite encs_cons, length_app in Hl. lia.
    + destruct (IH (k - length (enc e))%nat) as (es' & t & E & Hp & Ht & Hmax). exists (e :: es'), t. rewrite !encs_cons, take_app_ge, E by lia.
      split_and!; [by rewrite app_assoc|by apply prefix_cons|done|]. intros [|e1 es1] Hp1 Hl; [apply prefix_nil|].
      pose proof (prefix_cons_inv_1 _ _ _ _ Hp1) as ->. apply prefix_cons_inv_2 in Hp1. rewrite encs_cons, length_app in Hl. apply prefix_cons, Hmax; [done|lia].
Qed.

(** *** Marks of heights *)

Lemma sorted_prefix {A} (R : A → A → Prop) l l' : StronglySorted R (l ++ l') → StronglySorted R l.
Proof. rewrite StronglySorted_app. tauto. Qed.

Lemma concat_snoc {A} (ess : list (list A)) es : concat (ess ++ [es]) = concat ess ++ es.
Proof. rewrite concat_app. simpl. by rewrite app_nil_r. Qed.

(** The condition, with the head apart. *)
Lemma heights_snoc_iff ess es : heights_ok (ess ++ [es]) ↔
  StronglySorted (λ a b, b = 0 ∨ a < b) (markers (concat ess) ++ markers es) ∧ Forall (λ f, StronglySorted Z.lt (markers f)) ess ∧ StronglySorted Z.lt (markers es).
Proof. unfold heights_ok. by rewrite concat_snoc, markers_app, Forall_app, Forall_singleton. Qed.

Lemma heights_prefix ess es es' : es' `prefix_of` es → heights_ok (ess ++ [es]) → heights_ok (ess ++ [es']).
Proof.
  intros [r ->]. rewrite !heights_snoc_iff, !markers_app. intros (H1 & H2 & H3). rewrite app_assoc in H1.
  by apply sorted_prefix in H1; apply sorted_prefix in H3.
Qed.

Lemma marks_snoc {A} (R : A → A → Prop) l x : StronglySorted R l → (∀ y, y ∈ l → R y x) → StronglySorted R (l ++ [x]).
Proof. intros Hl Hx. apply StronglySorted_app. split_and!; [|done|repeat constructor]. intros y z Hy ->%list_elem_of_singleton. by apply Hx. Qed.

Lemma heights_snoc ess es e : heights_ok (ess ++ [es]) → (∀ h, marker e = Some h → ∀ m, m ∈ markers (concat (ess ++ [es])) → m < h) → heights_ok (ess ++ [es ++ [e]]).
Proof.
  rewrite !heights_snoc_iff, concat_snoc, !markers_app. intros (H1 & H2 & H3) He. destruct (marker e) as [h|] eqn:Em.
  - specialize (He h eq_refl). assert (markers [e] = [h]) as -> by (unfold markers; simpl; by rewrite Em). rewrite app_assoc. split_and!; [|done|].
    + apply marks_snoc; [done|]. intros y Hy. right. by apply He.
    + apply marks_snoc; [done|]. intros y Hy. apply He. set_solver.
  - assert (markers [e] = []) as -> by (unfold markers; simpl; by rewrite Em). by rewrite app_nil_r.
Qed.

Lemma heights_rotate ess es : heights_ok (ess ++ [es]) → heights_ok ((ess ++ [es]) ++ [[]]).
Proof.
  rewrite (heights_snoc_iff (ess ++ [es])). intros [H1 H2]. split_and!; [by rewrite app_nil_r|done|constructor].
Qed.

Lemma heights_opened ess es t now : heights_ok (ess ++ [es]) → heights_ok (ess ++ [opened now es t]).
Proof.
  destruct es as [|e es]; [|done]. destruct t as [|x t]; [|done]. rewrite !heights_snoc_iff. simpl. intros (H1 & H2 & H3).
  split_and!; [|done|repeat constructor]. rewrite app_nil_r in H1. apply marks_snoc; [done|]. by left.
Qed.

(** ** Starting on what a crash left *)

Lemma opened_cases now es t : opened now es t = es ∨ es = [] ∧ opened now es t = [(now, EndHeightMessage 0)].
Proof. destruct es as [|e es]; [|by left]. destruct t; [by right|by left]. Qed.

Lemma opened_markers now es t ess m : m ∈ markers (concat (ess ++ [es])) → m ∈ markers (concat (ess ++ [opened now es t])).
Proof. destruct (opened_cases now es t) as [->|[-> ->]]; [done|]. rewrite !concat_snoc, !markers_app. set_solver. Qed.

Lemma opened_markers_inv now es t ess m : m ∈ markers (concat (ess ++ [opened now es t])) → m = 0 ∨ m ∈ markers (concat (ess ++ [es])).
Proof.
  destruct (opened_cases now es t) as [->|[-> ->]]; [by right|]. rewrite !concat_snoc, !markers_app. rewrite elem_of_app. intros [?|Hm]; [right; set_solver|].
  left. unfold markers in Hm. simpl in Hm. set_solver.
Qed.

(** A start of the node on a log whose head ends in a torn entry. *)
Section start.
Context (now now' a h ih : Z) (ess : list (list entry)).
Hypothesis He : entry_ok (now, EndHeightMessage 0).
Hypothesis He' : entry_ok (now', EndHeightMessage 0).
Hypothesis Hh : 0 < h.
Hypothesis Hih : ih ≤ h.

Let eh := if h =? ih then 0 else h - 1.

(** Opening a log and reading it once. *)
Lemma load_catchup n d b es t : entry_ok (n, EndHeightMessage 0) → files_hold b (dFiles d) ess → dHead d = encs es ++ t →
  Forall entry_ok (concat (ess ++ [es])) → torn t → heights_ok (ess ++ [es]) → h ∉ markers (concat (ess ++ [es])) → eh ∈ markers (concat (ess ++ [es])) →
  ∃ g rest fin, loadWalFile n d = value g ∧ log_of g ess (opened n es t) t ∧ at_rest g ∧ catchup g h ih = Done (g, rest, fin)
    ∧ after_last eh (concat (ess ++ [opened n es t])) = Some rest ∧ if decide (length t < 4)%nat then fin = ReplayDone else ∃ why, fin = ReplayCorrupt why.
Proof.
  intros Hn Hf Hd Hok Ht Hhs Hnh Hm. destruct (loadWalFile_ok n b d ess es t Hf Hd Hok Ht Hn) as (g & Eg & Hg & Hr).
  destruct (after_last eh (concat (ess ++ [opened n es t]))) as [rest|] eqn:Er.
  2: { apply after_last_None in Er. destruct Er. by apply opened_markers. }
  destruct (catchup_ok g ess (opened n es t) t Hg (proj1 Hr) h ih rest) as (fin & Ec & Hfin); [by apply heights_opened| |done|done|].
  - intros [->|?]%opened_markers_inv; [lia|done].
  - by exists g, rest, fin.
Qed.

Lemma start_ok d es oe t : files_hold a (dFiles d) ess → dHead d = encs es ++ t → Forall entry_ok (concat (ess ++ [es])) → torn_of oe t →
  heights_ok (ess ++ [es ++ option_list oe]) → h ∉ markers (concat (ess ++ [es ++ option_list oe])) → eh ∈ markers (concat (ess ++ [es])) →
  ∃ es' head again handed g, replay_on_start now now' d h ih = Done (again ++ handed, Ok g)
    ∧ es `prefix_of` es' ∧ es' `prefix_of` es ++ option_list oe
    ∧ (head = es' ∨ es' = [] ∧ ∃ n, head = [(n, EndHeightMessage 0)])
    ∧ heights_ok (ess ++ [head]) ∧ after_last eh (concat (ess ++ [head])) = Some handed ∧ (again = [] ∨ after_last eh (concat (ess ++ [es])) = Some again)
    ∧ log_of g ess head (if decide (length t < 4)%nat then t else []) ∧ at_rest g.
Proof.
  intros Hf Hd Hok Hoe Hhs Hnh Hm. assert (torn t) as Ht by (by exists oe). assert (heights_ok (ess ++ [es])) as Hhs0 by (eapply heights_prefix; [|done]; by apply prefix_app_r).
  destruct (load_catchup now d a es t He Hf Hd Hok Ht Hhs0) as (g & rest & fin & Eg & Hg & Hr & Ec & Er & Hfin); [|done|].
  { rewrite concat_snoc, markers_app in *. rewrite markers_app in Hnh. set_solver. }
  unfold replay_on_start. rewrite Eg. cbn [mbind outcome_bind value]. unfold value. cbv iota. rewrite Ec. cbn [mbind outcome_bind]. case_decide as Ht4.
  - subst fin. exists es, (opened now es t), [], rest, g. split_and!; [done|done|by apply prefix_app_r| |by apply heights_opened|done|by left|exact Hg|exact Hr].
    destruct (opened_cases now es t) as [->|[-> ->]]; [by left|]. right. split; [done|by eexists].
  - destruct Hfin as [why ->]. assert (opened now es t = es) as Eo by (destruct es, t; simpl in *; (done || lia)). rewrite Eo in *.
    pose proof (FlushAndSync_ok _ _ _ _ _ Hg) as Hg'. destruct Hr as [Hb _].
    assert (gHead (FlushAndSync g) = encs es ++ t) as Ehd by (rewrite <- (lo_head _ _ _ _ _ Hg'); simpl; by rewrite app_nil_r).
    rewrite Ehd. destruct (repair_ok es oe t) as (x & -> & Hx); [|done|]. { rewrite concat_snoc in Hok. by apply Forall_app in Hok as [_ ?]. }
    cbn [mbind outcome_bind]. set (d2 := mkDisk _ _ _). assert (x `prefix_of` option_list oe ∧ Forall entry_ok x) as [Hxp Hxo].
    { destruct Hx as [->|(e & -> & ? & ->)]; [split; [apply prefix_nil|done]|split; [done|by constructor]]. }
    destruct (load_catchup now' d2 (gMin g) (es ++ x) [] He') as (g2 & rest2 & fin2 & Eg2 & Hg2 & Hr2 & Ec2 & Er2 & Hfin2).
    + exact (lo_files _ _ _ _ _ Hg').
    + simpl. by rewrite app_nil_r.
    + by apply concat_snoc_ok.
    + by exists None.
    + apply (heights_prefix _ (es ++ option_list oe)); [by apply prefix_app|done].
    + destruct Hxp as [y Ey]. rewrite Ey in Hnh. rewrite concat_snoc, !markers_app in *. set_solver.
    + rewrite concat_snoc, !markers_app in *. set_solver.
    + rewrite Eg2. cbn [mbind outcome_bind value]. unfold value. cbv iota. rewrite Ec2. cbn [mbind outcome_bind]. simpl in Hfin2. subst fin2.
      exists (es ++ x), (opened now' (es ++ x) []), rest, rest2, g2. split_and!; [done|by apply prefix_app_r|by apply prefix_app| | |done|by right|exact Hg2|exact Hr2].
      * destruct (opened_cases now' (es ++ x) []) as [->|[-> ->]]; [by left|]. right. split; [done|by eexists].
      * apply heights_opened. apply (heights_prefix _ (es ++ option_list oe)); [by apply prefix_app|done].
Qed.
End start.

(** ** Logging *)

(** A log that was opened and holds these entries. *)
Definition holds (g : Group) (L : list entry) : Prop :=
  ∃ ess es, log_of g ess es [] ∧ heights_ok (ess ++ [es]) ∧ L = concat (ess ++ [es]) ∧ at_rest g.

(** The entries of the files that the limit on the total size removes: the first of the log, as
    many as the removed bytes hold. *)
Definition removed (g : Group) (R : list entry) : Prop :=
  files_size (gFiles g) = (length (encs R) + files_size (gFiles (checkTotalSizeLimit g)))%nat.

(** The mark of the end of a height comes after those of the heights below it. *)
Definition next_mark (L : list entry) (e : entry) : Prop := ∀ h, marker e = Some h → ∀ m, m ∈ markers L → m < h.

(** What a node does with its log: [L] was written to it, and [D] before its last sync, both
    without the entries of the files that were removed.  A flush that was not followed by its
    sync is a step of its own, and so are the two checks of the group's ticker. *)
Inductive logging : Group → list entry → list entry → Prop :=
| log_opened g L : holds g L → logging g L L
| log_write g L D e g' : logging g L D → entry_ok e → next_mark L e → Write g e = value g' → logging g' (L ++ [e]) D
| log_write_sync g L D e g' : logging g L D → entry_ok e → next_mark L e → WriteSync g e = value g' → logging g' (L ++ [e]) (L ++ [e])
| log_flush g L D : logging g L D → logging (FlushAndSync g) L L
| log_flush_only g L D : logging g L D → logging (Flush g) L D
| log_tick g L D : logging g L D → logging (checkHeadSizeLimit g) L D
| log_trim g R L D : logging g (R ++ L) D → removed g R → logging (checkTotalSizeLimit g) L (drop (length R) D).

(** Two prefixes of a log with encodings of the same size are the same. *)
Lemma same_size_prefix R L R' L' : R ++ L = R' ++ L' → length (encs R) = length (encs R') → R = R' ∧ L = L'.
Proof.
  assert (∀ A B, length (encs (A ++ B)) = length (encs A) → B = []) as Hnil.
  { intros A B. rewrite encs_app, length_app. pose proof (encs_length B). destruct B; [done|simpl in *; lia]. }
  intros E Hl. apply app_eq_app in E as (l & [[-> ->]|[-> ->]]).
  - apply Hnil in Hl as ->. by rewrite app_nil_r.
  - symmetry in Hl. apply Hnil in Hl as ->. by rewrite app_nil_r.
Qed.

Lemma heights_drop k ess es : heights_ok (ess ++ [es]) → heights_ok (drop k ess ++ [es]).
Proof.
  rewrite !heights_snoc_iff, <- !markers_app. rewrite <- (take_drop k ess) at 1 2. rewrite concat_app, Forall_app, <- app_assoc, markers_app, StronglySorted_app. tauto.
Qed.

Lemma durable_drop g g' k ess es D : gSynced g' = gSynced g → durable g ess es D → durable g' (drop k ess) es (drop (length (concat (take k ess))) D).
Proof.
  intros Es (es1 & Hp & [x Hx] & Hl). exists es1. rewrite Es. split_and!; [done| |done].
  rewrite <- (take_drop k ess), concat_app, <- app_assoc in Hx. apply (f_equal (drop (length (concat (take k ess))))) in Hx.
  rewrite drop_app_length, drop_app in Hx. rewrite Hx. by eexists.
Qed.

(** The oldest files go, and with them the first entries of the log. *)
Lemma trim_ok a g ess es D R L : log_at a g ess es [] → heights_ok (ess ++ [es]) → durable g ess es D → R ++ L = concat (ess ++ [es]) → removed g R →
  ∃ a' ess', log_at a' (checkTotalSizeLimit g) ess' es [] ∧ heights_ok (ess' ++ [es]) ∧ L = concat (ess' ++ [es]) ∧ durable (checkTotalSizeLimit g) ess' es (drop (length R) D).
Proof.
  intros [Hmax Hf Hhd Hsy Hok Ht] Hh HD EL HR.
  assert (∃ a' k, (k ≤ length ess)%nat ∧ checkTotalSizeLimit g = set_files g (gFiles (checkTotalSizeLimit g)) ∧ a' = a + Z.of_nat k
    ∧ files_hold a' (gFiles (checkTotalSizeLimit g)) (drop k ess)
    ∧ files_size (gFiles g) = (length (encs (concat (take k ess))) + files_size (gFiles (checkTotalSizeLimit g)))%nat) as (a' & k & Hk & Eg & Ea & Hf' & Hs).
  { unfold checkTotalSizeLimit. destruct (gTotalLimit g =? 0).
    { exists a, 0%nat. destruct g; simpl in *. split_and!; [lia|done|lia|done|done]. }
    destruct (readGroupInfo_ok a (gFiles g) ess (gHead g) (gBackup g) Hf) as (b & total & -> & Hb & Hba). cbn [set_files gFiles].
    destruct (remove_files_ok maxFilesToRemove b (gFiles g) ess total (gTotalLimit g) Hb) as (k & Hk & Hf' & Hs).
    exists (a + Z.of_nat k), k. split_and!; [done|done|done| |done]. destruct Hba as [->| ->]; [|done]. simpl in Hk. assert (k = 0%nat) as -> by lia.
    eapply files_hold_nil; [exact Hf'|]. destruct Hf. lia. }
  assert (R = concat (take k ess) ∧ L = concat (drop k ess ++ [es])) as [-> ->].
  { apply same_size_prefix; [|unfold removed in HR; lia]. by rewrite EL, <- concat_app, app_assoc, take_drop. }
  exists a', (drop k ess). split_and!; [|by apply heights_drop|done|apply (durable_drop g); [by rewrite Eg|done]].
  rewrite Eg. split; simpl; [rewrite length_drop; lia|done|done|done| |done].
  rewrite <- (take_drop k ess), <- app_assoc, concat_app in Hok. by apply Forall_app in Hok as [_ ?].
Qed.

Lemma logging_inv g L D : logging g L D → ∃ a ess es, log_at a g ess es [] ∧ heights_ok (ess ++ [es]) ∧ L = concat (ess ++ [es]) ∧ durable g ess es D.
Proof.
  induction 1 as [g L (ess & es & Hg & Hh & -> & Hr)|g L D e g' _ (a & ess & es & Hg & Hh & -> & HD) He Hm Ew|g L D e g' _ (a & ess & es & Hg & Hh & -> & HD) He Hm Ew
    |g L D _ (a & ess & es & Hg & Hh & -> & HD)|g L D _ (a & ess & es & Hg & Hh & -> & HD)|g L D _ (a & ess & es & Hg & Hh & -> & HD)
    |g R L D _ (a & ess & es & Hg & Hh & EL & HD) HR].
  - exists (gMin g), ess, es. split_and!; [done..|]. exists es. split_and!; [done|by rewrite concat_snoc|]. destruct Hr as [Hb ->].
    pose proof (lo_head _ _ _ _ _ Hg) as E. rewrite Hb, !app_nil_r in E. by rewrite E.
  - destruct (Write_ok a g ess es D e Hg HD He) as (g2 & E & _ & Hg2 & HD2). rewrite E in Ew. injection Ew as <-.
    exists a, ess, (es ++ [e]). split_and!; [done|by apply heights_snoc|by rewrite !concat_snoc, app_assoc|done].
  - destruct (Write_ok a g ess es D e Hg HD He) as (g2 & E & _ & Hg2 & HD2). unfold WriteSync in Ew. rewrite E in Ew. injection Ew as <-.
    exists a, ess, (es ++ [e]). split_and!; [by apply FlushAndSync_ok|by apply heights_snoc|by rewrite !concat_snoc, app_assoc|].
    rewrite concat_snoc, <- app_assoc, <- concat_snoc. by apply (FlushAndSync_durable a).
  - exists a, ess, es. split_and!; [by apply FlushAndSync_ok|done|done|by apply (FlushAndSync_durable a)].
  - exists a, ess, es. split_and!; [|done..]. destruct Hg as [Hmax Hf Hhd Hsy Hok Ht]. split; simpl; [done|done|by rewrite app_nil_r|rewrite length_app; lia|done|done].
  - unfold checkHeadSizeLimit. destruct (gHeadLimit g =? 0); [by exists a, ess, es|]. destruct (gHeadLimit g <=? zlen (gHead g)); [|by exists a, ess, es].
    destruct (RotateFile_ok a g ess es D Hg HD) as [Hg2 HD2]. exists a, (ess ++ [es]), []. split_and!; [done|by apply heights_rotate| |done].
    by rewrite (concat_snoc (ess ++ [es])), app_nil_r.
  - destruct (trim_ok a g ess es D R L Hg Hh HD EL HR) as (a' & ess' & Ht). by exists a', ess', es.
Qed.

(** A log that is opened for the first time holds the mark of height zero. *)
Lemma first_log now : entry_ok (now, EndHeightMessage 0) → ∃ g, loadWalFile now (mkDisk ∅ [] []) = value g ∧ holds g [(now, EndHeightMessage 0)].
Proof.
  intros He. destruct (loadWalFile_ok now 0 (mkDisk ∅ [] []) [] [] []) as (g & Eg & Hg & Hr); [|done|done|by exists None|done|].
  { split; [done|]. intros i. simpl. rewrite lookup_empty. by case_decide. }
  exists g. split; [done|]. exists [], [(now, EndHeightMessage 0)]. split_and!; [done| |done|exact Hr]. split; [|repeat constructor]. repeat constructor.
Qed.

(** A head that ends in one to three bytes of an entry. *)
Definition short_tail (d : Disk) : Prop := ∃ es t, dHead d = encs es ++ t ∧ (0 < length t < 4)%nat.

(** C17: the log replays after a crash.  Let entries that fit the size limit, with growing marks and with checksums
    that tell each from what a crash leaves of it ([entry_ok]), be written, flushed, synced, rotated and, with
    the oldest files, removed in any order, and let the crash keep at least what was synced of
    the head; let the mark of the height before be among what was synced and not removed, and
    that of the height itself not be in the log.  Then the node starts, repairing the log if it
    has to.  It keeps a prefix of what was written that contains all that was synced, to which
    a start that finds the head empty adds a mark of height zero.  The entries that follow the
    last mark of the height before, the added one included, are handed to the consensus state;
    when the start comes upon a torn entry, those before it were handed once already.  Unless
    the head ends in one to three stray bytes, the log holds exactly what was kept and added,
    and is fit for logging again. *)
Theorem replay_after_crash g L D k now now' h ih :
  logging g L D → (gSynced g ≤ k ≤ length (gHead g))%nat → entry_ok (now, EndHeightMessage 0) → entry_ok (now', EndHeightMessage 0) →
  0 < h → ih ≤ h → h ∉ markers L → (if h =? ih then 0 else h - 1) ∈ markers D →
  ∃ kept added again handed g', replay_on_start now now' (crash g k) h ih = Done (again ++ handed, Ok g')
    ∧ D `prefix_of` kept ∧ kept `prefix_of` L ∧ (added = [] ∨ ∃ n, added = [(n, EndHeightMessage 0)])
    ∧ after_last (if h =? ih then 0 else h - 1) (kept ++ added) = Some handed
    ∧ (again = [] ∨ ∃ before, before `prefix_of` kept ∧ after_last (if h =? ih then 0 else h - 1) before = Some again)
    ∧ (holds g' (kept ++ added) ∨ short_tail (crash g k)).
Proof.
  intros Hrun Hk He He' Hh Hih HL HD. destruct (logging_inv _ _ _ Hrun) as (a & ess & es & Hg & Hhs & -> & (es1 & Hp1 & HD1 & Hl1)).
  pose proof Hg as [Hmax Hf Hhd Hsy Hok Ht]. rewrite app_nil_r in Hhd.
  assert (Forall entry_ok es) as Hoke by (rewrite concat_snoc in Hok; by apply Forall_app in Hok as [_ ?]).
  destruct (cut_encs es k Hoke) as (es' & t & Ec & [r ->] & Htorn & Hmost). specialize (Hmost es1 Hp1 ltac:(lia)).
  rewrite lookup_app_r, Nat.sub_diag in Htorn by lia. assert (option_list (r !! 0%nat) `prefix_of` r) as Hr by (destruct r; [done|by eexists]).
  assert (D `prefix_of` (concat ess ++ es')) as HDk by (etrans; [exact HD1|by apply prefix_app]).
  destruct (start_ok now now' a h ih ess He He' Hh Hih (crash g k) es' (r !! 0%nat) t) as (es2 & head & again & handed & g' & E & Hp2 & Hp2' & Hhead & Hhs' & Ha & Hag & Hg' & Hr').
  - done.
  - simpl. rewrite <- Ec, <- Hhd. by rewrite take_app_le by lia.
  - rewrite concat_snoc in *. rewrite !Forall_app in *. tauto.
  - done.
  - apply (heights_prefix _ (es' ++ r)); [by apply prefix_app|done].
  - destruct Hr as [y Ey]. rewrite Ey in HL. rewrite concat_snoc, !markers_app in *. set_solver.
  - destruct HDk as [y Ey]. rewrite concat_snoc, Ey, markers_app. set_solver.
  - exists (concat ess ++ es2), (match es2 with [] => head | _ => [] end), again, handed, g'.
    assert ((concat ess ++ es2) ++ match es2 with [] => head | _ => [] end = concat (ess ++ [head])) as Eall.
    { rewrite concat_snoc. destruct Hhead as [->|[-> _]]; [|by rewrite app_nil_r]. destruct es2; by rewrite !app_nil_r. }
    rewrite Eall. split_and!; [done| | | |done| |].
    + etrans; [exact HDk|by apply prefix_app].
    + rewrite concat_snoc. apply prefix_app. etrans; [exact Hp2'|by apply prefix_app].
    + destruct Hhead as [->|[-> Hn]]; [destruct es2; by left|by right].
    + destruct Hag as [->|Hag]; [by left|]. right. exists (concat (ess ++ [es'])). split; [|done]. rewrite concat_snoc. by apply prefix_app.
    + case_decide as Ht4; [|left; by exists ess, head]. destruct t as [|x t]; [left; by exists ess, head|]. right. exists es', (x :: t).
      split; [simpl; by rewrite <- Ec, <- Hhd, take_app_le by lia|simpl in *; lia].
Qed.
End wal.

(** ** A log that is read back *)

(** The check value of the checksum, for the digits one to nine. *)
Example crc32c_check : crc32c [49; 50; 51; 52; 53; 54; 55; 56; 57] = 3808858755.
Proof. by vm_compute. Qed.

(** An encoding for marks and timeouts. *)
Definition ex_codec : WalCodec := {|
  timed_Marshal t p :=
    match p with PEndHeight h => [1; t; h] | PTimeoutInfo d h r s => [2; t; d; h; r; s] | _ => [] end;
  timed_Unmarshal b :=
    match b with
    | [1; t; h] => Some (t, Some (PEndHeight h))
    | [2; t; d; h; r; s] => Some (t, Some (PTimeoutInfo d h r s))
    | _ => None
    end |}.
#[local] Existing Instance ex_codec.

Definition ex_timeout (t r : Z) : entry := (t, TimeoutInfo (ConsensusState.ConsensusState.mkTimeout 3 1 r 4)).
Definition ex_mark (t h : Z) : entry := (t, EndHeightMessage h).

Definition crc_okb (d : bytes) : bool :=
  forallb (λ k, let f := filled (length d) (take k d) in negb (crc32c f =? crc32c d) || bool_decide (f = d)) (seq 0 (S (length d)))
  && negb (crc32c [] =? crc32c d).

Lemma crc_okb_spec d : crc_okb d = true →
  (∀ k, crc32c (filled (length d) (take k d)) = crc32c d → filled (length d) (take k d) = d) ∧ crc32c [] ≠ crc32c d.
Proof.
  unfold crc_okb. rewrite andb_true_iff, forallb_forall. intros [H1 H2]. split; [|intros E; by rewrite E, Z.eqb_refl in H2].
  intros k Hk. specialize (H1 (Nat.min k (length d))). rewrite in_seq in H1. specialize (H1 ltac:(lia)). cbv zeta in H1.
  assert (take (Nat.min k (length d)) d = take k d) as E by (rewrite <- (take_take d), firstn_all; done). rewrite E in H1.
  by rewrite Hk, Z.eqb_refl in H1; apply bool_decide_eq_true in H1.
Qed.

Lemma ex_mark_ok t h : crc_okb [1; t; h] = true → entry_ok (ex_mark t h).
Proof. intros [H1 H2]%crc_okb_spec. split; [done|by intros p [= <-]|done|exact H1|exact H2]. Qed.

Lemma ex_timeout_ok t r : crc_okb [2; t; 3; 1; r; 4] = true → entry_ok (ex_timeout t r).
Proof. intros [H1 H2]%crc_okb_spec. split; [done|by intros p [= <-]|done|exact H1|exact H2]. Qed.

Definition the_group (r : decoded Group) : Group := match r with Done (Ok g) => g | _ => OpenGroup ∅ [] [] 0 0 end.

(** A first start, a timeout that was synced, and one whose flush the crash interrupts. *)
Definition ex_g0 : Group := the_group (loadWalFile 7 (mkDisk ∅ [] [])).
Definition ex_g1 : Group := the_group (WriteSync ex_g0 (ex_timeout 8 0)).
Definition ex_g2 : Group := Flush (the_group (Write ex_g1 (ex_timeout 9 1))).

Lemma ex_logging : logging ex_g2 [ex_mark 7 0; ex_timeout 8 0; ex_timeout 9 1] [ex_mark 7 0; ex_timeout 8 0].
Proof.
  assert (holds ex_g0 [ex_mark 7 0]) as H0.
  { destruct (first_log 7) as (g & E & Hg); [by apply ex_mark_ok; vm_compute|]. unfold ex_g0. by rewrite E. }
  apply log_flush_only, (log_write ex_g1 [ex_mark 7 0; ex_timeout 8 0] _ (ex_timeout 9 1)); [|by apply ex_timeout_ok; vm_compute|done|by vm_compute].
  apply (log_write_sync ex_g0 [ex_mark 7 0] [ex_mark 7 0] (ex_timeout 8 0)); [by apply log_opened|by apply ex_timeout_ok; vm_compute|done|by vm_compute].
Qed.

Lemma replay_after_crash_witness :
  ∃ kept added again handed g', replay_on_start 10 11 (crash ex_g2 (length (gHead ex_g2) - 2)) 1 1 = Done (again ++ handed, Ok g')
    ∧ [ex_mark 7 0; ex_timeout 8 0] `prefix_of` kept ∧ kept `prefix_of` [ex_mark 7 0; ex_timeout 8 0; ex_timeout 9 1] ∧ (added = [] ∨ ∃ n, added = [(n, EndHeightMessage 0)])
    ∧ after_last 0 (kept ++ added) = Some handed
    ∧ (again = [] ∨ ∃ before, before `prefix_of` kept ∧ after_last 0 before = Some again)
    ∧ (holds g' (kept ++ added) ∨ short_tail (crash ex_g2 (length (gHead ex_g2) - 2))).
Proof.
  refine (replay_after_crash ex_g2 _ _ (length (gHead ex_g2) - 2) 10 11 1 1 ex_logging _ _ _ _ _ _ _).
  - vm_compute. lia.
  - apply ex_mark_ok. by vm_compute.
  - apply ex_mark_ok. by vm_compute.
  - lia.
  - lia.
  - by_decide.
  - by_decide.
Defined.

(** The timeout that the crash tore is cut off, and the one that was synced is handed on twice. *)
Example torn_entry_repaired : ∃ g', replay_on_start 10 11 (crash ex_g2 (length (gHead ex_g2) - 2)) 1 1 = Done ([ex_timeout 8 0; ex_timeout 8 0], Ok g') ∧ gHead g' = encs [ex_mark 7 0; ex_timeout 8 0].
Proof. eexists. split; by vm_compute. Qed.

(** With limits of one byte, the head is rotated at the first tick and its file removed. *)
Definition ex_small : Group := checkHeadSizeLimit (the_group (wal_OnStart 7 (OpenGroup ∅ [] [] 1 1))).
Example oldest_file_removed : gFiles ex_small = {[ 0 := encs [ex_mark 7 0] ]} ∧ removed ex_small [ex_mark 7 0] ∧ gFiles (checkTotalSizeLimit ex_small) = ∅.
Proof. split_and!; by vm_compute. Qed.

(** A head that ends in up to three bytes of an entry is read as if it ended before them: the log
    is not repaired, and what is written to it from then on cannot be read.  The next start cuts
    the log at the stray bytes, so that an entry that was synced is lost. *)
Theorem stray_bytes_lose_synced :
  ∃ g g2 g3, replay_on_start 10 11 (crash ex_g2 (length (encs [ex_mark 7 0; ex_timeout 8 0]) + 2)) 1 1 = Done ([ex_timeout 8 0], Ok g)
    ∧ WriteSync g (ex_timeout 12 2) = value g2 ∧ gSynced g2 = length (gHead g2)
    ∧ replay_on_start 13 14 (crash g2 (length (gHead g2))) 1 1 = Done ([ex_timeout 8 0; ex_timeout 8 0], Ok g3)
    ∧ gHead g3 = encs [ex_mark 7 0; ex_timeout 8 0].
Proof.
  eexists _, _, _. split; [by vm_compute|]. split; [by vm_compute|]. split; [by vm_compute|]. split; by vm_compute.
Qed.

(** A start that finds an empty head marks the end of height zero in it: after a rotation, a
    restart in the first height replays nothing of what was synced before the rotation. *)
Theorem rotation_hides_first_height : ∃ g, replay_on_start 10 11 (crash (RotateFile ex_g1) 0) 1 1 = Done ([], Ok g).
Proof. eexists. by vm_compute. Qed.
End Wal.
